(* ===== verification/_CoqProject ===== *)
-Q . S2P
Prelude.v
Effects.v
RustStd.v
Collections.v
Text.v
Externals.v
FileSystem.v
Directories.v
Format.v
NetAddr.v
Versions.v
Names.v
GitUrl.v
Publication.v
Identity.v
Constraints.v
Digest.v
Metadata.v
Request.v
Candidates.v
Resolution.v
Union.v
Description.v
Cache.v
Input.v
Archive.v
Objects.v
CacheLaws.v
Materialization.v
Manifest.v
Locators.v
ManifestWire.v
Packages.v
Transaction.v
TransactionLaws.v
TransactionSafety.v
PackagesLaws.v
Policy.v
Compose.v
Lock.v
LockConsume.v
LockWire.v
LockLaws.v
LockGraph.v
LockIdentities.v
LockWireLaws.v
ComposeLaws.v
Adapter.v
AdapterLaws.v
Solve.v
SolveLaws.v
LockSolve.v
Demand.v
DemandLaws.v
Catalog.v
CatalogImport.v
CatalogLaws.v
CatalogIndexLaws.v
Comparison.v
ComparisonLaws.v
Instances.v
Examples.v
CacheExamples.v
TransactionExamples.v
Snapshot.v
SnapshotValidation.v
SnapshotCodec.v
SnapshotLaws.v
SnapshotHistoryLaws.v
SnapshotReleaseLaws.v
SnapshotPublish.v
Evidence.v
EvidenceWire.v
EvidenceMerge.v
EvidenceLaws.v
EvidenceIndex.v
EvidenceSnapshot.v
RepositoryExamples.v
LockExamples.v
ProviderExamples.v
