(* ===== verification/Prelude.v ===== *)
(** * rsolve: a verification library for the domain core, the resolver and the repository

    rsolve resolves the dependencies of R packages.  Providers turn registries
    into validated logical releases; a loader hands the resolver the candidates
    of a subject (a package name, a package of a registry, an exact identity);
    the PubGrub solver picks versions through an adapter; the solution is
    projected to a list of packages, and a comparison explains every choice.
    The selected source archives are committed to an artifact cache and written
    to a repository with an index of their records.  A manifest composes sources,
    roots and policies into an environment to resolve, and a lock file records a
    resolution: who provides each package, which distributions may be installed,
    and the packages each profile reaches.  What providers observed can be kept
    in snapshots, from which candidates are loaded again.  This library models the
    crates [rsolve-core], [rsolve-resolver] and [rsolve-repository]
    ([src/crates/rsolve-core/src], [src/crates/rsolve-resolver/src],
    [src/crates/rsolve-repository/src]), the manifest, composition and lock code
    of [rsolve] ([src/crates/rsolve/src]), and parts of [rsolve-provider], as
    pure functions and as computations over explicit state: the
    solver's cache and interner, and a tree of files any operation on which may
    fail.

    ** Layout

    - [Prelude]: the [Result] monad with [let?], derived equality ([PartialEq],
      written [≈] and [=?=]; [RustEq] says it is an equivalence, [LeibnizEq] that
      it is equality), orders ([CmpOrder], [CmpLeibniz]) and their combinators;
    - [RustStd]: bytes, strings, splitting, UTF-8, decimal text, [u32]/[u64]
      checked arithmetic; [Collections]: [sort_by], [dedup_by], [HashMap] and
      [BTreeMap] as association lists, and the keyed merge shared by aggregations;
    - [Effects]: computations with a state and errors ([stateful], [let!]), their
      Hoare triples, and loops with a bound; [FileSystem] and [Directories]:
      [std::fs] over a tree of nodes, where a [Schedule] decides which operation
      fails and how far it got, with rules for what an operation keeps
      ([keeps], [leaves]) and sees ([sees]);
    - [Externals]: the interfaces of third-party code ([jiff] dates, [sha2],
      Unicode tables, [version-ranges], [pubgrub], [url], [toml], [serde_json]
      bytes, [postcard]) as classes of operations, and the laws a theorem may rely on as separate classes;
    - [Text]: searching, splitting and trimming of byte strings, UTF-8 validity;
      [Format]: [{:?}] of strings, tuples and structs; [NetAddr]: parsing and
      printing of [std::net::IpAddr];
    - [Versions] ([r_versions.rs]), [Names] ([names.rs], [environment.rs]),
      [Publication] ([publication.rs]), [Identity] ([identity.rs]), [Constraints]
      ([constraints.rs]), [Digest] ([metadata/digest.rs]), [Metadata]
      ([metadata/types.rs], [metadata/aggregation.rs]), [Request] ([request.rs],
      [target.rs]), [Candidates] ([candidates.rs]), [Resolution]
      ([resolution.rs]): one component each, operations first, then theorems;
      [GitUrl] is the normalising constructor of [names.rs];
    - [Union] ([rsolve/src/orchestration/candidate_union.rs]): the loader that
      merges the sources of a manifest; [Demand] with [DemandLaws]
      ([rsolve/src/repository_resolution/demand.rs]): which packages are asked of
      which repository;
    - [Description] ([rsolve-provider/src/package_description.rs]): the DCF line
      checks, dependency entries and typed DESCRIPTION fields; [Catalog] and
      [CatalogImport] ([rsolve-provider/src/cran/catalog/mod.rs],
      [catalog/import.rs], [archive_index.rs], with the matrices of [rd_rds] as an
      interface): package indexes and the releases they list, with [CatalogLaws]
      (the strict and the lenient reading) and [CatalogIndexLaws] (catalogs and
      archive indexes);
    - [Cache] ([rsolve-repository/src/lib.rs], [metadata.rs], [paths.rs],
      [util.rs]), [Input] ([input.rs]), [Archive] ([archive.rs]), [Objects] with
      [CacheLaws] ([object.rs]): the artifact cache, from the bounded copy of a
      download to its commit and its hits;
    - [Materialization] (the inputs of [rsolve-repository/src/materialization.rs]),
      [Packages] with [PackagesLaws] ([packages.rs]): the selection that is
      written to disk, and its index; [Transaction] ([materialization.rs],
      [transaction.rs], [state.rs], [filesystem.rs]), with [TransactionLaws] (what
      each step sees, leaves alone and writes) and [TransactionSafety]: staging,
      publication and recovery;
    - [Policy] (projection, base-package overlay, preference and lock policies of
      the resolver's [lib.rs]), [Adapter] with [AdapterLaws] and [Solve] with
      [SolveLaws] ([adapter.rs]), [Comparison] with [ComparisonLaws] (the
      assignment comparison of [lib.rs]);
    - [Manifest] ([rsolve/src/manifest.rs]), [Locators]
      ([manifest/repository.rs]), [ManifestWire] ([manifest/wire.rs], the TOML
      document) and [Compose] with [ComposeLaws] ([manifest/compose.rs]): sources
      and profiles as written, and the environment they compose to;
    - [Lock] with [LockLaws] (the document, its canonical order and its
      validation), [LockConsume] with [LockGraph] (what a profile installs) and
      [LockIdentities] (the identities a document pins), all of
      [rsolve/src/lock.rs]; [LockWire] with [LockWireLaws] ([rsolve/src/wire.rs],
      the TOML text); [LockSolve] ties the solver's resolutions to documents;
    - [Snapshot] ([rsolve-provider/src/snapshot/wire.rs]), [SnapshotValidation]
      ([validation.rs]), [SnapshotCodec] ([codec.rs], [generation.rs] and the raw
      candidates of [lib.rs], with [redb]'s read-only databases as an interface):
      the stored records and their limits, canonical order and meaning, the bytes
      of a generation and the loader; [SnapshotLaws] (the codecs and the orders of
      keys), [SnapshotReleaseLaws] (stored releases), [SnapshotHistoryLaws] (the
      contract of a history), [SnapshotPublish] (the loader and what is prepared);
    - [Evidence] ([rsolve-provider/src/cran/evidence.rs], [evidence/types.rs],
      [indexing.rs], [eligibility.rs], [release.rs], [projection.rs]): observations
      of CRAN packages composed into the input of a snapshot, with [EvidenceWire]
      (the stored form of a release is read back), [EvidenceMerge] (the merge of the
      observations of a release), [EvidenceLaws] (the history of a package),
      [EvidenceIndex] (the order of sources and observations) and
      [EvidenceSnapshot] (what a composition promises);
    - [Instances]: concrete instances of the interfaces, with proofs of their
      laws; [Examples]: a small repository at which the conditional theorems are
      applied and the resolver is run; [RepositoryExamples] (sources, Git URLs, an
      index, a plan of demands), [CacheExamples], [TransactionExamples] (a
      materialisation with operations that fail), [LockExamples] (manifests and
      lock documents) and [ProviderExamples] (a snapshot, an archive index, a
      composition of evidence): the same at other concrete inputs.

    ** Correspondence

    A Rust [struct] is a [Record], an [enum] an [Inductive] with the source's
    constructors, a method [T::f] the definition [T_f] (or [f]), an early return
    [?] is [let?] in [result].  Integers are [N] within their width: overflow is
    [checked], as in the source.  Derived [PartialEq] is a Boolean function; it is
    coarser than equality where a version occurs, since versions compare without
    trailing zeros, so maps keyed by identities are searched with it.  A
    [HashMap] is an association list in insertion order; theorems about results
    that could depend on its order are stated for any order.  The provider's
    [RefCell]s are one state, [ProviderState], threaded by [stateful].

    ** What is shown

    - Values: version order is numeric order, and parsing, hashing and errors
      are characterised exactly ([Versions]); each validated name accepts exactly
      its grammar and is canonical ([Names], [Publication]); a normalised Git
      URL is in canonical form, and normalising is idempotent ([GitUrl]).
    - Encodings: the bytes behind a metadata digest identify identity, version
      and dependencies, up to exactly the spellings they should ([Digest]);
      distribution keys are injective and canonicalisation is canonical
      ([Identity]).
    - Merging: releases, aggregations and prepared candidates merge exactly when
      they agree; nothing is invented, lost or promoted between repositories,
      and the order of observations does not matter ([Metadata], [Candidates]);
      root composition is conjunction ([Constraints]).
    - Policies: the default preference is the documented total order, the
      base-package overlay shadows exactly the base names ([Policy]).
    - Adapter: ids stand for identities throughout a solve; the version chosen is
      the preferred admissible one, and the publication policy is honoured
      whenever it can be ([AdapterLaws]).  Every state the solver can reach by
      calls of the provider keeps the invariant [state_wf] ([provider_run]).
    - Refinement: against the contract of [pubgrub::resolve] ([PubGrubLaws]),
      [solve] returns a sound resolution whenever PubGrub finds a solution, and
      none of its internal errors can occur ([SolveLaws.solve_spec]).
    - Explanation: reported reasons and bases hold and are the first that do; the
      comparison exists for every resolution and does not depend on the loader's
      order ([ComparisonLaws]).

    - Sources: the union of loaders is the merge of what each returns, whatever
      their order ([Union]); the plan of demands is the closure of the roots under
      what the repositories declare, and planning ends ([DemandLaws]).
    - Indexes of CRAN: the strict reading accepts exactly the indexes of which the
      lenient one rejects nothing; the lenient one keeps or sets aside every record,
      and says why ([CatalogLaws]); a catalog has the releases of its records and
      no other, and an archive index is accepted only for the package that was
      asked for ([CatalogIndexLaws]).
    - Index: what the PACKAGES writer writes is well-formed and is read back by
      the DESCRIPTION reader ([PackagesLaws]); a validated selection has one plain
      file name per package ([Materialization]).
    - Cache: for every schedule of failures a commit that succeeds has an intact
      object and its metadata, and no commit loses an object that was there
      ([CacheLaws]); the copy of a download is bounded and ends, and its digests
      are those of the bytes ([Input]); an archive that is accepted stays inside
      its directory and has the expected DESCRIPTION ([Archive]).
    - Materialisation: for every schedule of failures, so wherever the process
      stops, files of the published repository never change and a committed
      state describes the repository; a run that succeeds has published what was
      selected; recovery ends ([TransactionSafety]).
    - Composition: a composed environment is the union of its sources, roots and
      policies, and is refused exactly when two of them disagree; a requested
      path is normalised lexically and never leaves the directory of its manifest
      ([ComposeLaws]).
    - Lock: the constructor accepts exactly the consistent documents and puts
      them in canonical order ([LockLaws]); a document that is written is read
      back ([LockWireLaws]); the packages of a profile are those that can be
      reached from its roots ([LockGraph]); the identities a document pins are
      those of its packages ([LockIdentities]); every resolution of the solver
      can be locked, and the document provides what was solved ([LockSolve]).
    - Snapshots: a history or a header has exactly one accepted encoding
      ([SnapshotLaws]); a history is accepted exactly when it keeps its contract,
      and then its lists are in the only order they can have
      ([SnapshotHistoryLaws]); a stored release stands for one release of the
      domain ([SnapshotReleaseLaws]); whatever a database holds, what the loader
      serves is valid and belongs to the package asked for, and a generation that was prepared and written passes its validation and is
      served as it was observed ([SnapshotPublish]).
    - Evidence: a composition that succeeds is an input that a generation is
      prepared from, whatever was observed, and depends only on the set of the
      observations; a package is present exactly when its evidence is complete, and
      its releases are then exactly the versions observed ([EvidenceSnapshot]); the
      observations of a release are merged to the union of what they say
      ([EvidenceMerge]).

    ** Bounds and fuel

    Pure recursion is structural.  The copy loop of [Input] runs for the limit
    plus two steps at most, a binary number, and is proved to end before; the
    loops that hash a file have its length as fuel, and each step consumes a byte
    at least; [recover] calls itself, and with two calls it always ends when no
    operation fails ([materialize_ends]); every other theorem about it holds for
    any fuel.  Marking the packages a profile reaches visits a package once, so
    the number of packages and one more is enough fuel
    ([LockGraph.mark_reachable_marks]).  The walk over demands visits a package
    under a source twice at most, and has a bound that depends on what the repositories
    declare ([DemandLaws.rank]).  The example solver of [Instances] has 1000 steps; its laws hold
    whatever the fuel is.  Sizes
    that Rust guarantees by memory (lengths fit [u64]) are hypotheses named
    [fits], [..._sized], [distribution_wf].

    ** Not modelled

    PubGrub's search, SHA-256, calendar arithmetic and Unicode tables are
    interfaces.  [DependencyConstraints] is only known to keep one range at least
    per package, so soundness speaks of one requirement per owner and subject.
    [Display] of the adapter's internal error is left out, and so is the branch
    of [normalize_line_endings] for a byte that starts no character, which text
    does not have.  Of files, links, permissions other than read-only, and other
    processes are left out: locks are taken and exclude nobody.

    Of snapshots, the writing of the database file and the store around the
    generations ([snapshot/cache.rs]) are left out: they are calls of [redb] and
    file operations.  [redb] itself is an interface that promises nothing;
    [SnapshotPublish] names what it needs ([database_holds]).  The composition of
    evidence does not check that declared sha256 checksums are digests, so an input
    with one that is not is only refused when it is prepared: the theorem that it
    is prepared asks for it ([EvidenceIndex.checksums_built]).  Of the CRAN
    provider, the published histories, the caches, the sessions and the transport
    are left out; the R-universe provider is HTTP sessions and parsers of JSON
    around the core types; source control runs git; the orchestration, apart from
    the demands, and the command line are asynchronous glue over the parts that are
    modelled. *)

From Stdlib Require Export Sorted Permutation.
From stdpp Require Export prelude strings list sorting.


Declare Scope rsolve_scope.
Delimit Scope rsolve_scope with rsolve.
#[global] Open Scope rsolve_scope.

(** ** Tactics *)

(** Splits every [match] and [if] on the way to a contradiction or to the
    equation that survives. *)
Ltac split_matches :=
  repeat (case_match; simplify_eq/=; try done).

(** ** Rust's [Result] *)

Inductive result (T E : Type) : Type :=
| Ok (value : T)
| Err (error : E).
Arguments Ok {T E} value.
Arguments Err {T E} error.

#[export] Instance result_eq_dec {T E} `{EqDecision T, EqDecision E} :
  EqDecision (result T E).
Proof. solve_decision. Defined.

Definition is_ok {T E} (r : result T E) : bool :=
  match r with Ok _ => true | Err _ => false end.

(** The [?] operator. *)
Definition result_bind {T U E} (r : result T E) (k : T → result U E) : result U E :=
  match r with Ok x => k x | Err e => Err e end.
Arguments result_bind {T U E} !r k /.

Definition map_err {T E F} (f : E → F) (r : result T E) : result T F :=
  match r with Ok x => Ok x | Err e => Err (f e) end.

Definition result_map {T U E} (f : T → U) (r : result T E) : result U E :=
  match r with Ok x => Ok (f x) | Err e => Err e end.

Definition ok_or {T E} (e : E) (o : option T) : result T E :=
  match o with Some x => Ok x | None => Err e end.

Notation "'let?' x ':=' e 'in' k" := (result_bind e (λ x, k))
  (at level 10, x pattern, e at level 100, k at level 200)
  : rsolve_scope.

(** [collect::<Result<Vec<_>, _>>()] of a mapped iterator: stops at the first error. *)
Fixpoint try_map {A B E} (f : A → result B E) (l : list A) : result (list B) E :=
  match l with
  | [] => Ok []
  | x :: l => let? y := f x in let? ys := try_map f l in Ok (y :: ys)
  end.

(** A loop whose body can return early with an error. *)
Fixpoint try_fold {A B E} (f : B → A → result B E) (acc : B) (l : list A) : result B E :=
  match l with
  | [] => Ok acc
  | x :: l => let? acc := f acc x in try_fold f acc l
  end.

(** A loop whose body only checks. *)
Fixpoint try_each {A E} (f : A → result unit E) (l : list A) : result unit E :=
  match l with
  | [] => Ok tt
  | x :: l => let? _ := f x in try_each f l
  end.

Lemma try_fold_ext {A B E} (f g : B → A → result B E) acc l :
  (∀ b x, f b x = g b x) → try_fold f acc l = try_fold g acc l.
Proof.
  intros Hfg. revert acc. induction l as [|x l IH]; intros acc; simpl; [done|].
  rewrite Hfg. destruct (g acc x); simpl; auto.
Qed.

Lemma try_fold_app {A B E} (f : B → A → result B E) acc (l k : list A) :
  try_fold f acc (l ++ k) = let? acc := try_fold f acc l in try_fold f acc k.
Proof. revert acc. induction l as [|x l IH]; intros acc; simpl; [done|]. by destruct (f acc x); simpl. Qed.

Lemma try_fold_map_err {A B E F} (f : B → A → result B E) (g : E → F) acc l :
  try_fold (λ b a, map_err g (f b a)) acc l = map_err g (try_fold f acc l).
Proof. revert acc. induction l as [|x l IH]; intros acc; simpl; [done|]. by destruct (f acc x); simpl. Qed.

Lemma dec_eq_iff (P Q : Prop) : (P ↔ Q) → Decision P → Decision Q.
Proof. intros HPQ [HP|HP]; [left|right]; tauto. Defined.

(** [Iterator::find_map]. *)
Fixpoint list_find_map {A B} (f : A → option B) (l : list A) : option B :=
  match l with
  | [] => None
  | x :: l => match f x with Some y => Some y | None => list_find_map f l end
  end.

Lemma list_find_map_some {A B} (f : A → option B) (l : list A) (y : B) :
  list_find_map f l = Some y ↔ ∃ before x after,
    l = before ++ x :: after ∧ f x = Some y ∧ ∀ z, z ∈ before → f z = None.
Proof.
  induction l as [|x l IH]; simpl; [split; [done|by intros ([] & ? & ? & [=] & _)]|].
  destruct (f x) as [z|] eqn:E.
  - split.
    + intros [= <-]. exists [], x, l. split_and!; [done..|]. by intros ? ?%elem_of_nil.
    + intros ([|w before] & v & after & [= <- ->] & Hf & Hb); [congruence|].
      by rewrite (Hb x) in E by left.
  - rewrite IH. split.
    + intros (before & v & after & -> & Hf & Hb). exists (x :: before), v, after.
      split_and!; [done..|]. intros w [->|Hw]%elem_of_cons; auto.
    + intros ([|w before] & v & after & [= <- ->] & Hf & Hb); [congruence|].
      exists before, v, after. split_and!; [done..|]. intros w Hw. apply Hb. by right.
Qed.

Lemma list_find_map_none {A B} (f : A → option B) (l : list A) :
  list_find_map f l = None ↔ ∀ x, x ∈ l → f x = None.
Proof.
  induction l as [|x l IH]; simpl; [split; [intros _ ? []%elem_of_nil|done]|].
  setoid_rewrite elem_of_cons. destruct (f x) eqn:E; [|rewrite IH]; naive_solver.
Qed.

Section result_lemmas.
Context {T U E F : Type}.

Lemma result_bind_ok (r : result T E) (k : T → result U E) (u : U) :
  result_bind r k = Ok u ↔ ∃ x, r = Ok x ∧ k x = Ok u.
Proof. destruct r; naive_solver. Qed.

Lemma result_bind_err (r : result T E) (k : T → result U E) (e : E) :
  result_bind r k = Err e ↔ r = Err e ∨ ∃ x, r = Ok x ∧ k x = Err e.
Proof. destruct r; naive_solver. Qed.

Lemma map_err_ok (f : E → F) (r : result T E) x : map_err f r = Ok x ↔ r = Ok x.
Proof. destruct r; naive_solver. Qed.

Lemma result_map_ok (f : T → U) (r : result T E) u :
  result_map f r = Ok u ↔ ∃ x, r = Ok x ∧ u = f x.
Proof. destruct r; naive_solver. Qed.
End result_lemmas.

Lemma try_map_ext {T U E} (f g : T → result U E) (l : list T) :
  (∀ x, x ∈ l → f x = g x) → try_map f l = try_map g l.
Proof.
  induction l as [|x l IH]; intros Hfg; simpl; [done|].
  rewrite Hfg by left. rewrite IH; [done|]. intros y Hy. apply Hfg. by right.
Qed.

Lemma try_map_ok {T U E} (f : T → result U E) (l : list T) (ys : list U) :
  try_map f l = Ok ys ↔ Forall2 (λ x y, f x = Ok y) l ys.
Proof.
  revert ys. induction l as [|x l IH]; intros ys; simpl.
  - split; [intros [= <-]; constructor | by inversion 1].
  - rewrite result_bind_ok. split.
    + intros (y & Hy & (zs & Hzs%IH & [= <-])%result_bind_ok). by constructor.
    + inversion 1 as [|? y ? zs Hy Hzs]; subst. apply IH in Hzs.
      exists y. split; [done|]. apply result_bind_ok. eauto.
Qed.

Lemma try_map_checked {A B E U} (f : A → result B E) (l : list A) (k : result U E) (u : U) :
  (let? _ := try_map f l in k) = Ok u ↔ (∀ x, x ∈ l → ∃ y, f x = Ok y) ∧ k = Ok u.
Proof.
  rewrite result_bind_ok. setoid_rewrite try_map_ok. split.
  - intros (ys & Hys & Hk). split; [|done]. intros x Hx.
    apply (Forall2_Forall_l _ (λ x, ∃ y, f x = Ok y)) in Hys; [by eapply Forall_forall in Hys|].
    apply Forall_forall. eauto.
  - intros [Hl Hk]. assert (∃ ys, Forall2 (λ x y, f x = Ok y) l ys) as [ys Hys]; [|by exists ys].
    clear Hk. induction l as [|x l IH]; [by exists []|].
    destruct (Hl x) as [y Hy]; [by left|]. destruct IH as [ys Hys]; [intros z Hz; apply Hl; by right|].
    exists (y :: ys). by constructor.
Qed.

Lemma try_map_units {A E} (f : A → result unit E) (l : list A) :
  (∃ ys, try_map f l = Ok ys) ↔ ∀ x, x ∈ l → f x = Ok tt.
Proof.
  assert ((∃ ys, try_map f l = Ok ys) ↔ (let? _ := try_map f l in Ok tt) = Ok tt) as ->.
  { destruct (try_map f l); simpl; [naive_solver|]. split; [by intros []|done]. }
  rewrite try_map_checked. split.
  - intros [Hl _] x Hx. destruct (Hl x Hx) as [[] ?]. done.
  - intros Hl. split; [|done]. intros x Hx. exists tt. by apply Hl.
Qed.

(** A check of all the elements. *)
Lemma try_map_check {A E U} (f : A → result unit E) (l : list A) (k : result U E) (u : U) :
  (let? _ := try_map f l in k) = Ok u ↔ (∀ x, x ∈ l → f x = Ok tt) ∧ k = Ok u.
Proof. rewrite result_bind_ok, <-try_map_units. naive_solver. Qed.

Lemma try_each_ok {A E} (f : A → result unit E) (l : list A) (u : unit) :
  try_each f l = Ok u ↔ Forall (λ x, f x = Ok tt) l.
Proof.
  destruct u. induction l as [|x l IH]; simpl; [split; [constructor|done]|].
  rewrite result_bind_ok, Forall_cons, <-IH. split; [by intros ([] & ? & ?)|naive_solver].
Qed.

(** ** Rust's [PartialEq]

    [req] is the equality the program computes.  It is coarser than Coq's
    equality wherever a version occurs in the value (two spellings of one
    version are equal), so the library reasons with the setoid [≈] it
    induces. *)

Class PartialEq (A : Type) := req : A → A → bool.
#[global] Hint Mode PartialEq ! : typeclass_instances.
#[global] Arguments req {A _} _ _ : simpl never.
Infix "=?=" := req (at level 70) : rsolve_scope.

Definition req_rel {A} `{PartialEq A} : relation A := λ x y, req x y = true.
Infix "≈" := req_rel (at level 70) : rsolve_scope.
Notation "(≈)" := req_rel (only parsing) : rsolve_scope.
Notation "x ≉ y" := (¬ req_rel x y) (at level 70) : rsolve_scope.

(** What [derive(Eq)] promises. *)
Class RustEq (A : Type) `{PartialEq A} : Prop := {
  req_refl (x : A) : req x x = true;
  req_sym (x y : A) : req x y = req y x;
  req_trans (x y z : A) : req x y = true → req y z = true → req x z = true;
}.

(** Equalities that decide Coq's equality. *)
Class LeibnizEq (A : Type) `{PartialEq A} : Prop :=
  req_leibniz (x y : A) : req x y = true ↔ x = y.

#[export] Instance req_rel_decision {A} `{PartialEq A} : RelDecision (A:=A) (≈).
Proof. intros x y. unfold req_rel. apply _. Defined.

(** Equality of a type whose [PartialEq] is structural all the way down. *)
Definition req_dec {A} `{EqDecision A} : PartialEq A := λ x y, bool_decide (x = y).

Section req_laws.
Context {A : Type} `{PartialEq A}.

Lemma req_dec_leibniz `{EqDecision A} : @LeibnizEq A req_dec.
Proof. intros x y. unfold req, req_dec. apply bool_decide_eq_true. Qed.

#[global] Instance req_leibniz_equivalence `{!LeibnizEq A} : RustEq A.
Proof.
  split.
  - intros x. by apply req_leibniz.
  - intros x y. apply eq_true_iff_eq. rewrite !req_leibniz. done.
  - intros x y z. rewrite !req_leibniz. congruence.
Qed.

Context `{!RustEq A}.

#[global] Instance req_rel_equivalence : Equivalence (A:=A) (≈).
Proof.
  split; unfold req_rel.
  - intros x. apply req_refl.
  - intros x y. by rewrite req_sym.
  - intros x y z. apply req_trans.
Qed.

#[global] Instance req_proper : Proper ((≈) ==> (≈) ==> (=)) (req (A:=A)).
Proof.
  intros x x' Hx y y' Hy. apply eq_true_iff_eq.
  change (x ≈ y ↔ x' ≈ y'). split; intros Hxy.
  - rewrite <-Hx, <-Hy. done.
  - rewrite Hx, Hy. done.
Qed.

Lemma req_true_iff (x y : A) : req x y = true ↔ x ≈ y.
Proof. done. Qed.

Lemma req_false_iff (x y : A) : req x y = false ↔ x ≉ y.
Proof. unfold req_rel. by destruct (req x y). Qed.

Lemma req_eq_true (x : A) : req x x = true.
Proof. apply req_refl. Qed.
End req_laws.

(** Proves [RustEq] of a derived equality [f]: a case analysis on the
    constructors whose fields all have lawful equalities. *)
Ltac solve_rust_eq f :=
  split;
  [ intros x; change (f x x = true); destruct x; unfold f; simpl; by rewrite ?req_refl
  | intros x y; change (f x y = f y x); destruct x, y; unfold f; simpl; try done;
    repeat first [apply req_sym | apply (f_equal2 andb)]
  | intros x y z; change (f x y = true → f y z = true → f x z = true);
    destruct x, y, z; unfold f; simpl; try done; rewrite ?andb_true_iff; intros; destruct_and?;
    split_and?; by eapply req_trans ].

#[export] Instance req_string : PartialEq string := req_dec.
#[export] Instance req_string_leibniz : LeibnizEq string := req_dec_leibniz.
#[export] Instance req_N : PartialEq N := N.eqb.
#[export] Instance req_N_leibniz : LeibnizEq N := N.eqb_eq.
#[export] Instance req_nat : PartialEq nat := Nat.eqb.
#[export] Instance req_nat_leibniz : LeibnizEq nat := Nat.eqb_eq.

Section req_containers.
Context {A B : Type} `{PartialEq A, PartialEq B}.

#[global] Instance req_option : PartialEq (option A) := λ x y,
  match x, y with
  | Some x, Some y => x =?= y
  | None, None => true
  | _, _ => false
  end.

Fixpoint list_req (l k : list A) : bool :=
  match l, k with
  | [], [] => true
  | x :: l, y :: k => (x =?= y) && list_req l k
  | _, _ => false
  end.
#[global] Instance req_list : PartialEq (list A) := list_req.

#[global] Instance req_prod : PartialEq (A * B) := λ x y, (x.1 =?= y.1) && (x.2 =?= y.2).

Lemma list_req_Forall2 (l k : list A) : l ≈ k ↔ Forall2 (≈) l k.
Proof.
  unfold req_rel at 1, req, req_list. revert k.
  induction l as [|x l IH]; intros [|y k]; simpl.
  - split; [constructor | done].
  - split; [done | by inversion 1].
  - split; [done | by inversion 1].
  - rewrite andb_true_iff, IH. split.
    + intros []. by constructor.
    + by inversion 1.
Qed.

Context `{!RustEq A, !RustEq B}.

#[global] Instance req_option_equivalence : RustEq (option A).
Proof.
  split; unfold req, req_option.
  - intros [x|]; [apply req_refl | done].
  - intros [x|] [y|]; try done. apply req_sym.
  - intros [x|] [y|] [z|]; try done. apply req_trans.
Qed.

#[global] Instance req_list_equivalence : RustEq (list A).
Proof.
  split.
  - intros l. apply list_req_Forall2. done.
  - intros l k. apply eq_true_iff_eq.
    change (l ≈ k ↔ k ≈ l). rewrite !list_req_Forall2. done.
  - intros l k m. change (l ≈ k → k ≈ m → l ≈ m). rewrite !list_req_Forall2.
    intros. by etrans.
Qed.

#[global] Instance req_prod_equivalence : RustEq (A * B).
Proof.
  split; unfold req, req_prod.
  - intros [x y]. simpl. by rewrite !req_refl.
  - intros [x y] [x' y']. simpl. by rewrite (req_sym x), (req_sym y).
  - intros [] [] []. simpl. rewrite !andb_true_iff. intros [] []. split; by eapply req_trans.
Qed.
End req_containers.

#[export] Instance req_option_leibniz {A} `{PartialEq A, !LeibnizEq A} : LeibnizEq (option A).
Proof.
  intros [x|] [y|]; unfold req, req_option; try done.
  rewrite req_leibniz. naive_solver.
Qed.

#[export] Instance req_list_leibniz {A} `{PartialEq A, !LeibnizEq A} : LeibnizEq (list A).
Proof.
  intros l k. change (l ≈ k ↔ l = k). rewrite list_req_Forall2. split.
  - induction 1 as [|x y l k Hxy _ ->]; [done|]. by apply req_leibniz in Hxy as ->.
  - intros <-. apply Forall2_same_length_lookup_2; [done|].
    intros i x y Hx Hy. simplify_eq. by apply req_leibniz.
Qed.

(** ** Rust's [Ord]

    Comparison functions are plain functions into [comparison]; [Ord]'s
    contract is the class [CmpOrder].  [c x y = Eq] need not be equality. *)

Definition then_with (c d : comparison) : comparison :=
  match c with Eq => d | _ => c end.

Definition is_lt (c : comparison) : bool := match c with Lt => true | _ => false end.
Definition is_gt (c : comparison) : bool := match c with Gt => true | _ => false end.
Definition is_eq (c : comparison) : bool := match c with Eq => true | _ => false end.

Class CmpOrder {A} (c : A → A → comparison) : Prop := {
  cmp_sym (x y : A) : c y x = CompOpp (c x y);
  cmp_trans (x y z : A) o : c x y = o → c y z = o → c x z = o;
  cmp_eq_l (x y z : A) : c x y = Eq → c x z = c y z;
}.

Arguments cmp_sym {A} c {_} x y.
Arguments cmp_trans {A} c {_} x y z o.
Arguments cmp_eq_l {A} c {_} x y z.

(** Orders in which only equal values compare equal. *)
Class CmpLeibniz {A} (c : A → A → comparison) : Prop :=
  cmp_eq_leibniz (x y : A) : c x y = Eq → x = y.

Section cmp_laws.
Context {A : Type} (c : A → A → comparison) `{!CmpOrder c}.

Lemma cmp_refl x : c x x = Eq.
Proof. pose proof (cmp_sym c x x) as Hc. by destruct (c x x). Qed.

Lemma cmp_eq_r x y z : c x y = Eq → c z x = c z y.
Proof. intros Hxy. rewrite (cmp_sym c x z), (cmp_sym c y z). by rewrite (cmp_eq_l c x y z). Qed.

Lemma cmp_lt_gt x y : c x y = Lt ↔ c y x = Gt.
Proof. rewrite (cmp_sym c x y). by destruct (c x y). Qed.

Lemma cmp_le_trans x y z : c x y ≠ Gt → c y z ≠ Gt → c x z ≠ Gt.
Proof.
  intros Hxy Hyz. destruct (c x y) eqn:E; [|destruct (c y z) eqn:F|done]; try done.
  - by rewrite (cmp_eq_l c _ _ _ E).
  - rewrite <-(cmp_eq_r _ _ _ F). congruence.
  - by rewrite (cmp_trans c _ _ _ _ E F).
Qed.

Lemma cmp_le_total x y : c x y ≠ Gt ∨ c y x ≠ Gt.
Proof. rewrite (cmp_sym c x y). destruct (c x y); auto. Qed.
End cmp_laws.

Arguments cmp_eq_leibniz {A} c {_} x y.

Lemma then_with_eq c d : then_with c d = Eq ↔ c = Eq ∧ d = Eq.
Proof. destruct c; simpl; naive_solver. Qed.

Lemma cmp_order_ext {A} (c d : A → A → comparison) :
  (∀ x y, c x y = d x y) → CmpOrder d → CmpOrder c.
Proof.
  intros Hc Hd. split; intros *; rewrite !Hc; [apply (cmp_sym d) | apply (cmp_trans d) | apply (cmp_eq_l d)].
Qed.

(** [sort_by_key] and [max_by_key] comparisons. *)
Definition cmp_on {A B} (f : A → B) (c : B → B → comparison) : A → A → comparison :=
  λ x y, c (f x) (f y).

(** [a.cmp(b).then_with(|| ...)]. *)
Definition cmp_then {A} (c d : A → A → comparison) : A → A → comparison :=
  λ x y, then_with (c x y) (d x y).

(** Reversed operands, [right.cmp(left)]. *)
Definition cmp_rev {A} (c : A → A → comparison) : A → A → comparison := λ x y, c y x.

(** [Ord] of [Option]: [None] first. *)
Definition option_cmp {A} (c : A → A → comparison) (x y : option A) : comparison :=
  match x, y with
  | None, None => Eq
  | None, Some _ => Lt
  | Some _, None => Gt
  | Some x, Some y => c x y
  end.

Lemma option_cmp_leibniz {A} (c : A → A → comparison) `{!CmpLeibniz c} : CmpLeibniz (option_cmp c).
Proof. intros [x|] [y|]; simpl; try done. by intros ->%(cmp_eq_leibniz c). Qed.

(** [Ord] of slices and [Iterator::cmp]: lexicographic, a prefix first. *)
Fixpoint lex_cmp {A} (c : A → A → comparison) (l k : list A) : comparison :=
  match l, k with
  | [], [] => Eq
  | [], _ :: _ => Lt
  | _ :: _, [] => Gt
  | x :: l, y :: k => then_with (c x y) (lex_cmp c l k)
  end.

#[global] Typeclasses Opaque cmp_on cmp_then cmp_rev option_cmp lex_cmp N.compare Nat.compare.

Section cmp_combinators.
Context {A B : Type}.

#[global] Instance cmp_on_order (f : A → B) c `{!CmpOrder c} : CmpOrder (cmp_on f c).
Proof. split; intros *; unfold cmp_on; [apply (cmp_sym c) | apply (cmp_trans c) | apply (cmp_eq_l c)]. Qed.

#[global] Instance cmp_rev_order (c : A → A → comparison) `{!CmpOrder c} : CmpOrder (cmp_rev c).
Proof.
  split; intros *; unfold cmp_rev.
  - apply (cmp_sym c).
  - intros H1 H2. by apply (cmp_trans c _ y).
  - intros Hxy. apply (cmp_eq_r c). by rewrite (cmp_sym c y x), Hxy.
Qed.

#[global] Instance cmp_then_order (c d : A → A → comparison) `{!CmpOrder c, !CmpOrder d} :
  CmpOrder (cmp_then c d).
Proof.
  split; intros *; unfold cmp_then.
  - rewrite (cmp_sym c x y), (cmp_sym d x y). by destruct (c x y), (d x y).
  - intros Hxy Hyz. destruct (c x y) eqn:E; simpl in *; subst.
    + rewrite (cmp_eq_l c _ _ z E). destruct (c y z) eqn:F; simpl in *; try done.
      by apply (cmp_trans d _ y).
    + destruct (c y z) eqn:F; simpl in *; try done.
      * by rewrite <-(cmp_eq_r c _ _ x F), E.
      * by rewrite (cmp_trans c _ _ _ _ E F).
    + destruct (c y z) eqn:F; simpl in *; try done.
      * by rewrite <-(cmp_eq_r c _ _ x F), E.
      * by rewrite (cmp_trans c _ _ _ _ E F).
  - intros Hxy. destruct (c x y) eqn:E; simpl in *; try done.
    rewrite (cmp_eq_l c _ _ z E). by rewrite (cmp_eq_l d _ _ z Hxy).
Qed.

#[global] Instance option_cmp_order (c : A → A → comparison) `{!CmpOrder c} :
  CmpOrder (option_cmp c).
Proof.
  split.
  - intros [x|] [y|]; try done. apply (cmp_sym c).
  - intros [x|] [y|] [z|] o; simpl; try congruence. apply (cmp_trans c).
  - intros [x|] [y|] [z|]; simpl; try done. apply (cmp_eq_l c).
Qed.

#[global] Instance lex_cmp_order (c : A → A → comparison) `{!CmpOrder c} :
  CmpOrder (lex_cmp c).
Proof.
  split.
  - intros l. induction l as [|x l IH]; intros [|y k]; simpl; try done.
    rewrite (cmp_sym c x y), IH. by destruct (c x y).
  - intros l. induction l as [|x l IH]; intros [|y k] [|z m] o; simpl; try congruence.
    intros Hxy Hyz. destruct (c x y) eqn:E; simpl in *; subst.
    + rewrite (cmp_eq_l c _ _ z E). destruct (c y z) eqn:F; simpl in *; try done.
      exact (IH k m _ eq_refl Hyz).
    + destruct (c y z) eqn:F; simpl in *; try done.
      * by rewrite <-(cmp_eq_r c _ _ x F), E.
      * by rewrite (cmp_trans c _ _ _ _ E F).
    + destruct (c y z) eqn:F; simpl in *; try done.
      * by rewrite <-(cmp_eq_r c _ _ x F), E.
      * by rewrite (cmp_trans c _ _ _ _ E F).
  - intros l. induction l as [|x l IH]; intros [|y k] [|z m]; simpl; try done.
    intros Hxy. destruct (c x y) eqn:E; simpl in *; try done.
    rewrite (cmp_eq_l c _ _ z E). by rewrite (IH k m Hxy).
Qed.

#[global] Instance lex_cmp_leibniz (c : A → A → comparison) `{!CmpLeibniz c} :
  CmpLeibniz (lex_cmp c).
Proof.
  intros l. induction l as [|x l IH]; intros [|y k]; simpl; try done.
  destruct (c x y) eqn:E; simpl; try done. intros ->%IH. by apply (cmp_eq_leibniz c) in E as ->.
Qed.
End cmp_combinators.

#[export] Instance N_compare_order : CmpOrder N.compare.
Proof.
  split.
  - intros x y. apply N.compare_antisym.
  - intros x y z [] Hxy Hyz.
    + by apply N.compare_eq_iff in Hxy as ->.
    + rewrite N.compare_lt_iff in *. lia.
    + rewrite N.compare_gt_iff in *. lia.
  - by intros x y z ->%N.compare_eq_iff.
Qed.
#[export] Instance N_compare_leibniz : CmpLeibniz N.compare.
Proof. intros x y. apply N.compare_eq_iff. Qed.

#[export] Instance Nat_compare_order : CmpOrder Nat.compare.
Proof.
  split.
  - intros x y. apply Nat.compare_antisym.
  - intros x y z [] Hxy Hyz.
    + by apply Nat.compare_eq_iff in Hxy as ->.
    + rewrite Nat.compare_lt_iff in *. lia.
    + rewrite Nat.compare_gt_iff in *. lia.
  - by intros x y z ->%Nat.compare_eq_iff.
Qed.
#[export] Instance Nat_compare_leibniz : CmpLeibniz Nat.compare.
Proof. intros x y. apply Nat.compare_eq_iff. Qed.
