(* ===== verification/Effects.v ===== *)
(** * Stateful computations

    A computation that can fail and changes a state ([&mut self], a file system),
    its Hoare triples, and loops with a bound. *)

From S2P Require Import Prelude.

(** ** The monad *)

Definition stateful (S T E : Type) := S → result T E * S.

Definition st_ret {S T E} (x : T) : stateful S T E := λ s, (Ok x, s).
Definition st_err {S T E} (e : E) : stateful S T E := λ s, (Err e, s).
Definition st_lift {S T E} (r : result T E) : stateful S T E := λ s, (r, s).
Definition st_bind {S T U E} (m : stateful S T E) (k : T → stateful S U E) : stateful S U E :=
  λ s, match m s with (Ok x, s) => k x s | (Err e, s) => (Err e, s) end.
Notation "'let!' x ':=' m 'in' k" := (st_bind m (λ x, k))
  (at level 10, x pattern, m at level 100, k at level 200)
  : rsolve_scope.

(** [iter().map(f).collect::<Result<Vec<_>, _>>()] with an effectful [f]. *)
Fixpoint st_try_map {S A B E} (f : A → stateful S B E) (l : list A) : stateful S (list B) E :=
  match l with
  | [] => st_ret []
  | x :: l => let! y := f x in let! ys := st_try_map f l in st_ret (y :: ys)
  end.

Fixpoint st_try_fold {S A B E} (f : B → A → stateful S B E) (acc : B) (l : list A) :
    stateful S B E :=
  match l with
  | [] => st_ret acc
  | x :: l => let! acc := f acc x in st_try_fold f acc l
  end.

Definition st_map_err {S T E F} (f : E → F) (m : stateful S T E) : stateful S T F :=
  λ s, match m s with (r, s) => (map_err f r, s) end.

(** [let _ = m;]: the outcome is dropped, the effects are not. *)
Definition st_ignore {S T E F} (m : stateful S T E) : stateful S unit F :=
  λ s, match m s with (_, s) => (Ok tt, s) end.

(** The outcome as a value, for [match] and [if let Err]. *)
Definition st_outcome {S T E F} (m : stateful S T E) : stateful S (result T E) F :=
  λ s, match m s with (r, s) => (Ok r, s) end.

Lemma st_bind_assoc {S T U V E : Type} (m : stateful S T E) (k : T → stateful S U E)
    (l : U → stateful S V E) s :
  st_bind m (λ x, st_bind (k x) l) s = st_bind (st_bind m k) l s.
Proof. unfold st_bind. by destruct (m s) as [[]]. Qed.

(** ** Hoare triples

    From a state of [P], [m] ends in [Q] of its value, or in [R] of its error. *)

Definition triple {S T E} (P : S → Prop) (m : stateful S T E) (Q : T → S → Prop)
    (R : E → S → Prop) : Prop :=
  ∀ s, P s → match m s with (Ok x, s') => Q x s' | (Err e, s') => R e s' end.

Section triples.
Context {S E : Type}.

Lemma triple_ret {T} (P : S → Prop) (x : T) (R : E → S → Prop) :
  triple P (st_ret x) (λ y s, y = x ∧ P s) R.
Proof. intros s Hs. by split. Qed.

Lemma triple_ret' {T} (P : S → Prop) (x : T) (Q : T → S → Prop) (R : E → S → Prop) :
  (∀ s, P s → Q x s) → triple P (st_ret x) Q R.
Proof. intros H s Hs. by apply H. Qed.

Lemma triple_err {T} (P : S → Prop) (e : E) (Q : T → S → Prop) (R : E → S → Prop) :
  (∀ s, P s → R e s) → triple P (st_err e) Q R.
Proof. intros H s Hs. by apply H. Qed.

Lemma triple_lift {T} (P : S → Prop) (r : result T E) (Q : T → S → Prop) (R : E → S → Prop) :
  (∀ x s, r = Ok x → P s → Q x s) → (∀ e s, r = Err e → P s → R e s) →
  triple P (st_lift r) Q R.
Proof. intros HQ HR s Hs. unfold st_lift. destruct r; [by apply HQ|by apply HR]. Qed.

Lemma triple_bind {T U} (P : S → Prop) (m : stateful S T E) (k : T → stateful S U E)
    (M : T → S → Prop) (Q : U → S → Prop) (R : E → S → Prop) :
  triple P m M R → (∀ x, triple (M x) (k x) Q R) → triple P (st_bind m k) Q R.
Proof.
  intros Hm Hk s Hs. specialize (Hm s Hs). unfold st_bind. destruct (m s) as [[x|e] s'].
  - by apply Hk.
  - done.
Qed.

Lemma triple_weaken {T} (P P' : S → Prop) (m : stateful S T E) (Q Q' : T → S → Prop)
    (R R' : E → S → Prop) :
  triple P' m Q' R' → (∀ s, P s → P' s) → (∀ x s, Q' x s → Q x s) → (∀ e s, R' e s → R e s) →
  triple P m Q R.
Proof.
  intros Hm HP HQ HR s Hs. specialize (Hm s (HP s Hs)).
  destruct (m s) as [[x|e] s']; [by apply HQ|by apply HR].
Qed.

Lemma triple_from {T} (P' P : S → Prop) (m : stateful S T E) (Q : T → S → Prop)
    (R : E → S → Prop) :
  (∀ s, P s → P' s) → triple P' m Q R → triple P m Q R.
Proof. intros HP Hm. by eapply triple_weaken. Qed.

Lemma triple_map_err {T F} (P : S → Prop) (f : F → E) (m : stateful S T F) (Q : T → S → Prop)
    (R : E → S → Prop) :
  triple P m Q (λ e s, R (f e) s) → triple P (st_map_err f m) Q R.
Proof.
  intros Hm s Hs. specialize (Hm s Hs). unfold st_map_err. by destruct (m s) as [[x|e] s'].
Qed.

Lemma triple_ignore {T F} (P : S → Prop) (m : stateful S T F) (Q : unit → S → Prop)
    (R : E → S → Prop) :
  triple P m (λ _, Q tt) (λ _, Q tt) → triple P (st_ignore m) Q R.
Proof. intros Hm s Hs. specialize (Hm s Hs). unfold st_ignore. by destruct (m s) as [[]]. Qed.

Lemma triple_outcome {T F} (P : S → Prop) (m : stateful S T F) (Q : result T F → S → Prop)
    (R : E → S → Prop) :
  triple P m (λ x, Q (Ok x)) (λ e, Q (Err e)) → triple P (st_outcome m) Q R.
Proof. intros Hm s Hs. specialize (Hm s Hs). unfold st_outcome. by destruct (m s) as [[]]. Qed.

Lemma triple_ext {T} (P : S → Prop) (m m' : stateful S T E) (Q : T → S → Prop) (R : E → S → Prop) :
  (∀ s, m s = m' s) → triple P m' Q R → triple P m Q R.
Proof. intros Hm H s Hs. rewrite Hm. by apply H. Qed.

Lemma triple_true {T} (P : S → Prop) (m : stateful S T E) :
  triple P m (λ _ _, True) (λ _ _, True).
Proof. intros s _. by destruct (m s) as [[]]. Qed.

(** [match m { Ok(x) => k(x), Err(e) => h(e) }] *)
Lemma triple_outcome_match {T U F} (P : S → Prop) (m : stateful S T F) (k : T → stateful S U E)
    (h : F → stateful S U E) (M : T → S → Prop) (N : F → S → Prop) (Q : U → S → Prop)
    (R : E → S → Prop) :
  triple P m M N → (∀ x, triple (M x) (k x) Q R) → (∀ e, triple (N e) (h e) Q R) →
  triple P (st_bind (st_outcome m) (λ r, match r with Ok x => k x | Err e => h e end)) Q R.
Proof.
  intros Hm Hk Hh s Hs. specialize (Hm s Hs). unfold st_bind, st_outcome.
  destruct (m s) as [[x|e] s']; [by apply Hk|by apply Hh].
Qed.

Lemma triple_pre {T} (P : S → Prop) (m : stateful S T E) (Q : T → S → Prop) (R : E → S → Prop) :
  (∀ s, P s → triple (λ s', s' = s) m Q R) → triple P m Q R.
Proof. intros H s Hs. by apply (H s Hs). Qed.

Lemma triple_pure {T} (φ : Prop) (P : S → Prop) (m : stateful S T E) (Q : T → S → Prop)
    (R : E → S → Prop) :
  (φ → triple P m Q R) → triple (λ s, φ ∧ P s) m Q R.
Proof. intros H s [Hφ Hs]. by apply H. Qed.

Lemma triple_and {T} (P P' : S → Prop) (m : stateful S T E) (Q Q' : T → S → Prop)
    (R R' : E → S → Prop) :
  triple P m Q R → triple P' m Q' R' →
  triple (λ s, P s ∧ P' s) m (λ x s, Q x s ∧ Q' x s) (λ e s, R e s ∧ R' e s).
Proof.
  intros H H' s [Hs Hs']. specialize (H s Hs). specialize (H' s Hs').
  by destruct (m s) as [[]].
Qed.
End triples.

(** ** Loops

    [run_steps n step s] takes at most [n] steps from [s], until one of them
    leaves the loop. *)

Fixpoint run_steps {S T} (n : positive) (step : S → S + T) (s : S) : S + T :=
  match n with
  | xH => step s
  | xO n =>
    match run_steps n step s with inl s => run_steps n step s | inr t => inr t end
  | xI n =>
    match step s with
    | inl s => match run_steps n step s with inl s => run_steps n step s | inr t => inr t end
    | inr t => inr t
    end
  end.

Section loops.
Context {S T : Type} (step : S → S + T).

Fixpoint iterate (n : nat) (s : S) : S + T :=
  match n with
  | 0 => inl s
  | Datatypes.S n => match step s with inl s => iterate n s | inr t => inr t end
  end.

Lemma iterate_add n m s :
  iterate (n + m) s = match iterate n s with inl s => iterate m s | inr t => inr t end.
Proof. revert s. induction n as [|n IH]; intros s; simpl; [done|]. destruct (step s); auto. Qed.

Lemma run_steps_iterate n s : run_steps n step s = iterate (Pos.to_nat n) s.
Proof.
  revert s. induction n as [n IH|n IH|]; intros s; simpl run_steps.
  - rewrite Pos2Nat.inj_xI. simpl. destruct (step s) as [s'|t]; [|done].
    rewrite IH. replace (Pos.to_nat n + (Pos.to_nat n + 0)) with (Pos.to_nat n + Pos.to_nat n) by lia.
    rewrite iterate_add. destruct (iterate (Pos.to_nat n) s'); [apply IH|done].
  - rewrite Pos2Nat.inj_xO. replace (2 * Pos.to_nat n) with (Pos.to_nat n + Pos.to_nat n) by lia.
    rewrite iterate_add, IH. destruct (iterate (Pos.to_nat n) s); [apply IH|done].
  - simpl. destruct (step s); done.
Qed.

(** A loop whose steps decrease a measure ends within it. *)
Lemma iterate_ends (measure : S → nat) n s :
  (∀ s s', step s = inl s' → measure s' < measure s) → measure s < n → ∃ t, iterate n s = inr t.
Proof.
  intros Hdec. revert s. induction n as [|n IH]; intros s Hn; [lia|]. simpl.
  destruct (step s) as [s'|t] eqn:E; [|eauto]. apply IH. specialize (Hdec s s' E). lia.
Qed.

(** What every step keeps holds where the loop is left. *)
Lemma iterate_invariant (I : S → Prop) (Q : T → Prop) n s t :
  (∀ s s', I s → step s = inl s' → I s') → (∀ s t, I s → step s = inr t → Q t) →
  I s → iterate n s = inr t → Q t.
Proof.
  intros HI HQ. revert s. induction n as [|n IH]; intros s Hs E; [done|]. simpl in E.
  destruct (step s) as [s'|t'] eqn:Es; [by eapply IH; [eapply HI|]|].
  injection E as ->. by eapply HQ.
Qed.
End loops.
