(* ===== verification/RustStd.v ===== *)
(** * The parts of Rust's standard library the modelled code uses

    Bytes and [str], ASCII and UTF-8 classification, fixed-width integers,
    stable sorting and deduplication of [Vec]s, [HashMap] and [BTreeMap].
    A [str] is Coq's [string], read as its UTF-8 bytes; a [usize] used as a
    length or an index is a [nat]; [u8], [u32] and [u64] values are [N] with
    their width written out where an operation can overflow. *)

From Stdlib Require Strings.Byte.
From stdpp Require Export pretty.
From S2P Require Import Prelude.

(** ** Bytes *)

Abbreviation byte := Corelib.Init.Byte.byte.
Abbreviation x00 := Corelib.Init.Byte.x00.
Abbreviation x01 := Corelib.Init.Byte.x01.
Abbreviation x02 := Corelib.Init.Byte.x02.
Abbreviation x03 := Corelib.Init.Byte.x03.
Abbreviation x04 := Corelib.Init.Byte.x04.
Abbreviation x05 := Corelib.Init.Byte.x05.
Abbreviation x06 := Corelib.Init.Byte.x06.
Abbreviation x07 := Corelib.Init.Byte.x07.
Abbreviation x08 := Corelib.Init.Byte.x08.

Definition u8 (b : byte) : N := Byte.to_N b.
Definition byte_of (n : N) : byte := Ascii.byte_of_ascii (Ascii.ascii_of_N n).
Definition bytes (s : string) : list byte := String.list_byte_of_string s.
Definition from_utf8 (l : list byte) : string := String.string_of_list_byte l.
Definition str_len (s : string) : nat := length (bytes s).

#[export] Instance byte_eq_dec : EqDecision byte := Byte.byte_eq_dec.
#[export] Instance req_byte : PartialEq byte := req_dec.
#[export] Instance req_byte_leibniz : LeibnizEq byte := req_dec_leibniz.

Definition byte_cmp : byte → byte → comparison := cmp_on u8 N.compare.
(** [Ord for [u8]] and [Ord for str]. *)
Definition bytes_cmp : list byte → list byte → comparison := lex_cmp byte_cmp.
Definition str_cmp : string → string → comparison := cmp_on bytes bytes_cmp.

Lemma u8_inj b b' : u8 b = u8 b' → b = b'.
Proof.
  intros H. assert (Some b = Some b') as [= ?]; [|done].
  by rewrite <-(Byte.of_to_N b), <-(Byte.of_to_N b'); unfold u8 in H; rewrite H.
Qed.

Lemma u8_bound b : (u8 b < 256)%N.
Proof. destruct b; reflexivity. Qed.

Lemma u8_byte_of n : (n < 256)%N → u8 (byte_of n) = n.
Proof.
  intros Hn. unfold u8, byte_of.
  rewrite <-(Ascii.N_ascii_embedding n) at 2 by done.
  generalize (Ascii.ascii_of_N n). intros a.
  destruct a as [[] [] [] [] [] [] [] []]; reflexivity.
Qed.

Lemma byte_of_u8 b : byte_of (u8 b) = b.
Proof. apply u8_inj, u8_byte_of, u8_bound. Qed.

Lemma from_utf8_bytes s : from_utf8 (bytes s) = s.
Proof. apply String.string_of_list_byte_of_string. Qed.

Lemma bytes_from_utf8 l : bytes (from_utf8 l) = l.
Proof. apply String.list_byte_of_string_of_list_byte. Qed.

#[export] Instance bytes_inj : Inj (=) (=) bytes.
Proof. intros s t H. by rewrite <-(from_utf8_bytes s), <-(from_utf8_bytes t), H. Qed.

Lemma bytes_cons a s : bytes (String a s) = Ascii.byte_of_ascii a :: bytes s.
Proof. reflexivity. Qed.

Lemma bytes_app s t : bytes (s +:+ t) = bytes s ++ bytes t.
Proof. induction s as [|a s IH]; [done|].
  change (String a s +:+ t) with (String a (s +:+ t)). by rewrite !bytes_cons, IH.
Qed.

Lemma bytes_nil s : bytes s = [] ↔ s = "".
Proof. split; [|by intros ->]. by destruct s. Qed.

#[global] Typeclasses Opaque byte_cmp bytes_cmp str_cmp.
#[export] Instance byte_cmp_order : CmpOrder byte_cmp := cmp_on_order u8 N.compare.
#[export] Instance byte_cmp_leibniz : CmpLeibniz byte_cmp.
Proof. intros b b' H. by apply u8_inj, N.compare_eq_iff. Qed.
#[export] Instance bytes_cmp_order : CmpOrder bytes_cmp := lex_cmp_order byte_cmp.
#[export] Instance bytes_cmp_leibniz : CmpLeibniz bytes_cmp := lex_cmp_leibniz byte_cmp.
#[export] Instance str_cmp_order : CmpOrder str_cmp := cmp_on_order bytes bytes_cmp.
#[export] Instance str_cmp_leibniz : CmpLeibniz str_cmp.
Proof. intros s t H. by apply (inj bytes), (cmp_eq_leibniz bytes_cmp). Qed.

(** ** ASCII classes of [u8] *)

Definition in_range (lo hi : N) (b : byte) : bool := N.leb lo (u8 b) && N.leb (u8 b) hi.
Definition is_ascii_digit : byte → bool := in_range 48 57.
Definition is_ascii_lowercase : byte → bool := in_range 97 122.
Definition is_ascii_uppercase : byte → bool := in_range 65 90.
Definition is_ascii_alphabetic (b : byte) : bool := is_ascii_lowercase b || is_ascii_uppercase b.
Definition is_ascii_alphanumeric (b : byte) : bool := is_ascii_alphabetic b || is_ascii_digit b.
Definition is_ascii_hexdigit (b : byte) : bool :=
  is_ascii_digit b || in_range 97 102 b || in_range 65 70 b.
Definition byte_to_ascii_lowercase (b : byte) : byte :=
  if is_ascii_uppercase b then byte_of (u8 b + 32) else b.
Definition byte_to_ascii_uppercase (b : byte) : byte :=
  if is_ascii_lowercase b then byte_of (u8 b - 32) else b.
Definition to_ascii_lowercase (s : string) : string :=
  from_utf8 (byte_to_ascii_lowercase <$> bytes s).

Lemma byte_lowercase_idemp b :
  byte_to_ascii_lowercase (byte_to_ascii_lowercase b) = byte_to_ascii_lowercase b.
Proof. destruct b; reflexivity. Qed.

Lemma hexdigit_lowercase b :
  is_ascii_hexdigit (byte_to_ascii_lowercase b) = is_ascii_hexdigit b.
Proof. destruct b; reflexivity. Qed.

Lemma lowercase_not_uppercase b : is_ascii_uppercase (byte_to_ascii_lowercase b) = false.
Proof. destruct b; reflexivity. Qed.

Lemma bytes_to_ascii_lowercase s :
  bytes (to_ascii_lowercase s) = byte_to_ascii_lowercase <$> bytes s.
Proof. apply bytes_from_utf8. Qed.

Lemma to_ascii_lowercase_idemp s :
  to_ascii_lowercase (to_ascii_lowercase s) = to_ascii_lowercase s.
Proof.
  apply (inj bytes). rewrite !bytes_to_ascii_lowercase, <-list_fmap_compose.
  apply list_fmap_ext. intros. apply byte_lowercase_idemp.
Qed.

Lemma str_len_to_ascii_lowercase s : str_len (to_ascii_lowercase s) = str_len s.
Proof. unfold str_len. by rewrite bytes_to_ascii_lowercase, length_fmap. Qed.

(** ** [char]s

    [decode] is the UTF-8 decoding of a [str]: each scalar value with the
    byte index at which it starts.  A Rust [str] is well formed, so the
    malformed cases (a byte decoded as itself) never arise in the program. *)

Definition cont (b : byte) : N := N.land (u8 b) 63.

Definition decode_char (l : list byte) : option (N * nat) :=
  match l with
  | [] => None
  | b :: t =>
    if N.ltb (u8 b) 192 then Some (u8 b, 1)
    else match t with
    | c1 :: t =>
      if N.ltb (u8 b) 224 then Some (N.lor (N.shiftl (N.land (u8 b) 31) 6) (cont c1), 2)
      else match t with
      | c2 :: t =>
        if N.ltb (u8 b) 240 then
          Some (N.lor (N.shiftl (N.land (u8 b) 15) 12) (N.lor (N.shiftl (cont c1) 6) (cont c2)), 3)
        else match t with
        | c3 :: _ =>
          Some (N.lor (N.shiftl (N.land (u8 b) 7) 18)
                 (N.lor (N.shiftl (cont c1) 12) (N.lor (N.shiftl (cont c2) 6) (cont c3))), 4)
        | [] => Some (u8 b, 1)
        end
      | [] => Some (u8 b, 1)
      end
    | [] => Some (u8 b, 1)
    end
  end.

Fixpoint decode_from (fuel index : nat) (l : list byte) : list (nat * N) :=
  match fuel with
  | 0 => []
  | S fuel =>
    match decode_char l with
    | None => []
    | Some (c, width) => (index, c) :: decode_from fuel (index + width) (drop width l)
    end
  end.

(** [str::char_indices] and [str::chars]; a character takes at least one
    byte, so the number of bytes is enough fuel. *)
Definition char_indices (s : string) : list (nat * N) := decode_from (str_len s) 0 (bytes s).
Definition chars (s : string) : list N := (char_indices s).*2.

(** [char::is_control] (category Cc) and [char::is_whitespace] (property
    White_Space). *)
Definition char_is_control (c : N) : bool :=
  N.leb c 31 || (N.leb 127 c && N.leb c 159).
Definition char_is_whitespace (c : N) : bool :=
  (N.leb 9 c && N.leb c 13) || N.eqb c 32 || N.eqb c 133 || N.eqb c 160 || N.eqb c 5760
  || (N.leb 8192 c && N.leb c 8202) || N.eqb c 8232 || N.eqb c 8233 || N.eqb c 8239
  || N.eqb c 8287 || N.eqb c 12288.

Definition is_ascii (s : string) : bool := forallb (λ b, N.ltb (u8 b) 128) (bytes s).

Lemma decode_from_ascii fuel i (l : list byte) :
  Forall (λ b, u8 b < 128)%N l → length l ≤ fuel →
  decode_from fuel i l = zip (seq i (length l)) (u8 <$> l).
Proof.
  intros Hl. revert fuel i. induction Hl as [|b l Hb _ IH]; intros [|fuel] i Hf; simpl in *;
    try done; try lia.
  replace (N.ltb (u8 b) 192) with true by (symmetry; apply N.ltb_lt; lia).
  simpl. rewrite drop_0, Nat.add_1_r, IH by lia. done.
Qed.

(** ** Searching and splitting [str]s *)

Definition str_contains (p : byte → bool) (s : string) : bool := existsb p (bytes s).

Fixpoint split_bytes (sep : byte → bool) (l : list byte) : list (list byte) :=
  match l with
  | [] => [[]]
  | b :: l =>
    match split_bytes sep l with
    | [] => [[b]]
    | piece :: rest => if sep b then [] :: piece :: rest else (b :: piece) :: rest
    end
  end.

(** [str::split] on ASCII separators: one piece more than separators. *)
Definition str_split (sep : byte → bool) (s : string) : list string :=
  from_utf8 <$> split_bytes sep (bytes s).

Lemma split_bytes_cons sep l : ∃ p ps, split_bytes sep l = p :: ps.
Proof. destruct l as [|b l]; simpl; [eauto|]. split_matches; eauto. Qed.

Lemma split_bytes_no_sep sep l : Forall (λ p, Forall (λ b, sep b = false) p) (split_bytes sep l).
Proof.
  induction l as [|b l IH]; simpl; [by repeat constructor|].
  destruct (split_bytes_cons sep l) as (p & ps & E). rewrite E in *.
  inversion IH; subst. destruct (sep b) eqn:Hb; repeat constructor; auto.
Qed.

(** Joining with any separator bytes recovers the text split. *)
Lemma split_bytes_spec sep l ps :
  split_bytes sep l = ps →
  ∃ seps, length ps = S (length seps) ∧ Forall (λ b, sep b = true) seps ∧
    l = mjoin (zip_with (λ p s, p ++ [s]) ps seps) ++ default [] (last ps).
Proof.
  revert ps. induction l as [|b l IH]; intros ps; simpl.
  { intros <-. by exists []. }
  destruct (IH _ eq_refl) as (seps & Hlen & Hseps & Hl).
  destruct (split_bytes_cons sep l) as (p & ps' & E). rewrite E in *.
  destruct (sep b) eqn:Hb; intros <-.
  - exists (b :: seps). split_and!; [by simpl in *; rewrite Hlen | by constructor |].
    simpl. by rewrite Hl at 1.
  - exists seps. split_and!; [done..|].
    destruct seps as [|s seps], ps' as [|q qs]; simpl in *; try done; by rewrite Hl at 1.
Qed.

Definition starts_with (p : byte) (s : string) : bool :=
  match bytes s with b :: _ => bool_decide (b = p) | [] => false end.
Definition ends_with (p : byte) (s : string) : bool :=
  match last (bytes s) with Some b => bool_decide (b = p) | None => false end.

(** [slice::join] of strings. *)
Fixpoint str_join (sep : string) (l : list string) : string :=
  match l with
  | [] => ""
  | [x] => x
  | x :: l => x +:+ sep +:+ str_join sep l
  end.

(** ** Integers *)

Definition u32_max : N := 4294967295.
Definition u64_max : N := 18446744073709551615.
Definition usize_max : N := u64_max.

Definition checked (bound n : N) : option N := if N.leb n bound then Some n else None.
Definition u32_checked_mul (a b : N) : option N := checked u32_max (a * b).
Definition u32_checked_add (a b : N) : option N := checked u32_max (a + b).

(** [u64::to_le_bytes] and [to_be_bytes]. *)
Fixpoint le_bytes (width : nat) (n : N) : list byte :=
  match width with
  | 0 => []
  | S width => byte_of (n mod 256) :: le_bytes width (n / 256)
  end.
Definition u64_to_le_bytes (n : N) : list byte := le_bytes 8 n.
Definition u64_to_be_bytes (n : N) : list byte := rev (le_bytes 8 n).

(** [as u64] of a [usize] length. *)
Definition len_u64 {A} (l : list A) : N := N.of_nat (length l).

Lemma length_le_bytes w n : length (le_bytes w n) = w.
Proof. revert n. induction w as [|w IH]; intros n; simpl; auto. Qed.

Lemma le_bytes_inj w n m :
  (n < 256 ^ N.of_nat w)%N → (m < 256 ^ N.of_nat w)%N → le_bytes w n = le_bytes w m → n = m.
Proof.
  revert n m. induction w as [|w IH]; intros n m Hn Hm; simpl.
  { intros _. change (256 ^ N.of_nat 0)%N with 1%N in *. lia. }
  rewrite Nat2N.inj_succ, N.pow_succ_r' in Hn, Hm.
  intros [= Hb Hr].
  assert (n mod 256 = m mod 256)%N as Hmod.
  { rewrite <-(u8_byte_of (n mod 256)), <-(u8_byte_of (m mod 256)), Hb by (apply N.mod_lt; lia).
    done. }
  apply IH in Hr; [|apply N.Div0.div_lt_upper_bound; lia..].
  rewrite (N.div_mod n 256), (N.div_mod m 256) by lia. congruence.
Qed.

Lemma u64_to_le_bytes_inj n m :
  (n ≤ u64_max)%N → (m ≤ u64_max)%N → u64_to_le_bytes n = u64_to_le_bytes m → n = m.
Proof.
  intros Hn Hm. apply le_bytes_inj; change (256 ^ N.of_nat 8)%N with (u64_max + 1)%N; lia.
Qed.

Lemma u64_to_be_bytes_inj n m :
  (n ≤ u64_max)%N → (m ≤ u64_max)%N → u64_to_be_bytes n = u64_to_be_bytes m → n = m.
Proof. intros Hn Hm H%rev_inj. by apply u64_to_le_bytes_inj. Qed.

Lemma length_u64_to_be_bytes n : length (u64_to_be_bytes n) = 8.
Proof. unfold u64_to_be_bytes. by rewrite length_rev, length_le_bytes. Qed.

Lemma length_u64_to_le_bytes n : length (u64_to_le_bytes n) = 8.
Proof. apply length_le_bytes. Qed.

(** [ToString] of an unsigned integer. *)
Definition N_to_string (n : N) : string := pretty n.
Definition nat_to_string (n : nat) : string := pretty (N.of_nat n).
