(* ===== verification/Collections.v ===== *)
(** * Rust's collections

    [slice::sort_by], [Vec::dedup_by], [HashMap] and [BTreeMap], with the laws
    the components use.  Sorting is stable; a [HashMap] is an association
    list under the key type's [PartialEq] (its list order is one of the
    iteration orders the program may observe); a [BTreeMap] is an association
    list kept sorted by the key type's [Ord]. *)

From S2P Require Import Prelude RustStd.

(** ** Stable sorting *)

Section sort.
Context {A : Type} (c : A → A → comparison).

Fixpoint insert_by (x : A) (l : list A) : list A :=
  match l with
  | [] => [x]
  | y :: l => if is_gt (c x y) then y :: insert_by x l else x :: y :: l
  end.

(** [slice::sort_by]. *)
Definition sort_by (l : list A) : list A := foldr insert_by [] l.

(** The order the result is sorted in. *)
Definition cmp_le (x y : A) : Prop := c x y ≠ Gt.

Lemma insert_by_Permutation x l : insert_by x l ≡ₚ x :: l.
Proof.
  induction l as [|y l IH]; simpl; [done|]. destruct (is_gt (c x y)); [|done].
  rewrite IH. constructor.
Qed.

Lemma sort_by_Permutation l : sort_by l ≡ₚ l.
Proof. induction l as [|x l IH]; simpl; [done|]. by rewrite insert_by_Permutation, IH. Qed.

Lemma elem_of_sort_by x l : x ∈ sort_by l ↔ x ∈ l.
Proof. by rewrite sort_by_Permutation. Qed.

Lemma sort_by_sorted_id l : StronglySorted cmp_le l → sort_by l = l.
Proof.
  induction 1 as [|x l _ IH Hx]; simpl; [done|]. rewrite IH.
  destruct Hx as [|y l Hxy _]; simpl; [done|]. unfold cmp_le in Hxy. by destruct (c x y).
Qed.

Context `{!CmpOrder c}.

#[global] Instance cmp_le_trans_instance : Transitive cmp_le.
Proof. intros x y z. apply (cmp_le_trans c). Qed.

Lemma insert_by_sorted x l : StronglySorted cmp_le l → StronglySorted cmp_le (insert_by x l).
Proof.
  induction 1 as [|y l Hl IH Hy]; simpl; [by repeat constructor|].
  destruct (c x y) eqn:E; simpl.
  1,2: assert (cmp_le x y) by (unfold cmp_le; congruence);
    repeat constructor; try done; eapply Forall_impl; [done|]; intros; by etrans.
  constructor; [done|]. rewrite insert_by_Permutation. constructor; [|done].
  unfold cmp_le. by rewrite (cmp_sym c x y), E.
Qed.

Lemma sort_by_sorted l : StronglySorted cmp_le (sort_by l).
Proof. induction l; simpl; [constructor | by apply insert_by_sorted]. Qed.

Lemma sort_by_idemp l : sort_by (sort_by l) = sort_by l.
Proof. apply sort_by_sorted_id, sort_by_sorted. Qed.

(** Stability: equal elements keep their order. *)
Lemma insert_by_filter x z l :
  filter (λ y, c z y = Eq) (insert_by x l) = filter (λ y, c z y = Eq) (x :: l).
Proof.
  induction l as [|y l IH]; [done|]. cbn [insert_by].
  destruct (c x y) eqn:E; [done..|]. cbn [is_gt].
  rewrite (filter_cons _ y), IH, !filter_cons.
  repeat case_decide; try done.
  exfalso. assert (c x y = Eq); [|congruence].
  by rewrite <-(cmp_eq_l c z x y).
Qed.

Lemma sort_by_stable z l :
  filter (λ y, c z y = Eq) (sort_by l) = filter (λ y, c z y = Eq) l.
Proof.
  induction l as [|x l IH]; simpl; [done|]. rewrite insert_by_filter, !filter_cons.
  by case_decide; rewrite IH.
Qed.

(** A sort whose ties are equal values depends only on the multiset. *)
Lemma sort_by_unique l k :
  (∀ x y, x ∈ l → y ∈ l → c x y = Eq → x = y) →
  l ≡ₚ k → sort_by l = sort_by k.
Proof.
  intros Hinj Hlk.
  assert (sort_by l ≡ₚ sort_by k) as Hp by by rewrite !sort_by_Permutation.
  assert (∀ x y, x ∈ sort_by l → y ∈ sort_by l → c x y = Eq → x = y) as Hinj'.
  { intros x y. rewrite !elem_of_sort_by. apply Hinj. }
  revert Hp Hinj'. generalize (sort_by_sorted l) (sort_by_sorted k).
  generalize (sort_by l) (sort_by k). clear -CmpOrder0. intros l k Hl Hk.
  revert k Hk. induction Hl as [|x l Hl IH Hx]; intros k Hk Hp Hinj.
  { by apply Permutation_nil in Hp. }
  destruct k as [|y k]; [by apply Permutation_sym, Permutation_nil in Hp|].
  inversion Hk as [|? ? Hk' Hy]; subst.
  assert (x = y) as <-.
  { assert (x ∈ y :: k) as [->|Hxk]%elem_of_cons; [rewrite <-Hp; left | done |].
    assert (y ∈ x :: l) as [->|Hyl]%elem_of_cons; [rewrite Hp; left | done |].
    apply Hinj; [left | by right |].
    rewrite Forall_forall in Hx, Hy. specialize (Hx y Hyl). specialize (Hy x Hxk).
    unfold cmp_le in *. rewrite (cmp_sym c x y) in Hy. by destruct (c x y). }
  f_equal. apply IH; [done | by apply Permutation_cons_inv in Hp |].
  intros a b Ha Hb. apply Hinj; by right.
Qed.
End sort.

(** ** Removing consecutive duplicates *)

Section dedup.
Context {A : Type} (same : A → A → bool).

(** [same x previous] is [Vec::dedup_by]'s [same_bucket]: the element under
    inspection first, the last one retained second. *)
Fixpoint dedup_from (previous : A) (l : list A) : list A :=
  match l with
  | [] => []
  | x :: l => if same x previous then dedup_from previous l else x :: dedup_from x l
  end.
Definition dedup_by (l : list A) : list A :=
  match l with [] => [] | x :: l => x :: dedup_from x l end.

Lemma dedup_from_sublist p l : dedup_from p l `sublist_of` l.
Proof.
  revert p. induction l as [|x l IH]; intros p; simpl; [constructor|].
  destruct (same x p); by constructor.
Qed.

Lemma dedup_by_sublist l : dedup_by l `sublist_of` l.
Proof. destruct l; simpl; [constructor|]. constructor. apply dedup_from_sublist. Qed.

Lemma elem_of_dedup_by x l : x ∈ dedup_by l → x ∈ l.
Proof. intros Hx. eapply elem_of_sublist; [done | apply dedup_by_sublist]. Qed.

Lemma elem_of_dedup_from_inv (f : A → Prop) p l x :
  (∀ x y, same x y = true → f x → f y) → x ∈ l → f x → f p ∨ Exists f (dedup_from p l).
Proof.
  intros Hf. revert p. induction l as [|y l IH]; intros p Hx Hfx; [by apply elem_of_nil in Hx|].
  simpl. apply elem_of_cons in Hx as [->|Hx].
  - destruct (same y p) eqn:E; [left; by apply (Hf y) | right; by left].
  - destruct (same y p) eqn:E; [by apply IH|].
    destruct (IH y Hx Hfx) as [|]; right; [by left | by right].
Qed.

(** Nothing is lost up to the equivalence used. *)
Lemma dedup_by_complete (f : A → Prop) l x :
  (∀ x y, same x y = true → f x → f y) → x ∈ l → f x → Exists f (dedup_by l).
Proof.
  intros Hf Hx Hfx. destruct l as [|y l]; [by apply elem_of_nil in Hx|]. simpl.
  apply elem_of_cons in Hx as [->|Hx]; [by left|].
  destruct (elem_of_dedup_from_inv f y l x Hf Hx Hfx); [by left | by right].
Qed.

Lemma dedup_by_sorted (R : A → A → Prop) l :
  StronglySorted R l → StronglySorted R (dedup_by l).
Proof.
  intros Hl. pose proof (dedup_by_sublist l) as Hs. revert Hs. generalize (dedup_by l).
  induction Hl as [|x l _ IH Hx]; intros k Hk.
  - apply sublist_nil_r in Hk as ->. constructor.
  - apply sublist_cons_r in Hk as [Hk|(k' & -> & Hk)]; [by apply IH|].
    constructor; [by apply IH|]. rewrite Forall_forall in *. intros y Hy.
    apply Hx. by eapply elem_of_sublist.
Qed.
End dedup.

Lemma dedup_by_ext {A} (same same' : A → A → bool) (l : list A) :
  (∀ x y, x ∈ l → y ∈ l → same x y = same' x y) → dedup_by same l = dedup_by same' l.
Proof.
  destruct l as [|x l]; [done|]. intros Hsame. simpl. f_equal. revert x Hsame.
  induction l as [|y l IH]; intros x Hsame; [done|]. simpl. rewrite Hsame by set_solver.
  destruct (same' y x); [apply IH|f_equal; apply IH]; set_solver.
Qed.

(** Deduplicating a sorted list by the equality of its order leaves a strictly
    sorted list. *)
Lemma dedup_sorted_strict {A} (c : A → A → comparison) `{!CmpOrder c} (same : A → A → bool) l :
  (∀ x y, same x y = is_eq (c x y)) →
  StronglySorted (cmp_le c) l → StronglySorted (λ x y, c x y = Lt) (dedup_by same l).
Proof.
  intros Hsame Hl. destruct Hl as [|x l Hl Hx]; simpl; [constructor|].
  assert (∀ x l, StronglySorted (cmp_le c) l → Forall (cmp_le c x) l →
    StronglySorted (λ x y, c x y = Lt) (x :: dedup_from same x l)) as Hgo; [|by apply Hgo].
  clear x l Hl Hx. intros x l Hl. revert x. induction Hl as [|y l Hl IH Hy]; intros x Hx; simpl.
  { by repeat constructor. }
  inversion Hx as [|? ? Hxy Hx']; subst.
  rewrite Hsame. destruct (c y x) eqn:E; simpl; [by apply IH| |].
  - exfalso. apply Hxy. by rewrite (cmp_sym c y x), E.
  - assert (c x y = Lt) as Hlt by by rewrite (cmp_sym c y x), E.
    pose proof (IH y Hy) as Hs. constructor; [done|]. constructor; [done|].
    inversion Hs; subst. eapply Forall_impl; [done|]. simpl. intros z Hz.
    by apply (cmp_trans c _ y).
Qed.

Lemma strict_sorted_NoDup {A} (c : A → A → comparison) `{!CmpOrder c} l :
  StronglySorted (λ x y, c x y = Lt) l → NoDup l.
Proof.
  induction 1 as [|x l _ IH Hx]; constructor; [|done]. intros Hin.
  rewrite Forall_forall in Hx. specialize (Hx x Hin). by rewrite (cmp_refl c) in Hx.
Qed.

(** Two strictly sorted lists with the same elements are equal. *)
Lemma strict_sorted_ext {A} (c : A → A → comparison) `{!CmpOrder c} l k :
  StronglySorted (λ x y, c x y = Lt) l → StronglySorted (λ x y, c x y = Lt) k →
  (∀ x, x ∈ l ↔ x ∈ k) → l = k.
Proof.
  intros Hl Hk Hlk.
  assert (l ≡ₚ k) as Hp.
  { apply NoDup_Permutation; [by eapply strict_sorted_NoDup..|done]. }
  assert (∀ m, StronglySorted (λ x y, c x y = Lt) m → sort_by c m = m) as Hid.
  { intros m Hm. apply sort_by_sorted_id. clear -Hm.
    induction Hm as [|x m _ IH Hx]; constructor; [done|]. eapply Forall_impl; [done|].
    intros y Hy. unfold cmp_le. simpl in Hy. congruence. }
  rewrite <-(Hid l Hl), <-(Hid k Hk). apply sort_by_unique; [done| |done].
  intros x y Hx Hy Hxy. clear -Hl Hx Hy Hxy CmpOrder0.
  induction Hl as [|z l _ IH Hz]; [by apply elem_of_nil in Hx|].
  rewrite Forall_forall in Hz.
  apply elem_of_cons in Hx as [->|Hx]; apply elem_of_cons in Hy as [->|Hy]; auto.
  - specialize (Hz _ Hy). congruence.
  - specialize (Hz _ Hx). simpl in Hz. rewrite (cmp_sym c x z), Hxy in Hz. done.
Qed.

(** ** Adjacent pairs *)

(** [windows(2)] *)
Definition windows2 {A} (l : list A) : list (A * A) := zip l (drop 1 l).

Section strictly_sorted.
Context {A : Type} (c : A → A → comparison) `{!CmpOrder c}.

Definition strictly_sorted (l : list A) : Prop := StronglySorted (λ x y, c x y = Lt) l.

Lemma strictly_sorted_le l : strictly_sorted l → StronglySorted (cmp_le c) l.
Proof.
  unfold strictly_sorted. induction 1 as [|x l _ IH Hx]; constructor; [done|].
  eapply Forall_impl; [exact Hx|]. unfold cmp_le. congruence.
Qed.

Lemma sort_by_strict l : strictly_sorted l → sort_by c l = l.
Proof. intros Hl. by apply sort_by_sorted_id, strictly_sorted_le. Qed.

(** Adjacent elements are enough. *)
Lemma strictly_sorted_windows l :
  strictly_sorted l ↔ Forall (λ w, c w.1 w.2 = Lt) (windows2 l).
Proof.
  unfold windows2. split.
  - induction 1 as [|x l _ IH Hx]; [constructor|]. destruct l as [|y l]; [constructor|].
    simpl in *. constructor; [|exact IH]. by inversion Hx.
  - induction l as [|x l IH]; [constructor|]. destruct l as [|y l]; [by repeat constructor|].
    simpl. intros [Hxy Hl]%Forall_cons. specialize (IH Hl). constructor; [exact IH|].
    inversion IH as [|? ? _ Hy]; subst. constructor; [exact Hxy|].
    eapply Forall_impl; [exact Hy|]. intros z. by apply (cmp_trans c).
Qed.

Lemma sorted_windows_strict l :
  StronglySorted (cmp_le c) l → (strictly_sorted l ↔ Forall (λ w, c w.1 w.2 ≠ Eq) (windows2 l)).
Proof.
  intros Hl. rewrite strictly_sorted_windows. split.
  - intros Hw. eapply Forall_impl; [exact Hw|]. simpl. congruence.
  - unfold windows2. induction Hl as [|x l Hl IH Hx]; [constructor|].
    destruct l as [|y l]; [constructor|]. simpl. intros [Hxy Hl']%Forall_cons. constructor.
    + inversion Hx as [|? ? Hle _]; subst. unfold cmp_le in Hle. simpl in *. by destruct (c x y).
    + by apply IH.
Qed.

Lemma strictly_sorted_Eq l x y : strictly_sorted l → x ∈ l → y ∈ l → c x y = Eq → x = y.
Proof.
  induction 1 as [|z l Hl IH Hz]; [by intros ?%elem_of_nil|]. rewrite Forall_forall in Hz.
  intros [->|Hx]%elem_of_cons [->|Hy]%elem_of_cons E; [done|..|by apply IH].
  - specialize (Hz y Hy). congruence.
  - specialize (Hz x Hx). rewrite (cmp_sym c x z) in Hz. by rewrite E in Hz.
Qed.

Lemma dedup_strict_id (same : A → A → bool) l :
  (∀ x y, same x y = is_eq (c x y)) → strictly_sorted l → dedup_by same l = l.
Proof.
  intros Hsame Hl. destruct Hl as [|x l Hl Hx]; [done|]. simpl. f_equal.
  revert x Hx. induction Hl as [|y l Hl IH Hy]; intros x Hx; [done|]. simpl.
  inversion Hx as [|? ? Hxy _]; subst. rewrite Hsame, (cmp_sym c x y), Hxy. simpl. f_equal.
  by apply IH.
Qed.
End strictly_sorted.

(** ** [HashMap]

    Keys are compared with [req]; inserting under an equal key keeps the key
    already stored and replaces the value, as [HashMap::insert] does. *)

Section hash_map.
Context {K V : Type} `{PartialEq K}.

Fixpoint hm_get (k : K) (m : list (K * V)) : option V :=
  match m with
  | [] => None
  | (k', v) :: m => if k' =?= k then Some v else hm_get k m
  end.

Fixpoint hm_insert (k : K) (v : V) (m : list (K * V)) : list (K * V) :=
  match m with
  | [] => [(k, v)]
  | (k', v') :: m => if k' =?= k then (k', v) :: m else (k', v') :: hm_insert k v m
  end.

Definition hm_values (m : list (K * V)) : list V := m.*2.

(** No two stored keys are equal. *)
Fixpoint hm_wf (m : list (K * V)) : Prop :=
  match m with
  | [] => True
  | (k, _) :: m => hm_get k m = None ∧ hm_wf m
  end.

Context `{!RustEq K}.

#[global] Instance hm_get_proper : Proper ((≈) ==> (=) ==> (=)) hm_get.
Proof.
  intros k k' Hk m _ <-. induction m as [|[k0 v] m IH]; simpl; [done|].
  by rewrite (req_proper k0 k0 (reflexivity _) k k' Hk), IH.
Qed.

Lemma hm_get_insert_eq k k' v m : k ≈ k' → hm_get k' (hm_insert k v m) = Some v.
Proof.
  intros Hk. rewrite <-Hk. induction m as [|[k0 v0] m IH]; simpl; [by rewrite req_refl|].
  destruct (k0 =?= k) eqn:E; simpl; by rewrite E.
Qed.

Lemma hm_get_insert_ne k k' v m : k ≉ k' → hm_get k' (hm_insert k v m) = hm_get k' m.
Proof.
  intros Hk. induction m as [|[k0 v0] m IH]; simpl.
  - by apply req_false_iff in Hk as ->.
  - destruct (k0 =?= k) eqn:E; simpl; [|by rewrite IH].
    assert ((k0 =?= k') = false) as ->; [|done].
    apply req_false_iff. intros E'. apply Hk. by rewrite <-E'.
Qed.

Lemma hm_insert_present k k' v w m :
  k ≈ k' → hm_get k m = Some w → hm_insert k v m = hm_insert k' v m.
Proof.
  intros Hk. induction m as [|[k0 v0] m IH]; simpl; [done|].
  rewrite <-Hk. destruct (k0 =?= k); [done|]. intros Hg. by rewrite IH.
Qed.

Lemma hm_insert_wf k v m : hm_wf m → hm_wf (hm_insert k v m).
Proof.
  induction m as [|[k0 v0] m IH]; simpl; [done|]. intros [Hk0 Hm].
  destruct (k0 =?= k) eqn:E; simpl; [done|]. split; [|by apply IH].
  rewrite hm_get_insert_ne; [done|]. unfold req_rel. rewrite req_sym. congruence.
Qed.

Lemma hm_get_in k v m : hm_get k m = Some v → ∃ k', k' ≈ k ∧ (k', v) ∈ m.
Proof.
  induction m as [|[k0 v0] m IH]; simpl; [done|]. destruct (k0 =?= k) eqn:E.
  - intros [= <-]. exists k0. split; [done|left].
  - intros (k' & ? & ?)%IH. exists k'. split; [done|by right].
Qed.

Lemma hm_in_get k v m : hm_wf m → (k, v) ∈ m → hm_get k m = Some v.
Proof.
  induction m as [|[k0 v0] m IH]; simpl; [by intros _ ?%elem_of_nil|].
  intros [Hk0 Hm] [[= <- <-]|Hin]%elem_of_cons; [by rewrite req_refl|].
  destruct (k0 =?= k) eqn:E; [|by apply IH]. exfalso.
  assert (hm_get k0 m = Some v) by (rewrite (hm_get_proper _ _ E m m eq_refl); by apply IH).
  congruence.
Qed.

Lemma hm_values_insert k v m w :
  w ∈ hm_values (hm_insert k v m) → w = v ∨ w ∈ hm_values m.
Proof.
  unfold hm_values. induction m as [|[k0 v0] m IH]; simpl.
  - rewrite elem_of_cons. naive_solver.
  - destruct (k0 =?= k); simpl; rewrite !elem_of_cons; naive_solver.
Qed.

Lemma hm_insert_in k x k' y m : (k', y) ∈ hm_insert k x m → (k' ≈ k ∧ y = x) ∨ (k', y) ∈ m.
Proof.
  induction m as [|[k0 z] m IH]; simpl.
  - intros [= -> ->]%list_elem_of_singleton. left. split; [apply req_refl|done].
  - destruct (k0 =?= k) eqn:E.
    + intros [[= -> ->]|Hin]%elem_of_cons; [by left|right; by right].
    + intros [[= -> ->]|Hin]%elem_of_cons; [right; by left|].
      destruct (IH Hin) as [?|?]; [by left|right; by right].
Qed.
End hash_map.

(** ** [BTreeMap] *)

Section btree_map.
Context {K V : Type} (c : K → K → comparison).

Fixpoint bt_get (k : K) (m : list (K * V)) : option V :=
  match m with
  | [] => None
  | (k', v) :: m => if is_eq (c k k') then Some v else bt_get k m
  end.

Fixpoint bt_insert (k : K) (v : V) (m : list (K * V)) : list (K * V) :=
  match m with
  | [] => [(k, v)]
  | (k', v') :: m =>
    match c k k' with
    | Lt => (k, v) :: (k', v') :: m
    | Eq => (k', v) :: m
    | Gt => (k', v') :: bt_insert k v m
    end
  end.

Fixpoint bt_remove (k : K) (m : list (K * V)) : list (K * V) :=
  match m with
  | [] => []
  | (k', v') :: m => if is_eq (c k k') then m else (k', v') :: bt_remove k m
  end.

Definition bt_values (m : list (K * V)) : list V := m.*2.

(** [FromIterator]: a later pair replaces the value of an earlier one. *)
Definition bt_from_iter (l : list (K * V)) : list (K * V) :=
  foldl (λ m p, bt_insert p.1 p.2 m) [] l.

Definition bt_sorted (m : list (K * V)) : Prop :=
  StronglySorted (λ p q, c p.1 q.1 = Lt) m.

Context `{!CmpOrder c}.

Lemma bt_get_head_lt k (m : list (K * V)) :
  Forall (λ q, c k q.1 = Lt) m → bt_get k m = None.
Proof. induction 1 as [|[k' v] m Hk _ IH]; simpl in *; [done|]. by rewrite Hk. Qed.

Lemma bt_insert_Forall (P : K → Prop) k v m :
  P k → Forall (λ q, P q.1) m → Forall (λ q : K * V, P q.1) (bt_insert k v m).
Proof.
  intros Hk. induction 1 as [|[k' v'] m Hk' Hm IH]; simpl; [by repeat constructor|].
  destruct (c k k'); repeat constructor; done.
Qed.

Lemma bt_insert_sorted k v m : bt_sorted m → bt_sorted (bt_insert k v m).
Proof.
  unfold bt_sorted. induction 1 as [|[k' v'] m Hm IH Hk']; simpl; [by repeat constructor|].
  destruct (c k k') eqn:E.
  - by constructor.
  - constructor; [by constructor|]. constructor; [done|]. eapply Forall_impl; [done|].
    simpl. intros q Hq. by apply (cmp_trans c _ k').
  - constructor; [done|]. apply (bt_insert_Forall (λ x, c k' x = Lt)); [|done].
    by rewrite (cmp_sym c k k'), E.
Qed.

Lemma bt_remove_sublist k (m : list (K * V)) : bt_remove k m `sublist_of` m.
Proof.
  induction m as [|[k' v'] m IH]; simpl; [constructor|].
  destruct (is_eq (c k k')); by constructor.
Qed.

Lemma bt_remove_sorted k m : bt_sorted m → bt_sorted (bt_remove k m).
Proof.
  unfold bt_sorted. induction 1 as [|[k' v'] m Hm IH Hk']; simpl; [constructor|].
  destruct (is_eq (c k k')); [done|]. constructor; [done|].
  rewrite Forall_forall in *. intros q Hq. apply Hk'.
  eapply elem_of_sublist; [done|apply bt_remove_sublist].
Qed.

Lemma bt_get_insert_eq k k' v m : c k k' = Eq → bt_get k (bt_insert k' v m) = Some v.
Proof.
  intros Hk. induction m as [|[k0 v0] m IH]; simpl; [by rewrite Hk|].
  destruct (c k' k0) eqn:E; simpl; rewrite ?(cmp_eq_l c _ _ k0 Hk), ?E, ?Hk; simpl; done.
Qed.

Lemma bt_get_insert_ne k k' v m : c k k' ≠ Eq → bt_get k (bt_insert k' v m) = bt_get k m.
Proof.
  intros Hk. induction m as [|[k0 v0] m IH]; simpl.
  - by destruct (c k k').
  - destruct (c k' k0) eqn:E; simpl.
    + rewrite <-(cmp_eq_r c _ _ k E). by destruct (c k k').
    + by destruct (c k k').
    + by rewrite IH.
Qed.

Lemma bt_get_remove_ne k k' m : c k k' ≠ Eq → bt_get k (bt_remove k' m) = bt_get k m.
Proof.
  intros Hk. induction m as [|[k0 v0] m IH]; simpl; [done|].
  destruct (c k' k0) eqn:E; simpl; rewrite ?IH; try done.
  rewrite <-(cmp_eq_r c _ _ k E). by destruct (c k k').
Qed.

Lemma bt_get_proper_eq k k' (m : list (K * V)) : c k k' = Eq → bt_get k m = bt_get k' m.
Proof.
  intros Hk. induction m as [|[k0 v0] m IH]; simpl; [done|].
  by rewrite (cmp_eq_l c _ _ k0 Hk), IH.
Qed.

Lemma bt_get_in k v m : bt_get k m = Some v → ∃ k', c k k' = Eq ∧ (k', v) ∈ m.
Proof.
  induction m as [|[k0 v0] m IH]; simpl; [done|]. destruct (c k k0) eqn:E; simpl.
  1: intros [= <-]; exists k0; split; [done|left].
  all: intros (k' & ? & ?)%IH; exists k'; split; [done|by right].
Qed.

Lemma bt_in_get k v m : bt_sorted m → (k, v) ∈ m → bt_get k m = Some v.
Proof.
  unfold bt_sorted. induction 1 as [|[k0 v0] m Hm IH Hk0]; [by intros ?%elem_of_nil|].
  intros [[= <- <-]|Hin]%elem_of_cons; simpl; [by rewrite (cmp_refl c)|].
  rewrite Forall_forall in Hk0. specialize (Hk0 _ Hin). simpl in Hk0.
  rewrite (cmp_sym c k0 k), Hk0. simpl. by apply IH.
Qed.

Lemma bt_get_remove_eq k k' m : bt_sorted m → c k k' = Eq → bt_get k (bt_remove k' m) = None.
Proof.
  intros Hm Hk. induction Hm as [|[k0 v0] m Hm IH Hk0]; simpl; [done|].
  rewrite <-(cmp_eq_l c _ _ k0 Hk). destruct (c k k0) eqn:E; simpl; rewrite ?E; simpl; try done.
  apply bt_get_head_lt. eapply Forall_impl; [done|]. simpl. intros q Hq.
  by rewrite (cmp_eq_l c _ _ q.1 E).
Qed.
End btree_map.

Lemma bt_sorted_NoDup {K V} (c : K → K → comparison) `{!CmpOrder c} (m : list (K * V)) :
  bt_sorted c m → NoDup m.*1.
Proof.
  intros Hm. apply (strict_sorted_NoDup c). unfold bt_sorted in Hm.
  induction Hm as [|[k v] m _ IH Hk]; cbn; constructor; [done|]. by apply Forall_fmap.
Qed.

Lemma filter_true_id {A} (f : A → bool) (l : list A) :
  (∀ x, x ∈ l → f x = true) → List.filter f l = l.
Proof.
  induction l as [|x l IH]; intros Hf; simpl; [done|]. rewrite Hf by left. f_equal.
  apply IH. intros y Hy. apply Hf. by right.
Qed.

(** ** Merging values under their keys

    A [HashMap] filled one value at a time: a value whose key is new is
    inserted, a value whose key is present is merged with what is there, and
    the first failing merge ends the loop.  Both the release aggregation and
    the candidate set are such loops.  [summary l c] says that [c] is the merge
    of the values [l]; [compat] is the relation whose failure merging reports. *)

Section values_of.
Context {K V : Type} `{PartialEq K, !RustEq K} (key : V → K).

(** The values of one key, in the order they came. *)
Definition values_of (k : K) (l : list V) : list V := filter (λ v, key v ≈ k) l.

Lemma elem_of_values_of k l v : v ∈ values_of k l ↔ v ∈ l ∧ key v ≈ k.
Proof. unfold values_of. rewrite list_elem_of_filter. naive_solver. Qed.

Lemma values_of_snoc k l v :
  values_of k (l ++ [v]) = if decide (key v ≈ k) then values_of k l ++ [v] else values_of k l.
Proof.
  unfold values_of. rewrite filter_app. cbn. destruct (decide _); [done|]. by rewrite app_nil_r.
Qed.

Lemma values_of_proper k k' l : k ≈ k' → values_of k l = values_of k' l.
Proof. intros Hk. unfold values_of. apply list_filter_iff. intros v. by rewrite Hk. Qed.
End values_of.

Section keyed_merge.
Context {K V E : Type} `{PartialEq K, !RustEq K} (key : V → K) (merge : V → V → result V E).

Definition keyed_insert (m : list (K * V)) (v : V) : result (list (K * V)) E :=
  match hm_get (key v) m with
  | Some existing => let? merged := merge existing v in Ok (hm_insert (key v) merged m)
  | None => Ok (hm_insert (key v) v m)
  end.

Context (ok : V → Prop) (compat : V → V → Prop) (summary : list V → V → Prop).

Definition keyed_inv (pre : list V) (m : list (K * V)) : Prop :=
  hm_wf m ∧
  ∀ k, match hm_get k m with
       | None => values_of key k pre = []
       | Some c => key c ≈ k ∧ summary (values_of key k pre) c
       end.

Lemma keyed_inv_nil : keyed_inv [] [].
Proof. by split. Qed.

Lemma keyed_inv_insert pre m v c :
  keyed_inv pre m → key c ≈ key v → summary (values_of key (key v) pre ++ [v]) c →
  keyed_inv (pre ++ [v]) (hm_insert (key v) c m).
Proof.
  intros [Hwf Hinv] Hk Hc. split; [by apply hm_insert_wf|]. intros k. rewrite values_of_snoc.
  destruct (decide (key v ≈ k)) as [Hvk|Hvk].
  - rewrite hm_get_insert_eq by done. split; [by etrans|]. by rewrite <-(values_of_proper key (key v) k).
  - rewrite hm_get_insert_ne by done. apply Hinv.
Qed.

Hypothesis summary_singleton : ∀ v, ok v → summary [v] v.
Hypothesis merge_summary : ∀ l c v,
  summary l c → ok v → key c ≈ key v →
  match merge c v with
  | Ok c' => key c' ≈ key c ∧ summary (l ++ [v]) c' ∧ ∀ x, x ∈ l → compat x v
  | Err _ => ∃ x, x ∈ l ∧ ¬ compat x v
  end.

Definition keys_conflict (x v : V) : Prop := key x ≈ key v ∧ ¬ compat x v.

Lemma keyed_insert_spec pre m v :
  keyed_inv pre m → ok v →
  match keyed_insert m v with
  | Ok m' => keyed_inv (pre ++ [v]) m' ∧ ∀ x, x ∈ pre → ¬ keys_conflict x v
  | Err _ => ∃ x, x ∈ pre ∧ keys_conflict x v
  end.
Proof using All.
  intros Hinv Hv. pose proof (proj2 Hinv (key v)) as Hg. unfold keyed_insert.
  destruct (hm_get _ m) as [c|]; simpl.
  - destruct Hg as [Hk Hc]. pose proof (merge_summary _ _ _ Hc Hv Hk) as Hm.
    destruct (merge c v) as [c'|e]; simpl.
    + destruct Hm as (Hk' & Hc' & Hx). split; [apply keyed_inv_insert; [done|by etrans|done]|].
      intros x Hxp [Hxk Hn]. by apply Hn, Hx, elem_of_values_of.
    + destruct Hm as (x & [Hx Hxk]%elem_of_values_of & Hn). by exists x.
  - split; [apply keyed_inv_insert; [done..|]; rewrite Hg; by apply summary_singleton|].
    intros x Hx [Hxk _]. assert (x ∈ values_of key (key v) pre) as Hin by by apply elem_of_values_of.
    rewrite Hg in Hin. by apply elem_of_nil in Hin.
Qed.

Lemma keyed_fold_spec pre m l :
  keyed_inv pre m → Forall ok l →
  match try_fold keyed_insert m l with
  | Ok m' => keyed_inv (pre ++ l) m' ∧
      (∀ before v after, l = before ++ v :: after →
         ∀ x, x ∈ pre ++ before → ¬ keys_conflict x v)
  | Err _ => ∃ x v, x ∈ pre ++ l ∧ v ∈ l ∧ keys_conflict x v
  end.
Proof using All.
  revert pre m. induction l as [|v l IH]; intros pre m Hinv Hok; simpl.
  { rewrite app_nil_r. split; [done|]. by intros []. }
  inversion Hok as [|? ? Hv Hl]; subst.
  pose proof (keyed_insert_spec pre m v Hinv Hv) as Hs.
  destruct (keyed_insert m v) as [m'|e]; simpl.
  - destruct Hs as [Hinv' Hpre]. specialize (IH (pre ++ [v]) m' Hinv' Hl).
    rewrite <-app_assoc in IH. simpl in IH. destruct (try_fold _ m' l) as [m''|e].
    + destruct IH as [Hfin Hpairs]. split; [done|].
      intros [|y before] v' after [= <- ->]; [by rewrite app_nil_r|].
      intros x Hx. apply (Hpairs before v' after eq_refl). by rewrite <-app_assoc.
    + destruct IH as (x & y & Hx & Hy & Hxy). exists x, y. split_and!; [done|by right|done].
  - destruct Hs as (x & Hx & Hxv). exists x, v. rewrite elem_of_app. split_and!; [by left|left|done].
Qed.

(** From the empty map. *)
Lemma keyed_collect_spec l :
  Forall ok l →
  match try_fold keyed_insert [] l with
  | Ok m => keyed_inv l m ∧
      (∀ before v after, l = before ++ v :: after → ∀ x, x ∈ before → ¬ keys_conflict x v)
  | Err _ => ∃ x v, x ∈ l ∧ v ∈ l ∧ keys_conflict x v
  end.
Proof using All. apply (keyed_fold_spec [] []), keyed_inv_nil. Qed.
End keyed_merge.

Lemma NoDup_fmap_eq {A B} (f : A → B) (l : list A) x y :
  NoDup (f <$> l) → x ∈ l → y ∈ l → f x = f y → x = y.
Proof.
  intros Hl [i Hi]%list_elem_of_lookup [j Hj]%list_elem_of_lookup Hxy.
  assert (i = j) as ->; [|congruence].
  apply (NoDup_lookup _ i j (f x) Hl); rewrite list_lookup_fmap; [by rewrite Hi|by rewrite Hj, Hxy].
Qed.

Section bt_collect.
Context {K V : Type} (c : K → K → comparison) `{!CmpOrder c, !CmpLeibniz c}.

Lemma elem_of_bt_insert_fresh k v (m : list (K * V)) q :
  k ∉ m.*1 → q ∈ bt_insert c k v m ↔ q = (k, v) ∨ q ∈ m.
Proof.
  induction m as [|[k' v'] m IH]; csimpl.
  { intros _. rewrite list_elem_of_singleton, elem_of_nil. tauto. }
  rewrite not_elem_of_cons. intros [Hk Hm]. destruct (c k k') eqn:E.
  - apply (cmp_eq_leibniz c) in E. done.
  - rewrite !elem_of_cons. naive_solver.
  - rewrite !elem_of_cons, IH by done. naive_solver.
Qed.

(** Collecting never makes up a pair. *)
Lemma bt_insert_subset k v (m : list (K * V)) q : q ∈ bt_insert c k v m → q = (k, v) ∨ q ∈ m.
Proof.
  induction m as [|[k' v'] m IH]; simpl.
  { rewrite list_elem_of_singleton. tauto. }
  destruct (c k k') eqn:E; rewrite ?elem_of_cons; [|tauto|].
  - apply (cmp_eq_leibniz c) in E. subst. tauto.
  - naive_solver.
Qed.

Lemma bt_from_iter_subset (l : list (K * V)) q : q ∈ bt_from_iter c l → q ∈ l.
Proof.
  unfold bt_from_iter. induction l as [|[k v] l IH] using rev_ind; [done|].
  rewrite foldl_app, elem_of_app, list_elem_of_singleton. simpl.
  intros [->|Hq]%bt_insert_subset; auto.
Qed.

(** Collecting pairs with distinct keys keeps exactly those pairs. *)
Lemma elem_of_bt_from_iter (l : list (K * V)) q : NoDup l.*1 → q ∈ bt_from_iter c l ↔ q ∈ l.
Proof.
  unfold bt_from_iter. revert q. induction l as [|[k v] l IH] using rev_ind; intros q; [done|].
  rewrite fmap_app, foldl_app. csimpl. rewrite NoDup_app. intros (Hl & Hk & _).
  rewrite elem_of_bt_insert_fresh.
  - rewrite (IH q Hl), elem_of_app, list_elem_of_singleton. naive_solver.
  - intros (p & -> & Hp)%list_elem_of_fmap. rewrite (IH p Hl) in Hp.
    apply (Hk p.1); [|left]. apply list_elem_of_fmap. eauto.
Qed.
End bt_collect.

Lemma elem_of_filter_bool {A} (f : A → bool) (l : list A) x :
  x ∈ List.filter f l ↔ x ∈ l ∧ f x = true.
Proof. rewrite !list_elem_of_In. apply filter_In. Qed.

Lemma filter_sublist_bool {A} (f : A → bool) (l : list A) : List.filter f l `sublist_of` l.
Proof. induction l as [|x l IH]; simpl; [done|]. destruct (f x); by constructor. Qed.

(** ** Lists without duplicates of a key *)

Lemma NoDup_fmap_inj_on {A B : Type} (f : A → B) (l : list A) x y :
  NoDup (f <$> l) → x ∈ l → y ∈ l → f x = f y → x = y.
Proof.
  intros Hnd [i Hi]%list_elem_of_lookup_1 [j Hj]%list_elem_of_lookup_1 E.
  assert (i = j) as ->; [|congruence]. eapply (NoDup_lookup (f <$> l)); [done|..].
  - by rewrite list_lookup_fmap, Hi.
  - by rewrite list_lookup_fmap, Hj, E.
Qed.

(** ** [slice::binary_search]

    The steps of [binary_search_by] on a slice: the search is for the last
    element that is not greater. *)

Section binary_search.
Context {A : Type} (c : A → A → comparison).

Fixpoint binary_search_from (fuel base size : nat) (x : A) (l : list A) : nat :=
  match fuel with
  | 0 => base
  | S fuel =>
    if Nat.leb size 1 then base
    else
      let half := Nat.div2 size in
      let mid := base + half in
      let base := match l !! mid with
                  | Some y => if is_gt (c y x) then base else mid
                  | None => base
                  end in
      binary_search_from fuel base (size - half) x l
  end.

(** [l.binary_search(&x).is_ok()] *)
Definition binary_search_is_ok (x : A) (l : list A) : bool :=
  match l !! binary_search_from (length l) 0 (length l) x l with
  | Some y => is_eq (c y x)
  | None => false
  end.

Lemma StronglySorted_lookup_both (R : A → A → Prop) l i j x y :
  StronglySorted R l → l !! i = Some x → l !! j = Some y → i < j → R x y.
Proof.
  intros Hl. revert i j. induction Hl as [|z l _ IH Hz]; intros [|i] [|j] Hi Hj Hij; simpl in *; try done; try lia.
  - injection Hi as ->. rewrite Forall_forall in Hz. apply Hz. by eapply list_elem_of_lookup_2.
  - apply (IH i j); [done..|lia].
Qed.

Context `{!CmpOrder c, !CmpLeibniz c}.

(** What is sought is between [base] and [base + size]. *)
Lemma binary_search_from_spec fuel base size x l i :
  StronglySorted (cmp_le c) l → NoDup l → size ≤ S fuel →
  base ≤ i < base + size → l !! i = Some x → base + size ≤ length l →
  binary_search_from fuel base size x l = i.
Proof.
  intros Hl Hnd. revert base size. induction fuel as [|fuel IH]; intros base size Hsize Hi Hx Hlen;
    cbn [binary_search_from]; [lia|].
  destruct (Nat.leb_spec size 1); [lia|]. cbv zeta.
  pose proof (Nat.div2_odd size) as Hodd. assert (Nat.b2n (Nat.odd size) ≤ 1) by (by destruct (Nat.odd size); simpl; lia).
  destruct (lookup_lt_is_Some_2 l (base + Nat.div2 size)) as [y Hy]; [lia|]. rewrite Hy.
  destruct (is_gt (c y x)) eqn:E.
  - apply IH; [lia| |done|lia]. split; [lia|].
    destruct (decide (i < base + Nat.div2 size)) as [|Hge]; [lia|]. exfalso.
    destruct (decide (i = base + Nat.div2 size)) as [->|Hne].
    + assert (x = y) as -> by congruence. by rewrite (cmp_refl c) in E.
    + assert (cmp_le c y x) as Hle.
      { eapply (StronglySorted_lookup_both _ l); [done|exact Hy|exact Hx|lia]. }
      unfold cmp_le in Hle. by destruct (c y x).
  - apply IH; [lia| |done|lia]. split; [|lia].
    destruct (decide (base + Nat.div2 size ≤ i)) as [|Hlt]; [done|]. exfalso.
    assert (cmp_le c x y) as Hle.
    { eapply (StronglySorted_lookup_both _ l); [done|exact Hx|exact Hy|lia]. }
    assert (c x y = Eq) as Heq.
    { unfold cmp_le in Hle. rewrite (cmp_sym c x y) in E. by destruct (c x y). }
    apply (cmp_eq_leibniz c) in Heq. subst y.
    pose proof (NoDup_lookup _ _ _ _ Hnd Hx Hy). lia.
Qed.

Lemma binary_search_is_ok_iff x l :
  StronglySorted (cmp_le c) l → NoDup l → binary_search_is_ok x l = true ↔ x ∈ l.
Proof.
  intros Hl Hnd. unfold binary_search_is_ok. split.
  - destruct (l !! _) as [y|] eqn:E; [|done]. destruct (c y x) eqn:Ec; try done. intros _.
    apply (cmp_eq_leibniz c) in Ec as ->. by eapply list_elem_of_lookup_2.
  - intros [i Hi]%list_elem_of_lookup_1. pose proof (lookup_lt_Some _ _ _ Hi).
    rewrite (binary_search_from_spec _ _ _ _ _ i); [|done|done|lia..|done|lia].
    by rewrite Hi, (cmp_refl c).
Qed.
End binary_search.

(** ** [BTreeSet], as the list of its elements *)

Section btree_set.
Context {K : Type} (c : K → K → comparison).

Fixpoint bs_insert (k : K) (s : list K) : list K :=
  match s with
  | [] => [k]
  | k' :: s' =>
    match c k k' with
    | Lt => k :: s
    | Eq => s
    | Gt => k' :: bs_insert k s'
    end
  end.

Context `{!CmpOrder c, !CmpLeibniz c}.

Lemma elem_of_bs_insert k s x : x ∈ bs_insert k s ↔ x = k ∨ x ∈ s.
Proof.
  induction s as [|k' s IH]; simpl; [set_solver|].
  destruct (c k k') eqn:E; [apply (cmp_eq_leibniz c) in E as ->|..]; set_solver.
Qed.

Lemma bs_insert_sorted k s : strictly_sorted c s → strictly_sorted c (bs_insert k s).
Proof.
  unfold strictly_sorted. induction 1 as [|k' s Hs IH Hk]; simpl; [by repeat constructor|].
  destruct (c k k') eqn:E; [by constructor|..].
  - constructor; [by constructor|]. constructor; [done|].
    eapply Forall_impl; [exact Hk|]. intros x Hx. by apply (cmp_trans c _ k').
  - constructor; [done|]. apply Forall_forall. intros x [->|Hx]%elem_of_bs_insert.
    + by rewrite (cmp_sym c), E.
    + by eapply Forall_forall in Hk.
Qed.
End btree_set.

(** [map.entry(k).or_default().push(w)] on a map of vectors. *)
Section bt_push.
Context {K W : Type} (c : K → K → comparison).

Definition bt_push (k : K) (w : W) (m : list (K * list W)) : list (K * list W) :=
  bt_insert c k (default [] (bt_get c k m) ++ [w]) m.

Definition bt_group (l : list (K * W)) : list (K * list W) :=
  foldl (λ m p, bt_push p.1 p.2 m) [] l.

Lemma bt_group_snoc l p : bt_group (l ++ [p]) = bt_push p.1 p.2 (bt_group l).
Proof. unfold bt_group. by rewrite foldl_app. Qed.

Context `{!CmpOrder c}.

Lemma bt_group_sorted l : bt_sorted c (bt_group l).
Proof.
  induction l as [|p l IH] using rev_ind; [constructor|].
  rewrite bt_group_snoc. by apply (bt_insert_sorted c).
Qed.

(** The pairs of a key. *)
Definition group_of (k : K) (l : list (K * W)) : list W := (filter (λ p, c k p.1 = Eq) l).*2.

Lemma group_of_snoc k l p :
  group_of k (l ++ [p]) = group_of k l ++ (if is_eq (c k p.1) then [p.2] else []).
Proof.
  unfold group_of. rewrite filter_app, fmap_app. f_equal. rewrite filter_cons.
  by destruct (c k p.1).
Qed.

Lemma bt_get_group k l :
  bt_get c k (bt_group l) = match group_of k l with [] => None | ws => Some ws end.
Proof.
  revert k. induction l as [|p l IH] using rev_ind; intros k; [done|].
  rewrite bt_group_snoc, group_of_snoc. unfold bt_push. destruct (c k p.1) eqn:E; simpl.
  - rewrite (bt_get_insert_eq c) by done. rewrite <-(bt_get_proper_eq c _ _ _ E), IH.
    by destruct (group_of k l).
  - rewrite (bt_get_insert_ne c), app_nil_r by (done || congruence). apply IH.
  - rewrite (bt_get_insert_ne c), app_nil_r by (done || congruence). apply IH.
Qed.

Lemma elem_of_bt_group k ws l : (k, ws) ∈ bt_group l → ws = group_of k l ∧ ws ≠ [].
Proof.
  intros Hin%(bt_in_get c); [|apply bt_group_sorted]. rewrite bt_get_group in Hin.
  destruct (group_of k l); [done|]. by injection Hin as <-.
Qed.

Lemma bt_group_covers k w l : (k, w) ∈ l → ∃ k' ws, (k', ws) ∈ bt_group l ∧ c k k' = Eq ∧ w ∈ ws.
Proof.
  intros Hin. assert (w ∈ group_of k l) as Hw.
  { apply list_elem_of_fmap. exists (k, w). split; [done|]. apply list_elem_of_filter.
    by rewrite (cmp_refl c). }
  pose proof (bt_get_group k l) as Hg. destruct (group_of k l) as [|v ws] eqn:E; [by apply elem_of_nil in Hw|].
  apply (bt_get_in c) in Hg as (k' & Hk & Hin'). by exists k', (v :: ws).
Qed.

(** Grouping only moves the values. *)
Lemma bt_insert_values k (ws : list W) m :
  bt_sorted c m → mjoin (bt_insert c k (default [] (bt_get c k m) ++ ws) m).*2 ≡ₚ ws ++ mjoin m.*2.
Proof.
  induction m as [|[k' v] m IH]; intros Hs; [simpl; by rewrite app_nil_r|].
  simpl. destruct (c k k') eqn:E; cbn [is_eq].
  - simpl. by rewrite (Permutation_app_comm v), <-app_assoc.
  - inversion Hs as [|? ? Hm Hk]; subst.
    assert (bt_get c k m = None) as ->; [|done]. apply (bt_get_head_lt c).
    eapply Forall_impl; [exact Hk|]. intros q. simpl. by apply (cmp_trans c).
  - inversion Hs; subst. simpl. rewrite IH by done. by rewrite !app_assoc, (Permutation_app_comm v).
Qed.

Lemma bt_group_values l : mjoin (bt_group l).*2 ≡ₚ l.*2.
Proof.
  induction l as [|p l IH] using rev_ind; [done|].
  rewrite bt_group_snoc, fmap_app. unfold bt_push. rewrite bt_insert_values by apply bt_group_sorted.
  rewrite IH. by rewrite Permutation_app_comm.
Qed.
End bt_push.

(** [iter().enumerate()] *)
Definition indexed {A} (l : list A) : list (nat * A) := zip (seq 0 (length l)) l.

Lemma elem_of_indexed {A} (l : list A) i x : (i, x) ∈ indexed l ↔ l !! i = Some x.
Proof.
  unfold indexed. rewrite list_elem_of_lookup. split.
  - intros [j Hj]. apply lookup_zip_Some in Hj as [Hi Hx].
    apply lookup_seq in Hi as [-> _]. done.
  - intros Hx. exists i. apply lookup_zip_Some. split; [|done].
    apply lookup_seq. split; [done|]. by eapply lookup_lt_Some.
Qed.
