(* ===== verification/Text.v ===== *)
(** * Searching, slicing and trimming [str]s

    The [str] methods of the parsers, on the UTF-8 bytes of the text: a byte
    index returned by [find] and used in a slice is a [nat], and the slices are
    [take] and [drop].  Cuts are made at ASCII bytes, which are character
    boundaries. *)

From S2P Require Import Prelude RustStd.

(** ** [find], [rfind], [starts_with] *)

Definition byte_is (n : N) (b : byte) : bool := N.eqb (u8 b) n.

Fixpoint find_index (p : byte → bool) (l : list byte) : option nat :=
  match l with
  | [] => None
  | b :: l => if p b then Some 0 else S <$> find_index p l
  end.

Definition rfind_index (p : byte → bool) (l : list byte) : option nat :=
  (λ i, length l - S i) <$> find_index p (rev l).

Fixpoint has_prefix (needle l : list byte) : bool :=
  match needle, l with
  | [], _ => true
  | _ :: _, [] => false
  | a :: needle, b :: l => bool_decide (a = b) && has_prefix needle l
  end.

(** [str::find] of a text. *)
Fixpoint find_sub (needle l : list byte) : option nat :=
  if has_prefix needle l then Some 0
  else match l with
       | [] => None
       | _ :: l => S <$> find_sub needle l
       end.

(** [str::strip_prefix]. *)
Definition strip_prefix (needle l : list byte) : option (list byte) :=
  if has_prefix needle l then Some (drop (length needle) l) else None.

Definition has_suffix (needle l : list byte) : bool := has_prefix (rev needle) (rev l).

(** [split_once] and [rsplit_once] of one ASCII character. *)
Definition split_once (p : byte → bool) (l : list byte) : option (list byte * list byte) :=
  (λ i, (take i l, drop (S i) l)) <$> find_index p l.
Definition rsplit_once (p : byte → bool) (l : list byte) : option (list byte * list byte) :=
  (λ i, (take i l, drop (S i) l)) <$> rfind_index p l.

Lemma find_index_none p l : find_index p l = None ↔ Forall (λ b, p b = false) l.
Proof.
  induction l as [|b l IH]; simpl; [by split|]. rewrite Forall_cons.
  destruct (p b); [naive_solver|]. rewrite fmap_None, IH. naive_solver.
Qed.

Lemma find_index_some p l i :
  find_index p l = Some i ↔ ∃ before b after,
    l = before ++ b :: after ∧ length before = i ∧ Forall (λ b, p b = false) before ∧ p b = true.
Proof.
  revert i. induction l as [|b l IH]; intros i; simpl.
  { split; [done|]. by intros ([] & ? & ? & [=] & _). }
  destruct (p b) eqn:Hb.
  - split.
    + intros [= <-]. by exists [], b, l.
    + intros ([|c before] & d & after & [= <- ->] & <- & Hf & ?); [done|].
      inversion Hf; congruence.
  - rewrite fmap_Some. setoid_rewrite IH. split.
    + intros (j & (before & c & after & -> & <- & ? & ?) & ->).
      exists (b :: before), c, after. split_and!; [done..| by constructor | done].
    + intros ([|c before] & d & after & [= <- ->] & <- & Hf & ?); [congruence|].
      inversion Hf; subst. exists (length before). split; [|done].
      by exists before, d, after.
Qed.

Lemma find_index_app p l b r :
  Forall (λ b, p b = false) l → p b = true → find_index p (l ++ b :: r) = Some (length l).
Proof. intros Hl Hb. apply find_index_some. by exists l, b, r. Qed.

Lemma split_once_app p l b r :
  Forall (λ b, p b = false) l → p b = true → split_once p (l ++ b :: r) = Some (l, r).
Proof.
  intros Hl Hb. unfold split_once. rewrite find_index_app by done. simpl.
  rewrite take_app_length, <-Nat.add_1_r, drop_app_add. done.
Qed.

Lemma rfind_index_app p l b r :
  Forall (λ b, p b = false) r → p b = true → rfind_index p (l ++ b :: r) = Some (length l).
Proof.
  intros Hr Hb. unfold rfind_index. rewrite rev_app_distr. simpl. rewrite <-app_assoc. simpl.
  rewrite find_index_app by (done || by apply Forall_rev). simpl.
  rewrite length_app, length_rev. simpl. f_equal. lia.
Qed.

Lemma rfind_index_none p l : rfind_index p l = None ↔ Forall (λ b, p b = false) l.
Proof.
  unfold rfind_index. rewrite fmap_None, find_index_none. split; [|apply Forall_rev].
  intros H%Forall_rev. by rewrite rev_involutive in H.
Qed.

Lemma rsplit_once_app p l b r :
  Forall (λ b, p b = false) r → p b = true → rsplit_once p (l ++ b :: r) = Some (l, r).
Proof.
  intros Hr Hb. unfold rsplit_once. rewrite rfind_index_app by done. simpl.
  rewrite take_app_length, <-Nat.add_1_r, drop_app_add. done.
Qed.

Lemma rsplit_once_none p l : rsplit_once p l = None ↔ Forall (λ b, p b = false) l.
Proof. unfold rsplit_once. by rewrite fmap_None, rfind_index_none. Qed.

Lemma rsplit_once_some p l before after :
  rsplit_once p l = Some (before, after) →
  ∃ b, l = before ++ b :: after ∧ p b = true ∧ Forall (λ b, p b = false) after.
Proof.
  unfold rsplit_once, rfind_index. rewrite fmap_Some. intros (i & Hi & Heq).
  apply fmap_Some in Hi as (j & Hj & ->).
  apply find_index_some in Hj as (r & b & l' & Hrev & <- & Hr & Hb).
  apply (f_equal (@rev byte)) in Hrev. rewrite rev_involutive, rev_app_distr in Hrev.
  simpl in Hrev. rewrite <-app_assoc in Hrev. simpl in Hrev. subst l.
  replace (length (rev l' ++ b :: rev r) - S (length r)) with (length (rev l')) in Heq
    by (rewrite length_app; simpl; rewrite !length_rev; lia).
  rewrite take_app_length, <-Nat.add_1_r, drop_app_add in Heq. injection Heq as -> ->.
  exists b. split_and!; [done..|]. by apply Forall_rev.
Qed.

Lemma has_prefix_iff needle l : has_prefix needle l = true ↔ ∃ r, l = needle ++ r.
Proof.
  revert l. induction needle as [|a needle IH]; intros [|b l]; simpl;
    [naive_solver..|].
  rewrite andb_true_iff, bool_decide_eq_true, IH. naive_solver.
Qed.

Lemma has_prefix_app needle r : has_prefix needle (needle ++ r) = true.
Proof. apply has_prefix_iff. eauto. Qed.

Lemma strip_prefix_some needle l r : strip_prefix needle l = Some r ↔ l = needle ++ r.
Proof.
  unfold strip_prefix. destruct (has_prefix needle l) eqn:E.
  - apply has_prefix_iff in E as (r' & ->). rewrite drop_app_length. split; naive_solver.
  - split; [done|]. intros ->. by rewrite has_prefix_app in E.
Qed.

Lemma strip_prefix_app needle r : strip_prefix needle (needle ++ r) = Some r.
Proof. by apply strip_prefix_some. Qed.

Lemma has_suffix_iff needle l : has_suffix needle l = true ↔ ∃ r, l = r ++ needle.
Proof.
  unfold has_suffix. rewrite has_prefix_iff. split.
  - intros (r & H). exists (rev r). apply (f_equal (@rev byte)) in H.
    by rewrite rev_app_distr, !rev_involutive in H.
  - intros (r & ->). exists (rev r). by rewrite rev_app_distr.
Qed.

Lemma find_sub_some needle l i :
  find_sub needle l = Some i → ∃ before after, l = before ++ needle ++ after ∧ length before = i.
Proof.
  revert i. induction l as [|b l IH]; intros i; simpl.
  - destruct needle; [|done]. intros [= <-]. by exists [], [].
  - destruct (has_prefix needle (b :: l)) eqn:Hp.
    + intros [= <-]. apply has_prefix_iff in Hp as (r & ->). by exists [], r.
    + intros (j & (before & after & -> & <-)%IH & ->)%fmap_Some. by exists (b :: before), after.
Qed.

(** The first byte of the needle occurs nowhere before it. *)
Lemma find_sub_app a needle l r :
  Forall (λ b, b ≠ a) l → find_sub (a :: needle) (l ++ (a :: needle) ++ r) = Some (length l).
Proof.
  induction 1 as [|b l Hb _ IH].
  - simpl app. unfold find_sub. by rewrite (has_prefix_app (a :: needle) r : has_prefix _ (a :: needle ++ r) = _).
  - change (find_sub (a :: needle) (b :: (l ++ (a :: needle) ++ r)) = Some (S (length l))).
    cbn [find_sub has_prefix]. rewrite bool_decide_eq_false_2 by congruence. simpl andb. cbv iota.
    by rewrite IH.
Qed.

(** ** Facts about one byte, checked on all of them *)

Definition every_byte : list byte := byte_of <$> (N.of_nat <$> seq 0 256).

Lemma elem_of_every_byte b : b ∈ every_byte.
Proof.
  unfold every_byte. rewrite <-(byte_of_u8 b). apply list_elem_of_fmap_2.
  apply list_elem_of_fmap. exists (N.to_nat (u8 b)). rewrite N2Nat.id. split; [done|].
  apply elem_of_seq. pose proof (u8_bound b). lia.
Qed.

Lemma byte_check (p : byte → bool) : forallb p every_byte = true → ∀ b, p b = true.
Proof. intros H b. eapply forallb_forall; [done|]. apply list_elem_of_In, elem_of_every_byte. Qed.

(** Proves [q b = true] from [H : p b = true] by evaluation. *)
Lemma byte_implies (p q : byte → bool) :
  forallb (λ b, implb (p b) (q b)) every_byte = true → ∀ b, p b = true → q b = true.
Proof. intros H b Hb. pose proof (byte_check _ H b) as Hi. simpl in Hi. by rewrite Hb in Hi. Qed.

Lemma byte_excludes (p q : byte → bool) :
  forallb (λ b, implb (p b) (negb (q b))) every_byte = true → ∀ b, p b = true → q b = false.
Proof. intros H b Hb. apply negb_true_iff. by apply (byte_implies p (λ b, negb (q b))). Qed.

Lemma byte_same {A} `{EqDecision A} (f g : byte → A) :
  forallb (λ b, bool_decide (f b = g b)) every_byte = true → ∀ b, f b = g b.
Proof. intros H b. by pose proof (byte_check _ H b) as Hi%bool_decide_eq_true. Qed.

(** ** Splitting *)

(** A property of the separators and of every piece holds of the whole text. *)
Lemma split_bytes_Forall (P : byte → Prop) sep l :
  (∀ b, sep b = true → P b) → Forall (Forall P) (split_bytes sep l) → Forall P l.
Proof.
  intros Hsep. induction l as [|b l IH]; simpl; [constructor|].
  destruct (split_bytes_cons sep l) as (p & ps & E). rewrite E in *.
  destruct (sep b) eqn:Hb; intros H.
  - inversion H; subst. constructor; auto.
  - inversion H as [|? ? Hp Hps]; subst. inversion Hp; subst. constructor; [done|].
    apply IH. by constructor.
Qed.

(** Pieces without the separator, put together with it, are split again. *)
Lemma split_bytes_no_separator sep l : Forall (λ b, sep b = false) l → split_bytes sep l = [l].
Proof. induction 1 as [|b l Hb _ IH]; simpl; [done|]. by rewrite IH, Hb. Qed.

Lemma split_bytes_cons_other sep b l p ps :
  sep b = false → split_bytes sep l = p :: ps → split_bytes sep (b :: l) = (b :: p) :: ps.
Proof. intros Hb Hl. simpl. by rewrite Hl, Hb. Qed.

Lemma split_bytes_app_separator sep l b r :
  Forall (λ b, sep b = false) l → sep b = true →
  split_bytes sep (l ++ b :: r) = l :: split_bytes sep r.
Proof.
  intros Hl Hb. induction Hl as [|x l Hx _ IH]; simpl.
  - rewrite Hb. by destruct (split_bytes_cons sep r) as (p & ps & ->).
  - by rewrite IH, Hx.
Qed.

(** [str::split_terminator]: as [split], without the last piece when it is
    empty. *)
Definition split_terminator (sep : byte → bool) (s : string) : list string :=
  let pieces := str_split sep s in
  match last pieces with
  | Some "" => removelast pieces
  | _ => pieces
  end.

(** ** Trimming: [str::trim] removes White_Space characters at both ends *)

(** The characters of a text, each with its bytes. *)
Fixpoint char_slices_from (fuel : nat) (l : list byte) : list (N * list byte) :=
  match fuel with
  | 0 => []
  | S fuel =>
    match decode_char l with
    | None => []
    | Some (c, width) => (c, take width l) :: char_slices_from fuel (drop width l)
    end
  end.
Definition char_slices (l : list byte) : list (N * list byte) := char_slices_from (length l) l.

Fixpoint drop_while {A} (p : A → bool) (l : list A) : list A :=
  match l with
  | [] => []
  | x :: l' => if p x then drop_while p l' else l
  end.

Definition trim_slices (l : list (N * list byte)) : list (N * list byte) :=
  let blank := λ c : N * list byte, char_is_whitespace c.1 in
  rev (drop_while blank (rev (drop_while blank l))).

Definition trim_bytes (l : list byte) : list byte := mjoin (trim_slices (char_slices l)).*2.
Definition str_trim (s : string) : string := from_utf8 (trim_bytes (bytes s)).

Definition is_ascii_byte (b : byte) : bool := N.ltb (u8 b) 128.
Definition blank_byte (b : byte) : bool := char_is_whitespace (u8 b).

Lemma char_slices_ascii l :
  Forall (λ b, is_ascii_byte b = true) l → char_slices l = (λ b, (u8 b, [b])) <$> l.
Proof.
  unfold char_slices. intros Hl. remember (length l) as n eqn:Hn.
  assert (length l ≤ n) as Hle by lia. clear Hn.
  revert n Hle. induction Hl as [|b l Hb _ IH]; intros [|n] Hle; simpl in *; try done; [lia|].
  apply N.ltb_lt in Hb. replace (N.ltb (u8 b) 192) with true by (symmetry; apply N.ltb_lt; lia).
  simpl. rewrite drop_0, take_0. f_equal. apply IH. lia.
Qed.

Lemma drop_while_fmap {A B} (f : A → B) p l :
  drop_while p (f <$> l) = f <$> drop_while (p ∘ f) l.
Proof. induction l as [|x l IH]; simpl; [done|]. by destruct (p (f x)). Qed.

Lemma mjoin_singletons {A} (l : list A) : mjoin ((λ x, [x]) <$> l) = l.
Proof. induction l as [|x l IH]; csimpl; [done|]. by f_equal. Qed.

(** On ASCII text, trimming works byte by byte. *)
Lemma trim_bytes_ascii l :
  Forall (λ b, is_ascii_byte b = true) l →
  trim_bytes l = rev (drop_while blank_byte (rev (drop_while blank_byte l))).
Proof.
  intros Hl. unfold trim_bytes, trim_slices. rewrite char_slices_ascii by done.
  rewrite drop_while_fmap. unfold compose. cbn [fst].
  rewrite <-!(map_rev (λ b, (u8 b, [b]))), drop_while_fmap. unfold compose. cbn [fst].
  change (drop_while (λ x : byte, char_is_whitespace (u8 x))) with (drop_while blank_byte).
  rewrite <-(map_rev (λ b, (u8 b, [b]))).
  change (map ?f ?k) with (f <$> k). rewrite <-list_fmap_compose. unfold compose. cbn [snd].
  apply mjoin_singletons.
Qed.

Lemma drop_while_keep {A} (p : A → bool) l :
  (∀ x, head l = Some x → p x = false) → drop_while p l = l.
Proof. destruct l as [|x l]; simpl; [done|]. intros H. by rewrite (H x). Qed.

Lemma drop_while_app {A} (p : A → bool) l k :
  Forall (λ x, p x = true) l → drop_while p (l ++ k) = drop_while p k.
Proof. induction 1 as [|x l Hx _ IH]; simpl; [done|]. by rewrite Hx. Qed.

Lemma head_rev {A} (l : list A) : head (rev l) = last l.
Proof.
  induction l as [|x l _] using rev_ind; [done|].
  rewrite rev_app_distr, last_snoc. done.
Qed.

(** A text without blanks at its ends is its own trimming, also when blanks
    surround it. *)
Lemma trim_bytes_pad before l after :
  Forall (λ b, is_ascii_byte b = true) l →
  Forall (λ b, is_ascii_byte b && blank_byte b = true) before →
  Forall (λ b, is_ascii_byte b && blank_byte b = true) after →
  (∀ b, head l = Some b → blank_byte b = false) →
  (∀ b, last l = Some b → blank_byte b = false) →
  l ≠ [] →
  trim_bytes (before ++ l ++ after) = l.
Proof.
  intros Hl Hb Ha Hh Hlast Hne.
  assert (∀ k, Forall (λ b, is_ascii_byte b && blank_byte b = true) k →
    Forall (λ b, is_ascii_byte b = true) k ∧ Forall (λ b, blank_byte b = true) k) as Hsplit.
  { intros k Hk. rewrite <-Forall_and. eapply Forall_impl; [done|]. intros b.
    by rewrite andb_true_iff. }
  destruct (Hsplit _ Hb), (Hsplit _ Ha).
  rewrite trim_bytes_ascii by (by rewrite !Forall_app).
  rewrite drop_while_app by done.
  rewrite (drop_while_keep _ (l ++ after)) by (intros b; destruct l; [done|]; apply Hh).
  rewrite rev_app_distr, drop_while_app by by apply Forall_rev.
  rewrite drop_while_keep; [apply rev_involutive|].
  intros b Hb'. apply Hlast. by rewrite <-head_rev.
Qed.

Lemma trim_bytes_id l :
  Forall (λ b, is_ascii_byte b = true) l →
  (∀ b, head l = Some b → blank_byte b = false) →
  (∀ b, last l = Some b → blank_byte b = false) →
  trim_bytes l = l.
Proof.
  intros Hl Hh Hla. destruct (decide (l = [])) as [->|]; [done|].
  pose proof (trim_bytes_pad [] l [] Hl) as H. rewrite app_nil_r in H. simpl in H.
  apply H; auto.
Qed.

(** ** UTF-8 validation *)

Definition utf8_continuation (b : byte) : bool := in_range 128 191 b.

(** The width of the well-formed sequence at the front of the bytes. *)
Definition utf8_width (l : list byte) : option nat :=
  match l with
  | [] => None
  | b :: t =>
    if N.ltb (u8 b) 128 then Some 1
    else match t with
    | c1 :: t =>
      if in_range 194 223 b then if utf8_continuation c1 then Some 2 else None
      else match t with
      | c2 :: t =>
        if in_range 224 239 b then
          let low := if byte_is 224 b then 160%N else 128%N in
          let high := if byte_is 237 b then 159%N else 191%N in
          if in_range low high c1 && utf8_continuation c2 then Some 3 else None
        else match t with
        | c3 :: _ =>
          if in_range 240 244 b then
            let low := if byte_is 240 b then 144%N else 128%N in
            let high := if byte_is 244 b then 143%N else 191%N in
            if in_range low high c1 && utf8_continuation c2 && utf8_continuation c3
            then Some 4 else None
          else None
        | [] => None
        end
      | [] => None
      end
    | [] => None
    end
  end.

(** [str::from_utf8]: the text, or [valid_up_to]. *)
Fixpoint utf8_valid_up_to (fuel index : nat) (l : list byte) : option nat :=
  match fuel, l with
  | _, [] => None
  | 0, _ => Some index
  | S fuel, _ =>
    match utf8_width l with
    | Some width => utf8_valid_up_to fuel (index + width) (drop width l)
    | None => Some index
    end
  end.

Definition str_from_utf8 (l : list byte) : result string nat :=
  match utf8_valid_up_to (length l) 0 l with
  | None => Ok (from_utf8 l)
  | Some index => Err index
  end.

(** [Utf8Error::error_len] of what follows the valid text: [None] when it only
    ends too early. *)
Definition utf8_error_len (l : list byte) : option nat :=
  match l with
  | [] => None
  | b :: t =>
    let second_range :=
      (if byte_is 224 b then (160, 191) else if byte_is 237 b then (128, 159)
       else if byte_is 240 b then (144, 191) else if byte_is 244 b then (128, 143)
       else (128, 191))%N in
    let second c := in_range second_range.1 second_range.2 c in
    let wide := in_range 240 244 b in
    if negb (in_range 194 244 b) then Some 1
    else match t with
    | [] => None
    | c1 :: t =>
      if negb (second c1) then Some 1
      else match t with
      | [] => None
      | c2 :: t =>
        if negb (utf8_continuation c2) then Some 2
        else match t with [] => None | _ => if wide then Some 3 else None end
      end
    end
  end.

(** [Utf8Error]'s [Display]. *)
Definition utf8_error_text (l : list byte) (index : nat) : string :=
  match utf8_error_len (drop index l) with
  | Some n =>
    "invalid utf-8 sequence of " +:+ nat_to_string n +:+ " bytes from index " +:+ nat_to_string index
  | None => "incomplete utf-8 byte sequence from index " +:+ nat_to_string index
  end.

(** [str::lines]: a line ends with ["\n"] or ["\r\n"]; the last end starts no
    line. *)
Definition strip_carriage_return (line : list byte) : list byte :=
  match last line with
  | Some b => if byte_is 13 b then removelast line else line
  | None => line
  end.
Definition str_lines (l : list byte) : list (list byte) :=
  let pieces := split_bytes (byte_is 10) l in
  let ended := removelast pieces in
  (strip_carriage_return <$> ended) ++
    match last pieces with Some (b :: t) => [b :: t] | _ => [] end.

Example lines_of_text :
  from_utf8 <$> str_lines (bytes "a" ++ [byte_of 13; byte_of 10] ++ bytes "b" ++ [byte_of 10])
    = ["a"; "b"].
Proof. reflexivity. Qed.

(** ** Case and replacement *)

Definition eq_ignore_ascii_case (s t : string) : bool :=
  bool_decide (to_ascii_lowercase s = to_ascii_lowercase t).

(** [str::replace] of one ASCII character by another. *)
Definition replace_byte (p : byte → bool) (by_ : byte) (s : string) : string :=
  from_utf8 ((λ b, if p b then by_ else b) <$> bytes s).
