(* ===== verification/Externals.v ===== *)
(** * Third-party code, as interfaces

    The program calls [jiff] for calendar dates, [sha2] and [md5] for hashing,
    [serde_json], [postcard], [deb822_fast], [flate2] and [tar] for formats, and the
    [pubgrub] and [version-ranges] crates for solving.  None of them is part of
    the repository, so each is a class of operations the model is parametrised
    by; the [...Laws] classes state the documented behaviour a theorem relies
    on.  [UnicodeTables] are the two tables of [core::unicode] that [{:?}] of a
    string consults for non-ASCII characters. *)

From S2P Require Import Prelude RustStd Collections Text.

(** ** [jiff::civil::Date] *)

Class CivilDate := {
  Date : Type;
  Date_eq_dec : EqDecision Date;
  Date_cmp : Date → Date → comparison;
  (** [Date::strptime(format, input)]; the error is its [to_string()]. *)
  Date_strptime : string → string → result Date string;
  (** [date.strftime(format).to_string()]. *)
  Date_strftime : string → Date → string;
}.
#[export] Existing Instance Date_eq_dec.

(** Dates are totally ordered, and only equal dates compare equal. *)
Class CivilDateLaws `{CivilDate} : Prop := {
  Date_cmp_order : CmpOrder Date_cmp;
  Date_cmp_leibniz : CmpLeibniz Date_cmp;
}.
#[export] Existing Instance Date_cmp_order.
#[export] Existing Instance Date_cmp_leibniz.

(** ** [jiff::civil::DateTime] *)

Class CivilDateTime `{CivilDate} := {
  DateTime : Type;
  (** [DateTime::strptime(format, input)]; the error is its [to_string()]. *)
  DateTime_strptime : string → string → result DateTime string;
  (** [datetime.strftime(format).to_string()]. *)
  DateTime_strftime : string → DateTime → string;
  DateTime_date : DateTime → Date;
}.

(** ** [deb822_fast::borrowed::parse_borrowed]

    The paragraphs of a control file, each a list of field names with their
    [join()]ed values; the error is its [to_string()]. *)

Class Deb822 := {
  deb822_parse : string → result (list (list (string * string))) string;
}.

(** ** [sha2::Sha256::digest] *)

Class Sha2 := {
  sha256_digest : list byte → list byte;
}.

(** The digest has 32 bytes. *)
Class Sha2Laws `{Sha2} : Prop := {
  sha256_digest_length (data : list byte) : length (sha256_digest data) = 32;
}.

(** ** [md5::Md5], and the streaming interface of the [digest] crates

    [update] in any pieces, then [finalize], is the digest of the pieces joined. *)

Class Md5Sum := {
  md5_digest : list byte → list byte;
}.

Class DigestStream (digest : list byte → list byte) := {
  Hasher : Type;
  Hasher_new : Hasher;
  Hasher_update : Hasher → list byte → Hasher;
  Hasher_finalize : Hasher → list byte;
}.
Arguments Hasher digest {_}.
Arguments Hasher_new digest {_}.
Arguments Hasher_update digest {_} _ _.
Arguments Hasher_finalize digest {_} _.

Class DigestStreamLaws (digest : list byte → list byte) `{!DigestStream digest} : Prop := {
  Hasher_finalize_chunks (chunks : list (list byte)) :
    Hasher_finalize digest (foldl (Hasher_update digest) (Hasher_new digest) chunks)
      = digest (mjoin chunks);
}.

(** ** [serde_json] on a type with derived [Serialize] and [Deserialize]

    The errors are their [to_string()]. *)

Class Json (T : Type) := {
  json_to_vec_pretty : T → result (list byte) string;
  json_from_str : string → result T string;
}.

(** What it writes is text, and is read back. *)
Class JsonLaws (T : Type) `{!Json T} : Prop := {
  json_round_trip (x : T) (l : list byte) :
    json_to_vec_pretty x = Ok l → ∃ s, str_from_utf8 l = Ok s ∧ json_from_str s = Ok x;
}.

(** ** [serde_json::to_vec] and [from_slice] *)

Class JsonBytes (T : Type) := {
  json_to_vec : T → result (list byte) string;
  json_from_slice : list byte → result T string;
}.

(** What it writes is read back. *)
Class JsonBytesLaws (T : Type) `{!JsonBytes T} : Prop := {
  json_bytes_round_trip (x : T) (l : list byte) : json_to_vec x = Ok l → json_from_slice l = Ok x;
}.

(** ** [postcard] on such a type *)

Class Postcard (T : Type) := {
  postcard_to_stdvec : T → result (list byte) string;
  (** The value, and the bytes after it. *)
  postcard_take_from_bytes : list byte → result (T * list byte) string;
}.

(** What it writes is read back, to its end. *)
Class PostcardLaws (T : Type) `{!Postcard T} : Prop := {
  postcard_round_trip (x : T) (l : list byte) :
    postcard_to_stdvec x = Ok l → postcard_take_from_bytes l = Ok (x, []);
}.

(** ** [jiff::Timestamp]

    Whether [value.parse::<Timestamp>()] succeeds. *)

Class Timestamps := {
  Timestamp_parses : string → bool;
}.

(** ** [toml] on such a type *)

Class Toml (T : Type) := {
  toml_to_string_pretty : T → result string string;
  toml_from_str : string → result T string;
}.

(** What it writes is text, and is read back. *)
Class TomlLaws (T : Type) `{!Toml T} : Prop := {
  toml_round_trip (x : T) (s : string) :
    toml_to_string_pretty x = Ok s → str_from_utf8 (bytes s) = Ok s ∧ toml_from_str s = Ok x;
}.

(** ** [toml::Value]

    Its variants; floating-point numbers and dates are told apart from the rest
    only.  A table is its entries in the order of their keys. *)

Inductive TomlValue :=
| TomlString (value : string)
| TomlInteger (value : Z)
| TomlBoolean (value : bool)
| TomlArray (values : list TomlValue)
| TomlTable (entries : list (string * TomlValue))
| TomlOther.

(** [toml::from_str::<toml::Value>]; the error is its [to_string()]. *)
Class TomlValues := {
  toml_value_from_str : string → result TomlValue string;
}.

(** [toml::to_string] of a structure whose one field, of the given name, is a string
    or a list of strings. *)
Class TomlFields := {
  toml_field_to_string : string → TomlValue → result string string;
}.

(** ** [url::Url]

    A parsed URL and its setters; the error of [parse] is its [to_string()]. *)

Class Urls := {
  Url : Type;
  Url_parse : string → result Url string;
  Url_scheme : Url → string;
  Url_host_str : Url → option string;
  Url_username : Url → string;
  Url_password : Url → option string;
  Url_query : Url → option string;
  Url_fragment : Url → option string;
  (** [None] for the default port of the scheme. *)
  Url_port : Url → option N;
  Url_path : Url → string;
  Url_set_path : Url → string → Url;
  Url_set_port : Url → option N → result Url unit;
  Url_to_string : Url → string;
}.

(** ** Unicode tables of [core] *)

Class UnicodeTables := {
  grapheme_extend : N → bool;
  unicode_printable : N → bool;
}.

(** ** [version_ranges::Ranges] (re-exported by [pubgrub])

    A set of versions.  The program builds ranges from singletons, tests
    membership, and compares a range with the empty one. *)

Class VersionRanges (V : Type) := {
  Ranges : Type;
  Ranges_empty : Ranges;
  Ranges_singleton : V → Ranges;
  Ranges_union : Ranges → Ranges → Ranges;
  Ranges_contains : Ranges → V → bool;
  Ranges_eq : Ranges → Ranges → bool;
}.

(** Membership is that of sets, and equal ranges have equal members. *)
Class VersionRangesLaws (V : Type) `{PartialEq V, !VersionRanges V} : Prop := {
  contains_empty (v : V) : Ranges_contains Ranges_empty v = false;
  contains_singleton (v w : V) : Ranges_contains (Ranges_singleton v) w = (v =?= w);
  contains_union (r s : Ranges) (v : V) :
    Ranges_contains (Ranges_union r s) v = Ranges_contains r v || Ranges_contains s v;
  Ranges_eq_refl (r : Ranges) : Ranges_eq r r = true;
  Ranges_eq_contains (r s : Ranges) (v : V) :
    Ranges_eq r s = true → Ranges_contains r v = Ranges_contains s v;
}.

(** ** [pubgrub]'s provider interface

    [Dependencies] and the calls of a [DependencyProvider], over the provider's
    own state [S]; [DC] is [DependencyConstraints]. *)

Inductive Dependencies (DC M : Type) :=
| Unavailable (message : M)
| AvailableDependencies (constraints : DC).
Arguments Unavailable {DC M}.
Arguments AvailableDependencies {DC M}.

(** [DependencyConstraints::from_iter] and the pairs of a constraint set. *)
Class DependencyConstraints (P VS : Type) := {
  Constraints : Type;
  Constraints_from_iter : list (P * VS) → Constraints;
  Constraints_pairs : Constraints → list (P * VS);
}.

(** Whatever a set of constraints keeps, it asks for each pair it was built from: two
    ranges for one package are both kept, or their intersection is. *)
Class DependencyConstraintsLaws (P VS : Type) {V : Type} (contains : VS → V → bool)
    `{PartialEq P, !DependencyConstraints P VS} : Prop := {
  Constraints_pairs_asked (l : list (P * VS)) p r :
    (p, r) ∈ l → ∃ p' r', p' ≈ p ∧ (p', r') ∈ Constraints_pairs (Constraints_from_iter l) ∧
      ∀ v, contains r' v = true → contains r v = true;
}.

(** The shape of a no-solution proof that the program looks at: [Custom] leaves
    with the provider's message, other leaves, and derived nodes. *)
Inductive DerivationTree (M : Type) :=
| ExternalCustom (message : M)
| ExternalOther
| Derived (cause1 cause2 : DerivationTree M).
Arguments ExternalCustom {M}.
Arguments ExternalOther {M}.
Arguments Derived {M}.

Record DependencyProvider (P V VS DC M E Priority S : Type) := mk_DependencyProvider {
  provider_prioritize : P → VS → S → Priority * S;
  provider_choose_version : P → VS → S → result (option V) E * S;
  provider_get_dependencies : P → V → S → result (Dependencies DC M) E * S;
}.
Arguments mk_DependencyProvider {P V VS DC M E Priority S}.
Arguments provider_prioritize {P V VS DC M E Priority S}.
Arguments provider_choose_version {P V VS DC M E Priority S}.
Arguments provider_get_dependencies {P V VS DC M E Priority S}.

(** The error of [resolve]: three carry the provider's own error. *)
Inductive PubGrubError (M E : Type) :=
| NoSolutionTree (tree : DerivationTree M)
| ErrorRetrievingDependencies (source : E)
| ErrorChoosingVersion (source : E)
| ErrorInShouldCancel (source : E).
Arguments NoSolutionTree {M E}.
Arguments ErrorRetrievingDependencies {M E}.
Arguments ErrorChoosingVersion {M E}.
Arguments ErrorInShouldCancel {M E}.

(** ** [pubgrub::resolve] *)

Class PubGrub (P V VS DC M E Priority S : Type) := {
  pubgrub_resolve :
    DependencyProvider P V VS DC M E Priority S → P → V → S →
    result (list (P * V)) (PubGrubError M E) * S;
  (** [{:?}] of a derivation tree. *)
  DerivationTree_debug : DerivationTree M → string;
}.

Section pubgrub_laws.
Context {P V VS DC M E Priority S : Type}.
Context (provider : DependencyProvider P V VS DC M E Priority S).

(** A call to the provider, with what it returned. *)
Inductive ProviderCall :=
| CallPrioritize (package : P) (range : VS)
| CallChooseVersion (package : P) (range : VS) (returned : result (option V) E)
| CallGetDependencies (package : P) (version : V) (returned : result (Dependencies DC M) E).

(** One call, and the state it leaves. *)
Definition provider_call (s : S) (call : ProviderCall) (s' : S) : Prop :=
  match call with
  | CallPrioritize p r => (provider_prioritize provider p r s).2 = s'
  | CallChooseVersion p r v => provider_choose_version provider p r s = (v, s')
  | CallGetDependencies p v d => provider_get_dependencies provider p v s = (d, s')
  end.

(** A run is a sequence of calls. *)
Inductive provider_run : S → list ProviderCall → S → Prop :=
| run_nil s : provider_run s [] s
| run_cons s call s' calls s'' :
  provider_call s call s' → provider_run s' calls s'' → provider_run s (call :: calls) s''.
End pubgrub_laws.

Arguments ProviderCall P V VS DC M E : clear implicits.

(** What [resolve] documents.  It only talks to the provider through its calls;
    a solution is a map from packages to versions that contains the root; each
    selected version but the root's was chosen by the provider for a range that
    contains it, and has available dependencies that the solution satisfies. *)
Class PubGrubLaws {P V VS DC M E Priority S : Type} `{PartialEq P}
    (contains : VS → V → bool) (pairs : DC → list (P * VS))
    `{!PubGrub P V VS DC M E Priority S} : Prop := {
  resolve_run provider root v s r s' :
    pubgrub_resolve provider root v s = (r, s') → ∃ calls, provider_run provider s calls s';
  resolve_solution provider root v s sel s' :
    pubgrub_resolve provider root v s = (Ok sel, s') →
    ∃ calls, provider_run provider s calls s' ∧ hm_wf sel ∧ (root, v) ∈ sel ∧
      ∀ p w, (p, w) ∈ sel →
        ((p, w) = (root, v) ∨ ∃ range, contains range w = true ∧
           CallChooseVersion p range (Ok (Some w)) ∈ calls) ∧
        ∃ dc, CallGetDependencies p w (Ok (AvailableDependencies dc)) ∈ calls ∧
          ∀ q range, (q, range) ∈ pairs dc →
            ∃ q' x, q' ≈ q ∧ (q', x) ∈ sel ∧ contains range x = true;
}.
