(* ===== verification/FileSystem.v ===== *)
(** * Files ([std::path], [std::io], [std::fs])

    What the program uses of Rust's file system interface: a tree of nodes, and
    operations on it any of which may fail.  A schedule decides which operation
    fails and how far it got, so a theorem for every schedule also speaks of a
    process that is killed: from some point on, nothing has an effect.

    Symbolic links, permissions other than read-only, and other processes are
    left out: the program holds a lock while it works on a path. *)

From S2P Require Import Prelude Effects RustStd Text.
From stdpp Require Export gmap.

(** ** Paths

    The components of a path; the first may be a prefix of any shape. *)

Notation Path := (list string) (only parsing).

Definition path_join (p : Path) (components : list string) : Path := p ++ components.
Definition path_parent (p : Path) : Path := removelast p.
Definition path_file_name (p : Path) : string := default "" (last p).
Definition with_file_name (p : Path) (name : string) : Path := removelast p ++ [name].
Definition path_display (p : Path) : string := str_join "/" p.

Lemma path_parent_snoc p c : path_parent (p ++ [c]) = p.
Proof. apply removelast_last. Qed.
Lemma path_file_name_snoc p c : path_file_name (p ++ [c]) = c.
Proof. unfold path_file_name. by rewrite last_snoc. Qed.
Lemma with_file_name_snoc p c name : with_file_name (p ++ [c]) name = p ++ [name].
Proof. unfold with_file_name. by rewrite removelast_last. Qed.

(** ** Errors *)

Inductive ErrorKind :=
| KindNotFound | KindAlreadyExists | KindPermissionDenied | KindInvalidInput | KindInvalidData
| KindUnsupported | KindCrossesDevices | KindIsADirectory | KindNotADirectory | KindDirectoryNotEmpty | KindOther.
#[export] Instance ErrorKind_eq_dec : EqDecision ErrorKind.
Proof. solve_decision. Defined.

Record IoError := mk_IoError { io_kind : ErrorKind; io_text : string }.

Definition io_failure (kind : ErrorKind) : IoError := mk_IoError kind "".

(** ** The tree *)

Inductive Node := NodeDir | NodeFile (contents : list byte) (readonly : bool).

Notation Tree := (gmap Path Node) (only parsing).

(** The tree and the number of operations so far. *)
Record Fs := mk_Fs { fs_tree : Tree; fs_clock : nat }.

(** What happens at each operation: a failure, how far it gets (bytes
    delivered, written, directories made), and the next nonce. *)
Class Schedule := {
  fault_at : nat → option IoError;
  count_at : nat → nat;
  nonce_at : nat → string;
}.

Definition is_dir (t : Tree) (p : Path) : bool :=
  match t !! p with Some NodeDir => true | _ => false end.

Section operations.
Context `{Schedule}.

Definition io (T : Type) := stateful Fs T IoError.

(** An operation: [run] when it succeeds or fails of itself, [partial] what a
    fault leaves behind after [count] units of work. *)
Definition operation {T : Type} (run : nat → Tree → result T IoError * Tree)
    (partial : nat → Tree → Tree) : io T := λ fs,
  let now := fs_clock fs in
  match fault_at now with
  | Some e => (Err e, mk_Fs (partial (count_at now) (fs_tree fs)) (S now))
  | None => let '(r, t) := run (count_at now) (fs_tree fs) in (r, mk_Fs t (S now))
  end.

(** An operation that only looks, or changes everything at once. *)
Definition atomic {T : Type} (run : Tree → result T IoError * Tree) : io T :=
  operation (λ _, run) (λ _ t, t).
Definition looking {T : Type} (look : Tree → result T IoError) : io T := atomic (λ t, (look t, t)).

(** [Path::exists]: a failure to look is an absence. *)
Definition path_exists {E : Type} (p : Path) : stateful Fs bool E := λ fs,
  match looking (λ t, Ok (bool_decide (is_Some (t !! p)))) fs with
  | (Ok b, fs) => (Ok b, fs)
  | (Err _, fs) => (Ok false, fs)
  end.

(** [fs::create_dir_all]: the prefixes of the path in order. *)
Fixpoint make_dirs (t : Tree) (l : list Path) : result unit IoError * Tree :=
  match l with
  | [] => (Ok tt, t)
  | p :: l =>
    match t !! p with
    | Some NodeDir => make_dirs t l
    | Some (NodeFile _ _) => (Err (io_failure KindNotADirectory), t)
    | None => make_dirs (<[p := NodeDir]> t) l
    end
  end.
Definition prefixes (p : Path) : list Path := (λ n, take (S n) p) <$> seq 0 (length p).

Definition create_dir_all (p : Path) : io unit :=
  operation (λ _ t, make_dirs t (prefixes p)) (λ n t, (make_dirs t (take n (prefixes p))).2).

(** Opening for writing.  A new file needs a directory to be in. *)
Definition create_in (t : Tree) (p : Path) : result unit IoError * Tree :=
  if is_dir t (path_parent p) then (Ok tt, <[p := NodeFile [] false]> t)
  else (Err (io_failure KindNotFound), t).

(** [read(true).write(true).create(true).truncate(false)] *)
Definition open_or_create (p : Path) : io unit := atomic (λ t,
  match t !! p with
  | Some NodeDir => (Err (io_failure KindIsADirectory), t)
  | Some (NodeFile _ true) => (Err (io_failure KindPermissionDenied), t)
  | Some (NodeFile _ false) => (Ok tt, t)
  | None => create_in t p
  end).

(** [create_new(true)] *)
Definition open_new (p : Path) : io unit := atomic (λ t,
  match t !! p with
  | Some _ => (Err (io_failure KindAlreadyExists), t)
  | None => create_in t p
  end).

(** [file.lock()] and [file.sync_all()]. *)
Definition file_lock : io unit := looking (λ _, Ok tt).
Definition sync_all : io unit := looking (λ _, Ok tt).

(** [write_all] through a handle at the end of the file at [p]. *)
Definition append_to (p : Path) (data : list byte) (t : Tree) : Tree :=
  match t !! p with
  | Some (NodeFile contents readonly) => <[p := NodeFile (contents ++ data) readonly]> t
  | _ => t
  end.
Definition write_all (p : Path) (data : list byte) : io unit :=
  operation (λ _ t, (Ok tt, append_to p data t)) (λ n t, append_to p (take n data) t).

(** [File::open] for reading; a directory opens but cannot be read. *)
Inductive Handle := DirHandle | FileHandle (rest : list byte).

Definition open_read (p : Path) : io Handle := looking (λ t,
  match t !! p with
  | Some NodeDir => Ok DirHandle
  | Some (NodeFile contents _) => Ok (FileHandle contents)
  | None => Err (io_failure KindNotFound)
  end).

(** [read] into a buffer of [capacity] bytes: at least one byte when there is
    one and room for it. *)
Definition read (capacity : nat) (h : Handle) : io (list byte * Handle) := operation (λ n t,
  (match h with
   | DirHandle => Err (io_failure KindIsADirectory)
   | FileHandle rest =>
     let n := Nat.min capacity (Nat.max 1 n) in Ok (take n rest, FileHandle (drop n rest))
   end, t)) (λ _ t, t).

(** A whole file as a stream: what arrives before the end or a failure. *)
Definition read_stream (p : Path) : stateful Fs (list byte * option IoError) IoError :=
  let! h := open_read p in
  λ fs,
    let now := fs_clock fs in
    let fs' := mk_Fs (fs_tree fs) (S now) in
    match h, fault_at now with
    | DirHandle, e => (Ok ([], Some (default (io_failure KindIsADirectory) e)), fs')
    | FileHandle rest, Some e => (Ok (take (count_at now) rest, Some e), fs')
    | FileHandle rest, None => (Ok (rest, None), fs')
    end.

(** [fs::read_to_string] *)
Definition read_to_string (p : Path) : io string := looking (λ t,
  match t !! p with
  | Some NodeDir => Err (io_failure KindIsADirectory)
  | Some (NodeFile contents _) =>
    map_err (λ _, io_failure KindInvalidData) (str_from_utf8 contents)
  | None => Err (io_failure KindNotFound)
  end).

(** [fs::rename]: a file or a whole directory moves, replacing what is there
    when the two are alike. *)
Definition has_children (t : Tree) (p : Path) : bool :=
  existsb (λ k, bool_decide (p `prefix_of` k ∧ k ≠ p)) (map_to_list t).*1.
Definition move_dir (t : Tree) (from to : Path) : Tree :=
  list_to_map ((λ kn : Path * Node,
    if bool_decide (from `prefix_of` kn.1) then (to ++ drop (length from) kn.1, kn.2) else kn)
    <$> map_to_list (delete to t)).

Definition rename_in (t : Tree) (from to : Path) : result unit IoError * Tree :=
  match t !! from with
  | None => (Err (io_failure KindNotFound), t)
  | Some node =>
    if bool_decide (from = to) then (Ok tt, t)
    else if negb (is_dir t (path_parent to)) then (Err (io_failure KindNotFound), t)
    else
      match node, t !! to with
      | NodeFile _ _, Some NodeDir => (Err (io_failure KindIsADirectory), t)
      | NodeDir, Some (NodeFile _ _) => (Err (io_failure KindNotADirectory), t)
      | NodeFile _ _, _ => (Ok tt, <[to := node]> (delete from t))
      | NodeDir, _ =>
        if bool_decide (from `prefix_of` to) then (Err (io_failure KindInvalidInput), t)
        else if has_children t to then (Err (io_failure KindDirectoryNotEmpty), t)
        else (Ok tt, move_dir t from to)
      end
  end.
Definition rename (from to : Path) : io unit := atomic (λ t, rename_in t from to).

(** [fs::remove_file] *)
Definition remove_file (p : Path) : io unit := atomic (λ t,
  match t !! p with
  | None => (Err (io_failure KindNotFound), t)
  | Some NodeDir => (Err (io_failure KindIsADirectory), t)
  | Some (NodeFile _ _) => (Ok tt, delete p t)
  end).

(** [fs::metadata(path)?.permissions()]: whether it is read-only. *)
Definition permissions (p : Path) : io bool := looking (λ t,
  match t !! p with
  | None => Err (io_failure KindNotFound)
  | Some NodeDir => Ok false
  | Some (NodeFile _ readonly) => Ok readonly
  end).

(** [fs::set_permissions] with [readonly] set; a directory keeps no such mark
    in the model. *)
Definition set_readonly (p : Path) : io unit := atomic (λ t,
  match t !! p with
  | None => (Err (io_failure KindNotFound), t)
  | Some NodeDir => (Ok tt, t)
  | Some (NodeFile contents _) => (Ok tt, <[p := NodeFile contents true]> t)
  end).

(** [unique_nonce] reads the clock and the process id. *)
Definition nonce {E : Type} : stateful Fs string E := λ fs,
  (Ok (nonce_at (fs_clock fs)), mk_Fs (fs_tree fs) (S (fs_clock fs))).
End operations.

(** ** What an operation does to the tree

    Triples over the tree alone: the schedule and the clock play no part. *)

Section rules.
Context `{Schedule}.

(** A property of the tree. *)
Definition on (P : Tree → Prop) : Fs → Prop := λ fs, P (fs_tree fs).

Lemma triple_operation {T : Type} (P : Tree → Prop)
    (run : nat → Tree → result T IoError * Tree) (partial : nat → Tree → Tree) (Q : T → Tree → Prop)
    (R : IoError → Tree → Prop) :
  (∀ n t, P t → match run n t with (Ok x, t') => Q x t' | (Err e, t') => R e t' end) →
  (∀ n e t, P t → R e (partial n t)) →
  triple (on P) (operation run partial) (λ x, on (Q x)) (λ e, on (R e)).
Proof.
  intros Hrun Hpart [t now] Ht. unfold operation. cbn [fs_tree fs_clock].
  destruct (fault_at now); [by apply Hpart|].
  specialize (Hrun (count_at now) t Ht). by destruct (run (count_at now) t) as [[]].
Qed.

Lemma triple_atomic {T : Type} (P : Tree → Prop)
    (run : Tree → result T IoError * Tree) (Q : T → Tree → Prop) (R : IoError → Tree → Prop) :
  (∀ t, P t → match run t with (Ok x, t') => Q x t' | (Err e, t') => R e t' end) →
  (∀ e t, P t → R e t) →
  triple (on P) (atomic run) (λ x, on (Q x)) (λ e, on (R e)).
Proof. intros Hrun Hpart. apply triple_operation; [|auto]. intros _ t. apply Hrun. Qed.

Lemma triple_looking {T : Type} (P : Tree → Prop) (look : Tree → result T IoError) :
  triple (on P) (looking look) (λ x, on (λ t, look t = Ok x ∧ P t)) (λ _, on P).
Proof. apply triple_atomic; [|done]. intros t Ht. by destruct (look t). Qed.

Lemma triple_looking' {T : Type} (P : Tree → Prop) (look : Tree → result T IoError) :
  triple (on P) (looking look) (λ _, on P) (λ _, on P).
Proof. eapply triple_weaken; [apply triple_looking|done| |done]. by intros x s [_ ?]. Qed.

Lemma triple_exists {E : Type} (P : Tree → Prop) p (R : E → Fs → Prop) :
  triple (on P) (path_exists p) (λ b, on (λ t, (b = true → is_Some (t !! p)) ∧ P t)) R.
Proof.
  intros fs Hfs. unfold path_exists.
  pose proof (triple_looking P (λ t, Ok (bool_decide (is_Some (t !! p)))) fs Hfs) as Hl.
  destruct (looking _ fs) as [[b|e] fs']; [|by split].
  destruct Hl as [[= <-] Hl]. split; [|done].
  apply bool_decide_eq_true.
Qed.

Lemma triple_nonce {E : Type} (P : Tree → Prop) (R : E → Fs → Prop) :
  triple (on P) nonce (λ _, on P) R.
Proof. by intros fs. Qed.

Lemma triple_read_stream (P : Tree → Prop) p :
  triple (on P) (read_stream p)
    (λ s, on (λ t, P t ∧ ∀ contents, t !! p = Some (NodeFile contents true) ∨
                t !! p = Some (NodeFile contents false) → s.1 `prefix_of` contents))
    (λ _, on P).
Proof.
  unfold read_stream, open_read. eapply triple_bind; [apply triple_looking|].
  intros h [t now] [Hh Ht]. cbn [fs_tree fs_clock] in *.
  destruct (t !! p) as [[|contents readonly]|] eqn:Et; try done; injection Hh as <-; cbn.
  - split; [done|]. intros c _. apply prefix_nil.
  - assert (∀ c n, take n c `prefix_of` (c : list byte)) as Htake.
    { intros c n. exists (drop n c). by rewrite take_drop. }
    destruct (fault_at now); (split; [done|]); intros c' Hc; cbn in Hc |- *;
      rewrite Et in Hc; (assert (contents = c') as -> by (destruct Hc; congruence)); apply Htake || reflexivity.
Qed.
End rules.

(** ** The file at a path *)

Definition file_at (p : Path) (contents : list byte) (t : Tree) : Prop :=
  ∃ readonly, t !! p = Some (NodeFile contents readonly).

Lemma file_at_inj p c c' t : file_at p c t → file_at p c' t → c = c'.
Proof. intros [r H] [r' H']. congruence. Qed.

Lemma file_at_insert_ne o c p n t : p ≠ o → file_at o c t → file_at o c (<[p := n]> t).
Proof. intros Hp [r Hr]. exists r. by rewrite lookup_insert_ne. Qed.

Lemma file_at_delete o c p t : p ≠ o → file_at o c t → file_at o c (delete p t).
Proof. intros Hp [r Hr]. exists r. by rewrite lookup_delete_ne. Qed.

Lemma create_in_file_at o c p t : p ≠ o → file_at o c t → file_at o c (create_in t p).2.
Proof. unfold create_in. destruct (is_dir _ _); [apply file_at_insert_ne|done]. Qed.

Lemma make_dirs_file_at o c l t : file_at o c t → file_at o c (make_dirs t l).2.
Proof.
  revert t. induction l as [|p l IH]; intros t Ht; [done|]. simpl.
  destruct (t !! p) as [[|]|] eqn:Ep; [by apply IH|done|]. apply IH.
  apply file_at_insert_ne; [|done]. intros ->. destruct Ht. congruence.
Qed.

Lemma move_dir_file_at o c from to t :
  ¬ from `prefix_of` o → to ≠ o → has_children t to = false → file_at o c t →
  file_at o c (move_dir t from to).
Proof.
  intros Hfrom Hto Hchildren [r Ho]. exists r. unfold move_dir.
  assert (∀ k, is_Some (t !! k) → to `prefix_of` k → k = to) as Hno.
  { intros k [n Hk] Hpre. apply dec_stable. intros Hne. apply not_true_iff_false in Hchildren.
    apply Hchildren. apply existsb_exists. exists k. split.
    - apply list_elem_of_In, list_elem_of_fmap. exists (k, n). split; [done|].
      by apply elem_of_map_to_list.
    - by apply bool_decide_eq_true. }
  apply elem_of_list_to_map_1'.
  - intros n (kn & Hkn & Hin)%list_elem_of_fmap. destruct kn as [k n'].
    apply elem_of_map_to_list in Hin. apply lookup_delete_Some in Hin as [Hk Hin]. simpl in Hkn.
    case_bool_decide as Hpre; injection Hkn as Heq ->.
    + exfalso. assert (to `prefix_of` o) as Hpo by (rewrite Heq; by eexists).
      symmetry in Heq. apply Hto. symmetry. apply Hno; [by eexists|done].
    + congruence.
  - apply list_elem_of_fmap. exists (o, NodeFile c r). simpl. rewrite bool_decide_eq_false_2 by done.
    split; [done|]. apply elem_of_map_to_list, lookup_delete_Some. done.
Qed.

Lemma rename_in_file_at o c from to t :
  ¬ from `prefix_of` o → to ≠ o → file_at o c t → file_at o c (rename_in t from to).2.
Proof.
  intros Hfrom Hto Ho. unfold rename_in. assert (from ≠ o) as Hne by (by intros ->; apply Hfrom).
  destruct (t !! from) as [node|]; [|exact Ho]. case_bool_decide; [exact Ho|].
  destruct (is_dir _ _); [cbn [negb]|exact Ho]. destruct node as [|c' r].
  - destruct (t !! to) as [[|]|]; [|exact Ho|]; (case_bool_decide; [exact Ho|]);
      (destruct (has_children t to) eqn:E; [exact Ho|by apply move_dir_file_at]).
  - destruct (t !! to) as [[|]|]; [exact Ho|..]; by apply file_at_insert_ne, file_at_delete.
Qed.

(** Renaming a file. *)
Lemma rename_in_file c from to t t' :
  file_at from c t → from ≠ to → rename_in t from to = (Ok tt, t') →
  file_at to c t' ∧ t' !! from = None.
Proof.
  intros [r Hr] Hne. unfold rename_in. rewrite Hr, bool_decide_eq_false_2 by done.
  destruct (is_dir _ _); [|done]. cbn [negb].
  destruct (t !! to) as [[|]|]; intros [= <-]; (split;
    [exists r; by rewrite lookup_insert_eq
    |by rewrite lookup_insert_ne, lookup_delete_eq by done]).
Qed.

Lemma rename_in_error t from to e t' : rename_in t from to = (Err e, t') → t' = t.
Proof.
  unfold rename_in. repeat (case_match || case_bool_decide); simpl; congruence.
Qed.

(** ** Frames: operations that keep the file at [o] *)

Section frames.
Context `{Schedule} (o : Path) (c : list byte).

Definition keeps {T E : Type} (m : stateful Fs T E) : Prop :=
  triple (on (file_at o c)) m (λ _, on (file_at o c)) (λ _, on (file_at o c)).

Lemma keeps_ret {T E : Type} (x : T) : keeps (st_ret (E:=E) x).
Proof. by intros fs. Qed.
Lemma keeps_err {T E : Type} (e : E) : keeps (st_err (T:=T) e).
Proof. by intros fs. Qed.
Lemma keeps_lift {T E : Type} (r : result T E) : keeps (st_lift r).
Proof. intros fs. by destruct r. Qed.
Lemma keeps_bind {T U E : Type} (m : stateful Fs T E) (k : T → stateful Fs U E) :
  keeps m → (∀ x, keeps (k x)) → keeps (st_bind m k).
Proof. intros Hm Hk. by eapply triple_bind. Qed.
Lemma keeps_map_err {T E F : Type} (f : E → F) (m : stateful Fs T E) : keeps m → keeps (st_map_err f m).
Proof. intros Hm. by apply triple_map_err. Qed.
Lemma keeps_ignore {T E F : Type} (m : stateful Fs T E) : keeps m → keeps (st_ignore (F:=F) m).
Proof. intros Hm. by apply triple_ignore. Qed.
Lemma keeps_outcome {T E F : Type} (m : stateful Fs T E) : keeps m → keeps (st_outcome (F:=F) m).
Proof. intros Hm. by apply triple_outcome. Qed.
Lemma keeps_try_fold {A B E : Type} (f : B → A → stateful Fs B E) acc l :
  (∀ b a, keeps (f b a)) → keeps (st_try_fold f acc l).
Proof.
  intros Hf. revert acc. induction l as [|a l IH]; intros acc; simpl; [apply keeps_ret|].
  by apply keeps_bind.
Qed.

Lemma keeps_looking {T : Type} (look : Tree → result T IoError) : keeps (looking look).
Proof. apply triple_looking'. Qed.
Lemma keeps_exists {E : Type} p : keeps (path_exists (E:=E) p).
Proof.
  eapply triple_weaken; [apply (triple_exists (file_at o c) p (λ _, on (file_at o c)))|done| |done].
  by intros x s [_ ?].
Qed.
Lemma keeps_nonce {E : Type} : keeps (nonce (E:=E)).
Proof. apply triple_nonce. Qed.

(** An operation, from what it does to the tree. *)
Lemma keeps_operation {T : Type} (run : nat → Tree → result T IoError * Tree)
    (partial : nat → Tree → Tree) :
  (∀ n t, file_at o c t → file_at o c (run n t).2) →
  (∀ n t, file_at o c t → file_at o c (partial n t)) → keeps (operation (T:=T) run partial).
Proof.
  intros Hrun Hpart. apply triple_operation; [|auto]. intros n t Ht. specialize (Hrun n t Ht).
  by destruct (run n t) as [[]].
Qed.
Lemma keeps_atomic {T : Type} (run : Tree → result T IoError * Tree) :
  (∀ t, file_at o c t → file_at o c (run t).2) → keeps (atomic (T:=T) run).
Proof. intros Hrun. apply keeps_operation; auto. Qed.

Lemma keeps_create_dir_all p : keeps (create_dir_all p).
Proof. apply keeps_operation; intros; by apply make_dirs_file_at. Qed.
Lemma keeps_open_new p : keeps (open_new p).
Proof.
  apply keeps_atomic. intros t Ht. destruct (t !! p) eqn:E; [done|]. apply create_in_file_at; [|done].
  intros ->. destruct Ht. congruence.
Qed.
Lemma keeps_open_or_create p : keeps (open_or_create p).
Proof.
  apply keeps_atomic. intros t Ht. destruct (t !! p) as [[|? []]|] eqn:E; try done.
  apply create_in_file_at; [|done]. intros ->. destruct Ht. congruence.
Qed.
Lemma keeps_write_all p data : p ≠ o → keeps (write_all p data).
Proof.
  intros Hp. apply keeps_operation; intros n t Ht; simpl; unfold append_to;
    destruct (t !! p) as [[]|]; try done; by apply file_at_insert_ne.
Qed.
Lemma keeps_open_read p : keeps (open_read p).
Proof. apply keeps_looking. Qed.
Lemma keeps_read capacity h : keeps (read capacity h).
Proof. by apply keeps_operation. Qed.
Lemma keeps_read_stream p : keeps (read_stream p).
Proof.
  eapply triple_weaken; [apply triple_read_stream|done| |done]. by intros x s [? _].
Qed.
Lemma keeps_read_to_string p : keeps (read_to_string p).
Proof. apply keeps_looking. Qed.
Lemma keeps_rename from to : ¬ from `prefix_of` o → to ≠ o → keeps (rename from to).
Proof. intros. apply keeps_atomic. intros t. by apply rename_in_file_at. Qed.
Lemma keeps_remove_file p : p ≠ o → keeps (remove_file p).
Proof.
  intros Hp. apply keeps_atomic. intros t Ht. destruct (t !! p) as [[]|]; try done.
  by apply file_at_delete.
Qed.
Lemma keeps_permissions p : keeps (permissions p).
Proof. apply keeps_looking. Qed.
Lemma keeps_set_readonly p : keeps (set_readonly p).
Proof.
  apply keeps_atomic. intros t Ht. destruct (t !! p) as [[|c' r]|] eqn:E; try done.
  destruct (decide (p = o)) as [->|]; [|by apply file_at_insert_ne].
  destruct Ht as [r' Hr']. assert (c' = c) as -> by congruence. exists true. simpl.
  by rewrite lookup_insert_eq.
Qed.
End frames.

#[export] Hint Resolve keeps_ret keeps_err keeps_lift keeps_looking keeps_exists keeps_nonce
  keeps_create_dir_all keeps_open_new keeps_open_or_create keeps_write_all keeps_open_read keeps_read
  keeps_read_stream keeps_read_to_string keeps_rename keeps_remove_file keeps_permissions
  keeps_set_readonly : keeps.

(** Follows the structure of a computation; what is left are facts on paths. *)
Ltac keep :=
  repeat (intros; cbv zeta; first
    [ solve [eauto with keeps]
    | apply keeps_bind | apply keeps_map_err | apply keeps_ignore | apply keeps_outcome
    | apply keeps_try_fold
    | match goal with |- keeps _ _ (match ?x with _ => _ end) => destruct x end
    | match goal with |- keeps _ _ (if ?x then _ else _) => destruct x end
    | match goal with |- keeps _ _ (let '(_, _) := ?x in _) => destruct x end ]).

Section rename.
Context `{Schedule}.

Lemma triple_rename (P : Tree → Prop) from to :
  triple (on P) (rename from to)
    (λ _, on (λ t', ∃ t, P t ∧ rename_in t from to = (Ok tt, t'))) (λ _, on P).
Proof.
  apply triple_atomic; [|done]. intros t Ht. destruct (rename_in t from to) as [[[]|e] t'] eqn:E.
  - eauto.
  - by apply rename_in_error in E as ->.
Qed.
End rename.
