(* ===== verification/Directories.v ===== *)
(** * Directories, whole files and copies ([std::fs])

    The rest of the file system interface, used by the repository's
    materialisation: kinds of entries, listings, removal of a tree, and the two
    ways to copy a file. *)

From S2P Require Import Prelude Effects RustStd Collections Text FileSystem.

Section operations.
Context `{Schedule}.

Notation Tree := (gmap Path Node).

(** ** Looking *)

Inductive FileType := TypeDir | TypeFile.
Definition node_type (n : Node) : FileType :=
  match n with NodeDir => TypeDir | NodeFile _ _ => TypeFile end.

(** [fs::symlink_metadata(path)?.file_type()]; without links it is
    [fs::metadata] as well. *)
Definition symlink_metadata (p : Path) : io FileType := looking (λ t,
  match t !! p with Some n => Ok (node_type n) | None => Err (io_failure KindNotFound) end).

(** [symlink_metadata(path).is_ok()] *)
Definition entry_exists {E : Type} (p : Path) : stateful Fs bool E :=
  let! outcome := st_outcome (symlink_metadata p) in
  st_ret (is_ok (outcome : result FileType IoError)).
Definition is_directory {E : Type} (p : Path) : stateful Fs bool E :=
  let! outcome := st_outcome (symlink_metadata p) in
  st_ret (match outcome : result FileType IoError with Ok TypeDir => true | _ => false end).
Definition is_regular_file {E : Type} (p : Path) : stateful Fs bool E :=
  let! outcome := st_outcome (symlink_metadata p) in
  st_ret (match outcome : result FileType IoError with Ok TypeFile => true | _ => false end).

(** [fs::metadata(path)?.len()]; that of a directory is not used. *)
Definition file_len (p : Path) : io N := looking (λ t,
  match t !! p with
  | Some (NodeFile contents _) => Ok (len_u64 contents)
  | Some NodeDir => Ok 0%N
  | None => Err (io_failure KindNotFound)
  end).

(** [fs::read] *)
Definition read_file (p : Path) : io (list byte) := looking (λ t,
  match t !! p with
  | Some (NodeFile contents _) => Ok contents
  | Some NodeDir => Err (io_failure KindIsADirectory)
  | None => Err (io_failure KindNotFound)
  end).

(** The names in a directory, in some order. *)
Definition child_name (p k : Path) : option string :=
  match last k with
  | Some name => if bool_decide (k = p ++ [name]) then Some name else None
  | None => None
  end.
Definition children (t : Tree) (p : Path) : list string := omap (child_name p) (map_to_list t).*1.

(** [fs::read_dir], and the iteration over its entries: the names, or the
    failure the iteration ends with. *)
Definition read_dir (p : Path) : io unit := looking (λ t,
  match t !! p with
  | Some NodeDir => Ok tt
  | Some (NodeFile _ _) => Err (io_failure KindNotADirectory)
  | None => Err (io_failure KindNotFound)
  end).
Definition dir_entries (p : Path) : io (list string) := looking (λ t, Ok (children t p)).

(** ** Changing *)

(** [create(true).truncate(true)] *)
Definition open_truncate (p : Path) : io unit := atomic (λ t,
  match t !! p with
  | Some NodeDir => (Err (io_failure KindIsADirectory), t)
  | Some (NodeFile _ true) => (Err (io_failure KindPermissionDenied), t)
  | Some (NodeFile _ false) => (Ok tt, <[p := NodeFile [] false]> t)
  | None => create_in t p
  end).

(** [fs::write] *)
Definition write_file (p : Path) (data : list byte) : io unit :=
  let! _ := open_truncate p in write_all p data.

(** [fs::remove_dir_all]: the deeper entries first; a fault leaves some. *)
Definition entries_under (t : Tree) (p : Path) : list Path :=
  sort_by (cmp_rev (cmp_on length Nat.compare))
    (List.filter (λ k, bool_decide (p `prefix_of` k)) (map_to_list t).*1).
Definition remove_entries (t : Tree) (l : list Path) : Tree := foldr delete t l.
Definition remove_dir_all (p : Path) : io unit :=
  operation (λ _ t,
    match t !! p with
    | Some NodeDir => (Ok tt, remove_entries t (entries_under t p))
    | Some (NodeFile _ _) => (Err (io_failure KindNotADirectory), t)
    | None => (Err (io_failure KindNotFound), t)
    end) (λ n t, remove_entries t (take n (entries_under t p))).

(** [set_permissions] with the write bit set. *)
Definition set_writable (p : Path) : io unit := atomic (λ t,
  match t !! p with
  | None => (Err (io_failure KindNotFound), t)
  | Some NodeDir => (Ok tt, t)
  | Some (NodeFile contents _) => (Ok tt, <[p := NodeFile contents false]> t)
  end).

(** [io::copy] from an open file to the end of the file at [p]; a fault leaves a
    part. *)
Definition copy_to (p : Path) (h : Handle) : io unit :=
  operation (λ _ t,
    match h with
    | DirHandle => (Err (io_failure KindIsADirectory), t)
    | FileHandle rest => (Ok tt, append_to p rest t)
    end)
    (λ n t, match h with DirHandle => t | FileHandle rest => append_to p (take n rest) t end).

(** [ioctl(FICLONE)]: the whole file at [p] becomes that of the handle, or
    nothing happens.  A file system without it is a schedule that fails it. *)
Definition clone_to (p : Path) (h : Handle) : io unit := atomic (λ t,
  match h, t !! p with
  | FileHandle contents, Some (NodeFile _ readonly) => (Ok tt, <[p := NodeFile contents readonly]> t)
  | _, _ => (Err (io_failure KindInvalidInput), t)
  end).
End operations.

(** ** Footprints

    [leaves P m]: whatever happens, [m] changes no entry of [P]. *)

Section footprints.
Context `{Schedule} (P : Path → Prop).

Notation Tree := (gmap Path Node).

Definition untouched (t t' : Tree) : Prop := ∀ o, P o → t' !! o = t !! o.

#[export] Instance untouched_preorder : PreOrder untouched.
Proof.
  split; [done|]. intros t1 t2 t3 H12 H23 o Ho. by rewrite (H23 o Ho), (H12 o Ho).
Qed.

Lemma untouched_insert p n t : ¬ P p → untouched t (<[p := n]> t).
Proof. intros Hp o Ho. apply lookup_insert_ne. by intros ->. Qed.
Lemma untouched_delete p t : ¬ P p → untouched t (delete p t).
Proof. intros Hp o Ho. apply lookup_delete_ne. by intros ->. Qed.

Definition leaves {T E : Type} (m : stateful Fs T E) : Prop :=
  ∀ fs, untouched (fs_tree fs) (fs_tree (m fs).2).

Lemma leaves_ret {T E : Type} (x : T) : leaves (st_ret (E:=E) x).
Proof. by intros fs. Qed.
Lemma leaves_err {T E : Type} (e : E) : leaves (st_err (T:=T) e).
Proof. by intros fs. Qed.
Lemma leaves_lift {T E : Type} (r : result T E) : leaves (st_lift r).
Proof. by intros fs. Qed.
Lemma leaves_bind {T U E : Type} (m : stateful Fs T E) (k : T → stateful Fs U E) :
  leaves m → (∀ x, leaves (k x)) → leaves (st_bind m k).
Proof.
  intros Hm Hk fs. specialize (Hm fs). unfold st_bind. destruct (m fs) as [[x|e] fs']; [|done].
  etrans; [exact Hm|apply Hk].
Qed.
Lemma leaves_map_err {T E F : Type} (f : E → F) (m : stateful Fs T E) : leaves m → leaves (st_map_err f m).
Proof. intros Hm fs. specialize (Hm fs). unfold st_map_err. by destruct (m fs). Qed.
Lemma leaves_ignore {T E F : Type} (m : stateful Fs T E) : leaves m → leaves (st_ignore (F:=F) m).
Proof. intros Hm fs. specialize (Hm fs). unfold st_ignore. by destruct (m fs). Qed.
Lemma leaves_outcome {T E F : Type} (m : stateful Fs T E) : leaves m → leaves (st_outcome (F:=F) m).
Proof. intros Hm fs. specialize (Hm fs). unfold st_outcome. by destruct (m fs). Qed.
Lemma leaves_try_fold {A B E : Type} (f : B → A → stateful Fs B E) acc l :
  (∀ b a, leaves (f b a)) → leaves (st_try_fold f acc l).
Proof.
  intros Hf. revert acc. induction l as [|a l IH]; intros acc; simpl; [apply leaves_ret|].
  by apply leaves_bind.
Qed.
Lemma leaves_try_map {A B E : Type} (f : A → stateful Fs B E) l :
  (∀ a, a ∈ l → leaves (f a)) → leaves (st_try_map f l).
Proof.
  intros Hf. induction l as [|a l IH]; simpl; [apply leaves_ret|].
  apply leaves_bind; [apply Hf; left|]. intros y. apply leaves_bind; [|intros; apply leaves_ret].
  apply IH. intros b Hb. apply Hf. by right.
Qed.

(** An operation, from what it does to the tree. *)
Lemma leaves_operation {T : Type} (run : nat → Tree → result T IoError * Tree)
    (partial : nat → Tree → Tree) :
  (∀ n t, untouched t (run n t).2) → (∀ n t, untouched t (partial n t)) →
  leaves (operation run partial).
Proof.
  intros Hrun Hpart [t now]. unfold operation. cbn [fs_tree fs_clock].
  destruct (fault_at now); [apply Hpart|]. specialize (Hrun (count_at now) t).
  by destruct (run (count_at now) t).
Qed.
Lemma leaves_atomic {T : Type} (run : Tree → result T IoError * Tree) :
  (∀ t, untouched t (run t).2) → leaves (atomic run).
Proof. intros Hrun. apply leaves_operation; [auto|done]. Qed.
Lemma leaves_looking {T : Type} (look : Tree → result T IoError) : leaves (looking look).
Proof. by apply leaves_atomic. Qed.

Lemma leaves_exists {E : Type} p : leaves (path_exists (E:=E) p).
Proof.
  intros fs. pose proof (leaves_looking (λ t, Ok (bool_decide (is_Some (t !! p)))) fs) as Hl.
  unfold path_exists. by destruct (looking _ fs) as [[]].
Qed.
Lemma leaves_nonce {E : Type} : leaves (nonce (E:=E)).
Proof. by intros fs. Qed.
Lemma leaves_read capacity h : leaves (read capacity h).
Proof. by apply leaves_operation. Qed.

Lemma make_dirs_untouched l t : Forall (λ p, ¬ P p) l → untouched t (make_dirs t l).2.
Proof.
  revert t. induction l as [|p l IH]; intros t; [done|]. intros [Hp Hl]%Forall_cons. simpl.
  destruct (t !! p) as [[|]|]; [by apply IH|done|]. etrans; [by apply untouched_insert|by apply IH].
Qed.
Lemma leaves_create_dir_all p : Forall (λ q, ¬ P q) (prefixes p) → leaves (create_dir_all p).
Proof.
  intros Hp. apply leaves_operation; intros n t; apply make_dirs_untouched; [done|].
  by apply Forall_take.
Qed.

Lemma create_in_untouched p t : ¬ P p → untouched t (create_in t p).2.
Proof. intros Hp. unfold create_in. destruct (is_dir _ _); [by apply untouched_insert|done]. Qed.
Lemma leaves_open_new p : ¬ P p → leaves (open_new p).
Proof.
  intros Hp. apply leaves_atomic. intros t. destruct (t !! p); [done|by apply create_in_untouched].
Qed.
Lemma leaves_open_or_create p : ¬ P p → leaves (open_or_create p).
Proof.
  intros Hp. apply leaves_atomic. intros t.
  destruct (t !! p) as [[|? []]|]; [done..|by apply create_in_untouched].
Qed.
Lemma leaves_open_truncate p : ¬ P p → leaves (open_truncate p).
Proof.
  intros Hp. apply leaves_atomic. intros t.
  destruct (t !! p) as [[|? []]|]; [done|done|by apply untouched_insert|by apply create_in_untouched].
Qed.
Lemma append_to_untouched p data t : ¬ P p → untouched t (append_to p data t).
Proof. intros Hp. unfold append_to. destruct (t !! p) as [[]|]; [done|by apply untouched_insert|done]. Qed.
Lemma leaves_write_all p data : ¬ P p → leaves (write_all p data).
Proof. intros Hp. apply leaves_operation; intros n t; by apply append_to_untouched. Qed.
Lemma leaves_write_file p data : ¬ P p → leaves (write_file p data).
Proof.
  intros Hp. apply leaves_bind; [by apply leaves_open_truncate|intros ?; by apply leaves_write_all].
Qed.
Lemma leaves_copy_to p h : ¬ P p → leaves (copy_to p h).
Proof. intros Hp. by apply leaves_operation; intros n t; (destruct h; [|apply append_to_untouched]). Qed.
Lemma leaves_clone_to p h : ¬ P p → leaves (clone_to p h).
Proof.
  intros Hp. apply leaves_atomic. intros t. destruct h, (t !! p) as [[]|]; try done.
  by apply untouched_insert.
Qed.
Lemma leaves_remove_file p : ¬ P p → leaves (remove_file p).
Proof.
  intros Hp. apply leaves_atomic. intros t. destruct (t !! p) as [[]|]; [done|by apply untouched_delete|done].
Qed.
Lemma leaves_set_readonly p : ¬ P p → leaves (set_readonly p).
Proof.
  intros Hp. apply leaves_atomic. intros t. destruct (t !! p) as [[]|]; [done|by apply untouched_insert|done].
Qed.
Lemma leaves_set_writable p : ¬ P p → leaves (set_writable p).
Proof.
  intros Hp. apply leaves_atomic. intros t. destruct (t !! p) as [[]|]; [done|by apply untouched_insert|done].
Qed.

Lemma remove_entries_untouched l t : Forall (λ p, ¬ P p) l → untouched t (remove_entries t l).
Proof.
  induction 1 as [|p l Hp Hl IH]; [done|]. cbn [remove_entries foldr]. etrans; [exact IH|].
  by apply untouched_delete.
Qed.
Lemma entries_under_not t p : (∀ o, P o → ¬ p `prefix_of` o) → Forall (λ k, ¬ P k) (entries_under t p).
Proof.
  intros Hp. apply Forall_forall. intros k. unfold entries_under. rewrite elem_of_sort_by.
  intros [_ Hk%bool_decide_eq_true]%elem_of_filter_bool HP. by apply (Hp k).
Qed.
Lemma leaves_remove_dir_all p : (∀ o, P o → ¬ p `prefix_of` o) → leaves (remove_dir_all p).
Proof.
  intros Hp. apply leaves_operation; intros n t.
  - destruct (t !! p) as [[]|]; [|done..]. by apply remove_entries_untouched, entries_under_not.
  - by apply remove_entries_untouched, Forall_take, entries_under_not.
Qed.
End footprints.

(** ** Moving a directory *)

Section moves.
Notation Tree := (gmap Path Node).

(** Where an entry goes. *)
Definition moved (from to k : Path) : Path :=
  if bool_decide (from `prefix_of` k) then to ++ drop (length from) k else k.

Lemma moved_under from to r : moved from to (from ++ r) = to ++ r.
Proof.
  unfold moved. rewrite bool_decide_eq_true_2 by by eexists. by rewrite drop_app_length.
Qed.

Lemma move_dir_list t from to :
  move_dir t from to = list_to_map (prod_map (moved from to) id <$> map_to_list (delete to t)).
Proof.
  unfold move_dir. f_equal. apply list_fmap_ext. intros _ [k n] _. unfold moved. cbn.
  by case_bool_decide.
Qed.

(** Nothing is below [to], so no two entries go to one place. *)
Lemma no_children t to k :
  has_children t to = false → is_Some (t !! k) → to `prefix_of` k → k = to.
Proof.
  intros Hc [n Hk] Hpre. apply dec_stable. intros Hne. apply not_true_iff_false in Hc.
  apply Hc, existsb_exists. exists k. split; [|by apply bool_decide_eq_true].
  apply list_elem_of_In, list_elem_of_fmap. exists (k, n). split; [done|].
  by apply elem_of_map_to_list.
Qed.

Lemma moved_inj t from to k k' :
  has_children t to = false → is_Some (delete to t !! k) → is_Some (delete to t !! k') →
  moved from to k = moved from to k' → k = k'.
Proof.
  intros Hc [n [Hk Hn]%lookup_delete_Some] [n' [Hk' Hn']%lookup_delete_Some]. unfold moved.
  case_bool_decide as Hp; case_bool_decide as Hp'; try done.
  - destruct Hp as [r ->], Hp' as [r' ->]. rewrite !drop_app_length. by intros ->%app_inv_head.
  - destruct Hp as [r ->]. rewrite drop_app_length. intros <-. exfalso. apply Hk'. symmetry.
    apply (no_children t); [done|by eexists|by eexists].
  - destruct Hp' as [r' ->]. rewrite drop_app_length. intros ->. exfalso. apply Hk. symmetry.
    apply (no_children t); [done|by eexists|by eexists].
Qed.

Lemma move_dir_lookup t from to o n :
  has_children t to = false →
  move_dir t from to !! o = Some n ↔
    ∃ k, k ≠ to ∧ t !! k = Some n ∧ moved from to k = o.
Proof.
  intros Hc. rewrite move_dir_list, <-elem_of_list_to_map.
  - rewrite list_elem_of_fmap. split.
    + intros ([k n'] & [= -> ->] & Hk%elem_of_map_to_list). apply lookup_delete_Some in Hk as [? ?].
      by exists k.
    + intros (k & Hne & Hk & <-). exists (k, n). split; [done|].
      apply elem_of_map_to_list, lookup_delete_Some. by split.
  - rewrite <-list_fmap_compose. change (fst ∘ prod_map (moved from to) id)
      with (moved from to ∘ (fst : Path * Node → Path)). rewrite list_fmap_compose.
    apply NoDup_fmap_2_strong; [|apply NoDup_fst_map_to_list].
    intros k k' Hk Hk'. apply (moved_inj t); [done|..].
    + apply list_elem_of_fmap in Hk as ([? n'] & -> & Hin%elem_of_map_to_list). by exists n'.
    + apply list_elem_of_fmap in Hk' as ([? n'] & -> & Hin%elem_of_map_to_list). by exists n'.
Qed.

Lemma move_dir_untouched (P : Path → Prop) t from to :
  has_children t to = false → (∀ o, P o → ¬ from `prefix_of` o ∧ ¬ to `prefix_of` o) →
  untouched P t (move_dir t from to).
Proof.
  intros Hc HP o Ho. destruct (HP o Ho) as [Hf Ht]. apply option_eq. intros n.
  rewrite move_dir_lookup by done. split.
  - intros (k & Hne & Hk & E). unfold moved in E. case_bool_decide; subst o; [|done].
    exfalso. apply Ht. by eexists.
  - intros Hn. exists o. split; [by intros ->; apply Ht|]. split; [done|].
    unfold moved. by rewrite bool_decide_eq_false_2.
Qed.

Lemma rename_in_untouched (P : Path → Prop) t from to :
  (∀ o, P o → ¬ from `prefix_of` o ∧ ¬ to `prefix_of` o) → untouched P t (rename_in t from to).2.
Proof.
  intros HP. unfold rename_in. destruct (t !! from) as [node|]; [|done].
  case_bool_decide; [done|]. destruct (is_dir _ _); [cbn [negb]|done].
  assert (¬ P from ∧ ¬ P to) as [Hf Ht].
  { split; intros Ho; destruct (HP _ Ho) as [H1 H2]; [by apply H1|by apply H2]. }
  destruct node as [|c r].
  - destruct (t !! to) as [[|]|]; [|done|]; (case_bool_decide; [done|]);
      (destruct (has_children t to) eqn:E; [done|by apply move_dir_untouched]).
  - destruct (t !! to) as [[|]|]; [done|..];
      (transitivity (delete from t); [by apply untouched_delete|by apply untouched_insert]).
Qed.

Lemma leaves_rename `{Schedule} (P : Path → Prop) from to :
  (∀ o, P o → ¬ from `prefix_of` o ∧ ¬ to `prefix_of` o) → leaves P (rename from to).
Proof. intros HP. apply leaves_atomic. intros t. by apply rename_in_untouched. Qed.

(** A directory that has moved has its entries. *)
Lemma rename_in_dir t from to t' :
  t !! from = Some NodeDir → from ≠ to → rename_in t from to = (Ok tt, t') →
  ∀ r, r ≠ [] → t' !! (to ++ r) = t !! (from ++ r).
Proof.
  intros Hd Hne. unfold rename_in. rewrite Hd, bool_decide_eq_false_2 by done.
  destruct (is_dir _ _); [cbn [negb]|done].
  intros E r Hr. assert (has_children t to = false ∧ ¬ from `prefix_of` to ∧ t' = move_dir t from to)
    as (Hc & Hpre & ->).
  { destruct (t !! to) as [[|]|]; [|done|]; (case_bool_decide; [done|]);
      (destruct (has_children t to); [done|by injection E as <-]). }
  apply option_eq. intros n. rewrite move_dir_lookup by done. split.
  - intros (k & Hk & Hn & Em). unfold moved in Em. case_bool_decide as Hp.
    + destruct Hp as [r' ->]. rewrite drop_app_length in Em. by apply app_inv_head in Em as ->.
    + subst k. exfalso. apply Hk, (no_children t); [done|by eexists|by eexists].
  - intros Hn. exists (from ++ r). split; [|by rewrite moved_under].
    intros E'. apply Hpre. rewrite <-E'. by eexists.
Qed.
End moves.

#[export] Hint Resolve leaves_ret leaves_err leaves_lift leaves_looking leaves_exists leaves_nonce
  leaves_read : leaves.

(** Follows the structure of a computation; what is left are facts on paths. *)
Ltac leave :=
  repeat (intros; cbv zeta; first
    [ solve [eauto with leaves]
    | apply leaves_bind | apply leaves_map_err | apply leaves_ignore | apply leaves_outcome
    | apply leaves_try_fold
    | match goal with |- leaves _ (match ?x with _ => _ end) => destruct x end
    | match goal with |- leaves _ (if ?x then _ else _) => destruct x end
    | match goal with |- leaves _ (let '(_, _) := ?x in _) => destruct x end ]).

#[export] Hint Resolve leaves_open_new leaves_open_or_create leaves_open_truncate leaves_write_all
  leaves_write_file leaves_copy_to leaves_clone_to leaves_remove_file leaves_set_readonly
  leaves_set_writable leaves_remove_dir_all leaves_rename leaves_create_dir_all : leaves.

(** ** Observations

    [sees t m φ]: on the tree [t], [m] changes nothing, and what it returns is
    in [φ]. *)

Section observations.
Context `{Schedule} (t : gmap Path Node).

Definition sees {T E : Type} (m : stateful Fs T E) (φ : T → Prop) : Prop :=
  ∀ fs, fs_tree fs = t → fs_tree (m fs).2 = t ∧ ∀ x, (m fs).1 = Ok x → φ x.

Lemma sees_weaken {T E : Type} (m : stateful Fs T E) (φ ψ : T → Prop) :
  sees m φ → (∀ x, φ x → ψ x) → sees m ψ.
Proof. intros Hm Hφ fs Hfs. destruct (Hm fs Hfs) as [? Hx]. eauto. Qed.
Lemma sees_true {T E : Type} (m : stateful Fs T E) (φ : T → Prop) : sees m φ → sees m (λ _, True).
Proof. intros Hm. by eapply sees_weaken. Qed.
Lemma sees_ext {T E : Type} (m m' : stateful Fs T E) (φ : T → Prop) :
  (∀ fs, m fs = m' fs) → sees m' φ → sees m φ.
Proof. intros Hm H' fs. rewrite Hm. apply H'. Qed.
Lemma sees_ret {T E : Type} (x : T) (φ : T → Prop) : φ x → sees (st_ret (E:=E) x) φ.
Proof. intros Hx fs Hfs. split; [done|]. by intros y [= <-]. Qed.
Lemma sees_err {T E : Type} (e : E) (φ : T → Prop) : sees (st_err e) φ.
Proof. intros fs Hfs. by split. Qed.
Lemma sees_lift {T E : Type} (r : result T E) (φ : T → Prop) :
  (∀ x, r = Ok x → φ x) → sees (st_lift r) φ.
Proof. intros Hr fs Hfs. by split. Qed.
Lemma sees_bind {T U E : Type} (m : stateful Fs T E) (k : T → stateful Fs U E) (φ : T → Prop)
    (ψ : U → Prop) :
  sees m φ → (∀ x, φ x → sees (k x) ψ) → sees (st_bind m k) ψ.
Proof.
  intros Hm Hk fs Hfs. destruct (Hm fs Hfs) as [Ht Hx]. unfold st_bind.
  destruct (m fs) as [[x|e] fs']; [|by split]. by apply Hk; [apply Hx|].
Qed.
Lemma sees_map_err {T E F : Type} (f : E → F) (m : stateful Fs T E) (φ : T → Prop) :
  sees m φ → sees (st_map_err f m) φ.
Proof.
  intros Hm fs Hfs. destruct (Hm fs Hfs) as [Ht Hx]. unfold st_map_err.
  destruct (m fs) as [r fs']. split; [done|]. intros y Hy. apply Hx. cbn in *. destruct r; [by injection Hy as ->|done].
Qed.
Lemma sees_outcome {T E F : Type} (m : stateful Fs T E) (φ : T → Prop) :
  sees m φ → sees (st_outcome (F:=F) m) (λ r, ∀ x, r = Ok x → φ x).
Proof.
  intros Hm fs Hfs. destruct (Hm fs Hfs) as [Ht Hx]. unfold st_outcome.
  destruct (m fs) as [r fs']. split; [done|]. by intros ? [= <-].
Qed.
Lemma sees_try_fold {A B E : Type} (f : B → A → stateful Fs B E) (φ : A → Prop) acc l :
  (∀ b a, a ∈ l → sees (f b a) (λ _, φ a)) → sees (st_try_fold f acc l) (λ _, Forall φ l).
Proof.
  revert acc. induction l as [|a l IH]; intros acc Hf; simpl; [by apply sees_ret|].
  eapply sees_bind; [apply Hf; left|]. intros b Ha. eapply sees_weaken.
  - apply IH. intros b' a' Ha'. apply Hf. by right.
  - intros x Hl. by constructor.
Qed.
Lemma sees_looking {T : Type} (look : gmap Path Node → result T IoError) :
  sees (looking look) (λ x, look t = Ok x).
Proof.
  intros [t' now] Hfs. cbn in Hfs. subst t'. unfold looking, atomic, operation. cbn [fs_tree fs_clock].
  destruct (fault_at now); [by split|]. split; [done|]. by intros x [= <-].
Qed.
Lemma sees_exists {E : Type} p : sees (path_exists (E:=E) p) (λ b, b = true → is_Some (t !! p)).
Proof.
  intros fs Hfs. unfold path_exists.
  destruct (sees_looking (λ t, Ok (bool_decide (is_Some (t !! p)))) fs Hfs) as [Ht Hx].
  destruct (looking _ fs) as [[b|e] fs']; (split; [done|]); [|by intros ? [= <-]].
  intros x [= <-]. specialize (Hx b eq_refl). injection Hx as <-. apply bool_decide_eq_true.
Qed.
Lemma sees_read capacity h :
  0 < capacity →
  sees (read capacity h)
    (λ r, ∃ rest n, h = FileHandle rest ∧ 0 < n ∧ r = (take n rest, FileHandle (drop n rest))).
Proof.
  intros Hcap [t' now] Hfs. cbn in Hfs. subst t'. unfold read, operation. cbn [fs_tree fs_clock].
  destruct (fault_at now); [by split|]. split; [done|]. destruct h as [|rest]; [done|].
  intros x [= <-]. eexists rest, _. split; [done|]. split; [|done]. lia.
Qed.

Lemma sees_symlink_metadata p :
  sees (symlink_metadata p) (λ k, ∃ n, t !! p = Some n ∧ k = node_type n).
Proof.
  eapply sees_weaken; [apply sees_looking|]. intros k. cbn. destruct (t !! p); [|done].
  intros [= <-]. eauto.
Qed.
Lemma sees_entry_exists {E : Type} p : sees (entry_exists (E:=E) p) (λ b, b = true → is_Some (t !! p)).
Proof.
  unfold entry_exists. eapply sees_bind; [apply sees_outcome, sees_symlink_metadata|].
  intros [k|e] Hk; apply sees_ret; [|done]. intros _. destruct (Hk k eq_refl) as (n & -> & _). eauto.
Qed.
Lemma sees_is_directory {E : Type} p :
  sees (is_directory (E:=E) p) (λ b, b = true → t !! p = Some NodeDir).
Proof.
  unfold is_directory. eapply sees_bind; [apply sees_outcome, sees_symlink_metadata|].
  intros [k|e] Hk; apply sees_ret; [|done]. destruct (Hk k eq_refl) as (n & -> & ->). by destruct n.
Qed.
Lemma sees_is_regular_file {E : Type} p :
  sees (is_regular_file (E:=E) p) (λ b, b = true → ∃ c, file_at p c t).
Proof.
  unfold is_regular_file. eapply sees_bind; [apply sees_outcome, sees_symlink_metadata|].
  intros [k|e] Hk; apply sees_ret; [|done]. destruct (Hk k eq_refl) as (n & Hn & ->).
  destruct n as [|c r]; [done|]. intros _. exists c. by exists r.
Qed.
End observations.

Section observers.
Context `{Schedule}.

Lemma sees_leaves {T E : Type} (P : Path → Prop) (m : stateful Fs T E) :
  (∀ t, sees t m (λ _, True)) → leaves P m.
Proof. intros Hm fs o _. by rewrite (proj1 (Hm (fs_tree fs) fs eq_refl)). Qed.

Lemma sees_triple {T E : Type} (P : gmap Path Node → Prop) (m : stateful Fs T E)
    (φ : gmap Path Node → T → Prop) :
  (∀ t, P t → sees t m (φ t)) →
  triple (on P) m (λ x, on (λ t, P t ∧ φ t x)) (λ _, on P).
Proof.
  intros Hm fs Hfs. destruct (Hm _ Hfs fs eq_refl) as [Ht Hx].
  destruct (m fs) as [[x|e] fs']; unfold on in *; cbn in *; rewrite Ht; [|done].
  split; [done|by apply Hx].
Qed.

(** What depends only on [P] survives what leaves [P]. *)
Lemma leaves_triple {T E : Type} (P : Path → Prop) (Q : gmap Path Node → Prop) (m : stateful Fs T E) :
  (∀ t t', untouched P t t' → Q t → Q t') → leaves P m →
  triple (on Q) m (λ _, on Q) (λ _, on Q).
Proof.
  intros HQ Hm fs Hfs. specialize (Hm fs). destruct (m fs) as [[x|e] fs']; by eapply HQ.
Qed.
End observers.

#[export] Hint Resolve sees_looking sees_exists sees_symlink_metadata sees_entry_exists
  sees_is_directory sees_is_regular_file : sees.
