(* ===== verification/Format.v ===== *)
(** * [derive(Debug)] output

    The pieces of [core::fmt] behind the [{:?}] formatting the resolver sorts
    by: quoted strings, structs, tuples, options and lists. *)

From S2P Require Import Prelude RustStd Externals.

(** UTF-8 encoding of one scalar value. *)
Definition encode_char (c : N) : list byte :=
  if N.ltb c 128 then [byte_of c]
  else if N.ltb c 2048 then [byte_of (192 + c / 64); byte_of (128 + c mod 64)]
  else if N.ltb c 65536 then
    [byte_of (224 + c / 4096); byte_of (128 + (c / 64) mod 64); byte_of (128 + c mod 64)]
  else [byte_of (240 + c / 262144); byte_of (128 + (c / 4096) mod 64);
        byte_of (128 + (c / 64) mod 64); byte_of (128 + c mod 64)].

Definition hex_digit (n : N) : byte :=
  if N.ltb n 10 then byte_of (48 + n) else byte_of (87 + n).

(** Lower-case hexadecimal digits, most significant first; a scalar value has
    at most six. *)
Fixpoint hex_digits_from (fuel : nat) (n : N) (acc : list byte) : list byte :=
  match fuel with
  | 0 => acc
  | S fuel =>
    let acc := hex_digit (n mod 16) :: acc in
    if N.ltb n 16 then acc else hex_digits_from fuel (n / 16) acc
  end.
Definition hex_digits (n : N) : list byte := hex_digits_from 8 n [].

Section debug.
Context `{UnicodeTables}.

(** [char::escape_debug] as [Debug for str] calls it. *)
Definition escape_debug (c : N) : list byte :=
  if N.eqb c 0 then bytes "\0"
  else if N.eqb c 9 then bytes "\t"
  else if N.eqb c 13 then bytes "\r"
  else if N.eqb c 10 then bytes "\n"
  else if N.eqb c 34 then [byte_of 92; byte_of 34]
  else if N.eqb c 92 then bytes "\\"
  else if N.ltb c 128 then
    if N.leb 32 c && N.ltb c 127 then [byte_of c]
    else bytes "\u{" ++ hex_digits c ++ bytes "}"
  else if negb (grapheme_extend c) && unicode_printable c then encode_char c
  else bytes "\u{" ++ hex_digits c ++ bytes "}".

Definition debug_str (s : string) : string :=
  from_utf8 (byte_of 34 :: mjoin (escape_debug <$> chars s) ++ [byte_of 34]).
End debug.

Definition debug_tuple (name : string) (fields : list string) : string :=
  name +:+ "(" +:+ str_join ", " fields +:+ ")".

Definition debug_field (f : string * string) : string := f.1 +:+ ": " +:+ f.2.

Definition debug_struct (name : string) (fields : list (string * string)) : string :=
  name +:+ " { " +:+ str_join ", " (debug_field <$> fields) +:+ " }".

Definition debug_option (o : option string) : string :=
  match o with Some s => debug_tuple "Some" [s] | None => "None" end.

Definition debug_list (l : list string) : string := "[" +:+ str_join ", " l +:+ "]".
