(* ===== verification/NetAddr.v ===== *)
(** * [std::net]: IP addresses

    The parser and the printer of [IpAddr] that host names go through: dotted
    IPv4 without leading zeros, and IPv6 with the [::] abbreviation and a
    trailing IPv4 part.  The parser returns what it read and the rest of the
    text, as the standard library's does. *)

From S2P Require Import Prelude RustStd Text Format.

Inductive IpAddr :=
| V4 (octets : list N)
| V6 (segments : list N).

(** ** Parsing *)

Definition parser (A : Type) : Type := list byte → option (A * list byte).

(** [char::to_digit]. *)
Definition to_digit (radix : N) (b : byte) : option N :=
  let v := if is_ascii_digit b then Some (u8 b - 48)%N
           else if is_ascii_lowercase b then Some (u8 b - 87)%N
           else if is_ascii_uppercase b then Some (u8 b - 55)%N
           else None in
  match v with Some d => if N.ltb d radix then Some d else None | None => None end.

(** The digits at the front of the text, with what follows them. *)
Fixpoint read_digits (radix : N) (l : list byte) : list N * list byte :=
  match l with
  | [] => ([], [])
  | b :: rest =>
    match to_digit radix b with
    | Some d => let '(ds, rest) := read_digits radix rest in (d :: ds, rest)
    | None => ([], l)
    end
  end.

Definition digits_number (radix : N) (ds : list N) : N :=
  foldl (λ n d, n * radix + d)%N 0%N ds.

(** [read_number] with [max_digits]. *)
Definition read_number (radix : N) (max_digits : nat) (allow_zero_prefix : bool) (max : N) :
    parser N := λ l,
  let '(ds, rest) := read_digits radix l in
  if bool_decide (max_digits < length ds) then None
  else if bool_decide (ds = []) then None
  else if negb allow_zero_prefix && match ds with 0%N :: _ => true | _ => false end
          && bool_decide (1 < length ds) then None
  else (λ n, (n, rest)) <$> checked max (digits_number radix ds).

Definition read_given_char (c : N) : parser unit := λ l,
  match l with
  | b :: rest => if byte_is c b then Some (tt, rest) else None
  | [] => None
  end.

(** [read_separator]: the separator comes before every element but the first. *)
Definition read_separator {A} (sep : N) (index : nat) (inner : parser A) : parser A := λ l,
  match index with
  | 0 => inner l
  | S _ => match read_given_char sep l with Some (_, l) => inner l | None => None end
  end.

Definition read_octet (index : nat) : parser N :=
  read_separator 46 index (read_number 10 3 false 255).

Definition read_ipv4_addr : parser (list N) := λ l,
  match read_octet 0 l with
  | Some (a, l) =>
    match read_octet 1 l with
    | Some (b, l) =>
      match read_octet 2 l with
      | Some (c, l) =>
        match read_octet 3 l with
        | Some (d, l) => Some ([a; b; c; d], l)
        | None => None
        end
      | None => None
      end
    | None => None
    end
  | None => None
  end.

(** [read_groups]: the groups read, whether they end with an IPv4 address, and
    the rest; [limit] groups are left to fill from position [i]. *)
Fixpoint read_groups (limit i : nat) (l : list byte) : list N * bool * list byte :=
  match limit with
  | 0 => ([], false, l)
  | S limit' =>
    match (if bool_decide (0 < limit') then read_separator 58 i read_ipv4_addr l else None) with
    | Some ([a; b; c; d], rest) => ([a * 256 + b; c * 256 + d]%N, true, rest)
    | _ =>
      match read_separator 58 i (read_number 16 4 true 65535) l with
      | Some (g, rest) =>
        let '(gs, ipv4, rest) := read_groups limit' (S i) rest in (g :: gs, ipv4, rest)
      | None => ([], false, l)
      end
    end
  end.

Definition read_ipv6_addr : parser (list N) := λ l,
  let '(head, head_ipv4, l) := read_groups 8 0 l in
  if bool_decide (length head = 8) then Some (head, l)
  else if (head_ipv4 : bool) then None
  else match read_given_char 58 l with
  | None => None
  | Some (_, l) =>
    match read_given_char 58 l with
    | None => None
    | Some (_, l) =>
      let '(tail, _, l) := read_groups (8 - (length head + 1)) 0 l in
      Some (head ++ replicate (8 - length head - length tail) 0%N ++ tail, l)
    end
  end.

(** [IpAddr::from_str]: everything must be read. *)
Definition IpAddr_from_str (l : list byte) : option IpAddr :=
  match read_ipv4_addr l with
  | Some (a, rest) => if bool_decide (rest = []) then Some (V4 a) else None
  | None =>
    match read_ipv6_addr l with
    | Some (a, rest) => if bool_decide (rest = []) then Some (V6 a) else None
    | None => None
    end
  end.

(** ** Printing *)

Definition byte_join (sep : list byte) (l : list (list byte)) : list byte :=
  match l with
  | [] => []
  | x :: l => x ++ mjoin ((λ y, sep ++ y) <$> l)
  end.

Definition ipv4_fmt (octets : list N) : list byte :=
  byte_join [byte_of 46] ((λ n, bytes (N_to_string n)) <$> octets).

(** [fmt_subslice]. *)
Definition segments_fmt (segments : list N) : list byte :=
  byte_join [byte_of 58] (hex_digits <$> segments).

(** The longest run of zero segments, the first of them when several are. *)
Fixpoint longest_zeroes (index : nat) (longest current : nat * nat) (l : list N) : nat * nat :=
  match l with
  | [] => longest
  | segment :: l =>
    if N.eqb segment 0 then
      let start := match current.2 with 0 => index | S _ => current.1 end in
      let current := (start, S current.2) in
      longest_zeroes (S index) (if bool_decide (longest.2 < current.2) then current else longest)
        current l
    else longest_zeroes (S index) longest (0, 0) l
  end.

(** [Ipv6Addr::to_ipv4_mapped]. *)
Definition to_ipv4_mapped (segments : list N) : option (list N) :=
  match segments with
  | [0; 0; 0; 0; 0; 65535; ab; cd]%N => Some [ab / 256; ab mod 256; cd / 256; cd mod 256]%N
  | _ => None
  end.

Definition ipv6_fmt (segments : list N) : list byte :=
  match to_ipv4_mapped segments with
  | Some octets => bytes "::ffff:" ++ ipv4_fmt octets
  | None =>
    let '(start, len) := longest_zeroes 0 (0, 0) (0, 0) segments in
    if bool_decide (1 < len) then
      segments_fmt (take start segments) ++ bytes "::" ++ segments_fmt (drop (start + len) segments)
    else segments_fmt segments
  end.

Definition IpAddr_fmt (a : IpAddr) : list byte :=
  match a with
  | V4 octets => ipv4_fmt octets
  | V6 segments => ipv6_fmt segments
  end.

Example ip_loopback : IpAddr_from_str (bytes "0:0::1") = Some (V6 [0;0;0;0;0;0;0;1]%N).
Proof. reflexivity. Qed.
Example ip_shown : IpAddr_fmt (V6 [8193;3512;0;0;1;0;0;1]%N) = bytes "2001:db8::1:0:0:1".
Proof. vm_compute. reflexivity. Qed.
Example ip_mapped :
  IpAddr_fmt <$> IpAddr_from_str (bytes "::FFFF:1.2.3.4") = Some (bytes "::ffff:1.2.3.4").
Proof. vm_compute. reflexivity. Qed.
Example ip_leading_zero : IpAddr_from_str (bytes "1.02.3.4") = None.
Proof. reflexivity. Qed.

(** ** Reading back numbers *)

Definition is_digits (radix : N) (l : list byte) (ds : list N) : Prop :=
  Forall2 (λ b d, to_digit radix b = Some d) l ds.

(** The text does not go on with a digit. *)
Definition no_digit (radix : N) (rest : list byte) : Prop :=
  match rest with [] => True | b :: _ => to_digit radix b = None end.

Lemma read_digits_app radix l ds rest :
  is_digits radix l ds → no_digit radix rest → read_digits radix (l ++ rest) = (ds, rest).
Proof.
  intros Hl Hrest. induction Hl as [|b d l ds Hb _ IH]; simpl.
  - destruct rest as [|b rest]; simpl in *; [done|]. by rewrite Hrest.
  - by rewrite Hb, IH.
Qed.

Lemma read_digits_spec radix l ds rest :
  read_digits radix l = (ds, rest) → ∃ p, l = p ++ rest ∧ is_digits radix p ds.
Proof.
  revert ds. induction l as [|b l IH]; intros ds; simpl.
  { intros [= <- <-]. exists []. split; [done|constructor]. }
  destruct (to_digit radix b) as [d|] eqn:Hb.
  - destruct (read_digits radix l) as [ds' rest'] eqn:E. intros [= <- <-].
    destruct (IH ds' eq_refl) as (p & -> & Hp). exists (b :: p). split; [done|by constructor].
  - intros [= <- <-]. exists []. split; [done|constructor].
Qed.

Lemma read_number_app radix max_digits zero max l ds rest :
  is_digits radix l ds → no_digit radix rest →
  1 ≤ length ds ≤ max_digits → (digits_number radix ds ≤ max)%N →
  (zero = false → ∀ ds', ds = 0%N :: ds' → ds' = []) →
  read_number radix max_digits zero max (l ++ rest) = Some (digits_number radix ds, rest).
Proof.
  intros Hl Hrest [Hlen1 Hlen2] Hmax Hzero. unfold read_number.
  rewrite (read_digits_app radix l ds rest) by done.
  rewrite bool_decide_eq_false_2 by lia.
  rewrite bool_decide_eq_false_2 by (intros ->; simpl in *; lia).
  assert (negb zero && match ds with 0%N :: _ => true | _ => false end
    && bool_decide (1 < length ds) = false) as ->.
  { destruct zero; [done|]. destruct ds as [|[|p] ds]; try done. simpl.
    rewrite (Hzero eq_refl ds eq_refl). done. }
  unfold checked. by apply N.leb_le in Hmax as ->.
Qed.

Lemma read_number_some radix max_digits zero max l n rest :
  read_number radix max_digits zero max l = Some (n, rest) →
  ∃ p ds, l = p ++ rest ∧ is_digits radix p ds ∧ (n ≤ max)%N.
Proof.
  unfold read_number. destruct (read_digits radix l) as [ds rest'] eqn:E.
  apply read_digits_spec in E as (p & -> & Hp). intros H. exists p, ds.
  destruct (bool_decide (max_digits < _)); [done|]. destruct (bool_decide (ds = _)); [done|].
  destruct (negb zero && _ && _); [done|].
  apply fmap_Some in H as (m & Hm & [= -> ->]).
  unfold checked in Hm. destruct (N.leb _ max) eqn:Hle; simplify_eq. by apply N.leb_le in Hle.
Qed.

Lemma digits_number_app radix ds d :
  digits_number radix (ds ++ [d]) = (digits_number radix ds * radix + d)%N.
Proof. unfold digits_number. by rewrite foldl_app. Qed.

Lemma to_digit_hex d : (d < 16)%N → to_digit 16 (hex_digit d) = Some d.
Proof.
  intros Hd. assert (In d (map N.of_nat (seq 0 16))) as Hin.
  { apply in_map_iff. exists (N.to_nat d). rewrite N2Nat.id. split; [done|]. apply in_seq. lia. }
  simpl in Hin. repeat (destruct Hin as [<-|Hin]; [reflexivity|]). done.
Qed.

Lemma hex_digits_from_spec k fuel n acc :
  (n < 16 ^ N.of_nat (S k))%N → k < fuel →
  ∃ l ds, hex_digits_from fuel n acc = l ++ acc ∧ is_digits 16 l ds ∧
    1 ≤ length ds ≤ S k ∧ digits_number 16 ds = n.
Proof.
  revert fuel n acc. induction k as [|k IH]; intros [|fuel] n acc Hn Hf; [lia|..|lia|]; simpl.
  - replace (N.ltb n 16) with true by (symmetry; apply N.ltb_lt; lia).
    exists [hex_digit n], [n]. rewrite N.mod_small by lia. simpl.
    split_and!; [done| |lia..|done]. constructor; [|constructor]. by apply to_digit_hex.
  - destruct (N.ltb_spec n 16).
    + exists [hex_digit n], [n]. rewrite N.mod_small by lia. simpl.
      split_and!; [done| |lia..|done]. constructor; [|constructor]. by apply to_digit_hex.
    + destruct (IH fuel (n / 16)%N (hex_digit (n mod 16) :: acc)) as (l & ds & -> & Hl & ? & Hv).
      { rewrite Nat2N.inj_succ, N.pow_succ_r' in Hn. apply N.Div0.div_lt_upper_bound. done. }
      { lia. }
      exists (l ++ [hex_digit (n mod 16)]), (ds ++ [n mod 16])%N.
      rewrite <-app_assoc, digits_number_app, Hv, length_app. simpl.
      split_and!; [done| |lia..|].
      * apply Forall2_app; [done|]. constructor; [|constructor]. apply to_digit_hex.
        by apply N.mod_lt.
      * rewrite (N.div_mod n 16) at 3 by done. lia.
Qed.

Lemma hex_digits_spec n :
  (n < 65536)%N →
  ∃ ds, is_digits 16 (hex_digits n) ds ∧ 1 ≤ length ds ≤ 4 ∧ digits_number 16 ds = n.
Proof.
  intros Hn. destruct (hex_digits_from_spec 3 8 n []) as (l & ds & E & ?); [done|lia|].
  exists ds. unfold hex_digits. rewrite E, app_nil_r. done.
Qed.

(** An octet in decimal: its digits, none of them a leading zero. *)
Definition octet_digits (n : N) : option (list N) :=
  mapM (to_digit 10) (bytes (N_to_string n)).

Lemma octet_digits_checked :
  forallb (λ n, match octet_digits n with
    | Some ds => bool_decide (1 ≤ length ds ≤ 3) && N.eqb (digits_number 10 ds) n
        && match ds with 0%N :: _ :: _ => false | _ => true end
    | None => false
    end) (N.of_nat <$> seq 0 256) = true.
Proof. vm_compute. reflexivity. Qed.

Lemma octet_digits_spec n :
  (n < 256)%N →
  ∃ ds, is_digits 10 (bytes (N_to_string n)) ds ∧ 1 ≤ length ds ≤ 3 ∧ digits_number 10 ds = n ∧
    ∀ ds', ds = 0%N :: ds' → ds' = [].
Proof.
  intros Hn. pose proof octet_digits_checked as H. rewrite forallb_forall in H.
  specialize (H n). ospecialize (H _).
  { apply list_elem_of_In, list_elem_of_fmap. exists (N.to_nat n). rewrite N2Nat.id.
    split; [done|]. apply elem_of_seq. lia. }
  destruct (octet_digits n) as [ds|] eqn:E; [|done].
  rewrite !andb_true_iff, bool_decide_eq_true, N.eqb_eq in H. destruct H as [[? ?] Hz].
  exists ds. split_and!; [by apply mapM_Some_1|lia..|done|].
  intros ds' ->. by destruct ds'.
Qed.

Lemma read_octet_fmt n rest :
  (n < 256)%N → no_digit 10 rest →
  read_number 10 3 false 255 (bytes (N_to_string n) ++ rest) = Some (n, rest).
Proof.
  intros Hn Hrest. destruct (octet_digits_spec n Hn) as (ds & Hds & Hlen & Hv & Hz).
  rewrite (read_number_app 10 3 false 255 _ ds) by (done || lia). by rewrite Hv.
Qed.

Lemma read_segment_fmt n rest :
  (n < 65536)%N → no_digit 16 rest →
  read_number 16 4 true 65535 (hex_digits n ++ rest) = Some (n, rest).
Proof.
  intros Hn Hrest. destruct (hex_digits_spec n Hn) as (ds & Hds & Hlen & Hv).
  rewrite (read_number_app 16 4 true 65535 _ ds) by (done || lia). by rewrite Hv.
Qed.

(** ** Reading back addresses *)

Definition ip_wf (a : IpAddr) : Prop :=
  match a with
  | V4 octets => length octets = 4 ∧ Forall (λ n, n < 256)%N octets
  | V6 segments => length segments = 8 ∧ Forall (λ n, n < 65536)%N segments
  end.

Lemma no_digit_not_hex b rest : to_digit 16 b = None → no_digit 10 (b :: rest).
Proof. destruct b; done. Qed.

Lemma read_ipv4_fmt octets rest :
  ip_wf (V4 octets) → no_digit 10 rest →
  read_ipv4_addr (ipv4_fmt octets ++ rest) = Some (octets, rest).
Proof.
  intros [Hlen Ho] Hrest. destruct octets as [|a [|b [|c [|d [|]]]]]; try done.
  inversion_clear Ho as [|? ? Ha Ho']. inversion_clear Ho' as [|? ? Hb Ho].
  inversion_clear Ho as [|? ? Hc Ho']. inversion_clear Ho' as [|? ? Hd _].
  unfold ipv4_fmt, byte_join. csimpl. rewrite !app_nil_r.
  repeat (rewrite <-app_assoc; cbn [app]).
  unfold read_ipv4_addr, read_octet, read_separator.
  repeat (rewrite read_octet_fmt by done; cbn [read_given_char];
          change (byte_is 46 (byte_of 46)) with true; cbv iota beta).
  done.
Qed.

(** What an IPv4 address is read from. *)
Definition ipv4_byte (b : byte) : bool := is_ascii_digit b || byte_is 46 b.

Lemma digits_ipv4_bytes l ds : is_digits 10 l ds → Forall (λ b, ipv4_byte b = true) l.
Proof.
  induction 1 as [|b d l ds Hb _ IH]; constructor; [|done].
  clear IH. destruct b; done.
Qed.

Lemma read_octet_some i l n rest :
  read_octet i l = Some (n, rest) →
  ∃ p, l = p ++ rest ∧ Forall (λ b, ipv4_byte b = true) p ∧ (n < 256)%N ∧
    (i ≠ 0 → Exists (λ b, byte_is 46 b = true) p).
Proof.
  unfold read_octet, read_separator, read_given_char. destruct i as [|i].
  - intros (p & ds & -> & Hp & Hn)%read_number_some. exists p. split_and!; [done| |lia|done].
    by eapply digits_ipv4_bytes.
  - destruct l as [|b l]; [done|]. destruct (byte_is 46 b) eqn:Hb; [|done].
    intros (p & ds & -> & Hp & Hn)%read_number_some. exists (b :: p).
    split_and!; [done| |lia|by constructor]. constructor; [|by eapply digits_ipv4_bytes].
    unfold ipv4_byte. by rewrite Hb, orb_true_r.
Qed.

Lemma read_ipv4_some l octets rest :
  read_ipv4_addr l = Some (octets, rest) →
  ip_wf (V4 octets) ∧
  ∃ p, l = p ++ rest ∧ Forall (λ b, ipv4_byte b = true) p ∧ Exists (λ b, byte_is 46 b = true) p.
Proof.
  unfold read_ipv4_addr.
  destruct (read_octet 0 l) as [[a l1]|] eqn:E0; [|done].
  destruct (read_octet 1 l1) as [[b l2]|] eqn:E1; [|done].
  destruct (read_octet 2 l2) as [[c l3]|] eqn:E2; [|done].
  destruct (read_octet 3 l3) as [[d l4]|] eqn:E3; [|done].
  intros [= <- <-].
  apply read_octet_some in E0 as (p0 & -> & ? & ? & _), E1 as (p1 & -> & ? & ? & Hdot),
    E2 as (p2 & -> & ? & ? & _), E3 as (p3 & -> & ? & ? & _).
  split; [split; [done|by repeat constructor]|].
  exists (p0 ++ p1 ++ p2 ++ p3). rewrite <-!app_assoc, !Forall_app, !Exists_app.
  split_and!; [done..|]. right. left. by apply Hdot.
Qed.

Lemma read_ipv4_no_dot l : Forall (λ b, byte_is 46 b = false) l → read_ipv4_addr l = None.
Proof.
  intros Hl. destruct (read_ipv4_addr l) as [[o rest]|] eqn:E; [|done].
  apply read_ipv4_some in E as (_ & p & -> & _ & (b & Hb & Hd)%Exists_exists).
  rewrite Forall_app, Forall_forall in Hl. destruct Hl as [Hl _]. by rewrite Hl in Hd.
Qed.

(** Groups as they are written from position [i] on. *)
Definition groups_text (i : nat) (gs : list N) : list byte :=
  match i with
  | 0 => segments_fmt gs
  | S _ => mjoin ((λ g, byte_of 58 :: hex_digits g) <$> gs)
  end.

(** Where a sequence of groups stops. *)
Definition groups_end (rest : list byte) : Prop :=
  rest = [] ∨ ∃ r, rest = byte_of 58 :: byte_of 58 :: r.

Lemma groups_text_cons i g gs :
  groups_text i (g :: gs) =
    match i with 0 => [] | S _ => [byte_of 58] end ++ hex_digits g ++ groups_text (S i) gs.
Proof.
  destruct i; csimpl; [|done]. unfold segments_fmt, byte_join. csimpl.
  f_equal. f_equal. by rewrite <-list_fmap_compose.
Qed.

Lemma hex_digits_hex g : (g < 65536)%N → Forall (λ b, is_Some (to_digit 16 b)) (hex_digits g).
Proof.
  intros Hg. destruct (hex_digits_spec g Hg) as (ds & Hds & _).
  induction Hds; constructor; eauto.
Qed.

Lemma groups_text_no_dot i gs :
  Forall (λ n, n < 65536)%N gs → Forall (λ b, byte_is 46 b = false) (groups_text i gs).
Proof.
  intros Hgs. revert i. induction Hgs as [|g gs Hg _ IH]; intros i; [destruct i; constructor|].
  rewrite groups_text_cons, !Forall_app. split_and!.
  - destruct i; by repeat constructor.
  - eapply Forall_impl; [by apply hex_digits_hex|]. intros b [d Hd]. by destruct b.
  - apply IH.
Qed.

Lemma groups_end_no_digit i gs rest :
  i ≠ 0 → groups_end rest → no_digit 16 (groups_text i gs ++ rest).
Proof.
  intros Hi Hrest. destruct i as [|i]; [done|]. destruct gs as [|g gs]; csimpl; [|done].
  by destruct Hrest as [->|(r & ->)].
Qed.

Lemma read_groups_stop limit i rest :
  groups_end rest → Forall (λ b, byte_is 46 b = false) rest →
  read_groups limit i rest = ([], false, rest).
Proof.
  intros Hrest Hdot. destruct limit as [|limit]; [done|]. cbn [read_groups].
  assert (read_separator 58 i read_ipv4_addr rest = None) as Hv4.
  { destruct i; simpl; [by apply read_ipv4_no_dot|].
    destruct Hrest as [->|(r & ->)]; [done|]. simpl.
    inversion_clear Hdot. by apply read_ipv4_no_dot. }
  rewrite Hv4. case_bool_decide; cbv iota;
    by destruct i, Hrest as [->|(r & ->)].
Qed.

Lemma read_groups_text gs limit i rest :
  Forall (λ n, n < 65536)%N gs → length gs ≤ limit →
  groups_end rest → Forall (λ b, byte_is 46 b = false) rest →
  read_groups limit i (groups_text i gs ++ rest) = (gs, false, rest).
Proof.
  intros Hgs. revert limit i. induction Hgs as [|g gs Hg Hgs IH]; intros limit i Hlen Hend Hdot.
  { destruct i; simpl; by apply read_groups_stop. }
  destruct limit as [|limit]; simpl in Hlen; [lia|].
  assert (Forall (λ b, byte_is 46 b = false) (groups_text i (g :: gs) ++ rest)) as Hnodot.
  { apply Forall_app. split; [|done]. apply groups_text_no_dot. by constructor. }
  rewrite groups_text_cons in *. rewrite <-!app_assoc in *. cbn [read_groups].
  assert (read_separator 58 i read_ipv4_addr (match i with 0 => [] | S _ => [byte_of 58] end ++
      hex_digits g ++ groups_text (S i) gs ++ rest) = None) as Hv4.
  { destruct i; simpl in *; [by apply read_ipv4_no_dot|].
    inversion_clear Hnodot. by apply read_ipv4_no_dot. }
  assert (read_separator 58 i (read_number 16 4 true 65535)
      (match i with 0 => [] | S _ => [byte_of 58] end ++
       hex_digits g ++ groups_text (S i) gs ++ rest) = Some (g, groups_text (S i) gs ++ rest)) as Hg'.
  { pose proof (groups_end_no_digit (S i) gs rest ltac:(done) Hend) as Hnd.
    destruct i; cbn [app read_separator read_given_char];
      [|change (byte_is 58 (byte_of 58)) with true; cbv iota beta]; by apply read_segment_fmt. }
  rewrite Hv4, Hg'. rewrite (IH limit (S i)) by (done || lia). by destruct (bool_decide _).
Qed.

(** ** The abbreviated run *)

Definition zero_run (l : list N) (run : nat * nat) : Prop :=
  run.2 = 0 ∨ ∃ a b, l = a ++ replicate run.2 0%N ++ b ∧ length a = run.1.

Lemma longest_zeroes_spec l pre longest current :
  zero_run pre longest →
  (∃ a, pre = a ++ replicate current.2 0%N ∧ (current.2 = 0 ∨ length a = current.1)) →
  zero_run (pre ++ l) (longest_zeroes (length pre) longest current l).
Proof.
  revert pre longest current. induction l as [|x l IH]; intros pre longest current Hl Hc; simpl.
  { by rewrite app_nil_r. }
  assert (zero_run (pre ++ [x]) longest) as Hl'.
  { destruct Hl as [|(a & b & -> & ?)]; [by left|]. right. exists a, (b ++ [x]).
    by rewrite <-!app_assoc. }
  specialize (IH (pre ++ [x])). rewrite <-app_assoc, length_app in IH.
  replace (length pre + length [x]) with (S (length pre)) in IH by (simpl; lia).
  destruct (N.eqb_spec x 0) as [->|]; [|apply IH; [done|]; exists (pre ++ [x]); simpl;
    rewrite app_nil_r; auto].
  destruct current as [start len], Hc as (a & -> & Hlen). simpl in *.
  set (start' := match len with 0 => _ | S _ => start end).
  assert (length a = start') as Hstart.
  { unfold start'. destruct Hlen as [->|<-]; [|destruct len; [|done]]; simpl;
      rewrite length_app; simpl; lia. }
  assert (a ++ replicate len 0%N ++ [0%N] = a ++ replicate (S len) 0%N) as Happ.
  { by rewrite <-replicate_cons_app. }
  apply IH.
  - case_bool_decide; [|done]. right. exists a, []. simpl.
    by rewrite <-app_assoc, Happ, app_nil_r.
  - exists a. simpl. rewrite <-app_assoc, Happ. auto.
Qed.

Lemma segments_fmt_groups gs : segments_fmt gs = groups_text 0 gs.
Proof. done. Qed.

Lemma to_ipv4_mapped_some segments octets :
  ip_wf (V6 segments) → to_ipv4_mapped segments = Some octets →
  ip_wf (V4 octets) ∧ ∃ a b c d, octets = [a; b; c; d] ∧
    segments = [0; 0; 0; 0; 0; 65535; a * 256 + b; c * 256 + d]%N.
Proof.
  intros [Hlen Hs] H. destruct segments as [|? [|? [|? [|? [|? [|? [|ab [|cd [|]]]]]]]]]; try done.
  unfold to_ipv4_mapped in H. repeat (case_match; try done). simplify_eq.
  do 6 apply Forall_inv_tail in Hs. inversion_clear Hs as [|? ? Hab Hcd].
  inversion_clear Hcd as [|? ? Hcd' _]. split.
  - split; [done|]. repeat constructor; try (by apply N.mod_lt);
      apply N.Div0.div_lt_upper_bound; done.
  - eexists _, _, _, _. split; [done|].
    by rewrite !(N.mul_comm _ 256), <-!N.div_mod by done.
Qed.

Lemma read_groups_ipv4 k i l a b c d rest :
  read_separator 58 i read_ipv4_addr l = Some ([a; b; c; d], rest) →
  read_groups (S (S k)) i l = ([a * 256 + b; c * 256 + d]%N, true, rest).
Proof.
  intros E. cbn [read_groups]. rewrite bool_decide_eq_true_2 by lia. by rewrite E.
Qed.

Lemma read_groups_first k l :
  read_groups (S (S k)) 0 l =
    match read_ipv4_addr l with
    | Some ([a; b; c; d], rest) => ([a * 256 + b; c * 256 + d]%N, true, rest)
    | _ =>
      match read_number 16 4 true 65535 l with
      | Some (g, rest) =>
        let '(gs, ipv4, rest) := read_groups (S k) 1 rest in (g :: gs, ipv4, rest)
      | None => ([], false, l)
      end
    end.
Proof. reflexivity. Qed.

Lemma read_mapped_fmt octets a b c d :
  ip_wf (V4 octets) → octets = [a; b; c; d] →
  IpAddr_from_str (bytes "::ffff:" ++ ipv4_fmt octets) =
    Some (V6 [0; 0; 0; 0; 0; 65535; a * 256 + b; c * 256 + d]%N).
Proof.
  intros Hwf ->.
  assert (read_groups 7 0 (bytes "ffff:" ++ ipv4_fmt [a; b; c; d]) =
    ([65535; a * 256 + b; c * 256 + d]%N, true, [])) as Hg.
  { rewrite <-(app_nil_r (ipv4_fmt _)).
    assert (read_groups 7 0 (bytes "ffff:" ++ ipv4_fmt [a; b; c; d] ++ []) =
      let '(gs, ipv4, rest) := read_groups 6 1 (bytes ":" ++ ipv4_fmt [a; b; c; d] ++ []) in
      (65535%N :: gs, ipv4, rest)) as ->.
    { generalize (ipv4_fmt [a; b; c; d] ++ []). intros l. reflexivity. }
    rewrite (read_groups_ipv4 4 1 _ a b c d []); [reflexivity|].
    refine (read_ipv4_fmt [a; b; c; d] [] Hwf _). done. }
  unfold IpAddr_from_str.
  assert (read_ipv4_addr (bytes "::ffff:" ++ ipv4_fmt [a; b; c; d]) = None) as -> by reflexivity.
  unfold read_ipv6_addr.
  assert (read_groups 8 0 (bytes "::ffff:" ++ ipv4_fmt [a; b; c; d]) =
    ([], false, bytes "::ffff:" ++ ipv4_fmt [a; b; c; d])) as -> by reflexivity.
  change (bytes "::ffff:" ++ ipv4_fmt [a; b; c; d])
    with (byte_of 58 :: byte_of 58 :: bytes "ffff:" ++ ipv4_fmt [a; b; c; d]).
  cbn [length read_given_char]. change (byte_is 58 (byte_of 58)) with true. cbv iota beta.
  change (8 - (0 + 1)) with 7. rewrite bool_decide_eq_false_2 by done.
  cbn [read_given_char]. change (byte_is 58 (byte_of 58)) with true. cbv iota beta.
  by rewrite Hg.
Qed.

Lemma read_abbreviated_fmt hd tl n :
  Forall (λ n, n < 65536)%N hd → Forall (λ n, n < 65536)%N tl →
  length hd + n + length tl = 8 → 1 < n →
  read_ipv6_addr (segments_fmt hd ++ bytes "::" ++ segments_fmt tl) =
    Some (hd ++ replicate n 0%N ++ tl, []).
Proof.
  intros Hhd Htl Hlen Hn. unfold read_ipv6_addr.
  rewrite (segments_fmt_groups hd), (segments_fmt_groups tl).
  change (bytes "::") with [byte_of 58; byte_of 58]. cbn [app].
  rewrite read_groups_text; [|done|lia|right; eauto|].
  2:{ repeat constructor. by apply groups_text_no_dot. }
  rewrite bool_decide_eq_false_2 by lia.
  do 2 (cbn [read_given_char]; change (byte_is 58 (byte_of 58)) with true; cbv iota beta).
  rewrite <-(app_nil_r (groups_text 0 tl)).
  rewrite read_groups_text; [|done|lia|by left|constructor].
  replace (8 - length hd - length tl) with n by lia. done.
Qed.

Lemma ipv6_fmt_read segments :
  ip_wf (V6 segments) → IpAddr_from_str (ipv6_fmt segments) = Some (V6 segments).
Proof.
  intros Hwf. unfold ipv6_fmt. destruct (to_ipv4_mapped segments) as [octets|] eqn:Hm.
  { destruct (to_ipv4_mapped_some _ _ Hwf Hm) as (? & a & b & c & d & Ho & ->).
    by apply read_mapped_fmt. }
  destruct Hwf as [Hlen Hs]. unfold IpAddr_from_str.
  pose proof (longest_zeroes_spec segments [] (0, 0) (0, 0)) as Hrun. ospecialize (Hrun _ _).
  { by left. } { by exists []; auto. }
  simpl app in Hrun. simpl length in Hrun. destruct (longest_zeroes _ _ _ _) as [start n].
  case_bool_decide as Hn.
  - destruct Hrun as [Hz|(hd & tl & Hseg & Hhd)]; cbn [fst snd] in *; [lia|]. subst start.
    rewrite Hseg in Hs |- *. rewrite !Forall_app in Hs. destruct Hs as (Hhd & _ & Htl).
    rewrite take_app_length, drop_app_add, drop_app_length'
      by by rewrite length_replicate.
    rewrite read_ipv4_no_dot.
    2:{ rewrite !Forall_app. split_and!; [by apply (groups_text_no_dot 0)| |
      by apply (groups_text_no_dot 0)]. by repeat constructor. }
    rewrite (read_abbreviated_fmt hd tl n); [done|done|done| |done].
    rewrite <-Hlen, Hseg, !length_app, length_replicate. lia.
  - rewrite read_ipv4_no_dot by by apply (groups_text_no_dot 0).
    unfold read_ipv6_addr. rewrite segments_fmt_groups, <-(app_nil_r (groups_text _ _)).
    rewrite read_groups_text; [|done|lia|by left|constructor]. by rewrite bool_decide_eq_true_2.
Qed.

(** Printing an address and reading it gives the address. *)
Lemma IpAddr_fmt_read a : ip_wf a → IpAddr_from_str (IpAddr_fmt a) = Some a.
Proof.
  destruct a as [octets|segments]; [|apply ipv6_fmt_read].
  intros Hwf. unfold IpAddr_from_str. simpl IpAddr_fmt. rewrite <-(app_nil_r (ipv4_fmt _)).
  by rewrite read_ipv4_fmt by done.
Qed.

(** ** What is read is an address *)

(** The bytes an address is read from. *)
Definition address_byte (b : byte) : bool :=
  is_ascii_hexdigit b || byte_is 46 b || byte_is 58 b.

Lemma hex_address_bytes l ds : is_digits 16 l ds → Forall (λ b, address_byte b = true) l.
Proof.
  induction 1 as [|b d l ds Hb _ IH]; constructor; [|done]. clear IH. destruct b; done.
Qed.

Lemma ipv4_address_bytes l :
  Forall (λ b, ipv4_byte b = true) l → Forall (λ b, address_byte b = true) l.
Proof. intros H. eapply Forall_impl; [done|]. intros b. by destruct b. Qed.

(** The text up to [rest] is made of address bytes. *)
Definition reads (l rest : list byte) : Prop :=
  ∃ p, l = p ++ rest ∧ Forall (λ b, address_byte b = true) p.

Lemma reads_refl l : reads l l.
Proof. by exists []. Qed.

Lemma reads_trans l m r : reads l m → reads m r → reads l r.
Proof.
  intros (p & -> & Hp) (q & -> & Hq). exists (p ++ q). rewrite <-app_assoc, Forall_app.
  by split_and!.
Qed.

Lemma reads_all l : reads l [] → Forall (λ b, address_byte b = true) l.
Proof. intros (p & -> & Hp). by rewrite app_nil_r. Qed.

Lemma read_given_colon l u rest : read_given_char 58 l = Some (u, rest) → reads l rest.
Proof.
  destruct l as [|b l]; [done|]. simpl. destruct (byte_is 58 b) eqn:Hb; [|done].
  intros [= <- <-]. exists [b]. split; [done|]. repeat constructor. unfold address_byte.
  by rewrite Hb, orb_true_r.
Qed.

Lemma read_separator_colon {A} i (inner : parser A) l x rest :
  (∀ l, inner l = Some (x, rest) → reads l rest) →
  read_separator 58 i inner l = Some (x, rest) → reads l rest.
Proof.
  intros Hin. destruct i; [apply Hin|]. unfold read_separator.
  destruct (read_given_char 58 l) as [[u l']|] eqn:E; [|done]. apply read_given_colon in E.
  intros H%Hin. by eapply reads_trans.
Qed.

Lemma read_separator_inner {A} (P : A → Prop) sep i (inner : parser A) l x rest :
  (∀ l, inner l = Some (x, rest) → P x) → read_separator sep i inner l = Some (x, rest) → P x.
Proof.
  intros Hin. destruct i; [apply Hin|]. unfold read_separator.
  destruct (read_given_char sep l) as [[u l']|]; [apply Hin|done].
Qed.

Lemma read_segment_some i l g rest :
  read_separator 58 i (read_number 16 4 true 65535) l = Some (g, rest) →
  reads l rest ∧ (g ≤ 65535)%N.
Proof.
  intros H. split.
  - revert H. apply read_separator_colon. clear l. intros l (p & ds & -> & Hp & _)%read_number_some.
    exists p. split; [done|]. by eapply hex_address_bytes.
  - revert H. apply (read_separator_inner (λ g, g ≤ 65535)%N). clear l.
    by intros l (p & ds & _ & _ & ?)%read_number_some.
Qed.

Lemma read_trailing_some i l o rest :
  read_separator 58 i read_ipv4_addr l = Some (o, rest) → reads l rest ∧ ip_wf (V4 o).
Proof.
  intros H. split.
  - revert H. apply read_separator_colon. clear l. intros l (_ & p & -> & Hp & _)%read_ipv4_some.
    exists p. split; [done|]. by apply ipv4_address_bytes.
  - revert H. apply (read_separator_inner (λ o, ip_wf (V4 o))). clear l.
    by intros l (? & _)%read_ipv4_some.
Qed.

Lemma read_groups_wf limit i l gs ipv4 rest :
  read_groups limit i l = (gs, ipv4, rest) →
  length gs ≤ limit ∧ Forall (λ n, n < 65536)%N gs ∧ reads l rest.
Proof.
  revert i l gs ipv4 rest. induction limit as [|limit IH]; intros i l gs ipv4 rest; cbn [read_groups].
  { intros [= <- <- <-]. split_and!; [done|constructor|apply reads_refl]. }
  assert ((let r := match read_separator 58 i (read_number 16 4 true 65535) l with
      | Some (g, rest) =>
        let '(gs, ipv4, rest) := read_groups limit (S i) rest in (g :: gs, ipv4, rest)
      | None => ([], false, l)
      end in r = (gs, ipv4, rest) →
      length gs ≤ S limit ∧ Forall (λ n, n < 65536)%N gs ∧ reads l rest)) as Hgroup.
  { simpl. destruct (read_separator _ _ _ l) as [[g rest']|] eqn:E.
    - destruct (read_groups limit (S i) rest') as [[gs' v] r] eqn:Er. intros [= <- <- <-].
      apply IH in Er as (? & ? & Hr). apply read_segment_some in E as [Hl Hg].
      simpl. split_and!; [lia|constructor; [lia|done]|by eapply reads_trans].
    - intros [= <- <- <-]. simpl. split_and!; [lia|constructor|apply reads_refl]. }
  case_bool_decide as Hlim; [|exact Hgroup].
  destruct (read_separator 58 i read_ipv4_addr l) as [[o rest']|] eqn:E; [|exact Hgroup].
  destruct o as [|a [|b [|c [|d [|]]]]]; try exact Hgroup. clear Hgroup. intros [= <- <- <-].
  apply read_trailing_some in E as [Hr [_ Ho]].
  inversion_clear Ho as [|? ? Ha Ho']. inversion_clear Ho' as [|? ? Hb Ho].
  inversion_clear Ho as [|? ? Hc Ho']. inversion_clear Ho' as [|? ? Hd _].
  simpl. split_and!; [lia| |done]. repeat constructor; lia.
Qed.

Lemma read_ipv6_some l s rest : read_ipv6_addr l = Some (s, rest) → ip_wf (V6 s) ∧ reads l rest.
Proof.
  unfold read_ipv6_addr. destruct (read_groups 8 0 l) as [[hd v] l1] eqn:Eh.
  apply read_groups_wf in Eh as (Hlen & Hhd & Hr). case_bool_decide; [by intros [= <- <-]|].
  destruct v; [done|]. destruct (read_given_char 58 l1) as [[u l2]|] eqn:E1; [|done].
  destruct (read_given_char 58 l2) as [[u' l3]|] eqn:E2; [|done].
  destruct (read_groups _ 0 l3) as [[tl v'] l4] eqn:Et.
  apply read_groups_wf in Et as (Hlen' & Htl & Hr'). intros [= <- <-].
  apply read_given_colon in E1, E2. split; [split|].
  - rewrite !length_app, length_replicate. lia.
  - rewrite !Forall_app. split_and!; [done| |done]. by apply Forall_replicate.
  - eauto using reads_trans.
Qed.

(** What is read is an address, and is written with its bytes. *)
Lemma IpAddr_from_str_some l a :
  IpAddr_from_str l = Some a → ip_wf a ∧ Forall (λ b, address_byte b = true) l.
Proof.
  unfold IpAddr_from_str. destruct (read_ipv4_addr l) as [[o rest]|] eqn:E4.
  { case_bool_decide as Hr; [|done]. intros [= <-]. apply read_ipv4_some in E4 as (? & p & -> & Hp & _).
    split; [done|]. rewrite Hr, app_nil_r. by apply ipv4_address_bytes. }
  destruct (read_ipv6_addr l) as [[s rest]|] eqn:E6; [|done].
  case_bool_decide as Hr; [|done]. intros [= <-]. apply read_ipv6_some in E6 as [? Hs].
  split; [done|]. subst. by apply reads_all.
Qed.

Lemma IpAddr_from_str_wf l a : IpAddr_from_str l = Some a → ip_wf a.
Proof. by intros [? _]%IpAddr_from_str_some. Qed.

(** ** The bytes of an address *)

Lemma IpAddr_from_str_v4_bytes l o : IpAddr_from_str l = Some (V4 o) → Forall (λ b, ipv4_byte b = true) l.
Proof.
  unfold IpAddr_from_str. destruct (read_ipv4_addr l) as [[o' rest]|] eqn:E.
  - case_bool_decide as Hr; [|done]. intros _. apply read_ipv4_some in E as (_ & p & -> & Hp & _).
    by rewrite Hr, app_nil_r.
  - destruct (read_ipv6_addr l) as [[s rest]|]; [|done]. by case_bool_decide.
Qed.

Lemma read_ipv6_colon l : Forall (λ b, byte_is 58 b = false) l → read_ipv6_addr l = None.
Proof.
  intros Hl. unfold read_ipv6_addr.
  assert (∀ n i r, Forall (λ b, byte_is 58 b = false) r →
    read_groups n (S i) r = ([], false, r)) as Hstop.
  { intros [|n] i r Hr; [done|]. destruct r as [|b r]; cbn; [by case_bool_decide|].
    inversion_clear Hr as [|? ? Hb _]. rewrite Hb. by case_bool_decide. }
  assert (∀ r, Forall (λ b, byte_is 58 b = false) r → read_given_char 58 r = None) as Hnone.
  { intros [|b r] Hr; [done|]. inversion_clear Hr as [|? ? Hb _]. simpl. by rewrite Hb. }
  rewrite (read_groups_first 6).
  assert (match (match read_number 16 4 true 65535 l with
      | Some (g, rest) =>
        let '(gs, ipv4, rest) := read_groups 7 1 rest in (g :: gs, ipv4, rest)
      | None => ([], false, l)
      end) with (gs, ipv4, rest) => length gs < 8 ∧ ipv4 = false ∧ read_given_char 58 rest = None end)
    as Hgroup.
  { destruct (read_number 16 4 true 65535 l) as [[g rest]|] eqn:E.
    - apply read_number_some in E as (p & ds & -> & _ & _). apply Forall_app in Hl as [_ Hl].
      rewrite Hstop by done. simpl. split_and!; [lia|done|by apply Hnone].
    - simpl. split_and!; [lia|done|by apply Hnone]. }
  destruct (read_ipv4_addr l) as [[[|a [|b [|c [|d [|]]]]] rest]|];
    try (destruct (match read_number _ _ _ _ l with Some _ => _ | None => _ end) as [[gs v] r];
         destruct Hgroup as (? & -> & ->); by rewrite bool_decide_eq_false_2 by lia).
  done.
Qed.

(** Without a colon, only an IPv4 address can be read. *)
Lemma IpAddr_from_str_v6_colon l s :
  IpAddr_from_str l = Some (V6 s) → ¬ Forall (λ b, byte_is 58 b = false) l.
Proof.
  intros H Hl. unfold IpAddr_from_str in H. rewrite (read_ipv6_colon l) in H by done.
  destruct (read_ipv4_addr l) as [[o rest]|]; [|done]. by case_bool_decide.
Qed.

Definition ip_byte (b : byte) : bool :=
  is_ascii_digit b || in_range 97 102 b || byte_is 58 b || byte_is 46 b.

Lemma byte_join_Forall (P : byte → Prop) sep l :
  Forall P sep → Forall (Forall P) l → Forall P (byte_join sep l).
Proof.
  intros Hsep Hl. destruct Hl as [|x l Hx Hl]; simpl; [constructor|]. apply Forall_app. split; [done|].
  induction Hl; csimpl; [constructor|]. by rewrite !Forall_app.
Qed.

Lemma ipv4_fmt_bytes o : ip_wf (V4 o) → Forall (λ b, ipv4_byte b = true) (ipv4_fmt o).
Proof.
  intros [_ Ho]. apply byte_join_Forall; [by repeat constructor|]. apply Forall_fmap.
  eapply Forall_impl; [done|]. intros n Hn. simpl.
  destruct (octet_digits_spec n Hn) as (ds & Hds & _). by eapply digits_ipv4_bytes.
Qed.

Lemma hex_digit_byte d : (d < 16)%N → ip_byte (hex_digit d) = true.
Proof.
  intros Hd. assert (In d (map N.of_nat (seq 0 16))) as Hin.
  { apply in_map_iff. exists (N.to_nat d). rewrite N2Nat.id. split; [done|]. apply in_seq. lia. }
  simpl in Hin. repeat (destruct Hin as [<-|Hin]; [reflexivity|]). done.
Qed.

Lemma hex_digits_bytes n : Forall (λ b, ip_byte b = true) (hex_digits n).
Proof.
  unfold hex_digits. assert (Forall (λ b, ip_byte b = true) []) as Hacc by constructor.
  revert n Hacc. generalize (@nil byte). generalize 8. intros fuel.
  induction fuel as [|fuel IH]; intros acc n Hacc; simpl; [done|].
  assert (Forall (λ b, ip_byte b = true) (hex_digit (n mod 16) :: acc)).
  { constructor; [|done]. apply hex_digit_byte. by apply N.mod_lt. }
  destruct (N.ltb n 16); auto.
Qed.

Lemma segments_fmt_bytes l : Forall (λ b, ip_byte b = true) (segments_fmt l).
Proof.
  apply byte_join_Forall; [by repeat constructor|]. apply Forall_fmap, Forall_true.
  intros n. apply hex_digits_bytes.
Qed.

Lemma IpAddr_fmt_bytes a : ip_wf a → Forall (λ b, ip_byte b = true) (IpAddr_fmt a).
Proof.
  assert (∀ o, ip_wf (V4 o) → Forall (λ b, ip_byte b = true) (ipv4_fmt o)) as H4.
  { intros o Ho. eapply Forall_impl; [by apply ipv4_fmt_bytes|]. intros b. by destruct b. }
  destruct a as [o|s]; [apply H4|]. intros Hwf. simpl. unfold ipv6_fmt.
  destruct (to_ipv4_mapped s) as [o|] eqn:Hm.
  { apply Forall_app. split; [by repeat constructor|]. by apply H4, (to_ipv4_mapped_some s). }
  destruct (longest_zeroes _ _ _ _) as [start n]. case_bool_decide; [|apply segments_fmt_bytes].
  rewrite !Forall_app. split_and!; [apply segments_fmt_bytes|by repeat constructor|
    apply segments_fmt_bytes].
Qed.
