(* ===== verification/Versions.v ===== *)
(** * R package versions ([rsolve-core/src/r_versions.rs])

    Parsing of dotted or dashed numeric versions into [u32] components, the
    inline/spilled component store, and the numeric-version order in which
    trailing zero components do not count. *)

From S2P Require Import Prelude RustStd Collections.

(** ** The component store *)

(** [Components]: [Inline] is the array of eight [u32]s with a length byte. *)
Inductive Components :=
| Inline (values : list N) (len : N)
| Spill (values : list N).

Definition Components_from_vec (values : list N) : Components :=
  if bool_decide (length values ≤ 8)
  then Inline (values ++ replicate (8 - length values) 0%N) (N.of_nat (length values) mod 256)
  else Spill values.

Definition Components_len (c : Components) : nat :=
  match c with
  | Inline _ len => N.to_nat len
  | Spill values => length values
  end.

(** Indexing a slice panics out of bounds; [0] stands for that case, which
    [Components_get_in_bounds] excludes for every index the code uses. *)
Definition Components_get (c : Components) (index : nat) : N :=
  match c with
  | Inline values _ => default 0%N (values !! index)
  | Spill values => default 0%N (values !! index)
  end.

(** The [while] loop of [canonical_len], from a given [len] down. *)
Fixpoint Components_canonical_len_from (c : Components) (len : nat) : nat :=
  match len with
  | 0 => 0
  | S len' =>
    if N.eqb (Components_get c len') 0 then Components_canonical_len_from c len' else len
  end.

Definition Components_canonical_len (c : Components) : nat :=
  Components_canonical_len_from c (Components_len c).

Definition Components_iter (c : Components) : list N :=
  Components_get c <$> seq 0 (Components_canonical_len c).

(** ** Versions *)

Record RPackageVersion := mk_RPackageVersion {
  version_raw : string;
  version_components : Components;
}.

Inductive RPackageVersionError :=
| VersionEmpty
| EmptyComponent (index : nat)
| NonNumericComponent (index : nat)
| ComponentOverflow (index : nat)
| TooFewComponents (found minimum : nat).

Definition RPackageVersionError_fmt (e : RPackageVersionError) : string :=
  match e with
  | VersionEmpty => "R version is empty"
  | EmptyComponent index => "R version component " +:+ nat_to_string index +:+ " is empty"
  | NonNumericComponent index =>
    "R version component " +:+ nat_to_string index +:+ " is not numeric"
  | ComponentOverflow index =>
    "R version component " +:+ nat_to_string index +:+ " overflows u32"
  | TooFewComponents found minimum =>
    "R version has " +:+ nat_to_string found +:+ " component(s), minimum is "
      +:+ nat_to_string minimum
  end.

Definition is_version_separator (b : byte) : bool :=
  bool_decide (u8 b = 46%N) || bool_decide (u8 b = 45%N).

(** The inner loop over the bytes of one component. *)
Fixpoint parse_component (index : nat) (value : N) (l : list byte) :
    result N RPackageVersionError :=
  match l with
  | [] => Ok value
  | b :: l =>
    if is_ascii_digit b then
      let? value := ok_or (ComponentOverflow index)
        (value10 ← u32_checked_mul value 10; u32_checked_add value10 (u8 b - 48)) in
      parse_component index value l
    else Err (NonNumericComponent index)
  end.

(** The outer loop over the enumerated components. *)
Fixpoint parse_components (index : nat) (l : list string) :
    result (list N) RPackageVersionError :=
  match l with
  | [] => Ok []
  | component :: l =>
    if bool_decide (component = "") then Err (EmptyComponent index)
    else
      let? value := parse_component index 0 (bytes component) in
      let? values := parse_components (S index) l in
      Ok (value :: values)
  end.

Definition RPackageVersion_parse_with_minimum (input : string) (minimum : nat) :
    result RPackageVersion RPackageVersionError :=
  if bool_decide (input = "") then Err VersionEmpty
  else
    let? components := parse_components 0 (str_split is_version_separator input) in
    if bool_decide (length components < minimum)
    then Err (TooFewComponents (length components) minimum)
    else Ok (mk_RPackageVersion input (Components_from_vec components)).

Definition RPackageVersion_parse (input : string) := RPackageVersion_parse_with_minimum input 2.
Definition RPackageVersion_parse_bare (input : string) :=
  RPackageVersion_parse_with_minimum input 1.

Definition RPackageVersion_as_str (v : RPackageVersion) : string := version_raw v.
Definition RPackageVersion_fmt (v : RPackageVersion) : string := version_raw v.

Definition RPackageVersion_components (v : RPackageVersion) : list N :=
  Components_get (version_components v) <$> seq 0 (Components_len (version_components v)).

Definition RPackageVersion_canonical_component_count (v : RPackageVersion) : nat :=
  Components_canonical_len (version_components v).

Definition RPackageVersion_cmp (v w : RPackageVersion) : comparison :=
  lex_cmp N.compare (Components_iter (version_components v))
    (Components_iter (version_components w)).

Definition RPackageVersion_eq (v w : RPackageVersion) : bool := is_eq (RPackageVersion_cmp v w).
#[export] Instance req_version : PartialEq RPackageVersion := RPackageVersion_eq.

(** The values fed to the [Hasher], in order. *)
Definition RPackageVersion_hash (v : RPackageVersion) : list N :=
  N.of_nat (Components_canonical_len (version_components v))
    :: Components_iter (version_components v).

(** ** The component store is transparent *)

(** A sequence without its trailing zeros. *)
Fixpoint strip_zeros (l : list N) : list N :=
  match l with
  | [] => []
  | x :: l => match strip_zeros l with
              | [] => if N.eqb x 0 then [] else [x]
              | l' => x :: l'
              end
  end.

(** The store as built by [from_vec]: an inline array has exactly eight cells
    and its length byte does not exceed them. *)
Definition Components_wf (c : Components) : Prop :=
  match c with
  | Inline values len => length values = 8 ∧ (len ≤ 8)%N
  | Spill values => 8 < length values
  end.

Definition RPackageVersion_wf (v : RPackageVersion) : Prop :=
  Components_wf (version_components v).

Definition Components_values (c : Components) : list N :=
  match c with
  | Inline values len => take (N.to_nat len) values
  | Spill values => values
  end.

Lemma Components_from_vec_wf values : Components_wf (Components_from_vec values).
Proof.
  unfold Components_from_vec. case_bool_decide; simpl; [|lia].
  rewrite length_app, length_replicate, N.mod_small by lia. split; lia.
Qed.

Lemma Components_values_from_vec values : Components_values (Components_from_vec values) = values.
Proof.
  unfold Components_from_vec. case_bool_decide; simpl; [|done].
  rewrite N.mod_small, Nat2N.id by lia. apply take_app_length.
Qed.

Lemma Components_len_values c : Components_wf c → Components_len c = length (Components_values c).
Proof. destruct c; simpl; [|done]. intros []. rewrite length_take. lia. Qed.

(** Every access of the loops is in bounds, so no slice index panics. *)
Lemma Components_get_in_bounds c i :
  Components_wf c → i < Components_len c → Components_values c !! i = Some (Components_get c i).
Proof.
  destruct c as [values len|values]; simpl.
  - intros [Hlen ?] Hi. rewrite lookup_take_lt by done.
    destruct (lookup_lt_is_Some_2 values i) as [x ->]; [lia|done].
  - intros _ Hi. by destruct (lookup_lt_is_Some_2 values i Hi) as [x ->].
Qed.

Lemma Components_get_seq c n :
  Components_wf c → n ≤ Components_len c →
  Components_get c <$> seq 0 n = take n (Components_values c).
Proof.
  intros Hwf Hn. apply list_eq. intros i. rewrite list_lookup_fmap.
  destruct (decide (i < n)).
  - rewrite lookup_seq_lt, lookup_take_lt by done. simpl.
    rewrite Components_get_in_bounds; [done..|lia].
  - rewrite lookup_seq_ge, lookup_take_ge by lia. done.
Qed.

Lemma RPackageVersion_components_values v :
  RPackageVersion_wf v → RPackageVersion_components v = Components_values (version_components v).
Proof.
  intros Hv. unfold RPackageVersion_components. rewrite Components_get_seq by done.
  apply take_ge. by rewrite Components_len_values.
Qed.

Lemma strip_zeros_snoc l x :
  strip_zeros (l ++ [x]) = if N.eqb x 0 then strip_zeros l else l ++ [x].
Proof.
  induction l as [|y l IH]; simpl; [done|]. rewrite IH. destruct (N.eqb x 0); [done|].
  by destruct l.
Qed.

Lemma canonical_len_from_strip c n :
  Components_wf c → n ≤ Components_len c →
  take (Components_canonical_len_from c n) (Components_values c)
    = strip_zeros (take n (Components_values c)) ∧ Components_canonical_len_from c n ≤ n.
Proof.
  intros Hwf. induction n as [|n IH]; intros Hn; simpl; [done|].
  erewrite take_S_r by (apply Components_get_in_bounds; [done|lia]).
  rewrite strip_zeros_snoc. destruct (N.eqb _ 0) eqn:E.
  - destruct IH as [-> ?]; [lia|]. split; [done|lia].
  - split; [|lia]. by rewrite <-take_S_r by (apply Components_get_in_bounds; [done|lia]).
Qed.

Lemma Components_iter_strip c : Components_wf c → Components_iter c = strip_zeros (Components_values c).
Proof.
  intros Hwf. unfold Components_iter, Components_canonical_len.
  destruct (canonical_len_from_strip c (Components_len c)) as [Htake Hle]; [done..|].
  rewrite Components_get_seq by done. rewrite Htake, take_ge; [done|].
  by rewrite Components_len_values.
Qed.

Lemma length_Components_iter c : length (Components_iter c) = Components_canonical_len c.
Proof. unfold Components_iter. by rewrite length_fmap, length_seq. Qed.

(** ** Equality and order *)

#[global] Typeclasses Opaque RPackageVersion_cmp.
#[export] Instance RPackageVersion_cmp_order : CmpOrder RPackageVersion_cmp :=
  cmp_on_order (λ v, Components_iter (version_components v)) (lex_cmp N.compare).

Lemma version_req_iter v w :
  v ≈ w ↔ Components_iter (version_components v) = Components_iter (version_components w).
Proof.
  unfold req_rel, req, req_version, RPackageVersion_eq, RPackageVersion_cmp. split.
  - intros H. apply (cmp_eq_leibniz (lex_cmp N.compare)). by destruct (lex_cmp _ _ _).
  - intros ->. by rewrite (cmp_refl (lex_cmp N.compare)).
Qed.

#[export] Instance req_version_equivalence : RustEq RPackageVersion.
Proof.
  split.
  - intros v. by apply version_req_iter.
  - intros v w. apply eq_true_iff_eq. change (v ≈ w ↔ w ≈ v). rewrite !version_req_iter. done.
  - intros u v w. change (u ≈ v → v ≈ w → u ≈ w). rewrite !version_req_iter. congruence.
Qed.

Lemma version_cmp_eq v w : RPackageVersion_cmp v w = Eq ↔ v ≈ w.
Proof.
  unfold req_rel, req, req_version, RPackageVersion_eq. by destruct (RPackageVersion_cmp v w).
Qed.

#[export] Instance RPackageVersion_cmp_proper :
  Proper ((≈) ==> (≈) ==> (=)) RPackageVersion_cmp.
Proof.
  intros v v' Hv%version_cmp_eq w w' Hw%version_cmp_eq.
  rewrite (cmp_eq_l RPackageVersion_cmp v v' w Hv).
  exact (cmp_eq_r RPackageVersion_cmp w w' v' Hw).
Qed.

(** [numeric_version] semantics, written directly on the components: compare
    position by position, reading a missing component as zero. *)
Definition zero_padded (n : nat) (l : list N) : list N := l ++ replicate (n - length l) 0%N.

Definition numeric_version_cmp (l k : list N) : comparison :=
  let n := Nat.max (length l) (length k) in
  lex_cmp N.compare (zero_padded n l) (zero_padded n k).

Lemma strip_zeros_padded n l : strip_zeros (zero_padded n l) = strip_zeros l.
Proof.
  unfold zero_padded. generalize (n - length l). intros m.
  induction m as [|m IH]; simpl; [by rewrite app_nil_r|].
  rewrite replicate_cons_app, app_assoc, strip_zeros_snoc. done.
Qed.

Lemma strip_zeros_cmp l k :
  length l = length k → lex_cmp N.compare (strip_zeros l) (strip_zeros k) = lex_cmp N.compare l k.
Proof.
  revert k. induction l as [|x l IH]; intros [|y k] Hlen; simplify_eq/=; [done|].
  specialize (IH k Hlen). rewrite <-IH.
  destruct (strip_zeros l) as [|a l'], (strip_zeros k) as [|b k']; simpl.
  - destruct (N.eqb_spec x 0) as [->|], (N.eqb_spec y 0) as [->|]; simpl; try done.
    + destruct y; done.
    + destruct x; done.
  - destruct (N.eqb_spec x 0) as [->|]; simpl; [|done]. by destruct y.
  - destruct (N.eqb_spec y 0) as [->|]; simpl; [|done]. by destruct x.
  - done.
Qed.

Lemma lex_cmp_nil_zeros n : strip_zeros (replicate n 0%N) = [].
Proof. induction n as [|n IH]; simpl; [done|]. by rewrite IH. Qed.

Lemma version_cmp_numeric_eq v w :
  RPackageVersion_wf v → RPackageVersion_wf w →
  RPackageVersion_cmp v w
    = numeric_version_cmp (RPackageVersion_components v) (RPackageVersion_components w).
Proof.
  intros Hv Hw. unfold RPackageVersion_cmp, numeric_version_cmp.
  rewrite !RPackageVersion_components_values, !Components_iter_strip by done.
  rewrite <-(strip_zeros_padded (Nat.max (length (Components_values (version_components v)))
    (length (Components_values (version_components w)))) (Components_values (version_components v))),
    <-(strip_zeros_padded (Nat.max (length (Components_values (version_components v)))
    (length (Components_values (version_components w)))) (Components_values (version_components w))).
  apply strip_zeros_cmp. unfold zero_padded. rewrite !length_app, !length_replicate. lia.
Qed.

(** C36: the order of versions is the numeric-version order of their components
    (a missing component counts as zero). *)
Theorem version_cmp_numeric v w :
  RPackageVersion_wf v → RPackageVersion_wf w →
  RPackageVersion_cmp v w
    = numeric_version_cmp (RPackageVersion_components v) (RPackageVersion_components w).
Proof. apply version_cmp_numeric_eq. Qed.

(** Two versions hash alike exactly when they are equal, whatever their
    spelling and trailing zeros. *)
Theorem version_hash_eq v w : v ≈ w ↔ RPackageVersion_hash v = RPackageVersion_hash w.
Proof.
  rewrite version_req_iter. unfold RPackageVersion_hash. split; [|by intros [=]].
  intros E. by rewrite <-!length_Components_iter, E.
Qed.

(** ** Parsing *)

Definition digit_value (b : byte) : N := u8 b - 48.
Definition digits_value_from (acc : N) (l : list byte) : N :=
  foldl (λ v b, v * 10 + digit_value b)%N acc l.
Definition digits_value (l : list byte) : N := digits_value_from 0 l.

Definition all_digits (l : list byte) : Prop := Forall (λ b, is_ascii_digit b = true) l.

(** What a component must be for its value to be read. *)
Definition component_value (component : string) (value : N) : Prop :=
  component ≠ "" ∧ all_digits (bytes component) ∧ value = digits_value (bytes component) ∧
  (value ≤ u32_max)%N.

Lemma digits_value_from_mono acc l : (acc ≤ digits_value_from acc l)%N.
Proof.
  unfold digits_value_from. revert acc. induction l as [|b l IH]; intros acc; simpl; [lia|].
  etrans; [|apply IH]. lia.
Qed.

Lemma checked_some bound n m : checked bound n = Some m ↔ (n ≤ bound)%N ∧ m = n.
Proof. unfold checked. destruct (N.leb_spec n bound); naive_solver lia. Qed.

Lemma checked_none bound n : checked bound n = None ↔ (bound < n)%N.
Proof. unfold checked. destruct (N.leb_spec n bound); naive_solver lia. Qed.

Lemma checked_step_some value d m :
  (value10 ← u32_checked_mul value 10; u32_checked_add value10 d) = Some m
    ↔ (value * 10 + d ≤ u32_max)%N ∧ m = (value * 10 + d)%N.
Proof.
  unfold u32_checked_mul, u32_checked_add. rewrite bind_Some.
  setoid_rewrite checked_some. split.
  - intros (x & [? ->] & ? & ->). done.
  - intros [? ->]. exists (value * 10)%N. repeat split; lia.
Qed.

Lemma checked_step_none value d :
  (value10 ← u32_checked_mul value 10; u32_checked_add value10 d) = None
    ↔ (u32_max < value * 10 + d)%N.
Proof.
  destruct (value10 ← u32_checked_mul value 10; u32_checked_add value10 d) as [m|] eqn:E.
  - apply checked_step_some in E as [? _]. split; [done|lia].
  - split; [intros _|done]. apply N.lt_nge. intros Hle.
    assert (None = Some (value * 10 + d)%N) as [=].
    { rewrite <-E. by apply checked_step_some. }
Qed.

Lemma parse_component_ok index value l v :
  parse_component index value l = Ok v →
  all_digits l ∧ v = digits_value_from value l ∧ ((value ≤ u32_max) → v ≤ u32_max)%N.
Proof.
  revert value. induction l as [|b l IH]; intros value; simpl.
  - intros [= <-]. by repeat constructor.
  - destruct (is_ascii_digit b) eqn:Hb; [|done].
    rewrite result_bind_ok. intros (m & Hm & Hv).
    unfold ok_or in Hm. case_match eqn:E; [|done]. simplify_eq.
    apply checked_step_some in E as [Hle ->]. apply IH in Hv as (? & -> & Hb').
    split_and!; [by constructor | done | auto].
Qed.

Lemma parse_component_complete index value l :
  all_digits l → (digits_value_from value l ≤ u32_max)%N →
  parse_component index value l = Ok (digits_value_from value l).
Proof.
  intros Hl. revert value. induction Hl as [|b l Hb _ IH]; intros value Hv; simpl; [done|].
  rewrite Hb. change (digits_value_from value (b :: l))
    with (digits_value_from (value * 10 + digit_value b)%N l) in *.
  pose proof (digits_value_from_mono (value * 10 + digit_value b) l) as Hm.
  rewrite (proj2 (checked_step_some value (u8 b - 48) _))
    by (split; [unfold digit_value in *; lia | done]).
  simpl. by apply IH.
Qed.

Lemma parse_component_spec index c v :
  parse_component index 0 (bytes c) = Ok v ∧ c ≠ "" ↔ component_value c v.
Proof.
  unfold component_value. split.
  - intros [(? & -> & Hv)%parse_component_ok ?]. split_and!; [done..|apply Hv; lia].
  - intros (? & ? & -> & ?). split; [|done]. by apply parse_component_complete.
Qed.

Lemma parse_components_ok index l values :
  parse_components index l = Ok values ↔ Forall2 component_value l values.
Proof.
  revert index values. induction l as [|c l IH]; intros index values; simpl.
  { split; [intros [= <-]; constructor | by inversion 1]. }
  case_bool_decide as Hc.
  { split; [done|]. inversion 1 as [|? ? ? ? (? & _)]; subst. done. }
  rewrite result_bind_ok. setoid_rewrite result_bind_ok. split.
  - intros (v & Hv & vs & Hvs%IH & [= <-]). constructor; [|done].
    by apply (parse_component_spec index).
  - inversion 1 as [|? v ? vs Hv Hvs]; subst.
    apply (parse_component_spec index) in Hv as [Hv _]. exists v. split; [done|].
    exists vs. split; [by apply IH|done].
Qed.

(** Why a component is rejected, given its position. *)
Definition component_rejected (index : nat) (c : string) (e : RPackageVersionError) : Prop :=
  match e with
  | EmptyComponent i => i = index ∧ c = ""
  | NonNumericComponent i => i = index ∧ ∃ ds b rest,
      bytes c = ds ++ b :: rest ∧ all_digits ds ∧ (digits_value ds ≤ u32_max)%N ∧
      is_ascii_digit b = false
  | ComponentOverflow i => i = index ∧ ∃ ds b rest,
      bytes c = ds ++ b :: rest ∧ all_digits (ds ++ [b]) ∧ (digits_value ds ≤ u32_max)%N ∧
      (u32_max < digits_value (ds ++ [b]))%N
  | _ => False
  end.

Lemma parse_component_err index value l e :
  (value ≤ u32_max)%N →
  parse_component index value l = Err e ↔ ∃ ds b rest,
    l = ds ++ b :: rest ∧ all_digits ds ∧ (digits_value_from value ds ≤ u32_max)%N ∧
    ((e = NonNumericComponent index ∧ is_ascii_digit b = false) ∨
     (e = ComponentOverflow index ∧ is_ascii_digit b = true ∧
        (u32_max < digits_value_from value (ds ++ [b]))%N)).
Proof.
  revert value. induction l as [|b l IH]; intros value Hv; simpl.
  { split; [done|]. intros ([] & ? & ? & [=] & _). }
  destruct (is_ascii_digit b) eqn:Hb; last first.
  { split.
    - intros [= <-]. exists [], b, l. repeat split; [constructor|done|by left].
    - intros ([|d ds] & b' & rest & [= <- ->] & Hds & _ & H).
      + by destruct H as [[-> _]|(_ & ? & _)]; [|congruence].
      + inversion Hds; congruence. }
  unfold ok_or. case_match eqn:E; simpl.
  - apply checked_step_some in E as [Hle ->]. rewrite IH by done. split.
    + intros (ds & b' & rest & -> & Hds & Hb' & H). exists (b :: ds), b', rest.
      split_and!; [done | by constructor | done..].
    + intros ([|d ds] & b' & rest & [= <- ->] & Hds & Hb' & H).
      * destruct H as [[_ ?]|(_ & _ & H)]; [congruence|].
        exfalso. simpl in H. unfold digit_value in *. lia.
      * inversion Hds; subst. by exists ds, b', rest.
  - apply checked_step_none in E. split.
    + intros [= <-]. exists [], b, l. split_and!; [done|constructor|done|right].
      split_and!; [done..|]. simpl. unfold digit_value. lia.
    + intros ([|d ds] & b' & rest & [= <- ->] & Hds & Hb' & H).
      * by destruct H as [[_ ?]|(-> & _ & _)]; [congruence|].
      * exfalso. revert Hb'. apply N.lt_nge. eapply N.lt_le_trans; [exact E|].
        apply (digits_value_from_mono (value * 10 + digit_value b)).
Qed.

Lemma all_digits_app ds b :
  all_digits (ds ++ [b]) ↔ all_digits ds ∧ is_ascii_digit b = true.
Proof. unfold all_digits. rewrite Forall_app, Forall_singleton. done. Qed.

Lemma component_rejected_spec index c e :
  (if bool_decide (c = "") then e = EmptyComponent index
   else parse_component index 0 (bytes c) = Err e) ↔ component_rejected index c e.
Proof.
  case_bool_decide as Hc.
  { subst. split; [by intros ->|]. destruct e; simpl; try done; [naive_solver|..];
      intros (_ & [] & ? & ? & [=] & _). }
  rewrite parse_component_err by (unfold u32_max; lia). split.
  - intros (ds & b & rest & Hb & Hds & Hle & H).
    destruct H as [[-> ?]|(-> & ? & ?)]; simpl; (split; [done|]); exists ds, b, rest;
      rewrite ?all_digits_app; done.
  - destruct e; simpl; try done; [naive_solver|..]; intros (-> & ds & b & rest & H);
      rewrite ?all_digits_app in H; exists ds, b, rest; naive_solver.
Qed.

Lemma parse_components_err index l e :
  parse_components index l = Err e ↔ ∃ before c after values,
    l = before ++ c :: after ∧ Forall2 component_value before values ∧
    component_rejected (index + length before) c e.
Proof.
  revert index. induction l as [|c l IH]; intros index; simpl.
  { split; [done|]. intros ([] & ? & ? & ? & [=] & _). }
  pose proof (component_rejected_spec index c e) as Hrej.
  case_bool_decide as Hc.
  { split.
    - intros [= <-]. exists [], c, l, []. rewrite Nat.add_0_r. split_and!; [done|constructor|].
      by apply Hrej.
    - intros ([|c' before] & ? & ? & values & [= <- ->] & Hb & Hr).
      + rewrite Nat.add_0_r in Hr. f_equal. symmetry. by apply Hrej.
      + inversion Hb as [|? ? ? ? (? & _)]; subst. done. }
  rewrite result_bind_err, Hrej. setoid_rewrite result_bind_err. setoid_rewrite IH. split.
  - intros [H|(v & Hv & [(before & c' & after & values & -> & Hb & Hr)|(? & _ & [=])])].
    + exists [], c, l, []. rewrite Nat.add_0_r. split_and!; [done|constructor|done].
    + exists (c :: before), c', after, (v :: values). split_and!; [done| |].
      * constructor; [|done]. by apply (parse_component_spec index).
      * simpl. by rewrite Nat.add_succ_r.
  - intros ([|c' before] & c'' & after & values & [= <- ->] & Hb & Hr).
    + left. by rewrite Nat.add_0_r in Hr.
    + inversion Hb as [|? v ? vs Hv Hvs]; subst. right. exists v.
      split; [by apply (parse_component_spec index)|]. left.
      exists before, c'', after, vs. split_and!; [done..|]. simpl in Hr. by rewrite Nat.add_succ_r in Hr.
Qed.

Lemma parse_ok_iff input minimum v :
  RPackageVersion_parse_with_minimum input minimum = Ok v ↔
    input ≠ "" ∧ ∃ values,
      Forall2 component_value (str_split is_version_separator input) values ∧
      minimum ≤ length values ∧
      v = mk_RPackageVersion input (Components_from_vec values).
Proof.
  unfold RPackageVersion_parse_with_minimum. case_bool_decide as Hin; [naive_solver|].
  rewrite result_bind_ok. setoid_rewrite parse_components_ok. split.
  - intros (values & Hvs & Hv). split; [done|]. exists values.
    case_bool_decide; simplify_eq. split_and!; [done|lia|done].
  - intros (_ & values & Hvs & Hmin & ->). exists values. split; [done|].
    by rewrite bool_decide_eq_false_2 by lia.
Qed.

Lemma parse_wf input minimum v :
  RPackageVersion_parse_with_minimum input minimum = Ok v → RPackageVersion_wf v.
Proof. intros (_ & values & _ & _ & ->)%parse_ok_iff. apply Components_from_vec_wf. Qed.

(** A version parses exactly when it is non-empty, every component between
    separators is a decimal number of 32 bits and there are enough of them; the
    value keeps the spelling and those numbers. *)
Theorem parse_with_minimum_ok input minimum v :
  RPackageVersion_parse_with_minimum input minimum = Ok v ↔
    input ≠ "" ∧ ∃ values,
      Forall2 component_value (str_split is_version_separator input) values ∧
      minimum ≤ length values ∧
      v = mk_RPackageVersion input (Components_from_vec values).
Proof. apply parse_ok_iff. Qed.

(** Each parse error is reported exactly in its case, and names the first
    offending component: empty, not numeric, or larger than 32 bits; too few
    components are reported only when all of them are numbers. *)
Theorem parse_with_minimum_err input minimum e :
  RPackageVersion_parse_with_minimum input minimum = Err e ↔
    (input = "" ∧ e = VersionEmpty) ∨
    (input ≠ "" ∧ ∃ before c after values,
       str_split is_version_separator input = before ++ c :: after ∧
       Forall2 component_value before values ∧ component_rejected (length before) c e) ∨
    (input ≠ "" ∧ ∃ values,
       Forall2 component_value (str_split is_version_separator input) values ∧
       length values < minimum ∧ e = TooFewComponents (length values) minimum).
Proof.
  unfold RPackageVersion_parse_with_minimum. case_bool_decide as Hin; [naive_solver|].
  rewrite result_bind_err, parse_components_err. setoid_rewrite parse_components_ok. simpl.
  split.
  - intros [H|(values & Hvs & Hv)]; [naive_solver|]. right; right. split; [done|].
    exists values. case_bool_decide; simplify_eq. done.
  - intros [[? _]|[[_ H]|(_ & values & Hvs & Hlt & ->)]]; [done|by left|right].
    exists values. split; [done|]. by rewrite bool_decide_eq_true_2.
Qed.
