(* ===== verification/Names.v ===== *)
(** * Validated names ([rsolve-core/src/names.rs], [environment.rs])

    String newtypes whose constructors validate (and for hexadecimal ones
    canonicalise) their input.  Git URLs are in [GitUrl]. *)

From S2P Require Import Prelude RustStd Collections.

(** [slice::iter().all]/[any] and [enumerate().find]. *)
Definition all_bytes (p : byte → bool) (s : string) : bool := forallb p (bytes s).

Definition is_byte (n : N) (b : byte) : bool := N.eqb (u8 b) n.

(** ** Package names *)

Record PackageName := mk_PackageName { PackageName_as_str : string }.

Inductive PackageNameError :=
| PackageNameEmpty
| InvalidFirstCharacter
| InvalidCharacter (index : nat)
| TrailingPeriod.

Definition PackageNameError_fmt (e : PackageNameError) : string :=
  match e with
  | PackageNameEmpty => "package name is empty"
  | InvalidFirstCharacter => "package name must start with a letter"
  | InvalidCharacter index => "package name has an invalid character at " +:+ nat_to_string index
  | TrailingPeriod => "package name must not end with a period"
  end.

(** The byte loop: the index of the first byte outside the alphabet. *)
Fixpoint first_invalid (p : byte → bool) (index : nat) (l : list byte) : option nat :=
  match l with
  | [] => None
  | b :: l => if p b then first_invalid p (S index) l else Some index
  end.

Definition is_package_name_byte (b : byte) : bool := is_ascii_alphanumeric b || is_byte 46 b.

Definition PackageName_new (input : string) : result PackageName PackageNameError :=
  match bytes input with
  | [] => Err PackageNameEmpty
  | first :: _ =>
    if negb (is_ascii_alphabetic first) then Err InvalidFirstCharacter
    else match first_invalid is_package_name_byte 0 (bytes input) with
    | Some index => Err (InvalidCharacter index)
    | None =>
      if match last (bytes input) with Some b => is_byte 46 b | None => false end
      then Err TrailingPeriod
      else Ok (mk_PackageName input)
    end
  end.

Definition PackageName_cmp : PackageName → PackageName → comparison :=
  cmp_on PackageName_as_str str_cmp.

(** ** Opaque identifiers: the [opaque_identifier!] macro *)

Inductive IdentifierKind :=
| KPackageNamespace | KBioconductorRelease | KRepositoryId | KRegistryId | KSnapshotId
| KArtifactLocator | KDistributionChannel | KSourceScheme.

Record Identifier (kind : IdentifierKind) := mk_Identifier { Identifier_as_str : string }.
Arguments mk_Identifier {kind}.
Arguments Identifier_as_str {kind}.

(** [stringify!($name)]. *)
Definition IdentifierKind_name (kind : IdentifierKind) : string :=
  match kind with
  | KPackageNamespace => "PackageNamespace"
  | KBioconductorRelease => "BioconductorRelease"
  | KRepositoryId => "RepositoryId"
  | KRegistryId => "RegistryId"
  | KSnapshotId => "SnapshotId"
  | KArtifactLocator => "ArtifactLocator"
  | KDistributionChannel => "DistributionChannel"
  | KSourceScheme => "SourceScheme"
  end.

Abbreviation PackageNamespace := (Identifier KPackageNamespace).
Abbreviation BioconductorRelease := (Identifier KBioconductorRelease).
Abbreviation RepositoryId := (Identifier KRepositoryId).
Abbreviation RegistryId := (Identifier KRegistryId).
Abbreviation SnapshotId := (Identifier KSnapshotId).
Abbreviation ArtifactLocator := (Identifier KArtifactLocator).
Abbreviation DistributionChannel := (Identifier KDistributionChannel).
Abbreviation SourceScheme := (Identifier KSourceScheme).

Inductive IdentifierError :=
| IdentifierEmpty (kind : string)
| IdentifierControlCharacter (kind : string).

Definition IdentifierError_fmt (e : IdentifierError) : string :=
  match e with
  | IdentifierEmpty kind => kind +:+ " is empty"
  | IdentifierControlCharacter kind => kind +:+ " contains a control character"
  end.

Definition Identifier_new (kind : IdentifierKind) (input : string) :
    result (Identifier kind) IdentifierError :=
  if bool_decide (input = "") then Err (IdentifierEmpty (IdentifierKind_name kind))
  else if existsb char_is_control (chars input)
  then Err (IdentifierControlCharacter (IdentifierKind_name kind))
  else Ok (mk_Identifier input).

Definition Identifier_cmp {kind} : Identifier kind → Identifier kind → comparison :=
  cmp_on Identifier_as_str str_cmp.

(** ** Git object ids *)

Inductive GitHashAlgorithm := Sha1 | Sha256.

Record GitCommitId := mk_GitCommitId {
  GitCommitId_algorithm : GitHashAlgorithm;
  GitCommitId_as_str : string;
}.

Inductive GitCommitIdError :=
| GitWrongLength (found : nat)
| GitNonHexadecimal
| GitNullObject.

Definition GitCommitIdError_fmt (e : GitCommitIdError) : string :=
  match e with
  | GitWrongLength found =>
    "Git commit OID has invalid length " +:+ nat_to_string found +:+ "; expected 40 or 64"
  | GitNonHexadecimal => "Git commit OID is not hexadecimal"
  | GitNullObject => "Git commit OID must not be Git's null object"
  end.

Definition GitCommitId_new (input : string) : result GitCommitId GitCommitIdError :=
  let? algorithm := match str_len input with
                    | 40 => Ok Sha1
                    | 64 => Ok Sha256
                    | found => Err (GitWrongLength found)
                    end in
  if negb (all_bytes is_ascii_hexdigit input) then Err GitNonHexadecimal
  else if all_bytes (is_byte 48) input then Err GitNullObject
  else Ok (mk_GitCommitId algorithm (to_ascii_lowercase input)).

(** ** SHA-256 digests *)

Record Sha256Digest := mk_Sha256Digest { Sha256Digest_as_str : string }.

Inductive DigestError :=
| DigestWrongLength (found : nat)
| DigestNonHexadecimal.

Definition DigestError_fmt (e : DigestError) : string :=
  match e with
  | DigestWrongLength found => "SHA-256 digest has length " +:+ nat_to_string found +:+ ", not 64"
  | DigestNonHexadecimal => "SHA-256 digest contains a non-hexadecimal byte"
  end.

Definition Sha256Digest_new (input : string) : result Sha256Digest DigestError :=
  if bool_decide (str_len input ≠ 64) then Err (DigestWrongLength (str_len input))
  else if negb (all_bytes is_ascii_hexdigit input) then Err DigestNonHexadecimal
  else Ok (mk_Sha256Digest (to_ascii_lowercase input)).

(** ** Repository subdirectories *)

Record RepositorySubdir := mk_RepositorySubdir { RepositorySubdir_as_str : string }.

Inductive RepositorySubdirError :=
| SubdirEmpty
| Absolute
| Backslash
| ControlCharacter (index : nat)
| SubdirEmptyComponent (index : nat)
| DotComponent (index : nat)
| ParentComponent (index : nat)
| WindowsDrivePrefix.

Definition RepositorySubdirError_fmt (e : RepositorySubdirError) : string :=
  match e with
  | SubdirEmpty => "repository subdirectory must not be empty"
  | Absolute => "repository subdirectory must be a relative path"
  | Backslash => "repository subdirectory must use slash separators"
  | ControlCharacter index =>
    "repository subdirectory contains a control character at " +:+ nat_to_string index
  | SubdirEmptyComponent index =>
    "repository subdirectory has an empty component at " +:+ nat_to_string index
  | DotComponent index =>
    "repository subdirectory has a non-canonical dot component at " +:+ nat_to_string index
  | ParentComponent index =>
    "repository subdirectory has a parent component at " +:+ nat_to_string index
  | WindowsDrivePrefix => "repository subdirectory must not have a Windows drive prefix"
  end.

Definition has_drive_prefix (component : list byte) : bool :=
  match component with
  | b0 :: b1 :: _ => is_ascii_alphabetic b0 && is_byte 58 b1
  | _ => false
  end.

(** The last loop: the first component that is not a plain name. *)
Fixpoint check_components (index : nat) (l : list string) : option RepositorySubdirError :=
  match l with
  | [] => None
  | component :: l =>
    if bool_decide (component = "") then Some (SubdirEmptyComponent index)
    else if bool_decide (component = ".") then Some (DotComponent index)
    else if bool_decide (component = "..") then Some (ParentComponent index)
    else check_components (S index) l
  end.

Definition RepositorySubdir_new (input : string) : result RepositorySubdir RepositorySubdirError :=
  if bool_decide (input = "") then Err SubdirEmpty
  else if match bytes input with b :: _ => is_byte 47 b | [] => false end then Err Absolute
  else if existsb (is_byte 92) (bytes input) then Err Backslash
  else match List.find (λ p, char_is_control p.2) (char_indices input) with
  | Some (index, _) => Err (ControlCharacter index)
  | None =>
    if match split_bytes (is_byte 47) (bytes input) with
       | first :: _ => has_drive_prefix first
       | [] => false
       end
    then Err WindowsDrivePrefix
    else match check_components 0 (str_split (is_byte 47) input) with
    | Some e => Err e
    | None => Ok (mk_RepositorySubdir input)
    end
  end.

(** ** Repository ranks *)

Record RepositoryRank := mk_RepositoryRank { RepositoryRank_ordinal : N }.

Definition RepositoryRank_new (ordinal : N) : RepositoryRank := mk_RepositoryRank ordinal.
Definition RepositoryRank_from_usize (ordinal : N) : option RepositoryRank :=
  mk_RepositoryRank <$> checked u64_max ordinal.
Definition RepositoryRank_cmp : RepositoryRank → RepositoryRank → comparison :=
  cmp_on RepositoryRank_ordinal N.compare.

(** ** Environment ids *)

Record EnvironmentId := mk_EnvironmentId { EnvironmentId_as_str : string }.

Inductive EnvironmentIdError :=
| EnvEmpty | EnvTooLong | EnvInvalidFirstCharacter | EnvInvalidCharacter | EnvControlOrWhitespace.

Definition EnvironmentIdError_fmt (e : EnvironmentIdError) : string :=
  match e with
  | EnvEmpty => "environment ID is empty"
  | EnvTooLong => "environment ID is longer than 64 characters"
  | EnvInvalidFirstCharacter =>
    "environment ID must start with a lowercase ASCII letter or digit"
  | EnvInvalidCharacter =>
    "environment ID may contain only lowercase ASCII letters, digits, `_`, and `-`"
  | EnvControlOrWhitespace => "environment ID contains control or whitespace characters"
  end.

Definition is_environment_byte (b : byte) : bool :=
  is_ascii_lowercase b || is_ascii_digit b || is_byte 95 b || is_byte 45 b.

Definition EnvironmentId_new (value : string) : result EnvironmentId EnvironmentIdError :=
  if bool_decide (value = "") then Err EnvEmpty
  else if existsb (λ c, char_is_control c || char_is_whitespace c) (chars value)
  then Err EnvControlOrWhitespace
  else if match bytes value with
          | b :: _ => negb (is_ascii_lowercase b) && negb (is_ascii_digit b)
          | [] => false
          end
  then Err EnvInvalidFirstCharacter
  else if negb (all_bytes is_environment_byte value) then Err EnvInvalidCharacter
  else if bool_decide (64 < str_len value) then Err EnvTooLong
  else Ok (mk_EnvironmentId value).

(** ** Normalised Git URLs (their constructor is [GitUrl.NormalizedGitUrl_new]) *)

Record NormalizedGitUrl := mk_NormalizedGitUrl { NormalizedGitUrl_as_str : string }.

(** ** Equality and order of the newtypes *)

#[export] Instance PackageName_eq_dec : EqDecision PackageName.
Proof. solve_decision. Defined.
#[export] Instance Identifier_eq_dec kind : EqDecision (Identifier kind).
Proof. solve_decision. Defined.
#[export] Instance GitHashAlgorithm_eq_dec : EqDecision GitHashAlgorithm.
Proof. solve_decision. Defined.
#[export] Instance GitCommitId_eq_dec : EqDecision GitCommitId.
Proof. solve_decision. Defined.
#[export] Instance Sha256Digest_eq_dec : EqDecision Sha256Digest.
Proof. solve_decision. Defined.
#[export] Instance RepositorySubdir_eq_dec : EqDecision RepositorySubdir.
Proof. solve_decision. Defined.
#[export] Instance RepositoryRank_eq_dec : EqDecision RepositoryRank.
Proof. solve_decision. Defined.
#[export] Instance EnvironmentId_eq_dec : EqDecision EnvironmentId.
Proof. solve_decision. Defined.
#[export] Instance NormalizedGitUrl_eq_dec : EqDecision NormalizedGitUrl.
Proof. solve_decision. Defined.

#[export] Instance req_PackageName : PartialEq PackageName := req_dec.
#[export] Instance req_PackageName_leibniz : LeibnizEq PackageName := req_dec_leibniz.
#[export] Instance req_Identifier kind : PartialEq (Identifier kind) := req_dec.
#[export] Instance req_Identifier_leibniz kind : LeibnizEq (Identifier kind) := req_dec_leibniz.
#[export] Instance req_GitCommitId : PartialEq GitCommitId := req_dec.
#[export] Instance req_GitCommitId_leibniz : LeibnizEq GitCommitId := req_dec_leibniz.
#[export] Instance req_Sha256Digest : PartialEq Sha256Digest := req_dec.
#[export] Instance req_Sha256Digest_leibniz : LeibnizEq Sha256Digest := req_dec_leibniz.
#[export] Instance req_RepositorySubdir : PartialEq RepositorySubdir := req_dec.
#[export] Instance req_RepositorySubdir_leibniz : LeibnizEq RepositorySubdir := req_dec_leibniz.
#[export] Instance req_RepositoryRank : PartialEq RepositoryRank := req_dec.
#[export] Instance req_RepositoryRank_leibniz : LeibnizEq RepositoryRank := req_dec_leibniz.
#[export] Instance req_EnvironmentId : PartialEq EnvironmentId := req_dec.
#[export] Instance req_EnvironmentId_leibniz : LeibnizEq EnvironmentId := req_dec_leibniz.
#[export] Instance req_NormalizedGitUrl : PartialEq NormalizedGitUrl := req_dec.
#[export] Instance req_NormalizedGitUrl_leibniz : LeibnizEq NormalizedGitUrl := req_dec_leibniz.

#[global] Typeclasses Opaque PackageName_cmp Identifier_cmp RepositoryRank_cmp.
#[export] Instance PackageName_cmp_order : CmpOrder PackageName_cmp :=
  cmp_on_order PackageName_as_str str_cmp.
#[export] Instance PackageName_cmp_leibniz : CmpLeibniz PackageName_cmp.
Proof. intros [s] [t] H. f_equal. by apply (cmp_eq_leibniz str_cmp). Qed.
#[export] Instance Identifier_cmp_order kind : CmpOrder (@Identifier_cmp kind) :=
  cmp_on_order Identifier_as_str str_cmp.
#[export] Instance Identifier_cmp_leibniz kind : CmpLeibniz (@Identifier_cmp kind).
Proof. intros [s] [t] H. f_equal. by apply (cmp_eq_leibniz str_cmp). Qed.
#[export] Instance RepositoryRank_cmp_order : CmpOrder RepositoryRank_cmp :=
  cmp_on_order RepositoryRank_ordinal N.compare.
#[export] Instance RepositoryRank_cmp_leibniz : CmpLeibniz RepositoryRank_cmp.
Proof. intros [s] [t] H. f_equal. by apply (cmp_eq_leibniz N.compare). Qed.

(** [name.as_str() == literal]. *)
Definition PackageName_is (literal : string) (n : PackageName) : bool :=
  bool_decide (PackageName_as_str n = literal).

(** ** What the constructors accept *)

Lemma forallb_Forall {A} (p : A → bool) (l : list A) : forallb p l = true ↔ Forall (λ x, p x = true) l.
Proof. by rewrite forallb_forall, Forall_forall; setoid_rewrite list_elem_of_In. Qed.

Lemma existsb_false_Forall {A} (p : A → bool) (l : list A) :
  existsb p l = false ↔ Forall (λ x, p x = false) l.
Proof.
  induction l as [|x l IH]; simpl; [by split|].
  rewrite orb_false_iff, Forall_cons, IH. done.
Qed.

Lemma first_invalid_none p i l : first_invalid p i l = None ↔ Forall (λ b, p b = true) l.
Proof.
  revert i. induction l as [|b l IH]; intros i; simpl; [by split|].
  rewrite Forall_cons. destruct (p b); [rewrite IH|]; naive_solver.
Qed.

Lemma first_invalid_some p i l n :
  first_invalid p i l = Some n ↔ ∃ before b after,
    l = before ++ b :: after ∧ Forall (λ b, p b = true) before ∧ p b = false ∧
    n = i + length before.
Proof.
  revert i. induction l as [|b l IH]; intros i; simpl.
  { split; [done|]. intros ([] & ? & ? & [=] & _). }
  destruct (p b) eqn:Hb.
  - rewrite IH. split.
    + intros (before & b' & after & -> & ? & ? & ->). exists (b :: before), b', after.
      repeat split; [by constructor | done | simpl; lia].
    + intros ([|b0 before] & b' & after & [= <- ->] & Hf & ? & ->); [congruence|].
      inversion Hf; subst. exists before, b', after. repeat split; [done..|simpl; lia].
  - split.
    + intros [= <-]. exists [], b, l. repeat split; [constructor | done | simpl; lia].
    + intros ([|b0 before] & b' & after & [= <- ->] & Hf & ? & ->); [simpl; f_equal; lia|].
      inversion Hf; congruence.
Qed.

(** R's rule for package names, as the documentation of [PackageName] states it. *)
Definition valid_package_name (s : string) : Prop :=
  (∃ b, head (bytes s) = Some b ∧ is_ascii_alphabetic b = true) ∧
  Forall (λ b, is_package_name_byte b = true) (bytes s) ∧
  (∀ b, last (bytes s) = Some b → is_byte 46 b = false).

Lemma PackageName_new_ok_iff s n :
  PackageName_new s = Ok n ↔ valid_package_name s ∧ n = mk_PackageName s.
Proof.
  unfold PackageName_new, valid_package_name.
  destruct (bytes s) as [|b l] eqn:Hs; [naive_solver|].
  destruct (is_ascii_alphabetic b) eqn:Hb; simpl head; cbn [negb]; [|naive_solver congruence].
  destruct (first_invalid _ 0 (b :: l)) as [i|] eqn:Hi.
  { split; [done|]. intros [(_ & Hf & _) _]. apply (first_invalid_none _ 0) in Hf. congruence. }
  apply first_invalid_none in Hi.
  destruct (last (b :: l)) as [e|] eqn:He; [|naive_solver].
  destruct (is_byte 46 e) eqn:Hp.
  - split; [done|]. intros [(_ & _ & Hl) _]. rewrite (Hl e) in Hp; done.
  - split; [intros [= <-]|by intros [_ ->]].
    split_and!; [by exists b | done | by intros ? [= <-] | done].
Qed.

Lemma PackageName_new_invalid_index s i :
  PackageName_new s = Err (InvalidCharacter i) →
  ∃ before b after, bytes s = before ++ b :: after ∧ length before = i ∧
    Forall (λ b, is_package_name_byte b = true) before ∧ is_package_name_byte b = false.
Proof.
  unfold PackageName_new. destruct (bytes s) as [|b l]; [done|].
  destruct (negb _); [done|]. destruct (first_invalid _ _ _) as [j|] eqn:Hj; [|by case_match].
  intros [= <-]. apply first_invalid_some in Hj as (before & b' & after & -> & ? & ? & ->).
  by exists before, b', after.
Qed.

Lemma all_bytes_lowercase (p : byte → bool) s :
  (∀ b, p (byte_to_ascii_lowercase b) = p b) →
  all_bytes p (to_ascii_lowercase s) = all_bytes p s.
Proof.
  intros Hp. unfold all_bytes. rewrite bytes_to_ascii_lowercase.
  induction (bytes s) as [|b l IH]; [done|]. cbn. by rewrite Hp; f_equal.
Qed.

Lemma zero_lowercase b : is_byte 48 (byte_to_ascii_lowercase b) = is_byte 48 b.
Proof. destruct b; reflexivity. Qed.

(** Hexadecimal names only depend on the lower-cased input. *)
Lemma GitCommitId_new_lowercase s : GitCommitId_new (to_ascii_lowercase s) = GitCommitId_new s.
Proof.
  unfold GitCommitId_new. rewrite str_len_to_ascii_lowercase, to_ascii_lowercase_idemp.
  rewrite !all_bytes_lowercase by (apply hexdigit_lowercase || apply zero_lowercase). done.
Qed.

Lemma Sha256Digest_new_lowercase s : Sha256Digest_new (to_ascii_lowercase s) = Sha256Digest_new s.
Proof.
  unfold Sha256Digest_new. rewrite str_len_to_ascii_lowercase, to_ascii_lowercase_idemp.
  by rewrite !all_bytes_lowercase by apply hexdigit_lowercase.
Qed.

Lemma GitCommitId_new_as_str s c : GitCommitId_new s = Ok c → GitCommitId_as_str c = to_ascii_lowercase s.
Proof.
  unfold GitCommitId_new. rewrite result_bind_ok. intros (a & _ & H). split_matches.
Qed.

Lemma Sha256Digest_new_as_str s c :
  Sha256Digest_new s = Ok c → Sha256Digest_as_str c = to_ascii_lowercase s.
Proof. unfold Sha256Digest_new. intros H. split_matches. Qed.

(** The lower-case hexadecimal alphabet. *)
Definition is_lower_hex (b : byte) : bool := is_ascii_digit b || in_range 97 102 b.

Lemma lower_hex_lowercase b :
  is_ascii_hexdigit b = true → is_lower_hex (byte_to_ascii_lowercase b) = true.
Proof. destruct b; done. Qed.

Lemma all_lower_hex s :
  all_bytes is_ascii_hexdigit s = true → all_bytes is_lower_hex (to_ascii_lowercase s) = true.
Proof.
  unfold all_bytes. rewrite bytes_to_ascii_lowercase, !forallb_Forall, Forall_fmap.
  intros H. eapply Forall_impl; [done|]. apply lower_hex_lowercase.
Qed.

Lemma PackageName_as_str_new n s : PackageName_new s = Ok n → PackageName_new (PackageName_as_str n) = Ok n.
Proof. intros H. by pose proof H as [_ ->]%PackageName_new_ok_iff. Qed.

Lemma Identifier_new_ok kind s (n : Identifier kind) :
  Identifier_new kind s = Ok n → n = mk_Identifier s ∧ s ≠ "".
Proof. unfold Identifier_new. intros H. case_bool_decide; [done|]. split_matches. Qed.

Lemma RepositorySubdir_new_ok s d : RepositorySubdir_new s = Ok d → d = mk_RepositorySubdir s.
Proof. unfold RepositorySubdir_new. intros H. split_matches. Qed.

Lemma EnvironmentId_new_ok s e : EnvironmentId_new s = Ok e → e = mk_EnvironmentId s.
Proof. unfold EnvironmentId_new. intros H. split_matches. Qed.

(** Every validated name is a canonical spelling of itself: feeding its
    text back to its constructor gives the same value. *)
Theorem names_roundtrip :
  (∀ s n, PackageName_new s = Ok n → PackageName_new (PackageName_as_str n) = Ok n) ∧
  (∀ kind s (n : Identifier kind),
     Identifier_new kind s = Ok n → Identifier_new kind (Identifier_as_str n) = Ok n) ∧
  (∀ s c, GitCommitId_new s = Ok c → GitCommitId_new (GitCommitId_as_str c) = Ok c) ∧
  (∀ s d, Sha256Digest_new s = Ok d → Sha256Digest_new (Sha256Digest_as_str d) = Ok d) ∧
  (∀ s d, RepositorySubdir_new s = Ok d → RepositorySubdir_new (RepositorySubdir_as_str d) = Ok d) ∧
  (∀ s e, EnvironmentId_new s = Ok e → EnvironmentId_new (EnvironmentId_as_str e) = Ok e).
Proof.
  split_and!.
  - intros s n. apply PackageName_as_str_new.
  - intros kind s n H. by pose proof H as [-> _]%Identifier_new_ok.
  - intros s c H. by rewrite (GitCommitId_new_as_str s c H), GitCommitId_new_lowercase.
  - intros s d H. by rewrite (Sha256Digest_new_as_str s d H), Sha256Digest_new_lowercase.
  - intros s d H. by pose proof H as ->%RepositorySubdir_new_ok.
  - intros s e H. by pose proof H as ->%EnvironmentId_new_ok.
Qed.

(** ** Subdirectories are canonical relative paths *)

Definition plain_component (c : string) : Prop := c ≠ "" ∧ c ≠ "." ∧ c ≠ "..".

(** A slash-separated path that stays inside its root on every platform. *)
Definition canonical_subdir (s : string) : Prop :=
  Forall plain_component (str_split (is_byte 47) s) ∧
  Forall (λ b, is_byte 92 b = false) (bytes s) ∧
  Forall (λ c, char_is_control c = false) (chars s) ∧
  (∀ first, head (split_bytes (is_byte 47) (bytes s)) = Some first → has_drive_prefix first = false).

Lemma check_components_none i l : check_components i l = None ↔ Forall plain_component l.
Proof.
  revert i. induction l as [|c l IH]; intros i; simpl; [by split|].
  rewrite Forall_cons. unfold plain_component at 1.
  repeat case_bool_decide; rewrite ?IH; naive_solver.
Qed.

Lemma check_components_some i l e :
  check_components i l = Some e → ∃ before c after,
    l = before ++ c :: after ∧ Forall plain_component before ∧
    ((c = "" ∧ e = SubdirEmptyComponent (i + length before)) ∨
     (c = "." ∧ e = DotComponent (i + length before)) ∨
     (c = ".." ∧ e = ParentComponent (i + length before))).
Proof.
  revert i. induction l as [|c l IH]; intros i; simpl; [done|].
  case_bool_decide; [|case_bool_decide; [|case_bool_decide]].
  1-3: intros [= <-]; exists [], c, l; simpl; rewrite Nat.add_0_r; naive_solver.
  intros (before & c' & after & -> & Hb & He)%IH.
  exists (c :: before), c', after. simpl. rewrite Nat.add_succ_r.
  split_and!; [done | by constructor | done].
Qed.

Lemma find_none_Forall {A} (p : A → bool) (l : list A) :
  List.find p l = None ↔ Forall (λ x, p x = false) l.
Proof.
  induction l as [|x l IH]; simpl; [by split|]. rewrite Forall_cons.
  destruct (p x); [|rewrite IH]; naive_solver.
Qed.

Lemma plain_not_absolute s :
  Forall plain_component (str_split (is_byte 47) s) →
  s ≠ "" ∧ match bytes s with b :: _ => is_byte 47 b | [] => false end = false.
Proof.
  unfold str_split. destruct (bytes s) as [|b l] eqn:Hs; simpl.
  - intros H. by inversion H as [|? ? [? _]].
  - intros H. split; [by intros ->|].
    destruct (split_bytes_cons (is_byte 47) l) as (p & ps & E). rewrite E in H.
    destruct (is_byte 47 b); [|done]. by inversion H as [|? ? [? _]].
Qed.

(** A repository subdirectory is accepted exactly when it is a canonical
    relative path: no empty, [.] or [..] component, no backslash, control
    character or drive prefix; and its text is kept. *)
Theorem RepositorySubdir_new_iff s d :
  RepositorySubdir_new s = Ok d ↔ canonical_subdir s ∧ d = mk_RepositorySubdir s.
Proof.
  unfold RepositorySubdir_new, canonical_subdir, chars. rewrite Forall_fmap. split.
  - intros H. case_bool_decide; [done|].
    destruct (match bytes s with b :: _ => is_byte 47 b | [] => false end); [done|].
    destruct (existsb _ (bytes s)) eqn:Hb; [done|]. apply existsb_false_Forall in Hb.
    destruct (List.find _ _) as [[]|] eqn:Hc; [done|]. apply find_none_Forall in Hc.
    destruct (match split_bytes _ _ with [] => _ | _ => _ end) eqn:Hd; [done|].
    destruct (check_components _ _) eqn:Hp; [done|]. apply check_components_none in Hp.
    simplify_eq. split_and!; [done..| |done].
    intros first Hf. by destruct (split_bytes _ _); simplify_eq/=.
  - intros [(Hp & Hb & Hc & Hd) ->]. destruct (plain_not_absolute s Hp) as [Hne ->].
    rewrite bool_decide_eq_false_2 by done.
    apply existsb_false_Forall in Hb as ->.
    assert (List.find (λ p, char_is_control p.2) (char_indices s) = None) as ->
      by by apply find_none_Forall.
    destruct (split_bytes_cons (is_byte 47) (bytes s)) as (first & rest & E).
    rewrite E in *. rewrite (Hd first eq_refl).
    apply (check_components_none 0) in Hp as ->. done.
Qed.

(** ** Environment ids are file-name safe *)

Definition valid_environment_id (s : string) : Prop :=
  1 ≤ str_len s ≤ 64 ∧
  Forall (λ b, is_environment_byte b = true) (bytes s) ∧
  (∀ b, head (bytes s) = Some b → is_ascii_lowercase b || is_ascii_digit b = true).

Lemma environment_byte_char b :
  is_environment_byte b = true →
  (u8 b < 128)%N ∧ char_is_control (u8 b) || char_is_whitespace (u8 b) = false.
Proof. destruct b; done. Qed.

Lemma zip_seq_snd {A} i (l : list A) : (zip (seq i (length l)) l).*2 = l.
Proof. apply snd_zip. by rewrite length_seq. Qed.

Lemma chars_ascii s : Forall (λ b, u8 b < 128)%N (bytes s) → chars s = u8 <$> bytes s.
Proof.
  intros H. unfold chars, char_indices, str_len. rewrite decode_from_ascii by done.
  rewrite <-(length_fmap u8). apply zip_seq_snd.
Qed.

(** An environment id is accepted exactly when it has 1 to 64 bytes, all
    lower-case letters, digits, [_] or [-], starting with a letter or digit. *)
Theorem EnvironmentId_new_iff s e :
  EnvironmentId_new s = Ok e ↔ valid_environment_id s ∧ e = mk_EnvironmentId s.
Proof.
  unfold EnvironmentId_new, valid_environment_id. split.
  - intros H. case_bool_decide as Hne; [done|].
    destruct (existsb _ (chars s)); [done|].
    destruct (match bytes s with b :: _ => _ | [] => _ end) eqn:Hf; [done|].
    destruct (negb (all_bytes _ s)) eqn:Ha; [done|]. case_bool_decide; simplify_eq.
    apply negb_false_iff, forallb_Forall in Ha.
    assert (1 ≤ str_len s).
    { unfold str_len. destruct (bytes s) eqn:E; simpl; [by apply bytes_nil in E|lia]. }
    split_and!; [lia..|done| |done]. intros b Hb. destruct (bytes s); simplify_eq/=.
    by destruct (is_ascii_lowercase b), (is_ascii_digit b).
  - intros [([Hlen1 Hlen2] & Ha & Hf) ->]. pose proof Ha as Ha'.
    unfold all_bytes. apply forallb_Forall in Ha' as ->. cbn [negb].
    rewrite bool_decide_eq_false_2 by (intros ->; unfold str_len in Hlen1; simpl in Hlen1; lia).
    rewrite chars_ascii by (eapply Forall_impl; [done|]; apply environment_byte_char).
    assert (existsb (λ c, char_is_control c || char_is_whitespace c) (u8 <$> bytes s) = false) as ->.
    { apply existsb_false_Forall, Forall_fmap. eapply Forall_impl; [done|].
      apply environment_byte_char. }
    rewrite (bool_decide_eq_false_2 (64 < str_len s)) by lia.
    destruct (bytes s) as [|b l]; [done|]. specialize (Hf b eq_refl).
    by destruct (is_ascii_lowercase b), (is_ascii_digit b).
Qed.

(** A package name is accepted exactly when it follows R's rule, and a
    rejected character is reported at its byte index. *)
Theorem PackageName_new_spec :
  (∀ s n, PackageName_new s = Ok n ↔ valid_package_name s ∧ n = mk_PackageName s) ∧
  (∀ s i, PackageName_new s = Err (InvalidCharacter i) →
     ∃ before b after, bytes s = before ++ b :: after ∧ length before = i ∧
       Forall (λ b, is_package_name_byte b = true) before ∧ is_package_name_byte b = false).
Proof. split; [apply PackageName_new_ok_iff | apply PackageName_new_invalid_index]. Qed.

(** ** Orders *)

Definition NormalizedGitUrl_cmp : NormalizedGitUrl → NormalizedGitUrl → comparison :=
  cmp_on NormalizedGitUrl_as_str str_cmp.
Definition Sha256Digest_cmp : Sha256Digest → Sha256Digest → comparison :=
  cmp_on Sha256Digest_as_str str_cmp.

(** The derived order: the algorithm, then the text. *)
Definition algorithm_index (a : GitHashAlgorithm) : N := match a with Sha1 => 0 | Sha256 => 1 end.
Definition GitCommitId_cmp : GitCommitId → GitCommitId → comparison :=
  cmp_then (cmp_on (λ c, algorithm_index (GitCommitId_algorithm c)) N.compare)
    (cmp_on GitCommitId_as_str str_cmp).

Definition RepositorySubdir_cmp : RepositorySubdir → RepositorySubdir → comparison :=
  cmp_on RepositorySubdir_as_str str_cmp.
#[export] Instance RepositorySubdir_cmp_order : CmpOrder RepositorySubdir_cmp :=
  cmp_on_order RepositorySubdir_as_str str_cmp.
#[export] Instance NormalizedGitUrl_cmp_order : CmpOrder NormalizedGitUrl_cmp :=
  cmp_on_order NormalizedGitUrl_as_str str_cmp.
#[export] Instance Sha256Digest_cmp_order : CmpOrder Sha256Digest_cmp :=
  cmp_on_order Sha256Digest_as_str str_cmp.
#[export] Instance GitCommitId_cmp_order : CmpOrder GitCommitId_cmp.
Proof. apply cmp_then_order; apply _. Qed.
Lemma NormalizedGitUrl_cmp_eq u v : NormalizedGitUrl_cmp u v = Eq ↔ u = v.
Proof.
  split; [|intros ->; apply (cmp_refl NormalizedGitUrl_cmp)].
  destruct u, v. intros E%(cmp_eq_leibniz str_cmp). simpl in E. congruence.
Qed.

Lemma Sha256Digest_cmp_eq d e : Sha256Digest_cmp d e = Eq ↔ d = e.
Proof.
  split; [|intros ->; apply (cmp_refl Sha256Digest_cmp)].
  destruct d, e. intros E%(cmp_eq_leibniz str_cmp). simpl in E. congruence.
Qed.

Lemma GitCommitId_cmp_eq c d : GitCommitId_cmp c d = Eq ↔ c = d.
Proof.
  split; [|intros ->; apply (cmp_refl GitCommitId_cmp)].
  destruct c as [a s], d as [b t]. unfold GitCommitId_cmp, cmp_then, cmp_on. rewrite then_with_eq.
  intros [Ha E%(cmp_eq_leibniz str_cmp)]. simpl in E. subst. by destruct a, b.
Qed.

Lemma RepositorySubdir_cmp_eq s t : RepositorySubdir_cmp s t = Eq ↔ s = t.
Proof.
  split; [|intros ->; apply (cmp_refl RepositorySubdir_cmp)].
  destruct s, t. intros E%(cmp_eq_leibniz str_cmp). simpl in E. congruence.
Qed.
