(* ===== verification/GitUrl.v ===== *)
(** * Normalised Git URLs ([NormalizedGitUrl::new] of [rsolve-core/src/names.rs])

    The constructor splits a URL into scheme, authority and path, canonicalises
    each, and drops a default port.  A [&str] slice is the list of its bytes.
    [url_stands] relates the text given and the URL made, part by part.  The
    theorems: the constructor accepts exactly the texts for which a URL stands and
    returns that URL, which is its own normal form; and the percent-encoding is
    normalised without changing what it encodes. *)

From S2P Require Import Prelude RustStd Text Format NetAddr Names.

Inductive NormalizedGitUrlError :=
| UrlEmpty
| InvalidScheme
| MissingAuthority
| CredentialsForbidden
| QueryOrFragmentForbidden
| InvalidHost
| InvalidPort
| InvalidPercentEscape
| InvalidPathCharacter
| UrlControlOrWhitespace.

Definition NormalizedGitUrlError_fmt (e : NormalizedGitUrlError) : string :=
  match e with
  | UrlEmpty => "normalized Git URL is empty"
  | InvalidScheme => "normalized Git URL has an invalid or non-canonical scheme"
  | MissingAuthority => "normalized Git URL must have an authority"
  | CredentialsForbidden => "normalized Git URL must not contain credentials"
  | QueryOrFragmentForbidden => "normalized Git URL must not contain a query or fragment"
  | InvalidHost => "normalized Git URL has an invalid host"
  | InvalidPort => "normalized Git URL has an invalid port"
  | InvalidPercentEscape => "normalized Git URL has an invalid percent escape"
  | InvalidPathCharacter => "normalized Git URL has an invalid path character"
  | UrlControlOrWhitespace => "normalized Git URL contains control or whitespace"
  end.

(** ** The path *)

(** [unreachable!] outside the hexadecimal digits, which the caller checks. *)
Definition hex_value (b : byte) : N :=
  if in_range 48 57 b then u8 b - 48
  else if in_range 97 102 b then u8 b - 97 + 10
  else if in_range 65 70 b then u8 b - 65 + 10
  else 0.

Definition is_url_unreserved (b : byte) : bool :=
  is_ascii_alphanumeric b || byte_is 45 b || byte_is 46 b || byte_is 95 b || byte_is 126 b.

Definition is_url_path_character (b : byte) : bool :=
  is_url_unreserved b || byte_is 47 b || byte_is 58 b || byte_is 64 b || byte_is 33 b
  || byte_is 36 b || byte_is 38 b || byte_is 39 b || byte_is 40 b || byte_is 41 b
  || byte_is 42 b || byte_is 43 b || byte_is 44 b || byte_is 59 b || byte_is 61 b.

(** [(hex_value(high) << 4) | hex_value(low)]. *)
Definition escape_value (high low : byte) : byte :=
  byte_of (N.lor (N.shiftl (hex_value high) 4) (hex_value low)).

(** The loop over [bytes[index..]]. *)
Fixpoint normalize_url_component (l : list byte) : result (list byte) NormalizedGitUrlError :=
  match l with
  | [] => Ok []
  | b :: rest =>
    if byte_is 37 b then
      match rest with
      | high :: low :: rest =>
        if negb (is_ascii_hexdigit high) || negb (is_ascii_hexdigit low)
        then Err InvalidPercentEscape
        else
          let value := escape_value high low in
          let? normalized := normalize_url_component rest in
          Ok (if is_url_unreserved value then value :: normalized
              else byte_of 37 :: byte_to_ascii_uppercase high :: byte_to_ascii_uppercase low
                     :: normalized)
      | _ => Err InvalidPercentEscape
      end
    else if negb (is_url_path_character b) then Err InvalidPathCharacter
    else let? normalized := normalize_url_component rest in Ok (b :: normalized)
  end.

(** ** Host and port *)

Definition is_default_port (scheme : list byte) (port : N) : bool :=
  (bool_decide (scheme = bytes "https") && N.eqb port 443)
  || (bool_decide (scheme = bytes "http") && N.eqb port 80)
  || (bool_decide (scheme = bytes "ssh") && N.eqb port 22)
  || (bool_decide (scheme = bytes "git") && N.eqb port 9418).

Definition bad_label (label : list byte) : bool :=
  bool_decide (label = [])
  || match head label with Some b => byte_is 45 b | None => false end
  || match last label with Some b => byte_is 45 b | None => false end
  || negb (forallb (λ b, is_ascii_alphanumeric b || byte_is 45 b) label).

(** [str::parse::<u16>] of a text of digits. *)
Definition u16_parse (l : list byte) : option N :=
  checked 65535 (digits_number 10 ((λ b, u8 b - 48)%N <$> l)).

Definition parse_port (port : list byte) : result N NormalizedGitUrlError :=
  if bool_decide (port = []) || negb (forallb is_ascii_digit port) then Err InvalidPort
  else ok_or InvalidPort (u16_parse port).

(** The first half of [canonical_host_and_port]: the host text, in brackets and
    already canonical when it is an IPv6 literal, and the port text. *)
Definition split_authority (authority : list byte) :
    result (list byte * option (list byte)) NormalizedGitUrlError :=
  match strip_prefix (bytes "[") authority with
  | Some rest =>
    match find_index (byte_is 93) rest with
    | None => Err InvalidHost
    | Some close =>
      let host := take close rest in
      let remainder := drop (S close) rest in
      let port := strip_prefix (bytes ":") remainder in
      if bool_decide (port = None) && negb (bool_decide (remainder = [])) then Err InvalidHost
      else match IpAddr_from_str host with
      | Some (V6 segments) => Ok (bytes "[" ++ IpAddr_fmt (V6 segments) ++ bytes "]", port)
      | _ => Err InvalidHost
      end
    end
  | None =>
    match rsplit_once (byte_is 58) authority with
    | Some (host, port) => if existsb (byte_is 58) host then Err InvalidHost else Ok (host, Some port)
    | None => Ok (authority, None)
    end
  end.

Definition canonical_host (host : list byte) : result (list byte) NormalizedGitUrlError :=
  if bool_decide (host = []) || existsb (byte_is 37) host then Err InvalidHost
  else if has_prefix (bytes "[") host then Ok host
  else match IpAddr_from_str host with
  | Some address => Ok (IpAddr_fmt address)
  | None =>
    if negb (forallb is_ascii_byte host) || existsb bad_label (split_bytes (byte_is 46) host)
    then Err InvalidHost
    else Ok (byte_to_ascii_lowercase <$> host)
  end.

Definition canonical_host_and_port (authority : list byte) :
    result (list byte * option N) NormalizedGitUrlError :=
  let? (host, port_text) := split_authority authority in
  let? host := canonical_host host in
  let? port := match port_text with
               | Some port => result_map Some (parse_port port)
               | None => Ok None
               end in
  Ok (host, port).

(** ** The constructor *)

Definition is_scheme_byte (b : byte) : bool :=
  is_ascii_alphanumeric b || byte_is 43 b || byte_is 45 b || byte_is 46 b.

Definition valid_scheme (scheme : list byte) : bool :=
  match scheme with
  | [] => false
  | b :: _ => is_ascii_alphabetic b && forallb is_scheme_byte scheme
  end.

Definition drop_default_port (scheme : list byte) (port : option N) : option N :=
  match port with
  | Some port => if is_default_port scheme port then None else Some port
  | None => None
  end.

Definition port_text (port : option N) : list byte :=
  match port with Some port => bytes ":" ++ bytes (N_to_string port) | None => [] end.

Definition NormalizedGitUrl_new (input : string) :
    result NormalizedGitUrl NormalizedGitUrlError :=
  if bool_decide (input = "") then Err UrlEmpty
  else if existsb (λ c, char_is_control c || char_is_whitespace c) (chars input)
  then Err UrlControlOrWhitespace
  else if str_contains (byte_is 63) input || str_contains (byte_is 35) input
  then Err QueryOrFragmentForbidden
  else match find_sub (bytes "://") (bytes input) with
  | None => Err InvalidScheme
  | Some scheme_end =>
    let scheme := take scheme_end (bytes input) in
    if negb (valid_scheme scheme) then Err InvalidScheme
    else
      let scheme := byte_to_ascii_lowercase <$> scheme in
      let remainder := drop (scheme_end + 3) (bytes input) in
      let authority_end := default (length remainder) (find_index (byte_is 47) remainder) in
      let authority := take authority_end remainder in
      if bool_decide (authority = []) then Err MissingAuthority
      else if existsb (byte_is 64) authority then Err CredentialsForbidden
      else
        let? (host, port) := canonical_host_and_port authority in
        let? path := normalize_url_component (drop authority_end remainder) in
        let port := drop_default_port scheme port in
        Ok (mk_NormalizedGitUrl
          (from_utf8 (scheme ++ bytes "://" ++ host ++ port_text port ++ path)))
  end.

Definition git_url (s : string) : result string NormalizedGitUrlError :=
  result_map NormalizedGitUrl_as_str (NormalizedGitUrl_new s).

Example git_url_canonical :
  git_url "HTTPS://GitHub.COM:443/R%2dlib/cli%3a.git" = Ok "https://github.com/R-lib/cli%3A.git".
Proof. vm_compute. reflexivity. Qed.
Example git_url_v6 : git_url "ssh://[2001:DB8:0::1]:2222/x" = Ok "ssh://[2001:db8::1]:2222/x".
Proof. vm_compute. reflexivity. Qed.
Example git_url_errors :
  (git_url "https://u@h/x", git_url "https://h:99999/", git_url "https://h/%2", git_url "https:/h")
  = (Err CredentialsForbidden, Err InvalidPort, Err InvalidPercentEscape, Err InvalidScheme).
Proof. vm_compute. reflexivity. Qed.

(** ** Percent-encoding *)

(** The bytes a path component stands for. *)
Fixpoint percent_decode (l : list byte) : list byte :=
  match l with
  | [] => []
  | b :: rest =>
    if byte_is 37 b then
      match rest with
      | high :: low :: rest => escape_value high low :: percent_decode rest
      | _ => l
      end
    else b :: percent_decode rest
  end.

(** A component is made of path characters and two-digit escapes. *)
Inductive url_component : list byte → Prop :=
| component_nil : url_component []
| component_char b l : is_url_path_character b = true → url_component l → url_component (b :: l)
| component_escape high low l :
    is_ascii_hexdigit high = true → is_ascii_hexdigit low = true → url_component l →
    url_component (byte_of 37 :: high :: low :: l).

Lemma path_character_not_percent b : is_url_path_character b = true → byte_is 37 b = false.
Proof. apply (byte_excludes is_url_path_character (byte_is 37)). vm_compute. reflexivity. Qed.

Lemma unreserved_path_character b : is_url_unreserved b = true → is_url_path_character b = true.
Proof. unfold is_url_path_character. by intros ->. Qed.

Lemma uppercase_hexdigit b :
  is_ascii_hexdigit b = true →
  is_ascii_hexdigit (byte_to_ascii_uppercase b) = true ∧
  hex_value (byte_to_ascii_uppercase b) = hex_value b ∧
  byte_to_ascii_uppercase (byte_to_ascii_uppercase b) = byte_to_ascii_uppercase b.
Proof.
  intros H. split_and!; revert b H.
  - apply (byte_implies _ (λ b, is_ascii_hexdigit (byte_to_ascii_uppercase b))). vm_compute. reflexivity.
  - intros b H. apply N.eqb_eq. revert b H.
    apply (byte_implies _ (λ b, N.eqb (hex_value (byte_to_ascii_uppercase b)) (hex_value b))).
    vm_compute. reflexivity.
  - intros b _. revert b. apply byte_same. vm_compute. reflexivity.
Qed.

Lemma escape_value_uppercase high low :
  is_ascii_hexdigit high = true → is_ascii_hexdigit low = true →
  escape_value (byte_to_ascii_uppercase high) (byte_to_ascii_uppercase low) = escape_value high low.
Proof.
  intros (_ & Hh & _)%uppercase_hexdigit (_ & Hl & _)%uppercase_hexdigit.
  unfold escape_value. by rewrite Hh, Hl.
Qed.

Lemma byte_is_eq n b : (n < 256)%N → byte_is n b = true → b = byte_of n.
Proof. intros Hn H%N.eqb_eq. apply u8_inj. by rewrite u8_byte_of. Qed.

Lemma normalize_char b l :
  is_url_path_character b = true →
  normalize_url_component (b :: l) = let? n := normalize_url_component l in Ok (b :: n).
Proof.
  intros H. cbn [normalize_url_component]. by rewrite (path_character_not_percent b H), H.
Qed.

Lemma normalize_escape high low l :
  is_ascii_hexdigit high = true → is_ascii_hexdigit low = true →
  normalize_url_component (byte_of 37 :: high :: low :: l) =
    let? n := normalize_url_component l in
    Ok (if is_url_unreserved (escape_value high low) then escape_value high low :: n
        else byte_of 37 :: byte_to_ascii_uppercase high :: byte_to_ascii_uppercase low :: n).
Proof. intros Hh Hl. cbn [normalize_url_component]. by rewrite Hh, Hl. Qed.

(** A loop step reads one character or one escape. *)
Lemma normalize_ok_component l n : normalize_url_component l = Ok n → url_component l.
Proof.
  remember (length l) as k eqn:Hk. revert l Hk n.
  induction k as [k IH] using lt_wf_ind. intros [|b l] -> n H; [constructor|].
  cbn [normalize_url_component length] in H, IH. destruct (byte_is 37 b) eqn:Hb.
  - apply (byte_is_eq 37) in Hb as ->; [|done]. destruct l as [|high [|low l]]; try done.
    destruct (is_ascii_hexdigit high) eqn:Hh, (is_ascii_hexdigit low) eqn:Hl; try done.
    apply result_bind_ok in H as (n' & H & _). constructor; [done..|].
    eapply (IH (length l)); [simpl; lia|done..].
  - destruct (is_url_path_character b) eqn:Hp; [|done].
    apply result_bind_ok in H as (n' & H & _). constructor; [done|].
    eapply (IH (length l)); [lia|done..].
Qed.

Lemma normalize_component l :
  url_component l → ∃ n, normalize_url_component l = Ok n ∧
    normalize_url_component n = Ok n ∧ percent_decode n = percent_decode l ∧
    length n ≤ length l ∧ url_component n ∧ (l = [] ↔ n = []) ∧
    (∀ b, byte_is 37 b = false → is_url_unreserved b = false → head l = Some b → head n = Some b).
Proof.
  induction 1 as [|b l Hb _ (n & Hn & Hnn & Hd & Hlen & Hc & _)
                  |high low l Hh Hl _ (n & Hn & Hnn & Hd & Hlen & Hc & _)].
  - exists []. split_and!; done || constructor.
  - exists (b :: n). rewrite !normalize_char by done. rewrite Hn. cbn [result_bind]. rewrite Hnn.
    cbn [percent_decode length]. rewrite (path_character_not_percent b Hb), Hd.
    split_and!; [done..|lia|by constructor|done|done].
  - rewrite normalize_escape by done. rewrite Hn. cbn [result_bind].
    pose proof (uppercase_hexdigit high Hh) as (Hh' & _ & Huh).
    pose proof (uppercase_hexdigit low Hl) as (Hl' & _ & Hul).
    change (percent_decode (byte_of 37 :: high :: low :: l))
      with (escape_value high low :: percent_decode l).
    destruct (is_url_unreserved (escape_value high low)) eqn:Hu.
    + pose proof (unreserved_path_character _ Hu) as Hp. eexists. split; [done|].
      rewrite normalize_char, Hnn by done. cbn [result_bind percent_decode length].
      rewrite (path_character_not_percent _ Hp), Hd.
      split_and!; [done..|lia|by constructor|done|]. by intros b Hb _ [= <-].
    + eexists. split; [done|]. rewrite normalize_escape, Hnn by done. cbn [result_bind].
      rewrite escape_value_uppercase, Hu, Huh, Hul by done.
      change (percent_decode (byte_of 37 :: ?h :: ?l :: n)) with (escape_value h l :: percent_decode n).
      rewrite escape_value_uppercase, Hd by done. cbn [length].
      split_and!; [done..|lia|by constructor|done|]. by intros b Hb _ [= <-].
Qed.

(** Normalising a path component accepts exactly the sequences of path
    characters and two-digit escapes; the result encodes the same bytes, is no
    longer than the input, and normalising it again changes nothing. *)
Theorem normalize_url_component_spec l :
  (url_component l ↔ ∃ n, normalize_url_component l = Ok n) ∧
  (∀ n, normalize_url_component l = Ok n →
     normalize_url_component n = Ok n ∧ percent_decode n = percent_decode l ∧
     length n ≤ length l).
Proof.
  split; [split|].
  - intros Hl. destruct (normalize_component l Hl) as (n & ? & _). eauto.
  - intros (n & Hn). by eapply normalize_ok_component.
  - intros n Hn. destruct (normalize_component l) as (n' & Hn' & ? & ? & ? & _).
    { by eapply normalize_ok_component. }
    rewrite Hn in Hn'. injection Hn' as <-. done.
Qed.

(** ** Ports *)

Lemma pretty_digit_step n :
  (0 < n)%N → ∀ s, bytes (pretty_N_go n s) =
    bytes (pretty_N_go (n / 10) (String (pretty_N_char (n mod 10)) s)).
Proof. intros Hn s. by rewrite pretty_N_go_step. Qed.

Lemma pretty_char_digit d :
  (d < 10)%N → is_ascii_digit (Ascii.byte_of_ascii (pretty_N_char d)) = true ∧
    (u8 (Ascii.byte_of_ascii (pretty_N_char d)) - 48)%N = d.
Proof.
  intros Hd. assert (In d (map N.of_nat (seq 0 10))) as Hin.
  { apply in_map_iff. exists (N.to_nat d). rewrite N2Nat.id. split; [done|]. apply in_seq. lia. }
  simpl in Hin. repeat (destruct Hin as [<-|Hin]; [by vm_compute|]). done.
Qed.

Definition decimal_value (l : list byte) : N := digits_number 10 ((λ b, u8 b - 48)%N <$> l).

Lemma pretty_go_digits n s :
  ∃ l, bytes (pretty_N_go n s) = l ++ bytes s ∧ Forall (λ b, is_ascii_digit b = true) l ∧
    decimal_value l = n ∧ (0 < n → l ≠ [])%N.
Proof.
  revert s. induction (N.lt_wf_0 n) as [n _ IH]; intros s.
  destruct (decide (0 < n)%N) as [Hn|Hn].
  2:{ assert (n = 0)%N as -> by lia. rewrite pretty_N_go_0. exists []. by split_and!. }
  rewrite pretty_digit_step by done.
  destruct (IH (n / 10)%N (N.div_lt n 10 Hn eq_refl) (String (pretty_N_char (n mod 10)) s))
    as (l & -> & Hl & Hv & _).
  destruct (pretty_char_digit (n mod 10)) as [Hd Hdv]; [by apply N.mod_lt|].
  exists (l ++ [Ascii.byte_of_ascii (pretty_N_char (n mod 10))]).
  rewrite bytes_cons, <-app_assoc. split_and!; [done| | |by destruct l].
  - apply Forall_app. split; [done|]. by constructor.
  - unfold decimal_value. rewrite fmap_app. csimpl. rewrite digits_number_app, Hdv.
    unfold decimal_value in Hv. rewrite Hv. rewrite (N.div_mod n 10) at 3 by done. lia.
Qed.

(** Printing an integer and reading the digits back. *)
Lemma N_to_string_digits n :
  Forall (λ b, is_ascii_digit b = true) (bytes (N_to_string n)) ∧
  bytes (N_to_string n) ≠ [] ∧ decimal_value (bytes (N_to_string n)) = n.
Proof.
  unfold N_to_string, pretty, pretty_N. destruct (decide (n = 0)%N) as [->|Hn].
  { split_and!; [by repeat constructor|done|done]. }
  destruct (pretty_go_digits n "") as (l & -> & Hl & Hv & Hne).
  change (bytes "") with (@nil byte). rewrite app_nil_r. split_and!; [done| |done]. apply Hne. lia.
Qed.

Lemma parse_port_ok l p : parse_port l = Ok p → (p ≤ 65535)%N.
Proof.
  unfold parse_port, u16_parse, checked. destruct (_ || _); [done|].
  destruct (N.leb _ 65535) eqn:E; [|done]. intros [= <-]. by apply N.leb_le in E.
Qed.

Lemma parse_port_fmt p : (p ≤ 65535)%N → parse_port (bytes (N_to_string p)) = Ok p.
Proof.
  intros Hp. destruct (N_to_string_digits p) as (Hd & Hne & Hv). unfold parse_port.
  rewrite bool_decide_eq_false_2 by done. apply forallb_Forall in Hd as ->. cbn [orb negb].
  unfold u16_parse. fold (decimal_value (bytes (N_to_string p))). rewrite Hv. unfold checked.
  by apply N.leb_le in Hp as ->.
Qed.

Lemma digit_not_byte n l :
  forallb (λ b, implb (is_ascii_digit b) (negb (byte_is n b))) every_byte = true →
  Forall (λ b, is_ascii_digit b = true) l → Forall (λ b, byte_is n b = false) l.
Proof. intros H Hl. eapply Forall_impl; [done|]. by apply byte_excludes. Qed.

(** ** Hosts *)

(** The bytes of a canonical host that is not an IPv6 literal. *)
Definition plain_host_byte (b : byte) : bool :=
  is_ascii_lowercase b || is_ascii_digit b || byte_is 45 b || byte_is 46 b.

Lemma split_bytes_fmap sep (f : byte → byte) (l : list byte) :
  (∀ b, sep (f b) = sep b) →
  split_bytes sep (map f l) = map (map f) (split_bytes sep l).
Proof.
  intros Hf. induction l as [|b l IH]; simpl; [done|]. rewrite IH, Hf.
  destruct (split_bytes sep l) as [|p ps]; simpl; [done|]. by destruct (sep b).
Qed.

Lemma lowercase_byte_is n :
  forallb (λ b, bool_decide (byte_is n (byte_to_ascii_lowercase b) = byte_is n b)) every_byte = true →
  ∀ b, byte_is n (byte_to_ascii_lowercase b) = byte_is n b.
Proof. apply byte_same. Qed.

Lemma existsb_fmap {A B} (p : B → bool) (f : A → B) (l : list A) : existsb p (f <$> l) = existsb (p ∘ f) l.
Proof. induction l as [|x l IH]; csimpl; [done|]. by rewrite IH. Qed.

Lemma forallb_fmap {A B} (p : B → bool) (f : A → B) (l : list A) : forallb p (f <$> l) = forallb (p ∘ f) l.
Proof. induction l as [|x l IH]; csimpl; [done|]. by rewrite IH. Qed.

Lemma existsb_ext' {A} (p q : A → bool) l : (∀ x, p x = q x) → existsb p l = existsb q l.
Proof. intros H. induction l as [|x l IH]; simpl; [done|]. by rewrite H, IH. Qed.

Lemma forallb_ext' {A} (p q : A → bool) l : (∀ x, p x = q x) → forallb p l = forallb q l.
Proof. intros H. induction l as [|x l IH]; simpl; [done|]. by rewrite H, IH. Qed.

Lemma bad_label_lowercase (l : list byte) : bad_label (byte_to_ascii_lowercase <$> l) = bad_label l.
Proof.
  unfold bad_label. rewrite forallb_fmap, fmap_last.
  replace (head (byte_to_ascii_lowercase <$> l)) with (byte_to_ascii_lowercase <$> head l)
    by by destruct l.
  f_equal; [f_equal; [f_equal|]|].
  - destruct l; done.
  - destruct (head l); csimpl; [|done]. apply lowercase_byte_is. vm_compute. reflexivity.
  - destruct (last l); csimpl; [|done]. apply lowercase_byte_is. vm_compute. reflexivity.
  - f_equal. apply forallb_ext'. unfold compose. apply byte_same. vm_compute. reflexivity.
Qed.

(** An accepted name, in lower case. *)
Lemma name_host_bytes host :
  existsb bad_label (split_bytes (byte_is 46) host) = false →
  Forall (λ b, plain_host_byte b = true) (byte_to_ascii_lowercase <$> host).
Proof.
  intros H%existsb_false_Forall. apply Forall_fmap.
  apply (split_bytes_Forall _ (byte_is 46)).
  - intros b Hb. apply (byte_is_eq 46) in Hb as ->; done.
  - eapply Forall_impl; [done|]. intros label Hl. unfold bad_label in Hl.
    apply orb_false_elim in Hl as [_ Hl]. apply negb_false_iff, forallb_Forall in Hl.
    eapply Forall_impl; [done|]. intros b. unfold compose.
    apply (byte_implies (λ b, is_ascii_alphanumeric b || byte_is 45 b)
      (λ b, plain_host_byte (byte_to_ascii_lowercase b))). vm_compute. reflexivity.
Qed.

Lemma lowercase_ipv4_byte b :
  ipv4_byte (byte_to_ascii_lowercase b) = true → byte_to_ascii_lowercase b = b.
Proof.
  intros H. apply u8_inj, N.eqb_eq. revert b H.
  apply (byte_implies (λ b, ipv4_byte (byte_to_ascii_lowercase b))
    (λ b, N.eqb (u8 (byte_to_ascii_lowercase b)) (u8 b))). vm_compute. reflexivity.
Qed.

Lemma lowercase_ipv4 (l : list byte) :
  Forall (λ b, ipv4_byte b = true) (byte_to_ascii_lowercase <$> l) →
  byte_to_ascii_lowercase <$> l = l.
Proof.
  induction l as [|b l IH]; csimpl; [done|]. inversion_clear 1 as [|? ? Hb Hl].
  rewrite IH by done. f_equal.
  by apply lowercase_ipv4_byte.
Qed.

Lemma lowercase_colon (l : list byte) :
  Forall (λ b, byte_is 58 b = false) l → Forall (λ b, byte_is 58 b = false) (byte_to_ascii_lowercase <$> l).
Proof.
  intros H. apply Forall_fmap. eapply Forall_impl; [done|]. intros b Hb. unfold compose.
  rewrite lowercase_byte_is; [done|]. vm_compute. reflexivity.
Qed.

(** A host without brackets and colons: its canonical form is canonical. *)
Lemma canonical_host_plain host h :
  canonical_host host = Ok h → has_prefix (bytes "[") host = false →
  Forall (λ b, byte_is 58 b = false) host →
  canonical_host h = Ok h ∧ h ≠ [] ∧ Forall (λ b, plain_host_byte b = true) h.
Proof.
  unfold canonical_host. intros H Hbr Hcolon. rewrite Hbr in H.
  destruct (bool_decide (host = []) || existsb (byte_is 37) host) eqn:He; [done|].
  apply orb_false_elim in He as [Hne%bool_decide_eq_false Hpct].
  assert (∀ k, Forall (λ b, plain_host_byte b = true) k → k ≠ [] →
    bool_decide (k = []) || existsb (byte_is 37) k = false ∧ has_prefix (bytes "[") k = false) as Hk.
  { intros k Hk Hk0. rewrite bool_decide_eq_false_2 by done. split.
    - apply existsb_false_Forall. eapply Forall_impl; [done|].
      apply (byte_excludes plain_host_byte (byte_is 37)). vm_compute. reflexivity.
    - destruct k as [|b k]; [done|]. inversion_clear Hk as [|? ? Hb _]. cbn.
      rewrite bool_decide_eq_false_2; [done|]. intros <-. by vm_compute in Hb. }
  destruct (IpAddr_from_str host) as [a|] eqn:Hip.
  - injection H as <-. pose proof (IpAddr_from_str_wf _ _ Hip) as Hwf.
    destruct a as [o|s]; [|by apply IpAddr_from_str_v6_colon in Hip].
    assert (Forall (λ b, plain_host_byte b = true) (ipv4_fmt o)) as Hb.
    { eapply Forall_impl; [by apply ipv4_fmt_bytes|].
      apply (byte_implies ipv4_byte plain_host_byte). vm_compute. reflexivity. }
    assert (ipv4_fmt o ≠ []) as Ho.
    { intros E. pose proof (IpAddr_fmt_read (V4 o) Hwf) as Hr. simpl in Hr. by rewrite E in Hr. }
    destruct (Hk _ Hb Ho) as [He Hpr]. simpl IpAddr_fmt in *.
    rewrite He, Hpr, (IpAddr_fmt_read (V4 o) Hwf : IpAddr_from_str (ipv4_fmt o) = _). done.
  - destruct (negb (forallb is_ascii_byte host)) eqn:Ha; [done|].
    destruct (existsb bad_label _) eqn:Hl; [done|]. injection H as <-.
    pose proof (name_host_bytes host Hl) as Hb.
    assert (byte_to_ascii_lowercase <$> host ≠ []) as Hne' by by destruct host.
    destruct (Hk _ Hb Hne') as [-> ->].
    assert (IpAddr_from_str (byte_to_ascii_lowercase <$> host) = None) as ->.
    { destruct (IpAddr_from_str (byte_to_ascii_lowercase <$> host)) as [[o|s]|] eqn:E; [| |done].
      - pose proof (IpAddr_from_str_v4_bytes _ _ E) as Hv4%lowercase_ipv4. congruence.
      - apply IpAddr_from_str_v6_colon in E. by apply lowercase_colon in Hcolon. }
    assert (forallb is_ascii_byte (byte_to_ascii_lowercase <$> host) = true) as ->.
    { apply forallb_Forall. eapply Forall_impl; [exact Hb|].
      apply (byte_implies plain_host_byte is_ascii_byte). vm_compute. reflexivity. }
    rewrite split_bytes_fmap, existsb_fmap, (existsb_ext' _ bad_label), Hl
      by (apply bad_label_lowercase || (apply lowercase_byte_is; vm_compute; reflexivity)).
    split_and!; [|done..]. cbn [negb orb]. f_equal. rewrite <-list_fmap_compose.
    apply list_fmap_ext. intros ? ? _. apply byte_lowercase_idemp.
Qed.

(** ** Authorities *)

(** The bytes of an accepted URL: printable ASCII without [?] and [#]. *)
Definition url_byte (b : byte) : bool :=
  in_range 33 126 b && negb (byte_is 63 b) && negb (byte_is 35 b).
Definition authority_byte (b : byte) : bool :=
  url_byte b && negb (byte_is 47 b) && negb (byte_is 64 b).

Definition port_ok (port : option N) : Prop := from_option (λ p, p ≤ 65535)%N True port.

Lemma port_text_digits p :
  ∃ ds, port_text (Some p) = byte_of 58 :: ds ∧ Forall (λ b, is_ascii_digit b = true) ds ∧
    ds = bytes (N_to_string p).
Proof. eexists. split; [done|]. split; [|done]. apply N_to_string_digits. Qed.

Lemma port_text_bytes p : Forall (λ b, authority_byte b = true) (port_text p).
Proof.
  destruct p as [p|]; [|constructor].
  destruct (port_text_digits p) as (ds & -> & Hds & _). constructor; [done|].
  eapply Forall_impl; [done|]. apply (byte_implies is_ascii_digit authority_byte).
  vm_compute. reflexivity.
Qed.

(** The port text of an authority, and what it is read as. *)
Definition port_source (text : option (list byte)) : list byte :=
  match text with Some digits => bytes ":" ++ digits | None => [] end.

Definition read_port (text : option (list byte)) : result (option N) NormalizedGitUrlError :=
  match text with
  | Some port => result_map Some (parse_port port)
  | None => Ok None
  end.

Definition no_colon (l : list byte) : Prop := Forall (λ b, byte_is 58 b = false) l.

Lemma read_port_no_colon t p : read_port t = Ok p → from_option no_colon True t.
Proof.
  destruct t as [t|]; [|done]. intros (x & Hx & _)%result_map_ok. simpl. unfold parse_port in Hx.
  destruct (bool_decide (t = []) || negb (forallb is_ascii_digit t)) eqn:E; [done|].
  apply orb_false_elim in E as [_ E]. apply negb_false_iff, forallb_Forall in E.
  revert E. apply digit_not_byte. vm_compute. reflexivity.
Qed.

Lemma split_authority_v6 text segments t :
  IpAddr_from_str text = Some (V6 segments) →
  split_authority ((bytes "[" ++ text ++ bytes "]") ++ port_source t) =
    Ok (bytes "[" ++ IpAddr_fmt (V6 segments) ++ bytes "]", t).
Proof.
  intros Hip. destruct (IpAddr_from_str_some _ _ Hip) as [_ Hb]. unfold split_authority.
  rewrite <-!app_assoc, strip_prefix_app.
  change (bytes "]" ++ port_source t) with (byte_of 93 :: port_source t).
  rewrite find_index_app; [|eapply Forall_impl; [done|];
    apply (byte_excludes address_byte (byte_is 93)); vm_compute; reflexivity|done].
  rewrite take_app_length, <-Nat.add_1_r, drop_app_add. cbn [drop]. rewrite drop_0, Hip.
  destruct t as [digits|]; cbn [port_source].
  - rewrite strip_prefix_app. by rewrite bool_decide_eq_false_2.
  - change (strip_prefix (bytes ":") []) with (@None (list byte)).
    by rewrite !bool_decide_eq_true_2.
Qed.

Lemma split_authority_plain host t :
  host ≠ [] → has_prefix (bytes "[") host = false → no_colon host → from_option no_colon True t →
  split_authority (host ++ port_source t) = Ok (host, t).
Proof.
  intros Hne Hpre Hcolon Ht. unfold split_authority.
  assert (strip_prefix (bytes "[") (host ++ port_source t) = None) as ->.
  { destruct host as [|b host]; [done|]. unfold strip_prefix. simpl in *.
    destruct (bool_decide _); [by destruct host|done]. }
  destruct t as [digits|]; simpl in *.
  - rewrite rsplit_once_app by done. by apply existsb_false_Forall in Hcolon as ->.
  - rewrite app_nil_r. by rewrite (proj2 (rsplit_once_none _ _)).
Qed.

(** The two forms of an authority. *)
Lemma split_authority_some authority host t :
  split_authority authority = Ok (host, t) →
  (∃ text segments, IpAddr_from_str text = Some (V6 segments) ∧
     host = bytes "[" ++ IpAddr_fmt (V6 segments) ++ bytes "]" ∧
     authority = (bytes "[" ++ text ++ bytes "]") ++ port_source t) ∨
  (has_prefix (bytes "[") host = false ∧ no_colon host ∧ authority = host ++ port_source t).
Proof.
  unfold split_authority. destruct (strip_prefix (bytes "[") authority) as [rest|] eqn:Hbr.
  - apply strip_prefix_some in Hbr as ->. destruct (find_index _ rest) as [close|] eqn:Hc; [|done].
    apply find_index_some in Hc as (text & b & remainder & -> & <- & _ & Hb).
    apply (byte_is_eq 93) in Hb as ->; [|done].
    rewrite take_app_length, <-Nat.add_1_r, drop_app_add. cbn [drop]. rewrite drop_0.
    destruct (_ && _) eqn:Hr; [done|]. destruct (IpAddr_from_str text) as [[|s]|] eqn:Hip; try done.
    intros [= <- <-]. left. exists text, s. split_and!; [done..|].
    rewrite <-!app_assoc. f_equal. change (bytes "]" ++ ?l) with (byte_of 93 :: l). f_equal. f_equal.
    destruct (strip_prefix (bytes ":") remainder) as [digits|] eqn:Hp.
    + by apply strip_prefix_some in Hp.
    + simpl in Hr. by apply negb_false_iff, bool_decide_eq_true in Hr.
  - unfold strip_prefix in Hbr. destruct (has_prefix (bytes "[") authority) eqn:Ha; [done|].
    destruct (rsplit_once _ authority) as [[before after]|] eqn:Hr.
    + destruct (existsb _ before) eqn:He; [done|]. intros [= <- <-]. right.
      apply existsb_false_Forall in He. apply rsplit_once_some in Hr as (b & -> & Hb & _).
      apply (byte_is_eq 58) in Hb as ->; [|done]. split_and!; [|done..].
      apply not_true_iff_false. intros (r & ->)%has_prefix_iff.
      by rewrite <-app_assoc, has_prefix_app in Ha.
    + intros [= <- <-]. right. apply rsplit_once_none in Hr.
      split_and!; [done..|]. by rewrite app_nil_r.
Qed.

Definition canonical_authority (host : list byte) (port : option N) : Prop :=
  canonical_host_and_port (host ++ port_text port) = Ok (host, port).

(** The text of a port is read as the port. *)
Lemma port_text_source q :
  port_ok q → ∃ t, port_text q = port_source t ∧ read_port t = Ok q.
Proof.
  destruct q as [p|]; intros Hq; [|by exists None]. exists (Some (bytes (N_to_string p))).
  split; [done|]. simpl. by rewrite parse_port_fmt.
Qed.

Lemma canonical_host_v6 segments :
  ip_wf (V6 segments) →
  canonical_host (bytes "[" ++ IpAddr_fmt (V6 segments) ++ bytes "]") =
    Ok (bytes "[" ++ IpAddr_fmt (V6 segments) ++ bytes "]").
Proof.
  intros Hwf. unfold canonical_host. rewrite has_prefix_app, bool_decide_eq_false_2 by done.
  assert (existsb (byte_is 37) (bytes "[" ++ IpAddr_fmt (V6 segments) ++ bytes "]") = false) as ->;
    [|done].
  apply existsb_false_Forall. rewrite !Forall_app. split_and!; [by repeat constructor| |
    by repeat constructor]. eapply Forall_impl; [by apply IpAddr_fmt_bytes|].
  apply (byte_excludes ip_byte (byte_is 37)); vm_compute; reflexivity.
Qed.

Lemma canonical_host_and_port_read authority host t p :
  split_authority authority = Ok (host, t) → read_port t = Ok p →
  canonical_host_and_port authority = let? host := canonical_host host in Ok (host, p).
Proof.
  intros Hs Hp. unfold canonical_host_and_port. rewrite Hs. cbn [result_bind].
  fold (read_port t). by rewrite Hp.
Qed.

Lemma canonical_authority_ipv6 segments q :
  ip_wf (V6 segments) → port_ok q →
  canonical_authority (bytes "[" ++ IpAddr_fmt (V6 segments) ++ bytes "]") q.
Proof.
  intros Hwf (t & Ht & Hp)%port_text_source. unfold canonical_authority. rewrite Ht.
  erewrite canonical_host_and_port_read; [|by apply split_authority_v6, IpAddr_fmt_read|done].
  by rewrite canonical_host_v6.
Qed.

Lemma canonical_authority_plain host q :
  canonical_host host = Ok host → host ≠ [] → Forall (λ b, plain_host_byte b = true) host →
  port_ok q → canonical_authority host q.
Proof.
  intros Hh Hne Hb (t & Ht & Hp)%port_text_source. unfold canonical_authority. rewrite Ht.
  erewrite canonical_host_and_port_read; [by rewrite Hh| |done].
  apply split_authority_plain; [done| | |by eapply read_port_no_colon].
  - destruct host as [|b host]; [done|]. inversion_clear Hb as [|? ? Hb' _]. simpl.
    rewrite bool_decide_eq_false_2; [done|]. intros <-. by vm_compute in Hb'.
  - eapply Forall_impl; [done|]. apply (byte_excludes plain_host_byte (byte_is 58)).
    vm_compute. reflexivity.
Qed.

Lemma canonical_host_and_port_some authority host port :
  canonical_host_and_port authority = Ok (host, port) →
  ∃ h t, split_authority authority = Ok (h, t) ∧ canonical_host h = Ok host ∧
    read_port t = Ok port.
Proof.
  unfold canonical_host_and_port. intros ([h t] & Hs & H)%result_bind_ok.
  apply result_bind_ok in H as (h' & Hh & H). apply result_bind_ok in H as (p & Hp & [= <- <-]).
  by exists h, t.
Qed.

Lemma parse_port_option t p :
  read_port t = Ok p → port_ok p.
Proof.
  destruct t as [t|]; [|by intros [= <-]].
  intros (x & Hx & ->)%result_map_ok. by apply parse_port_ok in Hx.
Qed.

(** A canonical host and port, with any port, are read back as they are. *)
Lemma canonical_host_and_port_canonical authority host port :
  canonical_host_and_port authority = Ok (host, port) →
  port_ok port ∧ host ≠ [] ∧ Forall (λ b, authority_byte b = true) host ∧
  ∀ q, port_ok q → canonical_authority host q.
Proof.
  intros (h & t & Hs & Hh & Hp)%canonical_host_and_port_some.
  apply parse_port_option in Hp. split; [done|].
  apply split_authority_some in Hs as [(text & s & Hip & -> & _)|(Hpre & Hcolon & _)].
  - apply IpAddr_from_str_wf in Hip. rewrite canonical_host_v6 in Hh by done.
    assert (host = bytes "[" ++ IpAddr_fmt (V6 s) ++ bytes "]") as -> by congruence.
    split_and!; [done| |intros; by apply canonical_authority_ipv6].
    rewrite !Forall_app. split_and!; [by repeat constructor| |by repeat constructor].
    eapply Forall_impl; [by apply IpAddr_fmt_bytes|].
    apply (byte_implies ip_byte authority_byte). vm_compute. reflexivity.
  - destruct (canonical_host_plain h host Hh Hpre Hcolon) as (Hc & Hne & Hb).
    split_and!; [done| |intros; by apply canonical_authority_plain].
    eapply Forall_impl; [done|]. apply (byte_implies plain_host_byte authority_byte).
    vm_compute. reflexivity.
Qed.

(** ** What a URL is normalised to

    The parts of the text given and of the URL made, related one by one. *)

Definition digit_characters : list byte := bytes "0123456789".
Definition letter_characters : list byte :=
  bytes "abcdefghijklmnopqrstuvwxyzABCDEFGHIJKLMNOPQRSTUVWXYZ".
Definition unreserved_characters : list byte :=
  letter_characters ++ digit_characters ++ bytes "-._~".
Definition path_characters : list byte := unreserved_characters ++ bytes "/:@!$&'()*+,;=".

(** A letter, then letters, digits, plus, hyphen and full stop. *)
Definition scheme_form (scheme : list byte) : Prop :=
  ∃ b rest, scheme = b :: rest ∧ b ∈ letter_characters ∧
    Forall (λ c, c ∈ letter_characters ++ digit_characters ++ bytes "+-.") rest.

Inductive default_port : list byte → N → Prop :=
| default_https : default_port (bytes "https") 443
| default_http : default_port (bytes "http") 80
| default_ssh : default_port (bytes "ssh") 22
| default_git : default_port (bytes "git") 9418.

(** The digits of a port. *)
Definition port_value (digits : list byte) (port : N) : Prop :=
  digits ≠ [] ∧ Forall (λ b, b ∈ digit_characters) digits ∧
  port = decimal_value digits ∧ (port ≤ 65535)%N.

(** What follows the host, and the port kept of it. *)
Inductive port_stands (scheme : list byte) : list byte → option N → Prop :=
| port_absent : port_stands scheme [] None
| port_default digits port :
    port_value digits port → default_port scheme port →
    port_stands scheme (bytes ":" ++ digits) None
| port_kept digits port :
    port_value digits port → ¬ default_port scheme port →
    port_stands scheme (bytes ":" ++ digits) (Some port).

(** A label of a name: letters, digits and inner hyphens. *)
Definition host_label (label : list byte) : Prop :=
  label ≠ [] ∧ Forall (λ b, b ∈ letter_characters ++ digit_characters ++ bytes "-") label ∧
  head label ≠ head (bytes "-") ∧ last label ≠ head (bytes "-").

(** The host given and the host kept: an address is printed again, an IPv6
    address in its brackets, and a name is in lower case. *)
Inductive host_stands : list byte → list byte → Prop :=
| host_v6 text segments :
    IpAddr_from_str text = Some (V6 segments) →
    host_stands (bytes "[" ++ text ++ bytes "]")
      (bytes "[" ++ IpAddr_fmt (V6 segments) ++ bytes "]")
| host_v4 text octets :
    IpAddr_from_str text = Some (V4 octets) → host_stands text (IpAddr_fmt (V4 octets))
| host_name labels :
    labels ≠ [] → Forall host_label labels →
    IpAddr_from_str (byte_join (bytes ".") labels) = None →
    host_stands (byte_join (bytes ".") labels)
      (byte_to_ascii_lowercase <$> byte_join (bytes ".") labels).

(** [c] is the hexadecimal digit [d], in either case. *)
Definition hex_digit_is (c : byte) (d : nat) : Prop :=
  bytes "0123456789abcdef" !! d = Some (byte_to_ascii_lowercase c).

(** The two digits of the byte [b]. *)
Definition escapes (high low b : byte) : Prop :=
  ∃ h l, hex_digit_is high h ∧ hex_digit_is low l ∧ u8 b = N.of_nat (16 * h + l).

(** The path given and the path kept: an escaped unreserved character stands
    for itself, every other escape has upper-case digits. *)
Inductive path_stands : list byte → list byte → Prop :=
| path_empty : path_stands [] []
| path_character b l n :
    b ∈ path_characters → path_stands l n → path_stands (b :: l) (b :: n)
| path_unescaped high low b l n :
    escapes high low b → b ∈ unreserved_characters → path_stands l n →
    path_stands (bytes "%" ++ high :: low :: l) (b :: n)
| path_escaped high low b l n :
    escapes high low b → b ∉ unreserved_characters → path_stands l n →
    path_stands (bytes "%" ++ high :: low :: l)
      (bytes "%" ++ byte_to_ascii_uppercase high :: byte_to_ascii_uppercase low :: n).

(** The URL [u] that stands for the text [s]. *)
Definition url_stands (s u : string) : Prop :=
  ∃ scheme host_text port_part path_text host port path,
    bytes s = scheme ++ bytes "://" ++ host_text ++ port_part ++ path_text ∧
    scheme_form scheme ∧ host_stands host_text host ∧
    port_stands (byte_to_ascii_lowercase <$> scheme) port_part port ∧
    (path_text = [] ∨ ∃ rest, path_text = bytes "/" ++ rest) ∧ path_stands path_text path ∧
    bytes u = (byte_to_ascii_lowercase <$> scheme) ++ bytes "://" ++ host ++
      match port with Some port => bytes ":" ++ bytes (N_to_string port) | None => [] end ++ path.

(** *** The sets of characters *)

Lemma byte_set_iff (p : byte → bool) (l : list byte) :
  forallb (λ b, bool_decide (p b = bool_decide (b ∈ l))) every_byte = true →
  ∀ b, p b = true ↔ b ∈ l.
Proof. intros H b. by rewrite (byte_same _ _ H b), bool_decide_eq_true. Qed.

Lemma unreserved_iff b : is_url_unreserved b = true ↔ b ∈ unreserved_characters.
Proof. revert b. apply byte_set_iff. vm_compute. reflexivity. Qed.

Lemma path_character_iff b : is_url_path_character b = true ↔ b ∈ path_characters.
Proof. revert b. apply byte_set_iff. vm_compute. reflexivity. Qed.

Lemma digit_iff b : is_ascii_digit b = true ↔ b ∈ digit_characters.
Proof. revert b. apply byte_set_iff. vm_compute. reflexivity. Qed.

Lemma letter_iff b : is_ascii_alphabetic b = true ↔ b ∈ letter_characters.
Proof. revert b. apply byte_set_iff. vm_compute. reflexivity. Qed.

Lemma scheme_byte_iff b :
  is_scheme_byte b = true ↔ b ∈ letter_characters ++ digit_characters ++ bytes "+-.".
Proof. revert b. apply byte_set_iff. vm_compute. reflexivity. Qed.

Lemma label_byte_iff b :
  is_ascii_alphanumeric b || byte_is 45 b = true ↔
  b ∈ letter_characters ++ digit_characters ++ bytes "-".
Proof.
  revert b. apply (byte_set_iff (λ b, is_ascii_alphanumeric b || byte_is 45 b)).
  vm_compute. reflexivity.
Qed.

Lemma byte_is_iff n b : (n < 256)%N → byte_is n b = true ↔ b = byte_of n.
Proof.
  intros Hn. split; [by apply byte_is_eq|]. intros ->. apply N.eqb_eq. by rewrite u8_byte_of.
Qed.

(** *** The parts, one by one *)

Lemma scheme_form_iff scheme : valid_scheme scheme = true ↔ scheme_form scheme.
Proof.
  unfold scheme_form. destruct scheme as [|b l].
  { split; [done|]. by intros (? & ? & ? & _). }
  cbn [valid_scheme forallb]. rewrite !andb_true_iff, forallb_Forall, letter_iff,
    (Forall_iff _ _ _ scheme_byte_iff). split.
  - intros (Hb & _ & Hl). by exists b, l.
  - intros (b' & l' & [= <- <-] & Hb & Hl). split_and!; [done| |done].
    apply scheme_byte_iff. set_solver.
Qed.

Lemma default_port_iff scheme port :
  is_default_port scheme port = true ↔ default_port scheme port.
Proof.
  unfold is_default_port. rewrite !orb_true_iff, !andb_true_iff, !bool_decide_eq_true, !N.eqb_eq.
  split.
  - intros [[[[-> ->]|[-> ->]]|[-> ->]]|[-> ->]]; constructor.
  - destruct 1; tauto.
Qed.

Lemma parse_port_iff digits port : parse_port digits = Ok port ↔ port_value digits port.
Proof.
  unfold parse_port, port_value, u16_parse, checked. fold (decimal_value digits).
  rewrite <-(Forall_iff _ _ _ digit_iff), <-forallb_Forall.
  case_bool_decide; simpl; [naive_solver|]. destruct (forallb is_ascii_digit digits); simpl;
    [|naive_solver]. destruct (N.leb_spec (decimal_value digits) 65535) as [Hle|Hgt]; simpl.
  - split; [by intros [= <-]|]. by intros (_ & _ & -> & _).
  - split; [done|]. intros (_ & _ & -> & ?). lia.
Qed.

Lemma port_stands_iff scheme part port :
  port_stands scheme part port ↔
  ∃ text p, part = port_source text ∧ read_port text = Ok p ∧ port = drop_default_port scheme p.
Proof.
  split.
  - destruct 1 as [|digits p Hp Hd|digits p Hp Hd]; [by exists None, None|..];
      apply parse_port_iff in Hp; exists (Some digits), (Some p); simpl; rewrite Hp;
      (split_and!; [done..|]); simpl;
      destruct (is_default_port scheme p) eqn:E; try done; exfalso.
    + by apply default_port_iff in Hd; congruence.
    + by apply Hd, default_port_iff.
  - intros ([digits|] & p & -> & Hp & ->); simpl in Hp.
    + apply result_map_ok in Hp as (v & Hv & ->). apply parse_port_iff in Hv. simpl.
      destruct (is_default_port scheme v) eqn:E; econstructor; try done.
      * by apply default_port_iff.
      * rewrite <-default_port_iff. by rewrite E.
    + injection Hp as <-. constructor.
Qed.

Lemma hex_value_small c : (hex_value c < 16)%N.
Proof. apply N.ltb_lt. revert c. apply byte_check. vm_compute. reflexivity. Qed.

Lemma hex_digit_iff c d :
  hex_digit_is c d ↔ is_ascii_hexdigit c = true ∧ hex_value c = N.of_nat d.
Proof.
  unfold hex_digit_is. destruct (decide (d < 16)) as [Hd|Hd].
  - assert (forallb (λ d, forallb (λ c, bool_decide (
      bool_decide (bytes "0123456789abcdef" !! d = Some (byte_to_ascii_lowercase c)) =
      is_ascii_hexdigit c && N.eqb (hex_value c) (N.of_nat d))) every_byte) (seq 0 16) = true)
      as Hall by (vm_compute; reflexivity).
    rewrite forallb_forall in Hall. assert (In d (seq 0 16)) as Hin by (apply in_seq; lia).
    pose proof (byte_same _ _ (Hall d Hin) c) as Hc. simpl in Hc.
    etransitivity; [symmetry; apply bool_decide_eq_true|].
    by rewrite Hc, andb_true_iff, N.eqb_eq.
  - pose proof (hex_value_small c).
    rewrite lookup_ge_None_2 by (simpl; lia). split; [done|]. intros [_ ?]. lia.
Qed.

Lemma nibbles_value x y : (x < 16)%N → (y < 16)%N → N.lor (N.shiftl x 4) y = (16 * x + y)%N.
Proof.
  intros Hx Hy. assert (Forall (λ x, Forall (λ y, N.lor (N.shiftl x 4) y = (16 * x + y)%N)
    (N.of_nat <$> seq 0 16)) (N.of_nat <$> seq 0 16)) as Hall by (by repeat constructor).
  assert (∀ n, (n < 16)%N → n ∈ N.of_nat <$> seq 0 16) as Hin.
  { intros n Hn. apply list_elem_of_fmap. exists (N.to_nat n). rewrite N2Nat.id.
    split; [done|]. apply elem_of_seq. lia. }
  rewrite Forall_forall in Hall. specialize (Hall x (Hin x Hx)).
  rewrite Forall_forall in Hall. apply Hall, Hin, Hy.
Qed.

Lemma escape_value_u8 high low : u8 (escape_value high low) = (16 * hex_value high + hex_value low)%N.
Proof.
  pose proof (hex_value_small high). pose proof (hex_value_small low).
  unfold escape_value. rewrite nibbles_value by done. apply u8_byte_of. lia.
Qed.

Lemma escapes_iff high low b :
  escapes high low b ↔
  is_ascii_hexdigit high = true ∧ is_ascii_hexdigit low = true ∧ b = escape_value high low.
Proof.
  pose proof (escape_value_u8 high low) as He. unfold escapes. setoid_rewrite hex_digit_iff. split.
  - intros (h & l & [Hh Eh] & [Hl El] & Hb). split_and!; [done..|]. apply u8_inj. lia.
  - intros (Hh & Hl & ->). exists (N.to_nat (hex_value high)), (N.to_nat (hex_value low)).
    rewrite !N2Nat.id. split_and!; [done..|]. lia.
Qed.

Lemma path_stands_normalize l n : path_stands l n → normalize_url_component l = Ok n.
Proof.
  induction 1 as [|b l n Hb _ IH|high low b l n He Hb _ IH|high low b l n He Hb _ IH]; [done|..].
  - apply path_character_iff in Hb. rewrite normalize_char by done. by rewrite IH.
  - apply escapes_iff in He as (? & ? & ->). apply unreserved_iff in Hb.
    change (bytes "%" ++ high :: low :: l) with (byte_of 37 :: high :: low :: l).
    rewrite normalize_escape by done. by rewrite IH, Hb.
  - apply escapes_iff in He as (? & ? & ->).
    change (bytes "%" ++ high :: low :: l) with (byte_of 37 :: high :: low :: l).
    rewrite normalize_escape by done. rewrite IH. simpl. rewrite <-unreserved_iff in Hb.
    by destruct (is_url_unreserved _).
Qed.

Lemma component_path_stands l : url_component l → ∃ n, path_stands l n.
Proof.
  induction 1 as [|b l Hb _ [n IH]|high low l Hh Hl _ [n IH]].
  - exists []. constructor.
  - exists (b :: n). constructor; [|done]. by apply path_character_iff.
  - assert (escapes high low (escape_value high low)) as He by by apply escapes_iff.
    destruct (decide (escape_value high low ∈ unreserved_characters)).
    + eexists. by apply (path_unescaped high low _ l n He).
    + eexists. by apply (path_escaped high low _ l n He).
Qed.

Lemma path_stands_iff l n : normalize_url_component l = Ok n ↔ path_stands l n.
Proof.
  split; [|apply path_stands_normalize]. intros H. pose proof (normalize_ok_component _ _ H) as Hc.
  apply component_path_stands in Hc as [m Hm]. pose proof (path_stands_normalize _ _ Hm). congruence.
Qed.

(** *** Hosts and authorities *)

Lemma byte_join_cons sep x y (l : list (list byte)) :
  byte_join sep (x :: y :: l) = x ++ sep ++ byte_join sep (y :: l).
Proof. unfold byte_join. csimpl. by rewrite <-!app_assoc. Qed.

Lemma join_split_bytes n l : (n < 256)%N → byte_join [byte_of n] (split_bytes (byte_is n) l) = l.
Proof.
  intros Hn. induction l as [|b l IH]; [done|]. simpl.
  destruct (split_bytes_cons (byte_is n) l) as (p & ps & E). rewrite E in *.
  destruct (byte_is n b) eqn:Hb.
  - apply byte_is_eq in Hb as ->; [|done]. rewrite byte_join_cons. by rewrite IH.
  - destruct ps as [|q ps]; [by rewrite <-IH|]. rewrite byte_join_cons in *. by rewrite <-IH.
Qed.

Lemma split_join_bytes n labels :
  (n < 256)%N → labels ≠ [] → Forall (Forall (λ b, byte_is n b = false)) labels →
  split_bytes (byte_is n) (byte_join [byte_of n] labels) = labels.
Proof.
  intros Hn Hne Hl. induction Hl as [|x l Hx Hl IH]; [done|]. destruct l as [|y l].
  - simpl. rewrite app_nil_r. by apply split_bytes_no_separator.
  - rewrite byte_join_cons. change ([byte_of n] ++ ?r) with (byte_of n :: r).
    rewrite split_bytes_app_separator; [by rewrite IH|done|by apply byte_is_iff].
Qed.

Lemma head_not_hyphen (o : option byte) :
  match o with Some b => byte_is 45 b | None => false end = false ↔ o ≠ head (bytes "-").
Proof.
  destruct o as [b|]; [|done]. rewrite <-not_true_iff_false, byte_is_iff by done.
  change (head (bytes "-")) with (Some (byte_of 45)). naive_solver.
Qed.

Lemma host_label_iff label : bad_label label = false ↔ host_label label.
Proof.
  unfold bad_label, host_label. rewrite !orb_false_iff, bool_decide_eq_false, !head_not_hyphen,
    negb_false_iff, forallb_Forall, (Forall_iff _ _ _ label_byte_iff). tauto.
Qed.

Lemma host_label_bytes label :
  host_label label → Forall (λ b, is_ascii_alphanumeric b || byte_is 45 b = true) label.
Proof. intros (_ & Hl & _). by rewrite (Forall_iff _ _ _ label_byte_iff). Qed.

(** The host of an authority without brackets. *)
Lemma canonical_host_stands h host :
  has_prefix (bytes "[") h = false → no_colon h → canonical_host h = Ok host → host_stands h host.
Proof.
  unfold canonical_host. intros -> Hcolon. destruct (_ || _); [done|].
  destruct (IpAddr_from_str h) as [[o|s]|] eqn:Hip.
  - intros [= <-]. by constructor.
  - by apply IpAddr_from_str_v6_colon in Hip.
  - destruct (negb (forallb is_ascii_byte h)); [done|]. destruct (existsb bad_label _) eqn:Hl; [done|].
    intros [= <-]. apply existsb_false_Forall in Hl. rewrite (Forall_iff _ _ _ host_label_iff) in Hl.
    rewrite <-(join_split_bytes 46 h) in Hip |- * by done. apply host_name; [|done|done].
    by destruct (split_bytes_cons (byte_is 46) h) as (? & ? & ->).
Qed.

(** The bytes of a host without brackets, as given. *)
Definition given_host_byte (b : byte) : bool :=
  is_ascii_alphanumeric b || byte_is 45 b || byte_is 46 b.

Lemma name_given_bytes labels :
  Forall host_label labels →
  Forall (λ b, given_host_byte b = true) (byte_join (bytes ".") labels).
Proof.
  intros Hl. apply byte_join_Forall; [by repeat constructor|]. eapply Forall_impl; [done|].
  intros label Hb%host_label_bytes. eapply Forall_impl; [done|].
  intros b Hb'. unfold given_host_byte. by rewrite Hb'.
Qed.

Lemma given_host_plain h :
  h ≠ [] → Forall (λ b, given_host_byte b = true) h →
  has_prefix (bytes "[") h = false ∧ no_colon h ∧
  bool_decide (h = []) || existsb (byte_is 37) h = false ∧ forallb is_ascii_byte h = true ∧
  Forall (λ b, authority_byte b = true) h.
Proof.
  intros Hne Hb. rewrite bool_decide_eq_false_2 by done. split_and!.
  - destruct h as [|b h]; [done|]. inversion_clear Hb as [|? ? Hb' _]. simpl.
    rewrite bool_decide_eq_false_2; [done|]. intros <-. by vm_compute in Hb'.
  - eapply Forall_impl; [done|]. apply (byte_excludes given_host_byte (byte_is 58)).
    vm_compute. reflexivity.
  - apply existsb_false_Forall. eapply Forall_impl; [done|].
    apply (byte_excludes given_host_byte (byte_is 37)). vm_compute. reflexivity.
  - apply forallb_Forall. eapply Forall_impl; [done|].
    apply (byte_implies given_host_byte is_ascii_byte). vm_compute. reflexivity.
  - eapply Forall_impl; [done|]. apply (byte_implies given_host_byte authority_byte).
    vm_compute. reflexivity.
Qed.

(** A host that stands, in its two forms. *)
Lemma host_stands_forms h host :
  host_stands h host →
  (∃ text segments, IpAddr_from_str text = Some (V6 segments) ∧
     h = bytes "[" ++ text ++ bytes "]" ∧
     host = bytes "[" ++ IpAddr_fmt (V6 segments) ++ bytes "]") ∨
  (h ≠ [] ∧ Forall (λ b, given_host_byte b = true) h ∧ canonical_host h = Ok host).
Proof.
  destruct 1 as [text s Hip|text o Hip|labels Hne Hl Hip]; [left; by exists text, s|right..].
  - assert (text ≠ []) as Hne by by intros ->.
    assert (Forall (λ b, given_host_byte b = true) text) as Hb.
    { eapply Forall_impl; [by eapply IpAddr_from_str_v4_bytes|]. intros b. by destruct b. }
    split_and!; [done..|]. destruct (given_host_plain text Hne Hb) as (Hp & _ & He & _).
    unfold canonical_host. by rewrite He, Hp, Hip.
  - pose proof (name_given_bytes labels Hl) as Hb.
    assert (byte_join (bytes ".") labels ≠ []) as Hne'.
    { destruct Hl as [|x l [Hx _] _]; [done|]. simpl. by destruct x. }
    split_and!; [done..|]. destruct (given_host_plain _ Hne' Hb) as (Hp & _ & He & Ha & _).
    unfold canonical_host. rewrite He, Hp, Hip, Ha.
    change (bytes ".") with [byte_of 46]. rewrite split_join_bytes; [|done..|].
    + assert (existsb bad_label labels = false) as ->; [|done].
      apply existsb_false_Forall. by rewrite (Forall_iff _ _ _ host_label_iff).
    + eapply Forall_impl; [done|]. intros label Hb'%host_label_bytes.
      eapply Forall_impl; [done|].
      apply (byte_excludes (λ b, is_ascii_alphanumeric b || byte_is 45 b) (byte_is 46)).
      vm_compute. reflexivity.
Qed.

Lemma port_source_bytes t p :
  read_port t = Ok p → Forall (λ b, authority_byte b = true) (port_source t).
Proof.
  destruct t as [digits|]; [|constructor]. intros (v & (_ & Hd & _)%parse_port_iff & _)%result_map_ok.
  constructor; [done|]. eapply Forall_impl; [done|]. intros b Hb%digit_iff. revert b Hb.
  apply (byte_implies is_ascii_digit authority_byte). vm_compute. reflexivity.
Qed.

(** The authorities that are read, and what they are read as. *)
Lemma canonical_host_and_port_iff authority host port :
  canonical_host_and_port authority = Ok (host, port) ↔
  ∃ h t, authority = h ++ port_source t ∧ host_stands h host ∧ read_port t = Ok port.
Proof.
  split.
  - intros (h & t & Hs & Hh & Hp)%canonical_host_and_port_some.
    apply split_authority_some in Hs as [(text & s & Hip & -> & ->)|(Hpre & Hcolon & ->)].
    + rewrite canonical_host_v6 in Hh by by eapply IpAddr_from_str_wf.
      assert (host = bytes "[" ++ IpAddr_fmt (V6 s) ++ bytes "]") as -> by congruence.
      exists (bytes "[" ++ text ++ bytes "]"), t. split_and!; [done|by constructor|done].
    + exists h, t. split_and!; [done|by apply canonical_host_stands|done].
  - intros (h & t & -> & Hh & Hp).
    apply host_stands_forms in Hh as [(text & s & Hip & -> & ->)|(Hne & Hb & Hh)].
    + erewrite canonical_host_and_port_read; [|by apply split_authority_v6|done].
      by rewrite canonical_host_v6 by by eapply IpAddr_from_str_wf.
    + destruct (given_host_plain h Hne Hb) as (Hpre & Hcolon & _).
      erewrite canonical_host_and_port_read; [by rewrite Hh| |done].
      apply split_authority_plain; [done..|]. by eapply read_port_no_colon.
Qed.

Lemma canonical_host_and_port_bytes authority host port :
  canonical_host_and_port authority = Ok (host, port) →
  authority ≠ [] ∧ Forall (λ b, authority_byte b = true) authority.
Proof.
  intros (h & t & -> & Hh & Hp)%canonical_host_and_port_iff. rewrite Forall_app.
  apply host_stands_forms in Hh as [(text & s & Hip & -> & _)|(Hne & Hb & _)].
  - split_and!; [done| |by eapply port_source_bytes].
    rewrite !Forall_app. split_and!; [by repeat constructor| |by repeat constructor].
    eapply Forall_impl; [by eapply IpAddr_from_str_some|].
    apply (byte_implies address_byte authority_byte). vm_compute. reflexivity.
  - split_and!; [by destruct h| |by eapply port_source_bytes]. by apply given_host_plain.
Qed.

(** ** Canonical URLs *)

Definition url_text (scheme host : list byte) (port : option N) (path : list byte) : list byte :=
  scheme ++ bytes "://" ++ host ++ port_text port ++ path.

(** The parts of a canonical URL: a lower-case scheme, a host and port that are
    their own canonical form, a port that is not the scheme's default, and a
    path in normal form that is empty or starts with a slash. *)
Record canonical_url (scheme host : list byte) (port : option N) (path : list byte) : Prop := {
  url_scheme_valid : valid_scheme scheme = true;
  url_scheme_lower : byte_to_ascii_lowercase <$> scheme = scheme;
  url_authority : canonical_authority host port;
  url_host_nonempty : host ≠ [];
  url_host_bytes : Forall (λ b, authority_byte b = true) host;
  url_port : drop_default_port scheme port = port;
  url_path : normalize_url_component path = Ok path;
  url_path_absolute : path = [] ∨ head path = Some (byte_of 47);
}.

Lemma valid_scheme_bytes scheme :
  valid_scheme scheme = true → scheme ≠ [] ∧ Forall (λ b, is_scheme_byte b = true) scheme.
Proof.
  destruct scheme as [|b l]; [done|]. cbn [valid_scheme]. rewrite andb_true_iff, forallb_Forall.
  by intros [].
Qed.

Lemma valid_scheme_lowercase scheme :
  valid_scheme (byte_to_ascii_lowercase <$> scheme) = valid_scheme scheme.
Proof.
  unfold valid_scheme. rewrite forallb_fmap.
  rewrite (forallb_ext' (is_scheme_byte ∘ byte_to_ascii_lowercase) is_scheme_byte)
    by (unfold compose; apply byte_same; vm_compute; reflexivity).
  destruct scheme as [|b l]; [done|]. csimpl. f_equal. revert b.
  apply (byte_same (λ b, is_ascii_alphabetic (byte_to_ascii_lowercase b)) is_ascii_alphabetic).
  vm_compute. reflexivity.
Qed.

Lemma component_bytes l : url_component l → Forall (λ b, url_byte b = true) l.
Proof.
  induction 1 as [|b l Hb _ IH|high low l Hh Hl _ IH]; [constructor| |].
  - constructor; [|done]. revert b Hb. apply (byte_implies is_url_path_character url_byte).
    vm_compute. reflexivity.
  - constructor; [done|]. pose proof (byte_implies is_ascii_hexdigit url_byte
      ltac:(vm_compute; reflexivity)) as H. repeat constructor; auto.
Qed.

(** The whole scan accepts a text of URL bytes. *)
Lemma url_bytes_accepted l :
  Forall (λ b, url_byte b = true) l →
  existsb (λ c, char_is_control c || char_is_whitespace c) (chars (from_utf8 l)) = false ∧
  str_contains (byte_is 63) (from_utf8 l) || str_contains (byte_is 35) (from_utf8 l) = false.
Proof.
  intros Hl. unfold str_contains. rewrite bytes_from_utf8.
  assert (∀ q, forallb (λ b, implb (url_byte b) (negb (q b))) every_byte = true →
    existsb q l = false) as Hq.
  { intros q Hq. apply existsb_false_Forall. eapply Forall_impl; [done|]. by apply byte_excludes. }
  split.
  - rewrite chars_ascii; rewrite bytes_from_utf8.
    + rewrite existsb_fmap. apply Hq. vm_compute. reflexivity.
    + eapply Forall_impl; [done|]. intros b Hb. apply N.ltb_lt. revert b Hb.
      apply (byte_implies url_byte is_ascii_byte). vm_compute. reflexivity.
  - rewrite !Hq; [done|vm_compute; reflexivity..].
Qed.

Lemma find_slash authority path :
  Forall (λ b, authority_byte b = true) authority →
  (path = [] ∨ head path = Some (byte_of 47)) →
  default (length (authority ++ path)) (find_index (byte_is 47) (authority ++ path))
    = length authority.
Proof.
  intros Ha Hp. assert (Forall (λ b, byte_is 47 b = false) authority) as Hs.
  { eapply Forall_impl; [done|]. apply (byte_excludes authority_byte (byte_is 47)).
    vm_compute. reflexivity. }
  destruct path as [|b path].
  - rewrite app_nil_r. by rewrite (proj2 (find_index_none _ _)).
  - destruct Hp as [|[= ->]]; [done|]. by rewrite find_index_app.
Qed.

Lemma url_byte_accepted_of l :
  Forall (λ b, authority_byte b = true) l → Forall (λ b, url_byte b = true) l.
Proof.
  intros Hl. eapply Forall_impl; [done|]. apply (byte_implies authority_byte url_byte).
  vm_compute. reflexivity.
Qed.

Lemma scheme_url_bytes scheme :
  valid_scheme scheme = true → Forall (λ b, url_byte b = true) scheme.
Proof.
  intros Hv. eapply Forall_impl; [by apply valid_scheme_bytes|].
  apply (byte_implies is_scheme_byte url_byte). vm_compute. reflexivity.
Qed.

(** ** The parts of the text given *)

(** The text is a scheme, an authority and a path, each of which is read. *)
Record url_parts (l scheme authority path_text host : list byte) (port : option N)
    (path : list byte) : Prop := {
  parts_text : l = scheme ++ bytes "://" ++ authority ++ path_text;
  parts_scheme : valid_scheme scheme = true;
  parts_authority : canonical_host_and_port authority = Ok (host, port);
  parts_absolute : path_text = [] ∨ head path_text = Some (byte_of 47);
  parts_path : normalize_url_component path_text = Ok path;
}.

Lemma parts_bytes l scheme authority path_text host port path :
  url_parts l scheme authority path_text host port path → Forall (λ b, url_byte b = true) l.
Proof.
  intros [-> Hv Ha _ Hp]. rewrite !Forall_app. split_and!.
  - by apply scheme_url_bytes.
  - by repeat constructor.
  - by eapply url_byte_accepted_of, canonical_host_and_port_bytes.
  - by eapply component_bytes, normalize_ok_component.
Qed.

Lemma NormalizedGitUrl_new_parts s scheme authority path_text host port path :
  url_parts (bytes s) scheme authority path_text host port path →
  NormalizedGitUrl_new s = Ok (mk_NormalizedGitUrl (from_utf8 (url_text
    (byte_to_ascii_lowercase <$> scheme) host
    (drop_default_port (byte_to_ascii_lowercase <$> scheme) port) path))).
Proof.
  intros Hu. destruct (url_bytes_accepted _ (parts_bytes _ _ _ _ _ _ _ Hu)) as [Hc Hq].
  rewrite from_utf8_bytes in Hc, Hq. destruct Hu as [Hs Hv Hauth Habs Hpath].
  destruct (canonical_host_and_port_bytes _ _ _ Hauth) as [Hne Ha].
  destruct (valid_scheme_bytes _ Hv) as [Hsne Hsb].
  unfold NormalizedGitUrl_new. rewrite Hc, Hq, Hs.
  rewrite bool_decide_eq_false_2.
  2:{ intros E. apply (f_equal bytes) in E. rewrite Hs in E. by destruct scheme. }
  assert (find_sub (bytes "://") (scheme ++ bytes "://" ++ authority ++ path_text)
    = Some (length scheme)) as ->.
  { apply find_sub_app. eapply Forall_impl; [done|]. intros b Hb ->. by vm_compute in Hb. }
  cbv zeta beta iota. rewrite take_app_length, drop_app_add, Hv.
  assert (drop 3 (bytes "://" ++ authority ++ path_text) = authority ++ path_text) as -> by done.
  cbn [negb]. rewrite find_slash, take_app_length, drop_app_length by done.
  rewrite bool_decide_eq_false_2 by done.
  assert (existsb (byte_is 64) authority = false) as ->.
  { apply existsb_false_Forall. eapply Forall_impl; [done|].
    apply (byte_excludes authority_byte (byte_is 64)). vm_compute. reflexivity. }
  rewrite Hauth. cbn [result_bind]. by rewrite Hpath.
Qed.

Lemma path_start remainder :
  drop (default (length remainder) (find_index (byte_is 47) remainder)) remainder = [] ∨
  head (drop (default (length remainder) (find_index (byte_is 47) remainder)) remainder)
    = Some (byte_of 47).
Proof.
  destruct (find_index (byte_is 47) remainder) as [i|] eqn:E; [|left; by apply drop_all].
  right. apply find_index_some in E as (before & b & after & -> & <- & _ & Hb).
  change (default ?k (Some ?n)) with n.
  rewrite drop_app_length. by apply (byte_is_eq 47) in Hb as ->.
Qed.

Lemma NormalizedGitUrl_new_ok s u :
  NormalizedGitUrl_new s = Ok u →
  ∃ scheme authority path_text host port path,
    url_parts (bytes s) scheme authority path_text host port path.
Proof.
  unfold NormalizedGitUrl_new. destruct (bool_decide (s = "")); [done|].
  destruct (existsb _ (chars s)); [done|]. destruct (str_contains _ s || _); [done|].
  destruct (find_sub _ (bytes s)) as [i|] eqn:Hi; [|done].
  apply find_sub_some in Hi as (scheme & remainder & -> & <-).
  rewrite take_app_length, drop_app_add.
  assert (drop 3 (bytes "://" ++ remainder) = remainder) as -> by done.
  destruct (valid_scheme scheme) eqn:Hv; [|done]. cbn [negb].
  pose proof (path_start remainder) as Hstart. revert Hstart.
  generalize (default (length remainder) (find_index (byte_is 47) remainder)). intros cut Hstart.
  destruct (bool_decide (take cut remainder = [])); [done|].
  destruct (existsb (byte_is 64) _); [done|].
  intros ([host port] & Hauth & H)%result_bind_ok. apply result_bind_ok in H as (path & Hpath & _).
  exists scheme, (take cut remainder), (drop cut remainder), host, port, path.
  split; [by rewrite take_drop|done..].
Qed.

Lemma NormalizedGitUrl_new_canonical scheme host port path :
  canonical_url scheme host port path →
  NormalizedGitUrl_new (from_utf8 (url_text scheme host port path)) =
    Ok (mk_NormalizedGitUrl (from_utf8 (url_text scheme host port path))).
Proof.
  intros [Hv Hlow Hauth Hne Hhb Hport Hpath Habs].
  erewrite (NormalizedGitUrl_new_parts _ scheme (host ++ port_text port) path host port path).
  - by rewrite Hlow, Hport.
  - split; try done. rewrite bytes_from_utf8. unfold url_text. by rewrite <-app_assoc.
Qed.

Lemma drop_default_port_idemp scheme port :
  drop_default_port scheme (drop_default_port scheme port) = drop_default_port scheme port.
Proof. destruct port as [p|]; cbn; [|done]. destruct (is_default_port scheme p) eqn:E; cbn; by rewrite ?E. Qed.

(** What the parts are normalised to is canonical. *)
Lemma parts_canonical l scheme authority path_text host port path :
  url_parts l scheme authority path_text host port path →
  canonical_url (byte_to_ascii_lowercase <$> scheme) host
    (drop_default_port (byte_to_ascii_lowercase <$> scheme) port) path.
Proof.
  intros [_ Hv Hauth Habs Hpath].
  destruct (canonical_host_and_port_canonical _ _ _ Hauth) as (Hp & Hh & Hb & Hcanon).
  destruct (normalize_component _ (normalize_ok_component _ _ Hpath))
    as (path' & Hpath' & Hnorm & _ & _ & _ & Hnil & Hhead).
  rewrite Hpath in Hpath'. injection Hpath' as <-. split; try done.
  - by rewrite valid_scheme_lowercase.
  - rewrite <-list_fmap_compose. apply list_fmap_ext. intros ? ? _. apply byte_lowercase_idemp.
  - apply Hcanon. destruct port as [p|]; [|done]. cbn. by destruct (is_default_port _ p).
  - apply drop_default_port_idemp.
  - destruct Habs as [He|He]; [left; by apply Hnil|right; by apply Hhead].
Qed.

Lemma parts_stand s u :
  url_stands s (from_utf8 u) ↔ ∃ scheme authority path_text host port path,
    url_parts (bytes s) scheme authority path_text host port path ∧
    u = url_text (byte_to_ascii_lowercase <$> scheme) host
          (drop_default_port (byte_to_ascii_lowercase <$> scheme) port) path.
Proof.
  assert (∀ l : list byte, (l = [] ∨ head l = Some (byte_of 47)) ↔ l = [] ∨ ∃ rest, l = bytes "/" ++ rest)
    as Hslash.
  { intros [|b l]; [naive_solver|]. change (bytes "/") with [byte_of 47]. simpl. naive_solver. }
  unfold url_stands. rewrite bytes_from_utf8. split.
  - intros (scheme & h & part & pt & host & port & path & Hs & Hf & Hh & Hp & Habs & Hpath & ->).
    apply port_stands_iff in Hp as (t & p & -> & Hp & ->).
    exists scheme, (h ++ port_source t), pt, host, p, path. split; [|done]. split.
    + by rewrite Hs, <-app_assoc.
    + by apply scheme_form_iff.
    + apply canonical_host_and_port_iff. by exists h, t.
    + by apply Hslash.
    + by apply path_stands_iff.
  - intros (scheme & a & pt & host & p & path & [Hs Hv Ha Habs Hpath] & ->).
    apply canonical_host_and_port_iff in Ha as (h & t & -> & Hh & Hp).
    eexists scheme, h, (port_source t), pt, host, _, path. split_and!; [by rewrite Hs, <-app_assoc|
      by apply scheme_form_iff|done| |by apply Hslash|by apply path_stands_iff|done].
    apply port_stands_iff. by exists t, p.
Qed.

(** C40: a text is accepted exactly when it is [scheme://host[:port]path] with
    a scheme of letters, digits, plus, hyphen and full stop, a host that is an
    address or a name of labels, a port of at most sixteen bits and a path that
    is empty or absolute, of path characters and escapes. The URL made of it
    is then the one that stands for these parts: scheme and name in lower case,
    the address printed in its canonical form, the port kept unless it is the
    default of the scheme, escaped unreserved characters decoded and the other
    escapes in upper case. That URL is its own normal form. *)
Theorem NormalizedGitUrl_new_spec s u :
  (NormalizedGitUrl_new s = Ok u → NormalizedGitUrl_new (NormalizedGitUrl_as_str u) = Ok u) ∧
  (NormalizedGitUrl_new s = Ok u ↔ url_stands s (NormalizedGitUrl_as_str u)).
Proof.
  split; [|split].
  - intros Hn. destruct (NormalizedGitUrl_new_ok s u Hn) as (sc & a & pt & h & p & pa & Hu).
    pose proof (NormalizedGitUrl_new_parts _ _ _ _ _ _ _ Hu) as Hn'. rewrite Hn in Hn'.
    injection Hn' as ->. by eapply NormalizedGitUrl_new_canonical, parts_canonical.
  - intros Hn. destruct (NormalizedGitUrl_new_ok s u Hn) as (sc & a & pt & h & p & pa & Hu).
    pose proof (NormalizedGitUrl_new_parts _ _ _ _ _ _ _ Hu) as Hn'. rewrite Hn in Hn'.
    injection Hn' as ->. apply parts_stand. by exists sc, a, pt, h, p, pa.
  - destruct u as [u]. simpl. rewrite <-(from_utf8_bytes u).
    intros (sc & a & pt & h & p & pa & Hu & ->)%parts_stand.
    by apply NormalizedGitUrl_new_parts in Hu.
Qed.
