(* ===== verification/Publication.v ===== *)
(** * Publication dates ([rsolve-core/src/publication.rs]) *)

From S2P Require Import Prelude RustStd Externals Format.

Inductive PublicationDateError :=
| InvalidDate (input diagnostic : string)
| NonCanonicalDate (input : string).

Section publication.
Context `{CivilDate}.

Record PublicationDate := mk_PublicationDate { PublicationDate_0 : Date }.

Definition PublicationDate_as_str (d : PublicationDate) : string :=
  Date_strftime "%Y-%m-%d" (PublicationDate_0 d).

Definition PublicationDate_parse (input : string) : result PublicationDate PublicationDateError :=
  let? date := map_err (InvalidDate input) (Date_strptime "%Y-%m-%d" input) in
  let publication := mk_PublicationDate date in
  if bool_decide (PublicationDate_as_str publication ≠ input) then Err (NonCanonicalDate input)
  else Ok publication.

Definition PublicationDate_cmp : PublicationDate → PublicationDate → comparison :=
  cmp_on PublicationDate_0 Date_cmp.

Record ReleasePublication := mk_ReleasePublication { ReleasePublication_date : PublicationDate }.
Record PublicationCutoff := mk_PublicationCutoff { PublicationCutoff_date : PublicationDate }.

#[global] Instance PublicationDate_eq_dec : EqDecision PublicationDate.
Proof. solve_decision. Defined.
#[global] Instance ReleasePublication_eq_dec : EqDecision ReleasePublication.
Proof. solve_decision. Defined.
#[global] Instance PublicationCutoff_eq_dec : EqDecision PublicationCutoff.
Proof. solve_decision. Defined.
#[global] Instance req_PublicationDate : PartialEq PublicationDate := req_dec.
#[global] Instance req_PublicationDate_leibniz : LeibnizEq PublicationDate := req_dec_leibniz.
#[global] Instance req_ReleasePublication : PartialEq ReleasePublication := req_dec.
#[global] Instance req_ReleasePublication_leibniz : LeibnizEq ReleasePublication := req_dec_leibniz.

#[global] Instance PublicationDate_cmp_order `{!CivilDateLaws} : CmpOrder PublicationDate_cmp :=
  cmp_on_order PublicationDate_0 Date_cmp.
#[global] Instance PublicationDate_cmp_leibniz `{!CivilDateLaws} : CmpLeibniz PublicationDate_cmp.
Proof. intros [d] [e] E. f_equal. by apply (cmp_eq_leibniz Date_cmp). Qed.

Lemma PublicationDate_parse_ok input d :
  PublicationDate_parse input = Ok d ↔
    Date_strptime "%Y-%m-%d" input = Ok (PublicationDate_0 d) ∧
    PublicationDate_as_str d = input.
Proof.
  unfold PublicationDate_parse. rewrite result_bind_ok. setoid_rewrite map_err_ok. split.
  - intros (date & Hd & Hc). case_bool_decide as Hne; [done|]. injection Hc as <-.
    split; [done|exact Hne].
  - intros [Hd <-]. exists (PublicationDate_0 d). split; [done|]. destruct d.
    by rewrite bool_decide_eq_false_2 by (intros Hn; by apply Hn).
Qed.

(** An accepted date prints as the text it was parsed from, so parsing is
    injective and its output parses back. *)
Theorem PublicationDate_parse_roundtrip input d :
  PublicationDate_parse input = Ok d →
  PublicationDate_as_str d = input ∧
  PublicationDate_parse (PublicationDate_as_str d) = Ok d ∧
  (∀ input', PublicationDate_parse input' = Ok d → input' = input).
Proof.
  intros Hp. pose proof Hp as [_ Hs]%PublicationDate_parse_ok. split_and!; [done|by rewrite Hs|].
  intros input' [_ <-]%PublicationDate_parse_ok. done.
Qed.
End publication.

Definition PublicationDateError_fmt `{UnicodeTables} (e : PublicationDateError) : string :=
  match e with
  | InvalidDate input diagnostic =>
    "invalid publication date " +:+ debug_str input +:+ ": " +:+ diagnostic
  | NonCanonicalDate input => "publication date " +:+ debug_str input +:+ " is not YYYY-MM-DD"
  end.
