(* ===== verification/Identity.v ===== *)
(** * Release identities and distributions ([rsolve-core/src/identity.rs])

    Provenance and identity with their derived equality (which sees versions
    through the numeric order) and their [{:?}] text; distributions and the
    canonical key that orders and deduplicates them. *)

From S2P Require Import Prelude RustStd Collections Externals Format Versions Names.

(** ** Provenance and identity *)

Inductive Provenance :=
| RBasePackage (r_version : RPackageVersion)
| RegistryRelease (namespace : PackageNamespace) (version : RPackageVersion)
| GitCommit (repository : NormalizedGitUrl) (commit : GitCommitId)
    (subdirectory : option RepositorySubdir)
| BioconductorReleaseOf (namespace : PackageNamespace) (release : BioconductorRelease)
    (version : RPackageVersion)
| ImmutableSource (scheme : SourceScheme) (digest : Sha256Digest).

Definition Provenance_is_r_base_package (p : Provenance) : bool :=
  match p with RBasePackage _ => true | _ => false end.

Definition Provenance_eq (p q : Provenance) : bool :=
  match p, q with
  | RBasePackage v, RBasePackage w => v =?= w
  | RegistryRelease n v, RegistryRelease m w => (n =?= m) && (v =?= w)
  | GitCommit r c s, GitCommit r' c' s' => (r =?= r') && (c =?= c') && (s =?= s')
  | BioconductorReleaseOf n r v, BioconductorReleaseOf m r' w =>
    (n =?= m) && (r =?= r') && (v =?= w)
  | ImmutableSource s d, ImmutableSource s' d' => (s =?= s') && (d =?= d')
  | _, _ => false
  end.
#[export] Instance req_Provenance : PartialEq Provenance := Provenance_eq.

Record ReleaseIdentity := mk_ReleaseIdentity {
  ReleaseIdentity_name : PackageName;
  ReleaseIdentity_provenance : Provenance;
}.

Definition ReleaseIdentity_eq (i j : ReleaseIdentity) : bool :=
  (ReleaseIdentity_name i =?= ReleaseIdentity_name j) &&
  (ReleaseIdentity_provenance i =?= ReleaseIdentity_provenance j).
#[export] Instance req_ReleaseIdentity : PartialEq ReleaseIdentity := ReleaseIdentity_eq.

#[export] Instance req_Provenance_equivalence : RustEq Provenance.
Proof. solve_rust_eq Provenance_eq. Qed.
#[export] Instance req_ReleaseIdentity_equivalence : RustEq ReleaseIdentity.
Proof. solve_rust_eq ReleaseIdentity_eq. Qed.

Lemma ReleaseIdentity_req_iff i j :
  i ≈ j ↔ ReleaseIdentity_name i = ReleaseIdentity_name j ∧
          ReleaseIdentity_provenance i ≈ ReleaseIdentity_provenance j.
Proof.
  change (ReleaseIdentity_eq i j = true ↔ ReleaseIdentity_name i = ReleaseIdentity_name j ∧
    ReleaseIdentity_provenance i ≈ ReleaseIdentity_provenance j).
  unfold ReleaseIdentity_eq. by rewrite andb_true_iff, req_leibniz.
Qed.

#[export] Instance ReleaseIdentity_name_proper : Proper ((≈) ==> (=)) ReleaseIdentity_name.
Proof. by intros i j [? _]%ReleaseIdentity_req_iff. Qed.
#[export] Instance ReleaseIdentity_provenance_proper :
  Proper ((≈) ==> (≈)) ReleaseIdentity_provenance.
Proof. by intros i j [_ ?]%ReleaseIdentity_req_iff. Qed.
#[export] Instance is_r_base_package_proper : Proper ((≈) ==> (=)) Provenance_is_r_base_package.
Proof. by intros [] []. Qed.

(** ** [{:?}] of identities *)

Section debug.
Context `{UnicodeTables}.

Definition Identifier_debug {kind} (i : Identifier kind) : string :=
  debug_tuple (IdentifierKind_name kind) [debug_str (Identifier_as_str i)].
Definition PackageName_debug (n : PackageName) : string :=
  debug_tuple "PackageName" [debug_str (PackageName_as_str n)].
Definition NormalizedGitUrl_debug (u : NormalizedGitUrl) : string :=
  debug_tuple "NormalizedGitUrl" [debug_str (NormalizedGitUrl_as_str u)].
Definition RepositorySubdir_debug (d : RepositorySubdir) : string :=
  debug_tuple "RepositorySubdir" [debug_str (RepositorySubdir_as_str d)].
Definition Sha256Digest_debug (d : Sha256Digest) : string :=
  debug_tuple "Sha256Digest" [debug_str (Sha256Digest_as_str d)].
Definition GitHashAlgorithm_debug (a : GitHashAlgorithm) : string :=
  match a with Sha1 => "Sha1" | Sha256 => "Sha256" end.
Definition GitCommitId_debug (c : GitCommitId) : string :=
  debug_struct "GitCommitId"
    [("algorithm", GitHashAlgorithm_debug (GitCommitId_algorithm c));
     ("hex", debug_str (GitCommitId_as_str c))].

Definition Components_debug (c : Components) : string :=
  match c with
  | Inline values len =>
    debug_struct "Inline" [("values", debug_list (N_to_string <$> values));
                           ("len", N_to_string len)]
  | Spill values => debug_tuple "Spill" [debug_list (N_to_string <$> values)]
  end.
Definition RPackageVersion_debug (v : RPackageVersion) : string :=
  debug_struct "RPackageVersion"
    [("raw", debug_str (version_raw v)); ("components", Components_debug (version_components v))].

Definition Provenance_debug (p : Provenance) : string :=
  match p with
  | RBasePackage v => debug_struct "RBasePackage" [("r_version", RPackageVersion_debug v)]
  | RegistryRelease n v =>
    debug_struct "RegistryRelease"
      [("namespace", Identifier_debug n); ("version", RPackageVersion_debug v)]
  | GitCommit r c s =>
    debug_struct "GitCommit"
      [("repository", NormalizedGitUrl_debug r); ("commit", GitCommitId_debug c);
       ("subdirectory", debug_option (RepositorySubdir_debug <$> s))]
  | BioconductorReleaseOf n r v =>
    debug_struct "BioconductorRelease"
      [("namespace", Identifier_debug n); ("release", Identifier_debug r);
       ("version", RPackageVersion_debug v)]
  | ImmutableSource s d =>
    debug_struct "ImmutableSource"
      [("scheme", Identifier_debug s); ("digest", Sha256Digest_debug d)]
  end.

Definition ReleaseIdentity_debug (i : ReleaseIdentity) : string :=
  debug_struct "ReleaseIdentity"
    [("name", PackageName_debug (ReleaseIdentity_name i));
     ("provenance", Provenance_debug (ReleaseIdentity_provenance i))].

(** [identity_sort_key] of the resolver: [format!("{}:{:?}", name, provenance)]. *)
Definition identity_sort_key (i : ReleaseIdentity) : string :=
  PackageName_as_str (ReleaseIdentity_name i) +:+ ":"
    +:+ Provenance_debug (ReleaseIdentity_provenance i).
End debug.

(** ** Distributions *)

Inductive UpstreamChecksum :=
| Md5 (value : string)
| ChecksumSha256 (value : Sha256Digest)
| Other (algorithm value : string).

Record SourceArtifact := mk_SourceArtifact {
  locator : ArtifactLocator;
  upstream_checksums : list UpstreamChecksum;
  size : option N;
}.

Inductive Artifact := Source (source : SourceArtifact).

(** A [BTreeMap<String, String>], in key order. *)
Definition Fields := list (string * string).

Record DistributionMetadata := mk_DistributionMetadata { metadata_fields : Fields }.

Record Distribution := mk_Distribution {
  registry : RegistryId;
  channel : DistributionChannel;
  snapshot : option SnapshotId;
  artifacts : list Artifact;
  observed_metadata : DistributionMetadata;
}.

#[export] Instance UpstreamChecksum_eq_dec : EqDecision UpstreamChecksum.
Proof. solve_decision. Defined.
#[export] Instance SourceArtifact_eq_dec : EqDecision SourceArtifact.
Proof. solve_decision. Defined.
#[export] Instance Artifact_eq_dec : EqDecision Artifact.
Proof. solve_decision. Defined.
#[export] Instance DistributionMetadata_eq_dec : EqDecision DistributionMetadata.
Proof. unfold EqDecision. intros [f] [g]. destruct (decide (f = g)); [left|right]; congruence. Defined.
#[export] Instance Distribution_eq_dec : EqDecision Distribution.
Proof. solve_decision. Defined.
#[export] Instance req_Distribution : PartialEq Distribution := req_dec.
#[export] Instance req_Distribution_leibniz : LeibnizEq Distribution := req_dec_leibniz.

(** ** The canonical distribution key *)

Definition key_field (key : list byte) (tag : N) (value : list byte) : list byte :=
  key ++ [byte_of tag] ++ u64_to_be_bytes (len_u64 value) ++ value.

Definition checksum_key (checksum : UpstreamChecksum) : list byte :=
  match checksum with
  | Md5 value => key_field [] 1 (bytes value)
  | ChecksumSha256 value => key_field [] 2 (bytes (Sha256Digest_as_str value))
  | Other algorithm value => key_field (key_field [] 3 (bytes algorithm)) 4 (bytes value)
  end.

Definition artifact_key (artifact : Artifact) : list byte :=
  match artifact with
  | Source source =>
    let key := key_field [] 0 (bytes "Source") in
    let key := key_field key 1 (bytes (Identifier_as_str (locator source))) in
    let key := key_field key 2 (u64_to_be_bytes (len_u64 (upstream_checksums source))) in
    let key := foldl (λ key checksum, key_field key 3 (checksum_key checksum)) key
                 (upstream_checksums source) in
    match size source with
    | Some size => key_field (key_field key 4 [byte_of 1]) 5 (u64_to_be_bytes size)
    | None => key_field key 4 [byte_of 0]
    end
  end.

Definition metadata_key (field : string * string) : list byte :=
  key_field (key_field [] 1 (bytes field.1)) 2 (bytes field.2).

Definition distribution_key (d : Distribution) : list byte :=
  let key := key_field [] 1 (bytes (Identifier_as_str (registry d))) in
  let key := key_field key 2 (bytes (Identifier_as_str (channel d))) in
  let key := match snapshot d with
             | Some s => key_field (key_field key 3 [byte_of 1]) 4 (bytes (Identifier_as_str s))
             | None => key_field key 3 [byte_of 0]
             end in
  let key := key_field key 5 (u64_to_be_bytes (len_u64 (artifacts d))) in
  let key := foldl (λ key artifact, key_field key 6 (artifact_key artifact)) key (artifacts d) in
  let fields := metadata_fields (observed_metadata d) in
  let key := key_field key 7 (u64_to_be_bytes (len_u64 fields)) in
  foldl (λ key field, key_field key 8 (metadata_key field)) key fields.

(** Sorts by key and drops consecutive equal keys. *)
Definition canonicalize_distributions (distributions : list Distribution) : list Distribution :=
  let keyed := (λ d, (distribution_key d, d)) <$> distributions in
  let keyed := sort_by (cmp_on fst bytes_cmp) keyed in
  let keyed := dedup_by (λ left right, bool_decide (left.1 = right.1)) keyed in
  keyed.*2.

(** ** The key is injective

    A key is a sequence of fields, each a tag byte, a 64-bit length and that
    many bytes.  [encode_fields] reads such a sequence off directly; it is
    injective because every field announces its length. *)

#[local] Opaque u64_to_be_bytes.

Definition field := (byte * list byte)%type.
Definition encode_field (f : field) : list byte :=
  f.1 :: u64_to_be_bytes (len_u64 f.2) ++ f.2.
Definition encode_fields (l : list field) : list byte := mjoin (encode_field <$> l).

Lemma key_field_encode key tag value :
  key_field key tag value = key ++ encode_field (byte_of tag, value).
Proof. done. Qed.

Lemma encode_fields_app l k : encode_fields (l ++ k) = encode_fields l ++ encode_fields k.
Proof. unfold encode_fields. by rewrite fmap_app, join_app. Qed.

Lemma encode_fields_cons f l : encode_fields (f :: l) = encode_field f ++ encode_fields l.
Proof. done. Qed.

Lemma length_encode_field f : length (encode_field f) = 9 + length f.2.
Proof. unfold encode_field. cbn [length]. by rewrite length_app, length_u64_to_be_bytes. Qed.

Lemma key_fields_foldl {A} key tag (f : A → list byte) (l : list A) :
  foldl (λ key x, key_field key tag (f x)) key l
    = key ++ encode_fields ((λ x, (byte_of tag, f x)) <$> l).
Proof.
  revert key. induction l as [|x l IH]; intros key; simpl; [by rewrite app_nil_r|].
  rewrite IH, key_field_encode, <-app_assoc. done.
Qed.

(** A value that fits the address space has a [u64] length. *)
Definition fits {A} (l : list A) : Prop := (len_u64 l ≤ u64_max)%N.

Lemma fits_le {A B} (l : list A) (k : list B) : length l ≤ length k → fits k → fits l.
Proof. unfold fits, len_u64. lia. Qed.

Lemma cons_inj_iff {A} (x y : A) l k : x :: l = y :: k → x = y ∧ l = k.
Proof. by intros [=]. Qed.

Lemma encode_field_inj f g r s :
  fits f.2 → fits g.2 → encode_field f ++ r = encode_field g ++ s → f = g ∧ r = s.
Proof.
  intros Hf Hg E. unfold encode_field in E. rewrite <-!app_comm_cons, <-!app_assoc in E.
  apply cons_inj_iff in E as [Ht E].
  apply app_inj_1 in E as [Hlen E]; [|by rewrite !length_u64_to_be_bytes].
  apply u64_to_be_bytes_inj in Hlen; [|done..].
  apply app_inj_1 in E as [Hv ->]; [|unfold len_u64 in Hlen; lia].
  split; [|done]. destruct f, g; simpl in *; congruence.
Qed.

Lemma encode_fields_value_length f l : f ∈ l → length f.2 ≤ length (encode_fields l).
Proof.
  induction 1 as [f l|f g l _ IH]; rewrite encode_fields_cons, length_app, length_encode_field; lia.
Qed.

Lemma encode_fields_fits f l : fits (encode_fields l) → f ∈ l → fits f.2.
Proof. intros Hl Hf. eapply fits_le; [|done]. by apply encode_fields_value_length. Qed.

Lemma encode_fields_inj l k : fits (encode_fields l) → encode_fields l = encode_fields k → l = k.
Proof.
  intros Hl E. assert (fits (encode_fields k)) as Hk by by rewrite <-E.
  assert (∀ f, f ∈ l → fits f.2) as Hfl by (intros f; by apply (encode_fields_fits f l)).
  assert (∀ f, f ∈ k → fits f.2) as Hfk by (intros f; by apply (encode_fields_fits f k)).
  clear Hl Hk. revert k E Hfk. induction l as [|f l IH]; intros [|g k] E Hfk; [done..|].
  rewrite !encode_fields_cons in E.
  apply encode_field_inj in E as [-> E]; [|apply Hfl; left|apply Hfk; left].
  f_equal. apply IH; [|done|]; intros; [apply Hfl|apply Hfk]; by right.
Qed.

Lemma encode_fields_length_ge l : length l ≤ length (encode_fields l).
Proof.
  induction l as [|f l IH]; [done|].
  rewrite encode_fields_cons, length_app, length_encode_field. simpl. lia.
Qed.

(** Peels one field off an equation between field sequences. *)
Ltac peel_field E H :=
  apply cons_inj_iff in E as [H E]; apply (f_equal snd) in H; cbn [snd] in H.

(** A run of fields under one tag, of announced length. *)
Lemma field_run_inj {A} (tag : byte) (f : A → list byte) (l k : list A) (r s : list field) :
  (∀ x y, x ∈ l → y ∈ k → f x = f y → x = y) → length l = length k →
  ((λ x, (tag, f x)) <$> l) ++ r = ((λ x, (tag, f x)) <$> k) ++ s → l = k ∧ r = s.
Proof.
  revert k. induction l as [|x l IH]; intros [|y k] Hf Hlen E; [done..|].
  rewrite !fmap_cons, <-!app_comm_cons in E. peel_field E H.
  apply IH in E as [-> ->]; [|by intros; apply Hf; [right..|]|by injection Hlen].
  split; [|done]. f_equal. apply Hf; [left|left|done].
Qed.

Lemma count_inj {A B} (l : list A) (k : list B) :
  fits l → fits k → u64_to_be_bytes (len_u64 l) = u64_to_be_bytes (len_u64 k) →
  length l = length k.
Proof. intros Hl Hk E%u64_to_be_bytes_inj; [|done..]. unfold len_u64 in E. lia. Qed.

(** Flattens both spellings of a key into one sequence of fields. *)
Ltac flatten_fields :=
  rewrite ?encode_fields_app, ?key_field_encode, ?encode_fields_cons;
  change (encode_fields []) with (@nil byte); rewrite ?app_nil_r, <-?app_assoc; reflexivity.

Definition checksum_fields (c : UpstreamChecksum) : list field :=
  match c with
  | Md5 value => [(x01, bytes value)]
  | ChecksumSha256 value => [(x02, bytes (Sha256Digest_as_str value))]
  | Other algorithm value => [(x03, bytes algorithm); (x04, bytes value)]
  end.

Lemma checksum_key_fields c : checksum_key c = encode_fields (checksum_fields c).
Proof. destruct c; cbn; by rewrite ?app_nil_r. Qed.

Lemma checksum_key_inj c c' : fits (checksum_key c) → checksum_key c = checksum_key c' → c = c'.
Proof.
  rewrite !checksum_key_fields. intros Hf E%encode_fields_inj; [|done].
  destruct c as [|[]|], c' as [|[]|]; simplify_eq/=; done.
Qed.

Definition size_fields (s : option N) : list field :=
  match s with
  | Some n => [(x04, [x01]); (x05, u64_to_be_bytes n)]
  | None => [(x04, [x00])]
  end.

Definition artifact_fields (a : Artifact) : list field :=
  match a with
  | Source source =>
    [(x00, bytes "Source"); (x01, bytes (Identifier_as_str (locator source)));
     (x02, u64_to_be_bytes (len_u64 (upstream_checksums source)))]
    ++ ((λ c, (x03, checksum_key c)) <$> upstream_checksums source)
    ++ size_fields (size source)
  end.

Lemma artifact_key_fields a : artifact_key a = encode_fields (artifact_fields a).
Proof.
  destruct a as [[l cs [s|]]]; unfold artifact_key, artifact_fields, size_fields;
    cbn [locator upstream_checksums size];
    rewrite key_fields_foldl; flatten_fields.
Qed.

(** The [size] field is a [u64]. *)
Definition artifact_wf (a : Artifact) : Prop :=
  match a with Source source => ∀ n, size source = Some n → (n ≤ u64_max)%N end.

Lemma size_fields_inj s s' :
  (∀ n, s = Some n → n ≤ u64_max)%N → (∀ n, s' = Some n → n ≤ u64_max)%N →
  size_fields s = size_fields s' → s = s'.
Proof.
  intros Hs Hs' E. destruct s as [n|], s' as [m|]; try done. simpl in E.
  peel_field E H1. peel_field E H2. f_equal.
  apply u64_to_be_bytes_inj; [by apply Hs|by apply Hs'|done].
Qed.

Lemma artifact_fields_fits l cs s :
  fits (encode_fields (artifact_fields (Source (mk_SourceArtifact l cs s)))) →
  fits cs ∧ ∀ c, c ∈ cs → fits (checksum_key c).
Proof.
  intros Hf. split.
  - eapply fits_le; [|exact Hf]. etrans; [|apply encode_fields_length_ge].
    unfold artifact_fields. cbn [upstream_checksums]. rewrite !length_app, length_fmap. lia.
  - intros c Hc. apply (encode_fields_fits (x03, checksum_key c) _ Hf).
    unfold artifact_fields. cbn [upstream_checksums].
    rewrite !elem_of_app, list_elem_of_fmap. eauto 10.
Qed.

Lemma artifact_key_inj a b :
  artifact_wf a → artifact_wf b → fits (artifact_key a) → artifact_key a = artifact_key b → a = b.
Proof.
  destruct a as [[l cs s]], b as [[l' cs' s']]. intros Ha Hb Hf E.
  rewrite !artifact_key_fields in *. pose proof Hf as Hf'. rewrite E in Hf'.
  apply encode_fields_inj in E; [|done].
  apply artifact_fields_fits in Hf as [Hc Hcs], Hf' as [Hc' _].
  unfold artifact_fields in E. cbn [locator upstream_checksums size] in E.
  rewrite <-!app_comm_cons in E. peel_field E H1. peel_field E El. peel_field E Hn.
  apply count_inj in Hn; [|done..].
  apply field_run_inj in E as [<- E]; [|by intros ????; apply checksum_key_inj; apply Hcs|done].
  apply size_fields_inj in E as <-; [|done..]. apply (inj bytes) in El.
  destruct l, l'. simpl in El. by subst.
Qed.

Definition metadata_fields_of (f : string * string) : list field :=
  [(x01, bytes f.1); (x02, bytes f.2)].

Lemma metadata_key_fields f : metadata_key f = encode_fields (metadata_fields_of f).
Proof. cbn. by rewrite app_nil_r, <-app_assoc. Qed.

Lemma metadata_key_inj f g : fits (metadata_key f) → metadata_key f = metadata_key g → f = g.
Proof.
  rewrite !metadata_key_fields. intros Hf E%encode_fields_inj; [|done].
  destruct f, g; simplify_eq/=; done.
Qed.

Definition snapshot_fields (s : option SnapshotId) : list field :=
  match s with
  | Some s => [(x03, [x01]); (x04, bytes (Identifier_as_str s))]
  | None => [(x03, [x00])]
  end.

Definition distribution_fields (d : Distribution) : list field :=
  [(x01, bytes (Identifier_as_str (registry d))); (x02, bytes (Identifier_as_str (channel d)))]
  ++ snapshot_fields (snapshot d)
  ++ [(x05, u64_to_be_bytes (len_u64 (artifacts d)))]
  ++ ((λ a, (x06, artifact_key a)) <$> artifacts d)
  ++ [(x07, u64_to_be_bytes (len_u64 (metadata_fields (observed_metadata d))))]
  ++ ((λ f, (x08, metadata_key f)) <$> metadata_fields (observed_metadata d)).

Lemma distribution_key_fields d : distribution_key d = encode_fields (distribution_fields d).
Proof.
  destruct d as [r c [s|] a [m]]; unfold distribution_key, distribution_fields, snapshot_fields;
    cbn [registry channel snapshot artifacts observed_metadata metadata_fields];
    rewrite !key_fields_foldl; flatten_fields.
Qed.

(** What memory and the field types guarantee: sizes are [u64] and the key
    itself is a vector. *)
Definition distribution_wf (d : Distribution) : Prop :=
  Forall artifact_wf (artifacts d) ∧ fits (distribution_key d).

Lemma distribution_fields_fits d :
  fits (encode_fields (distribution_fields d)) →
  (fits (artifacts d) ∧ ∀ a, a ∈ artifacts d → fits (artifact_key a)) ∧
  (fits (metadata_fields (observed_metadata d)) ∧
   ∀ f, f ∈ metadata_fields (observed_metadata d) → fits (metadata_key f)).
Proof.
  intros Hf. unfold distribution_fields in Hf. split; split.
  1,3: eapply fits_le; [|exact Hf]; etrans; [|apply encode_fields_length_ge];
    rewrite !length_app, !length_fmap; lia.
  - intros a Ha. apply (encode_fields_fits (x06, artifact_key a) _ Hf).
    rewrite !elem_of_app, !list_elem_of_fmap. eauto 10.
  - intros f Hm. apply (encode_fields_fits (x08, metadata_key f) _ Hf).
    rewrite !elem_of_app, !list_elem_of_fmap. eauto 10.
Qed.

Lemma snapshot_fields_inj s s' r r' :
  snapshot_fields s ++ r = snapshot_fields s' ++ r' → s = s' ∧ r = r'.
Proof.
  intros E. destruct s as [[s]|], s' as [[s']|]; simpl in E; try done;
    peel_field E H1; try done.
  peel_field E H2. apply (inj bytes) in H2 as ->. done.
Qed.

Lemma distribution_key_inj d e :
  distribution_wf d → distribution_wf e → distribution_key d = distribution_key e → d = e.
Proof.
  destruct d as [r c s a [m]], e as [r' c' s' a' [m']]. intros [Ha Hf] [Ha' Hf'] E.
  cbn [artifacts] in Ha, Ha'. rewrite !distribution_key_fields in *.
  apply encode_fields_inj in E; [|done].
  apply distribution_fields_fits in Hf as [[Hna Hfa] [Hnm Hfm]], Hf' as [[Hna' _] [Hnm' _]].
  unfold distribution_fields in E.
  cbn [registry channel snapshot artifacts observed_metadata metadata_fields] in *.
  rewrite <-!app_comm_cons in E. peel_field E Er. peel_field E Ec. simpl in E.
  apply snapshot_fields_inj in E as [<- E].
  peel_field E Hn. apply count_inj in Hn; [|done..].
  rewrite Forall_forall in Ha, Ha'.
  apply field_run_inj in E as [<- E];
    [|intros ????; apply artifact_key_inj; [by apply Ha|by apply Ha'|by apply Hfa]|done].
  peel_field E Hn'. apply count_inj in Hn'; [|done..].
  rewrite <-(app_nil_r (_ <$> m)), <-(app_nil_r (_ <$> m')) in E.
  apply field_run_inj in E as [<- _]; [|by intros ????; apply metadata_key_inj; apply Hfm|done].
  apply (inj bytes) in Er, Ec. destruct r, r', c, c'. simpl in *. by subst.
Qed.

(** ** Canonical distribution lists *)

Definition distribution_cmp : Distribution → Distribution → comparison :=
  cmp_on distribution_key bytes_cmp.
#[global] Typeclasses Opaque distribution_cmp.
#[export] Instance distribution_cmp_order : CmpOrder distribution_cmp :=
  cmp_on_order distribution_key bytes_cmp.

(** Strictly increasing keys. *)
Definition distributions_canonical (l : list Distribution) : Prop :=
  StronglySorted (λ d e, distribution_cmp d e = Lt) l.

Definition keyed (d : Distribution) : list byte * Distribution := (distribution_key d, d).

Lemma StronglySorted_fmap {A B} (R : B → B → Prop) (S : A → A → Prop) (f : A → B) l :
  (∀ x y, x ∈ l → y ∈ l → S x y → R (f x) (f y)) → StronglySorted S l → StronglySorted R (f <$> l).
Proof.
  intros HRS. induction 1 as [|x l Hl IH Hx]; cbn; constructor.
  - apply IH. intros; apply HRS; by try right.
  - apply Forall_fmap, Forall_forall. intros y Hy. rewrite Forall_forall in Hx.
    apply HRS; [left|by right|by apply Hx].
Qed.

Lemma elem_of_keyed_dedup (l : list Distribution) p :
  p ∈ dedup_by (λ left right : list byte * Distribution, bool_decide (left.1 = right.1))
        (sort_by (cmp_on fst bytes_cmp) (keyed <$> l)) →
  ∃ d, d ∈ l ∧ p = keyed d.
Proof.
  intros Hp%elem_of_dedup_by. rewrite elem_of_sort_by, list_elem_of_fmap in Hp. naive_solver.
Qed.

Lemma canonicalize_sorted l : distributions_canonical (canonicalize_distributions l).
Proof.
  unfold canonicalize_distributions, distributions_canonical.
  eapply (StronglySorted_fmap _ (λ p q, cmp_on fst bytes_cmp p q = Lt)).
  - intros p q (d & _ & ->)%elem_of_keyed_dedup (e & _ & ->)%elem_of_keyed_dedup. done.
  - apply (dedup_sorted_strict (cmp_on fst bytes_cmp)); [|apply sort_by_sorted, _].
    intros p q. unfold cmp_on. case_bool_decide as Hpq.
    + by rewrite Hpq, (cmp_refl bytes_cmp).
    + destruct (bytes_cmp _ _) eqn:E; [|done..]. by apply (cmp_eq_leibniz bytes_cmp) in E.
Qed.

Lemma elem_of_canonicalize_1 l d : d ∈ canonicalize_distributions l → d ∈ l.
Proof.
  unfold canonicalize_distributions. rewrite list_elem_of_fmap.
  intros (p & -> & (e & He & ->)%elem_of_keyed_dedup). done.
Qed.

Lemma elem_of_canonicalize l d :
  Forall distribution_wf l → d ∈ canonicalize_distributions l ↔ d ∈ l.
Proof.
  intros Hl. split; [apply elem_of_canonicalize_1|]. intros Hd.
  assert (Exists (λ p, p.1 = distribution_key d)
    (dedup_by (λ left right : list byte * Distribution, bool_decide (left.1 = right.1))
       (sort_by (cmp_on fst bytes_cmp) (keyed <$> l)))) as Hex.
  { apply (dedup_by_complete _ _ _ (keyed d)); [| |done].
    - intros p q Hpq%bool_decide_eq_true <-. done.
    - rewrite elem_of_sort_by, list_elem_of_fmap. eauto. }
  apply Exists_exists in Hex as (p & Hp & Hk).
  pose proof Hp as (e & He & ->)%elem_of_keyed_dedup.
  rewrite Forall_forall in Hl. apply distribution_key_inj in Hk as ->; [|by apply Hl..].
  unfold canonicalize_distributions. rewrite list_elem_of_fmap. by exists (keyed d).
Qed.

Lemma canonicalize_id l : distributions_canonical l → canonicalize_distributions l = l.
Proof.
  intros Hl. unfold canonicalize_distributions.
  rewrite sort_by_sorted_id.
  - assert (∀ l, distributions_canonical l →
      dedup_by (λ left right : list byte * Distribution, bool_decide (left.1 = right.1))
        (keyed <$> l) = keyed <$> l) as Hid.
    { clear l Hl. intros l Hl. destruct Hl as [|d l Hl Hd]; [done|]. cbn. f_equal.
      revert d Hd. induction Hl as [|e l Hl IH He]; intros d Hd; [done|]. cbn.
      inversion Hd as [|? ? Hde _]; subst. case_bool_decide as Hk.
      - unfold distribution_cmp, cmp_on in Hde. simpl in Hk.
        by rewrite Hk, (cmp_refl bytes_cmp) in Hde.
      - f_equal. by apply IH. }
    fold keyed. rewrite Hid by done. rewrite <-list_fmap_compose. apply list_fmap_id.
  - eapply StronglySorted_fmap; [|exact Hl]. intros d e _ _ Hde.
    unfold cmp_le. by change (distribution_cmp d e ≠ Gt); rewrite Hde.
Qed.

(** Canonicalisation keeps exactly the distributions given, each once, in
    increasing key order; the result depends only on the set of distributions
    and canonicalising again changes nothing. *)
Theorem canonicalize_distributions_canonical l :
  Forall distribution_wf l →
  let r := canonicalize_distributions l in
  distributions_canonical r ∧ NoDup r ∧ (∀ d, d ∈ r ↔ d ∈ l) ∧
  canonicalize_distributions r = r ∧
  (∀ k, Forall distribution_wf k → (∀ d, d ∈ l ↔ d ∈ k) → canonicalize_distributions k = r).
Proof.
  intros Hl r. pose proof (canonicalize_sorted l) as Hs. split_and!.
  - done.
  - by apply (strict_sorted_NoDup distribution_cmp).
  - intros d. by apply elem_of_canonicalize.
  - by apply canonicalize_id.
  - intros k Hk Hlk. apply (strict_sorted_ext distribution_cmp); [apply canonicalize_sorted|done|].
    intros d. unfold r. by rewrite !elem_of_canonicalize, Hlk.
Qed.

(** Distinct well-formed distributions have distinct canonical keys. *)
Theorem distribution_key_injective d e :
  distribution_wf d → distribution_wf e → distribution_key d = distribution_key e ↔ d = e.
Proof. intros Hd He. split; [by apply distribution_key_inj | by intros ->]. Qed.
