(* ===== verification/Constraints.v ===== *)
(** * Version constraints and requirements ([rsolve-core/src/constraints.rs])

    R version relations and their conjunctions, source-scoped package
    requirements, the composition of root requirements, and dependency kinds. *)

From S2P Require Import Prelude RustStd Collections Externals Format Versions Names Identity.

(** ** Version constraints *)

Inductive RelationOp := OpLt | OpLe | OpEq | OpNe | OpGe | OpGt.
#[export] Instance RelationOp_eq_dec : EqDecision RelationOp.
Proof. solve_decision. Defined.
#[export] Instance req_RelationOp : PartialEq RelationOp := req_dec.
#[export] Instance req_RelationOp_leibniz : LeibnizEq RelationOp := req_dec_leibniz.

Record VersionClause := mk_VersionClause { clause_op : RelationOp; clause_version : RPackageVersion }.

Definition VersionClause_eq (c d : VersionClause) : bool :=
  (clause_op c =?= clause_op d) && (clause_version c =?= clause_version d).
#[export] Instance req_VersionClause : PartialEq VersionClause := VersionClause_eq.
#[export] Instance req_VersionClause_equivalence : RustEq VersionClause.
Proof. solve_rust_eq VersionClause_eq. Qed.

Record VersionConstraint := mk_VersionConstraint { clauses : list VersionClause }.

Definition VersionConstraint_eq (c d : VersionConstraint) : bool := clauses c =?= clauses d.
#[export] Instance req_VersionConstraint : PartialEq VersionConstraint := VersionConstraint_eq.
#[export] Instance req_VersionConstraint_equivalence : RustEq VersionConstraint.
Proof. solve_rust_eq VersionConstraint_eq. Qed.

Definition VersionConstraint_unconstrained : VersionConstraint := mk_VersionConstraint [].
Definition VersionConstraint_conjunction (c d : VersionConstraint) : VersionConstraint :=
  mk_VersionConstraint (clauses c ++ clauses d).
Definition VersionConstraint_from_clause (op : RelationOp) (v : RPackageVersion) : VersionConstraint :=
  mk_VersionConstraint [mk_VersionClause op v].
Definition VersionConstraint_is_unconstrained (c : VersionConstraint) : bool :=
  match clauses c with [] => true | _ => false end.

Definition clause_satisfied (candidate : RPackageVersion) (clause : VersionClause) : bool :=
  let ordering := RPackageVersion_cmp candidate (clause_version clause) in
  match clause_op clause with
  | OpLt => is_lt ordering
  | OpLe => negb (is_gt ordering)
  | OpEq => is_eq ordering
  | OpNe => negb (is_eq ordering)
  | OpGe => negb (is_lt ordering)
  | OpGt => is_gt ordering
  end.

Definition VersionConstraint_satisfies (c : VersionConstraint) (candidate : RPackageVersion) : bool :=
  forallb (clause_satisfied candidate) (clauses c).

(** ** Requirements *)

Inductive DependencyKind := Depends | Imports | LinkingTo | Suggests | Enhances.
#[export] Instance DependencyKind_eq_dec : EqDecision DependencyKind.
Proof. solve_decision. Defined.
#[export] Instance req_DependencyKind : PartialEq DependencyKind := req_dec.
#[export] Instance req_DependencyKind_leibniz : LeibnizEq DependencyKind := req_dec_leibniz.

Inductive DependencySourceConstraint :=
| SourceAny
| SourceRegistry (namespace : PackageNamespace)
| SourceRepository (repository : RepositoryId)
| SourceBioconductor (namespace : PackageNamespace) (release : BioconductorRelease)
| SourceGit (repository : NormalizedGitUrl)
| SourceExact (identity : ReleaseIdentity).

Definition DependencySourceConstraint_eq (s t : DependencySourceConstraint) : bool :=
  match s, t with
  | SourceAny, SourceAny => true
  | SourceRegistry n, SourceRegistry m => n =?= m
  | SourceRepository r, SourceRepository r' => r =?= r'
  | SourceBioconductor n r, SourceBioconductor m r' => (n =?= m) && (r =?= r')
  | SourceGit r, SourceGit r' => r =?= r'
  | SourceExact i, SourceExact j => i =?= j
  | _, _ => false
  end.
#[export] Instance req_DependencySourceConstraint : PartialEq DependencySourceConstraint :=
  DependencySourceConstraint_eq.
#[export] Instance req_DependencySourceConstraint_equivalence : RustEq DependencySourceConstraint.
Proof. solve_rust_eq DependencySourceConstraint_eq. Qed.

Record PackageRequirement := mk_PackageRequirement {
  requirement_name : PackageName;
  requirement_source : DependencySourceConstraint;
  requirement_constraint : VersionConstraint;
}.

Definition PackageRequirement_eq (r s : PackageRequirement) : bool :=
  (requirement_name r =?= requirement_name s) && (requirement_source r =?= requirement_source s) &&
  (requirement_constraint r =?= requirement_constraint s).
#[export] Instance req_PackageRequirement : PartialEq PackageRequirement := PackageRequirement_eq.
#[export] Instance req_PackageRequirement_equivalence : RustEq PackageRequirement.
Proof. solve_rust_eq PackageRequirement_eq. Qed.

Inductive PackageRequirementError :=
| ExactIdentityNameMismatch (package identity : PackageName).

Definition PackageRequirementError_fmt (e : PackageRequirementError) : string :=
  match e with
  | ExactIdentityNameMismatch package identity =>
    "exact release identity name " +:+ PackageName_as_str identity
      +:+ " does not match package requirement " +:+ PackageName_as_str package
  end.

Definition PackageRequirement_new (name : PackageName) (source : DependencySourceConstraint)
    (constraint : VersionConstraint) : result PackageRequirement PackageRequirementError :=
  match source with
  | SourceExact identity =>
    if negb (ReleaseIdentity_name identity =?= name)
    then Err (ExactIdentityNameMismatch name (ReleaseIdentity_name identity))
    else Ok (mk_PackageRequirement name source constraint)
  | _ => Ok (mk_PackageRequirement name source constraint)
  end.

(** ** Root requirements *)

Inductive RootExpansionPolicy := HardOnly | DirectSuggests.
#[export] Instance RootExpansionPolicy_eq_dec : EqDecision RootExpansionPolicy.
Proof. solve_decision. Defined.

Record RootRequirement := mk_RootRequirement {
  root_package : PackageRequirement;
  expansion : RootExpansionPolicy;
}.

Inductive RootCompositionError :=
| ConflictingSource (name : PackageName) (left right : DependencySourceConstraint)
| ConflictingExactIdentity (name : PackageName) (left right : DependencySourceConstraint)
| ConflictingPackageNames (left right : PackageName).

(** [{:?}] of a source, and the error's [Display]. *)
Definition DependencySourceConstraint_debug `{UnicodeTables} (s : DependencySourceConstraint) :
    string :=
  match s with
  | SourceAny => "Any"
  | SourceRegistry n => debug_struct "Registry" [("namespace", Identifier_debug n)]
  | SourceRepository r => debug_struct "Repository" [("repository", Identifier_debug r)]
  | SourceBioconductor n r =>
    debug_struct "Bioconductor" [("namespace", Identifier_debug n); ("release", Identifier_debug r)]
  | SourceGit u => debug_struct "Git" [("repository", NormalizedGitUrl_debug u)]
  | SourceExact i => debug_tuple "Exact" [ReleaseIdentity_debug i]
  end.

Definition RootCompositionError_fmt `{UnicodeTables} (e : RootCompositionError) : string :=
  match e with
  | ConflictingSource name l r =>
    "conflicting sources for " +:+ PackageName_as_str name +:+ ": "
      +:+ DependencySourceConstraint_debug l +:+ " vs " +:+ DependencySourceConstraint_debug r
  | ConflictingExactIdentity name l r =>
    "conflicting exact identities for " +:+ PackageName_as_str name +:+ ": "
      +:+ DependencySourceConstraint_debug l +:+ " vs " +:+ DependencySourceConstraint_debug r
  | ConflictingPackageNames l r =>
    "cannot combine roots for " +:+ PackageName_as_str l +:+ " and " +:+ PackageName_as_str r
  end.

Definition combine_sources (left right : DependencySourceConstraint) (name : PackageName) :
    result DependencySourceConstraint RootCompositionError :=
  if left =?= right then Ok left
  else match left, right with
  | SourceAny, specific => Ok specific
  | specific, SourceAny => Ok specific
  | SourceExact left_identity, SourceExact right_identity =>
    if left_identity =?= right_identity then Ok (SourceExact left_identity)
    else Err (ConflictingExactIdentity name left right)
  | _, _ => Err (ConflictingSource name left right)
  end.

Definition RootRequirement_combine (self other : RootRequirement) :
    result RootRequirement RootCompositionError :=
  if negb (requirement_name (root_package self) =?= requirement_name (root_package other))
  then Err (ConflictingPackageNames (requirement_name (root_package self))
              (requirement_name (root_package other)))
  else
    let name := requirement_name (root_package self) in
    let left_source := requirement_source (root_package self) in
    let right_source := requirement_source (root_package other) in
    let? source := combine_sources left_source right_source name in
    let? package := map_err (λ _, ConflictingExactIdentity name left_source right_source)
      (PackageRequirement_new name source
        (VersionConstraint_conjunction (requirement_constraint (root_package self))
           (requirement_constraint (root_package other)))) in
    Ok (mk_RootRequirement package
          (if bool_decide (expansion self = DirectSuggests)
              || bool_decide (expansion other = DirectSuggests)
           then DirectSuggests else HardOnly)).

(** One iteration of the composition loop over the [BTreeMap]. *)
Definition combine_step (composed : list (PackageName * RootRequirement)) (root : RootRequirement) :
    result (list (PackageName * RootRequirement)) RootCompositionError :=
  let name := requirement_name (root_package root) in
  match bt_get PackageName_cmp name composed with
  | Some existing =>
    let? combined := RootRequirement_combine existing root in
    Ok (bt_insert PackageName_cmp name combined (bt_remove PackageName_cmp name composed))
  | None => Ok (bt_insert PackageName_cmp name root composed)
  end.

Fixpoint combine_loop (composed : list (PackageName * RootRequirement)) (roots : list RootRequirement) :
    result (list (PackageName * RootRequirement)) RootCompositionError :=
  match roots with
  | [] => Ok composed
  | root :: roots => let? composed := combine_step composed root in combine_loop composed roots
  end.

Definition combine_root_requirements (roots : list RootRequirement) :
    result (list RootRequirement) RootCompositionError :=
  result_map bt_values (combine_loop [] roots).

(** ** Declared and effective dependencies *)

Record DeclaredDependency := mk_DeclaredDependency {
  declared_kind : DependencyKind;
  declared_package : PackageRequirement;
}.

Definition DeclaredDependency_eq (d e : DeclaredDependency) : bool :=
  (declared_kind d =?= declared_kind e) && (declared_package d =?= declared_package e).
#[export] Instance req_DeclaredDependency : PartialEq DeclaredDependency := DeclaredDependency_eq.
#[export] Instance req_DeclaredDependency_equivalence : RustEq DeclaredDependency.
Proof. solve_rust_eq DeclaredDependency_eq. Qed.

Definition DeclaredDependency_from_parts (kind : DependencyKind) (name : PackageName)
    (source : DependencySourceConstraint) (constraint : VersionConstraint) :
    result DeclaredDependency PackageRequirementError :=
  let? package := PackageRequirement_new name source constraint in
  Ok (mk_DeclaredDependency kind package).

Inductive EffectiveDependencyKind :=
| EffectiveDepends | EffectiveImports | EffectiveLinkingTo | PromotedSuggests.
#[export] Instance EffectiveDependencyKind_eq_dec : EqDecision EffectiveDependencyKind.
Proof. solve_decision. Defined.

Record ResolvedDependencyEdge := mk_ResolvedDependencyEdge {
  edge_kind : EffectiveDependencyKind;
  edge_package : PackageRequirement;
}.

Definition DependencyKind_effective (kind : DependencyKind) : option EffectiveDependencyKind :=
  match kind with
  | Depends => Some EffectiveDepends
  | Imports => Some EffectiveImports
  | LinkingTo => Some EffectiveLinkingTo
  | Suggests | Enhances => None
  end.

(** ** Satisfaction *)

#[export] Instance clause_satisfied_proper : Proper ((≈) ==> (≈) ==> (=)) clause_satisfied.
Proof.
  intros v w Hv [op x] [op' x'] Hc.
  change (VersionClause_eq (mk_VersionClause op x) (mk_VersionClause op' x') = true) in Hc.
  unfold VersionClause_eq in Hc. simpl in Hc. apply andb_true_iff in Hc as [<-%req_leibniz Hx].
  unfold clause_satisfied. simpl. by rewrite (RPackageVersion_cmp_proper _ _ Hv _ _ Hx).
Qed.

#[export] Instance satisfies_proper : Proper ((≈) ==> (≈) ==> (=)) VersionConstraint_satisfies.
Proof.
  intros [c] [d] Hcd v w Hv. change (c ≈ d) in Hcd. apply list_req_Forall2 in Hcd.
  unfold VersionConstraint_satisfies. simpl.
  induction Hcd as [|x y c d Hxy _ IH]; simpl; [done|].
  by rewrite (clause_satisfied_proper _ _ Hv _ _ Hxy), IH.
Qed.

Lemma satisfies_conjunction c d v :
  VersionConstraint_satisfies (VersionConstraint_conjunction c d) v
    = VersionConstraint_satisfies c v && VersionConstraint_satisfies d v.
Proof. apply forallb_app. Qed.

Lemma satisfies_Forall c v :
  VersionConstraint_satisfies c v = true ↔ Forall (λ x, clause_satisfied v x = true) (clauses c).
Proof. apply forallb_Forall. Qed.

(** What a relation means for the three outcomes of a comparison. *)
Definition relation_holds (op : RelationOp) (ordering : comparison) : Prop :=
  match op with
  | OpLt => ordering = Lt
  | OpLe => ordering ≠ Gt
  | OpEq => ordering = Eq
  | OpNe => ordering ≠ Eq
  | OpGe => ordering ≠ Lt
  | OpGt => ordering = Gt
  end.

Lemma clause_satisfied_iff v c :
  clause_satisfied v c = true ↔
    relation_holds (clause_op c) (RPackageVersion_cmp v (clause_version c)).
Proof. unfold clause_satisfied. by destruct (clause_op c), (RPackageVersion_cmp _ _). Qed.

(** A constraint accepts exactly the versions that stand in every clause's
    relation to its version, in R's numeric order; the conjunction of two
    constraints accepts what both accept. *)
Theorem satisfies_spec c d v :
  RPackageVersion_wf v → Forall (λ x, RPackageVersion_wf (clause_version x)) (clauses c) →
  (VersionConstraint_satisfies c v = true ↔
     ∀ x, x ∈ clauses c →
       relation_holds (clause_op x)
         (numeric_version_cmp (RPackageVersion_components v)
            (RPackageVersion_components (clause_version x)))) ∧
  VersionConstraint_satisfies (VersionConstraint_conjunction c d) v
    = VersionConstraint_satisfies c v && VersionConstraint_satisfies d v.
Proof.
  intros Hv Hc. split; [|apply satisfies_conjunction].
  rewrite satisfies_Forall, !Forall_forall in *.
  split; intros H x Hx; [specialize (H x Hx)|apply clause_satisfied_iff; specialize (H x Hx)];
    rewrite ?clause_satisfied_iff, version_cmp_numeric_eq in * by auto; done.
Qed.

(** ** Composition of roots *)

Lemma PackageRequirement_new_ok name source constraint r :
  PackageRequirement_new name source constraint = Ok r ↔
    (∀ i, source = SourceExact i → ReleaseIdentity_name i = name) ∧
    r = mk_PackageRequirement name source constraint.
Proof.
  unfold PackageRequirement_new. destruct source; try naive_solver.
  destruct (ReleaseIdentity_name identity =?= name) eqn:E; simpl.
  - apply req_leibniz in E. naive_solver.
  - split; [done|]. intros [H _]. specialize (H _ eq_refl). subst. by rewrite req_refl in E.
Qed.

(** The invariant of [PackageRequirement]'s constructor. *)
Definition requirement_wf (r : PackageRequirement) : Prop :=
  ∀ i, requirement_source r = SourceExact i → ReleaseIdentity_name i = requirement_name r.

Abbreviation root_name r := (requirement_name (root_package r)).
Abbreviation root_source r := (requirement_source (root_package r)).
Abbreviation root_constraint r := (requirement_constraint (root_package r)).

Definition sources_compatible (s t : DependencySourceConstraint) : Prop :=
  s ≈ t ∨ s = SourceAny ∨ t = SourceAny.

Lemma combine_sources_ok s t n u :
  combine_sources s t n = Ok u → sources_compatible s t ∧ (u = s ∨ u = t) ∧
    (s = SourceAny ∨ s ≈ u) ∧ (t = SourceAny ∨ t ≈ u).
Proof.
  unfold combine_sources, sources_compatible. destruct (s =?= t) eqn:E.
  { intros [= <-]. split_and!; [by left|by left|by right|right]. by rewrite <-(E : s ≈ t). }
  intros H. destruct s, t; simplify_eq/=; try by (split_and!; auto; by right; apply req_refl).
  change (identity =?= identity0 = false) in E. by rewrite E in H.
Qed.

Lemma combine_sources_complete s t n :
  sources_compatible s t → ∃ u, combine_sources s t n = Ok u.
Proof.
  unfold combine_sources, sources_compatible. intros [H|[->| ->]].
  - change (s =?= t = true) in H. rewrite H. eauto.
  - split_matches; eauto.
  - destruct s; split_matches; eauto.
Qed.

Lemma sources_conflict s t n e :
  combine_sources s t n = Err e → ¬ sources_compatible s t.
Proof. intros H Hc. destruct (combine_sources_complete s t n Hc). congruence. Qed.

(** What one combination does. *)
Definition combined (a b c : RootRequirement) : Prop :=
  root_name c = root_name a ∧ requirement_wf (root_package c) ∧
  clauses (root_constraint c) = clauses (root_constraint a) ++ clauses (root_constraint b) ∧
  (expansion c = DirectSuggests ↔ expansion a = DirectSuggests ∨ expansion b = DirectSuggests) ∧
  (root_source c = root_source a ∨ root_source c = root_source b) ∧
  (root_source a = SourceAny ∨ root_source a ≈ root_source c) ∧
  (root_source b = SourceAny ∨ root_source b ≈ root_source c).

Lemma RootRequirement_combine_spec a b :
  root_name a = root_name b → requirement_wf (root_package a) → requirement_wf (root_package b) →
  match RootRequirement_combine a b with
  | Ok c => sources_compatible (root_source a) (root_source b) ∧ combined a b c
  | Err _ => ¬ sources_compatible (root_source a) (root_source b)
  end.
Proof.
  intros Hn Ha Hb. unfold RootRequirement_combine. rewrite Hn, req_refl. simpl.
  destruct (combine_sources _ _ _) as [u|e] eqn:Hu; simpl; [|by eapply sources_conflict].
  apply combine_sources_ok in Hu as (Hc & Hor & Hl & Hr).
  destruct (PackageRequirement_new _ _ _) as [p|e] eqn:Hp; simpl.
  - apply PackageRequirement_new_ok in Hp as [Hwf ->]. split; [done|].
    unfold combined, requirement_wf. simpl. split_and!; [by rewrite Hn|done..| |done|done|done].
    repeat case_bool_decide; simpl; naive_solver.
  - exfalso. assert (∃ p, PackageRequirement_new (root_name b) u
      (VersionConstraint_conjunction (root_constraint a) (root_constraint b)) = Ok p) as [p Hp'].
    { eexists. apply PackageRequirement_new_ok. split; [|done].
      destruct Hor as [-> | ->]; [rewrite <-Hn; apply Ha | apply Hb]. }
    congruence.
Qed.

(** Combining a non-empty group left to right. *)
Fixpoint combine_all (acc : RootRequirement) (l : list RootRequirement) :
    result RootRequirement RootCompositionError :=
  match l with
  | [] => Ok acc
  | r :: l => let? acc := RootRequirement_combine acc r in combine_all acc l
  end.

Lemma combine_all_app acc l k :
  combine_all acc (l ++ k) = let? acc := combine_all acc l in combine_all acc k.
Proof.
  revert acc. induction l as [|r l IH]; intros acc; simpl; [done|].
  destruct (RootRequirement_combine acc r); simpl; auto.
Qed.

(** What a combined group is, relative to its members. *)
Definition group_summary (l : list RootRequirement) (c : RootRequirement) : Prop :=
  requirement_wf (root_package c) ∧
  (∀ v, VersionConstraint_satisfies (root_constraint c) v = true ↔
        ∀ r, r ∈ l → VersionConstraint_satisfies (root_constraint r) v = true) ∧
  (expansion c = DirectSuggests ↔ ∃ r, r ∈ l ∧ expansion r = DirectSuggests) ∧
  (∃ r, r ∈ l ∧ root_source r = root_source c) ∧
  (∀ r, r ∈ l → root_source r = SourceAny ∨ root_source r ≈ root_source c).

Lemma group_summary_singleton r : requirement_wf (root_package r) → group_summary [r] r.
Proof.
  intros Hr. unfold group_summary. setoid_rewrite list_elem_of_singleton.
  split_and!; [done|naive_solver|naive_solver|by exists r|].
  intros ? ->. right. apply req_refl.
Qed.

Lemma group_summary_snoc l a b c :
  group_summary l a → combined a b c → group_summary (l ++ [b]) c.
Proof.
  intros (Ha & Hs & He & (w & Hw & Hsrc) & Hall) (_ & Hc & Hcl & Hex & Hor & Hla & Hlb).
  unfold group_summary. setoid_rewrite elem_of_app. setoid_rewrite list_elem_of_singleton.
  split_and!; [done| | | |].
  - intros v. unfold VersionConstraint_satisfies. rewrite Hcl, forallb_app, andb_true_iff.
    fold (VersionConstraint_satisfies (root_constraint a) v). rewrite Hs. naive_solver.
  - rewrite Hex, He. naive_solver.
  - destruct Hor as [E|E]; rewrite E; [exists w; eauto|exists b; eauto].
  - intros r [Hr| ->]; [|done]. destruct (Hall r Hr) as [?|Hra]; [by left|].
    destruct Hla as [Ea|Ea]; [|right; by rewrite Hra].
    rewrite Ea in Hra. left. by destruct (root_source r).
Qed.

(** *** The loop groups by name *)

Definition roots_named (n : PackageName) (roots : list RootRequirement) : list RootRequirement :=
  filter (λ r, root_name r = n) roots.

Lemma elem_of_roots_named n roots r : r ∈ roots_named n roots ↔ r ∈ roots ∧ root_name r = n.
Proof. unfold roots_named. rewrite list_elem_of_filter. tauto. Qed.

Lemma roots_named_snoc n roots r :
  roots_named n (roots ++ [r]) = if decide (root_name r = n) then roots_named n roots ++ [r]
                                 else roots_named n roots.
Proof.
  unfold roots_named. rewrite filter_app, filter_cons. case_decide; [done|]. apply app_nil_r.
Qed.

(** The map holds, for each name seen, the combination of its group. *)
Definition composed_inv (pre : list RootRequirement) (m : list (PackageName * RootRequirement)) : Prop :=
  bt_sorted PackageName_cmp m ∧
  (∀ n, match bt_get PackageName_cmp n m with
        | None => roots_named n pre = []
        | Some c => root_name c = n ∧ group_summary (roots_named n pre) c
        end) ∧
  (∀ n c, (n, c) ∈ m → root_name c = n).

Lemma PackageName_cmp_ne n k : n ≠ k → PackageName_cmp n k ≠ Eq.
Proof. intros H E. by apply H, (cmp_eq_leibniz PackageName_cmp). Qed.

Lemma bt_insert_in {K V} (c : K → K → comparison) `{!CmpOrder c, !CmpLeibniz c} k v m (p : K * V) :
  p ∈ bt_insert c k v m → p = (k, v) ∨ p ∈ m.
Proof.
  induction m as [|[k' v'] m IH]; simpl.
  - rewrite list_elem_of_singleton. auto.
  - destruct (c k k') eqn:E; rewrite !elem_of_cons; try naive_solver.
    apply (cmp_eq_leibniz c) in E as ->. naive_solver.
Qed.

Lemma composed_inv_insert pre m root c :
  composed_inv pre m → root_name c = root_name root →
  group_summary (roots_named (root_name root) pre ++ [root]) c →
  ∀ m', bt_sorted PackageName_cmp m' → (∀ p, p ∈ m' → p ∈ m) →
    (∀ n, n ≠ root_name root → bt_get PackageName_cmp n m' = bt_get PackageName_cmp n m) →
    composed_inv (pre ++ [root]) (bt_insert PackageName_cmp (root_name root) c m').
Proof.
  intros (Hs & Hg & Hk) Hn Hc m' Hm' Hin Hget. split_and!.
  - by apply (bt_insert_sorted PackageName_cmp).
  - intros n. rewrite roots_named_snoc. case_decide as Hd.
    + subst n. rewrite (bt_get_insert_eq PackageName_cmp) by apply (cmp_refl PackageName_cmp). done.
    + rewrite (bt_get_insert_ne PackageName_cmp) by (apply PackageName_cmp_ne; congruence).
      rewrite Hget by congruence. apply Hg.
  - intros n x [[= -> ->]|Hx]%(bt_insert_in PackageName_cmp); [done|]. by apply Hk, Hin.
Qed.

Lemma combine_step_spec pre m root :
  Forall (λ r, requirement_wf (root_package r)) pre → requirement_wf (root_package root) →
  composed_inv pre m →
  match combine_step m root with
  | Ok m' => composed_inv (pre ++ [root]) m' ∧
      (∀ r, r ∈ roots_named (root_name root) pre →
        sources_compatible (root_source r) (root_source root))
  | Err _ => ∃ r, r ∈ roots_named (root_name root) pre ∧
      ¬ sources_compatible (root_source r) (root_source root)
  end.
Proof.
  intros Hpre Hroot Hinv. pose proof Hinv as (Hs & Hg & _).
  unfold combine_step. specialize (Hg (root_name root)).
  destruct (bt_get _ _ m) as [a|].
  - destruct Hg as [Hn Ha].
    pose proof (RootRequirement_combine_spec a root Hn (proj1 Ha) Hroot) as Hcomb.
    destruct Ha as (Hwf & Hv & He & (w & Hw & Hsrc) & Hall).
    destruct (RootRequirement_combine a root) as [c|e]; simpl.
    + destruct Hcomb as [Hcompat Hc]. split.
      * eapply composed_inv_insert; [done| | |by apply (bt_remove_sorted PackageName_cmp)| |].
        -- by rewrite (proj1 Hc), Hn.
        -- eapply group_summary_snoc; [|done]. split_and!; eauto.
        -- intros p Hp. eapply elem_of_sublist; [done|apply bt_remove_sublist].
        -- intros n Hne. apply (bt_get_remove_ne PackageName_cmp). by apply PackageName_cmp_ne.
      * intros r Hr. unfold sources_compatible in *.
        destruct (Hall r Hr) as [?|Hra]; [by right; left|].
        destruct Hcompat as [E|[E|E]]; [left; by rewrite Hra, E| |by right; right].
        right; left. rewrite E in Hra. by destruct (root_source r).
    + exists w. split; [done|]. by rewrite Hsrc.
  - split; [|rewrite Hg; intros r Hr; by apply elem_of_nil in Hr].
    apply (composed_inv_insert pre m); [done|done| |done|auto|done].
    rewrite Hg. by apply group_summary_singleton.
Qed.

(** Two roots that no composition can reconcile. *)
Definition conflicting (a b : RootRequirement) : Prop :=
  root_name a = root_name b ∧ ¬ sources_compatible (root_source a) (root_source b).

Lemma sources_compatible_sym s t : sources_compatible s t → sources_compatible t s.
Proof. unfold sources_compatible. intros [H|[?|?]]; [left; by rewrite H|auto..]. Qed.

Lemma sources_compatible_refl s : sources_compatible s s.
Proof. left. apply req_refl. Qed.

Lemma combine_loop_spec pre m roots :
  Forall (λ r, requirement_wf (root_package r)) (pre ++ roots) → composed_inv pre m →
  (∀ a b, a ∈ pre → b ∈ pre → ¬ conflicting a b) →
  match combine_loop m roots with
  | Ok m' => composed_inv (pre ++ roots) m' ∧
      (∀ a b, a ∈ pre ++ roots → b ∈ pre ++ roots → ¬ conflicting a b)
  | Err _ => ∃ a b, a ∈ pre ++ roots ∧ b ∈ pre ++ roots ∧ conflicting a b
  end.
Proof.
  revert pre m. induction roots as [|root roots IH]; intros pre m Hwf Hinv Hno; simpl.
  { by rewrite app_nil_r. }
  pose proof Hwf as [Hpre [Hroot _]%Forall_cons]%Forall_app.
  pose proof (combine_step_spec pre m root Hpre Hroot Hinv) as Hstep.
  destruct (combine_step m root) as [m'|e]; simpl.
  - destruct Hstep as [Hinv' Hcompat]. specialize (IH (pre ++ [root]) m').
    rewrite <-app_assoc in IH. simpl in IH. apply IH; [done..|].
    intros a b. rewrite !elem_of_app, !list_elem_of_singleton.
    intros [Ha| ->] [Hb| ->] [Hn Hc].
    + by apply (Hno a b).
    + apply Hc, Hcompat. by apply elem_of_roots_named.
    + apply Hc, sources_compatible_sym, Hcompat. by apply elem_of_roots_named.
    + apply Hc, sources_compatible_refl.
  - destruct Hstep as (r & [Hr Hn]%elem_of_roots_named & Hc). exists r, root.
    rewrite !elem_of_app, elem_of_cons. split_and!; [by left|by right; left|done].
Qed.

(** Composing well-formed roots fails exactly when two roots of one package
    demand different sources; otherwise the result has one root per package,
    in name order, that accepts exactly the versions all of them accept, wants
    suggestions when one of them does, and carries their common source. *)
Theorem combine_root_requirements_spec roots :
  Forall (λ r, requirement_wf (root_package r)) roots →
  match combine_root_requirements roots with
  | Ok out =>
      StronglySorted (λ a b, PackageName_cmp (root_name a) (root_name b) = Lt) out ∧
      (∀ c, c ∈ out → group_summary (roots_named (root_name c) roots) c) ∧
      (∀ r, r ∈ roots → ∃ c, c ∈ out ∧ root_name c = root_name r) ∧
      (∀ a b, a ∈ roots → b ∈ roots → ¬ conflicting a b)
  | Err _ => ∃ a b, a ∈ roots ∧ b ∈ roots ∧ conflicting a b
  end.
Proof.
  intros Hwf. unfold combine_root_requirements.
  pose proof (combine_loop_spec [] [] roots Hwf) as H.
  destruct (combine_loop [] roots) as [m|e]; simpl in *.
  - destruct H as [(Hs & Hg & Hk) Hno].
    { split_and!; [constructor|done|by intros ?? ?%elem_of_nil]. }
    { by intros ?? ?%elem_of_nil. }
    unfold bt_values. split_and!; [| | |done].
    + eapply StronglySorted_fmap; [|exact Hs]. intros [n a] [k b] Ha Hb. simpl.
      by rewrite (Hk _ _ Ha), (Hk _ _ Hb).
    + intros c ([n c'] & -> & Hc)%list_elem_of_fmap. simpl.
      pose proof (Hk _ _ Hc) as <-. specialize (Hg (root_name c')).
      rewrite (bt_in_get PackageName_cmp _ _ _ Hs Hc) in Hg. apply Hg.
    + intros r Hr. specialize (Hg (root_name r)).
      destruct (bt_get _ _ m) as [c|] eqn:Hc.
      * exists c. split; [|apply Hg]. apply (bt_get_in PackageName_cmp) in Hc as (k & _ & Hin).
        apply list_elem_of_fmap. by exists (k, c).
      * exfalso. assert (r ∈ roots_named (root_name r) roots) as Hx
          by by apply elem_of_roots_named. rewrite Hg in Hx. by apply elem_of_nil in Hx.
  - apply H; [|by intros ?? ?%elem_of_nil].
    split_and!; [constructor|done|by intros ?? ?%elem_of_nil].
Qed.
