(* ===== verification/Digest.v ===== *)
(** * The logical metadata digest ([rsolve-core/src/metadata/digest.rs])

    The byte encoding of a release's solver-relevant metadata and its SHA-256
    fingerprint.  The encoding forgets spellings, the order and the repetition
    of dependencies and clauses, and nothing else. *)

From S2P Require Import Prelude RustStd Collections Externals Text Format Versions Names Identity.
From S2P Require Import Constraints.

#[local] Opaque u64_to_le_bytes.

(** ** The encoder, appending to a buffer *)

Definition append_u64 (encoded : list byte) (value : N) : list byte :=
  encoded ++ u64_to_le_bytes value.
Definition append_bytes (encoded : list byte) (value : list byte) : list byte :=
  append_u64 encoded (len_u64 value) ++ value.
Definition append_string (encoded : list byte) (value : string) : list byte :=
  append_bytes encoded (bytes value).
Definition append_version (encoded : list byte) (value : RPackageVersion) : list byte :=
  let component_count := RPackageVersion_canonical_component_count value in
  foldl append_u64 (append_u64 encoded (N.of_nat component_count))
    (take component_count (RPackageVersion_components value)).
Definition append_optional_string (encoded : list byte) (value : option string) : list byte :=
  match value with
  | Some value => append_string (encoded ++ [byte_of 1]) value
  | None => encoded ++ [byte_of 0]
  end.

Definition append_identity (encoded : list byte) (identity : ReleaseIdentity) : list byte :=
  let encoded := append_string encoded (PackageName_as_str (ReleaseIdentity_name identity)) in
  match ReleaseIdentity_provenance identity with
  | RBasePackage r_version => append_version (encoded ++ [byte_of 0]) r_version
  | RegistryRelease namespace version =>
    append_version (append_string (encoded ++ [byte_of 1]) (Identifier_as_str namespace)) version
  | GitCommit repository commit subdirectory =>
    append_optional_string
      (append_string
        (append_string (encoded ++ [byte_of 2]) (NormalizedGitUrl_as_str repository))
        (GitCommitId_as_str commit))
      (RepositorySubdir_as_str <$> subdirectory)
  | BioconductorReleaseOf namespace release version =>
    append_version
      (append_string (append_string (encoded ++ [byte_of 3]) (Identifier_as_str namespace))
        (Identifier_as_str release)) version
  | ImmutableSource scheme digest =>
    append_string (append_string (encoded ++ [byte_of 4]) (Identifier_as_str scheme))
      (Sha256Digest_as_str digest)
  end.

Definition append_source_constraint (encoded : list byte) (source : DependencySourceConstraint) :
    list byte :=
  match source with
  | SourceAny => encoded ++ [byte_of 0]
  | SourceRegistry namespace => append_string (encoded ++ [byte_of 1]) (Identifier_as_str namespace)
  | SourceRepository repository =>
    append_string (encoded ++ [byte_of 5]) (Identifier_as_str repository)
  | SourceBioconductor namespace release =>
    append_string (append_string (encoded ++ [byte_of 2]) (Identifier_as_str namespace))
      (Identifier_as_str release)
  | SourceGit repository =>
    append_string (encoded ++ [byte_of 3]) (NormalizedGitUrl_as_str repository)
  | SourceExact identity => append_identity (encoded ++ [byte_of 4]) identity
  end.

Definition relation_byte (op : RelationOp) : N :=
  match op with OpLt => 0 | OpLe => 1 | OpEq => 2 | OpNe => 3 | OpGe => 4 | OpGt => 5 end.
Definition kind_byte (kind : DependencyKind) : N :=
  match kind with Depends => 0 | Imports => 1 | LinkingTo => 2 | Suggests => 3 | Enhances => 4 end.

Definition encode_clause (clause : VersionClause) : list byte :=
  append_version [byte_of (relation_byte (clause_op clause))] (clause_version clause).

(** [sort] then [dedup] on vectors of bytes. *)
Definition sort_dedup (l : list (list byte)) : list (list byte) :=
  dedup_by (λ x y, bool_decide (x = y)) (sort_by bytes_cmp l).

Definition encode_dependency (dependency : DeclaredDependency) : list byte :=
  let encoded := [byte_of (kind_byte (declared_kind dependency))] in
  let encoded := append_string encoded
                   (PackageName_as_str (requirement_name (declared_package dependency))) in
  let encoded := append_source_constraint encoded (requirement_source (declared_package dependency)) in
  let clauses := sort_dedup
    (encode_clause <$> clauses (requirement_constraint (declared_package dependency))) in
  foldl append_bytes (append_u64 encoded (len_u64 clauses)) clauses.

(** [b"rsolve.logical-release-metadata\0v1"]. *)
Definition METADATA_DIGEST_DOMAIN : list byte :=
  bytes "rsolve.logical-release-metadata" ++ [byte_of 0] ++ bytes "v1".

(** The bytes that are hashed. *)
Definition metadata_encoding (identity : ReleaseIdentity) (observed_version : RPackageVersion)
    (dependencies : list DeclaredDependency) : list byte :=
  let encoded := append_bytes [] METADATA_DIGEST_DOMAIN in
  let encoded := append_identity encoded identity in
  let encoded := append_version encoded observed_version in
  let records := sort_dedup (encode_dependency <$> dependencies) in
  foldl append_bytes (append_u64 encoded (len_u64 records)) records.

(** [write!("{byte:02x}")] over the digest. *)
Definition hex_encode (l : list byte) : string :=
  from_utf8 (mjoin ((λ b, [hex_digit (u8 b / 16); hex_digit (u8 b mod 16)]) <$> l)).

(** [Sha256Digest::new(hex).expect(...)]: the failure branch is a panic that
    [digest_expect_never_panics] rules out. *)
Definition canonical_metadata_digest `{Sha2} (identity : ReleaseIdentity)
    (observed_version : RPackageVersion) (dependencies : list DeclaredDependency) : Sha256Digest :=
  match Sha256Digest_new
          (hex_encode (sha256_digest (metadata_encoding identity observed_version dependencies))) with
  | Ok digest => digest
  | Err _ => mk_Sha256Digest ""
  end.

(** ** Buffer-free encoders *)

Definition e_bytes (l : list byte) : list byte := u64_to_le_bytes (len_u64 l) ++ l.
Definition e_string (s : string) : list byte := e_bytes (bytes s).
Definition e_version (v : RPackageVersion) : list byte :=
  u64_to_le_bytes (len_u64 (Components_iter (version_components v)))
    ++ mjoin (u64_to_le_bytes <$> Components_iter (version_components v)).
Definition e_identity (i : ReleaseIdentity) : list byte := append_identity [] i.
Definition e_source (s : DependencySourceConstraint) : list byte := append_source_constraint [] s.
Definition e_list (l : list (list byte)) : list byte :=
  u64_to_le_bytes (len_u64 l) ++ mjoin (e_bytes <$> l).

Lemma append_bytes_e enc l : append_bytes enc l = enc ++ e_bytes l.
Proof. unfold append_bytes, append_u64, e_bytes. by rewrite <-app_assoc. Qed.

Lemma append_string_e enc s : append_string enc s = enc ++ e_string s.
Proof. apply append_bytes_e. Qed.

Lemma foldl_append {A} (f : A → list byte) (g : list byte → A → list byte) enc l :
  (∀ enc x, g enc x = enc ++ f x) → foldl g enc l = enc ++ mjoin (f <$> l).
Proof.
  intros Hg. revert enc. induction l as [|x l IH]; intros enc; [by rewrite app_nil_r|].
  cbn. by rewrite IH, Hg, <-app_assoc.
Qed.

Lemma canonical_len_from_le c n : Components_canonical_len_from c n ≤ n.
Proof. induction n as [|n IH]; simpl; [lia|]. case_match; lia. Qed.

Lemma take_components_iter v :
  take (RPackageVersion_canonical_component_count v) (RPackageVersion_components v)
    = Components_iter (version_components v).
Proof.
  unfold RPackageVersion_canonical_component_count, RPackageVersion_components, Components_iter.
  rewrite <-fmap_take. f_equal. rewrite take_seq. f_equal.
  apply Nat.min_l, canonical_len_from_le.
Qed.

Lemma append_version_e enc v : append_version enc v = enc ++ e_version v.
Proof.
  unfold append_version, e_version. rewrite take_components_iter.
  rewrite (foldl_append u64_to_le_bytes) by done. unfold append_u64, len_u64.
  rewrite length_Components_iter, <-app_assoc. done.
Qed.

Definition e_optional (o : option string) : list byte :=
  match o with Some s => byte_of 1 :: e_string s | None => [byte_of 0] end.

Lemma append_optional_string_e enc o : append_optional_string enc o = enc ++ e_optional o.
Proof. destruct o; simpl; rewrite ?append_string_e, <-?app_assoc; done. Qed.

(** Reads an appending encoder as a concatenation of self-delimiting parts. *)
Ltac unfold_appends :=
  rewrite ?append_optional_string_e, ?append_version_e, ?append_string_e, ?append_bytes_e, ?app_nil_l, <-?app_assoc.

Lemma append_identity_e enc i : append_identity enc i = enc ++ e_identity i.
Proof.
  unfold e_identity, append_identity. destruct (ReleaseIdentity_provenance i);
    simpl; unfold_appends; done.
Qed.

Lemma append_source_e enc s : append_source_constraint enc s = enc ++ e_source s.
Proof.
  unfold e_source. destruct s; simpl; unfold_appends; rewrite ?append_identity_e, <-?app_assoc; done.
Qed.

Lemma encode_dependency_e d :
  encode_dependency d =
    byte_of (kind_byte (declared_kind d))
      :: e_string (PackageName_as_str (requirement_name (declared_package d)))
      ++ e_source (requirement_source (declared_package d))
      ++ e_list (sort_dedup (encode_clause <$> clauses (requirement_constraint (declared_package d)))).
Proof.
  unfold encode_dependency, e_list. rewrite (foldl_append e_bytes) by apply append_bytes_e.
  unfold append_u64. rewrite append_source_e, append_string_e, <-!app_assoc. done.
Qed.

Lemma metadata_encoding_e i v ds :
  metadata_encoding i v ds =
    e_bytes METADATA_DIGEST_DOMAIN ++ e_identity i ++ e_version v
      ++ e_list (sort_dedup (encode_dependency <$> ds)).
Proof.
  unfold metadata_encoding, e_list. rewrite (foldl_append e_bytes) by apply append_bytes_e.
  unfold append_u64. rewrite append_version_e, append_identity_e, append_bytes_e, <-!app_assoc. done.
Qed.

(** ** Self-delimiting codes

    [e] is a prefix code for values up to [R]: what follows an encoding does
    not influence how it is read back. *)

Definition prefix_code {A} (ok : A → Prop) (R : A → A → Prop) (e : A → list byte) : Prop :=
  ∀ x y r s, ok x → ok y → e x ++ r = e y ++ s → R x y ∧ r = s.

Lemma prefix_code_u64 : prefix_code (λ n, n ≤ u64_max)%N (=) u64_to_le_bytes.
Proof.
  intros n m r s Hn Hm E. apply app_inj_1 in E as [E ->]; [|by rewrite !length_u64_to_le_bytes].
  split; [|done]. by apply u64_to_le_bytes_inj.
Qed.

Lemma prefix_code_bytes : prefix_code fits (=) e_bytes.
Proof.
  intros l k r s Hl Hk. unfold e_bytes. rewrite <-!app_assoc.
  intros [Hlen E]%prefix_code_u64; [|done..].
  apply app_inj_1 in E as [-> ->]; [done|]. unfold len_u64 in Hlen. lia.
Qed.

(** Strings that fit memory. *)
Definition str_fits (s : string) : Prop := fits (bytes s).

Lemma prefix_code_string : prefix_code str_fits (=) e_string.
Proof. intros a b r s Ha Hb [E ->]%prefix_code_bytes; [|done..]. by apply (inj bytes) in E. Qed.

Lemma prefix_code_run {A} (ok : A → Prop) (R : A → A → Prop) (e : A → list byte) l k r s :
  prefix_code ok R e → Forall ok l → Forall ok k → length l = length k →
  mjoin (e <$> l) ++ r = mjoin (e <$> k) ++ s → Forall2 R l k ∧ r = s.
Proof.
  intros He Hl Hk. revert k Hk. induction Hl as [|x l Hx _ IH]; intros k Hk Hlen E.
  - destruct k; [|done]. by split; [constructor|].
  - destruct Hk as [|y k Hy Hk]; [done|]. cbn in E. rewrite <-!app_assoc in E.
    apply He in E as [Hxy E]; [|done..]. apply IH in E as [Hlk ->]; [|done|by injection Hlen].
    by split; [constructor|].
Qed.

(** A counted run. *)
Lemma prefix_code_counted {A} (ok : A → Prop) (R : A → A → Prop) (e : A → list byte) :
  prefix_code ok R e →
  prefix_code (λ l, fits l ∧ Forall ok l) (Forall2 R)
    (λ l, u64_to_le_bytes (len_u64 l) ++ mjoin (e <$> l)).
Proof.
  intros He l k r s [Hfl Hl] [Hfk Hk]. rewrite <-!app_assoc.
  intros [Hlen E]%prefix_code_u64; [|done..].
  apply (prefix_code_run ok R e); try done. unfold len_u64 in Hlen. lia.
Qed.

Lemma Forall2_eq_iff {A} (l k : list A) : Forall2 (=) l k ↔ l = k.
Proof. split; [|by intros ->]. induction 1; congruence. Qed.

Lemma prefix_code_list : prefix_code (λ l, fits l ∧ Forall fits l) (=) e_list.
Proof.
  intros l k r s Hl Hk E.
  apply (prefix_code_counted _ _ _ prefix_code_bytes) in E as [->%Forall2_eq_iff ->]; done.
Qed.

(** Versions whose components are [u64] values (they are [u32]s). *)
Definition version_sized (v : RPackageVersion) : Prop :=
  fits (Components_iter (version_components v)) ∧
  Forall (λ n, n ≤ u64_max)%N (Components_iter (version_components v)).

Lemma prefix_code_version : prefix_code version_sized (≈) e_version.
Proof.
  intros v w r s Hv Hw E.
  apply (prefix_code_counted _ _ _ prefix_code_u64) in E as [E%Forall2_eq_iff ->]; [|done..].
  split; [|done]. by apply version_req_iter.
Qed.

Definition provenance_sized (p : Provenance) : Prop :=
  match p with
  | RBasePackage v => version_sized v
  | RegistryRelease n v => str_fits (Identifier_as_str n) ∧ version_sized v
  | GitCommit r c s =>
    str_fits (NormalizedGitUrl_as_str r) ∧ str_fits (GitCommitId_as_str c) ∧
    (∀ d, s = Some d → str_fits (RepositorySubdir_as_str d))
  | BioconductorReleaseOf n r v =>
    str_fits (Identifier_as_str n) ∧ str_fits (Identifier_as_str r) ∧ version_sized v
  | ImmutableSource s d => str_fits (Identifier_as_str s) ∧ str_fits (Sha256Digest_as_str d)
  end.
Definition identity_sized (i : ReleaseIdentity) : Prop :=
  str_fits (PackageName_as_str (ReleaseIdentity_name i)) ∧
  provenance_sized (ReleaseIdentity_provenance i).

(** Git commit ids are built by their constructor: the algorithm is determined
    by the text. *)
Definition commit_ok (c : GitCommitId) : Prop :=
  GitCommitId_algorithm c = if bool_decide (str_len (GitCommitId_as_str c) = 40) then Sha1 else Sha256.

Definition identity_ok (i : ReleaseIdentity) : Prop :=
  identity_sized i ∧
  match ReleaseIdentity_provenance i with GitCommit _ c _ => commit_ok c | _ => True end.

Lemma GitCommitId_new_commit_ok s c : GitCommitId_new s = Ok c → commit_ok c.
Proof.
  unfold GitCommitId_new, commit_ok. rewrite result_bind_ok. intros (a & Ha & H).
  destruct (negb _); [done|]. destruct (all_bytes _ _); [done|]. simplify_eq/=.
  rewrite str_len_to_ascii_lowercase.
  case_bool_decide as E; [rewrite E in Ha; by simplify_eq/=|].
  repeat (case_match; try done); simplify_eq/=; congruence.
Qed.

Ltac read_code lem E H := apply lem in E as [H E]; [|done..].

Lemma identifier_eq {kind} (i j : Identifier kind) :
  Identifier_as_str i = Identifier_as_str j → i = j.
Proof. destruct i, j. simpl. congruence. Qed.

(** Drops the tag byte of both sides; different tags are contradictory. *)
Ltac read_tag E :=
  cbn [app] in E; apply cons_inj_iff in E as [?Htag E];
  try match goal with H : byte_of _ = byte_of _ |- _ => vm_compute in H; discriminate H end.

Definition optional_fits (o : option string) : Prop := ∀ s, o = Some s → str_fits s.

Lemma optional_fits_fmap {A} (f : A → string) o :
  (∀ d, o = Some d → str_fits (f d)) → optional_fits (f <$> o).
Proof. intros H s. destruct o as [d|]; simpl; [|done]. intros [= <-]. by apply H. Qed.

Lemma prefix_code_optional : prefix_code optional_fits (=) e_optional.
Proof.
  intros [a|] [b|] r s Ha Hb E; simpl in E; read_tag E; [|by subst].
  apply prefix_code_string in E as [-> ->]; [done|by apply Ha|by apply Hb].
Qed.

Lemma prefix_code_identity : prefix_code identity_ok (≈) e_identity.
Proof.
  intros [[n] p] [[m] q] r s [[Hn Hp] Hpc] [[Hm Hq] Hqc] E. unfold e_identity, append_identity in E.
  cbn [ReleaseIdentity_name ReleaseIdentity_provenance PackageName_as_str] in *.
  rewrite ReleaseIdentity_req_iff. simpl.
  destruct p as [v|nn v|u c sd|nn rr v|sc d], q as [v'|nn' v'|u' c' sd'|nn' rr' v'|sc' d'];
    revert E; unfold_appends; intros E;
    read_code prefix_code_string E Hname; subst m; read_tag E;
    simpl in Hp, Hq; destruct_and?.
  - read_code prefix_code_version E Hv. done.
  - read_code prefix_code_string E Ea. read_code prefix_code_version E Eb.
    apply identifier_eq in Ea as <-. split; [|done]. split; [done|].
    change ((nn =?= nn) && (v =?= v') = true). by rewrite req_refl, (Eb : (v =?= v') = true).
  - read_code prefix_code_string E Ea. read_code prefix_code_string E Eb.
    apply prefix_code_optional in E as [Ec ->]; [|apply optional_fits_fmap; assumption..].
    destruct u, u', c as [a c], c' as [a' c']. simpl in Ea, Eb. subst.
    assert (a = a') as <- by (unfold commit_ok in *; simpl in *; congruence).
    assert (sd = sd') as <- by (destruct sd as [[]|], sd' as [[]|]; simplify_eq/=; done).
    split; [|done]. split; [done|]. apply (req_refl (GitCommit _ _ sd)).
  - read_code prefix_code_string E Ea.
    read_code prefix_code_string E Eb. read_code prefix_code_version E Ec.
    apply identifier_eq in Ea as <-, Eb as <-. split; [|done]. split; [done|].
    change ((nn =?= nn) && (rr =?= rr) && (v =?= v') = true). by rewrite !req_refl, (Ec : (v =?= v') = true).
  - read_code prefix_code_string E Ea. read_code prefix_code_string E Eb.
    apply identifier_eq in Ea as <-. destruct d, d'. simpl in Eb. subst.
    split; [|done]. split; [done|]. apply (req_refl (ImmutableSource _ _)).
Qed.

Definition source_ok (s : DependencySourceConstraint) : Prop :=
  match s with
  | SourceAny => True
  | SourceRegistry n => str_fits (Identifier_as_str n)
  | SourceRepository r => str_fits (Identifier_as_str r)
  | SourceBioconductor n r => str_fits (Identifier_as_str n) ∧ str_fits (Identifier_as_str r)
  | SourceGit u => str_fits (NormalizedGitUrl_as_str u)
  | SourceExact i => identity_ok i
  end.

Lemma prefix_code_source : prefix_code source_ok (≈) e_source.
Proof.
  intros s t r r' Hs Ht E. unfold e_source in E.
  destruct s as [|n|n|n k|[u]|i], t as [|n'|n'|n' k'|[u']|i']; simpl in E, Hs, Ht;
    revert E; unfold_appends; intros E;
    try (rewrite append_identity_e, <-app_assoc in E); try (rewrite append_identity_e, <-app_assoc in E);
    read_tag E; destruct_and?.
  - done.
  - read_code prefix_code_string E Ea. apply identifier_eq in Ea as <-.
    split; [apply (req_refl (SourceRegistry n))|done].
  - read_code prefix_code_string E Ea. apply identifier_eq in Ea as <-.
    split; [apply (req_refl (SourceRepository n))|done].
  - read_code prefix_code_string E Ea. read_code prefix_code_string E Eb.
    apply identifier_eq in Ea as <-, Eb as <-.
    split; [apply (req_refl (SourceBioconductor n k))|done].
  - read_code prefix_code_string E Ea. simpl in Ea. subst.
    split; [apply (req_refl (SourceGit _))|done].
  - read_code prefix_code_identity E Ea. done.
Qed.

(** ** Encoded sets *)

Lemma elem_of_sort_dedup x l : x ∈ sort_dedup l ↔ x ∈ l.
Proof.
  unfold sort_dedup. split; [by intros ?%elem_of_dedup_by%elem_of_sort_by|]. intros Hx.
  assert (Exists (λ y, y = x) (dedup_by (λ x y, bool_decide (x = y)) (sort_by bytes_cmp l)))
    as (y & Hy & ->)%Exists_exists; [|done].
  apply (dedup_by_complete _ _ _ x); [|by apply elem_of_sort_by|done].
  by intros ? ? ->%bool_decide_eq_true.
Qed.

Lemma sort_dedup_sorted l : StronglySorted (λ x y, bytes_cmp x y = Lt) (sort_dedup l).
Proof.
  apply (dedup_sorted_strict bytes_cmp); [|apply sort_by_sorted, _].
  intros x y. case_bool_decide as H.
  - by rewrite H, (cmp_refl bytes_cmp).
  - destruct (bytes_cmp x y) eqn:E; [|done..]. by apply (cmp_eq_leibniz bytes_cmp) in E.
Qed.

Lemma sort_dedup_ext l k : sort_dedup l = sort_dedup k ↔ ∀ x, x ∈ l ↔ x ∈ k.
Proof.
  split.
  - intros E x. by rewrite <-elem_of_sort_dedup, E, elem_of_sort_dedup.
  - intros H. apply (strict_sorted_ext bytes_cmp); [apply sort_dedup_sorted..|].
    intros x. by rewrite !elem_of_sort_dedup.
Qed.

(** Two lists that cover each other up to [R]. *)
Definition same_up_to {A} (R : A → A → Prop) (l k : list A) : Prop :=
  (∀ x, x ∈ l → ∃ y, y ∈ k ∧ R x y) ∧ (∀ y, y ∈ k → ∃ x, x ∈ l ∧ R x y).

Lemma encoded_sets_eq {A} (R : A → A → Prop) (f : A → list byte) (l k : list A) :
  (∀ x y, x ∈ l → y ∈ k → f x = f y ↔ R x y) →
  sort_dedup (f <$> l) = sort_dedup (f <$> k) ↔ same_up_to R l k.
Proof.
  intros HR. rewrite sort_dedup_ext. setoid_rewrite list_elem_of_fmap. split.
  - intros H. split.
    + intros x Hx. destruct (proj1 (H (f x))) as (y & E & Hy); [by exists x|].
      exists y. split; [done|]. by apply HR.
    + intros y Hy. destruct (proj2 (H (f y))) as (x & E & Hx); [by exists y|].
      exists x. split; [done|]. by apply HR.
  - intros [H1 H2] b. split.
    + intros (x & -> & Hx). destruct (H1 x Hx) as (y & Hy & Hxy). exists y.
      split; [|done]. by apply HR.
    + intros (y & -> & Hy). destruct (H2 y Hy) as (x & Hx & Hxy). exists x.
      split; [|done]. symmetry. by apply HR.
Qed.

(** ** What the encoding identifies *)

Lemma e_version_proper v w : v ≈ w → e_version v = e_version w.
Proof. rewrite version_req_iter. unfold e_version. by intros ->. Qed.

Lemma e_identity_proper i j : i ≈ j → e_identity i = e_identity j.
Proof.
  intros [Hn Hp]%ReleaseIdentity_req_iff. unfold e_identity, append_identity. rewrite Hn.
  destruct i as [n p], j as [m q]; simpl in *.
  change (Provenance_eq p q = true) in Hp.
  destruct p, q; simpl in Hp; try done; rewrite ?andb_true_iff in Hp; destruct_and?;
    repeat match goal with
    | H : (_ =?= _) = true |- _ => first [apply req_leibniz in H as <- | apply e_version_proper in H]
    end; unfold_appends; congruence.
Qed.

Lemma e_source_proper s t : s ≈ t → e_source s = e_source t.
Proof.
  intros H. change (DependencySourceConstraint_eq s t = true) in H.
  destruct s, t; simpl in H; try done; rewrite ?andb_true_iff in H; destruct_and?;
    repeat match goal with
    | H : (_ =?= _) = true |- _ => first [apply req_leibniz in H as <- | apply e_identity_proper in H]
    end; try done.
  unfold e_source. simpl. rewrite !append_identity_e. congruence.
Qed.

Definition clause_sized (c : VersionClause) : Prop := version_sized (clause_version c).

Lemma encode_clause_eq c d :
  clause_sized c → clause_sized d → encode_clause c = encode_clause d ↔ c ≈ d.
Proof.
  intros Hc Hd. unfold encode_clause. rewrite !append_version_e.
  change (c ≈ d) with (VersionClause_eq c d = true). unfold VersionClause_eq.
  rewrite andb_true_iff, req_leibniz. split.
  - rewrite <-(app_nil_r (e_version (clause_version c))), <-(app_nil_r (e_version (clause_version d))).
    intros E. cbn [app] in E. apply cons_inj_iff in E as [Ho E].
    apply prefix_code_version in E as [E _]; [|done..]. split; [|done].
    destruct (clause_op c), (clause_op d); try done; vm_compute in Ho; discriminate Ho.
  - intros [-> Hv]. by rewrite (e_version_proper _ _ Hv).
Qed.

(** Two declarations the digest does not distinguish: same kind, name and
    source, and the same set of clauses. *)
Definition dependency_similar (d e : DeclaredDependency) : Prop :=
  declared_kind d = declared_kind e ∧
  requirement_name (declared_package d) = requirement_name (declared_package e) ∧
  requirement_source (declared_package d) ≈ requirement_source (declared_package e) ∧
  same_up_to (≈) (clauses (requirement_constraint (declared_package d)))
    (clauses (requirement_constraint (declared_package e))).

(** Everything a dependency record encodes fits memory. *)
Definition dependency_sized (d : DeclaredDependency) : Prop :=
  str_fits (PackageName_as_str (requirement_name (declared_package d))) ∧
  source_ok (requirement_source (declared_package d)) ∧
  Forall clause_sized (clauses (requirement_constraint (declared_package d))) ∧
  let l := sort_dedup (encode_clause <$> clauses (requirement_constraint (declared_package d))) in
  fits l ∧ Forall fits l.

Lemma kind_byte_inj k k' : byte_of (kind_byte k) = byte_of (kind_byte k') → k = k'.
Proof. destruct k, k'; try done; intros E; vm_compute in E; discriminate E. Qed.

Lemma encode_dependency_eq d e :
  dependency_sized d → dependency_sized e →
  encode_dependency d = encode_dependency e ↔ dependency_similar d e.
Proof.
  intros (Hn & Hs & Hc & Hl) (Hn' & Hs' & Hc' & Hl'). rewrite !encode_dependency_e.
  unfold dependency_similar.
  assert (sort_dedup (encode_clause <$> clauses (requirement_constraint (declared_package d)))
    = sort_dedup (encode_clause <$> clauses (requirement_constraint (declared_package e))) ↔
    same_up_to (≈) (clauses (requirement_constraint (declared_package d)))
      (clauses (requirement_constraint (declared_package e)))) as Hset.
  { apply encoded_sets_eq. rewrite Forall_forall in Hc, Hc'.
    intros x y Hx Hy. apply encode_clause_eq; [by apply Hc|by apply Hc']. }
  split.
  - intros [Hk E]%cons_inj_iff. read_code prefix_code_string E Ea. read_code prefix_code_source E Eb.
    rewrite <-(app_nil_r (e_list _)), <-(app_nil_r (e_list (sort_dedup (_ <$> clauses
      (requirement_constraint (declared_package e)))))) in E.
    apply prefix_code_list in E as [Ec _]; [|done..].
    split_and!; [by apply kind_byte_inj| |done|by apply Hset].
    destruct (requirement_name (declared_package d)), (requirement_name (declared_package e)).
    simpl in Ea. congruence.
  - intros (-> & -> & Hsrc & Hcl%Hset). by rewrite (e_source_proper _ _ Hsrc), Hcl.
Qed.

(** Everything a release encodes fits memory. *)
Definition encoding_sized (i : ReleaseIdentity) (v : RPackageVersion) (ds : list DeclaredDependency) :
    Prop :=
  identity_ok i ∧ version_sized v ∧ Forall dependency_sized ds ∧
  fits (sort_dedup (encode_dependency <$> ds)) ∧
  Forall fits (sort_dedup (encode_dependency <$> ds)).

(** C2: the hashed bytes identify releases exactly up to version spelling,
    and the order and repetition of dependencies and clauses: two encodings
    are equal iff identity, version and the set of dependencies agree. *)
Theorem metadata_encoding_injective i v ds j w es :
  encoding_sized i v ds → encoding_sized j w es →
  metadata_encoding i v ds = metadata_encoding j w es ↔
    i ≈ j ∧ v ≈ w ∧ same_up_to dependency_similar ds es.
Proof.
  intros (Hi & Hv & Hds & Hl) (Hj & Hw & Hes & Hl'). rewrite !metadata_encoding_e.
  assert (sort_dedup (encode_dependency <$> ds) = sort_dedup (encode_dependency <$> es) ↔
    same_up_to dependency_similar ds es) as Hset.
  { apply encoded_sets_eq. rewrite Forall_forall in Hds, Hes.
    intros x y Hx Hy. apply encode_dependency_eq; [by apply Hds|by apply Hes]. }
  split.
  - intros E%app_inv_head. read_code prefix_code_identity E Ea. read_code prefix_code_version E Eb.
    rewrite <-(app_nil_r (e_list _)), <-(app_nil_r (e_list (sort_dedup (_ <$> es)))) in E.
    apply prefix_code_list in E as [Ec _]; [|done..].
    split_and!; [done..|by apply Hset].
  - intros (Hij & Hvw & Hset'%Hset).
    by rewrite (e_identity_proper _ _ Hij), (e_version_proper _ _ Hvw), Hset'.
Qed.

(** ** The digest itself *)

Lemma mjoin_cons {A} (x : list A) l : mjoin (x :: l) = x ++ mjoin l.
Proof. done. Qed.

Lemma hex_encode_hexdigits l : all_bytes is_ascii_hexdigit (hex_encode l) = true.
Proof.
  unfold all_bytes, hex_encode. rewrite bytes_from_utf8.
  induction l as [|b l IH]; [done|].
  rewrite fmap_cons, mjoin_cons, forallb_app, IH. by destruct b.
Qed.

Lemma str_len_hex_encode l : str_len (hex_encode l) = 2 * length l.
Proof.
  unfold str_len, hex_encode. rewrite bytes_from_utf8.
  induction l as [|b l IH]; [done|].
  rewrite fmap_cons, mjoin_cons, length_app, IH. simpl. lia.
Qed.

Lemma hex_encode_lower l : Forall (λ b, is_lower_hex b = true) (bytes (hex_encode l)).
Proof.
  unfold hex_encode. rewrite bytes_from_utf8. induction l as [|b l IH]; [constructor|].
  rewrite fmap_cons, mjoin_cons. apply Forall_app. split; [|done]. by destruct b; repeat constructor.
Qed.

Lemma lower_hex_to_lowercase s :
  Forall (λ b, is_lower_hex b = true) (bytes s) → to_ascii_lowercase s = s.
Proof.
  intros Hs. unfold to_ascii_lowercase. rewrite <-(from_utf8_bytes s) at 2. f_equal.
  induction Hs as [|b l Hb _ IH]; [done|]. cbn [fmap list_fmap]. f_equal; [|done].
  apply (bool_decide_eq_true (byte_to_ascii_lowercase b = b)). revert b Hb.
  apply (byte_implies is_lower_hex (λ b, bool_decide (byte_to_ascii_lowercase b = b))).
  vm_compute. reflexivity.
Qed.

Lemma digest_expect_never_panics `{Sha2, !Sha2Laws} data :
  is_ok (Sha256Digest_new (hex_encode (sha256_digest data))) = true.
Proof.
  unfold Sha256Digest_new. rewrite str_len_hex_encode, sha256_digest_length, hex_encode_hexdigits.
  done.
Qed.

Lemma canonical_metadata_digest_proper `{Sha2} i v ds j w es :
  metadata_encoding i v ds = metadata_encoding j w es →
  canonical_metadata_digest i v ds = canonical_metadata_digest j w es.
Proof. unfold canonical_metadata_digest. by intros ->. Qed.

(** Equal releases have equal digests, whatever the spelling of their versions. *)
Lemma fmap_req_eq {A B} `{PartialEq A} (f : A → B) (l k : list A) :
  (∀ x y, x ≈ y → f x = f y) → l ≈ k → f <$> l = f <$> k.
Proof.
  intros Hf Hlk%list_req_Forall2. induction Hlk as [|x y l k Hxy _ IH]; [done|].
  cbn. by rewrite (Hf _ _ Hxy), IH.
Qed.

Lemma encode_clause_proper c d : c ≈ d → encode_clause c = encode_clause d.
Proof.
  intros [Ho Hv]%andb_true_iff. apply req_leibniz in Ho. unfold encode_clause.
  by rewrite !append_version_e, Ho, (e_version_proper _ _ Hv).
Qed.

Lemma encode_dependency_proper d e : d ≈ e → encode_dependency d = encode_dependency e.
Proof.
  intros [Hk [[Hn Hs]%andb_true_iff Hc]%andb_true_iff]%andb_true_iff.
  apply req_leibniz in Hk, Hn.
  by rewrite !encode_dependency_e, Hk, Hn, (e_source_proper _ _ Hs),
    (fmap_req_eq _ _ _ encode_clause_proper Hc).
Qed.

Lemma metadata_encoding_proper i v ds j w es :
  i ≈ j → v ≈ w → ds ≈ es → metadata_encoding i v ds = metadata_encoding j w es.
Proof.
  intros Hi Hv Hd. by rewrite !metadata_encoding_e, (e_identity_proper _ _ Hi),
    (e_version_proper _ _ Hv), (fmap_req_eq _ _ _ encode_dependency_proper Hd).
Qed.
