(* ===== verification/Metadata.v ===== *)
(** * Releases and their aggregation ([rsolve-core/src/metadata/types.rs],
      [metadata/aggregation.rs])

    Validation of an observed release, the merge of two observations of one
    identity, and the identity-keyed aggregation of observations. *)

From S2P Require Import Prelude RustStd Collections Externals Format Versions Names Publication.
From S2P Require Import Identity Constraints Digest.

(** ** Passthrough metadata *)

Record ReleaseMetadata := mk_ReleaseMetadata { release_fields : Fields }.

Inductive ReleaseMetadataError := ReservedField (field : string).

Definition ReleaseMetadataError_fmt `{UnicodeTables} (e : ReleaseMetadataError) : string :=
  match e with
  | ReservedField field => "release metadata field " +:+ debug_str field +:+ " is not metadata"
  end.

Definition is_reserved_field (field : string) : bool :=
  bool_decide (to_ascii_lowercase field ∈
    ["package"; "version"; "depends"; "imports"; "linkingto"; "suggests"; "enhances"; "published"]).

Definition ReleaseMetadata_new (fields : Fields) : result ReleaseMetadata ReleaseMetadataError :=
  match List.find is_reserved_field fields.*1 with
  | Some field => Err (ReservedField field)
  | None => Ok (mk_ReleaseMetadata fields)
  end.

(** [from_pairs]: collected into a [BTreeMap<String, String>] first. *)
Definition ReleaseMetadata_from_pairs (pairs : list (string * string)) :
    result ReleaseMetadata ReleaseMetadataError :=
  ReleaseMetadata_new (bt_from_iter str_cmp pairs).

#[export] Instance ReleaseMetadata_eq_dec : EqDecision ReleaseMetadata.
Proof. intros [f] [g]. destruct (decide (f = g)); [left|right]; congruence. Defined.
#[export] Instance req_ReleaseMetadata : PartialEq ReleaseMetadata := req_dec.
#[export] Instance req_ReleaseMetadata_leibniz : LeibnizEq ReleaseMetadata := req_dec_leibniz.

Inductive PackageReleaseError :=
| ConflictingMetadata (field : string)
| InvalidMetadata (error : ReleaseMetadataError)
| InvalidDependency (index : nat).

Definition PackageReleaseError_fmt `{UnicodeTables} (e : PackageReleaseError) : string :=
  match e with
  | ConflictingMetadata field => "conflicting release metadata in " +:+ field
  | InvalidMetadata error => ReleaseMetadataError_fmt error
  | InvalidDependency index => "invalid dependency at index " +:+ nat_to_string index
  end.

(** [source] is [Exact] with another name, or the name is empty. *)
Definition invalid_dependency (dependency : DeclaredDependency) : bool :=
  let package := declared_package dependency in
  bool_decide (PackageName_as_str (requirement_name package) = "") ||
  match requirement_source package with
  | SourceExact identity => negb (ReleaseIdentity_name identity =?= requirement_name package)
  | _ => false
  end.

Fixpoint first_invalid_dependency (index : nat) (l : list DeclaredDependency) : option nat :=
  match l with
  | [] => None
  | d :: l => if invalid_dependency d then Some index else first_invalid_dependency (S index) l
  end.

Section releases.
Context `{CivilDate, Sha2}.

Record ReleaseObservation := mk_ReleaseObservation {
  observed_identity : ReleaseIdentity;
  observed_package : PackageName;
  observed_version : RPackageVersion;
  observed_release_metadata : ReleaseMetadata;
  observed_publication : option ReleasePublication;
  observed_dependencies : list DeclaredDependency;
  observed_distributions : list Distribution;
}.

Record PackageRelease := mk_PackageRelease {
  release_identity : ReleaseIdentity;
  release_version : RPackageVersion;
  release_metadata : ReleaseMetadata;
  release_publication : option ReleasePublication;
  release_dependencies : list DeclaredDependency;
  release_distributions : list Distribution;
  release_metadata_digest : Sha256Digest;
}.

Definition PackageRelease_is_r_base_package (r : PackageRelease) : bool :=
  Provenance_is_r_base_package (ReleaseIdentity_provenance (release_identity r)).

(** The version of a provenance that carries one. *)
Definition provenance_version (p : Provenance) : option RPackageVersion :=
  match p with
  | RegistryRelease _ version | BioconductorReleaseOf _ _ version => Some version
  | RBasePackage r_version => Some r_version
  | GitCommit _ _ _ | ImmutableSource _ _ => None
  end.

Definition PackageRelease_try_from (observation : ReleaseObservation) :
    result PackageRelease PackageReleaseError :=
  if negb (ReleaseIdentity_name (observed_identity observation)
           =?= observed_package observation)
  then Err (ConflictingMetadata "package name")
  else if match provenance_version (ReleaseIdentity_provenance (observed_identity observation)) with
          | Some version => negb (version =?= observed_version observation)
          | None => false
          end
  then Err (ConflictingMetadata "provenance version")
  else match first_invalid_dependency 0 (observed_dependencies observation) with
  | Some index => Err (InvalidDependency index)
  | None =>
    Ok {| release_identity := observed_identity observation;
          release_version := observed_version observation;
          release_metadata := observed_release_metadata observation;
          release_publication := observed_publication observation;
          release_dependencies := observed_dependencies observation;
          release_distributions :=
            canonicalize_distributions (observed_distributions observation);
          release_metadata_digest :=
            canonical_metadata_digest (observed_identity observation)
              (observed_version observation) (observed_dependencies observation) |}
  end.

(** ** Merging two observations of one identity *)

Definition push_missing (distributions : list Distribution) (incoming : Distribution) :
    list Distribution :=
  if existsb (λ d, d =?= incoming) distributions then distributions
  else distributions ++ [incoming].

Definition merge_distributions (existing incoming : list Distribution) : list Distribution :=
  canonicalize_distributions (foldl push_missing existing incoming).

(** The [match] on the two publications: [Err] is a conflict. *)
Definition merged_publication (left right : option ReleasePublication) :
    result (option ReleasePublication) PackageReleaseError :=
  match left, right with
  | Some l, Some r =>
    if negb (l =?= r) then Err (ConflictingMetadata "publication") else Ok (Some l)
  | Some publication, None | None, Some publication => Ok (Some publication)
  | None, None => Ok None
  end.

Definition merge_consistent (self incoming : PackageRelease) :
    result PackageRelease PackageReleaseError :=
  if negb (release_version self =?= release_version incoming)
  then Err (ConflictingMetadata "version")
  else if negb (release_metadata self =?= release_metadata incoming)
  then Err (ConflictingMetadata "metadata")
  else
    let? publication :=
      merged_publication (release_publication self) (release_publication incoming) in
    if negb (release_dependencies self =?= release_dependencies incoming)
    then Err (ConflictingMetadata "declared dependencies")
    else
      Ok {| release_identity := release_identity self;
            release_version := release_version self;
            release_metadata := release_metadata self;
            release_publication :=
              match release_publication self with
              | None => publication
              | Some p => Some p
              end;
            release_dependencies := release_dependencies self;
            release_distributions :=
              merge_distributions (release_distributions self) (release_distributions incoming);
            release_metadata_digest := release_metadata_digest self |}.

(** ** Aggregation

    A [HashMap] keyed by identity. *)

Definition ReleaseAggregation := list (ReleaseIdentity * PackageRelease).
Definition ReleaseAggregation_new : ReleaseAggregation := [].

Definition observe_release (self : ReleaseAggregation) (release : PackageRelease) :
    result ReleaseAggregation PackageReleaseError :=
  match hm_get (release_identity release) self with
  | Some existing =>
    let? merged := merge_consistent existing release in
    Ok (hm_insert (release_identity release) merged self)
  | None => Ok (hm_insert (release_identity release) release self)
  end.

Definition observe (self : ReleaseAggregation) (observation : ReleaseObservation) :
    result ReleaseAggregation PackageReleaseError :=
  let? release := PackageRelease_try_from observation in observe_release self release.

Definition aggregation_get (self : ReleaseAggregation) (identity : ReleaseIdentity) :
    option PackageRelease := hm_get identity self.
Definition aggregation_len (self : ReleaseAggregation) : nat := length self.
Definition aggregation_releases (self : ReleaseAggregation) : list PackageRelease := hm_values self.

(** ** What validation establishes *)

Lemma ReleaseMetadata_new_ok_iff fields m :
  ReleaseMetadata_new fields = Ok m ↔
    m = mk_ReleaseMetadata fields ∧ Forall (λ f, is_reserved_field f.1 = false) fields.
Proof.
  unfold ReleaseMetadata_new.
  destruct (List.find is_reserved_field fields.*1) as [n|] eqn:E.
  - split; [done|]. intros [_ Hall]. apply find_some in E as [Hin%list_elem_of_In Hr].
    apply list_elem_of_fmap in Hin as (f & -> & Hf). rewrite Forall_forall in Hall.
    by rewrite Hall in Hr.
  - apply find_none_Forall in E. rewrite Forall_fmap in E. split; [by intros [= <-]|by intros [-> _]].
Qed.

Definition dependency_wf (d : DeclaredDependency) : Prop :=
  PackageName_as_str (requirement_name (declared_package d)) ≠ "" ∧
  requirement_wf (declared_package d).

Definition release_wf (r : PackageRelease) : Prop :=
  (∀ v, provenance_version (ReleaseIdentity_provenance (release_identity r)) = Some v →
        v ≈ release_version r) ∧
  Forall dependency_wf (release_dependencies r) ∧
  distributions_canonical (release_distributions r) ∧
  release_metadata_digest r =
    canonical_metadata_digest (release_identity r) (release_version r) (release_dependencies r).

Lemma invalid_dependency_false d : invalid_dependency d = false ↔ dependency_wf d.
Proof.
  unfold invalid_dependency, dependency_wf, requirement_wf.
  rewrite orb_false_iff, bool_decide_eq_false.
  destruct (requirement_source (declared_package d)); try naive_solver.
  rewrite negb_false_iff, req_leibniz. naive_solver.
Qed.

Lemma first_invalid_dependency_none i l :
  first_invalid_dependency i l = None ↔ Forall dependency_wf l.
Proof.
  revert i. induction l as [|d l IH]; intros i; simpl; [by split|].
  rewrite Forall_cons, <-invalid_dependency_false.
  destruct (invalid_dependency d); [|rewrite IH]; naive_solver.
Qed.

Lemma first_invalid_dependency_some i l n :
  first_invalid_dependency i l = Some n ↔ ∃ before d after,
    l = before ++ d :: after ∧ Forall dependency_wf before ∧ ¬ dependency_wf d ∧
    n = i + length before.
Proof.
  revert i. induction l as [|d l IH]; intros i; simpl.
  { split; [done|]. intros ([] & ? & ? & [=] & _). }
  destruct (invalid_dependency d) eqn:Hd.
  - assert (¬ dependency_wf d) by (rewrite <-invalid_dependency_false; congruence).
    split.
    + intros [= <-]. exists [], d, l. repeat split; [constructor|done|simpl; lia].
    + intros ([|e before] & d' & after & [= <- ->] & Hf & ? & ->); [simpl; f_equal; lia|].
      by inversion Hf.
  - apply invalid_dependency_false in Hd. rewrite IH. split.
    + intros (before & d' & after & -> & ? & ? & ->). exists (d :: before), d', after.
      repeat split; [by constructor|done|simpl; lia].
    + intros ([|e before] & d' & after & [= <- ->] & Hf & ? & ->); [done|].
      inversion Hf; subst. exists before, d', after. repeat split; [done..|simpl; lia].
Qed.

Lemma PackageRelease_try_from_wf o r : PackageRelease_try_from o = Ok r → release_wf r.
Proof.
  unfold PackageRelease_try_from. intros E.
  destruct (negb _) in E; [done|].
  destruct (match provenance_version _ with Some _ => _ | None => _ end) eqn:Hv; [done|].
  destruct (first_invalid_dependency 0 _) eqn:Hd; [done|]. simplify_eq/=.
  split_and!; simpl; [|by apply first_invalid_dependency_none in Hd
    |apply canonicalize_sorted|done].
  intros v Hp. rewrite Hp in Hv. by apply negb_false_iff in Hv.
Qed.

(** ** What a merge does *)

Definition publications_agree (p q : option ReleasePublication) : Prop :=
  ∀ x y, p = Some x → q = Some y → x = y.

(** Two observations that can be facts about one release. *)
Definition mergeable (a b : PackageRelease) : Prop :=
  release_version a ≈ release_version b ∧ release_metadata a = release_metadata b ∧
  publications_agree (release_publication a) (release_publication b) ∧
  release_dependencies a ≈ release_dependencies b.

Lemma elem_of_push_missing l d e : e ∈ push_missing l d ↔ e ∈ l ∨ e = d.
Proof.
  unfold push_missing. destruct (existsb _ l) eqn:E.
  - apply existsb_exists in E as (x & Hx%list_elem_of_In & ->%req_leibniz). naive_solver.
  - rewrite elem_of_app, list_elem_of_singleton. done.
Qed.

Lemma elem_of_push_all l k d : d ∈ foldl push_missing l k ↔ d ∈ l ∨ d ∈ k.
Proof.
  revert l. induction k as [|e k IH]; intros l; simpl.
  - rewrite elem_of_nil. naive_solver.
  - rewrite IH, elem_of_push_missing, elem_of_cons. naive_solver.
Qed.

Lemma elem_of_merge_distributions l k d :
  Forall distribution_wf l → Forall distribution_wf k →
  d ∈ merge_distributions l k ↔ d ∈ l ∨ d ∈ k.
Proof.
  rewrite !Forall_forall. intros Hl Hk. unfold merge_distributions.
  rewrite elem_of_canonicalize, elem_of_push_all; [done|].
  apply Forall_forall. intros e [?|?]%elem_of_push_all; auto.
Qed.

Lemma merged_publication_ok p q :
  match merged_publication p q with
  | Ok r => publications_agree p q ∧ (∀ x, r = Some x ↔ p = Some x ∨ q = Some x)
  | Err e => e = ConflictingMetadata "publication" ∧ ¬ publications_agree p q
  end.
Proof.
  unfold merged_publication, publications_agree.
  destruct p as [x|], q as [y|]; simpl; try naive_solver.
  destruct (x =?= y) eqn:E; simpl.
  - apply req_leibniz in E as ->. naive_solver.
  - split; [done|]. intros Hxy. specialize (Hxy x y eq_refl eq_refl) as ->.
    by rewrite req_refl in E.
Qed.

(** The merged release keeps the first one's facts and adds what it lacked. *)
Definition merged (a b c : PackageRelease) : Prop :=
  release_identity c = release_identity a ∧ release_version c = release_version a ∧
  release_metadata c = release_metadata a ∧
  release_dependencies c = release_dependencies a ∧
  release_metadata_digest c = release_metadata_digest a ∧
  (∀ p, release_publication c = Some p ↔
        release_publication a = Some p ∨ release_publication b = Some p) ∧
  release_distributions c = merge_distributions (release_distributions a) (release_distributions b).

Lemma merge_consistent_cases a b :
  match merge_consistent a b with
  | Ok c => mergeable a b ∧ merged a b c
  | Err e => ¬ mergeable a b ∧ ∃ field, e = ConflictingMetadata field
  end.
Proof.
  unfold merge_consistent, mergeable.
  destruct (release_version a =?= release_version b) eqn:Ev; simpl;
    [apply req_true_iff in Ev|apply req_false_iff in Ev; naive_solver].
  destruct (release_metadata a =?= release_metadata b) eqn:Em; simpl;
    [apply req_leibniz in Em|
     split; [|by eexists]; intros (_ & Em' & _); by rewrite Em', req_refl in Em].
  pose proof (merged_publication_ok (release_publication a) (release_publication b)) as Hp.
  destruct (merged_publication _ _) as [p|e]; simpl; [|naive_solver].
  destruct Hp as [Hagree Hp].
  destruct (release_dependencies a =?= release_dependencies b) eqn:Ed; simpl;
    [apply req_true_iff in Ed|apply req_false_iff in Ed; naive_solver].
  split; [done|]. split_and!; simpl; try done. intros x. rewrite <-Hp.
  destruct (release_publication a) as [y|]; [|done]. specialize (Hp y). naive_solver.
Qed.

Lemma release_digest_proper a b :
  release_wf a → release_wf b → release_identity a ≈ release_identity b → mergeable a b →
  release_metadata_digest a = release_metadata_digest b.
Proof.
  intros (_ & _ & _ & ->) (_ & _ & _ & ->) Hi (Hv & _ & _ & Hd).
  by apply canonical_metadata_digest_proper, metadata_encoding_proper.
Qed.

Lemma merged_wf a b c : release_wf a → merged a b c → release_wf c.
Proof.
  intros (Hv & Hd & _ & Hg) (Hi' & Hv' & _ & Hd' & Hg' & _ & Hs').
  unfold release_wf. rewrite Hi', Hv', Hd', Hg', Hs'. split_and!; [done..| |done].
  apply canonicalize_sorted.
Qed.

(** A validated release whose distributions are values of the field types. *)
Definition release_ok (r : PackageRelease) : Prop :=
  release_wf r ∧ Forall distribution_wf (release_distributions r).

Lemma merged_ok a b c : release_ok a → release_ok b → merged a b c → release_ok c.
Proof.
  intros [Ha Hda] [_ Hdb] Hm. split; [by eapply merged_wf|].
  destruct Hm as (_ & _ & _ & _ & _ & _ & ->). rewrite Forall_forall in *.
  intros d Hd. rewrite elem_of_merge_distributions in Hd by by apply Forall_forall. naive_solver.
Qed.

(** What [TryFrom<ReleaseObservation>] accepts and rejects. *)
Theorem PackageRelease_try_from_spec o :
  match PackageRelease_try_from o with
  | Ok r =>
      ReleaseIdentity_name (observed_identity o) = observed_package o ∧ release_wf r ∧
      release_identity r = observed_identity o ∧ release_version r = observed_version o ∧
      release_metadata r = observed_release_metadata o ∧
      release_publication r = observed_publication o ∧
      release_dependencies r = observed_dependencies o ∧
      (∀ d, d ∈ release_distributions r → d ∈ observed_distributions o)
  | Err (ConflictingMetadata field) =>
      (field = "package name" ∧ ReleaseIdentity_name (observed_identity o) ≠ observed_package o) ∨
      (field = "provenance version" ∧
       ReleaseIdentity_name (observed_identity o) = observed_package o ∧
       ∃ v, provenance_version (ReleaseIdentity_provenance (observed_identity o)) = Some v ∧
            v ≉ observed_version o)
  | Err (InvalidDependency n) => ∃ before d after,
      observed_dependencies o = before ++ d :: after ∧ length before = n ∧
      Forall dependency_wf before ∧ ¬ dependency_wf d
  | Err (InvalidMetadata _) => False
  end.
Proof.
  destruct (PackageRelease_try_from o) as [r|e] eqn:E.
  - pose proof (PackageRelease_try_from_wf _ _ E) as Hwf. unfold PackageRelease_try_from in E.
    destruct (ReleaseIdentity_name _ =?= _) eqn:Hn in E; [apply req_leibniz in Hn|done].
    simpl in E. destruct (match provenance_version _ with Some _ => _ | None => _ end) in E; [done|].
    destruct (first_invalid_dependency 0 _) in E; [done|]. simplify_eq/=.
    split_and!; try done. apply elem_of_canonicalize_1.
  - unfold PackageRelease_try_from in E.
    destruct (ReleaseIdentity_name _ =?= _) eqn:Hn in E; simpl in E; simplify_eq/=;
      [apply req_leibniz in Hn|left; split; [done|]; intros Heq; by rewrite Heq, req_refl in Hn].
    destruct (provenance_version _) as [v|] eqn:Hv; simpl in E.
    + destruct (v =?= observed_version o) eqn:Hvo; simpl in E; simplify_eq/=.
      * destruct (first_invalid_dependency 0 _) eqn:Hd; simplify_eq.
        apply first_invalid_dependency_some in Hd. naive_solver.
      * apply req_false_iff in Hvo. eauto 10.
    + destruct (first_invalid_dependency 0 _) eqn:Hd; simplify_eq.
      apply first_invalid_dependency_some in Hd. naive_solver.
Qed.

(** Merging two observations of one identity fails exactly when version,
    metadata, publication or dependencies disagree; otherwise the result is a
    valid release whose digest is that of both, whose publication is the one
    known to either and whose distributions are the union. *)
Theorem merge_consistent_spec a b :
  release_ok a → release_ok b → release_identity a ≈ release_identity b →
  match merge_consistent a b with
  | Ok c => mergeable a b ∧ release_ok c ∧ release_identity c = release_identity a ∧
      release_metadata_digest c = release_metadata_digest a ∧
      release_metadata_digest c = release_metadata_digest b ∧
      (∀ p, release_publication c = Some p ↔
            release_publication a = Some p ∨ release_publication b = Some p) ∧
      (∀ d, d ∈ release_distributions c ↔
            d ∈ release_distributions a ∨ d ∈ release_distributions b)
  | Err _ => ¬ mergeable a b
  end.
Proof.
  intros Ha Hb Hi. pose proof (merge_consistent_cases a b) as Hm.
  destruct (merge_consistent a b) as [c|e]; [|by destruct Hm].
  destruct Hm as [Hab Hm]. pose proof (merged_ok _ _ _ Ha Hb Hm) as Hc.
  pose proof Hm as (Hi' & _ & _ & _ & Hg & Hp & Hd).
  split_and!; try done.
  - rewrite Hg. apply release_digest_proper; [apply Ha|apply Hb|done..].
  - intros d. rewrite Hd. apply elem_of_merge_distributions; [apply Ha|apply Hb].
Qed.

(** ** What an aggregation holds *)

(** [c] is the merge of the releases [l], in whatever order. *)
Definition release_summary (l : list PackageRelease) (c : PackageRelease) : Prop :=
  release_ok c ∧ l ≠ [] ∧
  (∀ r, r ∈ l → release_identity r ≈ release_identity c ∧ release_version r ≈ release_version c ∧
     release_metadata r = release_metadata c ∧ release_dependencies r ≈ release_dependencies c ∧
     release_metadata_digest r = release_metadata_digest c) ∧
  (∀ p, release_publication c = Some p ↔ ∃ r, r ∈ l ∧ release_publication r = Some p) ∧
  (∀ d, d ∈ release_distributions c ↔ ∃ r, r ∈ l ∧ d ∈ release_distributions r).

Lemma release_summary_singleton r : release_ok r → release_summary [r] r.
Proof.
  intros Hr. unfold release_summary. setoid_rewrite list_elem_of_singleton.
  split_and!; [done|done|by intros ? ->|naive_solver..].
Qed.

Lemma release_summary_snoc l a b c :
  release_summary l a → release_ok b → release_identity a ≈ release_identity b →
  mergeable a b → merged a b c → release_summary (l ++ [b]) c.
Proof.
  intros (Ha & _ & Hl & Hp & Hd) Hb Hi Hab Hm. pose proof (merged_ok _ _ _ Ha Hb Hm) as Hc.
  pose proof (release_digest_proper a b (proj1 Ha) (proj1 Hb) Hi Hab) as Hg.
  destruct Hab as (Hv & Hme & Hpa & Hde).
  destruct Hm as (Ei & Ev & Em & Ed & Eg & Ep & Es). unfold release_summary.
  setoid_rewrite elem_of_app. setoid_rewrite list_elem_of_singleton.
  rewrite Ei, Ev, Em, Ed, Eg. split_and!; [done|by destruct l| | |].
  - intros r [Hr|Hr]; [by apply Hl|]. subst r. split_and!; by symmetry.
  - intros p. rewrite Ep, Hp. naive_solver.
  - intros d. rewrite Es, elem_of_merge_distributions, Hd; [naive_solver|apply Ha|apply Hb].
Qed.

#[global] Instance mergeable_dec : RelDecision mergeable.
Proof.
  intros a b. pose proof (merge_consistent_cases a b) as Hm.
  destruct (merge_consistent a b); [left|right]; naive_solver.
Defined.

(** A conflict with a merge is a conflict with one of its members. *)
Lemma summary_conflict l c b :
  release_summary l c → ¬ mergeable c b → ∃ r, r ∈ l ∧ ¬ mergeable r b.
Proof.
  intros (_ & Hne & Hl & Hp & _) Hcb.
  destruct (decide (Forall (λ r, mergeable r b) l)) as [Hall|Hnot].
  - exfalso. apply Hcb. rewrite Forall_forall in Hall. destruct l as [|x l]; [done|].
    destruct (Hl x ltac:(left)) as (_ & Hv & Hm & Hd & _).
    destruct (Hall x ltac:(left)) as (Hv' & Hm' & _ & Hd'). split_and!.
    + by rewrite <-Hv.
    + congruence.
    + intros p q Hcp Hbq. apply Hp in Hcp as (r & Hr & Hrp).
      by apply (proj1 (proj2 (proj2 (Hall r Hr)))).
    + by rewrite <-Hd.
  - apply not_Forall_Exists, Exists_exists in Hnot; [done|intros r; apply _].
Qed.

Lemma summary_mergeable l c b :
  release_summary l c → mergeable c b → ∀ r, r ∈ l → mergeable r b.
Proof.
  intros (_ & _ & Hl & Hp & _) (Hv & Hm & Hpa & Hd) r Hr.
  destruct (Hl r Hr) as (_ & Hv' & Hm' & Hd' & _). split_and!.
  - by rewrite Hv'.
  - congruence.
  - intros p q Hrp. apply Hpa, Hp. eauto.
  - by rewrite Hd'.
Qed.

(** Observing a sequence of releases, stopping at the first conflict. *)
Definition observe_releases (m : ReleaseAggregation) (l : list PackageRelease) :
    result ReleaseAggregation PackageReleaseError := try_fold observe_release m l.

(** The releases of one identity, in the order they were observed. *)
Definition releases_of : ReleaseIdentity → list PackageRelease → list PackageRelease :=
  values_of release_identity.

Definition incompatible (a b : PackageRelease) : Prop :=
  release_identity a ≈ release_identity b ∧ ¬ mergeable a b.

Lemma merge_release_summary l c r :
  release_summary l c → release_ok r → release_identity c ≈ release_identity r →
  match merge_consistent c r with
  | Ok c' => release_identity c' ≈ release_identity c ∧ release_summary (l ++ [r]) c' ∧
      ∀ x, x ∈ l → mergeable x r
  | Err _ => ∃ x, x ∈ l ∧ ¬ mergeable x r
  end.
Proof.
  intros Hc Hr Hi. pose proof (merge_consistent_cases c r) as Hm.
  destruct (merge_consistent c r) as [c'|e].
  - destruct Hm as [Hcr Hm]. split_and!.
    + by rewrite (proj1 Hm).
    + by eapply release_summary_snoc.
    + by apply summary_mergeable with c.
  - by eapply summary_conflict, Hm.
Qed.

Lemma observe_releases_spec l :
  Forall release_ok l →
  match observe_releases ReleaseAggregation_new l with
  | Ok m => keyed_inv release_identity release_summary l m ∧
      (∀ before r after, l = before ++ r :: after → ∀ x, x ∈ before → ¬ incompatible x r)
  | Err _ => ∃ x r, x ∈ l ∧ r ∈ l ∧ incompatible x r
  end.
Proof.
  exact (keyed_collect_spec release_identity merge_consistent release_ok mergeable
    release_summary release_summary_singleton merge_release_summary l).
Qed.

(** An aggregation of valid releases fails exactly when two of them, of one
    identity, contradict each other; otherwise it holds, for each identity
    observed and no other, the merge of that identity's releases. *)
Theorem release_aggregation_spec l :
  Forall release_ok l →
  match observe_releases ReleaseAggregation_new l with
  | Ok m =>
      (∀ i, match aggregation_get m i with
            | None => releases_of i l = []
            | Some c => release_identity c ≈ i ∧ release_summary (releases_of i l) c
            end) ∧
      hm_wf m ∧ (∀ before r after, l = before ++ r :: after →
                   ∀ x, x ∈ before → ¬ incompatible x r)
  | Err _ => ∃ x r, x ∈ l ∧ r ∈ l ∧ incompatible x r
  end.
Proof.
  intros Hl. pose proof (observe_releases_spec l Hl) as Hs.
  destruct (observe_releases _ l) as [m|e]; [|exact Hs].
  destruct Hs as [[Hwf Hinv] Hpairs]. done.
Qed.
End releases.
