(* ===== verification/Request.v ===== *)
(** * Solver subjects and requests ([rsolve-core/src/request.rs], [target.rs])

    The logical subjects the solver assigns, the fixed R target, and the owned
    request with the previous lock's identities. *)

From S2P Require Import Prelude RustStd Collections Externals Format Versions Names Publication.
From S2P Require Import Identity Constraints.

(** ** Subjects *)

Inductive SolverKey :=
| KeyRegistry (namespace : PackageNamespace) (name : PackageName)
| KeyBioconductor (namespace : PackageNamespace) (release : BioconductorRelease) (name : PackageName)
| KeyRepository (repository : RepositoryId) (name : PackageName)
| KeyExact (identity : ReleaseIdentity)
| KeyInstalledName (name : PackageName)
| KeyR.

Definition SolverKey_eq (s t : SolverKey) : bool :=
  match s, t with
  | KeyRegistry n p, KeyRegistry n' p' => (n =?= n') && (p =?= p')
  | KeyBioconductor n r p, KeyBioconductor n' r' p' => (n =?= n') && (r =?= r') && (p =?= p')
  | KeyRepository r p, KeyRepository r' p' => (r =?= r') && (p =?= p')
  | KeyExact i, KeyExact j => i =?= j
  | KeyInstalledName p, KeyInstalledName p' => p =?= p'
  | KeyR, KeyR => true
  | _, _ => false
  end.
#[export] Instance req_SolverKey : PartialEq SolverKey := SolverKey_eq.
#[export] Instance req_SolverKey_equivalence : RustEq SolverKey.
Proof. solve_rust_eq SolverKey_eq. Qed.

Section debug.
Context `{UnicodeTables}.

(** [{:?}] of a subject. *)
Definition SolverKey_debug (s : SolverKey) : string :=
  match s with
  | KeyRegistry n p =>
    debug_struct "Registry" [("namespace", Identifier_debug n); ("name", PackageName_debug p)]
  | KeyBioconductor n r p =>
    debug_struct "Bioconductor"
      [("namespace", Identifier_debug n); ("release", Identifier_debug r);
       ("name", PackageName_debug p)]
  | KeyRepository r p =>
    debug_struct "Repository" [("repository", Identifier_debug r); ("name", PackageName_debug p)]
  | KeyExact i => debug_tuple "Exact" [ReleaseIdentity_debug i]
  | KeyInstalledName p => debug_tuple "InstalledName" [PackageName_debug p]
  | KeyR => "R"
  end.
End debug.

(** [subject_name] of [candidates.rs]: R itself names no package. *)
Definition subject_name (subject : SolverKey) : option PackageName :=
  match subject with
  | KeyRegistry _ name | KeyBioconductor _ _ name | KeyRepository _ name | KeyInstalledName name =>
    Some name
  | KeyExact identity => Some (ReleaseIdentity_name identity)
  | KeyR => None
  end.

#[export] Instance subject_name_proper : Proper ((≈) ==> (=)) subject_name.
Proof.
  intros s t. unfold req_rel, req, req_SolverKey, SolverKey_eq.
  destruct s, t; simpl; rewrite ?andb_true_iff, ?req_leibniz; try naive_solver.
  intros Hi. by rewrite (ReleaseIdentity_name_proper _ _ Hi).
Qed.

(** ** Target and request *)

Record ResolutionTarget := mk_ResolutionTarget { target_r_version : RPackageVersion }.

(** A [HashMap<SolverKey, ReleaseIdentity>]. *)
Definition LockedIdentities := list (SolverKey * ReleaseIdentity).

Section request.
Context `{CivilDate}.

Record ResolutionRequest := mk_ResolutionRequest {
  roots : list RootRequirement;
  target : ResolutionTarget;
  r_requirement : VersionConstraint;
  locked : LockedIdentities;
  publication_cutoff : option PublicationCutoff;
}.

Definition ResolutionRequest_new (roots : list RootRequirement) (target : ResolutionTarget)
    (r_requirement : VersionConstraint) (locked : LockedIdentities) : ResolutionRequest :=
  mk_ResolutionRequest roots target r_requirement locked None.
Definition ResolutionRequest_without_lock (roots : list RootRequirement)
    (target : ResolutionTarget) (r_requirement : VersionConstraint) : ResolutionRequest :=
  ResolutionRequest_new roots target r_requirement [].
Definition with_optional_publication_cutoff (self : ResolutionRequest)
    (cutoff : option PublicationCutoff) : ResolutionRequest :=
  mk_ResolutionRequest (roots self) (target self) (r_requirement self) (locked self) cutoff.
Definition with_publication_cutoff (self : ResolutionRequest) (cutoff : PublicationCutoff) :
    ResolutionRequest := with_optional_publication_cutoff self (Some cutoff).

(** The closure of [find_map]: an exact root of the package. *)
Definition exact_source_of (name : PackageName) (root : RootRequirement) : option ReleaseIdentity :=
  if requirement_name (root_package root) =?= name
  then match requirement_source (root_package root) with
       | SourceExact identity => Some identity
       | _ => None
       end
  else None.

Definition exact_root_identity (self : ResolutionRequest) (name : PackageName) :
    option ReleaseIdentity := list_find_map (exact_source_of name) (roots self).

Lemma exact_root_identity_some self name i :
  exact_root_identity self name = Some i ↔ ∃ before root after,
    roots self = before ++ root :: after ∧
    requirement_name (root_package root) = name ∧
    requirement_source (root_package root) = SourceExact i ∧
    (∀ r j, r ∈ before → requirement_name (root_package r) = name →
            requirement_source (root_package r) ≠ SourceExact j).
Proof.
  unfold exact_root_identity. rewrite list_find_map_some. split.
  - intros (before & r & after & Hl & Hr & Hb). exists before, r, after.
    unfold exact_source_of in Hr. destruct (_ =?= name) eqn:E; [|done]. apply req_leibniz in E.
    split_and!; [done|done|by split_matches|].
    intros r' j Hr' <- Hj. specialize (Hb r' Hr'). unfold exact_source_of in Hb.
    by rewrite req_refl, Hj in Hb.
  - intros (before & r & after & Hl & <- & Hr & Hb). exists before, r, after.
    split_and!; [done|unfold exact_source_of; by rewrite req_refl, Hr|].
    intros r' Hr'. unfold exact_source_of. destruct (_ =?= _) eqn:E; [|done].
    apply req_leibniz in E. case_match eqn:Hs; try done. by destruct (Hb r' identity Hr' E).
Qed.
End request.
