(* ===== verification/Candidates.v ===== *)
(** * Prepared candidates ([rsolve-core/src/candidates.rs])

    Repository occurrences of a release, the prepared candidate that joins a
    release with them, its normalisation, merge and eligibility, and the
    identity-keyed union of candidates. *)

From S2P Require Import Prelude RustStd Collections Externals Format Versions Names Publication.
From S2P Require Import Identity Constraints Digest Metadata Request.

(** ** Occurrences *)

Inductive CandidateAvailability := Available | MetadataOnly.
Inductive CandidateCurrentness := Current | Historical.
#[export] Instance CandidateAvailability_eq_dec : EqDecision CandidateAvailability.
Proof. solve_decision. Defined.
#[export] Instance CandidateCurrentness_eq_dec : EqDecision CandidateCurrentness.
Proof. solve_decision. Defined.

(** Derived [Ord] of an enumeration: declaration order. *)
Definition availability_index (a : CandidateAvailability) : nat :=
  match a with Available => 0 | MetadataOnly => 1 end.
Definition currentness_index (c : CandidateCurrentness) : nat :=
  match c with Current => 0 | Historical => 1 end.
Definition CandidateAvailability_cmp : CandidateAvailability → CandidateAvailability → comparison :=
  cmp_on availability_index Nat.compare.
Definition CandidateCurrentness_cmp : CandidateCurrentness → CandidateCurrentness → comparison :=
  cmp_on currentness_index Nat.compare.

Record RepositoryOccurrence := mk_RepositoryOccurrence {
  occurrence_repository : RepositoryId;
  occurrence_registry : RegistryId;
  occurrence_availability : CandidateAvailability;
  occurrence_currentness : CandidateCurrentness;
  occurrence_rank : RepositoryRank;
  occurrence_distributions : list Distribution;
}.
#[export] Instance RepositoryOccurrence_eq_dec : EqDecision RepositoryOccurrence.
Proof. solve_decision. Defined.
#[export] Instance req_RepositoryOccurrence : PartialEq RepositoryOccurrence := req_dec.
#[export] Instance req_RepositoryOccurrence_leibniz : LeibnizEq RepositoryOccurrence :=
  req_dec_leibniz.

Inductive RepositoryOccurrenceError :=
| DistributionRegistryMismatch (repository : RepositoryId) (expected found : RegistryId).

Definition RepositoryOccurrenceError_fmt (e : RepositoryOccurrenceError) : string :=
  match e with
  | DistributionRegistryMismatch repository expected found =>
    "distribution for repository " +:+ Identifier_as_str repository
      +:+ " belongs to registry " +:+ Identifier_as_str found
      +:+ ", expected " +:+ Identifier_as_str expected
  end.

(** The loop returns at the first distribution of another registry. *)
Fixpoint validate_distribution_registries (repository : RepositoryId) (expected : RegistryId)
    (distributions : list Distribution) : result unit RepositoryOccurrenceError :=
  match distributions with
  | [] => Ok tt
  | d :: distributions =>
    if negb (registry d =?= expected)
    then Err (DistributionRegistryMismatch repository expected (registry d))
    else validate_distribution_registries repository expected distributions
  end.

Definition RepositoryOccurrence_new (repository : RepositoryId) (registry : RegistryId)
    (availability : CandidateAvailability) (currentness : CandidateCurrentness)
    (rank : RepositoryRank) (distributions : list Distribution) :
    result RepositoryOccurrence RepositoryOccurrenceError :=
  let? _ := validate_distribution_registries repository registry distributions in
  Ok (mk_RepositoryOccurrence repository registry availability currentness rank
        (canonicalize_distributions distributions)).

Definition occurrence_same_facts (self other : RepositoryOccurrence) : bool :=
  (occurrence_repository self =?= occurrence_repository other) &&
  (occurrence_registry self =?= occurrence_registry other) &&
  bool_decide (occurrence_availability self = occurrence_availability other) &&
  bool_decide (occurrence_currentness self = occurrence_currentness other) &&
  (occurrence_rank self =?= occurrence_rank other).

Definition occurrence_merge_distributions (self other : RepositoryOccurrence) : RepositoryOccurrence :=
  mk_RepositoryOccurrence (occurrence_repository self) (occurrence_registry self)
    (occurrence_availability self) (occurrence_currentness self) (occurrence_rank self)
    (canonicalize_distributions (occurrence_distributions self ++ occurrence_distributions other)).

(** The order in which occurrences are grouped, and the one they end up in. *)
Definition occurrence_tail_cmp : RepositoryOccurrence → RepositoryOccurrence → comparison :=
  cmp_then (cmp_on occurrence_registry Identifier_cmp)
    (cmp_then (cmp_on occurrence_availability CandidateAvailability_cmp)
       (cmp_on occurrence_currentness CandidateCurrentness_cmp)).
Definition occurrence_group_cmp : RepositoryOccurrence → RepositoryOccurrence → comparison :=
  cmp_then (cmp_on occurrence_repository Identifier_cmp)
    (cmp_then (cmp_on occurrence_rank RepositoryRank_cmp) occurrence_tail_cmp).
Definition occurrence_rank_cmp : RepositoryOccurrence → RepositoryOccurrence → comparison :=
  cmp_then (cmp_on occurrence_rank RepositoryRank_cmp)
    (cmp_then (cmp_on occurrence_repository Identifier_cmp) occurrence_tail_cmp).

#[global] Typeclasses Opaque CandidateAvailability_cmp CandidateCurrentness_cmp
  occurrence_tail_cmp occurrence_group_cmp occurrence_rank_cmp.
#[export] Instance CandidateAvailability_cmp_order : CmpOrder CandidateAvailability_cmp :=
  cmp_on_order _ _.
#[export] Instance CandidateCurrentness_cmp_order : CmpOrder CandidateCurrentness_cmp :=
  cmp_on_order _ _.
#[export] Instance occurrence_tail_cmp_order : CmpOrder occurrence_tail_cmp.
Proof. unfold occurrence_tail_cmp. apply _. Qed.
#[export] Instance occurrence_group_cmp_order : CmpOrder occurrence_group_cmp.
Proof. unfold occurrence_group_cmp. apply _. Qed.
#[export] Instance occurrence_rank_cmp_order : CmpOrder occurrence_rank_cmp.
Proof. unfold occurrence_rank_cmp. apply _. Qed.

(** ** Candidates *)

Inductive NonRepositoryExposure := ExposureNone | ExactOnly | RuntimeInstalled.
#[export] Instance NonRepositoryExposure_eq_dec : EqDecision NonRepositoryExposure.
Proof. solve_decision. Defined.

Inductive PreparedCandidateError :=
| CandidateRelease (error : PackageReleaseError)
| IdentityMismatch
| ConflictingReleaseMetadata (field : string)
| ConflictingOccurrence (repository : RepositoryId)
| InvalidOccurrence (error : RepositoryOccurrenceError)
| DistributionNotInRelease (repository : RepositoryId)
| ReleaseDistributionWithoutOccurrence
| MissingRepositoryOccurrence
| InvalidNonRepositoryExposure.

Definition PreparedCandidateError_fmt `{UnicodeTables} (e : PreparedCandidateError) : string :=
  match e with
  | CandidateRelease error => PackageReleaseError_fmt error
  | IdentityMismatch => "prepared candidates have different identities"
  | ConflictingReleaseMetadata field => "conflicting release metadata in " +:+ field
  | ConflictingOccurrence repository =>
    "conflicting occurrences for repository " +:+ Identifier_as_str repository
  | InvalidOccurrence error => RepositoryOccurrenceError_fmt error
  | DistributionNotInRelease repository =>
    "occurrence for repository " +:+ Identifier_as_str repository
      +:+ " contains an unprojected distribution"
  | ReleaseDistributionWithoutOccurrence =>
    "prepared release contains a distribution absent from its repository occurrences"
  | MissingRepositoryOccurrence =>
    "a repository-backed prepared candidate requires a repository occurrence"
  | InvalidNonRepositoryExposure =>
    "runtime-installed exposure is only valid for R base packages"
  end.

Definition map_release_merge_error (error : PackageReleaseError) : PreparedCandidateError :=
  match error with
  | ConflictingMetadata field => ConflictingReleaseMetadata field
  | other => CandidateRelease other
  end.

(** One iteration of the grouping loop: [normalized] grows at its end. *)
Definition normalize_step (normalized : list RepositoryOccurrence) (occurrence : RepositoryOccurrence) :
    result (list RepositoryOccurrence) PreparedCandidateError :=
  let? _ := map_err InvalidOccurrence
    (validate_distribution_registries (occurrence_repository occurrence)
       (occurrence_registry occurrence) (occurrence_distributions occurrence)) in
  match last normalized with
  | Some existing =>
    if occurrence_repository existing =?= occurrence_repository occurrence
    then
      if negb (occurrence_same_facts existing occurrence)
      then Err (ConflictingOccurrence (occurrence_repository occurrence))
      else Ok (removelast normalized ++ [occurrence_merge_distributions existing occurrence])
    else Ok (normalized ++ [occurrence])
  | None => Ok (normalized ++ [occurrence])
  end.

Definition normalize_occurrences (occurrences : list RepositoryOccurrence) :
    result (list RepositoryOccurrence) PreparedCandidateError :=
  result_map (sort_by occurrence_rank_cmp)
    (try_fold normalize_step [] (sort_by occurrence_group_cmp occurrences)).

(** [slice::contains]. *)
Definition contains {A} `{PartialEq A} (l : list A) (x : A) : bool := existsb (λ y, y =?= x) l.

Section candidates.
Context `{CivilDate, Sha2}.

Record PreparedCandidate := mk_PreparedCandidate {
  candidate_release : PackageRelease;
  candidate_exposure : NonRepositoryExposure;
  candidate_occurrences : list RepositoryOccurrence;
}.

Definition candidate_identity (c : PreparedCandidate) : ReleaseIdentity :=
  release_identity (candidate_release c).
Definition candidate_version (c : PreparedCandidate) : RPackageVersion :=
  release_version (candidate_release c).

Definition occurrence_unprojected (release : PackageRelease) (o : RepositoryOccurrence) : bool :=
  existsb (λ d, negb (contains (release_distributions release) d)) (occurrence_distributions o).

Definition normalize_and_validate (self : PreparedCandidate) :
    result PreparedCandidate PreparedCandidateError :=
  let release := candidate_release self in
  let exposure := candidate_exposure self in
  if bool_decide (exposure = RuntimeInstalled) && negb (PackageRelease_is_r_base_package release)
  then Err InvalidNonRepositoryExposure
  else
    let? occurrences := normalize_occurrences (candidate_occurrences self) in
    if bool_decide (exposure = ExposureNone) && bool_decide (occurrences = [])
    then Err MissingRepositoryOccurrence
    else match List.find (occurrence_unprojected release) occurrences with
    | Some o => Err (DistributionNotInRelease (occurrence_repository o))
    | None =>
      if bool_decide (exposure = ExposureNone) &&
         existsb (λ d, negb (contains (mjoin (occurrence_distributions <$> occurrences)) d))
           (release_distributions release)
      then Err ReleaseDistributionWithoutOccurrence
      else Ok (mk_PreparedCandidate release exposure occurrences)
    end.

Definition PreparedCandidate_new (release : PackageRelease) (exposure : NonRepositoryExposure)
    (occurrences : list RepositoryOccurrence) : result PreparedCandidate PreparedCandidateError :=
  normalize_and_validate (mk_PreparedCandidate release exposure occurrences).

Definition merge_exposure (self incoming : NonRepositoryExposure) : NonRepositoryExposure :=
  match self, incoming with
  | RuntimeInstalled, _ | _, RuntimeInstalled => RuntimeInstalled
  | ExactOnly, _ | _, ExactOnly => ExactOnly
  | _, _ => ExposureNone
  end.

Definition PreparedCandidate_merge (self incoming : PreparedCandidate) :
    result PreparedCandidate PreparedCandidateError :=
  if negb (candidate_identity self =?= candidate_identity incoming) then Err IdentityMismatch
  else
    let? release := map_err map_release_merge_error
      (merge_consistent (candidate_release self) (candidate_release incoming)) in
    normalize_and_validate
      (mk_PreparedCandidate release
         (merge_exposure (candidate_exposure self) (candidate_exposure incoming))
         (candidate_occurrences self ++ candidate_occurrences incoming)).

(** ** Visibility *)

Definition is_available (o : RepositoryOccurrence) : bool :=
  bool_decide (occurrence_availability o = Available).
Definition available_occurrences (c : PreparedCandidate) : list RepositoryOccurrence :=
  List.filter is_available (candidate_occurrences c).

Definition provenance_matches (provenance : Provenance) (subject : SolverKey) : bool :=
  match subject with
  | KeyRegistry namespace _ =>
    match provenance with
    | RegistryRelease candidate _ => candidate =?= namespace
    | _ => false
    end
  | KeyBioconductor namespace release _ =>
    match provenance with
    | BioconductorReleaseOf candidate_namespace candidate_release _ =>
      (candidate_namespace =?= namespace) && (candidate_release =?= release)
    | _ => false
    end
  | KeyExact _ | KeyRepository _ _ | KeyInstalledName _ => true
  | KeyR => false
  end.

Definition occurrence_in_subject (subject : SolverKey) (o : RepositoryOccurrence) : bool :=
  match subject with
  | KeyRepository repository _ => occurrence_repository o =?= repository
  | _ => true
  end.

Definition applicable_occurrences (c : PreparedCandidate) (subject : SolverKey) :
    list RepositoryOccurrence :=
  match subject_name subject with
  | None => []
  | Some name =>
    if negb (ReleaseIdentity_name (candidate_identity c) =?= name) then []
    else if match subject with
            | KeyExact identity => negb (candidate_identity c =?= identity)
            | _ => false
            end
    then []
    else if negb (provenance_matches (ReleaseIdentity_provenance (candidate_identity c)) subject)
    then []
    else List.filter (occurrence_in_subject subject) (available_occurrences c)
  end.

Definition is_eligible_for (c : PreparedCandidate) (subject : SolverKey) : bool :=
  match subject_name subject with
  | None => false
  | Some name =>
    if negb (ReleaseIdentity_name (candidate_identity c) =?= name) then false
    else match subject with
    | KeyExact identity =>
      (candidate_identity c =?= identity) &&
      (bool_decide (candidate_exposure c ≠ ExposureNone) ||
       negb (bool_decide (available_occurrences c = [])))
    | _ =>
      if bool_decide (candidate_exposure c = RuntimeInstalled) &&
         match subject with KeyInstalledName _ => true | _ => false end
      then true
      else negb (bool_decide (applicable_occurrences c subject = []))
    end
  end.

(** [Iterator::min]: the first of the least elements. *)
Definition min_rank (l : list RepositoryRank) : option RepositoryRank :=
  match l with
  | [] => None
  | r :: l => Some (foldl (λ a b, if is_gt (RepositoryRank_cmp a b) then b else a) r l)
  end.
Definition repository_rank_for (c : PreparedCandidate) (subject : SolverKey) :
    option RepositoryRank := min_rank (occurrence_rank <$> applicable_occurrences c subject).

Definition same_facts (self other : PreparedCandidate) : bool :=
  bool_decide (candidate_exposure self = candidate_exposure other) &&
  (candidate_identity self =?= candidate_identity other) &&
  (candidate_version self =?= candidate_version other) &&
  (release_metadata (candidate_release self) =?= release_metadata (candidate_release other)) &&
  (release_publication (candidate_release self)
     =?= release_publication (candidate_release other)) &&
  (release_dependencies (candidate_release self)
     =?= release_dependencies (candidate_release other)) &&
  (release_distributions (candidate_release self)
     =?= release_distributions (candidate_release other)) &&
  (candidate_occurrences self =?= candidate_occurrences other).

(** ** The union of candidates *)

(** A [HashMap] keyed by identity. *)
Definition PreparedCandidateSet := list (ReleaseIdentity * PreparedCandidate).

Inductive PreparedCandidateSetError := SetCandidate (error : PreparedCandidateError).

Definition PreparedCandidateSet_new : PreparedCandidateSet := [].

Definition PreparedCandidateSet_insert (self : PreparedCandidateSet) (candidate : PreparedCandidate) :
    result PreparedCandidateSet PreparedCandidateSetError :=
  match hm_get (candidate_identity candidate) self with
  | Some existing =>
    let? merged := map_err SetCandidate (PreparedCandidate_merge existing candidate) in
    Ok (hm_insert (candidate_identity merged) merged self)
  | None => Ok (hm_insert (candidate_identity candidate) candidate self)
  end.

Definition PreparedCandidateSet_from_candidates (candidates : list PreparedCandidate) :
    result PreparedCandidateSet PreparedCandidateSetError :=
  try_fold PreparedCandidateSet_insert PreparedCandidateSet_new candidates.

Definition PreparedCandidateSet_candidates (self : PreparedCandidateSet) : list PreparedCandidate :=
  hm_values self.
Definition PreparedCandidateSet_applicable (self : PreparedCandidateSet) (subject : SolverKey) :
    list PreparedCandidate :=
  List.filter (λ c, is_eligible_for c subject) (PreparedCandidateSet_candidates self).
End candidates.

Definition PreparedCandidateSetError_fmt `{UnicodeTables} (e : PreparedCandidateSetError) : string :=
  match e with SetCandidate error => PreparedCandidateError_fmt error end.

(** ** Occurrence facts *)

Definition occurrence_facts (o : RepositoryOccurrence) :=
  (occurrence_repository o, occurrence_registry o, occurrence_availability o,
   occurrence_currentness o, occurrence_rank o).

Lemma occurrence_same_facts_iff a b :
  occurrence_same_facts a b = true ↔ occurrence_facts a = occurrence_facts b.
Proof.
  destruct a, b. unfold occurrence_same_facts, occurrence_facts. simpl.
  rewrite !andb_true_iff, !req_leibniz, !bool_decide_eq_true. split.
  - by intros [[[[-> ->] ->] ->] ->].
  - by intros [= -> -> -> -> ->].
Qed.

Lemma occurrence_facts_repository a b :
  occurrence_facts a = occurrence_facts b → occurrence_repository a = occurrence_repository b.
Proof. unfold occurrence_facts. congruence. Qed.

Lemma occurrence_facts_eq a b :
  occurrence_facts a = occurrence_facts b →
  occurrence_distributions a = occurrence_distributions b → a = b.
Proof. destruct a, b. unfold occurrence_facts. simpl. congruence. Qed.

Lemma occurrence_group_cmp_repository a b :
  cmp_le occurrence_group_cmp a b →
  Identifier_cmp (occurrence_repository a) (occurrence_repository b) ≠ Gt.
Proof.
  unfold cmp_le, occurrence_group_cmp, cmp_then, cmp_on.
  by destruct (Identifier_cmp _ _).
Qed.

(** Ties of the final order have one repository. *)
Lemma occurrence_rank_cmp_repository a b :
  occurrence_rank_cmp a b = Eq → occurrence_repository a = occurrence_repository b.
Proof.
  unfold occurrence_rank_cmp, cmp_then, cmp_on. intros E.
  destruct (RepositoryRank_cmp _ _) in E; try done. simpl in E.
  destruct (Identifier_cmp _ _) eqn:Er in E; try done. by apply (cmp_eq_leibniz Identifier_cmp).
Qed.

(** The invariant of [RepositoryOccurrence::new], with the distributions values
    of their field types. *)
Definition occurrence_ok (o : RepositoryOccurrence) : Prop :=
  Forall (λ d, registry d = occurrence_registry o) (occurrence_distributions o) ∧
  distributions_canonical (occurrence_distributions o) ∧
  Forall distribution_wf (occurrence_distributions o).

Lemma validate_ok r g l :
  validate_distribution_registries r g l = Ok tt ↔ Forall (λ d, registry d = g) l.
Proof.
  induction l as [|d l IH]; simpl; [by split|]. rewrite Forall_cons, <-IH.
  destruct (registry d =?= g) eqn:E; simpl.
  - apply req_leibniz in E. naive_solver.
  - split; [done|]. intros [Hd _]. by rewrite Hd, req_refl in E.
Qed.

Lemma validate_err r g l e :
  validate_distribution_registries r g l = Err e → ∃ before d after,
    l = before ++ d :: after ∧ Forall (λ d, registry d = g) before ∧ registry d ≠ g ∧
    e = DistributionRegistryMismatch r g (registry d).
Proof.
  induction l as [|d l IH]; simpl; [done|]. destruct (registry d =?= g) eqn:E; simpl.
  - intros (before & d' & after & -> & ? & ? & ->)%IH. apply req_leibniz in E.
    exists (d :: before), d', after. by repeat constructor.
  - intros [= <-]. exists [], d, l. split_and!; [done|constructor| |done].
    intros Hd. by rewrite Hd, req_refl in E.
Qed.

Lemma RepositoryOccurrence_new_ok r g a c k l o :
  Forall distribution_wf l → RepositoryOccurrence_new r g a c k l = Ok o →
  occurrence_ok o ∧ occurrence_facts o = (r, g, a, c, k) ∧
  (∀ d, d ∈ occurrence_distributions o ↔ d ∈ l).
Proof.
  intros Hl (u & Hu & [= <-])%result_bind_ok. destruct u. apply validate_ok in Hu.
  assert (∀ d, d ∈ canonicalize_distributions l ↔ d ∈ l) as Hc
    by (intros d; by apply elem_of_canonicalize).
  rewrite Forall_forall in Hu, Hl. split; [split_and!; simpl|done].
  - apply Forall_forall. intros d Hd%Hc. by apply Hu.
  - apply canonicalize_sorted.
  - apply Forall_forall. intros d Hd%Hc. by apply Hl.
Qed.

Lemma occurrence_merge_ok a b :
  occurrence_ok a → occurrence_ok b → occurrence_facts a = occurrence_facts b →
  occurrence_ok (occurrence_merge_distributions a b) ∧
  (∀ d, d ∈ occurrence_distributions (occurrence_merge_distributions a b) ↔
        d ∈ occurrence_distributions a ∨ d ∈ occurrence_distributions b).
Proof.
  intros (Hga & _ & Hwa) (Hgb & _ & Hwb) Hf. rewrite Forall_forall in *.
  assert (∀ d, d ∈ occurrence_distributions (occurrence_merge_distributions a b) ↔
        d ∈ occurrence_distributions a ∨ d ∈ occurrence_distributions b) as Hd.
  { intros d. simpl. rewrite elem_of_canonicalize, elem_of_app; [done|].
    apply Forall_forall. intros e [?|?]%elem_of_app; auto. }
  assert (occurrence_registry a = occurrence_registry b) as Hr
    by (unfold occurrence_facts in Hf; congruence).
  split; [|done]. split_and!.
  - apply Forall_forall. intros d Hin%Hd. change (registry d = occurrence_registry a).
    destruct Hin; [|rewrite Hr]; auto.
  - apply canonicalize_sorted.
  - apply Forall_forall. intros d [?|?]%Hd; auto.
Qed.

(** ** The grouping loop *)

Definition repositories_increasing (l : list RepositoryOccurrence) : Prop :=
  StronglySorted (λ r s, Identifier_cmp r s = Lt) (occurrence_repository <$> l).

(** [norm] joins the occurrences of [pre] by repository, keeping their facts. *)
Definition covers (pre norm : list RepositoryOccurrence) : Prop :=
  (∀ x, x ∈ pre → ∃ o, o ∈ norm ∧ occurrence_facts x = occurrence_facts o) ∧
  (∀ o, o ∈ norm → ∃ x, x ∈ pre ∧ occurrence_facts x = occurrence_facts o) ∧
  (∀ o d, o ∈ norm → d ∈ occurrence_distributions o ↔ ∃ x, x ∈ pre ∧
     occurrence_repository x = occurrence_repository o ∧ d ∈ occurrence_distributions x).

Definition grouped (pre norm : list RepositoryOccurrence) : Prop :=
  repositories_increasing norm ∧ Forall occurrence_ok norm ∧ covers pre norm.

Lemma covers_Permutation pre pre' norm norm' :
  (∀ x, x ∈ pre ↔ x ∈ pre') → (∀ x, x ∈ norm ↔ x ∈ norm') → covers pre norm → covers pre' norm'.
Proof. unfold covers. intros Hp Hn. by setoid_rewrite Hp; setoid_rewrite Hn. Qed.

Lemma repositories_increasing_NoDup l :
  repositories_increasing l → NoDup (occurrence_repository <$> l).
Proof. apply (strict_sorted_NoDup Identifier_cmp). Qed.

(** Facts agree within a repository once everything is grouped. *)
Lemma covers_no_conflict pre norm x y :
  NoDup (occurrence_repository <$> norm) → covers pre norm → x ∈ pre → y ∈ pre →
  occurrence_repository x = occurrence_repository y → occurrence_facts x = occurrence_facts y.
Proof.
  intros Hn (Hc & _) (o & Ho & Hxo)%Hc (p & Hp & Hyp)%Hc Hxy. rewrite Hxo, Hyp. f_equal.
  apply (NoDup_fmap_eq occurrence_repository norm); [done..|].
  by rewrite <-(occurrence_facts_repository _ _ Hxo), <-(occurrence_facts_repository _ _ Hyp).
Qed.

Lemma StronglySorted_snoc {A} (R : A → A → Prop) l x :
  StronglySorted R (l ++ [x]) ↔ StronglySorted R l ∧ Forall (λ y, R y x) l.
Proof.
  induction l as [|y l IH]; simpl.
  - split; [split; constructor|repeat constructor].
  - split.
    + intros Hl. apply StronglySorted_inv in Hl as [[Hl Hx]%IH [Hy Hyx]%Forall_app].
      inversion Hyx; subst. split; by constructor.
    + intros [Hl Hf]. inversion Hl; inversion Hf; subst. constructor; [by apply IH|].
      apply Forall_app. by repeat constructor.
Qed.

Lemma grouped_nil : grouped [] [].
Proof.
  split_and!; [constructor..|]. split_and!; [by intros ? ?%elem_of_nil..|].
  by intros ? ? ?%elem_of_nil.
Qed.

(** Merging into the last group. *)
Lemma grouped_merge pre init e x :
  grouped pre (init ++ [e]) → occurrence_ok x → occurrence_facts e = occurrence_facts x →
  grouped (pre ++ [x]) (init ++ [occurrence_merge_distributions e x]).
Proof.
  intros (Hs & Hok & Hc1 & Hc2 & Hc3) Hx Hf. apply Forall_app in Hok as [Hi He].
  inversion He as [|? ? He' _]; subst. clear He.
  destruct (occurrence_merge_ok e x He' Hx Hf) as [Hm Hd].
  pose proof (repositories_increasing_NoDup _ Hs) as Hn.
  pose proof (occurrence_facts_repository _ _ Hf) as Hr.
  assert (∀ o, o ∈ init → occurrence_repository o ≠ occurrence_repository e) as Hne.
  { intros o Ho Heq. rewrite fmap_app in Hn. apply NoDup_app in Hn as (_ & Hn & _).
    apply (Hn (occurrence_repository o)); [by apply list_elem_of_fmap_2|].
    rewrite Heq. by apply list_elem_of_singleton. }
  unfold grouped, covers. split_and!.
  - unfold repositories_increasing in *. by rewrite fmap_app in *.
  - apply Forall_app. by rewrite Forall_singleton.
  - setoid_rewrite elem_of_app. setoid_rewrite list_elem_of_singleton. intros y [Hy|Hy].
    + destruct (Hc1 y Hy) as (o & [Ho|Ho%list_elem_of_singleton]%elem_of_app & Hyo); [by eauto|].
      subst o. exists (occurrence_merge_distributions e x). auto.
    + subst y. exists (occurrence_merge_distributions e x). split; [by right|].
      by rewrite <-Hf.
  - setoid_rewrite elem_of_app. setoid_rewrite list_elem_of_singleton. intros o [Ho|Ho].
    + destruct (Hc2 o) as (y & Hy & Hyo); [by apply elem_of_app; left|]. eauto.
    + subst o. exists x. split; [by right|]. by rewrite <-Hf.
  - intros o d. rewrite elem_of_app, list_elem_of_singleton. setoid_rewrite elem_of_app.
    setoid_rewrite list_elem_of_singleton. intros [Ho|Ho].
    + rewrite (Hc3 o d) by (apply elem_of_app; by left). split; [naive_solver|].
      intros (y & [Hy|Hy] & Hyo & Hdy); [by eauto|]. subst y. by destruct (Hne o Ho); rewrite Hr.
    + subst o. rewrite Hd, (Hc3 e d) by (apply elem_of_app; right; by left). simpl. split.
      * intros [(y & Hy & Hye & Hdy)|Hdx]; eauto 10.
      * intros (y & [Hy|Hy] & Hye & Hdy); [left; by eauto|]. subst y. by right.
Qed.

(** Opening a new group. *)
Lemma grouped_push pre norm x :
  grouped pre norm → occurrence_ok x →
  (∀ o, o ∈ norm → Identifier_cmp (occurrence_repository o) (occurrence_repository x) = Lt) →
  grouped (pre ++ [x]) (norm ++ [x]).
Proof.
  intros (Hs & Hok & Hc1 & Hc2 & Hc3) Hx Hlt.
  assert (∀ o, o ∈ norm → occurrence_repository x ≠ occurrence_repository o) as Hne.
  { intros o Ho Heq. specialize (Hlt o Ho). by rewrite Heq, (cmp_refl Identifier_cmp) in Hlt. }
  assert (∀ y, y ∈ pre → occurrence_repository y ≠ occurrence_repository x) as Hnp.
  { intros y (o & Ho & Hyo)%Hc1 Heq. apply (Hne o Ho).
    by rewrite <-(occurrence_facts_repository _ _ Hyo). }
  unfold grouped, covers. setoid_rewrite elem_of_app. setoid_rewrite list_elem_of_singleton.
  split_and!.
  - unfold repositories_increasing. rewrite fmap_app. apply StronglySorted_snoc. split; [done|].
    apply Forall_fmap, Forall_forall. done.
  - apply Forall_app. by rewrite Forall_singleton.
  - intros y [(o & Ho & Hyo)%Hc1|Hy]; [by eauto|]. subst y. eauto.
  - intros o [(y & Hy & Hyo)%Hc2|Ho]; [by eauto|]. subst o. eauto.
  - intros o d [Ho|Ho].
    + rewrite (Hc3 o d Ho). split; [naive_solver|]. intros (y & [Hy|Hy] & Hyo & Hd); [by eauto|].
      subst y. by destruct (Hne o Ho).
    + subst o. split; [by eauto|]. intros (y & [Hy|Hy] & Hyo & Hd); [by destruct (Hnp y Hy)|].
      by subst y.
Qed.

Lemma normalize_step_spec pre norm x :
  grouped pre norm → occurrence_ok x →
  (∀ y, y ∈ pre → Identifier_cmp (occurrence_repository y) (occurrence_repository x) ≠ Gt) →
  match normalize_step norm x with
  | Ok norm' => grouped (pre ++ [x]) norm'
  | Err e => e = ConflictingOccurrence (occurrence_repository x) ∧
      ∃ y, y ∈ pre ∧ occurrence_repository y = occurrence_repository x ∧
           occurrence_facts y ≠ occurrence_facts x
  end.
Proof.
  intros Hg Hx Hle. unfold normalize_step.
  rewrite (proj2 (validate_ok _ _ _) (proj1 Hx)). simpl.
  pose proof Hg as (Hs & _ & Hc1 & Hc2 & _).
  assert (∀ o, o ∈ norm →
    Identifier_cmp (occurrence_repository o) (occurrence_repository x) ≠ Gt) as Hle'.
  { intros o (y & Hy & Hyo)%Hc2. rewrite <-(occurrence_facts_repository _ _ Hyo). by apply Hle. }
  destruct norm as [|e init _] using rev_ind; simpl.
  - apply (grouped_push pre []); [done..|]. by intros o Ho%elem_of_nil.
  - rewrite last_snoc. destruct (occurrence_repository e =?= occurrence_repository x) eqn:Er.
    + apply req_leibniz in Er. destruct (occurrence_same_facts e x) eqn:Ef; simpl.
      * apply occurrence_same_facts_iff in Ef. rewrite removelast_last. by apply grouped_merge.
      * split; [done|]. destruct (Hc2 e) as (y & Hy & Hye); [apply elem_of_app; right; left|].
        exists y. split_and!; [done|by rewrite (occurrence_facts_repository _ _ Hye)|].
        rewrite Hye, <-occurrence_same_facts_iff. congruence.
    + apply req_false_iff in Er. apply grouped_push; [done..|].
      assert (Identifier_cmp (occurrence_repository e) (occurrence_repository x) = Lt) as Hex.
      { specialize (Hle' e). destruct (Identifier_cmp _ _) eqn:E; [|done|].
        - apply (cmp_eq_leibniz Identifier_cmp) in E. by rewrite E in Er.
        - destruct Hle'; [apply elem_of_app; right; left|done]. }
      unfold repositories_increasing in Hs. rewrite fmap_app in Hs.
      apply StronglySorted_snoc in Hs as [_ Hs]. rewrite Forall_fmap, Forall_forall in Hs.
      intros o [Ho| ->%list_elem_of_singleton]%elem_of_app; [|done].
      apply (cmp_trans Identifier_cmp _ (occurrence_repository e)); [by apply Hs|done].
Qed.

Lemma normalize_loop_spec pre norm l :
  grouped pre norm → Forall occurrence_ok l →
  StronglySorted (cmp_le occurrence_group_cmp) (pre ++ l) →
  match try_fold normalize_step norm l with
  | Ok norm' => grouped (pre ++ l) norm'
  | Err e => ∃ x y, x ∈ pre ++ l ∧ y ∈ pre ++ l ∧
      occurrence_repository x = occurrence_repository y ∧ occurrence_facts x ≠ occurrence_facts y ∧
      e = ConflictingOccurrence (occurrence_repository x)
  end.
Proof.
  revert pre norm. induction l as [|x l IH]; intros pre norm Hg Hok Hs; simpl.
  { by rewrite app_nil_r. }
  inversion Hok as [|? ? Hx Hl]; subst. rewrite cons_middle, app_assoc in Hs.
  assert (∀ y, y ∈ pre →
    Identifier_cmp (occurrence_repository y) (occurrence_repository x) ≠ Gt) as Hle.
  { intros y Hy. apply occurrence_group_cmp_repository. apply StronglySorted_app_1_l in Hs.
    apply (StronglySorted_app_1_elem_of _ pre [x]); [done..|by left]. }
  pose proof (normalize_step_spec pre norm x Hg Hx) as Hstep.
  destruct (normalize_step norm x) as [norm'|e]; simpl.
  - rewrite cons_middle, app_assoc. apply IH; [by apply Hstep|done..].
  - destruct (Hstep Hle) as (-> & y & Hy & Hyx & Hf). exists y, x. rewrite !elem_of_app, !elem_of_cons. split_and!; auto. by rewrite Hyx.
Qed.

(** ** Normalised occurrences *)

(** One occurrence per repository, in rank order, that keeps the facts of the
    given ones and joins their distributions. *)
Definition normalized (occs out : list RepositoryOccurrence) : Prop :=
  StronglySorted (λ a b, occurrence_rank_cmp a b = Lt) out ∧
  NoDup (occurrence_repository <$> out) ∧ Forall occurrence_ok out ∧ covers occs out.

Lemma normalized_nil : normalized [] [].
Proof. split; [constructor|]. split; [constructor|]. split; [constructor|]. apply grouped_nil. Qed.

Definition occurrences_conflict (x y : RepositoryOccurrence) : Prop :=
  occurrence_repository x = occurrence_repository y ∧ occurrence_facts x ≠ occurrence_facts y.

Lemma sorted_NoDup_strict {A B} (c : A → A → comparison) (f : A → B) l :
  (∀ a b, c a b = Eq → f a = f b) → NoDup (f <$> l) → StronglySorted (cmp_le c) l →
  StronglySorted (λ a b, c a b = Lt) l.
Proof.
  intros Hf. induction l as [|x l IH]; cbn; [constructor|].
  intros [Hx Hn]%NoDup_cons [Hl Hle]%StronglySorted_inv. constructor; [by apply IH|].
  rewrite Forall_forall in *. intros y Hy. specialize (Hle y Hy). unfold cmp_le in Hle.
  destruct (c x y) eqn:E; [|done..]. destruct Hx. rewrite (Hf _ _ E). by apply list_elem_of_fmap_2.
Qed.

Lemma normalize_occurrences_spec occs :
  Forall occurrence_ok occs →
  match normalize_occurrences occs with
  | Ok out => normalized occs out
  | Err e => ∃ x y, x ∈ occs ∧ y ∈ occs ∧ occurrences_conflict x y ∧
      e = ConflictingOccurrence (occurrence_repository x)
  end.
Proof.
  intros Hok. unfold normalize_occurrences.
  assert (∀ x, x ∈ sort_by occurrence_group_cmp occs ↔ x ∈ occs) as Hin
    by (intros; apply elem_of_sort_by).
  pose proof (normalize_loop_spec [] [] (sort_by occurrence_group_cmp occs)) as Hl.
  destruct (try_fold _ _ _) as [out|e]; simpl in *.
  - destruct Hl as (Hs & Ho & Hc).
    + apply grouped_nil.
    + apply Forall_forall. intros x Hx%Hin. by rewrite Forall_forall in Hok; apply Hok.
    + apply sort_by_sorted, _.
    + assert (∀ x, x ∈ out ↔ x ∈ sort_by occurrence_rank_cmp out) as Hout
        by (intros; by rewrite elem_of_sort_by).
      assert (NoDup (occurrence_repository <$> sort_by occurrence_rank_cmp out)) as Hn.
      { rewrite (sort_by_Permutation occurrence_rank_cmp out).
        by apply repositories_increasing_NoDup. }
      split_and!; [|done| |by eapply covers_Permutation].
      * apply (sorted_NoDup_strict _ occurrence_repository); [|done|apply sort_by_sorted, _].
        apply occurrence_rank_cmp_repository.
      * apply Forall_forall. intros x Hx%Hout. by rewrite Forall_forall in Ho; apply Ho.
  - destruct Hl as (x & y & Hx & Hy & Hxy).
    + apply grouped_nil.
    + apply Forall_forall. intros x Hx%Hin. by rewrite Forall_forall in Hok; apply Hok.
    + apply sort_by_sorted, _.
    + exists x, y. apply Hin in Hx, Hy. unfold occurrences_conflict. naive_solver.
Qed.

Lemma normalized_no_conflict occs out x y :
  normalized occs out → x ∈ occs → y ∈ occs → ¬ occurrences_conflict x y.
Proof. intros (_ & Hn & _ & Hc) Hx Hy [Hr Hf]. by apply Hf, (covers_no_conflict occs out). Qed.

Lemma normalized_incl occs occs' out out' o :
  normalized occs out → normalized occs' out' → (∀ x, x ∈ occs ↔ x ∈ occs') → o ∈ out → o ∈ out'.
Proof.
  intros (_ & _ & Hok & _ & Hc2 & Hc3) (_ & _ & Hok' & Hc1' & _ & Hc3') Hin Ho.
  destruct (Hc2 o Ho) as (x & Hx & Hxo). apply Hin in Hx.
  destruct (Hc1' x Hx) as (o' & Ho' & Hxo'). replace o with o'; [done|].
  rewrite Forall_forall in Hok, Hok'. rewrite Hxo in Hxo'.
  apply occurrence_facts_eq; [done|]. apply (strict_sorted_ext distribution_cmp).
  - apply (Hok' o' Ho').
  - apply (Hok o Ho).
  - intros d. rewrite (Hc3 o d Ho), (Hc3' o' d Ho').
    setoid_rewrite Hin. by rewrite (occurrence_facts_repository _ _ Hxo').
Qed.

(** The result depends only on which occurrences are given. *)
Lemma normalized_unique occs occs' out out' :
  normalized occs out → normalized occs' out' → (∀ x, x ∈ occs ↔ x ∈ occs') → out = out'.
Proof.
  intros Hn Hn' Hin. apply (strict_sorted_ext occurrence_rank_cmp); [apply Hn|apply Hn'|].
  intros o. split; [by apply (normalized_incl occs occs')|].
  apply (normalized_incl occs' occs); [done..|]. by symmetry.
Qed.

Lemma normalized_idemp occs out : normalized occs out → normalized out out.
Proof.
  intros (Hs & Hn & Hok & Hc). split_and!; [done..|]. split_and!; [eauto..|].
  intros o d Ho. split; [by eauto|]. intros (x & Hx & Hxo & Hd).
  by rewrite <-(NoDup_fmap_eq _ _ _ _ Hn Hx Ho Hxo).
Qed.

Lemma normalize_id out : normalized out out → normalize_occurrences out = Ok out.
Proof.
  intros Hn. pose proof (normalize_occurrences_spec out) as Hs.
  destruct (normalize_occurrences out) as [out'|e].
  - f_equal. eapply normalized_unique; [|done|done]. by apply Hs, Hn.
  - destruct Hs as (x & y & Hx & Hy & Hxy & _); [apply Hn|].
    by destruct (normalized_no_conflict _ _ _ _ Hn Hx Hy).
Qed.

Lemma contains_iff {A} `{PartialEq A, !LeibnizEq A} (l : list A) x : contains l x = true ↔ x ∈ l.
Proof.
  unfold contains. rewrite existsb_exists. setoid_rewrite req_leibniz.
  setoid_rewrite <-list_elem_of_In. naive_solver.
Qed.

Lemma existsb_not_contains {A} `{PartialEq A, !LeibnizEq A} (l k : list A) :
  existsb (λ x, negb (contains k x)) l = false ↔ ∀ x, x ∈ l → x ∈ k.
Proof.
  rewrite existsb_false_Forall, Forall_forall. setoid_rewrite negb_false_iff.
  by setoid_rewrite contains_iff.
Qed.

Section candidate_laws.
Context `{CivilDate, Sha2}.

(** ** What a prepared candidate is *)

Definition visible_distributions (occs : list RepositoryOccurrence) (d : Distribution) : Prop :=
  ∃ o, o ∈ occs ∧ d ∈ occurrence_distributions o.

(** The views construction accepts. *)
Definition view_valid (r : PackageRelease) (e : NonRepositoryExposure)
    (occs : list RepositoryOccurrence) : Prop :=
  (e = RuntimeInstalled → PackageRelease_is_r_base_package r = true) ∧
  (∀ x y, x ∈ occs → y ∈ occs → ¬ occurrences_conflict x y) ∧
  (∀ d, visible_distributions occs d → d ∈ release_distributions r) ∧
  (e = ExposureNone → occs ≠ [] ∧
     ∀ d, d ∈ release_distributions r → visible_distributions occs d).

Definition candidate_wf (c : PreparedCandidate) : Prop :=
  release_ok (candidate_release c) ∧
  normalized (candidate_occurrences c) (candidate_occurrences c) ∧
  view_valid (candidate_release c) (candidate_exposure c) (candidate_occurrences c).

Lemma covers_visible occs out d :
  covers occs out → visible_distributions out d ↔ visible_distributions occs d.
Proof.
  intros (Hc1 & Hc2 & Hc3). unfold visible_distributions. split.
  - intros (o & Ho & (x & Hx & _ & Hd)%(Hc3 o d Ho)). eauto.
  - intros (x & Hx & Hd). destruct (Hc1 x Hx) as (o & Ho & Hxo). exists o. split; [done|].
    apply (Hc3 o d Ho). exists x. by rewrite (occurrence_facts_repository _ _ Hxo).
Qed.

Lemma covers_nil occs out : covers occs out → occs = [] ↔ out = [].
Proof.
  intros (Hc1 & Hc2 & _). split; intros ->.
  - destruct out as [|o out]; [done|]. destruct (Hc2 o) as (x & Hx & _); [by left|].
    by apply elem_of_nil in Hx.
  - destruct occs as [|x occs]; [done|]. destruct (Hc1 x) as (o & Ho & _); [by left|].
    by apply elem_of_nil in Ho.
Qed.

Lemma view_valid_covers r e occs out :
  normalized occs out → view_valid r e occs ↔ view_valid r e out.
Proof.
  intros Hn. pose proof Hn as (_ & _ & _ & Hc). unfold view_valid.
  setoid_rewrite (covers_visible occs out _ Hc). rewrite (covers_nil occs out Hc).
  assert (∀ x y, x ∈ occs → y ∈ occs → ¬ occurrences_conflict x y)
    by (intros *; eapply normalized_no_conflict, Hn).
  assert (∀ x y, x ∈ out → y ∈ out → ¬ occurrences_conflict x y)
    by (intros *; eapply normalized_no_conflict, normalized_idemp, Hn).
  tauto.
Qed.

Lemma occurrence_unprojected_none r occs :
  List.find (occurrence_unprojected r) occs = None ↔
    ∀ d, visible_distributions occs d → d ∈ release_distributions r.
Proof.
  unfold visible_distributions. split.
  - intros Hf d (o & Ho & Hd). apply list_elem_of_In in Ho.
    apply (find_none _ _ Hf o) in Ho. unfold occurrence_unprojected in Ho.
    rewrite existsb_not_contains in Ho. by apply Ho.
  - intros Hd. destruct (List.find _ _) as [o|] eqn:Hf; [|done].
    apply find_some in Hf as [Ho Hf]. apply list_elem_of_In in Ho.
    assert (occurrence_unprojected r o = false); [|congruence].
    apply existsb_not_contains. eauto.
Qed.

Lemma existsb_unseen occs l :
  existsb (λ d, negb (contains (mjoin (occurrence_distributions <$> occs)) d)) l = false ↔
    ∀ d, d ∈ l → visible_distributions occs d.
Proof.
  rewrite existsb_not_contains. unfold visible_distributions.
  setoid_rewrite list_elem_of_join. setoid_rewrite list_elem_of_fmap. naive_solver.
Qed.

Lemma normalize_and_validate_spec r e occs :
  Forall occurrence_ok occs →
  match normalize_and_validate (mk_PreparedCandidate r e occs) with
  | Ok c => view_valid r e occs ∧ candidate_release c = r ∧ candidate_exposure c = e ∧
      normalized occs (candidate_occurrences c)
  | Err _ => ¬ view_valid r e occs
  end.
Proof.
  intros Hok. unfold normalize_and_validate. simpl.
  destruct (bool_decide (e = RuntimeInstalled) && _) eqn:Er.
  { intros (Hr & _). apply andb_true_iff in Er as [->%bool_decide_eq_true Hb].
    by rewrite (Hr eq_refl) in Hb. }
  pose proof (normalize_occurrences_spec occs Hok) as Hn.
  destruct (normalize_occurrences occs) as [out|err]; simpl;
    [|intros (_ & Hc & _); destruct Hn as (x & y & Hx & Hy & Hxy & _); by apply (Hc x y)].
  pose proof (covers_nil occs out (proj2 (proj2 (proj2 Hn)))) as Hnil.
  destruct (bool_decide (e = ExposureNone) && bool_decide (out = [])) eqn:Em.
  { intros (_ & _ & _ & Hne). apply andb_true_iff in Em as [?%bool_decide_eq_true
      ?%bool_decide_eq_true]. destruct Hne as [Hne _]; [done|]. by apply Hne, Hnil. }
  pose proof (view_valid_covers r e occs out Hn) as Hv.
  destruct (List.find _ out) as [o|] eqn:Hf.
  { intros (_ & _ & Hd & _)%Hv. apply occurrence_unprojected_none in Hd. congruence. }
  rewrite occurrence_unprojected_none in Hf.
  destruct (bool_decide (e = ExposureNone) && existsb _ _) eqn:Eu.
  { intros (_ & _ & _ & Hd)%Hv. apply andb_true_iff in Eu as [?%bool_decide_eq_true Eu].
    destruct Hd as [_ Hd]; [done|]. apply existsb_unseen in Hd. congruence. }
  split_and!; try done. apply Hv. split_and!; [|  |done|].
  - intros ->. by destruct (PackageRelease_is_r_base_package r).
  - intros *. eapply normalized_no_conflict, normalized_idemp, Hn.
  - intros ->. rewrite bool_decide_eq_true_2, ?andb_true_l in Em, Eu by done.
    rewrite bool_decide_eq_false in Em. split; [done|]. by apply existsb_unseen.
Qed.

Lemma normalize_and_validate_wf r e occs c :
  release_ok r → Forall occurrence_ok occs →
  normalize_and_validate (mk_PreparedCandidate r e occs) = Ok c → candidate_wf c.
Proof.
  intros Hr Hok E. pose proof (normalize_and_validate_spec r e occs Hok) as Hs. rewrite E in Hs.
  destruct Hs as (Hv & <- & <- & Hn). split_and!; [done|by eapply normalized_idemp|].
  by rewrite <-view_valid_covers.
Qed.

(** Construction succeeds exactly on valid views, keeps release and
    exposure, and normalises the occurrences to one per repository in rank
    order; the outcome does not depend on the order or repetition of the
    occurrences given. *)
Theorem PreparedCandidate_new_spec r e occs :
  release_ok r → Forall occurrence_ok occs →
  match PreparedCandidate_new r e occs with
  | Ok c => view_valid r e occs ∧ candidate_wf c ∧ candidate_release c = r ∧
      candidate_exposure c = e ∧ normalized occs (candidate_occurrences c) ∧
      (∀ occs', Forall occurrence_ok occs' → (∀ o, o ∈ occs ↔ o ∈ occs') →
                PreparedCandidate_new r e occs' = Ok c)
  | Err _ => ¬ view_valid r e occs
  end.
Proof.
  intros Hr Hok. unfold PreparedCandidate_new.
  pose proof (normalize_and_validate_spec r e occs Hok) as Hs.
  destruct (normalize_and_validate _) as [c|err] eqn:E; [|done].
  pose proof (normalize_and_validate_wf _ _ _ _ Hr Hok E) as Hwf.
  destruct Hs as (Hv & Hcr & Hce & Hn). split_and!; try done.
  intros occs' Hok' Hin. pose proof (normalize_and_validate_spec r e occs' Hok') as Hs.
  destruct (normalize_and_validate (mk_PreparedCandidate r e occs')) as [c'|err].
  - destruct Hs as (_ & Hcr' & Hce' & Hn').
    pose proof (normalized_unique _ _ _ _ Hn Hn' Hin). destruct c, c'. simpl in *. by subst.
  - destruct Hs. clear -Hv Hin. unfold view_valid, visible_distributions in *.
    setoid_rewrite <-Hin. destruct Hv as (H1 & H2 & H3 & H4). split_and!; [done..|].
    intros He. destruct (H4 He) as [Hne Hd]. split; [|done]. intros ->. destruct occs as [|o occs]; [done|].
    assert (o ∈ []) as Ho by (apply Hin; left). by apply elem_of_nil in Ho.
Qed.

(** ** Merging *)

Lemma merge_exposure_runtime e f :
  merge_exposure e f = RuntimeInstalled ↔ e = RuntimeInstalled ∨ f = RuntimeInstalled.
Proof. destruct e, f; naive_solver. Qed.

Lemma merge_exposure_none e f :
  merge_exposure e f = ExposureNone ↔ e = ExposureNone ∧ f = ExposureNone.
Proof. destruct e, f; naive_solver. Qed.

Lemma merge_exposure_comm e f : merge_exposure e f = merge_exposure f e.
Proof. by destruct e, f. Qed.

Lemma occurrences_conflict_sym x y : occurrences_conflict x y → occurrences_conflict y x.
Proof. unfold occurrences_conflict. naive_solver. Qed.

Lemma visible_app l k d :
  visible_distributions (l ++ k) d ↔ visible_distributions l d ∨ visible_distributions k d.
Proof. unfold visible_distributions. setoid_rewrite elem_of_app. naive_solver. Qed.

Definition occurrences_compatible (a b : PreparedCandidate) : Prop :=
  ∀ x y, x ∈ candidate_occurrences a → y ∈ candidate_occurrences b → ¬ occurrences_conflict x y.

Lemma merged_view_valid a b r :
  candidate_wf a → candidate_wf b → candidate_identity a ≈ candidate_identity b →
  merged (candidate_release a) (candidate_release b) r → occurrences_compatible a b →
  view_valid r (merge_exposure (candidate_exposure a) (candidate_exposure b))
    (candidate_occurrences a ++ candidate_occurrences b).
Proof.
  intros ([_ Hda] & _ & Ha1 & Ha2 & Ha3 & Ha4) ([_ Hdb] & _ & Hb1 & Hb2 & Hb3 & Hb4) Hi
    (Ei & _ & _ & _ & _ & _ & Ed) Hc.
  assert (∀ d, d ∈ release_distributions r ↔ d ∈ release_distributions (candidate_release a) ∨
            d ∈ release_distributions (candidate_release b)) as Hd
    by (intros d; rewrite Ed; by apply elem_of_merge_distributions).
  unfold view_valid. setoid_rewrite visible_app. setoid_rewrite Hd. split_and!.
  - unfold PackageRelease_is_r_base_package in *. rewrite Ei.
    intros [?|?]%merge_exposure_runtime; [by apply Ha1|].
    unfold candidate_identity in Hi. rewrite Hi. by apply Hb1.
  - intros x y [Hx|Hx]%elem_of_app [Hy|Hy]%elem_of_app; [by apply Ha2|by apply Hc| |by apply Hb2].
    intros ?%occurrences_conflict_sym. by apply (Hc y x).
  - naive_solver.
  - intros [Hea Heb]%merge_exposure_none. destruct (Ha4 Hea) as [Hne Hva], (Hb4 Heb) as [_ Hvb].
    split; [|naive_solver]. by intros [? _]%app_nil.
Qed.

Lemma PreparedCandidate_merge_cases a b :
  candidate_wf a → candidate_wf b →
  match PreparedCandidate_merge a b with
  | Ok c => candidate_wf c ∧ candidate_identity a ≈ candidate_identity b ∧
      mergeable (candidate_release a) (candidate_release b) ∧ occurrences_compatible a b ∧
      merged (candidate_release a) (candidate_release b) (candidate_release c) ∧
      candidate_exposure c = merge_exposure (candidate_exposure a) (candidate_exposure b) ∧
      normalized (candidate_occurrences a ++ candidate_occurrences b) (candidate_occurrences c)
  | Err _ => ¬ (candidate_identity a ≈ candidate_identity b ∧
      mergeable (candidate_release a) (candidate_release b) ∧ occurrences_compatible a b)
  end.
Proof.
  intros Ha Hb. unfold PreparedCandidate_merge.
  destruct (candidate_identity a =?= candidate_identity b) eqn:Ei; simpl;
    [apply req_true_iff in Ei|apply req_false_iff in Ei; naive_solver].
  pose proof (merge_consistent_cases (candidate_release a) (candidate_release b)) as Hm.
  destruct (merge_consistent _ _) as [r|e]; simpl; [|naive_solver]. destruct Hm as [Hab Hm].
  assert (Forall occurrence_ok (candidate_occurrences a ++ candidate_occurrences b)) as Hok.
  { apply Forall_app. split; [apply Ha|apply Hb]. }
  assert (release_ok r) as Hr by (eapply merged_ok; [apply Ha|apply Hb|done]).
  pose proof (normalize_and_validate_spec r
    (merge_exposure (candidate_exposure a) (candidate_exposure b)) _ Hok) as Hs.
  destruct (normalize_and_validate _) as [c|e] eqn:E.
  - pose proof (normalize_and_validate_wf _ _ _ _ Hr Hok E) as Hwf.
    destruct Hs as (Hv & -> & -> & Hn). split_and!; try done.
    intros x y Hx Hy. apply Hv; apply elem_of_app; auto.
  - intros (_ & _ & Hc). by apply Hs, merged_view_valid.
Qed.

Lemma same_facts_iff a b :
  same_facts a b = true ↔
    candidate_exposure a = candidate_exposure b ∧ candidate_identity a ≈ candidate_identity b ∧
    candidate_version a ≈ candidate_version b ∧
    release_metadata (candidate_release a) = release_metadata (candidate_release b) ∧
    release_publication (candidate_release a) = release_publication (candidate_release b) ∧
    release_dependencies (candidate_release a) ≈ release_dependencies (candidate_release b) ∧
    release_distributions (candidate_release a) = release_distributions (candidate_release b) ∧
    candidate_occurrences a = candidate_occurrences b.
Proof.
  unfold same_facts. rewrite !andb_true_iff, bool_decide_eq_true, !req_true_iff.
  unfold req_rel. rewrite !req_leibniz. tauto.
Qed.

Lemma publications_agree_sym p q : publications_agree p q → publications_agree q p.
Proof. intros Hp x y Hx Hy. symmetry. by apply Hp. Qed.

Lemma mergeable_sym a b : mergeable a b → mergeable b a.
Proof.
  intros (Hv & Hm & Hp & Hd). split_and!; [by symmetry..| |by symmetry].
  by apply publications_agree_sym.
Qed.

Lemma mergeable_refl a : mergeable a a.
Proof. split_and!; [done..| |done]. intros p q -> [= ->]. done. Qed.

Lemma release_wf_distributions_eq a b :
  release_wf a → release_wf b →
  (∀ d, d ∈ release_distributions a ↔ d ∈ release_distributions b) →
  release_distributions a = release_distributions b.
Proof.
  intros (_ & _ & Ha & _) (_ & _ & Hb & _). by apply (strict_sorted_ext distribution_cmp).
Qed.

Lemma option_eq_iff {A} (p q : option A) : (∀ x, p = Some x ↔ q = Some x) → p = q.
Proof. destruct p as [x|], q as [y|]; intros Hpq; [by apply Hpq|..|done]; naive_solver. Qed.

(** Merges of the same facts agree, whichever side's spelling they keep. *)
Lemma merged_same_facts a b a' b' c c' occs :
  candidate_wf a → candidate_wf b → candidate_wf c → candidate_wf c' →
  (a' = a ∧ b' = b ∨ a' = b ∧ b' = a) → candidate_identity a ≈ candidate_identity b →
  mergeable (candidate_release a) (candidate_release b) →
  merged (candidate_release a) (candidate_release b) (candidate_release c) →
  merged (candidate_release a') (candidate_release b') (candidate_release c') →
  candidate_exposure c = candidate_exposure c' →
  normalized occs (candidate_occurrences c) → normalized occs (candidate_occurrences c') →
  same_facts c c' = true.
Proof.
  intros [[_ Ha] _] [[_ Hb] _] [[Hc _] _] [[Hc' _] _] Hab Hi (Hv & Hm & _ & Hd)
    (Ei & Ev & Em & Ed & _ & Ep & Es) (Ei' & Ev' & Em' & Ed' & _ & Ep' & Es') He Ho Ho'.
  apply same_facts_iff. unfold candidate_identity, candidate_version in *.
  rewrite Ei, Ev, Em, Ed, Ei', Ev', Em', Ed'. split_and!; [done|..].
  1-3,5: by destruct Hab as [[-> ->]|[-> ->]].
  - apply option_eq_iff. intros p. rewrite Ep, Ep'. destruct Hab as [[-> ->]|[-> ->]]; tauto.
  - apply release_wf_distributions_eq; [done..|]. intros d.
    rewrite Es, Es'. destruct Hab as [[-> ->]|[-> ->]];
      rewrite !elem_of_merge_distributions by done; tauto.
  - eapply normalized_unique; [done..|]. done.
Qed.

(** [c] is one view of what [a] and [b] say: the identity and the facts are the first's,
    a date is either's, the artifacts are those of both, R's runtime is exposed when either
    exposes it and nothing outside repositories when neither does. *)
Record joined (a b c : PreparedCandidate) : Prop := {
  joined_identity : candidate_identity c = candidate_identity a;
  joined_version : candidate_version c = candidate_version a;
  joined_metadata :
    release_metadata (candidate_release c) = release_metadata (candidate_release a);
  joined_dependencies :
    release_dependencies (candidate_release c) = release_dependencies (candidate_release a);
  joined_publication p : release_publication (candidate_release c) = Some p ↔
    release_publication (candidate_release a) = Some p ∨
    release_publication (candidate_release b) = Some p;
  joined_artifacts d : d ∈ release_distributions (candidate_release c) ↔
    d ∈ release_distributions (candidate_release a) ∨
    d ∈ release_distributions (candidate_release b);
  joined_runtime : candidate_exposure c = RuntimeInstalled ↔
    candidate_exposure a = RuntimeInstalled ∨ candidate_exposure b = RuntimeInstalled;
  joined_unexposed : candidate_exposure c = ExposureNone ↔
    candidate_exposure a = ExposureNone ∧ candidate_exposure b = ExposureNone;
}.

(** Two views that can be one: of one identity, with the same version, metadata and
    dependencies, no two dates, and no repository that reports two sets of facts. *)
Definition joinable (a b : PreparedCandidate) : Prop :=
  candidate_identity a ≈ candidate_identity b ∧ candidate_version a ≈ candidate_version b ∧
  release_metadata (candidate_release a) = release_metadata (candidate_release b) ∧
  release_dependencies (candidate_release a) ≈ release_dependencies (candidate_release b) ∧
  (∀ p q, release_publication (candidate_release a) = Some p →
          release_publication (candidate_release b) = Some q → p = q) ∧
  (∀ x y, x ∈ candidate_occurrences a → y ∈ candidate_occurrences b →
          occurrence_repository x = occurrence_repository y →
          occurrence_facts x = occurrence_facts y).

Lemma joinable_iff a b :
  joinable a b ↔ candidate_identity a ≈ candidate_identity b ∧
    mergeable (candidate_release a) (candidate_release b) ∧ occurrences_compatible a b.
Proof.
  unfold joinable, mergeable, publications_agree, occurrences_compatible, occurrences_conflict.
  split; [naive_solver|].
  intros (Hi & (Hv & Hm & Hp & Hd) & Ho). split_and!; try done. intros x y Hx Hy Hr.
  destruct (decide (occurrence_facts x = occurrence_facts y)) as [|Hne]; [done|].
  by destruct (Ho x y Hx Hy).
Qed.

Lemma merged_joined a b c :
  candidate_wf a → candidate_wf b →
  merged (candidate_release a) (candidate_release b) (candidate_release c) →
  candidate_exposure c = merge_exposure (candidate_exposure a) (candidate_exposure b) →
  joined a b c.
Proof.
  intros ([_ Ha] & _) ([_ Hb] & _) (Ei & Ev & Em & Ed & _ & Ep & Es) He.
  constructor; try done.
  - intros d. rewrite Es. by apply elem_of_merge_distributions.
  - rewrite He. apply merge_exposure_runtime.
  - rewrite He. apply merge_exposure_none.
Qed.

(** C3: merging two prepared views succeeds exactly when they are of one identity, their
    releases agree on version, metadata, dependencies and date, and no repository reports two
    sets of facts.  The result is a valid view that joins what both say: its artifacts are those
    of both, its date is either's, and it exposes R's runtime when either does; each of its
    occurrences has the facts, availability included, of an occurrence of an operand and exactly
    the distributions its repository had there: nothing is promoted or copied between
    repositories, and none is lost. *)
Theorem PreparedCandidate_merge_spec a b :
  candidate_wf a → candidate_wf b →
  match PreparedCandidate_merge a b with
  | Ok c => joinable a b ∧ candidate_wf c ∧ joined a b c ∧
      (∀ o, o ∈ candidate_occurrences c →
         (∃ x, (x ∈ candidate_occurrences a ∨ x ∈ candidate_occurrences b) ∧
               occurrence_facts x = occurrence_facts o) ∧
         ∀ d, d ∈ occurrence_distributions o ↔
              ∃ x, (x ∈ candidate_occurrences a ∨ x ∈ candidate_occurrences b) ∧
                   occurrence_repository x = occurrence_repository o ∧
                   d ∈ occurrence_distributions x) ∧
      (∀ x, x ∈ candidate_occurrences a ∨ x ∈ candidate_occurrences b →
            ∃ o, o ∈ candidate_occurrences c ∧ occurrence_facts x = occurrence_facts o)
  | Err _ => ¬ joinable a b
  end.
Proof.
  intros Ha Hb. pose proof (PreparedCandidate_merge_cases a b Ha Hb) as Hm.
  destruct (PreparedCandidate_merge a b) as [c|e]; [|by rewrite joinable_iff].
  destruct Hm as (Hc & Hi & Hab & Hco & Hm & He & _ & _ & _ & Hc1 & Hc2 & Hc3).
  setoid_rewrite elem_of_app in Hc1. setoid_rewrite elem_of_app in Hc2.
  setoid_rewrite elem_of_app in Hc3.
  split_and!; try done; [by apply joinable_iff|by apply merged_joined|].
  intros o Ho. split; [by apply Hc2|]. intros d. by apply Hc3.
Qed.

(** The order of a merge does not matter, and merging a view with itself
    changes no fact. *)
Theorem PreparedCandidate_merge_comm a b c :
  candidate_wf a → candidate_wf b → PreparedCandidate_merge a b = Ok c →
  (∃ c', PreparedCandidate_merge b a = Ok c' ∧ same_facts c c' = true) ∧
  (∃ a', PreparedCandidate_merge a a = Ok a' ∧ same_facts a a' = true).
Proof.
  intros Ha Hb E. pose proof (PreparedCandidate_merge_cases a b Ha Hb) as Hm. rewrite E in Hm.
  destruct Hm as (Hc & Hi & Hab & Hco & Hm & He & Hn). split.
  - pose proof (PreparedCandidate_merge_cases b a Hb Ha) as Hm'.
    destruct (PreparedCandidate_merge b a) as [c'|e].
    + destruct Hm' as (Hc' & _ & _ & _ & Hm' & He' & Hn'). exists c'. split; [done|].
      assert (candidate_occurrences c = candidate_occurrences c') as Ho.
      { eapply normalized_unique; [done..|]. intros x. rewrite !elem_of_app. naive_solver. }
      eapply (merged_same_facts a b b a); try done; [by right|..].
      * by rewrite He, He', merge_exposure_comm.
      * by rewrite <-Ho.
    + destruct Hm'. split_and!; [by symmetry|by apply mergeable_sym|].
      intros x y Hx Hy ?%occurrences_conflict_sym. by apply (Hco y x).
  - pose proof (PreparedCandidate_merge_cases a a Ha Ha) as Hm'.
    pose proof Ha as ([Hra Hwa] & Hna & Hva).
    destruct (PreparedCandidate_merge a a) as [a'|e].
    + destruct Hm' as (Hc' & _ & _ & _ & Hm' & He' & Hn'). exists a'. split; [done|].
      pose proof Hm' as (Ei & Ev & Em & Ed & _ & Ep & Es). apply same_facts_iff.
      unfold candidate_identity, candidate_version. rewrite Ei, Ev, Em, Ed.
      split_and!; try done.
      * rewrite He'. by destruct (candidate_exposure a).
      * apply option_eq_iff. intros p. rewrite Ep. tauto.
      * apply release_wf_distributions_eq; [done|apply Hc'|]. intros d.
        rewrite Es, elem_of_merge_distributions by done. tauto.
      * eapply normalized_unique; [done..|]. intros x. rewrite elem_of_app. tauto.
    + destruct Hm'. split_and!; [done|apply mergeable_refl|]. intros x y. by apply Hva.
Qed.

(** ** Eligibility *)

(** The candidates a subject is about, whatever their occurrences. *)
Definition in_scope (c : PreparedCandidate) (s : SolverKey) : Prop :=
  subject_name s = Some (ReleaseIdentity_name (candidate_identity c)) ∧
  match s with
  | KeyRegistry namespace _ => ∃ v,
      ReleaseIdentity_provenance (candidate_identity c) = RegistryRelease namespace v
  | KeyBioconductor namespace release _ => ∃ v,
      ReleaseIdentity_provenance (candidate_identity c) = BioconductorReleaseOf namespace release v
  | KeyExact i => candidate_identity c ≈ i
  | KeyRepository _ _ | KeyInstalledName _ => True
  | KeyR => False
  end.

Definition offers (c : PreparedCandidate) (s : SolverKey) (o : RepositoryOccurrence) : Prop :=
  o ∈ candidate_occurrences c ∧ occurrence_availability o = Available ∧
  match s with KeyRepository r _ => occurrence_repository o = r | _ => True end.

Lemma provenance_matches_iff p s :
  provenance_matches p s = true ↔
    match s with
    | KeyRegistry namespace _ => ∃ v, p = RegistryRelease namespace v
    | KeyBioconductor namespace release _ => ∃ v, p = BioconductorReleaseOf namespace release v
    | KeyExact _ | KeyRepository _ _ | KeyInstalledName _ => True
    | KeyR => False
    end.
Proof.
  destruct s; simpl; try (split; done);
    destruct p; rewrite ?andb_true_iff, ?req_leibniz; naive_solver.
Qed.

Lemma elem_of_applicable_occurrences c s o :
  o ∈ applicable_occurrences c s ↔ in_scope c s ∧ offers c s o.
Proof.
  unfold applicable_occurrences, in_scope, offers.
  destruct (subject_name s) as [name|] eqn:Hs; [|rewrite elem_of_nil; naive_solver].
  destruct (_ =?= name) eqn:Hn; simpl;
    [apply req_leibniz in Hn as <-|
     rewrite elem_of_nil; split; [done|]; intros [[[= ->] _] _]; by rewrite req_refl in Hn].
  destruct (match s with KeyExact _ => _ | _ => false end) eqn:He; simpl.
  { rewrite elem_of_nil. destruct s; try done. apply negb_true_iff, req_false_iff in He. tauto. }
  assert (match s with KeyExact i => candidate_identity c ≈ i | _ => True end) as He'.
  { destruct s; try done. by apply negb_false_iff in He. }
  clear He. destruct (provenance_matches _ s) eqn:Hp; simpl.
  - apply provenance_matches_iff in Hp. unfold available_occurrences.
    rewrite !elem_of_filter_bool. unfold is_available. rewrite bool_decide_eq_true.
    destruct s; simpl; rewrite ?req_leibniz; tauto.
  - rewrite elem_of_nil. apply not_true_iff_false in Hp. rewrite provenance_matches_iff in Hp.
    destruct s; simpl; tauto.
Qed.

Lemma nonempty_iff {A} (l : list A) : negb (bool_decide (l = [])) = true ↔ ∃ x, x ∈ l.
Proof.
  rewrite negb_true_iff, bool_decide_eq_false. split.
  - destruct l as [|x l]; [done|]. exists x. left.
  - intros (x & Hx) ->. by apply elem_of_nil in Hx.
Qed.

Lemma is_eligible_for_iff c s :
  is_eligible_for c s = true ↔
    in_scope c s ∧
    ((∃ o, offers c s o) ∨
     match s with
     | KeyInstalledName _ => candidate_exposure c = RuntimeInstalled
     | KeyExact _ => candidate_exposure c ≠ ExposureNone
     | _ => False
     end).
Proof.
  assert (∀ o, o ∈ available_occurrences c ↔
    o ∈ candidate_occurrences c ∧ occurrence_availability o = Available) as Hav.
  { intros o. unfold available_occurrences, is_available.
    by rewrite elem_of_filter_bool, bool_decide_eq_true. }
  pose proof (elem_of_applicable_occurrences c s) as Happ. unfold is_eligible_for.
  destruct (subject_name s) as [name|] eqn:Hs; [|unfold in_scope; rewrite Hs; naive_solver].
  destruct (_ =?= name) eqn:Hn; simpl;
    [apply req_leibniz in Hn as <-|
     split; [done|]; unfold in_scope; rewrite Hs; intros [[[= ->] _] _];
     by rewrite req_refl in Hn].
  destruct s as [| | |i|n|]; try done.
  1-3: rewrite andb_false_r, nonempty_iff; setoid_rewrite Happ;
    split; [intros (o & ? & ?); eauto|intros [? [[o ?]|[]]]; eauto].
  - rewrite andb_true_iff, orb_true_iff, bool_decide_eq_true, nonempty_iff.
    setoid_rewrite Hav. unfold in_scope, offers. simpl in *. rewrite req_true_iff. split.
    + intros [? [?|(o & ? & ?)]]; split_and!; eauto.
    + intros [[? ?] [(o & ? & ? & _)|?]]; eauto.
  - assert (in_scope c (KeyInstalledName n)) by (by split).
    rewrite andb_true_r. case_bool_decide; [by split; auto|].
    rewrite nonempty_iff. setoid_rewrite Happ. split; [intros (o & ? & ?); eauto|].
    intros [? [[o ?]|?]]; [by eauto|done].
Qed.

(** A candidate is eligible for a subject exactly when the subject is about
    it (name, and namespace, Bioconductor release or identity where the
    subject fixes one) and it is either offered by an [Available] occurrence
    in the subject's scope or exposed outside repositories in a way the
    subject accepts; metadata-only occurrences never make it eligible. *)
Theorem is_eligible_for_spec c s :
  (is_eligible_for c s = true ↔
     in_scope c s ∧
     ((∃ o, offers c s o) ∨
      match s with
      | KeyInstalledName _ => candidate_exposure c = RuntimeInstalled
      | KeyExact _ => candidate_exposure c ≠ ExposureNone
      | _ => False
      end)) ∧
  (∀ o, o ∈ applicable_occurrences c s ↔ in_scope c s ∧ offers c s o).
Proof. split; [apply is_eligible_for_iff|apply elem_of_applicable_occurrences]. Qed.

Lemma min_rank_foldl r l :
  let m := foldl (λ a b, if is_gt (RepositoryRank_cmp a b) then b else a) r l in
  m ∈ r :: l ∧ ∀ x, x ∈ r :: l → (RepositoryRank_ordinal m ≤ RepositoryRank_ordinal x)%N.
Proof.
  revert r. induction l as [|s l IH]; intros r; simpl.
  { split; [left|]. by intros x ->%list_elem_of_singleton. }
  destruct (is_gt (RepositoryRank_cmp r s)) eqn:E.
  - destruct (IH s) as [Hin Hle]. split; [by right|].
    intros x [->|Hx]%elem_of_cons; [|by apply Hle]. etrans; [apply Hle; left|].
    unfold RepositoryRank_cmp, cmp_on in E. destruct (N.compare_spec
      (RepositoryRank_ordinal r) (RepositoryRank_ordinal s)); [done..|lia].
  - destruct (IH r) as [Hin Hle]. split; [apply elem_of_cons in Hin as [->|Hin]; [left|by right; right]|].
    intros x [->|[->|Hx]%elem_of_cons]%elem_of_cons; [apply Hle; left| |apply Hle; by right].
    etrans; [apply Hle; left|]. unfold RepositoryRank_cmp, cmp_on in E.
    destruct (N.compare_spec (RepositoryRank_ordinal r) (RepositoryRank_ordinal s)); [lia..|done].
Qed.

Lemma repository_rank_for_spec c s :
  match repository_rank_for c s with
  | None => ∀ o, ¬ (in_scope c s ∧ offers c s o)
  | Some r => (∃ o, in_scope c s ∧ offers c s o ∧ occurrence_rank o = r) ∧
      ∀ o, in_scope c s → offers c s o →
           (RepositoryRank_ordinal r ≤ RepositoryRank_ordinal (occurrence_rank o))%N
  end.
Proof.
  pose proof (elem_of_applicable_occurrences c s) as Ha. unfold repository_rank_for.
  destruct (applicable_occurrences c s) as [|o l]; simpl.
  { intros o [Ho Hof]. assert (o ∈ []) as Hin by by apply Ha. by apply elem_of_nil in Hin. }
  destruct (min_rank_foldl (occurrence_rank o) (occurrence_rank <$> l)) as [Hin Hle].
  change (occurrence_rank o :: (occurrence_rank <$> l)) with (occurrence_rank <$> o :: l) in *.
  split.
  - apply list_elem_of_fmap in Hin as (x & Hx & [??]%Ha). eauto.
  - intros x Hs Hx. apply Hle. apply list_elem_of_fmap. exists x. split; [done|]. by apply Ha.
Qed.

(** ** The union of candidates *)

Definition candidates_occurrences (l : list PreparedCandidate) : list RepositoryOccurrence :=
  mjoin (candidate_occurrences <$> l).

(** [c] is the merge of the candidates [l]. *)
Definition candidate_summary (l : list PreparedCandidate) (c : PreparedCandidate) : Prop :=
  candidate_wf c ∧ release_summary (candidate_release <$> l) (candidate_release c) ∧
  (candidate_exposure c = RuntimeInstalled ↔ ∃ x, x ∈ l ∧ candidate_exposure x = RuntimeInstalled) ∧
  (candidate_exposure c = ExposureNone ↔ ∀ x, x ∈ l → candidate_exposure x = ExposureNone) ∧
  normalized (candidates_occurrences l) (candidate_occurrences c).

Definition candidates_compatible (a b : PreparedCandidate) : Prop :=
  mergeable (candidate_release a) (candidate_release b) ∧ occurrences_compatible a b.

#[global] Instance candidates_compatible_dec : RelDecision candidates_compatible.
Proof.
  intros a b. apply and_dec; [apply _|].
  apply (dec_eq_iff (Forall (λ x, Forall (λ y, ¬ occurrences_conflict x y)
    (candidate_occurrences b)) (candidate_occurrences a)));
    [|unfold occurrences_conflict, occurrence_facts; apply _].
  unfold occurrences_compatible. rewrite Forall_forall. setoid_rewrite Forall_forall. naive_solver.
Defined.

Lemma elem_of_candidates_occurrences l o :
  o ∈ candidates_occurrences l ↔ ∃ x, x ∈ l ∧ o ∈ candidate_occurrences x.
Proof.
  unfold candidates_occurrences. rewrite list_elem_of_join. setoid_rewrite list_elem_of_fmap.
  naive_solver.
Qed.

Lemma candidate_summary_singleton c : candidate_wf c → candidate_summary [c] c.
Proof.
  intros Hc. unfold candidate_summary. setoid_rewrite list_elem_of_singleton. split_and!.
  - done.
  - apply release_summary_singleton, Hc.
  - naive_solver.
  - naive_solver.
  - unfold candidates_occurrences. cbn. rewrite app_nil_r. apply Hc.
Qed.

Lemma covers_trans a b c d : covers a b → covers (b ++ c) d → covers (a ++ c) d.
Proof.
  intros (H1 & H2 & H3) (K1 & K2 & K3). setoid_rewrite elem_of_app in K1.
  setoid_rewrite elem_of_app in K2. setoid_rewrite elem_of_app in K3.
  unfold covers. setoid_rewrite elem_of_app. split_and!.
  - intros x [(o & Ho & Hxo)%H1|Hx]; [|by apply K1; right].
    destruct (K1 o) as (p & Hp & Hop); [by left|]. exists p. split; [done|]. congruence.
  - intros p Hp. destruct (K2 p Hp) as (o & [Ho|Ho] & Hop); [|by eauto].
    destruct (H2 o Ho) as (x & Hx & Hxo). exists x. split; [by left|]. congruence.
  - intros p v Hp. rewrite (K3 p v Hp). split.
    + intros (o & [Ho|Ho] & Hop & Hv); [|by eauto].
      apply (H3 o v Ho) in Hv as (x & Hx & Hxo & Hv). exists x. split_and!; [by left| |done].
      congruence.
    + intros (x & [Hx|Hx] & Hxp & Hv); [|by eauto].
      destruct (H1 x Hx) as (o & Ho & Hxo). apply occurrence_facts_repository in Hxo.
      exists o. split_and!; [by left|congruence|]. apply (H3 o v Ho). by exists x.
Qed.

Lemma candidate_summary_snoc l a b c :
  candidate_summary l a → candidate_wf b → candidate_identity a ≈ candidate_identity b →
  PreparedCandidate_merge a b = Ok c → candidate_summary (l ++ [b]) c.
Proof.
  intros (Ha & Hr & Hx1 & Hx2 & Hn) Hb Hi E.
  pose proof (PreparedCandidate_merge_cases a b Ha Hb) as Hm. rewrite E in Hm.
  destruct Hm as (Hc & _ & Hab & Hco & Hm & He & Hn'). unfold candidate_summary.
  setoid_rewrite elem_of_app. setoid_rewrite list_elem_of_singleton. split_and!.
  - done.
  - rewrite fmap_app. eapply release_summary_snoc; [done|apply Hb|done..].
  - rewrite He, merge_exposure_runtime, Hx1. naive_solver.
  - rewrite He, merge_exposure_none, Hx2. naive_solver.
  - unfold candidates_occurrences. rewrite fmap_app, join_app. cbn. rewrite app_nil_r.
    destruct Hn as (_ & _ & _ & Hcov), Hn' as (Hs & Hnd & Hok & Hcov').
    split_and!; [done..|]. by eapply covers_trans.
Qed.

Lemma candidate_summary_compatible l c b :
  candidate_summary l c → candidates_compatible c b ↔ ∀ x, x ∈ l → candidates_compatible x b.
Proof.
  intros (Hc & Hr & _ & _ & _ & _ & _ & Hc1 & Hc2 & _).
  unfold candidates_compatible, occurrences_compatible. split.
  - intros [Hm Hco] x Hx. split.
    + apply (summary_mergeable _ _ _ Hr Hm). by apply list_elem_of_fmap_2.
    + intros o p Ho Hp [Hop Hf]. destruct (Hc1 o) as (q & Hq & Hoq);
        [apply elem_of_candidates_occurrences; eauto|].
      apply (Hco q p Hq Hp). split; [|congruence].
      by rewrite <-(occurrence_facts_repository _ _ Hoq).
  - intros Hall. split.
    + destruct (decide (mergeable (candidate_release c) (candidate_release b))) as [|Hn]; [done|].
      apply (summary_conflict _ _ _ Hr) in Hn as (r & (x & -> & Hx)%list_elem_of_fmap & Hn).
      by destruct (Hall x Hx).
    + intros q p Hq Hp [Hqp Hf]. destruct (Hc2 q Hq) as (o & Ho & Hoq).
      apply elem_of_candidates_occurrences in Ho as (x & Hx & Ho).
      apply (proj2 (Hall x Hx) o p Ho Hp). split; [|congruence].
      by rewrite (occurrence_facts_repository _ _ Hoq).
Qed.

Lemma merge_candidate_summary l c b :
  candidate_summary l c → candidate_wf b → candidate_identity c ≈ candidate_identity b →
  match map_err SetCandidate (PreparedCandidate_merge c b) with
  | Ok c' => candidate_identity c' ≈ candidate_identity c ∧ candidate_summary (l ++ [b]) c' ∧
      ∀ x, x ∈ l → candidates_compatible x b
  | Err _ => ∃ x, x ∈ l ∧ ¬ candidates_compatible x b
  end.
Proof.
  intros Hc Hb Hi. pose proof (PreparedCandidate_merge_cases c b (proj1 Hc) Hb) as Hm.
  destruct (PreparedCandidate_merge c b) as [c'|e] eqn:E; simpl.
  - destruct Hm as (_ & _ & Hab & Hco & Hm & _). split_and!.
    + unfold candidate_identity. by rewrite (proj1 Hm).
    + by eapply candidate_summary_snoc.
    + apply (candidate_summary_compatible l c b Hc). by split.
  - destruct (decide (Forall (λ x, candidates_compatible x b) l)) as [Hall|Hn].
    + rewrite Forall_forall in Hall. apply (candidate_summary_compatible l c b Hc) in Hall.
      by destruct Hm, Hall.
    + apply not_Forall_Exists, Exists_exists in Hn; [done|]. intros x. apply _.
Qed.

Lemma PreparedCandidateSet_insert_keyed m c :
  PreparedCandidateSet_insert m c =
    keyed_insert candidate_identity (λ a b, map_err SetCandidate (PreparedCandidate_merge a b)) m c.
Proof.
  unfold PreparedCandidateSet_insert, keyed_insert.
  destruct (hm_get _ m) as [e|] eqn:Hg; [|done].
  destruct (PreparedCandidate_merge e c) as [d|] eqn:Em; [|done]. simpl. f_equal.
  symmetry. eapply hm_insert_present; [|exact Hg]. unfold PreparedCandidate_merge in Em.
  destruct (candidate_identity e =?= candidate_identity c) eqn:Ei; [|done]. simpl in Em.
  pose proof (merge_consistent_cases (candidate_release e) (candidate_release c)) as Hm.
  destruct (merge_consistent _ _) as [r|]; [|done]. simpl in Em.
  assert (candidate_identity d = candidate_identity e) as ->; [|by symmetry].
  unfold candidate_identity at 1 2. rewrite <-(proj1 (proj2 Hm)).
  unfold normalize_and_validate in Em. simpl in Em.
  destruct (_ && _) in Em; [done|]. destruct (normalize_occurrences _) in Em; [|done].
  simpl in Em. destruct (_ && _) in Em; [done|]. destruct (List.find _ _) in Em; [done|].
  destruct (_ && _) in Em; [done|]. by simplify_eq.
Qed.

(** Two candidates of one identity that contradict each other. *)
Definition candidates_conflict (a b : PreparedCandidate) : Prop :=
  candidate_identity a ≈ candidate_identity b ∧ ¬ candidates_compatible a b.

Lemma PreparedCandidateSet_collect l :
  Forall candidate_wf l →
  match PreparedCandidateSet_from_candidates l with
  | Ok m => hm_wf m ∧
      (∀ i, match hm_get i m with
            | None => ∀ c, c ∈ l → candidate_identity c ≉ i
            | Some c => candidate_identity c ≈ i ∧
                candidate_summary (values_of candidate_identity i l) c
            end) ∧
      (∀ before c after, l = before ++ c :: after → ∀ x, x ∈ before → ¬ candidates_conflict x c)
  | Err _ => ∃ x c, x ∈ l ∧ c ∈ l ∧ candidates_conflict x c
  end.
Proof.
  intros Hl. pose proof (keyed_collect_spec candidate_identity
    (λ a b, map_err SetCandidate (PreparedCandidate_merge a b)) candidate_wf candidates_compatible
    candidate_summary candidate_summary_singleton merge_candidate_summary l Hl) as Hs.
  unfold PreparedCandidateSet_from_candidates, PreparedCandidateSet_new.
  rewrite (try_fold_ext _ (keyed_insert candidate_identity
    (λ a b, map_err SetCandidate (PreparedCandidate_merge a b))) _ _
    PreparedCandidateSet_insert_keyed).
  destruct (try_fold _ _ l) as [m|e]; [|exact Hs].
  destruct Hs as [[Hwf Hinv] Hpairs]. split_and!; [done| |exact Hpairs].
  intros i. specialize (Hinv i). destruct (hm_get i m); [done|]. intros c Hc Hi.
  assert (c ∈ values_of candidate_identity i l) as Hin by by apply elem_of_values_of.
  rewrite Hinv in Hin. by apply elem_of_nil in Hin.
Qed.

(** The union of prepared candidates fails exactly when two of them, of one
    identity, contradict each other; otherwise it holds one candidate per
    identity, the merge of those given, and distinct identities stay apart. *)
Theorem PreparedCandidateSet_from_candidates_spec l :
  Forall candidate_wf l →
  match PreparedCandidateSet_from_candidates l with
  | Ok m => hm_wf m ∧
      (∀ i, match hm_get i m with
            | None => ∀ c, c ∈ l → candidate_identity c ≉ i
            | Some c => candidate_identity c ≈ i ∧
                candidate_summary (values_of candidate_identity i l) c
            end) ∧
      (∀ before c after, l = before ++ c :: after → ∀ x, x ∈ before → ¬ candidates_conflict x c)
  | Err _ => ∃ x c, x ∈ l ∧ c ∈ l ∧ candidates_conflict x c
  end.
Proof. apply PreparedCandidateSet_collect. Qed.
End candidate_laws.
