(* ===== verification/Resolution.v ===== *)
(** * Loading and results ([rsolve-core/src/resolution.rs])

    What a candidate source returns to the resolver, and the resolution the
    resolver returns to its caller. *)

From S2P Require Import Prelude RustStd Collections Externals Format Versions Names Publication.
From S2P Require Import Identity Constraints Digest Metadata Request Candidates.

(** ** Load errors and quarantine *)

Inductive CandidateLoadErrorCategory :=
| NotFound | SnapshotInvalid | TransportFailure | MetadataInvalid | AuthenticationFailed | Cancelled.
#[export] Instance CandidateLoadErrorCategory_eq_dec : EqDecision CandidateLoadErrorCategory.
Proof. solve_decision. Defined.

Definition CandidateLoadErrorCategory_debug (c : CandidateLoadErrorCategory) : string :=
  match c with
  | NotFound => "NotFound"
  | SnapshotInvalid => "SnapshotInvalid"
  | TransportFailure => "TransportFailure"
  | MetadataInvalid => "MetadataInvalid"
  | AuthenticationFailed => "AuthenticationFailed"
  | Cancelled => "Cancelled"
  end.

Record CandidateLoadError := CandidateLoadError_new {
  load_error_category : CandidateLoadErrorCategory;
  load_error_diagnostic : string;
}.
#[export] Instance CandidateLoadError_eq_dec : EqDecision CandidateLoadError.
Proof. solve_decision. Defined.

Definition CandidateLoadError_fmt (e : CandidateLoadError) : string :=
  CandidateLoadErrorCategory_debug (load_error_category e) +:+ ": " +:+ load_error_diagnostic e.

Record QuarantinedCandidate := QuarantinedCandidate_new {
  quarantined_version : RPackageVersion;
  quarantined_diagnostic : string;
}.

Section resolution.
Context `{CivilDate, Sha2}.

Record CandidateLoadResult := CandidateLoadResult_new {
  load_candidates_of : list PreparedCandidate;
  load_quarantined : list QuarantinedCandidate;
}.

(** The [CandidateLoader] port: an implementation is its two operations. *)
Record CandidateLoader := mk_CandidateLoader {
  loader_releases : SolverKey → result (list PreparedCandidate) CandidateLoadError;
  loader_load : SolverKey → result CandidateLoadResult CandidateLoadError;
}.

(** The trait's default [load]. *)
Definition CandidateLoader_default_load
    (releases : SolverKey → result (list PreparedCandidate) CandidateLoadError)
    (package : SolverKey) : result CandidateLoadResult CandidateLoadError :=
  result_map (λ candidates, CandidateLoadResult_new candidates []) (releases package).

(** ** Resolutions *)

Record ResolvedPackage := ResolvedPackage_new {
  resolved_subject : SolverKey;
  resolved_release : PackageRelease;
  effective_dependencies : list ResolvedDependencyEdge;
  visible_repository_ids : list RepositoryId;
}.

Definition resolved_identity (p : ResolvedPackage) : ReleaseIdentity :=
  release_identity (resolved_release p).
Definition resolved_version (p : ResolvedPackage) : RPackageVersion :=
  release_version (resolved_release p).
Definition resolved_name (p : ResolvedPackage) : PackageName :=
  ReleaseIdentity_name (resolved_identity p).

Record Resolution := mk_Resolution {
  resolution_target : ResolutionTarget;
  resolution_packages : list ResolvedPackage;
}.

Definition resolved_name_cmp : ResolvedPackage → ResolvedPackage → comparison :=
  cmp_on resolved_name PackageName_cmp.

Definition Resolution_new (target : ResolutionTarget) (packages : list ResolvedPackage) :
    Resolution :=
  mk_Resolution target
    (sort_by resolved_name_cmp
       (List.filter (λ p, negb (PackageRelease_is_r_base_package (resolved_release p))) packages)).

Definition Resolution_selected (self : Resolution) (name : PackageName) : option PackageRelease :=
  resolved_release <$> List.find (λ p, resolved_name p =?= name) (resolution_packages self).

#[global] Typeclasses Opaque resolved_name_cmp.
#[global] Instance resolved_name_cmp_order : CmpOrder resolved_name_cmp :=
  cmp_on_order resolved_name PackageName_cmp.

Lemma elem_of_Resolution_new t l p :
  p ∈ resolution_packages (Resolution_new t l) ↔
    p ∈ l ∧ PackageRelease_is_r_base_package (resolved_release p) = false.
Proof.
  cbn. rewrite elem_of_sort_by, elem_of_filter_bool. by rewrite negb_true_iff.
Qed.

(** A resolution holds the given packages but R's own base packages, in
    name order; [selected] finds a package of the name asked for whenever
    there is one. *)
Theorem Resolution_new_spec t l :
  let r := Resolution_new t l in
  resolution_target r = t ∧
  StronglySorted (cmp_le resolved_name_cmp) (resolution_packages r) ∧
  resolution_packages r ≡ₚ
    filter (λ p, PackageRelease_is_r_base_package (resolved_release p) = false) l ∧
  (∀ n,
     match Resolution_selected r n with
     | Some x => ∃ p, p ∈ l ∧ resolved_name p = n ∧ resolved_release p = x ∧
                      PackageRelease_is_r_base_package x = false
     | None => ∀ p, p ∈ l → resolved_name p = n →
                    PackageRelease_is_r_base_package (resolved_release p) = true
     end).
Proof.
  intros r. split_and!; [done|apply sort_by_sorted, _|cbn; rewrite sort_by_Permutation|].
  - clear r. induction l as [|p l IH]; [done|]. cbn [List.filter].
    rewrite filter_cons. case_decide as Hb; [rewrite Hb; simpl; by rewrite IH|].
    apply not_false_iff_true in Hb. by rewrite Hb.
  - intros n. unfold Resolution_selected.
    destruct (List.find _ (resolution_packages r)) as [p|] eqn:E; simpl.
    + apply find_some in E as [Hp%list_elem_of_In Hn%req_leibniz].
      apply elem_of_Resolution_new in Hp as [Hp Hb]. eauto.
    + intros p Hp Hn. destruct (PackageRelease_is_r_base_package _) eqn:Hb; [done|exfalso].
      assert (p ∈ resolution_packages r) as Hin%list_elem_of_In by by apply elem_of_Resolution_new.
      apply (find_none _ _ E) in Hin. by rewrite Hn, req_refl in Hin.
Qed.
End resolution.
