(* ===== verification/Union.v ===== *)
(** * The union of candidate sources ([rsolve/src/orchestration/candidate_union.rs])

    A loader that asks several loaders in manifest order and merges what they
    return: an absence is skipped, any other failure stops the union. *)

From S2P Require Import Prelude RustStd Collections Externals Format Versions Names Publication.
From S2P Require Import Identity Constraints Digest Metadata Request Candidates Resolution.

#[export] Instance req_QuarantinedCandidate : PartialEq QuarantinedCandidate := λ a b,
  (quarantined_version a =?= quarantined_version b)
  && (quarantined_diagnostic a =?= quarantined_diagnostic b).
#[export] Instance req_QuarantinedCandidate_equivalence : RustEq QuarantinedCandidate.
Proof. solve_rust_eq @req_QuarantinedCandidate. Qed.

Section union.
Context `{CivilDate, Sha2, UnicodeTables}.

(** The [Vec] of loaders is the struct. *)
Definition CompositeCandidateLoader := list CandidateLoader.

Definition contextual_error (index : nat) (error : CandidateLoadError) : CandidateLoadError :=
  CandidateLoadError_new (load_error_category error)
    ("candidate source " +:+ nat_to_string index +:+ ": " +:+ load_error_diagnostic error).

Definition merge_conflict_error (index : nat) (error : PreparedCandidateSetError) :
    CandidateLoadError :=
  CandidateLoadError_new MetadataInvalid
    ("candidate source " +:+ nat_to_string index +:+ " produced a merge conflict: "
      +:+ PreparedCandidateSetError_fmt error).

(** [if !quarantined.contains(entry) { quarantined.push(entry.clone()) }]. *)
Definition push_new (quarantined : list QuarantinedCandidate) (entry : QuarantinedCandidate) :
    list QuarantinedCandidate :=
  if contains quarantined entry then quarantined else quarantined ++ [entry].

Definition union_insert (index : nat) (candidates : PreparedCandidateSet)
    (candidate : PreparedCandidate) : result PreparedCandidateSet CandidateLoadError :=
  map_err (merge_conflict_error index) (PreparedCandidateSet_insert candidates candidate).

(** The body of the loop over the enumerated loaders. *)
Definition union_step (subject : SolverKey)
    (acc : PreparedCandidateSet * list QuarantinedCandidate) (entry : nat * CandidateLoader) :
    result (PreparedCandidateSet * list QuarantinedCandidate) CandidateLoadError :=
  let '(candidates, quarantined) := acc in
  match loader_load entry.2 subject with
  | Err error =>
    if bool_decide (load_error_category error = NotFound) then Ok acc
    else Err (contextual_error entry.1 error)
  | Ok loaded =>
    let? candidates := try_fold (union_insert entry.1) candidates (load_candidates_of loaded) in
    Ok (candidates, foldl push_new quarantined (load_quarantined loaded))
  end.

Definition enumerate {A} (l : list A) : list (nat * A) := zip (seq 0 (length l)) l.

Definition composite_load (self : CompositeCandidateLoader) (subject : SolverKey) :
    result CandidateLoadResult CandidateLoadError :=
  let? (candidates, quarantined) :=
    try_fold (union_step subject) (PreparedCandidateSet_new, []) (enumerate self) in
  Ok (CandidateLoadResult_new (PreparedCandidateSet_candidates candidates) quarantined).

Definition composite_releases (self : CompositeCandidateLoader) (subject : SolverKey) :
    result (list PreparedCandidate) CandidateLoadError :=
  result_map load_candidates_of (composite_load self subject).

(** [impl CandidateLoader for CompositeCandidateLoader]. *)
Definition composite_loader (self : CompositeCandidateLoader) : CandidateLoader :=
  mk_CandidateLoader (composite_releases self) (composite_load self).

(** ** What the union is *)

(** What a loader contributes: its result, or nothing when it does not know the
    subject; a failure contributes nothing because it stops the union. *)
Definition contribution (subject : SolverKey) (loader : CandidateLoader) :
    option CandidateLoadResult :=
  match loader_load loader subject with
  | Ok loaded => Some loaded
  | Err error =>
    if bool_decide (load_error_category error = NotFound)
    then Some (CandidateLoadResult_new [] []) else None
  end.

Definition contributed_candidates (subject : SolverKey) (loaders : list CandidateLoader) :
    list PreparedCandidate :=
  mjoin ((λ l, from_option load_candidates_of [] (contribution subject l)) <$> loaders).
Definition contributed_quarantined (subject : SolverKey) (loaders : list CandidateLoader) :
    list QuarantinedCandidate :=
  mjoin ((λ l, from_option load_quarantined [] (contribution subject l)) <$> loaders).

Lemma enumerate_snoc {A} (l : list A) x : enumerate (l ++ [x]) = enumerate l ++ [(length l, x)].
Proof.
  unfold enumerate. rewrite length_app. simpl. rewrite Nat.add_1_r, seq_S. simpl.
  rewrite zip_with_app by by rewrite length_seq. done.
Qed.

Lemma length_enumerate {A} (l : list A) : length (enumerate l) = length l.
Proof. unfold enumerate. rewrite length_zip_with, length_seq. lia. Qed.

(** The loop over the loaders, as a fold over everything they contribute. *)
Definition union_of (subject : SolverKey) (loaders : list CandidateLoader) :
    result (PreparedCandidateSet * list QuarantinedCandidate) CandidateLoadError :=
  try_fold (union_step subject) (PreparedCandidateSet_new, []) (enumerate loaders).

Lemma union_insert_fold i m l :
  try_fold (union_insert i) m l =
    map_err (merge_conflict_error i) (try_fold PreparedCandidateSet_insert m l).
Proof. apply try_fold_map_err. Qed.

Lemma union_step_ok subject i loader m q m' q' :
  union_step subject (m, q) (i, loader) = Ok (m', q') ↔
    ∃ c, contribution subject loader = Some c ∧
      try_fold PreparedCandidateSet_insert m (load_candidates_of c) = Ok m' ∧
      q' = foldl push_new q (load_quarantined c).
Proof.
  unfold union_step, contribution. cbn [fst snd].
  destruct (loader_load loader subject) as [loaded|e].
  - rewrite union_insert_fold, result_bind_ok. setoid_rewrite map_err_ok. split.
    + intros (m0 & ? & [= -> <-]). eauto.
    + intros (c & [= <-] & ? & ->). eauto.
  - case_bool_decide; [|naive_solver]. split.
    + intros [= -> ->]. by eexists.
    + by intros (c & [= <-] & [= ->] & ->).
Qed.

Lemma union_of_snoc subject loaders l :
  union_of subject (loaders ++ [l]) =
    let? acc := union_of subject loaders in union_step subject acc (length loaders, l).
Proof.
  unfold union_of. rewrite enumerate_snoc, try_fold_app.
  destruct (try_fold _ _ _) as [acc|]; simpl; [|done]. by destruct (union_step _ _ _).
Qed.

Lemma contributed_candidates_snoc subject loaders l :
  contributed_candidates subject (loaders ++ [l]) =
    contributed_candidates subject loaders ++
      from_option load_candidates_of [] (contribution subject l).
Proof. unfold contributed_candidates. rewrite fmap_app, join_app. csimpl. by rewrite app_nil_r. Qed.

Lemma contributed_quarantined_snoc subject loaders l :
  contributed_quarantined subject (loaders ++ [l]) =
    contributed_quarantined subject loaders ++
      from_option load_quarantined [] (contribution subject l).
Proof. unfold contributed_quarantined. rewrite fmap_app, join_app. csimpl. by rewrite app_nil_r. Qed.

Lemma union_of_ok subject loaders m q :
  union_of subject loaders = Ok (m, q) ↔
    Forall (λ l, is_Some (contribution subject l)) loaders ∧
    PreparedCandidateSet_from_candidates (contributed_candidates subject loaders) = Ok m ∧
    q = foldl push_new [] (contributed_quarantined subject loaders).
Proof.
  revert m q. induction loaders as [|l loaders IH] using rev_ind; intros m q.
  { split; [intros [= <- <-]; split_and!; [constructor|done..]|by intros (_ & [= <-] & ->)]. }
  rewrite union_of_snoc, contributed_candidates_snoc, contributed_quarantined_snoc.
  rewrite foldl_app, Forall_app, Forall_singleton, result_bind_ok.
  unfold PreparedCandidateSet_from_candidates in *. rewrite try_fold_app, result_bind_ok. split.
  - intros ([m0 q0] & (Hall & Hm0 & ->)%IH & (c & Hc & Hm & ->)%union_step_ok).
    rewrite Hc. simpl. split_and!; eauto.
  - intros ([Hall [c Hc]] & (m0 & Hm0 & Hm) & ->). rewrite Hc in *.
    eexists (m0, _). split; [by apply IH|]. apply union_step_ok. eauto.
Qed.

Lemma union_of_err subject loaders e :
  union_of subject loaders = Err e →
  ∃ before l after m q, loaders = before ++ l :: after ∧ union_of subject before = Ok (m, q) ∧
    ((∃ err, loader_load l subject = Err err ∧ load_error_category err ≠ NotFound ∧
        e = contextual_error (length before) err) ∨
     (∃ c err, contribution subject l = Some c ∧
        try_fold PreparedCandidateSet_insert m (load_candidates_of c) = Err err ∧
        e = merge_conflict_error (length before) err)).
Proof.
  induction loaders as [|l loaders IH] using rev_ind; [done|].
  rewrite union_of_snoc, result_bind_err.
  intros [(before & l' & after & m & q & -> & Hok & Herr)%IH|([m q] & Hok & Hstep)].
  { exists before, l', (after ++ [l]), m, q. split; [by rewrite <-app_assoc|done]. }
  exists loaders, l, [], m, q. split_and!; [done..|].
  unfold union_step, contribution in *. cbn [fst snd] in *.
  destruct (loader_load l subject) as [loaded|err].
  - right. apply result_bind_err in Hstep as [Hstep|(? & _ & [=])].
    rewrite union_insert_fold in Hstep.
    destruct (try_fold _ m _) as [|err] eqn:E; [done|]. injection Hstep as <-. eauto.
  - left. case_bool_decide; [done|]. injection Hstep as <-. eauto.
Qed.

(** ** The laws of the union *)

(** Two merges of the same candidates hold the same facts. *)
Lemma candidate_summary_unique l l' c c' :
  candidate_summary l c → candidate_summary l' c' → (∀ x, x ∈ l ↔ x ∈ l') → same_facts c c' = true.
Proof.
  intros (Hw & (Hr & Hne & Hl & Hp & Hd) & He1 & He2 & Hn)
    (Hw' & (Hr' & _ & Hl' & Hp' & Hd') & He1' & He2' & Hn') Heq.
  assert (∀ r, r ∈ candidate_release <$> l ↔ r ∈ candidate_release <$> l') as Hreq.
  { intros r. rewrite !list_elem_of_fmap. setoid_rewrite Heq. done. }
  apply same_facts_iff.
  destruct (candidate_release <$> l) as [|r rs] eqn:E; [done|].
  destruct (Hl r ltac:(left)) as (Hi & Hv & Hm & Hde & _).
  destruct (Hl' r) as (Hi' & Hv' & Hm' & Hde' & _); [apply Hreq; left|].
  unfold candidate_identity, candidate_version. split_and!.
  - setoid_rewrite Heq in He1. setoid_rewrite Heq in He2.
    rewrite <-He1' in He1. rewrite <-He2' in He2.
    destruct (candidate_exposure c), (candidate_exposure c'); naive_solver.
  - by rewrite <-Hi.
  - by rewrite <-Hv.
  - congruence.
  - apply option_eq_iff. intros p. rewrite Hp, Hp'. setoid_rewrite Hreq. done.
  - by rewrite <-Hde.
  - apply release_wf_distributions_eq; [apply Hw|apply Hw'|].
    intros d. rewrite Hd, Hd'. setoid_rewrite Hreq. done.
  - eapply normalized_unique; [done..|]. intros o. rewrite !elem_of_candidates_occurrences.
    setoid_rewrite Heq. done.
Qed.

Definition sound_loader (subject : SolverKey) (loader : CandidateLoader) : Prop :=
  ∀ r, loader_load loader subject = Ok r → Forall candidate_wf (load_candidates_of r).

Lemma contributed_wf subject loaders :
  Forall (sound_loader subject) loaders → Forall candidate_wf (contributed_candidates subject loaders).
Proof.
  intros Hs. unfold contributed_candidates. apply Forall_join, Forall_fmap.
  eapply Forall_impl; [done|]. intros l Hl. unfold contribution. simpl.
  destruct (loader_load l subject) as [r|e] eqn:E; [by apply Hl|]. case_bool_decide; constructor.
Qed.

(** One candidate per identity, the merge of those contributed under it. *)
Definition merges (l out : list PreparedCandidate) : Prop :=
  ∀ i, match List.find (λ c, candidate_identity c =?= i) out with
       | Some c => candidate_summary (values_of candidate_identity i l) c
       | None => ∀ c, c ∈ l → candidate_identity c ≉ i
       end.

Lemma collected_merges l m :
  Forall candidate_wf l → PreparedCandidateSet_from_candidates l = Ok m →
  merges l (PreparedCandidateSet_candidates m).
Proof.
  intros Hl Hm i. pose proof (PreparedCandidateSet_collect l Hl) as Hs. rewrite Hm in Hs.
  destruct Hs as (Hwf & Hget & _). specialize (Hget i) as Hi.
  destruct (List.find _ _) as [c|] eqn:Hf.
  - apply find_some in Hf as [Hin%list_elem_of_In Hc]. apply req_true_iff in Hc.
    unfold PreparedCandidateSet_candidates, hm_values in Hin.
    apply list_elem_of_fmap in Hin as ([k c'] & Hc' & Hin). simpl in Hc'. subst c'.
    pose proof (hm_in_get k c m Hwf Hin) as Hk. specialize (Hget k). rewrite Hk in Hget.
    destruct Hget as [Hck Hsum]. by rewrite <-(values_of_proper candidate_identity k i l)
      by by rewrite <-Hck.
  - destruct (hm_get i m) as [c|] eqn:Hg; [|done]. destruct Hi as [Hci _].
    apply hm_get_in in Hg as (k & _ & Hin).
    assert (c ∈ PreparedCandidateSet_candidates m) as Hc%list_elem_of_In.
    { apply list_elem_of_fmap. by exists (k, c). }
    apply (find_none _ _ Hf) in Hc. by apply req_false_iff in Hc.
Qed.

(** One candidate for each identity, the merge of those given under it. *)
Record one_per_identity (l out : list PreparedCandidate) : Prop := {
  one_distinct i j a b : out !! i = Some a → out !! j = Some b →
    candidate_identity a ≈ candidate_identity b → i = j;
  one_merged c : c ∈ out →
    candidate_summary (filter (λ x, candidate_identity x ≈ candidate_identity c) l) c;
  one_complete x : x ∈ l → ∃ c, c ∈ out ∧ candidate_identity c ≈ candidate_identity x;
}.

Lemma hm_wf_values_distinct (m : PreparedCandidateSet) :
  hm_wf m → ∀ i j k k' a b, m !! i = Some (k, a) → m !! j = Some (k', b) → k ≈ k' → i = j.
Proof.
  induction m as [|[k0 c0] m IH]; intros Hwf i j k k' a b; [done|]. destruct Hwf as [Hn Hwf].
  assert (∀ n q c, m !! n = Some (q, c) → k0 ≈ q → False) as Hfresh.
  { intros n q c Hq%list_elem_of_lookup_2 Hk. apply (hm_in_get q c m Hwf) in Hq.
    rewrite (hm_get_proper _ _ Hk m m eq_refl) in Hn. congruence. }
  destruct i as [|i], j as [|j]; simpl; [done|..].
  - intros [= -> ->] Hj Hk. by destruct (Hfresh _ _ _ Hj).
  - intros Hi [= -> ->] Hk. by destruct (Hfresh _ _ _ Hi).
  - intros Hi Hj Hk. f_equal. by eapply IH.
Qed.

Lemma collected_one_per_identity l m :
  Forall candidate_wf l → PreparedCandidateSet_from_candidates l = Ok m →
  one_per_identity l (PreparedCandidateSet_candidates m).
Proof.
  intros Hl Hm. pose proof (PreparedCandidateSet_collect l Hl) as Hs. rewrite Hm in Hs.
  destruct Hs as (Hwf & Hget & _).
  assert (∀ k c, (k, c) ∈ m → candidate_identity c ≈ k ∧
    candidate_summary (values_of candidate_identity k l) c) as Hin.
  { intros k c Hkc%(hm_in_get k c m Hwf). specialize (Hget k). by rewrite Hkc in Hget. }
  constructor; unfold PreparedCandidateSet_candidates, hm_values.
  - intros i j a b Ha Hb Hab.
    apply list_lookup_fmap_Some in Ha as ([k a'] & -> & Ha), Hb as ([k' b'] & -> & Hb).
    destruct (Hin _ _ (list_elem_of_lookup_2 _ _ _ Ha)) as [Hak _].
    destruct (Hin _ _ (list_elem_of_lookup_2 _ _ _ Hb)) as [Hbk _].
    eapply hm_wf_values_distinct; [exact Hwf|exact Ha|exact Hb|]. simpl in Hab.
    by rewrite <-Hak, <-Hbk.
  - intros c ([k c'] & -> & [Hk Hc]%Hin)%list_elem_of_fmap. simpl.
    change (candidate_summary (values_of candidate_identity (candidate_identity c') l) c').
    by rewrite (values_of_proper candidate_identity _ _ _ Hk).
  - intros x Hx. specialize (Hget (candidate_identity x)).
    destruct (hm_get (candidate_identity x) m) as [c|] eqn:E; [|by destruct (Hget x Hx)].
    destruct Hget as [Hc _]. apply hm_get_in in E as (k & _ & Hkc). exists c. split; [|done].
    apply list_elem_of_fmap. by exists (k, c).
Qed.

(** A first entry of [l]: no earlier one equals it. *)
Definition first_at {A} `{PartialEq A} (l : list A) (i : nat) (x : A) : Prop :=
  l !! i = Some x ∧ ∀ j y, j < i → l !! j = Some y → y ≉ x.

(** The first entries of [l], in their order. *)
Definition first_occurrences {A} `{PartialEq A} (l out : list A) : Prop :=
  ∃ places, StronglySorted lt places ∧
    (∀ i, i ∈ places ↔ ∃ x, first_at l i x) ∧
    Forall2 (λ i x, l !! i = Some x) places out.

Section first_occurrences.
Context {A : Type} `{PartialEq A, !RustEq A}.
Implicit Types (l out : list A) (x y : A).

Lemma first_at_exists l y n :
  l !! n = Some y → ∃ i z, i ≤ n ∧ first_at l i z ∧ z ≈ y.
Proof.
  revert y. induction n as [n IH] using lt_wf_ind; intros y Hn.
  destruct (decide (Exists (λ z, z ≈ y) (take n l))) as [He|He].
  - apply Exists_exists in He as (z & [j Hj]%list_elem_of_lookup & Hz).
    apply lookup_take_Some in Hj as [Hj Hjn].
    destruct (IH j Hjn z Hj) as (i & w & Hi & Hw & Hwz). exists i, w.
    split_and!; [lia|done|by rewrite Hwz].
  - exists n, y. split_and!; [lia| |done]. split; [done|]. intros j z Hj Hz Hzy. apply He.
    apply Exists_exists. exists z. split; [|done].
    apply list_elem_of_lookup. exists j. by apply lookup_take_Some.
Qed.

Lemma first_at_snoc l x i y :
  i < length l → first_at (l ++ [x]) i y ↔ first_at l i y.
Proof.
  intros Hi. unfold first_at. rewrite lookup_app_l by done. split; intros [Hy Hn];
    (split; [done|]); intros j z Hj Hz; apply (Hn j z Hj);
    [rewrite lookup_app_l by lia|rewrite lookup_app_l in Hz by lia]; done.
Qed.

Lemma first_at_last l x y :
  first_at (l ++ [x]) (length l) y ↔ y = x ∧ ∀ z, z ∈ l → z ≉ x.
Proof.
  unfold first_at. rewrite list_lookup_middle by done. split.
  - intros [[= <-] Hn]. split; [done|]. intros z [j Hj]%list_elem_of_lookup.
    apply (Hn j z); [by eapply lookup_lt_Some|by apply lookup_app_l_Some].
  - intros [-> Hn]. split; [done|]. intros j z Hj Hz. rewrite lookup_app_l in Hz by done.
    apply Hn. by eapply list_elem_of_lookup_2.
Qed.

Lemma first_occurrences_covers l out x :
  first_occurrences l out → (∃ y, y ∈ out ∧ y ≈ x) ↔ ∃ y, y ∈ l ∧ y ≈ x.
Proof.
  intros (places & _ & Hp & Hf). split.
  - intros (y & [k Hk]%list_elem_of_lookup & Hyx). exists y. split; [|done].
    destruct (Forall2_lookup_r _ _ _ _ _ Hf Hk) as (i & _ & Hi). by eapply list_elem_of_lookup_2.
  - intros (y & [n Hn]%list_elem_of_lookup & Hyx).
    destruct (first_at_exists l y n Hn) as (i & z & _ & Hz & Hzy).
    assert (i ∈ places) as [k Hk]%list_elem_of_lookup by (apply Hp; by exists z).
    destruct (Forall2_lookup_l _ _ _ _ _ Hf Hk) as (w & Hw & Hiw).
    exists w. split; [by eapply list_elem_of_lookup_2|]. destruct Hz as [Hz _].
    assert (w = z) as -> by congruence. by rewrite Hzy.
Qed.

Lemma first_occurrences_old l out x :
  first_occurrences l out → (∃ y, y ∈ l ∧ y ≈ x) → first_occurrences (l ++ [x]) out.
Proof.
  intros (places & Hs & Hp & Hf) (y & Hy & Hyx). exists places. split_and!; [done| |].
  - intros i. rewrite Hp. split; intros (z & Hz).
    + exists z. apply first_at_snoc; [|done]. by eapply lookup_lt_Some, Hz.
    + destruct (decide (i < length l)) as [Hi|Hi].
      { exists z. by apply first_at_snoc in Hz. }
      pose proof (lookup_lt_Some _ _ _ (proj1 Hz)) as Hl. rewrite length_app in Hl. simpl in Hl.
      assert (i = length l) as -> by lia. apply first_at_last in Hz as [_ Hn].
      by destruct (Hn y Hy).
  - eapply Forall2_impl; [exact Hf|]. intros i z Hi. by apply lookup_app_l_Some.
Qed.

Lemma StronglySorted_lt_snoc (l : list nat) n :
  StronglySorted lt l → (∀ i, i ∈ l → i < n) → StronglySorted lt (l ++ [n]).
Proof.
  induction l as [|p l IH]; simpl; [by repeat constructor|].
  intros [Hs Hall]%StronglySorted_inv Hlt. constructor.
  - apply IH; [done|]. intros i Hi. apply Hlt. by right.
  - apply Forall_app. split; [done|]. apply Forall_singleton, Hlt. left.
Qed.

Lemma first_occurrences_new l out x :
  first_occurrences l out → (∀ y, y ∈ l → y ≉ x) → first_occurrences (l ++ [x]) (out ++ [x]).
Proof.
  intros (places & Hs & Hp & Hf) Hx.
  assert (∀ i, i ∈ places → i < length l) as Hlt.
  { intros i (y & Hy%lookup_lt_Some & _)%Hp. done. }
  exists (places ++ [length l]). split_and!.
  - by apply StronglySorted_lt_snoc.
  - intros i. rewrite elem_of_app, list_elem_of_singleton. split.
    + intros [Hi| ->].
      * pose proof (Hlt i Hi). apply Hp in Hi as [z Hz]. exists z. by apply first_at_snoc.
      * exists x. by apply first_at_last.
    + intros (z & Hz). destruct (decide (i < length l)) as [Hi|Hi].
      * left. apply Hp. exists z. by apply first_at_snoc in Hz.
      * right. pose proof (lookup_lt_Some _ _ _ (proj1 Hz)) as Hl.
        rewrite length_app in Hl. simpl in Hl. lia.
  - apply Forall2_app.
    + eapply Forall2_impl; [exact Hf|]. intros i z Hi. by apply lookup_app_l_Some.
    + apply Forall2_cons. split; [|constructor]. by rewrite list_lookup_middle.
Qed.
End first_occurrences.

Lemma push_new_first l : first_occurrences l (foldl push_new [] l).
Proof.
  induction l as [|x l IH] using rev_ind.
  { exists []. split_and!; [constructor| |constructor]. intros i.
    rewrite elem_of_nil. split; [done|]. by intros (x & [=] & _). }
  rewrite foldl_app. simpl. set (q := foldl push_new [] l) in *.
  assert (contains q x = true ↔ ∃ y, y ∈ l ∧ y ≈ x) as Hc.
  { rewrite <-(first_occurrences_covers l q x IH). unfold contains. rewrite existsb_exists.
    by setoid_rewrite <-list_elem_of_In. }
  unfold push_new. destruct (contains q x) eqn:E.
  - apply first_occurrences_old; [done|by apply Hc].
  - apply first_occurrences_new; [done|]. intros y Hy Hyx.
    assert (false = true) as [=] by (apply Hc; by exists y).
Qed.

Lemma candidates_compatible_sym a b : candidates_compatible a b → candidates_compatible b a.
Proof.
  intros [Hm Ho]. split; [by apply mergeable_sym|].
  unfold occurrences_compatible in *. intros x y Hx Hy Hc. apply (Ho y x Hy Hx).
  by apply occurrences_conflict_sym.
Qed.

Lemma candidate_self_compatible c : candidate_wf c → candidates_compatible c c.
Proof.
  intros Hc. split; [apply mergeable_refl|]. intros x y Hx Hy.
  by eapply normalized_no_conflict; [apply Hc|..].
Qed.

Lemma collected_no_conflict l m :
  Forall candidate_wf l → PreparedCandidateSet_from_candidates l = Ok m →
  ∀ x y, x ∈ l → y ∈ l → ¬ candidates_conflict x y.
Proof.
  intros Hl Hm x y Hx Hy [Hi Hc]. pose proof (PreparedCandidateSet_collect l Hl) as Hs.
  rewrite Hm in Hs. destruct Hs as (_ & _ & Hpairs).
  apply list_elem_of_split in Hy as (l1 & l2 & ->).
  apply elem_of_app in Hx as [Hx|[->|Hx]%elem_of_cons].
  - by apply (Hpairs l1 y l2 eq_refl x Hx).
  - apply Hc, candidate_self_compatible. rewrite Forall_forall in Hl. apply Hl.
    apply elem_of_app. right. left.
  - apply list_elem_of_split in Hx as (l3 & l4 & ->).
    apply (Hpairs (l1 ++ y :: l3) x l4) with y; [by rewrite <-app_assoc|set_solver|].
    split; [by symmetry|]. intros ?%candidates_compatible_sym. done.
Qed.

(** C39: the composite loader returns one candidate per release identity, and no identity
    twice: the merge of every candidate its sources returned under it; and the quarantined
    versions they report, in the order of the sources, each at its first occurrence only;
    sources that do not know the subject are skipped.  It fails only with the first source that
    fails other than by not knowing the subject, whose category it keeps and whose number and
    diagnostic it reports, or at the first source whose candidates contradict one another or
    earlier ones. *)
Theorem composite_load_spec loaders subject :
  Forall (sound_loader subject) loaders →
  match composite_load loaders subject with
  | Ok r =>
      Forall (λ l, is_Some (contribution subject l)) loaders ∧
      one_per_identity (contributed_candidates subject loaders) (load_candidates_of r) ∧
      first_occurrences (contributed_quarantined subject loaders) (load_quarantined r)
  | Err e => ∃ before l after,
      loaders = before ++ l :: after ∧ Forall (λ l, is_Some (contribution subject l)) before ∧
      (∀ x y, x ∈ contributed_candidates subject before →
              y ∈ contributed_candidates subject before → ¬ candidates_conflict x y) ∧
      ((∃ err, loader_load l subject = Err err ∧ load_error_category err ≠ NotFound ∧
          load_error_category e = load_error_category err ∧
          load_error_diagnostic e = "candidate source " +:+ nat_to_string (length before) +:+
            ": " +:+ load_error_diagnostic err) ∨
       (load_error_category e = MetadataInvalid ∧
        (∃ text, load_error_diagnostic e = "candidate source " +:+ nat_to_string (length before) +:+
           " produced a merge conflict: " +:+ text) ∧
        is_Some (contribution subject l) ∧
        ∃ x y, x ∈ contributed_candidates subject (before ++ [l]) ∧
          y ∈ contributed_candidates subject (before ++ [l]) ∧ candidates_conflict x y))
  end.
Proof.
  intros Hs. unfold composite_load. fold (union_of subject loaders).
  destruct (union_of subject loaders) as [[m q]|e] eqn:E; simpl.
  - apply union_of_ok in E as (Hall & Hm & ->). split_and!; [done| |apply push_new_first].
    apply collected_one_per_identity; [by apply contributed_wf|done].
  - apply union_of_err in E as (before & l & after & m & q & -> & Hok & Herr).
    exists before, l, after. apply union_of_ok in Hok as (Hall & Hm & _).
    rewrite cons_middle, app_assoc, Forall_app in Hs. destruct Hs as [Hs _].
    pose proof (contributed_wf _ _ (proj1 (proj1 (Forall_app _ _ _) Hs))) as Hwf.
    split_and!; [done..|by eapply collected_no_conflict|].
    destruct Herr as [(err & ? & ? & ->)|(c & err & Hc & Herr & ->)]; [by left; exists err|].
    right. split_and!; [done|by eexists|by eexists|].
    apply contributed_wf in Hs. pose proof (PreparedCandidateSet_collect _ Hs) as Hcol.
    rewrite contributed_candidates_snoc, Hc in Hcol |- *. simpl in Hcol |- *.
    unfold PreparedCandidateSet_from_candidates in Hm, Hcol.
    by rewrite try_fold_app, Hm in Hcol; simpl in Hcol; rewrite Herr in Hcol.
Qed.

Lemma collect_permutation l l' m :
  Forall candidate_wf l → (∀ x, x ∈ l ↔ x ∈ l') →
  PreparedCandidateSet_from_candidates l = Ok m →
  ∃ m', PreparedCandidateSet_from_candidates l' = Ok m'.
Proof.
  intros Hl Heq Hm. assert (Forall candidate_wf l') as Hl'.
  { rewrite Forall_forall in *. intros x Hx. by apply Hl, Heq. }
  pose proof (PreparedCandidateSet_collect l Hl) as Hc. rewrite Hm in Hc.
  destruct Hc as (_ & _ & Hpairs). pose proof (PreparedCandidateSet_collect l' Hl') as Hc'.
  destruct (PreparedCandidateSet_from_candidates l') as [m'|e]; [by eexists|]. exfalso.
  destruct Hc' as (x & y & Hx & Hy & Hi & Hnc). apply Heq in Hx, Hy.
  destruct (list_elem_of_split _ _ Hy) as (l1 & l2 & Hl12).
  subst l. apply elem_of_app in Hx as [Hx|[->|Hx]%elem_of_cons].
  - by apply (Hpairs l1 y l2 eq_refl x Hx).
  - apply Hnc, candidate_self_compatible. rewrite Forall_forall in Hl. by apply Hl.
  - destruct (list_elem_of_split _ _ Hx) as (l3 & l4 & ->).
    apply (Hpairs (l1 ++ y :: l3) x l4) with y; [by rewrite <-app_assoc|set_solver|].
    split; [by symmetry|]. intros ?%candidates_compatible_sym. done.
Qed.

Lemma contributed_permutation subject l l' x :
  l ≡ₚ l' → x ∈ contributed_candidates subject l ↔ x ∈ contributed_candidates subject l'.
Proof. intros Hp. unfold contributed_candidates. by rewrite Hp. Qed.

(** The order of the sources does not change the outcome: any other order
    succeeds as well, with a candidate of the same facts for each identity. *)
Theorem composite_load_order loaders loaders' subject r :
  Forall (sound_loader subject) loaders → loaders ≡ₚ loaders' →
  composite_load loaders subject = Ok r →
  ∃ r', composite_load loaders' subject = Ok r' ∧
    ∀ i, match List.find (λ c, candidate_identity c =?= i) (load_candidates_of r),
               List.find (λ c, candidate_identity c =?= i) (load_candidates_of r') with
         | Some c, Some c' => same_facts c c' = true
         | None, None => True
         | _, _ => False
         end.
Proof.
  intros Hs Hp Hr. unfold composite_load in *. fold (union_of subject loaders) in Hr.
  fold (union_of subject loaders').
  apply result_bind_ok in Hr as ([m q] & (Hall & Hm & Hq)%union_of_ok & [= <-]).
  pose proof (contributed_wf _ _ Hs) as Hwf.
  pose proof (contributed_permutation subject loaders loaders') as Hin.
  destruct (collect_permutation _ (contributed_candidates subject loaders') _ Hwf
    (λ x, Hin x Hp) Hm) as [m' Hm'].
  assert (union_of subject loaders' = Ok (m', foldl push_new [] (contributed_quarantined subject loaders')))
    as -> by (apply union_of_ok; by rewrite <-Hp at 1).
  eexists. split; [done|]. intros i. simpl.
  assert (Forall candidate_wf (contributed_candidates subject loaders')) as Hwf'.
  { rewrite Forall_forall in *. intros x Hx. by apply Hwf, Hin. }
  pose proof (collected_merges _ _ Hwf Hm i) as Hi.
  pose proof (collected_merges _ _ Hwf' Hm' i) as Hi'.
  assert (∀ c l, candidate_summary (values_of candidate_identity i l) c →
    ∃ x, x ∈ l ∧ candidate_identity x ≈ i) as Hsome.
  { intros c l (_ & (_ & Hne & _) & _). destruct (values_of _ i l) as [|x k] eqn:Ev; [done|].
    exists x. apply (elem_of_values_of candidate_identity i l x). rewrite Ev. left. }
  destruct (List.find _ (PreparedCandidateSet_candidates m)) as [c|],
    (List.find _ (PreparedCandidateSet_candidates m')) as [c'|]; [| | |done].
  - eapply candidate_summary_unique; [done..|]. intros x.
    rewrite !elem_of_values_of, (Hin x Hp). done.
  - destruct (Hsome _ _ Hi) as (x & Hx & Hxi). by apply (Hi' x); [apply Hin|].
  - destruct (Hsome _ _ Hi') as (x & Hx & Hxi). by apply (Hi x); [apply Hin|].
Qed.
End union.
