(* ===== verification/Description.v ===== *)
(** * DESCRIPTION fields ([rsolve-provider/src/package_description.rs])

    The syntax of DCF documents, the version constraints of dependency fields,
    and the semantics of the fields of an R DESCRIPTION file. *)

From S2P Require Import Prelude RustStd Collections Externals Text Format Versions Names.
From S2P Require Import Publication Identity Constraints Metadata.

(** ** DCF documents *)

(** [InvalidUtf8] also keeps the [Utf8Error] it was made from. *)
Inductive DcfError :=
| InvalidUtf8 (offset : nat)
| ContinuationBeforeField (line : nat)
| MissingColon (line : nat)
| EmptyFieldName (line : nat)
| InvalidLineEnding (line : nat)
| ParserRejected (message : string).

Definition DcfError_fmt (e : DcfError) : string :=
  match e with
  | InvalidUtf8 offset => "invalid UTF-8 at byte offset " +:+ nat_to_string offset
  | ContinuationBeforeField line =>
    "continuation line before a field at line " +:+ nat_to_string line
  | MissingColon line => "field line has no colon at line " +:+ nat_to_string line
  | EmptyFieldName line => "empty field name at line " +:+ nat_to_string line
  | InvalidLineEnding line =>
    "unsupported bare carriage-return line ending at line " +:+ nat_to_string line
  | ParserRejected message => "DCF parser rejected input: " +:+ message
  end.

Record DcfField := mk_DcfField { DcfField_name : string; DcfField_value : string }.
Record DcfRecord := mk_DcfRecord { DcfRecord_fields : list DcfField }.
Record DcfDocument := mk_DcfDocument { DcfDocument_records : list DcfRecord }.

Definition DcfRecord_field (self : DcfRecord) (name : string) : option DcfField :=
  List.find (λ field, eq_ignore_ascii_case (DcfField_name field) name) (DcfRecord_fields self).
Definition DcfRecord_fields_named (self : DcfRecord) (name : string) : list DcfField :=
  List.filter (λ field, eq_ignore_ascii_case (DcfField_name field) name) (DcfRecord_fields self).

Definition DcfDocument_len (self : DcfDocument) : nat := length (DcfDocument_records self).
Definition DcfDocument_is_empty (self : DcfDocument) : bool :=
  bool_decide (DcfDocument_records self = []).

(** The loop of [normalize_line_endings], over the characters of the text. *)
Fixpoint normalize_lines_loop (line : nat) (l : list (N * list byte)) : result (list byte) DcfError :=
  match l with
  | [] => Ok []
  | (c, bs) :: rest =>
    if N.eqb c 13 then
      match rest with
      | (10%N, _) :: rest =>
        let? normalized := normalize_lines_loop (S line) rest in Ok (byte_of 10 :: normalized)
      | _ => Err (InvalidLineEnding line)
      end
    else if N.eqb c 10 then
      let? normalized := normalize_lines_loop (S line) rest in Ok (byte_of 10 :: normalized)
    else let? normalized := normalize_lines_loop line rest in Ok (bs ++ normalized)
  end.

Definition ends_with_newline (l : list byte) : bool := has_suffix [byte_of 10] l.

Definition normalize_line_endings (input : list byte) : result (list byte) DcfError :=
  if negb (existsb (byte_is 13) input)
     && (bool_decide (input = []) || ends_with_newline input)
  then Ok input
  else
    let? normalized := normalize_lines_loop 1 (char_slices input) in
    Ok (if negb (bool_decide (normalized = [])) && negb (ends_with_newline normalized)
        then normalized ++ [byte_of 10] else normalized).

(** The loop of [validate_lines], over the lines from number [line] on. *)
Fixpoint validate_lines_loop (line : nat) (has_field : bool) (l : list (list byte)) :
    result unit DcfError :=
  match l with
  | [] => Ok tt
  | text :: rest =>
    match text with
    | [] => validate_lines_loop (S line) false rest
    | b :: _ =>
      if byte_is 32 b || byte_is 9 b then
        if negb has_field then Err (ContinuationBeforeField line)
        else validate_lines_loop (S line) has_field rest
      else if byte_is 35 b then validate_lines_loop (S line) has_field rest
      else match find_index (byte_is 58) text with
      | None => Err (MissingColon line)
      | Some 0 => Err (EmptyFieldName line)
      | Some (S _) => validate_lines_loop (S line) true rest
      end
    end
  end.

Definition validate_lines (input : list byte) : result unit DcfError :=
  validate_lines_loop 1 false (split_bytes (byte_is 10) input).

Section dcf.
Context `{Deb822}.

Definition DcfDocument_parse (input : list byte) : result DcfDocument DcfError :=
  let? input := map_err InvalidUtf8 (str_from_utf8 input) in
  let? normalized := normalize_line_endings (bytes input) in
  let? _ := validate_lines normalized in
  let? paragraphs := map_err ParserRejected (deb822_parse (from_utf8 normalized)) in
  Ok (mk_DcfDocument
    ((λ paragraph, mk_DcfRecord ((λ f : string * string, mk_DcfField f.1 f.2) <$> paragraph))
       <$> paragraphs)).

Definition DcfDocument_parse_str (input : string) : result DcfDocument DcfError :=
  DcfDocument_parse (bytes input).
End dcf.

(** ** Dependency entries *)

Inductive DependencyParseError :=
| EmptyEntry
| DepInvalidPackageName (error : PackageNameError)
| InvalidConstraintSyntax
| MissingConstraintVersion
| DepInvalidVersion (error : RPackageVersionError).

Definition DependencyParseError_fmt (e : DependencyParseError) : string :=
  match e with
  | EmptyEntry => "dependency entry is empty"
  | DepInvalidPackageName error => PackageNameError_fmt error
  | InvalidConstraintSyntax => "invalid version constraint syntax"
  | MissingConstraintVersion => "version constraint has no version"
  | DepInvalidVersion error => RPackageVersionError_fmt error
  end.

Record ParsedDependency := mk_ParsedDependency {
  parsed_name : PackageName;
  parsed_constraint : VersionConstraint;
}.

Definition operators : list (list byte * RelationOp) :=
  [(bytes ">=", OpGe); (bytes "<=", OpLe); (bytes "==", OpEq); (bytes "!=", OpNe);
   (bytes ">", OpGt); (bytes "<", OpLt)].

Definition parse_constraint (input : list byte) : result VersionConstraint DependencyParseError :=
  let? (operator, op) := ok_or InvalidConstraintSyntax
    (List.find (λ o, has_prefix o.1 input) operators) in
  let version_text := trim_bytes (drop (length operator) input) in
  if bool_decide (version_text = []) then Err MissingConstraintVersion
  else
    let? version := map_err DepInvalidVersion (RPackageVersion_parse (from_utf8 version_text)) in
    Ok (VersionConstraint_from_clause op version).

Definition is_parenthesis (b : byte) : bool := byte_is 40 b || byte_is 41 b.

(** The name and the constraint of a trimmed entry. *)
Definition split_entry (input : list byte) :
    result (list byte * option VersionConstraint) DependencyParseError :=
  match find_index (byte_is 40) input with
  | Some open =>
    if negb (has_suffix (bytes ")") input) then Err InvalidConstraintSyntax
    else
      let expression := drop (open + 1) (take (length input - 1) input) in
      if existsb is_parenthesis expression then Err InvalidConstraintSyntax
      else
        let? constraint := parse_constraint expression in
        Ok (trim_bytes (take open input), Some constraint)
  | None =>
    if existsb (byte_is 41) input then Err InvalidConstraintSyntax else Ok (input, None)
  end.

Definition parse_dependency_entry (input : string) : result ParsedDependency DependencyParseError :=
  let input := trim_bytes (bytes input) in
  if bool_decide (input = []) then Err EmptyEntry
  else
    let? (name_text, constraint) := split_entry input in
    let? name := map_err DepInvalidPackageName (PackageName_new (from_utf8 name_text)) in
    Ok (mk_ParsedDependency name (default VersionConstraint_unconstrained constraint)).

Example parse_entry_cli :
  (λ d, (PackageName_as_str (parsed_name d),
         (λ c, (clause_op c, version_raw (clause_version c))) <$> clauses (parsed_constraint d)))
    <$> match parse_dependency_entry " cli (>=  3.6.0) " with Ok d => Some d | Err _ => None end
  = Some ("cli", [(OpGe, "3.6.0")]).
Proof. vm_compute. reflexivity. Qed.
Example parse_entry_errors :
  (parse_dependency_entry "", parse_dependency_entry "a (3)", parse_dependency_entry "a (>=)",
   parse_dependency_entry "a )")
  = (Err EmptyEntry, Err InvalidConstraintSyntax, Err MissingConstraintVersion,
     Err InvalidConstraintSyntax).
Proof. vm_compute. reflexivity. Qed.

(** ** DESCRIPTION fields *)

Inductive DescriptionError :=
| DescMissingField (field : string)
| DescDuplicateField (field : string)
| DescInvalidPackageName (reason : PackageNameError)
| DescInvalidVersion (reason : RPackageVersionError)
| DescInvalidMetadata (reason : ReleaseMetadataError)
| InvalidPublicationDate (value diagnostic : string)
| DescInvalidDependency (reason : string)
| DescDependency (field entry : string) (source : DependencyParseError).

Definition DescriptionError_fmt `{UnicodeTables} (e : DescriptionError) : string :=
  match e with
  | DescMissingField field => "missing required field " +:+ field
  | DescDuplicateField field => "duplicate field " +:+ field
  | DescInvalidPackageName reason => "invalid package name: " +:+ PackageNameError_fmt reason
  | DescInvalidVersion reason => "invalid version: " +:+ RPackageVersionError_fmt reason
  | DescInvalidMetadata reason => "invalid metadata: " +:+ ReleaseMetadataError_fmt reason
  | InvalidPublicationDate value diagnostic =>
    "invalid Published value " +:+ debug_str value +:+ ": " +:+ diagnostic
  | DescInvalidDependency reason => "invalid dependency: " +:+ reason
  | DescDependency field entry source =>
    "invalid " +:+ field +:+ " entry " +:+ debug_str entry +:+ ": "
      +:+ DependencyParseError_fmt source
  end.

Definition DescriptionFields := list (string * string).

Definition field (fields : DescriptionFields) (name : string) : option string :=
  snd <$> List.find (λ f, eq_ignore_ascii_case f.1 name) fields.

Definition required_field (fields : DescriptionFields) (name : string) :
    result string DescriptionError :=
  ok_or (DescMissingField name) (field fields name).

(** The set of names seen so far is a [BTreeSet]. *)
Fixpoint reject_duplicates (names : list string) (fields : DescriptionFields) :
    result unit DescriptionError :=
  match fields with
  | [] => Ok tt
  | (name, _) :: fields =>
    if bool_decide (to_ascii_lowercase name ∈ names) then Err (DescDuplicateField name)
    else reject_duplicates (to_ascii_lowercase name :: names) fields
  end.
Definition reject_duplicate_fields (fields : DescriptionFields) : result unit DescriptionError :=
  reject_duplicates [] fields.

Definition is_reserved_field (name : string) : bool :=
  bool_decide (to_ascii_lowercase name ∈
    ["package"; "version"; "depends"; "imports"; "linkingto"; "suggests"; "enhances"; "md5sum";
     "published"]).

Section description.
Context `{CivilDateTime, UnicodeTables}.

Record ParsedDescription := mk_ParsedDescription {
  description_package : PackageName;
  description_version : RPackageVersion;
  description_metadata : ReleaseMetadata;
  description_publication : option ReleasePublication;
  description_dependencies : list DeclaredDependency;
}.

Definition invalid_publication (value diagnostic : string) : DescriptionError :=
  InvalidPublicationDate value diagnostic.

Definition parse_date (value date : string) : result PublicationDate DescriptionError :=
  map_err (λ e, invalid_publication value (PublicationDateError_fmt e)) (PublicationDate_parse date).

Definition parse_publication_date (value : string) : result ReleasePublication DescriptionError :=
  let value := str_trim value in
  let? date :=
    if bool_decide (str_len value = 10) then parse_date value value
    else
      let? (format, has_utc_suffix) :=
        match str_len value with
        | 19 => Ok ("%Y-%m-%d %H:%M:%S", false)
        | 23 => Ok ("%Y-%m-%d %H:%M:%S UTC", true)
        | _ => Err (invalid_publication value
                 "Published datetime must use an accepted full-string spelling")
        end in
      if (has_utc_suffix : bool) && negb (has_suffix (bytes " UTC") (bytes value))
      then Err (invalid_publication value "Published datetime must end with uppercase UTC")
      else
        let? datetime := map_err (invalid_publication value) (DateTime_strptime format value) in
        if bool_decide (DateTime_strftime format datetime ≠ value)
        then Err (invalid_publication value "Published datetime is not canonical")
        else parse_date value (Date_strftime "%Y-%m-%d" (DateTime_date datetime))
  in Ok (mk_ReleasePublication date).

Definition dependency_fields : list (string * DependencyKind) :=
  [("Depends", Depends); ("Imports", Imports); ("LinkingTo", LinkingTo); ("Suggests", Suggests);
   ("Enhances", Enhances)].

(** The body of the inner loop: one entry of a dependency field. *)
Definition parse_declared (field_name : string) (kind : DependencyKind) (entry : string) :
    result DeclaredDependency DescriptionError :=
  let? dependency := map_err (DescDependency field_name (str_trim entry))
    (parse_dependency_entry entry) in
  map_err (λ e, DescInvalidDependency (PackageRequirementError_fmt e))
    (DeclaredDependency_from_parts kind (parsed_name dependency) SourceAny
       (parsed_constraint dependency)).

Definition parse_dependency_field (fields : DescriptionFields)
    (dependencies : list DeclaredDependency) (f : string * DependencyKind) :
    result (list DeclaredDependency) DescriptionError :=
  match field fields f.1 with
  | None => Ok dependencies
  | Some value =>
    let? parsed := try_map (parse_declared f.1 f.2) (split_terminator (byte_is 44) value) in
    Ok (dependencies ++ parsed)
  end.

Definition parse_description_fields (fields : DescriptionFields) :
    result ParsedDescription DescriptionError :=
  let? _ := reject_duplicate_fields fields in
  let? version_text := required_field fields "Version" in
  let? version := map_err DescInvalidVersion (RPackageVersion_parse (str_trim version_text)) in
  let? package_text := required_field fields "Package" in
  let? package := map_err DescInvalidPackageName (PackageName_new (str_trim package_text)) in
  let? publication := match field fields "Published" with
                      | Some value => result_map Some (parse_publication_date value)
                      | None => Ok None
                      end in
  let? dependencies := try_fold (parse_dependency_field fields) [] dependency_fields in
  let? metadata := map_err DescInvalidMetadata (ReleaseMetadata_new
    (bt_from_iter str_cmp (List.filter (λ f, negb (is_reserved_field f.1)) fields))) in
  Ok (mk_ParsedDescription package version metadata publication dependencies).
End description.

(** ** Looking fields up *)

Definition field_key (f : string * string) : string := to_ascii_lowercase f.1.

Lemma eq_ignore_ascii_case_iff s t :
  eq_ignore_ascii_case s t = true ↔ to_ascii_lowercase s = to_ascii_lowercase t.
Proof. apply bool_decide_eq_true. Qed.

Lemma field_some fields n v m :
  NoDup (field_key <$> fields) → (m, v) ∈ fields → to_ascii_lowercase m = to_ascii_lowercase n →
  field fields n = Some v.
Proof.
  intros Hnd Hin Hm. unfold field.
  destruct (List.find _ fields) as [[m' v']|] eqn:Hf.
  - apply find_some in Hf as [Hin'%list_elem_of_In Hk%eq_ignore_ascii_case_iff]. simpl in *.
    assert ((m', v') = (m, v)) as [= -> ->]; [|done].
    apply (NoDup_fmap_eq field_key fields); [done..|]. unfold field_key. simpl. congruence.
  - apply list_elem_of_In in Hin. apply (find_none _ _ Hf) in Hin. simpl in Hin.
    apply not_true_iff_false in Hin. by rewrite eq_ignore_ascii_case_iff in Hin.
Qed.

Lemma field_none fields n :
  Forall (λ f, field_key f ≠ to_ascii_lowercase n) fields → field fields n = None.
Proof.
  intros Hall. unfold field. destruct (List.find _ fields) as [f|] eqn:Hf; [|done].
  apply find_some in Hf as [Hin%list_elem_of_In Hk%eq_ignore_ascii_case_iff].
  rewrite Forall_forall in Hall. by apply Hall in Hin.
Qed.

Lemma reject_duplicates_ok names fields :
  NoDup (field_key <$> fields) → Forall (λ f, field_key f ∉ names) fields →
  reject_duplicates names fields = Ok tt.
Proof.
  revert names. induction fields as [|[n v] fields IH]; intros names; [done|]. csimpl.
  intros [Hn Hnd]%NoDup_cons [Hk Hall]%Forall_cons. unfold field_key in Hk. simpl in Hk.
  rewrite bool_decide_eq_false_2 by done. apply IH; [done|].
  rewrite Forall_forall in *. intros f Hf. rewrite not_elem_of_cons. split; [|by apply Hall].
  intros Heq. apply Hn. change (to_ascii_lowercase n) with (field_key (n, v)) in Heq.
  rewrite <-Heq. apply list_elem_of_fmap. eauto.
Qed.

Lemma reject_duplicates_spec names fields :
  reject_duplicates names fields = Ok tt ↔
    NoDup (field_key <$> fields) ∧ Forall (λ f, field_key f ∉ names) fields.
Proof.
  split; [|intros []; by apply reject_duplicates_ok].
  revert names. induction fields as [|[n v] fields IH]; intros names; simpl; [by repeat constructor|].
  case_bool_decide as Hn; [done|]. intros [Hnd Hall]%IH.
  rewrite Forall_forall in Hall. split.
  - csimpl. apply NoDup_cons. split; [|done]. intros (f & Hf & Hin)%list_elem_of_fmap.
    apply (Hall f Hin). rewrite <-Hf. by left.
  - apply Forall_cons. split; [done|]. apply Forall_forall. intros f Hin Hf. apply (Hall f Hin).
    by right.
Qed.

(** The fields are the only thing a lookup depends on. *)
Lemma field_in fields n v :
  field fields n = Some v → ∃ m, (m, v) ∈ fields ∧ to_ascii_lowercase m = to_ascii_lowercase n.
Proof.
  unfold field. intros ([m w] & Hf & ->)%fmap_Some.
  apply find_some in Hf as [Hin%list_elem_of_In Hk%eq_ignore_ascii_case_iff]. by exists m.
Qed.
