(* ===== verification/Cache.v ===== *)
(** * The artifact cache: descriptors, metadata, paths ([rsolve-repository/src/lib.rs],
      [metadata.rs], [paths.rs], [util.rs])

    What the cache is keyed by, what it records next to an object, and where. *)

From S2P Require Import Prelude Effects RustStd Collections Text Externals FileSystem.
From S2P Require Import Format Versions Names Identity Constraints Digest.

(** ** Errors and types ([lib.rs]) *)

Inductive CacheError :=
| CacheIo (operation : string) (path : Path) (source : IoError)
| UnsupportedChecksum (algorithm : string)
| MalformedChecksum (algorithm value : string)
| ConflictingChecksum (algorithm : string)
| ChecksumMismatch (algorithm expected actual : string)
| SizeMismatch (expected actual : N)
| InputTooLarge (limit : N)
| CacheInvalidMetadata (path : Path) (reason : string)
| CorruptObject (path : Path) (expected actual : string)
| ReplacementRecovery (object quarantine : Path) (replacement restore : IoError)
| ObjectConflict (path : Path)
| InvalidArchive (reason : string)
| MissingDescription
| DuplicateDescription
| DescriptionTooLarge (limit : N)
| MalformedDescription (reason : string)
| DuplicateDescriptionField (field : string)
| DescriptionFieldMismatch (field expected actual : string).

Definition CacheError_fmt (e : CacheError) : string :=
  match e with
  | CacheIo operation path source =>
    "failed to " +:+ operation +:+ " " +:+ path_display path +:+ ": " +:+ io_text source
  | UnsupportedChecksum algorithm =>
    "unsupported upstream checksum algorithm `" +:+ algorithm +:+ "`"
  | MalformedChecksum algorithm value =>
    "malformed " +:+ algorithm +:+ " checksum `" +:+ value +:+ "`"
  | ConflictingChecksum algorithm =>
    "conflicting upstream " +:+ algorithm +:+ " checksum declarations"
  | ChecksumMismatch algorithm expected actual =>
    algorithm +:+ " checksum mismatch: expected " +:+ expected +:+ ", got " +:+ actual
  | SizeMismatch expected actual =>
    "artifact size mismatch: expected " +:+ N_to_string expected +:+ ", got " +:+ N_to_string actual
  | InputTooLarge limit =>
    "compressed input exceeds the configured " +:+ N_to_string limit +:+ "-byte limit"
  | CacheInvalidMetadata path reason =>
    "cache metadata is invalid at " +:+ path_display path +:+ ": " +:+ reason
  | CorruptObject path expected actual =>
    "cache object is corrupt at " +:+ path_display path +:+ ": expected " +:+ expected
      +:+ ", got " +:+ actual
  | ReplacementRecovery object quarantine replacement restore =>
    "failed to publish replacement object at " +:+ path_display object +:+ ": "
      +:+ io_text replacement +:+ "; the corrupt object was retained at "
      +:+ path_display quarantine +:+ ", but restoring it failed: " +:+ io_text restore
  | ObjectConflict path =>
    "cache object path already contains different bytes: " +:+ path_display path
  | InvalidArchive reason =>
    "source artifact is not a readable gzip tar archive (or exceeds the 256 MiB/100k-entry sanity limits): "
      +:+ reason
  | MissingDescription => "source archive is missing its required Package/DESCRIPTION entry"
  | DuplicateDescription => "source archive contains duplicate Package/DESCRIPTION entries"
  | DescriptionTooLarge limit =>
    "source archive DESCRIPTION is too large (limit " +:+ N_to_string limit +:+ " bytes)"
  | MalformedDescription reason => "source archive DESCRIPTION is malformed: " +:+ reason
  | DuplicateDescriptionField field =>
    "source archive DESCRIPTION contains duplicate `" +:+ field +:+ "` fields"
  | DescriptionFieldMismatch field expected actual =>
    "source archive DESCRIPTION field " +:+ field +:+ " mismatch: expected " +:+ expected
      +:+ ", got " +:+ actual
  end.

Definition PARTIAL_PREFIX : string := ".partial.".
Definition MAX_COMPRESSED_INPUT_BYTES : N := 1073741824.

Record GitProvenanceExpectation := mk_GitProvenanceExpectation {
  expected_repository : NormalizedGitUrl;
  expected_commit : GitCommitId;
  expected_subdirectory : option RepositorySubdir;
}.

Record ArtifactValidationExpectation := mk_ArtifactValidationExpectation {
  expected_package : PackageName;
  expected_version : RPackageVersion;
  git_provenance : option GitProvenanceExpectation;
}.
Definition ArtifactValidationExpectation_new (package : PackageName) (version : RPackageVersion) :
    ArtifactValidationExpectation := mk_ArtifactValidationExpectation package version None.
Definition with_git_provenance (self : ArtifactValidationExpectation)
    (repository : NormalizedGitUrl) (commit : GitCommitId)
    (subdirectory : option RepositorySubdir) : ArtifactValidationExpectation :=
  mk_ArtifactValidationExpectation (expected_package self) (expected_version self)
    (Some (mk_GitProvenanceExpectation repository commit subdirectory)).

Inductive VerificationStrength :=
| StrengthNone | UpstreamMd5 | UpstreamSha256 | UpstreamMd5AndSha256.

Record CachedArtifact := mk_CachedArtifact {
  object_path : Path;
  metadata_path : Path;
  cached_sha256 : Sha256Digest;
  cached_size : N;
  cached_verification : VerificationStrength;
}.

Definition CachedArtifact_path (self : CachedArtifact) : Path := object_path self.

Record Checksums := mk_Checksums {
  checksums_md5 : option string;
  checksums_sha256 : option Sha256Digest;
}.

Record Metadata := mk_Metadata {
  metadata_version : N;
  metadata_descriptor_key : string;
  metadata_object_sha256 : Sha256Digest;
  metadata_size : N;
  metadata_upstream_md5 : option string;
  metadata_upstream_sha256 : option Sha256Digest;
  metadata_verification_strength : string;
}.

(** What is written: every digest as text. *)
Record MetadataFile := mk_MetadataFile {
  file_version : N;
  file_descriptor_key : string;
  file_object_sha256 : string;
  file_size : N;
  file_upstream_md5 : option string;
  file_upstream_sha256 : option string;
  file_verification_strength : string;
}.

(** ** Checksums ([metadata.rs]) *)

Definition validate_md5 (value : string) : result unit CacheError :=
  if negb (bool_decide (str_len value = 32)) || negb (forallb is_ascii_hexdigit (bytes value))
  then Err (MalformedChecksum "md5" value)
  else Ok tt.

(** The loop body: the two declarations found so far. *)
Definition add_checksum (found : Checksums) (value : UpstreamChecksum) :
    result Checksums CacheError :=
  match value with
  | Md5 value =>
    let? _ := validate_md5 value in
    let canonical := to_ascii_lowercase value in
    if match checksums_md5 found with
       | Some existing => negb (bool_decide (existing = canonical)) | None => false end
    then Err (ConflictingChecksum "md5")
    else Ok (mk_Checksums (Some canonical) (checksums_sha256 found))
  | ChecksumSha256 value =>
    if match checksums_sha256 found with
       | Some existing => negb (existing =?= value) | None => false end
    then Err (ConflictingChecksum "sha256")
    else Ok (mk_Checksums (checksums_md5 found) (Some value))
  | Other algorithm _ =>
    let lower := to_ascii_lowercase algorithm in
    if bool_decide (lower = "md5")
    then Err (MalformedChecksum "md5" "unsupported declaration shape")
    else if bool_decide (lower = "sha256") || bool_decide (lower = "sha-256")
    then Err (MalformedChecksum "sha256" "unsupported declaration shape")
    else Err (UnsupportedChecksum algorithm)
  end.

Definition validate_checksums (values : list UpstreamChecksum) : result Checksums CacheError :=
  try_fold add_checksum (mk_Checksums None None) values.

Definition verification_strength (checksums : Checksums) : string :=
  match checksums_md5 checksums, checksums_sha256 checksums with
  | None, None => "none"
  | Some _, None => "upstream-md5"
  | None, Some _ => "upstream-sha256"
  | Some _, Some _ => "upstream-md5-and-sha256"
  end.

(** ** The key of a descriptor *)

Definition append_field (output value : list byte) : list byte :=
  output ++ u64_to_le_bytes (len_u64 value) ++ value.

(** [hex_lower] of [util.rs]. *)
Definition hex_lower (l : list byte) : string :=
  from_utf8 (mjoin ((λ b, [hex_digit (N.shiftr (u8 b) 4); hex_digit (N.land (u8 b) 15)]) <$> l)).

Definition text_or_empty (o : option string) : list byte := bytes (default "" o).

(** What [descriptor_key] hashes. *)
Definition descriptor_bytes (artifact : SourceArtifact) (checksums : Checksums) : list byte :=
  let bytes0 := bytes "rsolve/source-artifact/v1" ++ [byte_of 0] in
  let bytes1 := append_field bytes0 (bytes (Identifier_as_str (locator artifact))) in
  let bytes2 := append_field bytes1 (text_or_empty (checksums_md5 checksums)) in
  let bytes3 := append_field bytes2
    (text_or_empty (Sha256Digest_as_str <$> checksums_sha256 checksums)) in
  append_field bytes3 (text_or_empty (N_to_string <$> size artifact)).

(** What [descriptor_key_with_expectation] hashes. *)
Definition expectation_bytes (artifact : SourceArtifact) (checksums : Checksums)
    (expectation : ArtifactValidationExpectation) : list byte :=
  let bytes0 := bytes "rsolve/source-artifact/identity/v2" ++ [byte_of 0] in
  let bytes1 := append_field bytes0 (bytes (Identifier_as_str (locator artifact))) in
  let bytes2 := append_field bytes1 (text_or_empty (checksums_md5 checksums)) in
  let bytes3 := append_field bytes2
    (text_or_empty (Sha256Digest_as_str <$> checksums_sha256 checksums)) in
  let bytes4 := append_field bytes3 (text_or_empty (N_to_string <$> size artifact)) in
  let bytes5 := append_field bytes4 (bytes (PackageName_as_str (expected_package expectation))) in
  let bytes6 := append_field bytes5 (bytes "version-components") in
  let version := expected_version expectation in
  let count := RPackageVersion_canonical_component_count version in
  let bytes7 := append_field bytes6 (u64_to_le_bytes (N.of_nat count)) in
  let bytes8 := foldl (λ output component, append_field output (le_bytes 4 component)) bytes7
    (take count (RPackageVersion_components version)) in
  match git_provenance expectation with
  | Some git =>
    let bytes9 := append_field bytes8 (bytes "git") in
    let bytes10 := append_field bytes9 (bytes (NormalizedGitUrl_as_str (expected_repository git))) in
    let bytes11 := append_field bytes10 (bytes (GitCommitId_as_str (expected_commit git))) in
    append_field bytes11 (text_or_empty (RepositorySubdir_as_str <$> expected_subdirectory git))
  | None => append_field bytes8 (bytes "registry")
  end.

Definition descriptor_key `{Sha2} (artifact : SourceArtifact) (checksums : Checksums) : string :=
  hex_lower (sha256_digest (descriptor_bytes artifact checksums)).

Definition descriptor_key_with_expectation `{Sha2} (artifact : SourceArtifact)
    (checksums : Checksums) (expectation : option ArtifactValidationExpectation) : string :=
  match expectation with
  | None => descriptor_key artifact checksums
  | Some expectation => hex_lower (sha256_digest (expectation_bytes artifact checksums expectation))
  end.

(** ** Paths ([paths.rs]) *)

Record CachePaths := mk_CachePaths {
  paths_lock : Path;
  paths_object_dir : Path;
  paths_metadata : Path;
  paths_lock_dir : Path;
}.

(** [&text[..2]] *)
Definition shard_of (text : string) : string := from_utf8 (take 2 (bytes text)).

Definition CachePaths_new (root : Path) (descriptor_key : string) : CachePaths :=
  let shard := shard_of descriptor_key in
  let lock_dir := path_join root ["locks"; "objects"; "sha256"; shard] in
  mk_CachePaths (path_join lock_dir [descriptor_key +:+ ".lock"])
    (path_join root ["objects"; "sources"; "sha256"])
    (path_join root ["artifacts"; "sources"; "sha256"; shard; descriptor_key +:+ ".json"])
    lock_dir.

Definition CachePaths_object (self : CachePaths) (digest : Sha256Digest) : Path :=
  path_join (paths_object_dir self)
    [shard_of (Sha256Digest_as_str digest); Sha256Digest_as_str digest].

Definition CachePaths_object_lock (self : CachePaths) (digest : Sha256Digest) : Path :=
  path_join (path_parent (paths_lock_dir self))
    [shard_of (Sha256Digest_as_str digest); Sha256Digest_as_str digest +:+ ".object.lock"].

Definition cached_artifact (paths : CachePaths) (metadata : Metadata) : CachedArtifact :=
  mk_CachedArtifact (CachePaths_object paths (metadata_object_sha256 metadata))
    (paths_metadata paths) (metadata_object_sha256 metadata) (metadata_size metadata)
    (match metadata_upstream_md5 metadata, metadata_upstream_sha256 metadata with
     | None, None => StrengthNone
     | Some _, None => UpstreamMd5
     | None, Some _ => UpstreamSha256
     | Some _, Some _ => UpstreamMd5AndSha256
     end).

(** ** Files ([util.rs], [paths.rs], [metadata.rs]) *)

Section files.
Context `{Schedule, !Json MetadataFile}.

Definition cache (T : Type) := stateful Fs T CacheError.

(** [map_err(|source| CacheError::Io { .. })]. *)
Definition io_at {T} (operation : string) (path : Path) (m : io T) : cache T :=
  st_map_err (CacheIo operation path) m.

Definition open_file (path : Path) (create_new : bool) (operation : string) : cache unit :=
  io_at operation path (if create_new then open_new path else open_or_create path).

Definition make_read_only (path : Path) : cache unit :=
  let! _ := io_at "inspect published object" path (permissions path) in
  io_at "make published object read-only" path (set_readonly path).

Definition sync_directory (path : Path) : cache unit :=
  let! outcome := st_outcome (let! _ := open_read path in sync_all) in
  match outcome with
  | Ok _ => st_ret tt
  | Err source =>
    if bool_decide (io_kind source = KindInvalidInput)
       || bool_decide (io_kind source = KindUnsupported)
    then st_ret tt
    else st_err (CacheIo "sync cache directory" path source)
  end.

Definition create_cache_directories (paths : CachePaths) : cache unit :=
  st_try_fold (λ _ directory, io_at "create cache directory" directory (create_dir_all directory))
    tt [paths_lock_dir paths; paths_object_dir paths; path_parent (paths_metadata paths)].

(** [OpenOptions ... .open(path)] and [lock()] of a lock file. *)
Definition take_lock (create_operation lock_operation : string) (path : Path) : cache unit :=
  let! _ := io_at create_operation path (open_or_create path) in
  io_at lock_operation path file_lock.

Definition metadata_file (metadata : Metadata) : MetadataFile :=
  mk_MetadataFile (metadata_version metadata) (metadata_descriptor_key metadata)
    (Sha256Digest_as_str (metadata_object_sha256 metadata)) (metadata_size metadata)
    (metadata_upstream_md5 metadata) (Sha256Digest_as_str <$> metadata_upstream_sha256 metadata)
    (metadata_verification_strength metadata).

(** The closure of [commit_metadata]. *)
Definition publish_metadata (temp path : Path) (encoded : list byte) : cache unit :=
  let! _ := io_at "write metadata temporary" temp (write_all temp encoded) in
  let! _ := io_at "sync metadata temporary" temp sync_all in
  let! _ := io_at "commit artifact metadata" path (rename temp path) in
  sync_directory (path_parent path).

(** [if result.is_err() { let _ = cleanup; } result] *)
Definition cleanup_on_error {T E : Type} (cleanup : stateful Fs unit E) (m : stateful Fs T E) :
    stateful Fs T E :=
  let! outcome := st_outcome m in
  match outcome with
  | Ok x => st_ret x
  | Err e => let! _ := cleanup in st_err e
  end.

Definition commit_metadata (path : Path) (metadata : Metadata) : cache unit :=
  let! n := nonce in
  let temp := with_file_name path (path_file_name path +:+ ".tmp." +:+ n) in
  let! _ := open_file temp true "create metadata temporary" in
  let! encoded := st_lift (map_err (CacheInvalidMetadata temp)
    (json_to_vec_pretty (metadata_file metadata))) in
  cleanup_on_error (st_ignore (remove_file temp)) (publish_metadata temp path encoded).

(** The checks of [read_metadata] on a decoded file. *)
Definition validate_metadata (path : Path) (file : MetadataFile) : result Metadata CacheError :=
  if negb (N.eqb (file_version file) 1)
  then Err (CacheInvalidMetadata path "unknown metadata version")
  else
    let? object_sha256 := map_err (λ _, CacheInvalidMetadata path "invalid object digest")
      (Sha256Digest_new (file_object_sha256 file)) in
    let? upstream_md5 :=
      match file_upstream_md5 file with
      | Some value => let? _ := validate_md5 value in Ok (Some (to_ascii_lowercase value))
      | None => Ok None
      end in
    let? upstream_sha256 :=
      match file_upstream_sha256 file with
      | Some value =>
        map_err (λ _, CacheInvalidMetadata path "invalid upstream SHA-256")
          (result_map Some (Sha256Digest_new value))
      | None => Ok None
      end in
    let expected_strength := verification_strength (mk_Checksums upstream_md5 upstream_sha256) in
    if negb (bool_decide (file_verification_strength file = expected_strength))
    then Err (CacheInvalidMetadata path "verification strength does not match checksum fields")
    else Ok (mk_Metadata (file_version file) (file_descriptor_key file) object_sha256
               (file_size file) upstream_md5 upstream_sha256 (file_verification_strength file)).

Definition read_metadata (path : Path) : cache Metadata :=
  let! contents := io_at "read artifact metadata" path (read_to_string path) in
  let! file := st_lift (map_err (CacheInvalidMetadata path) (json_from_str contents)) in
  st_lift (validate_metadata path file).
End files.
