(* ===== verification/Input.v ===== *)
(** * The bounded copy of a download ([rsolve-repository/src/input.rs])

    The loop that streams an artifact into its partial file and hashes it.  The
    reader and the writer are any: the theorems say that the loop ends whatever
    they do, what it copies, and that it never takes more than one byte over the
    limit. *)

From S2P Require Import Prelude Effects RustStd Text Externals FileSystem Names Cache.

(** [u64::saturating_add] *)
Definition u64_saturating_add (a b : N) : N := N.min u64_max (a + b).

Section copy.
Context `{Sha2, Md5Sum, !DigestStream sha256_digest, !DigestStream md5_digest}.
Context {R W : Type} (read : nat → stateful R (list byte) IoError).
Context (write_all : list byte → stateful W unit IoError).

(** The arguments the loop changes, and its [size]. *)
Record CopyState := mk_CopyState {
  copy_reader : R;
  copy_output : W;
  copy_sha256 : Hasher sha256_digest;
  copy_md5 : Hasher md5_digest;
  copy_size : N;
}.

Definition BUFFER_LEN : N := 65536.

(** The body of the loop; [limit] is [expected.unwrap_or(hard_limit)]. *)
Definition copy_step (expected : option N) (hard_limit limit : N) (partial : Path)
    (s : CopyState) : CopyState + result N CacheError * CopyState :=
  let size := copy_size s in
  let at_limit := N.leb limit size in
  let capacity := if at_limit then 1 else N.to_nat (N.min (limit - size) BUFFER_LEN) in
  match read capacity (copy_reader s) with
  | (Err source, reader) =>
    inr (Err (CacheIo "read artifact stream" partial source),
         mk_CopyState reader (copy_output s) (copy_sha256 s) (copy_md5 s) size)
  | (Ok [], reader) =>
    let s := mk_CopyState reader (copy_output s) (copy_sha256 s) (copy_md5 s) size in
    match expected with
    | Some expected =>
      if negb (N.eqb size expected) then inr (Err (SizeMismatch expected size), s)
      else inr (Ok size, s)
    | None => inr (Ok size, s)
    end
  | (Ok chunk, reader) =>
    match write_all chunk (copy_output s) with
    | (Err source, output) =>
      inr (Err (CacheIo "write partial artifact" partial source),
           mk_CopyState reader output (copy_sha256 s) (copy_md5 s) size)
    | (Ok _, output) =>
      let s := mk_CopyState reader output (Hasher_update sha256_digest (copy_sha256 s) chunk)
                 (Hasher_update md5_digest (copy_md5 s) chunk)
                 (u64_saturating_add size (len_u64 chunk)) in
      if at_limit then
        inr (Err (match expected with
                  | Some expected => SizeMismatch expected (copy_size s)
                  | None => InputTooLarge hard_limit
                  end), s)
      else inl s
    end
  end.

(** The loop; one step more than the limit is enough ([copy_loop_terminates]), so the
    last case of [copy_compressed_input] is not reached. *)
Definition copy_loop (expected : option N) (hard_limit : N) (partial : Path) (s : CopyState) :
    CopyState + result N CacheError * CopyState :=
  let limit := default hard_limit expected in
  run_steps (N.succ_pos (limit + 1)) (copy_step expected hard_limit limit partial) s.

Definition copy_compressed_input (expected : option N) (hard_limit : N) (partial : Path)
    (reader : R) (output : W) (sha256 : Hasher sha256_digest) (md5 : Hasher md5_digest) :
    result N CacheError * CopyState :=
  match copy_loop expected hard_limit partial (mk_CopyState reader output sha256 md5 0) with
  | inr outcome => outcome
  | inl s => (Ok (copy_size s), s)
  end.

(** ** The loop ends *)

Lemma copy_step_size expected hard_limit limit partial s s' :
  (limit ≤ u64_max)%N → copy_step expected hard_limit limit partial s = inl s' →
  (copy_size s < limit)%N ∧ (copy_size s < copy_size s')%N.
Proof.
  intros Hlimit. unfold copy_step. destruct (read _ _) as [[[|b chunk]|e] r]; [by repeat case_match| |done].
  destruct (write_all _ _) as [[]]; [|done]. destruct (N.leb_spec limit (copy_size s)); [done|].
  intros [= <-]. cbn [copy_size]. unfold u64_saturating_add, len_u64. simpl length. lia.
Qed.

Lemma copy_loop_ends expected hard_limit partial s :
  (default hard_limit expected ≤ u64_max)%N →
  ∃ outcome, copy_loop expected hard_limit partial s = inr outcome.
Proof.
  intros Hlimit. unfold copy_loop. rewrite run_steps_iterate.
  apply (iterate_ends _ (λ s, N.to_nat (default hard_limit expected - copy_size s))).
  - intros s0 s1 E. apply copy_step_size in E; [|done]. lia.
  - lia.
Qed.

(** ** What has been copied *)

(** The loop state after [chunks]. *)
Definition copied (sha256 : Hasher sha256_digest) (md5 : Hasher md5_digest)
    (chunks : list (list byte)) (s : CopyState) : Prop :=
  copy_sha256 s = foldl (Hasher_update sha256_digest) sha256 chunks ∧
  copy_md5 s = foldl (Hasher_update md5_digest) md5 chunks ∧
  copy_size s = N.min u64_max (len_u64 (mjoin chunks)).

Lemma saturating_length a (chunk : list byte) (chunks : list (list byte)) :
  a = N.min u64_max (len_u64 (mjoin chunks)) →
  u64_saturating_add a (len_u64 chunk) = N.min u64_max (len_u64 (mjoin (chunks ++ [chunk]))).
Proof.
  intros ->. unfold u64_saturating_add, len_u64. rewrite join_app, length_app. simpl.
  rewrite app_nil_r. lia.
Qed.

Section invariant.
(** [Copied d w]: the output [w] holds the bytes [d]; [Broken w] is what a
    failed write leaves. *)
Context (Copied : list byte → W → Prop) (Broken : W → Prop).
Hypothesis Copied_write : ∀ d c w, Copied d w →
  match write_all c w with (Ok _, w') => Copied (d ++ c) w' | (Err _, w') => Broken w' end.

Definition copy_good sha256 md5 (s : CopyState) : Prop :=
  ∃ chunks, copied sha256 md5 chunks s ∧ Copied (mjoin chunks) (copy_output s).

(** What holds when the loop is left. *)
Definition copy_done (expected : option N) sha256 md5 (outcome : result N CacheError * CopyState) :
    Prop :=
  match outcome.1 with
  | Ok n => copy_good sha256 md5 outcome.2 ∧ n = copy_size outcome.2 ∧
      ∀ e, expected = Some e → n = e
  | Err _ => Broken (copy_output outcome.2) ∨ copy_good sha256 md5 outcome.2
  end.

Lemma copy_step_good expected hard_limit limit partial sha256 md5 s :
  copy_good sha256 md5 s →
  match copy_step expected hard_limit limit partial s with
  | inl s' => copy_good sha256 md5 s'
  | inr outcome => copy_done expected sha256 md5 outcome
  end.
Proof.
  intros (chunks & (Hsha & Hmd5 & Hsize) & Hout). unfold copy_step.
  assert (∀ r, copy_good sha256 md5 (mk_CopyState r (copy_output s) (copy_sha256 s) (copy_md5 s)
    (copy_size s))) as Hsame.
  { intros r. exists chunks. unfold copied. by split_and!. }
  destruct (read _ _) as [[[|b chunk]|e] r].
  - destruct expected as [e|]; [destruct (N.eqb_spec (copy_size s) e)|]; cbn [negb]; unfold copy_done;
      cbn [fst snd]; [|right; apply Hsame|].
    + split_and!; [apply Hsame|done|]. by intros ? [= <-].
    + split_and!; [apply Hsame|done|done].
  - pose proof (Copied_write _ (b :: chunk) _ Hout) as Hw.
    destruct (write_all _ _) as [[[]|e] w]; [|by left].
    assert (copy_good sha256 md5 (mk_CopyState r w
      (Hasher_update sha256_digest (copy_sha256 s) (b :: chunk))
      (Hasher_update md5_digest (copy_md5 s) (b :: chunk))
      (u64_saturating_add (copy_size s) (len_u64 (b :: chunk))))) as Hnext.
    { exists (chunks ++ [b :: chunk]). unfold copied. cbn [copy_sha256 copy_md5 copy_size copy_output].
      rewrite !foldl_app, Hsha, Hmd5. split_and!; [done..|by apply saturating_length|].
      rewrite join_app. cbn [mjoin list_join]. by rewrite app_nil_r. }
    destruct (N.leb _ _); [by right|done].
  - right. apply Hsame.
Qed.

Lemma copy_compressed_input_good expected hard_limit partial reader output sha256 md5 :
  (default hard_limit expected ≤ u64_max)%N → Copied [] output →
  copy_done expected sha256 md5
    (copy_compressed_input expected hard_limit partial reader output sha256 md5).
Proof.
  intros Hlimit Hout. unfold copy_compressed_input.
  destruct (copy_loop_ends expected hard_limit partial (mk_CopyState reader output sha256 md5 0) Hlimit)
    as [outcome E]. rewrite E. unfold copy_loop in E. rewrite run_steps_iterate in E.
  eapply (iterate_invariant _ (copy_good sha256 md5)); [..|exact E].
  - intros s s' Hs Es. pose proof (copy_step_good expected hard_limit (default hard_limit expected)
      partial _ _ _ Hs) as Hg. by rewrite Es in Hg.
  - intros s t Hs Es. pose proof (copy_step_good expected hard_limit (default hard_limit expected)
      partial _ _ _ Hs) as Hg. by rewrite Es in Hg.
  - exists []. split; [|done]. unfold copied. split_and!; [done..|]. reflexivity.
Qed.
End invariant.

(** ** The exact outcome

    For a reader that delivers [data] in pieces of any size, and a writer that
    appends. *)

(** Every read delivers a piece of what is left, an empty one only at the end. *)
Inductive delivers (reader : R) (data : list byte) : Prop :=
| delivers_reads :
    (∀ capacity, 0 < capacity → ∃ chunk reader' rest,
       read capacity reader = (Ok chunk, reader') ∧ data = chunk ++ rest ∧
       length chunk ≤ capacity ∧ (chunk = [] → data = []) ∧
       (data ≠ [] → delivers reader' rest)) →
    delivers reader data.

Definition copy_result (expected : option N) (hard_limit total : N) : result N CacheError :=
  match expected with
  | Some expected =>
    if N.eqb total expected then Ok expected
    else Err (SizeMismatch expected (N.min total (u64_saturating_add expected 1)))
  | None => if N.leb total hard_limit then Ok total else Err (InputTooLarge hard_limit)
  end.

Section exact.
Context (written : W → list byte).
Hypothesis write_all_appends : ∀ chunk w, ∃ w',
  write_all chunk w = (Ok tt, w') ∧ written w' = written w ++ chunk.
Context (expected : option N) (hard_limit : N) (partial : Path) (output : W).
Context (sha256 : Hasher sha256_digest) (md5 : Hasher md5_digest) (data : list byte).
Let limit := default hard_limit expected.
Hypothesis limit_u64 : (limit ≤ u64_max)%N.

(** [pre] is copied, [rest] is not. *)
Definition copying (chunks : list (list byte)) (rest : list byte) (s : CopyState) : Prop :=
  copied sha256 md5 chunks s ∧ written (copy_output s) = written output ++ mjoin chunks ∧
  data = mjoin chunks ++ rest.

Definition copy_exact (outcome : result N CacheError * CopyState) : Prop :=
  outcome.1 = copy_result expected hard_limit (len_u64 data) ∧
  ∃ chunks rest, copying chunks rest outcome.2 ∧
    mjoin chunks = take (S (N.to_nat limit)) data.

Lemma copying_end chunks s :
  copying chunks [] s → (len_u64 (mjoin chunks) ≤ limit)%N →
  mjoin chunks = take (S (N.to_nat limit)) data.
Proof.
  intros (_ & _ & ->) Hlen. rewrite app_nil_r. symmetry. apply take_ge. unfold len_u64 in Hlen. lia.
Qed.

Lemma copying_next chunks rest chunk rest' s r w :
  copying chunks rest s → rest = chunk ++ rest' → written w = written (copy_output s) ++ chunk →
  copying (chunks ++ [chunk]) rest'
    (mk_CopyState r w (Hasher_update sha256_digest (copy_sha256 s) chunk)
       (Hasher_update md5_digest (copy_md5 s) chunk)
       (u64_saturating_add (copy_size s) (len_u64 chunk))).
Proof.
  intros ((Hsha & Hmd5 & Hsize) & Hout & Hdata) -> Hw. unfold copying, copied.
  cbn [copy_sha256 copy_md5 copy_size copy_output].
  rewrite !foldl_app, Hsha, Hmd5, Hw, Hout, (saturating_length _ _ _ Hsize), Hdata.
  rewrite join_app. cbn [mjoin list_join]. by rewrite app_nil_r, <-!app_assoc.
Qed.

Lemma copy_step_exact chunks rest s :
  copying chunks rest s → delivers (copy_reader s) rest → (len_u64 (mjoin chunks) ≤ limit)%N →
  match copy_step expected hard_limit limit partial s with
  | inl s' => ∃ chunks' rest', copying chunks' rest' s' ∧ delivers (copy_reader s') rest' ∧
                (len_u64 (mjoin chunks') ≤ limit)%N
  | inr outcome => copy_exact outcome
  end.
Proof.
  intros Hc [Hd] Hlen. pose proof Hc as ((_ & _ & Hsize) & _ & Hdata).
  rewrite N.min_r in Hsize by lia. unfold copy_step. rewrite Hsize.
  set (capacity := if N.leb limit _ then _ else _).
  assert (0 < capacity ∧ ((limit ≤ len_u64 (mjoin chunks))%N → capacity = 1) ∧
    (len_u64 (mjoin chunks) < limit →
       N.of_nat capacity ≤ limit - len_u64 (mjoin chunks))%N) as (Hcap & Hat & Hbelow).
  { unfold capacity, BUFFER_LEN. destruct (N.leb_spec limit (len_u64 (mjoin chunks))); lia. }
  destruct (Hd capacity Hcap) as (chunk & r & rest' & -> & Hrest & Hchunk & Hend & Hnext).
  clearbody capacity. destruct chunk as [|b chunk].
  - rewrite (Hend eq_refl) in Hdata, Hc. clear Hend Hnext. apply copying_end in Hc as Htake; [|done].
    rewrite app_nil_r in Hdata. unfold copy_exact, copy_result.
    assert (len_u64 data = len_u64 (mjoin chunks)) as -> by by rewrite Hdata.
    assert (copying chunks [] (mk_CopyState r (copy_output s) (copy_sha256 s) (copy_md5 s)
      (len_u64 (mjoin chunks)))) as Hc'.
    { destruct Hc as ((? & ? & ?) & ? & ?). unfold copying, copied.
      cbn [copy_sha256 copy_md5 copy_size copy_output]. split_and!; [done..|lia|done|done]. }
    destruct expected as [e|].
    + destruct (N.eqb_spec (len_u64 (mjoin chunks)) e) as [He|Hne]; cbn [negb fst snd].
      * split; [by rewrite He|by eauto].
      * split; [|by eauto]. do 2 f_equal. unfold u64_saturating_add.
        change limit with e in Hlen, limit_u64. lia.
    + cbn [fst snd]. split; [|by eauto]. by rewrite (proj2 (N.leb_le _ _)).
  - destruct (write_all_appends (b :: chunk) (copy_output s)) as (w & -> & Hw).
    pose proof (copying_next chunks rest (b :: chunk) rest' s r w Hc Hrest Hw) as Hc'.
    rewrite Hsize in Hc'.
    assert (len_u64 (mjoin (chunks ++ [b :: chunk])) = len_u64 (mjoin chunks) + len_u64 (b :: chunk))%N
      as Hlen'.
    { unfold len_u64. rewrite join_app, length_app. simpl. rewrite app_nil_r. simpl. lia. }
    destruct (N.leb_spec limit (len_u64 (mjoin chunks))) as [Hl|Hl].
    + specialize (Hat Hl). assert (chunk = []) as -> by (destruct chunk; simpl in Hchunk; [done|lia]).
      split.
      * cbn [fst copy_size]. destruct Hc' as (_ & _ & Hd').
        assert (limit < len_u64 data)%N as Hover.
        { change (len_u64 [b]) with 1%N in Hlen'. rewrite Hd'. unfold len_u64 in *.
          rewrite length_app. lia. }
        unfold copy_result, u64_saturating_add. replace (len_u64 (mjoin chunks)) with limit by lia.
        change (len_u64 [b]) with 1%N.
        destruct expected as [e|].
        -- change limit with e in limit_u64, Hover |- *. rewrite (proj2 (N.eqb_neq _ _)) by lia. do 2 f_equal. lia.
        -- change limit with hard_limit in Hover. by rewrite (proj2 (N.leb_gt _ _)).
      * exists (chunks ++ [[b]]), rest'. split; [exact Hc'|]. destruct Hc' as (_ & _ & ->).
        change (len_u64 [b]) with 1%N in Hlen'. unfold len_u64 in *.
        by rewrite take_app_length' by lia.
    + exists (chunks ++ [b :: chunk]), rest'. split_and!; [exact Hc'| |].
      * cbn [copy_reader]. apply Hnext. by rewrite Hrest.
      * specialize (Hbelow Hl). rewrite Hlen'. unfold len_u64 in *. lia.
Qed.

Lemma copy_compressed_input_exact reader :
  delivers reader data →
  copy_exact (copy_compressed_input expected hard_limit partial reader output sha256 md5).
Proof.
  intros Hd. unfold copy_compressed_input.
  destruct (copy_loop_ends expected hard_limit partial (mk_CopyState reader output sha256 md5 0)
    limit_u64) as [outcome E]. rewrite E. unfold copy_loop in E. rewrite run_steps_iterate in E.
  apply (iterate_invariant _ (λ s, ∃ chunks rest, copying chunks rest s ∧
    delivers (copy_reader s) rest ∧ (len_u64 (mjoin chunks) ≤ limit)%N) copy_exact) in E; [done|..].
  - intros s s' (chunks & rest & Hc & Hr & Hl) Es.
    pose proof (copy_step_exact chunks rest s Hc Hr Hl) as Hstep. fold limit in Es. by rewrite Es in Hstep.
  - intros s t (chunks & rest & Hc & Hr & Hl) Es.
    pose proof (copy_step_exact chunks rest s Hc Hr Hl) as Hstep. fold limit in Es. by rewrite Es in Hstep.
  - exists [], data. split_and!; [|done|unfold len_u64; simpl; lia].
    unfold copying, copied. cbn. by rewrite app_nil_r.
Qed.
End exact.

(** ** The iterations of the loop *)

(** The states at which iterations of the loop start, the last of which ends it. *)
Inductive copy_run (expected : option N) (hard_limit : N) (partial : Path) :
    CopyState → list CopyState → result N CacheError * CopyState → Prop :=
| copy_run_ends s outcome :
    copy_step expected hard_limit (default hard_limit expected) partial s = inr outcome →
    copy_run expected hard_limit partial s [s] outcome
| copy_run_next s s' states outcome :
    copy_step expected hard_limit (default hard_limit expected) partial s = inl s' →
    copy_run expected hard_limit partial s' states outcome →
    copy_run expected hard_limit partial s (s :: states) outcome.

Lemma copy_run_head expected hard_limit partial s states outcome :
  copy_run expected hard_limit partial s states outcome → ∃ rest, states = s :: rest.
Proof. intros []; eauto. Qed.

Lemma iterate_copy_run expected hard_limit partial n s outcome :
  iterate (copy_step expected hard_limit (default hard_limit expected) partial) n s = inr outcome →
  ∃ states, copy_run expected hard_limit partial s states outcome.
Proof.
  revert s. induction n as [|n IH]; intros s; simpl; [done|].
  destruct (copy_step _ _ _ _ s) as [s'|t] eqn:E.
  - intros (states & Hs)%IH. exists (s :: states). by econstructor.
  - intros [= ->]. exists [s]. by constructor.
Qed.

(** An ending step does not lower the counter either. *)
Lemma copy_step_final expected hard_limit limit partial s outcome :
  (copy_size s ≤ u64_max)%N → copy_step expected hard_limit limit partial s = inr outcome →
  (copy_size s ≤ copy_size outcome.2 ≤ u64_max)%N.
Proof.
  intros Hs. unfold copy_step. destruct (read _ _) as [[[|b chunk]|e] r].
  - repeat case_match; intros [= <-]; cbn [snd copy_size]; lia.
  - destruct (write_all _ _) as [[u|e] w]; [|intros [= <-]; cbn [snd copy_size]; lia].
    destruct (N.leb limit (copy_size s)); [|done]. intros [= <-]. cbn [snd copy_size].
    unfold u64_saturating_add. lia.
  - intros [= <-]. cbn [snd copy_size]. lia.
Qed.

(** A reader that fills no more than it is given moves the counter by what is left. *)
Definition fills_within : Prop :=
  ∀ capacity reader chunk reader', read capacity reader = (Ok chunk, reader') → length chunk ≤ capacity.

Lemma copy_step_within expected hard_limit limit partial s :
  fills_within → (copy_size s ≤ limit)%N →
  match copy_step expected hard_limit limit partial s with
  | inl s' => (copy_size s' ≤ limit)%N
  | inr outcome => (copy_size outcome.2 ≤ limit + 1)%N
  end.
Proof.
  intros Hread Hs. unfold copy_step. destruct (N.leb_spec limit (copy_size s)) as [Hl|Hl];
    (destruct (read _ _) as [[[|b chunk]|e] r] eqn:E;
      [destruct expected; [destruct (negb _)|]; cbn [snd copy_size]; lia| |cbn [snd copy_size]; lia]);
    apply Hread in E; (destruct (write_all _ _) as [[u|e] w]; [|cbn [snd copy_size]; lia]);
    cbn [snd copy_size]; unfold u64_saturating_add, len_u64; lia.
Qed.

Lemma copy_run_sizes expected hard_limit partial s states outcome :
  (default hard_limit expected ≤ u64_max)%N → (copy_size s ≤ u64_max)%N →
  copy_run expected hard_limit partial s states outcome →
  StronglySorted N.lt (copy_size <$> states) ∧
  Forall (λ s, copy_size s ≤ copy_size outcome.2)%N states ∧ (copy_size outcome.2 ≤ u64_max)%N ∧
  (copy_size s + N.of_nat (length states) ≤ N.max (default hard_limit expected) (copy_size s) + 1)%N.
Proof.
  intros Hlimit Hs Hrun. revert Hs. induction Hrun as [s outcome E|s s' states outcome E Hrun IH]; intros Hs.
  - apply copy_step_final in E as [? ?]; [|done]. split_and!; [repeat constructor|by constructor|done|simpl; lia].
  - pose proof E as [Hlt Hsize]%copy_step_size; [|done].
    destruct (copy_run_head _ _ _ _ _ _ Hrun) as [rest ->].
    assert (copy_size s' ≤ u64_max)%N as Hs'.
    { revert E. unfold copy_step. destruct (read _ _) as [[[|b chunk]|e] r]; [by repeat case_match| |done].
      destruct (write_all _ _) as [[]]; [|done]. destruct (N.leb _ _); [done|]. intros [= <-].
      cbn [copy_size]. unfold u64_saturating_add. lia. }
    destruct (IH Hs') as (Hsorted & Hall & Hmax & Hlen). split_and!; [..|done|cbn [length] in *; lia].
    + constructor; [exact Hsorted|]. cbn [fmap list_fmap] in Hsorted |- *.
      apply StronglySorted_inv in Hsorted as [_ Hgt]. constructor; [exact Hsize|].
      eapply Forall_impl; [exact Hgt|]. intros x Hx. lia.
    + inversion Hall; subst. constructor; [lia|done].
Qed.

Lemma copy_run_within expected hard_limit partial s states outcome :
  fills_within → (copy_size s ≤ default hard_limit expected)%N →
  copy_run expected hard_limit partial s states outcome →
  Forall (λ s, copy_size s ≤ default hard_limit expected)%N states ∧
  (copy_size outcome.2 ≤ default hard_limit expected + 1)%N.
Proof.
  intros Hread Hs Hrun. revert Hs. induction Hrun as [s outcome E|s s' states outcome E Hrun IH]; intros Hs;
    pose proof (copy_step_within expected hard_limit _ partial s Hread Hs) as Hstep; rewrite E in Hstep.
  - split; [by constructor|done].
  - destruct (IH Hstep). split; [by constructor|done].
Qed.

(** C30: the copy always ends, whatever the reader returns and whether or not writes fail: its
    loop makes at most one iteration more than there are bytes allowed.  The size it counts
    grows with every iteration and stays within 64 bits, so that it never wraps around; and
    with a reader that fills no more than it is asked to, it stays within the limit until the
    last iteration, and ends at most one byte over it. *)
Theorem copy_loop_terminates expected hard_limit partial reader output sha256 md5 :
  (default hard_limit expected ≤ u64_max)%N →
  ∃ states outcome,
    copy_run expected hard_limit partial (mk_CopyState reader output sha256 md5 0) states outcome ∧
    copy_compressed_input expected hard_limit partial reader output sha256 md5 = outcome ∧
    (N.of_nat (length states) ≤ default hard_limit expected + 1)%N ∧
    StronglySorted N.lt (copy_size <$> states) ∧
    Forall (λ s, copy_size s ≤ copy_size outcome.2)%N states ∧ (copy_size outcome.2 ≤ u64_max)%N ∧
    (fills_within → Forall (λ s, copy_size s ≤ default hard_limit expected)%N states ∧
       (copy_size outcome.2 ≤ default hard_limit expected + 1)%N).
Proof.
  intros Hlimit. set (s := mk_CopyState reader output sha256 md5 0).
  destruct (copy_loop_ends expected hard_limit partial s Hlimit) as [outcome E].
  pose proof E as E'. unfold copy_loop in E'. rewrite run_steps_iterate in E'.
  apply iterate_copy_run in E' as [states Hrun].
  assert (∀ n, copy_size s ≤ n)%N as Hzero by apply N.le_0_l.
  destruct (copy_run_sizes _ _ _ _ _ _ Hlimit (Hzero _) Hrun) as (Hsorted & Hall & Hmax & Hlen).
  exists states, outcome. split_and!; try done.
  - unfold copy_compressed_input. fold s. by rewrite E.
  - cbn [s copy_size] in Hlen. lia.
  - intros Hread. by eapply copy_run_within; [|apply Hzero|exact Hrun].
Qed.

(** C29: from a reader that delivers [data], in pieces of any size, the copy
    succeeds exactly when the length is the declared one, or within the hard
    limit when none is declared; what is written, and what the two digests are
    of, is the data up to one byte over the limit, never more. *)
Theorem copy_compressed_input_spec `{!DigestStreamLaws sha256_digest, !DigestStreamLaws md5_digest}
    (written : W → list byte) expected hard_limit partial reader output data :
  (∀ chunk w, ∃ w', write_all chunk w = (Ok tt, w') ∧ written w' = written w ++ chunk) →
  (default hard_limit expected ≤ u64_max)%N → delivers reader data →
  let taken := take (S (N.to_nat (default hard_limit expected))) data in
  let '(outcome, s) := copy_compressed_input expected hard_limit partial reader output
                         (Hasher_new sha256_digest) (Hasher_new md5_digest) in
  outcome = copy_result expected hard_limit (len_u64 data) ∧
  written (copy_output s) = written output ++ taken ∧
  Hasher_finalize sha256_digest (copy_sha256 s) = sha256_digest taken ∧
  Hasher_finalize md5_digest (copy_md5 s) = md5_digest taken ∧
  copy_size s = N.min (len_u64 taken) u64_max.
Proof.
  intros Hwrite Hlimit Hd taken.
  pose proof (copy_compressed_input_exact written Hwrite expected hard_limit partial output
    (Hasher_new sha256_digest) (Hasher_new md5_digest) data Hlimit reader Hd) as Hexact.
  destruct (copy_compressed_input _ _ _ _ _ _ _) as [outcome s].
  destruct Hexact as (Ho & chunks & rest & ((Hsha & Hmd5 & Hsize) & Hw & _) & Htake).
  cbn [fst snd] in *. fold taken in Htake.
  rewrite Hsha, Hmd5, !Hasher_finalize_chunks, Hw, Hsize, Htake. split_and!; try done. lia.
Qed.
End copy.
