(* ===== verification/Archive.v ===== *)
(** * Validation of a source archive ([rsolve-repository/src/archive.rs])

    The sanity limits on a gzip tar archive, the small DESCRIPTION reader, and
    the comparison of its fields with the release that is expected. *)

From S2P Require Import Prelude Effects RustStd Collections Text Externals FileSystem.
From S2P Require Import Versions Names GitUrl Cache.

(** ** Components of a path ([std::path] on Unix) *)

Inductive Component := RootDir | CurDir | ParentDir | Normal (name : list byte).
#[export] Instance Component_eq_dec : EqDecision Component.
Proof. solve_decision. Defined.

Definition component_of (piece : list byte) : option Component :=
  if bool_decide (piece = []) || bool_decide (piece = bytes ".") then None
  else if bool_decide (piece = bytes "..") then Some ParentDir
  else Some (Normal piece).

(** A dot counts only at the start of a relative path. *)
Definition path_components (p : list byte) : list Component :=
  let pieces := split_bytes (byte_is 47) p in
  let body := omap component_of pieces in
  if has_prefix (bytes "/") p then RootDir :: body
  else if bool_decide (head pieces = Some (bytes ".")) then CurDir :: body
  else body.

Definition is_absolute (p : list byte) : bool := has_prefix (bytes "/") p.

(** ** Archives ([flate2], [tar])

    The entries of what a reader delivers before its end or a failure.  An entry
    is its path, whether it is a regular file, and the bytes it delivers before
    its end or a failure; a failure is its [to_string()]. *)

Record ArchiveEntry := mk_ArchiveEntry {
  entry_path : result (list byte) string;
  entry_is_file : bool;
  entry_data : list byte;
  entry_failure : option string;
}.

Class SourceArchives := {
  archive_entries : list byte → option IoError → result (list (result ArchiveEntry string)) string;
}.

(** Reading at most [limit] bytes of an entry. *)
Definition read_entry (limit : N) (e : ArchiveEntry) : result (list byte) string :=
  if N.leb limit (len_u64 (entry_data e)) then Ok (take (N.to_nat limit) (entry_data e))
  else match entry_failure e with None => Ok (entry_data e) | Some e => Err e end.

(** [io::copy] of at most [limit] bytes to a sink: how many. *)
Definition skip_entry (limit : N) (e : ArchiveEntry) : result N string :=
  result_map len_u64 (read_entry limit e).

(** ** The DESCRIPTION fields *)

Record DescriptionFields := mk_DescriptionFields {
  description_package : string;
  description_version : string;
  remote_url : option string;
  remote_sha : option string;
  remote_subdir : option string;
}.

(** The variables of the loop over the lines. *)
Record DescriptionState := mk_DescriptionState {
  values : list (string * string);
  current : option string;
  have_field : bool;
}.

Definition starts_with_whitespace (line : list byte) : bool :=
  match char_slices line with (c, _) :: _ => char_is_whitespace c | [] => false end.

Definition is_known_field (key : string) : bool :=
  bool_decide (key ∈ ["package"; "version"; "remoteurl"; "remotesha"; "remotesubdir"]).

Definition description_line (s : DescriptionState) (line : list byte) :
    result DescriptionState CacheError :=
  if match head line with Some b => byte_is 35 b | None => false end then Ok s
  else if bool_decide (trim_bytes line = []) then Ok s
  else if starts_with_whitespace line then
    if negb (have_field s)
    then Err (MalformedDescription "continuation has no preceding field")
    else match current s with
    | Some field =>
      let value := default "" (bt_get str_cmp field (values s)) in
      Ok (mk_DescriptionState
            (bt_insert str_cmp field (value +:+ " " +:+ from_utf8 (trim_bytes line)) (values s))
            (current s) (have_field s))
    | None => Ok s
    end
  else match split_once (byte_is 58) line with
  | None => Err (MalformedDescription "field is missing a colon")
  | Some (name, value) =>
    let key := to_ascii_lowercase (from_utf8 (trim_bytes name)) in
    if bool_decide (key = "") || existsb char_is_whitespace (chars (from_utf8 name))
    then Err (MalformedDescription "field name is malformed")
    else if negb (is_known_field key) then Ok (mk_DescriptionState (values s) None true)
    else if bool_decide (is_Some (bt_get str_cmp key (values s)))
    then Err (DuplicateDescriptionField key)
    else Ok (mk_DescriptionState
               (bt_insert str_cmp key (from_utf8 (trim_bytes value)) (values s)) (Some key) true)
  end.

Definition required_value (values : list (string * string)) (field : string) :
    result string CacheError :=
  match bt_get str_cmp field values with
  | Some value =>
    if bool_decide (value = "")
    then Err (MalformedDescription ("required field " +:+ field +:+ " is missing or empty"))
    else Ok value
  | None => Err (MalformedDescription ("required field " +:+ field +:+ " is missing or empty"))
  end.

Definition parse_description (input : list byte) : result DescriptionFields CacheError :=
  let? text := map_err (λ index, MalformedDescription
      ("DESCRIPTION is not valid UTF-8: " +:+ utf8_error_text input index))
    (str_from_utf8 input) in
  let? s := try_fold description_line (mk_DescriptionState [] None false) (str_lines (bytes text)) in
  let? package := required_value (values s) "package" in
  let? version := required_value (values s) "version" in
  Ok (mk_DescriptionFields package version (bt_get str_cmp "remoteurl" (values s))
        (bt_get str_cmp "remotesha" (values s)) (bt_get str_cmp "remotesubdir" (values s))).

(** ** The comparison with the expected release *)

Definition mismatch {T} (field expected actual : string) : result T CacheError :=
  Err (DescriptionFieldMismatch field expected actual).

Definition validate_remote_url (expected : NormalizedGitUrl) (actual : option string) :
    result unit CacheError :=
  match actual with
  | None => mismatch "RemoteUrl" (NormalizedGitUrl_as_str expected) "<missing>"
  | Some actual_url =>
    match NormalizedGitUrl_new actual_url with
    | Err error =>
      mismatch "RemoteUrl" (NormalizedGitUrl_as_str expected)
        (actual_url +:+ " (" +:+ NormalizedGitUrlError_fmt error +:+ ")")
    | Ok normalized_url =>
      if negb (normalized_url =?= expected)
      then mismatch "RemoteUrl" (NormalizedGitUrl_as_str expected)
             (NormalizedGitUrl_as_str normalized_url)
      else Ok tt
    end
  end.

Definition validate_remote_sha (expected : GitCommitId) (actual : option string) :
    result unit CacheError :=
  match actual with
  | None => mismatch "RemoteSha" (GitCommitId_as_str expected) "<missing>"
  | Some actual_sha =>
    match GitCommitId_new actual_sha with
    | Err error =>
      mismatch "RemoteSha" (GitCommitId_as_str expected)
        (actual_sha +:+ " (" +:+ GitCommitIdError_fmt error +:+ ")")
    | Ok parsed_sha =>
      if negb (parsed_sha =?= expected)
      then mismatch "RemoteSha" (GitCommitId_as_str expected) (GitCommitId_as_str parsed_sha)
      else Ok tt
    end
  end.

Definition validate_remote_subdir (expected : option RepositorySubdir) (actual : option string) :
    result unit CacheError :=
  match expected, actual with
  | Some expected_subdir, Some actual_subdir =>
    match RepositorySubdir_new actual_subdir with
    | Err error =>
      mismatch "RemoteSubdir" (RepositorySubdir_as_str expected_subdir)
        (actual_subdir +:+ " (" +:+ RepositorySubdirError_fmt error +:+ ")")
    | Ok parsed_subdir =>
      if negb (expected_subdir =?= parsed_subdir)
      then mismatch "RemoteSubdir" (RepositorySubdir_as_str expected_subdir)
             (RepositorySubdir_as_str parsed_subdir)
      else Ok tt
    end
  | Some expected_subdir, None =>
    mismatch "RemoteSubdir" (RepositorySubdir_as_str expected_subdir) "<missing>"
  | None, Some actual_subdir => mismatch "RemoteSubdir" "<absent>" actual_subdir
  | None, None => Ok tt
  end.

Definition reject_present (f : string * option string) : result unit CacheError :=
  match f.2 with Some value => mismatch f.1 "<absent>" value | None => Ok tt end.

Definition validate_description (fields : DescriptionFields)
    (expected : ArtifactValidationExpectation) : result unit CacheError :=
  if negb (bool_decide (description_package fields
             = PackageName_as_str (expected_package expected)))
  then mismatch "Package" (PackageName_as_str (expected_package expected))
         (description_package fields)
  else
    let? actual_version := map_err (λ error, MalformedDescription
        ("Version is invalid: " +:+ RPackageVersionError_fmt error))
      (RPackageVersion_parse (description_version fields)) in
    if negb (actual_version =?= expected_version expected)
    then mismatch "Version" (version_raw (expected_version expected)) (description_version fields)
    else match git_provenance expected with
    | Some git =>
      let? _ := validate_remote_url (expected_repository git) (remote_url fields) in
      let? _ := validate_remote_sha (expected_commit git) (remote_sha fields) in
      validate_remote_subdir (expected_subdirectory git) (remote_subdir fields)
    | None =>
      try_fold (λ _ f, reject_present f) tt
        [("RemoteUrl", remote_url fields); ("RemoteSha", remote_sha fields);
         ("RemoteSubdir", remote_subdir fields)]
    end.

(** ** The loop over the entries *)

Definition MAX_UNCOMPRESSED_BYTES : N := 268435456.
Definition MAX_ENTRIES : N := 100000.
Definition MAX_DESCRIPTION_BYTES : N := 1048576.

Record ArchiveState := mk_ArchiveState {
  archive_total : N;
  archive_count : N;
  archive_description : option DescriptionFields;
}.

Definition escapes_root (p : list byte) : bool :=
  is_absolute p ||
  existsb (λ c, match c with ParentDir | RootDir => true | _ => false end) (path_components p).

Definition is_description_path (expectation : option ArtifactValidationExpectation)
    (p : list byte) : bool :=
  match expectation with
  | Some expected =>
    bool_decide (path_components p =
      path_components (bytes (PackageName_as_str (expected_package expected) +:+ "/DESCRIPTION")))
  | None => false
  end.

(** [description_count] is 1 exactly when a description has been read. *)
Definition read_description (description : option DescriptionFields) (e : ArchiveEntry) :
    result (N * DescriptionFields) CacheError :=
  if bool_decide (is_Some description) then Err DuplicateDescription
  else if negb (entry_is_file e)
  then Err (MalformedDescription "DESCRIPTION entry is not a regular file")
  else
    let? data := map_err InvalidArchive (read_entry (MAX_DESCRIPTION_BYTES + 1) e) in
    if N.ltb MAX_DESCRIPTION_BYTES (len_u64 data)
    then Err (DescriptionTooLarge MAX_DESCRIPTION_BYTES)
    else let? fields := parse_description data in Ok (len_u64 data, fields).

Definition archive_step (expectation : option ArtifactValidationExpectation) (s : ArchiveState)
    (item : result ArchiveEntry string) : result ArchiveState CacheError :=
  if N.leb MAX_ENTRIES (archive_count s)
  then Err (InvalidArchive "archive contains too many entries")
  else
    let? entry := map_err InvalidArchive item in
    let? path := map_err InvalidArchive (entry_path entry) in
    if escapes_root path then Err (InvalidArchive "archive entry path escapes its root")
    else
      let remaining := (MAX_UNCOMPRESSED_BYTES - archive_total s)%N in
      let? (copied, description) :=
        if is_description_path expectation path then
          let? (copied, fields) := read_description (archive_description s) entry in
          Ok (copied, Some fields)
        else
          let? copied := map_err InvalidArchive (skip_entry (remaining + 1) entry) in
          Ok (copied, archive_description s) in
      let total := (archive_total s + copied)%N in
      if N.ltb remaining copied || N.ltb MAX_UNCOMPRESSED_BYTES total
      then Err (InvalidArchive "archive exceeds sanity-check size limit")
      else Ok (mk_ArchiveState total (archive_count s + 1) description).

Definition validate_entries (expectation : option ArtifactValidationExpectation)
    (entries : list (result ArchiveEntry string)) : result unit CacheError :=
  let? s := try_fold (archive_step expectation) (mk_ArchiveState 0 0 None) entries in
  if N.eqb (archive_count s) 0 then Err (InvalidArchive "archive contains no entries")
  else match expectation with
  | Some expected =>
    let? fields := ok_or MissingDescription (archive_description s) in
    validate_description fields expected
  | None => Ok tt
  end.

Definition validate_source_archive `{Schedule, SourceArchives} (path : Path)
    (expectation : option ArtifactValidationExpectation) : cache unit :=
  let! (data, failure) := io_at "open source archive for sanity check" path (read_stream path) in
  let! entries := st_lift (map_err InvalidArchive (archive_entries data failure)) in
  st_lift (validate_entries expectation entries).

(** ** What an accepted archive is *)

(** Read to its end without a failure, and inside the root. *)
Definition clean_entry (e : ArchiveEntry) : Prop :=
  entry_failure e = None ∧ ∃ p, entry_path e = Ok p ∧ escapes_root p = false.

Definition is_description_entry (expectation : option ArtifactValidationExpectation)
    (e : ArchiveEntry) : bool :=
  match entry_path e with Ok p => is_description_path expectation p | Err _ => false end.

Definition total_size (es : list ArchiveEntry) : N :=
  foldr (λ e n, len_u64 (entry_data e) + n)%N 0%N es.

(** The one DESCRIPTION, a small regular file with these fields. *)
Definition description_read (expectation : option ArtifactValidationExpectation)
    (es : list ArchiveEntry) (fields : DescriptionFields) : Prop :=
  ∃ e, List.filter (is_description_entry expectation) es = [e] ∧ entry_is_file e = true ∧
    (len_u64 (entry_data e) ≤ MAX_DESCRIPTION_BYTES)%N ∧
    parse_description (entry_data e) = Ok fields.

(** The state of the loop after [es]. *)
Record reads (expectation : option ArtifactValidationExpectation) (es : list ArchiveEntry)
    (s : ArchiveState) : Prop := {
  reads_clean : Forall clean_entry es;
  reads_count : archive_count s = N.of_nat (length es);
  reads_entries : (archive_count s ≤ MAX_ENTRIES)%N;
  reads_total : archive_total s = total_size es;
  reads_size : (archive_total s ≤ MAX_UNCOMPRESSED_BYTES)%N;
  reads_description :
    match archive_description s with
    | None => List.filter (is_description_entry expectation) es = []
    | Some fields => description_read expectation es fields
    end;
}.

Lemma total_size_app es es' : total_size (es ++ es') = (total_size es + total_size es')%N.
Proof. induction es as [|e es IH]; simpl; [done|]. rewrite IH. lia. Qed.

Lemma read_entry_all limit e data :
  (read_entry (limit + 1) e = Ok data ∧ len_u64 data ≤ limit)%N ↔
  entry_failure e = None ∧ data = entry_data e ∧ (len_u64 data ≤ limit)%N.
Proof.
  unfold read_entry, len_u64. destruct (N.leb_spec (limit + 1) (N.of_nat (length (entry_data e)))) as [Hl|Hl].
  - split.
    + intros [[= <-] H]. rewrite length_take in H. lia.
    + intros (_ & -> & H). lia.
  - destruct (entry_failure e); [split; [by intros []|by intros []]|].
    split; [intros [[= <-] H]; done|intros (_ & -> & H); done].
Qed.

Lemma skip_entry_all limit e n :
  (skip_entry (limit + 1) e = Ok n ∧ n ≤ limit)%N ↔
  entry_failure e = None ∧ n = len_u64 (entry_data e) ∧ (n ≤ limit)%N.
Proof.
  unfold skip_entry. split.
  - destruct (read_entry _ e) as [data|] eqn:E; [|by intros []]. intros [[= <-] H].
    destruct (proj1 (read_entry_all limit e data) (conj E H)) as (? & -> & ?). done.
  - intros (Hf & -> & H).
    destruct (proj2 (read_entry_all limit e (entry_data e))) as [-> _]; done.
Qed.

Lemma read_description_ok e n fields :
  read_description None e = Ok (n, fields) ↔
  entry_failure e = None ∧ n = len_u64 (entry_data e) ∧ entry_is_file e = true ∧
    (n ≤ MAX_DESCRIPTION_BYTES)%N ∧ parse_description (entry_data e) = Ok fields.
Proof.
  unfold read_description. rewrite bool_decide_eq_false_2 by by intros [? [=]].
  destruct (entry_is_file e); cbn [negb]; [|split; [done|by intros (_ & _ & [=] & _)]]. split.
  - intros (data & Hdata%map_err_ok & H)%result_bind_ok.
    destruct (N.ltb_spec MAX_DESCRIPTION_BYTES (len_u64 data)) as [|Hl]; [done|].
    apply result_bind_ok in H as (f & Hf & [= <- <-]).
    destruct (proj1 (read_entry_all _ e data) (conj Hdata Hl)) as (? & -> & ?). by split_and!.
  - intros (Hf & -> & _ & Hl & Hp).
    destruct (proj2 (read_entry_all _ e (entry_data e)) (conj Hf (conj eq_refl Hl))) as [-> _].
    cbn [map_err result_bind]. rewrite (proj2 (N.ltb_ge _ _)) by done. by rewrite Hp.
Qed.

Lemma description_entries_snoc expectation es e p :
  entry_path e = Ok p →
  List.filter (is_description_entry expectation) (es ++ [e]) =
    List.filter (is_description_entry expectation) es ++
      (if is_description_path expectation p then [e] else []).
Proof.
  intros Ep. rewrite List.filter_app. f_equal. simpl. unfold is_description_entry. by rewrite Ep.
Qed.

(** One step, both ways. *)
Lemma archive_step_reads expectation es s e s' :
  reads expectation es s → archive_step expectation s (Ok e) = Ok s' →
  reads expectation (es ++ [e]) s'.
Proof.
  intros [Hclean Hcount _ Htotal Hsize Hdesc]. unfold archive_step. cbn [map_err result_bind].
  destruct (N.leb_spec MAX_ENTRIES (archive_count s)) as [|Hentries]; [done|].
  destruct (entry_path e) as [p|] eqn:Ep; [|done]. cbn [map_err result_bind].
  destruct (escapes_root p) eqn:Eroot; [done|]. cbv zeta.
  intros ([copied description] & Hread & H)%result_bind_ok.
  match type of H with (if ?b then _ else _) = _ => destruct b eqn:Hover; [done|] end.
  apply orb_false_iff in Hover as [Hremaining%N.ltb_ge Hmax%N.ltb_ge]. injection H as <-.
  pose proof (description_entries_snoc expectation es e p Ep) as Hfilter.
  assert (entry_failure e = None ∧ copied = len_u64 (entry_data e) ∧
    match description with
    | None => List.filter (is_description_entry expectation) (es ++ [e]) = []
    | Some fields => description_read expectation (es ++ [e]) fields
    end) as (Hfail & -> & Hnew).
  { destruct (is_description_path expectation p).
    - apply result_bind_ok in Hread as ([n fields] & Hread & [= <- <-]).
      destruct (archive_description s) as [|]; [done|].
      apply read_description_ok in Hread as (? & -> & ? & ? & ?). split_and!; [done..|].
      exists e. by rewrite Hfilter, Hdesc.
    - apply result_bind_ok in Hread as (n & Hn%map_err_ok & [= <- <-]).
      destruct (proj1 (skip_entry_all _ e n) (conj Hn Hremaining)) as (? & -> & _).
      split_and!; [done..|]. destruct (archive_description s); unfold description_read;
        by rewrite Hfilter, app_nil_r. }
  constructor; cbn [archive_count archive_total archive_description]; [| | | |done|exact Hnew].
  - apply Forall_app. split; [done|]. apply Forall_singleton. split; [done|]. by exists p.
  - rewrite length_app, Hcount. simpl. lia.
  - lia.
  - rewrite total_size_app, Htotal. simpl. lia.
Qed.

Lemma reads_description_inj expectation es s s' :
  reads expectation es s → reads expectation es s' → archive_description s = archive_description s'.
Proof.
  intros [_ _ _ _ _ Hs] [_ _ _ _ _ Hs']. unfold description_read in *.
  destruct (archive_description s), (archive_description s'); naive_solver (congruence).
Qed.

Lemma reads_next expectation es s e s' :
  reads expectation es s → reads expectation (es ++ [e]) s' →
  ∃ p, entry_path e = Ok p ∧
    (if is_description_path expectation p
     then archive_description s = None ∧ ∃ fields, archive_description s' = Some fields ∧
       read_description None e = Ok (len_u64 (entry_data e), fields)
     else archive_description s' = archive_description s).
Proof.
  intros Hs Hs'. pose proof (reads_clean _ _ _ Hs') as [_ Hclean]%Forall_app.
  apply Forall_singleton in Hclean as (Hfail & p & Ep & _). exists p. split; [done|].
  pose proof (description_entries_snoc expectation es e p Ep) as Hfilter.
  pose proof (reads_description _ _ _ Hs) as Hd. pose proof (reads_description _ _ _ Hs') as Hd'.
  unfold description_read in *. destruct (is_description_path expectation p).
  - destruct (archive_description s').
    + destruct Hd' as (e' & Hf' & Hfile & Hlen & Hp). rewrite Hfilter in Hf'.
      destruct (List.filter _ es) as [|x [|? ?]] eqn:Ees; [|done..]. injection Hf' as <-.
      split.
      * destruct (archive_description s); [|done]. by destruct Hd as (? & ? & _).
      * eexists. split; [done|]. by apply read_description_ok.
    + rewrite Hfilter in Hd'. by destruct (List.filter _ es).
  - rewrite app_nil_r in Hfilter. rewrite Hfilter in Hd'.
    destruct (archive_description s), (archive_description s'); naive_solver (congruence).
Qed.

Lemma reads_archive_step expectation es s e s' :
  reads expectation es s → reads expectation (es ++ [e]) s' →
  archive_step expectation s (Ok e) = Ok s'.
Proof.
  intros Hs Hs'. destruct (reads_next _ _ _ _ _ Hs Hs') as (p & Ep & Hnext).
  destruct Hs as [_ Hcount _ Htotal _ _]. destruct Hs' as [Hclean Hcount' Hentries Htotal' Hsize _].
  apply Forall_app in Hclean as [_ (Hfail & p' & Ep' & Eroot)%Forall_singleton].
  rewrite Ep in Ep'. injection Ep' as <-.
  rewrite length_app in Hcount'. rewrite total_size_app in Htotal'. cbn [length total_size foldr] in Hcount', Htotal'.
  unfold archive_step. rewrite (proj2 (N.leb_gt _ _)) by lia. cbn [map_err result_bind].
  rewrite Ep. cbn [map_err result_bind]. rewrite Eroot. cbv zeta.
  assert (len_u64 (entry_data e) ≤ MAX_UNCOMPRESSED_BYTES - archive_total s)%N as Hremaining by lia.
  assert (((MAX_UNCOMPRESSED_BYTES - archive_total s <? len_u64 (entry_data e))%N
      || (MAX_UNCOMPRESSED_BYTES <? archive_total s + len_u64 (entry_data e))%N) = false) as Hover.
  { apply orb_false_iff. rewrite !N.ltb_ge. lia. }
  assert (s' = mk_ArchiveState (archive_total s + len_u64 (entry_data e)) (archive_count s + 1)
                 (archive_description s')) as ->.
  { destruct s'. cbn in *. f_equal; lia. }
  cbn [archive_description] in *. destruct (is_description_path expectation p).
  - destruct Hnext as (-> & fields & -> & ->). cbn [result_bind]. by rewrite Hover.
  - destruct (proj2 (skip_entry_all (MAX_UNCOMPRESSED_BYTES - archive_total s) e _)
      (conj Hfail (conj eq_refl Hremaining))) as [-> _].
    cbn [map_err result_bind]. by rewrite Hover, Hnext.
Qed.

(** The whole loop. *)
Lemma reads_prefix expectation es es' s' :
  reads expectation (es ++ es') s' → ∃ s, reads expectation es s.
Proof.
  revert s'. induction es' as [|e es' IH] using rev_ind; intros s'; [rewrite app_nil_r; eauto|].
  rewrite app_assoc. intros [Hclean Hcount Hentries Htotal Hsize Hd]. set (done := es ++ es') in *.
  apply Forall_app in Hclean as [Hclean He]. pose proof He as (_ & p & Ep & _)%Forall_singleton.
  rewrite length_app in Hcount. rewrite total_size_app in Htotal. cbn [length] in Hcount.
  pose proof (description_entries_snoc expectation done e p Ep) as Hfilter.
  apply (IH (mk_ArchiveState (total_size done) (N.of_nat (length done))
    (if is_description_path expectation p then None else archive_description s'))).
  constructor; cbn [archive_count archive_total archive_description]; [done|done|lia|done|lia|].
  destruct (is_description_path expectation p); [|rewrite app_nil_r in Hfilter].
  - destruct (archive_description s').
    + destruct Hd as (x & Hx & _). rewrite Hfilter in Hx. by destruct (List.filter _ done) as [|? [|]].
    + rewrite Hd in Hfilter. by destruct (List.filter _ done).
  - destruct (archive_description s'); unfold description_read in *; by rewrite <-Hfilter.
Qed.

Lemma archive_loop_reads expectation es s items s' :
  reads expectation es s →
  (try_fold (archive_step expectation) s items = Ok s' ↔
   ∃ es', items = Ok <$> es' ∧ reads expectation (es ++ es') s').
Proof.
  revert es s. induction items as [|item items IH]; intros es s Hs; simpl.
  - split.
    + intros [= <-]. exists []. by rewrite app_nil_r.
    + intros ([|e es'] & [=] & Hs'). rewrite app_nil_r in Hs'. f_equal.
      pose proof (reads_description_inj _ _ _ _ Hs Hs'). destruct Hs, Hs', s, s'. cbn in *. congruence.
  - split.
    + intros (s1 & Hstep & Hrest)%result_bind_ok. destruct item as [e|].
      2: { exfalso. revert Hstep. unfold archive_step. by destruct (N.leb _ _). }
      apply (archive_step_reads _ _ _ _ _ Hs) in Hstep. apply (IH _ _ Hstep) in Hrest as (es' & -> & Hr).
      exists (e :: es'). by rewrite cons_middle, app_assoc.
    + intros ([|e es'] & [= -> ->] & Hr). rewrite cons_middle, app_assoc in Hr.
      destruct (reads_prefix _ _ _ _ Hr) as [s1 Hs1].
      rewrite (reads_archive_step _ _ _ _ _ Hs Hs1). cbn [result_bind]. apply (IH _ _ Hs1). eauto.
Qed.

Lemma no_description_entries es : List.filter (is_description_entry None) es = [].
Proof.
  induction es as [|e es IH]; [done|]. simpl. unfold is_description_entry at 1. by destruct (entry_path e).
Qed.

(** C28: the sanity check accepts exactly the archives with at least one and at
    most 100000 entries, all read to their end, inside the root and 256 MiB
    together, and, when a release is expected, with exactly one DESCRIPTION, a
    regular file of at most 1 MiB that parses to fields of that release. *)
Theorem validate_entries_spec expectation items :
  validate_entries expectation items = Ok tt ↔
  ∃ es, items = Ok <$> es ∧ es ≠ [] ∧ (N.of_nat (length es) ≤ MAX_ENTRIES)%N ∧
    Forall clean_entry es ∧ (total_size es ≤ MAX_UNCOMPRESSED_BYTES)%N ∧
    ∀ expected, expectation = Some expected →
      ∃ fields, description_read expectation es fields ∧ validate_description fields expected = Ok tt.
Proof.
  assert (reads expectation [] (mk_ArchiveState 0 0 None)) as Hinit by (by constructor).
  unfold validate_entries. split.
  - intros (s & (es & -> & [Hclean Hcount Hentries Htotal Hsize Hd])%(archive_loop_reads _ [] _ _ _ Hinit)
      & H)%result_bind_ok. cbn [app] in *. exists es. rewrite Hcount, Htotal in *.
    destruct (N.eqb_spec (N.of_nat (length es)) 0) as [|Hne]; [done|].
    split_and!; [done|by intros ->|done..|]. intros expected ->.
    apply result_bind_ok in H as (fields & Hf & H). exists fields.
    by destruct (archive_description s); simplify_eq/=.
  - intros (es & -> & Hne & Hentries & Hclean & Hsize & Hexpected).
    assert (∃ d, reads expectation es (mk_ArchiveState (total_size es) (N.of_nat (length es)) d) ∧
      ∀ expected, expectation = Some expected → ∃ fields, d = Some fields ∧
        validate_description fields expected = Ok tt) as (d & Hreads & Hd).
    { destruct expectation as [expected|].
      - destruct (Hexpected expected eq_refl) as (fields & Hf & Hv). exists (Some fields).
        split; [by constructor|]. intros ? [= <-]. eauto.
      - exists None. split; [|done]. constructor; try done. apply no_description_entries. }
    rewrite (proj2 (archive_loop_reads _ [] _ _ _ Hinit)
      (ex_intro _ es (conj eq_refl Hreads))). cbn [result_bind archive_count archive_description].
    destruct (N.eqb_spec (N.of_nat (length es)) 0) as [|_]; [by destruct es|].
    destruct expectation as [expected|]; [|done]. by destruct (Hd expected eq_refl) as (fields & -> & ?).
Qed.
