(* ===== verification/Objects.v ===== *)
(** * Objects of the artifact cache ([rsolve-repository/src/object.rs], [lib.rs])

    Committing a downloaded archive, publishing it under its digest, and loading
    a committed one.  Locks are taken but exclude nobody in the model: it runs one
    process. *)

From S2P Require Import Prelude Effects RustStd Collections Text Externals FileSystem.
From S2P Require Import Versions Names Identity Digest Cache Input Archive.

Section objects.
Context `{Schedule, Sha2, Md5Sum, !DigestStream sha256_digest, !DigestStream md5_digest}.
Context `{!Json MetadataFile, SourceArchives}.

(** ** Validation of an object *)

(** The loop that reads a file to its end: each read delivers a byte or more, so
    the length of the rest bounds the steps. *)
Fixpoint read_object (fuel : nat) (operation : string) (path : Path) (h : Handle)
    (sha256 : Hasher sha256_digest) (md5 : Hasher md5_digest) (size : N) :
    cache (Hasher sha256_digest * Hasher md5_digest * N) :=
  let! (chunk, h) := io_at operation path (read (N.to_nat BUFFER_LEN) h) in
  match fuel, chunk with
  | _, [] | 0, _ => st_ret (sha256, md5, size)
  | S fuel, _ =>
    read_object fuel operation path h (Hasher_update sha256_digest sha256 chunk)
      (Hasher_update md5_digest md5 chunk) (u64_saturating_add size (len_u64 chunk))
  end.

Definition handle_len (h : Handle) : nat :=
  match h with FileHandle rest => length rest | DirHandle => 0 end.

Definition hash_file (operation : string) (path : Path) :
    cache (Hasher sha256_digest * Hasher md5_digest * N) :=
  let! h := io_at "open cache object" path (open_read path) in
  read_object (handle_len h) operation path h (Hasher_new sha256_digest) (Hasher_new md5_digest) 0.

(** It keeps no MD5; what the shared loop computes of it is not used. *)
Definition validate_object (path : Path) (expected : Sha256Digest) (expected_size : N) : cache unit :=
  let! (sha256, _, size) := hash_file "validate cache object" path in
  let actual := hex_lower (Hasher_finalize sha256_digest sha256) in
  if negb (N.eqb size expected_size) || negb (bool_decide (actual = Sha256Digest_as_str expected))
  then st_err (CorruptObject path (Sha256Digest_as_str expected) actual)
  else st_ret tt.

(** The comparison with the upstream declarations. *)
Definition check_upstream (checksums : Checksums) (actual_sha actual_md5 : string) :
    result unit CacheError :=
  if match checksums_sha256 checksums with
     | Some upstream => negb (bool_decide (Sha256Digest_as_str upstream = actual_sha))
     | None => false end
  then Err (ChecksumMismatch "sha256"
              (default "" (Sha256Digest_as_str <$> checksums_sha256 checksums)) actual_sha)
  else if match checksums_md5 checksums with
          | Some upstream => negb (bool_decide (upstream = actual_md5)) | None => false end
  then Err (ChecksumMismatch "md5" (default "" (checksums_md5 checksums)) actual_md5)
  else Ok tt.

Definition validate_object_full (path : Path) (expected : Sha256Digest) (checksums : Checksums)
    (expected_size : N) : cache unit :=
  let! (sha256, md5, size) := hash_file "validate cache object checksums" path in
  if negb (N.eqb size expected_size) then st_err (SizeMismatch expected_size size)
  else
    let actual_sha := hex_lower (Hasher_finalize sha256_digest sha256) in
    if negb (bool_decide (actual_sha = Sha256Digest_as_str expected))
    then st_err (CorruptObject path (Sha256Digest_as_str expected) actual_sha)
    else st_lift (check_upstream checksums actual_sha (hex_lower (Hasher_finalize md5_digest md5))).

(** ** Publication *)

(** The branch for an object that does not validate: it is set aside, replaced,
    and put back when the replacement fails. *)
Definition replace_object (partial object : Path) : cache unit :=
  let! n := nonce in
  let corrupt := with_file_name object (".corrupt." +:+ path_file_name object +:+ "-" +:+ n) in
  let! quarantined := st_outcome (rename object corrupt) in
  match quarantined with
  | Err source =>
    let! _ := st_ignore (remove_file partial) in
    st_err (CacheIo "quarantine corrupt artifact object" object source)
  | Ok _ =>
    let! replaced := st_outcome (rename partial object) in
    match replaced with
    | Err replacement =>
      let! _ := st_ignore (remove_file partial) in
      let! there := path_exists object in
      if negb (there : bool) then
        let! restored := st_outcome (rename corrupt object) in
        match restored with
        | Err restore => st_err (ReplacementRecovery object corrupt replacement restore)
        | Ok _ => st_err (CacheIo "publish replacement artifact object" object replacement)
        end
      else st_err (CacheIo "publish replacement artifact object" object replacement)
    | Ok _ =>
      let! _ := io_at "remove quarantined corrupt artifact object" corrupt (remove_file corrupt) in
      make_read_only object
    end
  end.

Definition publish_object_with_fs (partial object : Path) (expected : Sha256Digest)
    (expected_size : N) : cache unit :=
  let! there := path_exists object in
  if there : bool then
    let! valid := st_outcome (validate_object object expected expected_size) in
    if is_ok (valid : result unit CacheError) then
      let! _ := io_at "remove losing partial" partial (remove_file partial) in
      make_read_only object
    else replace_object partial object
  else
    let! renamed := st_outcome (rename partial object) in
    match renamed with
    | Err source =>
      let! _ := st_ignore (remove_file partial) in
      st_err (CacheIo "publish artifact object" object source)
    | Ok _ => make_read_only object
    end.

(** ** A miss *)

(** [Sha256Digest::new(hex).expect(...)]: a panic that cannot happen
    ([hex_lower_digest]). *)
Definition digest_of_hex (hex : string) : Sha256Digest := mk_Sha256Digest hex.

(** The checks on a complete download: its size and its declared digests. *)
Definition check_download (artifact : SourceArtifact) (checksums : Checksums) (n : N)
    (actual_sha actual_md5 : string) : result unit CacheError :=
  if match size artifact with Some expected => negb (N.eqb expected n) | None => false end
  then Err (SizeMismatch (default 0%N (size artifact)) n)
  else check_upstream checksums actual_sha actual_md5.

(** From the partial file to the object: everything after the checks. *)
Definition publish_download (paths : CachePaths) (partial : Path) (sha256 : Sha256Digest) (n : N) :
    cache unit :=
  let object := CachePaths_object paths sha256 in
  let! _ := io_at "create object shard directory" object (create_dir_all (path_parent object)) in
  let object_lock := CachePaths_object_lock paths sha256 in
  let! _ := io_at "create object lock directory" (path_parent object_lock)
    (create_dir_all (path_parent object_lock)) in
  let! _ := take_lock "create object lock" "lock object" object_lock in
  let! fresh := nonce in
  let final_partial := with_file_name object (PARTIAL_PREFIX +:+ fresh) in
  let! _ := io_at "move partial into object shard" final_partial (rename partial final_partial) in
  let! _ := cleanup_on_error (st_ignore (remove_file final_partial))
    (sync_directory (path_parent object)) in
  let! _ := cleanup_on_error (st_ignore (remove_file final_partial))
    (publish_object_with_fs final_partial object sha256 n) in
  sync_directory (path_parent object).

(** The download into the partial file; the reader is not used afterwards. *)
Definition download {R} (read : nat → stateful R (list byte) IoError) (reader : R)
    (expected : option N) (partial : Path) :
    cache (N * Hasher sha256_digest * Hasher md5_digest) := λ fs,
  let '(outcome, s) :=
    copy_compressed_input read (λ chunk, write_all partial chunk) expected
      MAX_COMPRESSED_INPUT_BYTES partial reader fs (Hasher_new sha256_digest)
      (Hasher_new md5_digest) in
  (result_map (λ n, (n, copy_sha256 s, copy_md5 s)) outcome, copy_output s).

Definition commit_miss {R} (paths : CachePaths) (artifact : SourceArtifact) (checksums : Checksums)
    (descriptor_key : string) (read : nat → stateful R (list byte) IoError) (reader : R)
    (partial : Path) (expectation : option ArtifactValidationExpectation) : cache CachedArtifact :=
  let! _ := open_file partial true "create partial artifact" in
  let! (n, sha256, md5) := download read reader (size artifact) partial in
  let! _ := io_at "sync partial artifact" partial sync_all in
  let actual_sha := hex_lower (Hasher_finalize sha256_digest sha256) in
  let actual_md5 := hex_lower (Hasher_finalize md5_digest md5) in
  let! _ := st_lift (check_download artifact checksums n actual_sha actual_md5) in
  let sha256 := digest_of_hex actual_sha in
  let! _ := validate_source_archive partial expectation in
  let! _ := publish_download paths partial sha256 n in
  let metadata := mk_Metadata 1 descriptor_key sha256 n (checksums_md5 checksums)
                    (checksums_sha256 checksums) (verification_strength checksums) in
  let! _ := commit_metadata (paths_metadata paths) metadata in
  st_ret (cached_artifact paths metadata).

(** ** A hit *)

Definition load_hit (paths : CachePaths) (descriptor_key : string) (artifact : SourceArtifact)
    (checksums : Checksums) : cache (option CachedArtifact) :=
  let! there := path_exists (paths_metadata paths) in
  if negb (there : bool) then st_ret None
  else
    let! metadata := read_metadata (paths_metadata paths) in
    if negb (bool_decide (metadata_descriptor_key metadata = descriptor_key))
       || negb (bool_decide (metadata_upstream_md5 metadata = checksums_md5 checksums))
       || negb (bool_decide (metadata_upstream_sha256 metadata = checksums_sha256 checksums))
    then st_err (CacheInvalidMetadata (paths_metadata paths)
                   "descriptor does not match the requested artifact")
    else if match size artifact with
            | Some expected_size => negb (N.eqb (metadata_size metadata) expected_size)
            | None => false end
    then st_err (CacheInvalidMetadata (paths_metadata paths)
                   "metadata size does not match the requested artifact")
    else
      let object := CachePaths_object paths (metadata_object_sha256 metadata) in
      let expected_size := default (metadata_size metadata) (size artifact) in
      let! _ := validate_object_full object (metadata_object_sha256 metadata) checksums
                  expected_size in
      let! _ := make_read_only object in
      st_ret (Some (cached_artifact paths metadata)).

(** ** The operations of the crate ([lib.rs]) *)

(** The prologue the operations share: the validated request, its key and
    paths, the directories, and the artifact lock. *)
Definition enter_cache (cache_root : Path) (artifact : SourceArtifact)
    (expectation : option ArtifactValidationExpectation) : cache (Checksums * string * CachePaths) :=
  let! checksums := st_lift (validate_checksums (upstream_checksums artifact)) in
  let descriptor_key := descriptor_key_with_expectation artifact checksums expectation in
  let paths := CachePaths_new cache_root descriptor_key in
  let! _ := create_cache_directories paths in
  let! _ := take_lock "create artifact lock" "lock artifact" (paths_lock paths) in
  st_ret (checksums, descriptor_key, paths).

Definition commit_artifact_with_fs_and_expectation {R} (cache_root : Path)
    (artifact : SourceArtifact) (read : nat → stateful R (list byte) IoError) (reader : R)
    (expectation : option ArtifactValidationExpectation) : cache CachedArtifact :=
  let! (checksums, descriptor_key, paths) := enter_cache cache_root artifact expectation in
  let! hit := load_hit paths descriptor_key artifact checksums in
  match hit with
  | Some hit => st_ret hit
  | None =>
    let! fresh := nonce in
    let partial := path_join (paths_object_dir paths) [PARTIAL_PREFIX +:+ fresh] in
    cleanup_on_error (st_ignore (remove_file partial))
      (commit_miss paths artifact checksums descriptor_key read reader partial expectation)
  end.

Definition commit_artifact {R} (cache_root : Path) (artifact : SourceArtifact)
    (read : nat → stateful R (list byte) IoError) (reader : R) : cache CachedArtifact :=
  commit_artifact_with_fs_and_expectation cache_root artifact read reader None.

Definition commit_validated_artifact {R} (cache_root : Path) (artifact : SourceArtifact)
    (expectation : ArtifactValidationExpectation) (read : nat → stateful R (list byte) IoError)
    (reader : R) : cache CachedArtifact :=
  commit_artifact_with_fs_and_expectation cache_root artifact read reader (Some expectation).

Definition probe_artifact (cache_root : Path) (artifact : SourceArtifact)
    (expectation : ArtifactValidationExpectation) : cache (option CachedArtifact) :=
  let! (checksums, descriptor_key, paths) := enter_cache cache_root artifact (Some expectation) in
  load_hit paths descriptor_key artifact checksums.
End objects.
