(* ===== verification/CacheLaws.v ===== *)
(** * Properties of the artifact cache

    An object at its path has the digest it is named by, and no operation ever
    loses one: for every schedule of failures, so also when the process is
    killed.  A descriptor key identifies its request, and recorded metadata is
    read back. *)

From S2P Require Import Prelude Effects RustStd Collections Text Externals FileSystem.
From S2P Require Import Format Versions Names GitUrl Identity Constraints Digest Cache Input Archive.
From S2P Require Import Objects.

(** ** Hexadecimal digests *)

Lemma hex_lower_encode l : hex_lower l = hex_encode l.
Proof.
  unfold hex_lower, hex_encode. f_equal. f_equal. apply list_fmap_ext. intros _ b _.
  by rewrite N.shiftr_div_pow2, (N.land_ones _ 4).
Qed.

(** The name of an object: 64 lower-case hexadecimal digits. *)
Definition digest_text (d : string) : Prop :=
  str_len d = 64 ∧ Forall (λ b, is_lower_hex b = true) (bytes d).

Lemma digest_text_hex `{Sha2, !Sha2Laws} data : digest_text (hex_lower (sha256_digest data)).
Proof.
  rewrite hex_lower_encode. split; [|apply hex_encode_lower].
  by rewrite str_len_hex_encode, sha256_digest_length.
Qed.

Lemma Sha256Digest_new_digest_text d : digest_text d → Sha256Digest_new d = Ok (digest_of_hex d).
Proof.
  intros [Hlen Hd]. unfold Sha256Digest_new, digest_of_hex.
  rewrite bool_decide_eq_false_2 by (rewrite Hlen; intros Hn; by apply Hn).
  assert (all_bytes is_ascii_hexdigit d = true) as ->.
  { apply forallb_Forall. eapply Forall_impl; [exact Hd|].
    apply (byte_implies is_lower_hex is_ascii_hexdigit). vm_compute. reflexivity. }
  cbn [negb]. by rewrite lower_hex_to_lowercase.
Qed.

(** [expect] in [commit_miss] does not panic. *)
Lemma hex_lower_digest `{Sha2, !Sha2Laws} data :
  Sha256Digest_new (hex_lower (sha256_digest data))
    = Ok (digest_of_hex (hex_lower (sha256_digest data))).
Proof. apply Sha256Digest_new_digest_text, digest_text_hex. Qed.

(** ** Where things are *)

Definition object_dir (root : Path) : Path := root ++ ["objects"; "sources"; "sha256"].
Definition object_at (root : Path) (d : string) : Path := object_dir root ++ [shard_of d; d].

Lemma CachePaths_object_at root key digest :
  CachePaths_object (CachePaths_new root key) digest = object_at root (Sha256Digest_as_str digest).
Proof. done. Qed.

Lemma object_at_snoc root d : object_at root d = (object_dir root ++ [shard_of d]) ++ [d].
Proof. unfold object_at. by rewrite <-app_assoc. Qed.

Lemma object_at_parent root d : path_parent (object_at root d) = object_dir root ++ [shard_of d].
Proof. rewrite object_at_snoc. apply path_parent_snoc. Qed.

Lemma sibling_of_object root d name :
  with_file_name (object_at root d) name = (object_dir root ++ [shard_of d]) ++ [name].
Proof. rewrite object_at_snoc. apply with_file_name_snoc. Qed.

(** A name that starts with a dot is no digest and no shard. *)
Lemma dot_not_digest s d : digest_text d → String.append "." s ≠ d.
Proof.
  intros [_ Hd] <-. change (bytes (String.append "." s)) with (bytes ("." +:+ s)) in Hd.
  rewrite bytes_app in Hd. apply Forall_app in Hd as [Hd _]. by apply Forall_cons in Hd as [? _].
Qed.

Lemma dot_not_shard s d : digest_text d → String.append "." s ≠ shard_of d.
Proof.
  intros [Hlen Hd] E. apply (f_equal bytes) in E. unfold shard_of in E.
  change (bytes (String.append "." s)) with (bytes ("." +:+ s)) in E.
  rewrite bytes_app, bytes_from_utf8 in E. unfold str_len in Hlen.
  destruct (bytes d) as [|b [|b' l]]; [done..|]. apply Forall_cons in Hd as [Hb _].
  cbn in E. injection E as <- _. done.
Qed.

(** A path that is not above [o] is not [o]. *)
Lemma not_above_ne (p o : Path) : ¬ p `prefix_of` o → p ≠ o.
Proof. by intros H ->. Qed.

Lemma partial_not_above root s d :
  digest_text d → ¬ (object_dir root ++ ["." +:+ s]) `prefix_of` object_at root d.
Proof.
  intros Hd H. apply prefix_app_inv, prefix_cons_inv_1 in H. by apply (dot_not_shard s d).
Qed.

Lemma sibling_not_above root d d' s :
  digest_text d' → ¬ with_file_name (object_at root d) ("." +:+ s) `prefix_of` object_at root d'.
Proof.
  intros Hd' H. rewrite sibling_of_object, <-app_assoc in H.
  apply prefix_app_inv, prefix_cons_inv_2, prefix_cons_inv_1 in H. by apply (dot_not_digest s d').
Qed.

Lemma object_not_above root d d' :
  d ≠ d' → ¬ object_at root d `prefix_of` object_at root d'.
Proof. intros Hd H. apply prefix_app_inv, prefix_cons_inv_2, prefix_cons_inv_1 in H. done. Qed.

Lemma elsewhere_not_above root a l d :
  a ≠ "objects" → ¬ (root ++ a :: l) `prefix_of` object_at root d.
Proof.
  intros Ha H. unfold object_at, object_dir in H. rewrite <-app_assoc in H.
  apply prefix_app_inv, prefix_cons_inv_1 in H. done.
Qed.

(** ** What keeps a file *)

Section frames.
Context `{Schedule, Sha2, Md5Sum, !DigestStream sha256_digest, !DigestStream md5_digest}.
Context `{!Json MetadataFile, SourceArchives} (o : Path) (c : list byte).

Lemma keeps_io_at {T : Type} operation path (m : io T) : keeps o c m → keeps o c (io_at operation path m).
Proof. apply keeps_map_err. Qed.

Lemma keeps_open_file path new operation : keeps o c (open_file path new operation).
Proof. unfold open_file. apply keeps_io_at. keep. Qed.

Lemma keeps_make_read_only path : keeps o c (make_read_only path).
Proof. unfold make_read_only, io_at. keep. Qed.

Lemma keeps_sync_directory path : keeps o c (sync_directory path).
Proof. unfold sync_directory, sync_all. keep. Qed.

Lemma keeps_take_lock a b path : keeps o c (take_lock a b path).
Proof. unfold take_lock, io_at, file_lock. keep. Qed.

Lemma keeps_create_cache_directories paths : keeps o c (create_cache_directories paths).
Proof. unfold create_cache_directories, io_at. keep. Qed.

Lemma keeps_cleanup {T : Type} cleanup (m : cache T) :
  keeps o c cleanup → keeps o c m → keeps o c (cleanup_on_error cleanup m).
Proof. intros Hc Hm. unfold cleanup_on_error. keep. Qed.

Lemma keeps_commit_metadata path metadata :
  (∀ name, ¬ with_file_name path name `prefix_of` o) → path ≠ o →
  keeps o c (commit_metadata path metadata).
Proof.
  intros Hpath Hne. assert (∀ name, with_file_name path name ≠ o) as Hname
    by (intros name; by apply not_above_ne).
  unfold commit_metadata, publish_metadata, open_file, io_at, sync_all.
  apply keeps_bind; [keep|]. intros n. cbv zeta. apply keeps_bind; [keep|]. intros _.
  apply keeps_bind; [keep|]. intros encoded. apply keeps_cleanup; [keep|].
  repeat (apply keeps_bind; [keep|]; intros _). apply keeps_sync_directory.
Qed.

Lemma keeps_read_metadata path : keeps o c (read_metadata path).
Proof. unfold read_metadata, io_at. keep. Qed.

Lemma keeps_read_object fuel operation path h sha256 md5 size :
  keeps o c (read_object fuel operation path h sha256 md5 size).
Proof.
  revert h sha256 md5 size. induction fuel as [|fuel IH]; intros h sha256 md5 size; simpl;
    (apply keeps_bind; [apply keeps_io_at; keep|]); intros [chunk h']; destruct chunk; keep.
Qed.

Lemma keeps_hash_file operation path : keeps o c (hash_file operation path).
Proof.
  unfold hash_file. apply keeps_bind; [apply keeps_io_at; keep|]. intros h. apply keeps_read_object.
Qed.

Lemma keeps_validate_object path expected size : keeps o c (validate_object path expected size).
Proof.
  unfold validate_object. apply keeps_bind; [apply keeps_hash_file|]. intros [[sha md5] n]. keep.
Qed.

Lemma keeps_validate_object_full path expected checksums size :
  keeps o c (validate_object_full path expected checksums size).
Proof.
  unfold validate_object_full. apply keeps_bind; [apply keeps_hash_file|]. intros [[sha md5] n]. keep.
Qed.

Lemma keeps_validate_source_archive path expectation :
  keeps o c (validate_source_archive path expectation).
Proof.
  unfold validate_source_archive, io_at. apply keeps_bind; [keep|]. intros [data failure]. keep.
Qed.

Lemma keeps_load_hit paths key artifact checksums :
  keeps o c (load_hit paths key artifact checksums).
Proof.
  unfold load_hit. apply keeps_bind; [keep|]. intros there. destruct there; cbn [negb]; [|keep].
  apply keeps_bind; [apply keeps_read_metadata|]. intros metadata.
  do 2 match goal with |- keeps _ _ (if ?b then _ else _) => destruct b; [keep|] end.
  apply keeps_bind; [apply keeps_validate_object_full|]. intros _.
  apply keeps_bind; [apply keeps_make_read_only|]. keep.
Qed.

Lemma keeps_enter_cache root artifact expectation :
  keeps o c (enter_cache root artifact expectation).
Proof.
  unfold enter_cache. apply keeps_bind; [keep|]. intros checksums.
  apply keeps_bind; [apply keeps_create_cache_directories|]. intros _.
  apply keeps_bind; [apply keeps_take_lock|]. keep.
Qed.
End frames.

#[export] Hint Resolve keeps_open_file keeps_make_read_only keeps_sync_directory keeps_take_lock
  keeps_create_cache_directories keeps_read_metadata keeps_hash_file keeps_validate_object
  keeps_validate_object_full keeps_validate_source_archive keeps_load_hit keeps_enter_cache : keeps.

(** ** Hashing a file *)

Section hashing.
Context `{Schedule, Sha2, Md5Sum, !DigestStream sha256_digest, !DigestStream md5_digest}.
Context `{!DigestStreamLaws sha256_digest, !DigestStreamLaws md5_digest}.
Context `{!Json MetadataFile, SourceArchives}.

(** The hashers and the size after all of [c]. *)
Definition hashed (c : list byte) (r : Hasher sha256_digest * Hasher md5_digest * N) : Prop :=
  Hasher_finalize sha256_digest r.1.1 = sha256_digest c ∧
  Hasher_finalize md5_digest r.1.2 = md5_digest c ∧
  r.2 = N.min u64_max (len_u64 c).

Lemma hashed_chunks chunks :
  hashed (mjoin chunks)
    (foldl (Hasher_update sha256_digest) (Hasher_new sha256_digest) chunks,
     foldl (Hasher_update md5_digest) (Hasher_new md5_digest) chunks,
     N.min u64_max (len_u64 (mjoin chunks))).
Proof. unfold hashed. cbn [fst snd]. by rewrite !Hasher_finalize_chunks. Qed.

Lemma triple_read (P : gmap Path Node → Prop) capacity h :
  0 < capacity →
  triple (on P) (read capacity h)
    (λ r, on (λ t, P t ∧ ∃ rest n, h = FileHandle rest ∧ 0 < n ∧ r = (take n rest, FileHandle (drop n rest))))
    (λ _, on P).
Proof.
  intros Hcap. apply triple_operation; [|done]. intros n t Ht.
  destruct h as [|rest]; [done|]. split; [done|]. eexists rest, _. split; [done|]. split; [|done]. lia.
Qed.

Lemma triple_read_object (P : gmap Path Node → Prop) c fuel operation path chunks rest :
  c = mjoin chunks ++ rest → length rest ≤ fuel →
  triple (on P)
    (read_object fuel operation path (FileHandle rest)
       (foldl (Hasher_update sha256_digest) (Hasher_new sha256_digest) chunks)
       (foldl (Hasher_update md5_digest) (Hasher_new md5_digest) chunks)
       (N.min u64_max (len_u64 (mjoin chunks))))
    (λ r, on (λ t, P t ∧ hashed c r)) (λ _, on P).
Proof.
  revert chunks rest. induction fuel as [|fuel IH]; intros chunks rest Hc Hfuel; cbn [read_object];
    (eapply triple_bind; [apply triple_map_err, triple_read; unfold BUFFER_LEN; lia|]);
    intros [chunk h']; intros fs (Ht & rest' & n & [= <-] & Hn & [= -> ->]);
    (destruct rest as [|b rest]; [rewrite take_nil; rewrite app_nil_r in Hc; subst c;
       cbn; split; [done|apply hashed_chunks]|]); [simpl in Hfuel; lia|].
  destruct n as [|n]; [lia|]. cbn [take drop].
  assert (b :: take n rest ++ drop n rest = b :: rest) as Hsplit by by rewrite take_drop.
  pose proof (IH (chunks ++ [b :: take n rest]) (drop n rest)) as Hstep.
  rewrite !foldl_app, <-(saturating_length _ _ _ eq_refl) in Hstep. apply Hstep; [|..|done].
  - rewrite Hc, join_app. cbn [mjoin list_join]. rewrite app_nil_r, <-app_assoc. cbn [app].
    by rewrite Hsplit.
  - rewrite length_drop. simpl in Hfuel. lia.
Qed.

Lemma triple_hash_file (P : gmap Path Node → Prop) operation path :
  triple (on P) (hash_file operation path)
    (λ r, on (λ t, P t ∧ ∃ c, file_at path c t ∧ hashed c r)) (λ _, on P).
Proof.
  unfold hash_file. eapply triple_bind.
  { apply triple_map_err. unfold open_read. apply triple_looking. }
  intros h. apply triple_pre. intros fs [Hh Ht].
  destruct (fs_tree fs !! path) as [[|c r]|] eqn:E; simplify_eq.
  - cbn [handle_len]. intros fs' ->. cbn [read_object].
    pose proof (triple_read (λ t, t = fs_tree fs) (N.to_nat BUFFER_LEN) DirHandle
      ltac:(unfold BUFFER_LEN; lia) fs eq_refl) as Hr.
    unfold st_bind, io_at, st_map_err. destruct (read _ _ fs) as [[r|e] fs'].
    + destruct Hr as (_ & rest & n & [=] & _).
    + unfold on in *. cbn. by rewrite Hr.
  - eapply triple_weaken.
    + apply (triple_read_object (λ t, t = fs_tree fs) c (length c) operation path [] c); [done|lia].
    + by intros fs' ->.
    + intros x fs' [Heq Hx]. unfold on. rewrite Heq. split; [done|]. exists c.
      split; [by exists r|done].
    + intros e fs'. unfold on. by intros ->.
Qed.
End hashing.

(** ** Publishing an object *)

Section publish.
Context `{Schedule, Sha2, !Sha2Laws, Md5Sum}.
Context `{!DigestStream sha256_digest, !DigestStream md5_digest}.
Context `{!DigestStreamLaws sha256_digest, !DigestStreamLaws md5_digest}.
Context `{!Json MetadataFile, SourceArchives} (root : Path).

Notation Tree := (gmap Path Node).

(** A file at the path of the digest [d] whose contents have that digest. *)
Definition object_with (d : string) (n : N) (t : Tree) : Prop :=
  ∃ c, file_at (object_at root d) c t ∧ hex_lower (sha256_digest c) = d ∧
    N.min u64_max (len_u64 c) = n.
Definition good_object (d : string) (t : Tree) : Prop := ∃ n, object_with d n t.

(** A failed restoration names the quarantine file, which has the object. *)
Definition recoverable (d : string) (e : CacheError) (t : Tree) : Prop :=
  ∃ s replacement restore c,
    let quarantine := with_file_name (object_at root d) (".corrupt." +:+ s) in
    e = ReplacementRecovery (object_at root d) quarantine replacement restore ∧
    file_at quarantine c t ∧ hex_lower (sha256_digest c) = d.

Definition kept_or_recoverable (d : string) (e : CacheError) (t : Tree) : Prop :=
  good_object d t ∨ recoverable d e t.

Lemma triple_keeps {T E : Type} (K : Tree → Prop) (I : Type) o (c : I → list byte)
    (φ : I → Prop) (m : stateful Fs T E) :
  (∀ t, K t ↔ ∃ i, file_at o (c i) t ∧ φ i) → (∀ i, keeps o (c i) m) →
  triple (on K) m (λ _, on K) (λ _, on K).
Proof.
  intros HK Hm fs (i & Hi & Hφ)%HK. specialize (Hm i fs Hi).
  destruct (m fs) as [[x|e] fs']; apply HK; eauto.
Qed.

Lemma keeps_object_with {T E : Type} d n (m : stateful Fs T E) :
  (∀ c, keeps (object_at root d) c m) →
  triple (on (object_with d n)) m (λ _, on (object_with d n)) (λ _, on (object_with d n)).
Proof.
  intros Hm. apply (triple_keeps _ _ (object_at root d) id
    (λ c, hex_lower (sha256_digest c) = d ∧ N.min u64_max (len_u64 c) = n)); [done|auto].
Qed.

Lemma keeps_good_object {T E : Type} d (m : stateful Fs T E) :
  (∀ c, keeps (object_at root d) c m) →
  triple (on (good_object d)) m (λ _, on (good_object d)) (λ _, on (good_object d)).
Proof.
  intros Hm fs [n Hn]. pose proof (keeps_object_with d n m Hm fs Hn) as Hk.
  destruct (m fs) as [[x|e] fs']; by exists n.
Qed.

Lemma triple_validate_object (P : Tree → Prop) digest n :
  digest_text digest →
  triple (on P) (validate_object (object_at root digest) (digest_of_hex digest) n)
    (λ _, on (λ t, P t ∧ object_with digest n t)) (λ _, on P).
Proof.
  intros Hd. unfold validate_object. eapply triple_bind; [apply triple_hash_file|].
  intros [[sha256 md5] size] fs (Ht & c & Hc & Hsha & _ & Hsize). cbn [fst snd] in *.
  destruct (N.eqb_spec size n) as [<-|]; [|done]. rewrite Hsha. cbn [negb orb].
  case_bool_decide as Heq; [|done]. split; [done|]. exists c. split_and!; [done|exact Heq|].
  by rewrite Hsize.
Qed.

(** Moving a partial file over an object. *)
Lemma triple_rename_file (P : Tree → Prop) from to data :
  from ≠ to → (∀ t, P t → file_at from data t) →
  triple (on P) (rename from to) (λ _, on (λ t, file_at to data t ∧ t !! from = None)) (λ _, on P).
Proof.
  intros Hne HP. eapply triple_weaken; [apply triple_rename|done| |done].
  intros [] fs (t & Ht & E). by apply (rename_in_file data from to t); [apply HP| |].
Qed.

Context (partial : Path) (data : list byte) (d : string) (n : N).
Hypothesis d_text : digest_text d.
Hypothesis partial_elsewhere :
  partial ≠ object_at root d ∧ ¬ object_at root d `prefix_of` partial ∧
  ∀ s, with_file_name (object_at root d) (".corrupt." +:+ s) ≠ partial.
Hypothesis data_digest : hex_lower (sha256_digest data) = d ∧ N.min u64_max (len_u64 data) = n.

Lemma object_with_data t : file_at (object_at root d) data t → object_with d n t.
Proof. intros Ht. exists data. by destruct data_digest. Qed.

Lemma corrupt_ne s : with_file_name (object_at root d) (".corrupt." +:+ s) ≠ object_at root d.
Proof. apply not_above_ne. by apply (sibling_not_above root d d ("corrupt." +:+ s)). Qed.

Lemma triple_make_read_only P :
  (∀ c, keeps (object_at root d) c (make_read_only P)) →
  triple (on (object_with d n)) (make_read_only P) (λ _, on (object_with d n)) (λ _ _, True).
Proof.
  intros Hk. eapply triple_weaken; [by apply keeps_object_with|done..].
Qed.

(** What [replace_object] leaves when it succeeds. *)
Lemma triple_replace_object_ok :
  triple (on (file_at partial data)) (replace_object partial (object_at root d))
    (λ _, on (object_with d n)) (λ _ _, True).
Proof.
  destruct partial_elsewhere as (Hne & Hpre & Hcor). unfold replace_object.
  eapply triple_bind; [apply triple_nonce|]. intros s. cbv zeta.
  set (corrupt := with_file_name _ _).
  assert (corrupt ≠ partial ∧ corrupt ≠ object_at root d) as [Hc1 Hc2].
  { split; [apply Hcor|apply corrupt_ne]. }
  eapply triple_outcome_match; [by apply (keeps_rename partial data)|..].
  2: { intros e. eapply triple_bind; [apply triple_true|]. intros ?. by apply triple_err. }
  intros [].
  eapply triple_outcome_match; [by apply (triple_rename_file (file_at partial data) _ _ data)|..].
  2: { intros e. eapply triple_bind; [apply triple_true|]. intros ?.
       eapply triple_bind; [apply triple_true|]. intros [|]; cbn [negb]; [by apply triple_err|].
       eapply triple_outcome_match; [apply triple_true|..]; intros; by apply triple_err. }
  intros [].
  eapply triple_bind; [|intros ?; apply triple_make_read_only; intros c; apply keeps_make_read_only].
  eapply triple_weaken; [apply (keeps_object_with d n (io_at _ _ (remove_file corrupt)))|..]; [| |done..].
  - intros c. by apply keeps_io_at, keeps_remove_file.
  - intros fs [Ht _]. by apply object_with_data.
Qed.

(** After a successful publication the object is there. *)
Lemma triple_publish_ok :
  triple (on (file_at partial data))
    (publish_object_with_fs partial (object_at root d) (digest_of_hex d) n)
    (λ _, on (object_with d n)) (λ _ _, True).
Proof.
  destruct partial_elsewhere as (Hne & Hpre & Hcor). unfold publish_object_with_fs.
  eapply triple_bind; [eapply triple_exists|]. intros [|].
  - eapply triple_bind.
    { eapply (triple_outcome _ _ (λ r, on (λ t, file_at partial data t ∧
        (is_ok r = true → object_with d n t)))).
      eapply triple_weaken; [by apply triple_validate_object| | |].
      - by intros fs [_ Ht].
      - by intros x fs [Ht Ho].
      - by intros e fs Ht. }
    intros [[]|e]; cbn [is_ok].
    + eapply triple_bind; [|intros ?; apply triple_make_read_only; intros c; apply keeps_make_read_only].
      eapply triple_weaken; [apply (keeps_object_with d n (io_at _ _ (remove_file partial)))|..];
        [| |done..].
      * intros c. by apply keeps_io_at, keeps_remove_file.
      * intros fs [_ Ho]. by apply Ho.
    + eapply triple_weaken; [apply triple_replace_object_ok|by intros fs [Ht _]|done..].
  - eapply triple_outcome_match; [by apply (triple_rename_file _ _ _ data); [|intros t [_ ?]]|..].
    + intros []. eapply triple_weaken;
        [apply triple_make_read_only; intros c; apply keeps_make_read_only
        |intros fs [Ht _]; by apply object_with_data|done..].
    + intros e. eapply triple_bind; [apply triple_true|]. intros ?. by apply triple_err.
Qed.

(** While the object is set aside. *)
Definition set_aside (corrupt : Path) (t : Tree) : Prop :=
  t !! object_at root d = None ∧
  ∃ c, file_at corrupt c t ∧ hex_lower (sha256_digest c) = d.

Lemma good_object_data t : file_at (object_at root d) data t → good_object d t.
Proof. intros Ht. exists n. by apply object_with_data. Qed.

Lemma triple_set_aside corrupt :
  corrupt ≠ object_at root d → corrupt ≠ partial →
  triple (on (λ t, good_object d t ∧ file_at partial data t)) (rename (object_at root d) corrupt)
    (λ _, on (λ t, set_aside corrupt t ∧ file_at partial data t)) (λ _, on (good_object d)).
Proof.
  intros Hc1 Hc2. destruct partial_elsewhere as (Hne & Hpre & _).
  eapply triple_weaken; [apply triple_rename|done| |by intros e fs []].
  intros [] fs (t & [(m & c & Hc & Hd & _) Hp] & E). split.
  - apply (rename_in_file c) in E as [Ht Hn]; [|done|done]. split; [done|]. by exists c.
  - pose proof (rename_in_file_at partial data (object_at root d) corrupt t Hpre Hc2 Hp) as Hk.
    by rewrite E in Hk.
Qed.

Lemma triple_remove_partial {F : Type} corrupt :
  corrupt ≠ partial →
  triple (on (set_aside corrupt)) (st_ignore (F:=F) (remove_file partial))
    (λ _, on (set_aside corrupt)) (λ _ _, False).
Proof.
  intros Hc. apply triple_ignore. apply triple_atomic; [|done]. intros t (Hn & c & Ht & Hd).
  destruct (t !! partial) as [[|]|]; [by split; eauto| |by split; eauto]. split.
  - rewrite lookup_delete_None. by right.
  - exists c. split; [|done]. by apply file_at_delete.
Qed.

Lemma triple_replace_object_keeps :
  triple (on (λ t, good_object d t ∧ file_at partial data t)) (replace_object partial (object_at root d))
    (λ _, on (good_object d)) (λ e, on (kept_or_recoverable d e)).
Proof.
  destruct partial_elsewhere as (Hne & Hpre & Hcor). unfold replace_object.
  eapply triple_bind; [apply triple_nonce|]. intros s. cbv zeta. set (corrupt := with_file_name _ _).
  assert (corrupt ≠ partial ∧ corrupt ≠ object_at root d) as [Hc1 Hc2].
  { split; [apply Hcor|apply corrupt_ne]. }
  eapply triple_outcome_match; [by apply triple_set_aside|..].
  2: { intros e. eapply triple_bind.
       - eapply triple_weaken; [apply (keeps_good_object d (st_ignore (remove_file partial)))
           |done|done|by left]. intros c. by apply keeps_ignore, keeps_remove_file.
       - intros ?. apply triple_err. by left. }
  intros []. eapply triple_outcome_match.
  { eapply triple_rename_file; [exact Hne|]. by intros t [_ Ht]. }
  - intros []. eapply triple_weaken; [apply (keeps_good_object d)| |done|by left].
    + intros c. apply keeps_bind; [by apply keeps_io_at, keeps_remove_file|].
      intros ?. apply keeps_make_read_only.
    + intros fs [Ht _]. exact (good_object_data _ Ht).
  - intros replacement. eapply triple_bind.
    { eapply triple_weaken; [by apply (triple_remove_partial corrupt)|by intros fs [Ht _]|done|done]. }
    intros ?. eapply triple_bind; [apply triple_exists|]. intros [|]; cbn [negb].
    { apply triple_err. intros fs [Hsome [Hnone _]]. destruct (Hsome eq_refl). congruence. }
    apply (triple_from (on (set_aside corrupt))); [by intros fs [_ Ht]|].
    apply triple_pre. intros fs0 (Hn0 & c & Hc & Hd).
    apply (triple_from (on (λ t, t = fs_tree fs0))); [by intros fs ->|].
    eapply triple_outcome_match.
    { eapply (triple_rename_file (λ t, t = fs_tree fs0) _ _ c); [exact Hc2|]. by intros t ->. }
    + intros []. apply triple_err. intros fs [Ht _]. left. by exists (N.min u64_max (len_u64 c)), c.
    + intros restore. apply triple_err. intros fs Ht. right.
      exists (path_file_name (object_at root d) +:+ "-" +:+ s), replacement, restore, c.
      unfold on in Ht. by rewrite Ht.
Qed.

Lemma triple_publish_keeps :
  triple (on (λ t, good_object d t ∧ file_at partial data t))
    (publish_object_with_fs partial (object_at root d) (digest_of_hex d) n)
    (λ _, on (good_object d)) (λ e, on (kept_or_recoverable d e)).
Proof.
  destruct partial_elsewhere as (Hne & Hpre & Hcor). unfold publish_object_with_fs.
  set (I := λ t, good_object d t ∧ file_at partial data t).
  assert (∀ m : cache unit, (∀ c, keeps (object_at root d) c m) →
    triple (on I) m (λ _, on (good_object d)) (λ e, on (kept_or_recoverable d e))) as Hkeep.
  { intros m Hm. eapply triple_weaken; [by apply keeps_good_object|by intros fs [Hg _]|done|].
    intros e fs Hg. by left. }
  eapply triple_bind; [apply triple_exists|]. intros [|].
  - eapply triple_bind.
    { eapply (triple_outcome _ _ (λ _, on I)). eapply triple_weaken;
        [by apply (triple_validate_object I)|by intros fs [_ Ht]|by intros x fs [Ht _]|done]. }
    intros [[]|e]; cbn [is_ok]; [|apply triple_replace_object_keeps].
    apply Hkeep. intros c. apply keeps_bind; [by apply keeps_io_at, keeps_remove_file|].
    intros ?. apply keeps_make_read_only.
  - apply (triple_from (on I)); [by intros fs [_ Ht]|].
    eapply triple_outcome_match; [apply (triple_rename_file I _ _ data); [done|by intros t []]|..].
    + intros []. eapply triple_weaken; [apply (keeps_good_object d (make_read_only _))| |done|by left].
      * intros c. apply keeps_make_read_only.
      * intros fs [Ht _]. by apply good_object_data.
    + intros e. apply Hkeep. intros c. apply keeps_bind; [by apply keeps_ignore, keeps_remove_file|].
      intros ?. apply keeps_err.
Qed.
End publish.

(** ** From the download to the object *)

Section commit.
Context `{Schedule, Sha2, !Sha2Laws, Md5Sum}.
Context `{!DigestStream sha256_digest, !DigestStream md5_digest}.
Context `{!DigestStreamLaws sha256_digest, !DigestStreamLaws md5_digest}.
Context `{!Json MetadataFile, SourceArchives} (root : Path).

Notation Tree := (gmap Path Node).

Lemma triple_cleanup {T : Type} (P : Fs → Prop) cleanup (m : cache T) (Q : T → Fs → Prop)
    (N R : CacheError → Fs → Prop) :
  triple P m Q N → (∀ e, triple (N e) cleanup (λ _, R e) (λ _, R e)) →
  (∀ e, triple (N e) cleanup (λ _ _, True) (λ _ _, False)) →
  triple P (cleanup_on_error cleanup m) Q R.
Proof.
  intros Hm Hc Hok. unfold cleanup_on_error. eapply triple_outcome_match; [exact Hm|..].
  - intros x. by apply triple_ret'.
  - intros e fs Hfs. specialize (Hc e fs Hfs). specialize (Hok e fs Hfs). unfold st_bind, st_err.
    by destruct (cleanup fs) as [[[]|e'] fs'].
Qed.

(** The cleanup of a failed step: the outcome of the removal is dropped. *)
Lemma triple_remove_after {T : Type} (P : Fs → Prop) p (m : cache T) (Q : T → Fs → Prop)
    (R : CacheError → Fs → Prop) :
  triple P m Q R →
  (∀ e, triple (R e) (remove_file p) (λ _, R e) (λ _, R e)) →
  triple P (cleanup_on_error (st_ignore (remove_file p)) m) Q R.
Proof.
  intros Hm Hc. eapply triple_cleanup; [exact Hm|..]; intros e.
  - by apply triple_ignore.
  - by apply triple_ignore; apply triple_true.
Qed.

Lemma triple_write_all partial chunk contents :
  triple (on (file_at partial contents)) (write_all partial chunk)
    (λ _, on (file_at partial (contents ++ chunk))) (λ _ _, True).
Proof.
  eapply triple_weaken; [apply (triple_operation (file_at partial contents) _ _
    (λ _, file_at partial (contents ++ chunk)) (λ _ _, True))|done..]; [|done].
  intros n t [r Hr]. exists r. unfold append_to. by rewrite Hr, lookup_insert_eq.
Qed.

Lemma triple_open_partial partial operation :
  triple (λ _, True) (open_file partial true operation) (λ _, on (file_at partial [])) (λ _ _, True).
Proof.
  unfold open_file, io_at. apply triple_map_err. apply (triple_from (on (λ _, True))); [done|].
  eapply triple_weaken; [apply (triple_atomic (λ _, True) _ (λ _, file_at partial []) (λ _ _, True))|done..];
    [|done].
  intros t _. destruct (t !! partial); [done|]. unfold create_in.
  destruct (is_dir _ _); [|done]. exists false. by rewrite lookup_insert_eq.
Qed.

(** The download: the partial file holds what was hashed. *)
Lemma triple_download {R : Type} (K : Tree → Prop) (read : nat → stateful R (list byte) IoError)
    reader expected partial :
  (∀ n, expected = Some n → n ≤ u64_max)%N →
  (∀ chunk, triple (on K) (write_all partial chunk) (λ _, on K) (λ _, on K)) →
  triple (on (λ t, K t ∧ file_at partial [] t)) (download read reader expected partial)
    (λ r, on (λ t, K t ∧ ∃ data, file_at partial data t ∧
       hashed data (r.1.2, r.2, r.1.1) ∧ ∀ n, expected = Some n → r.1.1 = n))
    (λ _, on K).
Proof.
  intros Hsize HK fs Hfs. unfold download.
  pose proof (copy_compressed_input_good read (λ chunk, write_all partial chunk)
    (λ data, on (λ t, K t ∧ file_at partial data t)) (on K)) as Hgood.
  ospecialize (Hgood _ expected MAX_COMPRESSED_INPUT_BYTES partial reader fs (Hasher_new sha256_digest)
    (Hasher_new md5_digest) _ Hfs).
  { intros contents chunk w Hw. pose proof (triple_and _ _ _ _ _ _ _ (HK chunk)
      (triple_write_all partial chunk contents) w Hw) as Ht.
    destruct (write_all partial chunk w) as [[[]|e] w']; [exact Ht|by destruct Ht]. }
  { destruct expected as [n|]; [by apply Hsize|]. unfold MAX_COMPRESSED_INPUT_BYTES, u64_max. simpl. lia. }
  destruct (copy_compressed_input _ _ _ _ _ _ _ _ _) as [[n|e] s]; cbn.
  - destruct Hgood as ((chunks & (Hsha & Hmd5 & Hn) & HKs & Hfile) & -> & Hexp). split; [exact HKs|].
    exists (mjoin chunks). split_and!; [exact Hfile| |exact Hexp].
    cbn [fst snd copy_output] in *. rewrite Hsha, Hmd5, Hn. apply hashed_chunks.
  - destruct Hgood as [Hb|(chunks & _ & HKs & _)]; [exact Hb|exact HKs].
Qed.

Lemma final_partial_elsewhere d s :
  digest_text d →
  let final := with_file_name (object_at root d) (PARTIAL_PREFIX +:+ s) in
  final ≠ object_at root d ∧ ¬ object_at root d `prefix_of` final ∧
  ∀ s', with_file_name (object_at root d) (".corrupt." +:+ s') ≠ final.
Proof.
  intros Hd final. split_and!.
  - apply not_above_ne. by apply (sibling_not_above root d d ("partial." +:+ s)).
  - unfold final. rewrite sibling_of_object, object_at_snoc. intros Hp.
    apply prefix_app_inv, prefix_cons_inv_1 in Hp. by apply (dot_not_digest ("partial." +:+ s) d).
  - intros s'. unfold final. rewrite !sibling_of_object. intros [_ E]%app_inj_2; [|done].
    injection E as E. discriminate E.
Qed.

Lemma partial_not_sibling d s name :
  object_dir root ++ [PARTIAL_PREFIX +:+ s] ≠ with_file_name (object_at root d) name.
Proof.
  rewrite sibling_of_object. intros E%(f_equal length). rewrite !length_app in E. simpl in E. lia.
Qed.

(** The steps of [publish_download] before the publication. *)
Definition staged (d : string) (n : N) : Path → cache unit := λ final,
  let object := object_at root d in
  let! _ := cleanup_on_error (st_ignore (remove_file final)) (sync_directory (path_parent object)) in
  let! _ := cleanup_on_error (st_ignore (remove_file final))
    (publish_object_with_fs final object (digest_of_hex d) n) in
  sync_directory (path_parent object).

Lemma triple_staged_ok d n s data :
  digest_text d → hex_lower (sha256_digest data) = d → N.min u64_max (len_u64 data) = n →
  let final := with_file_name (object_at root d) (PARTIAL_PREFIX +:+ s) in
  triple (on (file_at final data)) (staged d n final) (λ _, on (object_with root d n)) (λ _ _, True).
Proof.
  intros Hd Hdata Hn final. pose proof (final_partial_elsewhere d s Hd) as Helse. fold final in Helse.
  unfold staged. eapply triple_bind.
  { apply triple_remove_after; [|intros e; apply triple_true].
    eapply triple_weaken; [apply (keeps_sync_directory final data)|done..]. }
  intros ?. eapply triple_bind.
  { apply triple_remove_after; [|intros e; apply triple_true].
    by apply (triple_publish_ok root final data d n). }
  intros ?. eapply triple_weaken; [apply (keeps_object_with root d n)|done..].
  intros c. apply keeps_sync_directory.
Qed.

Lemma triple_remove_kept d e p :
  p ≠ object_at root d → (∀ s, with_file_name (object_at root d) (".corrupt." +:+ s) ≠ p) →
  triple (on (kept_or_recoverable root d e)) (remove_file p)
    (λ _, on (kept_or_recoverable root d e)) (λ _, on (kept_or_recoverable root d e)).
Proof.
  intros Hp Hq. apply triple_atomic; [|done]. intros t Ht.
  destruct (t !! p) as [[|]|]; [done| |done].
  destruct Ht as [(n & c & Hc & ?)|(s & r1 & r2 & c & He & Hc & ?)].
  - left. exists n, c. split; [by apply file_at_delete|done].
  - right. exists s, r1, r2, c. split_and!; [done| |done]. by apply file_at_delete.
Qed.

Lemma triple_staged_keeps d n s data :
  digest_text d → hex_lower (sha256_digest data) = d → N.min u64_max (len_u64 data) = n →
  let final := with_file_name (object_at root d) (PARTIAL_PREFIX +:+ s) in
  triple (on (λ t, good_object root d t ∧ file_at final data t)) (staged d n final)
    (λ _, on (good_object root d)) (λ e, on (kept_or_recoverable root d e)).
Proof.
  intros Hd Hdata Hn final. pose proof (final_partial_elsewhere d s Hd) as Helse. fold final in Helse.
  pose proof Helse as (Hne & Hpre & Hcor). unfold staged. eapply triple_bind.
  { apply (triple_remove_after _ _ _ _ (λ e, on (kept_or_recoverable root d e)));
      [|intros e; by apply triple_remove_kept].
    eapply triple_weaken; [apply (triple_and (on (good_object root d)) (on (file_at final data)));
      [apply (keeps_good_object root d (sync_directory _)); intros c; apply keeps_sync_directory
      |apply (keeps_sync_directory final data)]|done|done|]. intros e fs [Hg _]. by left. }
  intros ?. eapply triple_bind.
  { apply (triple_remove_after _ _ _ _ (λ e, on (kept_or_recoverable root d e)));
      [|intros e; by apply triple_remove_kept].
    by apply (triple_publish_keeps root final data d n). }
  intros ?. eapply triple_weaken; [apply (keeps_good_object root d)|done|done|by left].
  intros c. apply keeps_sync_directory.
Qed.

(** Another object is not touched at all. *)
Lemma keeps_staged d0 d n s c :
  digest_text d0 → digest_text d → d0 ≠ d →
  keeps (object_at root d) c (staged d0 n (with_file_name (object_at root d0) (PARTIAL_PREFIX +:+ s))).
Proof.
  intros Hd0 Hd Hne. set (final := with_file_name _ _).
  assert (∀ x, ¬ with_file_name (object_at root d0) ("." +:+ x) `prefix_of` object_at root d) as Hsib
    by (intros x; by apply sibling_not_above).
  assert (¬ final `prefix_of` object_at root d) as Hfinal by apply (Hsib ("partial." +:+ s)).
  assert (¬ object_at root d0 `prefix_of` object_at root d) as Hobj by by apply object_not_above.
  assert (∀ x, ¬ with_file_name (object_at root d0) (".corrupt." +:+ x) `prefix_of` object_at root d)
    as Hcor by (intros x; apply (Hsib ("corrupt." +:+ x))).
  assert (keeps (object_at root d) c (st_ignore (F:=CacheError) (remove_file final))) as Hclean
    by by apply keeps_ignore, keeps_remove_file, not_above_ne.
  unfold staged. apply keeps_bind; [apply keeps_cleanup; [done|apply keeps_sync_directory]|]. intros ?.
  apply keeps_bind; [apply keeps_cleanup; [done|]|intros ?; apply keeps_sync_directory].
  pose proof (not_above_ne _ _ Hfinal). pose proof (not_above_ne _ _ Hobj).
  assert (∀ x, with_file_name (object_at root d0) (".corrupt." +:+ x) ≠ object_at root d)
    as Hcor' by (intros y; by apply not_above_ne).
  unfold publish_object_with_fs, replace_object, io_at. keep.
Qed.

(** Everything before the partial file is moved leaves it, and the objects, as
    they are. *)
Definition prepare (key d : string) : cache string :=
  let paths := CachePaths_new root key in
  let object := object_at root d in
  let! _ := io_at "create object shard directory" object (create_dir_all (path_parent object)) in
  let object_lock := CachePaths_object_lock paths (digest_of_hex d) in
  let! _ := io_at "create object lock directory" (path_parent object_lock)
    (create_dir_all (path_parent object_lock)) in
  let! _ := take_lock "create object lock" "lock object" object_lock in
  nonce.

Lemma keeps_prepare o c key d : keeps o c (prepare key d).
Proof. unfold prepare, io_at. keep. Qed.

Lemma publish_download_staged key partial d n fs :
  publish_download (CachePaths_new root key) partial (digest_of_hex d) n fs =
    (let! fresh := prepare key d in
     let final := with_file_name (object_at root d) (PARTIAL_PREFIX +:+ fresh) in
     let! _ := io_at "move partial into object shard" final (rename partial final) in
     staged d n final) fs.
Proof.
  unfold publish_download, prepare, staged, st_bind. rewrite CachePaths_object_at.
  change (Sha256Digest_as_str (digest_of_hex d)) with d.
  destruct (io_at _ _ (create_dir_all _) fs) as [[[]|e] fs1]; [|done].
  destruct (io_at _ _ (create_dir_all _) fs1) as [[[]|e] fs2]; [|done].
  by destruct (take_lock _ _ _ fs2) as [[[]|e] fs3].
Qed.

Definition partial_path (s : string) : Path := object_dir root ++ [PARTIAL_PREFIX +:+ s].

Lemma triple_publish_download_ok key s d n data :
  digest_text d → hex_lower (sha256_digest data) = d → N.min u64_max (len_u64 data) = n →
  triple (on (file_at (partial_path s) data))
    (publish_download (CachePaths_new root key) (partial_path s) (digest_of_hex d) n)
    (λ _, on (object_with root d n)) (λ _ _, True).
Proof.
  intros Hd Hdata Hn. eapply triple_ext; [apply publish_download_staged|].
  eapply triple_bind; [eapply triple_weaken; [apply (keeps_prepare (partial_path s) data)|done..]|].
  intros fresh. cbv zeta. eapply triple_bind; [|intros ?; by apply (triple_staged_ok d n fresh data)].
  apply triple_map_err. eapply triple_weaken; [apply (triple_rename_file (file_at (partial_path s) data)
    _ _ data); [apply partial_not_sibling|done]|done| |done]. by intros x fs [Ht _].
Qed.

Lemma triple_publish_download_keeps key s d n data d' :
  digest_text d → hex_lower (sha256_digest data) = d → N.min u64_max (len_u64 data) = n →
  digest_text d' →
  triple (on (λ t, good_object root d' t ∧ file_at (partial_path s) data t))
    (publish_download (CachePaths_new root key) (partial_path s) (digest_of_hex d) n)
    (λ _, on (good_object root d')) (λ e, on (kept_or_recoverable root d' e)).
Proof.
  intros Hd Hdata Hn Hd'. eapply triple_ext; [apply publish_download_staged|].
  set (I := λ t, good_object root d' t ∧ file_at (partial_path s) data t).
  eapply triple_bind.
  { eapply triple_weaken; [apply (triple_and (on (good_object root d')) (on (file_at (partial_path s) data)));
      [apply keeps_good_object; intros c; apply (keeps_prepare _ _ key d)
      |apply (keeps_prepare _ _ key d)]|done..|]. intros e fs [Hg _]. by left. }
  intros fresh. cbv zeta. set (final := with_file_name _ _).
  assert (∀ c, keeps (object_at root d') c (rename (partial_path s) final)) as Hk.
  { intros c. apply keeps_rename; [by apply (partial_not_above root ("partial." +:+ s))|].
    apply not_above_ne. by apply (sibling_not_above root d d' ("partial." +:+ fresh)). }
  eapply triple_bind.
  { apply triple_map_err. eapply triple_weaken;
      [apply (triple_and (on (good_object root d')) (on (file_at (partial_path s) data)));
        [apply keeps_good_object; exact Hk
        |apply (triple_rename_file (file_at (partial_path s) data) _ _ data);
           [apply partial_not_sibling|done]]|done| |].
    - intros x fs Hx. exact Hx.
    - intros e fs [Hg _]. by left. }
  intros ?. apply (triple_from (on (λ t, good_object root d' t ∧ file_at final data t))).
  { by intros fs (Hg & Hf & _). }
  destruct (decide (d = d')) as [<-|Hne]; [by apply triple_staged_keeps|].
  eapply triple_weaken; [apply keeps_good_object; intros c; by apply (keeps_staged d d' n fresh c)
    |by intros fs [Hg _]|done|by left].
Qed.

(** ** A committed artifact *)

(** What a returned artifact promises: the object at its path has the digest it
    is named by and the recorded size, and everything the request declares was
    checked; an MD5 of bytes of that same SHA-256 digest. *)
Record intact (artifact : SourceArtifact) (checksums : Checksums) (cached : CachedArtifact)
    (t : Tree) : Prop := {
  intact_path : object_path cached = object_at root (Sha256Digest_as_str (cached_sha256 cached));
  intact_object : object_with root (Sha256Digest_as_str (cached_sha256 cached)) (cached_size cached) t;
  intact_size n : size artifact = Some n → cached_size cached = n;
  intact_sha256 d : checksums_sha256 checksums = Some d →
    Sha256Digest_as_str d = Sha256Digest_as_str (cached_sha256 cached);
  intact_md5 m : checksums_md5 checksums = Some m →
    ∃ data, hex_lower (md5_digest data) = m ∧
      hex_lower (sha256_digest data) = Sha256Digest_as_str (cached_sha256 cached);
}.

Lemma check_upstream_ok checksums sha md5 :
  check_upstream checksums sha md5 = Ok tt →
  (∀ d, checksums_sha256 checksums = Some d → Sha256Digest_as_str d = sha) ∧
  (∀ m, checksums_md5 checksums = Some m → m = md5).
Proof.
  unfold check_upstream. intros Hc.
  destruct (checksums_sha256 checksums) as [d|]; [case_bool_decide; [|done]|];
    (destruct (checksums_md5 checksums) as [m|]; [case_bool_decide; [|done]|]); naive_solver.
Qed.

Lemma check_download_ok artifact checksums n sha md5 :
  check_download artifact checksums n sha md5 = Ok tt →
  (∀ m, size artifact = Some m → n = m) ∧ check_upstream checksums sha md5 = Ok tt.
Proof.
  unfold check_download. destruct (size artifact) as [m|]; [|done].
  destruct (N.eqb_spec m n) as [->|]; [|done]. intros Hc. split; [by intros ? [= ->]|done].
Qed.

Lemma keeps_commit_object_metadata key d c metadata :
  keeps (object_at root d) c (commit_metadata (paths_metadata (CachePaths_new root key)) metadata).
Proof.
  assert (∀ l, ¬ (root ++ "artifacts" :: l) `prefix_of` object_at root d) as Habove
    by (intros l; by apply elsewhere_not_above).
  apply keeps_commit_metadata.
  - intros name. unfold CachePaths_new, path_join. cbn [paths_metadata].
    change ["artifacts"; "sources"; "sha256"; shard_of key; key +:+ ".json"]
      with (["artifacts"; "sources"; "sha256"; shard_of key] ++ [key +:+ ".json"]).
    rewrite app_assoc, with_file_name_snoc, <-app_assoc. apply Habove.
  - apply not_above_ne. apply Habove.
Qed.

Context {R : Type} (read : nat → stateful R (list byte) IoError) (reader : R).
Context (artifact : SourceArtifact) (expectation : option ArtifactValidationExpectation).
Hypothesis size_u64 : ∀ n, size artifact = Some n → (n ≤ u64_max)%N.

Lemma triple_commit_miss_ok checksums key s :
  triple (λ _, True)
    (commit_miss (CachePaths_new root key) artifact checksums key read reader (partial_path s)
       expectation)
    (λ cached, on (intact artifact checksums cached)) (λ _ _, True).
Proof.
  unfold commit_miss. eapply triple_bind; [apply triple_open_partial|]. intros ?.
  apply (triple_from (on (λ t, True ∧ file_at (partial_path s) [] t))); [by intros fs Hfs|].
  eapply triple_bind.
  { eapply triple_weaken; [apply (triple_download (λ _, True) read reader (size artifact));
      [exact size_u64|intros chunk]|done|intros y fs Hy; exact Hy|done].
    eapply triple_weaken; [apply triple_true|done..]. }
  intros [[n sha256] md5]. apply triple_pre.
  intros fs0 (_ & data & Hdata & (Hsha & Hmd5 & Hn) & Hsize). cbn [fst snd] in *.
  apply (triple_from (on (file_at (partial_path s) data))); [by intros fs ->|].
  assert (∀ T (m : cache T), keeps (partial_path s) data m →
    triple (on (file_at (partial_path s) data)) m (λ _, on (file_at (partial_path s) data))
      (λ _ _, True)) as Hkeep.
  { intros T m Hm. eapply triple_weaken; [exact Hm|done..]. }
  eapply triple_bind; [apply Hkeep, keeps_io_at, keeps_looking|]. intros ?. cbv zeta.
  rewrite Hsha, Hmd5. set (d := hex_lower (sha256_digest data)).
  eapply triple_bind; [apply (triple_lift _ _ (λ _ fs, on (file_at (partial_path s) data) fs ∧
    check_download artifact checksums n d (hex_lower (md5_digest data)) = Ok tt)); [|done];
    by intros [] fs Ho Hf|].
  intros ?. apply triple_pre. intros fs1 [Hf1 [Hexpected Hup]%check_download_ok].
  apply check_upstream_ok in Hup as [Hup1 Hup2].
  apply (triple_from (on (file_at (partial_path s) data))); [by intros fs ->|].
  eapply triple_bind; [apply Hkeep, keeps_validate_source_archive|]. intros ?.
  eapply triple_bind; [apply (triple_publish_download_ok key s d n data);
    [apply digest_text_hex|done|by rewrite Hn]|]. intros ?. cbv zeta.
  eapply triple_bind.
  { eapply triple_weaken; [apply (keeps_object_with root d n)|done..].
    intros c. apply keeps_commit_object_metadata. }
  intros ?. apply triple_ret'. intros fs Ho. constructor; cbn; [done|exact Ho|done|done|].
  intros m Hm. exists data. split; [|done]. symmetry. by apply Hup2.
Qed.

Lemma Sha256Digest_new_text s d : Sha256Digest_new s = Ok d → digest_text (Sha256Digest_as_str d).
Proof.
  intros Hd. rewrite (Sha256Digest_new_as_str _ _ Hd). unfold Sha256Digest_new in Hd.
  case_bool_decide as Hlen; [done|]. destruct (all_bytes is_ascii_hexdigit s) eqn:Hall; [|done].
  split; [rewrite str_len_to_ascii_lowercase; destruct (decide (str_len s = 64)); done|].
  apply forallb_Forall. by apply all_lower_hex.
Qed.

Lemma validate_metadata_digest path file m :
  validate_metadata path file = Ok m → digest_text (Sha256Digest_as_str (metadata_object_sha256 m)).
Proof.
  unfold validate_metadata. destruct (N.eqb _ _); [|done]. cbn [negb].
  intros (d & Hd%map_err_ok & (md5 & _ & (sha & _ & Hm)%result_bind_ok)%result_bind_ok)%result_bind_ok.
  destruct (negb _); [done|]. injection Hm as <-. cbn. by eapply Sha256Digest_new_text.
Qed.

Lemma triple_read_metadata path :
  triple (λ _, True) (read_metadata path)
    (λ m _, digest_text (Sha256Digest_as_str (metadata_object_sha256 m))) (λ _ _, True).
Proof.
  unfold read_metadata. eapply triple_bind; [apply triple_true|]. intros contents.
  eapply triple_bind; [apply triple_true|]. intros file.
  apply triple_lift; [|done]. intros m fs Hm _. by eapply validate_metadata_digest.
Qed.

Lemma triple_validate_object_full d checksums n :
  triple (λ _, True) (validate_object_full (object_at root (Sha256Digest_as_str d)) d checksums n)
    (λ _, on (λ t, object_with root (Sha256Digest_as_str d) n t ∧
       (∀ e, checksums_sha256 checksums = Some e → Sha256Digest_as_str e = Sha256Digest_as_str d) ∧
       ∀ m, checksums_md5 checksums = Some m → ∃ data, hex_lower (md5_digest data) = m ∧
         hex_lower (sha256_digest data) = Sha256Digest_as_str d))
    (λ _ _, True).
Proof.
  unfold validate_object_full. apply (triple_from (on (λ _, True))); [done|].
  eapply triple_bind; [eapply triple_weaken; [apply triple_hash_file|done|intros r fs Hr; exact Hr|done]|].
  intros [[sha256 md5] size] fs (_ & c & Hc & Hsha & Hmd5 & Hsize). cbn [fst snd] in *.
  destruct (N.eqb_spec size n) as [<-|]; [|done]. cbn [negb]. rewrite Hsha, Hmd5.
  case_bool_decide as Heq; [|done]. cbn [negb]. unfold st_lift.
  destruct (check_upstream _ _ _) as [[]|] eqn:Hup; [|done].
  apply check_upstream_ok in Hup as [Hup1 Hup2]. split_and!.
  - exists c. by rewrite Hsize.
  - intros e He. by rewrite (Hup1 e He), Heq.
  - intros m Hm. exists c. split; [|done]. symmetry. by apply Hup2.
Qed.

Lemma triple_load_hit checksums key :
  triple (λ _, True) (load_hit (CachePaths_new root key) key artifact checksums)
    (λ hit, on (λ t, ∀ cached, hit = Some cached → intact artifact checksums cached t)) (λ _ _, True).
Proof.
  unfold load_hit. eapply triple_bind; [apply triple_true|]. intros [|]; cbn [negb].
  2: { apply triple_ret'. by intros fs _ cached [=]. }
  eapply triple_bind; [apply triple_read_metadata|]. intros m. apply triple_pre. intros fs0 Hd.
  match goal with |- triple _ (if ?b then _ else _) _ _ => destruct b; [by apply triple_err|] end.
  match goal with |- triple _ (if ?b then _ else _) _ _ =>
    destruct b eqn:Esize; [by apply triple_err|] end.
  cbv zeta.
  rewrite CachePaths_object_at. set (n := default (metadata_size m) (size artifact)).
  assert (n = metadata_size m ∧ ∀ k, size artifact = Some k → metadata_size m = k) as [Hn Hk].
  { unfold n. destruct (size artifact) as [k|]; [|done]. cbn.
    apply negb_false_iff, N.eqb_eq in Esize. split; [done|]. by intros ? [= <-]. }
  eapply triple_bind; [apply (triple_from (λ _, True)); [done|apply triple_validate_object_full]|].
  intros ?. apply triple_pre. intros fs1 (Ho & Hsha & Hmd5). rewrite Hn in Ho.
  eapply triple_bind.
  { apply (triple_from (on (object_with root (Sha256Digest_as_str (metadata_object_sha256 m))
      (metadata_size m)))); [by intros fs ->|].
    eapply triple_weaken; [apply keeps_object_with; intros c; apply keeps_make_read_only|done..]. }
  intros ?. apply triple_ret'. intros fs Hfs cached [= <-]. by constructor.
Qed.

Lemma triple_enter_cache :
  triple (λ _, True) (enter_cache root artifact expectation)
    (λ r _, validate_checksums (upstream_checksums artifact) = Ok r.1.1 ∧
       r.2 = CachePaths_new root r.1.2)
    (λ _ _, True).
Proof.
  unfold enter_cache. eapply triple_bind; [apply (triple_lift _ _ (λ checksums _,
    validate_checksums (upstream_checksums artifact) = Ok checksums)); done|].
  intros checksums. apply triple_pre. intros fs0 Hc.
  eapply triple_bind; [apply triple_true|]. intros ?. eapply triple_bind; [apply triple_true|].
  intros ?. by apply triple_ret'.
Qed.

Lemma commit_artifact_intact fs :
  match commit_artifact_with_fs_and_expectation root artifact read reader expectation fs with
  | (Ok cached, fs') =>
      ∃ checksums, validate_checksums (upstream_checksums artifact) = Ok checksums ∧
        intact artifact checksums cached (fs_tree fs')
  | (Err _, _) => True
  end.
Proof.
  assert (triple (λ _, True)
    (commit_artifact_with_fs_and_expectation root artifact read reader expectation)
    (λ cached, on (λ t, ∃ checksums, validate_checksums (upstream_checksums artifact) = Ok checksums ∧
        intact artifact checksums cached t)) (λ _ _, True)) as Ht; [|exact (Ht fs I)].
  unfold commit_artifact_with_fs_and_expectation. eapply triple_bind; [apply triple_enter_cache|].
  intros [[checksums key] paths]. apply triple_pre. intros fs0 [Hc Hpaths]. cbn [fst snd] in *. subst paths.
  eapply triple_bind; [apply (triple_from (λ _, True)); [done|apply triple_load_hit]|].
  intros [hit|].
  - apply triple_ret'. intros fs1 Hhit. exists checksums. by split; [|apply Hhit].
  - eapply triple_bind; [apply triple_true|]. intros s. cbv zeta.
    eapply triple_weaken; [apply triple_remove_after;
      [apply (triple_commit_miss_ok checksums key s)|intros; apply triple_true]|done| |done].
    intros cached fs1 Hi. by exists checksums.
Qed.

(** ** No operation loses an object *)

Section other.
Context (d' : string) (d'_text : digest_text d').

Lemma partial_not_object s : partial_path s ≠ object_at root d'.
Proof. apply not_above_ne. by apply (partial_not_above root ("partial." +:+ s)). Qed.

(** A computation that keeps the object and a file. *)
Lemma triple_keeps_both {T : Type} p data (m : cache T) :
  (∀ o c, keeps o c m) →
  triple (on (λ t, good_object root d' t ∧ file_at p data t)) m
    (λ _, on (λ t, good_object root d' t ∧ file_at p data t))
    (λ e, on (kept_or_recoverable root d' e)).
Proof.
  intros Hm. eapply triple_weaken; [apply (triple_and (on (good_object root d')) (on (file_at p data)));
    [apply keeps_good_object; intros c; apply Hm|apply Hm]|done|done|].
  intros e fs [Hg _]. by left.
Qed.

Lemma triple_keeps_good {T : Type} (m : cache T) :
  (∀ c, keeps (object_at root d') c m) →
  triple (on (good_object root d')) m (λ _, on (good_object root d'))
    (λ e, on (kept_or_recoverable root d' e)).
Proof. intros Hm. eapply triple_weaken; [by apply keeps_good_object|done|done|by left]. Qed.

Lemma triple_commit_miss_keeps checksums key s :
  triple (on (good_object root d'))
    (commit_miss (CachePaths_new root key) artifact checksums key read reader (partial_path s)
       expectation)
    (λ _, on (good_object root d')) (λ e, on (kept_or_recoverable root d' e)).
Proof.
  set (K := good_object root d'). unfold commit_miss. eapply triple_bind.
  { eapply triple_weaken; [apply (triple_and (on K) (λ _, True));
      [apply keeps_good_object; intros c; apply keeps_open_file|apply triple_open_partial]
      |done|intros x fs Hx; exact Hx|]. intros e fs [Hg _]. by left. }
  intros ?. eapply triple_bind.
  { eapply triple_weaken; [apply (triple_download K read reader (size artifact) (partial_path s));
      [exact size_u64|]|by intros fs [Hk Hf]|intros y fs Hy; exact Hy|by left].
    intros chunk. apply keeps_good_object. intros c. apply keeps_write_all, partial_not_object. }
  intros [[n sha256] md5]. apply triple_pre.
  intros fs0 (Hg & data & Hdata & (Hsha & Hmd5 & Hn) & Hsize). cbn [fst snd] in *.
  apply (triple_from (on (λ t, K t ∧ file_at (partial_path s) data t))); [by intros fs ->|].
  eapply triple_bind; [apply triple_keeps_both; intros; apply keeps_io_at, keeps_looking|].
  intros ?. cbv zeta. rewrite Hsha, Hmd5. set (d := hex_lower (sha256_digest data)).
  eapply triple_bind; [apply triple_keeps_both; intros; apply keeps_lift|]. intros ?.
  eapply triple_bind; [apply triple_keeps_both; intros; apply keeps_validate_source_archive|]. intros ?.
  eapply triple_bind; [apply (triple_publish_download_keeps key s d n data d');
    [apply digest_text_hex|done|by rewrite Hn|done]|]. intros ?.
  apply triple_keeps_good. intros c. apply keeps_bind; [apply keeps_commit_object_metadata|].
  intros ?. apply keeps_ret.
Qed.

Lemma triple_commit_keeps :
  triple (on (good_object root d'))
    (commit_artifact_with_fs_and_expectation root artifact read reader expectation)
    (λ _, on (good_object root d')) (λ e, on (kept_or_recoverable root d' e)).
Proof.
  unfold commit_artifact_with_fs_and_expectation. eapply triple_bind.
  { eapply triple_weaken; [apply (triple_and (on (good_object root d')) (λ _, True));
      [apply keeps_good_object; intros c; apply keeps_enter_cache|apply triple_enter_cache]
      |done|intros r fs Hr; exact Hr|]. intros e fs [Hg _]. by left. }
  intros [[checksums key] paths]. apply triple_pre. intros fs0 (Hg & Hc & Hpaths).
  cbn [fst snd] in *. subst paths. apply (triple_from (on (good_object root d'))); [by intros fs ->|].
  eapply triple_bind; [apply triple_keeps_good; intros c; apply keeps_load_hit|]. intros [hit|].
  - apply triple_keeps_good. intros c. apply keeps_ret.
  - eapply triple_bind; [apply triple_keeps_good; intros c; apply keeps_nonce|]. intros s. cbv zeta.
    apply triple_remove_after; [apply (triple_commit_miss_keeps checksums key s)|].
    intros e. apply triple_remove_kept; [apply partial_not_object|]. intros s'.
    intros E. by apply (partial_not_sibling d' s (".corrupt." +:+ s')).
Qed.
End other.
End commit.

(** ** The properties *)

Section properties.
Context `{Schedule, Sha2, !Sha2Laws, Md5Sum}.
Context `{!DigestStream sha256_digest, !DigestStream md5_digest}.
Context `{!DigestStreamLaws sha256_digest, !DigestStreamLaws md5_digest}.
Context `{!Json MetadataFile, SourceArchives}.

(** C6: whatever fails on the way, an artifact that is returned, from the cache
    or after a download, is intact: the file at its path has the recorded size
    and the SHA-256 it is named by, and the declared size and digests agree. *)
Theorem commit_artifact_spec {R : Type} root artifact (read : nat → stateful R (list byte) IoError)
    reader expectation fs cached fs' :
  (∀ n, size artifact = Some n → (n ≤ u64_max)%N) →
  commit_artifact_with_fs_and_expectation root artifact read reader expectation fs = (Ok cached, fs') →
  ∃ checksums, validate_checksums (upstream_checksums artifact) = Ok checksums ∧
    intact root artifact checksums cached (fs_tree fs').
Proof.
  intros Hsize E. pose proof (commit_artifact_intact root read reader artifact expectation Hsize fs) as Hi.
  by rewrite E in Hi.
Qed.

(** C5: no commit ever loses a good object, of any digest, whether it succeeds,
    fails, or stops having effects at any point: afterwards the file is at its
    path, or the error names the quarantine file that has it. *)
Theorem commit_keeps_objects {R : Type} root artifact (read : nat → stateful R (list byte) IoError)
    reader expectation d fs :
  (∀ n, size artifact = Some n → (n ≤ u64_max)%N) → digest_text d →
  good_object root d (fs_tree fs) →
  match commit_artifact_with_fs_and_expectation root artifact read reader expectation fs with
  | (Ok _, fs') => good_object root d (fs_tree fs')
  | (Err e, fs') => good_object root d (fs_tree fs') ∨ recoverable root d e (fs_tree fs')
  end.
Proof.
  intros Hsize Hd Hg. exact (triple_commit_keeps root read reader artifact expectation Hsize d Hd fs Hg).
Qed.
End properties.
