(* ===== verification/Materialization.v ===== *)
(** * Repository materialisation, its inputs ([rsolve-repository/src/materialization.rs],
      [filesystem.rs])

    The selected artifacts, their validation, canonical order and records, and the
    errors of a materialisation; [Transaction] writes them to disk. *)

From S2P Require Import Prelude RustStd Collections Externals Text FileSystem Format Versions Names.
From S2P Require Import Publication Identity Constraints Metadata Cache.

(** ** Names of files *)

Definition is_filename_byte (b : byte) : bool :=
  is_ascii_alphanumeric b || byte_is 46 b || byte_is 45 b || byte_is 95 b.

Definition valid_filename_component (value : string) : bool :=
  negb (bool_decide (value = "")) && negb (bool_decide (value = ".")) &&
  negb (bool_decide (value = "..")) && forallb is_filename_byte (bytes value).

(** ** Errors *)

(** Of the index writer ([packages.rs]). *)
Inductive PackagesError :=
| InvalidFieldName (field : string)
| DuplicateField (field : string)
| InvalidFieldValue (field reason : string)
| DuplicateDependency (field name : string)
| UnsupportedConstraint (field : string).

Definition PackagesError_fmt (e : PackagesError) : string :=
  match e with
  | InvalidFieldName field => "invalid DCF field name: " +:+ field
  | DuplicateField field => "reserved or duplicate DCF field: " +:+ field
  | InvalidFieldValue field reason => "invalid DCF value for " +:+ field +:+ ": " +:+ reason
  | DuplicateDependency field name => "duplicate dependency " +:+ name +:+ " in " +:+ field
  | UnsupportedConstraint field =>
    "dependency field " +:+ field +:+ " contains an unsupported constraint"
  end.

Inductive MaterializationError :=
| MaterializationIo (operation : string) (path : Path) (source : IoError)
| InvalidInput (reason : string)
| DuplicatePackage (package : string)
| ProvenanceVersionMismatch (package selected provenance : string)
| DuplicateDestination (path : Path)
| ExistingConflict (path : Path)
| InvalidState (path : Path) (reason : string)
| TransactionConflict (path : Path) (reason : string)
| InvalidCacheObject (path : Path) (reason : string)
| MaterializationPackages (source : PackagesError)
| MaterializationCache (path : Path) (source : CacheError).

Definition MaterializationError_fmt (e : MaterializationError) : string :=
  match e with
  | MaterializationIo operation path source =>
    "failed to " +:+ operation +:+ " " +:+ path_display path +:+ ": " +:+ io_text source
  | InvalidInput reason => "invalid materialization input: " +:+ reason
  | DuplicatePackage package => "selected package name is duplicated: " +:+ package
  | ProvenanceVersionMismatch package selected provenance =>
    "selected version for " +:+ package +:+ " (" +:+ selected
      +:+ ") does not match its provenance version (" +:+ provenance +:+ ")"
  | DuplicateDestination path => "repository destination is duplicated: " +:+ path_display path
  | ExistingConflict path =>
    "existing materialization conflicts with the selected artifact at " +:+ path_display path
  | InvalidState path reason =>
    "materialization state is invalid at " +:+ path_display path +:+ ": " +:+ reason
  | TransactionConflict path reason =>
    "materialization transaction cannot be recovered at " +:+ path_display path +:+ ": " +:+ reason
  | InvalidCacheObject path reason =>
    "cache object is invalid at " +:+ path_display path +:+ ": " +:+ reason
  | MaterializationPackages source => "failed to generate PACKAGES: " +:+ PackagesError_fmt source
  | MaterializationCache path source =>
    "cache error while materializing " +:+ path_display path +:+ ": " +:+ CacheError_fmt source
  end.

(** ** The record of a file *)

Inductive MaterializationMethod := MethodClone | MethodCopy.
#[export] Instance MaterializationMethod_eq_dec : EqDecision MaterializationMethod.
Proof. solve_decision. Defined.

Definition MaterializationMethod_as_str (self : MaterializationMethod) : string :=
  match self with MethodClone => "clone" | MethodCopy => "copy" end.

Record MaterializationRecord := mk_MaterializationRecord {
  record_identity : string;
  record_package : string;
  record_version : string;
  record_artifact_sha256 : string;
  record_size : N;
  record_destination : string;
  record_method : MaterializationMethod;
}.
#[export] Instance MaterializationRecord_eq_dec : EqDecision MaterializationRecord.
Proof. solve_decision. Defined.

(** ** Selected artifacts *)

Section materialization.
Context `{CivilDate}.

Record MaterializationArtifact := mk_MaterializationArtifact {
  selected_identity : ReleaseIdentity;
  selected_version : RPackageVersion;
  selected_artifact : CachedArtifact;
  selected_metadata : ReleaseMetadata;
  selected_publication : option ReleasePublication;
  selected_dependencies : list DeclaredDependency;
}.

Definition MaterializationArtifact_new (identity : ReleaseIdentity) (version : RPackageVersion)
    (artifact : CachedArtifact) : MaterializationArtifact :=
  mk_MaterializationArtifact identity version artifact (mk_ReleaseMetadata []) None [].

Definition with_metadata (self : MaterializationArtifact) (metadata : ReleaseMetadata)
    (dependencies : list DeclaredDependency) : MaterializationArtifact :=
  mk_MaterializationArtifact (selected_identity self) (selected_version self)
    (selected_artifact self) metadata (selected_publication self) dependencies.

Definition with_publication (self : MaterializationArtifact) (publication : ReleasePublication) :
    MaterializationArtifact :=
  mk_MaterializationArtifact (selected_identity self) (selected_version self)
    (selected_artifact self) (selected_metadata self) (Some publication)
    (selected_dependencies self).

Definition MaterializationArtifact_package (self : MaterializationArtifact) : PackageName :=
  ReleaseIdentity_name (selected_identity self).

Definition package_text (self : MaterializationArtifact) : string :=
  PackageName_as_str (MaterializationArtifact_package self).

Definition destination_name (selected : MaterializationArtifact) : string :=
  package_text selected +:+ "_" +:+ version_raw (selected_version selected) +:+ ".tar.gz".

Definition identity_key (identity : ReleaseIdentity) : string :=
  let name := PackageName_as_str (ReleaseIdentity_name identity) in
  match ReleaseIdentity_provenance identity with
  | RBasePackage r_version => "r-base:" +:+ name +:+ "@" +:+ version_raw r_version
  | RegistryRelease namespace version =>
    "registry:" +:+ Identifier_as_str namespace +:+ "::" +:+ name +:+ "@" +:+ version_raw version
  | GitCommit repository commit subdirectory =>
    "git:" +:+ NormalizedGitUrl_as_str repository +:+ "@" +:+ GitCommitId_as_str commit +:+ ":"
      +:+ from_option RepositorySubdir_as_str "" subdirectory +:+ "::" +:+ name
  | BioconductorReleaseOf namespace release version =>
    "bioconductor:" +:+ Identifier_as_str namespace +:+ ":" +:+ Identifier_as_str release
      +:+ "::" +:+ name +:+ "@" +:+ version_raw version
  | ImmutableSource scheme digest =>
    "immutable:" +:+ Identifier_as_str scheme +:+ ":" +:+ Sha256Digest_as_str digest
      +:+ "::" +:+ name
  end.

Definition artifact_cmp (left right : MaterializationArtifact) : comparison :=
  match str_cmp (package_text left) (package_text right) with
  | Eq =>
    match str_cmp (destination_name left) (destination_name right) with
    | Eq => str_cmp (identity_key (selected_identity left)) (identity_key (selected_identity right))
    | c => c
    end
  | c => c
  end.

Definition canonical_artifacts (artifacts : list MaterializationArtifact) :
    list MaterializationArtifact := sort_by artifact_cmp artifacts.

(** ** Validation of a selection *)

(** The version a provenance fixes, when it is not the selected one. *)
Definition version_mismatch (selected : MaterializationArtifact) : option RPackageVersion :=
  match ReleaseIdentity_provenance (selected_identity selected) with
  | RegistryRelease _ version | BioconductorReleaseOf _ _ version | RBasePackage version =>
    if negb (version =?= selected_version selected) then Some version else None
  | GitCommit _ _ _ | ImmutableSource _ _ => None
  end.

(** The loop of [validate_inputs]; the two sets are the names and destinations
    seen so far. *)
Fixpoint validate_artifacts (packages destinations : list string)
    (artifacts : list MaterializationArtifact) : result unit MaterializationError :=
  match artifacts with
  | [] => Ok tt
  | selected :: artifacts =>
    let package := package_text selected in
    let version := version_raw (selected_version selected) in
    if negb (valid_filename_component package) || negb (valid_filename_component version)
    then Err (InvalidInput ("package or version is not a safe filename component: "
                +:+ package +:+ "_" +:+ version))
    else match version_mismatch selected with
    | Some provenance => Err (ProvenanceVersionMismatch package version (version_raw provenance))
    | None =>
      let destination := destination_name selected in
      if bool_decide (destination ∈ destinations) then Err (DuplicateDestination [destination])
      else if bool_decide (package ∈ packages) then Err (DuplicatePackage package)
      else if N.eqb (cached_size (selected_artifact selected)) 0
      then Err (InvalidInput ("cached artifact for " +:+ package +:+ " is empty"))
      else validate_artifacts (package :: packages) (destination :: destinations) artifacts
    end
  end.

Definition validate_inputs (artifacts : list MaterializationArtifact) :
    result unit MaterializationError := validate_artifacts [] [] artifacts.

(** ** Records *)

Definition record_for (selected : MaterializationArtifact) (method : MaterializationMethod) :
    MaterializationRecord := {|
  record_identity := identity_key (selected_identity selected);
  record_package := package_text selected;
  record_version := version_raw (selected_version selected);
  record_artifact_sha256 := Sha256Digest_as_str (cached_sha256 (selected_artifact selected));
  record_size := cached_size (selected_artifact selected);
  record_destination := "repository/src/contrib/" +:+ destination_name selected;
  record_method := method;
|}.

(** ** What is valid *)

(** One artifact can be written: its file name is a plain component, its version
    is the one its provenance fixes, and it is not empty. *)
Definition provenance_agrees (selected : MaterializationArtifact) : Prop :=
  match ReleaseIdentity_provenance (selected_identity selected) with
  | RegistryRelease _ version | BioconductorReleaseOf _ _ version | RBasePackage version =>
    version ≈ selected_version selected
  | GitCommit _ _ _ | ImmutableSource _ _ => True
  end.

Definition artifact_valid (selected : MaterializationArtifact) : Prop :=
  valid_filename_component (package_text selected) = true ∧
  valid_filename_component (version_raw (selected_version selected)) = true ∧
  provenance_agrees selected ∧ cached_size (selected_artifact selected) ≠ 0%N.

Lemma version_mismatch_none selected : version_mismatch selected = None ↔ provenance_agrees selected.
Proof.
  unfold version_mismatch, provenance_agrees.
  destruct (ReleaseIdentity_provenance _); try done;
    match goal with |- context [negb ?b] => change (_ ≈ _) with (b = true); by destruct b end.
Qed.

Lemma validate_artifacts_ok packages destinations l :
  validate_artifacts packages destinations l = Ok tt ↔
    Forall artifact_valid l ∧
    NoDup (package_text <$> l) ∧ NoDup (destination_name <$> l) ∧
    Forall (λ a, package_text a ∉ packages ∧ destination_name a ∉ destinations) l.
Proof.
  revert packages destinations. induction l as [|a l IH]; intros packages destinations.
  { simpl. split; [|done]. intros _. split_and!; constructor. }
  cbn [validate_artifacts]. csimpl. rewrite !NoDup_cons, !Forall_cons. unfold artifact_valid at 1.
  destruct (valid_filename_component (package_text a)); [|naive_solver].
  destruct (valid_filename_component (version_raw _)); [|naive_solver]. cbn [negb orb].
  rewrite <-version_mismatch_none. destruct (version_mismatch a); [naive_solver|].
  case_bool_decide as Hd; [split; [done|naive_solver]|].
  case_bool_decide as Hp; [split; [done|naive_solver]|].
  destruct (N.eqb_spec (cached_size (selected_artifact a)) 0); [split; [done|naive_solver]|].
  rewrite IH. rewrite !list_elem_of_fmap.
  assert (Forall (λ b, package_text b ∉ package_text a :: packages ∧
      destination_name b ∉ destination_name a :: destinations) l ↔
    (¬ (∃ y, package_text a = package_text y ∧ y ∈ l)) ∧
    (¬ (∃ y, destination_name a = destination_name y ∧ y ∈ l)) ∧
    Forall (λ b, package_text b ∉ packages ∧ destination_name b ∉ destinations) l) as ->.
  { rewrite !Forall_forall. setoid_rewrite not_elem_of_cons. naive_solver. }
  naive_solver.
Qed.

Lemma filename_component_bytes s : valid_filename_component s = true → Forall (λ b, is_filename_byte b = true) (bytes s) ∧ s ≠ "".
Proof.
  unfold valid_filename_component. rewrite !andb_true_iff, !negb_true_iff, !bool_decide_eq_false.
  intros [[[? _] _] Hb]. split; [|done]. by apply forallb_Forall.
Qed.

Lemma destination_name_component a : artifact_valid a → valid_filename_component (destination_name a) = true.
Proof.
  intros ([Hp Hne]%filename_component_bytes & [Hv _]%filename_component_bytes & _).
  unfold valid_filename_component, destination_name. rewrite !andb_true_iff, !negb_true_iff.
  rewrite !bool_decide_eq_false. rewrite !bytes_app.
  assert (3 < str_len (package_text a +:+ "_" +:+ version_raw (selected_version a) +:+ ".tar.gz")) as Hlen.
  { unfold str_len. rewrite !bytes_app, !length_app. simpl. lia. }
  split_and!; [intros E; rewrite E in Hlen; unfold str_len in Hlen; simpl in Hlen; lia..|].
  apply forallb_Forall. rewrite !Forall_app. split_and!; [done|by repeat constructor|done|].
  by repeat constructor.
Qed.

(** [validate_inputs] accepts a selection exactly when every artifact can be
    written and no package is selected twice; the files it then names are plain
    components of the directory, one per artifact. *)
Theorem validate_inputs_spec l :
  (validate_inputs l = Ok tt ↔
     Forall artifact_valid l ∧ NoDup (package_text <$> l) ∧ NoDup (destination_name <$> l)) ∧
  (validate_inputs l = Ok tt →
     Forall (λ a, valid_filename_component (destination_name a) = true) l ∧
     Forall (λ a, ∀ b, b ∈ bytes (destination_name a) → byte_is 47 b = false ∧ byte_is 92 b = false) l).
Proof.
  unfold validate_inputs. rewrite validate_artifacts_ok. split.
  - split; [naive_solver|]. intros (? & ? & ?). split_and!; [done..|].
    apply Forall_true. intros a. split; by intros ?%elem_of_nil.
  - intros (Hall & _). split; (eapply Forall_impl; [exact Hall|]); intros a Ha.
    + by apply destination_name_component.
    + pose proof (destination_name_component a Ha) as [Hb _]%filename_component_bytes.
      rewrite Forall_forall in Hb. intros b Hin. specialize (Hb b Hin). clear Hin. split; revert b Hb;
        [apply (byte_excludes is_filename_byte (byte_is 47))|
         apply (byte_excludes is_filename_byte (byte_is 92))]; vm_compute; reflexivity.
Qed.
End materialization.
