(* ===== verification/Manifest.v ===== *)
(** * The typed manifest and its errors ([rsolve/src/manifest.rs])

    The small manifest of the package command, its composition into a request,
    and the errors of all manifest code. *)

From S2P Require Import Prelude RustStd Collections Externals Format Versions Names Publication.
From S2P Require Import Identity Constraints Request FileSystem.

(** ** Errors *)

Inductive ManifestError :=
| RIsNotAPackageRequirement
| DuplicateRequirement (name : PackageName)
| InvalidDependency (error : string)
| ManifestToml (error : string)
| ManifestIo (path : Path) (source : string)
| NotFoundFrom (start : Path)
| UnknownSchema (schema : Z)
| MissingField (field : string)
| InvalidField (field reason : string)
| UnknownField (field : string)
| WrongType (field expected : string)
| UnknownRegistryKind (kind : string)
| InvalidRegistry (reason : string)
| InvalidRepository (reason : string)
| DuplicateRepository (id : RepositoryId)
| EmptyRepositoryPackageAllowlist (id : RepositoryId)
| InvalidRepositoryPackage (repository : RepositoryId) (value reason : string)
| DuplicateRepositoryPackage (repository : RepositoryId) (package : PackageName)
| RepositoryPackageNotAllowed (repository : RepositoryId) (package : PackageName)
| NoVisibleRepositoryFor (package : PackageName)
| UnknownRepositoryReference (id : RepositoryId) (field : string)
| UnknownEnvironmentGroup (environment group : string)
| DuplicateEnvironmentGroup (environment group : string)
| UnknownEnvironment (id : string)
| InvalidVersionConstraint (field reason : string)
| TargetOutsideRConstraint (target constraint : string)
| DirectSourceRequiresAcquisition (name : PackageName)
| InvalidIdentifier (kind value : string)
| InvalidEndpoint (value reason : string)
| SourceConflict (field : string)
| InvalidDependencyField (name reason : string).

(** [{:?}]-free texts of an integer of either sign. *)
Definition Z_to_string (z : Z) : string := pretty z.

Definition ManifestError_fmt (e : ManifestError) : string :=
  match e with
  | RIsNotAPackageRequirement =>
    "R is expressed by the manifest R constraint, not a package requirement"
  | DuplicateRequirement name =>
    "manifest has duplicate direct requirement " +:+ PackageName_as_str name
  | InvalidDependency error => "invalid package requirement: " +:+ error
  | ManifestToml error => "invalid manifest TOML: " +:+ error
  | ManifestIo path source => "failed to read manifest " +:+ path_display path +:+ ": " +:+ source
  | NotFoundFrom start =>
    "no rsolve.toml found from " +:+ path_display start +:+ " to filesystem root"
  | UnknownSchema schema => "unsupported manifest schema " +:+ Z_to_string schema
  | MissingField field => "manifest is missing required field `" +:+ field +:+ "`"
  | InvalidField field reason => "invalid manifest field `" +:+ field +:+ "`: " +:+ reason
  | UnknownField field => "unknown manifest field `" +:+ field +:+ "`"
  | WrongType field expected => "manifest field `" +:+ field +:+ "` must be " +:+ expected
  | UnknownRegistryKind kind => "unknown registry kind `" +:+ kind +:+ "`"
  | InvalidRegistry reason => "invalid registry specification: " +:+ reason
  | InvalidRepository reason => "invalid repository: " +:+ reason
  | DuplicateRepository id => "duplicate repository ID `" +:+ Identifier_as_str id +:+ "`"
  | EmptyRepositoryPackageAllowlist id =>
    "repository `" +:+ Identifier_as_str id
      +:+ "` package allowlist must contain at least one package"
  | InvalidRepositoryPackage repository value reason =>
    "repository `" +:+ Identifier_as_str repository +:+ "` has invalid package `" +:+ value
      +:+ "`: " +:+ reason
  | DuplicateRepositoryPackage repository package =>
    "repository `" +:+ Identifier_as_str repository +:+ "` package allowlist repeats `"
      +:+ PackageName_as_str package +:+ "`"
  | RepositoryPackageNotAllowed repository package =>
    "package `" +:+ PackageName_as_str package +:+ "` is not allowed by repository `"
      +:+ Identifier_as_str repository +:+ "`"
  | NoVisibleRepositoryFor package =>
    "no configured repository allows package `" +:+ PackageName_as_str package +:+ "`"
  | UnknownRepositoryReference id field =>
    "dependency `" +:+ field +:+ "` references unknown repository `" +:+ Identifier_as_str id +:+ "`"
  | UnknownEnvironmentGroup environment group =>
    "environment `" +:+ environment +:+ "` references unknown group `" +:+ group +:+ "`"
  | DuplicateEnvironmentGroup environment group =>
    "environment `" +:+ environment +:+ "` references group `" +:+ group +:+ "` more than once"
  | UnknownEnvironment id => "unknown environment `" +:+ id +:+ "`"
  | InvalidVersionConstraint field reason =>
    "invalid version constraint `" +:+ field +:+ "`: " +:+ reason
  | TargetOutsideRConstraint target constraint =>
    "target R version `" +:+ target +:+ "` does not satisfy constraint `" +:+ constraint +:+ "`"
  | DirectSourceRequiresAcquisition name =>
    "direct source for `" +:+ PackageName_as_str name
      +:+ "` requires acquisition before resolution"
  | InvalidIdentifier kind value => "invalid " +:+ kind +:+ " identifier `" +:+ value +:+ "`"
  | InvalidEndpoint value reason => "invalid endpoint `" +:+ value +:+ "`: " +:+ reason
  | SourceConflict field => "conflicting or unsupported source fields in `" +:+ field +:+ "`"
  | InvalidDependencyField name reason => "invalid dependency `" +:+ name +:+ "`: " +:+ reason
  end.

(** ** The typed manifest *)

Record ManifestDependency := ManifestDependency_new {
  dependency_name : PackageName;
  dependency_constraint : VersionConstraint;
}.

Record ManifestTarget := ManifestTarget_new { manifest_r_version : RPackageVersion }.

Record Manifest := mk_Manifest {
  manifest_r_requirement : VersionConstraint;
  manifest_target : ManifestTarget;
  manifest_requirements : list ManifestDependency;
}.

(** The loop of [validate]: [names] are those seen so far. *)
Fixpoint validate_requirements (names : list PackageName) (l : list ManifestDependency) :
    result unit ManifestError :=
  match l with
  | [] => Ok tt
  | requirement :: l =>
    if PackageName_is "R" (dependency_name requirement) then Err RIsNotAPackageRequirement
    else if bool_decide (dependency_name requirement ∈ names)
    then Err (DuplicateRequirement (dependency_name requirement))
    else validate_requirements (dependency_name requirement :: names) l
  end.

Definition Manifest_validate (self : Manifest) : result unit ManifestError :=
  validate_requirements [] (manifest_requirements self).

Definition Manifest_new (r_requirement : VersionConstraint) (target : ManifestTarget)
    (requirements : list ManifestDependency) : result Manifest ManifestError :=
  let manifest := mk_Manifest r_requirement target requirements in
  let? _ := Manifest_validate manifest in
  Ok manifest.

Definition into_resolution_target (self : ManifestTarget) : ResolutionTarget :=
  mk_ResolutionTarget (manifest_r_version self).

Section manifest.
Context `{CivilDate}.

Definition compose_resolution_request_with_locked (manifest : Manifest) (locked : LockedIdentities) :
    result ResolutionRequest ManifestError :=
  let? _ := Manifest_validate manifest in
  let? roots := try_map (λ requirement,
      let? package := map_err (λ error, InvalidDependency (PackageRequirementError_fmt error))
        (PackageRequirement_new (dependency_name requirement) SourceAny
           (dependency_constraint requirement)) in
      Ok (mk_RootRequirement package HardOnly)) (manifest_requirements manifest) in
  Ok (ResolutionRequest_new roots (into_resolution_target (manifest_target manifest))
        (manifest_r_requirement manifest) locked).

Definition compose_resolution_request (manifest : Manifest) :
    result ResolutionRequest ManifestError := compose_resolution_request_with_locked manifest [].
Definition into_resolution_request (self : Manifest) : result ResolutionRequest ManifestError :=
  compose_resolution_request self.
End manifest.

(** ** What is valid *)

Lemma validate_requirements_ok names l :
  validate_requirements names l = Ok tt ↔
    NoDup (dependency_name <$> l) ∧
    Forall (λ d, PackageName_as_str (dependency_name d) ≠ "R" ∧ dependency_name d ∉ names) l.
Proof.
  revert names. induction l as [|d l IH]; intros names; simpl.
  { split; [|done]. intros _. split; constructor. }
  rewrite NoDup_cons, Forall_cons. unfold PackageName_is.
  case_bool_decide as HR; [naive_solver|]. case_bool_decide as Hin; [naive_solver|].
  rewrite IH, list_elem_of_fmap, !Forall_forall. setoid_rewrite not_elem_of_cons. naive_solver.
Qed.

Lemma compose_request_ok `{CivilDate} manifest locked :
  compose_resolution_request_with_locked manifest locked =
    let? _ := Manifest_validate manifest in
    Ok (ResolutionRequest_new
          ((λ d, mk_RootRequirement
                   (mk_PackageRequirement (dependency_name d) SourceAny (dependency_constraint d))
                   HardOnly) <$> manifest_requirements manifest)
          (into_resolution_target (manifest_target manifest)) (manifest_r_requirement manifest) locked).
Proof.
  unfold compose_resolution_request_with_locked. destruct (Manifest_validate manifest); [|done].
  cbn [result_bind]. induction (manifest_requirements manifest) as [|d l IH]; [done|].
  cbn [try_map]. destruct (try_map _ l); [|done]. cbn [result_bind] in *. by injection IH as ->.
Qed.
