(* ===== verification/Locators.v ===== *)
(** * Repositories and locators ([rsolve/src/manifest/repository.rs], [DirectUrl] of
      [manifest/wire.rs])

    Endpoints, registries and repository specifications, and the normalisation of
    paths and subdirectories. *)

From S2P Require Import Prelude RustStd Collections Externals Text Format Versions Names.
From S2P Require Import Digest Manifest.

Definition slash : byte := byte_of 47.
Definition is_slash : byte → bool := byte_is 47.
Definition is_backslash : byte → bool := byte_is 92.
Definition DOT : string := ".".
Definition DOT_DOT : string := "..".

(** [value.chars().any(char::is_control)] *)
Definition has_control (s : string) : bool := existsb char_is_control (chars s).

(** ** Dot segments *)

Inductive DotSegment := SegmentCurrent | SegmentParent.

(** The byte loop: the number of literal and encoded dots, when there is nothing
    else. *)
Fixpoint count_dots (l : list byte) : option nat :=
  match l with
  | [] => Some 0
  | b :: l =>
    if byte_is 46 b then S <$> count_dots l
    else match l with
         | c :: d :: l =>
           if byte_is 37 b && byte_is 50 c && (byte_is 101 d || byte_is 69 d)
           then S <$> count_dots l else None
         | _ => None
         end
  end.

Definition dot_segment_kind (segment : string) : option DotSegment :=
  if bool_decide (segment = DOT) then Some SegmentCurrent
  else if bool_decide (segment = DOT_DOT) then Some SegmentParent
  else match count_dots (bytes segment) with
       | Some 1 => Some SegmentCurrent
       | Some 2 => Some SegmentParent
       | _ => None
       end.

(** One part of the path; [parts] is the vector so far. *)
Definition url_path_step (path : string) (parts : list string) (part : string) :
    result (list string) ManifestError :=
  let escapes := InvalidEndpoint path "path escapes the URL root" in
  match dot_segment_kind part with
  | Some SegmentCurrent => Ok parts
  | Some SegmentParent =>
    let absolute := starts_with slash path in
    let? parts :=
      match last parts with
      | Some l =>
        if bool_decide (l = "") && Nat.eqb (length parts) 1 && absolute then Err escapes
        else Ok (removelast parts)
      | None => Err escapes
      end in
    if bool_decide (parts = []) && absolute then Err escapes else Ok parts
  | None => Ok (parts ++ [part])
  end.

Definition normalize_url_path (path : string) : result string ManifestError :=
  if existsb (λ c, char_is_control c || char_is_whitespace c) (chars path)
  then Err (InvalidEndpoint path "path contains control or whitespace")
  else
    let? parts := try_fold (url_path_step path) [] (str_split is_slash path) in
    let joined := str_join "/" parts in
    let closed := if ends_with slash path && negb (ends_with slash joined)
                  then joined +:+ "/" else joined in
    Ok (if bool_decide (closed = "") then closed +:+ "/" else closed).

(** One segment; [segments] is the vector so far. *)
Definition raw_escape_step (input : string) (segments : list string) (segment : string) :
    result (list string) ManifestError :=
  match dot_segment_kind segment with
  | Some SegmentCurrent => Ok segments
  | Some SegmentParent =>
    if Nat.leb (length segments) 1 then Err (InvalidEndpoint input "path escapes the URL root")
    else Ok (removelast segments)
  | None => Ok (segments ++ [segment])
  end.

(** What follows [://]. *)
Definition after_scheme (input : string) : option string :=
  (λ index, from_utf8 (drop (index + 3) (bytes input))) <$> find_sub (bytes "://") (bytes input).

(** [split(['?', '#']).next().unwrap_or("")] *)
Definition before_query (s : string) : string :=
  default "" (head (str_split (λ b, byte_is 63 b || byte_is 35 b) s)).

Definition reject_raw_root_escape (input : string) : result unit ManifestError :=
  match after_scheme input with
  | None => Ok tt
  | Some rest =>
    let authority_and_path := before_query rest in
    if str_contains is_backslash authority_and_path
    then Err (InvalidEndpoint input "backslashes are forbidden in HTTP(S) URL authority or path")
    else
      let path := match find_index is_slash (bytes authority_and_path) with
                  | Some index => from_utf8 (drop index (bytes authority_and_path))
                  | None => ""
                  end in
      let? _ := try_fold (raw_escape_step input) [] (str_split is_slash (before_query path)) in
      Ok tt
  end.

(** ** Endpoints *)

Record Endpoint := mk_Endpoint { Endpoint_as_str : string }.
#[export] Instance Endpoint_eq_dec : EqDecision Endpoint.
Proof. solve_decision. Defined.
Record DirectUrl := mk_DirectUrl { DirectUrl_as_str : string }.
#[export] Instance DirectUrl_eq_dec : EqDecision DirectUrl.
Proof. solve_decision. Defined.

Definition Endpoint_scheme (self : Endpoint) : string :=
  match split_once (byte_is 58) (bytes (Endpoint_as_str self)) with
  | Some (scheme, _) => from_utf8 scheme
  | None => ""
  end.

Section urls.
Context `{Urls}.

Definition Endpoint_parse (original : string) : result Endpoint ManifestError :=
  let? _ := reject_raw_root_escape original in
  let? url := map_err (InvalidEndpoint original) (Url_parse original) in
  let invalid {T} (reason : string) : result T ManifestError := Err (InvalidEndpoint original reason) in
  if negb (bool_decide (Url_scheme url = "http")) && negb (bool_decide (Url_scheme url = "https"))
  then invalid ("scheme `" +:+ Url_scheme url +:+ "` is not HTTP or HTTPS")
  else if negb (bool_decide (is_Some (Url_host_str url)))
  then invalid "an absolute URL with a host is required"
  else if negb (bool_decide (Url_username url = "")) || bool_decide (is_Some (Url_password url))
  then invalid "credentials are forbidden"
  else if bool_decide (is_Some (Url_query url)) || bool_decide (is_Some (Url_fragment url))
  then invalid "query and fragment are forbidden"
  else if bool_decide (Url_port url = Some 0%N)
  then invalid "port zero is forbidden"
  else
    let? path := normalize_url_path (Url_path url) in
    let url := Url_set_path url path in
    let? url :=
      (if (bool_decide (Url_scheme url = "http") && bool_decide (Url_port url = Some 80%N))
          || (bool_decide (Url_scheme url = "https") && bool_decide (Url_port url = Some 443%N))
       then map_err (λ _, InvalidEndpoint original "invalid default port") (Url_set_port url None)
       else Ok url) in
    Ok (mk_Endpoint (Url_to_string url)).

Definition DirectUrl_parse (original : string) : result DirectUrl ManifestError :=
  let? _ := reject_raw_root_escape original in
  let? url := map_err (InvalidEndpoint original) (Url_parse original) in
  if negb (bool_decide (Url_scheme url = "https")) || negb (bool_decide (is_Some (Url_host_str url)))
  then Err (InvalidEndpoint original "direct source URL must be an absolute HTTPS URL")
  else if negb (bool_decide (Url_username url = "")) || bool_decide (is_Some (Url_password url))
          || bool_decide (is_Some (Url_fragment url))
  then Err (InvalidEndpoint original "direct source URL forbids credentials and fragments")
  else
    let? path := normalize_url_path (Url_path url) in
    let url := Url_set_path url path in
    let? url :=
      (if bool_decide (Url_port url = Some 443%N)
       then map_err (λ _, InvalidEndpoint original "invalid default port") (Url_set_port url None)
       else Ok url) in
    Ok (mk_DirectUrl (Url_to_string url)).
End urls.

(** ** Registries and repositories *)

Inductive RegistrySpec := Cran | CranLike (namespace : PackageNamespace) | RUniverse.
#[export] Instance RegistrySpec_eq_dec : EqDecision RegistrySpec.
Proof. solve_decision. Defined.

Inductive RegistryProvenancePolicy := FixedNamespace (namespace : PackageNamespace) | GitMetadata.

Definition RESERVED_NAMESPACE : ManifestError :=
  InvalidRegistry "cran-like cannot use reserved namespace `cran`".

Definition RegistrySpec_cran_like (namespace : PackageNamespace) : result RegistrySpec ManifestError :=
  if bool_decide (Identifier_as_str namespace = "cran") then Err RESERVED_NAMESPACE
  else Ok (CranLike namespace).

Definition RegistrySpec_provenance_policy (self : RegistrySpec) : RegistryProvenancePolicy :=
  match self with
  | Cran => FixedNamespace (mk_Identifier "cran")
  | CranLike namespace => FixedNamespace namespace
  | RUniverse => GitMetadata
  end.

Definition RegistrySpec_tag (self : RegistrySpec) : string :=
  match self with Cran => "cran" | CranLike _ => "cran-like" | RUniverse => "r-universe" end.

Definition reserved_registry (registry : RegistrySpec) : bool :=
  match registry with
  | CranLike namespace => bool_decide (Identifier_as_str namespace = "cran")
  | _ => false
  end.

Record RepositorySpec := mk_RepositorySpec {
  spec_id : RepositoryId;
  spec_registry : RegistrySpec;
  manifest_endpoint : Endpoint;
  spec_packages : option (list PackageName);
}.
#[export] Instance RepositorySpec_eq_dec : EqDecision RepositorySpec.
Proof. solve_decision. Defined.

Record EffectiveRepository := mk_EffectiveRepository {
  effective_spec : RepositorySpec;
  effective_endpoint : Endpoint;
}.

Definition validate_named_id (value kind : string) : result unit ManifestError :=
  if bool_decide (value = "") || Nat.ltb 64 (str_len value)
     || negb (match bytes value with b :: _ => is_ascii_lowercase b | [] => false end)
     || negb (forallb (λ b, is_ascii_lowercase b || is_ascii_digit b || byte_is 95 b || byte_is 45 b)
                (bytes value))
  then Err (InvalidIdentifier kind value)
  else Ok tt.

Definition validate_repository_id (id : RepositoryId) : result unit ManifestError :=
  validate_named_id (Identifier_as_str id) "repository".

Definition validate_selector (value context : string) : result unit ManifestError :=
  if bool_decide (value = "") || Nat.ltb 1024 (str_len value) || has_control value
  then Err (InvalidDependencyField context
              "Git selector must be a non-empty, bounded, non-control string")
  else Ok tt.

(** [windows(2).find(|w| w[0] == w[1])], the first of the pair. *)
Fixpoint adjacent_duplicate (l : list PackageName) : option PackageName :=
  match l with
  | x :: (y :: _) as rest => if bool_decide (x = y) then Some x else adjacent_duplicate rest
  | _ => None
  end.

Definition RepositorySpec_new_with_packages (id : RepositoryId) (registry : RegistrySpec)
    (endpoint : Endpoint) (packages : option (list PackageName)) :
    result RepositorySpec ManifestError :=
  let? _ := validate_repository_id id in
  if reserved_registry registry then Err RESERVED_NAMESPACE
  else
    let? packages :=
      match packages with
      | None => Ok None
      | Some [] => Err (EmptyRepositoryPackageAllowlist id)
      | Some packages =>
        let canonical := sort_by PackageName_cmp packages in
        match adjacent_duplicate canonical with
        | Some package => Err (DuplicateRepositoryPackage id package)
        | None => Ok (Some canonical)
        end
      end in
    Ok (mk_RepositorySpec id registry endpoint packages).

Definition RepositorySpec_new (id : RepositoryId) (registry : RegistrySpec) (endpoint : Endpoint) :
    result RepositorySpec ManifestError := RepositorySpec_new_with_packages id registry endpoint None.

Definition RepositorySpec_effective (self : RepositorySpec) (endpoint : Endpoint) :
    EffectiveRepository := mk_EffectiveRepository self endpoint.

Definition package_allowed (self : RepositorySpec) (package : PackageName) : bool :=
  match spec_packages self with
  | None => true
  | Some packages => binary_search_is_ok PackageName_cmp package packages
  end.

Definition EffectiveRepository_package_allowed (self : EffectiveRepository) (package : PackageName) :
    bool := package_allowed (effective_spec self) package.

(** ** Digests *)

(** [(field.len() as u64).to_be_bytes()], then the field. *)
Definition append_field (payload value : list byte) : list byte :=
  payload ++ u64_to_be_bytes (len_u64 value) ++ value.

Definition MANIFEST_DOMAIN : list byte := bytes "rsolve.manifest.v1" ++ [byte_of 0].

Definition digest_fields `{Sha2} (fields : list (list byte)) : list byte :=
  sha256_digest (foldl append_field MANIFEST_DOMAIN fields).

Definition configured_registry_id_for `{Sha2} (registry : RegistrySpec) (endpoint : Endpoint) :
    result RegistryId ManifestError :=
  let namespace := match registry with
                   | CranLike namespace => [bytes (Identifier_as_str namespace)]
                   | _ => []
                   end in
  let fields := [bytes (RegistrySpec_tag registry)] ++ namespace ++ [bytes (Endpoint_as_str endpoint)] in
  map_err (λ error, InvalidRepository (IdentifierError_fmt error))
    (Identifier_new KRegistryId (hex_encode (digest_fields fields))).

Definition configured_registry_id `{Sha2} (self : RepositorySpec) : result RegistryId ManifestError :=
  configured_registry_id_for (spec_registry self) (manifest_endpoint self).

(** ** Relative paths *)

(** The loop over the components of a subdirectory. *)
Definition subdirectory_step (parts : list string) (component : string) :
    result (list string) string :=
  if bool_decide (component = "") || bool_decide (component = DOT) then Ok parts
  else if bool_decide (component = DOT_DOT) then
    match parts with
    | [] => Err "subdirectory escapes the source root"
    | _ => Ok (removelast parts)
    end
  else Ok (parts ++ [component]).

Definition normalize_relative_subdirectory (value : string) : result string string :=
  if bool_decide (value = "") || starts_with slash value || str_contains is_backslash value
  then Err "subdirectory must be a non-empty relative slash path"
  else if has_control value then Err "subdirectory contains a control character"
  else
    let? parts := try_fold subdirectory_step [] (str_split is_slash value) in
    match parts with
    | [] => Err "subdirectory must contain a path component"
    | _ => Ok (str_join "/" parts)
    end.

Definition validate_relative_subdirectory (value : string) : result unit string :=
  let? _ := normalize_relative_subdirectory value in Ok tt.

(** The loop over the components of a requested path: it may start with parents. *)
Definition requested_step (parts : list string) (component : string) : list string :=
  if bool_decide (component = "") || bool_decide (component = DOT) then parts
  else if bool_decide (component = DOT_DOT) then
    match last parts with
    | Some l => if bool_decide (l = DOT_DOT) then parts ++ [DOT_DOT] else removelast parts
    | None => parts ++ [DOT_DOT]
    end
  else parts ++ [component].

Definition second_is_colon (s : string) : bool :=
  match bytes s with _ :: b :: _ => byte_is 58 b | _ => false end.

Definition normalize_requested_path (value : string) : result string string :=
  let value := replace_byte is_backslash slash value in
  if starts_with slash value || has_prefix (bytes "//") (bytes value) || second_is_colon value
  then Err "path must not be absolute or use a drive/UNC prefix"
  else if has_control value then Err "path contains a control character"
  else
    let parts := foldl requested_step [] (str_split is_slash value) in
    if bool_decide (parts = []) || bool_decide (last parts = Some DOT_DOT)
    then Err "path must have a non-empty final component"
    else Ok (str_join "/" parts).
