(* ===== verification/ManifestWire.v ===== *)
(** * The manifest document ([rsolve/src/manifest/wire.rs])

    Decoding of [rsolve.toml], section by section, and the search for the file. *)

From S2P Require Import Prelude Effects RustStd Collections Externals Text Format Versions Names.
From S2P Require Import GitUrl Publication Digest FileSystem Directories Manifest Locators.

(** ** The document *)

Inductive GitSelector :=
| DefaultBranch
| SelectBranch (value : string)
| SelectTag (value : string)
| SelectRev (value : string).
#[export] Instance GitSelector_eq_dec : EqDecision GitSelector.
Proof. solve_decision. Defined.

Inductive ManifestSource :=
| ManifestRegistry (repository : option RepositoryId)
| ManifestGit (url : NormalizedGitUrl) (selector : GitSelector) (subdirectory : option string)
| ManifestUrl (url : DirectUrl) (sha256 : option Sha256Digest)
| ManifestPath (path : string) (sha256 : option Sha256Digest).
#[export] Instance ManifestSource_eq_dec : EqDecision ManifestSource.
Proof. solve_decision. Defined.

Record ManifestDependencySpec := mk_ManifestDependencySpec {
  spec_version : string;
  spec_source : ManifestSource;
  include_suggests : bool;
}.
#[export] Instance ManifestDependencySpec_eq_dec : EqDecision ManifestDependencySpec.
Proof. solve_decision. Defined.

(** A [BTreeMap] of dependencies. *)
Notation DependencyMap := (list (PackageName * ManifestDependencySpec)) (only parsing).

(** ** Tables *)

Notation TomlMap := (list (string * TomlValue)) (only parsing).

Fixpoint toml_get (key : string) (t : TomlMap) : option TomlValue :=
  match t with
  | [] => None
  | (k, v) :: t => if bool_decide (k = key) then Some v else toml_get key t
  end.
Definition has_key (keys : list string) (t : TomlMap) : bool :=
  existsb (λ kv : string * TomlValue, bool_decide (kv.1 ∈ keys)) t.

Definition as_table (field expected : string) (value : TomlValue) : result TomlMap ManifestError :=
  match value with TomlTable t => Ok t | _ => Err (WrongType field expected) end.
Definition as_array (field expected : string) (value : TomlValue) :
    result (list TomlValue) ManifestError :=
  match value with TomlArray l => Ok l | _ => Err (WrongType field expected) end.
Definition as_string (field expected : string) (value : TomlValue) : result string ManifestError :=
  match value with TomlString s => Ok s | _ => Err (WrongType field expected) end.

Definition reject_unknown (t : TomlMap) (allowed : list string) (context : string) :
    result unit ManifestError :=
  match find (λ kv : string * TomlValue, negb (bool_decide (kv.1 ∈ allowed))) t with
  | Some (field, _) => Err (UnknownField (context +:+ "." +:+ field))
  | None => Ok tt
  end.

Definition table (root : TomlMap) (key : string) : result TomlMap ManifestError :=
  match toml_get key root with
  | Some (TomlTable value) => Ok value
  | Some _ => Err (WrongType key "table")
  | None => Err (MissingField key)
  end.

Definition string_field (t : TomlMap) (key : string) : result (option string) ManifestError :=
  match toml_get key t with
  | None => Ok None
  | Some (TomlString value) => Ok (Some value)
  | Some _ => Err (WrongType key "string")
  end.

Definition required_string (t : TomlMap) (key : string) : result string ManifestError :=
  let? value := string_field t key in ok_or (MissingField key) value.

Definition integer_field (t : TomlMap) (key : string) : result (option Z) ManifestError :=
  match toml_get key t with
  | None => Ok None
  | Some (TomlInteger value) => Ok (Some value)
  | Some _ => Err (WrongType key "integer")
  end.

Definition parse_optional_string (root : TomlMap) (section key : string) :
    result (option string) ManifestError :=
  match toml_get section root with
  | None => Ok None
  | Some value =>
    let? t := as_table section "table" value in
    let? _ := reject_unknown t [key] section in
    string_field t key
  end.

Definition parse_required_section_string (root : TomlMap) (section key : string) :
    result string ManifestError :=
  let field := section +:+ "." +:+ key in
  let? value := ok_or (MissingField section) (toml_get section root) in
  let? t := as_table section "table" value in
  let? _ := reject_unknown t [key] section in
  let? found := string_field t key in
  let? value := ok_or (MissingField field) found in
  if bool_decide (value = "") || has_control value
  then Err (InvalidField field "constraint must be non-empty and contain no control characters")
  else Ok value.

Definition validate_version (value context : string) : result unit ManifestError :=
  if bool_decide (value = "") || has_control value
  then Err (InvalidDependencyField context
              "version must be non-empty and contain no control characters")
  else Ok tt.

(** ** Repositories *)

Definition parse_registry (value : option TomlValue) : result RegistrySpec ManifestError :=
  let? value := ok_or (MissingField "repositories[].registry") value in
  let? (kind, namespace) :=
    match value with
    | TomlString kind => Ok (kind, None)
    | TomlTable t =>
      let? _ := reject_unknown t ["kind"; "namespace"] "repositories[].registry" in
      let? kind := required_string t "kind" in
      let? namespace := string_field t "namespace" in
      Ok (kind, namespace)
    | _ => Err (WrongType "repositories[].registry" "string or table")
    end in
  if bool_decide (kind = "cran") then
    if bool_decide (is_Some namespace) then Err (InvalidRegistry "cran does not accept namespace")
    else Ok Cran
  else if bool_decide (kind = "cran-like") then
    let? namespace := ok_or (InvalidRegistry "cran-like requires namespace") namespace in
    if bool_decide (namespace = "cran") then Err RESERVED_NAMESPACE
    else
      let? namespace := map_err (λ error, InvalidRegistry (IdentifierError_fmt error))
                          (Identifier_new KPackageNamespace namespace) in
      RegistrySpec_cran_like namespace
  else if bool_decide (kind = "r-universe") then
    if bool_decide (is_Some namespace) then Err (InvalidRegistry "r-universe is parameterless")
    else Ok RUniverse
  else Err (UnknownRegistryKind kind).

Definition parse_repository_packages (value : option TomlValue) (repository : RepositoryId) :
    result (option (list PackageName)) ManifestError :=
  match value with
  | None => Ok None
  | Some value =>
    let field := "repositories[" +:+ Identifier_as_str repository +:+ "].packages" in
    let? entries := as_array field "array of package names" value in
    let? packages := try_map (λ entry,
      let? value := as_string (field +:+ "[]") "package name string" entry in
      map_err (λ error, InvalidRepositoryPackage repository value (PackageNameError_fmt error))
        (PackageName_new value)) entries in
    Ok (Some packages)
  end.

Section urls.
Context `{Urls}.

(** The loop: [ids] are those seen so far. *)
Fixpoint parse_repository_entries (ids : list RepositoryId) (entries : list TomlValue) :
    result (list RepositorySpec) ManifestError :=
  match entries with
  | [] => Ok []
  | entry :: entries =>
    let? t := as_table "repositories[]" "table" entry in
    let? _ := reject_unknown t ["id"; "url"; "registry"; "packages"] "repositories[]" in
    let? text := required_string t "id" in
    let? id := map_err (λ error, InvalidRepository (IdentifierError_fmt error))
                 (Identifier_new KRepositoryId text) in
    let? _ := validate_repository_id id in
    if bool_decide (id ∈ ids) then Err (DuplicateRepository id)
    else
      let? url := required_string t "url" in
      let? endpoint := Endpoint_parse url in
      let? registry := parse_registry (toml_get "registry" t) in
      let? packages := parse_repository_packages (toml_get "packages" t) id in
      let? spec := RepositorySpec_new_with_packages id registry endpoint packages in
      let? rest := parse_repository_entries (id :: ids) entries in
      Ok (spec :: rest)
  end.

Definition parse_repositories (value : option TomlValue) : result (list RepositorySpec) ManifestError :=
  match value with
  | None => Ok []
  | Some value =>
    let? entries := as_array "repositories" "array of tables" value in
    parse_repository_entries [] entries
  end.

(** ** Dependencies *)

Definition SELECTOR_KEYS : list string := ["branch"; "tag"; "rev"].
Definition SOURCE_KEYS : list string := ["branch"; "tag"; "rev"; "sha256"; "subdirectory"].

Definition parse_sha256 (t : TomlMap) (context : string) : result (option Sha256Digest) ManifestError :=
  let? found := string_field t "sha256" in
  match found with
  | None => Ok None
  | Some digest =>
    let? digest := map_err (λ error, InvalidDependencyField context (DigestError_fmt error))
                     (Sha256Digest_new digest) in
    Ok (Some digest)
  end.

Definition parse_repository_source (t : TomlMap) (context repository : string) :
    result ManifestSource ManifestError :=
  let? id := map_err (λ error, InvalidRepository (IdentifierError_fmt error))
               (Identifier_new KRepositoryId repository) in
  let? _ := validate_repository_id id in
  if has_key SOURCE_KEYS t then Err (SourceConflict context) else Ok (ManifestRegistry (Some id)).

Definition parse_selector (context : string) (branch tag rev : option string) :
    result GitSelector ManifestError :=
  match branch, tag, rev with
  | Some value, _, _ => let? _ := validate_selector value context in Ok (SelectBranch value)
  | None, Some value, _ => let? _ := validate_selector value context in Ok (SelectTag value)
  | None, None, Some value => let? _ := validate_selector value context in Ok (SelectRev value)
  | None, None, None => Ok DefaultBranch
  end.

Definition count_some {A} (l : list (option A)) : nat := length (List.filter (λ o, bool_decide (is_Some o)) l).

Definition parse_git_source (t : TomlMap) (context git : string) (subdirectory : option string) :
    result ManifestSource ManifestError :=
  let? url := map_err (λ error, InvalidDependencyField context (NormalizedGitUrlError_fmt error))
                (NormalizedGitUrl_new git) in
  let? branch := string_field t "branch" in
  let? tag := string_field t "tag" in
  let? rev := string_field t "rev" in
  if Nat.ltb 1 (count_some [branch; tag; rev]) then Err (SourceConflict context)
  else
    let? selector := parse_selector context branch tag rev in
    if has_key ["sha256"] t then Err (SourceConflict context)
    else
      let? _ := match subdirectory with
                | Some subdirectory =>
                  map_err (InvalidDependencyField context) (validate_relative_subdirectory subdirectory)
                | None => Ok tt
                end in
      Ok (ManifestGit url selector subdirectory).

Definition parse_url_source (t : TomlMap) (context url : string) (subdirectory : option string) :
    result ManifestSource ManifestError :=
  if bool_decide (is_Some subdirectory) then Err (SourceConflict context)
  else
    let? url := DirectUrl_parse url in
    let? sha256 := parse_sha256 t context in
    if has_key SELECTOR_KEYS t then Err (SourceConflict context) else Ok (ManifestUrl url sha256).

Definition parse_path_source (t : TomlMap) (context path : string) (subdirectory : option string) :
    result ManifestSource ManifestError :=
  if starts_with slash path || bool_decide (path = "")
  then Err (InvalidDependencyField context "path must be a non-empty relative path")
  else if has_key SELECTOR_KEYS t then Err (SourceConflict context)
  else
    let? sha256 := parse_sha256 t context in
    if bool_decide (is_Some subdirectory) then Err (SourceConflict context)
    else
      let? path := map_err (InvalidDependencyField context) (normalize_requested_path path) in
      Ok (ManifestPath path sha256).

Definition DEPENDENCY_KEYS : list string :=
  ["version"; "repository"; "git"; "branch"; "tag"; "rev"; "subdirectory"; "url"; "sha256"; "path";
   "include-suggests"].

Definition parse_dependency_table (t : TomlMap) (context : string) :
    result ManifestDependencySpec ManifestError :=
  let? _ := reject_unknown t DEPENDENCY_KEYS context in
  let? found := string_field t "version" in
  let version := default "*" found in
  let? _ := validate_version version context in
  let? include :=
    match toml_get "include-suggests" t with
    | None => Ok false
    | Some (TomlBoolean value) => Ok value
    | Some _ => Err (WrongType (context +:+ ".include-suggests") "boolean")
    end in
  let? subdirectory := string_field t "subdirectory" in
  let? repository := string_field t "repository" in
  let? git := string_field t "git" in
  let? direct_url := string_field t "url" in
  let? path := string_field t "path" in
  if Nat.ltb 1 (count_some [repository; git; direct_url; path]) then Err (SourceConflict context)
  else
    let? source :=
      match repository, git, direct_url, path with
      | Some repository, _, _, _ => parse_repository_source t context repository
      | None, Some git, _, _ => parse_git_source t context git subdirectory
      | None, None, Some url, _ => parse_url_source t context url subdirectory
      | None, None, None, Some path => parse_path_source t context path subdirectory
      | None, None, None, None =>
        if has_key SOURCE_KEYS t then Err (SourceConflict context) else Ok (ManifestRegistry None)
      end in
    Ok (mk_ManifestDependencySpec version source include).

Definition parse_dependency (value : TomlValue) (context : string) :
    result ManifestDependencySpec ManifestError :=
  match value with
  | TomlString version =>
    let? _ := validate_version version context in
    Ok (mk_ManifestDependencySpec version (ManifestRegistry None) false)
  | TomlTable t => parse_dependency_table t context
  | _ => Err (WrongType context "string or table")
  end.

Definition parse_dependencies (value : option TomlValue) (context : string) :
    result DependencyMap ManifestError :=
  match value with
  | None => Ok []
  | Some value =>
    let? t := as_table context "table" value in
    let? entries := try_map (λ kv : string * TomlValue,
      let? package := map_err (λ error, InvalidDependencyField kv.1 (PackageNameError_fmt error))
                        (PackageName_new kv.1) in
      if PackageName_is "R" package then Err RIsNotAPackageRequirement
      else
        let? dependency := parse_dependency kv.2 (context +:+ "." +:+ kv.1) in
        Ok (package, dependency)) t in
    Ok (bt_from_iter PackageName_cmp entries)
  end.

(** ** Groups and environments *)

Definition parse_groups (value : option TomlValue) : result (list (string * DependencyMap)) ManifestError :=
  match value with
  | None => Ok []
  | Some value =>
    let? groups := as_table "groups" "table" value in
    let? entries := try_map (λ kv : string * TomlValue,
      let field := "groups." +:+ kv.1 in
      let? _ := validate_named_id kv.1 "group" in
      let? t := as_table field "table" kv.2 in
      let? _ := reject_unknown t ["dependencies"] field in
      let? dependencies := parse_dependencies (toml_get "dependencies" t) (field +:+ ".dependencies") in
      Ok (kv.1, dependencies)) groups in
    Ok (bt_from_iter str_cmp entries)
  end.

Definition parse_environments (value : option TomlValue) :
    result (list (string * list string)) ManifestError :=
  match value with
  | None => Ok []
  | Some value =>
    let? environments := as_table "environments" "table" value in
    let? entries := try_map (λ kv : string * TomlValue,
      let field := "environments." +:+ kv.1 in
      let? _ := map_err (λ _, InvalidIdentifier "environment" kv.1) (EnvironmentId_new kv.1) in
      let? groups := as_array field "array of strings" kv.2 in
      let? groups := try_map (as_string (field +:+ "[]") "string") groups in
      Ok (kv.1, groups)) environments in
    Ok (bt_from_iter str_cmp entries)
  end.

(** ** References *)

Definition check_reference (repository_ids : list RepositoryId) (field : string)
    (source : ManifestSource) : result unit ManifestError :=
  match source with
  | ManifestRegistry (Some id) =>
    if negb (bool_decide (id ∈ repository_ids)) then Err (UnknownRepositoryReference id field) else Ok tt
  | _ => Ok tt
  end.

Definition validate_repository_references (dependencies : DependencyMap)
    (groups : list (string * DependencyMap)) (repository_ids : list RepositoryId) :
    result unit ManifestError :=
  let? _ := try_map (λ nd : PackageName * ManifestDependencySpec,
    check_reference repository_ids (PackageName_as_str nd.1) (spec_source nd.2)) dependencies in
  let? _ := try_map (λ gd : string * DependencyMap, try_map (λ nd : PackageName * ManifestDependencySpec,
    check_reference repository_ids ("groups." +:+ gd.1 +:+ "." +:+ PackageName_as_str nd.1)
      (spec_source nd.2)) gd.2) groups in
  Ok tt.

(** The groups of one environment; [seen] are those met so far. *)
Fixpoint validate_group_references (environment : string) (known seen references : list string) :
    result unit ManifestError :=
  match references with
  | [] => Ok tt
  | group :: references =>
    if negb (bool_decide (group ∈ known)) then Err (UnknownEnvironmentGroup environment group)
    else if bool_decide (group ∈ seen) then Err (DuplicateEnvironmentGroup environment group)
    else validate_group_references environment known (group :: seen) references
  end.

Definition validate_environment_references (environments : list (string * list string))
    (groups : list (string * DependencyMap)) : result unit ManifestError :=
  let? _ := try_map (λ er : string * list string,
    validate_group_references er.1 groups.*1 [] er.2) environments in
  Ok tt.

(** ** The document *)

Section document.
Context `{CivilDate, UnicodeTables, Sha2, TomlValues}.

Record ManifestDocument := mk_ManifestDocument {
  schema : N;
  project_root : option (list string);
  r_requirement_text : string;
  published_before : option PublicationDate;
  repositories : list RepositorySpec;
  dependencies : DependencyMap;
  groups : list (string * DependencyMap);
  environments : list (string * list string);
}.

Definition parse_optional_date (root : TomlMap) (section key : string) :
    result (option PublicationDate) ManifestError :=
  let? found := parse_optional_string root section key in
  match found with
  | None => Ok None
  | Some value =>
    let? date := map_err (λ error, InvalidField (section +:+ "." +:+ key) (PublicationDateError_fmt error))
                   (PublicationDate_parse value) in
    Ok (Some date)
  end.

Definition ROOT_KEYS : list string :=
  ["rsolve"; "r"; "resolution"; "repositories"; "dependencies"; "groups"; "environments"].

Definition parse_manifest_value (value : TomlValue) (root_path : option (list string)) :
    result ManifestDocument ManifestError :=
  let? root := as_table "root" "table" value in
  let? _ := reject_unknown root ROOT_KEYS "root" in
  let? rsolve := table root "rsolve" in
  let? _ := reject_unknown rsolve ["schema"] "rsolve" in
  let? found := integer_field rsolve "schema" in
  let? schema := ok_or (MissingField "rsolve.schema") found in
  if negb (Z.eqb schema 1) then Err (UnknownSchema schema)
  else
    let? r_requirement := parse_required_section_string root "r" "version" in
    let? published_before := parse_optional_date root "resolution" "published-before" in
    let? repositories := parse_repositories (toml_get "repositories" root) in
    let? dependencies := parse_dependencies (toml_get "dependencies" root) "dependencies" in
    let? groups := parse_groups (toml_get "groups" root) in
    let? environments := parse_environments (toml_get "environments" root) in
    let? _ := validate_repository_references dependencies groups (spec_id <$> repositories) in
    let? _ := validate_environment_references environments groups in
    Ok (mk_ManifestDocument (Z.to_N schema) root_path r_requirement published_before repositories
          dependencies groups environments).

Definition parse_manifest (input : string) : result ManifestDocument ManifestError :=
  let? value := map_err ManifestToml (toml_value_from_str input) in
  parse_manifest_value value None.

(** The fields of one repository. *)
Definition repository_fields (repository : RepositorySpec) : list (list byte) :=
  [bytes (Identifier_as_str (spec_id repository)); bytes (RegistrySpec_tag (spec_registry repository))]
  ++ match spec_registry repository with
     | CranLike namespace => [bytes (Identifier_as_str namespace)]
     | _ => []
     end
  ++ [bytes (Endpoint_as_str (manifest_endpoint repository))]
  ++ match spec_packages repository with
     | None => [bytes "all"]
     | Some packages => bytes "allowlist" :: ((λ p, bytes (PackageName_as_str p)) <$> packages)
     end.

Definition intent_fields (self : ManifestDocument) : list (list byte) :=
  mjoin (repository_fields <$> repositories self).

Definition repository_intent_digest (self : ManifestDocument) : result Sha256Digest ManifestError :=
  map_err (λ error, InvalidRepository (DigestError_fmt error))
    (Sha256Digest_new (hex_encode (digest_fields (intent_fields self)))).

(** ** Files *)

Context `{Schedule}.

(** [Path::parent] and [PathBuf::pop]. *)
Definition path_pop (p : list string) : option (list string) :=
  if bool_decide (p = []) || bool_decide (p = ["/"]) then None else Some (removelast p).

Definition read_manifest (path : list string) : stateful Fs ManifestDocument ManifestError :=
  let! input := st_map_err (λ error, ManifestIo path (io_text error)) (read_to_string path) in
  let! value := st_lift (map_err ManifestToml (toml_value_from_str input)) in
  st_lift (parse_manifest_value value (Some (default ["."] (path_pop path)))).

(** The loop up to the root; [fuel] is the length of the path. *)
Fixpoint discover_from (fuel : nat) (start directory : list string) :
    stateful Fs (list string * ManifestDocument) ManifestError :=
  let candidate := path_join directory ["rsolve.toml"] in
  let! there := is_regular_file candidate in
  if there : bool then let! document := read_manifest candidate in st_ret (candidate, document)
  else
    match path_pop directory, fuel with
    | Some directory, S fuel => discover_from fuel start directory
    | _, _ => st_err (NotFoundFrom start)
    end.

Definition discover_manifest (start : list string) :
    stateful Fs (list string * ManifestDocument) ManifestError :=
  let! directory := is_directory start in
  let directory := if directory : bool then start else default ["."] (path_pop start) in
  discover_from (length directory) start directory.

Definition load_manifest (explicit_path : option (list string)) (start : list string) :
    stateful Fs (list string * ManifestDocument) ManifestError :=
  match explicit_path with
  | Some path => let! document := read_manifest path in st_ret (path, document)
  | None => discover_manifest start
  end.
End document.
End urls.
