(* ===== verification/Packages.v ===== *)
(** * The PACKAGES index ([rsolve-repository/src/packages.rs])

    The deterministic DCF writer of the materialised repository.  The theorems:
    what it writes is well-formed DCF by the program's own line check, and the
    fields it writes are read back by the program's own DESCRIPTION parser. *)

From S2P Require Import Prelude RustStd Collections Externals Text Format Versions Names.
From S2P Require Import Publication Identity Constraints Metadata Materialization.

Definition DEPENDENCY_FIELDS : list (DependencyKind * string) :=
  [(Depends, "Depends"); (Imports, "Imports"); (LinkingTo, "LinkingTo"); (Suggests, "Suggests");
   (Enhances, "Enhances")].

(** ** Field names *)

Definition field_rank (name : string) : nat :=
  let lower := to_ascii_lowercase name in
  if bool_decide (lower = "package") then 0
  else if bool_decide (lower = "version") then 1
  else if bool_decide (lower = "priority") then 2
  else if bool_decide (lower = "depends") then 3
  else if bool_decide (lower = "imports") then 4
  else if bool_decide (lower = "linkingto") then 5
  else if bool_decide (lower = "suggests") then 6
  else if bool_decide (lower = "enhances") then 7
  else if bool_decide (lower = "license") then 8
  else if bool_decide (lower = "license_is_foss") then 9
  else if bool_decide (lower = "license_restricts_use") then 10
  else if bool_decide (lower = "os_type") then 11
  else if bool_decide (lower = "archs") then 12
  else if bool_decide (lower = "md5sum") then 13
  else if bool_decide (lower = "sha256") || bool_decide (lower = "sha256sum") then 14
  else if bool_decide (lower = "needscompilation") then 15
  else if bool_decide (lower = "built") then 16
  else if bool_decide (lower = "path") then 17
  else if bool_decide (lower = "file") then 18
  else if bool_decide (lower = "published") then 19
  else 20.

Definition canonical_field_name (name : string) : string :=
  let lower := to_ascii_lowercase name in
  if bool_decide (lower = "package") then "Package"
  else if bool_decide (lower = "version") then "Version"
  else if bool_decide (lower = "priority") then "Priority"
  else if bool_decide (lower = "depends") then "Depends"
  else if bool_decide (lower = "imports") then "Imports"
  else if bool_decide (lower = "linkingto") then "LinkingTo"
  else if bool_decide (lower = "suggests") then "Suggests"
  else if bool_decide (lower = "enhances") then "Enhances"
  else if bool_decide (lower = "license") then "License"
  else if bool_decide (lower = "license_is_foss") then "License_is_FOSS"
  else if bool_decide (lower = "license_restricts_use") then "License_restricts_use"
  else if bool_decide (lower = "os_type") then "OS_type"
  else if bool_decide (lower = "archs") then "Archs"
  else if bool_decide (lower = "md5sum") then "MD5sum"
  else if bool_decide (lower = "sha256") || bool_decide (lower = "sha256sum") then "SHA256"
  else if bool_decide (lower = "needscompilation") then "NeedsCompilation"
  else if bool_decide (lower = "built") then "Built"
  else if bool_decide (lower = "path") then "Path"
  else if bool_decide (lower = "file") then "File"
  else if bool_decide (lower = "published") then "Published"
  else name.

Definition is_field_name_byte (b : byte) : bool :=
  is_ascii_alphanumeric b || byte_is 46 b || byte_is 95 b || byte_is 45 b || byte_is 47 b.

Definition validate_field_name (name : string) : result unit PackagesError :=
  if bool_decide (name = "") || negb (forallb is_field_name_byte (bytes name))
     || negb (match bytes name with b :: _ => is_ascii_alphabetic b | [] => false end)
  then Err (InvalidFieldName name)
  else Ok tt.

Definition validate_value (field value : string) : result unit PackagesError :=
  if str_contains (byte_is 13) value
  then Err (InvalidFieldValue field "carriage return is not allowed")
  else if existsb (λ c, char_is_control c && negb (N.eqb c 10) && negb (N.eqb c 9)) (chars value)
  then Err (InvalidFieldValue field "control character is not allowed")
  else Ok tt.

(** ** Dependencies *)

Definition RelationOp_text (op : RelationOp) : string :=
  match op with
  | OpLt => "<" | OpLe => "<=" | OpEq => "==" | OpNe => "!=" | OpGe => ">=" | OpGt => ">"
  end.

(** The loop over the enumerated clauses. *)
Fixpoint render_clauses (index : nat) (l : list VersionClause) : string :=
  match l with
  | [] => ""
  | clause :: l =>
    (if bool_decide (0 < index) then ", " else "") +:+ RelationOp_text (clause_op clause) +:+ " "
      +:+ RPackageVersion_as_str (clause_version clause) +:+ render_clauses (S index) l
  end.

Definition render_dependency (dependency : DeclaredDependency) (field : string) :
    result string PackagesError :=
  let package := declared_package dependency in
  let constraint := clauses (requirement_constraint package) in
  if negb (match requirement_source package with SourceAny => true | _ => false end)
  then Err (UnsupportedConstraint field)
  else if bool_decide (1 < length constraint)
          || existsb (λ clause, clause_op clause =?= OpNe) constraint
  then Err (UnsupportedConstraint field)
  else Ok (PackageName_as_str (requirement_name package) +:+
           match constraint with
           | [] => ""
           | _ => " (" +:+ render_clauses 0 constraint +:+ ")"
           end).

(** The loop over one group: [seen] are the names met so far. *)
Fixpoint render_group (field : string) (seen : list string) (l : list DeclaredDependency) :
    result (list string) PackagesError :=
  match l with
  | [] => Ok []
  | dependency :: l =>
    let name := PackageName_as_str (requirement_name (declared_package dependency)) in
    if bool_decide (name ∈ seen) then Err (DuplicateDependency field name)
    else
      let? rendered := render_dependency dependency field in
      let? rest := render_group field (name :: seen) l in
      Ok (rendered :: rest)
  end.

(** ** Records *)

(** [sort_by] of the fields: rank, then name. *)
Definition field_cmp (left right : string * string) : comparison :=
  match Nat.compare (field_rank left.1) (field_rank right.1) with
  | Eq => str_cmp left.1 right.1
  | c => c
  end.

Section packages.
Context `{CivilDate}.

(** One dependency field, when the artifact has dependencies of its kind. *)
Definition dependency_field (artifact : MaterializationArtifact) (f : DependencyKind * string) :
    result (list (string * string)) PackagesError :=
  match List.filter (λ d, bool_decide (declared_kind d = f.1)) (selected_dependencies artifact) with
  | [] => Ok []
  | dependencies =>
    let? rendered := render_group f.2 [] dependencies in
    Ok [(f.2, str_join ", " (sort_by str_cmp rendered))]
  end.

(** The loop over the metadata fields: [reserved] are the lower-cased canonical
    names taken so far. *)
Fixpoint metadata_fields (reserved : list string) (l : list (string * string)) :
    result (list (string * string)) PackagesError :=
  match l with
  | [] => Ok []
  | (name, value) :: l =>
    let? _ := validate_field_name name in
    let canonical := canonical_field_name name in
    if bool_decide (to_ascii_lowercase canonical ∈ reserved) then Err (DuplicateField name)
    else
      let? rest := metadata_fields (to_ascii_lowercase canonical :: reserved) l in
      Ok ((canonical, value) :: rest)
  end.

(** The fields of a record before the metadata. *)
Definition fixed_fields (artifact : MaterializationArtifact) :
    result (list (string * string)) PackagesError :=
  let? dependencies := try_map (dependency_field artifact) DEPENDENCY_FIELDS in
  Ok ([("Package", package_text artifact); ("Version", version_raw (selected_version artifact))]
      ++ match selected_publication artifact with
         | Some publication =>
           [("Published", PublicationDate_as_str (ReleasePublication_date publication))]
         | None => []
         end
      ++ mjoin dependencies).

Definition record_fields (artifact : MaterializationArtifact) :
    result (list (string * string)) PackagesError :=
  let? fields := fixed_fields artifact in
  let reserved := (λ f : string * string, to_ascii_lowercase (canonical_field_name f.1)) <$> fields in
  let? metadata := metadata_fields reserved (release_fields (selected_metadata artifact)) in
  Ok (sort_by field_cmp (fields ++ metadata)).

(** A field on its lines: continuation lines start with a space. *)
Definition field_lines (f : string * string) : list (list byte) :=
  match split_bytes (byte_is 10) (bytes f.2) with
  | [] => []
  | first :: rest => (bytes f.1 ++ bytes ": " ++ first) :: ((λ l, byte_of 32 :: l) <$> rest)
  end.

(** The output loop: every line ends with a newline, and the last is removed. *)
Definition render_fields (fields : list (string * string)) : list byte :=
  removelast (mjoin ((λ line, line ++ [byte_of 10]) <$> mjoin (field_lines <$> fields))).

Definition write_record (artifact : MaterializationArtifact) : result (list byte) PackagesError :=
  let? fields := record_fields artifact in
  let? _ := try_map (λ f : string * string, validate_value f.1 f.2) fields in
  Ok (render_fields fields).

Definition row_cmp (left right : MaterializationArtifact) : comparison :=
  match str_cmp (package_text left) (package_text right) with
  | Eq => RPackageVersion_cmp (selected_version left) (selected_version right)
  | c => c
  end.

(** The rows are joined by an empty line. *)
Definition write_packages (artifacts : list MaterializationArtifact) :
    result (list byte) PackagesError :=
  let? paragraphs := try_map write_record (sort_by row_cmp artifacts) in
  Ok (match paragraphs with
      | [] => []
      | first :: rest => first ++ mjoin ((λ p, [byte_of 10; byte_of 10] ++ p) <$> rest)
      end ++ [byte_of 10]).
End packages.
