(* ===== verification/Transaction.v ===== *)
(** * The materialisation transaction ([rsolve-repository/src/materialization.rs],
      [transaction.rs], [state.rs], [filesystem.rs])

    Building the repository in a staging directory, publishing it and its state
    under a transaction marker, and finishing an interrupted publication. *)

From S2P Require Import Prelude Effects RustStd Collections Text Externals FileSystem Directories.
From S2P Require Import Format Versions Names Publication Identity Constraints Digest Metadata.
From S2P Require Import Cache Input Materialization Packages.

(** ** State and transaction ([materialization.rs]) *)

Record MaterializationState := mk_MaterializationState {
  state_schema_version : N;
  state_index_sha256 : string;
  state_records : list MaterializationRecord;
}.
#[export] Instance MaterializationState_eq_dec : EqDecision MaterializationState.
Proof. solve_decision. Defined.

Record MaterializationTransaction := mk_MaterializationTransaction {
  tx_schema_version : N;
  tx_index_sha256 : string;
  tx_state_temp : string;
  tx_staging_dir : string;
  tx_records : list MaterializationRecord;
}.

Definition STATE_NAME : string := "materialization.toml".
Definition TRANSACTION_NAME : string := ".materialization.transaction.toml".
Definition LOCK_NAME : string := "materialization.lock".
Definition REPOSITORY_NAME : string := "repository".
Definition STAGING_PREFIX : string := ".repository.partial.".
Definition STATE_PREFIX : string := "." +:+ STATE_NAME +:+ ".partial.".
Definition MARKER_PREFIX : string := TRANSACTION_NAME +:+ ".partial.".
Definition RECORD_PREFIX : string := "repository/src/contrib/".

(** [str::starts_with] and [str::strip_prefix] *)
Definition str_starts_with (prefix s : string) : bool := has_prefix (bytes prefix) (bytes s).
Definition str_strip_prefix (prefix s : string) : option string :=
  option_map from_utf8 (Text.strip_prefix (bytes prefix) (bytes s)).

Definition contrib_of (repository : Path) : Path := path_join repository ["src"; "contrib"].

Section transaction.
Context `{CivilDate, Schedule, Sha2, !DigestStream sha256_digest}.
Context `{!Toml MaterializationState, !Toml MaterializationTransaction}.

Definition mat (T : Type) := stateful Fs T MaterializationError.

Definition io_error {T : Type} (operation : string) (path : Path) (m : io T) : mat T :=
  st_map_err (MaterializationIo operation path) m.
Definition transaction_conflict {T : Type} (path : Path) (reason : string) : mat T :=
  st_err (TransactionConflict path reason).

(** [a || b] and [a && b] with effects. *)
Definition st_or (a b : mat bool) : mat bool := let! x := a in if x : bool then st_ret true else b.
Definition st_and (a b : mat bool) : mat bool := let! x := a in if x : bool then b else st_ret false.
Definition st_not (a : mat bool) : mat bool := let! x := a in st_ret (negb x).

(** [sync_directory(path).map_err(...)] *)
Definition sync_published (path : Path) : mat unit :=
  st_map_err (MaterializationCache path) (sync_directory path).

(** ** Files ([filesystem.rs]) *)

Definition directory_names (path : Path) : mat (list string) :=
  let! _ := io_error "scan recovered repository" path (read_dir path) in
  io_error "read recovered repository" path (dir_entries path).

(** [HashSet] equality. *)
Definition same_names (a b : list string) : bool :=
  forallb (λ x, bool_decide (x ∈ b)) a && forallb (λ x, bool_decide (x ∈ a)) b.

Definition GITIGNORE : list byte := bytes "*" ++ [byte_of 10].

Definition ensure_gitignore (rsolve : Path) : mat unit :=
  let path := path_join rsolve [".gitignore"] in
  let! there := path_exists path in
  if there : bool then
    let! regular := is_regular_file path in
    if negb (regular : bool)
    then st_err (InvalidInput (path_display path +:+ " is not a regular file"))
    else
      let! existing := io_error "read .rsolve/.gitignore" path (read_file path) in
      if negb (bool_decide (existing = GITIGNORE))
      then st_err (InvalidInput (path_display path +:+ " must contain exactly `*\n`"))
      else st_ret tt
  else io_error "create .rsolve/.gitignore" path (write_file path GITIGNORE).

Definition ensure_directory (path : Path) (operation : string) : mat unit :=
  let! metadata := st_outcome (symlink_metadata path) in
  match metadata : result FileType IoError with
  | Ok TypeDir => st_ret tt
  | Ok TypeFile => st_err (InvalidInput (path_display path +:+ " is not a directory"))
  | Err _ => io_error operation path (create_dir_all path)
  end.

(** The loop of [hash_file] and [verify_cache_object]: [count] adds to the size,
    [failed] is the error of a sum that overflows. *)
Fixpoint hash_loop (fuel : nat) (operation : string) (path : Path) (count : N → N → option N)
    (overflow : MaterializationError) (h : Handle) (hasher : Hasher sha256_digest) (size : N) :
    mat (Hasher sha256_digest * N) :=
  let! (chunk, h) := io_error operation path (FileSystem.read (N.to_nat BUFFER_LEN) h) in
  match fuel, chunk with
  | _, [] | 0, _ => st_ret (hasher, size)
  | S fuel, _ =>
    match count size (len_u64 chunk) with
    | None => st_err overflow
    | Some size =>
      hash_loop fuel operation path count overflow h (Hasher_update sha256_digest hasher chunk) size
    end
  end.

Definition unread (h : Handle) : nat :=
  match h with FileHandle rest => length rest | DirHandle => 0 end.

Definition hash_file (path : Path) : mat string :=
  let! h := io_error "open materialized artifact" path (open_read path) in
  let! (hasher, _) := hash_loop (unread h) "hash materialized artifact" path (λ size _, Some size)
    (InvalidInput "") h (Hasher_new sha256_digest) 0 in
  st_ret (hex_lower (Hasher_finalize sha256_digest hasher)).

Definition make_writable_io (path : Path) : io unit :=
  let! _ := permissions path in set_writable path.

Definition copy_file (source destination : Path) : io unit :=
  let! _ := open_new destination in
  let! input := open_read source in
  let! _ := copy_to destination input in
  let! _ := sync_all in
  make_writable_io destination.

(** The Linux branch. *)
Definition clone_file (source destination : Path) : io unit :=
  let! input := open_read source in
  let! _ := open_new destination in
  let! cloned := st_outcome (clone_to destination input) in
  match cloned : result unit IoError with
  | Err error => let! _ := st_ignore (remove_file destination) in st_err error
  | Ok _ =>
    let! _ := sync_all in
    make_writable_io destination
  end.

Definition clone_unsupported (error : IoError) : bool :=
  match io_kind error with
  | KindUnsupported | KindCrossesDevices | KindInvalidInput | KindPermissionDenied => true
  | _ => false
  end.

(** ** State files ([state.rs]) *)

Definition read_toml {T : Type} `{!Toml T} (operation : string) (path : Path) : mat T :=
  let! text := io_error operation path (read_to_string path) in
  st_lift (map_err (InvalidState path) (toml_from_str text)).

Definition read_state (path : Path) : mat MaterializationState :=
  read_toml "read materialization state" path.

Definition write_temp (path : Path) (data : list byte) (label : string) : mat unit :=
  let! _ := io_error "create materialization temporary" path (open_new path) in
  cleanup_on_error (st_ignore (remove_file path))
    (io_error label path (let! _ := write_all path data in sync_all)).

Definition write_toml {T : Type} `{!Toml T} (path : Path) (x : T) (label : string) : mat unit :=
  let! encoded := st_lift (map_err (InvalidState path) (toml_to_string_pretty x)) in
  write_temp path (bytes encoded) label.

Definition write_state_temp (path : Path) (state : MaterializationState) : mat unit :=
  write_toml path state "materialization state temporary".
Definition write_transaction_temp (path : Path) (transaction : MaterializationTransaction) :
    mat unit := write_toml path transaction "transaction temporary".

(** ** What is published ([transaction.rs]) *)

(** The name after [repository/src/contrib/]. *)
Definition destination_in_contrib (record : MaterializationRecord) : option string :=
  str_strip_prefix RECORD_PREFIX (record_destination record).

(** A name that is in the directory listing is a plain component. *)
Definition validate_record (contrib : Path) (record : MaterializationRecord) : mat unit :=
  match destination_in_contrib record with
  | None => transaction_conflict contrib "destination escapes src/contrib"
  | Some name =>
    let path := path_join contrib [name] in
    let! regular := is_regular_file path in
    if negb (regular : bool) then transaction_conflict path "destination is not a regular file"
    else
      let! len := io_error "inspect recovered artifact" path (file_len path) in
      let! differs :=
        if negb (N.eqb len (record_size record)) then st_ret true
        else let! actual := hash_file path in
          st_ret (negb (bool_decide (actual = record_artifact_sha256 record))) in
      if differs : bool then transaction_conflict path "artifact digest or size differs"
      else st_ret tt
  end.

Definition validate_repository_contents (repository : Path) (records : list MaterializationRecord)
    (index_sha256 : string) : mat unit :=
  let src := path_join repository ["src"] in
  let contrib := path_join src ["contrib"] in
  let! laid_out := st_and (is_directory src) (is_directory contrib) in
  if negb (laid_out : bool)
  then transaction_conflict repository "repository layout is not src/contrib"
  else
    let! unexpected := st_or
      (let! names := directory_names repository in st_ret (negb (same_names names ["src"])))
      (let! names := directory_names src in st_ret (negb (same_names names ["contrib"]))) in
    if unexpected : bool
    then transaction_conflict repository "repository contains unexpected entries"
    else
      let expected := "PACKAGES" :: omap destination_in_contrib records in
      let! names := directory_names contrib in
      if negb (same_names names expected)
      then transaction_conflict contrib "repository destinations do not match transaction"
      else
        let! _ := st_try_fold (λ _ record, validate_record contrib record) tt records in
        let packages := path_join contrib ["PACKAGES"] in
        let! differs := st_or (st_not (is_regular_file packages))
          (let! actual := hash_file packages in st_ret (negb (bool_decide (actual = index_sha256)))) in
        if differs : bool then transaction_conflict packages "PACKAGES digest differs"
        else st_ret tt.

Definition record_matches (selected : MaterializationArtifact) (record : MaterializationRecord) :
    bool :=
  bool_decide (record_identity record = identity_key (selected_identity selected)) &&
  bool_decide (record_package record = package_text selected) &&
  bool_decide (record_version record = version_raw (selected_version selected)) &&
  bool_decide (record_artifact_sha256 record
    = Sha256Digest_as_str (cached_sha256 (selected_artifact selected))) &&
  N.eqb (record_size record) (cached_size (selected_artifact selected)) &&
  bool_decide (record_destination record = RECORD_PREFIX +:+ destination_name selected).

Definition records_match_requested (records : list MaterializationRecord)
    (requested : list MaterializationArtifact) : bool :=
  let canonical := canonical_artifacts requested in
  Nat.eqb (length records) (length canonical) &&
  forallb (λ sr, record_matches sr.1 sr.2) (zip canonical records).

Definition state_matches (state : MaterializationState) (tx : MaterializationTransaction)
    (requested : list MaterializationArtifact) : bool :=
  N.eqb (state_schema_version state) 2 &&
  bool_decide (state_index_sha256 state = tx_index_sha256 tx) &&
  bool_decide (state_records state = tx_records tx) &&
  records_match_requested (state_records state) requested.

Definition index_digest (requested : list MaterializationArtifact) :
    result string MaterializationError :=
  let? packages := map_err MaterializationPackages (write_packages requested) in
  Ok (hex_lower (sha256_digest packages)).

Definition validate_index_digest (tx : MaterializationTransaction)
    (requested : list MaterializationArtifact) : mat unit :=
  let! digest := st_lift (index_digest requested) in
  if negb (bool_decide (digest = tx_index_sha256 tx))
  then transaction_conflict ["materialization transaction"]
         "PACKAGES digest does not match requested metadata and dependencies"
  else st_ret tt.

(** ** Names of temporaries *)

(** In the order of their names. *)
Definition partial_paths (directory : Path) (prefix : string) : mat (list Path) :=
  let! _ := io_error "scan transaction directory" directory (read_dir directory) in
  let! names := io_error "read transaction directory" directory (dir_entries directory) in
  st_ret ((λ name, path_join directory [name])
            <$> sort_by str_cmp (List.filter (str_starts_with prefix) names)).

Definition safe_temp_name (name prefix : string) : bool :=
  negb (bool_decide (name = "")) && negb (str_contains (byte_is 47) name) &&
  negb (str_contains (byte_is 92) name) && str_starts_with prefix name &&
  negb (bool_decide (name = ".")) && negb (bool_decide (name = "..")).

Definition transaction_temp_path (rsolve : Path) (name : string) : option Path :=
  if safe_temp_name name STATE_PREFIX then Some (path_join rsolve [name]) else None.
Definition staging_path (rsolve : Path) (name : string) : option Path :=
  if safe_temp_name name STAGING_PREFIX then Some (path_join rsolve [name]) else None.

Definition read_transaction (path : Path) : mat MaterializationTransaction :=
  read_toml "read materialization transaction" path.

(** ** Recovery *)

(** The transaction that orphaned temporaries are of. *)
Definition orphan_transaction (state : MaterializationState) (state_name staging_name : string)
    (markers : list Path) : mat MaterializationTransaction :=
  match markers with
  | path :: _ =>
    let! regular := is_regular_file path in
    if negb (regular : bool) then transaction_conflict path "orphan marker is not regular"
    else
      let! tx := read_transaction path in
      if negb (N.eqb (tx_schema_version tx) 2)
         || negb (bool_decide (tx_state_temp tx = state_name))
         || negb (bool_decide (tx_staging_dir tx = staging_name))
         || negb (bool_decide (tx_index_sha256 tx = state_index_sha256 state))
         || negb (bool_decide (tx_records tx = state_records state))
      then transaction_conflict path "orphan marker does not bind state and staging"
      else st_ret tx
  | [] =>
    st_ret (mk_MaterializationTransaction 2 (state_index_sha256 state) state_name staging_name
              (state_records state))
  end.

(** Publishes the marker of a transaction that had none. *)
Definition publish_marker (rsolve : Path) (tx : MaterializationTransaction) (markers : list Path) :
    mat unit :=
  let marker := path_join rsolve [TRANSACTION_NAME] in
  match markers with
  | path :: _ => io_error "publish reconstructed transaction" marker (rename path marker)
  | [] =>
    let! fresh := nonce in
    let temp := path_join rsolve [MARKER_PREFIX +:+ fresh] in
    let! _ := write_transaction_temp temp tx in
    io_error "publish reconstructed transaction" marker (rename temp marker)
  end.

Definition reconstruct (rsolve : Path) (states markers stagings : list Path)
    (requested : list MaterializationArtifact) : mat bool :=
  match states, stagings with
  | [], [] =>
    if bool_decide (markers = []) then st_ret false
    else transaction_conflict rsolve "orphaned transaction temporaries are ambiguous"
  | [state_path], [staging] =>
    if Nat.ltb 1 (length markers)
    then transaction_conflict rsolve "orphaned transaction temporaries are ambiguous"
    else
      let! unsafe := st_or (st_not (is_regular_file state_path)) (st_not (is_directory staging)) in
      if unsafe : bool
      then transaction_conflict rsolve "orphaned transaction has an unsafe filesystem type"
      else
        let! state := st_map_err (λ error, TransactionConflict state_path
            ("invalid orphan state: " +:+ MaterializationError_fmt error)) (read_state state_path) in
        if negb (N.eqb (state_schema_version state) 2)
           || negb (records_match_requested (state_records state) requested)
        then transaction_conflict state_path "orphan state does not match request"
        else
          let! tx := orphan_transaction state (path_file_name state_path) (path_file_name staging)
                       markers in
          let! _ := validate_index_digest tx requested in
          let! _ := validate_repository_contents staging (tx_records tx) (tx_index_sha256 tx) in
          let! _ := publish_marker rsolve tx markers in
          let! _ := sync_published rsolve in
          st_ret true
  | _, _ => transaction_conflict rsolve "orphaned transaction temporaries are ambiguous"
  end.

(** The state a transaction is to publish, unless it is published already. *)
Definition temporary_state (state_path state_temp transaction_path : Path) (states : list Path)
    (tx : MaterializationTransaction) (requested : list MaterializationArtifact) :
    mat (option MaterializationState) :=
  let! committed := path_exists state_path in
  if (committed : bool) && bool_decide (states = []) then
    let! state := read_state state_path in
    if negb (state_matches state tx requested)
    then transaction_conflict state_path "committed state differs from transaction"
    else st_ret None
  else
    let! other := (if negb (bool_decide (states = [state_temp])) then st_ret true
                   else st_not (is_regular_file state_temp)) in
    if other : bool
    then transaction_conflict transaction_path "state temporary does not match marker"
    else
      let! state := st_map_err (λ error, TransactionConflict state_temp
          ("invalid state temporary: " +:+ MaterializationError_fmt error)) (read_state state_temp) in
      if negb (state_matches state tx requested)
      then transaction_conflict state_temp "state temporary does not match transaction"
      else
        let! differs := st_and (path_exists state_path)
          (let! committed := read_state state_path in st_ret (negb (bool_decide (committed = state)))) in
        if differs : bool
        then transaction_conflict state_path "committed state differs from temporary state"
        else st_ret (Some state).

(** The branch for the repository: validated where it is, or published. *)
Definition recover_repository (rsolve repository staging : Path) (repo_exists : bool)
    (tx : MaterializationTransaction) : mat unit :=
  if repo_exists then
    let! directory := is_directory repository in
    if negb (directory : bool)
    then transaction_conflict repository "published repository is not a directory"
    else validate_repository_contents repository (tx_records tx) (tx_index_sha256 tx)
  else
    let! directory := is_directory staging in
    if negb (directory : bool)
    then transaction_conflict staging "staging path is not a directory"
    else
      let! _ := validate_repository_contents staging (tx_records tx) (tx_index_sha256 tx) in
      let! _ := io_error "recover repository publication" repository (rename staging repository) in
      sync_published rsolve.

Definition recover_state (rsolve state_path state_temp : Path) : mat unit :=
  let! committed := path_exists state_path in
  if committed : bool
  then io_error "remove recovered state temporary" state_temp (remove_file state_temp)
  else
    let! _ := io_error "recover materialization state" state_path (rename state_temp state_path) in
    sync_published rsolve.

(** [recover] with a marker. *)
Definition recover_transaction (rsolve state_path transaction_path repository : Path)
    (states markers stagings : list Path) (requested : list MaterializationArtifact) : mat unit :=
  let! regular := is_regular_file transaction_path in
  if negb (regular : bool)
  then transaction_conflict transaction_path "transaction marker is not a regular file"
  else if negb (bool_decide (markers = []))
  then transaction_conflict transaction_path "transaction marker has an ambiguous temporary sibling"
  else
    let! tx := read_transaction transaction_path in
    if negb (N.eqb (tx_schema_version tx) 2) || negb (records_match_requested (tx_records tx) requested)
    then transaction_conflict transaction_path
           "transaction records or schema do not match the request"
    else
      let! _ := validate_index_digest tx requested in
      let! state_temp := st_lift (ok_or (TransactionConflict transaction_path
          "invalid state temporary path") (transaction_temp_path rsolve (tx_state_temp tx))) in
      let! staging := st_lift (ok_or (TransactionConflict transaction_path
          "invalid staging directory path") (staging_path rsolve (tx_staging_dir tx))) in
      if Nat.ltb 1 (length stagings)
         || match stagings with first :: _ => negb (bool_decide (first = staging)) | [] => false end
      then transaction_conflict transaction_path "staging does not match transaction marker"
      else
        let! repo_exists := entry_exists repository in
        let! staging_exists := entry_exists staging in
        if Bool.eqb repo_exists staging_exists
        then transaction_conflict staging "repository and staging must have exactly one existing path"
        else
          let! not_a_file := st_and (path_exists state_path) (st_not (is_regular_file state_path)) in
          if not_a_file : bool
          then transaction_conflict state_path "committed state is not a regular file"
          else
            let! temporary :=
              temporary_state state_path state_temp transaction_path states tx requested in
            let! _ := recover_repository rsolve repository staging repo_exists tx in
            let! _ := (if bool_decide (is_Some temporary) then recover_state rsolve state_path state_temp
                       else st_ret tt) in
            let! _ := io_error "remove recovered transaction" transaction_path
                        (remove_file transaction_path) in
            sync_published rsolve.

(** It calls itself after a reconstruction: [None] when [fuel] calls did not
    suffice, which takes as many failures to see the marker ([recover_ends]). *)
Fixpoint recover (fuel : nat) (rsolve state_path transaction_path repository : Path)
    (requested : list MaterializationArtifact) : mat (option unit) :=
  match fuel with
  | 0 => st_ret None
  | S fuel =>
    let! states := partial_paths rsolve STATE_PREFIX in
    let! markers := partial_paths rsolve MARKER_PREFIX in
    let! stagings := partial_paths rsolve STAGING_PREFIX in
    let! marked := entry_exists transaction_path in
    if negb (marked : bool) then
      let! again := reconstruct rsolve states markers stagings requested in
      if again : bool then recover fuel rsolve state_path transaction_path repository requested
      else st_ret (Some tt)
    else
      let! _ := recover_transaction rsolve state_path transaction_path repository states markers
                  stagings requested in
      st_ret (Some tt)
  end.

(** ** Building a repository ([materialization.rs]) *)

Definition verify_cache_object (cached : CachedArtifact) : mat unit :=
  let path := CachedArtifact_path cached in
  let! regular := is_regular_file path in
  if negb (regular : bool)
  then st_err (InvalidCacheObject path "cache object is not a regular file")
  else
    let! h := io_error "open cache object" path (open_read path) in
    let! (hasher, size) := hash_loop (unread h) "read cache object" path
      (λ size n, checked u64_max (size + n)) (InvalidCacheObject path "object size overflow") h
      (Hasher_new sha256_digest) 0 in
    let actual := hex_lower (Hasher_finalize sha256_digest hasher) in
    if negb (N.eqb size (cached_size cached))
       || negb (bool_decide (actual = Sha256Digest_as_str (cached_sha256 cached)))
    then st_err (InvalidCacheObject path
      ("expected " +:+ N_to_string (cached_size cached) +:+ " bytes with SHA-256 "
        +:+ Sha256Digest_as_str (cached_sha256 cached) +:+ ", got " +:+ N_to_string size
        +:+ " bytes with " +:+ actual))
    else st_ret tt.

Definition materialize_file (contrib : Path) (selected : MaterializationArtifact) :
    mat MaterializationMethod :=
  let destination := path_join contrib [destination_name selected] in
  let object := CachedArtifact_path (selected_artifact selected) in
  let! _ := verify_cache_object (selected_artifact selected) in
  let! cloned := st_outcome (clone_file object destination) in
  match cloned : result unit IoError with
  | Ok _ => st_ret MethodClone
  | Err source =>
    if clone_unsupported source then
      let! copied := st_outcome (copy_file object destination) in
      match copied : result unit IoError with
      | Ok _ => st_ret MethodCopy
      | Err source =>
        if bool_decide (io_kind source = KindAlreadyExists)
        then st_err (DuplicateDestination destination)
        else st_err (MaterializationIo "copy cache object" destination source)
      end
    else if bool_decide (io_kind source = KindAlreadyExists)
    then st_err (DuplicateDestination destination)
    else st_err (MaterializationIo "clone cache object" destination source)
  end.

Definition materialize_files (contrib : Path) (artifacts : list MaterializationArtifact) :
    mat (list MaterializationMethod) :=
  let! _ := ensure_directory contrib "create src/contrib directory" in
  st_try_map (materialize_file contrib) artifacts.

(** ** A repository that is there *)

Definition validate_existing_artifact (state : MaterializationState) (repository : Path)
    (selected : MaterializationArtifact) : mat unit :=
  let destination := path_join (contrib_of repository) [destination_name selected] in
  let sha256 := Sha256Digest_as_str (cached_sha256 (selected_artifact selected)) in
  match find (λ record,
      bool_decide (record_identity record = identity_key (selected_identity selected)) &&
      bool_decide (record_artifact_sha256 record = sha256)) (state_records state) with
  | None => st_err (ExistingConflict destination)
  | Some record =>
    if negb (bool_decide (record_destination record = RECORD_PREFIX +:+ destination_name selected))
       || negb (bool_decide (record_package record = package_text selected))
       || negb (bool_decide (record_version record = version_raw (selected_version selected)))
       || negb (N.eqb (record_size record) (cached_size (selected_artifact selected)))
    then st_err (ExistingConflict destination)
    else
      let! _ := verify_cache_object (selected_artifact selected) in
      let! differs := st_or (st_not (is_regular_file destination))
        (let! actual := hash_file destination in st_ret (negb (bool_decide (actual = sha256)))) in
      if differs : bool then st_err (ExistingConflict destination) else st_ret tt
  end.

Definition validate_existing_state (state : MaterializationState)
    (artifacts : list MaterializationArtifact) (repository : Path) : mat unit :=
  if negb (N.eqb (state_schema_version state) 2)
     || negb (Nat.eqb (length (state_records state)) (length artifacts))
  then st_err (InvalidState repository "state does not describe the requested artifact set")
  else st_try_fold (λ _ selected, validate_existing_artifact state repository selected) tt artifacts.

(** The branch of [materialize] for a committed state. *)
Definition load_existing (state_path repository : Path) (artifacts : list MaterializationArtifact) :
    mat MaterializationState :=
  let! regular := is_regular_file state_path in
  if negb (regular : bool) then st_err (InvalidState state_path "state path is not a regular file")
  else
    let! state := read_state state_path in
    let! _ := validate_existing_state state artifacts repository in
    let! requested := st_lift (index_digest artifacts) in
    if negb (bool_decide (requested = state_index_sha256 state))
    then st_err (ExistingConflict (path_join (contrib_of repository) ["PACKAGES"]))
    else
      let! _ := validate_repository_contents repository (state_records state)
                  (state_index_sha256 state) in
      st_ret state.

(** ** Staging and publication *)

(** Everything before the state is prepared; the caller removes the staging
    directory when it fails. *)
Definition stage (staging : Path) (artifacts : list MaterializationArtifact)
    (packages : list byte) : mat (list MaterializationMethod) :=
  let contrib := contrib_of staging in
  let! methods := materialize_files contrib artifacts in
  let packages_path := path_join contrib ["PACKAGES"] in
  let! _ := io_error "write PACKAGES" packages_path (write_file packages_path packages) in
  let! _ := io_error "sync PACKAGES" packages_path (let! _ := open_read packages_path in sync_all) in
  let! _ := sync_published contrib in
  let! _ := sync_published staging in
  st_ret methods.

(** From the marker to the committed state. *)
Definition publish (rsolve staging state_temp : Path) : mat unit :=
  let state_path := path_join rsolve [STATE_NAME] in
  let repository := path_join rsolve [REPOSITORY_NAME] in
  let transaction_path := path_join rsolve [TRANSACTION_NAME] in
  let! _ := sync_published rsolve in
  let! _ := io_error "publish repository" repository (rename staging repository) in
  let! _ := sync_published rsolve in
  let! _ := io_error "publish materialization state" state_path (rename state_temp state_path) in
  let! _ := sync_published rsolve in
  let! _ := io_error "remove materialization transaction" transaction_path
              (remove_file transaction_path) in
  sync_published rsolve.

Definition materialize_fresh (rsolve : Path) (requested : list MaterializationArtifact) :
    mat MaterializationState :=
  let artifacts := canonical_artifacts requested in
  let! packages := st_lift (map_err MaterializationPackages (write_packages artifacts)) in
  let! fresh := nonce in
  let staging_name := STAGING_PREFIX +:+ fresh in
  let staging := path_join rsolve [staging_name] in
  let remove_staging := st_ignore (remove_dir_all staging) in
  let! _ := ensure_directory staging "create repository staging directory" in
  let! methods := cleanup_on_error remove_staging (stage staging artifacts packages) in
  let index_sha256 := hex_lower (sha256_digest packages) in
  let state := mk_MaterializationState 2 index_sha256
                 (zip_with record_for artifacts methods) in
  let! fresh := nonce in
  let state_temp_name := STATE_PREFIX +:+ fresh in
  let state_temp := path_join rsolve [state_temp_name] in
  let! _ := cleanup_on_error remove_staging (write_state_temp state_temp state) in
  let transaction := mk_MaterializationTransaction 2 index_sha256 state_temp_name staging_name
                       (state_records state) in
  let! fresh := nonce in
  let transaction_temp := path_join rsolve [MARKER_PREFIX +:+ fresh] in
  let remove_state := let! _ := st_ignore (remove_file state_temp) in remove_staging in
  let! _ := cleanup_on_error remove_state (write_transaction_temp transaction_temp transaction) in
  let transaction_path := path_join rsolve [TRANSACTION_NAME] in
  let! _ := cleanup_on_error (let! _ := st_ignore (remove_file transaction_temp) in remove_state)
    (io_error "publish materialization transaction" transaction_path
       (rename transaction_temp transaction_path)) in
  let! _ := publish rsolve staging state_temp in
  st_ret state.

(** [None] when [recover] needs more than [fuel] calls. *)
Definition materialize (fuel : nat) (project_root : Path)
    (artifacts : list MaterializationArtifact) : mat (option MaterializationState) :=
  let rsolve := path_join project_root [".rsolve"] in
  let! _ := ensure_directory rsolve "create .rsolve directory" in
  let! _ := ensure_gitignore rsolve in
  let lock_path := path_join rsolve [LOCK_NAME] in
  let! _ := io_error "create materialization lock" lock_path (open_or_create lock_path) in
  let! _ := io_error "lock materialization" lock_path file_lock in
  let! _ := st_lift (validate_inputs artifacts) in
  let state_path := path_join rsolve [STATE_NAME] in
  let repository := path_join rsolve [REPOSITORY_NAME] in
  let! recovered := recover fuel rsolve state_path (path_join rsolve [TRANSACTION_NAME]) repository
                      artifacts in
  match recovered : option unit with
  | None => st_ret None
  | Some _ =>
    let! committed := path_exists state_path in
    if committed : bool then
      let! state := load_existing state_path repository artifacts in st_ret (Some state)
    else
      let! there := path_exists repository in
      if there : bool then st_err (ExistingConflict repository)
      else let! state := materialize_fresh rsolve artifacts in st_ret (Some state)
  end.
End transaction.
