(* ===== verification/TransactionLaws.v ===== *)
(** * The materialisation transaction is safe

    A published repository is never changed, a committed state always describes
    the repository that is there, and a run that succeeds has published what was
    selected: for every schedule, so also when the process stops anywhere. *)

From S2P Require Import Prelude Effects RustStd Collections Text Externals FileSystem Directories.
From S2P Require Import Format Versions Names Publication Identity Constraints Digest Metadata.
From S2P Require Import Cache Input Materialization Packages Transaction.

(** ** What is at a path *)

Notation Tree := (gmap Path Node) (only parsing).

(** A file that decodes to [x]. *)
Definition toml_at `{!Toml T} (p : Path) (x : T) (t : Tree) : Prop :=
  ∃ c s, file_at p c t ∧ str_from_utf8 c = Ok s ∧ toml_from_str s = Ok x.

Lemma toml_at_inj `{!Toml T} p (x y : T) t : toml_at p x t → toml_at p y t → x = y.
Proof.
  intros (c & s & Hc & Hs & Hx) (c' & s' & Hc' & Hs' & Hy).
  rewrite (file_at_inj _ _ _ _ Hc' Hc) in Hs'. congruence.
Qed.

Lemma file_at_untouched (P : Path → Prop) p c t t' :
  P p → untouched P t t' → file_at p c t → file_at p c t'.
Proof. intros Hp Ht [r Hr]. exists r. by rewrite (Ht p Hp). Qed.

Lemma toml_at_untouched `{!Toml T} (P : Path → Prop) p (x : T) t t' :
  P p → untouched P t t' → toml_at p x t → toml_at p x t'.
Proof.
  intros Hp Ht (c & s & Hc & Hx). exists c, s. split; [|done]. by eapply file_at_untouched.
Qed.

(** The file of a record is in the directory, with its size and digest. *)
Definition record_there `{Sha2} (contrib : Path) (t : Tree) (record : MaterializationRecord) : Prop :=
  ∃ name c, destination_in_contrib record = Some name ∧ file_at (contrib ++ [name]) c t ∧
    hex_lower (sha256_digest c) = record_artifact_sha256 record ∧ len_u64 c = record_size record.

Definition index_there `{Sha2} (contrib : Path) (index_sha256 : string) (t : Tree) : Prop :=
  ∃ c, file_at (contrib ++ ["PACKAGES"]) c t ∧ hex_lower (sha256_digest c) = index_sha256.

(** Everything the records and the index digest speak of. *)
Definition repository_holds `{Sha2} (repository : Path) (records : list MaterializationRecord)
    (index_sha256 : string) (t : Tree) : Prop :=
  Forall (record_there (contrib_of repository) t) records ∧
  index_there (contrib_of repository) index_sha256 t.

(** Moving the directory moves all of it. *)
Lemma repository_holds_moved `{Sha2} from to records index t t' :
  (∀ r, r ≠ [] → t' !! (to ++ r) = t !! (from ++ r)) →
  repository_holds from records index t → repository_holds to records index t'.
Proof.
  intros Hmove. assert (∀ r c, r ≠ [] → file_at (from ++ r) c t → file_at (to ++ r) c t') as Hfile.
  { intros r c Hr [b Hb]. exists b. by rewrite Hmove. }
  unfold repository_holds, record_there, index_there, contrib_of, path_join. intros [Hrecords (c & Hc & Hd)]. split.
  - eapply Forall_impl; [exact Hrecords|]. intros record (name & c' & Hname & Hc' & ? & ?).
    exists name, c'. rewrite <-app_assoc in Hc' |- *. split_and!; [done|by apply Hfile|done..].
  - exists c. rewrite <-app_assoc in Hc |- *. split; [by apply Hfile|done].
Qed.

Lemma repository_holds_untouched `{Sha2} (P : Path → Prop) repository records index t t' :
  (∀ r, r ≠ [] → P (repository ++ r)) → untouched P t t' →
  repository_holds repository records index t → repository_holds repository records index t'.
Proof. intros HP Ht. apply repository_holds_moved. intros r Hr. by apply Ht, HP. Qed.

(** ** Observations *)

Section observations.
Context `{CivilDate, Schedule, Sha2, !DigestStream sha256_digest, !DigestStreamLaws sha256_digest}.
Context `{!Toml MaterializationState, !Toml MaterializationTransaction} (t : Tree).

Lemma sees_io_error {T : Type} (operation : string) (path : Path) (m : io T) (φ : T → Prop) :
  sees t m φ → sees t (io_error operation path m) φ.
Proof. apply sees_map_err. Qed.

Lemma sees_looked {T : Type} (operation : string) (path : Path) (look : Tree → result T IoError) :
  sees t (io_error operation path (looking look)) (λ x, look t = Ok x).
Proof. apply sees_map_err, sees_looking. Qed.

Lemma sees_sync_published path : sees t (sync_published path) (λ _, True).
Proof.
  unfold sync_published, sync_directory. apply sees_map_err. eapply sees_bind.
  - apply (sees_outcome t _ (λ _, True)). eapply sees_bind; [apply sees_looking|].
    intros h _. eapply sees_true, sees_looking.
  - intros [[]|e] _; [by apply sees_ret|]. by destruct (_ || _); [apply sees_ret|apply sees_err].
Qed.

Lemma sees_or (a b : mat bool) (φ ψ : Prop) :
  sees t a (λ x, x = false → φ) → sees t b (λ x, x = false → ψ) →
  sees t (st_or a b) (λ x, x = false → φ ∧ ψ).
Proof.
  intros Ha Hb. eapply sees_bind; [exact Ha|]. intros [|] Hx; [by apply sees_ret|].
  eapply sees_weaken; [exact Hb|]. auto.
Qed.
Lemma sees_and (a b : mat bool) (φ ψ : Prop) :
  sees t a (λ x, x = true → φ) → sees t b (λ x, x = true → ψ) →
  sees t (st_and a b) (λ x, x = true → φ ∧ ψ).
Proof.
  intros Ha Hb. eapply sees_bind; [exact Ha|]. intros [|] Hx; [|by apply sees_ret].
  eapply sees_weaken; [exact Hb|]. auto.
Qed.
Lemma sees_not (a : mat bool) (φ : Prop) :
  sees t a (λ x, x = true → φ) → sees t (st_not a) (λ x, x = false → φ).
Proof. intros Ha. eapply sees_bind; [exact Ha|]. intros [|] Hx; apply sees_ret; auto. Qed.

Lemma sees_directory_names path : sees t (directory_names path) (λ _, True).
Proof.
  eapply sees_bind; [apply sees_looked|]. intros ? _. eapply sees_true, sees_looked.
Qed.

(** ** Hashing *)

Lemma sees_hash_loop fuel operation path count overflow chunks rest size :
  length rest ≤ fuel →
  sees t (hash_loop fuel operation path count overflow (FileHandle rest)
            (foldl (Hasher_update sha256_digest) (Hasher_new sha256_digest) chunks) size)
    (λ r, Hasher_finalize sha256_digest r.1 = sha256_digest (mjoin chunks ++ rest) ∧
       ((∀ s n s', count s n = Some s' → s' = s + n)%N → r.2 = size + len_u64 rest)%N).
Proof.
  revert chunks rest size. induction fuel as [|fuel IH]; intros chunks rest size Hfuel;
    cbn [hash_loop]; (eapply sees_bind; [apply sees_io_error, sees_read; unfold BUFFER_LEN; lia|]);
    intros [chunk h'] (rest' & n & [= <-] & Hn & [= -> ->]);
    (destruct rest as [|b rest]; [rewrite take_nil; apply sees_ret; cbn [fst snd];
       rewrite Hasher_finalize_chunks, app_nil_r; split; [done|]; unfold len_u64; simpl; lia|]);
    [simpl in Hfuel; lia|].
  destruct n as [|n]; [lia|]. cbn [take drop].
  destruct (count _ _) as [size'|] eqn:Ecount; [|apply sees_err].
  rewrite <-(foldl_snoc (Hasher_update sha256_digest)).
  eapply sees_weaken; [apply IH; rewrite length_drop; simpl in Hfuel; lia|].
  intros r [Hr Hsize]. split.
  - rewrite Hr, join_app. cbn [mjoin list_join]. rewrite app_nil_r, <-app_assoc. cbn [app].
    by rewrite take_drop.
  - intros Hcount. rewrite (Hsize Hcount), (Hcount _ _ _ Ecount).
    rewrite <-(take_drop n rest) at 3. unfold len_u64. simpl. rewrite length_app. lia.
Qed.

(** Opening a file to hash it. *)
Lemma sees_open operation (path : Path) :
  sees t (io_error operation path (open_read path))
    (λ h, h = DirHandle ∨ ∃ c, file_at path c t ∧ h = FileHandle c).
Proof.
  eapply sees_weaken; [apply sees_looked|]. intros h. cbn.
  destruct (t !! path) as [[|c r]|] eqn:E; [|intros [= <-]; right..|done].
  - intros [= <-]. by left.
  - exists c. split; [by exists r|done].
Qed.

Lemma sees_hash_loop_dir operation path count overflow hasher size (φ : _ → Prop) :
  sees t (hash_loop 0 operation path count overflow DirHandle hasher size) φ.
Proof.
  cbn [hash_loop]. eapply sees_bind; [apply sees_io_error, sees_read; unfold BUFFER_LEN; lia|].
  by intros ? (? & ? & [=] & _).
Qed.

Lemma sees_hash operation (path : Path) operation' count overflow :
  sees t (let! h := io_error operation path (open_read path) in
          hash_loop (unread h) operation' path count overflow h (Hasher_new sha256_digest) 0)
    (λ r, ∃ c, file_at path c t ∧ Hasher_finalize sha256_digest r.1 = sha256_digest c ∧
       ((∀ s n s', count s n = Some s' → s' = s + n)%N → r.2 = len_u64 c)).
Proof.
  eapply sees_bind; [apply sees_open|]. intros h [->|(c & Hc & ->)]; cbn [unread].
  - apply sees_hash_loop_dir.
  - eapply sees_weaken; [by apply (sees_hash_loop _ _ _ _ _ [])|].
    intros r [Hr Hsize]. exists c. by split_and!.
Qed.

Lemma sees_hash_file path :
  sees t (hash_file path) (λ s, ∃ c, file_at path c t ∧ s = hex_lower (sha256_digest c)).
Proof.
  eapply sees_ext; [intros fs; apply st_bind_assoc|].
  eapply sees_bind; [apply sees_hash|]. intros [hasher size] (c & Hc & Hh & _).
  apply sees_ret. exists c. split; [done|]. f_equal. exact Hh.
Qed.

Lemma sees_verify_cache_object cached :
  sees t (verify_cache_object cached)
    (λ _, ∃ c, file_at (object_path cached) c t ∧ len_u64 c = cached_size cached ∧
       hex_lower (sha256_digest c) = Sha256Digest_as_str (cached_sha256 cached)).
Proof.
  unfold verify_cache_object. change (CachedArtifact_path cached) with (object_path cached).
  eapply sees_bind; [apply sees_is_regular_file|]. intros regular _.
  destruct regular; [cbn [negb]|apply sees_err].
  eapply sees_ext; [intros fs; apply st_bind_assoc|].
  eapply sees_bind; [apply sees_hash|]. intros [hasher size] (c & Hc & Hh & Hsize).
  cbn [fst snd] in *. cbv zeta.
  match goal with |- sees _ (if ?b then _ else _) _ => destruct b eqn:Eb; [apply sees_err|] end.
  apply orb_false_iff in Eb as [E1%negb_false_iff%N.eqb_eq E2%negb_false_iff%bool_decide_eq_true].
  apply sees_ret. exists c. rewrite Hh in E2. split_and!; [done| |done]. rewrite <-E1. symmetry.
  apply Hsize. intros ? ? ?. unfold checked. by destruct (N.leb _ _); intros [= <-].
Qed.

(** ** Decoded files *)

Lemma sees_read_toml `{!Toml T} operation path :
  sees t (read_toml operation path) (λ x : T, toml_at path x t).
Proof.
  unfold read_toml. eapply sees_bind; [apply sees_looked|]. intros text Htext. cbn in Htext.
  apply sees_lift. intros x Hx%map_err_ok. destruct (t !! path) as [[|c r]|] eqn:E; [done| |done].
  apply map_err_ok in Htext. exists c, text. split_and!; [by exists r|done..].
Qed.

(** ** A published repository *)

Lemma sees_validate_record contrib record :
  sees t (validate_record contrib record) (λ _, record_there contrib t record).
Proof.
  unfold validate_record, transaction_conflict, path_join.
  destruct (destination_in_contrib record) as [name|] eqn:Ename; [|apply sees_err].
  eapply sees_bind; [apply sees_is_regular_file|]. intros regular _.
  destruct regular; [cbn [negb]|apply sees_err].
  eapply sees_bind; [apply sees_looked|]. intros len Hlen. cbn in Hlen.
  eapply (sees_bind t _ _ (λ differs : bool, differs = false → record_there contrib t record)).
  - destruct (N.eqb_spec len (record_size record)) as [Hs|]; cbn [negb]; [|by apply sees_ret].
    eapply sees_bind; [apply sees_hash_file|]. intros actual (c & Hc & ->). apply sees_ret.
    intros E%negb_false_iff%bool_decide_eq_true. exists name, c. split_and!; [done..|].
    destruct Hc as [r Hr]. rewrite Hr in Hlen. injection Hlen as <-. exact Hs.
  - intros [|] Hd; [apply sees_err|]. apply sees_ret. auto.
Qed.

Lemma sees_validate_repository_contents repository records index :
  sees t (validate_repository_contents repository records index)
    (λ _, repository_holds repository records index t).
Proof.
  unfold validate_repository_contents, transaction_conflict, path_join. rewrite <-app_assoc. cbn [app].
  eapply sees_bind; [apply (sees_and _ _ True True); (eapply sees_weaken; [apply sees_is_directory|done])|].
  intros laid_out _. destruct laid_out; [cbn [negb]|apply sees_err].
  eapply sees_bind; [apply (sees_or _ _ True True);
    (eapply sees_bind; [apply sees_directory_names|]; intros ? _; by apply sees_ret)|].
  intros unexpected _. destruct unexpected; [apply sees_err|].
  eapply sees_bind; [apply sees_directory_names|]. intros names _.
  match goal with |- sees _ (if ?b then _ else _) _ => destruct b; [apply sees_err|] end.
  eapply sees_bind.
  { apply (sees_try_fold t _ (record_there (contrib_of repository) t)). intros [] record _.
    apply sees_validate_record. }
  intros ? Hrecords. eapply sees_bind.
  { apply (sees_or _ _ True (index_there (contrib_of repository) index t)).
    - apply sees_not. eapply sees_weaken; [apply sees_is_regular_file|done].
    - eapply sees_bind; [apply sees_hash_file|]. intros actual (c & Hc & ->). apply sees_ret.
      intros E%negb_false_iff%bool_decide_eq_true. by exists c. }
  intros [|] Hd; [apply sees_err|]. apply sees_ret. split; [done|by apply Hd].
Qed.

(** ** A committed state *)

(** What a state that was returned for a selection says of the repository. *)
Record publishes (repository : Path) (artifacts : list MaterializationArtifact)
    (state : MaterializationState) : Prop := {
  publishes_holds : repository_holds repository (state_records state) (state_index_sha256 state) t;
  publishes_index : index_digest artifacts = Ok (state_index_sha256 state);
  publishes_length : length (state_records state) = length artifacts;
  publishes_artifacts : Forall (λ selected, ∃ record, record ∈ state_records state ∧
    record_matches selected record = true) artifacts;
}.

Lemma sees_validate_existing_artifact state repository selected :
  sees t (validate_existing_artifact state repository selected)
    (λ _, ∃ record, record ∈ state_records state ∧ record_matches selected record = true).
Proof.
  unfold validate_existing_artifact. cbv zeta. destruct (find _ _) as [record|] eqn:Ef; [|apply sees_err].
  apply find_some in Ef as [Hin%list_elem_of_In [Hid Hsha]%andb_true_iff].
  match goal with |- sees _ (if ?b then _ else _) _ => destruct b eqn:Eb; [apply sees_err|] end.
  rewrite !orb_false_iff, !negb_false_iff in Eb. destruct Eb as [[[Hd Hp] Hv] Hs].
  eapply sees_bind; [apply sees_verify_cache_object|]. intros ? _.
  eapply (sees_bind t _ _ (λ _, True)).
  - eapply sees_weaken; [apply (sees_or _ _ True True)|done].
    + apply sees_not. eapply sees_weaken; [apply sees_is_regular_file|done].
    + eapply sees_bind; [apply sees_hash_file|]. intros ? _. by apply sees_ret.
  - intros [|] _; [apply sees_err|]. apply sees_ret. exists record. split; [done|].
    unfold record_matches. by rewrite Hid, Hp, Hv, Hsha, Hs, Hd.
Qed.

Lemma sees_load_existing state_path repository artifacts :
  sees t (load_existing state_path repository artifacts)
    (λ state, toml_at state_path state t ∧ publishes repository artifacts state).
Proof.
  unfold load_existing. eapply sees_bind; [apply sees_is_regular_file|]. intros regular _.
  destruct regular; [cbn [negb]|apply sees_err].
  eapply sees_bind; [apply sees_read_toml|]. intros state Hstate.
  eapply (sees_bind t _ _ (λ _, length (state_records state) = length artifacts ∧
    Forall (λ selected, ∃ record, record ∈ state_records state ∧
      record_matches selected record = true) artifacts)).
  - unfold validate_existing_state.
    match goal with |- sees _ (if ?b then _ else _) _ => destruct b eqn:Eb; [apply sees_err|] end.
    apply orb_false_iff in Eb as [_ Hlen%negb_false_iff%Nat.eqb_eq].
    eapply sees_weaken; [apply sees_try_fold; intros [] a _; apply sees_validate_existing_artifact|done].
  - intros ? [Hlen Hall].
    eapply sees_bind; [apply (sees_lift t _ (λ d, index_digest artifacts = Ok d)); done|].
    intros requested Hindex.
    match goal with |- sees _ (if ?b then _ else _) _ => destruct b eqn:Eb; [apply sees_err|] end.
    apply negb_false_iff, bool_decide_eq_true in Eb. subst requested.
    eapply sees_bind; [apply sees_validate_repository_contents|]. intros ? Hholds.
    apply sees_ret. by split.
Qed.

(** ** Temporaries *)

Definition named_like (directory : Path) (prefix : string) (p : Path) : Prop :=
  ∃ name, p = directory ++ [name] ∧ str_starts_with prefix name = true.

Lemma sees_partial_paths directory prefix :
  sees t (partial_paths directory prefix) (Forall (named_like directory prefix)).
Proof.
  unfold partial_paths. eapply sees_bind; [apply sees_looked|]. intros ? _.
  eapply sees_bind; [apply sees_looked|]. intros names _. apply sees_ret.
  apply Forall_fmap, Forall_forall. intros name.
  rewrite elem_of_sort_by, elem_of_filter_bool. intros [_ Hp]. by exists name.
Qed.

Lemma sees_orphan_transaction state state_name staging_name markers :
  sees t (orphan_transaction state state_name staging_name markers)
    (λ tx, tx_records tx = state_records state ∧ tx_index_sha256 tx = state_index_sha256 state).
Proof.
  unfold orphan_transaction, transaction_conflict. destruct markers as [|path markers].
  { by apply sees_ret. }
  eapply sees_bind; [apply sees_is_regular_file|]. intros regular _.
  destruct regular; [cbn [negb]|apply sees_err].
  eapply sees_bind; [apply sees_read_toml|]. intros tx _.
  match goal with |- sees _ (if ?b then _ else _) _ => destruct b eqn:Eb; [apply sees_err|] end.
  rewrite !orb_false_iff, !negb_false_iff, !bool_decide_eq_true in Eb.
  destruct Eb as [[_ Hi] Hr]. by apply sees_ret.
Qed.

Lemma sees_validate_index_digest tx requested :
  sees t (validate_index_digest tx requested) (λ _, index_digest requested = Ok (tx_index_sha256 tx)).
Proof.
  unfold validate_index_digest, transaction_conflict.
  eapply sees_bind; [apply (sees_lift t _ (λ d, index_digest requested = Ok d)); done|].
  intros digest Hd. case_bool_decide as E; cbn [negb]; [|apply sees_err].
  apply sees_ret. by rewrite <-E.
Qed.

Lemma sees_temporary_state state_path state_temp transaction_path states tx requested :
  sees t (temporary_state state_path state_temp transaction_path states tx requested)
    (λ o, ∀ state, o = Some state →
       toml_at state_temp state t ∧ state_matches state tx requested = true).
Proof.
  unfold temporary_state, transaction_conflict. eapply sees_bind; [apply sees_exists|].
  intros committed _. match goal with |- sees _ (if ?b then _ else _) _ => destruct b end.
  - eapply sees_bind; [apply sees_read_toml|]. intros state _.
    destruct (state_matches _ _ _); [by apply sees_ret|apply sees_err].
  - eapply (sees_bind t _ _ (λ _, True)).
    { case_bool_decide; cbn [negb]; [|by apply sees_ret].
      eapply sees_weaken; [apply sees_not; eapply sees_weaken; [apply sees_is_regular_file|done]|done]. }
    intros [|] _; [apply sees_err|].
    eapply sees_bind; [apply sees_map_err, sees_read_toml|]. intros state Hstate.
    destruct (state_matches _ _ _) eqn:Em; cbn [negb]; [|apply sees_err].
    eapply sees_bind; [apply (sees_and _ _ True True)|].
    { eapply sees_weaken; [apply sees_exists|done]. }
    { eapply sees_bind; [apply sees_read_toml|]. intros ? _. by apply sees_ret. }
    intros [|] _; [apply sees_err|]. apply sees_ret. by intros ? [= <-].
Qed.
End observations.

(** ** Paths in the project directory *)

Section paths.
Context (rsolve : Path).

Definition state_at : Path := rsolve ++ [STATE_NAME].
Definition repository_at : Path := rsolve ++ [REPOSITORY_NAME].
Definition marker_at : Path := rsolve ++ [TRANSACTION_NAME].

(** What is published: the state, and the repository with all that is in it. *)
Definition public (o : Path) : Prop := o = state_at ∨ repository_at `prefix_of` o.

(** Names that are neither. *)
Definition private (name : string) : Prop := name ≠ STATE_NAME ∧ name ≠ REPOSITORY_NAME.

Lemma public_inside o :
  public o → ∃ name, (name = STATE_NAME ∨ name = REPOSITORY_NAME) ∧ (rsolve ++ [name]) `prefix_of` o.
Proof. intros [->|Ho]; [exists STATE_NAME|exists REPOSITORY_NAME]; (split; [auto|done]). Qed.

Lemma inside_inj name l name' o :
  (rsolve ++ name :: l) `prefix_of` o → (rsolve ++ [name']) `prefix_of` o → name = name'.
Proof.
  intros [k ->] [k' E]. rewrite <-!app_assoc in E. by injection (app_inv_head _ _ _ E).
Qed.

Lemma private_above name l o : private name → public o → ¬ (rsolve ++ name :: l) `prefix_of` o.
Proof.
  intros [Hs Hr] (name' & Hn & Ho)%public_inside Hp.
  pose proof (inside_inj _ _ _ _ Hp Ho) as ->. by destruct Hn.
Qed.

Lemma private_not_public name l : private name → ¬ public (rsolve ++ name :: l).
Proof. intros Hn Ho. by apply (private_above name l _ Hn Ho). Qed.

Lemma elem_of_prefixes p q : p ∈ prefixes q → p `prefix_of` q.
Proof.
  unfold prefixes. intros (n & -> & _)%list_elem_of_fmap. exists (drop (S n) q). by rewrite take_drop.
Qed.

(** Directories made for a path outside do not touch what is published. *)
Lemma prefixes_outside (P : Path → Prop) q :
  (∀ o, P o → ¬ o `prefix_of` q) → Forall (λ p, ¬ P p) (prefixes q).
Proof. intros HP. apply Forall_forall. intros p Hp%elem_of_prefixes Ho. by apply (HP p Ho). Qed.

Lemma public_not_prefix o name l : private name → public o → ¬ o `prefix_of` (rsolve ++ name :: l).
Proof.
  intros [Hs Hr] (name' & Hn & Ho)%public_inside Hp.
  assert (name = name') as ->; [|by destruct Hn].
  apply (inside_inj name l name' (rsolve ++ name :: l)); [done|by etrans].
Qed.

Lemma public_not_root o : public o → ¬ o `prefix_of` rsolve.
Proof.
  intros (name & _ & Ho)%public_inside Hp. assert (rsolve ++ [name] `prefix_of` rsolve) as H by by etrans.
  apply prefix_length in H. rewrite length_app in H. simpl in H. lia.
Qed.

(** Names of temporaries. *)
Lemma starts_with_private prefix name :
  str_starts_with prefix name = true → str_starts_with prefix STATE_NAME = false →
  str_starts_with prefix REPOSITORY_NAME = false → private name.
Proof. intros H Hs Hr. split; intros ->; congruence. Qed.

Lemma str_starts_with_app prefix s : str_starts_with prefix (prefix +:+ s) = true.
Proof. unfold str_starts_with. rewrite bytes_app. apply has_prefix_app. Qed.

Lemma staging_private s : private (STAGING_PREFIX +:+ s).
Proof. apply (starts_with_private STAGING_PREFIX); [apply str_starts_with_app|done..]. Qed.
Lemma state_temp_private s : private (STATE_PREFIX +:+ s).
Proof. apply (starts_with_private STATE_PREFIX); [apply str_starts_with_app|done..]. Qed.
Lemma marker_temp_private s : private (MARKER_PREFIX +:+ s).
Proof. apply (starts_with_private MARKER_PREFIX); [apply str_starts_with_app|done..]. Qed.
Lemma marker_private : private TRANSACTION_NAME.
Proof. done. Qed.

(** A temporary of [read_dir] is private too. *)
Lemma named_like_private prefix p :
  str_starts_with prefix STATE_NAME = false → str_starts_with prefix REPOSITORY_NAME = false →
  named_like rsolve prefix p → ∃ name, p = rsolve ++ [name] ∧ private name.
Proof.
  intros Hs Hr (name & -> & Hn). exists name. split; [done|]. by apply (starts_with_private prefix).
Qed.

Lemma safe_temp_path prefix name p :
  str_starts_with prefix STATE_NAME = false → str_starts_with prefix REPOSITORY_NAME = false →
  (if safe_temp_name name prefix then Some (path_join rsolve [name]) else None) = Some p →
  p = rsolve ++ [name] ∧ private name ∧ str_starts_with prefix name = true.
Proof.
  intros Hs Hr. destruct (safe_temp_name name prefix) eqn:E; [|done]. intros [= <-].
  unfold safe_temp_name in E. rewrite !andb_true_iff in E. destruct E as [[[_ Hn] _] _].
  split_and!; [done|by apply (starts_with_private prefix)|done].
Qed.
End paths.

(** ** What each step leaves alone *)

Section footprints.
Context `{CivilDate, Schedule, Sha2, !DigestStream sha256_digest, !DigestStreamLaws sha256_digest}.
Context `{!Toml MaterializationState, !Toml MaterializationTransaction} (P : Path → Prop).

Lemma leaves_io_error {T : Type} (operation : string) (path : Path) (m : io T) :
  leaves P m → leaves P (io_error operation path m).
Proof. apply leaves_map_err. Qed.

Lemma leaves_sync_published path : leaves P (sync_published path).
Proof. apply sees_leaves. intros t. apply sees_sync_published. Qed.

Lemma leaves_cleanup {T E : Type} (cleanup : stateful Fs unit E) (m : stateful Fs T E) :
  leaves P cleanup → leaves P m → leaves P (cleanup_on_error cleanup m).
Proof.
  intros Hc Hm. unfold cleanup_on_error. apply leaves_bind; [by apply leaves_outcome|].
  intros [x|e]; [apply leaves_ret|]. apply leaves_bind; [done|]. intros ?. apply leaves_err.
Qed.

Lemma leaves_symlink_metadata p : leaves P (symlink_metadata p).
Proof. apply leaves_looking. Qed.
Lemma leaves_is_regular_file {E : Type} p : leaves P (is_regular_file (E:=E) p).
Proof. apply sees_leaves. intros t. eapply sees_true, sees_is_regular_file. Qed.

Lemma leaves_ensure_directory path operation :
  (∀ o, P o → ¬ o `prefix_of` path) → leaves P (ensure_directory path operation).
Proof.
  intros Hp. unfold ensure_directory. apply leaves_bind; [apply leaves_outcome, leaves_looking|].
  intros [[|]|e]; [apply leaves_ret|apply leaves_err|].
  by apply leaves_io_error, leaves_create_dir_all, prefixes_outside.
Qed.

Lemma leaves_ensure_gitignore rsolve :
  ¬ P (rsolve ++ [".gitignore"]) → leaves P (ensure_gitignore rsolve).
Proof.
  intros Hp. unfold ensure_gitignore, path_join. cbv zeta. apply leaves_bind; [apply leaves_exists|].
  intros [|]; [|by apply leaves_io_error, leaves_write_file].
  apply leaves_bind; [apply leaves_is_regular_file|]. intros [|]; cbn [negb]; [|apply leaves_err].
  apply leaves_bind; [apply leaves_io_error, leaves_looking|]. intros existing.
  destruct (negb _); [apply leaves_err|apply leaves_ret].
Qed.

Lemma leaves_write_temp path data label : ¬ P path → leaves P (write_temp path data label).
Proof.
  intros Hp. unfold write_temp. apply leaves_bind; [by apply leaves_io_error, leaves_open_new|].
  intros ?. apply leaves_cleanup; [by apply leaves_ignore, leaves_remove_file|].
  apply leaves_io_error, leaves_bind; [by apply leaves_write_all|intros ?; apply leaves_looking].
Qed.

Lemma leaves_write_toml `{!Toml T} path (x : T) label : ¬ P path → leaves P (write_toml path x label).
Proof.
  intros Hp. unfold write_toml. apply leaves_bind; [apply leaves_lift|].
  intros encoded. by apply leaves_write_temp.
Qed.

Lemma leaves_make_writable_io path : ¬ P path → leaves P (make_writable_io path).
Proof.
  intros Hp. apply leaves_bind; [apply leaves_looking|intros ?; by apply leaves_set_writable].
Qed.

Lemma leaves_copy_file source destination : ¬ P destination → leaves P (copy_file source destination).
Proof.
  intros Hp. unfold copy_file. apply leaves_bind; [by apply leaves_open_new|]. intros ?.
  apply leaves_bind; [apply leaves_looking|]. intros h.
  apply leaves_bind; [by apply leaves_copy_to|]. intros ?.
  apply leaves_bind; [apply leaves_looking|intros ?; by apply leaves_make_writable_io].
Qed.

Lemma leaves_clone_file source destination : ¬ P destination → leaves P (clone_file source destination).
Proof.
  intros Hp. unfold clone_file. apply leaves_bind; [apply leaves_looking|]. intros h.
  apply leaves_bind; [by apply leaves_open_new|]. intros ?.
  apply leaves_bind; [by apply leaves_outcome, leaves_clone_to|]. intros [|].
  - apply leaves_bind; [apply leaves_looking|intros ?; by apply leaves_make_writable_io].
  - apply leaves_bind; [by apply leaves_ignore, leaves_remove_file|intros ?; apply leaves_err].
Qed.

Lemma leaves_materialize_file contrib selected :
  ¬ P (contrib ++ [destination_name selected]) → leaves P (materialize_file contrib selected).
Proof.
  intros Hp. unfold materialize_file, path_join. cbv zeta. apply leaves_bind.
  { apply sees_leaves. intros t. eapply sees_true, sees_verify_cache_object. }
  intros ?. apply leaves_bind; [by apply leaves_outcome, leaves_clone_file|]. intros [|source].
  { apply leaves_ret. }
  destruct (clone_unsupported source); [|destruct (bool_decide _); apply leaves_err].
  apply leaves_bind; [by apply leaves_outcome, leaves_copy_file|]. intros [|]; [apply leaves_ret|].
  destruct (bool_decide _); apply leaves_err.
Qed.

Lemma leaves_materialize_files contrib artifacts :
  (∀ o, P o → ¬ o `prefix_of` contrib) →
  (∀ selected, selected ∈ artifacts → ¬ P (contrib ++ [destination_name selected])) →
  leaves P (materialize_files contrib artifacts).
Proof.
  intros Hdir Hp. unfold materialize_files. apply leaves_bind; [by apply leaves_ensure_directory|].
  intros ?. apply leaves_try_map. intros a Ha. by apply leaves_materialize_file, Hp.
Qed.

(** Staging stays in its directory. *)
Lemma leaves_stage staging artifacts packages :
  (∀ o, P o → ¬ staging `prefix_of` o ∧ ¬ o `prefix_of` staging) →
  leaves P (stage staging artifacts packages).
Proof.
  intros HP. assert (∀ l, ¬ P (contrib_of staging ++ l)) as Hl.
  { intros l Hl. destruct (HP _ Hl) as [Hs _]. apply Hs. unfold contrib_of, path_join.
    rewrite <-app_assoc. by eexists. }
  unfold stage, path_join. cbv zeta. apply leaves_bind.
  { apply leaves_materialize_files; [|intros a _; apply Hl].
    intros o Ho Hpre. destruct (HP o Ho) as [Hs Hp].
    assert (staging `prefix_of` contrib_of staging) as Hc by by eexists.
    destruct (prefix_weak_total _ _ _ Hpre Hc); auto. }
  intros methods. apply leaves_bind; [apply leaves_io_error, leaves_write_file, Hl|]. intros ?.
  apply leaves_bind.
  { apply leaves_io_error, leaves_bind; [apply leaves_looking|intros ?; apply leaves_looking]. }
  intros ?. do 2 (apply leaves_bind; [apply leaves_sync_published|intros ?]). apply leaves_ret.
Qed.
End footprints.

(** ** What is written *)

Section writing.
Context `{CivilDate, Schedule, Sha2, !DigestStream sha256_digest, !DigestStreamLaws sha256_digest}.
Context `{!Toml MaterializationState, !Toml MaterializationTransaction}.

(** After a failure nothing is claimed. *)
Definition writes {T E : Type} (I : Tree → Prop) (m : stateful Fs T E) (Q : T → Tree → Prop) : Prop :=
  triple (on I) m (λ x, on (Q x)) (λ _ _, True).

Lemma writes_weaken {T E : Type} (I I' : Tree → Prop) (m : stateful Fs T E) (Q Q' : T → Tree → Prop) :
  writes I' m Q' → (∀ t, I t → I' t) → (∀ x t, Q' x t → Q x t) → writes I m Q.
Proof. intros Hm HI HQ. eapply triple_weaken; [exact Hm|..]; unfold on; auto. Qed.

Lemma writes_bind {T U E : Type} (I : Tree → Prop) (m : stateful Fs T E) (k : T → stateful Fs U E)
    (M : T → Tree → Prop) (Q : U → Tree → Prop) :
  writes I m M → (∀ x, writes (M x) (k x) Q) → writes I (st_bind m k) Q.
Proof. apply triple_bind. Qed.

Lemma writes_error {T : Type} (I : Tree → Prop) operation (path : Path) (m : io T) Q :
  writes I m Q → writes I (io_error operation path m) Q.
Proof. intros Hm. apply triple_map_err. exact Hm. Qed.

Lemma writes_ret {T E : Type} (I : Tree → Prop) (x : T) (Q : T → Tree → Prop) :
  (∀ t, I t → Q x t) → writes I (st_ret (E:=E) x) Q.
Proof. intros HQ. apply triple_ret'. intros fs. apply HQ. Qed.

Lemma writes_leaves {T E : Type} (P : Path → Prop) (I : Tree → Prop) (m : stateful Fs T E) :
  (∀ t t', untouched P t t' → I t → I t') → leaves P m → writes I m (λ _, I).
Proof. intros HI Hm. eapply triple_weaken; [by apply (leaves_triple P I)|done..]. Qed.

Lemma writes_sees {T E : Type} (I : Tree → Prop) (m : stateful Fs T E) (φ : Tree → T → Prop) :
  (∀ t, I t → sees t m (φ t)) → writes I m (λ x t, I t ∧ φ t x).
Proof. intros Hm. eapply triple_weaken; [by apply (sees_triple I m φ)|done..]. Qed.

Lemma writes_cleanup {T E : Type} (I : Tree → Prop) cleanup (m : stateful Fs T E) Q :
  writes I m Q → writes I (cleanup_on_error cleanup m) Q.
Proof.
  intros Hm. unfold cleanup_on_error. intros fs Hfs. specialize (Hm fs Hfs).
  unfold st_bind, st_outcome. destruct (m fs) as [[x|e] fs']; [exact Hm|].
  destruct (cleanup fs') as [[[]|e'] fs'']; done.
Qed.

(** A file that was not there. *)
Lemma writes_open_new (I : Tree → Prop) p :
  (∀ t n, I t → t !! p = None → I (<[p := n]> t)) →
  writes I (open_new p) (λ _ t, I t ∧ file_at p [] t ∧ ∃ t', t' !! p = None ∧ I t').
Proof.
  intros HI. eapply triple_weaken; [apply (triple_atomic I _ (λ _ t, I t ∧ file_at p [] t ∧
    ∃ t', t' !! p = None ∧ I t') (λ _ _, True))|done..]; [|done].
  intros t Ht. destruct (t !! p) as [n|] eqn:E; [done|]. unfold create_in.
  destruct (is_dir _ _); [|done]. split_and!; [by apply HI| |by exists t].
  exists false. apply lookup_insert_eq.
Qed.

Lemma writes_write_all p c data :
  writes (file_at p c) (write_all p data) (λ _, file_at p (c ++ data)).
Proof.
  eapply triple_weaken; [apply (triple_operation (file_at p c) _ _ (λ _, file_at p (c ++ data))
    (λ _ _, True))|done..]; [|done].
  intros n t [r Hr]. exists r. unfold append_to. by rewrite Hr, lookup_insert_eq.
Qed.

Lemma writes_write_file p data :
  writes (λ _, True) (write_file p data) (λ _, file_at p data).
Proof.
  eapply writes_bind; [|intros ?; apply (writes_write_all p [])].
  eapply triple_weaken; [apply (triple_atomic (λ _, True) _ (λ _, file_at p []) (λ _ _, True))|done..];
    [|done].
  intros t _. destruct (t !! p) as [[|c []]|] eqn:E; [done|done|..].
  - exists false. apply lookup_insert_eq.
  - unfold create_in. destruct (is_dir _ _); [|done]. exists false. apply lookup_insert_eq.
Qed.

Lemma writes_write_temp p data label :
  writes (λ _, True) (write_temp p data label) (λ _, file_at p data).
Proof.
  unfold write_temp. eapply writes_bind.
  { apply writes_error, (writes_open_new (λ _, True)). done. }
  intros ?. apply writes_cleanup, writes_error. eapply writes_bind.
  - eapply writes_weaken; [apply (writes_write_all p [] data)|by intros t (_ & Ht & _)|done].
  - intros ?. eapply (writes_leaves (λ o, o = p)); [|apply leaves_looking].
    intros t t' Ht. by apply (file_at_untouched (λ o, o = p)).
Qed.

Lemma writes_write_toml `{!Toml T, !TomlLaws T} p (x : T) label :
  writes (λ _, True) (write_toml p x label) (λ _, toml_at p x).
Proof.
  unfold write_toml. intros fs _. unfold st_bind at 1, st_lift.
  destruct (toml_to_string_pretty x) as [s|] eqn:E; [|done]. cbn [map_err].
  destruct (toml_round_trip x s E) as [Hs Hx].
  pose proof (writes_write_temp p (bytes s) label fs I) as Ht.
  destruct (write_temp p (bytes s) label fs) as [[u|] fs']; [|done]. by exists (bytes s), s.
Qed.

(** ** A copy of a cache object *)

Section copies.
Context (source destination : Path) (c : list byte).

(** The source is there, whatever happens; the destination is another file. *)
Definition copying_to (d : list byte) (t : Tree) : Prop :=
  source ≠ destination ∧ file_at source c t ∧ file_at destination d t.

(** A step of a copy: from [d] to [d'] in the destination. *)
Definition copies {T : Type} (m : io T) (d d' : list byte) : Prop :=
  triple (on (copying_to d)) m (λ _, on (copying_to d')) (λ _, on (file_at source c)).

Lemma copies_leaves {T : Type} (m : io T) d : (∀ P, leaves P m) → copies m d d.
Proof.
  intros Hm. eapply triple_weaken; [apply (leaves_triple (λ _, True) (copying_to d)); [|apply Hm]
    |done|done|by intros e fs (_ & ? & _)].
  intros t t' Ht (Hne & Hs & Hd). split_and!; [done|by eapply (file_at_untouched (λ _, True))..].
Qed.

Lemma copies_operation {T : Type} (run : nat → Tree → result T IoError * Tree)
    (partial : nat → Tree → Tree) d d' :
  (∀ n t, untouched (λ o, o ≠ destination) t (run n t).2) →
  (∀ n t, untouched (λ o, o ≠ destination) t (partial n t)) →
  (∀ n t x t', file_at destination d t → run n t = (Ok x, t') → file_at destination d' t') →
  copies (operation run partial) d d'.
Proof.
  intros Hrun Hpart Hd. apply triple_operation.
  - intros n t (Hne & Hs & Ht). specialize (Hrun n t).
    destruct (run n t) as [[x|e] t'] eqn:E; cbn in Hrun.
    + split_and!; [done|by eapply (file_at_untouched (λ o, o ≠ destination))|by eapply Hd].
    + by eapply (file_at_untouched (λ o, o ≠ destination)).
  - intros n e t (Hne & Hs & _).
    eapply (file_at_untouched (λ o, o ≠ destination)); [exact Hne|apply Hpart|exact Hs].
Qed.

Lemma copies_bind {T U : Type} (m : io T) (k : T → io U) d1 d2 d3 :
  copies m d1 d2 → (∀ x, copies (k x) d2 d3) → copies (st_bind m k) d1 d3.
Proof. apply triple_bind. Qed.

Lemma copies_clone_to d : copies (clone_to destination (FileHandle c)) d c.
Proof.
  apply copies_operation; [|done|].
  - intros _ t. destruct (t !! destination) as [[]|]; [done|apply untouched_insert; tauto|done].
  - intros _ t x t' [r Hr]. rewrite Hr. intros [= _ <-]. exists r. apply lookup_insert_eq.
Qed.

Lemma copies_copy_to : copies (copy_to destination (FileHandle c)) [] c.
Proof.
  apply copies_operation.
  - intros _ t. apply append_to_untouched. tauto.
  - intros n t. apply append_to_untouched. tauto.
  - intros _ t x t' [r Hr] [= _ <-]. exists r. unfold append_to. rewrite Hr. apply lookup_insert_eq.
Qed.

Lemma copies_make_writable d : copies (make_writable_io destination) d d.
Proof.
  eapply copies_bind; [apply copies_leaves; intros P; apply leaves_looking|]. intros readonly.
  apply copies_operation; [|done|].
  - intros _ t. destruct (t !! destination) as [[]|]; [done|apply untouched_insert; tauto|done].
  - intros _ t x t' [r Hr]. rewrite Hr. intros [= _ <-]. exists false. apply lookup_insert_eq.
Qed.

Lemma triple_open_destination :
  triple (on (file_at source c)) (open_new destination) (λ _, on (copying_to []))
    (λ _, on (file_at source c)).
Proof.
  apply triple_atomic; [|done]. intros t Hs. destruct (t !! destination) as [n|] eqn:E; [done|].
  assert (source ≠ destination) as Hne. { intros ->. destruct Hs. congruence. }
  unfold create_in. destruct (is_dir _ _); [|done]. split_and!; [done|by apply file_at_insert_ne|].
  exists false. apply lookup_insert_eq.
Qed.

Lemma triple_open_source (P : Tree → Prop) :
  (∀ t, P t → file_at source c t) →
  triple (on P) (open_read source) (λ h, on (λ t, P t ∧ h = FileHandle c)) (λ _, on P).
Proof.
  intros HP. apply (sees_triple P _ (λ _ h, h = FileHandle c)). intros t [r Hr]%HP.
  eapply sees_weaken; [apply sees_looking|]. intros h. cbn. rewrite Hr. by intros [= <-].
Qed.

Lemma triple_clone_file :
  triple (on (file_at source c)) (clone_file source destination) (λ _, on (copying_to c))
    (λ _, on (file_at source c)).
Proof.
  unfold clone_file. eapply triple_bind; [apply (triple_open_source (file_at source c)); done|].
  intros h. apply triple_pre. intros fs [Hs ->].
  apply (triple_from (on (file_at source c))); [by intros ? ->|].
  eapply triple_bind; [apply triple_open_destination|]. intros ?.
  eapply triple_outcome_match.
  - apply (triple_pre (on (copying_to []))). intros fs0 (Hne & Hs0 & Hd0).
    eapply triple_weaken; [apply (copies_clone_to [])|by intros fs1 ->|intros y fs1 Hy; exact Hy|].
    intros e fs1 Hs1. exact (conj Hne Hs1).
  - intros ?. eapply (copies_bind _ _ c c c); [apply copies_leaves; intros P; apply leaves_looking|].
    intros ?. apply copies_make_writable.
  - intros error. cbn beta. eapply triple_bind.
    { apply (triple_pre (λ fs, source ≠ destination ∧ on (file_at source c) fs)). intros fs1 [Hne Hs1].
      eapply triple_weaken; [apply (leaves_triple (λ o, o ≠ destination) (file_at source c));
        [intros t t' Ht; by apply (file_at_untouched (λ o, o ≠ destination))
        |apply leaves_ignore, leaves_remove_file; tauto]
      |by intros ? ->|intros ? ? Hx; exact Hx|done]. }
    intros ?. by apply triple_err.
Qed.

Lemma triple_copy_file :
  triple (on (file_at source c)) (copy_file source destination) (λ _, on (copying_to c))
    (λ _, on (file_at source c)).
Proof.
  unfold copy_file. eapply triple_bind; [apply triple_open_destination|]. intros ?.
  eapply triple_bind.
  { eapply triple_weaken; [apply (triple_open_source (copying_to [])); by intros t (_ & ? & _)
      |done|intros h fs Hh; exact Hh|by intros e fs (_ & ? & _)]. }
  intros h. apply triple_pre. intros fs [Hc ->].
  apply (triple_from (on (copying_to []))); [by intros ? ->|].
  eapply (copies_bind _ _ [] c c); [apply copies_copy_to|]. intros ?.
  eapply (copies_bind _ _ c c c); [apply copies_leaves; intros P; apply leaves_looking|].
  intros ?. apply copies_make_writable.
Qed.
End copies.

(** ** The staged repository *)

(** The artifact is in the directory. *)
Definition staged (contrib : Path) (selected : MaterializationArtifact) (t : Tree) : Prop :=
  ∃ c, file_at (contrib ++ [destination_name selected]) c t ∧
    len_u64 c = cached_size (selected_artifact selected) ∧
    hex_lower (sha256_digest c) = Sha256Digest_as_str (cached_sha256 (selected_artifact selected)).

Lemma staged_untouched (P : Path → Prop) contrib selected t t' :
  P (contrib ++ [destination_name selected]) → untouched P t t' →
  staged contrib selected t → staged contrib selected t'.
Proof. intros HP Ht (c & Hc & ?). exists c. split; [by eapply file_at_untouched|done]. Qed.

Lemma writes_materialize_file contrib selected :
  writes (λ _, True) (materialize_file contrib selected) (λ _, staged contrib selected).
Proof.
  unfold materialize_file, path_join. cbv zeta. set (object := CachedArtifact_path _).
  set (destination := contrib ++ _).
  eapply writes_bind; [apply (writes_sees (λ _, True)); intros t _; apply sees_verify_cache_object|].
  intros ?. apply triple_pre. intros fs0 (_ & c & Hc & Hlen & Hsha).
  change (object_path (selected_artifact selected)) with object in Hc.
  assert (∀ t, copying_to object destination c c t → staged contrib selected t) as Hdone.
  { intros t (_ & _ & Ht). by exists c. }
  apply (triple_from (on (file_at object c))); [by intros ? ->|].
  eapply triple_outcome_match; [apply triple_clone_file|..].
  - intros ?. apply triple_ret'. intros fs. apply Hdone.
  - intros source. cbn beta. destruct (clone_unsupported source).
    + eapply triple_outcome_match; [apply triple_copy_file|..].
      * intros ?. apply triple_ret'. intros fs. apply Hdone.
      * intros e. by destruct (bool_decide _); apply triple_err.
    + by destruct (bool_decide _); apply triple_err.
Qed.

(** One file after the other, each where no other is. *)
Lemma writes_materialize_list (contrib : Path) (artifacts : list MaterializationArtifact) (I : Tree → Prop) :
  NoDup (destination_name <$> artifacts) →
  (∀ t t', untouched (λ o, o ∉ (λ a, contrib ++ [destination_name a]) <$> artifacts) t t' → I t → I t') →
  writes I (st_try_map (materialize_file contrib) artifacts)
    (λ methods t, I t ∧ length methods = length artifacts ∧ Forall (λ a, staged contrib a t) artifacts).
Proof.
  revert I. induction artifacts as [|a artifacts IH]; intros I Hnd HI; cbn [st_try_map].
  { by apply writes_ret. }
  apply NoDup_cons in Hnd as [Ha Hnd]. apply (writes_bind I _ _ (λ _ t, I t ∧ staged contrib a t)).
  { eapply triple_weaken; [apply (triple_and (on I) (λ _, True));
      [apply (leaves_triple (λ o, o ≠ contrib ++ [destination_name a]))|apply writes_materialize_file]
      |done|intros x fs Hx; exact Hx|done].
    - intros t t' Ht. apply HI. intros o Ho. apply Ht. intros ->. apply Ho. left.
    - apply leaves_materialize_file. tauto. }
  intros method. eapply writes_bind.
  { apply (IH (λ t, I t ∧ staged contrib a t)); [done|]. intros t t' Ht [HIt Hst]. split.
    - apply (HI t); [|done]. intros o Ho. apply Ht. intros Hin. apply Ho. by right.
    - eapply staged_untouched; [|exact Ht|exact Hst].
      intros (b & Eb & Hb)%list_elem_of_fmap. apply app_inv_head in Eb. injection Eb as Eb.
      apply Ha, list_elem_of_fmap. by exists b. }
  intros methods. apply writes_ret. intros t ([HIt Hst] & Hlen & Hall). split; [done|].
  simpl. split; [by f_equal|by constructor].
Qed.

Lemma destination_not_index selected : destination_name selected ≠ "PACKAGES".
Proof.
  intros E. apply (f_equal bytes) in E. unfold destination_name in E. rewrite !bytes_app in E.
  assert (byte_of 95 ∈ bytes "PACKAGES") as Hin; [|by vm_compute in Hin; set_solver].
  rewrite <-E, elem_of_app. right. rewrite elem_of_app. left. vm_compute. left.
Qed.

Lemma destination_in_contrib_record selected method :
  destination_in_contrib (record_for selected method) = Some (destination_name selected).
Proof.
  unfold destination_in_contrib, str_strip_prefix, record_for. cbn [record_destination].
  change "repository/src/contrib/" with RECORD_PREFIX. unfold Text.strip_prefix.
  rewrite bytes_app, has_prefix_app. cbn [option_map]. by rewrite drop_app_length, from_utf8_bytes.
Qed.

Lemma staged_records contrib artifacts methods t :
  length methods = length artifacts → Forall (λ a, staged contrib a t) artifacts →
  Forall (record_there contrib t) (zip_with record_for artifacts methods).
Proof.
  intros Hlen Hall. revert methods Hlen. induction Hall as [|a artifacts (c & Hc & Hl & Hs) _ IH];
    intros [|method methods] Hlen; simpl in *; try done; constructor; [|apply IH; by injection Hlen].
  exists (destination_name a), c. split_and!; [apply destination_in_contrib_record|done..].
Qed.

(** Making directories changes nothing that is there. *)
Lemma make_dirs_there l t o n : t !! o = Some n → (make_dirs t l).2 !! o = Some n.
Proof.
  revert t. induction l as [|p l IH]; intros t Ht; [done|]. simpl.
  destruct (t !! p) as [[|]|] eqn:Ep; [by apply IH|done|]. apply IH.
  rewrite lookup_insert_ne; [done|]. intros ->. congruence.
Qed.

Lemma make_dirs_made l t t' p :
  make_dirs t l = (Ok tt, t') → p ∈ l → t' !! p = Some NodeDir.
Proof.
  revert t. induction l as [|q l IH]; intros t E Hp; [by apply elem_of_nil in Hp|]. simpl in E.
  apply elem_of_cons in Hp as [->|Hp].
  - destruct (t !! q) as [[|]|] eqn:Eq; [|done|].
    + pose proof (make_dirs_there l t q NodeDir Eq) as H'. by rewrite E in H'.
    + pose proof (make_dirs_there l (<[q := NodeDir]> t) q NodeDir (lookup_insert_eq _ _ _)) as H'.
      by rewrite E in H'.
  - destruct (t !! q) as [[|]|]; [by eapply IH|done|by eapply IH].
Qed.

Lemma elem_of_prefixes_self p : p ≠ [] → p ∈ prefixes p.
Proof.
  intros Hp. unfold prefixes. apply list_elem_of_fmap. exists (length p - 1).
  assert (0 < length p) as Hlen by (destruct p; [done|simpl; lia]).
  replace (S (length p - 1)) with (length p) by lia. split; [by rewrite firstn_all|].
  apply elem_of_seq. lia.
Qed.

Lemma writes_ensure_directory p operation :
  p ≠ [] → writes (λ _, True) (ensure_directory p operation) (λ _ t, t !! p = Some NodeDir).
Proof.
  intros Hp. unfold ensure_directory. eapply writes_bind.
  { apply (writes_sees (λ _, True)). intros t _. apply sees_outcome, sees_symlink_metadata. }
  intros [[|]|e]; cbn beta iota.
  - apply writes_ret. intros t [_ Ht]. destruct (Ht _ eq_refl) as (n & Hn & E).
    by destruct n.
  - by apply triple_err.
  - apply writes_error. eapply triple_weaken; [apply (triple_operation (λ _, True) _ _
      (λ _ t, t !! p = Some NodeDir) (λ _ _, True))|done..]; [|done].
    intros _ t _. destruct (make_dirs t (prefixes p)) as [[[]|] t'] eqn:E; [|done].
    eapply make_dirs_made; [exact E|by apply elem_of_prefixes_self].
Qed.

Lemma keeps_directory p q operation :
  writes (λ t, t !! p = Some NodeDir) (ensure_directory q operation) (λ _ t, t !! p = Some NodeDir).
Proof.
  unfold ensure_directory. eapply writes_bind.
  { apply (writes_leaves (λ o, o = p) (λ t, t !! p = Some NodeDir)); [|apply leaves_outcome, leaves_looking].
    intros t t' Ht Hp. by rewrite (Ht p eq_refl). }
  intros [[|]|e]; [by apply writes_ret|by apply triple_err|].
  apply writes_error. eapply triple_weaken; [apply (triple_operation (λ t, t !! p = Some NodeDir) _ _
    (λ _ t, t !! p = Some NodeDir) (λ _ _, True))|done..]; [|done].
  intros _ t Ht. pose proof (make_dirs_there (prefixes q) t p NodeDir Ht) as Hm.
  by destruct (make_dirs t (prefixes q)) as [[[]|] t'].
Qed.

Lemma staging_not_inside (l staging : Path) : staging ≠ contrib_of staging ++ l.
Proof.
  intros E%(f_equal length). unfold contrib_of, path_join in E. rewrite !length_app in E. simpl in E. lia.
Qed.

(** The staging directory then holds the records and the index. *)
Lemma writes_stage staging artifacts packages :
  NoDup (destination_name <$> artifacts) →
  writes (λ t, t !! staging = Some NodeDir) (stage staging artifacts packages)
    (λ methods t, length methods = length artifacts ∧ t !! staging = Some NodeDir ∧
       repository_holds staging (zip_with record_for artifacts methods)
         (hex_lower (sha256_digest packages)) t).
Proof.
  intros Hnd. unfold stage, path_join. cbv zeta. set (contrib := contrib_of staging).
  eapply writes_bind.
  { unfold materialize_files. eapply writes_bind; [apply keeps_directory|].
    intros ?. apply (writes_materialize_list contrib artifacts (λ t, t !! staging = Some NodeDir)); [done|].
    intros t t' Ht Hs. rewrite Ht; [done|]. intros (a & Ea & _)%list_elem_of_fmap.
    by apply (staging_not_inside [destination_name a] staging). }
  intros methods. set (I := λ t, t !! staging = Some NodeDir ∧ length methods = length artifacts ∧
    Forall (λ a, staged contrib a t) artifacts).
  apply (triple_from (on I)); [by intros fs Hfs|].
  assert (∀ t t', untouched (λ o, o ≠ contrib ++ ["PACKAGES"]) t t' → I t → I t') as HI.
  { intros t t' Ht (Hs & Hlen & Hall). split; [rewrite Ht; [done|]; apply staging_not_inside|].
    split; [done|]. eapply Forall_impl; [exact Hall|]. intros a.
    apply (staged_untouched (λ o, o ≠ contrib ++ ["PACKAGES"])); [|exact Ht].
    intros E%app_inv_head. injection E as E. by apply (destination_not_index a). }
  set (J := λ t, I t ∧ file_at (contrib ++ ["PACKAGES"]) packages t).
  eapply (writes_bind _ _ _ (λ _, J)).
  { apply writes_error. eapply triple_weaken; [apply (triple_and (on I) (λ _, True));
      [apply (leaves_triple (λ o, o ≠ contrib ++ ["PACKAGES"])); [exact HI|apply leaves_write_file; tauto]
      |apply (writes_write_file (contrib ++ ["PACKAGES"]) packages)]|done|intros x fs Hx; exact Hx|done]. }
  assert (∀ t t', untouched (λ _, True) t t' → J t → J t') as HJ.
  { intros t t' Ht [HIt Hp]. split; [|by eapply (file_at_untouched (λ _, True))].
    apply (HI t); [|done]. intros o _. by apply Ht. }
  intros ?. eapply writes_bind.
  { apply (writes_leaves (λ _, True) J); [exact HJ|].
    apply leaves_io_error, leaves_bind; [apply leaves_looking|intros ?; apply leaves_looking]. }
  intros ?. do 2 (eapply writes_bind; [apply (writes_leaves (λ _, True) J);
    [exact HJ|apply leaves_sync_published]|intros ?]).
  apply writes_ret. intros t [(Hs & Hlen & Hall) Hp]. split_and!; [done..|].
  split; [by apply staged_records|by exists packages].
Qed.
End writing.
