(* ===== verification/TransactionSafety.v ===== *)
(** * A materialisation keeps what is published

    Safety of the transaction as a triple over every schedule: what is in the
    repository stays, and a committed state describes it. *)

From S2P Require Import Prelude Effects RustStd Collections Text Externals FileSystem Directories.
From S2P Require Import Format Versions Names Publication Identity Constraints Digest Metadata.
From S2P Require Import Cache Input Materialization Packages Transaction TransactionLaws.

(** ** Names under the project directory *)

Section within.
Context (rsolve : Path).

Definition within (names : list string) (o : Path) : Prop :=
  ∃ name, name ∈ names ∧ (rsolve ++ [name]) `prefix_of` o.

Lemma within_above names name l o : name ∉ names → within names o → ¬ (rsolve ++ name :: l) `prefix_of` o.
Proof. intros Hn (name' & Hin & Ho) Hp. by pose proof (inside_inj _ _ _ _ _ Hp Ho) as ->. Qed.

Lemma within_below names name l o : name ∉ names → within names o → ¬ o `prefix_of` (rsolve ++ name :: l).
Proof.
  intros Hn (name' & Hin & Ho) Hp.
  by pose proof (inside_inj _ _ l name' _ (reflexivity _) (transitivity Ho Hp)) as ->.
Qed.

Lemma not_within names name l : name ∉ names → ¬ within names (rsolve ++ name :: l).
Proof. intros Hn Ho. by apply (within_above names name l _ Hn Ho). Qed.

Lemma within_here names name l : name ∈ names → within names (rsolve ++ name :: l).
Proof. intros Hn. exists name. split; [done|]. exists l. by rewrite <-app_assoc. Qed.

Definition PUBLIC_NAMES : list string := [STATE_NAME; REPOSITORY_NAME].

Lemma public_within names o : PUBLIC_NAMES ⊆ names → public rsolve o → within names o.
Proof.
  intros Hsub (name & Hn & Ho)%public_inside. exists name. split; [|done]. apply Hsub.
  destruct Hn as [-> | ->]; [left|right; left].
Qed.

Lemma public_names name : private name → name ∉ PUBLIC_NAMES.
Proof. intros [Hs Hr]. unfold PUBLIC_NAMES. rewrite !not_elem_of_cons. split_and!; [done..|apply not_elem_of_nil]. Qed.
End within.

Ltac decided := by apply (bool_decide_unpack _); vm_compute.

(** Names that start differently. *)
Ltac apart :=
  repeat (rewrite not_elem_of_cons; split); try apply not_elem_of_nil;
  match goal with
  | |- ?prefix +:+ _ ≠ _ =>
    let E := fresh in
    intros E%(f_equal (str_starts_with prefix)); rewrite str_starts_with_app in E;
    vm_compute in E; discriminate E
  | |- _ ≠ ?prefix +:+ _ =>
    let E := fresh in
    intros E%(f_equal (str_starts_with prefix)); rewrite str_starts_with_app in E;
    vm_compute in E; discriminate E
  | |- _ => decided
  end.

Lemma untouched_mono (P P' : Path → Prop) (t t' : Tree) :
  (∀ o, P o → P' o) → untouched P' t t' → untouched P t t'.
Proof. intros HP Ht o Ho. by apply Ht, HP. Qed.

Lemma leaves_mono `{Schedule} {T E : Type} (P P' : Path → Prop) (m : stateful Fs T E) :
  (∀ o, P o → P' o) → leaves P' m → leaves P m.
Proof. intros HP Hm fs. by eapply untouched_mono. Qed.

(** ** Safety *)

Section safety.
Context `{CivilDate, Schedule, Sha2, !DigestStream sha256_digest, !DigestStreamLaws sha256_digest}.
Context `{!Toml MaterializationState, !Toml MaterializationTransaction}.
Context `{!TomlLaws MaterializationState} (rsolve : Path).

(** A committed state describes the repository that is there. *)
Definition committed (t : Tree) : Prop :=
  ∀ state, toml_at (state_at rsolve) state t →
    repository_holds (repository_at rsolve) (state_records state) (state_index_sha256 state) t.

(** The files of the repository stay as they are, and a committed state stays
    true. *)
Definition kept (t t' : Tree) : Prop :=
  ∀ o c, repository_at rsolve `prefix_of` o → o ≠ repository_at rsolve → file_at o c t → file_at o c t'.
Definition respects (t t' : Tree) : Prop := (committed t → committed t') ∧ kept t t'.

#[export] Instance respects_preorder : PreOrder respects.
Proof.
  split; [intros t; split; [done|by intros o c]|]. intros t1 t2 t3 [H12 K12] [H23 K23]. split; [auto|]. unfold kept. eauto.
Qed.

Lemma kept_holds records index t t' :
  kept t t' → repository_holds (repository_at rsolve) records index t →
  repository_holds (repository_at rsolve) records index t'.
Proof.
  intros Hk [Hr (c & Hc & Hd)].
  assert (∀ l c, file_at (contrib_of (repository_at rsolve) ++ l) c t →
    file_at (contrib_of (repository_at rsolve) ++ l) c t') as Hin.
  { unfold contrib_of, path_join. intros l c' Hc'. rewrite <-app_assoc in *.
    apply (Hk _ c'); [by eexists| |exact Hc'].
    intros E%(f_equal length). rewrite !length_app in E. simpl in E. lia. }
  split; [|exists c; auto]. eapply Forall_impl; [exact Hr|].
  intros record (name & c' & ? & Hc' & ?). exists name, c'. auto.
Qed.

Lemma kept_respects t t' : t' !! state_at rsolve = t !! state_at rsolve → kept t t' → respects t t'.
Proof.
  intros Hs Hk. split; [|done]. intros Hc state Hstate. apply (kept_holds _ _ t); [done|].
  apply Hc. eapply (toml_at_untouched (λ o, o = state_at rsolve)); [done| |exact Hstate].
  intros o ->. done.
Qed.

Lemma untouched_respects t t' : untouched (public rsolve) t t' → respects t t'.
Proof.
  intros Ht. apply kept_respects; [apply Ht; by left|].
  intros o c Hp _. apply (file_at_untouched (public rsolve)); [by right|done].
Qed.

Definition safely {T E : Type} (K : Tree → Prop) (m : stateful Fs T E) (Q : T → Tree → Prop) : Prop :=
  ∀ t0, triple (on (λ t, respects t0 t ∧ K t)) m (λ x, on (λ t, respects t0 t ∧ Q x t))
          (λ _, on (respects t0)).

Lemma safely_weaken {T E : Type} (K K' : Tree → Prop) (m : stateful Fs T E) (Q Q' : T → Tree → Prop) :
  safely K' m Q' → (∀ t, K t → K' t) → (∀ x t, Q' x t → Q x t) → safely K m Q.
Proof. intros Hm HK HQ t0. eapply triple_weaken; [apply Hm|..]; unfold on; naive_solver. Qed.

Lemma safely_from {T E : Type} (K K' : Tree → Prop) (m : stateful Fs T E) (Q : T → Tree → Prop) :
  safely K' m Q → (∀ t, K t → K' t) → safely K m Q.
Proof. intros Hm HK. by eapply safely_weaken. Qed.

Lemma safely_bind {T U E : Type} (K : Tree → Prop) (m : stateful Fs T E) (k : T → stateful Fs U E)
    (M : T → Tree → Prop) (Q : U → Tree → Prop) :
  safely K m M → (∀ x, safely (M x) (k x) Q) → safely K (st_bind m k) Q.
Proof. intros Hm Hk t0. eapply triple_bind; [apply Hm|]. intros x. apply Hk. Qed.

Lemma safely_ret {T E : Type} (K : Tree → Prop) (x : T) (Q : T → Tree → Prop) :
  (∀ t, K t → Q x t) → safely K (st_ret (E:=E) x) Q.
Proof. intros HQ t0. apply triple_ret'. intros fs [? ?]. split; auto. Qed.

Lemma safely_err {T E : Type} (K : Tree → Prop) (e : E) (Q : T → Tree → Prop) : safely K (st_err e) Q.
Proof. intros t0. apply triple_err. by intros fs [? ?]. Qed.

Lemma safely_pure {T E : Type} (φ : Prop) (K : Tree → Prop) (m : stateful Fs T E) Q :
  (φ → safely K m Q) → safely (λ t, K t ∧ φ) m Q.
Proof. intros Hm t0 fs (Hr & HK & Hφ). by apply (Hm Hφ t0). Qed.

(** What a computation sees of the trees of [K]. *)
Lemma safely_look {T U E : Type} (K : Tree → Prop) (φ : Tree → T → Prop) (m : stateful Fs T E)
    (k : T → stateful Fs U E) Q :
  (∀ t, K t → sees t m (φ t)) → (∀ x, safely (λ t, K t ∧ φ t x) (k x) Q) → safely K (st_bind m k) Q.
Proof.
  intros Hm. apply safely_bind. intros t0.
  eapply triple_weaken; [apply (sees_triple (λ t, respects t0 t ∧ K t) m φ);
    intros t [_ Ht]; by apply Hm|done|..]; unfold on; tauto.
Qed.

Lemma safely_writes {T E : Type} (K : Tree → Prop) (m : stateful Fs T E) Q :
  writes K m Q → leaves (public rsolve) m → safely K m Q.
Proof.
  intros Hw Hl t0. eapply triple_weaken; [apply (triple_and (on K) (on (respects t0)) m (λ x, on (Q x))
    (λ _, on (respects t0)) (λ _ _, True) (λ _, on (respects t0))); [exact Hw|]|..];
    [|unfold on; tauto..].
  apply (leaves_triple (public rsolve)); [|done]. intros t t' Ht Hr. etrans; [exact Hr|].
  by apply untouched_respects.
Qed.

(** A step outside of some names that include the public ones. *)
Lemma safely_leaves {T E : Type} (names : list string) (K : Tree → Prop) (m : stateful Fs T E) :
  PUBLIC_NAMES ⊆ names → (∀ t t', untouched (within rsolve names) t t' → K t → K t') →
  leaves (within rsolve names) m → safely K m (λ _, K).
Proof.
  intros Hsub HK Hm. apply safely_writes.
  - by apply (writes_leaves (within rsolve names)).
  - eapply leaves_mono; [|exact Hm]. intros o. by apply public_within.
Qed.

Lemma safely_skip {T E : Type} (K : Tree → Prop) (m : stateful Fs T E) :
  (∀ P, leaves P m) → safely K m (λ _, K).
Proof.
  intros Hm. apply safely_writes; [|apply Hm]. apply (writes_leaves (λ _, True)); [|apply Hm].
  intros t t' Ht. enough (t' = t) as -> by done. apply map_eq. intros o. by apply Ht.
Qed.

Lemma safely_map_err {T E F : Type} (K : Tree → Prop) (f : E → F) (m : stateful Fs T E) Q :
  safely K m Q → safely K (st_map_err f m) Q.
Proof. intros Hm t0. apply triple_map_err, Hm. Qed.

Lemma safely_cleanup {T E : Type} (K : Tree → Prop) cleanup (m : stateful Fs T E) Q :
  safely K m Q → leaves (public rsolve) cleanup → safely K (cleanup_on_error cleanup m) Q.
Proof.
  intros Hm Hc t0 fs Hfs. specialize (Hm t0 fs Hfs). unfold cleanup_on_error, st_bind, st_outcome.
  destruct (m fs) as [[x|e] fs']; [exact Hm|]. specialize (Hc fs').
  destruct (cleanup fs') as [[[]|e'] fs''];
    change (respects t0 (fs_tree fs'')); (etrans; [exact Hm|by apply untouched_respects]).
Qed.

(** ** The two publications *)

Lemma inside_repository o : repository_at rsolve `prefix_of` o → within rsolve [REPOSITORY_NAME] o.
Proof. intros Ho. exists REPOSITORY_NAME. split; [left|done]. Qed.

(** The repository moves to where nothing was, or nothing moves. *)
Lemma rename_repository_kept (name : string) t :
  private name → respects t (rename_in t (rsolve ++ [name]) (repository_at rsolve)).2.
Proof.
  intros [Hs Hr]. apply kept_respects.
  - apply (rename_in_untouched (within rsolve [STATE_NAME])).
    + intros o Ho. split; apply (within_above rsolve [STATE_NAME] _ []); try done; [|decided].
      rewrite not_elem_of_cons. split; [done|apply not_elem_of_nil].
    + apply within_here. left.
  - intros o c Ho Hne. apply rename_in_file_at; [|by intros <-].
    apply (within_above rsolve [REPOSITORY_NAME] _ []); [|by apply inside_repository].
    rewrite not_elem_of_cons. split; [done|apply not_elem_of_nil].
Qed.

Lemma safely_rename_repository (names : list string) (name : string) (K : Tree → Prop) records index
    (operation : string) (path : Path) :
  private name → name ∉ names → REPOSITORY_NAME ∉ names →
  (∀ t t', untouched (within rsolve names) t t' → K t → K t') →
  safely (λ t, K t ∧ t !! (rsolve ++ [name]) = Some NodeDir ∧
                 repository_holds (rsolve ++ [name]) records index t)
    (io_error operation path (rename (rsolve ++ [name]) (repository_at rsolve)))
    (λ _ t, K t ∧ repository_holds (repository_at rsolve) records index t).
Proof.
  intros Hpriv Hname Hrepo HK. apply safely_map_err. intros t0.
  apply triple_atomic; [|by intros e t [? _]].
  intros t (Hr & Ht & Hd & Hholds).
  pose proof (rename_repository_kept name t Hpriv) as Hresp.
  assert (untouched (within rsolve names) t (rename_in t (rsolve ++ [name]) (repository_at rsolve)).2)
    as Hout.
  { apply rename_in_untouched. intros o Ho. split; by apply (within_above rsolve names _ []). }
  destruct (rename_in t _ _) as [[[]|e] t'] eqn:E; cbn [snd] in *; [|by etrans].
  split; [by etrans|]. split; [by apply (HK t)|].
  apply (repository_holds_moved (rsolve ++ [name]) _ _ _ t); [|done].
  eapply rename_in_dir; [exact Hd| |exact E].
  intros [= ->]%app_inv_head. by destruct Hpriv.
Qed.

(** A state of the repository that is there. *)
Lemma safely_rename_state (name : string) (state : MaterializationState) (operation : string) (path : Path) :
  private name →
  safely (λ t, toml_at (rsolve ++ [name]) state t ∧ repository_holds (repository_at rsolve)
                 (state_records state) (state_index_sha256 state) t)
    (io_error operation path (rename (rsolve ++ [name]) (state_at rsolve)))
    (λ _ t, toml_at (state_at rsolve) state t ∧ repository_holds (repository_at rsolve)
              (state_records state) (state_index_sha256 state) t).
Proof.
  intros [Hs Hr]. apply safely_map_err. intros t0. apply triple_atomic; [|by intros e t [? _]].
  intros t (Hresp & (c & s & Hc & Htoml) & Hholds).
  destruct (rename_in t _ _) as [[[]|e] t'] eqn:E; [|by apply rename_in_error in E as ->].
  assert (kept t t') as Hk.
  { intros o c' Ho Hne Hc'. replace t' with (rename_in t (rsolve ++ [name]) (state_at rsolve)).2 by by rewrite E.
    apply inside_repository in Ho. apply rename_in_file_at; [| |done].
    - apply (within_above rsolve [REPOSITORY_NAME] _ []); [|done].
      rewrite not_elem_of_cons. split; [done|apply not_elem_of_nil].
    - intros <-. eapply (not_within rsolve [REPOSITORY_NAME] STATE_NAME []); [decided|exact Ho]. }
  assert (repository_holds (repository_at rsolve) (state_records state) (state_index_sha256 state) t')
    as Hholds' by by eapply kept_holds.
  assert (toml_at (state_at rsolve) state t') as Hst.
  { exists c, s. split; [|done]. eapply rename_in_file; [exact Hc| |exact E].
    by intros [= ->]%app_inv_head. }
  split; [|done]. etrans; [exact Hresp|]. split; [|done]. intros _ state' Hstate'.
  by rewrite (toml_at_inj _ _ _ _ Hstate' Hst).
Qed.

(** ** Recovery *)

Lemma safely_sync (K : Tree → Prop) path : safely K (sync_published path) (λ _, K).
Proof. apply safely_skip. intros P. apply leaves_sync_published. Qed.

Lemma leaves_observed {T E : Type} (P : Path → Prop) (m : stateful Fs T E) (φ : Tree → T → Prop) :
  (∀ t, sees t m (φ t)) → leaves P m.
Proof. intros Hm. apply sees_leaves. intros t. eapply sees_true, Hm. Qed.

(** A temporary of the project directory. *)
Definition temporary (p : Path) : Prop := ∃ name, p = rsolve ++ [name] ∧ private name.

Lemma temporary_rename (p : Path) (name : string) (o : Path) :
  temporary p → private name → public rsolve o →
  ¬ p `prefix_of` o ∧ ¬ (rsolve ++ [name]) `prefix_of` o.
Proof. intros (n & -> & Hn) Hname Ho. split; by apply private_above. Qed.

Lemma leaves_publish_marker tx (markers : list Path) :
  Forall temporary markers → leaves (public rsolve) (publish_marker rsolve tx markers).
Proof.
  intros Hm. unfold publish_marker, path_join. cbv zeta. destruct Hm as [|p markers Hp _].
  - apply leaves_bind; [apply leaves_nonce|]. intros fresh. apply leaves_bind.
    + by apply leaves_write_toml, private_not_public, marker_temp_private.
    + intros ?. apply leaves_io_error, leaves_rename. intros o. apply temporary_rename; [|done].
      exists (MARKER_PREFIX +:+ fresh). split; [done|apply marker_temp_private].
  - apply leaves_io_error, leaves_rename. intros o. by apply temporary_rename.
Qed.

Lemma leaves_reconstruct (states markers stagings : list Path) requested :
  Forall temporary markers →
  leaves (public rsolve) (reconstruct rsolve states markers stagings requested).
Proof.
  intros Hm. unfold reconstruct, transaction_conflict.
  destruct states as [|state_path [|]], stagings as [|staging [|]]; try apply leaves_err.
  { case_bool_decide; [apply leaves_ret|apply leaves_err]. }
  destruct (Nat.ltb 1 (length markers)); [apply leaves_err|].
  apply leaves_bind.
  { eapply leaves_observed. intros t. apply (sees_or t _ _ True True); apply sees_not;
      (eapply sees_weaken; [apply sees_is_regular_file || apply sees_is_directory|done]). }
  intros [|]; [apply leaves_err|]. apply leaves_bind.
  { eapply leaves_map_err, leaves_observed. intros t. apply sees_read_toml. }
  intros state. destruct (_ || _); [apply leaves_err|]. apply leaves_bind.
  { eapply leaves_observed. intros t. apply sees_orphan_transaction. }
  intros tx. apply leaves_bind.
  { eapply leaves_observed. intros t. apply sees_validate_index_digest. }
  intros ?. apply leaves_bind.
  { eapply leaves_observed. intros t. apply sees_validate_repository_contents. }
  intros ?. apply leaves_bind; [by apply leaves_publish_marker|]. intros ?.
  apply leaves_bind; [apply leaves_sync_published|]. intros ?. apply leaves_ret.
Qed.

Lemma safely_recover_repository (names : list string) (name : string) (repo_exists : bool)
    (tx : MaterializationTransaction) (K : Tree → Prop) :
  private name → name ∉ names → REPOSITORY_NAME ∉ names →
  (∀ t t', untouched (within rsolve names) t t' → K t → K t') →
  safely K (recover_repository rsolve (repository_at rsolve) (rsolve ++ [name]) repo_exists tx)
    (λ _ t, K t ∧ repository_holds (repository_at rsolve) (tx_records tx) (tx_index_sha256 tx) t).
Proof.
  intros Hpriv Hname Hrepo HK. unfold recover_repository, transaction_conflict.
  destruct repo_exists.
  - eapply safely_look; [intros t _; apply sees_is_directory|]. intros [|]; [|apply safely_err].
    cbn [negb]. intros t0. eapply triple_weaken; [apply (sees_triple (λ t, respects t0 t ∧ K t));
      intros t _; apply sees_validate_repository_contents|..]; unfold on; tauto.
  - eapply safely_look; [intros t _; apply sees_is_directory|]. intros [|]; [|apply safely_err].
    cbn [negb]. eapply safely_look; [intros t _; apply sees_validate_repository_contents|].
    intros ?. cbv beta. eapply safely_bind.
    + eapply safely_from; [by apply (safely_rename_repository names name K)|]. naive_solver.
    + intros ?. apply safely_sync.
Qed.

Lemma safely_recover_state (name : string) (state : MaterializationState) :
  private name →
  safely (λ t, toml_at (rsolve ++ [name]) state t ∧ repository_holds (repository_at rsolve)
                 (state_records state) (state_index_sha256 state) t)
    (recover_state rsolve (state_at rsolve) (rsolve ++ [name])) (λ _ _, True).
Proof.
  intros Hpriv. unfold recover_state. eapply safely_look; [intros t _; apply sees_exists|].
  intros [|].
  - apply safely_writes; [apply triple_map_err|apply leaves_map_err, leaves_remove_file].
    + eapply triple_weaken; [apply triple_true|done..].
    + by apply private_not_public.
  - eapply safely_bind.
    + eapply safely_from; [by apply (safely_rename_state name state)|]. by intros t [? _].
    + intros ?. eapply safely_weaken; [apply (safely_sync (λ _, True))|done|done].
Qed.

Lemma state_matches_records state tx requested :
  state_matches state tx requested = true →
  tx_records tx = state_records state ∧ tx_index_sha256 tx = state_index_sha256 state.
Proof. unfold state_matches. rewrite !andb_true_iff, !bool_decide_eq_true. by intros [[[_ ->] ->] _]. Qed.

Lemma starts_with_both (name prefix prefix' : string) :
  str_starts_with prefix name = true → str_starts_with prefix' name = true →
  str_starts_with prefix prefix' || str_starts_with prefix' prefix = true.
Proof.
  unfold str_starts_with. rewrite orb_true_iff, !has_prefix_iff. intros Hp Hq.
  destruct (prefix_weak_total _ _ _ Hp Hq); [by left|by right].
Qed.

Lemma staging_not_state_temp (staging state_temp : string) :
  str_starts_with STAGING_PREFIX staging = true → str_starts_with STATE_PREFIX state_temp = true →
  staging ≠ state_temp.
Proof. intros Hs Ht ->. pose proof (starts_with_both _ _ _ Hs Ht) as E. by vm_compute in E. Qed.

Lemma leaves_and (P : Path → Prop) (a b : mat bool) : leaves P a → leaves P b → leaves P (st_and a b).
Proof. intros Ha Hb. apply leaves_bind; [done|]. intros [|]; [done|apply leaves_ret]. Qed.

Lemma safely_recover_transaction (states markers stagings : list Path) requested :
  safely (λ _, True) (recover_transaction rsolve (state_at rsolve) (marker_at rsolve)
    (repository_at rsolve) states markers stagings requested) (λ _ _, True).
Proof.
  unfold recover_transaction, transaction_conflict.
  eapply safely_look; [intros t _; apply sees_is_regular_file|]. intros [|]; [|apply safely_err].
  cbn [negb]. destruct (negb _); [apply safely_err|].
  eapply safely_look; [intros t _; apply sees_read_toml|]. intros tx.
  destruct (_ || _); [apply safely_err|].
  eapply safely_look; [intros t _; apply sees_validate_index_digest|]. intros ?.
  eapply (safely_look _ (λ _ p, transaction_temp_path rsolve (tx_state_temp tx) = Some p)).
  { intros t _. apply sees_lift. intros p. by destruct (transaction_temp_path _ _); [intros [= ->]|]. }
  intros state_temp.
  eapply (safely_look _ (λ _ p, staging_path rsolve (tx_staging_dir tx) = Some p)).
  { intros t _. apply sees_lift. intros p. by destruct (staging_path _ _); [intros [= ->]|]. }
  intros staging. cbv beta. apply safely_pure. intros Hstaging. apply safely_pure. intros Htemp.
  apply safe_temp_path in Hstaging as (-> & Hsp & Hs); [|done..].
  apply safe_temp_path in Htemp as (-> & Htp & Ht); [|done..].
  pose proof (staging_not_state_temp _ _ Hs Ht) as Hne.
  destruct (_ || _); [apply safely_err|].
  eapply safely_look; [intros t _; apply sees_entry_exists|]. intros repo_exists.
  eapply safely_look; [intros t _; apply sees_entry_exists|]. intros staging_exists.
  destruct (Bool.eqb _ _); [apply safely_err|].
  eapply safely_look.
  { intros t _. apply (sees_and t _ _ True True).
    - eapply sees_weaken; [apply sees_exists|done].
    - eapply sees_weaken; [apply (sees_not t _ True)|done].
      eapply sees_weaken; [apply sees_is_regular_file|done]. }
  intros [|]; [apply safely_err|].
  eapply safely_look; [intros t _; apply sees_temporary_state|]. intros temporary.
  set (K := λ t, ∀ state, temporary = Some state →
    toml_at (rsolve ++ [tx_state_temp tx]) state t ∧ state_matches state tx requested = true).
  eapply safely_bind.
  { eapply safely_from; [apply (safely_recover_repository [tx_state_temp tx] (tx_staging_dir tx) _ tx K);
      [done| | |]|by intros t [_ HK]].
    - rewrite not_elem_of_cons. split; [done|apply not_elem_of_nil].
    - destruct Htp as [_ Hr]. rewrite not_elem_of_cons. split; [by intros E; apply Hr|apply not_elem_of_nil].
    - intros t t' Hu HK state Hst. destruct (HK state Hst) as [Hat Hm]. split; [|done].
      eapply toml_at_untouched; [|exact Hu|exact Hat]. apply within_here. left. }
  intros ?. eapply (safely_bind _ _ _ (λ _ _, True)).
  { destruct temporary as [state|]; [rewrite bool_decide_eq_true_2 by done|
      rewrite bool_decide_eq_false_2 by (by intros [? ?]); by apply safely_ret].
    eapply safely_from; [by apply (safely_recover_state _ state)|].
    intros t [HK Hh]. destruct (HK state eq_refl) as [Hat [E1 E2]%state_matches_records].
    by rewrite <-E1, <-E2. }
  intros ?. eapply safely_bind.
  { apply (safely_leaves PUBLIC_NAMES (λ _, True)); [done|done|].
    apply leaves_io_error, leaves_remove_file, (not_within rsolve PUBLIC_NAMES TRANSACTION_NAME []). decided. }
  intros ?. apply safely_sync.
Qed.

Lemma temporaries (prefix : string) (l : list Path) :
  str_starts_with prefix STATE_NAME = false → str_starts_with prefix REPOSITORY_NAME = false →
  Forall (named_like rsolve prefix) l → Forall temporary l.
Proof. intros Hs Hr Hl. eapply Forall_impl; [exact Hl|]. intros p. by apply named_like_private. Qed.

Lemma safely_recover fuel requested :
  safely (λ _, True) (recover fuel rsolve (state_at rsolve) (marker_at rsolve) (repository_at rsolve)
    requested) (λ _ _, True).
Proof.
  induction fuel as [|fuel IH]; cbn [recover]; [by apply safely_ret|].
  eapply safely_look; [intros t _; apply sees_partial_paths|]. intros states.
  eapply safely_look; [intros t _; apply sees_partial_paths|]. intros markers.
  eapply safely_look; [intros t _; apply sees_partial_paths|]. intros stagings.
  eapply safely_look; [intros t _; apply sees_entry_exists|]. intros [|]; cbn [negb].
  - eapply safely_bind; [eapply safely_from; [apply safely_recover_transaction|done]|].
    intros ?. by apply safely_ret.
  - apply (safely_from _ (λ t, True ∧ Forall (named_like rsolve MARKER_PREFIX) markers)); [|naive_solver].
    apply safely_pure. intros Hm%temporaries; [|done..]. eapply (safely_bind _ _ _ (λ _ _, True)).
    + apply safely_writes; [|by apply leaves_reconstruct].
      eapply triple_weaken; [apply triple_true|done..].
    + intros [|]; [exact IH|by apply safely_ret].
Qed.

(** ** Publication *)

Section fresh.
Context (staging state_temp : string) (state : MaterializationState).
Context (Hstaging : private staging) (Htemp : private state_temp) (Hne : staging ≠ state_temp).

(** The staging directory and the state that is to be published with it. *)
Definition prepared (t : Tree) : Prop :=
  t !! (rsolve ++ [staging]) = Some NodeDir ∧
  repository_holds (rsolve ++ [staging]) (state_records state) (state_index_sha256 state) t ∧
  toml_at (rsolve ++ [state_temp]) state t.

Lemma prepared_untouched (names : list string) t t' :
  staging ∈ names → state_temp ∈ names → untouched (within rsolve names) t t' → prepared t → prepared t'.
Proof.
  intros Hs Ht Hu (Hd & Hh & Hst). split_and!.
  - rewrite Hu; [done|by apply within_here].
  - eapply repository_holds_untouched; [|exact Hu|exact Hh].
    intros r _. rewrite <-app_assoc. by apply within_here.
  - eapply toml_at_untouched; [|exact Hu|exact Hst]. by apply within_here.
Qed.

(** What was published. *)
Definition published (t : Tree) : Prop :=
  toml_at (state_at rsolve) state t ∧
  repository_holds (repository_at rsolve) (state_records state) (state_index_sha256 state) t.

Lemma published_untouched t t' : untouched (within rsolve PUBLIC_NAMES) t t' → published t → published t'.
Proof.
  intros Hu [Hst Hh]. split.
  - eapply toml_at_untouched; [|exact Hu|exact Hst]. apply within_here. left.
  - eapply repository_holds_untouched; [|exact Hu|exact Hh].
    intros r _. unfold repository_at. rewrite <-app_assoc. apply within_here. right. left.
Qed.

Lemma safely_publish :
  safely prepared (publish rsolve (rsolve ++ [staging]) (rsolve ++ [state_temp])) (λ _, published).
Proof.
  unfold publish, path_join. cbv zeta. fold (state_at rsolve) (repository_at rsolve) (marker_at rsolve).
  eapply safely_bind; [apply safely_sync|]. intros ?.
  eapply safely_bind.
  { eapply safely_from; [apply (safely_rename_repository [state_temp] staging
      (toml_at (rsolve ++ [state_temp]) state)); [done| | |]|unfold prepared; naive_solver].
    - rewrite not_elem_of_cons. split; [done|apply not_elem_of_nil].
    - destruct Htemp as [_ Hr]. rewrite not_elem_of_cons. split; [by intros E; apply Hr|apply not_elem_of_nil].
    - intros t t' Hu. apply (toml_at_untouched (within rsolve [state_temp])); [|done].
      apply within_here. left. }
  intros ?. eapply safely_bind; [apply safely_sync|]. intros ?.
  eapply safely_bind; [by apply (safely_rename_state state_temp state)|]. intros ?.
  eapply safely_bind; [apply safely_sync|]. intros ?.
  eapply safely_bind; [|intros ?; apply safely_sync].
  apply (safely_leaves PUBLIC_NAMES published); [done|apply published_untouched|].
  apply leaves_io_error, leaves_remove_file, (not_within rsolve PUBLIC_NAMES TRANSACTION_NAME []). decided.
Qed.

(** Writing and publishing the marker. *)
Lemma safely_marker (f : string) tx cleanup label operation path :
  MARKER_PREFIX +:+ f ∉ [staging; state_temp] → TRANSACTION_NAME ∉ [staging; state_temp] →
  leaves (public rsolve) cleanup →
  safely prepared
    (let! _ := cleanup_on_error cleanup (write_toml (rsolve ++ [MARKER_PREFIX +:+ f]) (tx : MaterializationTransaction) label) in
     cleanup_on_error
       (let! _ := st_ignore (remove_file (rsolve ++ [MARKER_PREFIX +:+ f])) in cleanup)
       (io_error operation path (rename (rsolve ++ [MARKER_PREFIX +:+ f]) (marker_at rsolve))))
    (λ _, prepared).
Proof.
  intros Hf Hm Hc. set (names := PUBLIC_NAMES ++ [staging; state_temp]).
  assert (∀ name, private name → name ∉ [staging; state_temp] → name ∉ names) as Hnames.
  { intros name Hp Hn. unfold names. rewrite not_elem_of_app. split; [by apply public_names|done]. }
  assert (∀ t t', untouched (within rsolve names) t t' → prepared t → prepared t') as Hkeep.
  { intros t t'. apply prepared_untouched; unfold names; set_solver. }
  assert (PUBLIC_NAMES ⊆ names) as Hsub by (unfold names; set_solver).
  pose proof (Hnames _ (marker_temp_private f) Hf) as Hftemp.
  eapply safely_bind.
  { apply safely_cleanup; [|done]. apply (safely_leaves names); [done..|].
    by apply leaves_write_toml, not_within. }
  intros ?. apply safely_cleanup.
  - apply (safely_leaves names); [done..|]. apply leaves_io_error, leaves_rename. intros o Ho.
    split; eapply within_above; [exact Hftemp|exact Ho| |exact Ho]. by apply Hnames.
  - apply leaves_bind; [|done]. by apply leaves_ignore, leaves_remove_file, private_not_public, marker_temp_private.
Qed.
End fresh.

Lemma safely_ext {T E : Type} (K : Tree → Prop) (m m' : stateful Fs T E) Q :
  (∀ fs, m fs = m' fs) → safely K m' Q → safely K m Q.
Proof. intros Hm H' t0. by eapply triple_ext. Qed.

Lemma safely_nonce {T E : Type} (K : Tree → Prop) (k : string → stateful Fs T E) Q :
  (∀ s, safely K (k s) Q) → safely K (st_bind nonce k) Q.
Proof. intros Hk. eapply safely_bind; [apply safely_skip; intros P; apply leaves_nonce|exact Hk]. Qed.

Lemma leaves_remove_temporary {E : Type} (name : string) :
  private name → leaves (public rsolve) (st_ignore (F:=E) (remove_file (rsolve ++ [name]))).
Proof. intros Hn. by apply leaves_ignore, leaves_remove_file, private_not_public. Qed.

Lemma leaves_remove_staging {E : Type} (name : string) :
  private name → leaves (public rsolve) (st_ignore (F:=E) (remove_dir_all (rsolve ++ [name]))).
Proof. intros Hn. apply leaves_ignore, leaves_remove_dir_all. intros o. by apply private_above. Qed.

#[local] Instance row_cmp_order : CmpOrder row_cmp.
Proof.
  set (c := cmp_then (cmp_on package_text str_cmp) (cmp_on selected_version RPackageVersion_cmp)).
  assert (∀ x y, row_cmp x y = c x y) as E.
  { intros x y. unfold row_cmp, c, cmp_then, cmp_on. by destruct (str_cmp _ _). }
  assert (CmpOrder c) as Hc by apply _. split; intros *; rewrite !E;
    [apply (cmp_sym c)|apply (cmp_trans c)|apply (cmp_eq_l c)].
Qed.

(** The index does not depend on the order of a selection of different packages. *)
Lemma write_packages_canonical (artifacts : list MaterializationArtifact) :
  NoDup (package_text <$> artifacts) →
  write_packages (canonical_artifacts artifacts) = write_packages artifacts.
Proof.
  intros Hnd. unfold write_packages, canonical_artifacts.
  rewrite (sort_by_unique row_cmp artifacts (sort_by artifact_cmp artifacts)); [done| |].
  - intros x y Hx Hy E. unfold row_cmp in E. destruct (str_cmp _ _) eqn:Et; try done.
    apply (cmp_eq_leibniz str_cmp) in Et. by eapply (NoDup_fmap_inj_on package_text artifacts).
  - by rewrite sort_by_Permutation.
Qed.

Lemma record_matches_for (selected : MaterializationArtifact) (method : MaterializationMethod) :
  record_matches selected (record_for selected method) = true.
Proof.
  unfold record_matches, record_for. cbn [record_identity record_package record_version
    record_artifact_sha256 record_size record_destination].
  by rewrite !bool_decide_eq_true_2, N.eqb_refl.
Qed.

Lemma records_for_match (artifacts : list MaterializationArtifact) methods selected :
  length methods = length artifacts → selected ∈ artifacts →
  ∃ record, record ∈ zip_with record_for artifacts methods ∧ record_matches selected record = true.
Proof.
  intros Hlen [i Hi]%list_elem_of_lookup_1.
  destruct (lookup_lt_is_Some_2 methods i) as [method Hmethod].
  { rewrite Hlen. by eapply lookup_lt_Some. }
  exists (record_for selected method). split; [|apply record_matches_for].
  apply list_elem_of_lookup_2 with i. by rewrite lookup_zip_with, Hi; simpl; rewrite Hmethod.
Qed.

(** What [materialize] promises of the state it returns. *)
Definition delivers (requested : list MaterializationArtifact) (state : MaterializationState)
    (t : Tree) : Prop :=
  toml_at (state_at rsolve) state t ∧ publishes t (repository_at rsolve) requested state.

Lemma fresh_delivers requested packages methods t :
  NoDup (package_text <$> requested) →
  write_packages (canonical_artifacts requested) = Ok packages →
  length methods = length (canonical_artifacts requested) →
  let state := mk_MaterializationState 2 (hex_lower (sha256_digest packages))
                 (zip_with record_for (canonical_artifacts requested) methods) in
  published state t → delivers requested state t.
Proof.
  intros Hnd Hp Hlen state [Hst Hh]. split; [done|]. split; [done|..].
  - unfold index_digest. rewrite <-write_packages_canonical, Hp by done. done.
  - subst state. cbn [state_records]. rewrite length_zip_with, Hlen, Nat.min_id.
    unfold canonical_artifacts. by rewrite sort_by_Permutation.
  - apply Forall_forall. intros selected Hin. apply records_for_match; [done|].
    unfold canonical_artifacts. by rewrite sort_by_Permutation.
Qed.

Lemma safely_stage (name : string) (artifacts : list MaterializationArtifact) packages :
  private name → NoDup (destination_name <$> artifacts) →
  safely (λ t, t !! (rsolve ++ [name]) = Some NodeDir) (stage (rsolve ++ [name]) artifacts packages)
    (λ methods t, length methods = length artifacts ∧ t !! (rsolve ++ [name]) = Some NodeDir ∧
       repository_holds (rsolve ++ [name]) (zip_with record_for artifacts methods)
         (hex_lower (sha256_digest packages)) t).
Proof.
  intros Hn Hnd. apply safely_writes; [by apply writes_stage|].
  apply leaves_stage. intros o Ho. split; [by apply private_above|by apply public_not_prefix].
Qed.

(** The state is written beside what is staged. *)
Lemma safely_state_temp (staging f : string) (state : MaterializationState) cleanup :
  STATE_PREFIX +:+ f ≠ staging → leaves (public rsolve) cleanup →
  safely (λ t, t !! (rsolve ++ [staging]) = Some NodeDir ∧
      repository_holds (rsolve ++ [staging]) (state_records state) (state_index_sha256 state) t)
    (cleanup_on_error cleanup (write_state_temp (rsolve ++ [STATE_PREFIX +:+ f]) state))
    (λ _, prepared staging (STATE_PREFIX +:+ f) state).
Proof.
  intros Hne Hc. apply safely_cleanup; [|done]. apply safely_writes.
  - set (K := λ t, t !! (rsolve ++ [staging]) = Some NodeDir ∧
      repository_holds (rsolve ++ [staging]) (state_records state) (state_index_sha256 state) t).
    eapply triple_weaken; [apply (triple_and (on K) (λ _, True));
      [apply (leaves_triple (within rsolve [staging]) K)|
       apply (writes_write_toml (rsolve ++ [STATE_PREFIX +:+ f]) state)]|done| |done].
    + intros t t' Hu [Hd Hh]. split; [rewrite Hu; [done|apply within_here; left]|].
      eapply repository_holds_untouched; [|exact Hu|exact Hh].
      intros r _. rewrite <-app_assoc. apply within_here. left.
    + apply leaves_write_toml, not_within. rewrite not_elem_of_cons. split; [done|apply not_elem_of_nil].
    + intros x fs [[Hd Hh] Ht]. by split_and!.
  - apply leaves_write_toml, private_not_public, state_temp_private.
Qed.

Lemma safely_fresh (requested : list MaterializationArtifact) :
  NoDup (package_text <$> requested) → NoDup (destination_name <$> requested) →
  safely (λ _, True) (materialize_fresh rsolve requested) (delivers requested).
Proof.
  intros Hp Hd. unfold materialize_fresh, path_join. cbv zeta.
  eapply (safely_look _ (λ _ packages, write_packages (canonical_artifacts requested) = Ok packages)).
  { intros t _. apply sees_lift. by intros x Hx%map_err_ok. }
  intros packages. apply safely_pure. intros Hpackages.
  apply safely_nonce. intros f1. eapply safely_bind.
  { apply safely_writes; [apply writes_ensure_directory; by destruct rsolve|].
    apply leaves_ensure_directory. intros o. apply public_not_prefix, staging_private. }
  intros ?. eapply safely_bind.
  { apply safely_cleanup; [apply safely_stage|apply leaves_remove_staging]; [apply staging_private| |apply staging_private].
    unfold canonical_artifacts. by rewrite sort_by_Permutation. }
  intros methods. apply safely_nonce. intros f2.
  set (state := mk_MaterializationState 2 _ _).
  assert (leaves (public rsolve) (st_ignore (F:=MaterializationError)
    (remove_dir_all (rsolve ++ [STAGING_PREFIX +:+ f1])))) as Hrm by apply leaves_remove_staging, staging_private.
  apply (safely_from _ (λ t, (t !! (rsolve ++ [STAGING_PREFIX +:+ f1]) = Some NodeDir ∧
      repository_holds (rsolve ++ [STAGING_PREFIX +:+ f1]) (state_records state) (state_index_sha256 state) t)
      ∧ length methods = length (canonical_artifacts requested))); [|by intros t (? & ? & ?)].
  apply safely_pure. intros Hlen. eapply safely_bind.
  { apply safely_state_temp; [apart|done]. }
  intros ?. apply safely_nonce. intros f3.
  eapply safely_ext; [intros fs; apply st_bind_assoc|]. eapply safely_bind.
  { apply safely_marker; [apart..|]. apply leaves_bind; [|done].
    apply leaves_remove_temporary, state_temp_private. }
  intros ?. eapply safely_bind.
  { apply safely_publish; [apply staging_private|apply state_temp_private|apart]. }
  intros ?. apply safely_ret. intros t. by apply fresh_delivers.
Qed.
End safety.

Section materialize.
Context `{CivilDate, Schedule, Sha2, !DigestStream sha256_digest, !DigestStreamLaws sha256_digest}.
Context `{!Toml MaterializationState, !Toml MaterializationTransaction}.
Context `{!TomlLaws MaterializationState}.

Definition project (root : Path) : Path := root ++ [".rsolve"].

Lemma safely_materialize fuel (root : Path) (artifacts : list MaterializationArtifact) :
  safely (project root) (λ _, True) (materialize fuel root artifacts)
    (λ outcome t, ∀ state, outcome = Some state → delivers (project root) artifacts state t).
Proof.
  unfold materialize, path_join. cbv zeta. fold (project root). set (rsolve := project root).
  fold (state_at rsolve) (repository_at rsolve) (marker_at rsolve).
  assert (∀ name, private name → ¬ public rsolve (rsolve ++ [name])) as Hout.
  { intros name. apply private_not_public. }
  assert (∀ (T : Type) (m : mat T), leaves (public rsolve) m → safely rsolve (λ _, True) m (λ _ _, True)) as Hskip.
  { intros T m Hm. apply safely_writes; [|done]. eapply triple_weaken; [apply triple_true|done..]. }
  eapply safely_bind; [apply Hskip, leaves_ensure_directory; intros o; apply public_not_root|]. intros ?.
  eapply safely_bind; [by apply Hskip, leaves_ensure_gitignore, Hout|]. intros ?.
  eapply safely_bind; [by apply Hskip, leaves_io_error, leaves_open_or_create, Hout|]. intros ?.
  eapply safely_bind; [apply Hskip, leaves_io_error, leaves_looking|]. intros ?.
  eapply (safely_look _ _ (λ _ u, validate_inputs artifacts = Ok u)).
  { intros t _. by apply sees_lift. }
  intros []. apply safely_pure. intros (_ & Hp & Hd & _)%validate_artifacts_ok.
  eapply safely_bind; [apply safely_recover|]. intros [?|]; [|by apply safely_ret].
  eapply safely_look; [intros t _; apply sees_exists|]. intros [|].
  - eapply safely_look; [intros t _; apply sees_load_existing|]. intros state.
    apply safely_ret. by intros t [_ ?] ? [= <-].
  - eapply safely_look; [intros t _; apply sees_exists|]. intros [|]; [apply safely_err|].
    eapply safely_bind; [eapply safely_from; [by apply safely_fresh|done]|].
    intros state. apply safely_ret. by intros t ? ? [= <-].
Qed.

(** C10: whatever fails, and wherever the process stops, a materialisation never
    changes or removes a file of the published repository, and a committed state
    that described the repository before describes it after: its index and
    every recorded file are there with the recorded size and digest. *)
Theorem materialize_safe fuel (root : Path) (artifacts : list MaterializationArtifact) (fs : Fs) :
  respects (project root) (fs_tree fs) (fs_tree (materialize fuel root artifacts fs).2).
Proof.
  pose proof (safely_materialize fuel root artifacts (fs_tree fs) fs) as Hm.
  destruct (materialize fuel root artifacts fs) as [[x|e] fs']; by apply Hm.
Qed.

(** C11: a materialisation that succeeds leaves the state it returns in the state
    file and the repository it describes in place: one record per selected
    artifact, each file there with the size and digest of the cached object,
    and the index that the selection renders to. *)
Theorem materialize_spec fuel (root : Path) (artifacts : list MaterializationArtifact) (fs fs' : Fs)
    (state : MaterializationState) :
  materialize fuel root artifacts fs = (Ok (Some state), fs') →
  delivers (project root) artifacts state (fs_tree fs').
Proof.
  intros Hm. pose proof (safely_materialize fuel root artifacts (fs_tree fs) fs) as Hs.
  rewrite Hm in Hs. by apply Hs.
Qed.
(** ** Recovery calls itself once

    When no operation fails, the marker a reconstruction has published is seen. *)

Lemma rename_in_there (t t' : Tree) (from to : Path) :
  rename_in t from to = (Ok tt, t') → is_Some (t' !! to).
Proof.
  unfold rename_in. destruct (t !! from) as [node|] eqn:Hfrom; [|done].
  case_bool_decide as Hne; [subst to; intros [= <-]; by eexists|].
  destruct (is_dir _ _); [cbn [negb]|done]. destruct node as [|c r].
  - assert (has_children t to = false → is_Some (move_dir t from to !! to)) as Hmove.
    { intros Hc. exists NodeDir. apply move_dir_lookup; [done|]. exists from. split_and!; [done..|].
      pose proof (moved_under from to []) as Hm. by rewrite !app_nil_r in Hm. }
    destruct (t !! to) as [[|]|]; [|done|]; (case_bool_decide; [done|]);
      (destruct (has_children t to); [done|]); intros [= <-]; by apply Hmove.
  - destruct (t !! to) as [[|]|]; [done|..]; intros [= <-]; exists (NodeFile c r); apply lookup_insert_eq.
Qed.

Lemma writes_rename (from to : Path) operation path :
  writes (λ _, True) (io_error operation path (rename from to)) (λ _ t, is_Some (t !! to)).
Proof.
  apply writes_error. eapply triple_weaken;
    [apply (triple_atomic (λ _, True) _ (λ _ t, is_Some (t !! to)) (λ _ _, True))|done..]; [|done].
  intros t _. destruct (rename_in t from to) as [[[]|e] t'] eqn:E; [|done]. by eapply rename_in_there.
Qed.

Lemma writes_skip {T U E : Type} (I : Tree → Prop) (m : stateful Fs T E) (k : T → stateful Fs U E) Q :
  (∀ x, writes (λ _, True) (k x) Q) → writes I (st_bind m k) Q.
Proof. intros Hk. eapply triple_bind; [apply triple_true|]. intros x fs _. by apply Hk. Qed.

Lemma writes_reconstruct (rsolve : Path) (states markers stagings : list Path) requested :
  writes (λ _, True) (reconstruct rsolve states markers stagings requested)
    (λ again t, again = true → is_Some (t !! marker_at rsolve)).
Proof.
  unfold reconstruct, transaction_conflict.
  destruct states as [|state_path [|]], stagings as [|staging [|]]; try by apply triple_err.
  { case_bool_decide; [by apply writes_ret|by apply triple_err]. }
  destruct (Nat.ltb 1 (length markers)); [by apply triple_err|].
  apply writes_skip. intros [|]; [by apply triple_err|]. apply writes_skip. intros state.
  destruct (_ || _); [by apply triple_err|]. apply writes_skip. intros tx.
  do 2 (apply writes_skip; intros ?). eapply (writes_bind _ _ _ (λ _ t, is_Some (t !! marker_at rsolve))).
  - unfold publish_marker, path_join. cbv zeta. fold (marker_at rsolve).
    destruct markers; [do 2 (apply writes_skip; intros ?)|]; apply writes_rename.
  - intros ?. eapply writes_bind; [apply (writes_leaves (λ _, True))|].
    + intros t t' Hu Ht. by rewrite (Hu (marker_at rsolve) I).
    + apply leaves_sync_published.
    + intros ?. by apply writes_ret.
Qed.

Lemma entry_exists_seen (p : Path) (E : Type) (fs : Fs) :
  (∀ n, fault_at n = None) → is_Some (fs_tree fs !! p) →
  (entry_exists (E:=E) p fs).1 = Ok true.
Proof.
  intros Hf [n Hn]. unfold entry_exists, st_bind, st_outcome, symlink_metadata, looking, atomic, operation.
  by rewrite Hf, Hn.
Qed.

Lemma recover_marked fuel (rsolve : Path) (requested : list MaterializationArtifact) :
  (∀ n, fault_at n = None) →
  triple (on (λ t, is_Some (t !! marker_at rsolve)))
    (recover (S fuel) rsolve (state_at rsolve) (marker_at rsolve) (repository_at rsolve) requested)
    (λ r _, is_Some r) (λ _ _, True).
Proof.
  intros Hf. cbn [recover]. set (I := λ t : Tree, is_Some (t !! marker_at rsolve)).
  do 3 (eapply triple_bind; [eapply triple_weaken;
    [apply (sees_triple I _ (λ _ _, True)); intros t _; eapply sees_true, sees_partial_paths
    |done|intros ? fs [Hx _]; exact Hx|done]|intros ?]).
  intros fs Hfs. unfold st_bind at 1. pose proof (entry_exists_seen _ MaterializationError fs Hf Hfs) as Hseen.
  destruct (entry_exists _ fs) as [r fs']. cbn in Hseen. subst r. cbn [negb].
  apply (triple_bind (λ _, True) _ _ (λ _ _, True)); [apply triple_true| |done].
  intros ?. apply triple_ret'. by eexists.
Qed.

Lemma recover_ended fuel (rsolve : Path) (requested : list MaterializationArtifact) :
  (∀ n, fault_at n = None) →
  triple (λ _, True)
    (recover (S (S fuel)) rsolve (state_at rsolve) (marker_at rsolve) (repository_at rsolve) requested)
    (λ r _, is_Some r) (λ _ _, True).
Proof.
  intros Hf. cbn [recover].
  do 4 (eapply triple_bind; [apply triple_true|intros ?]). destruct (negb _).
  - eapply triple_bind; [intros fs _; by apply writes_reconstruct|]. intros [|].
    + eapply triple_from; [|by apply recover_marked]. intros fs Ht. by apply Ht.
    + apply triple_ret'. by eexists.
  - eapply triple_bind; [apply triple_true|]. intros ?. apply triple_ret'. by eexists.
Qed.

(** C12: when no operation fails, a materialisation ends: recovery calls itself
    at most once, whatever temporaries it finds. *)
Theorem materialize_ends fuel (root : Path) (artifacts : list MaterializationArtifact) (fs : Fs) :
  (∀ n, fault_at n = None) → 2 ≤ fuel → (materialize fuel root artifacts fs).1 ≠ Ok None.
Proof.
  intros Hf Hfuel. destruct fuel as [|[|fuel]]; [lia..|].
  assert (triple (λ _, True) (materialize (S (S fuel)) root artifacts) (λ r _, is_Some r) (λ _ _, True)) as Hm.
  { unfold materialize. cbv zeta. do 5 (eapply triple_bind; [apply triple_true|intros ?]).
    eapply triple_bind; [by apply (recover_ended fuel (project root))|]. intros [?|]; [|by intros fs' [? ?]].
    eapply triple_bind; [apply triple_true|]. intros [|].
    - eapply triple_bind; [apply triple_true|]. intros ?. apply triple_ret'. by eexists.
    - eapply triple_bind; [apply triple_true|]. intros [|]; [by apply triple_err|].
      eapply triple_bind; [apply triple_true|]. intros ?. apply triple_ret'. by eexists. }
  specialize (Hm fs I). destruct (materialize _ _ _ fs) as [[[x|]|e] fs']; [done|by destruct Hm|done].
Qed.
End materialize.
