(* ===== verification/PackagesLaws.v ===== *)
(** * The PACKAGES index is read back

    The writer of [Packages] against the readers of [Description]: dependency
    entries, whole records, and the line structure of the file. *)

From S2P Require Import Prelude RustStd Collections Externals Text Format Versions Names.
From S2P Require Import Publication Identity Constraints Metadata Description Materialization.
From S2P Require Import Packages.

(** ** Bytes of names and versions *)

(** Bytes that are neither blanks nor punctuation of a dependency field. *)
Definition word_byte (b : byte) : bool :=
  is_ascii_alphanumeric b || byte_is 46 b || byte_is 45 b.

Definition word (l : list byte) : Prop := l ≠ [] ∧ Forall (λ b, word_byte b = true) l.

Lemma word_excludes (q : byte → bool) l :
  forallb (λ b, implb (word_byte b) (negb (q b))) every_byte = true →
  word l → Forall (λ b, q b = false) l.
Proof. intros H [_ Hl]. eapply Forall_impl; [done|]. by apply byte_excludes. Qed.

Lemma word_ascii l : word l → Forall (λ b, is_ascii_byte b = true) l.
Proof.
  intros [_ Hl]. eapply Forall_impl; [done|]. apply (byte_implies word_byte is_ascii_byte).
  vm_compute. reflexivity.
Qed.

Lemma word_not_blank l : word l → Forall (λ b, blank_byte b = false) l.
Proof. apply word_excludes. vm_compute. reflexivity. Qed.

Lemma word_ends l :
  word l → (∀ b, head l = Some b → blank_byte b = false) ∧
    (∀ b, last l = Some b → blank_byte b = false).
Proof.
  intros Hw%word_not_blank. rewrite Forall_forall in Hw. split; intros b Hb; apply Hw.
  - destruct l; simplify_eq/=. left.
  - by apply last_Some_elem_of.
Qed.

Lemma trim_word before after l :
  word l → Forall (λ b, is_ascii_byte b && blank_byte b = true) before →
  Forall (λ b, is_ascii_byte b && blank_byte b = true) after →
  trim_bytes (before ++ l ++ after) = l.
Proof.
  intros Hw Hb Ha. destruct (word_ends l Hw).
  apply trim_bytes_pad; [by apply word_ascii|done..|apply Hw].
Qed.

Lemma package_name_word s n : PackageName_new s = Ok n → word (bytes s).
Proof.
  intros [(Hh & Hb & _) _]%PackageName_new_ok_iff. split.
  - destruct Hh as (b & Hh & _). by destruct (bytes s).
  - eapply Forall_impl; [done|]. apply (byte_implies is_package_name_byte word_byte).
    vm_compute. reflexivity.
Qed.

Lemma version_word s m v :
  RPackageVersion_parse_with_minimum s m = Ok v → word (bytes s) ∧ version_raw v = s.
Proof.
  intros (Hne & values & Hv & _ & ->)%parse_ok_iff. split; [|done]. split.
  { by rewrite bytes_nil. }
  apply (split_bytes_Forall _ is_version_separator).
  - apply (byte_implies is_version_separator word_byte). vm_compute. reflexivity.
  - unfold str_split in Hv. rewrite Forall2_fmap_l in Hv. revert Hv.
    generalize (split_bytes is_version_separator (bytes s)). intros pieces Hv.
    induction Hv as [|p v ps vs (_ & Hp & _) _ IH]; constructor; [|done].
    rewrite bytes_from_utf8 in Hp. eapply Forall_impl; [exact Hp|].
    apply (byte_implies is_ascii_digit word_byte). vm_compute. reflexivity.
Qed.

(** ** Dependency entries *)

(** A dependency whose names and versions are what their constructors accept. *)
Definition readable_dependency (d : DeclaredDependency) : Prop :=
  let package := declared_package d in
  PackageName_new (PackageName_as_str (requirement_name package)) = Ok (requirement_name package) ∧
  Forall (λ c, RPackageVersion_parse (version_raw (clause_version c)) = Ok (clause_version c))
    (clauses (requirement_constraint package)).

Lemma parse_constraint_text op v :
  op ≠ OpNe → RPackageVersion_parse (version_raw v) = Ok v →
  parse_constraint (bytes (RelationOp_text op) ++ bytes " " ++ bytes (version_raw v))
    = Ok (VersionConstraint_from_clause op v).
Proof.
  intros Hop Hv. destruct (version_word _ _ _ Hv) as [Hw _].
  assert (trim_bytes (bytes " " ++ bytes (version_raw v)) = bytes (version_raw v)) as Htrim.
  { pose proof (trim_word (bytes " ") [] (bytes (version_raw v)) Hw) as H.
    rewrite app_nil_r in H. apply H; [by repeat constructor|constructor]. }
  assert (∀ text, List.find (λ o, has_prefix o.1 (text ++ bytes " " ++ bytes (version_raw v)))
      operators = Some (text, op) →
    parse_constraint (text ++ bytes " " ++ bytes (version_raw v))
      = Ok (VersionConstraint_from_clause op v)) as Hgo.
  { intros text Hf. unfold parse_constraint. rewrite Hf. cbn [ok_or result_bind].
    rewrite drop_app_length, Htrim.
    rewrite bool_decide_eq_false_2 by apply Hw.
    rewrite from_utf8_bytes, Hv. done. }
  apply Hgo. clear Hgo Htrim. generalize (bytes (version_raw v)). intros l.
  by destruct op.
Qed.

Definition entry_text (d : DeclaredDependency) : list byte :=
  let package := declared_package d in
  bytes (PackageName_as_str (requirement_name package)) ++
  match clauses (requirement_constraint package) with
  | [] => []
  | c :: _ => bytes " (" ++ (bytes (RelationOp_text (clause_op c)) ++ bytes " "
                ++ bytes (version_raw (clause_version c))) ++ bytes ")"
  end.

Lemma render_dependency_ok d field s :
  render_dependency d field = Ok s →
  bytes s = entry_text d ∧ requirement_source (declared_package d) = SourceAny ∧
  ∀ c, c ∈ clauses (requirement_constraint (declared_package d)) →
    clauses (requirement_constraint (declared_package d)) = [c] ∧ clause_op c ≠ OpNe.
Proof.
  unfold render_dependency, entry_text. destruct (requirement_source _); try done. cbn [negb].
  destruct (clauses (requirement_constraint (declared_package d))) as [|c [|c' l]].
  - intros [= <-]. rewrite bytes_app. split_and!; [done..|]. by intros ? ?%elem_of_nil.
  - rewrite bool_decide_eq_false_2 by (simpl; lia). cbn [existsb orb].
    destruct (clause_op c =?= OpNe) eqn:E; [done|]. cbn [orb]. intros [= <-].
    apply req_false_iff in E. split_and!; [|done|].
    + change (render_clauses 0 [c]) with
        ("" +:+ RelationOp_text (clause_op c) +:+ " " +:+ version_raw (clause_version c) +:+ "").
      rewrite !bytes_app. change (bytes "") with (@nil byte). cbn [app]. rewrite app_nil_r.
      by rewrite <-!app_assoc.
    + intros ? ->%list_elem_of_singleton. split; [done|]. intros Ho. apply E.
      by rewrite Ho.
  - rewrite bool_decide_eq_true_2 by (simpl; lia). done.
Qed.

(** [&input[open + 1..input.len() - 1]]. *)
Lemma inner_slice {A} (l e : list A) x y :
  drop (length l + 1) (take (length (l ++ x :: e ++ [y]) - 1) (l ++ x :: e ++ [y])) = e.
Proof.
  replace (length (l ++ x :: e ++ [y]) - 1) with (length (l ++ x :: e)).
  2:{ rewrite !length_app. simpl. rewrite length_app. simpl. lia. }
  rewrite app_comm_cons, app_assoc, take_app_length, drop_app_add. done.
Qed.

Lemma operator_not_parenthesis op :
  Forall (λ b, is_parenthesis b = false) (bytes (RelationOp_text op)).
Proof. destruct op; by repeat constructor. Qed.

(** A written entry, with blanks before it, is read as the dependency. *)
Lemma parse_rendered_entry d field s blanks :
  render_dependency d field = Ok s → readable_dependency d →
  Forall (λ b, is_ascii_byte b && blank_byte b = true) blanks →
  parse_dependency_entry (from_utf8 (blanks ++ bytes s)) =
    Ok (mk_ParsedDependency (requirement_name (declared_package d))
          (requirement_constraint (declared_package d))).
Proof.
  intros (Hs & _ & Hc)%render_dependency_ok [Hn Hv] Hb.
  pose proof (package_name_word _ _ Hn) as Hw. unfold parse_dependency_entry.
  rewrite bytes_from_utf8, Hs. unfold entry_text in *.
  destruct (requirement_constraint (declared_package d)) as [[|c l]]; cbn [clauses] in *.
  - rewrite trim_word by (done || constructor). rewrite bool_decide_eq_false_2 by apply Hw.
    unfold split_entry. rewrite (proj2 (find_index_none _ _))
      by (apply (word_excludes (byte_is 40)); [vm_compute; reflexivity|done]).
    rewrite (proj2 (existsb_false_Forall _ _))
      by (apply (word_excludes (byte_is 41)); [vm_compute; reflexivity|done]).
    cbn [result_bind]. rewrite from_utf8_bytes, Hn. done.
  - destruct (Hc c ltac:(left)) as [[= ->] Hop]. rewrite Forall_singleton in Hv.
    set (name := bytes (PackageName_as_str _)) in *.
    set (expr := bytes (RelationOp_text _) ++ bytes " " ++ bytes (version_raw _)).
    assert (trim_bytes (blanks ++ name ++ bytes " (" ++ expr ++ bytes ")") =
      name ++ bytes " (" ++ expr ++ bytes ")") as ->.
    { rewrite <-(app_nil_r (bytes ")")).
      destruct (version_word _ _ _ Hv) as [Hvw _].
      pose proof (trim_bytes_pad blanks (name ++ bytes " (" ++ expr ++ bytes ")") []) as Ht.
      rewrite !app_nil_r in *. apply Ht; [|done|constructor| | |by destruct name as [|]; [destruct Hw|]].
      - unfold expr. rewrite !Forall_app. split_and!; [by apply word_ascii|by repeat constructor| |
          by repeat constructor|by apply word_ascii|by repeat constructor].
        destruct (clause_op c); by repeat constructor.
      - destruct (word_ends name Hw) as [Hh _]. intros b. destruct name; [by destruct Hw|]. apply Hh.
      - intros b. rewrite !app_assoc. change (bytes ")") with [byte_of 41].
        rewrite last_snoc. by intros [= <-]. }
    rewrite bool_decide_eq_false_2 by (destruct name; [by destruct Hw|done]).
    assert (Forall (λ b, byte_is 40 b = false) (name ++ bytes " ")) as Hopen.
    { apply Forall_app. split; [|by repeat constructor].
      apply (word_excludes (byte_is 40)); [vm_compute; reflexivity|done]. }
    assert (split_entry (name ++ bytes " (" ++ expr ++ bytes ")") =
      Ok (name, Some (VersionConstraint_from_clause (clause_op c) (clause_version c)))) as ->.
    { unfold split_entry. change (bytes " (") with (bytes " " ++ [byte_of 40]).
      rewrite <-(app_assoc (bytes " ")), (app_assoc name). cbn [app].
      rewrite find_index_app by done. rewrite (proj2 (has_suffix_iff _ _))
        by (exists ((name ++ bytes " ") ++ byte_of 40 :: expr); by rewrite <-(app_assoc (name ++ _))).
      cbn [negb]. cbv beta iota zeta. rewrite (take_app_length (name ++ _)).
      change (bytes ")") with [byte_of 41]. rewrite inner_slice.
      rewrite (proj2 (existsb_false_Forall _ _)).
      2:{ unfold expr. rewrite !Forall_app. split_and!;
            [apply operator_not_parenthesis|by repeat constructor|].
          destruct (version_word _ _ _ Hv) as [Hvw _].
          apply (word_excludes is_parenthesis); [vm_compute; reflexivity|done]. }
      unfold expr. rewrite parse_constraint_text by done. cbn [result_bind].
      pose proof (trim_word [] (bytes " ") name Hw) as Ht. cbn [app] in Ht.
      rewrite Ht; [done|constructor|by repeat constructor]. }
    cbn [result_bind]. unfold name. rewrite from_utf8_bytes, Hn. cbn. destruct c. done.
Qed.

(** ** The fields of a record *)

(** The names the writer gives to fields of its own. *)
Definition own_names : list string :=
  ["Package"; "Version"; "Published"; "Depends"; "Imports"; "LinkingTo"; "Suggests"; "Enhances"].

Lemma own_names_keys :
  NoDup (to_ascii_lowercase <$> own_names) ∧
  Forall (λ n, to_ascii_lowercase (canonical_field_name n) = to_ascii_lowercase n) own_names ∧
  Forall (λ n, Metadata.is_reserved_field n = true) own_names.
Proof. by split_and!; apply (bool_decide_unpack _); vm_compute. Qed.

(** A canonical name only differs from the name in case, or is [SHA256]. *)
Lemma canonical_field_name_key n :
  to_ascii_lowercase (canonical_field_name n) = to_ascii_lowercase n ∨
  to_ascii_lowercase (canonical_field_name n) = "sha256".
Proof.
  unfold canonical_field_name. cbv zeta.
  repeat (case_bool_decide;
    [try match goal with Hn : to_ascii_lowercase n = _ |- _ => rewrite Hn end; vm_compute; auto|]).
  by left.
Qed.

Section record.
Context `{CivilDate}.

Lemma render_group_ok field seen l rendered :
  render_group field seen l = Ok rendered →
  Forall2 (λ d s, render_dependency d field = Ok s) l rendered.
Proof.
  revert seen rendered. induction l as [|d l IH]; intros seen rendered; simpl.
  { intros [= <-]. constructor. }
  case_bool_decide; [done|]. intros (s & Hs & (rest & Hrest & [= <-])%result_bind_ok)%result_bind_ok.
  constructor; [done|by eapply IH].
Qed.

Definition of_kind (kind : DependencyKind) (l : list DeclaredDependency) : list DeclaredDependency :=
  List.filter (λ d, bool_decide (declared_kind d = kind)) l.

Lemma dependency_field_ok a kind name fs :
  dependency_field a (kind, name) = Ok fs →
  (fs = [] ∧ of_kind kind (selected_dependencies a) = []) ∨
  ∃ rendered, fs = [(name, str_join ", " (sort_by str_cmp rendered))] ∧
    of_kind kind (selected_dependencies a) ≠ [] ∧
    Forall2 (λ d s, render_dependency d name = Ok s) (of_kind kind (selected_dependencies a)) rendered.
Proof.
  unfold dependency_field. cbn [fst snd]. fold (of_kind kind (selected_dependencies a)).
  destruct (of_kind kind _) as [|d l]; [intros [= <-]; by left|].
  intros (rendered & Hr%render_group_ok & [= <-])%result_bind_ok. right. by exists rendered.
Qed.

Lemma dependency_field_names a f fs :
  dependency_field a f = Ok fs → fs.*1 `sublist_of` [f.2].
Proof.
  destruct f as [kind name]. intros [[-> _]|(r & -> & _)]%dependency_field_ok; simpl.
  - apply sublist_nil_l.
  - done.
Qed.

Lemma fixed_fields_names a fields : fixed_fields a = Ok fields → fields.*1 `sublist_of` own_names.
Proof.
  unfold fixed_fields. intros (deps & Hd & [= <-])%result_bind_ok.
  assert (∀ l ds, try_map (dependency_field a) l = Ok ds → (mjoin ds).*1 `sublist_of` l.*2) as Hjoin.
  { intros l. induction l as [|f l IH]; intros ds Hds; simpl in Hds.
    - injection Hds as <-. apply sublist_nil_l.
    - apply result_bind_ok in Hds as (fs & Hfs & Hds).
      apply result_bind_ok in Hds as (rest & Hrest & [= <-]).
      change (mjoin (fs :: rest)) with (fs ++ mjoin rest). rewrite fmap_app.
      change ((f :: l).*2) with ([f.2] ++ l.*2).
      apply sublist_app; [by apply (dependency_field_names a)|by apply IH]. }
  apply Hjoin in Hd. csimpl. unfold own_names. do 2 apply sublist_skip. rewrite fmap_app.
  change ["Published"; "Depends"; "Imports"; "LinkingTo"; "Suggests"; "Enhances"]
    with (["Published"] ++ DEPENDENCY_FIELDS.*2).
  apply sublist_app; [|done]. destruct (selected_publication a); [done|apply sublist_nil_l].
Qed.

Lemma metadata_fields_ok reserved l out :
  metadata_fields reserved l = Ok out →
  out = (λ f : string * string, (canonical_field_name f.1, f.2)) <$> l ∧
  Forall (λ f : string * string, validate_field_name f.1 = Ok tt) l ∧
  NoDup (field_key <$> out) ∧ Forall (λ f, field_key f ∉ reserved) out.
Proof.
  revert reserved out. induction l as [|[name value] l IH]; intros reserved out; simpl.
  { intros [= <-]. split_and!; constructor. }
  intros ([] & Hname & H1)%result_bind_ok. case_bool_decide as Hres; [done|].
  apply result_bind_ok in H1 as (rest & (-> & Hall & Hnd & Hout)%IH & [= <-]). csimpl.
  rewrite NoDup_cons, !Forall_cons. split_and!; [done..| |done|done|].
  - intros (f & Hf & Hin)%list_elem_of_fmap. rewrite Forall_forall in Hout.
    apply (Hout f Hin). rewrite <-Hf. left.
  - eapply Forall_impl; [exact Hout|]. intros f Hf Hin. apply Hf. by right.
Qed.

(** The fields of a record: the writer's own, and the renamed metadata; no two
    have one name. *)
Lemma record_fields_ok a fields :
  record_fields a = Ok fields →
  ∃ own, fixed_fields a = Ok own ∧
    fields ≡ₚ own ++ ((λ f : string * string, (canonical_field_name f.1, f.2))
                        <$> release_fields (selected_metadata a)) ∧
    Forall (λ f : string * string, validate_field_name f.1 = Ok tt)
      (release_fields (selected_metadata a)) ∧
    NoDup (field_key <$> fields).
Proof.
  unfold record_fields. intros (own & Hown & H1)%result_bind_ok.
  apply result_bind_ok in H1 as (meta & (-> & Hall & Hnd & Hout)%metadata_fields_ok & [= <-]).
  exists own. split_and!; [done|apply sort_by_Permutation|done|].
  rewrite sort_by_Permutation, fmap_app, NoDup_app. pose proof (fixed_fields_names _ _ Hown) as Hsub.
  destruct own_names_keys as (Hkeys & Hcanon & _).
  assert (field_key <$> own = to_ascii_lowercase <$> own.*1) as Hk.
  { rewrite <-list_fmap_compose. done. }
  split_and!; [|intros k Hk1 (f & -> & Hf)%list_elem_of_fmap|done].
  - rewrite Hk. eapply sublist_NoDup; [exact Hkeys|]. by apply fmap_sublist.
  - rewrite Forall_forall in Hout. apply (Hout f Hf). clear Hf.
    apply list_elem_of_fmap in Hk1 as (g & Hg & Hin). rewrite Hg. apply list_elem_of_fmap.
    exists g. split; [|done]. rewrite Forall_forall in Hcanon.
    symmetry. apply Hcanon. eapply elem_of_sublist; [|exact Hsub]. apply list_elem_of_fmap. eauto.
Qed.
End record.

(** ** Dependency fields are read back *)

Lemma str_split_join (texts : list string) x :
  Forall (λ s, Forall (λ b, byte_is 44 b = false) (bytes s)) (x :: texts) →
  str_split (byte_is 44) (str_join ", " (x :: texts)) =
    x :: ((λ s, from_utf8 (bytes " " ++ bytes s)) <$> texts).
Proof.
  intros Hall. unfold str_split. rewrite <-(from_utf8_bytes x) at 2.
  change ((λ s, from_utf8 (bytes " " ++ bytes s)) <$> texts)
    with (from_utf8 ∘ (λ s, bytes " " ++ bytes s) <$> texts). rewrite list_fmap_compose.
  change (from_utf8 (bytes x) :: (from_utf8 <$> ?l)) with (from_utf8 <$> (bytes x :: l)). f_equal.
  revert x Hall. induction texts as [|y texts IH]; intros x [Hx Hall]%Forall_cons.
  { simpl. by rewrite split_bytes_no_separator. }
  change (str_join ", " (x :: y :: texts)) with (x +:+ ", " +:+ str_join ", " (y :: texts)).
  rewrite !bytes_app. change (bytes ", ") with [byte_of 44; byte_of 32]. cbn [app].
  rewrite split_bytes_app_separator by done. f_equal.
  rewrite (split_bytes_cons_other _ (byte_of 32) _ _ _ eq_refl (IH y Hall)). done.
Qed.

Lemma last_fmap_nonempty (f : string → string) (l : list string) :
  (∀ x, x ∈ l → f x ≠ "") → last (f <$> l) ≠ Some "".
Proof.
  intros Hf. rewrite fmap_last. destruct (last l) as [x|] eqn:E; [|done]. simpl. intros [= Hx].
  apply last_Some_elem_of in E. by apply (Hf x).
Qed.

Lemma split_terminator_join (texts : list string) x :
  Forall (λ s, s ≠ "" ∧ Forall (λ b, byte_is 44 b = false) (bytes s)) (x :: texts) →
  split_terminator (byte_is 44) (str_join ", " (x :: texts)) =
    x :: ((λ s, from_utf8 (bytes " " ++ bytes s)) <$> texts).
Proof.
  intros Hall. unfold split_terminator. rewrite str_split_join
    by (eapply Forall_impl; [done|]; by intros ? []).
  apply Forall_cons in Hall as [[Hx _] _].
  assert (last (x :: ((λ s, from_utf8 (bytes " " ++ bytes s)) <$> texts)) ≠ Some "") as Hlast.
  { destruct texts as [|y texts]; [simpl; congruence|]. csimpl.
    change (last (?a :: ?b :: ?l)) with (last (b :: l)).
    apply (last_fmap_nonempty (λ s, from_utf8 (bytes " " ++ bytes s)) (y :: texts)).
    by intros. }
  destruct (last _) as [[|]|] eqn:E; [done|..]; by rewrite E in Hlast || done.
Qed.

Lemma entry_text_commas d :
  readable_dependency d → entry_text d ≠ [] ∧ Forall (λ b, byte_is 44 b = false) (entry_text d).
Proof.
  intros [Hn Hv]. pose proof (package_name_word _ _ Hn) as Hw. unfold entry_text. split.
  - destruct Hw as [Hne _]. by destruct (bytes _).
  - apply Forall_app. split.
    { apply (word_excludes (byte_is 44)); [vm_compute; reflexivity|done]. }
    destruct (clauses _) as [|c l]; [constructor|]. apply Forall_cons in Hv as [Hv _].
    destruct (version_word _ _ _ Hv) as [Hvw _]. rewrite !Forall_app.
    split_and!; [by repeat constructor| |by repeat constructor| |by repeat constructor].
    + destruct (clause_op c); by repeat constructor.
    + apply (word_excludes (byte_is 44)); [vm_compute; reflexivity|done].
Qed.

Lemma Forall2_Permutation_r {A B} (P : A → B → Prop) l k k' :
  Forall2 P l k → k ≡ₚ k' → ∃ l', l ≡ₚ l' ∧ Forall2 P l' k'.
Proof.
  intros HP Hk. revert l HP. induction Hk as [|y k k' _ IH|y z k|k1 k2 k3 _ IH1 _ IH2]; intros l HP.
  - inversion HP; subst. by exists [].
  - inversion HP as [|x ? l0 ? Hx Hl]; subst. destruct (IH l0 Hl) as (l' & Hp & Hl').
    exists (x :: l'). split; [by constructor|by constructor].
  - inversion HP as [|x ? l0 ? Hx Hl]; subst. inversion Hl as [|x' ? l1 ? Hx' Hl']; subst.
    exists (x' :: x :: l1). split; [constructor|by repeat constructor].
  - destruct (IH1 l HP) as (l' & Hp & Hl'). destruct (IH2 l' Hl') as (l'' & Hp' & Hl'').
    exists l''. split; [by etrans|done].
Qed.

Section read_back.
Context `{CivilDateTime, UnicodeTables}.

Lemma parse_declared_rendered d name s blanks :
  render_dependency d name = Ok s → readable_dependency d →
  Forall (λ b, is_ascii_byte b && blank_byte b = true) blanks →
  parse_declared name (declared_kind d) (from_utf8 (blanks ++ bytes s)) = Ok d.
Proof.
  intros Hs Hd Hb. unfold parse_declared.
  rewrite (parse_rendered_entry d name s blanks Hs Hd Hb). cbn [map_err result_bind].
  apply render_dependency_ok in Hs as (_ & Hany & _).
  destruct d as [kind [n src c]]. simpl in *. by subst src.
Qed.

Lemma parse_declared_group name kind l rendered :
  Forall2 (λ d s, render_dependency d name = Ok s) l rendered →
  Forall readable_dependency l → Forall (λ d, declared_kind d = kind) l → l ≠ [] →
  try_map (parse_declared name kind)
    (split_terminator (byte_is 44) (str_join ", " rendered)) = Ok l.
Proof.
  intros Hr Hread Hkind Hne. apply try_map_ok.
  assert (Forall (λ s, s ≠ "" ∧ Forall (λ b, byte_is 44 b = false) (bytes s)) rendered) as Htexts.
  { clear Hne Hkind. induction Hr as [|d s l rendered Hs _ IH]; constructor.
    - apply Forall_cons in Hread as [Hd _]. apply render_dependency_ok in Hs as (Hs & _).
      destruct (entry_text_commas d Hd) as [Ht Hc]. rewrite Hs. split; [|done].
      intros ->. by rewrite <-Hs in Ht.
    - apply IH. by apply Forall_cons in Hread as [_ ?]. }
  destruct Hr as [|d s l rendered Hs Hr]; [done|]. rewrite split_terminator_join by done.
  apply Forall_cons in Hread as [Hd Hread], Hkind as [<- Hkind]. constructor.
  - rewrite <-(from_utf8_bytes s).
    apply (parse_declared_rendered d name s []); [done|done|constructor].
  - clear Htexts Hne. apply Forall2_fmap_l. revert Hread Hkind.
    induction Hr as [|e t l rendered Ht _ IH]; intros Hread Hkind; constructor.
    + apply Forall_cons in Hread as [He _], Hkind as [<- _].
      apply (parse_declared_rendered e name t (bytes " ")); [done|done|by repeat constructor].
    + apply Forall_cons in Hread as [_ ?], Hkind as [_ ?]. by apply IH.
Qed.

(** An artifact whose facts are what their constructors accept; a publication
    date is written as [YYYY-MM-DD]. *)
Record readable_artifact (a : MaterializationArtifact) : Prop := {
  readable_package : PackageName_new (package_text a) = Ok (MaterializationArtifact_package a);
  readable_version :
    RPackageVersion_parse (version_raw (selected_version a)) = Ok (selected_version a);
  readable_publication p : selected_publication a = Some p →
    let text := PublicationDate_as_str (ReleasePublication_date p) in
    str_trim text = text ∧ str_len text = 10 ∧
    PublicationDate_parse text = Ok (ReleasePublication_date p);
  readable_dependencies : Forall readable_dependency (selected_dependencies a);
  readable_metadata :
    ReleaseMetadata_new (release_fields (selected_metadata a)) = Ok (selected_metadata a);
}.

(** The renamed metadata never takes a name of the writer's own. *)
Lemma metadata_not_own n m :
  Metadata.is_reserved_field n = false → m ∈ own_names →
  to_ascii_lowercase (canonical_field_name n) ≠ to_ascii_lowercase m.
Proof.
  intros Hn Hm. destruct own_names_keys as (_ & _ & Hres). rewrite Forall_forall in Hres.
  apply Hres in Hm. unfold Metadata.is_reserved_field in *.
  apply bool_decide_eq_true in Hm. apply bool_decide_eq_false in Hn.
  destruct (canonical_field_name_key n) as [->| ->]; [congruence|].
  intros Heq. rewrite <-Heq in Hm. by apply (bool_decide_pack _) in Hm.
Qed.

Lemma record_field_iff a own fields n v :
  readable_artifact a → record_fields a = Ok fields → fixed_fields a = Ok own → n ∈ own_names →
  field fields n = Some v ↔ (n, v) ∈ own.
Proof.
  intros Ha (own' & Hown & Hp & _ & Hnd)%record_fields_ok Hown' Hn.
  rewrite Hown' in Hown. injection Hown as <-. split.
  - unfold field. intros ([m w] & Hf & [= ->])%fmap_Some.
    apply find_some in Hf as [Hin%list_elem_of_In Hk%eq_ignore_ascii_case_iff]. simpl in Hk.
    rewrite Hp in Hin. apply elem_of_app in Hin as [Hin|([m' w'] & [= -> ->] & Hin)%list_elem_of_fmap].
    + assert (m = n) as ->; [|done]. pose proof (fixed_fields_names _ _ Hown') as Hsub.
      apply (NoDup_fmap_eq to_ascii_lowercase own_names); [apply own_names_keys| |done..].
      eapply elem_of_sublist; [|exact Hsub]. apply list_elem_of_fmap. by exists (m, w).
    + exfalso. destruct (proj1 (ReleaseMetadata_new_ok_iff _ _) (readable_metadata _ Ha)) as [_ Hr].
      rewrite Forall_forall in Hr. by apply (metadata_not_own m' n (Hr _ Hin) Hn).
  - intros Hin. apply (field_some fields n v n); [done| |done]. rewrite Hp. apply elem_of_app. by left.
Qed.

Lemma fixed_fields_elem a own n v :
  fixed_fields a = Ok own →
  (n, v) ∈ own ↔
    (n = "Package" ∧ v = package_text a) ∨
    (n = "Version" ∧ v = version_raw (selected_version a)) ∨
    (n = "Published" ∧ ∃ p, selected_publication a = Some p ∧
       v = PublicationDate_as_str (ReleasePublication_date p)) ∨
    (∃ kind fs, (kind, n) ∈ DEPENDENCY_FIELDS ∧ dependency_field a (kind, n) = Ok fs ∧ (n, v) ∈ fs).
Proof.
  unfold fixed_fields. intros (deps & Hd & [= <-])%result_bind_ok. apply try_map_ok in Hd.
  assert ((n, v) ∈ mjoin deps ↔ ∃ kind fs,
    (kind, n) ∈ DEPENDENCY_FIELDS ∧ dependency_field a (kind, n) = Ok fs ∧ (n, v) ∈ fs) as Hdeps.
  { rewrite list_elem_of_join. split.
    - intros (fs & Hin & Hfs). apply list_elem_of_lookup in Hfs as [i Hi].
      destruct (Forall2_lookup_r _ _ _ _ _ Hd Hi) as ([kind name] & Hk & Hok).
      apply list_elem_of_lookup_2 in Hk. pose proof (dependency_field_names _ _ _ Hok) as Hsub.
      assert (n = name) as ->.
      { apply list_elem_of_singleton. eapply elem_of_sublist; [|exact Hsub].
        apply list_elem_of_fmap. by exists (n, v). }
      eauto.
    - intros (kind & fs & Hk & Hok & Hin). exists fs. split; [done|].
      apply list_elem_of_lookup in Hk as [i Hi].
      destruct (Forall2_lookup_l _ _ _ _ _ Hd Hi) as (fs' & Hfs' & Hok').
      rewrite Hok in Hok'. injection Hok' as <-. by eapply list_elem_of_lookup_2. }
  rewrite !elem_of_cons, elem_of_app, Hdeps. clear.
  destruct (selected_publication a) as [p|].
  - rewrite list_elem_of_singleton. split.
    + intros [[= -> ->]|[[= -> ->]|[[= -> ->]|?]]]; eauto 10.
    + intros [[-> ->]|[[-> ->]|[(-> & p' & [= <-] & ->)|?]]]; eauto 10.
  - rewrite elem_of_nil. split.
    + intros [[= -> ->]|[[= -> ->]|[[]|?]]]; eauto 10.
    + intros [[-> ->]|[[-> ->]|[(_ & p' & [=] & _)|?]]]; eauto 10.
Qed.

Lemma DEPENDENCY_FIELDS_kind kind kind' n :
  (kind, n) ∈ DEPENDENCY_FIELDS → (kind', n) ∈ DEPENDENCY_FIELDS → kind = kind'.
Proof.
  intros Hk Hk'. assert ((kind, n) = (kind', n)) as [= ->]; [|done].
  apply (NoDup_fmap_eq snd DEPENDENCY_FIELDS); [|done..]. by apply (bool_decide_unpack _).
Qed.

Lemma DEPENDENCY_FIELDS_names kind n :
  (kind, n) ∈ DEPENDENCY_FIELDS → n ∈ own_names ∧ n ≠ "Package" ∧ n ≠ "Version" ∧ n ≠ "Published".
Proof.
  assert (Forall (λ f : DependencyKind * string,
    f.2 ∈ own_names ∧ f.2 ≠ "Package" ∧ f.2 ≠ "Version" ∧ f.2 ≠ "Published") DEPENDENCY_FIELDS) as Hall
    by by apply (bool_decide_unpack _).
  rewrite Forall_forall in Hall. apply (Hall (kind, n)).
Qed.

Lemma elem_of_of_kind kind l d : d ∈ of_kind kind l ↔ d ∈ l ∧ declared_kind d = kind.
Proof. unfold of_kind. by rewrite elem_of_filter_bool, bool_decide_eq_true. Qed.

(** Each dependency field gives back the dependencies of its kind. *)
Lemma parse_dependency_field_ok a own fields kind n acc :
  readable_artifact a → record_fields a = Ok fields → fixed_fields a = Ok own →
  (kind, n) ∈ DEPENDENCY_FIELDS →
  ∃ ps, ps ≡ₚ of_kind kind (selected_dependencies a) ∧
    parse_dependency_field fields acc (n, kind) = Ok (acc ++ ps).
Proof.
  intros Ha Hf Hown Hk. destruct (DEPENDENCY_FIELDS_names kind n Hk) as (Hn & Hn1 & Hn2 & Hn3).
  pose proof (record_field_iff a own fields n) as Hiff. specialize (λ v, Hiff v Ha Hf Hown Hn).
  assert (∃ fs, dependency_field a (kind, n) = Ok fs) as [fs Hfs].
  { unfold fixed_fields in Hown. apply result_bind_ok in Hown as (deps & Hd & _).
    apply try_map_ok in Hd. apply list_elem_of_lookup in Hk as [i Hi].
    destruct (Forall2_lookup_l _ _ _ _ _ Hd Hi) as (fs & _ & Hfs). eauto. }
  assert (∀ v, (n, v) ∈ own ↔ (n, v) ∈ fs) as Hin.
  { intros v. rewrite (fixed_fields_elem a own n v Hown). split; [|eauto 10].
    intros [[-> _]|[[-> _]|[[-> _]|(kind' & fs' & Hk' & Hfs' & Hv)]]]; try done.
    rewrite (DEPENDENCY_FIELDS_kind _ _ _ Hk' Hk), Hfs in Hfs'. by injection Hfs' as ->. }
  unfold parse_dependency_field. cbn [fst snd].
  destruct (dependency_field_ok _ _ _ _ Hfs) as [[-> Hno]|(rendered & -> & Hne & Hr)].
  - destruct (field fields n) as [v|] eqn:Ev.
    { pose proof (proj1 (Hiff v) eq_refl) as Hv. apply Hin in Hv. by apply elem_of_nil in Hv. }
    exists []. rewrite Hno, app_nil_r. done.
  - assert (field fields n = Some (str_join ", " (sort_by str_cmp rendered))) as ->.
    { apply Hiff, Hin. left. }
    destruct (Forall2_Permutation_r _ _ _ (sort_by str_cmp rendered) Hr) as (ps & Hp & Hps).
    { by rewrite sort_by_Permutation. }
    exists ps. split; [by symmetry|].
    rewrite (parse_declared_group n kind ps); [done|done|..].
    + rewrite <-Hp. apply Forall_forall. intros d [Hd _]%elem_of_of_kind.
      pose proof (readable_dependencies _ Ha) as Hall. rewrite Forall_forall in Hall. by apply Hall.
    + rewrite <-Hp. apply Forall_forall. by intros d [_ Hd]%elem_of_of_kind.
    + intros ->. by apply Permutation_nil_r in Hp.
Qed.

Lemma of_kind_cons kind d l :
  of_kind kind (d :: l) =
  if bool_decide (declared_kind d = kind) then d :: of_kind kind l else of_kind kind l.
Proof. done. Qed.

Lemma of_kind_partition l :
  of_kind Depends l ++ of_kind Imports l ++ of_kind LinkingTo l ++ of_kind Suggests l
    ++ of_kind Enhances l ≡ₚ l.
Proof.
  induction l as [|d l IH]; [done|]. rewrite !of_kind_cons.
  transitivity (d :: of_kind Depends l ++ of_kind Imports l ++ of_kind LinkingTo l
    ++ of_kind Suggests l ++ of_kind Enhances l); [|by apply perm_skip].
  generalize (of_kind Depends l), (of_kind Imports l), (of_kind LinkingTo l),
    (of_kind Suggests l), (of_kind Enhances l). intros k1 k2 k3 k4 k5.
  destruct (declared_kind d); rewrite ?bool_decide_eq_true_2, ?bool_decide_eq_false_2 by done;
    cbn [app]; solve_Permutation.
Qed.

Lemma parse_dependencies_ok a own fields :
  readable_artifact a → record_fields a = Ok fields → fixed_fields a = Ok own →
  ∃ ds, ds ≡ₚ selected_dependencies a ∧
    try_fold (parse_dependency_field fields) [] dependency_fields = Ok ds.
Proof.
  intros Ha Hf Hown.
  pose proof (λ kind n acc, parse_dependency_field_ok a own fields kind n acc Ha Hf Hown) as Hstep.
  unfold DEPENDENCY_FIELDS in Hstep. unfold dependency_fields. cbn [try_fold].
  destruct (Hstep Depends "Depends" [] ltac:(set_solver)) as (p1 & E1 & ->). cbn [result_bind].
  destruct (Hstep Imports "Imports" ([] ++ p1) ltac:(set_solver)) as (p2 & E2 & ->). cbn [result_bind].
  destruct (Hstep LinkingTo "LinkingTo" (([] ++ p1) ++ p2) ltac:(set_solver)) as (p3 & E3 & ->).
  cbn [result_bind].
  destruct (Hstep Suggests "Suggests" ((([] ++ p1) ++ p2) ++ p3) ltac:(set_solver)) as (p4 & E4 & ->).
  cbn [result_bind].
  destruct (Hstep Enhances "Enhances" (((([] ++ p1) ++ p2) ++ p3) ++ p4) ltac:(set_solver))
    as (p5 & E5 & ->).
  cbn [result_bind]. eexists. split; [|done].
  rewrite <-(of_kind_partition (selected_dependencies a)), E1, E2, E3, E4, E5.
  by rewrite <-!app_assoc.
Qed.
Lemma str_trim_word s : word (bytes s) → str_trim s = s.
Proof.
  intros Hw. unfold str_trim. pose proof (trim_word [] [] (bytes s) Hw) as Ht.
  cbn [app] in Ht. rewrite app_nil_r in Ht. rewrite Ht by constructor. apply from_utf8_bytes.
Qed.

(** The names the reader keeps out of the metadata. *)
Lemma description_reserved n :
  Description.is_reserved_field n = true ↔
    Metadata.is_reserved_field n = true ∨ to_ascii_lowercase n = "md5sum".
Proof.
  unfold Description.is_reserved_field, Metadata.is_reserved_field.
  rewrite !bool_decide_eq_true, !elem_of_cons, !elem_of_nil. tauto.
Qed.

Lemma own_names_reserved n : n ∈ own_names → Description.is_reserved_field n = true.
Proof.
  intros Hn. apply description_reserved. left. destruct own_names_keys as (_ & _ & Hres).
  rewrite Forall_forall in Hres. by apply Hres.
Qed.

Lemma renamed_reserved n :
  Metadata.is_reserved_field n = false →
  Description.is_reserved_field (canonical_field_name n) = true ↔
    to_ascii_lowercase (canonical_field_name n) = "md5sum".
Proof.
  intros Hn. rewrite description_reserved. split; [|by right]. intros [Hr|]; [|done].
  exfalso. revert Hr Hn. unfold Metadata.is_reserved_field.
  rewrite bool_decide_eq_true, bool_decide_eq_false. intros Hr Hn.
  destruct (canonical_field_name_key n) as [Hk|Hk]; rewrite Hk in Hr; [done|].
  by apply (bool_decide_pack _) in Hr.
Qed.

Definition renamed (f : string * string) : string * string := (canonical_field_name f.1, f.2).

(** The metadata the reader builds from a record. *)
Lemma read_metadata_elem a fields n v :
  readable_artifact a → record_fields a = Ok fields →
  (n, v) ∈ bt_from_iter str_cmp (List.filter (λ f, negb (Description.is_reserved_field f.1)) fields) ↔
  ∃ n0, (n0, v) ∈ release_fields (selected_metadata a) ∧ n = canonical_field_name n0 ∧
    to_ascii_lowercase n ≠ "md5sum".
Proof.
  intros Ha (own & Hown & Hp & _ & Hnd)%record_fields_ok.
  rewrite elem_of_bt_from_iter; [|apply _|].
  2: { eapply sublist_NoDup; [|apply fmap_sublist, filter_sublist_bool].
       apply (NoDup_fmap_1 to_ascii_lowercase). by rewrite <-list_fmap_compose. }
  rewrite elem_of_filter_bool, negb_true_iff, Hp, elem_of_app. cbn [fst].
  destruct (proj1 (ReleaseMetadata_new_ok_iff _ _) (readable_metadata _ Ha)) as [_ Hr].
  rewrite Forall_forall in Hr. split.
  - intros [[Hin|([m w] & [= -> ->] & Hin)%list_elem_of_fmap] Hres].
    + exfalso. rewrite (own_names_reserved n) in Hres; [done|].
      eapply elem_of_sublist; [|by eapply fixed_fields_names]. apply list_elem_of_fmap. by exists (n, v).
    + exists m. split_and!; [done..|]. intros Hmd.
      apply (renamed_reserved m (Hr _ Hin)) in Hmd. congruence.
  - intros (m & Hin & -> & Hmd). split.
    + right. apply list_elem_of_fmap. by exists (m, v).
    + apply not_true_iff_false. by rewrite (renamed_reserved m (Hr _ Hin)).
Qed.

Lemma read_metadata_ok fields :
  ∃ m, ReleaseMetadata_new (bt_from_iter str_cmp
      (List.filter (λ f, negb (Description.is_reserved_field f.1)) fields)) = Ok m ∧
    release_fields m = bt_from_iter str_cmp
      (List.filter (λ f, negb (Description.is_reserved_field f.1)) fields).
Proof.
  eexists. rewrite ReleaseMetadata_new_ok_iff. split_and!; [done| |done].
  apply Forall_forall. intros f Hin. apply bt_from_iter_subset in Hin; [|apply _..]. apply elem_of_filter_bool in Hin.
  destruct Hin as [_ Hres%negb_true_iff]. apply not_true_iff_false. intros Hm.
  apply not_true_iff_false in Hres. apply Hres, description_reserved. by left.
Qed.
End read_back.

(** ** A record is read back *)

Section roundtrip.
Context `{CivilDateTime, UnicodeTables}.

Lemma read_field a fields n v own :
  readable_artifact a → record_fields a = Ok fields → fixed_fields a = Ok own → n ∈ own_names →
  (n, v) ∈ own → field fields n = Some v.
Proof. intros Ha Hf Ho Hn. by apply (record_field_iff a own fields n v Ha Hf Ho Hn). Qed.

Lemma read_publication a fields own :
  readable_artifact a → record_fields a = Ok fields → fixed_fields a = Ok own →
  match field fields "Published" with
  | Some value => result_map Some (parse_publication_date value)
  | None => Ok None
  end = Ok (selected_publication a).
Proof.
  intros Ha Hf Hown.
  assert ("Published" ∈ own_names) as Hn by (by apply (bool_decide_unpack _)).
  pose proof (λ v, record_field_iff a own fields "Published" v Ha Hf Hown Hn) as Hiff.
  setoid_rewrite (λ v, fixed_fields_elem a own "Published" v Hown) in Hiff.
  destruct (selected_publication a) as [p|] eqn:Hp.
  - pose proof (proj2 (Hiff (PublicationDate_as_str (ReleasePublication_date p)))) as Hfield.
    rewrite Hfield by eauto 10. destruct (readable_publication a Ha p Hp) as (Ht & Hlen & Hd).
    unfold parse_publication_date. rewrite Ht, Hlen. cbn [bool_decide decide_rel].
    rewrite bool_decide_eq_true_2 by done. unfold parse_date. rewrite Hd. cbn [map_err result_bind].
    by destruct p.
  - destruct (field fields "Published") as [v|] eqn:E; [|done].
    destruct (proj1 (Hiff v) eq_refl) as [[? _]|[[? _]|[(_ & p & ? & _)|(kind & fs & Hk & _)]]];
      try done.
    apply DEPENDENCY_FIELDS_names in Hk. naive_solver.
Qed.

(** C37: the record the index writer makes of an artifact is read back by the
    program's own DESCRIPTION reader: it is never rejected, gives the same
    package, version and publication date, the same declared dependencies (up
    to order), and as metadata exactly the artifact's metadata under canonical
    names, except [MD5sum], which the reader keeps out. *)
Theorem record_fields_read_back (a : MaterializationArtifact) fields :
  readable_artifact a → record_fields a = Ok fields →
  ∃ d, parse_description_fields fields = Ok d ∧
    description_package d = MaterializationArtifact_package a ∧
    description_version d = selected_version a ∧
    description_publication d = selected_publication a ∧
    description_dependencies d ≡ₚ selected_dependencies a ∧
    ∀ n v, (n, v) ∈ release_fields (description_metadata d) ↔
      ∃ n0, (n0, v) ∈ release_fields (selected_metadata a) ∧ n = canonical_field_name n0 ∧
        to_ascii_lowercase n ≠ "md5sum".
Proof.
  intros Ha Hf. pose proof Hf as (own & Hown & _ & _ & Hnd)%record_fields_ok.
  unfold parse_description_fields, reject_duplicate_fields, required_field.
  rewrite reject_duplicates_ok; [|done|by apply Forall_forall; intros ? _ ?%elem_of_nil].
  cbn [result_bind]. pose proof (λ n v, fixed_fields_elem a own n v Hown) as Helem.
  rewrite (read_field a fields "Version" (version_raw (selected_version a)) own Ha Hf Hown);
    [|by apply (bool_decide_unpack _)|apply Helem; eauto].
  rewrite (read_field a fields "Package" (package_text a) own Ha Hf Hown);
    [|by apply (bool_decide_unpack _)|apply Helem; eauto].
  cbn [ok_or result_bind].
  destruct (version_word _ _ _ (readable_version a Ha)) as [Hvw _].
  pose proof (package_name_word _ _ (readable_package a Ha)) as Hpw.
  rewrite !str_trim_word, (readable_version a Ha), (readable_package a Ha) by done.
  cbn [map_err result_bind]. rewrite (read_publication a fields own Ha Hf Hown).
  destruct (parse_dependencies_ok a own fields Ha Hf Hown) as (ds & Hds & ->).
  destruct (read_metadata_ok fields) as (m & -> & Hm). cbn [map_err result_bind].
  eexists. split; [done|]. cbn. split_and!; [done..|]. intros n v. rewrite Hm.
  by apply read_metadata_elem.
Qed.
End roundtrip.

(** ** The lines of the index *)

Definition is_newline : byte → bool := byte_is 10.

(** Lines with their line ends. *)
Definition unlines (l : list (list byte)) : list byte :=
  mjoin ((λ line, line ++ [byte_of 10]) <$> l).

Lemma unlines_cons line l : unlines (line :: l) = line ++ byte_of 10 :: unlines l.
Proof. unfold unlines. csimpl. by rewrite <-app_assoc. Qed.

Lemma unlines_app l k : unlines (l ++ k) = unlines l ++ unlines k.
Proof. unfold unlines. by rewrite fmap_app, join_app. Qed.

Definition one_line (line : list byte) : Prop := Forall (λ b, is_newline b = false) line.

Lemma split_unlines l r :
  Forall one_line l → split_bytes is_newline (unlines l ++ r) = l ++ split_bytes is_newline r.
Proof.
  induction 1 as [|line l Hline _ IH]; [done|].
  rewrite unlines_cons, <-app_assoc, <-app_comm_cons, split_bytes_app_separator by done.
  by rewrite IH.
Qed.

Lemma unlines_removelast l : l ≠ [] → removelast (unlines l) ++ [byte_of 10] = unlines l.
Proof.
  intros Hl. assert (∃ k, unlines l = k ++ [byte_of 10]) as [k ->].
  { destruct (exists_last Hl) as (l' & line & ->). rewrite unlines_app, unlines_cons.
    exists (unlines l' ++ line). by rewrite <-app_assoc. }
  by rewrite removelast_last.
Qed.

Lemma validate_field_name_ok n :
  validate_field_name n = Ok tt ↔
    Forall (λ b, is_field_name_byte b = true) (bytes n) ∧
    ∃ b l, bytes n = b :: l ∧ is_ascii_alphabetic b = true.
Proof.
  assert (forallb is_field_name_byte (bytes n) = true ↔
    Forall (λ b, is_field_name_byte b = true) (bytes n)) as Hall.
  { rewrite forallb_forall, Forall_forall. by setoid_rewrite list_elem_of_In. }
  unfold validate_field_name. rewrite <-Hall. clear Hall. case_bool_decide as Hn.
  { subst n. split; [done|]. intros (_ & b & l & [=] & _). }
  destruct (bytes n) as [|b l] eqn:E; [by apply bytes_nil in E|].
  destruct (forallb _ _), (is_ascii_alphabetic b) eqn:Eb; cbn [negb orb];
    (split; [try done; intros _; by eauto|]); intros [? (b' & l' & [= <- <-] & Hb')]; congruence.
Qed.

Lemma canonical_field_name_valid n :
  validate_field_name n = Ok tt → validate_field_name (canonical_field_name n) = Ok tt.
Proof.
  intros Hn. unfold canonical_field_name. cbv zeta.
  repeat (case_bool_decide; [vm_compute; reflexivity|]). done.
Qed.

Section lines.
Context `{CivilDate}.

Lemma record_fields_valid a fields :
  record_fields a = Ok fields → Forall (λ f, validate_field_name f.1 = Ok tt) fields.
Proof.
  intros (own & Hown%fixed_fields_names & -> & Hmeta & _)%record_fields_ok.
  apply Forall_app. split.
  - assert (Forall (λ n, validate_field_name n = Ok tt) own_names) as Hall
      by (by repeat constructor).
    apply (Forall_fmap fst (λ n, validate_field_name n = Ok tt)).
    rewrite Forall_forall in *. intros n Hn. apply Hall. by eapply elem_of_sublist.
  - apply Forall_fmap. eapply Forall_impl; [exact Hmeta|]. intros f.
    apply canonical_field_name_valid.
Qed.

Lemma field_lines_one_line f :
  validate_field_name f.1 = Ok tt → Forall one_line (field_lines f).
Proof.
  intros [Hb _]%validate_field_name_ok. unfold field_lines.
  pose proof (split_bytes_no_sep is_newline (bytes f.2)) as Hv. fold is_newline in *.
  destruct (split_bytes is_newline (bytes f.2)) as [|first rest]; [constructor|].
  apply Forall_cons in Hv as [Hf Hr]. constructor.
  - apply Forall_app. split; [|apply Forall_app; split; [by repeat constructor|done]].
    eapply Forall_impl; [exact Hb|]. apply (byte_excludes is_field_name_byte is_newline).
    vm_compute. reflexivity.
  - apply Forall_fmap. eapply Forall_impl; [exact Hr|]. intros l Hl. by constructor.
Qed.

(** A field never looks like a continuation, a comment or an empty line. *)
Lemma validate_field_lines n b f rest :
  validate_field_name f.1 = Ok tt →
  validate_lines_loop n b (field_lines f ++ rest)
    = validate_lines_loop (n + length (field_lines f)) true rest.
Proof.
  intros (Hb & c & name & Hc & Ha)%validate_field_name_ok. unfold field_lines. fold is_newline.
  destruct (split_bytes_cons is_newline (bytes f.2)) as (first & ls & ->).
  rewrite Hc in *. cbn [app validate_lines_loop].
  assert (byte_is 32 c || byte_is 9 c = false) as ->.
  { revert Ha. apply (byte_excludes is_ascii_alphabetic (λ c, byte_is 32 c || byte_is 9 c)).
    vm_compute. reflexivity. }
  assert (byte_is 35 c = false) as ->.
  { revert Ha. apply (byte_excludes is_ascii_alphabetic (byte_is 35)). vm_compute. reflexivity. }
  assert (∃ i, find_index (byte_is 58) (c :: name ++ bytes ": " ++ first) = Some (S i)) as [i ->].
  { assert (Forall (λ b, byte_is 58 b = false) (c :: name)) as Hn.
    { eapply Forall_impl; [exact Hb|]. apply (byte_excludes is_field_name_byte (byte_is 58)).
      vm_compute. reflexivity. }
    exists (length name). rewrite app_comm_cons. by apply find_index_app. }
  change (length ((c :: ?l) :: ?k)) with (S (length k)). rewrite length_fmap.
  replace (n + S (length ls)) with (S n + length ls) by lia. generalize (S n). clear.
  induction ls as [|l ls IH]; intros n; cbn [fmap list_fmap app length].
  - by rewrite Nat.add_0_r.
  - change (validate_lines_loop n true ((byte_of 32 :: l) :: ?k))
      with (validate_lines_loop (S n) true k).
    fold (fmap (M := list) (cons (byte_of 32)) ls). rewrite IH. f_equal. lia.
Qed.
End lines.

Section index.
Context `{CivilDate}.

(** The lines of a record. *)
Definition record_lines (fields : list (string * string)) : list (list byte) :=
  mjoin (field_lines <$> fields).

Lemma record_lines_ok a fields :
  record_fields a = Ok fields →
  Forall one_line (record_lines fields) ∧ record_lines fields ≠ [] ∧
  ∀ n rest, ∃ n', validate_lines_loop n false (record_lines fields ++ [] :: rest)
                  = validate_lines_loop n' false rest.
Proof.
  intros Hf. pose proof (record_fields_valid a fields Hf) as Hv.
  assert (fields ≠ []) as Hne.
  { apply record_fields_ok in Hf as (own & Hown & Hp & _).
    intros ->. apply Permutation_nil_l in Hp. unfold fixed_fields in Hown.
    apply result_bind_ok in Hown as (deps & _ & [= <-]). done. }
  clear Hf. unfold record_lines. split_and!.
  - clear Hne. induction Hv as [|f fs Hf _ IH]; [constructor|]. csimpl.
    apply Forall_app. split; [by apply field_lines_one_line|done].
  - destruct fields as [|f fs]; [done|]. csimpl. unfold field_lines.
    destruct (split_bytes_cons (byte_is 10) (bytes f.2)) as (first & ls & ->). done.
  - intros n rest. assert (∀ n b, ∃ n', validate_lines_loop n b (mjoin (field_lines <$> fields)
      ++ [] :: rest) = validate_lines_loop n' false rest) as Hgo; [|apply Hgo].
    clear Hne n. induction Hv as [|f fs Hf _ IH]; intros n b.
    + by exists (S n).
    + csimpl. rewrite <-app_assoc, validate_field_lines by done. apply IH.
Qed.

Lemma write_record_ok a paragraph :
  write_record a = Ok paragraph →
  ∃ fields, record_fields a = Ok fields ∧ paragraph ++ [byte_of 10] = unlines (record_lines fields).
Proof.
  unfold write_record. intros (fields & Hf & (_ & _ & [= <-])%result_bind_ok)%result_bind_ok.
  exists fields. split; [done|]. apply unlines_removelast. by apply (record_lines_ok a).
Qed.

(** The pieces between line ends: an empty line separates two records, and
    nothing follows the last line end. *)
Definition index_lines (records : list (list (string * string))) : list (list byte) :=
  mjoin ((λ fields, record_lines fields ++ [[]]) <$> records).

Lemma write_rows_lines rows first a rest :
  write_record a = Ok first → try_map write_record rows = Ok rest →
  ∃ records, try_map record_fields (a :: rows) = Ok records ∧
    split_bytes is_newline
      ((first ++ mjoin ((λ p, byte_of 10 :: byte_of 10 :: p) <$> rest)) ++ [byte_of 10])
    = index_lines records.
Proof.
  revert a first rest. induction rows as [|b rows IH]; intros a first rest Ha Hrest;
    apply write_record_ok in Ha as (fields & Hf & Hfirst);
    destruct (record_lines_ok a fields Hf) as (Hone & _ & _); simpl in Hrest.
  - injection Hrest as <-. exists [fields]. cbn [try_map]. rewrite Hf. split; [done|].
    cbn [mjoin list_join fmap list_fmap]. rewrite app_nil_r, Hfirst.
    pose proof (split_unlines _ [] Hone) as Hs. rewrite app_nil_r in Hs. rewrite Hs.
    unfold index_lines. csimpl. by rewrite app_nil_r.
  - apply result_bind_ok in Hrest as (second & Hb & Hrest).
    apply result_bind_ok in Hrest as (rest' & Hrest & [= <-]).
    destruct (IH b second rest' Hb Hrest) as (records & Hrec & Hsplit).
    exists (fields :: records). cbn [try_map] in *. rewrite Hf. cbn [result_bind]. rewrite Hrec.
    split; [done|].
    transitivity (split_bytes is_newline ((first ++ [byte_of 10]) ++ [] ++ byte_of 10 ::
      (second ++ mjoin ((λ p, byte_of 10 :: byte_of 10 :: p) <$> rest')) ++ [byte_of 10])).
    { f_equal. cbn [fmap list_fmap mjoin list_join app]. rewrite <-!app_assoc. cbn [app].
      by rewrite <-?app_assoc. }
    rewrite Hfirst, split_unlines, split_bytes_app_separator, Hsplit by (done || constructor).
    unfold index_lines. csimpl. by rewrite <-app_assoc.
Qed.

Lemma validate_index_lines rows records n :
  try_map record_fields rows = Ok records →
  validate_lines_loop n false (index_lines records) = Ok tt.
Proof.
  rewrite try_map_ok. intros Hr. revert n.
  induction Hr as [|a fields rows records Hf _ IH]; intros n; [done|].
  unfold index_lines. csimpl. rewrite <-app_assoc.
  destruct (record_lines_ok a fields Hf) as (_ & _ & Hgo).
  destruct (Hgo n (index_lines records)) as [n' Hn]. etrans; [exact Hn|]. apply IH.
Qed.

(** C38: what the index writer returns is well-formed by the program's own line
    check, and its lines are exactly the field lines of the records of the
    artifacts, in the order of package and version, with one empty line between
    records and a final line end: no value of a field, whatever its bytes, can start a field or a
    record of its own. *)
Theorem write_packages_lines (artifacts : list MaterializationArtifact) out :
  write_packages artifacts = Ok out →
  validate_lines out = Ok tt ∧
  ∃ records, try_map record_fields (sort_by row_cmp artifacts) = Ok records ∧
    split_bytes (byte_is 10) out =
      match records with [] => [[]; []] | _ => index_lines records end.
Proof.
  unfold write_packages, validate_lines. fold is_newline.
  intros (paragraphs & Hp & [= <-])%result_bind_ok.
  destruct (sort_by row_cmp artifacts) as [|a rows]; cbn [try_map] in Hp.
  { injection Hp as <-. split; [done|]. by exists []. }
  apply result_bind_ok in Hp as (first & Ha & Hp).
  apply result_bind_ok in Hp as (rest & Hrest & [= <-]).
  destruct (write_rows_lines rows first a rest Ha Hrest) as (records & Hrec & Hs).
  rewrite Hs. split; [by eapply validate_index_lines|]. exists records. split; [done|].
  destruct records; [|done]. apply try_map_ok in Hrec. by inversion Hrec.
Qed.
End index.
