(* ===== verification/Policy.v ===== *)
(** * Resolver policy ([rsolve-resolver/src/lib.rs])

    The projection of declared dependencies, the overlay of R's own base
    packages over a candidate loader, candidate preference and lock policies. *)

From S2P Require Import Prelude RustStd Collections Externals Format Versions Names Publication.
From S2P Require Import Identity Constraints Digest Metadata Request Candidates Resolution.

(** ** Base packages *)

Definition R_BASE_PACKAGE_NAMES : list string :=
  ["base"; "compiler"; "datasets"; "graphics"; "grDevices"; "grid"; "methods"; "parallel";
   "splines"; "stats"; "stats4"; "tcltk"; "tools"; "utils"].

Definition is_r_base_package_name (name : PackageName) : bool :=
  existsb (λ candidate, bool_decide (candidate = PackageName_as_str name)) R_BASE_PACKAGE_NAMES.

Section policy.
Context `{CivilDate, Sha2, UnicodeTables}.

(** ** The dependency projection *)

Definition effective_kind (expansion : RootExpansionPolicy) (kind : DependencyKind) :
    option EffectiveDependencyKind :=
  match kind with
  | Suggests => if bool_decide (expansion = DirectSuggests) then Some PromotedSuggests else None
  | Enhances => None
  | kind => DependencyKind_effective kind
  end.

Definition project_edge (expansion : RootExpansionPolicy) (dependency : DeclaredDependency) :
    option ResolvedDependencyEdge :=
  match effective_kind expansion (declared_kind dependency) with
  | Some kind => Some (mk_ResolvedDependencyEdge kind (declared_package dependency))
  | None => None
  end.

Definition project_dependency_edges (release : PackageRelease) (expansion : RootExpansionPolicy) :
    list ResolvedDependencyEdge :=
  omap (project_edge expansion) (release_dependencies release).

(** ** The base package overlay *)

Record RBasePackageOverlay := mk_RBasePackageOverlay {
  overlay_loader : CandidateLoader;
  overlay_base : list (PackageName * PackageRelease);
  overlay_r_version : RPackageVersion;
}.

Definition metadata_invalid (diagnostic : string) : CandidateLoadError :=
  CandidateLoadError_new MetadataInvalid diagnostic.

(** One iteration of the constructor's loop. *)
Definition overlay_step (r_version : RPackageVersion) (base : list (PackageName * PackageRelease))
    (name : string) : result (list (PackageName * PackageRelease)) CandidateLoadError :=
  let? package := map_err
    (λ e, metadata_invalid ("invalid R base package name " +:+ name +:+ ": "
                              +:+ PackageNameError_fmt e)) (PackageName_new name) in
  let? metadata := map_err
    (λ e, metadata_invalid ("invalid R base package metadata: " +:+ ReleaseMetadataError_fmt e))
    (ReleaseMetadata_new []) in
  let? release := map_err
    (λ e, metadata_invalid ("invalid R base package release " +:+ name +:+ ": "
                              +:+ PackageReleaseError_fmt e))
    (PackageRelease_try_from
       {| observed_identity := mk_ReleaseIdentity package (RBasePackage r_version);
          observed_package := package;
          observed_version := r_version;
          observed_release_metadata := metadata;
          observed_publication := None;
          observed_dependencies := [];
          observed_distributions := [] |}) in
  Ok (bt_insert PackageName_cmp package release base).

Definition RBasePackageOverlay_new (loader : CandidateLoader) (r_version : RPackageVersion) :
    result RBasePackageOverlay CandidateLoadError :=
  let? base := try_fold (overlay_step r_version) [] R_BASE_PACKAGE_NAMES in
  Ok (mk_RBasePackageOverlay loader base r_version).

(** The release an installed-name key is shadowed by. *)
Definition overlay_shadow (self : RBasePackageOverlay) (package : SolverKey) :
    option PackageRelease :=
  match package with
  | KeyInstalledName name => bt_get PackageName_cmp name (overlay_base self)
  | _ => None
  end.

Definition overlay_candidate (release : PackageRelease) :
    result PreparedCandidate CandidateLoadError :=
  map_err (λ e, metadata_invalid ("invalid R base candidate: " +:+ PreparedCandidateError_fmt e))
    (PreparedCandidate_new release RuntimeInstalled []).

Definition overlay_releases (self : RBasePackageOverlay) (package : SolverKey) :
    result (list PreparedCandidate) CandidateLoadError :=
  match overlay_shadow self package with
  | Some release => result_map (λ candidate, [candidate]) (overlay_candidate release)
  | None => loader_releases (overlay_loader self) package
  end.

Definition overlay_load (self : RBasePackageOverlay) (package : SolverKey) :
    result CandidateLoadResult CandidateLoadError :=
  match overlay_shadow self package with
  | Some release =>
    let? candidate := overlay_candidate release in Ok (CandidateLoadResult_new [candidate] [])
  | None => loader_load (overlay_loader self) package
  end.

(** The overlay is itself a loader. *)
Definition RBasePackageOverlay_loader (self : RBasePackageOverlay) : CandidateLoader :=
  mk_CandidateLoader (overlay_releases self) (overlay_load self).

(** ** Candidate preference *)

Record PreferenceContext := mk_PreferenceContext { context_locked : option ReleaseIdentity }.

(** The [CandidatePreference] trait. *)
Record CandidatePreference := mk_CandidatePreference {
  preference_compare :
    SolverKey → PreferenceContext → PreparedCandidate → PreparedCandidate → comparison;
}.

Definition candidate_sort_key (c : PreparedCandidate) : string :=
  identity_sort_key (candidate_identity c).

Definition compare_prepared_candidates (preference : CandidatePreference) (package : SolverKey)
    (context : PreferenceContext) : PreparedCandidate → PreparedCandidate → comparison :=
  cmp_then (preference_compare preference package context)
    (cmp_then (cmp_on candidate_version RPackageVersion_cmp) (cmp_on candidate_sort_key str_cmp)).

Definition preference_rank (candidate : PreparedCandidate) (package : SolverKey)
    (context : PreferenceContext) : nat :=
  if context_locked context =?= Some (candidate_identity candidate) then 3
  else if existsb (λ o, bool_decide (occurrence_currentness o = Current))
            (applicable_occurrences candidate package)
  then 2
  else 1.

(** The third key has its operands swapped: a smaller rank is preferred. *)
Definition DefaultCandidatePreference_compare (package : SolverKey) (context : PreferenceContext) :
    PreparedCandidate → PreparedCandidate → comparison :=
  cmp_then (cmp_on (λ c, preference_rank c package context) Nat.compare)
    (cmp_then (cmp_on candidate_version RPackageVersion_cmp)
       (cmp_then
          (cmp_rev (cmp_on (λ c, repository_rank_for c package) (option_cmp RepositoryRank_cmp)))
          (cmp_on candidate_sort_key str_cmp))).

Definition DefaultCandidatePreference : CandidatePreference :=
  mk_CandidatePreference DefaultCandidatePreference_compare.

(** ** Lock policies *)

Inductive LockDecision :=
| DecisionUnlocked
| DecisionPrefer (identity : ReleaseIdentity)
| DecisionRequire (identity : ReleaseIdentity).

Definition LockDecision_fmt (d : LockDecision) : string :=
  match d with
  | DecisionUnlocked => "unlocked"
  | DecisionPrefer identity => "prefer " +:+ PackageName_as_str (ReleaseIdentity_name identity)
  | DecisionRequire identity => "require " +:+ PackageName_as_str (ReleaseIdentity_name identity)
  end.

(** The [LockUpdatePolicy] trait. *)
Record LockUpdatePolicy := mk_LockUpdatePolicy {
  policy_decision : SolverKey → option ReleaseIdentity → LockDecision;
}.

Definition PreferLocked : LockUpdatePolicy :=
  mk_LockUpdatePolicy (λ _ previous,
    match previous with Some i => DecisionPrefer i | None => DecisionUnlocked end).
Definition RequireLocked : LockUpdatePolicy :=
  mk_LockUpdatePolicy (λ _ previous,
    match previous with Some i => DecisionRequire i | None => DecisionUnlocked end).
Definition Unlocked : LockUpdatePolicy := mk_LockUpdatePolicy (λ _ _, DecisionUnlocked).

(** ** The subject a requirement is about *)

Definition dependency_key (request : ResolutionRequest) (name : PackageName)
    (source : DependencySourceConstraint) : option SolverKey :=
  if PackageName_is "R" name && match source with SourceGit _ => false | _ => true end
  then Some KeyR
  else match source with
  | SourceAny =>
    match exact_root_identity request name with
    | None => Some (KeyInstalledName name)
    | Some identity => Some (KeyExact identity)
    end
  | SourceRegistry namespace => Some (KeyRegistry namespace name)
  | SourceRepository repository => Some (KeyRepository repository name)
  | SourceBioconductor namespace release => Some (KeyBioconductor namespace release name)
  | SourceExact identity => Some (KeyExact identity)
  | SourceGit _ => None
  end.

Definition root_expansion_for_package (request : ResolutionRequest) (name : PackageName) :
    RootExpansionPolicy :=
  match List.find (λ e, bool_decide (e = DirectSuggests))
          (expansion <$> List.filter (λ r, requirement_name (root_package r) =?= name)
             (roots request)) with
  | Some expansion => expansion
  | None => HardOnly
  end.
End policy.

#[global] Typeclasses Opaque compare_prepared_candidates DefaultCandidatePreference_compare.

Section policy_laws.
Context `{CivilDate, Sha2, UnicodeTables}.

(** ** The projection *)

(** How a declared kind becomes an effective one. *)
Definition projects_to (e : RootExpansionPolicy) (k : DependencyKind) (k' : EffectiveDependencyKind) :
    Prop :=
  match k with
  | Depends => k' = EffectiveDepends
  | Imports => k' = EffectiveImports
  | LinkingTo => k' = EffectiveLinkingTo
  | Suggests => e = DirectSuggests ∧ k' = PromotedSuggests
  | Enhances => False
  end.

Lemma effective_kind_some e k k' : effective_kind e k = Some k' ↔ projects_to e k k'.
Proof. destruct k, e; simpl; naive_solver. Qed.

Lemma elem_of_project_dependency_edges r e x :
  x ∈ project_dependency_edges r e ↔ ∃ d, d ∈ release_dependencies r ∧
    edge_package x = declared_package d ∧ projects_to e (declared_kind d) (edge_kind x).
Proof.
  unfold project_dependency_edges. rewrite list_elem_of_omap. unfold project_edge.
  setoid_rewrite <-effective_kind_some. split.
  - intros (d & Hd & E). exists d. destruct (effective_kind _ _); naive_solver.
  - intros (d & Hd & Hp & Hk). exists d. split; [done|]. rewrite Hk, <-Hp. by destruct x.
Qed.

Lemma project_sublist r e :
  edge_package <$> project_dependency_edges r e `sublist_of`
    declared_package <$> release_dependencies r.
Proof.
  unfold project_dependency_edges. induction (release_dependencies r) as [|d l IH]; [constructor|].
  cbn. unfold project_edge at 1.
  destruct (effective_kind e (declared_kind d)); cbn; by constructor.
Qed.

Lemma project_hard_sublist r :
  project_dependency_edges r HardOnly `sublist_of` project_dependency_edges r DirectSuggests.
Proof.
  unfold project_dependency_edges. induction (release_dependencies r) as [|d l IH]; [constructor|].
  cbn. unfold project_edge at 1 4. destruct (declared_kind d); simpl; first [exact IH|by constructor].
Qed.

(** The projection keeps, in declaration order, the hard dependencies with
    their kinds, adds suggestions exactly for directly expanded roots and
    never an enhancement; expanding only adds edges. *)
Theorem project_dependency_edges_spec r e :
  (∀ x, x ∈ project_dependency_edges r e ↔ ∃ d, d ∈ release_dependencies r ∧
     edge_package x = declared_package d ∧ projects_to e (declared_kind d) (edge_kind x)) ∧
  edge_package <$> project_dependency_edges r e `sublist_of`
    declared_package <$> release_dependencies r ∧
  project_dependency_edges r HardOnly `sublist_of` project_dependency_edges r DirectSuggests.
Proof.
  split_and!; [apply elem_of_project_dependency_edges|apply project_sublist
    |apply project_hard_sublist].
Qed.

(** ** The overlay *)

Definition base_release (r_version : RPackageVersion) (package : PackageName) : PackageRelease :=
  let identity := mk_ReleaseIdentity package (RBasePackage r_version) in
  {| release_identity := identity;
     release_version := r_version;
     release_metadata := mk_ReleaseMetadata [];
     release_publication := None;
     release_dependencies := [];
     release_distributions := [];
     release_metadata_digest := canonical_metadata_digest identity r_version [] |}.

Lemma overlay_step_ok v base name package :
  PackageName_new name = Ok package →
  overlay_step v base name = Ok (bt_insert PackageName_cmp package (base_release v package) base).
Proof.
  intros Hn. unfold overlay_step. rewrite Hn. simpl. unfold PackageRelease_try_from. simpl.
  by rewrite !req_refl.
Qed.

Lemma overlay_fold_ok v base names packages :
  Forall2 (λ n p, PackageName_new n = Ok p) names packages →
  try_fold (overlay_step v) base names =
    Ok (foldl (λ m p, bt_insert PackageName_cmp p (base_release v p) m) base packages).
Proof.
  intros Hnp. revert base. induction Hnp as [|n p names packages Hp _ IH]; intros base; [done|].
  simpl. rewrite (overlay_step_ok _ _ _ _ Hp). apply IH.
Qed.

Lemma bt_get_foldl_insert {V} (f : PackageName → V) packages base n :
  bt_get PackageName_cmp n (foldl (λ m p, bt_insert PackageName_cmp p (f p) m) base packages) =
    if decide (n ∈ packages) then Some (f n) else bt_get PackageName_cmp n base.
Proof.
  revert base. induction packages as [|p l IH]; intros base; cbn [foldl].
  { by rewrite decide_False by apply not_elem_of_nil. }
  rewrite IH. case_decide as Hl; case_decide as Hpl; try (exfalso; set_solver); [done|..].
  - apply elem_of_cons in Hpl as [->|]; [|done].
    apply (bt_get_insert_eq PackageName_cmp), (cmp_refl PackageName_cmp).
  - apply not_elem_of_cons in Hpl as [Hnp _].
    by rewrite (bt_get_insert_ne PackageName_cmp) by by apply PackageName_cmp_ne.
Qed.

Lemma r_base_package_names_valid :
  Forall2 (λ n p, PackageName_new n = Ok p) R_BASE_PACKAGE_NAMES
    (mk_PackageName <$> R_BASE_PACKAGE_NAMES).
Proof. repeat constructor. Qed.

Lemma is_r_base_package_name_iff n :
  is_r_base_package_name n = true ↔ n ∈ mk_PackageName <$> R_BASE_PACKAGE_NAMES.
Proof.
  unfold is_r_base_package_name. rewrite existsb_exists, list_elem_of_fmap.
  setoid_rewrite bool_decide_eq_true. setoid_rewrite <-list_elem_of_In.
  destruct n as [s]. simpl. naive_solver.
Qed.

Lemma base_release_ok v p : release_ok (base_release v p).
Proof.
  split; [|constructor]. split_and!; simpl; [by intros ? [= <-]|constructor|constructor|done].
Qed.

Lemma overlay_candidate_ok v p :
  overlay_candidate (base_release v p) =
    Ok (mk_PreparedCandidate (base_release v p) RuntimeInstalled []).
Proof. done. Qed.

Lemma base_candidate_wf v p :
  candidate_wf (mk_PreparedCandidate (base_release v p) RuntimeInstalled []).
Proof.
  split; [apply base_release_ok|]. split; [apply normalized_nil|]. simpl.
  unfold view_valid, visible_distributions. split; [done|].
  split; [by intros ? ? ?%elem_of_nil|]. split; [|done]. by intros d (? & ?%elem_of_nil & _).
Qed.

(** The overlay is always built; the installed name of each of the fourteen
    base packages then has one candidate, of the selected R version, eligible
    and runtime-installed, and every other subject is the wrapped loader's. *)
Theorem RBasePackageOverlay_spec loader v :
  ∃ o, RBasePackageOverlay_new loader v = Ok o ∧ ∀ key,
    match key with
    | KeyInstalledName n =>
      if is_r_base_package_name n
      then ∃ c, overlay_releases o key = Ok [c] ∧
             overlay_load o key = Ok (CandidateLoadResult_new [c] []) ∧
             candidate_wf c ∧ candidate_identity c = mk_ReleaseIdentity n (RBasePackage v) ∧
             candidate_version c = v ∧ candidate_exposure c = RuntimeInstalled ∧
             is_eligible_for c key = true
      else overlay_releases o key = loader_releases loader key ∧
           overlay_load o key = loader_load loader key
    | _ => overlay_releases o key = loader_releases loader key ∧
           overlay_load o key = loader_load loader key
    end.
Proof.
  unfold RBasePackageOverlay_new.
  rewrite (overlay_fold_ok _ _ _ _ r_base_package_names_valid).
  set (base := foldl _ _ _). exists (mk_RBasePackageOverlay loader base v).
  split; [done|]. intros key. destruct key as [| | | |n|]; try done.
  unfold overlay_releases, overlay_load, overlay_shadow. cbn [overlay_base overlay_loader].
  unfold base. rewrite bt_get_foldl_insert. pose proof (is_r_base_package_name_iff n) as Hn.
  destruct (is_r_base_package_name n);
    [rewrite decide_True by by apply Hn|
     rewrite decide_False; [done|intros Hin; apply Hn in Hin; discriminate]].
  exists (mk_PreparedCandidate (base_release v n) RuntimeInstalled []).
  rewrite overlay_candidate_ok. split_and!; try done.
  - apply base_candidate_wf.
  - unfold is_eligible_for. simpl. by rewrite req_refl.
Qed.

(** ** Preference *)

#[global] Instance DefaultCandidatePreference_order package context :
  CmpOrder (DefaultCandidatePreference_compare package context).
Proof. unfold DefaultCandidatePreference_compare. apply _. Qed.

(** What the resolver needs of a preference. *)
Definition preference_lawful (p : CandidatePreference) : Prop :=
  ∀ package context, CmpOrder (preference_compare p package context).

Lemma compare_prepared_candidates_order p package context :
  preference_lawful p → CmpOrder (compare_prepared_candidates p package context).
Proof.
  intros Hp. specialize (Hp package context). unfold compare_prepared_candidates. apply _.
Qed.

Lemma version_req_cmp v w : v ≈ w ↔ RPackageVersion_cmp v w = Eq.
Proof.
  unfold req_rel, req, req_version, RPackageVersion_eq, is_eq.
  by destruct (RPackageVersion_cmp v w).
Qed.

Lemma compare_prepared_candidates_eq p package context a b :
  compare_prepared_candidates p package context a b = Eq →
  candidate_version a ≈ candidate_version b ∧ candidate_sort_key a = candidate_sort_key b.
Proof.
  unfold compare_prepared_candidates, cmp_then, cmp_on. intros E.
  destruct (preference_compare _ _ _ _ _) in E; try done. simpl in E.
  destruct (RPackageVersion_cmp _ _) eqn:Ev in E; try done. simpl in E. split.
  - by apply version_req_cmp.
  - by apply (cmp_eq_leibniz str_cmp).
Qed.

Lemma preference_rank_locked c package context :
  preference_rank c package context = 3 ↔ context_locked context ≈ Some (candidate_identity c).
Proof.
  unfold preference_rank. destruct (_ =?= _) eqn:E; [by split|].
  apply req_false_iff in E. destruct (existsb _ _); split; done.
Qed.

Lemma preference_rank_current c package context :
  preference_rank c package context = 2 ↔
    context_locked context ≉ Some (candidate_identity c) ∧
    ∃ o, o ∈ applicable_occurrences c package ∧ occurrence_currentness o = Current.
Proof.
  unfold preference_rank. destruct (_ =?= _) eqn:E.
  { apply req_true_iff in E. split; [done|]. by intros []. }
  apply req_false_iff in E. destruct (existsb _ _) eqn:Ex.
  - split; [intros _|done]. split; [done|]. apply existsb_exists in Ex as (o & Ho & Hc).
    apply bool_decide_eq_true in Hc. exists o. by rewrite list_elem_of_In.
  - split; [done|]. intros (_ & o & Ho & Hc). apply existsb_false_Forall in Ex.
    rewrite Forall_forall in Ex. specialize (Ex o Ho). by rewrite bool_decide_eq_false in Ex.
Qed.

Lemma preference_rank_cases c package context : preference_rank c package context ∈ [1; 2; 3].
Proof. unfold preference_rank. repeat case_match; set_solver. Qed.

Lemma then_with_lt c d : c = Lt → then_with c d = Lt.
Proof. by intros ->. Qed.

(** The default preference is a total order on the candidates of a subject;
    the locked identity beats every other candidate, then a current occurrence
    in the subject's scope beats none, then the higher version wins, then the
    better (smaller) repository rank. *)
Theorem default_preference_spec package context a b :
  let compare := DefaultCandidatePreference_compare package context in
  let current c := ∃ o, o ∈ applicable_occurrences c package ∧ occurrence_currentness o = Current in
  let is_locked c := context_locked context ≈ Some (candidate_identity c) in
  CmpOrder compare ∧
  (is_locked a → ¬ is_locked b → compare b a = Lt) ∧
  (¬ is_locked a → ¬ is_locked b → current a → ¬ current b → compare b a = Lt) ∧
  (preference_rank a package context = preference_rank b package context →
     RPackageVersion_cmp (candidate_version b) (candidate_version a) = Lt → compare b a = Lt) ∧
  (preference_rank a package context = preference_rank b package context →
     candidate_version a ≈ candidate_version b →
     ∀ r s, repository_rank_for a package = Some r → repository_rank_for b package = Some s →
       (RepositoryRank_ordinal r < RepositoryRank_ordinal s)%N → compare b a = Lt).
Proof.
  intros compare current is_locked.
  assert (∀ c, preference_rank c package context = 3 ↔ is_locked c) as H3
    by (intros; apply preference_rank_locked).
  assert (∀ c, preference_rank c package context = 2 ↔ ¬ is_locked c ∧ current c) as H2
    by (intros; apply preference_rank_current).
  assert (∀ c, preference_rank c package context ∈ [1; 2; 3]) as Hr
    by (intros; apply preference_rank_cases).
  assert (∀ x y, preference_rank x package context < preference_rank y package context →
    compare x y = Lt) as Hlt.
  { intros x y Hxy. apply then_with_lt. by apply Nat.compare_lt_iff. }
  split_and!; [apply _|..].
  - intros Ha%H3 Hb. apply Hlt. rewrite Ha.
    assert (preference_rank b package context ≠ 3) by by rewrite H3.
    specialize (Hr b). rewrite !elem_of_cons, elem_of_nil in Hr. lia.
  - intros Ha Hb Hca Hcb. apply Hlt. rewrite (proj2 (H2 a)) by done.
    assert (preference_rank b package context ≠ 3) by by rewrite H3.
    assert (preference_rank b package context ≠ 2) by (rewrite H2; tauto).
    specialize (Hr b). rewrite !elem_of_cons, elem_of_nil in Hr. lia.
  - intros He Hv. unfold compare, DefaultCandidatePreference_compare, cmp_then, cmp_on.
    rewrite He, Nat.compare_refl. simpl. by rewrite Hv.
  - intros He Hv r s Ha Hb Hrs. unfold compare, DefaultCandidatePreference_compare, cmp_then,
      cmp_on, cmp_rev. rewrite He, Nat.compare_refl, Ha, Hb. simpl.
    apply version_req_cmp in Hv. rewrite (cmp_sym RPackageVersion_cmp), Hv. simpl.
    unfold RepositoryRank_cmp, cmp_on. by apply N.compare_lt_iff in Hrs as ->.
Qed.
End policy_laws.
