(* ===== verification/Compose.v ===== *)
(** * Environment composition ([rsolve/src/manifest/compose.rs])

    Version constraints of the manifest, the composition of one environment from
    a manifest document, and the digest of what it selects. *)

From S2P Require Import Prelude RustStd Collections Externals Text Format Versions Names GitUrl.
From S2P Require Import Publication Identity Constraints Digest Request Policy Manifest Locators ManifestWire.

(** ** Version constraints *)

Inductive ConstraintVersionKind := VersionOfR | VersionOfPackage.

Definition relation_rank (op : RelationOp) : N :=
  match op with OpLt => 0 | OpLe => 1 | OpEq => 2 | OpNe => 3 | OpGe => 4 | OpGt => 5 end.

Definition relation_tag (op : RelationOp) : string :=
  match op with
  | OpLt => "<" | OpLe => "<=" | OpEq => "=" | OpNe => "!=" | OpGe => ">=" | OpGt => ">"
  end.

(** The comparator of both sorts: relation, version, spelling. *)
Definition clause_cmp : VersionClause → VersionClause → comparison :=
  cmp_then (cmp_on (λ c, relation_rank (clause_op c)) N.compare)
    (cmp_then (cmp_on clause_version RPackageVersion_cmp)
       (cmp_on (λ c, RPackageVersion_as_str (clause_version c)) str_cmp)).

(** The same relation and an equal version. *)
Definition same_clause (left right : VersionClause) : bool :=
  (clause_op left =?= clause_op right) && (clause_version left =?= clause_version right).

Definition canonical_clauses (l : list VersionClause) : list VersionClause :=
  dedup_by same_clause (sort_by clause_cmp l).

Definition canonicalize_constraint (constraint : VersionConstraint) : VersionConstraint :=
  mk_VersionConstraint (canonical_clauses (clauses constraint)).

(** The [strip_prefix] tests, in their order. *)
Definition RELATION_PREFIXES : list (string * RelationOp) :=
  [(">=", OpGe); ("<=", OpLe); ("!=", OpNe); ("==", OpEq); (">", OpGt); ("<", OpLt); ("=", OpEq)].

Definition split_relation (term : string) : RelationOp * string :=
  default (OpEq, term)
    (list_find_map (λ po : string * RelationOp,
       (λ version, (po.2, from_utf8 version)) <$> strip_prefix (bytes po.1) (bytes term))
       RELATION_PREFIXES).

Definition parse_term (field : string) (kind : ConstraintVersionKind) (term : string) :
    result VersionClause ManifestError :=
  let term := str_trim term in
  if bool_decide (term = "")
  then Err (InvalidVersionConstraint field "constraint contains an empty conjunction term")
  else
    let (op, version) := split_relation term in
    let version := str_trim version in
    if bool_decide (version = "") || bool_decide (version = "*")
    then Err (InvalidVersionConstraint field "relation must have a numeric version")
    else
      let? version := map_err (λ error, InvalidVersionConstraint field (RPackageVersionError_fmt error))
        match kind with
        | VersionOfR => RPackageVersion_parse_bare version
        | VersionOfPackage => RPackageVersion_parse version
        end in
      Ok (mk_VersionClause op version).

Definition parse_constraint (input field : string) (kind : ConstraintVersionKind) :
    result VersionConstraint ManifestError :=
  if bool_decide (input = "") || has_control input
  then Err (InvalidVersionConstraint field
              "constraint must be non-empty and contain no control characters")
  else if bool_decide (str_trim input = "*") then Ok VersionConstraint_unconstrained
  else
    let? clauses := try_map (parse_term field kind) (str_split (byte_is 44) input) in
    Ok (canonicalize_constraint (mk_VersionConstraint clauses)).

Definition parse_r_constraint (input field : string) : result VersionConstraint ManifestError :=
  parse_constraint input field VersionOfR.
Definition parse_package_constraint (input field : string) : result VersionConstraint ManifestError :=
  parse_constraint input field VersionOfPackage.

(** ** Roots *)

Record ComposedRootIntent := mk_ComposedRootIntent {
  intent_name : PackageName;
  intent_constraint : VersionConstraint;
  intent_source : ManifestSource;
  intent_expansion : RootExpansionPolicy;
}.

Definition is_remote_cran_root_intent (root : ComposedRootIntent) : bool :=
  if PackageName_is "R" (intent_name root) then false
  else match intent_source root with
       | ManifestRegistry None => negb (is_r_base_package_name (intent_name root))
       | _ => true
       end.

Definition normalize_source (name : PackageName) (source : ManifestSource) :
    result ManifestSource ManifestError :=
  match source with
  | ManifestGit url selector subdirectory =>
    let? subdirectory :=
      match subdirectory with
      | Some subdirectory =>
        result_map Some (map_err (InvalidDependencyField (PackageName_as_str name))
                           (normalize_relative_subdirectory subdirectory))
      | None => Ok None
      end in
    Ok (ManifestGit url selector subdirectory)
  | ManifestPath path sha256 =>
    let? path := map_err (InvalidDependencyField (PackageName_as_str name))
                   (normalize_requested_path path) in
    Ok (ManifestPath path sha256)
  | _ => Ok source
  end.

Definition merge_sources (name : PackageName) (left right : ManifestSource) :
    result ManifestSource ManifestError :=
  if bool_decide (left = right) then Ok left
  else match left, right with
       | ManifestRegistry None, ManifestRegistry (Some repository)
       | ManifestRegistry (Some repository), ManifestRegistry None =>
         Ok (ManifestRegistry (Some repository))
       | _, _ => Err (SourceConflict (PackageName_as_str name))
       end.

Definition merge_roots (left right : ComposedRootIntent) : result ComposedRootIntent ManifestError :=
  let? source := merge_sources (intent_name left) (intent_source left) (intent_source right) in
  Ok (mk_ComposedRootIntent (intent_name left)
        (canonicalize_constraint
           (VersionConstraint_conjunction (intent_constraint left) (intent_constraint right)))
        source
        (if bool_decide (intent_expansion left = DirectSuggests)
            || bool_decide (intent_expansion right = DirectSuggests)
         then DirectSuggests else HardOnly)).

(** The candidate made of one dependency. *)
Definition dependency_intent (name : PackageName) (dependency : ManifestDependencySpec) :
    result ComposedRootIntent ManifestError :=
  if PackageName_is "R" name then Err RIsNotAPackageRequirement
  else
    let? constraint := parse_package_constraint (spec_version dependency) (PackageName_as_str name) in
    let? source := normalize_source name (spec_source dependency) in
    Ok (mk_ComposedRootIntent name constraint source
          (if include_suggests dependency then DirectSuggests else HardOnly)).

Notation RootMap := (list (PackageName * ComposedRootIntent)) (only parsing).

Definition append_root (roots : RootMap) (name : PackageName) (candidate : ComposedRootIntent) :
    result RootMap ManifestError :=
  match bt_get PackageName_cmp name roots with
  | Some existing =>
    let? merged := merge_roots existing candidate in
    Ok (bt_insert PackageName_cmp name merged (bt_remove PackageName_cmp name roots))
  | None => Ok (bt_insert PackageName_cmp name candidate roots)
  end.

Definition append_dependency (roots : RootMap) (entry : PackageName * ManifestDependencySpec) :
    result RootMap ManifestError :=
  let? candidate := dependency_intent entry.1 entry.2 in append_root roots entry.1 candidate.

Definition append_dependencies (roots : RootMap) (dependencies : DependencyMap) :
    result RootMap ManifestError := try_fold append_dependency roots dependencies.

(** ** The document *)

(** The [expect] is not reached: the references were validated. *)
Definition root_allowed (repositories : list RepositorySpec) (root : ComposedRootIntent) :
    result unit ManifestError :=
  match intent_source root with
  | ManifestRegistry (Some repository) =>
    match List.find (λ candidate, bool_decide (spec_id candidate = repository)) repositories with
    | Some spec =>
      if package_allowed spec (intent_name root) then Ok tt
      else Err (RepositoryPackageNotAllowed repository (intent_name root))
    | None => Ok tt
    end
  | _ => Ok tt
  end.

Definition validate_repository_package_allowlists (roots : RootMap)
    (repositories : list RepositorySpec) : result unit ManifestError :=
  let? _ := try_map (root_allowed repositories) (bt_values roots) in Ok tt.

Definition selector_value (selector : GitSelector) : option string :=
  match selector with
  | DefaultBranch => None
  | SelectBranch value | SelectTag value | SelectRev value => Some value
  end.

Definition validate_source (ids : list RepositoryId) (name : PackageName) (source : ManifestSource) :
    result unit ManifestError :=
  match source with
  | ManifestRegistry (Some repository) =>
    let? _ := validate_repository_id repository in
    if bool_decide (repository ∈ ids) then Ok tt
    else Err (UnknownRepositoryReference repository (PackageName_as_str name))
  | ManifestGit _ selector subdirectory =>
    let? _ := match selector_value selector with
              | Some value => validate_selector value (PackageName_as_str name)
              | None => Ok tt
              end in
    match subdirectory with
    | Some value => map_err (InvalidDependencyField (PackageName_as_str name))
                      (validate_relative_subdirectory value)
    | None => Ok tt
    end
  | ManifestPath path _ =>
    let? _ := map_err (InvalidDependencyField (PackageName_as_str name)) (normalize_requested_path path) in
    Ok tt
  | _ => Ok tt
  end.

Definition validate_dependency (ids : list RepositoryId) (entry : PackageName * ManifestDependencySpec) :
    result unit ManifestError :=
  let? _ := parse_package_constraint (spec_version entry.2) (PackageName_as_str entry.1) in
  if PackageName_is "R" entry.1 then Err RIsNotAPackageRequirement
  else validate_source ids entry.1 (spec_source entry.2).

Definition validate_dependency_maps (dependencies : DependencyMap) (ids : list RepositoryId) :
    result unit ManifestError :=
  let? _ := try_map (validate_dependency ids) dependencies in Ok tt.

(** The loop over the repositories; [ids] are those seen so far. *)
Fixpoint validate_repositories (ids : list RepositoryId) (l : list RepositorySpec) :
    result unit ManifestError :=
  match l with
  | [] => Ok tt
  | repository :: l =>
    let? _ := validate_repository_id (spec_id repository) in
    if bool_decide (spec_id repository ∈ ids) then Err (DuplicateRepository (spec_id repository))
    else if reserved_registry (spec_registry repository) then Err RESERVED_NAMESPACE
    else validate_repositories (spec_id repository :: ids) l
  end.

(** ** The intent digest

    Every [append_*] call appends a run of fields; the payload is their framing
    by [append_field]. *)

Definition canonical_version_text (version : RPackageVersion) : string :=
  let text := str_join "."
    (N_to_string <$> take (RPackageVersion_canonical_component_count version)
                       (RPackageVersion_components version)) in
  if bool_decide (text = "") then "0" else text.

Definition clause_fields (clause : VersionClause) : list (list byte) :=
  [bytes (relation_tag (clause_op clause)); bytes (canonical_version_text (clause_version clause))].

Definition constraint_fields (constraint : VersionConstraint) : list (list byte) :=
  bytes "constraint" :: mjoin (clause_fields <$> canonical_clauses (clauses constraint)).

Definition registry_fields (registry : RegistrySpec) : list (list byte) :=
  [bytes "registry"; bytes (RegistrySpec_tag registry)]
  ++ match registry with CranLike namespace => [bytes (Identifier_as_str namespace)] | _ => [] end.

Definition selector_fields (selector : GitSelector) : list (list byte) :=
  match selector with
  | DefaultBranch => [bytes "default-branch"]
  | SelectBranch value => [bytes "branch"; bytes value]
  | SelectTag value => [bytes "tag"; bytes value]
  | SelectRev value => [bytes "rev"; bytes value]
  end.

Definition digest_text (sha256 : option Sha256Digest) : string :=
  from_option Sha256Digest_as_str "" sha256.

Definition source_fields (source : ManifestSource) : list (list byte) :=
  match source with
  | ManifestRegistry repository =>
    [bytes "registry-source"; bytes (from_option Identifier_as_str "" repository)]
  | ManifestGit url selector subdirectory =>
    [bytes "git"; bytes (NormalizedGitUrl_as_str url)] ++ selector_fields selector
    ++ [bytes (default "" subdirectory)]
  | ManifestUrl url sha256 =>
    [bytes "url"; bytes (DirectUrl_as_str url); bytes (digest_text sha256)]
  | ManifestPath path sha256 => [bytes "path"; bytes path; bytes (digest_text sha256)]
  end.

Definition expansion_tag (expansion : RootExpansionPolicy) : string :=
  match expansion with HardOnly => "hard-only" | DirectSuggests => "direct-suggests" end.

(** One turn of the loops over the repositories and over the roots. *)
Definition repository_intent_fields (repository : RepositorySpec) : list (list byte) :=
  [bytes "repository"; bytes (Identifier_as_str (spec_id repository))]
  ++ registry_fields (spec_registry repository)
  ++ [bytes (Endpoint_as_str (manifest_endpoint repository)); bytes "packages"]
  ++ match spec_packages repository with
     | None => [bytes "all"]
     | Some packages => bytes "allowlist" :: ((λ p, bytes (PackageName_as_str p)) <$> packages)
     end.

Definition root_intent_fields (root : ComposedRootIntent) : list (list byte) :=
  [bytes "root"; bytes (PackageName_as_str (intent_name root))]
  ++ constraint_fields (intent_constraint root) ++ source_fields (intent_source root)
  ++ [bytes (expansion_tag (intent_expansion root))].

Definition RESOLUTION_INTENT_DOMAIN : list byte := bytes "rsolve.resolution-intent.v1" ++ [byte_of 0].

(** ** Environments *)

Section compose.
Context `{CivilDate}.

Definition validate_environment (known : list string) (entry : string * list string) :
    result unit ManifestError :=
  let? _ := map_err (λ _, InvalidIdentifier "environment" entry.1) (EnvironmentId_new entry.1) in
  validate_group_references entry.1 known [] entry.2.

Definition validate_document (document : ManifestDocument) : result unit ManifestError :=
  if negb (N.eqb (schema document) 1) then Err (UnknownSchema (Z.of_N (schema document)))
  else
    let? _ := parse_r_constraint (r_requirement_text document) "r.version" in
    let? _ := validate_repositories [] (repositories document) in
    let ids := spec_id <$> repositories document in
    let? _ := try_map (validate_environment (groups document).*1) (environments document) in
    let? _ := try_map (λ id, validate_named_id id "group") (groups document).*1 in
    let? _ := validate_dependency_maps (dependencies document) ids in
    let? _ := try_map (λ dependencies, validate_dependency_maps dependencies ids) (groups document).*2 in
    Ok tt.

Record ComposedEnvironment := mk_ComposedEnvironment {
  composed_environment : EnvironmentId;
  composed_r_requirement : VersionConstraint;
  composed_published_before : option PublicationDate;
  composed_target : ResolutionTarget;
  composed_repositories : list RepositorySpec;
  composed_roots : list ComposedRootIntent;
  composed_locked : LockedIdentities;
}.

(** One group of the environment. *)
Definition append_group (document : ManifestDocument) (environment : EnvironmentId) (roots : RootMap)
    (group_id : string) : result RootMap ManifestError :=
  let? dependencies := ok_or (UnknownEnvironmentGroup (EnvironmentId_as_str environment) group_id)
                         (bt_get str_cmp group_id (groups document)) in
  append_dependencies roots dependencies.

Definition compose_environment_with_locked (document : ManifestDocument) (environment_input : string)
    (target : ResolutionTarget) (locked : LockedIdentities) :
    result ComposedEnvironment ManifestError :=
  let? _ := validate_document document in
  let? environment := map_err (λ _, InvalidIdentifier "environment" environment_input)
                        (EnvironmentId_new environment_input) in
  let? group_ids :=
    match bt_get str_cmp (EnvironmentId_as_str environment) (environments document) with
    | Some group_ids => Ok group_ids
    | None => if bool_decide (EnvironmentId_as_str environment = "default") then Ok []
              else Err (UnknownEnvironment (EnvironmentId_as_str environment))
    end in
  let? r_requirement := parse_r_constraint (r_requirement_text document) "r.version" in
  if negb (VersionConstraint_satisfies r_requirement (target_r_version target))
  then Err (TargetOutsideRConstraint (RPackageVersion_fmt (target_r_version target))
              (r_requirement_text document))
  else
    let? roots := append_dependencies [] (dependencies document) in
    let? roots := try_fold (append_group document environment) roots group_ids in
    let? _ := validate_repository_package_allowlists roots (repositories document) in
    Ok (mk_ComposedEnvironment environment r_requirement (published_before document) target
          (repositories document) (bt_values roots) locked).

Definition compose_environment (document : ManifestDocument) (environment : string)
    (target : ResolutionTarget) : result ComposedEnvironment ManifestError :=
  compose_environment_with_locked document environment target [].

Definition root_requirement_of (root : ComposedRootIntent) : result RootRequirement ManifestError :=
  let? source :=
    match intent_source root with
    | ManifestRegistry None => Ok SourceAny
    | ManifestRegistry (Some repository) => Ok (SourceRepository repository)
    | _ => Err (DirectSourceRequiresAcquisition (intent_name root))
    end in
  let? package := map_err (λ error, InvalidDependency (PackageRequirementError_fmt error))
    (PackageRequirement_new (intent_name root) source (intent_constraint root)) in
  Ok (mk_RootRequirement package (intent_expansion root)).

Definition ComposedEnvironment_into_resolution_request (self : ComposedEnvironment) :
    result ResolutionRequest ManifestError :=
  let? roots := try_map root_requirement_of (composed_roots self) in
  Ok (with_optional_publication_cutoff
        (ResolutionRequest_new roots (composed_target self) (composed_r_requirement self)
           (composed_locked self))
        (mk_PublicationCutoff <$> composed_published_before self)).

Definition environment_fields (self : ComposedEnvironment) : list (list byte) :=
  [bytes "schema"; bytes "1"; bytes "environment";
   bytes (EnvironmentId_as_str (composed_environment self)); bytes "r"]
  ++ constraint_fields (composed_r_requirement self)
  ++ [bytes "published-before";
      bytes (from_option PublicationDate_as_str "" (composed_published_before self))]
  ++ mjoin (repository_intent_fields <$> composed_repositories self)
  ++ mjoin (root_intent_fields <$> composed_roots self).

Definition intent_payload (self : ComposedEnvironment) : list byte :=
  foldl append_field [] (environment_fields self).

Definition resolution_intent_digest `{Sha2} (self : ComposedEnvironment) :
    result Sha256Digest ManifestError :=
  let payload := intent_payload self in
  map_err (λ error, InvalidField "resolution intent" (DigestError_fmt error))
    (Sha256Digest_new
       (hex_encode (sha256_digest
          (RESOLUTION_INTENT_DOMAIN ++ u64_to_be_bytes (len_u64 payload) ++ payload)))).
End compose.
