(* ===== verification/Lock.v ===== *)
(** * Lock files ([rsolve/src/lock.rs])

    The logical lock: locked packages and their edges, the order of identities,
    construction from a resolution, normalisation and validation. *)

From S2P Require Import Prelude RustStd Collections Externals Text Format Versions Names Publication.
From S2P Require Import Identity Constraints Metadata Request Resolution Manifest Locators ManifestWire Compose.

(** ** Errors *)

Inductive LockError :=
| LockConflictingMetadata (identity : string)
| InvalidPublishedVersionSpelling (identity : string)
| LockRBasePackage (identity : string)
| DanglingDependency (package dependency : string)
| InstalledNameConflict (name first_identity second_identity : string)
| TargetMismatch
| EnvironmentMismatch (expected found : string)
| LockManifest (error : ManifestError)
| NonCanonical
| RRequirementMismatch
| DirectRootMissing (name : string)
| DirectRootVersionMismatch (name : string)
| UnreachablePackage (package : string)
| DuplicateVisibleRepository (package repository : string)
| UnknownVisibleRepository (package repository : string)
| RootRepositoryNotVisible (name repository : string)
| VisibleRepositoryPackageNotAllowed (package repository : string)
| NoVisibleRepository (package : string)
| VisibleRepositoryOrderMismatch (package : string)
| PublicationCutoffMismatch (lock composed : option string)
| ResolutionIntentMismatch (lock composed : string)
| RRequirementIntentMismatch
| ExactIdentitySetMismatch (missing extra : list string).

Definition LockError_fmt `{UnicodeTables} (e : LockError) : string :=
  match e with
  | LockConflictingMetadata identity => "conflicting metadata for locked identity " +:+ identity
  | InvalidPublishedVersionSpelling identity =>
    "invalid published version spelling for " +:+ identity
  | LockRBasePackage identity => "R base package is not lockable: " +:+ identity
  | DanglingDependency package dependency =>
    "locked package " +:+ package +:+ " refers to unselected dependency " +:+ dependency
  | InstalledNameConflict name first_identity second_identity =>
    "installed package name " +:+ name +:+ " maps to distinct identities " +:+ first_identity
      +:+ " and " +:+ second_identity
  | TargetMismatch => "lock target does not match manifest target"
  | EnvironmentMismatch expected found =>
    "lock environment " +:+ expected +:+ " does not match requested environment " +:+ found
  | LockManifest error => "manifest composition failed: " +:+ ManifestError_fmt error
  | NonCanonical => "lock contents are not in canonical order"
  | RRequirementMismatch => "stored R requirement is not satisfied by the lock target"
  | DirectRootMissing name => "direct manifest root " +:+ name +:+ " is absent from the lock"
  | DirectRootVersionMismatch name =>
    "locked version for direct manifest root " +:+ name +:+ " does not satisfy manifest constraint"
  | UnreachablePackage package =>
    "locked package " +:+ package +:+ " is unreachable from manifest roots"
  | DuplicateVisibleRepository package repository =>
    "locked package " +:+ package +:+ " lists duplicate visible repository " +:+ repository
  | UnknownVisibleRepository package repository =>
    "locked package " +:+ package +:+ " references unknown configured repository " +:+ repository
  | RootRepositoryNotVisible name repository =>
    "locked root " +:+ name +:+ " is not visible from repository " +:+ repository
  | VisibleRepositoryPackageNotAllowed package repository =>
    "locked package " +:+ package +:+ " is excluded by repository " +:+ repository
  | NoVisibleRepository package =>
    "locked package " +:+ package +:+ " has no visible configured repository"
  | VisibleRepositoryOrderMismatch package =>
    "locked package " +:+ package +:+ " visible repositories are not in manifest order"
  | PublicationCutoffMismatch lock composed =>
    "lock publication cutoff " +:+ debug_option (debug_str <$> lock)
      +:+ " does not match composed environment cutoff " +:+ debug_option (debug_str <$> composed)
  | ResolutionIntentMismatch lock composed =>
    "lock resolution intent " +:+ lock +:+ " does not match composed environment intent " +:+ composed
  | RRequirementIntentMismatch => "lock R requirement does not match the composed environment"
  | ExactIdentitySetMismatch missing extra =>
    "exact lock identity set mismatch (missing: " +:+ debug_list (debug_str <$> missing)
      +:+ ", extra: " +:+ debug_list (debug_str <$> extra) +:+ ")"
  end.

(** ** The order of identities *)

Definition provenance_rank (p : Provenance) : N :=
  match p with
  | RBasePackage _ => 0
  | RegistryRelease _ _ => 1
  | GitCommit _ _ _ => 2
  | BioconductorReleaseOf _ _ _ => 3
  | ImmutableSource _ _ => 4
  end.

Definition cmp_optional_subdirectory : option RepositorySubdir → option RepositorySubdir → comparison :=
  cmp_on (fmap RepositorySubdir_as_str) (option_cmp str_cmp).

Definition same_kind_cmp (left right : Provenance) : comparison :=
  match left, right with
  | RBasePackage v, RBasePackage w => RPackageVersion_cmp v w
  | RegistryRelease n v, RegistryRelease m w =>
    then_with (Identifier_cmp n m) (RPackageVersion_cmp v w)
  | GitCommit r c s, GitCommit r' c' s' =>
    then_with (NormalizedGitUrl_cmp r r')
      (then_with (GitCommitId_cmp c c') (cmp_optional_subdirectory s s'))
  | BioconductorReleaseOf n r v, BioconductorReleaseOf m r' w =>
    then_with (Identifier_cmp n m) (then_with (Identifier_cmp r r') (RPackageVersion_cmp v w))
  | ImmutableSource s d, ImmutableSource s' d' =>
    then_with (Identifier_cmp s s') (Sha256Digest_cmp d d')
  | _, _ => Eq
  end.

Definition cmp_provenance (left right : Provenance) : comparison :=
  then_with (N.compare (provenance_rank left) (provenance_rank right)) (same_kind_cmp left right).

Definition cmp_identity (left right : ReleaseIdentity) : comparison :=
  then_with (PackageName_cmp (ReleaseIdentity_name left) (ReleaseIdentity_name right))
    (cmp_provenance (ReleaseIdentity_provenance left) (ReleaseIdentity_provenance right)).

(** The text of an identity in errors. *)
Definition identity_key (identity : ReleaseIdentity) : string :=
  PackageName_as_str (ReleaseIdentity_name identity) +:+
  match ReleaseIdentity_provenance identity with
  | RBasePackage r_version => ":r-base:" +:+ RPackageVersion_as_str r_version
  | RegistryRelease namespace version =>
    ":registry:" +:+ Identifier_as_str namespace +:+ "@" +:+ RPackageVersion_as_str version
  | GitCommit repository commit subdirectory =>
    ":git:" +:+ NormalizedGitUrl_as_str repository +:+ "@" +:+ GitCommitId_as_str commit +:+ ":"
      +:+ from_option RepositorySubdir_as_str "" subdirectory
  | BioconductorReleaseOf namespace release version =>
    ":bioconductor:" +:+ Identifier_as_str namespace +:+ ":" +:+ Identifier_as_str release +:+ "@"
      +:+ RPackageVersion_as_str version
  | ImmutableSource scheme digest =>
    ":immutable:" +:+ Identifier_as_str scheme +:+ "@" +:+ Sha256Digest_as_str digest
  end.

(** ** Locked packages *)

Inductive LockedGitSelector :=
| LockedDefaultBranch
| LockedBranch (value : string)
| LockedTag (value : string)
| LockedRev (value : string).
#[export] Instance LockedGitSelector_eq_dec : EqDecision LockedGitSelector.
Proof. solve_decision. Defined.
#[export] Instance req_LockedGitSelector : PartialEq LockedGitSelector := req_dec.
#[export] Instance req_LockedGitSelector_leibniz : LeibnizEq LockedGitSelector := req_dec_leibniz.

Record LockedGitSource := mk_LockedGitSource {
  git_url : NormalizedGitUrl;
  git_selector : LockedGitSelector;
  git_subdirectory : option RepositorySubdir;
  git_constraint : VersionConstraint;
}.
Definition LockedGitSource_eq (s t : LockedGitSource) : bool :=
  (git_url s =?= git_url t) && (git_selector s =?= git_selector t) &&
  (git_subdirectory s =?= git_subdirectory t) && (git_constraint s =?= git_constraint t).
#[export] Instance req_LockedGitSource : PartialEq LockedGitSource := LockedGitSource_eq.
#[export] Instance req_LockedGitSource_equivalence : RustEq LockedGitSource.
Proof. solve_rust_eq LockedGitSource_eq. Qed.

Record LockedDependencyEdge := mk_LockedDependencyEdge {
  locked_kind : EffectiveDependencyKind;
  locked_package : PackageName;
}.
#[export] Instance LockedDependencyEdge_eq_dec : EqDecision LockedDependencyEdge.
Proof. solve_decision. Defined.
#[export] Instance req_LockedDependencyEdge : PartialEq LockedDependencyEdge := req_dec.
#[export] Instance req_LockedDependencyEdge_leibniz : LeibnizEq LockedDependencyEdge :=
  req_dec_leibniz.

Record LockedPackage := mk_LockedPackage {
  locked_identity : ReleaseIdentity;
  locked_version : RPackageVersion;
  published_version_spelling : option string;
  locked_dependencies : list LockedDependencyEdge;
  locked_visible : list RepositoryId;
  locked_metadata_sha256 : Sha256Digest;
  requested_git_source : option LockedGitSource;
}.
Definition LockedPackage_eq (p q : LockedPackage) : bool :=
  (locked_identity p =?= locked_identity q) && (locked_version p =?= locked_version q) &&
  (published_version_spelling p =?= published_version_spelling q) &&
  (locked_dependencies p =?= locked_dependencies q) && (locked_visible p =?= locked_visible q) &&
  (locked_metadata_sha256 p =?= locked_metadata_sha256 q) &&
  (requested_git_source p =?= requested_git_source q).
#[export] Instance req_LockedPackage : PartialEq LockedPackage := LockedPackage_eq.
#[export] Instance req_LockedPackage_equivalence : RustEq LockedPackage.
Proof. solve_rust_eq LockedPackage_eq. Qed.

Definition locked_name (p : LockedPackage) : PackageName := ReleaseIdentity_name (locked_identity p).
Definition locked_text (p : LockedPackage) : string := PackageName_as_str (locked_name p).

(** ** Edges and versions *)

Definition dependency_kind_rank (kind : EffectiveDependencyKind) : N :=
  match kind with
  | EffectiveDepends => 0 | EffectiveImports => 1 | EffectiveLinkingTo => 2 | PromotedSuggests => 3
  end.

Definition dependency_edge_cmp : LockedDependencyEdge → LockedDependencyEdge → comparison :=
  cmp_then (cmp_on locked_package PackageName_cmp)
    (cmp_on (λ e, dependency_kind_rank (locked_kind e)) N.compare).

Definition canonicalize_dependency_edges (edges : list LockedDependencyEdge) :
    list LockedDependencyEdge :=
  dedup_by (λ x y, bool_decide (x = y)) (sort_by dependency_edge_cmp edges).

(** The loop that pops zeros while there are more than two components; the list
    is reversed. *)
Fixpoint pop_zeros (l : list N) : list N :=
  match l with
  | x :: rest => if Nat.ltb 2 (length l) && N.eqb x 0 then pop_zeros rest else l
  | [] => []
  end.

Definition canonical_version (version : RPackageVersion) : string :=
  str_join "." (N_to_string <$> rev (pop_zeros (rev (RPackageVersion_components version)))).

Definition published_text (identity : ReleaseIdentity) (version : RPackageVersion) : string :=
  match ReleaseIdentity_provenance identity with
  | RegistryRelease _ version | BioconductorReleaseOf _ _ version => RPackageVersion_as_str version
  | _ => RPackageVersion_as_str version
  end.

(** Edges other than those to R. *)
Definition locked_edges (edges : list ResolvedDependencyEdge) : list LockedDependencyEdge :=
  (λ e, mk_LockedDependencyEdge (edge_kind e) (requirement_name (edge_package e))) <$>
    List.filter (λ e, negb (PackageName_is "R" (requirement_name (edge_package e)))) edges.

Definition LockedPackage_from_resolved `{CivilDate} (selected : ResolvedPackage) : LockedPackage :=
  let identity := resolved_identity selected in
  let version := resolved_version selected in
  let canonical := canonical_version version in
  let published := published_text identity version in
  mk_LockedPackage identity version
    (if bool_decide (published ≠ canonical) then Some published else None)
    (canonicalize_dependency_edges (locked_edges (effective_dependencies selected)))
    (visible_repository_ids selected) (release_metadata_digest (resolved_release selected)) None.

(** ** Validation of one package *)

Definition git_source_matches (provenance : Provenance) (source : LockedGitSource) : bool :=
  match provenance with
  | GitCommit repository _ subdirectory =>
    (repository =?= git_url source) && (subdirectory =?= git_subdirectory source)
  | _ => false
  end.

(** A full object id as revision has to be the locked commit. *)
Definition revision_conflicts (provenance : Provenance) (selector : LockedGitSelector) : bool :=
  match selector with
  | LockedRev value =>
    match GitCommitId_new value with
    | Ok requested => negb match provenance with
                           | GitCommit _ commit _ => commit =?= requested
                           | _ => false
                           end
    | Err _ => false
    end
  | _ => false
  end.

Definition provenance_version_differs (provenance : Provenance) (version : RPackageVersion) : bool :=
  match provenance with
  | RegistryRelease _ v | BioconductorReleaseOf _ _ v => negb (v =?= version)
  | _ => false
  end.

Definition LockedPackage_validate (self : LockedPackage) : result unit LockError :=
  let key := identity_key (locked_identity self) in
  let provenance := ReleaseIdentity_provenance (locked_identity self) in
  if Provenance_is_r_base_package provenance then Err (LockRBasePackage key)
  else if provenance_version_differs provenance (locked_version self)
  then Err (LockConflictingMetadata key)
  else
    let? _ :=
      match requested_git_source self with
      | Some source =>
        if negb (git_source_matches provenance source)
           || negb (VersionConstraint_satisfies (git_constraint source) (locked_version self))
        then Err (LockConflictingMetadata key)
        else if revision_conflicts provenance (git_selector source)
        then Err (LockConflictingMetadata key)
        else Ok tt
      | None => Ok tt
      end in
    match published_version_spelling self with
    | Some spelling =>
      let? parsed := map_err (λ _, InvalidPublishedVersionSpelling key) (RPackageVersion_parse spelling) in
      if negb (parsed =?= locked_version self)
         || bool_decide (spelling = canonical_version (locked_version self))
      then Err (InvalidPublishedVersionSpelling key)
      else Ok tt
    | None => Ok tt
    end.

(** The loop over the visible repositories; [seen] are those met so far. *)
Fixpoint check_visible (package : LockedPackage) (seen l : list RepositoryId) : result unit LockError :=
  match l with
  | [] => Ok tt
  | repository :: l =>
    if bool_decide (repository ∈ seen)
    then Err (DuplicateVisibleRepository (locked_text package) (Identifier_as_str repository))
    else check_visible package (repository :: seen) l
  end.

Definition validate_visible_repository_ids (package : LockedPackage) : result unit LockError :=
  check_visible package [] (locked_visible package).

(** ** Validation of the package list *)

(** The map from names to identities; the value replaced is looked at. *)
Fixpoint check_names (identities : list (PackageName * ReleaseIdentity)) (l : list LockedPackage) :
    result unit LockError :=
  match l with
  | [] => Ok tt
  | package :: l =>
    let name := locked_name package in
    let next := bt_insert PackageName_cmp name (locked_identity package) identities in
    match bt_get PackageName_cmp name identities with
    | Some previous =>
      if negb (previous =?= locked_identity package)
      then Err (InstalledNameConflict (PackageName_as_str name) (identity_key previous)
                  (identity_key (locked_identity package)))
      else check_names next l
    | None => check_names next l
    end
  end.

Definition ensure_installed_names (packages : list LockedPackage) : result unit LockError :=
  check_names [] packages.

Definition check_edge (selected : list PackageName) (package : LockedPackage)
    (dependency : LockedDependencyEdge) : result unit LockError :=
  if bool_decide (locked_package dependency ∈ selected) then Ok tt
  else Err (DanglingDependency (locked_text package) (PackageName_as_str (locked_package dependency))).

Definition ensure_dependencies_exist (packages : list LockedPackage) : result unit LockError :=
  let selected := locked_name <$> packages in
  let? _ := try_map (λ package, try_map (check_edge selected package) (locked_dependencies package))
              packages in
  Ok tt.

Definition locked_cmp : LockedPackage → LockedPackage → comparison := cmp_on locked_identity cmp_identity.

(** The loop that drops repeated records; [unique] is the vector so far. *)
Definition unique_step (unique : list LockedPackage) (package : LockedPackage) :
    result (list LockedPackage) LockError :=
  match last unique with
  | Some previous =>
    if locked_identity previous =?= locked_identity package then
      if negb (previous =?= package)
      then Err (LockConflictingMetadata (identity_key (locked_identity package)))
      else Ok unique
    else Ok (unique ++ [package])
  | None => Ok (unique ++ [package])
  end.

Definition unique_packages (packages : list LockedPackage) : result (list LockedPackage) LockError :=
  try_fold unique_step [] packages.

(** ** The lock *)

Section lock.
Context `{CivilDate}.

Record LockedResolution := mk_LockedResolution {
  locked_target : ResolutionTarget;
  locked_environment : EnvironmentId;
  locked_cutoff : option PublicationDate;
  locked_packages : list LockedPackage;
}.

Record Lockfile := mk_Lockfile {
  resolution_intent_sha256 : Sha256Digest;
  lock_r_requirement : VersionConstraint;
  lock_resolution : LockedResolution;
}.

Definition with_packages (r : LockedResolution) (packages : list LockedPackage) : LockedResolution :=
  mk_LockedResolution (locked_target r) (locked_environment r) (locked_cutoff r) packages.

Definition canonical_lock_basename (environment : EnvironmentId) : string :=
  if bool_decide (EnvironmentId_as_str environment = "default") then "rsolve.lock"
  else "rsolve." +:+ EnvironmentId_as_str environment +:+ ".lock".

(** One turn of the normalisation loop. *)
Definition normalize_package (package : LockedPackage) : result LockedPackage LockError :=
  let? _ := LockedPackage_validate package in
  let package := mk_LockedPackage (locked_identity package) (locked_version package)
    (published_version_spelling package) (canonicalize_dependency_edges (locked_dependencies package))
    (locked_visible package) (locked_metadata_sha256 package) (requested_git_source package) in
  let? _ := validate_visible_repository_ids package in
  Ok package.

Definition normalize_contents (self : Lockfile) : result Lockfile LockError :=
  let? packages := try_map normalize_package (locked_packages (lock_resolution self)) in
  let? packages := unique_packages (sort_by locked_cmp packages) in
  let? _ := ensure_installed_names packages in
  let? _ := ensure_dependencies_exist packages in
  Ok (mk_Lockfile (resolution_intent_sha256 self) (lock_r_requirement self)
        (with_packages (lock_resolution self) packages)).

Definition conflicting_pair (pair : LockedPackage * LockedPackage) : bool :=
  (locked_identity pair.1 =?= locked_identity pair.2) && negb (pair.1 =?= pair.2).

Definition validate_contents (self : Lockfile) : result unit LockError :=
  let resolution := lock_resolution self in
  if negb (VersionConstraint_satisfies (lock_r_requirement self)
             (target_r_version (locked_target resolution)))
  then Err RRequirementMismatch
  else
    let packages := sort_by locked_cmp (locked_packages resolution) in
    let? _ := try_map (λ package,
      let? _ := LockedPackage_validate package in validate_visible_repository_ids package) packages in
    match List.find conflicting_pair (windows2 packages) with
    | Some window => Err (LockConflictingMetadata (identity_key (locked_identity window.1)))
    | None =>
      let? _ := ensure_installed_names packages in
      ensure_dependencies_exist packages
    end.

Definition Lockfile_validate (self : Lockfile) : result unit LockError := validate_contents self.

Definition Lockfile_new (intent : Sha256Digest) (r_requirement : VersionConstraint)
    (resolution : LockedResolution) : result Lockfile LockError :=
  let? lock := normalize_contents
                 (mk_Lockfile intent (canonicalize_constraint r_requirement) resolution) in
  let? _ := validate_contents lock in
  Ok lock.

(** [retain]: the edges to selected packages. *)
Definition retain_selected (selected : list PackageName) (package : LockedPackage) : LockedPackage :=
  mk_LockedPackage (locked_identity package) (locked_version package)
    (published_version_spelling package)
    (List.filter (λ dependency, bool_decide (locked_package dependency ∈ selected))
       (locked_dependencies package))
    (locked_visible package) (locked_metadata_sha256 package) (requested_git_source package).

Definition from_resolution_with_applicability (resolution : Resolution) (environment : EnvironmentId)
    (publication_cutoff : option PublicationDate) (intent : Sha256Digest)
    (r_requirement : VersionConstraint) : result Lockfile LockError :=
  let selected_names := resolved_name <$> resolution_packages resolution in
  let packages := (λ selected, retain_selected selected_names (LockedPackage_from_resolved selected))
                    <$> resolution_packages resolution in
  let? _ := try_map LockedPackage_validate packages in
  let? unique := unique_packages (sort_by locked_cmp packages) in
  Lockfile_new intent (canonicalize_constraint r_requirement)
    (mk_LockedResolution (resolution_target resolution) environment publication_cutoff unique).

(** ** Canonical order *)

Definition validate_canonical_resolution (resolution : LockedResolution) : result unit LockError :=
  let packages := locked_packages resolution in
  if negb (sort_by locked_cmp packages =?= packages) then Err NonCanonical
  else if existsb (λ pair : LockedPackage * LockedPackage,
                     locked_identity pair.1 =?= locked_identity pair.2) (windows2 packages)
  then Err NonCanonical
  else if existsb (λ package, existsb (λ pair, negb (is_lt (dependency_edge_cmp pair.1 pair.2)))
                                (windows2 (locked_dependencies package))) packages
  then Err NonCanonical
  else Ok tt.
End lock.
