(* ===== verification/LockConsume.v ===== *)
(** * Using lock files ([rsolve/src/lock.rs])

    What a lock is consumed as: the identities given to the solver, a request,
    and the immutable graph checked against a manifest or an environment. *)

From S2P Require Import Prelude RustStd Collections Externals Text Format Versions Names GitUrl Publication.
From S2P Require Import Identity Constraints Metadata Request Resolution Policy Manifest Locators ManifestWire.
From S2P Require Import Compose Lock.

(** ** The solver keys of an identity *)

Definition provenance_keys (identity : ReleaseIdentity) : list SolverKey :=
  let name := ReleaseIdentity_name identity in
  match ReleaseIdentity_provenance identity with
  | RegistryRelease namespace _ => [KeyRegistry namespace name; KeyExact identity]
  | BioconductorReleaseOf namespace release _ =>
    [KeyBioconductor namespace release name; KeyExact identity]
  | GitCommit _ _ _ | ImmutableSource _ _ => [KeyExact identity]
  | RBasePackage _ => []
  end.

Definition identity_solver_keys (identity : ReleaseIdentity) (visible : list RepositoryId) :
    list SolverKey :=
  let name := ReleaseIdentity_name identity in
  KeyInstalledName name :: ((λ repository, KeyRepository repository name) <$> visible)
    ++ provenance_keys identity.

Definition insert_identity (identities : LockedIdentities) (entry : SolverKey * ReleaseIdentity) :
    result LockedIdentities LockError :=
  match hm_get entry.1 identities with
  | Some previous =>
    if negb (previous =?= entry.2) then Err (LockConflictingMetadata (identity_key entry.2))
    else Ok (hm_insert entry.1 entry.2 identities)
  | None => Ok (hm_insert entry.1 entry.2 identities)
  end.

(** The keys of one package, each with its identity. *)
Definition package_entries (package : LockedPackage) : list (SolverKey * ReleaseIdentity) :=
  (λ key, (key, locked_identity package))
    <$> identity_solver_keys (locked_identity package) (locked_visible package).

(** ** Reachability *)

Definition is_r_base_name (name : PackageName) : bool :=
  PackageName_is "R" name || is_r_base_package_name name.

Notation PackageMap := (list (PackageName * LockedPackage)) (only parsing).

Definition packages_by_name (packages : list LockedPackage) : PackageMap :=
  bt_from_iter PackageName_cmp ((λ package, (locked_name package, package)) <$> packages).

(** The recursion; [reachable] is the set so far.  It ends because every call
    that goes on adds a name: [fuel] is more than the number of packages. *)
Fixpoint mark_reachable (fuel : nat) (by_name : PackageMap) (reachable : list PackageName)
    (package : LockedPackage) : result (list PackageName) LockError :=
  if bool_decide (locked_name package ∈ reachable) then Ok reachable
  else match fuel with
  | 0 => Ok reachable
  | S fuel =>
    try_fold (λ reachable dependency,
      match bt_get PackageName_cmp (locked_package dependency) by_name with
      | Some dependency_package => mark_reachable fuel by_name reachable dependency_package
      | None => Err (DanglingDependency (locked_text package)
                       (PackageName_as_str (locked_package dependency)))
      end) (locked_name package :: reachable) (locked_dependencies package)
  end.

(** ** Root checks *)

Record RootCheck := mk_RootCheck {
  check_name : PackageName;
  check_constraint : VersionConstraint;
  check_repository : option RepositoryId;
  runtime_provided : bool;
  direct_source : bool;
}.

(** One root; [reachable] is the set so far. *)
Definition consume_root (r_version : RPackageVersion) (fuel : nat) (by_name : PackageMap)
    (reachable : list PackageName) (root : RootCheck) : result (list PackageName) LockError :=
  let name := check_name root in
  if runtime_provided root && is_r_base_name name then
    if VersionConstraint_satisfies (check_constraint root) r_version then Ok reachable
    else Err (DirectRootVersionMismatch (PackageName_as_str name))
  else
    let? package := ok_or (DirectRootMissing (PackageName_as_str name))
                      (bt_get PackageName_cmp name by_name) in
    if negb (VersionConstraint_satisfies (check_constraint root) (locked_version package))
    then Err (DirectRootVersionMismatch (PackageName_as_str name))
    else
      let? _ :=
        match check_repository root with
        | Some repository =>
          if bool_decide (repository ∈ locked_visible package) then Ok tt
          else Err (RootRepositoryNotVisible (PackageName_as_str name) (Identifier_as_str repository))
        | None => Ok tt
        end in
      mark_reachable fuel by_name reachable package.

Definition check_configured (ids : list RepositoryId) (package : LockedPackage)
    (repository : RepositoryId) : result unit LockError :=
  if bool_decide (repository ∈ ids) then Ok tt
  else Err (UnknownVisibleRepository (locked_text package) (Identifier_as_str repository)).

(** The [expect] is not reached: the ids were checked. *)
Definition check_allowed (configured : list RepositorySpec) (package : LockedPackage)
    (repository : RepositoryId) : result unit LockError :=
  match List.find (λ candidate, bool_decide (spec_id candidate = repository)) configured with
  | Some spec =>
    if package_allowed spec (locked_name package) then Ok tt
    else Err (VisibleRepositoryPackageNotAllowed (locked_text package) (Identifier_as_str repository))
  | None => Ok tt
  end.

(** The ranks of the repositories; [0] stands for the panic of a missing key. *)
Definition configured_ranks (configured : list RepositorySpec) : list (RepositoryId * nat) :=
  bt_from_iter Identifier_cmp (zip (spec_id <$> configured) (seq 0 (length configured))).

Fixpoint check_order (ranks : list (RepositoryId * nat)) (package : LockedPackage)
    (previous : option nat) (l : list RepositoryId) : result unit LockError :=
  match l with
  | [] => Ok tt
  | repository :: l =>
    let rank := default 0 (bt_get Identifier_cmp repository ranks) in
    if match previous with Some previous => Nat.leb rank previous | None => false end
    then Err (VisibleRepositoryOrderMismatch (locked_text package))
    else check_order ranks package (Some rank) l
  end.

Definition check_package_visibility (configured : list RepositorySpec) (package : LockedPackage) :
    result unit LockError :=
  let? _ := try_map (check_configured (spec_id <$> configured) package) (locked_visible package) in
  let? _ := try_map (check_allowed configured package) (locked_visible package) in
  check_order (configured_ranks configured) package None (locked_visible package).

Definition visible_somewhere (configured : list RepositorySpec) (package : LockedPackage) : bool :=
  existsb (λ visible, existsb (λ repository,
    bool_decide (spec_id repository = visible) && package_allowed repository (locked_name package))
    configured) (locked_visible package).

Definition check_reached (roots : list RootCheck) (configured : option (list RepositorySpec))
    (reachable : list PackageName) (package : LockedPackage) : result unit LockError :=
  if negb (bool_decide (locked_name package ∈ reachable))
  then Err (UnreachablePackage (locked_text package))
  else
    let direct_source_root :=
      existsb (λ root, direct_source root && bool_decide (check_name root = locked_name package)) roots in
    match configured with
    | Some repositories =>
      if negb direct_source_root && negb (visible_somewhere repositories package)
      then Err (NoVisibleRepository (locked_text package))
      else Ok tt
    | None => Ok tt
    end.

Section lock.
Context `{CivilDate}.

(** ** Identities and requests *)

Definition locked_identities (self : Lockfile) : result LockedIdentities LockError :=
  let? _ := Lockfile_validate self in
  try_fold insert_identity [] (mjoin (package_entries <$> locked_packages (lock_resolution self))).

Definition environment_mismatch {T} (expected found : EnvironmentId) : result T LockError :=
  Err (EnvironmentMismatch (EnvironmentId_as_str expected) (EnvironmentId_as_str found)).

Definition resolution_request (self : Lockfile) (manifest : Manifest) (environment : EnvironmentId) :
    result ResolutionRequest LockError :=
  let? _ := Lockfile_validate self in
  let resolution := lock_resolution self in
  let lock_target := locked_target resolution in
  if negb (bool_decide (locked_environment resolution = environment))
  then environment_mismatch (locked_environment resolution) environment
  else
    let? request := map_err LockManifest (into_resolution_request manifest) in
    if negb (target_r_version (target request) =?= target_r_version lock_target) then Err TargetMismatch
    else if negb (VersionConstraint_satisfies (r_requirement request) (target_r_version lock_target))
    then Err RRequirementMismatch
    else if negb (r_requirement request =?= lock_r_requirement self)
    then Err RRequirementIntentMismatch
    else
      let? identities := locked_identities self in
      Ok (with_optional_publication_cutoff
            (ResolutionRequest_new (roots request) (target request) (r_requirement request) identities)
            (mk_PublicationCutoff <$> locked_cutoff resolution)).

(** ** The consumed graph *)

Record ConsumedLockedGraph := mk_ConsumedLockedGraph {
  graph_target : ResolutionTarget;
  graph_environment : EnvironmentId;
  graph_cutoff : option PublicationDate;
  graph_packages : list LockedPackage;
}.

Definition consume_roots (self : Lockfile) (lock_target : ResolutionTarget)
    (environment : EnvironmentId) (r_requirement : VersionConstraint) (roots : list RootCheck)
    (configured : option (list RepositorySpec)) : result ConsumedLockedGraph LockError :=
  let? _ := Lockfile_validate self in
  let resolution := lock_resolution self in
  let packages := locked_packages resolution in
  let r_version := target_r_version (locked_target resolution) in
  let? _ := validate_canonical_resolution resolution in
  if negb (r_version =?= target_r_version lock_target) then Err TargetMismatch
  else if negb (bool_decide (locked_environment resolution = environment))
  then environment_mismatch (locked_environment resolution) environment
  else if negb (VersionConstraint_satisfies r_requirement r_version) then Err RRequirementMismatch
  else
    let? _ := match configured with
              | Some configured => try_map (check_package_visibility configured) packages
              | None => Ok []
              end in
    let? reachable := try_fold (consume_root r_version (S (length packages)) (packages_by_name packages))
                        [] roots in
    let? _ := try_map (check_reached roots configured reachable) packages in
    Ok (mk_ConsumedLockedGraph (locked_target resolution) (locked_environment resolution)
          (locked_cutoff resolution) packages).

Definition request_check (root : RootRequirement) : RootCheck :=
  mk_RootCheck (requirement_name (root_package root)) (requirement_constraint (root_package root))
    match requirement_source (root_package root) with
    | SourceRepository repository => Some repository
    | _ => None
    end
    match requirement_source (root_package root) with SourceAny => true | _ => false end
    match requirement_source (root_package root) with SourceGit _ => true | _ => false end.

Definition consume_locked_graph (self : Lockfile) (manifest : Manifest) (environment : EnvironmentId) :
    result ConsumedLockedGraph LockError :=
  let? request := resolution_request self manifest environment in
  consume_roots self (target request) environment (manifest_r_requirement manifest)
    (request_check <$> roots request) None.

(** ** Composed environments *)

Definition locked_git_selector (selector : GitSelector) : LockedGitSelector :=
  match selector with
  | DefaultBranch => LockedDefaultBranch
  | SelectBranch value => LockedBranch value
  | SelectTag value => LockedTag value
  | SelectRev value => LockedRev value
  end.

Definition root_subdirectory (root : ComposedRootIntent) (subdirectory : option string) :
    result (option RepositorySubdir) LockError :=
  match subdirectory with
  | Some value =>
    result_map Some
      (map_err (λ error, LockManifest (InvalidDependencyField (PackageName_as_str (intent_name root))
                                         (RepositorySubdirError_fmt error)))
         (RepositorySubdir_new value))
  | None => Ok None
  end.

Definition intent_check (root : ComposedRootIntent) : RootCheck :=
  mk_RootCheck (intent_name root) (intent_constraint root)
    match intent_source root with ManifestRegistry repository => repository | _ => None end
    match intent_source root with ManifestRegistry None => true | _ => false end
    match intent_source root with ManifestRegistry _ => false | _ => true end.

Section digests.
Context `{Sha2}.

(** The check of one Git root against what the lock says was requested. *)
Definition check_git_root (self : Lockfile) (intent : Sha256Digest) (root : ComposedRootIntent) :
    result unit LockError :=
  match intent_source root with
  | ManifestGit url selector subdirectory =>
    match List.find (λ package, bool_decide (locked_name package = intent_name root))
            (locked_packages (lock_resolution self)) with
    | None => Ok tt
    | Some package =>
      let? requested := ok_or (DirectRootMissing (PackageName_as_str (intent_name root)))
                          (requested_git_source package) in
      let? expected_subdirectory := root_subdirectory root subdirectory in
      if negb (bool_decide (git_url requested = url))
         || negb (bool_decide (git_selector requested = locked_git_selector selector))
         || negb (bool_decide (git_subdirectory requested = expected_subdirectory))
      then Err (ResolutionIntentMismatch (Sha256Digest_as_str (resolution_intent_sha256 self))
                  (Sha256Digest_as_str intent))
      else if negb (canonicalize_constraint (git_constraint requested)
                    =?= canonicalize_constraint (intent_constraint root))
      then Err (DirectRootVersionMismatch (PackageName_as_str (intent_name root)))
      else Ok tt
    end
  | _ => Ok tt
  end.

Definition consume_composed_environment (self : Lockfile) (composed : ComposedEnvironment) :
    result ConsumedLockedGraph LockError :=
  let? _ := Lockfile_validate self in
  let resolution := lock_resolution self in
  let r_version := target_r_version (composed_target composed) in
  if negb (target_r_version (locked_target resolution) =?= r_version) then Err TargetMismatch
  else if negb (bool_decide (locked_environment resolution = composed_environment composed))
  then environment_mismatch (locked_environment resolution) (composed_environment composed)
  else if negb (VersionConstraint_satisfies (lock_r_requirement self) r_version)
  then Err RRequirementMismatch
  else if negb (lock_r_requirement self =?= composed_r_requirement composed)
  then Err RRequirementIntentMismatch
  else if negb (bool_decide (locked_cutoff resolution = composed_published_before composed))
  then Err (PublicationCutoffMismatch (PublicationDate_as_str <$> locked_cutoff resolution)
              (PublicationDate_as_str <$> composed_published_before composed))
  else
    let? intent := map_err LockManifest (resolution_intent_digest composed) in
    if negb (bool_decide (resolution_intent_sha256 self = intent))
    then Err (ResolutionIntentMismatch (Sha256Digest_as_str (resolution_intent_sha256 self))
                (Sha256Digest_as_str intent))
    else
      let? _ := try_map (check_git_root self intent) (composed_roots composed) in
      consume_roots self (composed_target composed) (composed_environment composed)
        (composed_r_requirement composed) (intent_check <$> composed_roots composed)
        (Some (composed_repositories composed)).

(** The turn of the loop for one package: what was requested of a Git root. *)
Definition attach_git_source (roots : list ComposedRootIntent) (package : LockedPackage) :
    result LockedPackage LockError :=
  match List.find (λ root, bool_decide (intent_name root = locked_name package)) roots with
  | Some root =>
    match intent_source root with
    | ManifestGit url selector subdirectory =>
      let conflict := LockConflictingMetadata (identity_key (locked_identity package)) in
      match ReleaseIdentity_provenance (locked_identity package) with
      | GitCommit repository _ identity_subdir =>
        let? subdirectory := root_subdirectory root subdirectory in
        if negb (bool_decide (repository = url)) || negb (bool_decide (identity_subdir = subdirectory))
        then Err conflict
        else Ok (mk_LockedPackage (locked_identity package) (locked_version package)
                   (published_version_spelling package) (locked_dependencies package)
                   (locked_visible package) (locked_metadata_sha256 package)
                   (Some (mk_LockedGitSource url (locked_git_selector selector) subdirectory
                            (canonicalize_constraint (intent_constraint root)))))
      | _ => Err conflict
      end
    | _ => Ok package
    end
  | None => Ok package
  end.

Definition from_resolution_with_composed_environment (resolution : Resolution)
    (composed : ComposedEnvironment) : result Lockfile LockError :=
  if negb (target_r_version (resolution_target resolution)
           =?= target_r_version (composed_target composed)) then Err TargetMismatch
  else
    let? intent := map_err LockManifest (resolution_intent_digest composed) in
    let? lock := from_resolution_with_applicability resolution (composed_environment composed)
                   (composed_published_before composed) intent (composed_r_requirement composed) in
    let? packages := try_map (attach_git_source (composed_roots composed))
                       (locked_packages (lock_resolution lock)) in
    let lock := mk_Lockfile (resolution_intent_sha256 lock) (lock_r_requirement lock)
                  (with_packages (lock_resolution lock) packages) in
    let? _ := consume_composed_environment lock composed in
    Ok lock.
End digests.

(** The applicability facts of the package command. *)
Definition legacy_composed_environment `{Urls} (manifest : Manifest) (mirror : string)
    (publication_cutoff : option PublicationDate) : result ComposedEnvironment LockError :=
  let? endpoint := map_err LockManifest (Endpoint_parse mirror) in
  let? repository := map_err LockManifest (RepositorySpec_new (mk_Identifier "cran") Cran endpoint) in
  Ok (mk_ComposedEnvironment (mk_EnvironmentId "default") (manifest_r_requirement manifest)
        publication_cutoff (mk_ResolutionTarget (manifest_r_version (manifest_target manifest)))
        [repository]
        ((λ requirement, mk_ComposedRootIntent (dependency_name requirement)
            (dependency_constraint requirement) (ManifestRegistry None) HardOnly)
           <$> manifest_requirements manifest) []).
End lock.
