(* ===== verification/LockWire.v ===== *)
(** * The lock's text ([rsolve/src/wire.rs])

    The records of the TOML document, their decoding and encoding, and the text
    that is written. *)

From S2P Require Import Prelude RustStd Collections Externals Text Format Versions Names GitUrl Publication.
From S2P Require Import Identity Constraints Request Manifest Locators ManifestWire Compose Lock.

Definition SCHEMA_VERSION : N := 1.
Definition NEWLINE : string := from_utf8 [byte_of 10].
Definition GENERATED_HEADER : string :=
  "# This file is automatically @generated by rsolve." +:+ NEWLINE
    +:+ "# It is not intended for manual editing." +:+ NEWLINE +:+ NEWLINE.

Inductive LockWireError :=
| WireParse (message : string)
| WireSerialize (message : string)
| UnsupportedSchema (version : N)
| InvalidIdentity (identity : string)
| NonCanonicalVersion (field value : string)
| InvalidLockField (field message : string)
| WireDomain (error : LockError).

Definition LockWireError_fmt `{UnicodeTables} (e : LockWireError) : string :=
  match e with
  | WireParse message => "lock TOML parse failed: " +:+ message
  | WireSerialize message => "lock TOML serialization failed: " +:+ message
  | UnsupportedSchema version => "unsupported lock schema version " +:+ N_to_string version
  | InvalidIdentity identity => "invalid lock identity " +:+ identity
  | NonCanonicalVersion field value => "non-canonical version in " +:+ field +:+ ": " +:+ value
  | InvalidLockField field message => "invalid lock field " +:+ field +:+ ": " +:+ message
  | WireDomain error => LockError_fmt error
  end.

(** ** The records *)

Record WireRequestedGitSource := mk_WireRequestedGitSource {
  wire_url : string;
  wire_selector : string;
  wire_selector_value : option string;
  wire_git_subdirectory : option string;
  wire_version_constraint : string;
}.

Record WireDependency := mk_WireDependency { wire_kind : string; wire_package : string }.

Inductive WireSource :=
| WireRegistry (namespace : string)
| WireBioconductor (namespace release : string)
| WireGit (repository commit : string) (subdirectory : option string)
| WireImmutable (scheme digest : string).

Record WirePackage := mk_WirePackage {
  wire_name : string;
  wire_package_version : string;
  wire_source : WireSource;
  wire_metadata_sha256 : string;
  wire_dependencies : list WireDependency;
  wire_visible_repository_ids : list string;
  wire_requested_git_source : option WireRequestedGitSource;
}.

Record WireLockfile := mk_WireLockfile {
  wire_version : N;
  wire_r_version : string;
  wire_resolution_intent_sha256 : string;
  wire_r_requirement : string;
  wire_environment : string;
  wire_publication_cutoff : option string;
  wire_packages : list WirePackage;
}.

(** ** Versions and constraints *)

Definition wire_canonical_version (version : RPackageVersion) : string :=
  str_join "." (N_to_string <$> rev (pop_zeros (rev (RPackageVersion_components version)))).

Definition r_requirement_relation_rank (op : RelationOp) : N :=
  match op with OpLt => 0 | OpLe => 1 | OpEq => 2 | OpNe => 3 | OpGe => 4 | OpGt => 5 end.

Definition r_requirement_relation_tag (op : RelationOp) : string :=
  match op with
  | OpLt => "<" | OpLe => "<=" | OpEq => "=" | OpNe => "!=" | OpGe => ">=" | OpGt => ">"
  end.

Definition wire_clause_cmp : VersionClause → VersionClause → comparison :=
  cmp_then (cmp_on (λ c, r_requirement_relation_rank (clause_op c)) N.compare)
    (cmp_then (cmp_on clause_version RPackageVersion_cmp)
       (cmp_on (λ c, RPackageVersion_as_str (clause_version c)) str_cmp)).

Definition clause_text (clause : VersionClause) : string :=
  r_requirement_relation_tag (clause_op clause) +:+ wire_canonical_version (clause_version clause).

Definition canonical_r_requirement (constraint : VersionConstraint) : string :=
  match clauses constraint with
  | [] => "*"
  | l => str_join "," (clause_text <$> dedup_by same_clause (sort_by wire_clause_cmp l))
  end.

Definition wire_parse_version (field value : string) : result RPackageVersion LockWireError :=
  map_err (λ error, InvalidLockField field (RPackageVersionError_fmt error)) (RPackageVersion_parse value).

Definition parse_canonical_r_version_field (field value : string) :
    result RPackageVersion LockWireError :=
  let? version := map_err (λ error, InvalidLockField field (RPackageVersionError_fmt error))
                    (RPackageVersion_parse_bare value) in
  if bool_decide (wire_canonical_version version ≠ value) then Err (NonCanonicalVersion field value)
  else Ok version.

(** ** Provenance and dependency kinds *)

(** A checked text: the constructor's error becomes that of the field. *)
Definition checked_field {T E} (field : string) (fmt : E → string) (r : result T E) :
    result T LockWireError := map_err (λ error, InvalidLockField field (fmt error)) r.

(** [Option::transpose] of the checked values. *)
Definition checked_option {A T} (f : A → result T LockWireError) (o : option A) :
    result (option T) LockWireError :=
  match o with Some x => result_map Some (f x) | None => Ok None end.

Definition decode_provenance (source : WireSource) (version : RPackageVersion) :
    result Provenance LockWireError :=
  match source with
  | WireRegistry namespace =>
    let? namespace := checked_field "source.namespace" IdentifierError_fmt
                        (Identifier_new KPackageNamespace namespace) in
    Ok (RegistryRelease namespace version)
  | WireBioconductor namespace release =>
    let? namespace := checked_field "source.namespace" IdentifierError_fmt
                        (Identifier_new KPackageNamespace namespace) in
    let? release := checked_field "source.release" IdentifierError_fmt
                      (Identifier_new KBioconductorRelease release) in
    Ok (BioconductorReleaseOf namespace release version)
  | WireGit repository commit subdirectory =>
    let? repository := checked_field "source.repository" NormalizedGitUrlError_fmt
                         (NormalizedGitUrl_new repository) in
    let? commit := checked_field "source.commit" GitCommitIdError_fmt (GitCommitId_new commit) in
    let? subdirectory := checked_option (λ value, checked_field "source.subdirectory"
                           RepositorySubdirError_fmt (RepositorySubdir_new value)) subdirectory in
    Ok (GitCommit repository commit subdirectory)
  | WireImmutable scheme digest =>
    let? scheme := checked_field "source.scheme" IdentifierError_fmt
                     (Identifier_new KSourceScheme scheme) in
    let? digest := checked_field "source.digest" DigestError_fmt (Sha256Digest_new digest) in
    Ok (ImmutableSource scheme digest)
  end.

Definition encode_provenance (provenance : Provenance) : result WireSource LockWireError :=
  match provenance with
  | RegistryRelease namespace _ => Ok (WireRegistry (Identifier_as_str namespace))
  | BioconductorReleaseOf namespace release _ =>
    Ok (WireBioconductor (Identifier_as_str namespace) (Identifier_as_str release))
  | GitCommit repository commit subdirectory =>
    Ok (WireGit (NormalizedGitUrl_as_str repository) (GitCommitId_as_str commit)
          (RepositorySubdir_as_str <$> subdirectory))
  | ImmutableSource scheme digest =>
    Ok (WireImmutable (Identifier_as_str scheme) (Sha256Digest_as_str digest))
  | RBasePackage _ => Err (InvalidIdentity "R base package")
  end.

Definition decode_dependency_kind (value : string) : result EffectiveDependencyKind LockWireError :=
  if bool_decide (value = "depends") then Ok EffectiveDepends
  else if bool_decide (value = "imports") then Ok EffectiveImports
  else if bool_decide (value = "linking-to") then Ok EffectiveLinkingTo
  else if bool_decide (value = "promoted-suggests") then Ok PromotedSuggests
  else Err (InvalidLockField "package.dependencies.kind"
              ("unknown effective dependency kind " +:+ value)).

Definition encode_dependency_kind (value : EffectiveDependencyKind) : string :=
  match value with
  | EffectiveDepends => "depends"
  | EffectiveImports => "imports"
  | EffectiveLinkingTo => "linking-to"
  | PromotedSuggests => "promoted-suggests"
  end.

(** ** Requested Git sources *)

Section unicode.
Context `{UnicodeTables}.

Definition decode_selector (selector : string) (value : option string) :
    result LockedGitSelector LockWireError :=
  let field := "package.requested-git-source.selector" in
  let checked (k : string → LockedGitSelector) (value : string) :=
    let? _ := checked_field field ManifestError_fmt (validate_selector value field) in Ok (k value) in
  match value with
  | None =>
    if bool_decide (selector = "default-branch") then Ok LockedDefaultBranch
    else Err (InvalidLockField field ("invalid selector " +:+ selector +:+ " with value None"))
  | Some value =>
    if bool_decide (selector = "branch") then checked LockedBranch value
    else if bool_decide (selector = "tag") then checked LockedTag value
    else if bool_decide (selector = "rev") then checked LockedRev value
    else Err (InvalidLockField field ("invalid selector " +:+ selector +:+ " with value "
                +:+ debug_option (Some (debug_str value))))
  end.

Definition decode_requested_git_source (wire : WireRequestedGitSource) :
    result LockedGitSource LockWireError :=
  let field := "package.requested-git-source.version-constraint" in
  let? selector := decode_selector (wire_selector wire) (wire_selector_value wire) in
  let? url := checked_field "package.requested-git-source.url" NormalizedGitUrlError_fmt
                (NormalizedGitUrl_new (wire_url wire)) in
  let? subdirectory := checked_option (λ value,
    checked_field "package.requested-git-source.subdirectory" RepositorySubdirError_fmt
      (RepositorySubdir_new value)) (wire_git_subdirectory wire) in
  let? version_constraint := checked_field field ManifestError_fmt
                               (parse_package_constraint (wire_version_constraint wire) field) in
  if bool_decide (canonical_r_requirement version_constraint ≠ wire_version_constraint wire)
  then Err (InvalidLockField field "constraint is not canonically spelled")
  else Ok (mk_LockedGitSource url selector subdirectory version_constraint).

Definition encode_selector (selector : LockedGitSelector) : string * option string :=
  match selector with
  | LockedDefaultBranch => ("default-branch", None)
  | LockedBranch value => ("branch", Some value)
  | LockedTag value => ("tag", Some value)
  | LockedRev value => ("rev", Some value)
  end.

Definition encode_requested_git_source (source : LockedGitSource) : WireRequestedGitSource :=
  let (selector, selector_value) := encode_selector (git_selector source) in
  mk_WireRequestedGitSource (NormalizedGitUrl_as_str (git_url source)) selector selector_value
    (RepositorySubdir_as_str <$> git_subdirectory source)
    (canonical_r_requirement (git_constraint source)).

(** ** Packages *)

Definition decode_dependency (dependency : WireDependency) : result LockedDependencyEdge LockWireError :=
  let? kind := decode_dependency_kind (wire_kind dependency) in
  let? package := checked_field "package.dependencies.package" PackageNameError_fmt
                    (PackageName_new (wire_package dependency)) in
  Ok (mk_LockedDependencyEdge kind package).

Definition decode_package (wire : WirePackage) : result LockedPackage LockWireError :=
  let? name := checked_field "package.name" PackageNameError_fmt (PackageName_new (wire_name wire)) in
  let? version := wire_parse_version "package.version" (wire_package_version wire) in
  let spelling := if bool_decide (wire_canonical_version version ≠ wire_package_version wire)
                  then Some (wire_package_version wire) else None in
  let? provenance := decode_provenance (wire_source wire) version in
  let? metadata_sha256 := checked_field "metadata-sha256" DigestError_fmt
                            (Sha256Digest_new (wire_metadata_sha256 wire)) in
  let? dependencies := try_map decode_dependency (wire_dependencies wire) in
  let? visible := try_map (λ value,
    checked_field "package.visible-repository-ids" IdentifierError_fmt
      (Identifier_new KRepositoryId value)) (wire_visible_repository_ids wire) in
  let? requested := checked_option decode_requested_git_source (wire_requested_git_source wire) in
  Ok (mk_LockedPackage (mk_ReleaseIdentity name provenance) version spelling dependencies visible
        metadata_sha256 requested).

Definition encode_dependency (dependency : LockedDependencyEdge) : WireDependency :=
  mk_WireDependency (encode_dependency_kind (locked_kind dependency))
    (PackageName_as_str (locked_package dependency)).

Definition encode_package (selected_names : list PackageName) (package : LockedPackage) :
    result WirePackage LockWireError :=
  let version := default (wire_canonical_version (locked_version package))
                   (published_version_spelling package) in
  let dependencies := encode_dependency <$>
    List.filter (λ dependency, bool_decide (locked_package dependency ∈ selected_names))
      (locked_dependencies package) in
  let? source := encode_provenance (ReleaseIdentity_provenance (locked_identity package)) in
  Ok (mk_WirePackage (PackageName_as_str (locked_name package)) version source
        (Sha256Digest_as_str (locked_metadata_sha256 package)) dependencies
        (Identifier_as_str <$> locked_visible package)
        (encode_requested_git_source <$> requested_git_source package)).

(** ** The document *)

Section wire.
Context `{CivilDate}.

Definition decode_resolution (wire : WireLockfile) :
    result (LockedResolution * Sha256Digest * VersionConstraint) LockWireError :=
  let? r_version := parse_canonical_r_version_field "r-version" (wire_r_version wire) in
  let? r_requirement := checked_field "r-requirement" ManifestError_fmt
                          (parse_r_constraint (wire_r_requirement wire) "r-requirement") in
  if bool_decide (canonical_r_requirement r_requirement ≠ wire_r_requirement wire)
  then Err (InvalidLockField "r-requirement" "constraint is not canonically spelled")
  else
    let? intent := checked_field "resolution-intent-sha256" DigestError_fmt
                     (Sha256Digest_new (wire_resolution_intent_sha256 wire)) in
    let? packages := try_map decode_package (wire_packages wire) in
    let? cutoff := checked_option (λ value,
      checked_field "publication-cutoff" PublicationDateError_fmt (PublicationDate_parse value))
      (wire_publication_cutoff wire) in
    let? environment := checked_field "environment" EnvironmentIdError_fmt
                          (EnvironmentId_new (wire_environment wire)) in
    Ok (mk_LockedResolution (mk_ResolutionTarget r_version) environment cutoff packages, intent,
        r_requirement).

(** What [from_toml] does with the decoded record. *)
Definition from_wire (wire : WireLockfile) : result Lockfile LockWireError :=
  if negb (N.eqb (wire_version wire) SCHEMA_VERSION) then Err (UnsupportedSchema (wire_version wire))
  else
    let? (decoded, r_requirement) := decode_resolution wire in
    let (resolution, intent) := decoded in
    let? _ := map_err WireDomain (validate_canonical_resolution resolution) in
    map_err WireDomain (Lockfile_new intent r_requirement resolution).

(** The record [to_toml] makes. *)
Definition to_wire (lockfile : Lockfile) : result WireLockfile LockWireError :=
  let? normalized := map_err WireDomain
    (Lockfile_new (resolution_intent_sha256 lockfile) (lock_r_requirement lockfile)
       (lock_resolution lockfile)) in
  let resolution := lock_resolution normalized in
  let selected_names := locked_name <$> locked_packages resolution in
  let? packages := try_map (encode_package selected_names) (locked_packages resolution) in
  Ok (mk_WireLockfile SCHEMA_VERSION
        (wire_canonical_version (target_r_version (locked_target resolution)))
        (Sha256Digest_as_str (resolution_intent_sha256 normalized))
        (canonical_r_requirement (lock_r_requirement normalized))
        (EnvironmentId_as_str (locked_environment resolution))
        (PublicationDate_as_str <$> locked_cutoff resolution) packages).
End wire.
End unicode.

(** ** The text *)

(** [trim_end] and [trim_start_matches]. *)
Definition str_trim_end (s : string) : string :=
  from_utf8 (mjoin (rev (drop_while (λ c : N * list byte, char_is_whitespace c.1)
                           (rev (char_slices (bytes s))))).*2).

Fixpoint strip_repeatedly (fuel : nat) (needle l : list byte) : list byte :=
  match fuel with
  | 0 => l
  | S fuel => match strip_prefix needle l with
              | Some l => strip_repeatedly fuel needle l
              | None => l
              end
  end.
Definition trim_start_matches (needle s : string) : string :=
  from_utf8 (strip_repeatedly (str_len s) (bytes needle) (bytes s)).

Section text.
Context `{TomlFields}.

Definition toml_field (name : string) (value : TomlValue) : result string LockWireError :=
  map_err WireSerialize
    (result_map (λ serialized, trim_start_matches (name +:+ " = ") (str_trim_end serialized))
       (toml_field_to_string name value)).

Definition toml_string (value : string) : result string LockWireError :=
  toml_field "value" (TomlString value).

Definition toml_array (values : list string) : result string LockWireError :=
  toml_field "values" (TomlArray (TomlString <$> values)).

Definition toml_dependencies (values : list WireDependency) : result string LockWireError :=
  let? entries := try_map (λ dependency,
    let? kind := toml_string (wire_kind dependency) in
    let? package := toml_string (wire_package dependency) in
    Ok ("{ kind = " +:+ kind +:+ ", package = " +:+ package +:+ " }")) values in
  Ok ("[" +:+ str_join ", " entries +:+ "]").

(** [format!("{name} = {}", toml_string(value)?)] *)
Definition inline_field (field : string * string) : result string LockWireError :=
  let? value := toml_string field.2 in Ok (field.1 +:+ " = " +:+ value).

Definition optional_field (name : string) (value : option string) : list (string * string) :=
  match value with Some value => [(name, value)] | None => [] end.

Definition inline_fields (fields : list (string * string)) : result string LockWireError :=
  let? fields := try_map inline_field fields in Ok ("{ " +:+ str_join ", " fields +:+ " }").

Definition inline_source (source : WireSource) : result string LockWireError :=
  inline_fields
    match source with
    | WireRegistry namespace => [("kind", "registry"); ("namespace", namespace)]
    | WireBioconductor namespace release =>
      [("kind", "bioconductor"); ("namespace", namespace); ("release", release)]
    | WireGit repository commit subdirectory =>
      [("kind", "git"); ("repository", repository); ("commit", commit)]
        ++ optional_field "subdirectory" subdirectory
    | WireImmutable scheme digest => [("kind", "immutable"); ("scheme", scheme); ("digest", digest)]
    end.

Definition inline_requested_git_source (source : WireRequestedGitSource) :
    result string LockWireError :=
  inline_fields
    ([("url", wire_url source); ("selector", wire_selector source)]
       ++ optional_field "selector-value" (wire_selector_value source)
       ++ optional_field "subdirectory" (wire_git_subdirectory source)
       ++ [("version-constraint", wire_version_constraint source)]).

(** [name = value] and a newline. *)
Definition line (name : string) (value : result string LockWireError) : result string LockWireError :=
  let? value := value in Ok (name +:+ " = " +:+ value +:+ NEWLINE).

Definition serialize_package (package : WirePackage) : result string LockWireError :=
  let? name := line "name" (toml_string (wire_name package)) in
  let? version := line "version" (toml_string (wire_package_version package)) in
  let? source := line "source" (inline_source (wire_source package)) in
  let? metadata := line "metadata-sha256" (toml_string (wire_metadata_sha256 package)) in
  let? dependencies := line "dependencies" (toml_dependencies (wire_dependencies package)) in
  let? visible := line "visible-repository-ids" (toml_array (wire_visible_repository_ids package)) in
  let? requested := match wire_requested_git_source package with
                    | Some source => line "requested-git-source" (inline_requested_git_source source)
                    | None => Ok ""
                    end in
  Ok (NEWLINE +:+ "[[packages]]" +:+ NEWLINE +:+ name +:+ version +:+ source +:+ metadata
        +:+ dependencies +:+ visible +:+ requested).

Definition serialize_wire (wire : WireLockfile) : result string LockWireError :=
  let? r_version := line "r-version" (toml_string (wire_r_version wire)) in
  let? r_requirement := line "r-requirement" (toml_string (wire_r_requirement wire)) in
  let? intent := line "resolution-intent-sha256" (toml_string (wire_resolution_intent_sha256 wire)) in
  let? environment := line "environment" (toml_string (wire_environment wire)) in
  let? cutoff := match wire_publication_cutoff wire with
                 | Some cutoff => line "publication-cutoff" (toml_string cutoff)
                 | None => Ok ""
                 end in
  let? packages := try_map serialize_package (wire_packages wire) in
  Ok (GENERATED_HEADER +:+ "version = " +:+ N_to_string (wire_version wire) +:+ NEWLINE
        +:+ r_version +:+ r_requirement +:+ intent +:+ environment +:+ cutoff
        +:+ (if bool_decide (wire_packages wire = []) then "packages = []" +:+ NEWLINE else "")
        +:+ str_join "" packages).

Context `{UnicodeTables, CivilDate, !Toml WireLockfile}.

Definition from_toml (input : string) : result Lockfile LockWireError :=
  let? wire := map_err WireParse (toml_from_str input) in from_wire wire.

Definition to_toml (lockfile : Lockfile) : result string LockWireError :=
  let? wire := to_wire lockfile in serialize_wire wire.
End text.
