(* ===== verification/LockLaws.v ===== *)
(** * Lock files are canonical

    The order of identities, the canonical constraint, and what constructing a
    lock establishes. *)

From S2P Require Import Prelude RustStd Collections Externals Text Format Versions Names Publication.
From S2P Require Import Identity Constraints Request Manifest Locators ManifestWire Compose Lock.

(** ** The order of identities *)

#[export] Instance cmp_optional_subdirectory_order : CmpOrder cmp_optional_subdirectory.
Proof. apply cmp_on_order, _. Qed.

Lemma cmp_optional_subdirectory_eq s t : cmp_optional_subdirectory s t = Eq ↔ s = t.
Proof.
  split; [|intros ->; apply (cmp_refl cmp_optional_subdirectory)].
  unfold cmp_optional_subdirectory, cmp_on. intros E%(option_cmp_leibniz str_cmp).
  destruct s as [[s]|], t as [[t]|]; simpl in E; congruence.
Qed.

(** The order of provenances compares these keys in turn. *)
Definition provenance_text (p : Provenance) : string :=
  match p with
  | RBasePackage _ => ""
  | RegistryRelease n _ | BioconductorReleaseOf n _ _ => Identifier_as_str n
  | GitCommit r _ _ => NormalizedGitUrl_as_str r
  | ImmutableSource s _ => Identifier_as_str s
  end.
Definition provenance_release (p : Provenance) : string :=
  match p with BioconductorReleaseOf _ r _ => Identifier_as_str r | _ => "" end.
Definition provenance_commit (p : Provenance) : option GitCommitId :=
  match p with GitCommit _ c _ => Some c | _ => None end.
Definition provenance_subdirectory (p : Provenance) : option RepositorySubdir :=
  match p with GitCommit _ _ s => s | _ => None end.
Definition provenance_key_version (p : Provenance) : option RPackageVersion :=
  match p with
  | RBasePackage v | RegistryRelease _ v | BioconductorReleaseOf _ _ v => Some v
  | _ => None
  end.
Definition provenance_digest (p : Provenance) : option Sha256Digest :=
  match p with ImmutableSource _ d => Some d | _ => None end.

Definition provenance_keys_cmp : Provenance → Provenance → comparison :=
  cmp_then (cmp_on provenance_rank N.compare)
    (cmp_then (cmp_on provenance_text str_cmp)
       (cmp_then (cmp_on provenance_release str_cmp)
          (cmp_then (cmp_on provenance_commit (option_cmp GitCommitId_cmp))
             (cmp_then (cmp_on provenance_subdirectory cmp_optional_subdirectory)
                (cmp_then (cmp_on provenance_key_version (option_cmp RPackageVersion_cmp))
                   (cmp_on provenance_digest (option_cmp Sha256Digest_cmp))))))).

Lemma then_with_Eq_r c : then_with c Eq = c.
Proof. by destruct c. Qed.

Lemma cmp_provenance_keys p q : cmp_provenance p q = provenance_keys_cmp p q.
Proof.
  unfold cmp_provenance, provenance_keys_cmp, cmp_then, cmp_on.
  destruct p, q; cbn -[str_cmp RPackageVersion_cmp GitCommitId_cmp cmp_optional_subdirectory];
    try done; change (str_cmp "" "") with Eq; cbn [then_with];
    change (cmp_optional_subdirectory None None) with Eq; cbn [then_with];
    by rewrite ?then_with_Eq_r.
Qed.

#[export] Instance cmp_provenance_order : CmpOrder cmp_provenance.
Proof.
  apply (cmp_order_ext _ _ cmp_provenance_keys). unfold provenance_keys_cmp.
  repeat apply cmp_then_order; apply _.
Qed.

#[export] Instance cmp_identity_order : CmpOrder cmp_identity.
Proof.
  apply (cmp_order_ext _ (cmp_then (cmp_on ReleaseIdentity_name PackageName_cmp)
                            (cmp_on ReleaseIdentity_provenance cmp_provenance))); [done|apply _].
Qed.

Lemma PackageName_cmp_eq n m : PackageName_cmp n m = Eq ↔ n = m.
Proof. split; [apply (cmp_eq_leibniz PackageName_cmp)|intros ->; apply (cmp_refl PackageName_cmp)]. Qed.
Lemma Identifier_cmp_eq {kind} (i j : Identifier kind) : Identifier_cmp i j = Eq ↔ i = j.
Proof. split; [apply (cmp_eq_leibniz Identifier_cmp)|intros ->; apply (cmp_refl Identifier_cmp)]. Qed.
Lemma RPackageVersion_cmp_eq v w : RPackageVersion_cmp v w = Eq ↔ v ≈ w.
Proof. unfold req_rel, req, req_version, RPackageVersion_eq. by destruct (RPackageVersion_cmp v w). Qed.

Lemma cmp_provenance_eq p q : cmp_provenance p q = Eq ↔ p ≈ q.
Proof.
  change (p ≈ q) with (Provenance_eq p q = true). unfold cmp_provenance. rewrite then_with_eq.
  destruct p, q; cbn [provenance_rank same_kind_cmp]; try (split; [by intros [? _]|done]);
    unfold Provenance_eq; rewrite ?then_with_eq, ?Identifier_cmp_eq, ?NormalizedGitUrl_cmp_eq, ?GitCommitId_cmp_eq,
      ?cmp_optional_subdirectory_eq, ?Sha256Digest_cmp_eq, ?RPackageVersion_cmp_eq;
    rewrite ?andb_true_iff, ?req_leibniz; unfold req_rel; tauto.
Qed.

Lemma cmp_identity_eq i j : cmp_identity i j = Eq ↔ i ≈ j.
Proof.
  unfold cmp_identity. by rewrite then_with_eq, PackageName_cmp_eq, cmp_provenance_eq, ReleaseIdentity_req_iff.
Qed.

#[export] Instance locked_cmp_order : CmpOrder locked_cmp := cmp_on_order locked_identity cmp_identity.
#[export] Instance dependency_edge_cmp_order : CmpOrder dependency_edge_cmp.
Proof. apply cmp_then_order; apply _. Qed.
#[export] Instance dependency_edge_cmp_leibniz : CmpLeibniz dependency_edge_cmp.
Proof.
  intros [k n] [k' n']. unfold dependency_edge_cmp, cmp_then, cmp_on. rewrite then_with_eq. simpl.
  rewrite PackageName_cmp_eq. intros [-> Hk]. f_equal. by destruct k, k'.
Qed.
#[export] Instance clause_cmp_order : CmpOrder clause_cmp.
Proof. apply cmp_then_order; [apply _|]. apply cmp_then_order; apply _. Qed.

(** ** Edges and clauses *)

Lemma canonicalize_edges_sorted l :
  strictly_sorted dependency_edge_cmp (canonicalize_dependency_edges l).
Proof.
  apply (dedup_sorted_strict dependency_edge_cmp); [|apply sort_by_sorted, _].
  intros x y. case_bool_decide as E.
  - subst. by rewrite (cmp_refl dependency_edge_cmp).
  - destruct (dependency_edge_cmp x y) eqn:Ec; [|done..].
    by apply (cmp_eq_leibniz dependency_edge_cmp) in Ec.
Qed.

Lemma elem_of_canonicalize_edges l e : e ∈ canonicalize_dependency_edges l ↔ e ∈ l.
Proof.
  unfold canonicalize_dependency_edges. split.
  - by intros ?%elem_of_dedup_by%elem_of_sort_by.
  - intros He. apply (elem_of_sort_by dependency_edge_cmp) in He.
    apply (dedup_by_complete (λ x y, bool_decide (x = y)) (λ x, x = e)) in He; [|by intros ? ? ->%bool_decide_eq_true|done].
    apply Exists_exists in He as (x & Hx & ->). done.
Qed.

Lemma canonicalize_edges_id l :
  strictly_sorted dependency_edge_cmp l → canonicalize_dependency_edges l = l.
Proof.
  intros Hl. unfold canonicalize_dependency_edges. rewrite sort_by_strict by (done || apply _).
  apply (dedup_strict_id dependency_edge_cmp); [|done]. intros x y. case_bool_decide as E.
  - subst. by rewrite (cmp_refl dependency_edge_cmp).
  - destruct (dependency_edge_cmp x y) eqn:Ec; [|done..].
    by apply (cmp_eq_leibniz dependency_edge_cmp) in Ec.
Qed.

(** Clauses compare by relation and version only. *)
Definition clause_key_cmp : VersionClause → VersionClause → comparison :=
  cmp_then (cmp_on (λ c, relation_rank (clause_op c)) N.compare) (cmp_on clause_version RPackageVersion_cmp).
#[export] Instance clause_key_cmp_order : CmpOrder clause_key_cmp.
Proof. apply cmp_then_order; apply _. Qed.

Lemma same_clause_key x y : same_clause x y = is_eq (clause_key_cmp x y).
Proof.
  apply eq_true_iff_eq. unfold same_clause, clause_key_cmp, cmp_then, cmp_on.
  rewrite andb_true_iff, req_leibniz, (req_true_iff (A:=RPackageVersion)), <-RPackageVersion_cmp_eq.
  assert (∀ o, is_eq o = true ↔ o = Eq) as -> by (by intros []). rewrite then_with_eq.
  destruct x as [[] v], y as [[] w]; simpl; naive_solver.
Qed.

Lemma clause_cmp_key l : StronglySorted (cmp_le clause_cmp) l → StronglySorted (cmp_le clause_key_cmp) l.
Proof.
  induction 1 as [|x l _ IH Hx]; constructor; [done|]. eapply Forall_impl; [exact Hx|].
  intros y. unfold cmp_le, clause_cmp, clause_key_cmp, cmp_then, cmp_on.
  destruct (N.compare _ _); simpl; [|done..]. by destruct (RPackageVersion_cmp _ _).
Qed.

Lemma canonical_clauses_sorted l : strictly_sorted clause_key_cmp (canonical_clauses l).
Proof.
  apply (dedup_sorted_strict clause_key_cmp); [apply same_clause_key|].
  apply clause_cmp_key, sort_by_sorted, _.
Qed.

Lemma clause_key_strict l : strictly_sorted clause_key_cmp l → strictly_sorted clause_cmp l.
Proof.
  unfold strictly_sorted. induction 1 as [|x l _ IH Hx]; constructor; [done|].
  eapply Forall_impl; [exact Hx|]. intros y. unfold clause_cmp, clause_key_cmp, cmp_then, cmp_on.
  destruct (N.compare _ _); simpl; [|done..]. by intros ->.
Qed.

Lemma canonical_clauses_id l : strictly_sorted clause_key_cmp l → canonical_clauses l = l.
Proof.
  intros Hl. unfold canonical_clauses. rewrite sort_by_strict by (by apply clause_key_strict || apply _).
  by apply (dedup_strict_id clause_key_cmp); [apply same_clause_key|].
Qed.

Lemma canonicalize_constraint_idemp c :
  canonicalize_constraint (canonicalize_constraint c) = canonicalize_constraint c.
Proof. unfold canonicalize_constraint. simpl. by rewrite canonical_clauses_id by apply canonical_clauses_sorted. Qed.

Lemma canonicalize_constraint_satisfies c v :
  VersionConstraint_satisfies (canonicalize_constraint c) v = VersionConstraint_satisfies c v.
Proof.
  apply eq_true_iff_eq. rewrite !satisfies_Forall, !Forall_forall. simpl. split; intros Hc x Hx.
  - apply (elem_of_sort_by clause_cmp) in Hx.
    apply (dedup_by_complete same_clause (λ y, clause_satisfied v y = clause_satisfied v x)) in Hx; [|..|done].
    + apply Exists_exists in Hx as (y & Hy & <-). by apply Hc.
    + intros y z Hyz <-. symmetry. by apply clause_satisfied_proper.
  - apply Hc. by apply elem_of_dedup_by, elem_of_sort_by in Hx.
Qed.

(** ** Checks of packages *)

Lemma check_visible_ok p seen l :
  check_visible p seen l = Ok tt ↔ NoDup l ∧ ∀ r, r ∈ l → r ∉ seen.
Proof.
  revert seen. induction l as [|r l IH]; intros seen; simpl.
  { split; [|done]. intros _. split; [constructor|]. intros r Hr. by apply elem_of_nil in Hr. }
  case_bool_decide as Hr.
  - split; [done|]. intros [_ Hl]. exfalso. by apply (Hl r); [left|].
  - rewrite IH, NoDup_cons. setoid_rewrite elem_of_cons. naive_solver.
Qed.

Lemma validate_visible_ok p : validate_visible_repository_ids p = Ok tt ↔ NoDup (locked_visible p).
Proof.
  unfold validate_visible_repository_ids. rewrite check_visible_ok. split; [by intros []|].
  intros Hp. split; [done|]. intros r _. by intros ?%elem_of_nil.
Qed.

(** A package that may be locked. *)
Definition lockable (p : LockedPackage) : Prop :=
  LockedPackage_validate p = Ok tt ∧ NoDup (locked_visible p).

Definition normalized_package (p : LockedPackage) : LockedPackage :=
  mk_LockedPackage (locked_identity p) (locked_version p) (published_version_spelling p)
    (canonicalize_dependency_edges (locked_dependencies p)) (locked_visible p)
    (locked_metadata_sha256 p) (requested_git_source p).

Lemma normalize_package_ok p q : normalize_package p = Ok q ↔ lockable p ∧ q = normalized_package p.
Proof.
  unfold normalize_package, lockable. rewrite result_bind_ok. split.
  - intros ([] & Hv & E). cbv zeta in E. apply result_bind_ok in E as ([] & Hr%validate_visible_ok & [= <-]).
    done.
  - intros [[Hv Hr] ->]. exists tt. split; [done|]. cbv zeta. apply result_bind_ok. exists tt.
    split; [|done]. by apply validate_visible_ok.
Qed.

Lemma normalize_packages_ok l k :
  try_map normalize_package l = Ok k ↔ Forall lockable l ∧ k = normalized_package <$> l.
Proof.
  rewrite try_map_ok. split.
  - induction 1 as [|p q l k Hpq _ [Hl ->]]; [done|].
    apply normalize_package_ok in Hpq as [Hp ->]. by split; [constructor|].
  - intros [Hl ->]. induction Hl as [|p l Hp _ IH]; constructor; [|done]. by apply normalize_package_ok.
Qed.

(** What the loop of [ensure_installed_names] checks: names of [l] determine their
    identities, and agree with those of [m]. *)
Definition names_agree (m : list (PackageName * ReleaseIdentity)) (l : list LockedPackage) : Prop :=
  (∀ p i, p ∈ l → bt_get PackageName_cmp (locked_name p) m = Some i → i ≈ locked_identity p) ∧
  (∀ p q, p ∈ l → q ∈ l → locked_name p = locked_name q → locked_identity p ≈ locked_identity q).

Lemma names_agree_insert p m l :
  names_agree (bt_insert PackageName_cmp (locked_name p) (locked_identity p) m) l ↔
    (∀ q, q ∈ l → locked_name q = locked_name p → locked_identity p ≈ locked_identity q) ∧
    (∀ q i, q ∈ l → locked_name q ≠ locked_name p →
       bt_get PackageName_cmp (locked_name q) m = Some i → i ≈ locked_identity q) ∧
    (∀ q q', q ∈ l → q' ∈ l → locked_name q = locked_name q' → locked_identity q ≈ locked_identity q').
Proof.
  split.
  - intros [Hg Hl]. split_and!; [| |done].
    + intros q Hq E. apply Hg; [done|].
      by rewrite E, (bt_get_insert_eq PackageName_cmp) by apply (cmp_refl PackageName_cmp).
    + intros q i Hq Hne Hi. apply (Hg q); [done|].
      by rewrite (bt_get_insert_ne PackageName_cmp) by by apply PackageName_cmp_ne.
  - intros (Hp & Hg & Hl). split; [|done]. intros q i Hq.
    destruct (decide (locked_name q = locked_name p)) as [E|Hne].
    + rewrite E, (bt_get_insert_eq PackageName_cmp) by apply (cmp_refl PackageName_cmp).
      intros [= <-]. by apply Hp.
    + rewrite (bt_get_insert_ne PackageName_cmp) by by apply PackageName_cmp_ne. by apply Hg.
Qed.

Lemma names_agree_cons p m l :
  names_agree m (p :: l) ↔
    (∀ i, bt_get PackageName_cmp (locked_name p) m = Some i → i ≈ locked_identity p) ∧
    names_agree (bt_insert PackageName_cmp (locked_name p) (locked_identity p) m) l.
Proof.
  rewrite names_agree_insert. unfold names_agree. setoid_rewrite elem_of_cons. split.
  - intros [Hg Hl]. split_and!; intros; eauto.
  - intros (Hi & Hp & Hg & Hl). split.
    + intros q i [->|Hq] Ei; [by apply Hi|].
      destruct (decide (locked_name q = locked_name p)) as [E|Hne]; [|by apply (Hg q)].
      rewrite E in Ei. etrans; [by apply Hi|by apply Hp].
    + intros q q' [->|Hq] [->|Hq'] E; [done|by apply Hp| |by apply Hl]. symmetry. by apply Hp.
Qed.

Lemma check_names_ok m l : check_names m l = Ok tt ↔ names_agree m l.
Proof.
  revert m. induction l as [|p l IH]; intros m; cbn [check_names].
  { split; [|done]. intros _. split; [intros p i Hp|intros p q Hp]; by apply elem_of_nil in Hp. }
  rewrite names_agree_cons, <-IH. cbv zeta. destruct (bt_get _ (locked_name p) m) as [i|].
  - destruct (req i (locked_identity p)) eqn:Ereq; cbn [negb].
    + split; [|by intros [_ ?]]. intros Hl. split; [|done]. by intros j [= <-].
    + split; [done|]. intros [Hi _]. apply (req_false_iff i (locked_identity p)) in Ereq.
      by destruct (Ereq (Hi i eq_refl)).
  - naive_solver.
Qed.

Lemma ensure_installed_names_ok l :
  ensure_installed_names l = Ok tt ↔
    ∀ p q, p ∈ l → q ∈ l → locked_name p = locked_name q → locked_identity p ≈ locked_identity q.
Proof. unfold ensure_installed_names. rewrite check_names_ok. unfold names_agree. naive_solver. Qed.

(** Every edge leads to a package of the list. *)
Definition closed_under_edges (l : list LockedPackage) : Prop :=
  ∀ p d, p ∈ l → d ∈ locked_dependencies p → locked_package d ∈ locked_name <$> l.

Lemma ensure_dependencies_exist_ok l : ensure_dependencies_exist l = Ok tt ↔ closed_under_edges l.
Proof.
  unfold ensure_dependencies_exist, closed_under_edges. rewrite try_map_checked.
  assert (∀ p d, check_edge (locked_name <$> l) p d = Ok tt ↔ locked_package d ∈ locked_name <$> l) as He.
  { intros p d. unfold check_edge. by case_bool_decide. }
  setoid_rewrite try_map_units. setoid_rewrite He. naive_solver.
Qed.

(** ** Repeated records *)

(** The loop after its first element, [p] being the last one kept. *)
Fixpoint unique_after (p : LockedPackage) (l : list LockedPackage) :
    result (list LockedPackage) LockError :=
  match l with
  | [] => Ok []
  | q :: l =>
    if locked_identity p =?= locked_identity q then
      if negb (p =?= q) then Err (LockConflictingMetadata (identity_key (locked_identity q)))
      else unique_after p l
    else let? k := unique_after q l in Ok (q :: k)
  end.

Lemma unique_steps acc p l :
  try_fold unique_step (acc ++ [p]) l = let? k := unique_after p l in Ok (acc ++ p :: k).
Proof.
  revert acc p. induction l as [|q l IH]; intros acc p; cbn [try_fold unique_after]; [done|].
  unfold unique_step. rewrite last_snoc. destruct (req (locked_identity p) (locked_identity q)).
  - destruct (req p q); cbn [negb result_bind]; [apply IH|done].
  - cbn [result_bind]. rewrite IH. destruct (unique_after q l); cbn [result_bind]; [|done].
    by rewrite <-app_assoc.
Qed.

Lemma locked_cmp_eq p q : locked_cmp p q = Eq ↔ locked_identity p ≈ locked_identity q.
Proof. apply cmp_identity_eq. Qed.

Lemma unique_after_sorted p l k :
  StronglySorted (cmp_le locked_cmp) (p :: l) → unique_after p l = Ok k →
  strictly_sorted locked_cmp (p :: k) ∧ (∀ q, q ∈ k → q ∈ l) ∧
  ∀ q, q ∈ l → ∃ q', q' ∈ p :: k ∧ q' ≈ q.
Proof.
  revert p k. induction l as [|q l IH]; intros p k; cbn [unique_after].
  { intros _ [= <-]. split_and!; [by repeat constructor|done|]. intros q Hq. by apply elem_of_nil in Hq. }
  intros Hs. inversion Hs as [|? ? Hl Hp]; subst. inversion Hp as [|? ? Hpq Hp']; subst.
  destruct (req (locked_identity p) (locked_identity q)) eqn:E.
  - destruct (req p q) eqn:Epq; cbn [negb]; [|done]. intros Hk.
    assert (StronglySorted (cmp_le locked_cmp) (p :: l)) as Hs'
      by (constructor; [by inversion Hl|done]).
    destruct (IH p k Hs' Hk) as (Hs'' & Hin & Hall). split_and!; [done| |].
    + intros x Hx. right. by apply Hin.
    + intros x [->|Hx]%elem_of_cons; [|by apply Hall]. exists p. split; [left|exact Epq].
  - intros Hk. apply result_bind_ok in Hk as (k' & Hk & [= <-]).
    destruct (IH q k' Hl Hk) as (Hs' & Hin & Hall).
    assert (locked_cmp p q = Lt) as Hlt.
    { unfold cmp_le in Hpq. destruct (locked_cmp p q) eqn:Ec; try done.
      apply locked_cmp_eq in Ec. apply (req_false_iff (locked_identity p)) in E. done. }
    split_and!.
    + constructor; [exact Hs'|]. inversion Hs' as [|? ? _ Hq]; subst. constructor; [exact Hlt|].
      eapply Forall_impl; [exact Hq|]. intros z. by apply (cmp_trans locked_cmp).
    + intros x [->|Hx]%elem_of_cons; [left|right; by apply Hin].
    + intros x [->|Hx]%elem_of_cons; [exists q; split; [right; left|done]|].
      destruct (Hall x Hx) as (x' & Hx' & ?). exists x'. split; [by right|done].
Qed.

Lemma unique_packages_sorted l k :
  StronglySorted (cmp_le locked_cmp) l → unique_packages l = Ok k →
  strictly_sorted locked_cmp k ∧ (∀ q, q ∈ k → q ∈ l) ∧ ∀ q, q ∈ l → ∃ q', q' ∈ k ∧ q' ≈ q.
Proof.
  intros Hs. unfold unique_packages. destruct l as [|p l]; cbn [try_fold].
  { intros [= <-]. split_and!; [constructor|done|]. intros q Hq. by apply elem_of_nil in Hq. }
  cbn [result_bind unique_step last]. change [] with (@nil LockedPackage) at 1.
  rewrite (unique_steps [] p l). intros Hk. apply result_bind_ok in Hk as (k' & Hk & [= <-]).
  destruct (unique_after_sorted p l k' Hs Hk) as (Hs' & Hin & Hall). split_and!; [done| |].
  - intros q [->|Hq]%elem_of_cons; [left|right; by apply Hin].
  - intros q [->|Hq]%elem_of_cons; [exists p; split; [left|done]|by apply Hall].
Qed.

(** Without contradicting records the loop goes through. *)
Lemma unique_after_complete p l :
  (∀ x y, x ∈ p :: l → y ∈ p :: l → locked_identity x ≈ locked_identity y → x ≈ y) →
  ∃ k, unique_after p l = Ok k.
Proof.
  revert p. induction l as [|q l IH]; intros p Hall; cbn [unique_after]; [by eexists|].
  destruct (req (locked_identity p) (locked_identity q)) eqn:E.
  - assert (p ≈ q) as Hpq by (apply Hall; [left|right; left|exact E]).
    change (req p q = true) in Hpq. rewrite Hpq. cbn [negb]. apply IH.
    intros x y [->|Hx]%elem_of_cons [->|Hy]%elem_of_cons; apply Hall; (left || (by right; right)).
  - destruct (IH q) as [k Hk]; [|rewrite Hk; by eexists]. intros x y Hx Hy. apply Hall; by right.
Qed.

Lemma unique_packages_complete l :
  (∀ x y, x ∈ l → y ∈ l → locked_identity x ≈ locked_identity y → x ≈ y) →
  ∃ k, unique_packages l = Ok k.
Proof.
  intros Hall. unfold unique_packages. destruct l as [|p l]; [by eexists|]. cbn [try_fold].
  cbn [result_bind unique_step last]. rewrite (unique_steps [] p l).
  destruct (unique_after_complete p l Hall) as [k ->]. by eexists.
Qed.

Lemma unique_packages_id l : strictly_sorted locked_cmp l → unique_packages l = Ok l.
Proof.
  intros Hs. unfold unique_packages. destruct l as [|p l]; [done|]. cbn [try_fold result_bind unique_step last].
  rewrite (unique_steps [] p l). assert (unique_after p l = Ok l) as ->; [|done].
  revert p Hs. induction l as [|q l IH]; intros p Hs; cbn [unique_after]; [done|].
  inversion Hs as [|? ? Hl Hp]; subst. inversion Hp as [|? ? Hpq _]; subst.
  assert (req (locked_identity p) (locked_identity q) = false) as ->.
  { apply req_false_iff. intros E%locked_cmp_eq. congruence. }
  by rewrite IH.
Qed.

(** ** Canonical locks *)

Section lock.
Context `{CivilDate}.

(** What every lock in use satisfies. *)
Record lock_canonical (lock : Lockfile) : Prop := {
  canonical_target :
    VersionConstraint_satisfies (lock_r_requirement lock)
      (target_r_version (locked_target (lock_resolution lock))) = true;
  canonical_order : strictly_sorted locked_cmp (locked_packages (lock_resolution lock));
  canonical_names : NoDup (locked_name <$> locked_packages (lock_resolution lock));
  canonical_edges : Forall (λ p, strictly_sorted dependency_edge_cmp (locked_dependencies p))
                      (locked_packages (lock_resolution lock));
  canonical_closed : closed_under_edges (locked_packages (lock_resolution lock));
  canonical_lockable : Forall lockable (locked_packages (lock_resolution lock));
}.

(** In a strictly sorted list, names that determine identities are distinct. *)
Lemma strict_names l :
  strictly_sorted locked_cmp l →
  (NoDup (locked_name <$> l) ↔
     ∀ p q, p ∈ l → q ∈ l → locked_name p = locked_name q → locked_identity p ≈ locked_identity q).
Proof.
  intros Hs. split.
  - intros Hnd p q Hp Hq E. by rewrite (NoDup_fmap_eq locked_name l p q Hnd Hp Hq E).
  - intros Hid. induction Hs as [|p l Hs IH Hp]; [constructor|]. simpl. constructor.
    + intros (q & E & Hq)%list_elem_of_fmap. rewrite Forall_forall in Hp.
      assert (locked_cmp p q = Eq) as Ec; [|by rewrite (Hp q Hq) in Ec].
      apply locked_cmp_eq, Hid; [left|by right|done].
    + apply IH. intros x y Hx Hy. apply Hid; by right.
Qed.

Lemma strict_windows_identity l :
  strictly_sorted locked_cmp l → Forall (λ w : LockedPackage * LockedPackage,
    req (locked_identity w.1) (locked_identity w.2) = false) (windows2 l).
Proof.
  intros Hs. apply (strictly_sorted_windows locked_cmp) in Hs. eapply Forall_impl; [exact Hs|].
  intros [p q] E. apply req_false_iff. intros Ei%locked_cmp_eq. simpl in *. congruence.
Qed.

Lemma find_windows_none l : strictly_sorted locked_cmp l → List.find conflicting_pair (windows2 l) = None.
Proof.
  intros Hs%strict_windows_identity. induction Hs as [|w k Hw _ IH]; [done|]. simpl.
  unfold conflicting_pair at 1. by rewrite Hw.
Qed.

Lemma validate_canonical lock :
  strictly_sorted locked_cmp (locked_packages (lock_resolution lock)) →
  Lockfile_validate lock = Ok tt ↔
    VersionConstraint_satisfies (lock_r_requirement lock)
      (target_r_version (locked_target (lock_resolution lock))) = true ∧
    NoDup (locked_name <$> locked_packages (lock_resolution lock)) ∧
    closed_under_edges (locked_packages (lock_resolution lock)) ∧
    Forall lockable (locked_packages (lock_resolution lock)).
Proof.
  intros Hs. unfold Lockfile_validate, validate_contents. cbv zeta.
  rewrite (sort_by_strict locked_cmp) by done. rewrite find_windows_none by done.
  destruct (VersionConstraint_satisfies _ _); cbn [negb]; [|naive_solver].
  rewrite try_map_check, strict_names by done.
  rewrite <-ensure_installed_names_ok, <-ensure_dependencies_exist_ok, Forall_forall.
  assert (∀ p, (let? _ := LockedPackage_validate p in validate_visible_repository_ids p) = Ok tt ↔ lockable p) as Hp.
  { intros p. rewrite result_bind_ok. unfold lockable. rewrite <-validate_visible_ok.
    split; [by intros ([] & ? & ?)|]. intros []. by exists tt. }
  setoid_rewrite Hp. destruct (ensure_installed_names _) as [[]|]; cbn [result_bind]; naive_solver.
Qed.

Lemma existsb_false {A} (f : A → bool) l : existsb f l = false ↔ Forall (λ x, f x = false) l.
Proof. apply existsb_false_Forall. Qed.

Lemma windows_edges_strict l :
  existsb (λ w, negb (is_lt (dependency_edge_cmp w.1 w.2))) (windows2 l) = false ↔
    strictly_sorted dependency_edge_cmp l.
Proof.
  rewrite existsb_false, (strictly_sorted_windows dependency_edge_cmp), !Forall_forall.
  assert (∀ w : LockedDependencyEdge * LockedDependencyEdge,
    negb (is_lt (dependency_edge_cmp w.1 w.2)) = false ↔ dependency_edge_cmp w.1 w.2 = Lt) as Hw.
  { intros w. by destruct (dependency_edge_cmp _ _). }
  by setoid_rewrite Hw.
Qed.

(** [PartialEq] packages are in the same place of the order. *)
Lemma sorted_req l k :
  l ≈ k → StronglySorted (cmp_le locked_cmp) l → StronglySorted (cmp_le locked_cmp) k.
Proof.
  assert (∀ p q, p ≈ q → locked_cmp p q = Eq) as Heq.
  { intros p q Hpq. change (LockedPackage_eq p q = true) in Hpq. unfold LockedPackage_eq in Hpq.
    rewrite !andb_true_iff in Hpq. apply locked_cmp_eq. apply Hpq. }
  intros Hlk%list_req_Forall2. induction Hlk as [|p q l k Hpq Hlk IH]; [done|].
  inversion 1 as [|? ? Hl Hp]; subst. constructor; [by apply IH|].
  apply Forall_forall. intros q' Hq'. apply list_elem_of_lookup in Hq' as [i Hi].
  destruct (Forall2_lookup_r _ _ _ _ _ Hlk Hi) as (p' & Hp' & Epq').
  rewrite Forall_forall in Hp. specialize (Hp p'). unfold cmp_le in *.
  rewrite <-(cmp_eq_l locked_cmp p q) by by apply Heq. rewrite <-(cmp_eq_r locked_cmp p' q') by by apply Heq.
  apply Hp. by eapply list_elem_of_lookup_2.
Qed.

Lemma validate_canonical_resolution_ok r :
  validate_canonical_resolution r = Ok tt ↔
    strictly_sorted locked_cmp (locked_packages r) ∧
    Forall (λ p, strictly_sorted dependency_edge_cmp (locked_dependencies p)) (locked_packages r).
Proof.
  unfold validate_canonical_resolution. cbv zeta. set (l := locked_packages r).
  assert (existsb (λ w, req (locked_identity w.1) (locked_identity w.2)) (windows2 l) = false ↔
    Forall (λ w, locked_cmp w.1 w.2 ≠ Eq) (windows2 l)) as Hw.
  { rewrite existsb_false, !Forall_forall.
    assert (∀ w : LockedPackage * LockedPackage, req (locked_identity w.1) (locked_identity w.2) = false ↔
      locked_cmp w.1 w.2 ≠ Eq) as Hw by (intros w; by rewrite locked_cmp_eq, req_false_iff).
    by setoid_rewrite Hw. }
  assert (existsb (λ p, existsb (λ w, negb (is_lt (dependency_edge_cmp w.1 w.2)))
    (windows2 (locked_dependencies p))) l = false ↔
    Forall (λ p, strictly_sorted dependency_edge_cmp (locked_dependencies p)) l) as He.
  { rewrite existsb_false, !Forall_forall. by setoid_rewrite windows_edges_strict. }
  split.
  - destruct (req (sort_by locked_cmp l) l) eqn:Es; cbn [negb]; [|done].
    apply sorted_req in Es; [|apply sort_by_sorted, _]. rewrite (sorted_windows_strict locked_cmp) by done.
    rewrite <-Hw, <-He. destruct (existsb _ (windows2 l)); [done|]. by destruct (existsb _ l).
  - intros [Hs Hl]. rewrite (sort_by_strict locked_cmp) by done. rewrite req_refl. cbn [negb].
    apply He in Hl as ->. pose proof (strictly_sorted_le locked_cmp l Hs) as Hle.
    apply (sorted_windows_strict locked_cmp) in Hs; [|done]. apply Hw in Hs as ->. done.
Qed.

(** The two checks of a lock that is about to be used say that it is canonical. *)
Theorem lock_checks_spec lock :
  (let? _ := Lockfile_validate lock in validate_canonical_resolution (lock_resolution lock)) = Ok tt ↔
    lock_canonical lock.
Proof.
  rewrite result_bind_ok. split.
  - intros ([] & Hv & [Hs He]%validate_canonical_resolution_ok).
    apply validate_canonical in Hv as (Hr & Hn & Hc & Hl); [|done]. by split.
  - intros []. exists tt. split; [apply validate_canonical|apply validate_canonical_resolution_ok]; done.
Qed.

(** What a lock may be made of. *)
Record acceptable (r_requirement : VersionConstraint) (r : LockedResolution) : Prop := {
  acceptable_target :
    VersionConstraint_satisfies r_requirement (target_r_version (locked_target r)) = true;
  acceptable_lockable : Forall lockable (locked_packages r);
  acceptable_names : ∀ p q, p ∈ locked_packages r → q ∈ locked_packages r →
    locked_name p = locked_name q → normalized_package p ≈ normalized_package q;
  acceptable_closed : closed_under_edges (locked_packages r);
}.

(** Making a lock succeeds exactly on acceptable resolutions; the lock is then
    canonical, keeps target, environment, cutoff and intent, and holds the
    normalised packages, equal records once. *)
Definition lock_of (intent : Sha256Digest) (r_requirement : VersionConstraint) (r : LockedResolution)
    (lock : Lockfile) : Prop :=
  lock_canonical lock ∧ resolution_intent_sha256 lock = intent ∧
  lock_r_requirement lock = canonicalize_constraint r_requirement ∧
  lock_resolution lock = with_packages r (locked_packages (lock_resolution lock)) ∧
  (∀ p, p ∈ locked_packages (lock_resolution lock) → ∃ q, q ∈ locked_packages r ∧ p = normalized_package q) ∧
  (∀ q, q ∈ locked_packages r → ∃ p, p ∈ locked_packages (lock_resolution lock) ∧ p ≈ normalized_package q).

Lemma locked_name_req p q : p ≈ q → locked_name p = locked_name q ∧ locked_identity p ≈ locked_identity q.
Proof.
  intros Hpq. change (LockedPackage_eq p q = true) in Hpq. unfold LockedPackage_eq in Hpq.
  rewrite !andb_true_iff in Hpq. destruct Hpq as [[[[[[Hi _] _] _] _] _] _].
  assert (locked_identity p ≈ locked_identity q) as Hid by exact Hi. split; [|done].
  by apply ReleaseIdentity_name_proper.
Qed.

Lemma normalize_contents_ok self lock :
  normalize_contents self = Ok lock ↔ ∃ l,
    Forall lockable (locked_packages (lock_resolution self)) ∧
    unique_packages (sort_by locked_cmp (normalized_package <$> locked_packages (lock_resolution self))) = Ok l ∧
    ensure_installed_names l = Ok tt ∧ ensure_dependencies_exist l = Ok tt ∧
    lock = mk_Lockfile (resolution_intent_sha256 self) (lock_r_requirement self)
             (with_packages (lock_resolution self) l).
Proof.
  unfold normalize_contents. rewrite result_bind_ok. setoid_rewrite normalize_packages_ok. split.
  - intros (? & [Hl ->] & E). apply result_bind_ok in E as (l & Hu & E).
    apply result_bind_ok in E as ([] & Hn & E). apply result_bind_ok in E as ([] & Hd & [= <-]).
    by exists l.
  - intros (l & Hl & Hu & Hn & Hd & ->). eexists. split; [by split|]. rewrite Hu. cbn [result_bind].
    rewrite Hn. cbn [result_bind]. by rewrite Hd.
Qed.

Lemma normalized_lockable p : lockable (normalized_package p) ↔ lockable p.
Proof. done. Qed.

(** The packages of a lock that was made. *)
Lemma normalized_unique_canonical r l lock :
  Forall lockable (locked_packages r) →
  unique_packages (sort_by locked_cmp (normalized_package <$> locked_packages r)) = Ok l →
  ensure_installed_names l = Ok tt → ensure_dependencies_exist l = Ok tt →
  locked_packages (lock_resolution lock) = l →
  VersionConstraint_satisfies (lock_r_requirement lock)
    (target_r_version (locked_target (lock_resolution lock))) = true →
  lock_canonical lock ∧ (∀ p, p ∈ l → ∃ q, q ∈ locked_packages r ∧ p = normalized_package q) ∧
  (∀ q, q ∈ locked_packages r → ∃ p, p ∈ l ∧ p ≈ normalized_package q).
Proof.
  intros Hl Hu Hn Hd <- Hr.
  apply unique_packages_sorted in Hu as (Hs & Hin & Hall); [|apply sort_by_sorted, _].
  set (l := locked_packages (lock_resolution lock)) in *.
  assert (∀ p, p ∈ l → ∃ q, q ∈ locked_packages r ∧ p = normalized_package q) as Hfrom.
  { intros p (q & -> & Hq)%Hin%elem_of_sort_by%list_elem_of_fmap. by exists q. }
  split_and!; [split| |]; try done.
  - by apply strict_names, ensure_installed_names_ok.
  - apply Forall_forall. intros p (q & _ & ->)%Hfrom. apply canonicalize_edges_sorted.
  - by apply ensure_dependencies_exist_ok.
  - apply Forall_forall. intros p (q & Hq & ->)%Hfrom. rewrite Forall_forall in Hl. exact (Hl q Hq).
  - intros q Hq. apply Hall. apply elem_of_sort_by, list_elem_of_fmap. by exists q.
Qed.

(** A canonical lock is made of itself. *)
Lemma normalize_canonical lock : lock_canonical lock → normalize_contents lock = Ok lock.
Proof.
  intros []. apply normalize_contents_ok. exists (locked_packages (lock_resolution lock)).
  assert (normalized_package <$> locked_packages (lock_resolution lock)
    = locked_packages (lock_resolution lock)) as Hid.
  { rewrite <-(list_fmap_id (locked_packages (lock_resolution lock))) at 2. apply list_fmap_ext.
    intros i p Hp%list_elem_of_lookup_2. rewrite Forall_forall in canonical_edges0.
    unfold normalized_package. rewrite canonicalize_edges_id by by apply canonical_edges0. by destruct p. }
  rewrite Hid, (sort_by_strict locked_cmp), unique_packages_id by done. split_and!; try done.
  - by apply ensure_installed_names_ok, strict_names.
  - by apply ensure_dependencies_exist_ok.
  - by destruct lock as [? ? []].
Qed.

(** Acceptable packages go through. *)
Lemma acceptable_unique c r :
  acceptable c r → ∃ l,
    unique_packages (sort_by locked_cmp (normalized_package <$> locked_packages r)) = Ok l ∧
    ensure_installed_names l = Ok tt ∧ ensure_dependencies_exist l = Ok tt.
Proof.
  intros [_ _ Hn Hc].
  assert (∀ p, p ∈ sort_by locked_cmp (normalized_package <$> locked_packages r) →
    ∃ q, q ∈ locked_packages r ∧ p = normalized_package q) as Hfrom.
  { intros p (q & -> & Hq)%elem_of_sort_by%list_elem_of_fmap. by exists q. }
  assert (∀ p q, p ∈ sort_by locked_cmp (normalized_package <$> locked_packages r) →
    q ∈ sort_by locked_cmp (normalized_package <$> locked_packages r) →
    locked_name p = locked_name q → p ≈ q) as Hsame.
  { intros p q (p' & Hp & ->)%Hfrom (q' & Hq & ->)%Hfrom E. by apply Hn. }
  destruct (unique_packages_complete (sort_by locked_cmp (normalized_package <$> locked_packages r)))
    as [l Hu].
  { intros p q Hp Hq E. apply Hsame; [done..|]. by apply ReleaseIdentity_name_proper. }
  exists l. split; [done|]. apply unique_packages_sorted in Hu as (Hs & Hin & Hall); [|apply sort_by_sorted, _].
  split.
  - apply ensure_installed_names_ok. intros p q Hp%Hin Hq%Hin E. by apply locked_name_req, Hsame.
  - apply ensure_dependencies_exist_ok. intros p d (p' & Hp & ->)%Hin%Hfrom Hd.
    cbn in Hd. rewrite elem_of_canonicalize_edges in Hd.
    destruct (proj1 (list_elem_of_fmap _ _ _) (Hc p' d Hp Hd)) as (q & -> & Hq).
    destruct (Hall (normalized_package q)) as (q' & Hq' & Hname%locked_name_req).
    { apply elem_of_sort_by, list_elem_of_fmap. by exists q. }
    apply list_elem_of_fmap. exists q'. split; [|done]. symmetry. apply Hname.
Qed.

(** Packages that are all held by [l], normalised and with distinct names, agree by
    name and are closed as [l] is. *)
Lemma normalized_names_agree (l k : list LockedPackage) :
  NoDup (locked_name <$> l) → (∀ q, q ∈ k → ∃ p, p ∈ l ∧ p ≈ normalized_package q) →
  ∀ p q, p ∈ k → q ∈ k → locked_name p = locked_name q → normalized_package p ≈ normalized_package q.
Proof.
  intros Hnd Hto p q Hp Hq Epq. destruct (Hto p Hp) as (p' & Hp' & Ep), (Hto q Hq) as (q' & Hq' & Eq).
  assert (p' = q') as ->; [|by rewrite <-Ep, <-Eq].
  apply (NoDup_fmap_eq locked_name l); [done..|].
  rewrite (proj1 (locked_name_req _ _ Ep)), (proj1 (locked_name_req _ _ Eq)). done.
Qed.

Lemma normalized_edges_closed (l k : list LockedPackage) :
  closed_under_edges l → (∀ p, p ∈ l → ∃ q, q ∈ k ∧ p = normalized_package q) →
  (∀ q, q ∈ k → ∃ p, p ∈ l ∧ p ≈ normalized_package q) → closed_under_edges k.
Proof.
  intros Hclosed Hfrom Hto p d Hp Hdep.
  destruct (Hto p Hp) as (p' & Hp' & Ep). destruct (Hfrom p' Hp') as (q & Hq & ->).
  assert (canonicalize_dependency_edges (locked_dependencies q) ≈
          canonicalize_dependency_edges (locked_dependencies p)) as Ed.
  { change (LockedPackage_eq (normalized_package q) (normalized_package p) = true) in Ep.
    unfold LockedPackage_eq in Ep. rewrite !andb_true_iff in Ep. apply Ep. }
  apply req_leibniz in Ed. rewrite <-elem_of_canonicalize_edges, <-Ed in Hdep.
  apply (Hclosed _ d Hp') in Hdep. apply list_elem_of_fmap in Hdep as (x & -> & Hx).
  destruct (Hfrom x Hx) as (y & Hy & ->). apply list_elem_of_fmap. by exists y.
Qed.

Lemma Lockfile_new_ok intent c r lock :
  Lockfile_new intent c r = Ok lock ↔
    normalize_contents (mk_Lockfile intent (canonicalize_constraint c) r) = Ok lock ∧
    validate_contents lock = Ok tt.
Proof.
  unfold Lockfile_new. rewrite result_bind_ok. split.
  - intros (l & Hn & E). apply result_bind_ok in E as ([] & Hv & [= <-]). done.
  - intros [Hn Hv]. exists lock. split; [done|]. by rewrite Hv.
Qed.

(** C13: making a lock succeeds exactly on acceptable resolutions.  The lock is then
    canonical, keeps intent, target, environment and cutoff, and holds the
    normalised packages, equal records once. *)
Theorem Lockfile_new_spec intent c r :
  match Lockfile_new intent c r with
  | Ok lock => acceptable c r ∧ lock_of intent c r lock
  | Err _ => ¬ acceptable c r
  end.
Proof.
  destruct (Lockfile_new intent c r) as [lock|e] eqn:E.
  - apply Lockfile_new_ok in E as [(l & Hl & Hu & Hn & Hd & ->)%normalize_contents_ok Hv].
    cbn [lock_resolution lock_r_requirement resolution_intent_sha256] in *.
    pose proof (unique_packages_sorted _ _ (sort_by_sorted locked_cmp _) Hu) as (Hs & Hin & Hall).
    apply validate_canonical in Hv as (Hr & Hv); [|done]. cbn in Hr.
    edestruct (normalized_unique_canonical r l (mk_Lockfile intent (canonicalize_constraint c) (with_packages r l)))
      as (Hcan & Hfrom & Hto); [done..|].
    split; [|by split_and!]. destruct Hcan as [_ _ Hnd _ Hclosed _]. cbn in Hnd, Hclosed.
    split; [by rewrite <-canonicalize_constraint_satisfies|done|..].
    + by apply (normalized_names_agree l).
    + by apply (normalized_edges_closed l).
  - intros Hacc. destruct (acceptable_unique c r Hacc) as (l & Hu & Hn & Hd). destruct Hacc as [Hr Hl _ _].
    set (lock := mk_Lockfile intent (canonicalize_constraint c) (with_packages r l)).
    assert (Lockfile_new intent c r = Ok lock); [|congruence]. apply Lockfile_new_ok. split.
    { apply normalize_contents_ok. exists l. by split_and!. }
    assert (VersionConstraint_satisfies (lock_r_requirement lock)
      (target_r_version (locked_target (lock_resolution lock))) = true) as Hr'.
    { change (VersionConstraint_satisfies (canonicalize_constraint c) (target_r_version (locked_target r)) = true).
      by rewrite canonicalize_constraint_satisfies. }
    destruct (normalized_unique_canonical r l lock) as ([] & _); try done. by apply validate_canonical.
Qed.

(** A canonical lock whose requirement is canonical is made of its own parts. *)
Theorem Lockfile_new_canonical lock :
  lock_canonical lock → canonicalize_constraint (lock_r_requirement lock) = lock_r_requirement lock →
  Lockfile_new (resolution_intent_sha256 lock) (lock_r_requirement lock) (lock_resolution lock) = Ok lock.
Proof.
  intros Hlock Hc. apply Lockfile_new_ok. rewrite Hc. split.
  - assert (mk_Lockfile (resolution_intent_sha256 lock) (lock_r_requirement lock) (lock_resolution lock)
      = lock) as -> by (by destruct lock). by apply normalize_canonical.
  - destruct Hlock. by apply validate_canonical.
Qed.
End lock.
