(* ===== verification/LockGraph.v ===== *)
(** * Consuming a lock is sound and complete

    The recursion over the edges finds exactly what is reachable, and a graph is
    consumed exactly when the lock is canonical, fits the request and holds nothing
    but what the roots need. *)

From S2P Require Import Prelude RustStd Collections Externals Text Format Versions Names Publication.
From S2P Require Import Identity Constraints Request Policy Manifest Locators ManifestWire Compose Lock LockConsume LockLaws.

Lemma bt_from_iter_sorted {K V : Type} (c : K → K → comparison) `{!CmpOrder c} (l : list (K * V)) :
  bt_sorted c (bt_from_iter c l).
Proof.
  unfold bt_from_iter. assert (bt_sorted c (@nil (K * V))) as Hm by constructor.
  revert Hm. generalize (@nil (K * V)). induction l as [|[k v] l IH]; intros m Hm; [done|].
  simpl. by apply IH, bt_insert_sorted.
Qed.

(** ** The edges between packages *)

Section graph.
Context (l : list LockedPackage).

(** [p] has an edge to [q]. *)
Definition locked_edge (p q : LockedPackage) : Prop :=
  q ∈ l ∧ ∃ d, d ∈ locked_dependencies p ∧ locked_package d = locked_name q.

(** The names still to be met. *)
Definition unmet (seen : list PackageName) : nat := length (filter (λ n, n ∉ seen) (locked_name <$> l)).

Lemma unmet_mono seen seen' : seen ⊆ seen' → unmet seen' ≤ unmet seen.
Proof.
  intros Hs. unfold unmet. induction (locked_name <$> l) as [|n k IH]; [done|].
  rewrite !filter_cons. repeat case_decide; simpl; [lia|set_solver|lia|lia].
Qed.

Lemma unmet_cons seen p : p ∈ l → locked_name p ∉ seen → unmet (locked_name p :: seen) < unmet seen.
Proof.
  intros Hp Hn. unfold unmet. apply (list_elem_of_fmap_2 locked_name) in Hp.
  pose proof (unmet_mono seen (locked_name p :: seen)) as Hmono. unfold unmet in Hmono.
  revert Hmono. generalize (locked_name p) Hp Hn. clear. intros n Hp Hn _.
  induction (locked_name <$> l) as [|m k IH]; [by apply elem_of_nil in Hp|].
  assert (length (filter (λ n', n' ∉ n :: seen) k) ≤ length (filter (λ n', n' ∉ seen) k)) as Hle.
  { clear -n. induction k as [|m k IH]; [done|]. rewrite !filter_cons.
    repeat case_decide; simpl; [lia|set_solver|lia|lia]. }
  rewrite !filter_cons. destruct (decide (n = m)) as [<-|Hne].
  - rewrite decide_False by set_solver. rewrite decide_True by done. simpl. lia.
  - apply elem_of_cons in Hp as [?|Hp]; [done|]. specialize (IH Hp).
    repeat case_decide; simpl; [lia|set_solver|set_solver|lia].
Qed.

Lemma unmet_le seen : unmet seen < S (length l).
Proof.
  unfold unmet. rewrite Nat.lt_succ_r, <-(length_fmap locked_name l). apply length_filter.
Qed.
(** ** The recursion *)

(** What a call adds to the set: names reachable from the package, with all their
    edges. *)
Record marked (seen seen' : list PackageName) (from : LockedPackage → Prop) : Prop := {
  marked_grows : seen ⊆ seen';
  marked_reached n : n ∈ seen' → n ∈ seen ∨ ∃ p q, from p ∧ rtc locked_edge p q ∧ n = locked_name q;
  marked_edges q d : q ∈ l → locked_name q ∈ seen' → locked_name q ∉ seen →
    d ∈ locked_dependencies q → locked_package d ∈ seen';
}.

Lemma marked_refl seen from : marked seen seen from.
Proof using. split; [done|by left|done]. Qed.

Lemma marked_trans s1 s2 s3 from :
  marked s1 s2 from → marked s2 s3 from → marked s1 s3 from.
Proof using.
  intros [Hg Hr He] [Hg' Hr' He']. split.
  - set_solver.
  - intros n [Hn|?]%Hr'; [by apply Hr|by right].
  - intros q d Hq Hq3 Hq1 Hd. destruct (decide (locked_name q ∈ s2)) as [Hq2|Hq2].
    + apply Hg'. by apply (He q).
    + by apply (He' q).
Qed.

Lemma marked_weaken s1 s2 from (from' : LockedPackage → Prop) :
  (∀ p, from p → from' p) → marked s1 s2 from → marked s1 s2 from'.
Proof using. intros Hf [Hg Hr He]. split; [done| |done]. intros n [?|(p & q & ? & ? & ?)]%Hr; [by left|right; exists p, q; auto]. Qed.

Context (Hnames : NoDup (locked_name <$> l)) (Hclosed : closed_under_edges l).

Lemma packages_by_name_get n p :
  bt_get PackageName_cmp n (packages_by_name l) = Some p ↔ p ∈ l ∧ locked_name p = n.
Proof using Hnames.
  assert (NoDup ((λ p, (locked_name p, p)) <$> l).*1) as Hnd by by rewrite <-list_fmap_compose.
  unfold packages_by_name. split.
  - intros (k & <-%PackageName_cmp_eq & Hin)%(bt_get_in PackageName_cmp).
    apply (elem_of_bt_from_iter PackageName_cmp _ (n, p) Hnd) in Hin.
    apply list_elem_of_fmap in Hin as (q & [= -> ->] & Hq). done.
  - intros [Hp <-]. apply (bt_in_get PackageName_cmp).
    + apply (bt_from_iter_sorted PackageName_cmp).
    + apply (elem_of_bt_from_iter PackageName_cmp _ _ Hnd), list_elem_of_fmap. by exists p.
Qed.

Definition marks (fuel : nat) : Prop :=
  ∀ seen p, p ∈ l → unmet seen < fuel →
    ∃ seen', mark_reachable fuel (packages_by_name l) seen p = Ok seen' ∧
      locked_name p ∈ seen' ∧ marked seen seen' (λ q, q = p).

(** One package after the other, for any walk that finds packages by name. *)
Lemma marks_fold fuel (e : LockedPackage → LockedDependencyEdge → LockError) p :
  marks fuel → ∀ ds seen, (∀ d, d ∈ ds → locked_package d ∈ locked_name <$> l) → unmet seen < fuel →
  ∃ seen', try_fold (λ reachable dependency,
      match bt_get PackageName_cmp (locked_package dependency) (packages_by_name l) with
      | Some dependency_package => mark_reachable fuel (packages_by_name l) reachable dependency_package
      | None => Err (e p dependency)
      end) seen ds = Ok seen' ∧
    (∀ d, d ∈ ds → locked_package d ∈ seen') ∧
    marked seen seen' (λ q, q ∈ l ∧ ∃ d, d ∈ ds ∧ locked_package d = locked_name q).
Proof using Hnames Hclosed.
  intros Hmarks ds. induction ds as [|d ds IH]; intros seen Hds Hfuel; cbn [try_fold].
  { exists seen. split_and!; [done|by intros d ?%elem_of_nil|apply marked_refl]. }
  assert (locked_package d ∈ locked_name <$> l) as Hd by (apply Hds; left).
  apply list_elem_of_fmap in Hd as (q & Eq & Hq).
  rewrite (proj2 (packages_by_name_get (locked_package d) q)) by done.
  destruct (Hmarks seen q Hq Hfuel) as (s1 & -> & Hq1 & Hm1). cbn [result_bind].
  destruct (IH s1) as (s2 & -> & Hds2 & Hm2); [intros; apply Hds; by right| |].
  { pose proof (unmet_mono seen s1 (marked_grows _ _ _ Hm1)). lia. }
  exists s2. split_and!; [done| |].
  - intros d' [->|Hd']%elem_of_cons; [|by apply Hds2]. rewrite Eq. by apply (marked_grows _ _ _ Hm2).
  - eapply marked_trans; (eapply marked_weaken; [|eassumption]); simpl.
    + intros ? ->. split; [done|]. exists d. by split; [left|].
    + intros x [Hx (d' & Hd' & ?)]. split; [done|]. exists d'. by split; [right|].
Qed.

(** With more fuel than names still to be met the recursion ends and finds the
    package, what is reachable from it and nothing else. *)
Lemma mark_reachable_marks fuel : marks fuel.
Proof using Hnames Hclosed.
  induction fuel as [|fuel IH]; intros seen p Hp Hfuel; [lia|]. cbn [mark_reachable].
  case_bool_decide as Hseen; [exists seen; split_and!; [done..|apply marked_refl]|].
  pose proof (unmet_cons seen p Hp Hseen).
  destruct (marks_fold fuel (λ p d, DanglingDependency (locked_text p) (PackageName_as_str (locked_package d)))
              p IH (locked_dependencies p) (locked_name p :: seen)) as (s & -> & Hds & [Hg Hr He]);
    [by intros; eapply Hclosed|lia|].
  exists s. split_and!; [done|set_solver|]. split.
  - set_solver.
  - intros n [[->|?]%elem_of_cons|(x & q & [Hx Hd] & Hxq & ->)]%Hr; [|by left|].
    + right. exists p, p. split_and!; [done|apply rtc_refl|done].
    + right. exists p, q. split_and!; [done| |done]. eapply rtc_l; [|exact Hxq]. by split.
  - intros q d Hq Hqs Hqseen Hd. destruct (decide (locked_name q = locked_name p)) as [E|Hne].
    + apply (NoDup_fmap_eq locked_name l) in E as ->; [|done..]. by apply Hds.
    + apply (He q); [done..| |done]. set_solver.
Qed.

End graph.

(** ** Visible repositories *)

Section visibility.
Context (configured : list RepositorySpec) (Hids : NoDup (spec_id <$> configured)).

Lemma configured_ranks_get id i :
  bt_get Identifier_cmp id (configured_ranks configured) = Some i ↔ (spec_id <$> configured) !! i = Some id.
Proof using Hids.
  unfold configured_ranks. set (ids := spec_id <$> configured) in *.
  assert (length configured = length ids) as -> by (symmetry; apply length_fmap).
  assert (NoDup (zip ids (seq 0 (length ids))).*1) as Hnd by (by rewrite fst_zip by by rewrite length_seq).
  assert (∀ q, q ∈ zip ids (seq 0 (length ids)) ↔ ids !! q.2 = Some q.1) as Hzip.
  { intros [x j]. simpl. rewrite list_elem_of_lookup. split.
    - intros (k & Hk). apply lookup_zip_Some in Hk as [Hx [-> _]%lookup_seq]. done.
    - intros Hx. exists j. apply lookup_zip_Some. split; [done|]. apply lookup_seq.
      split; [done|]. by eapply lookup_lt_Some. }
  split.
  - intros (k & <-%Identifier_cmp_eq & Hin)%(bt_get_in Identifier_cmp).
    rewrite (elem_of_bt_from_iter Identifier_cmp _ _ Hnd) in Hin. by apply Hzip in Hin.
  - intros Hi. apply (bt_in_get Identifier_cmp); [apply (bt_from_iter_sorted Identifier_cmp)|].
    apply (elem_of_bt_from_iter Identifier_cmp _ _ Hnd). by apply Hzip.
Qed.

Definition after (previous : option nat) : nat := from_option S 0 previous.

(** Increasing ranks are the order of the configuration. *)
Lemma check_order_sublist p previous v :
  (∀ r, r ∈ v → r ∈ spec_id <$> configured) →
  check_order (configured_ranks configured) p previous v = Ok tt ↔
    v `sublist_of` drop (after previous) (spec_id <$> configured).
Proof using Hids.
  revert previous. induction v as [|r v IH]; intros previous Hv; cbn [check_order].
  { split; [intros _; apply sublist_nil_l|done]. }
  destruct (proj1 (list_elem_of_lookup _ r) (Hv r ltac:(left))) as [i Hi].
  rewrite (proj2 (configured_ranks_get r i) Hi). cbn [default]. cbv zeta. cbn [from_option id].
  assert (match previous with Some previous => Nat.leb i previous | None => false end
    = negb (bool_decide (after previous ≤ i))) as ->.
  { destruct previous as [k|]; simpl; [|done]. destruct (Nat.leb_spec i k); case_bool_decide; (done || lia). }
  case_bool_decide as Ho; cbn [negb].
  - rewrite IH by (intros; apply Hv; by right). cbn [after from_option]. rewrite sublist_cons_l. split.
    + intros Hs. exists (drop (after previous) (take i (spec_id <$> configured))), (drop (S i) (spec_id <$> configured)).
      split; [|done]. rewrite <-(take_drop_middle _ _ _ Hi) at 1.
      rewrite drop_app_le; [done|]. rewrite length_take_le; [done|]. apply lookup_lt_Some in Hi. lia.
    + intros (k1 & k2 & Hk & Hs).
      assert ((spec_id <$> configured) !! (after previous + length k1) = Some r) as Hi'.
      { rewrite <-lookup_drop, Hk. by apply list_lookup_middle. }
      assert (i = after previous + length k1) as -> by (eapply (NoDup_lookup _ _ _ _ Hids); eassumption).
      replace (S (after previous + length k1)) with (length (k1 ++ [r]) + after previous)
        by (rewrite length_app; simpl; lia).
      rewrite Nat.add_comm, <-drop_drop, Hk, (cons_middle r k1 k2), app_assoc, drop_app_length. done.
  - split; [done|]. intros (k1 & k2 & Hk & _)%sublist_cons_l. exfalso. apply Ho.
    assert ((spec_id <$> configured) !! (after previous + length k1) = Some r) as Hi'.
    { rewrite <-lookup_drop, Hk. by apply list_lookup_middle. }
    assert (i = after previous + length k1) by (eapply (NoDup_lookup _ _ _ _ Hids); eassumption). lia.
Qed.

(** The repositories a package is visible from are configured ones in their order
    and allow it. *)
Definition visible_as_configured (p : LockedPackage) : Prop :=
  locked_visible p `sublist_of` (spec_id <$> configured) ∧
  ∀ spec, spec ∈ configured → spec_id spec ∈ locked_visible p → package_allowed spec (locked_name p) = true.

Lemma find_configured id :
  id ∈ spec_id <$> configured → ∃ spec, spec ∈ configured ∧ spec_id spec = id ∧
    List.find (λ candidate, bool_decide (spec_id candidate = id)) configured = Some spec.
Proof using.
  intros (spec & -> & Hs)%list_elem_of_fmap.
  destruct (List.find _ configured) as [found|] eqn:E.
  - pose proof (find_some _ _ E) as [Hin Hid%bool_decide_eq_true]. exists found. split_and!; [|done..].
    by apply list_elem_of_In.
  - apply list_elem_of_In in Hs. pose proof (find_none _ _ E spec Hs) as Hn. cbv beta in Hn. by rewrite bool_decide_eq_true_2 in Hn.
Qed.

Lemma check_allowed_ok p r :
  r ∈ spec_id <$> configured →
  check_allowed configured p r = Ok tt ↔
    ∀ spec, spec ∈ configured → spec_id spec = r → package_allowed spec (locked_name p) = true.
Proof using Hids.
  intros (spec & Hs & Hid & E)%find_configured. unfold check_allowed. rewrite E. split.
  - intros Ha spec' Hs' Hid'. assert (spec' = spec) as ->; [|by destruct (package_allowed _ _)].
    apply (NoDup_fmap_eq spec_id configured); [done..|congruence].
  - intros Ha. by rewrite Ha.
Qed.

Lemma check_package_visibility_ok p :
  check_package_visibility configured p = Ok tt ↔ visible_as_configured p.
Proof using Hids.
  unfold check_package_visibility, visible_as_configured. rewrite !try_map_check.
  assert ((∀ r, r ∈ locked_visible p → check_configured (spec_id <$> configured) p r = Ok tt) ↔
    ∀ r, r ∈ locked_visible p → r ∈ spec_id <$> configured) as ->.
  { unfold check_configured. split; intros Hr r Hin; specialize (Hr r Hin); by case_bool_decide. }
  split.
  - intros (Hin & Hal & Ho). split.
    + rewrite check_order_sublist in Ho by done. exact Ho.
    + intros spec Hs Hv. specialize (Hal _ Hv). rewrite check_allowed_ok in Hal by by apply Hin.
      by apply Hal.
  - intros [Hs Hal]. assert (∀ r, r ∈ locked_visible p → r ∈ spec_id <$> configured) as Hin.
    { intros r Hr. by eapply elem_of_sublist. }
    split_and!; [done| |by apply check_order_sublist].
    intros r Hr. rewrite check_allowed_ok by by apply Hin. intros spec Hspec <-. by apply Hal.
Qed.

Lemma visible_somewhere_ok p :
  visible_as_configured p → visible_somewhere configured p = true ↔ locked_visible p ≠ [].
Proof using.
  intros [Hs Hal]. unfold visible_somewhere. split.
  - by destruct (locked_visible p).
  - destruct (locked_visible p) as [|r v] eqn:E; [done|]. intros _.
    assert (r ∈ spec_id <$> configured) as (spec & -> & Hspec)%list_elem_of_fmap.
    { eapply elem_of_sublist; [|exact Hs]. left. }
    cbn [existsb]. apply orb_true_iff. left. apply existsb_exists. exists spec.
    split; [by apply list_elem_of_In|]. rewrite bool_decide_eq_true_2 by done. simpl.
    apply Hal; [done|]. left.
Qed.
End visibility.

(** ** Checks in sequence *)

Lemma bind_unit_ok {U E} (r : result unit E) (k : result U E) u :
  (let? _ := r in k) = Ok u ↔ r = Ok tt ∧ k = Ok u.
Proof. destruct r as [[]|]; naive_solver. Qed.

Lemma guard_ok {U E} (b : bool) (e : E) (k : result U E) u :
  (if negb b then Err e else k) = Ok u ↔ b = true ∧ k = Ok u.
Proof. destruct b; naive_solver. Qed.

(** ** Roots *)

Section consume.
Context `{CivilDate}.

Definition runtime_root (root : RootCheck) : bool :=
  runtime_provided root && is_r_base_name (check_name root).

(** The package a root asks for. *)
Definition starts_at (l : list LockedPackage) (root : RootCheck) (p : LockedPackage) : Prop :=
  runtime_root root = false ∧ p ∈ l ∧ locked_name p = check_name root.

Definition root_satisfied (r_version : RPackageVersion) (l : list LockedPackage) (root : RootCheck) : Prop :=
  if runtime_root root then VersionConstraint_satisfies (check_constraint root) r_version = true
  else ∃ p, p ∈ l ∧ locked_name p = check_name root ∧
         VersionConstraint_satisfies (check_constraint root) (locked_version p) = true ∧
         ∀ repository, check_repository root = Some repository → repository ∈ locked_visible p.

(** Some root leads to the package along the edges. *)
Definition needed (l : list LockedPackage) (roots : list RootCheck) (p : LockedPackage) : Prop :=
  ∃ root q, root ∈ roots ∧ starts_at l root q ∧ rtc (locked_edge l) q p.

Section roots.
Context (l : list LockedPackage) (Hnames : NoDup (locked_name <$> l)) (Hclosed : closed_under_edges l).
Context (r_version : RPackageVersion).

Lemma consume_root_ok seen root :
  match consume_root r_version (S (length l)) (packages_by_name l) seen root with
  | Ok seen' => root_satisfied r_version l root ∧ marked l seen seen' (starts_at l root) ∧
                (∀ p, starts_at l root p → locked_name p ∈ seen')
  | Err _ => ¬ root_satisfied r_version l root
  end.
Proof using Hnames Hclosed.
  unfold consume_root, root_satisfied, starts_at. fold (runtime_root root).
  destruct (runtime_root root).
  { destruct (VersionConstraint_satisfies _ _); [|done]. split_and!; [done|apply marked_refl|by intros p []]. }
  destruct (bt_get _ _ _) as [p|] eqn:Eg; cbn [ok_or result_bind].
  2: { intros (p & Hp & Hn & _). by rewrite (proj2 (packages_by_name_get l Hnames (check_name root) p)) in Eg. }
  apply (packages_by_name_get l Hnames) in Eg as [Hp Hn].
  assert (∀ q, q ∈ l → locked_name q = check_name root → q = p) as Huniq.
  { intros q Hq E. apply (NoDup_fmap_eq locked_name l); congruence. }
  destruct (VersionConstraint_satisfies (check_constraint root) (locked_version p)) eqn:Ev; cbn [negb].
  2: { intros (q & Hq & Eq & Hv & _). rewrite (Huniq q Hq Eq) in Hv. congruence. }
  assert (match check_repository root with
    | Some repository => if bool_decide (repository ∈ locked_visible p) then Ok tt
        else Err (RootRepositoryNotVisible (PackageName_as_str (check_name root)) (Identifier_as_str repository))
    | None => Ok tt
    end = Ok tt ↔ ∀ repository, check_repository root = Some repository → repository ∈ locked_visible p) as Hvis.
  { destruct (check_repository root) as [r|]; [|naive_solver]. case_bool_decide; naive_solver. }
  destruct (match check_repository root with Some _ => _ | None => _ end) as [[]|e]; cbn [result_bind].
  - destruct (mark_reachable_marks l Hnames Hclosed (S (length l)) seen p Hp (unmet_le l seen))
      as (seen' & -> & Hin & Hm). split_and!; [|eapply marked_weaken; [|exact Hm]|].
    + exists p. split_and!; [done..|]. by apply Hvis.
    + by intros q ->.
    + intros q (_ & Hq & E). by rewrite (Huniq q Hq E).
  - intros (q & Hq & Eq & _ & Hr). rewrite (Huniq q Hq Eq) in Hr. by apply Hvis in Hr.
Qed.

Lemma consume_roots_fold roots seen :
  match try_fold (consume_root r_version (S (length l)) (packages_by_name l)) seen roots with
  | Ok seen' => Forall (root_satisfied r_version l) roots ∧
                marked l seen seen' (λ p, ∃ root, root ∈ roots ∧ starts_at l root p) ∧
                (∀ root p, root ∈ roots → starts_at l root p → locked_name p ∈ seen')
  | Err _ => ¬ Forall (root_satisfied r_version l) roots
  end.
Proof using Hnames Hclosed.
  revert seen. induction roots as [|root roots IH]; intros seen; cbn [try_fold].
  { split_and!; [constructor|apply marked_refl|by intros ? ? ?%elem_of_nil]. }
  pose proof (consume_root_ok seen root) as Hroot.
  destruct (consume_root _ _ _ seen root) as [s|e]; cbn [result_bind]; [|by intros [? _]%Forall_cons].
  destruct Hroot as (Hsat & Hm & Hin). specialize (IH s).
  destruct (try_fold _ s roots) as [s'|e]; [|by intros [_ ?]%Forall_cons].
  destruct IH as (Hsats & Hms & Hins). split_and!; [by constructor| |].
  - eapply marked_trans; (eapply marked_weaken; [|eassumption]); cbn beta.
    + intros p Hp. exists root. by split; [left|].
    + intros p (root' & Hr & Hp). exists root'. by split; [right|].
  - intros root' p [->|Hr]%elem_of_cons Hp; [|by apply (Hins root')].
    apply (marked_grows _ _ _ _ Hms). by apply Hin.
Qed.

(** From the empty set exactly the names of needed packages are marked. *)
Lemma consume_roots_marked roots seen' :
  try_fold (consume_root r_version (S (length l)) (packages_by_name l)) [] roots = Ok seen' →
  ∀ p, p ∈ l → locked_name p ∈ seen' ↔ needed l roots p.
Proof using Hnames Hclosed.
  intros E p Hp. pose proof (consume_roots_fold roots []) as Hf. rewrite E in Hf.
  destruct Hf as (_ & [_ Hr He] & Hin). split.
  - intros [?%elem_of_nil|(q & x & (root & Hroot & Hq) & Hqx & Ex)]%Hr; [done|].
    assert (x ∈ l) as Hx.
    { apply rtc_inv_r in Hqx as [->|(y & _ & [? _])]; [|done]. by destruct Hq as (_ & ? & _). }
    assert (x = p) as -> by (apply (NoDup_fmap_eq locked_name l); congruence || done).
    by exists root, q.
  - intros (root & q & Hroot & Hq & Hqp). specialize (Hin root q Hroot Hq).
    assert (q ∈ l) as Hql by by destruct Hq as (_ & ? & _). clear Hp Hq Hroot.
    induction Hqp as [q|q x p [Hx (d & Hd & Ed)] _ IH]; [done|]. apply IH; [|done].
    rewrite <-Ed. apply (He q); [done..|set_solver|done].
Qed.
End roots.

(** ** The consumed graph *)

Definition graph_of (self : Lockfile) : ConsumedLockedGraph :=
  mk_ConsumedLockedGraph (locked_target (lock_resolution self)) (locked_environment (lock_resolution self))
    (locked_cutoff (lock_resolution self)) (locked_packages (lock_resolution self)).

Definition direct_root (roots : list RootCheck) (p : LockedPackage) : Prop :=
  ∃ root, root ∈ roots ∧ direct_source root = true ∧ check_name root = locked_name p.

(** With configured repositories: they explain where each package is visible from,
    and a package that is no direct source is visible from one. *)
Definition explained (roots : list RootCheck) (configured : list RepositorySpec) (p : LockedPackage) : Prop :=
  visible_as_configured configured p ∧ (direct_root roots p ∨ locked_visible p ≠ []).

Lemma check_reached_ok roots configured reachable p :
  (∀ c, configured = Some c → visible_as_configured c p) →
  check_reached roots configured reachable p = Ok tt ↔
    locked_name p ∈ reachable ∧
    ∀ c, configured = Some c → direct_root roots p ∨ locked_visible p ≠ [].
Proof.
  intros Hc. unfold check_reached. cbv zeta. case_bool_decide as Hr; cbn [negb]; [|naive_solver].
  destruct configured as [c|]; [|naive_solver]. specialize (Hc c eq_refl).
  assert (existsb (λ root, direct_source root && bool_decide (check_name root = locked_name p)) roots = true
    ↔ direct_root roots p) as Hd.
  { rewrite existsb_exists. unfold direct_root. setoid_rewrite andb_true_iff.
    setoid_rewrite bool_decide_eq_true. setoid_rewrite list_elem_of_In. done. }
  pose proof (visible_somewhere_ok c p Hc) as Hv.
  destruct (existsb _ roots), (visible_somewhere c p); cbn [negb andb]; naive_solver.
Qed.

(** What remains of the checks once the lock is known to be canonical. *)
Lemma consume_packages_ok self r_version roots configured g :
  let l := locked_packages (lock_resolution self) in
  lock_canonical self → (∀ c, configured = Some c → NoDup (spec_id <$> c)) →
  (let? _ := match configured with
             | Some configured => try_map (check_package_visibility configured) l
             | None => Ok []
             end in
   let? reachable := try_fold (consume_root r_version (S (length l)) (packages_by_name l)) [] roots in
   let? _ := try_map (check_reached roots configured reachable) l in
   Ok (graph_of self)) = Ok g ↔
  Forall (root_satisfied r_version l) roots ∧ (∀ p, p ∈ l → needed l roots p) ∧
  (∀ c p, configured = Some c → p ∈ l → explained roots c p) ∧ g = graph_of self.
Proof.
  intros l [_ _ Hnames _ Hclosed _] Hids. fold l in Hnames, Hclosed.
  assert (∀ k : result ConsumedLockedGraph LockError,
    (let? _ := match configured with
               | Some configured => try_map (check_package_visibility configured) l
               | None => Ok []
               end in k) = Ok g ↔
    (∀ c p, configured = Some c → p ∈ l → visible_as_configured c p) ∧ k = Ok g) as Hvis.
  { intros k. destruct configured as [c|]; [|naive_solver]. rewrite try_map_check.
    setoid_rewrite (check_package_visibility_ok c (Hids c eq_refl)). naive_solver. }
  rewrite Hvis. clear Hvis. pose proof (consume_roots_fold l Hnames Hclosed r_version roots []) as Hf.
  destruct (try_fold _ [] roots) as [reachable|e] eqn:E; cbn [result_bind]; [|naive_solver].
  pose proof (consume_roots_marked l Hnames Hclosed r_version roots reachable E) as Hm.
  destruct Hf as [Hsat _]. rewrite try_map_check. unfold explained.
  split.
  - intros (Hv & Hr & [= <-]).
    assert (∀ p, p ∈ l → locked_name p ∈ reachable ∧
      ∀ c, configured = Some c → direct_root roots p ∨ locked_visible p ≠ []) as Hr'.
    { intros p Hp. apply check_reached_ok; [intros; by apply Hv|by apply Hr]. }
    split_and!; [done| | |done].
    + intros p Hp. apply Hm; [done|]. by apply Hr'.
    + intros c p Hc Hp. split; [by apply Hv|]. by apply (proj2 (Hr' p Hp) c).
  - intros (_ & Hn & He & ->). split_and!; [intros; by apply He| |done].
    intros p Hp. apply check_reached_ok; [intros; by apply He|]. split; [by apply Hm; [|apply Hn]|].
    intros c Hc. by apply (He c p).
Qed.

(** C8: a graph is consumed exactly when the lock is canonical, its target, environment
    and R requirement fit, every root is satisfied, every package is needed by some
    root, and the configured repositories explain where packages are visible; the
    graph is then the lock's own. *)
Theorem consume_roots_spec self lock_target environment r_requirement roots configured g :
  (∀ c, configured = Some c → NoDup (spec_id <$> c)) →
  consume_roots self lock_target environment r_requirement roots configured = Ok g ↔
    let l := locked_packages (lock_resolution self) in
    let r_version := target_r_version (locked_target (lock_resolution self)) in
    lock_canonical self ∧
    r_version ≈ target_r_version lock_target ∧
    locked_environment (lock_resolution self) = environment ∧
    VersionConstraint_satisfies r_requirement r_version = true ∧
    Forall (root_satisfied r_version l) roots ∧
    (∀ p, p ∈ l → needed l roots p) ∧
    (∀ c p, configured = Some c → p ∈ l → explained roots c p) ∧
    g = graph_of self.
Proof.
  intros Hids. unfold consume_roots, environment_mismatch. cbv zeta.
  set (l := locked_packages (lock_resolution self)).
  set (r_version := target_r_version (locked_target (lock_resolution self))).
  rewrite !bind_unit_ok, !guard_ok, <-lock_checks_spec, bind_unit_ok, bool_decide_eq_true.
  change (req r_version (target_r_version lock_target) = true) with (r_version ≈ target_r_version lock_target).
  assert (lock_canonical self →
    (let? _ := match configured with
               | Some configured => try_map (check_package_visibility configured) l
               | None => Ok []
               end in
     let? reachable := try_fold (consume_root r_version (S (length l)) (packages_by_name l)) [] roots in
     let? _ := try_map (check_reached roots configured reachable) l in
     Ok (graph_of self)) = Ok g ↔
    Forall (root_satisfied r_version l) roots ∧ (∀ p, p ∈ l → needed l roots p) ∧
    (∀ c p, configured = Some c → p ∈ l → explained roots c p) ∧ g = graph_of self) as Hrest
    by (intros Hcan; by apply consume_packages_ok).
  rewrite <-lock_checks_spec, bind_unit_ok in Hrest. unfold graph_of in Hrest. tauto.
Qed.
End consume.
