(* ===== verification/LockIdentities.v ===== *)
(** * What a lock gives the solver

    The identities of a lock under their solver keys, and the lock made of a
    resolution. *)

From S2P Require Import Prelude RustStd Collections Externals Text Format Versions Names Publication.
From S2P Require Import Identity Constraints Metadata Request Resolution Policy Manifest Locators ManifestWire.
From S2P Require Import Compose Lock LockConsume LockLaws.

(** ** The map of identities *)

(** Entries with equal keys have the same value. *)
Definition functional (entries : list (SolverKey * ReleaseIdentity)) : Prop :=
  ∀ e e', e ∈ entries → e' ∈ entries → e.1 ≈ e'.1 → e.2 = e'.2.

Definition holds_entries (m : LockedIdentities) (entries : list (SolverKey * ReleaseIdentity)) : Prop :=
  ∀ key i, hm_get key m = Some i ↔ ∃ e, e ∈ entries ∧ e.1 ≈ key ∧ e.2 = i.

Lemma insert_identities entries pre m :
  functional (pre ++ entries) → holds_entries m pre →
  ∃ m', try_fold insert_identity m entries = Ok m' ∧ holds_entries m' (pre ++ entries).
Proof.
  revert pre m. induction entries as [|e entries IH]; intros pre m Hf Hm; cbn [try_fold].
  { exists m. by rewrite app_nil_r. }
  assert (insert_identity m e = Ok (hm_insert e.1 e.2 m)) as ->.
  { unfold insert_identity. destruct (hm_get e.1 m) as [i|] eqn:E; [|done].
    apply Hm in E as (e' & He' & Hk & <-).
    rewrite (Hf e' e); [by rewrite req_refl|set_solver|set_solver|done]. }
  cbn [result_bind]. destruct (IH (pre ++ [e]) (hm_insert e.1 e.2 m)) as (m' & -> & Hm').
  { by rewrite <-app_assoc. }
  - intros key i. destruct (decide (e.1 ≈ key)) as [Hk|Hk].
    + rewrite hm_get_insert_eq by done. split.
      * intros [= <-]. exists e. set_solver.
      * intros (e' & He' & Hk' & <-). f_equal. apply Hf; [set_solver..|by etrans].
    + rewrite hm_get_insert_ne by done. rewrite (Hm key i). setoid_rewrite elem_of_app.
      setoid_rewrite list_elem_of_singleton. naive_solver.
  - exists m'. by rewrite <-app_assoc in Hm'.
Qed.

(** Every key names the package. *)
Lemma identity_solver_keys_name i visible key :
  key ∈ identity_solver_keys i visible → subject_name key = Some (ReleaseIdentity_name i).
Proof.
  unfold identity_solver_keys, provenance_keys.
  intros [->|[(r & -> & _)%list_elem_of_fmap|Hk]%elem_of_app]%elem_of_cons; [done..|].
  destruct (ReleaseIdentity_provenance i); set_solver.
Qed.

Lemma elem_of_package_entries p e :
  e ∈ package_entries p ↔
    e.1 ∈ identity_solver_keys (locked_identity p) (locked_visible p) ∧ e.2 = locked_identity p.
Proof.
  unfold package_entries. rewrite list_elem_of_fmap. destruct e as [key i]. simpl. naive_solver.
Qed.

Lemma entries_functional (l : list LockedPackage) :
  NoDup (locked_name <$> l) → functional (mjoin (package_entries <$> l)).
Proof.
  intros Hnd e e' He He' Hk.
  apply list_elem_of_join in He as (es & He & (p & -> & Hp)%list_elem_of_fmap).
  apply list_elem_of_join in He' as (es & He' & (q & -> & Hq)%list_elem_of_fmap).
  apply elem_of_package_entries in He as [He ->], He' as [He' ->].
  apply identity_solver_keys_name in He, He'. rewrite (subject_name_proper _ _ Hk), He' in He.
  injection He as He. by rewrite (NoDup_fmap_eq locked_name l p q) by (done || by unfold locked_name).
Qed.

Section lock.
Context `{CivilDate}.

(** C27: a canonical lock gives every key of its packages the package's identity, and
    knows no other key. *)
Theorem locked_identities_spec lock :
  lock_canonical lock →
  ∃ identities, locked_identities lock = Ok identities ∧
    ∀ key i, hm_get key identities = Some i ↔
      ∃ p key', p ∈ locked_packages (lock_resolution lock) ∧ key' ≈ key ∧
        key' ∈ identity_solver_keys (locked_identity p) (locked_visible p) ∧ i = locked_identity p.
Proof.
  intros Hlock. pose proof (canonical_names _ Hlock) as Hnd.
  unfold locked_identities. apply lock_checks_spec, result_bind_ok in Hlock as ([] & -> & _).
  cbn [result_bind]. set (l := locked_packages (lock_resolution lock)) in *.
  destruct (insert_identities (mjoin (package_entries <$> l)) [] []) as (m & -> & Hm).
  - by apply entries_functional.
  - intros key i. split; [done|]. by intros (e & ?%elem_of_nil & _).
  - exists m. split; [done|]. intros key i. rewrite (Hm key i). cbn [app].
    setoid_rewrite list_elem_of_join. setoid_rewrite list_elem_of_fmap. split.
    + intros (e & (es & He & (p & -> & Hp)) & Hk & <-). apply elem_of_package_entries in He as [He Ei].
      by exists p, e.1.
    + intros (p & key' & Hp & Hk & Hin & ->). exists (key', locked_identity p).
      split_and!; [|done..]. exists (package_entries p). split; [by apply elem_of_package_entries|].
      by exists p.
Qed.

(** ** The lock of a resolution *)

(** The text of a version is read back as the version. *)
Definition version_reads_back (v : RPackageVersion) : Prop :=
  ∃ w, RPackageVersion_parse (RPackageVersion_as_str v) = Ok w ∧ w ≈ v.

Lemma parsed_reads_back s v : RPackageVersion_parse s = Ok v → version_reads_back v.
Proof.
  intros Hs. exists v. split; [|done].
  assert (RPackageVersion_as_str v = s) as ->; [|done].
  unfold RPackageVersion_parse, RPackageVersion_parse_with_minimum in Hs.
  repeat (case_match || apply result_bind_ok in Hs as (? & _ & Hs)); by simplify_eq.
Qed.

(** A package of a resolution that can be locked: it is none of R's own, its
    identity carries its version, and version texts are read back. *)
Record resolved_lockable (p : ResolvedPackage) : Prop := {
  resolved_not_base : PackageRelease_is_r_base_package (resolved_release p) = false;
  resolved_version_text : version_reads_back (resolved_version p);
  resolved_provenance_version v :
    provenance_version (ReleaseIdentity_provenance (resolved_identity p)) = Some v →
    v ≈ resolved_version p ∧ version_reads_back v;
  resolved_visible : NoDup (visible_repository_ids p);
}.

Lemma published_reads_back p :
  resolved_lockable p →
  ∃ w, RPackageVersion_parse (published_text (resolved_identity p) (resolved_version p)) = Ok w ∧
       w ≈ resolved_version p.
Proof.
  intros [_ Ht Hv _]. unfold published_text.
  destruct (ReleaseIdentity_provenance (resolved_identity p)) as [w|n w|r c d|n r w|s d];
    cbn [provenance_version] in Hv; try done;
    destruct (Hv w eq_refl) as [Hw (w' & Hp & Hw')]; exists w'; (split; [done|by etrans]).
Qed.

Lemma from_resolved_lockable p : resolved_lockable p → lockable (LockedPackage_from_resolved p).
Proof.
  intros Hp. destruct (published_reads_back p Hp) as (w & Hparse & Hw). destruct Hp as [Hb _ Hv Hvis].
  split; [|exact Hvis]. unfold LockedPackage_validate, LockedPackage_from_resolved. cbv zeta.
  cbn [locked_identity locked_version requested_git_source published_version_spelling result_bind].
  unfold PackageRelease_is_r_base_package in Hb. fold (resolved_identity p) in Hb. rewrite Hb.
  assert (provenance_version_differs (ReleaseIdentity_provenance (resolved_identity p)) (resolved_version p)
    = false) as ->.
  { unfold provenance_version_differs.
    destruct (ReleaseIdentity_provenance (resolved_identity p)) as [v|n v|r c d|n r v|s d]; try done;
      apply negb_false_iff; by apply (Hv v). }
  case_bool_decide as Hne; [|done]. rewrite Hparse. cbn [map_err result_bind].
  rewrite (proj2 (req_true_iff w (resolved_version p)) Hw). cbn [negb orb].
  by rewrite bool_decide_eq_false_2.
Qed.

(** The lock's package for one of the resolution. *)
Definition locked_of (resolution : Resolution) (p : ResolvedPackage) : LockedPackage :=
  retain_selected (resolved_name <$> resolution_packages resolution) (LockedPackage_from_resolved p).

Lemma strictly_sorted_filter {A : Type} (c : A → A → comparison) (f : A → bool) l :
  strictly_sorted c l → strictly_sorted c (List.filter f l).
Proof.
  unfold strictly_sorted. induction 1 as [|x l _ IH Hx]; simpl; [constructor|].
  destruct (f x); [|done]. constructor; [done|]. rewrite Forall_forall in *.
  intros y [Hy _]%elem_of_filter_bool. by apply Hx.
Qed.

Lemma strictly_sorted_fmap {A B : Type} (c : A → A → comparison) (d : B → B → comparison) (f : A → B) l :
  (∀ x y, c x y = Lt → d (f x) (f y) = Lt) → strictly_sorted c l → strictly_sorted d (f <$> l).
Proof.
  intros Hf. unfold strictly_sorted. induction 1 as [|x l _ IH Hx]; simpl; constructor; [done|].
  apply Forall_fmap. eapply Forall_impl; [exact Hx|]. intros y. apply Hf.
Qed.

(** Edges lead to the selected packages other than R. *)
Lemma elem_of_locked_edges resolution p kind name :
  mk_LockedDependencyEdge kind name ∈ locked_dependencies (locked_of resolution p) ↔
    PackageName_as_str name ≠ "R" ∧ name ∈ resolved_name <$> resolution_packages resolution ∧
    ∃ e, e ∈ effective_dependencies p ∧ edge_kind e = kind ∧ requirement_name (edge_package e) = name.
Proof.
  cbn [locked_of retain_selected locked_dependencies LockedPackage_from_resolved].
  rewrite elem_of_filter_bool, elem_of_canonicalize_edges, bool_decide_eq_true. cbn [locked_package].
  unfold locked_edges. rewrite list_elem_of_fmap. setoid_rewrite elem_of_filter_bool.
  setoid_rewrite negb_true_iff. unfold PackageName_is. setoid_rewrite bool_decide_eq_false. split.
  - intros [(e & [= -> ->] & He & Hr) Hn]. split_and!; [done..|by exists e].
  - intros (Hr & Hn & e & He & <- & <-). split; [|done]. by exists e.
Qed.

(** A lock is made of every resolution whose packages are lockable and in name
    order, as resolutions are: it holds one package for each of the resolution, in
    the same order, with the same identity, version, digest and visible
    repositories, and with the edges to selected packages. *)
Theorem from_resolution_spec resolution environment cutoff intent c :
  strictly_sorted resolved_name_cmp (resolution_packages resolution) →
  Forall resolved_lockable (resolution_packages resolution) →
  VersionConstraint_satisfies c (target_r_version (resolution_target resolution)) = true →
  let lock := mk_Lockfile intent (canonicalize_constraint c)
                (mk_LockedResolution (resolution_target resolution) environment cutoff
                   (locked_of resolution <$> resolution_packages resolution)) in
  from_resolution_with_applicability resolution environment cutoff intent c = Ok lock ∧
  lock_canonical lock ∧
  ∀ p kind name, p ∈ resolution_packages resolution →
    mk_LockedDependencyEdge kind name ∈ locked_dependencies (locked_of resolution p) ↔
      PackageName_as_str name ≠ "R" ∧ name ∈ resolved_name <$> resolution_packages resolution ∧
      ∃ e, e ∈ effective_dependencies p ∧ edge_kind e = kind ∧ requirement_name (edge_package e) = name.
Proof.
  intros Hs Hl Hc lock. set (l := resolution_packages resolution) in *.
  assert (strictly_sorted locked_cmp (locked_of resolution <$> l)) as Hsl.
  { eapply strictly_sorted_fmap; [|exact Hs]. intros x y E. unfold locked_cmp, cmp_on, cmp_identity.
    change (then_with (resolved_name_cmp x y)
      (cmp_provenance (ReleaseIdentity_provenance (resolved_identity x))
         (ReleaseIdentity_provenance (resolved_identity y))) = Lt). by rewrite E. }
  assert (locked_name <$> (locked_of resolution <$> l) = resolved_name <$> l) as Hnames
    by by rewrite <-list_fmap_compose.
  assert (lock_canonical lock) as Hcan.
  { split; cbn [lock lock_resolution lock_r_requirement locked_target locked_packages].
    - by rewrite canonicalize_constraint_satisfies.
    - done.
    - rewrite Hnames. apply (strict_sorted_NoDup PackageName_cmp).
      by apply (strictly_sorted_fmap resolved_name_cmp).
    - apply Forall_fmap, Forall_forall. intros p _. apply strictly_sorted_filter, canonicalize_edges_sorted.
    - intros p [kind name] (q & -> & Hq)%list_elem_of_fmap Hd%elem_of_locked_edges. rewrite Hnames. apply Hd.
    - apply Forall_fmap. eapply Forall_impl; [exact Hl|]. intros p Hp. by apply from_resolved_lockable in Hp. }
  split_and!; [|done|intros; apply elem_of_locked_edges].
  unfold from_resolution_with_applicability. cbv zeta. fold l.
  change ((λ selected, retain_selected (resolved_name <$> l) (LockedPackage_from_resolved selected)) <$> l)
    with (locked_of resolution <$> l).
  apply try_map_check. split.
  - intros p (q & -> & Hq)%list_elem_of_fmap. rewrite Forall_forall in Hl.
    by destruct (from_resolved_lockable q (Hl q Hq)).
  - rewrite (sort_by_strict locked_cmp) by done. rewrite unique_packages_id by done. cbn [result_bind].
    apply (Lockfile_new_canonical lock); [done|]. apply canonicalize_constraint_idemp.
Qed.
End lock.
