(* ===== verification/LockWireLaws.v ===== *)
(** * Locks are read back

    The texts of versions and constraints are canonical and parse to what they were
    made of; the record written for a lock decodes to the lock. *)

From S2P Require Import Prelude RustStd Collections Externals Text Format NetAddr Versions Names GitUrl.
From S2P Require Import Publication Identity Constraints Request PackagesLaws Manifest Locators ManifestWire.
From S2P Require Import Compose Lock LockLaws LockWire.

(** ** Joining and splitting *)

Lemma split_join (sep : byte → bool) (c : string) (b : byte) (l : list string) :
  bytes c = [b] → sep b = true → l ≠ [] → Forall (λ s, Forall (λ b, sep b = false) (bytes s)) l →
  str_split sep (str_join c l) = l.
Proof.
  intros Hc Hb Hne Hl. unfold str_split.
  assert (split_bytes sep (bytes (str_join c l)) = bytes <$> l) as ->.
  { induction Hl as [|x l Hx Hl IH]; [done|]. destruct l as [|y l].
    - simpl. by rewrite split_bytes_no_separator.
    - change (str_join c (x :: y :: l)) with (x +:+ c +:+ str_join c (y :: l)).
      rewrite !bytes_app, Hc. cbn [app]. rewrite split_bytes_app_separator by done.
      rewrite IH by done. done. }
  rewrite <-list_fmap_compose. rewrite <-(list_fmap_id l) at 2. apply list_fmap_ext.
  intros i x _. apply from_utf8_bytes.
Qed.

(** ** Canonical version texts *)

Definition canonical_components (v : RPackageVersion) : list N :=
  rev (pop_zeros (rev (RPackageVersion_components v))).

Lemma pop_zeros_strip l : strip_zeros (rev (pop_zeros l)) = strip_zeros (rev l).
Proof.
  induction l as [|x l IH]; [done|]. cbn [pop_zeros].
  destruct (Nat.ltb 2 (length (x :: l)) && N.eqb x 0) eqn:E; [|done].
  apply andb_true_iff in E as [_ E]. rewrite IH. cbn [rev]. by rewrite strip_zeros_snoc, E.
Qed.

Lemma pop_zeros_length l : Nat.min 2 (length l) ≤ length (pop_zeros l) ≤ length l.
Proof.
  induction l as [|x l IH]; [done|]. cbn [pop_zeros].
  destruct (Nat.ltb 2 (length (x :: l)) && N.eqb x 0) eqn:E; [|split; [apply Nat.le_min_r|done]].
  apply andb_true_iff in E as [E%Nat.ltb_lt _]. cbn [length] in *. lia.
Qed.

Lemma pop_zeros_idemp l : pop_zeros (pop_zeros l) = pop_zeros l.
Proof.
  induction l as [|x l IH]; [done|]. cbn [pop_zeros].
  destruct (Nat.ltb 2 (length (x :: l)) && N.eqb x 0) eqn:E; [done|]. cbn [pop_zeros]. by rewrite E.
Qed.

Lemma elem_of_pop_zeros l x : x ∈ pop_zeros l → x ∈ l.
Proof.
  induction l as [|y l IH]; [done|]. cbn [pop_zeros].
  destruct (Nat.ltb 2 (length (y :: l)) && N.eqb y 0); [|done]. intros. right. by apply IH.
Qed.

(** With two components at least, what is popped depends on the value only. *)
Lemma pop_zeros_value l :
  2 ≤ length l → rev (pop_zeros l) = strip_zeros (rev l) ++ replicate (2 - length (strip_zeros (rev l))) 0%N.
Proof.
  induction l as [|x l IH]; intros Hl; [simpl in Hl; lia|]. cbn [pop_zeros].
  destruct (Nat.ltb 2 (length (x :: l)) && N.eqb x 0) eqn:E.
  - apply andb_true_iff in E as [E%Nat.ltb_lt Ex]. simpl in E. rewrite IH by lia. cbn [rev].
    by rewrite strip_zeros_snoc, Ex.
  - cbn [rev]. rewrite strip_zeros_snoc. destruct (N.eqb x 0) eqn:Ex.
    + rewrite andb_true_r in E. apply Nat.ltb_ge in E. apply N.eqb_eq in Ex as ->.
      destruct l as [|y [|z l]]; simpl in *; try lia. by destruct y.
    + replace (2 - length (rev l ++ [x])) with 0; [by rewrite app_nil_r|].
      rewrite length_app, length_rev. simpl in *. lia.
Qed.

(** A version its parser made, with at least [m] components. *)
Definition version_made (m : nat) (v : RPackageVersion) : Prop :=
  RPackageVersion_parse_with_minimum (RPackageVersion_as_str v) m = Ok v.

Lemma version_made_components m v :
  version_made m v → RPackageVersion_wf v ∧ RPackageVersion_components v ≠ [] ∧
    m ≤ length (RPackageVersion_components v) ∧ Forall (λ n, n ≤ u32_max)%N (RPackageVersion_components v).
Proof.
  intros Hv. pose proof Hv as (Hne & values & Hvalues & Hm & E)%parse_ok_iff.
  assert (RPackageVersion_wf v) as Hwf by (rewrite E; apply Components_from_vec_wf).
  rewrite (RPackageVersion_components_values v Hwf). rewrite E. cbn [version_components].
  rewrite Components_values_from_vec. split_and!; [by rewrite E in Hwf| |done|].
  - intros ->. apply Forall2_nil_inv_r in Hvalues. unfold str_split in Hvalues.
    by destruct (split_bytes_cons is_version_separator (bytes (RPackageVersion_as_str v))) as (p & ps & Hp);
      rewrite Hp in Hvalues.
  - clear -Hvalues. induction Hvalues as [|c n cs ns (_ & _ & _ & Hn) _ IH]; by constructor.
Qed.

Lemma version_value v : RPackageVersion_wf v →
  Components_iter (version_components v) = strip_zeros (RPackageVersion_components v).
Proof. intros Hv. by rewrite RPackageVersion_components_values, Components_iter_strip. Qed.

(** Equal versions of two components or more have one canonical text. *)
Lemma canonical_version_req v w :
  version_made 2 v → version_made 2 w → v ≈ w → wire_canonical_version v = wire_canonical_version w.
Proof.
  intros (Hv & _ & Hlv & _)%version_made_components (Hw & _ & Hlw & _)%version_made_components E.
  apply version_req_iter in E. rewrite !version_value in E by done.
  unfold wire_canonical_version. rewrite !pop_zeros_value, !rev_involutive, E by by rewrite length_rev.
  done.
Qed.

Lemma digits_value_decimal l : digits_value l = decimal_value l.
Proof.
  unfold digits_value, digits_value_from, decimal_value, digits_number, digit_value.
  generalize 0%N. induction l as [|b l IH]; intros n; [done|]. simpl. apply IH.
Qed.

Lemma component_value_text n : (n ≤ u32_max)%N → component_value (N_to_string n) n.
Proof.
  intros Hn. destruct (N_to_string_digits n) as (Hd & Hne & Hv). split_and!; [|done|by rewrite digits_value_decimal|done].
  intros E. by rewrite E in Hne.
Qed.

(** The canonical text of a version is read back. *)
Lemma canonical_version_parse m v :
  version_made m v → m ≤ 2 →
  ∃ w, RPackageVersion_parse_with_minimum (wire_canonical_version v) m = Ok w ∧ w ≈ v ∧
       version_made m w ∧ wire_canonical_version w = wire_canonical_version v.
Proof.
  intros (Hwf & Hne & Hm & Hb)%version_made_components Hm2.
  set (cs := canonical_components v).
  assert (cs ≠ [] ∧ m ≤ length cs) as [Hcs Hmc].
  { pose proof (pop_zeros_length (rev (RPackageVersion_components v))) as Hlen.
    rewrite length_rev in Hlen. unfold cs, canonical_components. rewrite length_rev. split; [|lia].
    intros E%(f_equal length). rewrite length_rev in E. simpl in E.
    destruct (RPackageVersion_components v); [done|]. rewrite E in Hlen. cbn [length] in Hlen. lia. }
  assert (str_split is_version_separator (wire_canonical_version v) = N_to_string <$> cs) as Hsplit.
  { apply (split_join _ _ (byte_of 46)); [done|done|by intros ?%fmap_nil_inv|].
    apply Forall_fmap, Forall_forall. intros n _. eapply Forall_impl; [apply (N_to_string_digits n)|].
    apply byte_excludes. vm_compute. reflexivity. }
  assert (RPackageVersion_parse_with_minimum (wire_canonical_version v) m
    = Ok (mk_RPackageVersion (wire_canonical_version v) (Components_from_vec cs))) as Hparse.
  { apply parse_ok_iff. split.
    - intros E. rewrite E in Hsplit. destruct cs as [|n [|]]; [done| |done]. injection Hsplit as Hn.
      symmetry in Hn. destruct (N_to_string_digits n) as (_ & Hnn & _). by rewrite Hn in Hnn.
    - exists cs. split_and!; [|done|done]. rewrite Hsplit. apply Forall2_fmap_l, Forall_Forall2_diag.
      apply Forall_forall. intros n Hn. apply component_value_text. rewrite Forall_forall in Hb. apply Hb.
      unfold cs, canonical_components in Hn. rewrite list_elem_of_In, <-in_rev, <-list_elem_of_In in Hn.
      apply elem_of_pop_zeros in Hn. by rewrite list_elem_of_In, <-in_rev, <-list_elem_of_In in Hn. }
  eexists. split; [exact Hparse|].
  assert (RPackageVersion_components (mk_RPackageVersion (wire_canonical_version v) (Components_from_vec cs)) = cs) as Hcomp.
  { rewrite RPackageVersion_components_values by apply Components_from_vec_wf. apply Components_values_from_vec. }
  split_and!; [|exact Hparse|].
  - apply version_req_iter. rewrite !version_value; [|done|apply Components_from_vec_wf].
    rewrite Hcomp. unfold cs, canonical_components. by rewrite pop_zeros_strip, rev_involutive.
  - unfold wire_canonical_version at 1. rewrite Hcomp. unfold cs, canonical_components.
    by rewrite rev_involutive, pop_zeros_idemp.
Qed.

(** ** Canonical constraint texts *)

(** The bytes of a constraint's text. *)
Definition constraint_byte (b : byte) : bool :=
  word_byte b || byte_is 60 b || byte_is 61 b || byte_is 62 b || byte_is 33 b || byte_is 44 b.

Lemma constraint_text_plain s :
  Forall (λ b, constraint_byte b = true) (bytes s) →
  has_control s = false ∧ str_trim s = s ∧ s ≠ "*".
Proof.
  intros Hs. split_and!.
  - unfold has_control. rewrite chars_ascii.
    + apply existsb_false_Forall, Forall_fmap. eapply Forall_impl; [exact Hs|].
      apply (byte_excludes constraint_byte (λ b, char_is_control (u8 b))). vm_compute. reflexivity.
    + eapply Forall_impl; [exact Hs|]. intros b Hb. apply N.ltb_lt. revert b Hb.
      apply (byte_implies constraint_byte is_ascii_byte). vm_compute. reflexivity.
  - unfold str_trim. rewrite trim_bytes_id; [apply from_utf8_bytes|..].
    + eapply Forall_impl; [exact Hs|]. apply (byte_implies constraint_byte is_ascii_byte). vm_compute. reflexivity.
    + intros b Hb. apply (byte_excludes constraint_byte blank_byte); [vm_compute; reflexivity|].
      rewrite Forall_forall in Hs. apply Hs. destruct (bytes s); simplify_eq/=. left.
    + intros b Hb. apply (byte_excludes constraint_byte blank_byte); [vm_compute; reflexivity|].
      rewrite Forall_forall in Hs. by apply Hs, last_Some_elem_of.
  - intros ->. inversion Hs as [|? ? Hb _]; subst. by vm_compute in Hb.
Qed.

Lemma word_constraint l : Forall (λ b, word_byte b = true) l → Forall (λ b, constraint_byte b = true) l.
Proof.
  intros Hl. eapply Forall_impl; [exact Hl|]. apply (byte_implies word_byte constraint_byte).
  vm_compute. reflexivity.
Qed.

(** A version's canonical text starts with a digit and is a word. *)
Lemma canonical_version_text m v :
  version_made m v → m ≤ 2 →
  Forall (λ b, word_byte b = true) (bytes (wire_canonical_version v)) ∧
  ∃ b l, bytes (wire_canonical_version v) = b :: l ∧ is_ascii_digit b = true.
Proof.
  intros Hv Hm. destruct (canonical_version_parse m v Hv Hm) as (w & Hw & _ & _ & _).
  apply version_word in Hw as Hword. destruct Hword as [[_ Hword] _]. split; [done|].
  apply parse_ok_iff in Hw as (Hne & values & Hvalues & _).
  unfold str_split in Hvalues. rewrite Forall2_fmap_l in Hvalues.
  destruct (bytes (wire_canonical_version v)) as [|b l] eqn:E.
  { apply bytes_nil in E. done. }
  exists b, l. split; [done|]. destruct (is_version_separator b) eqn:Hb.
  - cbn [split_bytes] in Hvalues. destruct (split_bytes_cons is_version_separator l) as (p & ps & Ep).
    rewrite Ep, Hb in Hvalues. by inversion Hvalues as [|? ? ? ? (Hnil & _)].
  - cbn [split_bytes] in Hvalues. destruct (split_bytes_cons is_version_separator l) as (p & ps & Ep).
    rewrite Ep, Hb in Hvalues. inversion Hvalues as [|? ? ? ? (_ & Hd & _)]; subst.
    rewrite bytes_from_utf8 in Hd. by inversion Hd.
Qed.

(** A relation followed by a digit is recognised. *)
Lemma split_relation_text op s b l :
  bytes s = b :: l → is_ascii_digit b = true → split_relation (r_requirement_relation_tag op +:+ s) = (op, s).
Proof.
  intros Hs Hb. assert (s = from_utf8 (b :: l)) as -> by (by rewrite <-Hs, from_utf8_bytes).
  unfold split_relation, RELATION_PREFIXES, strip_prefix. rewrite bytes_app, bytes_from_utf8.
  destruct b; try (by vm_compute in Hb); by destruct op.
Qed.

Lemma clause_text_bytes m c :
  version_made m (clause_version c) → m ≤ 2 →
  Forall (λ b, constraint_byte b = true) (bytes (clause_text c)) ∧
  Forall (λ b, byte_is 44 b = false) (bytes (clause_text c)) ∧ clause_text c ≠ "".
Proof.
  intros Hv Hm. destruct (canonical_version_text m _ Hv Hm) as (Hw & b & l & E & _).
  unfold clause_text. rewrite bytes_app. split_and!.
  - apply Forall_app. split; [by destruct (clause_op c); repeat constructor|by apply word_constraint].
  - apply Forall_app. split; [by destruct (clause_op c); repeat constructor|].
    eapply Forall_impl; [exact Hw|]. apply byte_excludes. vm_compute. reflexivity.
  - intros Hnil%(f_equal bytes). rewrite bytes_app, E in Hnil. by apply app_nil in Hnil as [_ ?].
Qed.

(** The parser of a kind asks for so many components. *)
Definition kind_minimum (kind : ConstraintVersionKind) : nat :=
  match kind with VersionOfR => 1 | VersionOfPackage => 2 end.

Lemma parse_term_text field kind c :
  version_made (kind_minimum kind) (clause_version c) →
  ∃ d, parse_term field kind (clause_text c) = Ok d ∧ d ≈ c ∧
    version_made (kind_minimum kind) (clause_version d) ∧ clause_text d = clause_text c.
Proof.
  intros Hv. assert (kind_minimum kind ≤ 2) as Hm by (destruct kind; simpl; lia).
  destruct (clause_text_bytes _ c Hv Hm) as (Hc & _ & Hne).
  destruct (canonical_version_text _ _ Hv Hm) as (Hw & b & l & E & Hb).
  destruct (canonical_version_parse _ _ Hv Hm) as (w & Hp & Hwv & Hmade & Ht).
  exists (mk_VersionClause (clause_op c) w). split_and!; [|..|exact Hmade|by unfold clause_text; simpl; rewrite Ht].
  - unfold parse_term. cbv zeta. destruct (constraint_text_plain _ Hc) as (_ & -> & _).
    rewrite bool_decide_eq_false_2 by done. unfold clause_text. rewrite (split_relation_text _ _ b l) by done.
    destruct (constraint_text_plain (wire_canonical_version (clause_version c))) as (_ & -> & Hstar);
      [by apply word_constraint|].
    rewrite !bool_decide_eq_false_2; [|done|intros Hnil; by rewrite Hnil in E]. cbn [orb].
    assert (match kind with
      | VersionOfR => RPackageVersion_parse_bare (wire_canonical_version (clause_version c))
      | VersionOfPackage => RPackageVersion_parse (wire_canonical_version (clause_version c))
      end = Ok w) as -> by by destruct kind. done.
  - change (VersionClause_eq (mk_VersionClause (clause_op c) w) c = true). unfold VersionClause_eq. simpl.
    rewrite req_refl. exact Hwv.
Qed.

(** Clauses that are canonical and whose versions were parsed. *)
Record constraint_made (kind : ConstraintVersionKind) (c : VersionConstraint) : Prop := {
  made_canonical : canonicalize_constraint c = c;
  made_versions : Forall (λ x, version_made (kind_minimum kind) (clause_version x)) (clauses c);
}.

Lemma canonical_constraint_clauses c :
  canonicalize_constraint c = c ↔ strictly_sorted clause_key_cmp (clauses c).
Proof.
  split.
  - intros <-. apply canonical_clauses_sorted.
  - intros Hs. destruct c as [l]. unfold canonicalize_constraint. simpl in *. by rewrite canonical_clauses_id.
Qed.

Lemma canonical_r_requirement_text c :
  canonicalize_constraint c = c → canonical_r_requirement c =
    match clauses c with [] => "*" | l => str_join "," (clause_text <$> l) end.
Proof.
  intros Hc. unfold canonical_r_requirement. destruct (clauses c) as [|x l] eqn:E; [done|].
  assert (dedup_by same_clause (sort_by wire_clause_cmp (x :: l)) = x :: l) as ->; [|done].
  rewrite <-E. by apply (f_equal clauses) in Hc.
Qed.

Lemma strictly_sorted_req l k :
  Forall2 (≈) l k → strictly_sorted clause_key_cmp l → strictly_sorted clause_key_cmp k.
Proof.
  assert (∀ x y : VersionClause, x ≈ y → clause_key_cmp x y = Eq) as Heq.
  { intros x y Hxy. change (same_clause x y = true) in Hxy. rewrite same_clause_key in Hxy.
    by destruct (clause_key_cmp x y). }
  unfold strictly_sorted. intros Hlk. induction Hlk as [|x y l k Hxy Hlk IH]; [done|].
  inversion 1 as [|? ? Hl Hx]; subst. constructor; [by apply IH|].
  apply Forall_forall. intros z Hz. apply list_elem_of_lookup in Hz as [i Hi].
  destruct (Forall2_lookup_r _ _ _ _ _ Hlk Hi) as (z' & Hz' & Ez).
  rewrite Forall_forall in Hx. rewrite <-(cmp_eq_l clause_key_cmp x y), <-(cmp_eq_r clause_key_cmp z' z) by auto.
  apply Hx. by eapply list_elem_of_lookup_2.
Qed.

(** All terms of a text are read back. *)
Lemma parse_terms_text field kind l :
  Forall (λ x, version_made (kind_minimum kind) (clause_version x)) l →
  ∃ k, try_map (parse_term field kind) (clause_text <$> l) = Ok k ∧ Forall2 (≈) l k ∧
    Forall (λ x, version_made (kind_minimum kind) (clause_version x)) k ∧ clause_text <$> k = clause_text <$> l.
Proof.
  induction 1 as [|y ys Hy _ (k & Hk & Hyk & Hmk & Htk)]; [by exists []|].
  destruct (parse_term_text field kind y Hy) as (d & Hd & Hdy & Hmd & Htd).
  exists (d :: k). rewrite fmap_cons. cbn [try_map]. rewrite Hd, Hk. cbn [result_bind]. split_and!; [done| | |].
  - constructor; [by symmetry|done].
  - by constructor.
  - by rewrite fmap_cons, Htd, Htk.
Qed.

Lemma join_clauses_bytes kind x l :
  Forall (λ x, version_made (kind_minimum kind) (clause_version x)) (x :: l) →
  let text := str_join "," (clause_text <$> x :: l) in
  Forall (λ b, constraint_byte b = true) (bytes text) ∧ text ≠ "" ∧
  str_split (byte_is 44) text = clause_text <$> x :: l.
Proof.
  intros Hl text. assert (kind_minimum kind ≤ 2) as Hm by (destruct kind; simpl; lia).
  assert (∀ c, c ∈ x :: l → Forall (λ b, constraint_byte b = true) (bytes (clause_text c)) ∧
    Forall (λ b, byte_is 44 b = false) (bytes (clause_text c)) ∧ clause_text c ≠ "") as Hc.
  { intros c Hc. rewrite Forall_forall in Hl. by apply (clause_text_bytes (kind_minimum kind)); [apply Hl|]. }
  clear Hl. unfold text. split_and!.
  - clear text. revert x Hc. induction l as [|y l IH]; intros x Hc; [apply (Hc x); left|].
    change (str_join "," (clause_text <$> x :: y :: l))
      with (clause_text x +:+ "," +:+ str_join "," (clause_text <$> y :: l)).
    rewrite !bytes_app, !Forall_app. split_and!; [apply (Hc x); left|by repeat constructor|].
    apply IH. intros c Hin. apply Hc. by right.
  - destruct (Hc x ltac:(left)) as (_ & _ & Hx). intros Hn. destruct l as [|y l]; [done|].
    apply (f_equal bytes) in Hn. rewrite !fmap_cons in Hn. cbn [str_join] in Hn.
    rewrite !bytes_app in Hn. apply app_nil in Hn as [Hn%bytes_nil _]. done.
  - apply (split_join _ _ (byte_of 44)); [done..|by intros ?%fmap_nil_inv|].
    apply Forall_fmap, Forall_forall. intros c Hin. by apply Hc.
Qed.

(** The canonical text of a constraint is read back, and is canonical again. *)
Lemma canonical_constraint_parse field kind c :
  constraint_made kind c →
  ∃ d, parse_constraint (canonical_r_requirement c) field kind = Ok d ∧ d ≈ c ∧
    constraint_made kind d ∧ canonical_r_requirement d = canonical_r_requirement c.
Proof.
  intros [Hcan Hmade]. rewrite (canonical_r_requirement_text c) by done.
  destruct (clauses c) as [|x l] eqn:E.
  { exists VersionConstraint_unconstrained. split_and!; [done|by destruct c; simpl in E; subst|by split|done]. }
  destruct (parse_terms_text field kind (x :: l) Hmade) as (k & Hk & Hxk & Hmk & Htk).
  destruct (join_clauses_bytes kind x l Hmade) as (Hb & Hne & Hsplit).
  assert (strictly_sorted clause_key_cmp k) as Hsk.
  { eapply strictly_sorted_req; [exact Hxk|]. rewrite <-E. by apply canonical_constraint_clauses. }
  exists (mk_VersionConstraint k). split_and!.
  - unfold parse_constraint. destruct (constraint_text_plain _ Hb) as (-> & -> & Hstar).
    rewrite !bool_decide_eq_false_2 by done. cbn [orb]. rewrite Hsplit, Hk. cbn [result_bind]. f_equal.
    by apply canonical_constraint_clauses.
  - change (list_req k (clauses c) = true). rewrite E. apply list_req_Forall2, Forall2_flip.
    eapply Forall2_impl; [exact Hxk|]. intros y z Hyz. change (z ≈ y). by symmetry.
  - split; [by apply canonical_constraint_clauses|done].
  - rewrite canonical_r_requirement_text by by apply canonical_constraint_clauses. cbn [clauses].
    destruct k as [|y k]; [by inversion Hxk|]. by rewrite Htk.
Qed.

(** ** Values their constructors made *)

(** The text of the value is read back as the value. *)
Definition reads {T E : Type} (new : string → result T E) (text : T → string) (x : T) : Prop :=
  new (text x) = Ok x.

Definition provenance_made (p : Provenance) : Prop :=
  match p with
  | RBasePackage _ => True
  | RegistryRelease n _ => reads (Identifier_new KPackageNamespace) Identifier_as_str n
  | BioconductorReleaseOf n r _ =>
    reads (Identifier_new KPackageNamespace) Identifier_as_str n ∧
    reads (Identifier_new KBioconductorRelease) Identifier_as_str r
  | GitCommit u c s =>
    reads NormalizedGitUrl_new NormalizedGitUrl_as_str u ∧ reads GitCommitId_new GitCommitId_as_str c ∧
    ∀ d, s = Some d → reads RepositorySubdir_new RepositorySubdir_as_str d
  | ImmutableSource s d =>
    reads (Identifier_new KSourceScheme) Identifier_as_str s ∧ reads Sha256Digest_new Sha256Digest_as_str d
  end.

Definition selector_made (s : LockedGitSelector) : Prop :=
  match s with
  | LockedDefaultBranch => True
  | LockedBranch v | LockedTag v | LockedRev v => ∀ context, validate_selector v context = Ok tt
  end.

Record git_source_made (s : LockedGitSource) : Prop := {
  made_url : reads NormalizedGitUrl_new NormalizedGitUrl_as_str (git_url s);
  made_selector : selector_made (git_selector s);
  made_subdirectory d : git_subdirectory s = Some d → reads RepositorySubdir_new RepositorySubdir_as_str d;
  made_constraint : constraint_made VersionOfPackage (git_constraint s);
}.

Record package_made (p : LockedPackage) : Prop := {
  made_name : reads PackageName_new PackageName_as_str (locked_name p);
  made_provenance : provenance_made (ReleaseIdentity_provenance (locked_identity p));
  made_version : version_made 2 (locked_version p);
  made_metadata : reads Sha256Digest_new Sha256Digest_as_str (locked_metadata_sha256 p);
  made_edges : Forall (λ d, reads PackageName_new PackageName_as_str (locked_package d)) (locked_dependencies p);
  made_visible : Forall (reads (Identifier_new KRepositoryId) Identifier_as_str) (locked_visible p);
  made_source s : requested_git_source p = Some s → git_source_made s;
}.

Lemma checked_reads {T E : Type} (new : string → result T E) text field fmt (x : T) :
  reads new text x → checked_field field fmt (new (text x)) = Ok x.
Proof. intros E'. unfold checked_field. by rewrite E'. Qed.

Lemma checked_option_reads {T E : Type} (new : string → result T E) text field fmt (o : option T) :
  (∀ x, o = Some x → reads new text x) →
  checked_option (λ value, checked_field field fmt (new value)) (text <$> o) = Ok o.
Proof.
  destruct o as [x|]; [|done]. intros Hx. simpl. unfold checked_field. by rewrite (Hx x eq_refl).
Qed.

Lemma checked_list_reads {T E : Type} (new : string → result T E) text field fmt (l : list T) :
  Forall (reads new text) l → try_map (λ value, checked_field field fmt (new value)) (text <$> l) = Ok l.
Proof.
  induction 1 as [|x l Hx _ IH]; [done|]. cbn [fmap list_fmap try_map].
  rewrite (checked_reads new text field fmt x Hx). cbn [result_bind].
  change (list_fmap _ _ text l) with (text <$> l). by rewrite IH.
Qed.

Section unicode.
Context `{UnicodeTables}.

(** ** Sources *)

(** The provenance with another version. *)
Definition with_version (p : Provenance) (v : RPackageVersion) : Provenance :=
  match p with
  | RBasePackage _ => RBasePackage v
  | RegistryRelease n _ => RegistryRelease n v
  | BioconductorReleaseOf n r _ => BioconductorReleaseOf n r v
  | _ => p
  end.

Lemma provenance_read_back p v :
  provenance_made p → Provenance_is_r_base_package p = false →
  ∃ w, encode_provenance p = Ok w ∧ decode_provenance w v = Ok (with_version p v).
Proof.
  destruct p as [u|n u|r c s|n r u|s d]; cbn [provenance_made]; intros Hmade Hb; [done|..];
    eexists; (split; [done|]); cbn [decode_provenance].
  - by rewrite (checked_reads _ _ _ _ _ Hmade).
  - destruct Hmade as (Hu & Hc & Hs). rewrite (checked_reads _ _ _ _ _ Hu). cbn [result_bind].
    rewrite (checked_reads _ _ _ _ _ Hc). cbn [result_bind]. by rewrite (checked_option_reads _ _ _ _ _ Hs).
  - destruct Hmade as [Hn Hr]. rewrite (checked_reads _ _ _ _ _ Hn). cbn [result_bind].
    by rewrite (checked_reads _ _ _ _ _ Hr).
  - destruct Hmade as [Hs Hd]. rewrite (checked_reads _ _ _ _ _ Hs). cbn [result_bind].
    by rewrite (checked_reads _ _ _ _ _ Hd).
Qed.

Lemma selector_read_back s :
  selector_made s → let (kind, value) := encode_selector s in decode_selector kind value = Ok s.
Proof.
  destruct s as [|v|v|v]; cbn [encode_selector selector_made]; [done|..]; intros Hv;
    unfold decode_selector; cbv zeta; unfold checked_field; by rewrite Hv.
Qed.

Lemma git_source_read_back s :
  git_source_made s → ∃ t, decode_requested_git_source (encode_requested_git_source s) = Ok t ∧
    t ≈ s ∧ git_url t = git_url s ∧ git_selector t = git_selector s ∧ git_subdirectory t = git_subdirectory s ∧
    git_constraint t ≈ git_constraint s.
Proof.
  intros [Hu Hs Hd Hc]. pose proof (selector_read_back _ Hs) as Hsel.
  destruct (canonical_constraint_parse "package.requested-git-source.version-constraint" VersionOfPackage
              (git_constraint s) Hc) as (c & Hparse & Hcc & _ & Htext).
  exists (mk_LockedGitSource (git_url s) (git_selector s) (git_subdirectory s) c).
  unfold encode_requested_git_source, decode_requested_git_source.
  destruct (encode_selector (git_selector s)) as [kind value]. cbv zeta.
  cbn [wire_url wire_selector wire_selector_value wire_git_subdirectory wire_version_constraint].
  rewrite Hsel. cbn [result_bind]. rewrite (checked_reads _ _ _ _ _ Hu). cbn [result_bind].
  rewrite (checked_option_reads _ _ _ _ _ Hd). cbn [result_bind]. unfold parse_package_constraint, checked_field.
  rewrite Hparse. cbn [map_err result_bind]. rewrite Htext, bool_decide_eq_false_2 by (intros Hn; by apply Hn).
  split_and!; try done. change (LockedGitSource_eq (mk_LockedGitSource (git_url s) (git_selector s) (git_subdirectory s) c) s = true).
  unfold LockedGitSource_eq. cbn. rewrite !req_refl. exact Hcc.
Qed.

(** ** Packages *)

Definition written_version (p : LockedPackage) : string :=
  default (wire_canonical_version (locked_version p)) (published_version_spelling p).

(** The version written is read back with its spelling. *)
Lemma written_version_read_back p :
  lockable p → version_made 2 (locked_version p) →
  ∃ v, RPackageVersion_parse (written_version p) = Ok v ∧ v ≈ locked_version p ∧ version_made 2 v ∧
    wire_canonical_version v = wire_canonical_version (locked_version p) ∧
    (if bool_decide (wire_canonical_version v ≠ written_version p) then Some (written_version p) else None)
      = published_version_spelling p.
Proof.
  intros [Hv _] Hmade. unfold written_version.
  destruct (published_version_spelling p) as [s|] eqn:Es; cbn [default].
  - assert (∃ v, RPackageVersion_parse s = Ok v ∧ v ≈ locked_version p ∧
      s ≠ canonical_version (locked_version p)) as (v & Hp & Hvv & Hne).
    { unfold LockedPackage_validate in Hv. cbv zeta in Hv. rewrite Es in Hv.
      destruct (Provenance_is_r_base_package _); [done|]. destruct (provenance_version_differs _ _); [done|].
      apply result_bind_ok in Hv as (_ & _ & Hv). apply result_bind_ok in Hv as (v & Hp & Hv).
      apply map_err_ok in Hp. exists v. split; [done|].
      destruct (req v (locked_version p)) eqn:E; cbn [negb orb] in Hv; [|done].
      case_bool_decide as Hc; [done|]. split; [exact E|done]. }
    assert (version_made 2 v) as Hmv.
    { unfold version_made. apply version_word in Hp as Hw. destruct Hw as [_ Hraw].
      unfold RPackageVersion_as_str. by rewrite Hraw. }
    pose proof (canonical_version_req v (locked_version p) Hmv Hmade Hvv) as Hcan.
    exists v. split_and!; [done..|]. unfold id. rewrite bool_decide_eq_true_2; [done|]. rewrite Hcan. by symmetry.
  - destruct (canonical_version_parse 2 _ Hmade) as (v & Hp & Hvv & Hmv & Ht); [lia|].
    exists v. split_and!; [done..|]. rewrite bool_decide_eq_false_2; [done|]. rewrite Ht. intros Hn. by apply Hn.
Qed.

Lemma edges_read_back l :
  Forall (λ d, reads PackageName_new PackageName_as_str (locked_package d)) l →
  try_map decode_dependency (encode_dependency <$> l) = Ok l.
Proof.
  induction 1 as [|[k n] l Hd _ IH]; [done|]. rewrite fmap_cons. cbn [try_map]. rewrite IH.
  unfold decode_dependency, encode_dependency. cbn [wire_kind wire_package locked_kind locked_package] in *.
  assert (decode_dependency_kind (encode_dependency_kind k) = Ok k) as -> by by destruct k.
  cbn [result_bind]. by rewrite (checked_reads _ _ _ _ _ Hd).
Qed.

Lemma with_version_req p v w :
  provenance_version_differs p v = false → Provenance_is_r_base_package p = false → w ≈ v → with_version p w ≈ p.
Proof.
  intros Hd Hb Hw. change (Provenance_eq (with_version p w) p = true).
  destruct p as [u|n u|r c s|n r u|s d]; cbn in *; try done; rewrite ?req_refl; cbn [andb]; try done;
    apply negb_false_iff in Hd; change (w ≈ u); (etrans; [exact Hw|]); symmetry; exact Hd.
Qed.

Lemma git_source_matches_proper p v s t :
  git_url s = git_url t → git_subdirectory s = git_subdirectory t →
  git_source_matches (with_version p v) s = git_source_matches p t.
Proof. intros Hu Hs. by destruct p; cbn; rewrite ?Hu, ?Hs. Qed.

(** Sources that differ in the spelling of their constraint at most. *)
Definition same_sources (source source' : option LockedGitSource) : Prop :=
  match source, source' with
  | Some s, Some t => git_url s = git_url t ∧ git_selector s = git_selector t ∧
                      git_subdirectory s = git_subdirectory t ∧ git_constraint s ≈ git_constraint t
  | None, None => True
  | _, _ => False
  end.

Lemma optional_source_read_back (o : option LockedGitSource) :
  (∀ s, o = Some s → git_source_made s) →
  ∃ t, checked_option decode_requested_git_source (encode_requested_git_source <$> o) = Ok t ∧
    t ≈ o ∧ same_sources t o.
Proof.
  destruct o as [s|]; intros Hs; [|by exists None].
  destruct (git_source_read_back s (Hs s eq_refl)) as (t & Ht & Hts & Hf).
  exists (Some t). cbn. by rewrite Ht.
Qed.

(** What is read for a package, with the version and the source read. *)
Definition decoded_package (p : LockedPackage) (v : RPackageVersion) (source : option LockedGitSource) :
    LockedPackage :=
  mk_LockedPackage (mk_ReleaseIdentity (locked_name p)
    (with_version (ReleaseIdentity_provenance (locked_identity p)) v)) v (published_version_spelling p)
    (locked_dependencies p) (locked_visible p) (locked_metadata_sha256 p) source.

(** A decoded package is lockable when what it was written for is. *)
Lemma lockable_decoded p v source :
  lockable p → v ≈ locked_version p → wire_canonical_version v = wire_canonical_version (locked_version p) →
  (∀ s, published_version_spelling p = Some s → RPackageVersion_parse s = Ok v) →
  same_sources source (requested_git_source p) →
  lockable (decoded_package p v source).
Proof.
  intros [Hv Hvis] Hvv Hcan Hspelling Hsource. split; [|exact Hvis].
  unfold LockedPackage_validate, decoded_package in *. cbv zeta in *.
  cbn [locked_identity ReleaseIdentity_provenance ReleaseIdentity_name locked_version requested_git_source
       published_version_spelling].
  assert (Provenance_is_r_base_package (with_version (ReleaseIdentity_provenance (locked_identity p)) v)
    = Provenance_is_r_base_package (ReleaseIdentity_provenance (locked_identity p))) as ->
    by by destruct (ReleaseIdentity_provenance (locked_identity p)).
  destruct (Provenance_is_r_base_package _) eqn:Hb; [done|].
  destruct (provenance_version_differs (ReleaseIdentity_provenance (locked_identity p)) _) eqn:Hd; [done|].
  assert (provenance_version_differs (with_version (ReleaseIdentity_provenance (locked_identity p)) v) v
    = false) as ->.
  { destruct (ReleaseIdentity_provenance (locked_identity p)); cbn; try done; by rewrite req_refl. }
  apply result_bind_ok in Hv as ([] & Hg & Hs). apply result_bind_ok. exists tt. split.
  - destruct source as [s|], (requested_git_source p) as [t|]; try done.
    destruct Hsource as (Hu & Hsel & Hsub & Hc).
    rewrite (git_source_matches_proper _ _ s t), (satisfies_proper _ _ Hc _ _ Hvv), Hsel by done.
    destruct (git_source_matches _ t); [|done]. destruct (VersionConstraint_satisfies _ _); [|done].
    cbn [negb orb] in *.
    assert (revision_conflicts (with_version (ReleaseIdentity_provenance (locked_identity p)) v) (git_selector t)
      = revision_conflicts (ReleaseIdentity_provenance (locked_identity p)) (git_selector t)) as ->.
    { destruct (git_selector t) as [| | |value]; [done..|]. cbn. destruct (GitCommitId_new value); [|done].
      by destruct (ReleaseIdentity_provenance (locked_identity p)). }
    by destruct (revision_conflicts _ _).
  - destruct (published_version_spelling p) as [s|] eqn:Es; [|done]. rewrite (Hspelling s eq_refl).
    cbn [map_err result_bind]. rewrite req_refl. cbn [negb orb].
    apply result_bind_ok in Hs as (w & _ & Hs). destruct (negb (w =?= locked_version p)); [done|].
    cbn [orb] in Hs. change (canonical_version v) with (wire_canonical_version v). rewrite Hcan.
    change (wire_canonical_version (locked_version p)) with (canonical_version (locked_version p)).
    by destruct (bool_decide _).
Qed.

Lemma package_read_back names p :
  package_made p → lockable p → (∀ d, d ∈ locked_dependencies p → locked_package d ∈ names) →
  ∃ w q, encode_package names p = Ok w ∧ decode_package w = Ok q ∧ q ≈ p ∧ lockable q ∧
    locked_dependencies q = locked_dependencies p.
Proof.
  intros [Hn Hp Hver Hm He Hvis Hsrc] Hl Hnames.
  destruct (written_version_read_back p Hl Hver) as (v & Hv & Hvv & _ & Hcan & Hspelling).
  assert (Provenance_is_r_base_package (ReleaseIdentity_provenance (locked_identity p)) = false ∧
    provenance_version_differs (ReleaseIdentity_provenance (locked_identity p)) (locked_version p) = false)
    as [Hb Hd].
  { destruct Hl as [Hv' _]. unfold LockedPackage_validate in Hv'. cbv zeta in Hv'.
    destruct (Provenance_is_r_base_package _); [done|]. by destruct (provenance_version_differs _ _). }
  destruct (provenance_read_back _ v Hp Hb) as (source & Henc & Hdec).
  destruct (optional_source_read_back _ Hsrc) as (t & Ht & Htp & Hfields).
  set (q := decoded_package p v t). eexists _, q. split_and!.
  - unfold encode_package. rewrite Henc. cbn [result_bind]. rewrite filter_true_id; [done|].
    intros d Hin. by apply bool_decide_eq_true, Hnames.
  - unfold decode_package. cbn [wire_name wire_package_version wire_source wire_metadata_sha256
      wire_dependencies wire_visible_repository_ids wire_requested_git_source].
    fold (written_version p). rewrite (checked_reads _ _ _ _ _ Hn). cbn [result_bind].
    unfold wire_parse_version. rewrite Hv. cbn [map_err result_bind]. cbv zeta. rewrite Hdec. cbn [result_bind].
    rewrite (checked_reads _ _ _ _ _ Hm). cbn [result_bind]. rewrite (edges_read_back _ He). cbn [result_bind].
    rewrite (checked_list_reads _ _ _ _ _ Hvis). cbn [result_bind]. rewrite Ht. cbn [result_bind].
    by rewrite Hspelling.
  - change (LockedPackage_eq q p = true). unfold LockedPackage_eq. cbn.
    rewrite !req_refl, !andb_true_r. rewrite !andb_true_iff. split_and!; [|exact Hvv|exact Htp].
    apply ReleaseIdentity_req_iff. split; [done|]. by apply (with_version_req _ (locked_version p)).
  - apply lockable_decoded; try done. intros s Es. unfold written_version in Hv. by rewrite Es in Hv.
  - done.
Qed.

(** ** Locks *)

Section lock.
Context `{CivilDate}.

(** A lock whose values were made by their constructors and whose requirement is
    canonical. *)
Record lock_made (lock : Lockfile) : Prop := {
  lock_intent_made : reads Sha256Digest_new Sha256Digest_as_str (resolution_intent_sha256 lock);
  lock_requirement_made : constraint_made VersionOfR (lock_r_requirement lock);
  lock_target_made : version_made 1 (target_r_version (locked_target (lock_resolution lock)));
  lock_environment_made :
    reads EnvironmentId_new EnvironmentId_as_str (locked_environment (lock_resolution lock));
  lock_cutoff_made d :
    locked_cutoff (lock_resolution lock) = Some d → reads PublicationDate_parse PublicationDate_as_str d;
  lock_packages_made : Forall package_made (locked_packages (lock_resolution lock));
}.

(** [PartialEq] of locks. *)
Definition lock_req (a b : Lockfile) : Prop :=
  resolution_intent_sha256 a = resolution_intent_sha256 b ∧ lock_r_requirement a ≈ lock_r_requirement b ∧
  target_r_version (locked_target (lock_resolution a)) ≈ target_r_version (locked_target (lock_resolution b)) ∧
  locked_environment (lock_resolution a) = locked_environment (lock_resolution b) ∧
  locked_cutoff (lock_resolution a) = locked_cutoff (lock_resolution b) ∧
  locked_packages (lock_resolution a) ≈ locked_packages (lock_resolution b).

Lemma packages_read_back names l :
  Forall package_made l → Forall lockable l →
  (∀ p d, p ∈ l → d ∈ locked_dependencies p → locked_package d ∈ names) →
  ∃ ws qs, try_map (encode_package names) l = Ok ws ∧ try_map decode_package ws = Ok qs ∧
    Forall2 (λ q p, q ≈ p ∧ lockable q ∧ locked_dependencies q = locked_dependencies p) qs l.
Proof.
  intros Hmade Hl Hnames. induction l as [|p l IH]; [by exists [], []|].
  inversion Hmade as [|? ? Hp Hmade']; subst. inversion Hl as [|? ? Hlp Hl']; subst.
  destruct (package_read_back names p Hp Hlp) as (w & q & Hw & Hq & Hqp & Hlq & Hdq).
  { intros d Hd. apply (Hnames p); [left|done]. }
  destruct IH as (ws & qs & Hws & Hqs & Hf); [done..| |].
  { intros p' d Hp' Hd. apply (Hnames p'); [by right|done]. }
  exists (w :: ws), (q :: qs). cbn [try_map]. rewrite Hw, Hws, Hq, Hqs. cbn [result_bind].
  split_and!; [done..|]. by constructor.
Qed.

(** Packages equal one by one make a canonical lock too. *)
Lemma canonical_transport lock lock' :
  lock_canonical lock → lock_req lock' lock →
  Forall2 (λ q p, q ≈ p ∧ lockable q ∧ locked_dependencies q = locked_dependencies p)
    (locked_packages (lock_resolution lock')) (locked_packages (lock_resolution lock)) →
  lock_canonical lock'.
Proof.
  intros [Hr Hs Hn He Hc _] (_ & Hreq & Ht & _) Hf.
  assert (locked_name <$> locked_packages (lock_resolution lock') =
    locked_name <$> locked_packages (lock_resolution lock)) as Hnames.
  { clear -Hf. induction Hf as [|q p l k [Hqp _] _ IH]; [done|]. rewrite !fmap_cons. f_equal; [|done].
    by apply locked_name_req. }
  split.
  - by rewrite (satisfies_proper _ _ Hreq _ _ Ht).
  - clear -Hf Hs. unfold strictly_sorted in *.
    assert (∀ q p : LockedPackage, q ≈ p → locked_cmp q p = Eq) as Heq.
    { intros q p Hqp. by apply locked_cmp_eq, locked_name_req. }
    induction Hf as [|q p l k [Hqp _] Hf IH]; [done|]. inversion Hs as [|? ? Hk Hp]; subst.
    constructor; [by apply IH|]. apply Forall_forall. intros z Hz.
    apply list_elem_of_lookup in Hz as [i Hi].
    destruct (Forall2_lookup_l _ _ _ _ _ Hf Hi) as (z' & Hz' & Ez & _).
    rewrite Forall_forall in Hp.
    rewrite (cmp_eq_l locked_cmp q p), (cmp_eq_r locked_cmp z z') by auto.
    apply Hp. by eapply list_elem_of_lookup_2.
  - by rewrite Hnames.
  - clear -Hf He. induction Hf as [|q p l k (_ & _ & Hd) _ IH]; [done|].
    inversion He; subst. constructor; [by rewrite Hd|by apply IH].
  - intros q d Hq Hd. rewrite Hnames. apply list_elem_of_lookup in Hq as [i Hi].
    destruct (Forall2_lookup_l _ _ _ _ _ Hf Hi) as (p & Hp & _ & _ & Hdq). rewrite Hdq in Hd.
    apply (Hc p); [by eapply list_elem_of_lookup_2|done].
  - clear -Hf. induction Hf as [|q p l k (_ & Hl & _) _ IH]; by constructor.
Qed.

(** C9: a canonical lock is written, and what is written is read back as the lock. *)
Theorem lock_wire_roundtrip lock :
  lock_canonical lock → lock_made lock →
  ∃ wire lock', to_wire lock = Ok wire ∧ from_wire wire = Ok lock' ∧ lock_req lock' lock.
Proof.
  intros Hcan [Hi Hr Ht He Hc Hp].
  pose proof (Lockfile_new_canonical lock Hcan (made_canonical _ _ Hr)) as Hnew.
  set (l := locked_packages (lock_resolution lock)) in *.
  destruct (packages_read_back (locked_name <$> l) l Hp) as (ws & qs & Hws & Hqs & Hf);
    [by destruct Hcan|intros p d; apply (canonical_closed _ Hcan)|].
  destruct (canonical_version_parse 1 _ Ht) as (rv & Hrv & Hrvv & _ & Hrvt); [lia|].
  destruct (canonical_constraint_parse "r-requirement" VersionOfR _ Hr) as (c & Hparse & Hcc & Hcmade & Hctext).
  set (lock' := mk_Lockfile (resolution_intent_sha256 lock) c
    (mk_LockedResolution (mk_ResolutionTarget rv) (locked_environment (lock_resolution lock))
       (locked_cutoff (lock_resolution lock)) qs)).
  assert (lock_req lock' lock) as Hreq.
  { split_and!; try done. apply list_req_Forall2. eapply Forall2_impl; [exact Hf|]. by intros q p []. }
  pose proof (canonical_transport lock lock' Hcan Hreq Hf) as Hcan'.
  eexists _, lock'. split_and!; [| |done].
  - unfold to_wire. rewrite Hnew. cbn [map_err result_bind]. cbv zeta. fold l. rewrite Hws. done.
  - unfold from_wire. cbn [wire_version]. cbn [N.eqb SCHEMA_VERSION Pos.eqb negb].
    unfold decode_resolution. cbn [wire_r_version wire_r_requirement wire_resolution_intent_sha256 wire_packages
      wire_publication_cutoff wire_environment].
    unfold parse_canonical_r_version_field, RPackageVersion_parse_bare. rewrite Hrv. cbn [map_err result_bind].
    rewrite Hrvt, bool_decide_eq_false_2 by (intros Hn; by apply Hn). cbn [result_bind].
    unfold parse_r_constraint, checked_field at 1. rewrite Hparse. cbn [map_err result_bind].
    rewrite Hctext, bool_decide_eq_false_2 by (intros Hn; by apply Hn).
    rewrite (checked_reads _ _ _ _ _ Hi). cbn [result_bind]. rewrite Hqs. cbn [result_bind].
    rewrite (checked_option_reads _ _ _ _ _ Hc). cbn [result_bind]. rewrite (checked_reads _ _ _ _ _ He).
    cbn [result_bind].
    assert (validate_canonical_resolution (lock_resolution lock') = Ok tt) as Hvc
      by (apply validate_canonical_resolution_ok; by destruct Hcan').
    cbn [lock' lock_resolution] in Hvc. rewrite Hvc. cbn [map_err result_bind].
    pose proof (Lockfile_new_canonical lock' Hcan' (made_canonical _ _ Hcmade)) as Hnew'.
    cbn [lock' lock_resolution lock_r_requirement resolution_intent_sha256] in Hnew'. by rewrite Hnew'.
Qed.
End lock.
End unicode.
