(* ===== verification/ComposeLaws.v ===== *)
(** * Composition is a conjunction

    Normalised paths are canonical, and the roots of a composed environment are the
    conjunction of what the manifest declares under each name. *)

From S2P Require Import Prelude RustStd Collections Externals Text Format Versions Names GitUrl.
From S2P Require Import Publication Identity Constraints Digest Request Policy Manifest Locators ManifestWire.
From S2P Require Import Compose Lock LockLaws LockWireLaws.

(** ** Requested paths *)

(** Parents first, then plain names. *)
Definition canonical_parts (parts : list string) : Prop :=
  ∃ n names, parts = replicate n DOT_DOT ++ names ∧ Forall plain_component names.

Definition no_separator (s : string) : Prop :=
  Forall (λ b, is_slash b = false ∧ is_backslash b = false) (bytes s).

Lemma last_parents n (names : list string) :
  Forall plain_component names → last (replicate n DOT_DOT ++ names) = Some DOT_DOT → names = [].
Proof.
  intros Hn. destruct names as [|x names] using rev_ind; [done|]. rewrite app_assoc, last_snoc. intros [= ->].
  apply Forall_app in Hn as [_ Hn]. inversion Hn as [|? ? (_ & _ & Hp) _]; subst. by destruct Hp.
Qed.

Lemma requested_step_canonical parts component :
  canonical_parts parts → canonical_parts (requested_step parts component).
Proof.
  intros (n & names & -> & Hnames). unfold requested_step.
  case_bool_decide as H0; cbn [orb]; [by exists n, names|].
  case_bool_decide as H1; cbn [orb]; [by exists n, names|].
  case_bool_decide as H2.
  - destruct (last (replicate n DOT_DOT ++ names)) as [l|] eqn:El.
    + case_bool_decide as Hl.
      * subst l. apply last_parents in El as ->; [|done]. exists (S n), []. split; [|done].
        by rewrite !app_nil_r, replicate_S_end.
      * destruct names as [|x names _] using rev_ind.
        { rewrite app_nil_r in *. destruct n as [|n]; [done|]. rewrite replicate_S_end, last_snoc in El. congruence. }
        rewrite app_assoc, removelast_last. exists n, names. by apply Forall_app in Hnames as [? _].
    + apply last_None, app_nil in El as [E ->]. exists 1, []. by rewrite E.
  - exists n, (names ++ [component]). rewrite app_assoc. split; [done|]. apply Forall_app. split; [done|].
    by repeat constructor.
Qed.

Lemma requested_steps parts pieces :
  canonical_parts parts → canonical_parts (foldl requested_step parts pieces).
Proof. revert parts. induction pieces as [|c l IH]; intros parts H; [done|]. simpl. by apply IH, requested_step_canonical. Qed.

(** Only pieces of the text and parents are kept. *)
Lemma requested_steps_from (P : string → Prop) parts pieces :
  P DOT_DOT → Forall P parts → Forall P pieces → Forall P (foldl requested_step parts pieces).
Proof.
  intros HD Hp Hl. revert parts Hp. induction Hl as [|c l Hc _ IH]; intros parts Hp; [done|]. simpl. apply IH.
  unfold requested_step. case_bool_decide; cbn [orb]; [done|]. case_bool_decide; [done|].
  case_bool_decide; [|apply Forall_app; by repeat constructor].
  destruct (last parts) as [l'|]; [case_bool_decide|]; try (apply Forall_app; by repeat constructor).
  destruct parts as [|x parts _] using rev_ind; [done|]. rewrite removelast_last. by apply Forall_app in Hp as [? _].
Qed.

(** Canonical parts are kept as they are. *)
Lemma requested_steps_id n names :
  Forall plain_component names → foldl requested_step [] (replicate n DOT_DOT ++ names) = replicate n DOT_DOT ++ names.
Proof.
  intros Hn. rewrite foldl_app.
  assert (foldl requested_step [] (replicate n DOT_DOT) = replicate n DOT_DOT) as ->.
  { induction n as [|n IH]; [done|]. rewrite replicate_S_end, foldl_app, IH. cbn [foldl].
    unfold requested_step. change (bool_decide (DOT_DOT = "")) with false.
    change (bool_decide (DOT_DOT = DOT)) with false. change (bool_decide (DOT_DOT = DOT_DOT)) with true. cbn [orb].
    destruct n as [|n]; [done|]. by rewrite replicate_S_end, last_snoc. }
  generalize (replicate n DOT_DOT). intros parts. revert parts.
  induction Hn as [|c l (H0 & H1 & H2) _ IH]; intros parts; [by rewrite app_nil_r|]. simpl.
  unfold requested_step at 2. unfold DOT, DOT_DOT. rewrite !bool_decide_eq_false_2 by done. cbn [orb].
  rewrite IH, <-app_assoc. done.
Qed.

Lemma join_head (x : string) l b r : bytes x = b :: r → ∃ r', bytes (str_join "/" (x :: l)) = b :: r'.
Proof. intros E. destruct l as [|y l]; simpl; [by exists r|]. rewrite !bytes_app, E. by eexists. Qed.

Lemma split_pieces_plain value :
  Forall no_separator (str_split is_slash (replace_byte is_backslash slash value)).
Proof.
  unfold str_split. apply Forall_fmap. pose proof (split_bytes_no_sep is_slash
    (bytes (replace_byte is_backslash slash value))) as Hs.
  assert (Forall (λ p, Forall (λ b, is_backslash b = false) p)
    (split_bytes is_slash (bytes (replace_byte is_backslash slash value)))) as Hb.
  { assert (Forall (λ b, is_backslash b = false) (bytes (replace_byte is_backslash slash value))) as Hb.
    { unfold replace_byte. rewrite bytes_from_utf8. apply Forall_fmap, Forall_forall. intros b _. simpl.
      by destruct (is_backslash b) eqn:E. }
    revert Hb. generalize (bytes (replace_byte is_backslash slash value)). intros l. induction l as [|b l IH].
    { intros _. by repeat constructor. }
    intros [Hb Hl]%Forall_cons. specialize (IH Hl). cbn [split_bytes].
    destruct (split_bytes is_slash l) as [|piece rest]; [by repeat constructor|].
    destruct (is_slash b); [by constructor|]. inversion IH; subst. constructor; [by constructor|done]. }
  rewrite Forall_forall in *. intros p Hp. unfold no_separator. simpl. rewrite bytes_from_utf8.
  apply Forall_and. split; [by apply Hs|by apply Hb].
Qed.

Lemma join_no_backslash (l : list string) :
  Forall no_separator l → replace_byte is_backslash slash (str_join "/" l) = str_join "/" l.
Proof.
  intros Hl. unfold replace_byte. assert (Forall (λ b, is_backslash b = false) (bytes (str_join "/" l))) as Hb.
  { induction Hl as [|x l Hx Hl IH]; [constructor|].
    assert (Forall (λ b, is_backslash b = false) (bytes x)) as Hx'
      by (eapply Forall_impl; [exact Hx|]; by intros ? []).
    destruct l as [|y l]; [done|]. change (str_join "/" (x :: y :: l)) with (x +:+ "/" +:+ str_join "/" (y :: l)).
    rewrite !bytes_app, !Forall_app. split_and!; [done|by repeat constructor|done]. }
  rewrite <-(from_utf8_bytes (str_join "/" l)) at 2. f_equal.
  rewrite <-(list_fmap_id (bytes (str_join "/" l))) at 2. apply list_fmap_ext.
  intros i b Hi%list_elem_of_lookup_2. rewrite Forall_forall in Hb. by rewrite Hb.
Qed.

(** The directory a path leads to from a directory, without looking at links. *)
Definition walk_step (directory : list string) (component : string) : list string :=
  if bool_decide (component = "") || bool_decide (component = DOT) then directory
  else if bool_decide (component = DOT_DOT) then removelast directory
  else directory ++ [component].
Definition walk (directory : list string) (path : string) : list string :=
  foldl walk_step directory (str_split is_slash path).

Lemma walk_requested_step directory parts component :
  canonical_parts parts →
  foldl walk_step directory (requested_step parts component)
    = walk_step (foldl walk_step directory parts) component.
Proof.
  intros (n & names & E & Hnames). unfold requested_step, walk_step at 2.
  case_bool_decide as H0; cbn [orb]; [done|]. case_bool_decide as H1; cbn [orb]; [done|].
  case_bool_decide as H2; [|rewrite foldl_app; cbn; unfold walk_step; by rewrite !bool_decide_eq_false_2].
  assert (∀ l, foldl walk_step directory (l ++ [DOT_DOT]) = removelast (foldl walk_step directory l)) as Hup
    by (intros l; by rewrite foldl_app).
  destruct (last parts) as [l|] eqn:El; [|by apply last_None in El as ->].
  case_bool_decide as Hl; [done|]. rewrite E in *.
  destruct names as [|x names _] using rev_ind.
  { rewrite app_nil_r in El. destruct n as [|n]; [done|]. rewrite replicate_S_end, last_snoc in El. congruence. }
  rewrite app_assoc, removelast_last. generalize (replicate n DOT_DOT ++ names). intros k.
  rewrite foldl_app. cbn. apply Forall_app in Hnames as [_ Hx].
  inversion Hx as [|? ? (? & ? & ?) _]; subst.
  assert (∀ d, walk_step d x = d ++ [x]) as ->; [|by rewrite removelast_last].
  intros d. unfold walk_step, DOT, DOT_DOT. by rewrite !bool_decide_eq_false_2.
Qed.

Lemma walk_requested directory parts pieces :
  canonical_parts parts →
  foldl walk_step directory (foldl requested_step parts pieces)
    = foldl walk_step (foldl walk_step directory parts) pieces.
Proof.
  revert parts. induction pieces as [|c l IH]; intros parts Hp; [done|]. simpl.
  by rewrite IH, walk_requested_step by (done || by apply requested_step_canonical).
Qed.

Lemma canonical_first n names :
  names ≠ [] → Forall plain_component names → Forall no_separator (replicate n DOT_DOT ++ names) →
  ∃ b r, bytes (str_join "/" (replicate n DOT_DOT ++ names)) = b :: r ∧ is_slash b = false.
Proof.
  intros Hne Hnames Hsep. destruct (replicate n DOT_DOT ++ names) as [|x l] eqn:Ep.
  { by apply app_nil in Ep as [_ ->]. }
  inversion Hsep as [|? ? Hx _]; subst. assert (x ≠ "") as Hxn.
  { destruct n as [|n]; simpl in Ep; [|by injection Ep as <-]. subst names.
    by inversion Hnames as [|? ? (? & _) _]. }
  destruct (bytes x) as [|b r] eqn:Ex; [by apply bytes_nil in Ex|].
  destruct (join_head x l b r Ex) as [r' Hr']. exists b, r'. split; [done|].
  unfold no_separator in Hx. rewrite Ex in Hx. by inversion Hx as [|? ? [? _] _].
Qed.

Definition DRIVE_REJECTED : string := "path must not be absolute or use a drive/UNC prefix".

(** A requested path is normalised to parents followed by plain names, the last
    component being a name.  It leads from every directory to where the given path
    leads.  It is its own normal form, unless its second character is a colon: such
    a result is taken for a drive and rejected. *)
Theorem normalize_requested_path_spec value p :
  normalize_requested_path value = Ok p →
  ∃ n names, names ≠ [] ∧ Forall plain_component names ∧ Forall no_separator names ∧
    p = str_join "/" (replicate n DOT_DOT ++ names) ∧
    (∀ directory, walk directory p = walk directory (replace_byte is_backslash slash value)) ∧
    normalize_requested_path p =
      if second_is_colon p then Err DRIVE_REJECTED
      else if has_control p then Err "path contains a control character" else Ok p.
Proof.
  unfold normalize_requested_path at 1. cbv zeta.
  destruct (starts_with slash _ || _ || _); [done|]. destruct (has_control _); [done|].
  set (pieces := str_split is_slash (replace_byte is_backslash slash value)).
  destruct (requested_steps [] pieces) as (n & names & E & Hnames); [by exists 0, []|].
  assert (Forall no_separator (replicate n DOT_DOT ++ names)) as Hsep.
  { rewrite <-E. apply requested_steps_from; [by repeat constructor|done|apply split_pieces_plain]. }
  rewrite E. case_bool_decide as Hnil; cbn [orb]; [done|]. case_bool_decide as Hlast; [done|]. intros [= <-].
  assert (names ≠ []) as Hne.
  { intros ->. rewrite app_nil_r in *. destruct n as [|n]; [done|]. by rewrite replicate_S_end, last_snoc in Hlast. }
  assert (str_split is_slash (str_join "/" (replicate n DOT_DOT ++ names)) = replicate n DOT_DOT ++ names) as Hsplit.
  { apply (split_join _ _ slash); [done..|]. eapply Forall_impl; [exact Hsep|]. intros x Hx.
    eapply Forall_impl; [exact Hx|]. by intros ? []. }
  exists n, names. split_and!; [done..|by apply Forall_app in Hsep as [_ ?]|done| |].
  { intros d. unfold walk. fold pieces. rewrite Hsplit, <-E. apply walk_requested. by exists 0, []. }
  destruct (canonical_first n names Hne Hnames Hsep) as (b & r & Eb & Hb).
  unfold normalize_requested_path. cbv zeta. rewrite (join_no_backslash _ Hsep), Hsplit.
  rewrite (requested_steps_id n names Hnames).
  assert (starts_with slash (str_join "/" (replicate n DOT_DOT ++ names)) = false) as ->.
  { unfold starts_with. rewrite Eb. apply bool_decide_eq_false. intros ->. done. }
  assert (has_prefix (bytes "//") (bytes (str_join "/" (replicate n DOT_DOT ++ names))) = false) as ->.
  { rewrite Eb. change (bytes "//") with [slash; slash]. cbn [has_prefix].
    rewrite bool_decide_eq_false_2; [done|]. intros <-. done. }
  cbn [orb]. rewrite !bool_decide_eq_false_2 by done. done.
Qed.

(** Nothing else keeps a result from being accepted again: a relative path may be
    normalised to one that is rejected. *)
Theorem requested_path_not_idempotent :
  normalize_requested_path "./C:/x" = Ok "C:/x" ∧ normalize_requested_path "C:/x" = Err DRIVE_REJECTED.
Proof. split; vm_compute; reflexivity. Qed.

(** ** The repository intent *)

(** A specification the constructor makes. *)
Definition repository_made (r : RepositorySpec) : Prop :=
  RepositorySpec_new_with_packages (spec_id r) (spec_registry r) (manifest_endpoint r) (spec_packages r) = Ok r.

Definition intent_endpoint : Endpoint := mk_Endpoint "https://example.org/".
Definition allow (names : list string) : option (list PackageName) := Some (mk_PackageName <$> names).

(** Two repositories, the first allowing two packages. *)
Definition two_allowed : list RepositorySpec :=
  [mk_RepositorySpec (mk_Identifier "main") Cran intent_endpoint (allow ["xa"; "yb"]);
   mk_RepositorySpec (mk_Identifier "cran-like") RUniverse intent_endpoint None].
(** The first allowing one; the second is named as the other package was. *)
Definition one_allowed : list RepositorySpec :=
  [mk_RepositorySpec (mk_Identifier "main") Cran intent_endpoint (allow ["xa"]);
   mk_RepositorySpec (mk_Identifier "yb") (CranLike (mk_Identifier "r-universe")) intent_endpoint None].

(** The fields of the repository intent do not say where an allowlist ends:
    documents with different repositories have the same digest. *)
Theorem repository_intent_collision `{CivilDate, Sha2} (d e : ManifestDocument) :
  repositories d = two_allowed → repositories e = one_allowed →
  Forall repository_made two_allowed ∧ Forall repository_made one_allowed ∧
  repositories d ≠ repositories e ∧ repository_intent_digest d = repository_intent_digest e.
Proof.
  intros Hd He. split_and!; [by repeat constructor|by repeat constructor|by rewrite Hd, He|].
  unfold repository_intent_digest, intent_fields. by rewrite Hd, He.
Qed.

(** ** Roots *)

(** A registry source without a repository leaves the choice open. *)
Definition source_within (a b : ManifestSource) : Prop :=
  a = b ∨ a = ManifestRegistry None ∧ ∃ repository, b = ManifestRegistry (Some repository).

Lemma source_within_trans a b c : source_within a b → source_within b c → source_within a c.
Proof.
  unfold source_within. intros [->|[-> [r ->]]]; [done|]. intros [<-|[E _]]; [eauto|done].
Qed.

Lemma merge_sources_ok name a b c :
  merge_sources name a b = Ok c → source_within a c ∧ source_within b c ∧ (c = a ∨ c = b).
Proof.
  unfold merge_sources. case_bool_decide as E; [intros [= <-]; subst; split_and!; by left|].
  destruct a as [[r|]| | |], b as [[r'|]| | |]; intros [= <-]; unfold source_within; naive_solver.
Qed.

(** The root of the dependencies declared under one name. *)
Record root_summary (name : PackageName) (declared : list ManifestDependencySpec)
    (root : ComposedRootIntent) : Prop := {
  summary_name : intent_name root = name;
  summary_constraint : canonicalize_constraint (intent_constraint root) = intent_constraint root;
  summary_satisfies v : VersionConstraint_satisfies (intent_constraint root) v = true ↔
    ∀ d, d ∈ declared → ∃ c, parse_package_constraint (spec_version d) (PackageName_as_str name) = Ok c ∧
      VersionConstraint_satisfies c v = true;
  summary_source d : d ∈ declared → ∃ source, normalize_source name (spec_source d) = Ok source ∧
    source_within source (intent_source root);
  summary_from : ∃ d, d ∈ declared ∧ normalize_source name (spec_source d) = Ok (intent_source root);
  summary_expansion : intent_expansion root = DirectSuggests ↔ ∃ d, d ∈ declared ∧ include_suggests d = true;
}.

Lemma parse_constraint_canonical input field kind c :
  parse_constraint input field kind = Ok c → canonicalize_constraint c = c.
Proof.
  unfold parse_constraint. destruct (_ || _); [done|]. case_bool_decide; [by intros [= <-]|].
  intros (cs & _ & [= <-])%result_bind_ok. apply canonicalize_constraint_idemp.
Qed.

Lemma dependency_intent_summary name d root :
  dependency_intent name d = Ok root → root_summary name [d] root.
Proof.
  unfold dependency_intent. destruct (PackageName_is "R" name); [done|].
  intros (c & Hc & E)%result_bind_ok. apply result_bind_ok in E as (source & Hs & [= <-]).
  split; cbn [intent_name intent_constraint intent_source intent_expansion]; try setoid_rewrite list_elem_of_singleton.
  - done.
  - by eapply parse_constraint_canonical.
  - intros v. split; [intros Hv ? ->; by exists c|]. intros Hd.
    destruct (Hd d eq_refl) as (c' & Hc' & Hv).
    rewrite Hc in Hc'. by injection Hc' as <-.
  - intros ? ->. exists source. split; [done|by left].
  - by exists d.
  - destruct (include_suggests d) eqn:Ed; (split; [intros E|intros (? & -> & E)]; [|congruence]).
    + by exists d.
    + done.
Qed.

Lemma merge_roots_summary name l k a b c :
  root_summary name l a → root_summary name k b → merge_roots a b = Ok c → root_summary name (l ++ k) c.
Proof.
  intros [Hn _ Hv Hs (da & Hda & Hsa) He] [_ _ Hv' Hs' (db & Hdb & Hsb) He'].
  unfold merge_roots. intros (source & Hm & [= <-])%result_bind_ok.
  apply merge_sources_ok in Hm as (Ha & Hb & Hab).
  split; cbn [intent_name intent_constraint intent_source intent_expansion]; try setoid_rewrite elem_of_app.
  - done.
  - apply canonicalize_constraint_idemp.
  - intros v. rewrite canonicalize_constraint_satisfies, satisfies_conjunction, andb_true_iff, Hv, Hv'. naive_solver.
  - intros d [(s & ? & ?)%Hs|(s & ? & ?)%Hs']; exists s; (split; [done|]); by eapply source_within_trans.
  - destruct Hab as [->| ->]; [by exists da; auto|by exists db; auto].
  - destruct (intent_expansion a), (intent_expansion b); simpl; naive_solver.
Qed.

(** The dependencies declared under a name, in order. *)
Definition declared_under (name : PackageName) (l : DependencyMap) : list ManifestDependencySpec :=
  (filter (λ nd : PackageName * ManifestDependencySpec, nd.1 = name) l).*2.

Lemma declared_under_snoc name l nd :
  declared_under name (l ++ [nd]) = declared_under name l ++ (if decide (nd.1 = name) then [nd.2] else []).
Proof.
  unfold declared_under. rewrite filter_app, fmap_app. f_equal. rewrite filter_cons. by case_decide.
Qed.

Definition roots_inv (l : DependencyMap) (m : list (PackageName * ComposedRootIntent)) : Prop :=
  bt_sorted PackageName_cmp m ∧
  ∀ name, match bt_get PackageName_cmp name m with
          | Some root => root_summary name (declared_under name l) root
          | None => declared_under name l = []
          end.

Lemma append_root_inv l m nd root :
  roots_inv l m → root_summary nd.1 (declared_under nd.1 (l ++ [nd])) root →
  roots_inv (l ++ [nd]) (bt_insert PackageName_cmp nd.1 root (bt_remove PackageName_cmp nd.1 m)).
Proof.
  intros [Hs Hm] Hroot. split; [by apply (bt_insert_sorted PackageName_cmp), (bt_remove_sorted PackageName_cmp)|].
  intros name. destruct (decide (name = nd.1)) as [->|Hne].
  - rewrite (bt_get_insert_eq PackageName_cmp) by apply (cmp_refl PackageName_cmp); done.
  - rewrite (bt_get_insert_ne PackageName_cmp), (bt_get_remove_ne PackageName_cmp) by (by apply PackageName_cmp_ne).
    rewrite declared_under_snoc, decide_False, app_nil_r by done. apply Hm.
Qed.

Lemma bt_remove_absent {V : Type} name (m : list (PackageName * V)) :
  bt_get PackageName_cmp name m = None → bt_remove PackageName_cmp name m = m.
Proof.
  induction m as [|[k v] m IH]; simpl; [done|]. destruct (is_eq (PackageName_cmp name k)); [done|].
  intros Hm. by rewrite IH.
Qed.

Lemma append_dependency_inv l m nd m' :
  roots_inv l m → append_dependency m nd = Ok m' → roots_inv (l ++ [nd]) m'.
Proof.
  intros Hinv. unfold append_dependency. intros (candidate & Hc & E)%result_bind_ok.
  apply dependency_intent_summary in Hc. pose proof (proj2 Hinv nd.1) as Hn. unfold append_root in E.
  destruct (bt_get _ nd.1 m) as [existing|] eqn:Eg.
  - apply result_bind_ok in E as (merged & Hm & [= <-]). apply append_root_inv; [done|].
    rewrite declared_under_snoc, decide_True by done. by eapply merge_roots_summary.
  - injection E as <-. rewrite <-(bt_remove_absent nd.1 m Eg) at 1. apply append_root_inv; [done|].
    by rewrite declared_under_snoc, decide_True, Hn.
Qed.

Lemma append_dependencies_inv l k m m' :
  roots_inv l m → append_dependencies m k = Ok m' → roots_inv (l ++ k) m'.
Proof.
  unfold append_dependencies. revert l m. induction k as [|nd k IH]; intros l m Hm; cbn [try_fold].
  { intros [= <-]. by rewrite app_nil_r. }
  intros (m1 & H1 & H2)%result_bind_ok. apply (append_dependency_inv l) in H1; [|done].
  apply (IH _ _ H1) in H2. by rewrite <-app_assoc in H2.
Qed.

Section compose.
Context `{CivilDate}.

(** The dependencies of the base and of the groups of an environment. *)
Definition group_dependencies (document : ManifestDocument) (group : string) : DependencyMap :=
  default [] (bt_get str_cmp group (groups document)).
Definition selected_dependencies (document : ManifestDocument) (environment : string) : DependencyMap :=
  dependencies document
    ++ mjoin (group_dependencies document <$> default [] (bt_get str_cmp environment (environments document))).

Lemma append_groups_inv document environment gs l m m' :
  roots_inv l m → try_fold (append_group document environment) m gs = Ok m' →
  roots_inv (l ++ mjoin (group_dependencies document <$> gs)) m'.
Proof.
  revert l m. induction gs as [|g gs IH]; intros l m Hm; cbn [try_fold].
  { intros [= <-]. simpl. by rewrite app_nil_r. }
  intros (m1 & H1 & H2)%result_bind_ok. unfold append_group in H1.
  apply result_bind_ok in H1 as (ds & Hds & H1). apply (append_dependencies_inv l) in H1; [|done].
  apply (IH _ _ H1) in H2. rewrite fmap_cons. cbn [mjoin list_join]. unfold group_dependencies at 1.
  destruct (bt_get str_cmp g (groups document)); simpl in Hds; [|done]. injection Hds as ->.
  by rewrite <-app_assoc in H2.
Qed.

(** A root qualified by a repository is one its repository allows. *)
Definition root_permitted (repositories : list RepositorySpec) (root : ComposedRootIntent) : Prop :=
  ∀ repository spec, intent_source root = ManifestRegistry (Some repository) →
    List.find (λ candidate, bool_decide (spec_id candidate = repository)) repositories = Some spec →
    package_allowed spec (intent_name root) = true.

(** The roots of a map built that way, in name order. *)
Section roots_map.
Context (l : DependencyMap) (m : list (PackageName * ComposedRootIntent)) (Hinv : roots_inv l m).

Lemma root_of_value root :
  root ∈ bt_values m → bt_get PackageName_cmp (intent_name root) m = Some root.
Proof using Hinv.
  destruct Hinv as [Hs Hm]. intros ([n root'] & -> & Hin)%list_elem_of_fmap. simpl.
  pose proof (bt_in_get PackageName_cmp n root' m Hs Hin) as Hg.
  specialize (Hm n). rewrite Hg in Hm. by rewrite (summary_name _ _ _ Hm).
Qed.

Lemma root_values_sorted :
  StronglySorted (λ a b, PackageName_cmp (intent_name a) (intent_name b) = Lt) (bt_values m).
Proof using Hinv.
  destruct Hinv as [Hs Hm]. assert (∀ n root, (n, root) ∈ m → intent_name root = n) as Hname.
  { intros n root Hin. pose proof (bt_in_get PackageName_cmp n root m Hs Hin) as Hg.
    specialize (Hm n). rewrite Hg in Hm. by destruct Hm. }
  clear Hm Hinv. unfold bt_sorted in Hs. unfold bt_values.
  induction Hs as [|[n root] m' Hs IH Hn]; [constructor|].
  rewrite fmap_cons. constructor; [apply IH; intros; apply Hname; by right|]. apply Forall_fmap, Forall_forall.
  intros [n' root'] Hin. rewrite Forall_forall in Hn. specialize (Hn _ Hin). simpl in *.
  by rewrite (Hname n root), (Hname n' root') by set_solver.
Qed.

Lemma root_values_names name :
  declared_under name l ≠ [] ↔ ∃ root, root ∈ bt_values m ∧ intent_name root = name.
Proof using Hinv.
  destruct Hinv as [Hs Hm]. split.
  - specialize (Hm name). destruct (bt_get PackageName_cmp name m) as [root|] eqn:Eg; [|done]. intros _.
    exists root. split; [|by destruct Hm]. apply (bt_get_in PackageName_cmp) in Eg as (k & _ & Hin).
    apply list_elem_of_fmap. by exists (k, root).
  - intros (root & Hin%root_of_value & <-). specialize (Hm (intent_name root)). rewrite Hin in Hm.
    destruct Hm as [_ _ _ _ (d & Hd & _) _]. by destruct (declared_under _ _); [apply elem_of_nil in Hd|].
Qed.
End roots_map.

Lemma allowlists_permit m repositories root :
  validate_repository_package_allowlists m repositories = Ok tt → root ∈ bt_values m →
  root_permitted repositories root.
Proof using.
  unfold validate_repository_package_allowlists. intros [Hallow _]%try_map_check Hin.
  specialize (Hallow root Hin). intros repository spec Hsrc Hfind. unfold root_allowed in Hallow.
  rewrite Hsrc, Hfind in Hallow. by destruct (package_allowed _ _).
Qed.

(** C14: only a declared environment, or the default one, is composed.  What is composed holds
    the document's own facts: its repositories, its date, and the requirement on R that its text
    says, which the target meets; and one root for each
    name declared by the base or a selected group, in name order: its constraint is
    the conjunction of those declared, its source one of those declared that all the
    others leave open or agree with, its expansion the larger. *)
Theorem compose_environment_spec document environment target locked composed :
  compose_environment_with_locked document environment target locked = Ok composed →
  EnvironmentId_as_str (composed_environment composed) = environment ∧
  composed_target composed = target ∧ composed_locked composed = locked ∧
  composed_repositories composed = repositories document ∧
  composed_published_before composed = published_before document ∧
  parse_r_constraint (r_requirement_text document) "r.version" = Ok (composed_r_requirement composed) ∧
  VersionConstraint_satisfies (composed_r_requirement composed) (target_r_version target) = true ∧
  (is_Some (bt_get str_cmp environment (environments document)) ∨ environment = "default") ∧
  StronglySorted (λ a b, PackageName_cmp (intent_name a) (intent_name b) = Lt) (composed_roots composed) ∧
  (∀ name, declared_under name (selected_dependencies document environment) ≠ [] ↔
     ∃ root, root ∈ composed_roots composed ∧ intent_name root = name) ∧
  ∀ root, root ∈ composed_roots composed → root_permitted (repositories document) root ∧
    root_summary (intent_name root)
      (declared_under (intent_name root) (selected_dependencies document environment)) root.
Proof using.
  unfold compose_environment_with_locked. intros (? & _ & E)%result_bind_ok.
  apply result_bind_ok in E as (env & Henv & E). apply map_err_ok, EnvironmentId_new_ok in Henv as ->.
  apply result_bind_ok in E as (gs & Hgs & E). apply result_bind_ok in E as (r & Hrv & E).
  destruct (VersionConstraint_satisfies r _) eqn:Hr; cbn [negb] in E; [|done].
  apply result_bind_ok in E as (m & Hm & E). apply result_bind_ok in E as (m' & Hm' & E).
  apply result_bind_ok in E as ([] & Hallow & [= <-]).
  cbn [composed_environment composed_target composed_locked composed_repositories composed_published_before
       composed_r_requirement composed_roots EnvironmentId_as_str] in *.
  assert (roots_inv (selected_dependencies document environment) m') as Hinv.
  { apply (append_dependencies_inv [] (dependencies document)) in Hm;
      [|split; [constructor|by intros name]].
    apply (append_groups_inv _ _ gs ([] ++ dependencies document) m) in Hm'; [|exact Hm].
    unfold selected_dependencies. destruct (bt_get str_cmp environment (environments document)); simpl in *.
    - by injection Hgs as ->.
    - destruct (bool_decide (environment = "default")); [|done]. by injection Hgs as <-. }
  split_and!; try done.
  - destruct (bt_get str_cmp environment _); [left; by eexists|right].
    by destruct (bool_decide_reflect (environment = "default")).
  - by eapply root_values_sorted.
  - intros name. by apply root_values_names.
  - intros root Hin. split; [by eapply allowlists_permit|].
    pose proof (proj2 Hinv (intent_name root)) as Hsum. by rewrite (root_of_value _ _ Hinv root Hin) in Hsum.
Qed.
End compose.
