(* ===== verification/Adapter.v ===== *)
(** * The PubGrub adapter ([rsolve-resolver/src/adapter.rs])

    The solver's version and package domains, the candidate interner, and the
    [DependencyProvider] with its load cache.  The provider's two [RefCell]s are
    the state its operations thread; an operation that fails keeps the changes
    it has made. *)

From S2P Require Import Prelude Effects RustStd Collections Externals Format Versions Names Publication.
From S2P Require Import Identity Constraints Digest Metadata Request Candidates Resolution.
From S2P Require Import Policy.

(** ** The solver's domains *)

Record CandidateId := mk_CandidateId { CandidateId_0 : N }.
#[export] Instance CandidateId_eq_dec : EqDecision CandidateId.
Proof. solve_decision. Defined.
#[export] Instance req_CandidateId : PartialEq CandidateId := req_dec.
#[export] Instance req_CandidateId_leibniz : LeibnizEq CandidateId := req_dec_leibniz.

Inductive SolverVersion :=
| VersionRoot
| VersionR (version : RPackageVersion)
| VersionCandidate (id : CandidateId).

Definition SolverVersion_eq (v w : SolverVersion) : bool :=
  match v, w with
  | VersionRoot, VersionRoot => true
  | VersionR v, VersionR w => v =?= w
  | VersionCandidate i, VersionCandidate j => i =?= j
  | _, _ => false
  end.
#[export] Instance req_SolverVersion : PartialEq SolverVersion := SolverVersion_eq.
#[export] Instance req_SolverVersion_equivalence : RustEq SolverVersion.
Proof. solve_rust_eq SolverVersion_eq. Qed.

Definition SolverVersion_fmt (v : SolverVersion) : string :=
  match v with
  | VersionRoot => "root"
  | VersionR version => "R " +:+ RPackageVersion_fmt version
  | VersionCandidate _ => "candidate"
  end.

Inductive PackageId :=
| PackageRoot
| PackageSubject (subject : SolverKey)
| PackageOccupancy (name : PackageName).

Definition PackageId_eq (p q : PackageId) : bool :=
  match p, q with
  | PackageRoot, PackageRoot => true
  | PackageSubject s, PackageSubject t => s =?= t
  | PackageOccupancy n, PackageOccupancy m => n =?= m
  | _, _ => false
  end.
#[export] Instance req_PackageId : PartialEq PackageId := PackageId_eq.
#[export] Instance req_PackageId_equivalence : RustEq PackageId.
Proof. solve_rust_eq PackageId_eq. Qed.

Definition PackageId_debug `{UnicodeTables} (p : PackageId) : string :=
  match p with
  | PackageRoot => "Root"
  | PackageSubject subject => debug_tuple "Subject" [SolverKey_debug subject]
  | PackageOccupancy name => debug_tuple "Occupancy" [PackageName_debug name]
  end.

Definition PackageId_fmt `{UnicodeTables} (p : PackageId) : string :=
  match p with
  | PackageRoot => "root"
  | PackageSubject subject => SolverKey_debug subject
  | PackageOccupancy name => "occupancy(" +:+ PackageName_as_str name +:+ ")"
  end.

(** [position], [remove]: the first element that satisfies [p], and the rest. *)
Fixpoint remove_first {A} (p : A → bool) (l : list A) : option (A * list A) :=
  match l with
  | [] => None
  | x :: l =>
    if p x then Some (x, l)
    else match remove_first p l with Some (y, k) => Some (y, x :: k) | None => None end
  end.

Section adapter.
Context `{CivilDate, Sha2, UnicodeTables}.
Context `{!VersionRanges SolverVersion, !DependencyConstraints PackageId Ranges}.

(** ** Messages and errors *)

Inductive PublicationRejection :=
| PublicationCooldown (identity : ReleaseIdentity) (published : PublicationDate)
| PublicationUnknown (identity : ReleaseIdentity).

Definition rejected_identity (r : PublicationRejection) : ReleaseIdentity :=
  match r with PublicationCooldown identity _ | PublicationUnknown identity => identity end.

Inductive ProviderMessage :=
| MessageText (text : string)
| MessagePublication (rejections : list PublicationRejection).

Definition ProviderMessage_fmt (m : ProviderMessage) : string :=
  match m with
  | MessageText message => message
  | MessagePublication rejections =>
    nat_to_string (length rejections) +:+ " publication-ineligible candidate(s)"
  end.

Record AdapterError := candidate_load_error {
  adapter_package : SolverKey;
  adapter_source : CandidateLoadError;
}.

(** ** The interner *)

Record CandidateInterner := mk_CandidateInterner {
  interner_next : N;
  by_identity : list (ReleaseIdentity * CandidateId);
  interner_candidates : list (CandidateId * PreparedCandidate);
}.
Definition CandidateInterner_default : CandidateInterner := mk_CandidateInterner 0 [] [].

Definition intern (candidate : PreparedCandidate) :
    stateful CandidateInterner CandidateId CandidateLoadError := λ self,
  match hm_get (candidate_identity candidate) (by_identity self) with
  | Some id =>
    match hm_get id (interner_candidates self) with
    | None =>
      (Err (metadata_invalid
              "candidate interner lost the prepared candidate for an interned identity"), self)
    | Some existing =>
      if negb (same_facts existing candidate)
      then (Err (metadata_invalid "conflicting logical metadata for interned candidate"), self)
      else (Ok id, self)
    end
  | None =>
    let id := mk_CandidateId (interner_next self) in
    match checked usize_max (interner_next self + 1) with
    | None =>
      (Err (metadata_invalid
              "candidate interner exhausted its solve-local identifier space"), self)
    | Some next =>
      (Ok id, mk_CandidateInterner next
                (hm_insert (candidate_identity candidate) id (by_identity self))
                (hm_insert id candidate (interner_candidates self)))
    end
  end.

(** The candidates of a name, by sort key.  The key of an id is the key of
    its candidate, so the pairs are sorted before the ids are projected. *)
Definition ids_for_name (self : CandidateInterner) (name : PackageName) : list CandidateId :=
  (sort_by (cmp_on (candidate_sort_key ∘ snd) str_cmp)
     (List.filter (λ p, ReleaseIdentity_name (candidate_identity p.2) =?= name)
        (interner_candidates self))).*1.

(** ** The provider *)

Record LoadedSubject := mk_LoadedSubject {
  loaded_candidates : list (CandidateId * PreparedCandidate);
  loaded_quarantined : list QuarantinedCandidate;
}.

Record Provider := mk_Provider {
  provider_loader : CandidateLoader;
  provider_preference : CandidatePreference;
  provider_lock_policy : LockUpdatePolicy;
  provider_request : ResolutionRequest;
}.

Record ProviderState := mk_ProviderState {
  cache : list (SolverKey * result LoadedSubject CandidateLoadError);
  interner : CandidateInterner;
}.
Definition ProviderState_new : ProviderState := mk_ProviderState [] CandidateInterner_default.

(** The operations of a provider that may load. *)
Definition provided (T : Type) := stateful ProviderState T AdapterError.

(** One release of the load loop: merged with the one of its identity. *)
Definition unique_step (unique : list PreparedCandidate) (release : PreparedCandidate) :
    result (list PreparedCandidate) CandidateLoadError :=
  match remove_first (λ c, candidate_identity c =?= candidate_identity release) unique with
  | Some (existing, rest) =>
    let? merged := map_err
      (λ e, metadata_invalid ("conflicting metadata within subject: "
                                +:+ PreparedCandidateError_fmt e))
      (PreparedCandidate_merge existing release) in
    Ok (rest ++ [merged])
  | None => Ok (unique ++ [release])
  end.

Definition intern_pair (candidate : PreparedCandidate) :
    stateful CandidateInterner (CandidateId * PreparedCandidate) CandidateLoadError :=
  let! id := intern candidate in st_ret (id, candidate).

(** The eligible, merged candidates of a load, in sort-key order. *)
Definition eligible_unique (subject : SolverKey) (releases : list PreparedCandidate) :
    result (list PreparedCandidate) CandidateLoadError :=
  let? unique := try_fold unique_step [] releases in
  Ok (List.filter (λ c, is_eligible_for c subject)
        (sort_by (cmp_on candidate_sort_key str_cmp) unique)).

Definition load_subject (self : Provider) (subject : SolverKey) :
    stateful CandidateInterner LoadedSubject CandidateLoadError :=
  let! loaded := st_lift (loader_load (provider_loader self) subject) in
  let! unique := st_lift (eligible_unique subject (load_candidates_of loaded)) in
  let! candidates := st_try_map intern_pair unique in
  st_ret (mk_LoadedSubject candidates (load_quarantined loaded)).

Definition loaded (self : Provider) (subject : SolverKey) : provided LoadedSubject := λ s,
  match hm_get subject (cache s) with
  | Some cached => (map_err (candidate_load_error subject) cached, s)
  | None =>
    let '(loaded, interner) := load_subject self subject (interner s) in
    (map_err (candidate_load_error subject) loaded,
     mk_ProviderState (hm_insert subject loaded (cache s)) interner)
  end.

Definition candidates (self : Provider) (subject : SolverKey) :
    provided (list (CandidateId * PreparedCandidate)) :=
  let! loaded := loaded self subject in st_ret (loaded_candidates loaded).

Definition candidate_for_id (self : Provider) (subject : SolverKey) (id : CandidateId) :
    provided PreparedCandidate :=
  let! loaded := loaded self subject in
  match List.find (λ p, p.1 =?= id) (loaded_candidates loaded) with
  | Some (_, release) => st_ret release
  | None =>
    st_err (candidate_load_error subject
              (metadata_invalid "selected candidate is not visible in this subject"))
  end.

Definition provider_r_version (self : Provider) : RPackageVersion :=
  target_r_version (target (provider_request self)).

Definition lock_decision (self : Provider) (subject : SolverKey) : LockDecision :=
  policy_decision (provider_lock_policy self) subject
    (hm_get subject (locked (provider_request self))).

Definition r_range (self : Provider) (constraint : VersionConstraint) : Ranges :=
  if VersionConstraint_satisfies constraint (provider_r_version self)
  then Ranges_singleton (VersionR (provider_r_version self))
  else Ranges_empty.

(** ** Subjects and expansion *)

Definition git_dependency_error (package : PackageRequirement) : AdapterError :=
  candidate_load_error (KeyInstalledName (requirement_name package))
    (metadata_invalid ("Git-sourced dependencies are not supported for package "
                         +:+ PackageName_as_str (requirement_name package))).

Definition subject_for_package (self : Provider) (package : PackageRequirement) :
    result SolverKey AdapterError :=
  let name := requirement_name package in
  match requirement_source package with
  | SourceGit _ => Err (git_dependency_error package)
  | source =>
    if PackageName_is "R" name then Ok KeyR
    else match source with
    | SourceAny =>
      match exact_root_identity (provider_request self) name with
      | None => Ok (KeyInstalledName name)
      | Some identity => Ok (KeyExact identity)
      end
    | SourceRegistry namespace => Ok (KeyRegistry namespace name)
    | SourceBioconductor namespace release => Ok (KeyBioconductor namespace release name)
    | SourceRepository repository => Ok (KeyRepository repository name)
    | SourceExact identity => Ok (KeyExact identity)
    | SourceGit _ => Err (git_dependency_error package)
    end
  end.

(** The loop over the roots: an unsupported root met before a direct
    suggestion is an error. *)
Fixpoint expansion_loop (self : Provider) (subject : SolverKey) (roots : list RootRequirement) :
    result RootExpansionPolicy AdapterError :=
  match roots with
  | [] => Ok HardOnly
  | root :: roots =>
    let? s := subject_for_package self (root_package root) in
    if (s =?= subject) && bool_decide (expansion root = DirectSuggests)
    then Ok DirectSuggests
    else expansion_loop self subject roots
  end.

Definition expansion_for_subject (self : Provider) (subject : SolverKey) :
    result RootExpansionPolicy AdapterError :=
  expansion_loop self subject (roots (provider_request self)).

Fixpoint expansion_for_subjects (self : Provider) (subjects : list SolverKey) :
    result RootExpansionPolicy AdapterError :=
  match subjects with
  | [] => Ok HardOnly
  | subject :: subjects =>
    let? e := expansion_for_subject self subject in
    if bool_decide (e = DirectSuggests) then Ok DirectSuggests
    else expansion_for_subjects self subjects
  end.

(** ** Ranges *)

Definition is_required (d : LockDecision) : bool :=
  match d with DecisionRequire _ => true | _ => false end.

Definition quarantine_error (subject : SolverKey) (versions : list RPackageVersion) : AdapterError :=
  candidate_load_error subject
    (metadata_invalid ("all candidates matching the requested range were quarantined: "
                         +:+ str_join ", " (RPackageVersion_fmt <$> versions))).

Definition matching_range (constraint : VersionConstraint)
    (candidates : list (CandidateId * PreparedCandidate)) : Ranges :=
  foldl (λ range p,
    if VersionConstraint_satisfies constraint (candidate_version p.2)
    then Ranges_union range (Ranges_singleton (VersionCandidate p.1)) else range)
    Ranges_empty candidates.

Definition candidate_ranges (self : Provider) (subject : SolverKey)
    (constraint : VersionConstraint) : provided Ranges :=
  let! loaded := loaded self subject in
  let range := matching_range constraint (loaded_candidates loaded) in
  let quarantined := List.filter (VersionConstraint_satisfies constraint)
                       (quarantined_version <$> loaded_quarantined loaded) in
  if negb (is_required (lock_decision self subject)) && Ranges_eq range Ranges_empty &&
     negb (bool_decide (length quarantined = 0))
  then st_err (quarantine_error subject quarantined)
  else st_ret range.

Definition ranges_for_subject (self : Provider) (subject : SolverKey)
    (constraint : VersionConstraint) : provided Ranges :=
  match subject with
  | KeyR => st_ret (r_range self constraint)
  | _ => candidate_ranges self subject constraint
  end.

(** ** Publication policy *)

Definition decision_required (d : LockDecision) : option ReleaseIdentity :=
  match d with DecisionRequire identity => Some identity | _ => None end.
Definition decision_locked (d : LockDecision) : option ReleaseIdentity :=
  match d with
  | DecisionPrefer identity | DecisionRequire identity => Some identity
  | DecisionUnlocked => None
  end.

(** [is_some_and(|identity| candidate.identity() == identity)]. *)
Definition is_locked_to (locked : option ReleaseIdentity) (candidate : PreparedCandidate) : bool :=
  match locked with Some identity => candidate_identity candidate =?= identity | None => false end.

Definition publication_rejection (cutoff : PublicationDate) (locked : option ReleaseIdentity)
    (candidate : PreparedCandidate) : option PublicationRejection :=
  if PackageRelease_is_r_base_package (candidate_release candidate)
     || is_locked_to locked candidate
  then None
  else match release_publication (candidate_release candidate) with
  | Some publication =>
    if is_gt (PublicationDate_cmp (ReleasePublication_date publication) cutoff)
    then Some (PublicationCooldown (candidate_identity candidate)
                 (ReleasePublication_date publication))
    else None
  | None => Some (PublicationUnknown (candidate_identity candidate))
  end.

Definition publication_rejection_sort_key (r : PublicationRejection) : string :=
  identity_sort_key (rejected_identity r).

Definition publication_rejections (self : Provider)
    (candidates : list (CandidateId * PreparedCandidate)) (locked : option ReleaseIdentity) :
    list PublicationRejection :=
  match publication_cutoff (provider_request self) with
  | None => []
  | Some cutoff =>
    sort_by (cmp_on publication_rejection_sort_key str_cmp)
      (omap (publication_rejection (PublicationCutoff_date cutoff) locked) candidates.*2)
  end.

Definition publication_rejections_for_candidate (self : Provider) (subject : SolverKey)
    (id : CandidateId) : provided (list PublicationRejection) :=
  let decision := lock_decision self subject in
  let! candidate := candidate_for_id self subject id in
  if match decision_required decision with
     | Some identity => negb (candidate_identity candidate =?= identity)
     | None => false
     end
  then st_ret []
  else st_ret (publication_rejections self [(id, candidate)] (decision_locked decision)).

(** ** Eligibility and choice *)

Definition in_range_and_required (range : option Ranges) (required : option ReleaseIdentity)
    (p : CandidateId * PreparedCandidate) : bool :=
  match required with Some identity => candidate_identity p.2 =?= identity | None => true end &&
  match range with Some range => Ranges_contains range (VersionCandidate p.1) | None => true end.

(** The candidates the policy leaves, or all of them when it leaves none. *)
Definition apply_publication_policy (self : Provider) (locked : option ReleaseIdentity)
    (eligible : list (CandidateId * PreparedCandidate)) : list (CandidateId * PreparedCandidate) :=
  match publication_cutoff (provider_request self) with
  | None => eligible
  | Some _ =>
    let rejections := publication_rejections self eligible locked in
    if bool_decide (length rejections = 0) then eligible
    else
      let retained := List.filter (λ p, negb (existsb
        (λ r, candidate_identity p.2 =?= rejected_identity r) rejections)) eligible in
      match retained with [] => eligible | _ => retained end
  end.

Definition with_eligible_candidates {T} (self : Provider) (subject : SolverKey)
    (range : option Ranges)
    (use_candidates : list (CandidateId * PreparedCandidate) → PreferenceContext → T) :
    provided T :=
  let! candidates := candidates self subject in
  let decision := lock_decision self subject in
  let locked := decision_locked decision in
  let eligible := List.filter (in_range_and_required range (decision_required decision))
                    candidates in
  st_ret (use_candidates (apply_publication_policy self locked eligible)
            (mk_PreferenceContext locked)).

Definition sort_candidates (self : Provider) (subject : SolverKey) (context : PreferenceContext)
    (candidates : list (CandidateId * PreparedCandidate)) :
    list (CandidateId * PreparedCandidate) :=
  sort_by (cmp_on snd (compare_prepared_candidates (provider_preference self) subject context))
    candidates.

(** ** The three calls of the solver *)

(** [Reverse(count)], larger counts first, and the tie-breaking text. *)
Definition Priority := (N * string)%type.

Definition prioritize (self : Provider) (package : PackageId) (range : Ranges)
    (s : ProviderState) : Priority * ProviderState :=
  let '(count, s) :=
    match package with
    | PackageRoot => (1%N, s)
    | PackageSubject KeyR =>
      ((if Ranges_contains range (VersionR (provider_r_version self)) then 1 else 0)%N, s)
    | PackageSubject subject =>
      match candidates self subject s with
      | (Ok candidates, s) =>
        (len_u64 (List.filter (λ p, Ranges_contains range (VersionCandidate p.1)) candidates), s)
      | (Err _, s) => (usize_max, s)
      end
    | PackageOccupancy _ => (1%N, s)
    end in
  ((count, PackageId_debug package), s).

Definition contained (range : Ranges) (v : SolverVersion) : option SolverVersion :=
  if Ranges_contains range v then Some v else None.

Definition choose_version (self : Provider) (package : PackageId) (range : Ranges) :
    provided (option SolverVersion) :=
  match package with
  | PackageRoot => st_ret (contained range VersionRoot)
  | PackageSubject KeyR => st_ret (contained range (VersionR (provider_r_version self)))
  | PackageSubject subject =>
    with_eligible_candidates self subject (Some range) (λ eligible context,
      (λ p, VersionCandidate p.1) <$> last (sort_candidates self subject context eligible))
  | PackageOccupancy name => λ s,
    (Ok (VersionCandidate <$>
           List.find (λ id, Ranges_contains range (VersionCandidate id))
             (ids_for_name (interner s) name)), s)
  end.

Definition root_dependency (self : Provider) (requirement : RootRequirement) :
    provided (PackageId * Ranges) :=
  let! subject := st_lift (subject_for_package self (root_package requirement)) in
  let! range := ranges_for_subject self subject
                  (requirement_constraint (root_package requirement)) in
  st_ret (PackageSubject subject, range).

(** A dependency edge's pair; [None] is the early return on a Git source. *)
Fixpoint edge_dependencies (self : Provider) (edges : list ResolvedDependencyEdge)
    (dependencies : list (PackageId * Ranges)) :
    provided (Dependencies Constraints ProviderMessage) :=
  match edges with
  | [] => st_ret (AvailableDependencies (Constraints_from_iter dependencies))
  | edge :: edges =>
    match requirement_source (edge_package edge) with
    | SourceGit _ =>
      st_ret (Unavailable (MessageText
        ("Git-sourced dependencies are not supported for package "
           +:+ PackageName_as_str (requirement_name (edge_package edge)))))
    | _ =>
      let! subject := st_lift (subject_for_package self (edge_package edge)) in
      let! range := ranges_for_subject self subject
                      (requirement_constraint (edge_package edge)) in
      edge_dependencies self edges (dependencies ++ [(PackageSubject subject, range)])
    end
  end.

Definition get_dependencies (self : Provider) (package : PackageId) (version : SolverVersion) :
    provided (Dependencies Constraints ProviderMessage) :=
  match package with
  | PackageRoot =>
    if negb (version =?= VersionRoot)
    then st_ret (Unavailable (MessageText "unknown root version"))
    else
      let r := (PackageSubject KeyR, r_range self (r_requirement (provider_request self))) in
      let! dependencies := st_try_map (root_dependency self) (roots (provider_request self)) in
      st_ret (AvailableDependencies (Constraints_from_iter (r :: dependencies)))
  | PackageSubject KeyR => st_ret (AvailableDependencies (Constraints_from_iter []))
  | PackageSubject subject =>
    match version with
    | VersionCandidate id =>
      let! rejections := publication_rejections_for_candidate self subject id in
      if negb (bool_decide (length rejections = 0))
      then st_ret (Unavailable (MessagePublication rejections))
      else
        let! candidate := candidate_for_id self subject id in
        let release := candidate_release candidate in
        let occupancy := (PackageOccupancy (ReleaseIdentity_name (release_identity release)),
                          Ranges_singleton (VersionCandidate id)) in
        let! expansion := st_lift (expansion_for_subject self subject) in
        edge_dependencies self (project_dependency_edges release expansion) [occupancy]
    | _ => st_ret (Unavailable (MessageText "unknown candidate version"))
    end
  | PackageOccupancy _ => st_ret (AvailableDependencies (Constraints_from_iter []))
  end.

Definition dependency_provider (self : Provider) :
    DependencyProvider PackageId SolverVersion Ranges Constraints ProviderMessage AdapterError
      Priority ProviderState :=
  mk_DependencyProvider (prioritize self) (choose_version self) (get_dependencies self).

(** ** The subject of a requirement *)

(** The key used to explain an assignment is the subject the solver used:
    the two functions that compute it agree on every requirement, and both
    refuse exactly the Git sources. *)
Theorem dependency_key_agrees self p :
  match subject_for_package self p with
  | Ok subject =>
      dependency_key (provider_request self) (requirement_name p) (requirement_source p)
        = Some subject
  | Err e =>
      dependency_key (provider_request self) (requirement_name p) (requirement_source p) = None ∧
      e = git_dependency_error p ∧ ∃ u, requirement_source p = SourceGit u
  end.
Proof.
  unfold subject_for_package, dependency_key. destruct (requirement_source p);
    destruct (PackageName_is "R" (requirement_name p)); simpl; try done; try (split_and!; by eauto).
  by destruct (exact_root_identity _ _).
Qed.
End adapter.
