(* ===== verification/AdapterLaws.v ===== *)
(** * Laws of the adapter

    The invariants of the interner and of the provider's cache, and the fact
    that the provider's answers settle: an operation that has answered once
    answers the same in every later state.  Everything the solver is told stays
    true until the end of the run. *)

From S2P Require Import Prelude Effects RustStd Collections Externals Format Versions Names Publication.
From S2P Require Import Identity Constraints Digest Metadata Request Candidates Resolution.
From S2P Require Import Policy Adapter.

Section interner_laws.
Context `{CivilDate, Sha2, UnicodeTables}.

(** ** Same facts *)

Lemma same_facts_refl c : same_facts c c = true.
Proof. by apply same_facts_iff. Qed.

Lemma same_facts_sym a b : same_facts a b = true → same_facts b a = true.
Proof. rewrite !same_facts_iff. intros (?&?&?&?&?&?&?&?). by split_and!; symmetry. Qed.

Lemma same_facts_trans a b c : same_facts a b = true → same_facts b c = true → same_facts a c = true.
Proof.
  rewrite !same_facts_iff. intros (?&?&?&?&?&?&?&?) (?&?&?&?&?&?&?&?). split_and!; by etrans.
Qed.

Lemma same_facts_identity a b : same_facts a b = true → candidate_identity a ≈ candidate_identity b.
Proof. rewrite same_facts_iff. tauto. Qed.

(** Two views with the same facts merge to that view. *)
Lemma merge_same_facts a b :
  candidate_wf a → candidate_wf b → same_facts a b = true →
  ∃ c, PreparedCandidate_merge a b = Ok c ∧ candidate_wf c ∧ same_facts a c = true.
Proof.
  intros Ha Hb Hab. pose proof Hab as (He & Hi & Hv & Hm & Hp & Hd & Hs & Ho)%same_facts_iff.
  pose proof (PreparedCandidate_merge_cases a b Ha Hb) as Hc.
  destruct (PreparedCandidate_merge a b) as [c|e].
  - destruct Hc as (Hc & _ & _ & _ & (Ei & Ev & Em & Ed & _ & Ep & Es) & He' & Hn).
    exists c. split_and!; [done..|]. apply same_facts_iff.
    unfold candidate_identity, candidate_version. rewrite Ei, Ev, Em, Ed. split_and!; try done.
    + rewrite He', <-He. by destruct (candidate_exposure a).
    + apply option_eq_iff. intros p. rewrite Ep, <-Hp. tauto.
    + apply release_wf_distributions_eq; [apply Ha|apply Hc|]. intros d.
      rewrite Es, elem_of_merge_distributions, <-Hs; [tauto|apply Ha|rewrite <-Hs; apply Ha].
    + destruct Ha as (_ & Hna & _). eapply normalized_unique; [done..|].
      intros x. rewrite elem_of_app, <-Ho. tauto.
  - destruct Hc. split_and!; [done| |].
    + split_and!; [done..| |done]. rewrite Hp. intros x y -> [= ->]. done.
    + intros x y Hx Hy. rewrite <-Ho in Hy. by apply Ha.
Qed.

(** ** The interner *)

Definition interner_wf (t : CandidateInterner) : Prop :=
  (∀ i id, hm_get i (by_identity t) = Some id →
     ∃ c, hm_get id (interner_candidates t) = Some c ∧ candidate_identity c ≈ i) ∧
  (∀ id c, hm_get id (interner_candidates t) = Some c →
     hm_get (candidate_identity c) (by_identity t) = Some id ∧
     (CandidateId_0 id < interner_next t)%N).

Definition interner_extends (t u : CandidateInterner) : Prop :=
  (∀ i id, hm_get i (by_identity t) = Some id → hm_get i (by_identity u) = Some id) ∧
  (∀ id c, hm_get id (interner_candidates t) = Some c →
           hm_get id (interner_candidates u) = Some c).

#[global] Instance interner_extends_preorder : PreOrder interner_extends.
Proof. split; [by split|]. intros t u v [] []. split; eauto. Qed.

Lemma interner_wf_default : interner_wf CandidateInterner_default.
Proof. by split. Qed.

(** The interner knows the candidate under this id. *)
Definition interned (t : CandidateInterner) (id : CandidateId) (c : PreparedCandidate) : Prop :=
  ∃ c', hm_get id (interner_candidates t) = Some c' ∧ same_facts c' c = true.

Lemma interned_extends t u id c : interner_extends t u → interned t id c → interned u id c.
Proof. intros [_ Hc] (c' & Hg & Hs). exists c'. eauto. Qed.

Lemma interned_same_facts t id a b : interned t id a → interned t id b → same_facts a b = true.
Proof.
  intros (c & Hc & Hca) (c' & Hc' & Hcb). rewrite Hc in Hc'. injection Hc' as <-.
  eapply same_facts_trans; [|done]. by apply same_facts_sym.
Qed.

(** Ids name identities. *)
Lemma interned_injective t i j a b :
  interner_wf t → interned t i a → interned t j b →
  candidate_identity a ≈ candidate_identity b → i = j.
Proof.
  intros [_ Hwf] (a' & Ha & Hsa%same_facts_identity) (b' & Hb & Hsb%same_facts_identity) Hab.
  apply Hwf in Ha as [Ha _], Hb as [Hb _]. rewrite Hsa, Hab, <-Hsb, Hb in Ha. congruence.
Qed.

Lemma intern_fresh_wf t c n :
  interner_wf t → hm_get (candidate_identity c) (by_identity t) = None →
  (n = interner_next t + 1)%N →
  let id := mk_CandidateId (interner_next t) in
  let u := mk_CandidateInterner n (hm_insert (candidate_identity c) id (by_identity t))
             (hm_insert id c (interner_candidates t)) in
  interner_wf u ∧ interner_extends t u.
Proof.
  intros [Hi Hc] Hnone Hn id u.
  assert (∀ id' c', hm_get id' (interner_candidates t) = Some c' → id ≉ id') as Hfresh.
  { intros id' c' [_ Hlt]%Hc Heq%req_leibniz. subst id'. simpl in Hlt. lia. }
  assert (interner_extends t u) as Hext.
  { split; simpl.
    - intros i id' Hg. rewrite hm_get_insert_ne; [done|]. intros Heq.
      rewrite <-Heq in Hg. congruence.
    - intros id' c' Hg. rewrite hm_get_insert_ne; [done|]. by eapply Hfresh. }
  split; [|done]. split; simpl.
  - intros i id' Hg. destruct (decide (candidate_identity c ≈ i)) as [Hci|Hci].
    + rewrite hm_get_insert_eq in Hg by done. injection Hg as <-. exists c.
      by rewrite hm_get_insert_eq.
    + rewrite hm_get_insert_ne in Hg by done. destruct (Hi _ _ Hg) as (c' & Hg' & Hc').
      exists c'. split; [|done]. rewrite hm_get_insert_ne; [done|]. by eapply Hfresh.
  - intros id' c' Hg. destruct (decide (id ≈ id')) as [Hid|Hid].
    + rewrite hm_get_insert_eq in Hg by done. injection Hg as <-. apply req_leibniz in Hid as <-.
      rewrite hm_get_insert_eq by done. split; [done|]. simpl. lia.
    + rewrite hm_get_insert_ne in Hg by done. destruct (Hc _ _ Hg) as [Hg' Hlt]. split; [|lia].
      rewrite hm_get_insert_ne; [done|]. intros Heq. rewrite <-Heq in Hg'. congruence.
Qed.

(** Why interning can fail. *)
Definition intern_refused (t : CandidateInterner) (c : PreparedCandidate) : Prop :=
  (∃ c' id, hm_get id (interner_candidates t) = Some c' ∧
     candidate_identity c' ≈ candidate_identity c ∧ same_facts c' c = false) ∨
  (hm_get (candidate_identity c) (by_identity t) = None ∧ interner_next t = usize_max).

Lemma intern_cases t c :
  interner_wf t → (interner_next t ≤ usize_max)%N →
  match intern c t with
  | (Ok id, u) => interner_wf u ∧ interner_extends t u ∧ interned u id c ∧
                  (interner_next u ≤ usize_max)%N
  | (Err _, u) => u = t ∧ intern_refused t c
  end.
Proof.
  intros Hwf Hmax. unfold intern.
  destruct (hm_get (candidate_identity c) (by_identity t)) as [id|] eqn:Hg.
  - pose proof Hwf as [Hi _]. destruct (Hi _ _ Hg) as (c' & Hgc & Hc'). rewrite Hgc.
    destruct (same_facts c' c) eqn:Hs; simpl.
    + split_and!; [done..| |done]. by exists c'.
    + split; [done|]. left. by exists c', id.
  - unfold checked. destruct (N.leb_spec (interner_next t + 1) usize_max).
    + destruct (intern_fresh_wf t c _ Hwf Hg eq_refl). split_and!; [done..| |done].
      exists c. simpl. rewrite hm_get_insert_eq by done. split; [done|]. apply same_facts_refl.
    + split; [done|]. right. split; [done|]. lia.
Qed.

(** Interning assigns one opaque id per identity: an equal identity gets the
    id it had, a new one gets an id no other identity has, ids already given
    keep their candidates; it refuses exactly a view whose facts differ from
    the interned one's, or a new identity when ids are exhausted. *)
Theorem intern_spec t c :
  interner_wf t → (interner_next t ≤ usize_max)%N →
  match intern c t with
  | (Ok id, u) => interner_wf u ∧ interner_extends t u ∧ interned u id c ∧
      (∀ j d, interned u j d → candidate_identity c ≈ candidate_identity d ↔ j = id)
  | (Err _, u) => u = t ∧ intern_refused t c
  end.
Proof.
  intros Ht Hmax. pose proof (intern_cases t c Ht Hmax) as Hc.
  destruct (intern c t) as [[id|e] u]; [|done]. destruct Hc as (Hu & He & Hi & _).
  split_and!; [done..|]. intros j d Hj. split.
  - intros Hcd. symmetry. by eapply interned_injective.
  - intros ->. eapply same_facts_identity, interned_same_facts; done.
Qed.
End interner_laws.

(** ** Merging the releases of one load *)

Lemma remove_first_some {A} (p : A → bool) l x k :
  remove_first p l = Some (x, k) → ∃ before after,
    l = before ++ x :: after ∧ k = before ++ after ∧ p x = true.
Proof.
  revert k. induction l as [|y l IH]; intros k; simpl; [done|]. destruct (p y) eqn:E.
  - intros [= -> ->]. by exists [], k.
  - destruct (remove_first p l) as [[z m]|]; [|done]. intros [= -> <-].
    destruct (IH m eq_refl) as (before & after & -> & -> & Hp). by exists (y :: before), after.
Qed.

Lemma remove_first_none {A} (p : A → bool) l :
  remove_first p l = None ↔ ∀ x, x ∈ l → p x = false.
Proof.
  induction l as [|y l IH]; simpl; [split; [by intros _ ? ?%elem_of_nil|done]|].
  setoid_rewrite elem_of_cons. destruct (p y) eqn:E.
  - split; [done|]. intros Hp. specialize (Hp y (or_introl eq_refl)). congruence.
  - destruct (remove_first p l) as [[z m]|]; [|destruct IH; naive_solver].
    split; [done|]. intros Hp. destruct IH as [_ IH]. discriminate IH. auto.
Qed.

Section load_laws.
Context `{CivilDate, Sha2, UnicodeTables}.

(** No two candidates of one identity. *)
Definition identities_distinct (l : list PreparedCandidate) : Prop :=
  StronglySorted (λ a b, candidate_identity a ≉ candidate_identity b) l.

Lemma identities_distinct_app l k :
  identities_distinct (l ++ k) ↔ identities_distinct l ∧ identities_distinct k ∧
    ∀ a b, a ∈ l → b ∈ k → candidate_identity a ≉ candidate_identity b.
Proof. unfold identities_distinct. rewrite StronglySorted_app. tauto. Qed.

Lemma identities_distinct_Permutation l k :
  l ≡ₚ k → identities_distinct l → identities_distinct k.
Proof.
  unfold identities_distinct. induction 1 as [|x l k Hp IH|x y l|]; [done|..|by auto].
  - intros [Hl Hx]%StronglySorted_inv. constructor; [by apply IH|]. by rewrite <-Hp.
  - intros [[Hl Hx]%StronglySorted_inv Hy]%StronglySorted_inv. inversion Hy as [|? ? Hyx Hy']; subst.
    constructor; [by constructor|]. constructor; [|done]. intros Hxy. by apply Hyx; symmetry.
Qed.

Lemma StronglySorted_filter_bool {A} (R : A → A → Prop) (f : A → bool) l :
  StronglySorted R l → StronglySorted R (List.filter f l).
Proof.
  induction 1 as [|x l Hl IH Hx]; simpl; [constructor|]. destruct (f x); [|done].
  constructor; [done|]. rewrite Forall_forall in *. intros y [Hy _]%elem_of_filter_bool. auto.
Qed.

Definition unique_inv (pre unique : list PreparedCandidate) : Prop :=
  identities_distinct unique ∧
  (∀ c, c ∈ unique →
     candidate_summary (values_of candidate_identity (candidate_identity c) pre) c) ∧
  (∀ x, x ∈ pre → ∃ c, c ∈ unique ∧ candidate_identity c ≈ candidate_identity x).

(** A step leaves the groups of other identities alone. *)
Lemma unique_inv_snoc pre unique r c :
  identities_distinct unique →
  (∀ u, u ∈ unique →
     candidate_summary (values_of candidate_identity (candidate_identity u) pre) u) →
  (∀ x, x ∈ unique → candidate_identity x ≉ candidate_identity r) →
  candidate_identity c ≈ candidate_identity r →
  candidate_summary (values_of candidate_identity (candidate_identity r) pre ++ [r]) c →
  (∀ x, x ∈ pre → (∃ u, u ∈ unique ∧ candidate_identity u ≈ candidate_identity x) ∨
                  candidate_identity x ≈ candidate_identity r) →
  unique_inv (pre ++ [r]) (unique ++ [c]).
Proof.
  intros Hd Hs Hne Hcr Hc Hcov. split_and!.
  - apply identities_distinct_app. split_and!; [done|repeat constructor|].
    intros a b Ha ->%list_elem_of_singleton. rewrite Hcr. by apply Hne.
  - intros u. rewrite elem_of_app, list_elem_of_singleton, values_of_snoc. intros [Hu|Hu].
    + rewrite decide_False; [by apply Hs|]. intros Hru. by apply (Hne u Hu).
    + subst u. rewrite decide_True by done.
      by rewrite (values_of_proper _ _ _ _ Hcr).
  - intros x. setoid_rewrite elem_of_app. setoid_rewrite list_elem_of_singleton.
    intros [[(u & Hu & Hux)|Hxr]%Hcov|Hx].
    + eauto.
    + exists c. split; [by right|]. by rewrite Hcr.
    + subst x. eauto.
Qed.

Lemma unique_step_spec pre unique r :
  unique_inv pre unique → candidate_wf r →
  match unique_step unique r with
  | Ok unique' => unique_inv (pre ++ [r]) unique'
  | Err _ => ∃ x, x ∈ pre ∧ candidates_conflict x r
  end.
Proof.
  intros (Hd & Hs & Hcov) Hr. unfold unique_step.
  destruct (remove_first _ unique) as [[e rest]|] eqn:Hrm.
  - apply remove_first_some in Hrm as (before & after & -> & -> & He%req_true_iff).
    pose proof (Hs e ltac:(apply elem_of_app; right; left)) as Hse.
    pose proof (merge_candidate_summary _ _ r Hse Hr He) as Hm.
    destruct (PreparedCandidate_merge e r) as [c|err]; simpl in Hm |- *.
    + destruct Hm as (Hce & Hc & _). rewrite (values_of_proper _ _ _ _ He) in Hc.
      assert (before ++ e :: after ≡ₚ e :: before ++ after) as Hp
        by by rewrite Permutation_middle.
      pose proof (identities_distinct_Permutation _ _ Hp Hd) as [Hd' Hde]%StronglySorted_inv.
      rewrite Forall_forall in Hde. apply unique_inv_snoc; [done|..].
      * intros u Hu. apply Hs. rewrite Hp. by right.
      * intros x Hx. intros Hxr. apply (Hde x Hx). by rewrite Hxr.
      * by rewrite Hce.
      * done.
      * intros x (u & Hu & Hux)%Hcov. rewrite Hp in Hu. apply elem_of_cons in Hu as [->|Hu];
          [right; by rewrite <-Hux|left; eauto].
    + destruct Hm as (x & [Hx Hxe]%elem_of_values_of & Hn). exists x. split; [done|].
      split; [by rewrite Hxe|done].
  - pose proof (proj1 (remove_first_none _ _) Hrm) as Hne.
    assert (∀ x, x ∈ unique → candidate_identity x ≉ candidate_identity r) as Hne'.
    { intros x Hx. apply req_false_iff. by apply Hne. }
    assert (values_of candidate_identity (candidate_identity r) pre = []) as Hnil.
    { destruct (values_of _ _ pre) as [|x l] eqn:E; [done|].
      assert (x ∈ values_of candidate_identity (candidate_identity r) pre) as Hx
        by (rewrite E; left).
      apply elem_of_values_of in Hx as [(u & Hu & Hux)%Hcov Hxr]. destruct (Hne' u Hu).
      by rewrite Hux. }
    apply unique_inv_snoc; [done..|rewrite Hnil; by apply candidate_summary_singleton|].
    intros x (u & Hu & Hux)%Hcov. left. eauto.
Qed.

Lemma unique_fold_spec pre unique l :
  unique_inv pre unique → Forall candidate_wf l →
  match try_fold unique_step unique l with
  | Ok unique' => unique_inv (pre ++ l) unique'
  | Err _ => ∃ x r, x ∈ pre ++ l ∧ r ∈ l ∧ candidates_conflict x r
  end.
Proof.
  revert pre unique. induction l as [|r l IH]; intros pre unique Hinv Hl; simpl.
  { by rewrite app_nil_r. }
  inversion Hl as [|? ? Hr Hl']; subst.
  pose proof (unique_step_spec pre unique r Hinv Hr) as Hs.
  destruct (unique_step unique r) as [unique'|e]; simpl.
  - specialize (IH (pre ++ [r]) unique' Hs Hl'). rewrite <-app_assoc in IH. simpl in IH.
    destruct (try_fold _ unique' l) as [|]; [done|].
    destruct IH as (x & y & Hx & Hy & Hxy). exists x, y. split_and!; [done|by right|done].
  - destruct Hs as (x & Hx & Hxr). exists x, r. rewrite elem_of_app. split_and!; [by left|left|done].
Qed.

Lemma unique_inv_nil : unique_inv [] [].
Proof. split_and!; [constructor|by intros ? ?%elem_of_nil..]. Qed.

(** The candidates of a subject are the eligible merges of what was loaded,
    one per identity in sort-key order; loading fails exactly when two
    releases of one identity contradict each other. *)
Theorem eligible_unique_spec subject releases :
  Forall candidate_wf releases →
  match eligible_unique subject releases with
  | Ok out =>
      identities_distinct out ∧
      StronglySorted (cmp_le (cmp_on candidate_sort_key str_cmp)) out ∧
      (∀ c, c ∈ out → is_eligible_for c subject = true ∧
         candidate_summary (values_of candidate_identity (candidate_identity c) releases) c) ∧
      (∀ x, x ∈ releases → ∃ c, candidate_identity c ≈ candidate_identity x ∧
         candidate_summary (values_of candidate_identity (candidate_identity x) releases) c ∧
         (c ∈ out ∨ is_eligible_for c subject = false))
  | Err _ => ∃ x r, x ∈ releases ∧ r ∈ releases ∧ candidates_conflict x r
  end.
Proof.
  intros Hl. unfold eligible_unique.
  pose proof (unique_fold_spec [] [] releases unique_inv_nil Hl) as Hs. simpl in Hs.
  destruct (try_fold _ _ releases) as [unique|e]; simpl; [|done].
  destruct Hs as (Hd & Hsum & Hcov).
  set (sorted := sort_by (cmp_on candidate_sort_key str_cmp) unique).
  assert (∀ x, x ∈ sorted ↔ x ∈ unique) as Hin by (intros; apply elem_of_sort_by).
  split_and!.
  - apply StronglySorted_filter_bool. eapply identities_distinct_Permutation; [|exact Hd].
    symmetry. apply sort_by_Permutation.
  - apply StronglySorted_filter_bool, sort_by_sorted, _.
  - intros c [Hc%Hin He]%elem_of_filter_bool. split; [done|by apply Hsum].
  - intros x (c & Hc & Hcx)%Hcov. exists c. split_and!; [done| |].
    + rewrite <-(values_of_proper _ _ _ _ Hcx). by apply Hsum.
    + rewrite elem_of_filter_bool, Hin. destruct (is_eligible_for c subject); auto.
Qed.
End load_laws.

(** ** The provider's state *)

(** The subject of a view counts only up to equality. *)
#[export] Instance in_scope_proper `{CivilDate, Sha2} c : Proper ((≈) ==> iff) (in_scope c).
Proof.
  intros s t Hst. unfold in_scope. rewrite (subject_name_proper _ _ Hst).
  unfold req_rel, req, req_SolverKey, SolverKey_eq in Hst. destruct s, t; try done;
    rewrite ?andb_true_iff, ?req_leibniz in Hst; destruct_and?; subst; try done.
  change (identity ≈ identity0) in Hst. by rewrite Hst.
Qed.

#[export] Instance is_eligible_for_proper `{CivilDate, Sha2} c :
  Proper ((≈) ==> (=)) (is_eligible_for c).
Proof.
  intros s t Hst. apply eq_true_iff_eq. rewrite !is_eligible_for_iff, (in_scope_proper c s t Hst).
  assert (∀ o, offers c s o ↔ offers c t o) as Ho; [|setoid_rewrite Ho]; unfold offers;
    unfold req_rel, req, req_SolverKey, SolverKey_eq in Hst; destruct s, t; try done;
    rewrite ?andb_true_iff, ?req_leibniz in Hst; destruct_and?; by subst.
Qed.

Section provider_laws.
Context `{CivilDate, Sha2, UnicodeTables}.
Context `{!VersionRanges SolverVersion, !DependencyConstraints PackageId Ranges}.
Context (self : Provider).

(** Candidates are values of [PreparedCandidate], built by its constructors. *)
Definition loader_wf (loader : CandidateLoader) : Prop :=
  ∀ subject r, loader_load loader subject = Ok r → Forall candidate_wf (load_candidates_of r).

Lemma eligible_unique_ok subject releases out :
  Forall candidate_wf releases → eligible_unique subject releases = Ok out →
  ∀ c, c ∈ out → candidate_wf c ∧ is_eligible_for c subject = true.
Proof.
  intros Hl Hout c Hc. unfold eligible_unique in Hout.
  pose proof (unique_fold_spec [] [] releases unique_inv_nil Hl) as Hs.
  destruct (try_fold _ _ releases) as [unique|]; [|done]. simpl in Hout. injection Hout as <-.
  apply elem_of_filter_bool in Hc as [Hc He]. rewrite elem_of_sort_by in Hc.
  split; [|done]. by apply Hs.
Qed.

(** A merged candidate has the identity of some release it was merged from. *)
Lemma eligible_unique_source subject releases out :
  Forall candidate_wf releases → eligible_unique subject releases = Ok out →
  ∀ c, c ∈ out → ∃ x, x ∈ releases ∧ candidate_identity x ≈ candidate_identity c.
Proof.
  intros Hl Hout c Hc. unfold eligible_unique in Hout.
  pose proof (unique_fold_spec [] [] releases unique_inv_nil Hl) as Hs.
  destruct (try_fold _ _ releases) as [unique|]; [|done]. simpl in Hout. injection Hout as <-.
  apply elem_of_filter_bool in Hc as [Hc He]. rewrite elem_of_sort_by in Hc.
  destruct Hs as (_ & Hsum & _). destruct (Hsum c Hc) as (_ & (_ & Hne & _) & _). simpl in Hne.
  destruct (values_of candidate_identity (candidate_identity c) releases) as [|x l] eqn:E; [done|].
  exists x. apply elem_of_values_of. rewrite E. by left.
Qed.

(** What the cache holds for a subject. *)
Definition loaded_ok (t : CandidateInterner) (subject : SolverKey) (l : LoadedSubject) : Prop :=
  (∀ id c, (id, c) ∈ loaded_candidates l → interned t id c) ∧
  ∃ key r, key ≈ subject ∧ loader_load (provider_loader self) key = Ok r ∧
    eligible_unique key (load_candidates_of r) = Ok (loaded_candidates l).*2 ∧
    loaded_quarantined l = load_quarantined r.

Definition state_wf (s : ProviderState) : Prop :=
  interner_wf (interner s) ∧ (interner_next (interner s) ≤ usize_max)%N ∧
  ∀ subject l, hm_get subject (cache s) = Some (Ok l) → loaded_ok (interner s) subject l.

Definition state_extends (s s' : ProviderState) : Prop :=
  interner_extends (interner s) (interner s') ∧
  ∀ subject r, hm_get subject (cache s) = Some r → hm_get subject (cache s') = Some r.

#[global] Instance state_extends_preorder : PreOrder state_extends.
Proof.
  split; [by split|]. intros s t u [] []. split; [by etrans|eauto].
Qed.

Lemma state_wf_new : state_wf ProviderState_new.
Proof. by split. Qed.

Lemma intern_all_spec l t :
  interner_wf t → (interner_next t ≤ usize_max)%N →
  match st_try_map intern_pair l t with
  | (Ok ps, u) => interner_wf u ∧ interner_extends t u ∧ (interner_next u ≤ usize_max)%N ∧
      ps.*2 = l ∧ ∀ id c, (id, c) ∈ ps → interned u id c
  | (Err _, u) => interner_wf u ∧ interner_extends t u ∧ (interner_next u ≤ usize_max)%N
  end.
Proof.
  revert t. induction l as [|c l IH]; intros t Hwf Hmax; simpl.
  { split_and!; try done. by intros ? ? ?%elem_of_nil. }
  unfold st_bind. unfold intern_pair at 1, st_bind.
  pose proof (intern_cases t c Hwf Hmax) as Hc.
  destruct (intern c t) as [[id|e] u]; simpl; [|by destruct Hc as [-> _]].
  destruct Hc as (Hu & Htu & Hid & Hmu). specialize (IH u Hu Hmu).
  destruct (st_try_map intern_pair l u) as [[ps|e] v]; simpl.
  - destruct IH as (Hv & Huv & Hmv & Hps & Hin). split_and!; [done|by etrans|done|cbn; by f_equal|].
    intros id' c' [[= -> ->]|Hp]%elem_of_cons; [by eapply interned_extends|by apply Hin].
  - destruct IH as (? & ? & ?). split_and!; [done|by etrans|done].
Qed.

Lemma loaded_ok_extends t u subject l :
  interner_extends t u → loaded_ok t subject l → loaded_ok u subject l.
Proof. intros Htu [Hi Hl]. split; [|done]. intros id c Hc. by eapply interned_extends, Hi. Qed.

Lemma loaded_ok_proper t s s' l : s ≈ s' → loaded_ok t s l → loaded_ok t s' l.
Proof. intros Hs [Hi (k & r & Hk & Hr)]. split; [done|]. exists k, r. by rewrite <-Hs. Qed.

Lemma load_subject_spec subject t :
  interner_wf t → (interner_next t ≤ usize_max)%N →
  match load_subject self subject t with
  | (r, u) => interner_wf u ∧ interner_extends t u ∧ (interner_next u ≤ usize_max)%N ∧
      ∀ l, r = Ok l → loaded_ok u subject l
  end.
Proof.
  intros Hwf Hmax. unfold load_subject, st_bind, st_lift.
  destruct (loader_load (provider_loader self) subject) as [r|e] eqn:Hr; [|by split_and!].
  destruct (eligible_unique subject (load_candidates_of r)) as [out|e] eqn:Ho; [|by split_and!].
  pose proof (intern_all_spec out t Hwf Hmax) as Hi.
  destruct (st_try_map intern_pair out t) as [[ps|e] u]; simpl.
  - destruct Hi as (Hu & Htu & Hmu & Hps & Hin). split_and!; [done..|].
    intros l [= <-]. split; [done|]. exists subject, r. split_and!; [done..| |done].
    simpl. by rewrite Hps.
  - destruct Hi as (? & ? & ?). by split_and!.
Qed.

(** ** Operations settle *)

(** [m] keeps the invariant and only adds to the state, and once it has
    answered it gives that answer in every later state. *)
Definition settles {T} (m : provided T) : Prop :=
  ∀ s, state_wf s →
  match m s with
  | (r, s') => state_wf s' ∧ state_extends s s' ∧ ∀ s'', state_extends s' s'' → m s'' = (r, s'')
  end.

Lemma settles_ret {T} (x : T) : settles (st_ret x).
Proof. intros s Hs. by split_and!. Qed.

Lemma settles_err {T} (e : AdapterError) : settles (st_err (T := T) e).
Proof. intros s Hs. by split_and!. Qed.

Lemma settles_lift {T} (r : result T AdapterError) : settles (st_lift r).
Proof. intros s Hs. by split_and!. Qed.

Lemma settles_bind {T U} (m : provided T) (k : T → provided U) :
  settles m → (∀ x, settles (k x)) → settles (st_bind m k).
Proof.
  intros Hm Hk s Hs. unfold st_bind. specialize (Hm s Hs).
  destruct (m s) as [[x|e] s1]; destruct Hm as (Hw1 & He1 & Hst1).
  - specialize (Hk x s1 Hw1). destruct (k x s1) as [r s2]. destruct Hk as (Hw2 & He2 & Hst2).
    split_and!; [done|by etrans|]. intros s'' He. rewrite Hst1 by by etrans. by apply Hst2.
  - split_and!; [done..|]. intros s'' He. by rewrite Hst1.
Qed.

Lemma settles_try_map {A B} (f : A → provided B) l :
  (∀ x, settles (f x)) → settles (st_try_map f l).
Proof.
  intros Hf. induction l as [|x l IH]; simpl; [apply settles_ret|].
  apply settles_bind; [done|]. intros y. apply settles_bind; [done|]. intros ys. apply settles_ret.
Qed.

Lemma settles_loaded subject : settles (loaded self subject).
Proof.
  intros s Hs. unfold loaded. destruct (hm_get subject (cache s)) as [cached|] eqn:Hc.
  - split_and!; [done..|]. intros s'' [_ He]. by rewrite (He _ _ Hc).
  - destruct Hs as (Hi & Hmax & Hcache). pose proof (load_subject_spec subject _ Hi Hmax) as Hl.
    destruct (load_subject self subject (interner s)) as [r u].
    destruct Hl as (Hu & Htu & Hmu & Hl). split_and!.
    + split_and!; [done..|]. intros subject' l Hg. simpl in *.
      destruct (decide (subject ≈ subject')) as [Hss|Hss].
      * rewrite hm_get_insert_eq in Hg by done. injection Hg as ->.
        eapply loaded_ok_proper; [exact Hss|by apply Hl].
      * rewrite hm_get_insert_ne in Hg by done. by eapply loaded_ok_extends, Hcache.
    + split; [done|]. intros subject' r' Hg. simpl. rewrite hm_get_insert_ne; [done|].
      intros Hss. rewrite <-Hss in Hg. congruence.
    + intros s'' [_ He]. rewrite (He subject r); [done|]. simpl. by rewrite hm_get_insert_eq.
Qed.

Hint Resolve settles_ret settles_err settles_lift settles_bind settles_try_map settles_loaded
  : provider.

Lemma settles_candidates subject : settles (candidates self subject).
Proof. unfold candidates. auto with provider. Qed.
Hint Resolve settles_candidates : provider.

Lemma settles_candidate_for_id subject id : settles (candidate_for_id self subject id).
Proof.
  unfold candidate_for_id. apply settles_bind; [auto with provider|]. intros l.
  destruct (List.find _ _) as [[]|]; auto with provider.
Qed.
Hint Resolve settles_candidate_for_id : provider.

Lemma settles_candidate_ranges subject c : settles (candidate_ranges self subject c).
Proof.
  unfold candidate_ranges. apply settles_bind; [auto with provider|]. intros l.
  destruct (_ && _); auto with provider.
Qed.
Hint Resolve settles_candidate_ranges : provider.

Lemma settles_ranges_for_subject subject c : settles (ranges_for_subject self subject c).
Proof. unfold ranges_for_subject. destruct subject; auto with provider. Qed.
Hint Resolve settles_ranges_for_subject : provider.

Lemma settles_publication_rejections subject id :
  settles (publication_rejections_for_candidate self subject id).
Proof.
  unfold publication_rejections_for_candidate. apply settles_bind; [auto with provider|].
  intros c. destruct (decision_required _) as [i|]; [destruct (negb _)|]; auto with provider.
Qed.
Hint Resolve settles_publication_rejections : provider.

Lemma settles_with_eligible {T} subject range (k : _ → _ → T) :
  settles (with_eligible_candidates self subject range k).
Proof. unfold with_eligible_candidates. auto with provider. Qed.
Hint Resolve settles_with_eligible : provider.

Lemma settles_root_dependency root : settles (root_dependency self root).
Proof.
  unfold root_dependency. apply settles_bind; [auto with provider|]. intros subject.
  apply settles_bind; auto with provider.
Qed.
Hint Resolve settles_root_dependency : provider.

Lemma settles_edge_dependencies edges deps : settles (edge_dependencies self edges deps).
Proof.
  revert deps. induction edges as [|e edges IH]; intros deps; simpl; [auto with provider|].
  destruct (requirement_source _); try (apply settles_ret);
    (apply settles_bind; [auto with provider|]; intros subject;
     apply settles_bind; [auto with provider|]; intros range; apply IH).
Qed.
Hint Resolve settles_edge_dependencies : provider.

Lemma settles_get_dependencies p v : settles (get_dependencies self p v).
Proof.
  unfold get_dependencies. destruct p as [|subject|name]; [|destruct subject|auto with provider].
  { destruct (negb _); auto with provider. }
  all: try (apply settles_ret).
  all: destruct v as [|v|id]; try (apply settles_ret).
  all: apply settles_bind; [auto with provider|]; intros rejections;
    destruct (negb _); [auto with provider|];
    apply settles_bind; [auto with provider|]; intros c;
    apply settles_bind; auto with provider.
Qed.
Hint Resolve settles_get_dependencies : provider.

Lemma settles_choose_subject subject range :
  settles (choose_version self (PackageSubject subject) range).
Proof. destruct subject; simpl; auto with provider. Qed.

(** ** Runs of the solver *)

Lemma choose_version_keeps p range s :
  state_wf s →
  state_wf (choose_version self p range s).2 ∧ state_extends s (choose_version self p range s).2.
Proof.
  intros Hs. destruct p as [|subject|name]; [by split..| |by split].
  pose proof (settles_choose_subject subject range s Hs) as Hc.
  destruct (choose_version _ _ _ _). by destruct Hc as (? & ? & _).
Qed.

Lemma prioritize_keeps p range s :
  state_wf s → state_wf (prioritize self p range s).2 ∧ state_extends s (prioritize self p range s).2.
Proof.
  intros Hs. unfold prioritize. destruct p as [|subject|name]; [by split..| |by split].
  destruct subject; try by split.
  all: match goal with Hs : state_wf ?st |- context [candidates _ ?k ?st] =>
    pose proof (settles_candidates k st Hs) as Hc; destruct (candidates _ k st) as [[] ?] end;
    by destruct Hc as (? & ? & _).
Qed.

Lemma provider_call_keeps call s s' :
  state_wf s → provider_call (dependency_provider self) s call s' → state_wf s' ∧ state_extends s s'.
Proof.
  intros Hs. destruct call as [p r|p r v|p v d]; simpl.
  - intros <-. by apply prioritize_keeps.
  - intros E. pose proof (choose_version_keeps p r s Hs) as Hk. by rewrite E in Hk.
  - intros E. pose proof (settles_get_dependencies p v s Hs) as Hk. rewrite E in Hk. tauto.
Qed.

(** [m] answers [x] in every state from [s] on. *)
Definition answers {T} (m : provided T) (r : result T AdapterError) (s : ProviderState) : Prop :=
  ∀ s', state_extends s s' → m s' = (r, s').

(** After a run, what the solver was told about subjects still holds. *)
Lemma provider_run_answers calls s s' :
  state_wf s → provider_run (dependency_provider self) s calls s' →
  state_wf s' ∧ state_extends s s' ∧
  (∀ p v r, CallGetDependencies p v r ∈ calls → answers (get_dependencies self p v) r s') ∧
  (∀ subject range r, CallChooseVersion (PackageSubject subject) range r ∈ calls →
     answers (choose_version self (PackageSubject subject) range) r s').
Proof.
  intros Hs Hrun. induction Hrun as [s|s call s1 calls s2 Hcall _ IH].
  { split_and!; [done..| |]; by intros * ?%elem_of_nil. }
  destruct (provider_call_keeps call s s1 Hs Hcall) as [Hs1 He1].
  destruct (IH Hs1) as (Hs2 & He2 & Hd & Hc). split_and!; [done|by etrans|..].
  - intros p v r [<-|Hin]%elem_of_cons; [|by apply Hd]. simpl in Hcall.
    pose proof (settles_get_dependencies p v s Hs) as Hset. rewrite Hcall in Hset.
    intros s'' He. apply Hset. by etrans.
  - intros subject range r [<-|Hin]%elem_of_cons; [|by apply Hc].
    change (choose_version self (PackageSubject subject) range s = (r, s1)) in Hcall.
    pose proof (settles_choose_subject subject range s Hs) as Hset. rewrite Hcall in Hset.
    intros s'' He. apply Hset. by etrans.
Qed.

(** Solves [settles] of any composition of the provider's operations. *)
Ltac settle :=
  cbv beta zeta; intros; cbv beta zeta;
  first [solve [auto with provider] | apply settles_bind; [settle|settle] | case_match; settle].

(** ** What settled answers mean *)

Lemma answers_bind {T U} (m : provided T) (k : T → provided U) y s :
  settles m → (∀ x, settles (k x)) → state_wf s → answers (st_bind m k) (Ok y) s →
  ∃ x, answers m (Ok x) s ∧ answers (k x) (Ok y) s.
Proof.
  intros Hm Hk Hs Ha. pose proof (Ha s ltac:(reflexivity)) as E. unfold st_bind in E.
  pose proof (Hm s Hs) as Hms. destruct (m s) as [[x|e] s1]; [|done].
  destruct Hms as (Hs1 & He1 & Hst1). pose proof (Hk x s1 Hs1) as Hks. rewrite E in Hks.
  destruct Hks as (_ & He2 & Hst2). exists x. split; [|exact Hst2].
  intros s' He. apply Hst1. by etrans.
Qed.

Lemma answers_here {T} (m : provided T) r s : answers m r s → m s = (r, s).
Proof. intros Ha. by apply Ha. Qed.

Lemma answers_ret {T} (x y : T) s : answers (st_ret x) (Ok y) s → x = y.
Proof. intros [= ->]%answers_here. done. Qed.

Lemma answers_err {T} e (y : T) s : ¬ answers (st_err e) (Ok y) s.
Proof. by intros ?%answers_here. Qed.

Lemma answers_lift {T} (r : result T AdapterError) y s : answers (st_lift r) (Ok y) s → r = Ok y.
Proof. intros [= ->]%answers_here. done. Qed.

Lemma answers_loaded subject l s :
  state_wf s → answers (loaded self subject) (Ok l) s → loaded_ok (interner s) subject l.
Proof.
  intros (Hi & Hmax & Hc) E%answers_here. unfold loaded in E.
  destruct (hm_get subject (cache s)) as [[l'|e]|] eqn:Hg; simpl in E; simplify_eq; [by apply Hc|].
  pose proof (load_subject_spec subject _ Hi Hmax) as Hl.
  destruct (load_subject self subject (interner s)) as [r u]. destruct Hl as (_ & _ & _ & Hl).
  injection E as Er Es. rewrite <-Es. simpl. apply Hl. destruct r; simpl in Er; congruence.
Qed.

(** The candidate [c] is in the subject's settled view, under [id]. *)
Definition visible (s : ProviderState) (subject : SolverKey) (id : CandidateId)
    (c : PreparedCandidate) : Prop :=
  ∃ l, answers (loaded self subject) (Ok l) s ∧ (id, c) ∈ loaded_candidates l.

Lemma visible_interned s subject id c :
  state_wf s → visible s subject id c → interned (interner s) id c.
Proof. intros Hs (l & Hl & Hc). by apply (answers_loaded _ _ _ Hs Hl). Qed.

Lemma visible_candidate s subject id c :
  loader_wf (provider_loader self) → state_wf s → visible s subject id c →
  candidate_wf c ∧ is_eligible_for c subject = true.
Proof.
  intros Hw Hs (l & Hl & Hc). destruct (answers_loaded _ _ _ Hs Hl) as [_ (k & r & Hk & Hr & Ho & _)].
  rewrite <-(is_eligible_for_proper c k subject Hk).
  apply (eligible_unique_ok k _ _ (Hw _ _ Hr) Ho). by apply (list_elem_of_fmap_2' snd _ (id, c)).
Qed.

Lemma answers_candidate_for_id subject id c s :
  state_wf s → answers (candidate_for_id self subject id) (Ok c) s → visible s subject id c.
Proof.
  intros Hs (l & Hl & Hk)%answers_bind; [|settle..|done].
  exists l. split; [done|]. destruct (List.find _ _) as [[id' c']|] eqn:Hf.
  - apply answers_ret in Hk as ->. apply find_some in Hf as [Hin Hid].
    apply req_leibniz in Hid. simpl in Hid. subst id'. by apply list_elem_of_In.
  - by apply answers_err in Hk.
Qed.

Context `{!VersionRangesLaws SolverVersion}.

Lemma matching_range_contains con l w :
  Ranges_contains (matching_range con l) w = true ↔ ∃ id c, (id, c) ∈ l ∧
    w = VersionCandidate id ∧ VersionConstraint_satisfies con (candidate_version c) = true.
Proof.
  unfold matching_range.
  assert (∀ acc, Ranges_contains (foldl (λ range p,
    if VersionConstraint_satisfies con (candidate_version p.2)
    then Ranges_union range (Ranges_singleton (VersionCandidate p.1)) else range) acc l) w = true ↔
    Ranges_contains acc w = true ∨ ∃ id c, (id, c) ∈ l ∧
      w = VersionCandidate id ∧ VersionConstraint_satisfies con (candidate_version c) = true) as Hg.
  { induction l as [|[id c] l IH]; intros acc; simpl.
    { split; [auto|]. by intros [|(? & ? & ?%elem_of_nil & _)]. }
    rewrite IH. setoid_rewrite elem_of_cons.
    destruct (VersionConstraint_satisfies con (candidate_version c)) eqn:E.
    - rewrite contains_union, contains_singleton, orb_true_iff.
      assert (VersionCandidate id =?= w = true ↔ w = VersionCandidate id) as ->.
      { destruct w as [| |j]; simpl; try by split.
        unfold req, req_SolverVersion, SolverVersion_eq. rewrite req_leibniz. naive_solver. }
      split.
      + intros [[?| ->]|(id' & c' & ? & ? & ?)]; [by left|right; by exists id, c; auto|].
        right. exists id', c'. auto.
      + intros [?|(id' & c' & [[= -> ->]|?] & -> & ?)]; [by left; left|by left; right|].
        right. exists id', c'. auto.
    - split.
      + intros [?|(id' & c' & ? & ? & ?)]; [by left|]. right. exists id', c'. auto.
      + intros [?|(id' & c' & [[= -> ->]|?] & ? & ?)]; [by left|congruence|].
        right. exists id', c'. auto. }
  rewrite Hg, contains_empty. split; [by intros [|]|by right].
Qed.

(** The version [w] of the subject meets the constraint. *)
Definition meets (s : ProviderState) (subject : SolverKey) (con : VersionConstraint)
    (w : SolverVersion) : Prop :=
  match subject with
  | KeyR => VersionConstraint_satisfies con (provider_r_version self) = true
  | _ => ∃ id c, w = VersionCandidate id ∧ visible s subject id c ∧
      VersionConstraint_satisfies con (candidate_version c) = true
  end.

Lemma r_range_contains con w :
  Ranges_contains (r_range self con) w = true →
  VersionConstraint_satisfies con (provider_r_version self) = true.
Proof.
  unfold r_range. destruct (VersionConstraint_satisfies _ _); [done|]. by rewrite contains_empty.
Qed.

Lemma answers_candidate_ranges subject con range w s :
  state_wf s → answers (candidate_ranges self subject con) (Ok range) s →
  Ranges_contains range w = true → ∃ id c, w = VersionCandidate id ∧ visible s subject id c ∧
    VersionConstraint_satisfies con (candidate_version c) = true.
Proof.
  intros Hs (l & Hl & Hk)%answers_bind; [|settle..|done].
  cbv zeta in Hk. destruct (_ && _) in Hk; [by apply answers_err in Hk|]. apply answers_ret in Hk as <-.
  intros (id & c & Hin & -> & Hc)%matching_range_contains. exists id, c.
  split_and!; [done| |done]. by exists l.
Qed.

Lemma answers_ranges subject con range w s :
  state_wf s → answers (ranges_for_subject self subject con) (Ok range) s →
  Ranges_contains range w = true → meets s subject con w.
Proof.
  intros Hs Ha Hw. destruct subject; simpl in *; try by eapply answers_candidate_ranges.
  apply answers_ret in Ha as <-. by eapply r_range_contains.
Qed.

(** The pair the solver was given for a requirement. *)
Definition requirement_pair (s : ProviderState) (r : PackageRequirement) (d : PackageId * Ranges) :
    Prop :=
  ∃ subject range, d = (PackageSubject subject, range) ∧ subject_for_package self r = Ok subject ∧
    answers (ranges_for_subject self subject (requirement_constraint r)) (Ok range) s.

Lemma requirement_pair_subject s r d subject :
  requirement_pair s r d → subject_for_package self r = Ok subject → d.1 = PackageSubject subject.
Proof. intros (t & range & -> & Ht & _) Hs. simpl. congruence. Qed.

Lemma answers_edge_dependencies edges deps dc s :
  state_wf s → answers (edge_dependencies self edges deps) (Ok (AvailableDependencies dc)) s →
  ∃ more, dc = Constraints_from_iter (deps ++ more) ∧
    Forall2 (λ e d, requirement_pair s (edge_package e) d) edges more.
Proof.
  intros Hs. revert deps. induction edges as [|e edges IH]; intros deps Ha; simpl in Ha.
  { apply answers_ret in Ha. injection Ha as <-. exists []. rewrite app_nil_r.
    split; [done|constructor]. }
  assert (answers
    (let! subject := st_lift (subject_for_package self (edge_package e)) in
     let! range := ranges_for_subject self subject (requirement_constraint (edge_package e)) in
     edge_dependencies self edges (deps ++ [(PackageSubject subject, range)]))
    (Ok (AvailableDependencies dc)) s) as Hb.
  { destruct (requirement_source (edge_package e)); try exact Ha. by apply answers_ret in Ha. }
  clear Ha. apply answers_bind in Hb as (subject & Hsub%answers_lift & Hb); [|settle..|done].
  apply answers_bind in Hb as (range & Hrange & Hb); [|settle..|done].
  destruct (IH _ Hb) as (more & -> & Hmore). exists ((PackageSubject subject, range) :: more).
  split; [by rewrite <-app_assoc|]. constructor; [|done]. by exists subject, range.
Qed.

(** What an available root was told. *)
Lemma answers_root_dependencies v dc s :
  state_wf s → answers (get_dependencies self PackageRoot v) (Ok (AvailableDependencies dc)) s →
  ∃ deps, dc = Constraints_from_iter
      ((PackageSubject KeyR, r_range self (r_requirement (provider_request self))) :: deps) ∧
    Forall2 (λ root d, requirement_pair s (root_package root) d)
      (roots (provider_request self)) deps.
Proof.
  intros Hs Ha. simpl in Ha. destruct (negb _) in Ha; [by apply answers_ret in Ha|].
  apply answers_bind in Ha as (deps & Hdeps & Ha); [|settle..|done].
  apply answers_ret in Ha. injection Ha as <-. exists deps. split; [done|].
  revert deps Hdeps. induction (roots (provider_request self)) as [|root l IH];
    intros deps Hdeps; simpl in Hdeps.
  { apply answers_ret in Hdeps as <-. constructor. }
  apply answers_bind in Hdeps as (d & Hd & Hdeps); [|settle..|done].
  apply answers_bind in Hdeps as (ds & Hds & Hdeps); [|settle..|done].
  apply answers_ret in Hdeps as <-. constructor; [|by apply IH].
  unfold root_dependency in Hd. apply answers_bind in Hd as (subject & Hsub%answers_lift & Hd); [|settle..|done].
  apply answers_bind in Hd as (range & Hrange & Hd); [|settle..|done].
  apply answers_ret in Hd as <-. by exists subject, range.
Qed.

(** What an available subject was told: its candidate is visible, the
    publication policy accepts it, and its edges were given. *)
Lemma answers_subject_dependencies subject v dc s :
  state_wf s → subject ≉ KeyR →
  answers (get_dependencies self (PackageSubject subject) v) (Ok (AvailableDependencies dc)) s →
  ∃ id c e deps, v = VersionCandidate id ∧
    answers (candidate_for_id self subject id) (Ok c) s ∧
    answers (publication_rejections_for_candidate self subject id) (Ok []) s ∧
    expansion_for_subject self subject = Ok e ∧
    dc = Constraints_from_iter
      ((PackageOccupancy (ReleaseIdentity_name (candidate_identity c)),
        Ranges_singleton (VersionCandidate id)) :: deps) ∧
    Forall2 (λ edge d, requirement_pair s (edge_package edge) d)
      (project_dependency_edges (candidate_release c) e) deps.
Proof.
  intros Hs HR Ha.
  assert (∃ id, v = VersionCandidate id ∧ answers
    (let! rejections := publication_rejections_for_candidate self subject id in
     if negb (bool_decide (length rejections = 0))
     then st_ret (Unavailable (MessagePublication rejections))
     else
       let! candidate := candidate_for_id self subject id in
       let! expansion := st_lift (expansion_for_subject self subject) in
       edge_dependencies self (project_dependency_edges (candidate_release candidate) expansion)
         [(PackageOccupancy (ReleaseIdentity_name (candidate_identity candidate)),
           Ranges_singleton (VersionCandidate id))]) (Ok (AvailableDependencies dc)) s)
    as (id & -> & Hb).
  { destruct subject; simpl in Ha; try done;
      (destruct v as [|v|id]; [by apply answers_ret in Ha..|by exists id]). }
  clear Ha. exists id. apply answers_bind in Hb as (rejections & Hrej & Hb); [|settle..|done].
  case_bool_decide as Hlen; simpl in Hb; [|by apply answers_ret in Hb].
  apply length_zero_iff_nil in Hlen as ->.
  apply answers_bind in Hb as (c & Hc & Hb); [|settle..|done].
  apply answers_bind in Hb as (e & He%answers_lift & Hb); [|settle..|done].
  apply answers_edge_dependencies in Hb as (deps & -> & Hdeps); [|done].
  by exists c, e, deps.
Qed.

Lemma answers_functional {T} (m : provided T) r r' s : answers m r s → answers m r' s → r = r'.
Proof. intros Ha%answers_here Hb%answers_here. congruence. Qed.

(** ** Policy of the candidates that are told *)

(** What the publication policy wants of a candidate. *)
Definition publication_accepts (subject : SolverKey) (c : PreparedCandidate) : Prop :=
  ∀ cutoff, publication_cutoff (provider_request self) = Some cutoff →
    PackageRelease_is_r_base_package (candidate_release c) = true ∨
    (∃ i, decision_locked (lock_decision self subject) = Some i ∧ candidate_identity c ≈ i) ∨
    (∃ p, release_publication (candidate_release c) = Some p ∧
          PublicationDate_cmp (ReleasePublication_date p) (PublicationCutoff_date cutoff) ≠ Gt).

Definition lock_accepts (subject : SolverKey) (c : PreparedCandidate) : Prop :=
  ∀ i, decision_required (lock_decision self subject) = Some i → candidate_identity c ≈ i.

Lemma publication_rejection_none cutoff locked c :
  publication_rejection cutoff locked c = None ↔
    PackageRelease_is_r_base_package (candidate_release c) = true ∨
    (∃ i, locked = Some i ∧ candidate_identity c ≈ i) ∨
    (∃ p, release_publication (candidate_release c) = Some p ∧
          PublicationDate_cmp (ReleasePublication_date p) cutoff ≠ Gt).
Proof.
  unfold publication_rejection.
  destruct (PackageRelease_is_r_base_package _); simpl; [split; [by left|done]|].
  destruct (is_locked_to locked c) eqn:El; unfold is_locked_to in El.
  { split; [intros _|done]. destruct locked as [i|]; [|done]. right. left. by exists i. }
  assert (¬ ∃ i, locked = Some i ∧ candidate_identity c ≈ i) as Hn.
  { intros (i & -> & Hi). unfold req_rel in Hi; congruence. }
  destruct (release_publication _) as [p|];
    [destruct (PublicationDate_cmp (ReleasePublication_date p) cutoff) eqn:Ec|]; simpl.
  - split; [intros _|done]. right. right. exists p. by rewrite Ec.
  - split; [intros _|done]. right. right. exists p. by rewrite Ec.
  - split; [done|]. intros [?|[?|(q & [= <-] & Hq)]]; [done|by destruct Hn|by rewrite Ec in Hq].
  - split; [done|]. intros [?|[?|(q & [=] & _)]]; [done|by destruct Hn].
Qed.

Lemma publication_rejections_singleton id c locked :
  publication_rejections self [(id, c)] locked = [] →
  ∀ cutoff, publication_cutoff (provider_request self) = Some cutoff →
    publication_rejection (PublicationCutoff_date cutoff) locked c = None.
Proof.
  unfold publication_rejections. intros Hr cutoff Hc. rewrite Hc in Hr. cbn in Hr.
  by destruct (publication_rejection _ _ _).
Qed.

Lemma answers_no_rejections subject id c s :
  state_wf s → answers (candidate_for_id self subject id) (Ok c) s → lock_accepts subject c →
  answers (publication_rejections_for_candidate self subject id) (Ok []) s →
  publication_accepts subject c.
Proof.
  intros Hs Hc Hl (c' & Hc' & Hk)%answers_bind; [|settle..|done].
  assert (c' = c) as -> by (pose proof (answers_functional _ _ _ _ Hc Hc'); congruence).
  intros cutoff Hcut. apply publication_rejection_none.
  apply (publication_rejections_singleton id); [|done]. unfold lock_accepts in Hl.
  destruct (decision_required (lock_decision self subject)) as [i|].
  - pose proof (Hl i eq_refl) as Hi. unfold req_rel in Hi. rewrite Hi in Hk. by apply answers_ret in Hk.
  - by apply answers_ret in Hk.
Qed.

Lemma elem_of_apply_publication_policy locked l p :
  p ∈ apply_publication_policy self locked l → p ∈ l.
Proof.
  unfold apply_publication_policy. destruct (publication_cutoff _); [|done].
  case_bool_decide; [done|]. destruct (List.filter _ l) as [|q k] eqn:E; [done|].
  rewrite <-E. by intros [? _]%elem_of_filter_bool.
Qed.

(** A chosen candidate is visible, in range, and the required one. *)
Lemma answers_choose_version subject range w s :
  state_wf s → subject ≉ KeyR →
  answers (choose_version self (PackageSubject subject) range) (Ok (Some w)) s →
  ∃ id c, w = VersionCandidate id ∧ visible s subject id c ∧
    Ranges_contains range w = true ∧ lock_accepts subject c.
Proof.
  intros Hs HR Ha.
  assert (answers (with_eligible_candidates self subject (Some range) (λ eligible context,
      (λ p, VersionCandidate p.1) <$> last (sort_candidates self subject context eligible)))
    (Ok (Some w)) s) as Hb by by destruct subject.
  clear Ha. apply answers_bind in Hb as (cs & Hcs & Hb); [|settle..|done].
  apply answers_bind in Hcs as (l & Hl & Hcs); [|settle..|done]. apply answers_ret in Hcs as <-.
  apply answers_ret in Hb. apply fmap_Some in Hb as ([id c] & Hlast & ->).
  apply last_Some_elem_of in Hlast. unfold sort_candidates in Hlast.
  rewrite elem_of_sort_by in Hlast. apply elem_of_apply_publication_policy in Hlast.
  apply elem_of_filter_bool in Hlast as [Hin Hreq]. unfold in_range_and_required in Hreq.
  apply andb_true_iff in Hreq as [Hreq Hrange]. exists id, c. split_and!; [done|by exists l|done|].
  intros i Hi. by rewrite Hi in Hreq.
Qed.

(** ** Choice *)

Lemma publication_rejection_some cutoff locked c r :
  publication_rejection cutoff locked c = Some r → rejected_identity r = candidate_identity c.
Proof.
  unfold publication_rejection. destruct (_ || _); [done|].
  destruct (release_publication _) as [p|]; [destruct (is_gt _); [|done]|]; by intros [= <-].
Qed.

Lemma elem_of_publication_rejections l locked cutoff r :
  publication_cutoff (provider_request self) = Some cutoff →
  r ∈ publication_rejections self l locked ↔
    ∃ p, p ∈ l ∧ publication_rejection (PublicationCutoff_date cutoff) locked p.2 = Some r.
Proof.
  intros Hc. unfold publication_rejections. rewrite Hc, elem_of_sort_by, list_elem_of_omap.
  setoid_rewrite list_elem_of_fmap. split.
  - intros (c & (p & -> & Hp) & Hr). by exists p.
  - intros (p & Hp & Hr). exists p.2. split; [by exists p|done].
Qed.

Lemma publication_accepts_proper subject c c' :
  same_facts c c' = true → publication_accepts subject c → publication_accepts subject c'.
Proof.
  intros (_ & Hi & _ & _ & Hp & _)%same_facts_iff Ha cutoff Hc. rewrite <-Hp.
  destruct (Ha cutoff Hc) as [Hb|[(i & Hl & Hci)|Hpub]]; [left|right; left|by right; right].
  - revert Hb. unfold PackageRelease_is_r_base_package. unfold candidate_identity in Hi.
    by rewrite Hi.
  - exists i. split; [done|]. by rewrite <-Hi.
Qed.

#[global] Instance publication_accepts_dec subject c : Decision (publication_accepts subject c).
Proof.
  unfold publication_accepts.
  destruct (publication_cutoff (provider_request self)) as [cutoff|] eqn:Hc;
    [|left; intros ? [=]].
  destruct (publication_rejection (PublicationCutoff_date cutoff)
    (decision_locked (lock_decision self subject)) c) eqn:E; [right|left].
  - intros Ha. specialize (Ha cutoff eq_refl). apply publication_rejection_none in Ha. congruence.
  - intros cutoff' [= <-]. by apply publication_rejection_none.
Defined.

(** A list in which identity determines facts. *)
Definition facts_consistent (l : list (CandidateId * PreparedCandidate)) : Prop :=
  ∀ p q, p ∈ l → q ∈ l → candidate_identity p.2 ≈ candidate_identity q.2 →
         same_facts p.2 q.2 = true.

Lemma retained_iff subject l cutoff p :
  publication_cutoff (provider_request self) = Some cutoff → facts_consistent l → p ∈ l →
  negb (existsb (λ r, candidate_identity p.2 =?= rejected_identity r)
          (publication_rejections self l (decision_locked (lock_decision self subject)))) = true ↔
    publication_accepts subject p.2.
Proof.
  intros Hc Hl Hp. rewrite negb_true_iff, existsb_false_Forall, Forall_forall.
  setoid_rewrite (elem_of_publication_rejections l _ cutoff _ Hc). split.
  - intros Hr cutoff' Hc'. rewrite Hc in Hc'. injection Hc' as <-.
    apply publication_rejection_none. destruct (publication_rejection _ _ p.2) as [r|] eqn:E; [|done].
    specialize (Hr r (ex_intro _ p (conj Hp E))). apply publication_rejection_some in E.
    by rewrite E, req_refl in Hr.
  - intros Ha r (q & Hq & Hr). apply req_false_iff. intros Hpq.
    pose proof (publication_rejection_some _ _ _ _ Hr) as Hri. rewrite Hri in Hpq.
    pose proof (publication_accepts_proper subject _ _ (Hl p q Hp Hq Hpq) Ha cutoff Hc) as Hq'.
    apply publication_rejection_none in Hq'. congruence.
Qed.

(** The policy keeps the accepted candidates when there are any. *)
Lemma apply_publication_policy_spec subject l :
  facts_consistent l →
  let k := apply_publication_policy self (decision_locked (lock_decision self subject)) l in
  (∀ p, p ∈ k → p ∈ l) ∧
  (∀ q, q ∈ l → publication_accepts subject q.2 → ∀ p, p ∈ k ↔ p ∈ l ∧ publication_accepts subject p.2) ∧
  ((∀ q, q ∈ l → ¬ publication_accepts subject q.2) → k = l).
Proof.
  intros Hl k. split; [by intros; eapply elem_of_apply_publication_policy|].
  unfold k, apply_publication_policy.
  destruct (publication_cutoff (provider_request self)) as [cutoff|] eqn:Hc.
  2: { split; [|done]. intros q _ _ p. split; [|tauto]. intros Hp. split; [done|].
       intros cutoff. by rewrite Hc. }
  set (rejections := publication_rejections _ _ _).
  case_bool_decide as Hlen; [apply length_zero_iff_nil in Hlen|]; split.
  - intros q Hq Ha p. split; [|tauto]. intros Hp. split; [done|].
    apply (retained_iff subject l cutoff); [done..|]. fold rejections. by rewrite Hlen.
  - done.
  - intros q Hq Ha p. destruct (List.filter _ l) as [|x m] eqn:E.
    + exfalso. eapply (retained_iff subject l cutoff q Hc Hl Hq) in Ha.
      assert (q ∈ []) as Hin by by rewrite <-E, elem_of_filter_bool. by apply elem_of_nil in Hin.
    + rewrite <-E, elem_of_filter_bool. split.
      * intros [Hp Hr]. split; [done|]. by apply (retained_iff subject l cutoff).
      * intros [Hp Hr]. split; [done|]. by apply (retained_iff subject l cutoff) in Hr.
  - intros Hn. destruct (List.filter _ l) as [|x m] eqn:E; [done|].
    assert (x ∈ List.filter (λ p, negb (existsb (λ r, candidate_identity p.2 =?= rejected_identity r)
      rejections)) l) as [Hx Hr]%elem_of_filter_bool by (rewrite E; left).
    by apply (retained_iff subject l cutoff) in Hr; [destruct (Hn x Hx)|..].
Qed.

(** In a settled state, a subject's candidates of one identity agree. *)
Lemma loaded_consistent t subject l :
  interner_wf t → loaded_ok t subject l → facts_consistent (loaded_candidates l).
Proof.
  intros Ht [Hi _] [i a] [j b] Ha Hb Hab. simpl in *. apply Hi in Ha, Hb.
  assert (i = j) as -> by by eapply interned_injective. by eapply interned_same_facts.
Qed.

Lemma sort_by_last {A} (c : A → A → comparison) `{!CmpOrder c} l x :
  last (sort_by c l) = Some x → x ∈ l ∧ ∀ y, y ∈ l → c y x ≠ Gt.
Proof.
  intros Hx. apply last_Some in Hx as [k Hk].
  assert (∀ y, y ∈ l ↔ y ∈ k ++ [x]) as Hin by (intros y; by rewrite <-Hk, elem_of_sort_by).
  split; [apply Hin, elem_of_app; right; left|]. intros y [Hy|Hy]%Hin%elem_of_app.
  - pose proof (sort_by_sorted c l) as Hs. rewrite Hk in Hs.
    by apply (StronglySorted_app_1_elem_of (cmp_le c) k [x]); [|done|left].
  - apply list_elem_of_singleton in Hy as ->. by rewrite (cmp_refl c).
Qed.

Definition preference_context (subject : SolverKey) : PreferenceContext :=
  mk_PreferenceContext (decision_locked (lock_decision self subject)).

(** [c] is at least as good as every admitted candidate. *)
Definition preferred_among (subject : SolverKey) (c : PreparedCandidate)
    (admitted : CandidateId * PreparedCandidate → Prop) : Prop :=
  ∀ q, admitted q → compare_prepared_candidates (provider_preference self) subject
                      (preference_context subject) q.2 c ≠ Gt.

(** The candidates of the loaded subject that range and lock admit. *)
Definition admissible (subject : SolverKey) (l : LoadedSubject) (range : Ranges)
    (q : CandidateId * PreparedCandidate) : Prop :=
  q ∈ loaded_candidates l ∧ Ranges_contains range (VersionCandidate q.1) = true ∧
  lock_accepts subject q.2.

Lemma in_range_and_required_iff subject range q :
  in_range_and_required (Some range) (decision_required (lock_decision self subject)) q = true ↔
    Ranges_contains range (VersionCandidate q.1) = true ∧ lock_accepts subject q.2.
Proof.
  unfold in_range_and_required, lock_accepts. rewrite andb_true_iff.
  destruct (decision_required _) as [i|]; rewrite ?req_true_iff; naive_solver.
Qed.

(** What sorting by preference and taking the last answers. *)
Lemma last_preferred subject (eligible : list (CandidateId * PreparedCandidate)) :
  preference_lawful (provider_preference self) → facts_consistent eligible →
  let locked := decision_locked (lock_decision self subject) in
  let preferred p (counts : CandidateId * PreparedCandidate → Prop) :=
    preferred_among subject p.2 (λ q, q ∈ eligible ∧ counts q) in
  match last (sort_candidates self subject (preference_context subject)
                (apply_publication_policy self locked eligible)) with
  | None => eligible = []
  | Some p => p ∈ eligible ∧
      ((publication_accepts subject p.2 ∧ preferred p (λ q, publication_accepts subject q.2)) ∨
       ((∀ q, q ∈ eligible → ¬ publication_accepts subject q.2) ∧ preferred p (λ _, True)))
  end.
Proof.
  intros Hpref Hcons locked preferred.
  destruct (apply_publication_policy_spec subject eligible Hcons) as (Hsub & Hacc & Hnone).
  fold locked in Hsub, Hacc, Hnone. set (k := apply_publication_policy _ _ eligible) in *.
  assert (CmpOrder (cmp_on (snd (A:=CandidateId)) (compare_prepared_candidates
    (provider_preference self) subject (preference_context subject)))) as Hord.
  { pose proof (compare_prepared_candidates_order _ subject (preference_context subject) Hpref).
    apply _. }
  unfold sort_candidates.
  destruct (decide (Exists (λ q, publication_accepts subject q.2) eligible)) as [Hex|Hn].
  - apply Exists_exists in Hex as (q0 & Hq0 & Ha0).
    destruct (last _) as [p|] eqn:Hlast.
    + apply (sort_by_last _ (CmpOrder0 := Hord)) in Hlast as [Hp Hbest].
      split; [by apply Hsub|]. left. specialize (Hacc q0 Hq0 Ha0).
      split; [by apply Hacc|]. intros q [Hq Ha]. by apply Hbest, Hacc.
    + apply last_None in Hlast. assert (q0 ∈ k) as Hk by by apply (Hacc q0 Hq0 Ha0).
      rewrite <-(sort_by_Permutation (cmp_on snd (compare_prepared_candidates
        (provider_preference self) subject (preference_context subject)))), Hlast in Hk.
      by apply elem_of_nil in Hk.
  - assert (∀ q, q ∈ eligible → ¬ publication_accepts subject q.2) as Hn'.
    { intros q Hq Ha. apply Hn, Exists_exists. eauto. }
    assert (k = eligible) as -> by by apply Hnone.
    destruct (last _) as [p|] eqn:Hlast.
    + apply (sort_by_last _ (CmpOrder0 := Hord)) in Hlast as [Hp Hbest].
      split; [done|]. right. split; [done|]. intros q [Hq _]. by apply Hbest.
    + apply last_None in Hlast. apply Permutation_nil. rewrite <-Hlast. apply sort_by_Permutation.
Qed.

(** C4: in a reachable state, choosing a version for a subject loads it and
    answers with a candidate the range and the lock admit, or with none when
    there is no such candidate; a candidate the publication policy accepts is
    chosen when there is one, and the choice is the preferred one among those
    that count. *)
Theorem choose_version_spec subject range s r s' :
  state_wf s → subject ≉ KeyR → preference_lawful (provider_preference self) →
  choose_version self (PackageSubject subject) range s = (Ok r, s') →
  ∃ l, loaded self subject s = (Ok l, s') ∧ loaded_ok (interner s') subject l ∧
  match r with
  | None => ∀ q, ¬ admissible subject l range q
  | Some w => ∃ p, w = VersionCandidate p.1 ∧ admissible subject l range p ∧
      ((publication_accepts subject p.2 ∧
        preferred_among subject p.2
          (λ q, admissible subject l range q ∧ publication_accepts subject q.2)) ∨
       ((∀ q, admissible subject l range q → ¬ publication_accepts subject q.2) ∧
        preferred_among subject p.2 (admissible subject l range)))
  end.
Proof.
  intros Hs HR Hpref E.
  assert (with_eligible_candidates self subject (Some range) (λ eligible context,
    (λ p, VersionCandidate p.1) <$> last (sort_candidates self subject context eligible)) s
    = (Ok r, s')) as E' by by destruct subject.
  clear E. unfold with_eligible_candidates, candidates, st_bind in E'.
  destruct (loaded self subject s) as [[l|e] s1] eqn:El; [|done]. simpl in E'.
  injection E' as Er ->. exists l. split; [done|].
  pose proof (settles_loaded subject s Hs) as Hst. rewrite El in Hst.
  destruct Hst as (Hs' & _ & Hst).
  pose proof (answers_loaded subject l s' Hs' Hst) as Hok. split; [done|].
  set (eligible := List.filter _ _) in Er.
  assert (∀ q, q ∈ eligible ↔ admissible subject l range q) as Hel.
  { intros q. unfold eligible, admissible. by rewrite elem_of_filter_bool, in_range_and_required_iff. }
  assert (facts_consistent eligible) as Hcons.
  { intros p q [Hp _]%Hel [Hq _]%Hel.
    by apply (loaded_consistent (interner s') subject l); [apply Hs'|..]. }
  pose proof (last_preferred subject eligible Hpref Hcons) as Hlast. simpl in Hlast.
  unfold preferred_among in *. fold (preference_context subject) in Er.
  destruct (last _) as [p|]; simpl in Er; subst r.
  - destruct Hlast as [Hp Hbest]. exists p. split; [done|]. split; [by apply Hel|].
    destruct Hbest as [[Ha Hb]|[Hn Hb]]; [left|right]; (split; [|intros q Hq; apply Hb]);
      [done|by rewrite Hel|intros q Hq; by apply Hn, Hel|by rewrite Hel].
  - intros q Hq%Hel. rewrite Hlast in Hq. by apply elem_of_nil in Hq.
Qed.
End provider_laws.
