(* ===== verification/Solve.v ===== *)
(** * Solving ([rsolve-resolver/src/adapter.rs], [solve] and its errors)

    The call to PubGrub, the projection of its answer into a [Resolution], and
    the diagnostics of a failure.  [solve_spec] is the correctness of the
    resolver relative to the documented contract of [pubgrub::resolve]. *)

From S2P Require Import Prelude Effects RustStd Collections Externals Format Versions Names Publication.
From S2P Require Import Identity Constraints Digest Metadata Request Candidates Resolution.
From S2P Require Import Policy Adapter AdapterLaws.

Section solve.
Context `{CivilDate, Sha2, UnicodeTables}.
Context `{!VersionRanges SolverVersion, !DependencyConstraints PackageId Ranges}.
Context `{!PubGrub PackageId SolverVersion Ranges Constraints ProviderMessage AdapterError
            Priority ProviderState}.

(** ** Failures *)

Record PublicationPolicyDiagnostic := mk_PublicationPolicyDiagnostic {
  policy_cutoff : PublicationCutoff;
  policy_rejections : list PublicationRejection;
}.

Record ResolutionDiagnostic := mk_ResolutionDiagnostic {
  summary : string;
  publication_policy : option PublicationPolicyDiagnostic;
}.

Definition ResolutionDiagnostic_new (summary : string) : ResolutionDiagnostic :=
  mk_ResolutionDiagnostic summary None.
Definition with_publication_policy (self : ResolutionDiagnostic)
    (policy : option PublicationPolicyDiagnostic) : ResolutionDiagnostic :=
  mk_ResolutionDiagnostic (summary self) policy.

Inductive ResolutionFailure :=
| FailureCandidateLoad (package : SolverKey) (source : CandidateLoadError)
| NoSolution (diagnostic : ResolutionDiagnostic)
| InstalledNameConflict (name : PackageName) (first_identity second_identity : ReleaseIdentity)
| FailureSolver (diagnostic : ResolutionDiagnostic).

Definition ResolutionFailure_fmt (e : ResolutionFailure) : string :=
  match e with
  | FailureCandidateLoad package source =>
    "candidate load for " +:+ SolverKey_debug package +:+ " failed: "
      +:+ CandidateLoadError_fmt source
  | NoSolution diagnostic =>
    "no resolution" +:+
    match publication_policy diagnostic with
    | Some policy =>
      " (publication policy evidence in proof: cutoff "
        +:+ PublicationDate_as_str (PublicationCutoff_date (policy_cutoff policy)) +:+ ", "
        +:+ nat_to_string (length (policy_rejections policy)) +:+ " rejection(s))"
    | None => ""
    end +:+ ": " +:+ summary diagnostic
  | InstalledNameConflict name first_identity second_identity =>
    "installed package name " +:+ PackageName_as_str name +:+ " maps to distinct identities "
      +:+ identity_sort_key first_identity +:+ " and " +:+ identity_sort_key second_identity
  | FailureSolver diagnostic => "resolver failure: " +:+ summary diagnostic
  end.

(** ** Publication evidence *)

Definition PublicationRejection_eq (a b : PublicationRejection) : bool :=
  match a, b with
  | PublicationCooldown i p, PublicationCooldown j q => (i =?= j) && (p =?= q)
  | PublicationUnknown i, PublicationUnknown j => i =?= j
  | _, _ => false
  end.
#[global] Instance req_PublicationRejection : PartialEq PublicationRejection :=
  PublicationRejection_eq.
#[global] Instance req_PublicationRejection_equivalence : RustEq PublicationRejection.
Proof. solve_rust_eq PublicationRejection_eq. Qed.

(** The second key: cooldowns by date before unknowns. *)
Definition rejection_kind_cmp (left right : PublicationRejection) : comparison :=
  match left, right with
  | PublicationCooldown _ date, PublicationCooldown _ date' => PublicationDate_cmp date date'
  | PublicationCooldown _ _, PublicationUnknown _ => Lt
  | PublicationUnknown _, PublicationCooldown _ _ => Gt
  | PublicationUnknown _, PublicationUnknown _ => Eq
  end.
Definition publication_rejection_cmp : PublicationRejection → PublicationRejection → comparison :=
  cmp_then (cmp_on publication_rejection_sort_key str_cmp) rejection_kind_cmp.

Fixpoint collect_publication_leaves (tree : DerivationTree ProviderMessage)
    (rejections : list PublicationRejection) : list PublicationRejection :=
  match tree with
  | ExternalCustom (MessagePublication leaf) => rejections ++ leaf
  | ExternalCustom (MessageText _) | ExternalOther => rejections
  | Derived cause1 cause2 =>
    collect_publication_leaves cause2 (collect_publication_leaves cause1 rejections)
  end.

Definition publication_policy_diagnostic (tree : DerivationTree ProviderMessage)
    (cutoff : option PublicationCutoff) : option PublicationPolicyDiagnostic :=
  match cutoff with
  | None => None
  | Some cutoff =>
    match collect_publication_leaves tree [] with
    | [] => None
    | rejections =>
      Some (mk_PublicationPolicyDiagnostic cutoff
              (dedup_by req (sort_by publication_rejection_cmp rejections)))
    end
  end.

Definition map_adapter_error (error : AdapterError) : ResolutionFailure :=
  FailureCandidateLoad (adapter_package error) (adapter_source error).

Definition map_error (error : PubGrubError ProviderMessage AdapterError)
    (cutoff : option PublicationCutoff) : ResolutionFailure :=
  match error with
  | ErrorRetrievingDependencies source | ErrorChoosingVersion source
  | ErrorInShouldCancel source => map_adapter_error source
  | NoSolutionTree tree =>
    NoSolution (with_publication_policy (ResolutionDiagnostic_new (DerivationTree_debug tree))
                  (publication_policy_diagnostic tree cutoff))
  end.

(** ** Projection of a solution *)

Definition subject_rank (subject : SolverKey) : nat :=
  match subject with
  | KeyInstalledName _ => 0
  | KeyRegistry _ _ => 1
  | KeyBioconductor _ _ _ => 2
  | KeyRepository _ _ => 3
  | KeyExact _ => 4
  | KeyR => 5
  end.
Definition canonical_subject_cmp : SolverKey → SolverKey → comparison :=
  cmp_then (cmp_on subject_rank Nat.compare) (cmp_on SolverKey_debug str_cmp).

Record SelectedPackage := mk_SelectedPackage {
  selected_subject : SolverKey;
  selected_candidate : PreparedCandidate;
  selected_subjects : list SolverKey;
}.

Definition name_conflict (name : PackageName) (existing incoming : ReleaseIdentity) :
    ResolutionFailure :=
  if is_gt (str_cmp (identity_sort_key existing) (identity_sort_key incoming))
  then InstalledNameConflict name incoming existing
  else InstalledNameConflict name existing incoming.

(** A candidate joins the package its name already has. *)
Definition merge_selected (name : PackageName) (existing : SelectedPackage) (subject : SolverKey)
    (candidate : PreparedCandidate) : result SelectedPackage ResolutionFailure :=
  if negb (candidate_identity (selected_candidate existing) =?= candidate_identity candidate)
  then Err (name_conflict name (candidate_identity (selected_candidate existing))
              (candidate_identity candidate))
  else
    let? merged := map_err
      (λ e, FailureCandidateLoad subject
              (metadata_invalid ("inconsistent prepared candidate: "
                                   +:+ PreparedCandidateError_fmt e)))
      (PreparedCandidate_merge (selected_candidate existing) candidate) in
    Ok (mk_SelectedPackage
          (if is_lt (canonical_subject_cmp subject (selected_subject existing)) then subject
           else selected_subject existing)
          merged (selected_subjects existing ++ [subject])).

Definition select_package (self : Provider) (packages : list (PackageName * SelectedPackage))
    (assignment : PackageId * SolverVersion) :
    stateful ProviderState (list (PackageName * SelectedPackage)) ResolutionFailure :=
  match assignment with
  | (PackageSubject subject, version) =>
    if subject =?= KeyR then st_ret packages
    else match version with
    | VersionCandidate id =>
      let! candidate := st_map_err map_adapter_error (candidate_for_id self subject id) in
      if PackageRelease_is_r_base_package (candidate_release candidate) then st_ret packages
      else
        let name := ReleaseIdentity_name (candidate_identity candidate) in
        match bt_get PackageName_cmp name packages with
        | None =>
          st_ret (bt_insert PackageName_cmp name
                    (mk_SelectedPackage subject candidate [subject]) packages)
        | Some existing =>
          let! merged := st_lift (merge_selected name existing subject candidate) in
          st_ret (bt_insert PackageName_cmp name merged packages)
        end
    | _ => st_ret packages
    end
  | _ => st_ret packages
  end.

(** [sort] and [dedup_by] of [(rank, repository)] pairs. *)
Definition visible_repositories (candidate : PreparedCandidate) (subjects : list SolverKey) :
    list RepositoryId :=
  let visible := (λ o, (occurrence_rank o, occurrence_repository o)) <$>
                   (subjects ≫= applicable_occurrences candidate) in
  (dedup_by (λ left right, left.2 =?= right.2)
     (sort_by (cmp_then (cmp_on fst RepositoryRank_cmp) (cmp_on snd Identifier_cmp)) visible)).*2.

Definition project_package (self : Provider) (package : SelectedPackage) :
    result ResolvedPackage ResolutionFailure :=
  let? expansion := map_err map_adapter_error
    (expansion_for_subjects self (selected_subjects package)) in
  let release := candidate_release (selected_candidate package) in
  Ok (ResolvedPackage_new (selected_subject package) release
        (project_dependency_edges release expansion)
        (visible_repositories (selected_candidate package) (selected_subjects package))).

Definition solve (loader : CandidateLoader) (preference : CandidatePreference)
    (lock_policy : LockUpdatePolicy) (request : ResolutionRequest) :
    result Resolution ResolutionFailure :=
  let self := mk_Provider loader preference lock_policy request in
  match pubgrub_resolve (dependency_provider self) PackageRoot VersionRoot ProviderState_new with
  | (Err error, _) => Err (map_error error (publication_cutoff request))
  | (Ok selected, s) =>
    let? packages := (st_try_fold (select_package self) [] selected s).1 in
    let? projected := try_map (project_package self) (bt_values packages) in
    Ok (Resolution_new (target request) (sort_by resolved_name_cmp projected))
  end.
End solve.
