(* ===== verification/SolveLaws.v ===== *)
(** * Correctness of [solve]

    From the contract of [pubgrub::resolve] to the properties of the returned
    [Resolution], and the totality of the projection: the failures that [solve]
    itself can construct after a successful run never occur. *)

From S2P Require Import Prelude Effects RustStd Collections Externals Format Versions Names Publication.
From S2P Require Import Identity Constraints Digest Metadata Request Candidates Resolution.
From S2P Require Import Policy Adapter AdapterLaws Solve.

(** ** Equal requirements *)

Lemma KeyR_req_iff t : t ≈ KeyR ↔ t = KeyR.
Proof. split; [|by intros ->]. by destruct t. Qed.

Lemma PackageOccupancy_req q n : q ≈ PackageOccupancy n → q = PackageOccupancy n.
Proof. destruct q as [| |m]; try done. intros Hq. f_equal. by apply (req_leibniz m n). Qed.

Lemma VersionCandidate_req id x : VersionCandidate id =?= x = true → VersionCandidate id = x.
Proof. destruct x as [| |j]; try done. intros Hx. f_equal. by apply (req_leibniz id j). Qed.

Lemma PackageRequirement_req_iff a b :
  a ≈ b ↔ requirement_name a = requirement_name b ∧ requirement_source a ≈ requirement_source b ∧
          requirement_constraint a ≈ requirement_constraint b.
Proof.
  unfold req_rel at 1, req at 1, req_PackageRequirement, PackageRequirement_eq.
  rewrite !andb_true_iff, req_leibniz. unfold req_rel. tauto.
Qed.

(** ** Publication evidence *)

Section evidence.
Context `{CivilDate, Sha2, UnicodeTables}.

(** A publication rejection in a leaf of the proof. *)
Inductive in_proof (r : PublicationRejection) : DerivationTree ProviderMessage → Prop :=
| in_leaf leaf : r ∈ leaf → in_proof r (ExternalCustom (MessagePublication leaf))
| in_cause1 cause1 cause2 : in_proof r cause1 → in_proof r (Derived cause1 cause2)
| in_cause2 cause1 cause2 : in_proof r cause2 → in_proof r (Derived cause1 cause2).

Lemma elem_of_collect tree l r :
  r ∈ collect_publication_leaves tree l ↔ r ∈ l ∨ in_proof r tree.
Proof.
  revert l. induction tree as [[text|leaf]| |t1 IH1 t2 IH2]; intros l; simpl.
  - split; [auto|]. by intros [?|Hin]; [|inversion Hin].
  - rewrite elem_of_app. split; [intros [?|?]; auto using in_proof|].
    intros [?|Hin]; [auto|inversion Hin; auto].
  - split; [auto|]. by intros [?|Hin]; [|inversion Hin].
  - rewrite IH2, IH1. split; [intros [[?|?]|?]; auto using in_proof|].
    intros [?|Hin]; [auto|inversion Hin; auto].
Qed.

#[global] Instance rejection_kind_cmp_order `{!CivilDateLaws} : CmpOrder rejection_kind_cmp.
Proof.
  split.
  - intros [i p|i] [j q|j]; simpl; try done. apply (cmp_sym PublicationDate_cmp).
  - intros [i p|i] [j q|j] [k r|k] o; simpl; try congruence.
    apply (cmp_trans PublicationDate_cmp).
  - intros [i p|i] [j q|j] [k r|k]; simpl; try done. apply (cmp_eq_l PublicationDate_cmp).
Qed.

#[global] Instance publication_rejection_cmp_order `{!CivilDateLaws} :
  CmpOrder publication_rejection_cmp.
Proof. unfold publication_rejection_cmp. apply _. Qed.

(** The evidence attached to a failed resolution is the sorted list of the
    publication rejections in the solver's proof, every one represented and
    none invented; there is none without a cutoff or without such a leaf. *)
Theorem publication_policy_diagnostic_spec `{!CivilDateLaws} tree cutoff :
  match publication_policy_diagnostic tree cutoff with
  | None => cutoff = None ∨ ∀ r, ¬ in_proof r tree
  | Some d => cutoff = Some (policy_cutoff d) ∧
      StronglySorted (cmp_le publication_rejection_cmp) (policy_rejections d) ∧
      (∀ r, r ∈ policy_rejections d → in_proof r tree) ∧
      (∀ r, in_proof r tree → ∃ r', r' ∈ policy_rejections d ∧ r' ≈ r)
  end.
Proof.
  unfold publication_policy_diagnostic. destruct cutoff as [cutoff|]; [|by left].
  assert (∀ r, r ∈ collect_publication_leaves tree [] ↔ in_proof r tree) as Hc.
  { intros r. rewrite elem_of_collect, elem_of_nil. tauto. }
  destruct (collect_publication_leaves tree []) as [|r0 l] eqn:E.
  { right. intros r Hr%Hc. by apply elem_of_nil in Hr. }
  rewrite <-E in *. set (leaves := collect_publication_leaves tree []) in *. simpl. split_and!.
  - done.
  - apply dedup_by_sorted, sort_by_sorted, _.
  - intros r Hr%elem_of_dedup_by. rewrite elem_of_sort_by in Hr. by apply Hc.
  - intros r Hr%Hc.
    assert (Exists (λ x, x ≈ r) (dedup_by req (sort_by publication_rejection_cmp leaves))) as Hex.
    { apply (dedup_by_complete _ (λ x, x ≈ r) _ r); [|by rewrite elem_of_sort_by|done].
      intros x y Hxy Hx. change (x ≈ y) in Hxy. by rewrite <-Hxy || rewrite Hxy. }
    by apply Exists_exists in Hex.
Qed.
End evidence.

Section solve_laws.
Context `{CivilDate, Sha2, UnicodeTables}.
Context `{!VersionRanges SolverVersion, !DependencyConstraints PackageId Ranges}.
Context `{!VersionRangesLaws SolverVersion, !DependencyConstraintsLaws PackageId Ranges Ranges_contains}.
Context `{!PubGrub PackageId SolverVersion Ranges Constraints ProviderMessage AdapterError
            Priority ProviderState}.
Context `{!PubGrubLaws (P:=PackageId) (V:=SolverVersion) (VS:=Ranges) (DC:=Constraints)
            (M:=ProviderMessage) (E:=AdapterError) (Priority:=Priority) (S:=ProviderState)
            Ranges_contains Constraints_pairs}.
Context (self : Provider) (Hloader : loader_wf (provider_loader self)).

(** ** What a resolution promises *)

(** The candidate is one the loader offers for the subject. *)
Definition offered (subject : SolverKey) (c : PreparedCandidate) : Prop :=
  ∃ key r out, key ≈ subject ∧ loader_load (provider_loader self) key = Ok r ∧
    eligible_unique key (load_candidates_of r) = Ok out ∧ c ∈ out.

(** The packages (with R and its base packages) meet the subject's constraint. *)
Definition provides (packages : list ResolvedPackage) (subject : SolverKey)
    (con : VersionConstraint) : Prop :=
  (subject = KeyR ∧ VersionConstraint_satisfies con (provider_r_version self) = true) ∨
  ∃ c, offered subject c ∧ VersionConstraint_satisfies con (candidate_version c) = true ∧
    (PackageRelease_is_r_base_package (candidate_release c) = true ∨
     ∃ p, p ∈ packages ∧ resolved_identity p ≈ candidate_identity c ∧
          resolved_version p ≈ candidate_version c).

(** Every requirement is met: several on one subject are all met. *)
Definition requirements_provided (packages : list ResolvedPackage) (l : list PackageRequirement) :
    Prop :=
  ∀ r, r ∈ l → ∃ subject, subject_for_package self r = Ok subject ∧
    provides packages subject (requirement_constraint r).

#[global] Instance offered_proper : Proper ((≈) ==> (=) ==> iff) offered.
Proof.
  intros s t Hst c ? <-. unfold offered. split; intros (k & r & out & Hk & ?);
    exists k, r, out; [rewrite <-Hst|rewrite Hst]; done.
Qed.

#[global] Instance provides_proper packages :
  Proper ((≈) ==> (≈) ==> iff) (provides packages).
Proof.
  intros s t Hst con con' Hcon. unfold provides.
  assert (s = KeyR ↔ t = KeyR) as -> by (rewrite <-!KeyR_req_iff; by rewrite Hst).
  rewrite (satisfies_proper _ _ Hcon _ _ (reflexivity _)). setoid_rewrite Hst.
  assert (∀ c, VersionConstraint_satisfies con (candidate_version c) =
               VersionConstraint_satisfies con' (candidate_version c)) as Hc.
  { intros c. by apply satisfies_proper. }
  by setoid_rewrite Hc.
Qed.

Lemma subject_for_package_proper a b :
  a ≈ b → match subject_for_package self a, subject_for_package self b with
          | Ok s, Ok t => s ≈ t
          | Err _, Err _ => True
          | _, _ => False
          end.
Proof.
  intros (Hn & Hs & _)%PackageRequirement_req_iff. unfold subject_for_package. rewrite Hn.
  unfold req_rel, req, req_DependencySourceConstraint, DependencySourceConstraint_eq in Hs.
  destruct (requirement_source a), (requirement_source b); try done;
    rewrite ?andb_true_iff, ?req_leibniz in Hs; destruct_and?; subst; try done;
    destruct (PackageName_is "R" _); try done.
  - destruct (exact_root_identity _ _); done.
Qed.

(** ** The solver's answer *)

Record solution (sel : list (PackageId * SolverVersion)) (s : ProviderState) : Prop := {
  solution_state : state_wf self s;
  solution_map : hm_wf sel;
  solution_root : (PackageRoot, VersionRoot) ∈ sel;
  solution_chosen subject w : (PackageSubject subject, w) ∈ sel →
    ∃ range, answers (choose_version self (PackageSubject subject) range) (Ok (Some w)) s;
  solution_dependencies p w : (p, w) ∈ sel →
    ∃ dc, answers (get_dependencies self p w) (Ok (AvailableDependencies dc)) s ∧
      ∀ q range, (q, range) ∈ Constraints_pairs dc →
        ∃ q' x, q' ≈ q ∧ (q', x) ∈ sel ∧ Ranges_contains range x = true;
}.

Lemma resolve_solution_facts sel s :
  pubgrub_resolve (dependency_provider self) PackageRoot VersionRoot ProviderState_new = (Ok sel, s) →
  solution sel s.
Proof using All.
  intros E. apply (resolve_solution (contains := Ranges_contains) (pairs := Constraints_pairs)) in E
    as (calls & Hrun & Hwf & Hroot & Hsel).
  destruct (provider_run_answers self calls _ s (state_wf_new self) Hrun)
    as (Hs & _ & Hdeps & Hchoose). constructor; try done.
  - intros subject w Hin. destruct (Hsel _ _ Hin) as [[[=]|(range & _ & Hc)] _].
    exists range. by apply Hchoose.
  - intros p w Hin. destruct (Hsel _ _ Hin) as [_ (dc & Hc & Hq)].
    exists dc. split; [by apply Hdeps|done].
Qed.

Section with_solution.
Context (sel : list (PackageId * SolverVersion)) (s : ProviderState) (Hsol : solution sel s).

Lemma solution_functional p q w x : (p, w) ∈ sel → (q, x) ∈ sel → p ≈ q → w = x.
Proof using Hsol.
  intros Hp Hq Hpq. apply (hm_in_get _ _ _ (solution_map _ _ Hsol)) in Hp, Hq.
  rewrite Hpq, Hq in Hp. congruence.
Qed.

(** A pair given to the solver is met, perhaps under an equal package. *)
Lemma solution_pair dc l p range :
  dc = Constraints_from_iter l →
  (∀ q range, (q, range) ∈ Constraints_pairs dc →
    ∃ q' x, q' ≈ q ∧ (q', x) ∈ sel ∧ Ranges_contains range x = true) →
  (p, range) ∈ l →
  ∃ q x, q ≈ p ∧ (q, x) ∈ sel ∧ Ranges_contains range x = true.
Proof using Type*.
  intros -> Hpairs Hin.
  destruct (Constraints_pairs_asked (contains := Ranges_contains) l p range Hin)
    as (p1 & r1 & Hp1 & Hin1 & Hr1).
  destruct (Hpairs _ _ Hin1) as (q & x & Hq & Hqx & Hx).
  exists q, x. split_and!; [by rewrite Hq|done|by apply Hr1].
Qed.

Lemma visible_same_id t t' id c c' :
  visible self s t id c → visible self s t' id c' → same_facts c c' = true.
Proof using Hsol.
  intros Hc Hc'. eapply interned_same_facts; eapply visible_interned; try done; apply Hsol.
Qed.

(** The requirements of one owner, as the solver meets them. *)
Definition requirements_met (l : list PackageRequirement) : Prop :=
  ∀ r, r ∈ l → ∃ subject q x, subject_for_package self r = Ok subject ∧
    q ≈ PackageSubject subject ∧ (q, x) ∈ sel ∧
    meets self s subject (requirement_constraint r) x.

Lemma requirements_met_intro dc extras (l : list PackageRequirement) deps :
  dc = Constraints_from_iter (extras ++ deps) →
  (∀ q range, (q, range) ∈ Constraints_pairs dc →
    ∃ q' x, q' ≈ q ∧ (q', x) ∈ sel ∧ Ranges_contains range x = true) →
  Forall2 (requirement_pair self s) l deps → requirements_met l.
Proof using All.
  intros Hdc Hpairs Hl r [i Hi]%list_elem_of_lookup.
  destruct (Forall2_lookup_l _ _ _ _ _ Hl Hi) as (d & Hd & subject & range & -> & Hs & Ha).
  destruct (solution_pair dc _ (PackageSubject subject) range Hdc Hpairs) as (q & x & Hq & Hqx & Hx).
  { apply elem_of_app. right. by apply list_elem_of_lookup_2 with i. }
  exists subject, q, x. split_and!; try done.
  by eapply answers_ranges; [apply _|apply Hsol|..].
Qed.

(** The root's requirement on R, as a package requirement. *)
Definition r_root : PackageRequirement :=
  mk_PackageRequirement (mk_PackageName "R") SourceAny (r_requirement (provider_request self)).

Lemma roots_met :
  requirements_met (r_root :: (root_package <$> roots (provider_request self))).
Proof using All.
  destruct (solution_dependencies _ _ Hsol _ _ (solution_root _ _ Hsol)) as (dc & Ha & Hpairs).
  apply answers_root_dependencies in Ha as (deps & Hdc & Hdeps); [|apply Hsol].
  eapply (requirements_met_intro dc []); [exact Hdc|done|].
  constructor; [|by apply Forall2_fmap_l]. exists KeyR. eexists. split_and!; [done..|].
  by intros s' _.
Qed.

(** What a selected subject's candidate is. *)
Record subject_selected (t : SolverKey) (id : CandidateId) (c : PreparedCandidate)
    (e : RootExpansionPolicy) : Prop := {
  subject_in : (PackageSubject t, VersionCandidate id) ∈ sel;
  subject_candidate : answers (candidate_for_id self t id) (Ok c) s;
  subject_expansion : expansion_for_subject self t = Ok e;
  subject_lock : lock_accepts self t c;
  subject_publication : publication_accepts self t c;
  subject_occupancy : (PackageOccupancy (ReleaseIdentity_name (candidate_identity c)),
                       VersionCandidate id) ∈ sel;
  subject_edges : requirements_met
    (edge_package <$> project_dependency_edges (candidate_release c) e);
}.

Lemma lock_accepts_proper t c c' :
  candidate_identity c ≈ candidate_identity c' → lock_accepts self t c → lock_accepts self t c'.
Proof. intros Hc Hl i Hi. rewrite <-Hc. by apply Hl. Qed.

Lemma solution_subject t w :
  (PackageSubject t, w) ∈ sel → t ≉ KeyR →
  ∃ id c e, w = VersionCandidate id ∧ subject_selected t id c e.
Proof using All.
  intros Hin HR. pose proof (solution_state _ _ Hsol) as Hs.
  destruct (solution_dependencies _ _ Hsol _ _ Hin) as (dc & Ha & Hpairs).
  destruct (answers_subject_dependencies self t w dc s Hs HR Ha)
    as (id & c & e & deps & -> & Hc & Hrej & He & Hdc & Hdeps).
  destruct (solution_chosen _ _ Hsol _ _ Hin) as (range & Hch).
  destruct (answers_choose_version self t range _ s Hs HR Hch)
    as (id' & c' & [= <-] & Hc' & _ & Hlock).
  pose proof (answers_candidate_for_id self t id c s Hs Hc) as Hvis.
  assert (lock_accepts self t c) as Hlock'.
  { eapply lock_accepts_proper; [|exact Hlock].
    eapply same_facts_identity, visible_same_id; done. }
  exists id, c, e. split; [done|]. constructor; try done.
  - by eapply answers_no_rejections.
  - destruct (solution_pair dc _ (PackageOccupancy (ReleaseIdentity_name (candidate_identity c)))
      (Ranges_singleton (VersionCandidate id)) Hdc Hpairs)
      as (q & x & Hq & Hqx & Hx); [by left|].
    apply PackageOccupancy_req in Hq as ->.
    rewrite contains_singleton in Hx. apply VersionCandidate_req in Hx as ->. done.
  - eapply (requirements_met_intro dc [_]); [exact Hdc|done|by apply Forall2_fmap_l].
Qed.

(** ** The selection loop *)

Abbreviation name_of c := (ReleaseIdentity_name (candidate_identity c)).
Abbreviation is_base c := (PackageRelease_is_r_base_package (candidate_release c)).

Lemma is_base_proper c c' : candidate_identity c ≈ candidate_identity c' → is_base c = is_base c'.
Proof. intros Hc. unfold PackageRelease_is_r_base_package. by rewrite Hc. Qed.

Lemma selected_visible t id c e :
  subject_selected t id c e →
  visible self s t id c ∧ candidate_wf c ∧ is_eligible_for c t = true.
Proof using Hloader Hsol.
  intros Ht. assert (visible self s t id c) as Hv.
  { eapply answers_candidate_for_id; [apply Hsol|apply Ht]. }
  split; [done|]. by eapply visible_candidate; [|apply Hsol|].
Qed.

(** One installed name has one candidate. *)
Lemma same_name_same_facts t t' id id' c c' e e' :
  subject_selected t id c e → subject_selected t' id' c' e' → name_of c = name_of c' →
  same_facts c c' = true.
Proof using Hloader Hsol.
  intros Ht Ht' Hn. pose proof (subject_occupancy _ _ _ _ Ht) as Ho.
  pose proof (subject_occupancy _ _ _ _ Ht') as Ho'. rewrite <-Hn in Ho'.
  assert (VersionCandidate id = VersionCandidate id') as [= ->]
    by (eapply solution_functional; [exact Ho|exact Ho'|done]).
  eapply visible_same_id; by eapply selected_visible.
Qed.

Record entry_ok (n : PackageName) (x : SelectedPackage) : Prop := {
  entry_wf : candidate_wf (selected_candidate x);
  entry_name : name_of (selected_candidate x) = n;
  entry_base : is_base (selected_candidate x) = false;
  entry_subject : selected_subject x ∈ selected_subjects x;
  entry_subjects t : t ∈ selected_subjects x →
    ∃ id c e, subject_selected t id c e ∧ same_facts c (selected_candidate x) = true;
}.

(** The packages cover the assignments seen so far. *)
Record selection_inv (pre : list (PackageId * SolverVersion))
    (m : list (PackageName * SelectedPackage)) : Prop := {
  selection_sorted : bt_sorted PackageName_cmp m;
  selection_entries n x : bt_get PackageName_cmp n m = Some x → entry_ok n x;
  selection_covers t id c e :
    (PackageSubject t, VersionCandidate id) ∈ pre → subject_selected t id c e →
    is_base c = false →
    ∃ x, bt_get PackageName_cmp (name_of c) m = Some x ∧ t ∈ selected_subjects x;
}.

Lemma subject_selected_functional t id c c' e e' :
  subject_selected t id c e → subject_selected t id c' e' → c = c'.
Proof.
  intros Ht Ht'.
  pose proof (answers_functional _ _ _ _ (subject_candidate _ _ _ _ Ht)
    (subject_candidate _ _ _ _ Ht')). congruence.
Qed.

(** Adding an entry that extends what the name had. *)
Lemma selection_inv_insert pre m t id c e x :
  selection_inv pre m → subject_selected t id c e → entry_ok (name_of c) x →
  t ∈ selected_subjects x →
  (∀ y, bt_get PackageName_cmp (name_of c) m = Some y →
        ∀ u, u ∈ selected_subjects y → u ∈ selected_subjects x) →
  selection_inv (pre ++ [(PackageSubject t, VersionCandidate id)])
    (bt_insert PackageName_cmp (name_of c) x m).
Proof using Hloader Hsol.
  intros [Hs He Hc] Ht Hx Htx Hmono. constructor.
  - by apply bt_insert_sorted; [apply _|].
  - intros n y Hg. destruct (decide (n = name_of c)) as [->|Hn].
    + rewrite (bt_get_insert_eq PackageName_cmp) in Hg by apply (cmp_refl PackageName_cmp).
      by injection Hg as <-.
    + rewrite (bt_get_insert_ne PackageName_cmp) in Hg by by apply PackageName_cmp_ne.
      by apply He.
  - intros u id' c' e' [Hin|Hin]%elem_of_app Hu Hb.
    + destruct (Hc u id' c' e' Hin Hu Hb) as (y & Hy & Huy).
      destruct (decide (name_of c' = name_of c)) as [Hn|Hn].
      * rewrite Hn in Hy |- *. exists x.
        rewrite (bt_get_insert_eq PackageName_cmp) by apply (cmp_refl PackageName_cmp).
        split; [done|]. by eapply Hmono.
      * exists y. by rewrite (bt_get_insert_ne PackageName_cmp) by by apply PackageName_cmp_ne.
    + apply list_elem_of_singleton in Hin as [= -> ->].
      assert (c' = c) as -> by by eapply subject_selected_functional. exists x.
      by rewrite (bt_get_insert_eq PackageName_cmp) by apply (cmp_refl PackageName_cmp).
Qed.

(** An assignment that is no package leaves the packages as they are. *)
Lemma selection_inv_skip pre m p w :
  selection_inv pre m →
  (∀ t id c e, p = PackageSubject t → w = VersionCandidate id → subject_selected t id c e →
               is_base c = true) →
  selection_inv (pre ++ [(p, w)]) m.
Proof.
  intros [Hs He Hc] Hskip. constructor; [done..|].
  intros t id c e [Hin|[= <- <-]%list_elem_of_singleton]%elem_of_app Ht Hb; [by eapply Hc|].
  by rewrite (Hskip t id c e) in Hb.
Qed.

Lemma merge_selected_ok n x t id c e :
  entry_ok n x → subject_selected t id c e → name_of c = n → is_base c = false →
  ∃ y, merge_selected n x t c = Ok y ∧ entry_ok n y ∧ t ∈ selected_subjects y ∧
       ∀ u, u ∈ selected_subjects x → u ∈ selected_subjects y.
Proof using Hloader Hsol.
  intros [Hwf Hn Hb Hsub Hsubs] Ht Hcn Hcb.
  destruct (Hsubs _ Hsub) as (id' & c' & e' & Ht' & Hsame).
  assert (same_facts (selected_candidate x) c = true) as Hxc.
  { apply same_facts_sym. eapply same_facts_trans; [|exact Hsame].
    eapply same_name_same_facts; [done..|].
    by rewrite (ReleaseIdentity_name_proper _ _ (same_facts_identity _ _ Hsame)), Hn. }
  destruct (merge_same_facts _ c Hwf) as (m & Hm & Hmwf & Hxm);
    [by eapply selected_visible|done|].
  pose proof (same_facts_identity _ _ Hxc) as Hi. unfold req_rel in Hi.
  unfold merge_selected. rewrite Hi, Hm. simpl. eexists. split; [done|]. split.
  - pose proof (same_facts_identity _ _ Hxm) as Hxi. constructor; simpl.
    + done.
    + by rewrite <-(ReleaseIdentity_name_proper _ _ Hxi).
    + by rewrite <-(is_base_proper _ _ Hxi).
    + destruct (is_lt _); apply elem_of_app; [right; left|by left].
    + intros u [(id1 & c1 & e1 & Hu & Hsu)%Hsubs| ->%list_elem_of_singleton]%elem_of_app.
      * exists id1, c1, e1. split; [done|]. by eapply same_facts_trans.
      * exists id, c, e. split; [done|]. eapply same_facts_trans; [|exact Hxm].
        by apply same_facts_sym.
  - split; [apply elem_of_app; right; left|]. intros u Hu. apply elem_of_app. by left.
Qed.

Lemma select_package_ok pre m p w :
  (p, w) ∈ sel → selection_inv pre m →
  ∃ m', select_package self m (p, w) s = (Ok m', s) ∧ selection_inv (pre ++ [(p, w)]) m'.
Proof using All.
  intros Hin Hinv.
  assert ((∀ t, p = PackageSubject t → t = KeyR) → selection_inv (pre ++ [(p, w)]) m) as Hskip.
  { intros Hp. apply selection_inv_skip; [done|]. intros t id c e -> -> Ht.
    specialize (Hp t eq_refl) as ->. destruct (selected_visible _ _ _ _ Ht) as (_ & _ & He).
    done. }
  unfold select_package. destruct p as [|t|n]; [exists m; by split; [|apply Hskip]..| |
    exists m; by split; [|apply Hskip]].
  destruct (t =?= KeyR) eqn:ER.
  { apply KeyR_req_iff in ER as ->. exists m. split; [done|]. apply Hskip. by intros t [= <-]. }
  apply req_false_iff in ER. destruct (solution_subject t w Hin ER) as (id & c & e & -> & Ht).
  unfold st_bind, st_map_err. rewrite (subject_candidate _ _ _ _ Ht) by reflexivity. simpl.
  destruct (is_base c) eqn:Hb.
  { exists m. split; [done|]. apply selection_inv_skip; [done|].
    intros t' id' c' e' [= <-] [= <-] Ht'.
    by rewrite (subject_selected_functional _ _ _ _ _ _ Ht' Ht). }
  destruct (selected_visible _ _ _ _ Ht) as (_ & Hcwf & _).
  destruct (bt_get PackageName_cmp (name_of c) m) as [x|] eqn:Hg.
  - destruct (merge_selected_ok (name_of c) x t id c e) as (y & Hy & Hyok & Hty & Hmono);
      [by eapply selection_entries|done..|].
    unfold st_lift. rewrite Hy. eexists. split; [done|].
    eapply selection_inv_insert; [done..|].
    intros y' Hy'. rewrite Hg in Hy'. by injection Hy' as <-.
  - eexists. split; [done|]. eapply selection_inv_insert; [done..| | |].
    + constructor; simpl; try done; [left|]. intros u ->%list_elem_of_singleton.
      exists id, c, e. split; [done|apply same_facts_refl].
    + left.
    + intros y. by rewrite Hg.
Qed.

Lemma select_packages_ok pre m l :
  (∀ p, p ∈ l → p ∈ sel) → selection_inv pre m →
  ∃ m', st_try_fold (select_package self) m l s = (Ok m', s) ∧ selection_inv (pre ++ l) m'.
Proof using All.
  revert pre m. induction l as [|[p w] l IH]; intros pre m Hl Hinv; cbn [st_try_fold].
  { exists m. by rewrite app_nil_r. }
  destruct (select_package_ok pre m p w) as (m1 & Hm1 & Hinv1); [apply Hl; left|done|].
  unfold st_bind. rewrite Hm1. destruct (IH (pre ++ [(p, w)]) m1) as (m2 & Hm2 & Hinv2);
    [intros q Hq; apply Hl; by right|done|].
  exists m2. rewrite <-app_assoc in Hinv2. done.
Qed.

(** ** The projected packages *)

Lemma visible_offered t id c : visible self s t id c → offered t c.
Proof using Hsol.
  intros (l & Hl & Hc).
  destruct (answers_loaded _ _ _ _ (solution_state _ _ Hsol) Hl) as [_ (k & r & Hk & Hr & Ho & _)].
  exists k, r, (loaded_candidates l).*2. split_and!; [done..|].
  by apply (list_elem_of_fmap_2' snd _ (id, c)).
Qed.

Lemma subject_selected_unique t id id' c c' e e' :
  subject_selected t id c e → subject_selected t id' c' e' → c = c' ∧ e = e'.
Proof using Hsol.
  intros Ht Ht'. assert (VersionCandidate id = VersionCandidate id') as [= <-]
    by by eapply solution_functional; [by apply Ht|by apply Ht'|].
  split; [by eapply subject_selected_functional|].
  pose proof (subject_expansion _ _ _ _ Ht). pose proof (subject_expansion _ _ _ _ Ht').
  congruence.
Qed.

Lemma expansion_for_subjects_ok t subjects :
  (∀ u, u ∈ t :: subjects → ∃ e, expansion_for_subject self u = Ok e) →
  ∃ u e, u ∈ t :: subjects ∧ expansion_for_subject self u = Ok e ∧
         expansion_for_subjects self (t :: subjects) = Ok e.
Proof.
  revert t. induction subjects as [|t' subjects IH]; intros t He.
  - destruct (He t ltac:(left)) as (e & Ht). exists t, e. split_and!; [left|done|].
    simpl. rewrite Ht. simpl. by destruct e.
  - destruct (He t ltac:(left)) as (e & Ht).
    destruct (IH t' ltac:(intros u Hu; apply He; by right)) as (u & e' & Hu & Heu & Hes).
    cbn [expansion_for_subjects]. rewrite Ht. simpl. case_bool_decide as Hd.
    + exists t, e. subst e. split_and!; [left|done..].
    + exists u, e'. split_and!; [by right|done..].
Qed.

(** A candidate lists a repository once, so a package does. *)
Lemma visible_repositories_NoDup c subjects : candidate_wf c → NoDup (visible_repositories c subjects).
Proof using.
  intros (_ & (_ & Hnd & _) & _). unfold visible_repositories.
  set (pair := λ o, (occurrence_rank o, occurrence_repository o)).
  set (order := cmp_then (cmp_on fst RepositoryRank_cmp) (cmp_on snd Identifier_cmp)).
  set (l := sort_by order (pair <$> (subjects ≫= applicable_occurrences c))).
  assert (∀ x, x ∈ l → ∃ o, o ∈ candidate_occurrences c ∧ x = pair o) as Hl.
  { unfold l. intros x (o & -> & (t & Ho & _)%list_elem_of_bind)%elem_of_sort_by%list_elem_of_fmap.
    exists o. split; [|done]. by apply elem_of_applicable_occurrences in Ho as [_ [? _]]. }
  assert (∀ x y, x ∈ l → y ∈ l → x.2 = y.2 → x = y) as Hinj.
  { intros x y (o & Ho & ->)%Hl (o' & Ho' & ->)%Hl E. by rewrite (NoDup_fmap_eq _ _ _ _ Hnd Ho Ho' E). }
  assert (dedup_by (λ left right : RepositoryRank * RepositoryId, left.2 =?= right.2) l
    = dedup_by (λ left right, is_eq (order left right)) l) as ->.
  { apply dedup_by_ext. intros x y Hx Hy. apply eq_bool_prop_intro. rewrite !Is_true_true, req_leibniz. split.
    - intros E. by rewrite (Hinj x y Hx Hy E), (cmp_refl order).
    - unfold order, cmp_then, cmp_on. destruct (RepositoryRank_cmp x.1 y.1); [|done..]. simpl.
      destruct (Identifier_cmp x.2 y.2) eqn:E; [|done..]. intros _. by apply (cmp_eq_leibniz Identifier_cmp). }
  apply NoDup_fmap_2_strong.
  - intros x y Hx%elem_of_dedup_by Hy%elem_of_dedup_by. by apply Hinj.
  - apply (strict_sorted_NoDup order), dedup_sorted_strict, sort_by_sorted; [apply _|done|apply _].
Qed.

(** The package made of an entry. *)
Record projected (x : SelectedPackage) (p : ResolvedPackage) : Prop := {
  projected_subject : resolved_subject p = selected_subject x;
  projected_release : resolved_release p = candidate_release (selected_candidate x);
  projected_edges : ∃ t id c e, t ∈ selected_subjects x ∧ subject_selected t id c e ∧
    effective_dependencies p = project_dependency_edges (resolved_release p) e;
  projected_visible : visible_repository_ids p =
    visible_repositories (selected_candidate x) (selected_subjects x);
}.

Lemma project_package_ok n x :
  entry_ok n x → ∃ p, project_package self x = Ok p ∧ projected x p.
Proof using Hsol.
  intros [_ _ _ Hsub Hsubs]. unfold project_package.
  destruct (selected_subjects x) as [|t subjects] eqn:Es; [by apply elem_of_nil in Hsub|].
  destruct (expansion_for_subjects_ok t subjects) as (u & e & Hu & Heu & ->).
  { intros u (id & c & e & Hu & _)%Hsubs. exists e. apply Hu. }
  simpl. eexists. split; [done|]. constructor; simpl; try done; [|by rewrite Es].
  destruct (Hsubs u Hu) as (id & c & e' & Hsel & _). exists u, id, c, e. rewrite Es.
  assert (e' = e) as -> by (pose proof (subject_expansion _ _ _ _ Hsel); congruence). done.
Qed.

Lemma project_edges_similar r r' e :
  release_dependencies r ≈ release_dependencies r' →
  Forall2 (≈) (edge_package <$> project_dependency_edges r e)
    (edge_package <$> project_dependency_edges r' e).
Proof.
  unfold project_dependency_edges. intros Hd%list_req_Forall2.
  induction Hd as [|d d' l l' [Hk Hp]%andb_true_iff _ IH]; [constructor|]. cbn.
  unfold project_edge at 1 4. apply req_leibniz in Hk. rewrite <-Hk.
  destruct (effective_kind e (declared_kind d)); cbn; [by constructor|done].
Qed.

Lemma requirements_provided_proper packages l l' :
  Forall2 (≈) l l' → requirements_provided packages l → requirements_provided packages l'.
Proof.
  intros Hl Hprov r' [i Hr']%list_elem_of_lookup.
  destruct (Forall2_lookup_r _ _ _ _ _ Hl Hr') as (r & Hr & Hrr).
  destruct (Hprov r) as (t & Ht & Hpr); [by apply list_elem_of_lookup_2 with i|].
  pose proof (subject_for_package_proper _ _ Hrr) as Hs. rewrite Ht in Hs.
  destruct (subject_for_package self r') as [t'|] eqn:Et'; [|done].
  exists t'. split; [done|].
  apply PackageRequirement_req_iff in Hrr as (_ & _ & Hc). by rewrite <-Hs, <-Hc.
Qed.

(** What the solver met, the packages provide. *)
Lemma requirements_met_provided packages m l :
  selection_inv sel m →
  (∀ n x, bt_get PackageName_cmp n m = Some x → ∃ p, p ∈ packages ∧ projected x p) →
  requirements_met l → requirements_provided packages l.
Proof using All.
  intros Hinv Hpk Hmet r Hr.
  destruct (Hmet r Hr) as (t & q & x & Ht & Hq & Hqx & Hm). exists t. split; [done|].
  destruct (decide (t ≈ KeyR)) as [HR|HR].
  { left. apply KeyR_req_iff in HR as ->. done. }
  assert (∃ id c, x = VersionCandidate id ∧ visible self s t id c ∧
    VersionConstraint_satisfies (requirement_constraint r) (candidate_version c) = true)
    as (id & c & -> & Hv & Hsat) by (destruct t; done).
  destruct q as [|u|]; [done| |done]. change (u ≈ t) in Hq.
  destruct (solution_subject u _ Hqx) as (id' & cu & e & [= <-] & Hu); [by rewrite Hq|].
  destruct (selected_visible _ _ _ _ Hu) as (Hvu & _ & _).
  pose proof (visible_same_id _ _ _ _ _ Hvu Hv) as Hsame.
  right. exists c. split_and!; [by eapply visible_offered|done|].
  destruct (is_base cu) eqn:Hb.
  { left. by rewrite <-(is_base_proper _ _ (same_facts_identity _ _ Hsame)). }
  right. destruct (selection_covers _ _ Hinv u id cu e Hqx Hu Hb) as (y & Hy & Huy).
  destruct (Hpk _ _ Hy) as (p & Hp & Hpy).
  destruct (entry_subjects _ _ (selection_entries _ _ Hinv _ _ Hy) u Huy)
    as (id1 & c1 & e1 & Hu1 & Hs1).
  destruct (subject_selected_unique _ _ _ _ _ _ _ Hu Hu1) as [<- <-].
  exists p. split; [done|]. unfold resolved_identity, resolved_version.
  rewrite (projected_release _ _ Hpy).
  assert (same_facts (selected_candidate y) c = true) as Hyc
    by (eapply same_facts_trans; [by apply same_facts_sym|done]).
  apply same_facts_iff in Hyc. unfold candidate_identity, candidate_version in Hyc.
  unfold candidate_identity, candidate_version. tauto.
Qed.
End with_solution.

(** ** Correctness *)

Record package_sound (packages : list ResolvedPackage) (p : ResolvedPackage) : Prop := {
  (** It is a candidate the loader offers for its subject, up to spelling. *)
  package_candidate : ∃ c, offered (resolved_subject p) c ∧ candidate_wf c ∧
    is_eligible_for c (resolved_subject p) = true ∧
    resolved_identity p ≈ candidate_identity c ∧ resolved_version p ≈ candidate_version c ∧
    release_dependencies (resolved_release p) ≈ release_dependencies (candidate_release c) ∧
    lock_accepts self (resolved_subject p) c ∧ publication_accepts self (resolved_subject p) c;
  (** Its release is well-formed, and it lists each repository once. *)
  package_release : release_ok (resolved_release p);
  package_visible : NoDup (visible_repository_ids p);
  (** R's own packages are not installed. *)
  package_not_base : PackageRelease_is_r_base_package (resolved_release p) = false;
  (** Its edges are a projection of its declared dependencies, and provided. *)
  package_edges : ∃ e, effective_dependencies p = project_dependency_edges (resolved_release p) e;
  package_provided : requirements_provided packages (edge_package <$> effective_dependencies p);
}.

Record resolution_sound (res : Resolution) : Prop := {
  sound_target : resolution_target res = target (provider_request self);
  sound_names : StronglySorted (λ p q, resolved_name_cmp p q = Lt) (resolution_packages res);
  sound_roots : requirements_provided (resolution_packages res)
    (r_root :: (root_package <$> roots (provider_request self)));
  sound_packages p : p ∈ resolution_packages res → package_sound (resolution_packages res) p;
}.

Lemma project_packages_ok sel s (m : list (PackageName * SelectedPackage)) :
  solution sel s → bt_sorted PackageName_cmp m →
  (∀ n x, bt_get PackageName_cmp n m = Some x → entry_ok sel s n x) →
  ∃ ps, try_map (project_package self) (bt_values m) = Ok ps ∧
    Forall2 (λ nx p, entry_ok sel s nx.1 nx.2 ∧ projected sel s nx.2 p) m ps.
Proof.
  intros Hsol Hs He.
  assert (Forall (λ nx, entry_ok sel s nx.1 nx.2) m) as Hok.
  { apply Forall_forall. intros [n x] Hin. apply He. by apply (bt_in_get PackageName_cmp). }
  clear Hs He. induction Hok as [|[n x] m Hx _ (ps & Hps & Hf)]; [by exists []|].
  destruct (project_package_ok sel s Hsol n x Hx) as (p & Hp & Hpx).
  exists (p :: ps). cbn. rewrite Hp. simpl. unfold bt_values in Hps. rewrite Hps.
  split; [done|]. by constructor.
Qed.

Lemma projected_name sel s n x p :
  entry_ok sel s n x → projected sel s x p → resolved_name p = n.
Proof.
  intros Hx Hp. unfold resolved_name, resolved_identity. rewrite (projected_release _ _ _ _ Hp).
  apply Hx.
Qed.

Lemma projected_names sel s m ps :
  Forall2 (λ nx p, entry_ok sel s nx.1 nx.2 ∧ projected sel s nx.2 p) m ps →
  resolved_name <$> ps = m.*1.
Proof.
  induction 1 as [|[n x] p m ps [Hx Hp] _ IH]; [done|]. cbn. f_equal; [|done].
  by eapply projected_name.
Qed.

(** Packages projected from sorted entries are sorted, and none is R's own. *)
Lemma resolution_of_projected sel s t m ps :
  bt_sorted PackageName_cmp m →
  Forall2 (λ nx p, entry_ok sel s nx.1 nx.2 ∧ projected sel s nx.2 p) m ps →
  let res := Resolution_new t (sort_by resolved_name_cmp ps) in
  StronglySorted (λ p q, resolved_name_cmp p q = Lt) (resolution_packages res) ∧
  ∀ p, p ∈ resolution_packages res ↔ p ∈ ps.
Proof.
  intros Hs Hf res.
  assert (∀ p, p ∈ ps → PackageRelease_is_r_base_package (resolved_release p) = false) as Hb.
  { intros p [i Hi]%list_elem_of_lookup.
    destruct (Forall2_lookup_r _ _ _ _ _ Hf Hi) as ([n x] & _ & Hx & Hp).
    rewrite (projected_release _ _ _ _ Hp). apply Hx. }
  assert (∀ p, p ∈ resolution_packages res ↔ p ∈ ps) as Hin.
  { intros p. unfold res. rewrite elem_of_Resolution_new, elem_of_sort_by. naive_solver. }
  split; [|done]. apply (sorted_NoDup_strict _ resolved_name).
  - intros p q Hpq. by apply (cmp_eq_leibniz PackageName_cmp).
  - assert (resolution_packages res ≡ₚ ps) as ->.
    { unfold res. cbn. rewrite sort_by_Permutation. rewrite filter_true_id.
      - by rewrite sort_by_Permutation.
      - intros p Hp. rewrite elem_of_sort_by in Hp. by rewrite Hb. }
    rewrite (projected_names _ _ _ _ Hf). by apply (bt_sorted_NoDup PackageName_cmp).
  - apply sort_by_sorted, _.
Qed.

Lemma projected_sound sel s m packages n x p :
  solution sel s → selection_inv sel s sel m →
  (∀ n x, bt_get PackageName_cmp n m = Some x → ∃ p, p ∈ packages ∧ projected sel s x p) →
  entry_ok sel s n x → projected sel s x p → package_sound packages p.
Proof using All.
  intros Hsol Hinv Hpk Hx Hp.
  pose proof (projected_release _ _ _ _ Hp) as Hrel. constructor.
  - destruct (entry_subjects _ _ _ _ Hx _ (entry_subject _ _ _ _ Hx))
      as (id & c & e & Ht & Hsame).
    destruct (selected_visible _ _ Hsol _ _ _ _ Ht) as (Hv & Hc & He).
    rewrite (projected_subject _ _ _ _ Hp). unfold resolved_identity, resolved_version.
    rewrite Hrel. apply same_facts_sym, same_facts_iff in Hsame.
    unfold candidate_identity, candidate_version in *. exists c.
    split_and!; try tauto; [by eapply visible_offered|apply Ht|apply Ht].
  - rewrite Hrel. apply (entry_wf _ _ _ _ Hx).
  - rewrite (projected_visible _ _ _ _ Hp). apply visible_repositories_NoDup, (entry_wf _ _ _ _ Hx).
  - rewrite Hrel. apply Hx.
  - destruct (projected_edges _ _ _ _ Hp) as (t & id & c & e & _ & _ & He). by exists e.
  - destruct (projected_edges _ _ _ _ Hp) as (t & id & c & e & Htx & Ht & ->).
    destruct (entry_subjects _ _ _ _ Hx t Htx) as (id' & c' & e' & Ht' & Hsame).
    destruct (subject_selected_unique _ _ Hsol _ _ _ _ _ _ _ Ht Ht') as [<- <-].
    eapply requirements_provided_proper.
    + apply (project_edges_similar (candidate_release c)). rewrite Hrel.
      apply same_facts_iff in Hsame. tauto.
    + eapply requirements_met_provided; [done..|]. apply Ht.
Qed.

Lemma selection_inv_nil sel s : selection_inv sel s [] [].
Proof.
  constructor; [constructor|done|]. by intros ? ? ? ? ?%elem_of_nil.
Qed.

Lemma provider_eta :
  mk_Provider (provider_loader self) (provider_preference self) (provider_lock_policy self)
    (provider_request self) = self.
Proof. by destruct self. Qed.

Lemma solve_solution sel s :
  pubgrub_resolve (dependency_provider self) PackageRoot VersionRoot ProviderState_new = (Ok sel, s) →
  ∃ res, solve (provider_loader self) (provider_preference self) (provider_lock_policy self)
           (provider_request self) = Ok res ∧ resolution_sound res.
Proof using All.
  intros E. pose proof (resolve_solution_facts sel s E) as Hsol.
  destruct (select_packages_ok sel s Hsol [] [] sel) as (m & Hm & Hinv);
    [done|apply selection_inv_nil|].
  destruct (project_packages_ok sel s m Hsol) as (ps & Hps & Hf);
    [apply Hinv|apply Hinv|].
  assert (bt_sorted PackageName_cmp m) as Hsorted by apply Hinv.
  destruct (resolution_of_projected sel s (target (provider_request self)) m ps Hsorted Hf)
    as [Hnames Hin].
  set (res := Resolution_new _ _) in *. exists res. split.
  { unfold solve. rewrite provider_eta, E, Hm. simpl. by rewrite Hps. }
  assert (∀ n x, bt_get PackageName_cmp n m = Some x →
    ∃ p, p ∈ resolution_packages res ∧ projected sel s x p) as Hpk.
  { intros n x Hg. apply (bt_get_in PackageName_cmp) in Hg as (n' & _ & [i Hi]%list_elem_of_lookup).
    destruct (Forall2_lookup_l _ _ _ _ _ Hf Hi) as (p & Hp & _ & Hpx). exists p.
    split; [|done]. apply Hin. by apply list_elem_of_lookup_2 with i. }
  constructor; [done|done| |].
  - eapply requirements_met_provided; [done..|]. by apply roots_met.
  - intros p [i Hi]%Hin%list_elem_of_lookup.
    destruct (Forall2_lookup_r _ _ _ _ _ Hf Hi) as ([n x] & _ & Hx & Hpx).
    by eapply projected_sound.
Qed.

(** C1: relative to the contract of [pubgrub::resolve], [solve] succeeds
    whenever PubGrub finds a solution, and the resolution it returns is sound:
    the target is the request's; one package per name, none of R's own; the
    roots and every package's effective dependencies are provided; every
    package is an eligible candidate of its subject that the lock policy and
    the publication cutoff accept.  Otherwise PubGrub's error is translated;
    the name conflict and inconsistency errors of [solve] never arise. *)
Theorem solve_spec :
  match pubgrub_resolve (dependency_provider self) PackageRoot VersionRoot ProviderState_new with
  | (Ok _, _) =>
      ∃ res, solve (provider_loader self) (provider_preference self) (provider_lock_policy self)
               (provider_request self) = Ok res ∧ resolution_sound res
  | (Err e, _) =>
      solve (provider_loader self) (provider_preference self) (provider_lock_policy self)
        (provider_request self) = Err (map_error e (publication_cutoff (provider_request self)))
  end.
Proof using All.
  destruct (pubgrub_resolve _ _ _ _) as [[sel|e] s] eqn:E; [by eapply solve_solution|].
  unfold solve. by rewrite provider_eta, E.
Qed.
End solve_laws.
