(* ===== verification/LockSolve.v ===== *)
(** * From a request to a lock

    The solver and the lock together: every resolution [solve] returns can be
    locked.  Also that the lock a resolution is made into pins it. *)

From S2P Require Import Prelude RustStd Collections Externals Text Format Versions Names Publication.
From S2P Require Import Identity Constraints Metadata Request Candidates Resolution Policy Adapter AdapterLaws.
From S2P Require Import Solve SolveLaws Manifest Locators ManifestWire Compose Lock LockConsume.
From S2P Require Import LockLaws LockIdentities.

Section solve_lock.
Context `{CivilDate, Sha2, UnicodeTables}.
Context `{!VersionRanges SolverVersion, !DependencyConstraints PackageId Ranges}.
Context `{!VersionRangesLaws SolverVersion, !DependencyConstraintsLaws PackageId Ranges Ranges_contains}.
Context `{!PubGrub PackageId SolverVersion Ranges Constraints ProviderMessage AdapterError
            Priority ProviderState}.
Context `{!PubGrubLaws (P:=PackageId) (V:=SolverVersion) (VS:=Ranges) (DC:=Constraints)
            (M:=ProviderMessage) (E:=AdapterError) (Priority:=Priority) (S:=ProviderState)
            Ranges_contains Constraints_pairs}.
Context (self : Provider) (Hloader : loader_wf (provider_loader self)).

Lemma solve_sound res :
  solve (provider_loader self) (provider_preference self) (provider_lock_policy self)
    (provider_request self) = Ok res → resolution_sound self res.
Proof using All.
  intros E. destruct (pubgrub_resolve (dependency_provider self) PackageRoot VersionRoot ProviderState_new)
    as [[sel|e] s] eqn:Ep.
  - destruct (solve_solution self Hloader sel s Ep) as (res' & Hres & Hs). rewrite E in Hres.
    by injection Hres as <-.
  - unfold solve in E. by rewrite provider_eta, Ep in E.
Qed.

(** Versions are made by parsing: their texts are read back. *)
Definition spelled (p : ResolvedPackage) : Prop :=
  version_reads_back (resolved_version p) ∧
  ∀ v, provenance_version (ReleaseIdentity_provenance (resolved_identity p)) = Some v → version_reads_back v.

Lemma sound_lockable res p :
  resolution_sound self res → p ∈ resolution_packages res → spelled p → resolved_lockable p.
Proof using.
  intros Hs Hp [Ht Hv]. destruct (sound_packages _ _ Hs p Hp) as [_ [[Hwf _] _] Hvis Hb _ _].
  split; [done..| |done]. intros v Hpv. split; [by apply Hwf|by apply Hv].
Qed.

(** The lock holds the packages of the resolution, as resolved, and the edges of
    each that lead to packages. *)
Definition locks (res : Resolution) (lock : Lockfile) : Prop :=
  lock_canonical lock ∧ locked_target (lock_resolution lock) = resolution_target res ∧
  Forall2 (λ p q, locked_identity q = resolved_identity p ∧ locked_version q = resolved_version p ∧
    locked_visible q = visible_repository_ids p ∧
    locked_metadata_sha256 q = release_metadata_digest (resolved_release p) ∧
    ∀ d, d ∈ locked_dependencies q ↔
      PackageName_as_str (locked_package d) ≠ "R" ∧
      (∃ p', p' ∈ resolution_packages res ∧ resolved_name p' = locked_package d) ∧
      ∃ e, e ∈ effective_dependencies p ∧ edge_kind e = locked_kind d ∧
           requirement_name (edge_package e) = locked_package d)
    (resolution_packages res) (locked_packages (lock_resolution lock)).

(** C7: every resolution the solver returns can be locked when the target satisfies
    the R requirement: the lock is canonical and holds the resolution.  None of
    the errors of lock construction arises. *)
Theorem solve_locks res environment cutoff intent c :
  solve (provider_loader self) (provider_preference self) (provider_lock_policy self)
    (provider_request self) = Ok res →
  Forall spelled (resolution_packages res) →
  VersionConstraint_satisfies c (target_r_version (target (provider_request self))) = true →
  ∃ lock, from_resolution_with_applicability res environment cutoff intent c = Ok lock ∧ locks res lock.
Proof using All.
  intros E%solve_sound Hspelled Hc. rewrite <-(sound_target _ _ E) in Hc.
  destruct (from_resolution_spec res environment cutoff intent c) as (Hlock & Hcan & Hedges);
    [exact (sound_names _ _ E)| |exact Hc|].
  { apply Forall_forall. intros p Hp. rewrite Forall_forall in Hspelled. by eapply sound_lockable; eauto. }
  eexists. split; [exact Hlock|]. split; [done|]. split; [done|]. cbn [lock_resolution locked_packages].
  apply Forall2_fmap_r, Forall_Forall2_diag, Forall_forall. intros p Hp. split_and!; try done.
  intros [kind name]. rewrite (Hedges p kind name Hp), list_elem_of_fmap. cbn [locked_kind locked_package].
  naive_solver.
Qed.
End solve_lock.
