(* ===== verification/Demand.v ===== *)
(** * Package demand of the repositories ([rsolve/src/repository_resolution/demand.rs])

    Which packages may be asked of which repository: the roots and the declared
    dependencies of every candidate, followed with a stack until nothing is new.
    The theorems are in [DemandLaws]. *)

From S2P Require Import Prelude Effects RustStd Collections Externals Text Format Versions Names GitUrl.
From S2P Require Import Publication Identity Constraints Digest Metadata Request Candidates Resolution.
From S2P Require Import Policy Manifest Locators ManifestWire Compose.

(** A [BTreeMap] from entries to sets of packages. *)
Notation EntryDemands := (list (nat * list PackageName)) (only parsing).

(** [entry_demands.entry(entry).or_default().insert(name)] *)
Definition demand_insert (name : PackageName) (demands : EntryDemands) (entry : nat) : EntryDemands :=
  bt_insert Nat.compare entry
    (bs_insert PackageName_cmp name (default [] (bt_get Nat.compare entry demands))) demands.

Record RepositoryDemandPlan := mk_RepositoryDemandPlan {
  entry_demands : EntryDemands;
  unrouted : list PackageName;
  discovered : list PackageName;
}.

(** The trait of the loader: its state, and its one operation. *)
Class RepositoryDemandSource `{CivilDate} := {
  DemandSource : Type;
  demand_load : nat → PackageName →
    stateful DemandSource (list PackageRelease) CandidateLoadError;
}.

(** ** Routing *)

Definition is_remote_name (package : PackageName) : bool :=
  negb (PackageName_is "R" package) && negb (is_r_base_package_name package).

Definition is_remote_root (root : ComposedRootIntent) : bool :=
  if PackageName_is "R" (intent_name root) then false
  else match intent_source root with
       | ManifestRegistry (Some _) => true
       | ManifestRegistry None => is_remote_name (intent_name root)
       | _ => false
       end.

(** The indexes of the entries that pass a test. *)
Definition entries_with (allowed : RepositorySpec → bool) (repositories : list RepositorySpec) :
    list nat := (List.filter (λ entry, allowed entry.2) (indexed repositories)).*1.

Definition eligible_entries (repositories : list RepositorySpec) (scope : option RepositoryId)
    (package : PackageName) : list nat :=
  entries_with (λ repository,
    match scope with None => true | Some scope => bool_decide (scope = spec_id repository) end
    && package_allowed repository package) repositories.

Definition eligible_dependency_entries (repositories : list RepositorySpec)
    (source : DependencySourceConstraint) (package : PackageName) : list nat :=
  match source with
  | SourceRepository repository => eligible_entries repositories (Some repository) package
  | SourceRegistry namespace =>
    entries_with (λ repository,
      if negb (package_allowed repository package) then false
      else match spec_registry repository with
           | Cran => bool_decide (Identifier_as_str namespace = "cran")
           | CranLike candidate => bool_decide (candidate = namespace)
           | RUniverse => false
           end) repositories
  | SourceAny => eligible_entries repositories None package
  | SourceBioconductor _ _ | SourceGit _ | SourceExact _ => []
  end.

Section demand.
Context `{CivilDate}.

Notation DirectReleases := (list (PackageName * PackageRelease)) (only parsing).

Definition direct_root_override (direct_releases : DirectReleases) (package : PackageName)
    (source : DependencySourceConstraint) : bool :=
  match source with
  | SourceAny => bool_decide (is_Some (bt_get PackageName_cmp package direct_releases))
  | _ => false
  end.

(** ** Dependencies *)

Definition dependency_name (dependency : DeclaredDependency) : PackageName :=
  requirement_name (declared_package dependency).
Definition dependency_source (dependency : DeclaredDependency) : DependencySourceConstraint :=
  requirement_source (declared_package dependency).

(** The dependencies that are followed: [hard || promoted], of a package that is
    neither R nor comes with it. *)
Definition wanted (promote_suggests : bool) (dependency : DeclaredDependency) : bool :=
  (match declared_kind dependency with
   | Depends | Imports | LinkingTo => true
   | Suggests => promote_suggests
   | Enhances => false
   end) && is_remote_name (dependency_name dependency).

Definition promotes (root : ComposedRootIntent) : bool :=
  bool_decide (intent_expansion root = DirectSuggests).

(** ** The first demands *)

Definition initial_dependency (repositories : list RepositorySpec) (direct_releases : DirectReleases)
    (promote_suggests : bool) (result : EntryDemands) (dependency : DeclaredDependency) : EntryDemands :=
  if negb (wanted promote_suggests dependency) then result
  else if direct_root_override direct_releases (dependency_name dependency)
            (dependency_source dependency) then result
  else foldl (demand_insert (dependency_name dependency)) result
         (eligible_dependency_entries repositories (dependency_source dependency)
            (dependency_name dependency)).

Definition initial_root (repositories : list RepositorySpec) (direct_releases : DirectReleases)
    (result : EntryDemands) (root : ComposedRootIntent) : EntryDemands :=
  match intent_source root with
  | ManifestRegistry repository =>
    if negb (is_remote_root root) then result
    else foldl (demand_insert (intent_name root)) result
           (eligible_entries repositories repository (intent_name root))
  | ManifestGit _ _ _ =>
    match bt_get PackageName_cmp (intent_name root) direct_releases with
    | None => result
    | Some release =>
      foldl (initial_dependency repositories direct_releases (promotes root)) result
        (release_dependencies release)
    end
  | ManifestUrl _ _ | ManifestPath _ _ => result
  end.

Definition initial_repository_demands_with_direct (repositories : list RepositorySpec)
    (roots : list ComposedRootIntent) (direct_releases : DirectReleases) : EntryDemands :=
  foldl (initial_root repositories direct_releases) [] roots.

(** ** The walk *)

(** An element of the stack. *)
Record Visit := mk_Visit {
  visit_package : PackageName;
  visit_source : DependencySourceConstraint;
  visit_suggests : bool;
}.

Definition visit_key (v : Visit) : PackageName * DependencySourceConstraint :=
  (visit_package v, visit_source v).

(** The variables of the function; the head of [walk_pending] is the top of the
    stack, the last element of the vector. *)
Record DemandWalk := mk_DemandWalk {
  walk_demands : EntryDemands;
  walk_pending : list Visit;
  walk_unrouted : list PackageName;
  walk_discovered : list PackageName;
  walk_visited : list ((PackageName * DependencySourceConstraint) * bool);
}.

Definition empty_walk : DemandWalk := mk_DemandWalk [] [] [] [] [].

Definition discover (name : PackageName) (w : DemandWalk) : DemandWalk :=
  mk_DemandWalk (walk_demands w) (walk_pending w) (walk_unrouted w)
    (bs_insert PackageName_cmp name (walk_discovered w)) (walk_visited w).
Definition unroute (name : PackageName) (w : DemandWalk) : DemandWalk :=
  mk_DemandWalk (walk_demands w) (walk_pending w)
    (bs_insert PackageName_cmp name (walk_unrouted w)) (walk_discovered w) (walk_visited w).

(** The demands on the entries, and the push. *)
Definition route (v : Visit) (entries : list nat) (w : DemandWalk) : DemandWalk :=
  mk_DemandWalk (foldl (demand_insert (visit_package v)) (walk_demands w) entries)
    (v :: walk_pending w) (walk_unrouted w) (walk_discovered w) (walk_visited w).
Definition pop (rest : list Visit) (w : DemandWalk) : DemandWalk :=
  mk_DemandWalk (walk_demands w) rest (walk_unrouted w) (walk_discovered w) (walk_visited w).
Definition set_visited (v : Visit) (w : DemandWalk) : DemandWalk :=
  mk_DemandWalk (walk_demands w) (walk_pending w) (walk_unrouted w) (walk_discovered w)
    (hm_insert (visit_key v) (visit_suggests v) (walk_visited w)).

Definition dependency_visit (dependency : DeclaredDependency) : Visit :=
  mk_Visit (dependency_name dependency) (dependency_source dependency) false.

Section walk.
Context `{!RepositoryDemandSource} (repositories : list RepositorySpec)
  (direct_releases : DirectReleases).

Definition entries_of (v : Visit) : list nat :=
  eligible_dependency_entries repositories (visit_source v) (visit_package v).

Definition overridden (dependency : DeclaredDependency) : bool :=
  direct_root_override direct_releases (dependency_name dependency) (dependency_source dependency).

(** One declared dependency; the text is the same for those of a direct root and
    of a candidate. *)
Definition demand_dependency (promote_suggests : bool) (w : DemandWalk)
    (dependency : DeclaredDependency) : DemandWalk :=
  if negb (wanted promote_suggests dependency) then w
  else
    let w := discover (dependency_name dependency) w in
    if overridden dependency then w
    else match entries_of (dependency_visit dependency) with
         | [] => unroute (dependency_name dependency) w
         | entries => route (dependency_visit dependency) entries w
         end.

Definition root_source (repository : option RepositoryId) : DependencySourceConstraint :=
  match repository with Some repository => SourceRepository repository | None => SourceAny end.

Definition demand_root (w : DemandWalk) (root : ComposedRootIntent) : DemandWalk :=
  match intent_source root with
  | ManifestGit _ _ _ =>
    match bt_get PackageName_cmp (intent_name root) direct_releases with
    | None => w
    | Some release => foldl (demand_dependency (promotes root)) w (release_dependencies release)
    end
  | ManifestUrl _ _ | ManifestPath _ _ => w
  | ManifestRegistry repository =>
    if negb (is_remote_root root) then w
    else
      let v := mk_Visit (intent_name root) (root_source repository) (promotes root) in
      match entries_of v with
      | [] => unroute (intent_name root) (discover (intent_name root) w)
      | entries => route v entries w
      end
  end.

(** One entry that may provide the package. *)
Definition demand_entry (v : Visit) (w : DemandWalk) (entry : nat) :
    stateful DemandSource DemandWalk CandidateLoadError :=
  let! loaded := st_outcome (demand_load entry (visit_package v)) in
  match loaded with
  | Ok candidates =>
    st_ret (foldl (λ w candidate,
                     foldl (demand_dependency (visit_suggests v)) w (release_dependencies candidate))
              w candidates)
  | Err error =>
    if bool_decide (load_error_category error = NotFound) then st_ret w else st_err error
  end.

Definition expand_visit (v : Visit) (w : DemandWalk) :
    stateful DemandSource DemandWalk CandidateLoadError :=
  let w := discover (visit_package v) (set_visited v w) in
  match entries_of v with
  | [] => st_ret (unroute (visit_package v) w)
  | entries => st_try_fold (demand_entry v) w entries
  end.

(** The body of the loop, after the pop. *)
Definition demand_visit (v : Visit) (w : DemandWalk) :
    stateful DemandSource DemandWalk CandidateLoadError :=
  match hm_get (visit_key v) (walk_visited w) with
  | Some strongest => if strongest || negb (visit_suggests v) then st_ret w else expand_visit v w
  | None => expand_visit v w
  end.

(** [None] when [fuel] visits are not enough. *)
Fixpoint demand_loop (fuel : nat) (w : DemandWalk) :
    stateful DemandSource (option DemandWalk) CandidateLoadError :=
  match walk_pending w with
  | [] => st_ret (Some w)
  | v :: rest =>
    match fuel with
    | 0 => st_ret None
    | S fuel => let! w := demand_visit v (pop rest w) in demand_loop fuel w
    end
  end.

Definition walk_plan (w : DemandWalk) : RepositoryDemandPlan :=
  mk_RepositoryDemandPlan (walk_demands w) (walk_unrouted w) (walk_discovered w).

Definition resolve_repository_demands_with_direct (fuel : nat) (roots : list ComposedRootIntent) :
    stateful DemandSource (option RepositoryDemandPlan) CandidateLoadError :=
  let! w := demand_loop fuel (foldl demand_root empty_walk roots) in
  st_ret (walk_plan <$> w).
End walk.

Definition resolve_repository_demands `{!RepositoryDemandSource} (fuel : nat)
    (repositories : list RepositorySpec) (roots : list ComposedRootIntent) :
    stateful DemandSource (option RepositoryDemandPlan) CandidateLoadError :=
  resolve_repository_demands_with_direct repositories [] fuel roots.
End demand.
