(* ===== verification/DemandLaws.v ===== *)
(** * The demand plan is the closure of the roots under declared dependencies

    [needed] says which packages a plan must reach; the walk of [Demand] computes
    it, asks nothing else of the loader, and ends. *)

From S2P Require Import Prelude Effects RustStd Collections Externals Text Format Versions Names GitUrl.
From S2P Require Import Publication Identity Constraints Digest Metadata Request Candidates Resolution.
From S2P Require Import Policy Manifest Locators ManifestWire Compose Demand.

(** ** Sums *)

Lemma sum_list_with_le {A} (f g : A → nat) l :
  (∀ x, f x ≤ g x) → sum_list_with f l ≤ sum_list_with g l.
Proof. intros Hfg. induction l as [|x l IH]; simpl; [lia|]. specialize (Hfg x). lia. Qed.

(** One element that loses [n] makes the sum lose [n]. *)
Lemma sum_list_with_drop {A} (f g : A → nat) l x n :
  (∀ x, f x ≤ g x) → x ∈ l → f x + n ≤ g x → sum_list_with f l + n ≤ sum_list_with g l.
Proof.
  intros Hfg Hx Hn. induction l as [|y l IH]; [by apply elem_of_nil in Hx|]. simpl.
  apply elem_of_cons in Hx as [->|Hx].
  - pose proof (sum_list_with_le f g l Hfg). lia.
  - specialize (IH Hx). specialize (Hfg y). lia.
Qed.

(** ** Sets of demands *)

(** The packages asked of an entry. *)
Definition asked (demands : list (nat * list PackageName)) (entry : nat) : list PackageName :=
  default [] (bt_get Nat.compare entry demands).

Lemma asked_demand_insert name demands entry e n :
  n ∈ asked (demand_insert name demands entry) e ↔ (e = entry ∧ n = name) ∨ n ∈ asked demands e.
Proof.
  unfold asked, demand_insert. destruct (decide (e = entry)) as [->|Hne].
  - rewrite (bt_get_insert_eq Nat.compare) by apply Nat.compare_refl. simpl.
    rewrite (elem_of_bs_insert PackageName_cmp). naive_solver.
  - rewrite (bt_get_insert_ne Nat.compare) by by rewrite Nat.compare_eq_iff. tauto.
Qed.

Lemma asked_demand_inserts name entries demands e n :
  n ∈ asked (foldl (demand_insert name) demands entries) e ↔
    (e ∈ entries ∧ n = name) ∨ n ∈ asked demands e.
Proof.
  revert demands. induction entries as [|entry entries IH]; intros demands; simpl; [set_solver|].
  rewrite IH, asked_demand_insert. set_solver.
Qed.

(** Entries are in order, and each set is in order and not empty. *)
Definition demands_wf (demands : list (nat * list PackageName)) : Prop :=
  bt_sorted Nat.compare demands ∧
  Forall (λ d, strictly_sorted PackageName_cmp d.2 ∧ d.2 ≠ []) demands.

Lemma demand_insert_wf name demands entry :
  demands_wf demands → demands_wf (demand_insert name demands entry).
Proof.
  intros [Hs Hd]. split; [by apply (bt_insert_sorted Nat.compare)|].
  rewrite Forall_forall in Hd |- *.
  intros [k s] [[= -> ->]|Hin]%(bt_insert_subset Nat.compare); [|by apply Hd].
  assert (strictly_sorted PackageName_cmp (default [] (bt_get Nat.compare entry demands))) as Hold.
  { destruct (bt_get _ _ _) as [old|] eqn:E; simpl; [|constructor].
    apply bt_get_in in E as (k' & _ & Hin). by apply Hd in Hin as []. }
  simpl. split; [by apply (bs_insert_sorted PackageName_cmp)|]. intros E.
  assert (name ∈ bs_insert PackageName_cmp name (default [] (bt_get Nat.compare entry demands))) as Hn.
  { apply (elem_of_bs_insert PackageName_cmp). by left. }
  rewrite E in Hn. by apply elem_of_nil in Hn.
Qed.

Lemma demand_inserts_wf name entries demands :
  demands_wf demands → demands_wf (foldl (demand_insert name) demands entries).
Proof. revert demands. induction entries; intros; simpl; [done|]. auto using demand_insert_wf. Qed.

(** Demands are determined by what is asked of each entry. *)
Lemma demands_unique d d' :
  demands_wf d → demands_wf d' → (∀ e n, n ∈ asked d e ↔ n ∈ asked d' e) → d = d'.
Proof.
  intros [Hs Hd] [Hs' Hd'] Hsame.
  assert (∀ d d' : list (nat * list PackageName), demands_wf d → demands_wf d' →
    (∀ e n, n ∈ asked d e ↔ n ∈ asked d' e) → ∀ q, q ∈ d → q ∈ d') as Hsub.
  { clear. intros d d' [Hs Hd] [Hs' Hd'] Hsame [e s] Hq. rewrite Forall_forall in Hd, Hd'.
    destruct (Hd _ Hq) as [Hss Hne]. simpl in *.
    assert (asked d e = s) as Hs0 by (unfold asked; by rewrite (bt_in_get Nat.compare e s)).
    destruct s as [|n0 s0]; [done|].
    assert (n0 ∈ asked d' e) as Hn0 by (apply Hsame; rewrite Hs0; by left).
    unfold asked in Hn0. destruct (bt_get Nat.compare e d') as [s'|] eqn:E; [|by apply elem_of_nil in Hn0].
    pose proof E as (e' & He' & Hin)%bt_get_in. apply Nat.compare_eq_iff in He' as <-.
    replace (n0 :: s0) with s'; [done|]. destruct (Hd' _ Hin) as [Hss' _].
    apply (strict_sorted_ext PackageName_cmp); [done..|]. intros x.
    rewrite <-Hs0, Hsame. unfold asked. by rewrite E. }
  apply (strict_sorted_ext (cmp_on fst Nat.compare)); [done..|]. intros q. split; by apply Hsub.
Qed.

(** ** What a plan must reach *)

Section closure.
Context `{CivilDate, !RepositoryDemandSource} (repositories : list RepositorySpec)
  (direct_releases : list (PackageName * PackageRelease)) (roots : list ComposedRootIntent).

(** What a load answers, whatever the state of the loader is. *)
Variable answers : nat → PackageName → result (list PackageRelease) CandidateLoadError.

Notation entries_of := (entries_of repositories).
Notation overridden := (overridden direct_releases).

(** The dependencies declared by the candidates of a visit. *)
Definition loaded_dependencies (v : Visit) (entry : nat) : list DeclaredDependency :=
  match answers entry (visit_package v) with
  | Ok candidates => candidates ≫= release_dependencies
  | Err _ => []
  end.

Definition routed (dependency : DeclaredDependency) : Prop :=
  overridden dependency = false ∧ entries_of (dependency_visit dependency) ≠ [].

Definition registry_visit (root : ComposedRootIntent) (v : Visit) : Prop :=
  is_remote_root root = true ∧ ∃ repository, intent_source root = ManifestRegistry repository ∧
    v = mk_Visit (intent_name root) (root_source repository) (promotes root).

Definition direct_release (root : ComposedRootIntent) (release : PackageRelease) : Prop :=
  (∃ url selector subdirectory, intent_source root = ManifestGit url selector subdirectory) ∧
  bt_get PackageName_cmp (intent_name root) direct_releases = Some release.

Inductive needed : Visit → Prop :=
| needed_root root v : root ∈ roots → registry_visit root v → entries_of v ≠ [] → needed v
| needed_dependency dependency :
    mentioned dependency → routed dependency → needed (dependency_visit dependency)
with mentioned : DeclaredDependency → Prop :=
| mentioned_direct root release dependency :
    root ∈ roots → direct_release root release → dependency ∈ release_dependencies release →
    wanted (promotes root) dependency = true → mentioned dependency
| mentioned_loaded v entry dependency :
    needed v → entry ∈ entries_of v → dependency ∈ loaded_dependencies v entry →
    wanted (visit_suggests v) dependency = true → mentioned dependency.

Scheme needed_mutual := Minimality for needed Sort Prop
with mentioned_mutual := Minimality for mentioned Sort Prop.
Combined Scheme needed_mentioned_ind from needed_mutual, mentioned_mutual.

(** The pairs a loader may be asked for. *)
Definition demanded (entry : nat) (package : PackageName) : Prop :=
  ∃ v, needed v ∧ visit_package v = package ∧ entry ∈ entries_of v.

Definition named (package : PackageName) : Prop :=
  (∃ root v, root ∈ roots ∧ registry_visit root v ∧ visit_package v = package) ∨
  (∃ dependency, mentioned dependency ∧ dependency_name dependency = package).

Definition stranded (package : PackageName) : Prop :=
  (∃ root v, root ∈ roots ∧ registry_visit root v ∧ visit_package v = package ∧ entries_of v = []) ∨
  (∃ dependency, mentioned dependency ∧ dependency_name dependency = package ∧
     overridden dependency = false ∧ entries_of (dependency_visit dependency) = []).

(** The contract of a plan. *)
Record plan_for (plan : RepositoryDemandPlan) : Prop := {
  plan_demands_wf : demands_wf (entry_demands plan);
  plan_sets_wf : strictly_sorted PackageName_cmp (unrouted plan) ∧
                 strictly_sorted PackageName_cmp (discovered plan);
  plan_demands e n : n ∈ asked (entry_demands plan) e ↔ demanded e n;
  plan_unrouted n : n ∈ unrouted plan ↔ stranded n;
  plan_discovered n : n ∈ discovered plan ↔ named n;
}.

Lemma plan_for_unique p p' : plan_for p → plan_for p' → p = p'.
Proof.
  intros Hp Hp'. destruct p as [d u s], p' as [d' u' s']. destruct Hp as [Hd [Hu Hs] Hda Hua Hsa].
  destruct Hp' as [Hd' [Hu' Hs'] Hda' Hua' Hsa']. simpl in *. f_equal.
  - apply demands_unique; [done..|]. intros e n. by rewrite Hda, Hda'.
  - apply (strict_sorted_ext PackageName_cmp); [done..|]. intros n. by rewrite Hua, Hua'.
  - apply (strict_sorted_ext PackageName_cmp); [done..|]. intros n. by rewrite Hsa, Hsa'.
Qed.

Lemma needed_entries v : needed v → entries_of v ≠ [].
Proof. by destruct 1 as [? ? ? ? ?|? ? [? ?]]. Qed.

Lemma needed_named v : needed v → named (visit_package v).
Proof.
  destruct 1 as [root v Hr Hv Hne|d Hd _]; [left; by exists root, v|right; by exists d].
Qed.

(** A key that has entries is found by equality. *)
Lemma source_with_entries v k :
  entries_of v ≠ [] → k ≈ visit_key v → k = visit_key v.
Proof.
  destruct k as [p s], v as [p' s' b]. unfold visit_key, req_rel, req, req_prod. simpl. intros Hne.
  rewrite andb_true_iff, req_leibniz. intros [-> Hs]. f_equal.
  unfold Demand.entries_of in Hne. simpl in Hne.
  destruct s, s'; simpl in *; try done; unfold req, req_DependencySourceConstraint in Hs;
    simpl in Hs; try done; f_equal; by apply req_leibniz in Hs.
Qed.

(** ** The first demands *)

Lemma initial_dependencies_demanded promote ds m :
  (∀ d, d ∈ ds → wanted promote d = true → mentioned d) →
  (∀ e n, n ∈ asked m e → demanded e n) →
  ∀ e n, n ∈ asked (foldl (initial_dependency repositories direct_releases promote) m ds) e →
    demanded e n.
Proof.
  revert m. induction ds as [|d ds IH]; intros m Hds Hm; simpl; [done|].
  apply IH; [intros d' Hd'; apply Hds; by right|]. unfold initial_dependency.
  destruct (wanted promote d) eqn:Hw; simpl; [|done].
  destruct (direct_root_override _ _ _) eqn:Ho; [done|].
  intros e n [[He ->]|Hn]%asked_demand_inserts; [|by apply Hm].
  exists (dependency_visit d). split_and!; [|done|done]. apply needed_dependency.
  - apply Hds; [by left|done].
  - split; [done|]. intros E. unfold Demand.entries_of in E. simpl in E. rewrite E in He.
    by apply elem_of_nil in He.
Qed.

Lemma initial_demanded e n :
  n ∈ asked (initial_repository_demands_with_direct repositories roots direct_releases) e →
  demanded e n.
Proof.
  unfold initial_repository_demands_with_direct. revert e n.
  assert (∀ l m, l ⊆ roots → (∀ e n, n ∈ asked m e → demanded e n) →
    ∀ e n, n ∈ asked (foldl (initial_root repositories direct_releases) m l) e → demanded e n)
    as Hfold; [|by apply Hfold; [done|intros ? ? ?%elem_of_nil]].
  induction l as [|root l IH]; intros m Hl Hm; simpl; [done|]. apply IH; [set_solver|].
  assert (root ∈ roots) as Hr by set_solver. unfold initial_root.
  destruct (intent_source root) as [repository|url selector sub| |] eqn:Hsrc; [..|done|done].
  - destruct (is_remote_root root) eqn:Hrem; simpl; [|done].
    intros e n [[He ->]|Hn]%asked_demand_inserts; [|by apply Hm].
    exists (mk_Visit (intent_name root) (root_source repository) (promotes root)).
    assert (e ∈ entries_of (mk_Visit (intent_name root) (root_source repository) (promotes root)))
      as He' by by destruct repository.
    split_and!; [|done|done]. eapply needed_root; [done|split; [done|by exists repository]|].
    intros E. rewrite E in He'. by apply elem_of_nil in He'.
  - destruct (bt_get _ _ _) as [release|] eqn:Hdirect; [|done].
    apply initial_dependencies_demanded; [|done]. intros d Hd Hw.
    eapply mentioned_direct; [done| |done|done]. split; [by exists url, selector, sub|done].
Qed.

(** ** The state of the walk *)

(** The visit is on the stack, or was made with its mode or a stronger one. *)
Definition covered (w : DemandWalk) (v : Visit) : Prop :=
  v ∈ walk_pending w ∨
  ∃ b, hm_get (visit_key v) (walk_visited w) = Some b ∧ (visit_suggests v = true → b = true).

Definition accounted_visit (w : DemandWalk) (v : Visit) : Prop :=
  (entries_of v = [] → visit_package v ∈ walk_unrouted w ∧ visit_package v ∈ walk_discovered w) ∧
  (∀ e, e ∈ entries_of v → visit_package v ∈ asked (walk_demands w) e) ∧
  (entries_of v ≠ [] → covered w v).

Definition accounted (w : DemandWalk) (d : DeclaredDependency) : Prop :=
  dependency_name d ∈ walk_discovered w ∧
  (overridden d = false → accounted_visit w (dependency_visit d)).

(** Nothing is in the plan that need not be. *)
Record walk_sound (w : DemandWalk) : Prop := {
  sound_wf : demands_wf (walk_demands w) ∧ strictly_sorted PackageName_cmp (walk_unrouted w) ∧
             strictly_sorted PackageName_cmp (walk_discovered w);
  sound_pending v : v ∈ walk_pending w → needed v;
  sound_visited k b : (k, b) ∈ walk_visited w → needed (mk_Visit k.1 k.2 b);
  sound_demands e n : n ∈ asked (walk_demands w) e → demanded e n;
  sound_unrouted n : n ∈ walk_unrouted w → stranded n;
  sound_discovered n : n ∈ walk_discovered w → named n;
}.

Record grows (w w' : DemandWalk) : Prop := {
  grows_demands e : asked (walk_demands w) e ⊆ asked (walk_demands w') e;
  grows_unrouted : walk_unrouted w ⊆ walk_unrouted w';
  grows_discovered : walk_discovered w ⊆ walk_discovered w';
  grows_covered v : covered w v → covered w' v;
}.

#[local] Instance grows_preorder : PreOrder grows.
Proof.
  split; [by split|]. intros w w' w'' [Hd Hu Hs Hc] [Hd' Hu' Hs' Hc'].
  split; [intros e x Hx; by apply Hd', Hd|by etrans|by etrans|auto].
Qed.

Lemma accounted_visit_grows w w' v : grows w w' → accounted_visit w v → accounted_visit w' v.
Proof.
  intros [Hd Hu Hs Hc] (Hun & He & Hv). split_and!; [|intros e Hin; by apply Hd, He|auto].
  intros E. destruct (Hun E). auto.
Qed.

Lemma accounted_grows w w' d : grows w w' → accounted w d → accounted w' d.
Proof.
  intros Hg [Hn Ha]. split; [by apply Hg|]. intros Ho. by eapply accounted_visit_grows, Ha.
Qed.

Lemma discover_sound n w : named n → walk_sound w → walk_sound (discover n w).
Proof.
  intros Hn [(? & ? & ?) ? ? ? ? Hd]. split; simpl; try done.
  - split_and!; [done..|by apply (bs_insert_sorted PackageName_cmp)].
  - intros x [->|?]%(elem_of_bs_insert PackageName_cmp); [done|auto].
Qed.

Lemma unroute_sound n w : stranded n → walk_sound w → walk_sound (unroute n w).
Proof.
  intros Hn [(? & ? & ?) ? ? ? Hu ?]. split; simpl; try done.
  - split_and!; [done|by apply (bs_insert_sorted PackageName_cmp)|done].
  - intros x [->|?]%(elem_of_bs_insert PackageName_cmp); [done|auto].
Qed.

Lemma route_sound v w : needed v → walk_sound w → walk_sound (route v (entries_of v) w).
Proof.
  intros Hv [(? & ? & ?) Hp ? Hd ? ?]. split; simpl; try done.
  - split_and!; [by apply demand_inserts_wf|done..].
  - intros v' [->|?]%elem_of_cons; auto.
  - intros e n [[He ->]|?]%asked_demand_inserts; [by exists v|auto].
Qed.

Lemma discover_grows n w : grows w (discover n w).
Proof.
  split; simpl; try done. intros x Hx. apply (elem_of_bs_insert PackageName_cmp); by right.
Qed.
Lemma unroute_grows n w : grows w (unroute n w).
Proof.
  split; simpl; try done. intros x Hx. apply (elem_of_bs_insert PackageName_cmp); by right.
Qed.
Lemma route_grows v entries w : grows w (route v entries w).
Proof.
  split; simpl; try done.
  - intros e n Hn. apply asked_demand_inserts. by right.
  - intros v' [Hv|Hv]; [left; by right|by right].
Qed.

Lemma elem_of_discover n w : n ∈ walk_discovered (discover n w).
Proof. apply (elem_of_bs_insert PackageName_cmp); by left. Qed.
Lemma elem_of_unroute n w : n ∈ walk_unrouted (unroute n w).
Proof. apply (elem_of_bs_insert PackageName_cmp); by left. Qed.

(** A visit that is routed. *)
Lemma route_accounted v w : entries_of v ≠ [] → accounted_visit (route v (entries_of v) w) v.
Proof.
  intros Hne. split_and!; [done|..].
  - intros e He. apply asked_demand_inserts. by left.
  - intros _. left. by left.
Qed.

(** ** Absorbing dependencies *)

Record absorbs (promote : bool) (ds : list DeclaredDependency) (w w' : DemandWalk) : Prop := {
  absorbs_sound : walk_sound w';
  absorbs_grows : grows w w';
  absorbs_accounted d : d ∈ ds → wanted promote d = true → accounted w' d;
  absorbs_visited : walk_visited w' = walk_visited w;
  absorbs_pending : length (walk_pending w') ≤ length (walk_pending w) + length ds;
}.

Lemma absorbs_nil promote w : walk_sound w → absorbs promote [] w w.
Proof. intros Hw. split; [done|done|by intros d ?%elem_of_nil|done|lia]. Qed.

Lemma absorbs_app promote ds ds' w w' w'' :
  absorbs promote ds w w' → absorbs promote ds' w' w'' → absorbs promote (ds ++ ds') w w''.
Proof.
  intros [? Hg Ha Hv Hp] [? Hg' Ha' Hv' Hp']. split; [done|by etrans|..].
  - intros d [Hd|Hd]%elem_of_app Hw; [by eapply accounted_grows, Ha|by apply Ha'].
  - congruence.
  - rewrite length_app. lia.
Qed.

Lemma demand_dependency_absorbs promote w d :
  walk_sound w → (wanted promote d = true → mentioned d) →
  absorbs promote [d] w (demand_dependency repositories direct_releases promote w d).
Proof.
  intros Hw Hm. unfold demand_dependency. destruct (wanted promote d) eqn:Ewanted; simpl.
  2: { split; try done; [|simpl; lia]. intros d' ->%list_elem_of_singleton. congruence. }
  specialize (Hm eq_refl).
  assert (walk_sound (discover (dependency_name d) w)) as Hd.
  { apply discover_sound; [|done]. right. by exists d. }
  pose proof (discover_grows (dependency_name d) w) as Hg.
  destruct (overridden d) eqn:Eover.
  { split; try done; [|simpl; lia]. intros d' ->%list_elem_of_singleton _.
    split; [apply elem_of_discover|congruence]. }
  destruct (entries_of (dependency_visit d)) as [|entry entries] eqn:Eent.
  - split; [|by etrans; [|apply unroute_grows]| |done|simpl; lia].
    + apply unroute_sound; [|done]. right. by exists d.
    + intros d' ->%list_elem_of_singleton _. split; [apply elem_of_discover|]. intros _.
      unfold accounted_visit. rewrite Eent. split_and!; [|by intros ? ?%elem_of_nil|done].
      intros _. split; [apply elem_of_unroute|apply elem_of_discover].
  - assert (entries_of (dependency_visit d) ≠ []) as Hne by by rewrite Eent.
    rewrite <-Eent. split; [|by etrans; [|apply route_grows]| |done|simpl; lia].
    + apply route_sound; [|done]. by apply needed_dependency.
    + intros d' ->%list_elem_of_singleton _. split; [apply elem_of_discover|]. intros _.
      by apply route_accounted.
Qed.

Lemma demand_dependencies_absorb promote ds w :
  walk_sound w → (∀ d, d ∈ ds → wanted promote d = true → mentioned d) →
  absorbs promote ds w (foldl (demand_dependency repositories direct_releases promote) w ds).
Proof.
  revert w. induction ds as [|d ds IH]; intros w Hw Hm; simpl; [by apply absorbs_nil|].
  eapply (absorbs_app _ [d]).
  - apply demand_dependency_absorbs; [done|]. apply Hm. by left.
  - apply IH; [|intros d' Hd'; apply Hm; by right].
    eapply absorbs_sound, (demand_dependency_absorbs promote w d); [done|]. apply Hm. by left.
Qed.

(** ** One visit *)

(** The load of a demanded pair did not fail, an absence apart. *)
Definition loads (entry : nat) (package : PackageName) : Prop :=
  match answers entry package with
  | Ok _ => True
  | Err error => load_error_category error = NotFound
  end.

Definition fails_with (error : CandidateLoadError) : Prop :=
  ∃ entry package, demanded entry package ∧ answers entry package = Err error ∧
    load_error_category error ≠ NotFound.

(** What the loader promises: an answer that does not depend on its state, for the
    pairs that are demanded; [I] is what its loads keep. *)
Variable I : DemandSource → Prop.
Hypothesis answered : ∀ entry package, demanded entry package →
  triple I (demand_load entry package)
    (λ candidates s, answers entry package = Ok candidates ∧ I s)
    (λ error s, answers entry package = Err error ∧ I s).

Lemma demand_entry_absorbs v entry w :
  needed v → entry ∈ entries_of v → walk_sound w →
  triple I (demand_entry repositories direct_releases v w entry)
    (λ w' s, (loads entry (visit_package v) ∧
              absorbs (visit_suggests v) (loaded_dependencies v entry) w w') ∧ I s)
    (λ error s, fails_with error ∧ I s).
Proof.
  intros Hv He Hw. assert (demanded entry (visit_package v)) as Hd by by exists v.
  unfold demand_entry. eapply triple_outcome_match; [by apply answered|..].
  - intros candidates. apply triple_pure. intros Ha. apply triple_ret'. intros s Hs.
    split; [|done]. split; [unfold loads; by rewrite Ha|].
    assert (foldl (λ w candidate, foldl (demand_dependency repositories direct_releases
              (visit_suggests v)) w (release_dependencies candidate)) w candidates
            = foldl (demand_dependency repositories direct_releases (visit_suggests v)) w
                (loaded_dependencies v entry)) as ->.
    { unfold loaded_dependencies. rewrite Ha. clear. revert w.
      induction candidates as [|c l IH]; intros w; simpl; [done|]. by rewrite foldl_app, IH. }
    apply demand_dependencies_absorb; [done|]. intros d Hin Hwanted. by eapply mentioned_loaded.
  - intros error. apply triple_pure. intros Ha. case_bool_decide as Hc.
    + apply triple_ret'. intros s Hs. split; [|done].
      unfold loads, loaded_dependencies. rewrite Ha. split; [done|]. by apply absorbs_nil.
    + apply triple_err. intros s Hs. split; [|done]. by exists entry, (visit_package v).
Qed.

Lemma demand_entries_absorb v entries w :
  needed v → entries ⊆ entries_of v → walk_sound w →
  triple I (st_try_fold (demand_entry repositories direct_releases v) w entries)
    (λ w' s, (Forall (λ entry, loads entry (visit_package v)) entries ∧
              absorbs (visit_suggests v) (entries ≫= loaded_dependencies v) w w') ∧ I s)
    (λ error s, fails_with error ∧ I s).
Proof.
  intros Hv. revert w. induction entries as [|entry entries IH]; intros w Hsub Hw; simpl.
  - apply triple_ret'. intros s Hs. split; [|done]. split; [done|by apply absorbs_nil].
  - eapply triple_bind; [apply demand_entry_absorbs; [done|set_solver|done]|].
    intros w'. apply triple_pure. intros [Hl Ha]. eapply triple_weaken.
    + apply (IH w'); [set_solver|by eapply absorbs_sound].
    + done.
    + intros w'' s [[Hls Has] Hs]. split; [|done]. split; [by constructor|]. by eapply absorbs_app.
    + done.
Qed.

(** Every visit that was made is complete. *)
Definition walk_complete (w : DemandWalk) : Prop := ∀ k b, (k, b) ∈ walk_visited w →
  k.1 ∈ walk_discovered w ∧
  ∀ entry, entry ∈ entries_of (mk_Visit k.1 k.2 b) →
    loads entry k.1 ∧
    ∀ d, d ∈ loaded_dependencies (mk_Visit k.1 k.2 b) entry → wanted b d = true → accounted w d.

Definition seeds_accounted (w : DemandWalk) : Prop := ∀ root, root ∈ roots →
  (∀ v, registry_visit root v → accounted_visit w v) ∧
  (∀ release d, direct_release root release → d ∈ release_dependencies release →
     wanted (promotes root) d = true → accounted w d).

Record walk_inv (w : DemandWalk) : Prop := {
  inv_sound : walk_sound w;
  inv_complete : walk_complete w;
  inv_seeds : seeds_accounted w;
}.

Lemma seeds_grow w w' : grows w w' → seeds_accounted w → seeds_accounted w'.
Proof.
  intros Hg Hs root Hr. destruct (Hs root Hr) as [Hv Hd]. split.
  - intros v Hreg. by eapply accounted_visit_grows, Hv.
  - intros release d ? ? ?. by eapply accounted_grows, (Hd release d).
Qed.

Lemma complete_grows w w' k b :
  grows w w' → walk_complete w → (k, b) ∈ walk_visited w →
  k.1 ∈ walk_discovered w' ∧
  ∀ entry, entry ∈ entries_of (mk_Visit k.1 k.2 b) →
    loads entry k.1 ∧
    ∀ d, d ∈ loaded_dependencies (mk_Visit k.1 k.2 b) entry → wanted b d = true → accounted w' d.
Proof.
  intros Hg Hc Hin. destruct (Hc k b Hin) as [Hd He]. split; [by apply Hg|].
  intros entry Hentry. destruct (He entry Hentry) as [Hl Ha]. split; [done|].
  intros d ? ?. by eapply accounted_grows, Ha.
Qed.

(** The popped visit was made before. *)
Lemma skip_inv v rest w strongest :
  walk_inv w → walk_pending w = v :: rest →
  hm_get (visit_key v) (walk_visited w) = Some strongest →
  (strongest || negb (visit_suggests v)) = true → walk_inv (pop rest w).
Proof.
  intros [Hs Hc Hseeds] Hp Hk Hb.
  assert (grows w (pop rest w)) as Hg.
  { split; try done. intros v' [Hv|Hv]; [|by right]. rewrite Hp in Hv.
    apply elem_of_cons in Hv as [->|Hv]; [|by left]. right. exists strongest. split; [done|].
    intros E. rewrite E in Hb. by destruct strongest. }
  split; [|intros k b Hin; by eapply complete_grows|by eapply seeds_grow].
  destruct Hs as [? Hpend ? ? ? ?]. split; try done. intros v' Hv'. apply Hpend. rewrite Hp. by right.
Qed.

(** The state in which the candidates of a visit are loaded. *)
Definition opened (v : Visit) (rest : list Visit) (w : DemandWalk) : DemandWalk :=
  discover (visit_package v) (set_visited v (pop rest w)).

(** Nothing is known of the visit, or only that it was made without its Suggests. *)
Definition unvisited (v : Visit) (w : DemandWalk) : Prop :=
  match hm_get (visit_key v) (walk_visited w) with
  | Some strongest => (strongest || negb (visit_suggests v)) = false
  | None => True
  end.

Lemma opened_grows v rest w :
  walk_pending w = v :: rest → unvisited v w → grows w (opened v rest w).
Proof.
  intros Hp Hu. etrans; [|apply discover_grows]. split; try done.
  unfold covered. simpl. intros v' Hv.
  destruct Hv as [Hv|(b & Hb & Hbs)].
  - rewrite Hp in Hv. apply elem_of_cons in Hv as [->|Hv]; [|by left]. right.
    exists (visit_suggests v). split; [by apply hm_get_insert_eq|done].
  - right. destruct (decide (visit_key v ≈ visit_key v')) as [Hk|Hk].
    + exists (visit_suggests v). split; [by apply hm_get_insert_eq|]. intros Hs.
      unfold unvisited in Hu. rewrite (hm_get_proper _ _ Hk _ _ eq_refl), Hb in Hu. specialize (Hbs Hs) as ->. done.
    + exists b. split; [|done]. by rewrite hm_get_insert_ne.
Qed.

Lemma opened_sound v rest w :
  walk_pending w = v :: rest → walk_sound w → walk_sound (opened v rest w).
Proof.
  intros Hp [Hwf Hpend Hvis Hd Hu Hs]. assert (needed v) as Hv by (apply Hpend; rewrite Hp; by left).
  apply discover_sound; [by apply needed_named|]. split; try done; simpl.
  - intros v' Hv'. apply Hpend. rewrite Hp. by right.
  - intros k b [[Hk ->]|Hin]%hm_insert_in; [|by apply Hvis].
    apply source_with_entries in Hk as ->; [|by apply needed_entries]. by destruct v.
Qed.

(** The popped visit is made. *)
Lemma expand_inv v rest w :
  walk_inv w → walk_pending w = v :: rest → unvisited v w →
  triple I (expand_visit repositories direct_releases v (pop rest w))
    (λ w' s, (walk_inv w' ∧ walk_visited w' = walk_visited (opened v rest w) ∧
              length (walk_pending w') ≤
                length rest + length (entries_of v ≫= loaded_dependencies v)) ∧ I s)
    (λ error s, fails_with error ∧ I s).
Proof.
  intros [Hs Hc Hseeds] Hp Hu.
  assert (needed v) as Hv by (apply (sound_pending w Hs); rewrite Hp; by left).
  pose proof (needed_entries v Hv) as Hne. unfold expand_visit.
  fold (opened v rest w). pose proof (opened_grows v rest w Hp Hu) as Hg.
  pose proof (demand_entries_absorb v (entries_of v) (opened v rest w) Hv (reflexivity _)
                (opened_sound v rest w Hp Hs)) as Ht.
  destruct (entries_of v) as [|entry entries] eqn:Eent; [done|]. rewrite <-Eent in *.
  eapply triple_weaken; [exact Ht|done| |done].
  intros w' s [[Hl [Hs' Hg' Ha Hv' Hlen]] HI]. split; [|done]. split_and!; [|done|done].
  assert (grows w w') as Hww by by etrans. split; [done| |by eapply seeds_grow].
  intros k b Hin. rewrite Hv' in Hin. apply hm_insert_in in Hin as [[Hk ->]|Hin].
  - apply source_with_entries in Hk as ->; [|done]. simpl. split.
    { apply Hg'. apply elem_of_discover. }
    intros e He. destruct v as [p c b]. simpl in *. split; [by eapply Forall_forall in Hl|].
    intros d Hd Hwd. apply Ha; [|done]. apply list_elem_of_bind. by exists e.
  - by apply (complete_grows w w').
Qed.

(** ** The loop *)

(** The candidates there are; so the walk meets finitely many packages. *)
Variable stock : list PackageRelease.
Hypothesis stocked : ∀ entry package candidates,
  answers entry package = Ok candidates → candidates ⊆ stock.

Definition universe : list (PackageName * DependencySourceConstraint) :=
  (roots ≫= λ root, match intent_source root with
                    | ManifestRegistry repository => [(intent_name root, root_source repository)]
                    | _ => []
                    end) ++
  ((λ d, visit_key (dependency_visit d)) <$>
     ((direct_releases.*2 ++ stock) ≫= release_dependencies)).

Lemma needed_universe v : needed v → visit_key v ∈ universe.
Proof.
  revert v. apply (needed_mutual (λ v, visit_key v ∈ universe)
    (λ d, visit_key (dependency_visit d) ∈ universe)).
  - intros root v Hr (_ & repository & Hsrc & ->) _. apply elem_of_app. left.
    apply list_elem_of_bind. exists root. rewrite Hsrc. split; [by left|done].
  - intros d _ Hd _. done.
  - intros root release d Hr [_ Hdirect] Hd _. apply elem_of_app. right.
    apply list_elem_of_fmap. exists d. split; [done|]. apply list_elem_of_bind. exists release.
    split; [done|]. apply elem_of_app. left. apply list_elem_of_fmap.
    apply bt_get_in in Hdirect as (k & _ & Hin). by exists (k, release).
  - intros v entry d _ _ _ Hd _. apply elem_of_app. right. apply list_elem_of_fmap. exists d.
    split; [done|]. unfold loaded_dependencies in Hd. destruct (answers _ _) as [l|] eqn:Ha;
      [|by apply elem_of_nil in Hd].
    apply list_elem_of_bind in Hd as (release & Hd & Hrel). apply list_elem_of_bind.
    exists release. split; [done|]. apply elem_of_app. right. by apply (stocked _ _ _ Ha).
Qed.

(** How often a key can still be visited, and what a visit can push. *)
Definition remaining (w : DemandWalk) (k : PackageName * DependencySourceConstraint) : nat :=
  match hm_get k (walk_visited w) with None => 2 | Some false => 1 | Some true => 0 end.
Definition pushes (k : PackageName * DependencySourceConstraint) : nat :=
  let v := mk_Visit k.1 k.2 false in length (entries_of v ≫= loaded_dependencies v).
Definition rank (w : DemandWalk) : nat :=
  length (walk_pending w) + sum_list_with (λ k, remaining w k * pushes k) universe.

Lemma expand_rank v rest w w' :
  walk_pending w = v :: rest → needed v → unvisited v w →
  walk_visited w' = walk_visited (opened v rest w) →
  length (walk_pending w') ≤ length rest + length (entries_of v ≫= loaded_dependencies v) →
  rank w' < rank w.
Proof.
  intros Hp Hv Hu Hvis Hlen. unfold rank. rewrite Hp. simpl.
  assert (length (entries_of v ≫= loaded_dependencies v) = pushes (visit_key v)) as Hpush by by destruct v.
  assert (∀ k, remaining w' k ≤ remaining w k) as Hle.
  { intros k. unfold remaining. rewrite Hvis. unfold opened, discover, set_visited, pop. simpl.
    destruct (decide (visit_key v ≈ k)) as [Hk|Hk].
    - rewrite (hm_get_insert_eq _ _ _ _ Hk). unfold unvisited in Hu.
      rewrite (hm_get_proper _ _ Hk _ _ eq_refl) in Hu.
      destruct (hm_get k _) as [[]|], (visit_suggests v); simpl in *; (done || lia).
    - by rewrite hm_get_insert_ne. }
  assert (remaining w' (visit_key v) + 1 ≤ remaining w (visit_key v)) as Hone.
  { unfold remaining. rewrite Hvis. unfold opened, discover, set_visited, pop. simpl.
    rewrite hm_get_insert_eq by done. unfold unvisited in Hu.
    destruct (hm_get (visit_key v) _) as [[]|], (visit_suggests v); simpl in *; (done || lia). }
  pose proof (sum_list_with_drop (λ k, remaining w' k * pushes k) (λ k, remaining w k * pushes k)
    universe (visit_key v) (pushes (visit_key v))) as Hsum. simpl in Hsum.
  specialize (Hsum (λ k, Nat.mul_le_mono_r _ _ _ (Hle k)) (needed_universe v Hv)).
  assert (remaining w' (visit_key v) * pushes (visit_key v) + pushes (visit_key v)
    ≤ remaining w (visit_key v) * pushes (visit_key v)) as Hdrop by nia. specialize (Hsum Hdrop). lia.
Qed.

Lemma pop_rank v rest w : walk_pending w = v :: rest → rank w = S (rank (pop rest w)).
Proof. intros Hp. unfold rank. by rewrite Hp. Qed.

Lemma demand_loop_inv fuel w :
  walk_inv w → rank w ≤ fuel →
  triple I (demand_loop repositories direct_releases fuel w)
    (λ r s, (∃ w', r = Some w' ∧ walk_inv w' ∧ walk_pending w' = []) ∧ I s)
    (λ error s, fails_with error ∧ I s).
Proof.
  revert w. induction fuel as [|fuel IH]; intros w Hinv Hrank; simpl;
    destruct (walk_pending w) as [|v rest] eqn:Hp.
  - apply triple_ret'. intros s Hs. split; [|done]. by exists w.
  - unfold rank in Hrank. rewrite Hp in Hrank. simpl in Hrank. lia.
  - apply triple_ret'. intros s Hs. split; [|done]. by exists w.
  - assert (needed v) as Hv by (apply (sound_pending w (inv_sound w Hinv)); rewrite Hp; by left).
    assert (unvisited v w → triple I
      (let! w' := expand_visit repositories direct_releases v (pop rest w) in
       demand_loop repositories direct_releases fuel w')
      (λ r s, (∃ w', r = Some w' ∧ walk_inv w' ∧ walk_pending w' = []) ∧ I s)
      (λ error s, fails_with error ∧ I s)) as Hexpand.
    { intros Hu. eapply triple_bind; [by eapply expand_inv|]. intros w'. apply triple_pure.
      intros (Hinv' & Hvis & Hlen). apply IH; [done|].
      pose proof (expand_rank v rest w w' Hp Hv Hu Hvis Hlen). lia. }
    unfold demand_visit. unfold unvisited in Hexpand. simpl walk_visited.
    destruct (hm_get (visit_key v) (walk_visited w)) as [strongest|] eqn:Hk; [|by apply Hexpand].
    destruct (strongest || negb (visit_suggests v)) eqn:Hb; [|by apply Hexpand].
    eapply triple_bind; [apply triple_ret|]. intros w'. apply triple_pure. intros ->.
    apply IH; [by eapply skip_inv|]. rewrite (pop_rank v rest w Hp) in Hrank. lia.
Qed.

(** ** The seeds *)

Lemma accounted_visit_discover n w v : accounted_visit w v → accounted_visit (discover n w) v.
Proof. apply accounted_visit_grows, discover_grows. Qed.

Lemma registry_visit_fun root v v' : registry_visit root v → registry_visit root v' → v = v'.
Proof. intros (_ & r & Hr & ->) (_ & r' & Hr' & ->). congruence. Qed.

Lemma demand_root_ok w root :
  walk_sound w → root ∈ roots →
  let w' := demand_root repositories direct_releases w root in
  walk_sound w' ∧ grows w w' ∧ walk_visited w' = walk_visited w ∧
  (∀ v, registry_visit root v → accounted_visit w' v) ∧
  (∀ release d, direct_release root release → d ∈ release_dependencies release →
     wanted (promotes root) d = true → accounted w' d).
Proof.
  intros Hw Hr. unfold demand_root.
  destruct (intent_source root) as [repository|url selector sub| |] eqn:Hsrc.
  - destruct (is_remote_root root) eqn:Hrem; simpl.
    2: { split_and!; try done; [intros v [? _]; congruence|].
         intros ? ? [(? & ? & ? & ?) _]. congruence. }
    set (v := mk_Visit (intent_name root) (root_source repository) (promotes root)).
    assert (registry_visit root v) as Hv by (split; [done|by exists repository]).
    assert (∀ release d, direct_release root release → d ∈ release_dependencies release →
      wanted (promotes root) d = true → ∀ w', accounted w' d) as Hno.
    { intros ? ? [(? & ? & ? & ?) _]. congruence. }
    destruct (entries_of v) as [|entry entries] eqn:Eent.
    + assert (grows w (unroute (intent_name root) (discover (intent_name root) w))) as Hg
        by (etrans; [apply discover_grows|apply unroute_grows]).
      split_and!; [|done|done| |naive_solver].
      * apply unroute_sound; [left; by exists root, v|]. apply discover_sound; [|done].
        left; by exists root, v.
      * intros v' Hv'. rewrite <-(registry_visit_fun _ _ _ Hv Hv'). unfold accounted_visit.
        rewrite Eent. split_and!; [|by intros ? ?%elem_of_nil|done]. intros _.
        split; [apply elem_of_unroute|apply elem_of_discover].
    + assert (entries_of v ≠ []) as Hne by by rewrite Eent. rewrite <-Eent.
      split_and!; [|apply route_grows|done| |naive_solver].
      * apply route_sound; [|done]. by eapply needed_root.
      * intros v' Hv'. rewrite <-(registry_visit_fun _ _ _ Hv Hv'). by apply route_accounted.
  - assert (∀ w' v, registry_visit root v → accounted_visit w' v) as Hno.
    { intros ? ? (_ & ? & ? & _). congruence. }
    destruct (bt_get PackageName_cmp (intent_name root) direct_releases) as [release|] eqn:Hdirect.
    + assert (direct_release root release) as Hrel by (split; [by exists url, selector, sub|done]).
      destruct (demand_dependencies_absorb (promotes root) (release_dependencies release) w Hw)
        as [? ? Ha ? _].
      { intros d Hd Hwd. by eapply mentioned_direct. }
      split_and!; [done..|auto|]. intros release' d [_ Hdirect'] Hd Hwd.
      rewrite Hdirect in Hdirect'. injection Hdirect' as <-. by apply Ha.
    + split_and!; [done..|auto|]. intros release' d [_ Hdirect']. congruence.
  - split_and!; try done; [intros ? (_ & ? & ? & _)|intros ? ? [(? & ? & ? & ?) _]]; congruence.
  - split_and!; try done; [intros ? (_ & ? & ? & _)|intros ? ? [(? & ? & ? & ?) _]]; congruence.
Qed.

Lemma demand_roots_inv : walk_inv (foldl (demand_root repositories direct_releases) empty_walk roots).
Proof.
  assert (∀ l w, (∀ root, root ∈ l → root ∈ roots) → walk_sound w →
    let w' := foldl (demand_root repositories direct_releases) w l in
    walk_sound w' ∧ grows w w' ∧ walk_visited w' = walk_visited w ∧
    ∀ root, root ∈ l →
      (∀ v, registry_visit root v → accounted_visit w' v) ∧
      (∀ release d, direct_release root release → d ∈ release_dependencies release →
         wanted (promotes root) d = true → accounted w' d)) as Hfold.
  { induction l as [|root l IH]; intros w Hl Hw; simpl.
    { split_and!; [done..|]. by intros root ?%elem_of_nil. }
    destruct (demand_root_ok w root Hw) as (Hw' & Hg & Hvis & Hreg & Hdir); [apply Hl; by left|].
    destruct (IH (demand_root repositories direct_releases w root)) as (Hw'' & Hg' & Hvis' & Hl');
      [intros root' Hr'; apply Hl; by right|done|].
    split_and!; [done|by etrans|congruence|]. intros root' [->|Hin]%elem_of_cons; [|by apply Hl'].
    split.
    - intros v Hv. eapply accounted_visit_grows; [done|]. by apply Hreg.
    - intros release d ? ? ?. eapply accounted_grows; [done|]. by eapply Hdir. }
  destruct (Hfold roots empty_walk) as (Hw & _ & Hvis & Hseeds); [done|..].
  - split; simpl; try by intros ? ?%elem_of_nil.
    + split_and!; [split; constructor|constructor..].
    + by intros ? ? ?%elem_of_nil.
    + by intros ? ? ?%elem_of_nil.
  - split; [done| |done]. intros k b Hin. rewrite Hvis in Hin. by apply elem_of_nil in Hin.
Qed.

(** ** The closure *)

(** A needed visit was made, and what it needs is asked. *)
Definition done_with (w : DemandWalk) (v : Visit) : Prop :=
  (∃ b, (visit_key v, b) ∈ walk_visited w ∧ (visit_suggests v = true → b = true)) ∧
  ∀ e, e ∈ entries_of v → visit_package v ∈ asked (walk_demands w) e.

Lemma accounted_done w v :
  walk_pending w = [] → entries_of v ≠ [] → accounted_visit w v → done_with w v.
Proof.
  intros Hp Hne (_ & Hd & Hc). split; [|done].
  destruct (Hc Hne) as [Hv|(b & Hb & Hs)]; [rewrite Hp in Hv; by apply elem_of_nil in Hv|].
  apply hm_get_in in Hb as (k & Hk & Hin). apply source_with_entries in Hk as ->; [|done].
  by exists b.
Qed.

Lemma wanted_stronger b b' d : (b = true → b' = true) → wanted b d = true → wanted b' d = true.
Proof.
  unfold wanted. intros Hb. destruct (declared_kind d); simpl; try done.
  rewrite !andb_true_iff. intros [? ?]. auto.
Qed.

Lemma closure_reached w :
  walk_inv w → walk_pending w = [] →
  (∀ v, needed v → done_with w v) ∧ (∀ d, mentioned d → accounted w d).
Proof.
  intros [Hs Hc Hseeds] Hp. apply needed_mentioned_ind.
  - intros root v Hr Hv Hne. apply accounted_done; [done..|]. by apply (Hseeds root Hr).
  - intros d _ [_ Ha] [Ho Hne]. apply accounted_done; [done..|]. by apply Ha.
  - intros root release d Hr Hdirect Hd Hw. destruct (Hseeds root Hr) as [_ Hrel]. by eapply Hrel.
  - intros v entry d _ [(b & Hin & Hb) _] He Hd Hw. destruct (Hc _ _ Hin) as [_ Hload].
    destruct v as [p c b0]. simpl in *. destruct (Hload entry He) as [_ Ha].
    apply Ha; [done|]. by eapply wanted_stronger.
Qed.

Lemma walk_plan_for w :
  walk_inv w → walk_pending w = [] →
  plan_for (walk_plan w) ∧ ∀ entry package, demanded entry package → loads entry package.
Proof.
  intros Hinv Hp. destruct (closure_reached w Hinv Hp) as [Hneeded Hmentioned].
  destruct Hinv as [[(Hwf & Hus & Hds) _ _ Hd Hu Hn] Hc Hseeds].
  assert (∀ v, needed v → visit_package v ∈ walk_discovered w) as Hdisc.
  { intros v Hv. destruct (Hneeded v Hv) as [(b & Hin & _) _]. by apply (Hc _ _ Hin). }
  split; [split; try done|].
  - intros e n. split; [apply Hd|]. intros (v & Hv & <- & He). by apply (Hneeded v Hv).
  - intros n. split; [apply Hu|].
    intros [(root & v & Hr & Hreg & <- & E)|(d & Hm & <- & Ho & E)].
    + by apply (Hseeds root Hr).
    + destruct (Hmentioned d Hm) as [_ Ha]. by apply Ha.
  - intros n. split; [apply Hn|].
    intros [(root & v & Hr & Hreg & <-)|(d & Hm & <-)]; [|by destruct (Hmentioned d Hm)].
    destruct (decide (entries_of v = [])) as [E|Hne].
    { destruct (Hseeds root Hr) as [Hv _]. by apply (Hv v Hreg). }
    apply Hdisc. by eapply needed_root.
  - intros e p (v & Hv & <- & He). destruct (Hneeded v Hv) as [(b & Hin & _) _].
    destruct (Hc _ _ Hin) as [_ Hload]. destruct v as [p c b0]. by apply (Hload e He).
Qed.

(** C18: The plan is the closure of the roots under declared dependencies: an entry is
    asked for the packages it may provide that are reached from a root, a package
    without an entry is reported, and every package that is met is listed, once and in order.
    The loader is asked for nothing else, whatever its state is, and with enough fuel the walk
    ends, with a plan when no load that is demanded fails for another reason than
    an absence, and otherwise with one of those failures.  The demands that open
    the repositories first are demands of the plan. *)
Theorem resolve_repository_demands_spec :
  (∀ entry package,
     package ∈ asked (initial_repository_demands_with_direct repositories roots direct_releases) entry →
     demanded entry package) ∧
  ∃ bound, ∀ fuel, bound ≤ fuel →
  triple I (resolve_repository_demands_with_direct repositories direct_releases fuel roots)
    (λ r s, (∃ plan, r = Some plan ∧ plan_for plan ∧
               ∀ entry package, demanded entry package → loads entry package) ∧ I s)
    (λ error s, fails_with error ∧ I s).
Proof.
  split; [apply initial_demanded|].
  exists (rank (foldl (demand_root repositories direct_releases) empty_walk roots)).
  intros fuel Hfuel. unfold resolve_repository_demands_with_direct.
  eapply triple_bind; [apply demand_loop_inv; [apply demand_roots_inv|done]|].
  intros r. apply triple_pure. intros (w & -> & Hinv & Hp). apply triple_ret'. intros s Hs.
  split; [|done]. destruct (walk_plan_for w Hinv Hp) as [Hplan Hloads]. by exists (walk_plan w).
Qed.
End closure.
