(* ===== verification/Catalog.v ===== *)
(** * The CRAN catalog ([rsolve-provider/src/cran/catalog/mod.rs], [catalog/import.rs])

    Records of a package index become validated observations: strictly, where one
    bad record rejects the index, or leniently, where it is set aside with its
    reason.  The catalog holds the releases of the observations.  The theorems are
    in [CatalogLaws]. *)

From S2P Require Import Prelude RustStd Collections Externals Text Format Versions Names Publication.
From S2P Require Import Identity Constraints Digest Metadata Description.

Definition CRAN_NAMESPACE : string := "cran".
Definition SOURCE_CHANNEL : string := "source".

(** ** Scopes and records *)

Inductive CranCatalogRecordScope := Root | RecommendedOverlay (runtime : RPackageVersion).

Definition CranCatalogRecordScope_eq (s t : CranCatalogRecordScope) : bool :=
  match s, t with
  | Root, Root => true
  | RecommendedOverlay v, RecommendedOverlay w => v =?= w
  | _, _ => false
  end.
#[export] Instance req_CranCatalogRecordScope : PartialEq CranCatalogRecordScope :=
  CranCatalogRecordScope_eq.
#[export] Instance req_CranCatalogRecordScope_equivalence : RustEq CranCatalogRecordScope.
Proof. solve_rust_eq CranCatalogRecordScope_eq. Qed.

Definition is_root (scope : CranCatalogRecordScope) : bool :=
  match scope with Root => true | RecommendedOverlay _ => false end.

Inductive CranCatalogRecordContext := PackagesIndex | DescriptionFile.

(** An index, a package and the fields. *)
Definition CatalogRecord : Type := nat * option string * DescriptionFields.

Notation ProviderIdentityKey := (PackageName * RPackageVersion * CranCatalogRecordScope)%type
  (only parsing).

Inductive CranRecordError :=
| MissingField (field : string)
| DuplicateField (field : string)
| InvalidPackageName (error : PackageNameError)
| InvalidVersion (error : RPackageVersionError)
| UnexpectedPackage (expected actual : string)
| InvalidPath (value diagnostic : string)
| RecordPublicationDate (value diagnostic : string)
| RecordMetadata (error : ReleaseMetadataError)
| RecordDependency (error : string)
| DependencyEntry (field entry : string) (source : DependencyParseError)
| Domain (error : PackageReleaseError).

Definition CranRecordError_fmt `{UnicodeTables} (e : CranRecordError) : string :=
  match e with
  | MissingField field => "missing required field " +:+ field
  | DuplicateField field => "duplicate field " +:+ field
  | InvalidPackageName error => PackageNameError_fmt error
  | InvalidVersion error => RPackageVersionError_fmt error
  | UnexpectedPackage expected actual =>
    "archive row belongs to package " +:+ actual +:+ ", expected " +:+ expected
  | InvalidPath value diagnostic =>
    "invalid Path value " +:+ debug_str value +:+ ": " +:+ diagnostic
  | RecordPublicationDate value diagnostic =>
    "invalid Published value " +:+ debug_str value +:+ ": " +:+ diagnostic
  | RecordMetadata error => ReleaseMetadataError_fmt error
  | RecordDependency error => "invalid dependency: " +:+ error
  | DependencyEntry field entry source =>
    "invalid " +:+ field +:+ " entry " +:+ debug_str entry +:+ ": "
      +:+ DependencyParseError_fmt source
  | Domain error => PackageReleaseError_fmt error
  end.

Definition map_description_error (error : DescriptionError) : CranRecordError :=
  match error with
  | DescMissingField field => MissingField field
  | DescDuplicateField field => DuplicateField field
  | DescInvalidPackageName error => InvalidPackageName error
  | DescInvalidVersion error => InvalidVersion error
  | DescInvalidMetadata error => RecordMetadata error
  | InvalidPublicationDate value diagnostic => RecordPublicationDate value diagnostic
  | DescInvalidDependency error => RecordDependency error
  | DescDependency field entry source => DependencyEntry field entry source
  end.

Definition classify_path (value : string) : result CranCatalogRecordScope CranRecordError :=
  let segments := str_split (byte_is 47) value in
  let version := nth 0 segments "" in
  let suffix := nth 1 segments "" in
  if bool_decide (2 < length segments) || bool_decide (suffix ≠ "Recommended")
     || bool_decide (version = "")
  then Err (InvalidPath value "expected <R version>/Recommended")
  else
    let? runtime := map_err (λ error, InvalidPath value
                       ("invalid Recommended runtime version: " +:+ RPackageVersionError_fmt error))
                      (RPackageVersion_parse_bare version) in
    Ok (RecommendedOverlay runtime).

(** [required_field] of this file: the same search as in [Description]. *)
Definition catalog_field (fields : DescriptionFields) (name : string) : result string CranRecordError :=
  ok_or (MissingField name) (field fields name).

Definition is_identity_field (normalized : string) : bool :=
  bool_decide (normalized = "package" ∨ normalized = "version" ∨ normalized = "path").

(** The set of names seen so far is a [BTreeSet]. *)
Fixpoint identity_duplicates (names : list string) (fields : DescriptionFields) :
    result unit CranRecordError :=
  match fields with
  | [] => Ok tt
  | (name, _) :: fields =>
    let normalized := to_ascii_lowercase name in
    if negb (is_identity_field normalized) then identity_duplicates names fields
    else if bool_decide (normalized ∈ names) then Err (DuplicateField name)
    else identity_duplicates (normalized :: names) fields
  end.
Definition reject_identity_duplicates (fields : DescriptionFields) : result unit CranRecordError :=
  identity_duplicates [] fields.

Definition path_scope (context : CranCatalogRecordContext) (fields : DescriptionFields) :
    result CranCatalogRecordScope CranRecordError :=
  match context with
  | PackagesIndex => match field fields "Path" with Some path => classify_path path | None => Ok Root end
  | DescriptionFile => Ok Root
  end.

Definition provider_identity_from_fields (fields : DescriptionFields)
    (context : CranCatalogRecordContext) : result ProviderIdentityKey CranRecordError :=
  let? _ := reject_identity_duplicates fields in
  let? version_text := catalog_field fields "Version" in
  let? version := map_err InvalidVersion (RPackageVersion_parse (str_trim version_text)) in
  let? package_text := catalog_field fields "Package" in
  let? package := map_err InvalidPackageName (PackageName_new (str_trim package_text)) in
  let? scope := path_scope context fields in
  Ok (package, version, scope).

(** ** Observations *)

Section catalog.
Context `{CivilDateTime, Sha2, UnicodeTables}.

Definition cran_identity (package : PackageName) (version : RPackageVersion) : ReleaseIdentity :=
  mk_ReleaseIdentity package (RegistryRelease (mk_Identifier CRAN_NAMESPACE) version).

(** The distribution every record stands for. *)
Definition source_distribution : Distribution :=
  mk_Distribution (mk_Identifier CRAN_NAMESPACE) (mk_Identifier SOURCE_CHANNEL) None []
    (mk_DistributionMetadata []).

Definition observation_from_fields_with_context (fields : DescriptionFields)
    (context : CranCatalogRecordContext) : result ReleaseObservation CranRecordError :=
  let? parsed := map_err map_description_error (parse_description_fields fields) in
  let package := description_package parsed in
  let version := description_version parsed in
  let? _ := path_scope context fields in
  Ok {| observed_identity := cran_identity package version;
        observed_package := package;
        observed_version := version;
        observed_release_metadata := description_metadata parsed;
        observed_publication := description_publication parsed;
        observed_dependencies := description_dependencies parsed;
        observed_distributions := [source_distribution] |}.

Definition metadata_field (observation : ReleaseObservation) (name : string) : option string :=
  snd <$> List.find (λ f, eq_ignore_ascii_case f.1 name)
            (release_fields (observed_release_metadata observation)).

(** The [expect] is not reached: the path was classified when the record was parsed. *)
Definition observation_scope (observation : ReleaseObservation)
    (context : CranCatalogRecordContext) : CranCatalogRecordScope :=
  match metadata_field observation "Path" with
  | None => Root
  | Some path =>
    match context with
    | PackagesIndex => match classify_path path with Ok scope => scope | Err _ => Root end
    | DescriptionFile => Root
    end
  end.

Record CranCatalogObservation := mk_CranCatalogObservation {
  catalog_record_index : nat;
  catalog_package : PackageName;
  catalog_fields : DescriptionFields;
  catalog_release : PackageRelease;
  catalog_scope : CranCatalogRecordScope;
}.

Record CranArchiveReleaseRejection := mk_CranArchiveReleaseRejection {
  rejection_record_index : nat;
  rejection_package : option PackageName;
  rejection_version : option RPackageVersion;
  rejection_scope : option CranCatalogRecordScope;
  rejection_fields : DescriptionFields;
  rejection_error : CranRecordError;
}.

Record CranProviderObservationProjection := mk_CranProviderObservationProjection {
  projection_observations : list CranCatalogObservation;
  projection_rejections : list CranArchiveReleaseRejection;
}.

(** ** Diagnostics *)

Record CranDiagnostic := mk_CranDiagnostic {
  diagnostic_record_index : nat;
  diagnostic_package : option string;
  diagnostic_error : CranRecordError;
}.

Definition CranDiagnostic_fmt (d : CranDiagnostic) : string :=
  match diagnostic_package d with
  | Some package => "record " +:+ nat_to_string (diagnostic_record_index d) +:+ " (" +:+ package
                      +:+ "): " +:+ CranRecordError_fmt (diagnostic_error d)
  | None => "record " +:+ nat_to_string (diagnostic_record_index d) +:+ ": "
              +:+ CranRecordError_fmt (diagnostic_error d)
  end.

Definition rejection_diagnostic (rejection : CranArchiveReleaseRejection) : CranDiagnostic :=
  mk_CranDiagnostic (rejection_record_index rejection)
    (PackageName_as_str <$> rejection_package rejection) (rejection_error rejection).

Inductive CranCatalogError :=
| Dcf (error : DcfError)
| Semantic (diagnostics : list CranDiagnostic).

Definition CranCatalogError_diagnostics (e : CranCatalogError) : list CranDiagnostic :=
  match e with Semantic diagnostics => diagnostics | Dcf _ => [] end.

(** The first diagnostic, and how many more there are. *)
Definition and_additional (diagnostics : list CranDiagnostic) : string :=
  if Nat.ltb 1 (length diagnostics)
  then ", and " +:+ nat_to_string (length diagnostics - 1) +:+ " additional diagnostic(s)" else "".

Definition CranCatalogError_fmt (e : CranCatalogError) : string :=
  match e with
  | Dcf error => "invalid CRAN PACKAGES DCF: " +:+ DcfError_fmt error
  | Semantic [] => "semantic CRAN PACKAGES records are invalid"
  | Semantic ((first :: _) as diagnostics) =>
    nat_to_string (length diagnostics) +:+ " semantic CRAN PACKAGES record(s) are invalid: "
      +:+ CranDiagnostic_fmt first +:+ and_additional diagnostics
  end.

(** ** Catalogs *)

Record CranCatalog := mk_CranCatalog { catalog_entries : list (PackageName * list PackageRelease) }.

(** [candidates.entry(name).or_default().push(release)] *)
Definition push_release (m : list (PackageName * list PackageRelease)) (release : PackageRelease) :
    list (PackageName * list PackageRelease) :=
  let name := ReleaseIdentity_name (release_identity release) in
  bt_insert PackageName_cmp name (default [] (bt_get PackageName_cmp name m) ++ [release]) m.

(** The catalog of the releases of an aggregation. *)
Definition catalog_of (releases : list PackageRelease) : CranCatalog :=
  mk_CranCatalog
    (prod_map id (sort_by (cmp_on release_version RPackageVersion_cmp))
       <$> foldl push_release [] releases).

(** The [expect] is not reached for observations of one projection. *)
Definition observe_root (aggregation : ReleaseAggregation) (observation : CranCatalogObservation) :
    ReleaseAggregation :=
  if is_root (catalog_scope observation) then
    match observe_release aggregation (catalog_release observation) with
    | Ok aggregation => aggregation
    | Err _ => aggregation
    end
  else aggregation.

Definition from_provider_observations (observations : list CranCatalogObservation) : CranCatalog :=
  catalog_of (aggregation_releases (foldl observe_root ReleaseAggregation_new observations)).

Definition candidates (self : CranCatalog) (name : PackageName) : list PackageRelease :=
  default [] (bt_get PackageName_cmp name (catalog_entries self)).
Definition candidates_named (self : CranCatalog) (name : string) : option (list PackageRelease) :=
  match PackageName_new name with Ok name => Some (candidates self name) | Err _ => None end.
Definition packages (self : CranCatalog) : list (PackageName * list PackageRelease) :=
  catalog_entries self.
Definition package_count (self : CranCatalog) : nat := length (catalog_entries self).
Definition candidate_count (self : CranCatalog) : nat :=
  sum_list_with (λ entry, length entry.2) (catalog_entries self).
Definition catalog_is_empty (self : CranCatalog) : bool := bool_decide (catalog_entries self = []).
End catalog.
