(* ===== verification/CatalogImport.v ===== *)
(** * Reading package indexes ([rsolve-provider/src/cran/catalog], [archive_index.rs])

    The strict and the lenient reading of records, the two index formats they
    are applied to, and what rejects a whole archive index. *)

From S2P Require Import Prelude RustStd Collections Externals Text Format Versions Names Publication.
From S2P Require Import Identity Constraints Digest Metadata Description Catalog.

(** ** [rd_rds]: the package matrix of an RDS file

    The errors are what their [Display] shows. *)

Class PackagesRds := {
  ReadOptions : Type;
  ReadOptions_default : ReadOptions;
  assume_utf8 : ReadOptions → ReadOptions;
  RObject : Type;
  from_bytes_with_options : list byte → ReadOptions → result RObject string;
  PackagesMatrix : Type;
  PackagesMatrix_from_object : RObject → result PackagesMatrix string;
  column_names : PackagesMatrix → list string;
  has_column : PackagesMatrix → string → bool;
  MatrixRow : Type;
  matrix_rows : PackagesMatrix → list MatrixRow;
  row_index : MatrixRow → nat;
  row_get : MatrixRow → string → option (option string);
}.

Section import.
Context `{CivilDateTime, Sha2, UnicodeTables}.

(** [HashMap<usize, Vec<(String, String)>>], collected from the records. *)
Definition fields_by_index (records : list CatalogRecord) : list (nat * DescriptionFields) :=
  foldl (λ m record, hm_insert record.1.1 record.2 m) [] records.

(** The [expect] of a missing index is not reached. *)
Definition fields_at (m : list (nat * DescriptionFields)) (index : nat) : DescriptionFields :=
  default [] (hm_get index m).

(** ** The strict reading *)

Definition ParsedCatalogObservation : Type :=
  nat * option string * result ReleaseObservation CranRecordError.
Definition SelectedCatalogObservation : Type := nat * option string * ReleaseObservation.

Record Selection := mk_Selection {
  selection_diagnostics : list CranDiagnostic;
  selection_selected : list SelectedCatalogObservation;
  selection_aggregation : ReleaseAggregation;
}.

Definition select_step (context : CranCatalogRecordContext) (s : Selection)
    (parsed : ParsedCatalogObservation) : Selection :=
  let '(record_index, package, observation) := parsed in
  match observation with
  | Ok observation =>
    if negb (is_root (observation_scope observation context)) then s
    else match observe (selection_aggregation s) observation with
         | Err error =>
           mk_Selection (selection_diagnostics s ++
                           [mk_CranDiagnostic record_index package (Domain error)])
             (selection_selected s) (selection_aggregation s)
         | Ok aggregation =>
           mk_Selection (selection_diagnostics s)
             (selection_selected s ++ [(record_index, package, observation)]) aggregation
         end
  | Err error =>
    mk_Selection (selection_diagnostics s ++ [mk_CranDiagnostic record_index package error])
      (selection_selected s) (selection_aggregation s)
  end.

Definition select_and_aggregate (observations : list ParsedCatalogObservation)
    (context : CranCatalogRecordContext) :
    result (list SelectedCatalogObservation * ReleaseAggregation) (list CranDiagnostic) :=
  let s := foldl (select_step context) (mk_Selection [] [] ReleaseAggregation_new) observations in
  if bool_decide (selection_diagnostics s ≠ []) then Err (selection_diagnostics s)
  else Ok (selection_selected s, selection_aggregation s).

Definition catalog_from_observations_with_context (observations : list ParsedCatalogObservation)
    (context : CranCatalogRecordContext) : result CranCatalog (list CranDiagnostic) :=
  let? (_, aggregation) := select_and_aggregate observations context in
  Ok (catalog_of (aggregation_releases aggregation)).

Definition parse_record (context : CranCatalogRecordContext) (record : CatalogRecord) :
    ParsedCatalogObservation :=
  let '(record_index, package, fields) := record in
  (record_index, package, observation_from_fields_with_context fields context).

(** The [expect] of [try_from] is not reached: see [CatalogLaws]. *)
Definition observed_record (m : list (nat * DescriptionFields)) (context : CranCatalogRecordContext)
    (parsed : ParsedCatalogObservation) : option CranCatalogObservation :=
  let '(record_index, _, observation) := parsed in
  match observation with
  | Err _ => None
  | Ok observation =>
    match PackageRelease_try_from observation with
    | Err _ => None
    | Ok release =>
      Some {| catalog_record_index := record_index;
              catalog_package := ReleaseIdentity_name (observed_identity observation);
              catalog_fields := fields_at m record_index;
              catalog_release := release;
              catalog_scope := observation_scope observation context |}
    end
  end.

Definition validated_observations_from_fields_with_context (records : list CatalogRecord)
    (context : CranCatalogRecordContext) : result (list CranCatalogObservation) CranCatalogError :=
  let m := fields_by_index records in
  let parsed := parse_record context <$> records in
  let? _ := map_err Semantic (select_and_aggregate parsed context) in
  Ok (omap (observed_record m context) parsed).

Definition validated_observations_from_fields (records : list CatalogRecord) :
    result (list CranCatalogObservation) CranCatalogError :=
  validated_observations_from_fields_with_context records PackagesIndex.

(** ** The lenient reading *)

Record Projection := mk_Projection {
  kept : list CranCatalogObservation;
  rejected : list CranArchiveReleaseRejection;
  kept_aggregation : ReleaseAggregation;
  seen_identities : list (PackageName * RPackageVersion * CranCatalogRecordScope * bool);
}.

Definition reject (p : Projection) (rejection : CranArchiveReleaseRejection) : Projection :=
  mk_Projection (kept p) (rejected p ++ [rejection]) (kept_aggregation p) (seen_identities p).

(** [seen_identities.insert(key, rejected)] *)
Definition mark (p : Projection) (key : PackageName * RPackageVersion * CranCatalogRecordScope)
    (was_rejected : bool) : Projection :=
  mk_Projection (kept p) (rejected p) (kept_aggregation p)
    (hm_insert key was_rejected (seen_identities p)).

Definition DUPLICATE_IDENTITY : CranRecordError := Domain (ConflictingMetadata "duplicate identity").

(** The hints of a record whose identity is not valid. *)
Definition hinted_rejection (record_index : nat) (fields : DescriptionFields)
    (context : CranCatalogRecordContext) (error : CranRecordError) : CranArchiveReleaseRejection :=
  {| rejection_record_index := record_index;
     rejection_package :=
       value ← field fields "Package";
       match PackageName_new (str_trim value) with Ok name => Some name | Err _ => None end;
     rejection_version :=
       value ← field fields "Version";
       match RPackageVersion_parse (str_trim value) with Ok version => Some version | Err _ => None end;
     rejection_scope := match path_scope context fields with Ok scope => Some scope | Err _ => None end;
     rejection_fields := fields;
     rejection_error := error |}.

Definition identified_rejection (record_index : nat) (fields : DescriptionFields)
    (package : PackageName) (identity : PackageName * RPackageVersion * CranCatalogRecordScope)
    (error : CranRecordError) : CranArchiveReleaseRejection :=
  {| rejection_record_index := record_index; rejection_package := Some package;
     rejection_version := Some identity.1.2; rejection_scope := Some identity.2;
     rejection_fields := fields; rejection_error := error |}.

(** A record that is rejected for what it says of a valid identity: a duplicate, when
    the identity was seen. *)
Definition reject_seen (p : Projection) (record_index : nat) (fields : DescriptionFields)
    (package : PackageName) (identity : PackageName * RPackageVersion * CranCatalogRecordScope)
    (error : CranRecordError) : Projection :=
  reject (mark p identity true)
    (identified_rejection record_index fields package identity
       (match hm_get identity (seen_identities p) with
        | Some _ => DUPLICATE_IDENTITY
        | None => error
        end)).

Definition keep (p : Projection) (observation : CranCatalogObservation)
    (aggregation : ReleaseAggregation) : Projection :=
  mk_Projection (kept p ++ [observation]) (rejected p) aggregation (seen_identities p).

(** A release of a valid record; the identity of the record is that of the release. *)
Definition project_release (m : list (nat * DescriptionFields)) (p : Projection)
    (record_index : nat) (fields : DescriptionFields)
    (identity : PackageName * RPackageVersion * CranCatalogRecordScope)
    (package : PackageName) (scope : CranCatalogRecordScope) (release : PackageRelease) : Projection :=
  let observation := mk_CranCatalogObservation record_index package (fields_at m record_index)
                       release scope in
  let was_rejected := hm_get identity (seen_identities p) in
  let p := mark p identity false in
  if bool_decide (was_rejected = Some true)
  then reject p (identified_rejection record_index fields package identity DUPLICATE_IDENTITY)
  else if is_root scope then
    match observe_release (kept_aggregation p) release with
    | Err error => reject p (identified_rejection record_index fields package identity (Domain error))
    | Ok aggregation => keep p observation aggregation
    end
  else keep p observation (kept_aggregation p).

Definition project_record (m : list (nat * DescriptionFields)) (context : CranCatalogRecordContext)
    (expected_package : option PackageName) (p : Projection) (record : CatalogRecord) : Projection :=
  let '(record_index, _, fields) := record in
  match provider_identity_from_fields fields context with
  | Err error => reject p (hinted_rejection record_index fields context error)
  | Ok identity =>
    let unexpected :=
      match expected_package with
      | Some expected =>
        if negb (identity.1.1 =?= expected)
        then Some (UnexpectedPackage (PackageName_as_str expected) (PackageName_as_str identity.1.1))
        else None
      | None => None
      end in
    match unexpected with
    | Some error => reject p (identified_rejection record_index fields identity.1.1 identity error)
    | None =>
      match observation_from_fields_with_context fields context with
      | Err error => reject_seen p record_index fields identity.1.1 identity error
      | Ok observation =>
        let package := ReleaseIdentity_name (observed_identity observation) in
        match PackageRelease_try_from observation with
        | Err error => reject_seen p record_index fields package identity (Domain error)
        | Ok release =>
          project_release m p record_index fields identity package
            (observation_scope observation context) release
        end
      end
    end
  end.

Definition provider_observations_from_fields (records : list CatalogRecord)
    (context : CranCatalogRecordContext) (expected_package : option PackageName) :
    CranProviderObservationProjection :=
  let p := foldl (project_record (fields_by_index records) context expected_package)
             (mk_Projection [] [] ReleaseAggregation_new []) records in
  mk_CranProviderObservationProjection (kept p) (rejected p).

(** ** ALLPACKAGES *)

Definition is_allpackages_transport_field (name : string) : bool :=
  let normalized := to_ascii_lowercase name in
  bool_decide (normalized = "downloadurl") || bool_decide (normalized = "filesize")
  || bool_decide (normalized = "repository") || bool_decide (normalized = "snapshot")
  || has_prefix (bytes "sha256") (bytes normalized).

Definition without_transport (record : CatalogRecord) : CatalogRecord :=
  (record.1, List.filter (λ f, negb (is_allpackages_transport_field f.1)) record.2).

(** The raw fields are put back. *)
Definition restore_observation (raw : list (nat * DescriptionFields)) (o : CranCatalogObservation) :
    CranCatalogObservation :=
  match hm_get (catalog_record_index o) raw with
  | None => o
  | Some fields =>
    mk_CranCatalogObservation (catalog_record_index o) (catalog_package o) fields
      (catalog_release o) (catalog_scope o)
  end.
Definition restore_rejection (raw : list (nat * DescriptionFields)) (r : CranArchiveReleaseRejection) :
    CranArchiveReleaseRejection :=
  match hm_get (rejection_record_index r) raw with
  | None => r
  | Some fields =>
    mk_CranArchiveReleaseRejection (rejection_record_index r) (rejection_package r)
      (rejection_version r) (rejection_scope r) fields (rejection_error r)
  end.

Definition allpackages_observations_from_fields (records : list CatalogRecord) :
    CranProviderObservationProjection :=
  let raw_fields := fields_by_index records in
  let projection := provider_observations_from_fields (without_transport <$> records)
                      PackagesIndex None in
  mk_CranProviderObservationProjection
    (restore_observation raw_fields <$> projection_observations projection)
    (restore_rejection raw_fields <$> projection_rejections projection).

(** ** PACKAGES and DESCRIPTION *)

Definition record_of (entry : nat * DcfRecord) : CatalogRecord :=
  (entry.1, DcfField_value <$> DcfRecord_field entry.2 "Package",
   (λ f, (DcfField_name f, DcfField_value f)) <$> DcfRecord_fields entry.2).

Section dcf.
Context `{Deb822}.

Definition observations_from_dcf (input : list byte) (context : CranCatalogRecordContext) :
    result (list CranCatalogObservation) CranCatalogError :=
  let? document := map_err Dcf (DcfDocument_parse input) in
  validated_observations_from_fields_with_context (record_of <$> indexed (DcfDocument_records document))
    context.

Definition from_packages_with_observations (input : list byte) :
    result (CranCatalog * list CranCatalogObservation) CranCatalogError :=
  let? document := map_err Dcf (DcfDocument_parse input) in
  let? observations := validated_observations_from_fields_with_context
                         (record_of <$> indexed (DcfDocument_records document)) PackagesIndex in
  Ok (from_provider_observations observations, observations).

Definition from_packages (input : list byte) : result CranCatalog CranCatalogError :=
  result_map fst (from_packages_with_observations input).

Definition from_description (input : list byte) : result CranCatalog CranCatalogError :=
  let? document := map_err Dcf (DcfDocument_parse input) in
  map_err Semantic (catalog_from_observations_with_context
    (parse_record DescriptionFile <$> (record_of <$> indexed (DcfDocument_records document)))
    DescriptionFile).

Definition observations_from_description (input : list byte) :
    result (list CranCatalogObservation) CranCatalogError :=
  observations_from_dcf input DescriptionFile.
End dcf.

(** ** Archive indexes *)

Inductive CranArchiveIndexError :=
| Decode (error : string)
| Matrix (error : string)
| MissingColumn (column : string)
| ArchiveSemantic (diagnostics : list CranDiagnostic).

Definition CranArchiveIndexError_fmt (e : CranArchiveIndexError) : string :=
  match e with
  | Decode error => "invalid archive index RDS: " +:+ error
  | Matrix error => "invalid archive index matrix: " +:+ error
  | MissingColumn column => "archive index matrix is missing required column " +:+ column
  | ArchiveSemantic [] => "semantic archive index records are invalid"
  | ArchiveSemantic ((first :: _) as diagnostics) =>
    nat_to_string (length diagnostics) +:+ " semantic archive index record(s) are invalid: "
      +:+ CranDiagnostic_fmt first +:+ and_additional diagnostics
  end.

Inductive CranArchiveIndexProviderError :=
| Structural (error : CranArchiveIndexError)
| IdentityInvalid (diagnostics : list CranDiagnostic)
| AllSemantic (diagnostics : list CranDiagnostic).

Definition provider_diagnostics (prefix : string) (diagnostics : list CranDiagnostic) : string :=
  match diagnostics with
  | [] => prefix +:+ ": no diagnostics"
  | first :: _ => prefix +:+ ": " +:+ CranDiagnostic_fmt first +:+ and_additional diagnostics
  end.

Definition CranArchiveIndexProviderError_fmt (e : CranArchiveIndexProviderError) : string :=
  match e with
  | Structural error => CranArchiveIndexError_fmt error
  | IdentityInvalid diagnostics =>
    provider_diagnostics "archive index identity records are invalid" diagnostics
  | AllSemantic diagnostics =>
    provider_diagnostics "all archive index releases have invalid semantics" diagnostics
  end.

(** Whether a rejection is about whose row it is, and so rejects the index. *)
Definition provider_rejection_is_hard (expected_package : PackageName)
    (rejection : CranArchiveReleaseRejection) : bool :=
  if bool_decide (rejection_package rejection = None)
     || negb (if rejection_scope rejection then true else false) then true
  else if negb (if rejection_version rejection then true else false) then
    negb (match rejection_error rejection, rejection_package rejection, rejection_scope rejection with
          | InvalidVersion _, Some package, Some Root => package =?= expected_package
          | _, _, _ => false
          end)
  else
    match rejection_error rejection with
    | MissingField field => bool_decide (field = "Package" ∨ field = "Version")
    | InvalidPackageName _ | InvalidVersion _ | UnexpectedPackage _ _ => true
    | DuplicateField field => is_identity_field (to_ascii_lowercase field)
    | Domain (InvalidDependency _) => false
    | DependencyEntry _ _ _ => false
    | InvalidPath _ _ => true
    | Domain _ => true
    | _ => false
    end.

Record CranArchiveIndexProviderProjection := mk_CranArchiveIndexProviderProjection {
  archive_catalog : CranCatalog;
  archive_observations : list CranCatalogObservation;
  archive_rejections : list CranArchiveReleaseRejection;
}.

Section rds.
Context `{PackagesRds}.

Definition provider_rds_read_options : ReadOptions := assume_utf8 ReadOptions_default.

(** The matrix, with its two required columns. *)
Definition read_matrix (input : list byte) (options : ReadOptions) :
    result PackagesMatrix CranArchiveIndexError :=
  let? object := map_err Decode (from_bytes_with_options input options) in
  let? matrix := map_err Matrix (PackagesMatrix_from_object object) in
  if negb (has_column matrix "Package") then Err (MissingColumn "Package")
  else if negb (has_column matrix "Version") then Err (MissingColumn "Version")
  else Ok matrix.

Definition row_value (row : MatrixRow) (column : string) : option string := mjoin (row_get row column).

Definition row_record (matrix : PackagesMatrix) (row : MatrixRow) : CatalogRecord :=
  (row_index row, row_value row "Package",
   omap (λ column, (λ value, (column, value)) <$> row_value row column) (column_names matrix)).

Definition from_archive_index_rds_with_observations (input : list byte) (options : ReadOptions) :
    result (CranCatalog * list CranCatalogObservation) CranArchiveIndexError :=
  let? matrix := read_matrix input options in
  let? observations :=
    map_err (λ error, match error with
                      | Dcf _ => ArchiveSemantic []
                      | Semantic diagnostics => ArchiveSemantic diagnostics
                      end)
      (validated_observations_from_fields (row_record matrix <$> matrix_rows matrix)) in
  Ok (from_provider_observations observations, observations).

Definition from_archive_index_rds (input : list byte) : result CranCatalog CranArchiveIndexError :=
  result_map fst (from_archive_index_rds_with_observations input ReadOptions_default).

Definition provider_archive_index_rds (input : list byte) (expected_package : PackageName) :
    result CranArchiveIndexProviderProjection CranArchiveIndexProviderError :=
  let? matrix := map_err Structural (read_matrix input provider_rds_read_options) in
  let projection := provider_observations_from_fields (row_record matrix <$> matrix_rows matrix)
                      PackagesIndex (Some expected_package) in
  let observations := projection_observations projection in
  let rejections := projection_rejections projection in
  let hard := List.filter (provider_rejection_is_hard expected_package) rejections in
  if bool_decide (hard ≠ []) then Err (IdentityInvalid (rejection_diagnostic <$> hard))
  else if bool_decide (observations = [] ∧ rejections ≠ [])
  then Err (AllSemantic (rejection_diagnostic <$> rejections))
  else Ok (mk_CranArchiveIndexProviderProjection (from_provider_observations observations)
             observations rejections).
End rds.
End import.
