(* ===== verification/CatalogLaws.v ===== *)
(** * What the readings of a package index establish *)

From S2P Require Import Prelude RustStd Collections Externals Text Format Versions Names Publication.
From S2P Require Import Identity Constraints Digest Metadata Description Catalog CatalogImport.

(** ** Fields *)

Lemma identity_duplicates_ok names seen fields :
  (∀ n, n ∈ names → n ∈ seen) → reject_duplicates seen fields = Ok tt →
  identity_duplicates names fields = Ok tt.
Proof.
  revert names seen. induction fields as [|[n v] fields IH]; intros names seen Hsub; simpl; [done|].
  case_bool_decide as Hn; [done|]. intros Hf.
  destruct (is_identity_field _); simpl; [|apply (IH _ (to_ascii_lowercase n :: seen)); [set_solver|done]].
  rewrite bool_decide_eq_false_2 by (intros ?%Hsub; done).
  apply (IH _ (to_ascii_lowercase n :: seen)); [set_solver|done].
Qed.

Lemma catalog_field_required fields name value :
  required_field fields name = Ok value → catalog_field fields name = Ok value.
Proof. unfold required_field, catalog_field. destruct (field fields name); [by intros [= ->]|done]. Qed.

(** Without duplicates, the passthrough metadata has the fields that are not reserved. *)
Lemma metadata_lookup fields n :
  NoDup (field_key <$> fields) → Description.is_reserved_field n = false →
  snd <$> List.find (λ f, eq_ignore_ascii_case f.1 n)
            (bt_from_iter str_cmp (List.filter (λ f, negb (Description.is_reserved_field f.1)) fields))
  = field fields n.
Proof.
  intros Hnd Hres. set (l := bt_from_iter _ _).
  assert (NoDup (List.filter (λ f, negb (Description.is_reserved_field f.1)) fields).*1) as Hndf.
  { apply (NoDup_fmap_1 to_ascii_lowercase). rewrite <-list_fmap_compose.
    eapply sublist_NoDup; [exact Hnd|]. apply fmap_sublist, filter_sublist_bool. }
  assert (∀ q, q ∈ l ↔ q ∈ fields ∧ Description.is_reserved_field q.1 = false) as Hl.
  { intros q. unfold l. rewrite (elem_of_bt_from_iter str_cmp) by done.
    rewrite elem_of_filter_bool, negb_true_iff. done. }
  change (snd <$> List.find (λ f, eq_ignore_ascii_case f.1 n) l) with (field l n).
  destruct (field l n) as [v|] eqn:E.
  - apply field_in in E as (m & [Hin _]%Hl & Hm). symmetry. by eapply field_some.
  - symmetry. destruct (field fields n) as [v|] eqn:F; [|done]. exfalso.
    apply field_in in F as (m & Hin & Hm).
    assert ((m, v) ∈ l) as Hml.
    { apply Hl. split; [done|]. unfold Description.is_reserved_field in *. simpl. by rewrite Hm. }
    unfold field in E. destruct (List.find _ l) as [f|] eqn:Hf; [done|].
    apply list_elem_of_In in Hml. apply (find_none _ _ Hf) in Hml. simpl in Hml.
    apply not_true_iff_false in Hml. by rewrite eq_ignore_ascii_case_iff in Hml.
Qed.

Section laws.
Context `{CivilDateTime, Sha2, UnicodeTables}.

(** ** A record that can be parsed *)

Lemma parse_declared_wf name kind entry d :
  parse_declared name kind entry = Ok d → dependency_wf d.
Proof.
  unfold parse_declared, parse_dependency_entry.
  intros (parsed & Hp%map_err_ok & Hd%map_err_ok)%result_bind_ok. case_bool_decide; [done|].
  apply result_bind_ok in Hp as ([text constraint] & _ & (n & Hn%map_err_ok & [= <-])%result_bind_ok).
  injection Hd as <-. split; simpl.
  - intros E. unfold PackageName_new in Hn. destruct (bytes (from_utf8 text)) as [|b l] eqn:Hb; [done|].
    split_matches; by rewrite E in Hb.
  - by intros i.
Qed.

Lemma parse_dependency_fields_wf fields l acc ds :
  try_fold (parse_dependency_field fields) acc l = Ok ds →
  Forall dependency_wf acc → Forall dependency_wf ds.
Proof.
  revert acc. induction l as [|[name kind] l IH]; intros acc; simpl; [by intros [= ->]|].
  intros (acc' & Ha & Hl)%result_bind_ok Hacc. apply (IH acc' Hl). unfold parse_dependency_field in Ha.
  destruct (field fields _) as [value|]; [|by injection Ha as <-].
  apply result_bind_ok in Ha as (parsed & Hparsed%try_map_ok & [= <-]).
  apply Forall_app. split; [done|]. apply Forall_forall. intros d Hd.
  apply list_elem_of_lookup in Hd as [i Hi].
  destruct (Forall2_lookup_r _ _ _ _ _ Hparsed Hi) as (e & _ & He). by eapply parse_declared_wf.
Qed.

(** What a parsed record is made of. *)
Record parsed_record (fields : DescriptionFields) (context : CranCatalogRecordContext)
    (o : ReleaseObservation) (scope : CranCatalogRecordScope) : Prop := {
  parsed_identity : provider_identity_from_fields fields context
                      = Ok (observed_package o, observed_version o, scope);
  parsed_cran : observed_identity o = cran_identity (observed_package o) (observed_version o);
  parsed_path : path_scope context fields = Ok scope;
  parsed_scope : observation_scope o context = scope;
  parsed_dependencies : Forall dependency_wf (observed_dependencies o);
  parsed_distributions : observed_distributions o = [source_distribution];
}.

Lemma observation_parsed fields context o :
  observation_from_fields_with_context fields context = Ok o →
  ∃ scope, parsed_record fields context o scope.
Proof.
  unfold observation_from_fields_with_context.
  intros (parsed & Hp%map_err_ok & (scope & Hs & [= <-])%result_bind_ok)%result_bind_ok.
  exists scope. unfold parse_description_fields in Hp.
  apply result_bind_ok in Hp as ([] & Hdup & (vt & Hvt & (v & Hv%map_err_ok & Hp)%result_bind_ok)%result_bind_ok).
  apply result_bind_ok in Hp as (nt & Hnt & (n & Hn%map_err_ok & (pub & _ & Hp)%result_bind_ok)%result_bind_ok).
  apply result_bind_ok in Hp as (ds & Hds & (meta & Hmeta%map_err_ok & [= <-])%result_bind_ok).
  split; simpl; [|done|done| |by eapply parse_dependency_fields_wf|done].
  - unfold provider_identity_from_fields, reject_identity_duplicates.
    rewrite (identity_duplicates_ok [] [] fields) by done. simpl.
    rewrite (catalog_field_required _ _ _ Hvt). simpl. rewrite Hv. simpl.
    rewrite (catalog_field_required _ _ _ Hnt). simpl. rewrite Hn. simpl. by rewrite Hs.
  - apply ReleaseMetadata_new_ok_iff in Hmeta as [-> _]. apply reject_duplicates_spec in Hdup as [Hnd _].
    unfold observation_scope, metadata_field. simpl. rewrite metadata_lookup by done.
    unfold path_scope in Hs. destruct context, (field fields "Path"); simplify_eq/=; [|done..].
    by rewrite Hs.
Qed.

Lemma try_from_parsed fields context o scope :
  parsed_record fields context o scope → ∃ r, PackageRelease_try_from o = Ok r ∧
    release_identity r = cran_identity (observed_package o) (observed_version o) ∧
    release_version r = observed_version o ∧ release_ok r.
Proof.
  intros [_ Hi _ _ Hd Hdist]. unfold PackageRelease_try_from. rewrite Hi. simpl.
  rewrite !req_refl. simpl. rewrite (proj2 (first_invalid_dependency_none 0 _) Hd).
  eexists. split; [done|]. simpl. split_and!; [done|done|].
  assert (Forall distribution_wf [source_distribution]) as Hwf.
  { apply Forall_singleton. split; [constructor|]. unfold fits. vm_compute. done. }
  rewrite Hdist. split.
  - split_and!; simpl; [by intros v [= <-]|done|apply canonicalize_sorted|done].
  - apply Forall_forall. intros d Hd'%elem_of_canonicalize_1. by eapply Forall_forall in Hwf.
Qed.

(** ** The strict reading is the lenient one without rejections *)

(** Both readings so far, with nothing rejected. *)
Record in_step (context : CranCatalogRecordContext) (m : list (nat * DescriptionFields)) (pre : list CatalogRecord)
    (s : Selection) (p : Projection) : Prop := {
  step_diagnostics : selection_diagnostics s = [];
  step_rejected : rejected p = [];
  step_aggregation : selection_aggregation s = kept_aggregation p;
  step_seen : Forall (λ k, k.2 = false) (seen_identities p);
  step_kept : kept p = omap (observed_record m context) (parse_record context <$> pre);
}.

Lemma select_step_dirty context s r :
  selection_diagnostics s ≠ [] → selection_diagnostics (select_step context s r) ≠ [].
Proof.
  destruct r as [[i package] [o|e]]; simpl.
  - destruct (negb _); [done|]. destruct (observe _ o); simpl; [done|]. by destruct (selection_diagnostics s).
  - by destruct (selection_diagnostics s).
Qed.

Lemma project_record_dirty m context expected p r :
  rejected p ≠ [] → rejected (project_record m context expected p r) ≠ [].
Proof.
  intros Hp. assert (∀ p' x, rejected p' = rejected p → rejected (reject p' x) ≠ []) as Hr.
  { intros p' x E. simpl. rewrite E. by destruct (rejected p). }
  destruct r as [[i package] fields]. unfold project_record, reject_seen, project_release. split_matches; by apply Hr.
Qed.

Lemma hm_get_all_false `{PartialEq K} (k : K) m b :
  Forall (λ k, k.2 = false) m → hm_get k m = Some b → b = false.
Proof.
  induction 1 as [|[k0 b0] m Hb _ IH]; simpl in *; [done|]. destruct (k0 =?= k); [congruence|done].
Qed.

Lemma hm_insert_all_false `{PartialEq K} (k : K) m :
  Forall (λ k, k.2 = false) m → Forall (λ k, k.2 = false) (hm_insert k false m).
Proof.
  induction 1 as [|[k0 b0] m Hb Hm IH]; simpl in *; [by repeat constructor|].
  destruct (k0 =?= k); by constructor.
Qed.

Lemma in_step_record context m pre s p r :
  in_step context m pre s p →
  let s' := select_step context s (parse_record context r) in
  let p' := project_record m context None p r in
  in_step context m (pre ++ [r]) s' p' ∨ (selection_diagnostics s' ≠ [] ∧ rejected p' ≠ []).
Proof.
  intros [Hd Hr Ha Hs Hk]. destruct r as [[i package] fields]. simpl.
  destruct (observation_from_fields_with_context fields context) as [o|e] eqn:Ho; simpl.
  2: { right. split; [by destruct (selection_diagnostics s)|].
       destruct (provider_identity_from_fields fields context) as [k|e'] eqn:Hi; simpl;
         by destruct (rejected p). }
  destruct (observation_parsed fields context o Ho) as [scope Hp].
  destruct (try_from_parsed fields context o scope Hp) as (release & Hrel & Hri & _).
  rewrite (parsed_identity _ _ _ _ Hp), (parsed_scope _ _ _ _ Hp). simpl. rewrite Hrel.
  set (obs := mk_CranCatalogObservation i (ReleaseIdentity_name (observed_identity o))
                (fields_at m i) release scope).
  assert (omap (observed_record m context) (parse_record context <$> (pre ++ [(i, package, fields)]))
          = omap (observed_record m context) (parse_record context <$> pre) ++ [obs]) as Hk'.
  { rewrite fmap_app, omap_app. simpl. rewrite Ho. simpl. rewrite Hrel. simpl.
    by rewrite (parsed_scope _ _ _ _ Hp). }
  unfold project_release. rewrite bool_decide_eq_false_2.
  2: { intros E. apply hm_get_all_false in E; done. }
  unfold observe. rewrite Hrel. simpl. destruct (is_root scope); simpl.
  - rewrite Ha. destruct (observe_release (kept_aggregation p) release) as [agg|e] eqn:Hagg; simpl.
    + left. split; [done|done|done|by apply hm_insert_all_false|].
      exact (eq_trans (f_equal (λ l, l ++ [obs]) Hk) (eq_sym Hk')).
    + right. split; [by destruct (selection_diagnostics s)|by destruct (rejected p)].
  - left. split; [done|done|done|by apply hm_insert_all_false|].
    exact (eq_trans (f_equal (λ l, l ++ [obs]) Hk) (eq_sym Hk')).
Qed.

Lemma foldl_keeps {A B} (f : B → A → B) (P : B → Prop) b l :
  (∀ b a, P b → P (f b a)) → P b → P (foldl f b l).
Proof. intros Hf. revert b. induction l; simpl; auto. Qed.

Lemma in_step_fold context m pre s p l :
  in_step context m pre s p →
  let s' := foldl (select_step context) s (parse_record context <$> l) in
  let p' := foldl (project_record m context None) p l in
  in_step context m (pre ++ l) s' p' ∨ (selection_diagnostics s' ≠ [] ∧ rejected p' ≠ []).
Proof.
  revert pre s p. induction l as [|r l IH]; intros pre s p Hsp; simpl; [left; by rewrite app_nil_r|].
  destruct (in_step_record context m pre s p r Hsp) as [Hstep|[Hs Hp]].
  - specialize (IH _ _ _ Hstep). by rewrite <-app_assoc in IH.
  - right. split.
    + apply (foldl_keeps _ (λ s, selection_diagnostics s ≠ [])); [|done].
      intros ? ?. apply select_step_dirty.
    + apply (foldl_keeps _ (λ p, rejected p ≠ [])); [|done].
      intros ? ?. apply project_record_dirty.
Qed.

(** C21: The strict reading of an index accepts it exactly when the lenient one, without
    an expected package, rejects no record, and then both give the same
    observations; otherwise the strict reading reports diagnostics. *)
Theorem strict_reading_is_lenient records context :
  (∀ observations,
     validated_observations_from_fields_with_context records context = Ok observations ↔
     provider_observations_from_fields records context None
       = mk_CranProviderObservationProjection observations []) ∧
  (∀ error, validated_observations_from_fields_with_context records context = Err error →
     ∃ diagnostics, error = Semantic diagnostics ∧ diagnostics ≠ []).
Proof.
  unfold validated_observations_from_fields_with_context, select_and_aggregate,
    provider_observations_from_fields.
  destruct (in_step_fold context (fields_by_index records) [] (mk_Selection [] [] ReleaseAggregation_new)
    (mk_Projection [] [] ReleaseAggregation_new []) records) as [[Hd Hr _ _ Hk]|[Hd Hr]].
  - by split.
  - rewrite Hd, Hr, Hk. rewrite bool_decide_eq_false_2 by naive_solver. simpl.
    split; [|done]. intros obs. split; [by intros [= ->]|by intros [= ->]].
  - rewrite bool_decide_eq_true_2 by done. simpl. split.
    + intros obs. split; [done|]. intros [= _ E]. done.
    + intros e [= <-]. eauto.
Qed.

(** ** The lenient reading *)

Definition identity_of (context : CranCatalogRecordContext) (record : CatalogRecord) :=
  provider_identity_from_fields record.2 context.
Definition reading_of (context : CranCatalogRecordContext) (record : CatalogRecord) :=
  observation_from_fields_with_context record.2 context.

(** The releases the catalog is made of. *)
Definition root_releases (observations : list CranCatalogObservation) : list PackageRelease :=
  catalog_release <$> List.filter (λ o, is_root (catalog_scope o)) observations.

(** An observation says what its record does. *)
Record reads_as (context : CranCatalogRecordContext) (record : CatalogRecord)
    (o : CranCatalogObservation) : Prop := {
  reads_index : catalog_record_index o = record.1.1;
  reads_fields : catalog_fields o = record.2;
  reads_release : ∃ observation, reading_of context record = Ok observation ∧
    PackageRelease_try_from observation = Ok (catalog_release o);
  reads_identity : identity_of context record
    = Ok (catalog_package o, release_version (catalog_release o), catalog_scope o);
  reads_cran : release_identity (catalog_release o)
    = cran_identity (catalog_package o) (release_version (catalog_release o));
  reads_ok : release_ok (catalog_release o);
}.

(** The record has a valid identity, of the expected package. *)
Definition admitted (context : CranCatalogRecordContext) (expected : option PackageName)
    (record : CatalogRecord) (identity : PackageName * RPackageVersion * CranCatalogRecordScope) : Prop :=
  identity_of context record = Ok identity ∧ ∀ e, expected = Some e → identity.1.1 = e.

(** Why a record is set aside, given the records before it and the releases kept. *)
Inductive rejected_for (context : CranCatalogRecordContext) (expected : option PackageName)
    (before : list CatalogRecord) (kept : list PackageRelease) (record : CatalogRecord) :
    CranRecordError → Prop :=
| for_identity error : identity_of context record = Err error →
    rejected_for context expected before kept record error
| for_package identity package : identity_of context record = Ok identity →
    expected = Some package → identity.1.1 ≠ package →
    rejected_for context expected before kept record
      (UnexpectedPackage (PackageName_as_str package) (PackageName_as_str identity.1.1))
| for_reading identity error : admitted context expected record identity →
    reading_of context record = Err error →
    rejected_for context expected before kept record error
| for_duplicate other identity identity' : admitted context expected record identity →
    other ∈ before → identity_of context other = Ok identity' → identity' ≈ identity →
    ((∃ e, reading_of context record = Err e) ∨ (∃ e, reading_of context other = Err e)) →
    rejected_for context expected before kept record DUPLICATE_IDENTITY
| for_conflict identity observation release other error : admitted context expected record identity →
    reading_of context record = Ok observation → PackageRelease_try_from observation = Ok release →
    other ∈ kept → incompatible other release →
    rejected_for context expected before kept record (Domain error).

Lemma rejected_for_mono context expected before kept kept' record error :
  kept ⊆ kept' → rejected_for context expected before kept record error →
  rejected_for context expected before kept' record error.
Proof.
  intros Hsub. destruct 1; [by apply for_identity|by eapply for_package|by eapply for_reading
    |by eapply for_duplicate|eapply for_conflict; eauto].
Qed.

(** The rejection of a record of [records]: it reports what can be read of the record. *)
Definition rejection_of (context : CranCatalogRecordContext) (expected : option PackageName)
    (records : list CatalogRecord) (kept : list PackageRelease) (r : CranArchiveReleaseRejection) :
    Prop :=
  ∃ before record after, records = before ++ record :: after ∧
    r = hinted_rejection record.1.1 record.2 context (rejection_error r) ∧
    rejected_for context expected before kept record (rejection_error r).

(** No two releases of a list are of one identity and in conflict. *)
Definition agree (releases : list PackageRelease) : Prop :=
  ∀ before r after, releases = before ++ r :: after → ∀ x, x ∈ before → ¬ incompatible x r.

Section projection.
Context (m : list (nat * DescriptionFields)) (context : CranCatalogRecordContext)
  (expected : option PackageName).

Definition seen_ok (pre : list CatalogRecord) (p : Projection) : Prop :=
  ∀ k b, (k, b) ∈ seen_identities p → ∃ record k', record ∈ pre ∧
    identity_of context record = Ok k' ∧ k' ≈ k ∧ (b = true → ∃ e, reading_of context record = Err e).

Record proj_inv (pre : list CatalogRecord) (p : Projection) : Prop := {
  inv_sublists : (catalog_record_index <$> kept p) `sublist_of` pre.*1.*1 ∧
                 (rejection_record_index <$> rejected p) `sublist_of` pre.*1.*1;
  inv_indexes : (catalog_record_index <$> kept p) ++ (rejection_record_index <$> rejected p)
                  ≡ₚ pre.*1.*1;
  inv_reads o : o ∈ kept p → ∃ record, record ∈ pre ∧ reads_as context record o ∧
    ∀ e, expected = Some e → catalog_package o = e;
  inv_aggregation : keyed_inv release_identity release_summary (root_releases (kept p))
                      (kept_aggregation p);
  inv_agree : agree (root_releases (kept p));
  inv_catalog : foldl observe_root ReleaseAggregation_new (kept p) = kept_aggregation p;
  inv_rejections r : r ∈ rejected p →
    rejection_of context expected pre (root_releases (kept p)) r;
  inv_seen : seen_ok pre p;
}.

Lemma seen_ok_grows pre p record : seen_ok pre p → seen_ok (pre ++ [record]) p.
Proof.
  intros Hs k b Hin. destruct (Hs k b Hin) as (r & k' & Hr & ?). exists r, k'.
  split; [|done]. apply elem_of_app. by left.
Qed.

Lemma seen_ok_mark pre p record k b :
  seen_ok pre p → identity_of context record = Ok k →
  (b = true → ∃ e, reading_of context record = Err e) → seen_ok (pre ++ [record]) (mark p k b).
Proof.
  intros Hs Hk Hb k' b' [[Hk' ->]|Hin]%hm_insert_in; [|by apply (seen_ok_grows pre p record Hs)].
  exists record, k. split_and!; [|done|by symmetry|done]. apply elem_of_app. right. by left.
Qed.

Lemma inv_reject_step pre p p' record x :
  proj_inv pre p → kept p' = kept p → kept_aggregation p' = kept_aggregation p →
  rejected p' = rejected p ++ [x] → seen_ok (pre ++ [record]) p' →
  x = hinted_rejection record.1.1 record.2 context (rejection_error x) →
  rejected_for context expected pre (root_releases (kept p)) record (rejection_error x) →
  proj_inv (pre ++ [record]) p'.
Proof.
  intros [[Hks Hrs] Hperm Hreads Hagg Hagree Hcat Hrej _] Ek Ea Er Hseen Hx Hfor.
  assert (rejection_record_index x = record.1.1) as Hi by by rewrite Hx.
  split; rewrite ?Ek, ?Ea, ?Er, ?fmap_app; simpl; rewrite ?Hi; try done.
  - split; [by apply sublist_inserts_r|]. by apply sublist_app.
  - rewrite app_assoc. by apply Permutation_app_tail.
  - intros o Ho. destruct (Hreads o Ho) as (r & Hr & ?). exists r. split; [|done].
    apply elem_of_app. by left.
  - intros r [Hr| ->%list_elem_of_singleton]%elem_of_app.
    + destruct (Hrej r Hr) as (before & rec & after & -> & ?). exists before, rec, (after ++ [record]).
      split; [by rewrite <-app_assoc|done].
    + by exists pre, record, [].
Qed.

Lemma root_releases_snoc l o :
  root_releases (l ++ [o]) =
    root_releases l ++ (if is_root (catalog_scope o) then [catalog_release o] else []).
Proof.
  unfold root_releases. rewrite List.filter_app, fmap_app. simpl. by destruct (is_root _).
Qed.

Lemma agree_snoc l r : agree l → (∀ x, x ∈ l → ¬ incompatible x r) → agree (l ++ [r]).
Proof.
  intros Hl Hr before y after E x Hx. destruct after as [|z after _] using rev_ind.
  - apply app_inj_tail in E as [-> ->]. by apply Hr.
  - rewrite app_comm_cons, app_assoc in E. apply app_inj_tail in E as [-> _]. by eapply Hl.
Qed.

Lemma inv_keep_step pre p p' record o agg :
  proj_inv pre p → kept p' = kept p ++ [o] → kept_aggregation p' = agg →
  rejected p' = rejected p → seen_ok (pre ++ [record]) p' → reads_as context record o →
  (∀ e, expected = Some e → catalog_package o = e) →
  (if is_root (catalog_scope o)
   then observe_release (kept_aggregation p) (catalog_release o) = Ok agg
   else agg = kept_aggregation p) →
  proj_inv (pre ++ [record]) p'.
Proof.
  intros [[Hks Hrs] Hperm Hreads Hagg Hagree Hcat Hrej _] Ek Ea Er Hseen Ho He Hobs.
  assert (keyed_inv release_identity release_summary (root_releases (kept p ++ [o])) agg ∧
          agree (root_releases (kept p ++ [o])) ∧
          foldl observe_root ReleaseAggregation_new (kept p ++ [o]) = agg) as (Hagg' & Hagree' & Hcat').
  { rewrite root_releases_snoc, foldl_app. cbn [foldl]. rewrite Hcat. unfold observe_root.
    destruct (is_root (catalog_scope o)); [|rewrite app_nil_r, Hobs; by split_and!].
    pose proof (keyed_insert_spec release_identity merge_consistent release_ok mergeable release_summary
      release_summary_singleton merge_release_summary _ _ (catalog_release o) Hagg (reads_ok _ _ _ Ho)) as Hs.
    change (keyed_insert release_identity merge_consistent (kept_aggregation p) (catalog_release o))
      with (observe_release (kept_aggregation p) (catalog_release o)) in Hs. rewrite Hobs in *.
    destruct Hs as [? ?]. split_and!; [done|by apply agree_snoc|done]. }
  split; rewrite ?Ek, ?Ea, ?Er, ?fmap_app; simpl; rewrite ?(reads_index _ _ _ Ho); try done.
  - split; [by apply sublist_app|by apply sublist_inserts_r].
  - rewrite <-app_assoc, (Permutation_app_comm [_]), app_assoc. by apply Permutation_app_tail.
  - intros o' [Ho'| ->%list_elem_of_singleton]%elem_of_app.
    + destruct (Hreads o' Ho') as (r & Hr & ?). exists r. split; [|done]. apply elem_of_app. by left.
    + exists record. split; [apply elem_of_app; right; by left|done].
  - intros r Hr. destruct (Hrej r Hr) as (before & rec & after & -> & ? & Hfor).
    exists before, rec, (after ++ [record]). split_and!; [by rewrite <-app_assoc|done|].
    eapply rejected_for_mono; [|done]. rewrite root_releases_snoc. set_solver.
Qed.

Lemma identified_hinted i package fields k name e :
  identity_of context (i, package, fields) = Ok k → name = k.1.1 →
  identified_rejection i fields name k e = hinted_rejection i fields context e.
Proof.
  unfold identity_of, provider_identity_from_fields, catalog_field. simpl. intros Hk ->.
  apply result_bind_ok in Hk as ([] & _ & (vt & Hvt & (v & Hv%map_err_ok & Hk)%result_bind_ok)%result_bind_ok).
  apply result_bind_ok in Hk as (nt & Hnt & (n & Hn%map_err_ok & (s & Hs & [= <-])%result_bind_ok)%result_bind_ok).
  unfold identified_rejection, hinted_rejection. simpl. rewrite Hs.
  destruct (field fields "Version"); simplify_eq/=. destruct (field fields "Package"); simplify_eq/=.
  by rewrite Hv, Hn.
Qed.

(** A record of a valid identity that does not say what a release needs. *)
Lemma inv_seen_step pre p i package fields name k error :
  proj_inv pre p → admitted context expected (i, package, fields) k → name = k.1.1 →
  reading_of context (i, package, fields) = Err error →
  proj_inv (pre ++ [(i, package, fields)]) (reject_seen p i fields name k error).
Proof.
  intros Hp [Hk Hexp] Hname He. unfold reject_seen. eapply (inv_reject_step pre p); try done.
  - apply (seen_ok_mark pre p (i, package, fields) k true); [apply Hp|done|]. eauto.
  - by eapply (identified_hinted _ package).
  - simpl. destruct (hm_get k (seen_identities p)) as [b|] eqn:Hg; [|by eapply for_reading].
    apply hm_get_in in Hg as (k' & Hkk & Hin). destruct (inv_seen _ _ Hp k' b Hin) as (r & k'' & Hr & Hrk & Heq & _).
    eapply for_duplicate; [by split|exact Hr|exact Hrk|by etrans|]. left. eauto.
Qed.

Lemma inv_release_step pre p i package fields o scope release :
  proj_inv pre p → fields_at m i = fields → parsed_record fields context o scope →
  observation_from_fields_with_context fields context = Ok o →
  PackageRelease_try_from o = Ok release →
  (∀ e, expected = Some e → observed_package o = e) →
  proj_inv (pre ++ [(i, package, fields)])
    (project_release m p i fields (observed_package o, observed_version o, scope)
       (ReleaseIdentity_name (observed_identity o)) scope release).
Proof.
  intros Hp Hm Hpar Ho Hrel Hexp. set (k := (observed_package o, observed_version o, scope)).
  assert (identity_of context (i, package, fields) = Ok k) as Hk by apply Hpar.
  assert (seen_ok (pre ++ [(i, package, fields)]) (mark p k false)) as Hseen
    by by apply seen_ok_mark; [apply Hp|..].
  destruct (try_from_parsed _ _ _ _ Hpar) as (release' & Hrel' & Hi & Hv & Hok).
  rewrite Hrel in Hrel'. injection Hrel' as <-.
  set (obs := mk_CranCatalogObservation i (ReleaseIdentity_name (observed_identity o))
                (fields_at m i) release scope).
  assert (catalog_package obs = observed_package o) as Hname by (simpl; by rewrite (parsed_cran _ _ _ _ Hpar)).
  assert (reads_as context (i, package, fields) obs) as Hreads.
  { split; try done; [by exists o|by rewrite Hname; simpl; rewrite Hv|by rewrite Hname; simpl; rewrite Hv]. }
  assert (admitted context expected (i, package, fields) k) as Hadm by by split.
  assert (ReleaseIdentity_name (observed_identity o) = k.1.1) as Hkn by apply Hname.
  unfold project_release. fold k obs. case_bool_decide as Hdup.
  - eapply (inv_reject_step pre p); try done; [by eapply (identified_hinted _ package)|]. simpl.
    apply hm_get_in in Hdup as (k' & Hkk & Hin).
    destruct (inv_seen _ _ Hp k' true Hin) as (r & k'' & Hr & Hrk & Heq & He).
    eapply for_duplicate; [exact Hadm|exact Hr|exact Hrk|by etrans|]. right. by apply He.
  - destruct (is_root scope) eqn:Hroot.
    + destruct (observe_release (kept_aggregation (mark p k false)) release) as [agg|e] eqn:Hagg.
      * eapply (inv_keep_step pre p _ _ obs agg); try done; [by rewrite Hname|]. simpl. by rewrite Hroot.
      * eapply (inv_reject_step pre p); try done; [by eapply (identified_hinted _ package)|]. simpl.
        pose proof (keyed_insert_spec release_identity merge_consistent release_ok mergeable release_summary
          release_summary_singleton merge_release_summary _ _ release (inv_aggregation _ _ Hp) Hok) as Hs.
        change (keyed_insert release_identity merge_consistent (kept_aggregation p) release)
          with (observe_release (kept_aggregation (mark p k false)) release) in Hs. rewrite Hagg in Hs.
        destruct Hs as (other & Hin & Hconf). by eapply (for_conflict _ _ _ _ _ k o release other).
    + eapply (inv_keep_step pre p _ _ obs (kept_aggregation p)); try done; [by rewrite Hname|].
      simpl. by rewrite Hroot.
Qed.

Lemma inv_record_step pre p record :
  proj_inv pre p → fields_at m record.1.1 = record.2 →
  proj_inv (pre ++ [record]) (project_record m context expected p record).
Proof.
  intros Hp Hm. destruct record as [[i package] fields]. simpl in Hm. unfold project_record.
  destruct (provider_identity_from_fields fields context) as [k|e] eqn:Hk.
  2: { eapply (inv_reject_step pre p); try done; [by apply seen_ok_grows, Hp|by apply for_identity]. }
  assert (∀ e, expected = Some e → k.1.1 ≠ e →
    proj_inv (pre ++ [(i, package, fields)]) (reject p (identified_rejection i fields k.1.1 k
      (UnexpectedPackage (PackageName_as_str e) (PackageName_as_str k.1.1))))) as Hunexpected.
  { intros e He Hne. eapply (inv_reject_step pre p); try done; [by apply seen_ok_grows, Hp|by eapply (identified_hinted _ package)|].
    by apply for_package. }
  assert ((∀ e, expected = Some e → k.1.1 = e) →
    proj_inv (pre ++ [(i, package, fields)])
      match observation_from_fields_with_context fields context with
      | Ok observation =>
        let name := ReleaseIdentity_name (observed_identity observation) in
        match PackageRelease_try_from observation with
        | Ok release => project_release m p i fields k name (observation_scope observation context) release
        | Err error => reject_seen p i fields name k (Domain error)
        end
      | Err error => reject_seen p i fields k.1.1 k error
      end) as Hgo.
  { intros Hexp. destruct (observation_from_fields_with_context fields context) as [o|e] eqn:Ho;
      [|by apply inv_seen_step; [|split|..]].
    destruct (observation_parsed fields context o Ho) as [scope Hpar].
    destruct (try_from_parsed _ _ _ _ Hpar) as (release & Hrel & _). simpl. rewrite Hrel.
    pose proof (parsed_identity _ _ _ _ Hpar) as Hk'. rewrite Hk in Hk'. injection Hk' as ->.
    rewrite (parsed_scope _ _ _ _ Hpar). by apply inv_release_step. }
  destruct expected as [e|]; [|by apply Hgo].
  destruct (k.1.1 =?= e) eqn:Heq; simpl.
  - apply req_leibniz in Heq. apply Hgo. by intros ? [= <-].
  - apply Hunexpected; [done|]. intros E. subst e. by rewrite req_refl in Heq.
Qed.

Lemma inv_fold_step pre p l :
  proj_inv pre p → Forall (λ record, fields_at m record.1.1 = record.2) l →
  proj_inv (pre ++ l) (foldl (project_record m context expected) p l).
Proof.
  revert pre p. induction l as [|r l IH]; intros pre p Hp Hl; simpl; [by rewrite app_nil_r|].
  apply Forall_cons in Hl as [Hr Hl].
  specialize (IH (pre ++ [r]) _ (inv_record_step pre p r Hp Hr) Hl). by rewrite <-app_assoc in IH.
Qed.

Lemma inv_empty : proj_inv [] (mk_Projection [] [] ReleaseAggregation_new []).
Proof.
  split; simpl; try done; try by intros ? ?%elem_of_nil.
  - by intros [].
  - by intros ? ? ?%elem_of_nil.
Qed.
End projection.

Lemma fields_at_record records record :
  NoDup (records.*1.*1) → record ∈ records →
  fields_at (fields_by_index records) record.1.1 = record.2.
Proof.
  intros Hnd Hin. unfold fields_at, fields_by_index.
  assert (∀ l (acc : list (nat * DescriptionFields)), NoDup (l.*1.*1) → record ∈ l →
    hm_get record.1.1 (foldl (λ m (r : CatalogRecord), hm_insert r.1.1 r.2 m) acc l) = Some record.2) as Hfold.
  { clear. induction l as [|r l IH]; intros acc; csimpl; [by intros _ ?%elem_of_nil|].
    intros [Hr Hnd]%NoDup_cons [<-|Hin]%elem_of_cons; [|by apply IH].
    assert (∀ acc, (∀ r', r' ∈ l → r'.1.1 ≠ record.1.1) →
      hm_get record.1.1 (foldl (λ m (r : CatalogRecord), hm_insert r.1.1 r.2 m) acc l)
        = hm_get record.1.1 acc) as Hkeep.
    { clear. induction l as [|r l IH]; intros acc Hl; simpl; [done|].
      rewrite IH by (intros r' ?; apply Hl; by right). apply hm_get_insert_ne.
      intros E%req_leibniz. apply (Hl r); [by left|done]. }
    rewrite Hkeep; [by apply hm_get_insert_eq|].
    intros r' Hr' E. apply Hr. rewrite <-E. apply list_elem_of_fmap. exists r'.1. split; [done|].
    apply list_elem_of_fmap. by exists r'. }
  exact (f_equal (default []) (Hfold records [] Hnd Hin)).
Qed.

(** The projection of a list of records, and its invariant. *)
Lemma projection_inv records context expected :
  NoDup (records.*1.*1) →
  let p := foldl (project_record (fields_by_index records) context expected)
             (mk_Projection [] [] ReleaseAggregation_new []) records in
  proj_inv context expected records p.
Proof.
  intros Hnd. apply (inv_fold_step (fields_by_index records) context expected [] _ records).
  - apply inv_empty.
  - apply Forall_forall. intros r Hr. by apply fields_at_record.
Qed.

(** C19: The lenient reading keeps or sets aside every record, once and in order.
    What is kept says what its record says, is of the expected package, and agrees with the
    other releases of its identity; a record is set aside only because it has no valid identity,
    belongs to another package, cannot be read, repeats an identity of which some
    record cannot be read, or contradicts a release that is kept. *)
Theorem provider_observations_spec records context expected :
  NoDup (records.*1.*1) →
  let p := provider_observations_from_fields records context expected in
  let kept := projection_observations p in
  let rejected := projection_rejections p in
  (catalog_record_index <$> kept) `sublist_of` records.*1.*1 ∧
  (rejection_record_index <$> rejected) `sublist_of` records.*1.*1 ∧
  (catalog_record_index <$> kept) ++ (rejection_record_index <$> rejected) ≡ₚ records.*1.*1 ∧
  (∀ o, o ∈ kept → ∃ record, record ∈ records ∧ reads_as context record o ∧
     ∀ e, expected = Some e → catalog_package o = e) ∧
  agree (root_releases kept) ∧
  (∀ r, r ∈ rejected → rejection_of context expected records (root_releases kept) r).
Proof.
  intros Hnd. destruct (projection_inv records context expected Hnd) as [[? ?] ? ? _ ? _ ? _].
  by split_and!.
Qed.
End laws.
