(* ===== verification/CatalogIndexLaws.v ===== *)
(** * The catalog of an index, and archive indexes that are accepted *)

From S2P Require Import Prelude RustStd Collections Externals Text Format Versions Names Publication.
From S2P Require Import Identity Constraints Digest Metadata Description Catalog CatalogImport CatalogLaws.

(** ** Grouping *)

Section grouping.
Context `{CivilDateTime, Sha2, UnicodeTables}.

Definition named_releases (name : PackageName) (releases : list PackageRelease) : list PackageRelease :=
  List.filter (λ r, bool_decide (ReleaseIdentity_name (release_identity r) = name)) releases.

Lemma push_releases_get name releases m :
  default [] (bt_get PackageName_cmp name (foldl push_release m releases))
  = default [] (bt_get PackageName_cmp name m) ++ named_releases name releases.
Proof.
  revert m. induction releases as [|r l IH]; intros m; simpl; [by rewrite app_nil_r|]. rewrite IH.
  unfold push_release. destruct (decide (ReleaseIdentity_name (release_identity r) = name)) as [E|E].
  - rewrite (bt_get_insert_eq PackageName_cmp) by (rewrite E; apply (cmp_refl PackageName_cmp)).
    rewrite bool_decide_eq_true_2 by done. subst name. simpl. by rewrite <-app_assoc.
  - rewrite (bt_get_insert_ne PackageName_cmp)
      by (intros Hc; apply (cmp_eq_leibniz PackageName_cmp) in Hc; by symmetry in Hc).
    by rewrite bool_decide_eq_false_2.
Qed.

Lemma bt_get_prod_map {K V W} (c : K → K → comparison) (f : V → W) k (m : list (K * V)) :
  bt_get c k (prod_map id f <$> m) = f <$> bt_get c k m.
Proof. induction m as [|[k' v] m IH]; simpl; [done|]. by destruct (is_eq (c k k')). Qed.

Lemma catalog_of_candidates releases name :
  candidates (catalog_of releases) name
  = sort_by (cmp_on release_version RPackageVersion_cmp) (named_releases name releases).
Proof.
  unfold candidates, catalog_of. simpl. rewrite bt_get_prod_map.
  pose proof (push_releases_get name releases []) as Hg. simpl in Hg. rewrite <-Hg.
  by destruct (bt_get _ _ _).
Qed.

(** ** The releases of an aggregation *)

(** In order, and with different keys, is strictly in order. *)
Lemma sorted_distinct {A K} (c : A → A → comparison) (key : A → K) l :
  (∀ x y, c x y = Eq → key x = key y) → StronglySorted (cmp_le c) l → NoDup (key <$> l) →
  StronglySorted (λ x y, c x y = Lt) l.
Proof.
  intros Hkey. induction 1 as [|x l Hl IH Hx]; [constructor|]. csimpl. intros [Hn Hnd]%NoDup_cons.
  constructor; [by apply IH|]. rewrite Forall_forall in Hx |- *. intros y Hy.
  specialize (Hx y Hy). unfold cmp_le in Hx. destruct (c x y) eqn:E; [|done..].
  exfalso. apply Hn. rewrite (Hkey _ _ E). apply list_elem_of_fmap. eauto.
Qed.

Definition version_key (r : PackageRelease) : list N := Components_iter (version_components (release_version r)).

Lemma cran_identity_eq n v w : v ≈ w → cran_identity n v ≈ cran_identity n w.
Proof.
  intros Hv. unfold cran_identity. apply andb_true_iff. split; [apply req_refl|].
  unfold req, req_Provenance. simpl. exact Hv.
Qed.

(** Every member of an aggregation of CRAN releases has its own name and version. *)
Lemma aggregation_members releases agg k c :
  Forall (λ r, release_identity r = cran_identity (ReleaseIdentity_name (release_identity r))
                                      (release_version r)) releases →
  keyed_inv release_identity release_summary releases agg → (k, c) ∈ agg →
  release_identity c ≈ k ∧ release_summary (releases_of (release_identity c) releases) c ∧
  release_identity c ≈ cran_identity (ReleaseIdentity_name (release_identity c)) (release_version c) ∧
  ∃ r, r ∈ releases ∧ release_identity r ≈ release_identity c.
Proof.
  intros Hcran [Hwf Hinv] Hin. pose proof (hm_in_get k c agg Hwf Hin) as Hg.
  specialize (Hinv k). rewrite Hg in Hinv. destruct Hinv as [Hk Hs].
  assert (release_summary (releases_of (release_identity c) releases) c) as Hsum.
  { unfold releases_of. by rewrite (values_of_proper release_identity (release_identity c) k). }
  split_and!; [done|done|..].
  - destruct Hsum as (_ & Hne & Hl & _). destruct (releases_of _ _) as [|r l] eqn:E; [done|].
    assert (r ∈ releases_of (release_identity c) releases) as Hr by (rewrite E; by left).
    apply elem_of_values_of in Hr as [Hr _]. rewrite Forall_forall in Hcran. pose proof (Hcran r Hr) as Hcr.
    destruct (Hl r ltac:(by left)) as (Hid & Hv & _).
    assert (ReleaseIdentity_name (release_identity r) = ReleaseIdentity_name (release_identity c)) as Hname.
    { unfold req_rel, req, req_ReleaseIdentity, ReleaseIdentity_eq in Hid. apply andb_true_iff in Hid as [Hn _].
      by apply req_leibniz in Hn. }
    rewrite <-Hid, Hcr, Hname. by apply cran_identity_eq.
  - destruct Hsum as (_ & Hne & _). destruct (releases_of _ _) as [|r l] eqn:E; [done|].
    assert (r ∈ releases_of (release_identity c) releases) as Hr by (rewrite E; by left).
    apply elem_of_values_of in Hr as [Hr Hi]. by exists r.
Qed.

(** Same name and version, same identity. *)
Lemma members_distinct releases agg :
  Forall (λ r, release_identity r = cran_identity (ReleaseIdentity_name (release_identity r))
                                      (release_version r)) releases →
  keyed_inv release_identity release_summary releases agg →
  ∀ name, NoDup (version_key <$> named_releases name (hm_values agg)).
Proof.
  intros Hcran Hinv name.
  assert (∀ kc, kc ∈ agg → release_identity kc.2 ≈ kc.1 ∧
    release_identity kc.2 ≈ cran_identity (ReleaseIdentity_name (release_identity kc.2)) (release_version kc.2)) as Hmem.
  { intros [k c] Hin. by destruct (aggregation_members releases agg k c Hcran Hinv Hin) as (? & _ & ? & _). }
  destruct Hinv as [Hwf _]. clear Hcran. unfold hm_values. induction agg as [|[k c] agg IH]; [constructor|].
  simpl in Hwf. destruct Hwf as [Hk Hwf].
  assert (NoDup (version_key <$> named_releases name agg.*2)) as IH' 
    by (apply IH; [done|]; intros kc Hkc; apply Hmem; by right).
  unfold named_releases in *. csimpl. case_bool_decide as Hn; [|done]. csimpl. apply NoDup_cons. split; [|done].
  intros (c' & Hkey & Hin)%list_elem_of_fmap. apply elem_of_filter_bool in Hin as [Hin Hn'].
  apply bool_decide_eq_true in Hn'. apply list_elem_of_fmap in Hin as ([k' c''] & -> & Hin). simpl in *.
  assert (k ≈ k') as Hkk.
  { destruct (Hmem (k, c)) as [Hc1 Hc2]; [by left|]. destruct (Hmem (k', c'')) as [Hc1' Hc2']; [by right|].
    simpl in *. rewrite <-Hc1, <-Hc1', Hc2, Hc2'. rewrite Hn, Hn'. apply cran_identity_eq.
    by apply version_req_iter. }
  rewrite (hm_get_proper _ _ Hkk _ _ eq_refl) in Hk.
  rewrite (hm_in_get k' c'' agg Hwf Hin) in Hk. done.
Qed.
End grouping.

(** ** Catalogs of projections *)

Section index.
Context `{CivilDateTime, Sha2, UnicodeTables}.

(** A catalog of a list of releases: for each package the releases of that name, merged by
    identity, in the order of their versions. *)
Definition catalog_for (releases : list PackageRelease) (catalog : CranCatalog) : Prop :=
  ∀ name,
    StronglySorted (λ a b, RPackageVersion_cmp (release_version a) (release_version b) = Lt)
      (candidates catalog name) ∧
    (∀ c, c ∈ candidates catalog name → ReleaseIdentity_name (release_identity c) = name ∧
       release_summary (releases_of (release_identity c) releases) c) ∧
    (∀ r, r ∈ releases → ReleaseIdentity_name (release_identity r) = name →
       ∃ c, c ∈ candidates catalog name ∧ release_identity c ≈ release_identity r).

Lemma catalog_for_aggregation releases agg :
  Forall (λ r, release_identity r = cran_identity (ReleaseIdentity_name (release_identity r))
                                      (release_version r)) releases →
  keyed_inv release_identity release_summary releases agg →
  catalog_for releases (catalog_of (aggregation_releases agg)).
Proof.
  intros Hcran Hinv name. rewrite catalog_of_candidates. split_and!.
  - apply (sorted_distinct (cmp_on release_version RPackageVersion_cmp) version_key).
    + intros x y Hxy. apply version_req_iter. unfold req_rel, req, req_version, RPackageVersion_eq.
      unfold cmp_on in Hxy. by rewrite Hxy.
    + apply sort_by_sorted, _.
    + rewrite sort_by_Permutation. by eapply members_distinct.
  - intros c [Hin Hn]%elem_of_sort_by%elem_of_filter_bool. apply bool_decide_eq_true in Hn.
    apply list_elem_of_fmap in Hin as ([k c'] & -> & Hin).
    by destruct (aggregation_members releases agg k c' Hcran Hinv Hin) as (_ & ? & _).
  - intros r Hr Hn. destruct Hinv as [Hwf Hget]. specialize (Hget (release_identity r)).
    destruct (hm_get (release_identity r) agg) as [c|] eqn:Hg.
    + destruct Hget as [Hc _]. exists c. split; [|done]. apply elem_of_sort_by, elem_of_filter_bool.
      apply hm_get_in in Hg as (k & _ & Hin). split; [apply list_elem_of_fmap; by exists (k, c)|].
      apply bool_decide_eq_true. rewrite <-Hn. apply andb_true_iff in Hc as [Hc _]. by apply req_leibniz in Hc.
    + exfalso. assert (r ∈ values_of release_identity (release_identity r) releases) as Hin
        by (apply elem_of_values_of; split; [done|done]).
      rewrite Hget in Hin. by apply elem_of_nil in Hin.
Qed.

Lemma root_releases_cran context (records : list CatalogRecord) (kept : list CranCatalogObservation) :
  (∀ o, o ∈ kept → ∃ record, record ∈ records ∧ reads_as context record o) →
  Forall (λ r, release_identity r = cran_identity (ReleaseIdentity_name (release_identity r))
                                      (release_version r)) (root_releases kept).
Proof.
  intros Hk. apply Forall_forall. intros r (o & -> & [Ho _]%elem_of_filter_bool)%list_elem_of_fmap.
  destruct (Hk o Ho) as (record & _ & Hr). by rewrite (reads_cran _ _ _ Hr) at 1 2.
Qed.

(** C22: The catalog of what the lenient reading keeps lists, for each package, the root releases
    of that name, those of one identity merged and no two of one version, in the order of the versions:
    no release is lost or invented, records of an R-specific overlay are not
    candidates, and no merge fails. *)
Theorem from_provider_observations_spec records context expected :
  NoDup (records.*1.*1) →
  let kept := projection_observations (provider_observations_from_fields records context expected) in
  catalog_for (root_releases kept) (from_provider_observations kept).
Proof.
  intros Hnd. simpl. pose proof (projection_inv records context expected Hnd) as Hinv. simpl in Hinv.
  unfold from_provider_observations. rewrite (inv_catalog _ _ _ _ Hinv).
  apply catalog_for_aggregation; [|apply Hinv].
  apply (root_releases_cran context records). intros o Ho.
  destruct (inv_reads _ _ _ _ Hinv o Ho) as (record & ? & ? & _). by exists record.
Qed.

(** ** Archive indexes *)

Context `{PackagesRds}.

(** [rows()] numbers the rows. *)
Hypothesis rows_numbered : ∀ matrix, NoDup (row_index <$> matrix_rows matrix).

Definition archive_records (matrix : PackagesMatrix) : list CatalogRecord :=
  row_record matrix <$> matrix_rows matrix.

(** The record names the package. *)
Definition names_package (package : PackageName) (record : CatalogRecord) : Prop :=
  ∃ text, field record.2 "Package" = Some text ∧ PackageName_new (str_trim text) = Ok package.

(** An identity that cannot be read, whose parts can, is rejected for good. *)
Lemma identity_error_hard expected i package fields context e :
  provider_identity_from_fields fields context = Err e →
  provider_rejection_is_hard expected (hinted_rejection i fields context e) = false →
  names_package expected (i, package, fields).
Proof.
  unfold provider_identity_from_fields, catalog_field, provider_rejection_is_hard. simpl.
  destruct (field fields "Package") as [pt|] eqn:Hp; simpl; [|done].
  destruct (PackageName_new (str_trim pt)) as [p|pe] eqn:Hpn; simpl; [|done].
  destruct (path_scope context fields) as [scope|se] eqn:Hs; simpl; [|done].
  intros He. destruct (field fields "Version") as [vt|] eqn:Hv; simpl in *.
  - destruct (RPackageVersion_parse (str_trim vt)) as [v|ve] eqn:Hvn; simpl in *.
    + intros Hhard. exfalso.
      destruct (reject_identity_duplicates fields) as [[]|de] eqn:Hd; simplify_eq/=.
      assert (∀ names, identity_duplicates names fields = Err e →
        ∃ name, e = DuplicateField name ∧ is_identity_field (to_ascii_lowercase name) = true) as Hdup.
      { clear. induction fields as [|[n v] fields IH]; intros names; simpl; [done|].
        destruct (is_identity_field (to_ascii_lowercase n)) eqn:Hn; simpl; [|apply IH].
        case_bool_decide; [intros [= <-]; eauto|apply IH]. }
      destruct (Hdup [] Hd) as (name & -> & Hn). by rewrite Hn in Hhard.
    + intros Hhard%negb_false_iff. destruct e; try done. destruct scope; try done.
      apply req_leibniz in Hhard as ->. by exists pt.
  - intros Hhard%negb_false_iff. destruct e; try done. destruct scope; try done.
    apply req_leibniz in Hhard as ->. by exists pt.
Qed.

Lemma identity_names context record identity :
  identity_of context record = Ok identity → names_package identity.1.1 record.
Proof.
  unfold identity_of, provider_identity_from_fields, catalog_field. intros Hk.
  apply result_bind_ok in Hk as ([] & _ & (vt & _ & (v & _ & Hk)%result_bind_ok)%result_bind_ok).
  apply result_bind_ok in Hk as (nt & Hnt & (n & Hn%map_err_ok & (s & _ & [= <-])%result_bind_ok)%result_bind_ok).
  exists nt. destruct (field record.2 "Package"); by simplify_eq/=.
Qed.

(** A rejection that is not hard is of the package. *)
Lemma soft_rejection_names expected records kept r :
  rejection_of PackagesIndex (Some expected) records kept r →
  provider_rejection_is_hard expected r = false →
  ∃ record, record ∈ records ∧ rejection_record_index r = record.1.1 ∧ names_package expected record.
Proof.
  intros (before & [[i package] fields] & after & -> & Hr & Hfor) Hsoft.
  exists (i, package, fields). split; [apply elem_of_app; right; by left|].
  split; [by rewrite Hr|]. rewrite Hr in Hsoft.
  assert (∀ identity, admitted PackagesIndex (Some expected) (i, package, fields) identity →
    names_package expected (i, package, fields)) as Hadm.
  { intros identity [Hi He]. rewrite <-(He expected eq_refl). by eapply identity_names. }
  simpl in Hsoft. destruct Hfor as [e He|identity p Hi [= <-] Hne| | |]; [|exfalso|eauto..].
  - by eapply identity_error_hard.
  - revert Hsoft. unfold identity_of in Hi. simpl in Hi.
    rewrite <-(identified_hinted PackagesIndex i package fields identity identity.1.1 _ Hi eq_refl). done.
Qed.

(** A record is one of those that are kept or rejected. *)
Lemma all_named records expected p :
  NoDup (records.*1.*1) → proj_inv PackagesIndex (Some expected) records p →
  (∀ r, r ∈ rejected p → provider_rejection_is_hard expected r = false) →
  Forall (names_package expected) records.
Proof.
  intros Hnd [_ Hperm Hreads _ _ _ Hrej _] Hsoft. apply Forall_forall. intros record Hin.
  assert (∀ record', record' ∈ records → record'.1.1 = record.1.1 → record' = record) as Hsame.
  { intros record' Hr' E. apply (NoDup_fmap_eq (λ r : CatalogRecord, r.1.1) records); [|done..].
    by rewrite <-list_fmap_compose in Hnd. }
  assert (record.1.1 ∈ records.*1.*1) as Hidx
    by (apply list_elem_of_fmap; exists record.1; split; [done|apply list_elem_of_fmap; by exists record]).
  rewrite <-Hperm in Hidx. apply elem_of_app in Hidx as [Hidx|Hidx].
  - apply list_elem_of_fmap in Hidx as (o & Ho & Hk). destruct (Hreads o Hk) as (r & Hr & Hreads' & He).
    rewrite <-(Hsame r Hr); [|by rewrite Ho, (reads_index _ _ _ Hreads')].
    rewrite <-(He expected eq_refl). by eapply (identity_names _ _ (_, _, _)), (reads_identity _ _ _ Hreads').
  - apply list_elem_of_fmap in Hidx as (x & Hx & Hk).
    destruct (soft_rejection_names expected records _ x (Hrej x Hk) (Hsoft x Hk)) as (r & Hr & Hxr & Hn).
    rewrite <-(Hsame r Hr); [done|congruence].
Qed.

Lemma candidates_named_expected records expected p name :
  proj_inv PackagesIndex (Some expected) records p →
  candidates (from_provider_observations (kept p)) name ≠ [] → name = expected.
Proof.
  intros Hinv. unfold from_provider_observations. rewrite (inv_catalog _ _ _ _ Hinv).
  assert (∀ o, o ∈ kept p → ∃ record, record ∈ records ∧ reads_as PackagesIndex record o ∧
    catalog_package o = expected) as Hreads.
  { intros o Ho. destruct (inv_reads _ _ _ _ Hinv o Ho) as (r & ? & ? & He). exists r. auto. }
  destruct (catalog_for_aggregation (root_releases (kept p)) (kept_aggregation p)) with (name := name)
    as (_ & Hc & _); [|apply Hinv|].
  { apply (root_releases_cran PackagesIndex records). intros o Ho.
    destruct (Hreads o Ho) as (r & ? & ? & _). by exists r. }
  destruct (candidates _ name) as [|c l]; [done|]. intros _.
  destruct (Hc c) as [<- Hsum]; [by left|]. destruct Hsum as (_ & Hne & _).
  destruct (releases_of _ _) as [|r l'] eqn:E; [done|].
  assert (r ∈ releases_of (release_identity c) (root_releases (kept p))) as Hr by (rewrite E; by left).
  apply elem_of_values_of in Hr as [Hr Hi]. apply list_elem_of_fmap in Hr as (o & -> & Ho).
  apply elem_of_filter_bool in Ho as [Ho _]. destruct (Hreads o Ho) as (record & _ & Hread & Hexp).
  apply andb_true_iff in Hi as [Hi _]. apply req_leibniz in Hi. rewrite <-Hi.
  rewrite (reads_cran _ _ _ Hread). exact Hexp.
Qed.

(** C20: An archive index is accepted only when every row names the package it was asked for:
    rows that cannot be used are set aside one by one, but a row that may belong to
    another package rejects the index.  Every row is then an observation of the package
    or a rejection, there is an observation unless there are no rows, and the
    catalog has candidates of no other package.  Otherwise the error says why. *)
Theorem provider_archive_index_spec input expected :
  match provider_archive_index_rds input expected with
  | Ok p => ∃ matrix, read_matrix input provider_rds_read_options = Ok matrix ∧
      Forall (names_package expected) (archive_records matrix) ∧
      (catalog_record_index <$> archive_observations p) ++
        (rejection_record_index <$> archive_rejections p) ≡ₚ (archive_records matrix).*1.*1 ∧
      (archive_observations p = [] → archive_records matrix = []) ∧
      Forall (λ o, catalog_package o = expected) (archive_observations p) ∧
      ∀ name, candidates (archive_catalog p) name ≠ [] → name = expected
  | Err (Structural e) => read_matrix input provider_rds_read_options = Err e
  | Err (IdentityInvalid diagnostics) => ∃ matrix kept r,
      read_matrix input provider_rds_read_options = Ok matrix ∧
      rejection_of PackagesIndex (Some expected) (archive_records matrix) kept r ∧
      provider_rejection_is_hard expected r = true ∧ rejection_diagnostic r ∈ diagnostics
  | Err (AllSemantic diagnostics) => ∃ matrix,
      read_matrix input provider_rds_read_options = Ok matrix ∧ archive_records matrix ≠ [] ∧
      length diagnostics = length (archive_records matrix)
  end.
Proof.
  unfold provider_archive_index_rds.
  destruct (read_matrix input provider_rds_read_options) as [matrix|e] eqn:Hm; simpl; [|done].
  fold (archive_records matrix). set (records := archive_records matrix).
  assert (NoDup (records.*1.*1)) as Hnd.
  { unfold records, archive_records. rewrite <-!list_fmap_compose. apply rows_numbered. }
  pose proof (projection_inv records PackagesIndex (Some expected) Hnd) as Hinv. simpl in Hinv.
  set (p := foldl _ _ records) in *. pose proof Hinv as [_ Hperm Hreads _ _ _ Hrej _].
  destruct (List.filter (provider_rejection_is_hard expected) (rejected p)) as [|r l] eqn:Hhard.
  2: { rewrite bool_decide_eq_true_2 by done.
       assert (r ∈ List.filter (provider_rejection_is_hard expected) (rejected p)) as Hr
         by (rewrite Hhard; by left).
       apply elem_of_filter_bool in Hr as [Hr Hrh]. exists matrix, (root_releases (kept p)), r.
       split_and!; [done|by apply Hrej|done|by left]. }
  rewrite bool_decide_eq_false_2 by naive_solver.
  assert (∀ r, r ∈ rejected p → provider_rejection_is_hard expected r = false) as Hsoft.
  { intros r Hr. apply not_true_iff_false. intros Hh.
    assert (r ∈ List.filter (provider_rejection_is_hard expected) (rejected p)) as Hin
      by by apply elem_of_filter_bool. rewrite Hhard in Hin. by apply elem_of_nil in Hin. }
  case_bool_decide as Hall.
  { exists matrix. destruct Hall as [Hk Hr]. rewrite Hk in Hperm. simpl in Hperm.
    apply Permutation_length in Hperm. rewrite !length_fmap in *. split_and!; [done| |done].
    fold records. intros E. rewrite E in Hperm. by destruct (rejected p). }
  exists matrix. split_and!; [done|..].
  - by eapply all_named.
  - done.
  - simpl. intros Hk. fold records. rewrite Hk in Hperm. destruct (rejected p) as [|x l];
      [|by destruct Hall]. simpl in Hperm. apply Permutation_nil in Hperm. by destruct records.
  - apply Forall_forall. intros o Ho. by destruct (Hreads o Ho) as (_ & _ & _ & He); apply He.
  - intros name. by apply (candidates_named_expected records).
Qed.
End index.
