(* ===== verification/Comparison.v ===== *)
(** * Assignment comparison ([rsolve-resolver/src/lib.rs])

    The explanation of a resolution: for every assigned subject the basis of
    the assignment and, for each other candidate, the reason it was not taken. *)

From S2P Require Import Prelude Effects RustStd Collections Externals Format Versions Names Publication.
From S2P Require Import Identity Constraints Digest Metadata Request Candidates Resolution.
From S2P Require Import Policy Adapter Solve.

Section comparison.
Context `{CivilDate, Sha2, UnicodeTables}.
Context `{!VersionRanges SolverVersion, !DependencyConstraints PackageId Ranges}.
Context `{!PubGrub PackageId SolverVersion Ranges Constraints ProviderMessage AdapterError
            Priority ProviderState}.

Inductive DecisionCandidate :=
| DecisionRelease (identity : ReleaseIdentity) (version : RPackageVersion)
| DecisionR (version : RPackageVersion)
| DecisionInstalledName (name : PackageName) (occupied_by : ReleaseIdentity).

Inductive DecisionSubject :=
| SubjectPackage (name : PackageName)
| SubjectR
| SubjectInstalledName (name : PackageName).

Inductive AssignmentBasis :=
| LockedPreference (identity : ReleaseIdentity)
| RepositoryCurrent
| HighestCompatible
| OnlyStaticallyCompatible
| ExactRootRequirement
| FixedRTarget
| InstalledNameReservation.

Inductive AssignmentDifference :=
| RootRequirementMismatch (requirement : VersionConstraint)
| ConstraintViolatedByAssignment (against : DecisionSubject) (requirement : VersionConstraint)
    (assigned : DecisionCandidate)
| RequiredLockMismatch (required : ReleaseIdentity)
| DifferenceNameConflict (name : PackageName) (assigned_to : ReleaseIdentity)
| LowerPreference (assigned : DecisionCandidate)
| DifferenceCooldown (cutoff : PublicationDate)
| DifferenceUnknown.

Record AlternativeComparison := mk_AlternativeComparison {
  alternative_candidate : DecisionCandidate;
  differs_by : AssignmentDifference;
}.

Record SubjectAssignment := mk_SubjectAssignment {
  assignment_subject : DecisionSubject;
  assigned : DecisionCandidate;
  basis : AssignmentBasis;
  alternatives : list AlternativeComparison;
}.

Record AssignmentComparison := mk_AssignmentComparison { assignments : list SubjectAssignment }.

Record ComparedResolution := mk_ComparedResolution {
  compared_resolution : Resolution;
  comparison_of : AssignmentComparison;
}.

(** ** Naming candidates and subjects *)

Definition release_candidate (release : PackageRelease) : DecisionCandidate :=
  DecisionRelease (release_identity release) (release_version release).

Definition candidate_for_subject (subject : SolverKey) (release : PackageRelease) :
    DecisionCandidate :=
  match subject with
  | KeyInstalledName name => DecisionInstalledName name (release_identity release)
  | _ => release_candidate release
  end.

(** The name of a subject; R's is the package name "R", which is valid. *)
Definition subject_package_name (subject : SolverKey) : PackageName :=
  match subject_name subject with Some name => name | None => mk_PackageName "R" end.

Definition subject_to_decision_subject (subject : SolverKey) : DecisionSubject :=
  match subject with
  | KeyInstalledName name => SubjectInstalledName name
  | KeyR => SubjectR
  | subject => SubjectPackage (subject_package_name subject)
  end.

(** ** The basis of an assignment *)

Definition has_current_occurrence (subject : SolverKey) (c : PreparedCandidate) : bool :=
  existsb (λ o, bool_decide (occurrence_currentness o = Current)) (applicable_occurrences c subject).

Definition names_R (e : ResolvedDependencyEdge) : bool :=
  PackageName_is "R" (requirement_name (edge_package e)).

Definition statically_compatible (r_version : RPackageVersion) (e : RootExpansionPolicy)
    (c : PreparedCandidate) : bool :=
  forallb (λ dependency, negb (names_R dependency) ||
      VersionConstraint_satisfies (requirement_constraint (edge_package dependency)) r_version)
    (project_dependency_edges (candidate_release c) e).

Definition root_concerns (request : ResolutionRequest) (subject : SolverKey)
    (root : RootRequirement) : bool :=
  match dependency_key request (requirement_name (root_package root))
          (requirement_source (root_package root)) with
  | Some key => key =?= subject
  | None => false
  end.

Definition pins_version (version : RPackageVersion) (root : RootRequirement) : bool :=
  existsb (λ clause, (clause_op clause =?= OpEq) && (clause_version clause =?= version))
    (clauses (requirement_constraint (root_package root))).

Definition locked_basis (decision : LockDecision) (identity : ReleaseIdentity) :
    option AssignmentBasis :=
  match decision with
  | DecisionRequire i | DecisionPrefer i =>
    if i =?= identity then Some (LockedPreference i) else None
  | DecisionUnlocked => None
  end.

Definition assignment_basis (selected : ResolvedPackage) (candidates : list PreparedCandidate)
    (decision : LockDecision) (request : ResolutionRequest) (subject : SolverKey)
    (r_version : RPackageVersion) (e : RootExpansionPolicy) : AssignmentBasis :=
  match subject with
  | KeyInstalledName _ => InstalledNameReservation
  | _ =>
    match locked_basis decision (resolved_identity selected) with
    | Some basis => basis
    | None =>
      if existsb (λ c, (candidate_identity c =?= resolved_identity selected)
                       && has_current_occurrence subject c) candidates
      then RepositoryCurrent
      else if bool_decide (length (List.filter (statically_compatible r_version e) candidates) = 1)
      then OnlyStaticallyCompatible
      else if existsb (λ root, root_concerns request subject root
                               && pins_version (resolved_version selected) root) (roots request)
      then ExactRootRequirement
      else HighestCompatible
    end
  end.

(** ** Why an alternative was not assigned *)

Record DifferenceContext := mk_DifferenceContext {
  difference_selected : PackageRelease;
  difference_selected_candidate : PreparedCandidate;
  difference_r_version : RPackageVersion;
  difference_decision : LockDecision;
  difference_preference : PreferenceContext;
  difference_subject : SolverKey;
  difference_selected_packages : list ResolvedPackage;
  difference_request : ResolutionRequest;
  difference_expansion : RootExpansionPolicy;
}.

(** The checks of [difference_for_candidate], in its order; each is the early
    return of one [if let]. *)
Definition lock_difference (d : DifferenceContext) (c : PreparedCandidate) :
    option AssignmentDifference :=
  match difference_decision d with
  | DecisionRequire required =>
    if negb (candidate_identity c =?= required) then Some (RequiredLockMismatch required) else None
  | _ => None
  end.

Definition publication_difference (d : DifferenceContext) (c : PreparedCandidate) :
    option AssignmentDifference :=
  match publication_cutoff (difference_request d) with
  | None => None
  | Some cutoff =>
    if PackageRelease_is_r_base_package (candidate_release c)
       || is_locked_to (decision_locked (difference_decision d)) c
    then None
    else match release_publication (candidate_release c) with
    | Some publication =>
      if is_gt (PublicationDate_cmp (ReleasePublication_date publication)
                  (PublicationCutoff_date cutoff))
      then Some (DifferenceCooldown (PublicationCutoff_date cutoff)) else None
    | None => Some DifferenceUnknown
    end
  end.

Definition occupies_name (d : DifferenceContext) (c : PreparedCandidate) (other : ResolvedPackage) :
    bool :=
  negb (resolved_subject other =?= difference_subject d) &&
  (resolved_name other =?= ReleaseIdentity_name (candidate_identity c)) &&
  negb (resolved_identity other =?= candidate_identity c).

Definition name_difference (d : DifferenceContext) (c : PreparedCandidate) :
    option AssignmentDifference :=
  match List.find (occupies_name d c) (difference_selected_packages d) with
  | Some other =>
    Some (DifferenceNameConflict (ReleaseIdentity_name (candidate_identity c))
            (resolved_identity other))
  | None => None
  end.

Definition root_rejects (d : DifferenceContext) (c : PreparedCandidate) (root : RootRequirement) :
    bool :=
  root_concerns (difference_request d) (difference_subject d) root &&
  negb (VersionConstraint_satisfies (requirement_constraint (root_package root))
          (candidate_version c)).

Definition root_difference (d : DifferenceContext) (c : PreparedCandidate) :
    option AssignmentDifference :=
  match List.find (root_rejects d c) (roots (difference_request d)) with
  | Some root => Some (RootRequirementMismatch (requirement_constraint (root_package root)))
  | None => None
  end.

Definition r_difference (d : DifferenceContext) (edges : list ResolvedDependencyEdge) :
    option AssignmentDifference :=
  match List.find (λ e, names_R e &&
      negb (VersionConstraint_satisfies (requirement_constraint (edge_package e))
              (difference_r_version d))) edges with
  | Some e =>
    Some (ConstraintViolatedByAssignment SubjectR (requirement_constraint (edge_package e))
            (DecisionR (difference_r_version d)))
  | None => None
  end.

(** The package assigned to a dependency that its constraint rejects. *)
Definition violated_edge (d : DifferenceContext) (e : ResolvedDependencyEdge) :
    option AssignmentDifference :=
  if names_R e then None
  else match dependency_key (difference_request d) (requirement_name (edge_package e))
               (requirement_source (edge_package e)) with
  | None => None
  | Some key =>
    match List.find (λ p, resolved_subject p =?= key) (difference_selected_packages d) with
    | None => None
    | Some assigned =>
      if negb (VersionConstraint_satisfies (requirement_constraint (edge_package e))
                 (resolved_version assigned))
      then Some (ConstraintViolatedByAssignment
                   (subject_to_decision_subject (resolved_subject assigned))
                   (requirement_constraint (edge_package e))
                   (release_candidate (resolved_release assigned)))
      else None
    end
  end.

Definition preference_difference (preference : CandidatePreference) (d : DifferenceContext)
    (c : PreparedCandidate) : option AssignmentDifference :=
  if match context_locked (difference_preference d) with
     | Some locked => negb (candidate_identity c =?= locked)
     | None => false
     end || is_gt (compare_prepared_candidates preference (difference_subject d)
                     (difference_preference d) (difference_selected_candidate d) c)
  then Some (LowerPreference (candidate_for_subject (difference_subject d) (difference_selected d)))
  else None.

(** Early returns in sequence: the first reason found. *)
Definition or_else {A} (o k : option A) : option A := match o with Some x => Some x | None => k end.

Definition difference_for_candidate (preference : CandidatePreference) (c : PreparedCandidate)
    (d : DifferenceContext) : option AssignmentDifference :=
  let edges := project_dependency_edges (candidate_release c) (difference_expansion d) in
  or_else (lock_difference d c)
    (or_else (publication_difference d c)
      (or_else (name_difference d c)
        (or_else (root_difference d c)
          (or_else (r_difference d edges)
            (or_else (list_find_map (violated_edge d) edges)
               (preference_difference preference d c)))))).

(** ** The comparison of a whole resolution *)

Record Resolver := mk_Resolver {
  resolver_loader : CandidateLoader;
  resolver_preference : CandidatePreference;
  resolver_lock_policy : LockUpdatePolicy;
}.

Definition Resolver_resolve (self : Resolver) (request : ResolutionRequest) :
    result Resolution ResolutionFailure :=
  solve (resolver_loader self) (resolver_preference self) (resolver_lock_policy self) request.

Definition load_candidates (self : Resolver) (subject : SolverKey) :
    result (list PreparedCandidate) ResolutionFailure :=
  map_err (FailureCandidateLoad subject) (loader_releases (resolver_loader self) subject).

(** The sort key of an alternative: the candidate's version and identity. *)
Definition alternative_cmp (a b : (RPackageVersion * string) * AlternativeComparison) : comparison :=
  cmp_then (cmp_on fst RPackageVersion_cmp) (cmp_on snd str_cmp) a.1 b.1.

Definition keyed_alternative (self : Resolver) (d : DifferenceContext) (c : PreparedCandidate) :
    option ((RPackageVersion * string) * AlternativeComparison) :=
  if negb (candidate_identity c =?= release_identity (difference_selected d))
  then match difference_for_candidate (resolver_preference self) c d with
       | Some differs_by =>
         Some ((candidate_version c, candidate_sort_key c),
               mk_AlternativeComparison
                 (candidate_for_subject (difference_subject d) (candidate_release c)) differs_by)
       | None => None
       end
  else None.

Definition selected_cmp : ResolvedPackage → ResolvedPackage → comparison :=
  cmp_then resolved_name_cmp (cmp_on (λ p, identity_sort_key (resolved_identity p)) str_cmp).

Definition compare_package (self : Resolver) (request : ResolutionRequest)
    (target : ResolutionTarget) (selected : list ResolvedPackage) (package : ResolvedPackage) :
    result SubjectAssignment ResolutionFailure :=
  let subject := resolved_subject package in
  let? candidates := load_candidates self subject in
  match List.find (λ c, candidate_identity c =?= resolved_identity package) candidates with
  | None =>
    Err (FailureCandidateLoad subject
           (metadata_invalid "selected release is absent from its prepared subject view"))
  | Some selected_candidate =>
    let decision := policy_decision (resolver_lock_policy self) subject
                      (hm_get subject (locked request)) in
    let e := root_expansion_for_package request (resolved_name package) in
    let d := mk_DifferenceContext (resolved_release package) selected_candidate
               (target_r_version target) decision
               (mk_PreferenceContext (decision_locked decision)) subject selected request e in
    Ok (mk_SubjectAssignment (subject_to_decision_subject subject)
          (candidate_for_subject subject (resolved_release package))
          (assignment_basis package candidates decision request subject (target_r_version target) e)
          (sort_by alternative_cmp (omap (keyed_alternative self d) candidates)).*2)
  end.

Definition r_assignment (target : ResolutionTarget) : SubjectAssignment :=
  mk_SubjectAssignment SubjectR (DecisionR (target_r_version target)) FixedRTarget [].

Definition reconstruct_comparison (self : Resolver) (request : ResolutionRequest)
    (resolution : Resolution) : result AssignmentComparison ResolutionFailure :=
  let selected := sort_by selected_cmp (resolution_packages resolution) in
  let? compared := try_map (compare_package self request (resolution_target resolution) selected)
                     selected in
  Ok (mk_AssignmentComparison (r_assignment (resolution_target resolution) :: compared)).

Definition resolve_with_assignment_comparison (self : Resolver) (request : ResolutionRequest) :
    result ComparedResolution ResolutionFailure :=
  let? resolution := Resolver_resolve self request in
  let? comparison := reconstruct_comparison self request resolution in
  Ok (mk_ComparedResolution resolution comparison).
End comparison.
