(* ===== verification/ComparisonLaws.v ===== *)
(** * The explanation of a resolution is true and complete

    Every reason [difference_for_candidate] reports holds of the candidate, and
    is the first that does; every basis [assignment_basis] reports holds of the
    assignment; the comparison lists every package once with all explained
    alternatives in an order of its own, and exists for every resolution. *)

From S2P Require Import Prelude Effects RustStd Collections Externals Format Versions Names Publication.
From S2P Require Import Identity Constraints Digest Metadata Request Candidates Resolution.
From S2P Require Import Policy Adapter AdapterLaws Solve SolveLaws Comparison.

(** A chain of early returns finds the reason of the least rank, or none. *)
Lemma or_else_first {A} (E : A → Prop) (rank : A → nat) (k : nat) (o rest : option A) :
  (∀ x, o = Some x ↔ E x ∧ rank x = k) →
  match rest with
  | Some x => E x ∧ S k ≤ rank x ∧ ∀ y, E y → S k ≤ rank y → rank x < rank y ∨ y = x
  | None => ∀ y, E y → rank y < S k
  end →
  match or_else o rest with
  | Some x => E x ∧ k ≤ rank x ∧ ∀ y, E y → k ≤ rank y → rank x < rank y ∨ y = x
  | None => ∀ y, E y → rank y < k
  end.
Proof.
  intros Ho Hrest. destruct o as [x|]; simpl.
  { destruct (proj1 (Ho x) eq_refl) as [He <-]. split_and!; [done|lia|]. intros y Hy Hle.
    destruct (decide (rank y = rank x)) as [Hr|]; [|left; lia]. right.
    by injection (proj2 (Ho y) (conj Hy Hr)). }
  assert (∀ y, E y → rank y ≠ k) as Hne by (intros y He Hk; by pose proof (proj2 (Ho y) (conj He Hk))).
  destruct rest as [x|].
  - destruct Hrest as (He & Hk & Hmin). split_and!; [done|lia|]. intros y Hy Hle.
    apply Hmin; [done|]. specialize (Hne y Hy). lia.
  - intros y Hy. specialize (Hrest y Hy). specialize (Hne y Hy). lia.
Qed.

(** The first element of [l] that has [P]. *)
Definition first_such {A} (P : A → Prop) (l : list A) (x : A) : Prop :=
  ∃ before after, l = before ++ x :: after ∧ P x ∧ ∀ y, y ∈ before → ¬ P y.

Lemma find_first_such {A} (f : A → bool) (P : A → Prop) (l : list A) (x : A) :
  (∀ y, f y = true ↔ P y) → List.find f l = Some x ↔ first_such P l x.
Proof.
  intros Hf. unfold first_such. induction l as [|z l IH]; simpl.
  { split; [done|]. by intros ([] & ? & ? & _). }
  destruct (f z) eqn:E.
  - apply Hf in E as HP. split.
    + intros [= <-]. exists [], l. split_and!; [done..|]. by intros y ?%elem_of_nil.
    + intros ([|w before] & after & [= <- ->] & Hx & Hb); [done|].
      destruct (Hb z); [by left|done].
  - assert (¬ P z) as Hz by (by rewrite <-Hf, E). rewrite IH. split.
    + intros (before & after & -> & Hx & Hb). exists (z :: before), after.
      split_and!; [done..|]. intros y [->|Hy]%elem_of_cons; auto.
    + intros ([|w before] & after & [= <- ->] & Hx & Hb); [done|].
      exists before, after. split_and!; [done..|]. intros y Hy. apply Hb. by right.
Qed.

(** [find] in a list, as a statement about its elements. *)
Lemma find_some_iff {A} (f : A → bool) (l : list A) :
  match List.find f l with
  | Some x => x ∈ l ∧ f x = true
  | None => ∀ x, x ∈ l → f x = false
  end.
Proof.
  destruct (List.find f l) as [x|] eqn:E.
  - apply List.find_some in E as [Hin Hf]. by rewrite list_elem_of_In.
  - intros x Hx%list_elem_of_In. by apply (List.find_none f l).
Qed.

(** A filter that keeps one element. *)
Lemma filter_length_1 {A} (f : A → bool) (l : list A) :
  length (List.filter f l) = 1 ↔ ∃ before x after, l = before ++ x :: after ∧ f x = true ∧
    ∀ y, y ∈ before ++ after → f y ≠ true.
Proof.
  assert (∀ l, length (List.filter f l) = 0 ↔ ∀ y, y ∈ l → f y ≠ true) as Hnil.
  { clear l. induction l as [|x l IH]; simpl; [split; [by intros _ ? ?%elem_of_nil|done]|].
    destruct (f x) eqn:E; simpl; [split; [done|]; intros Hf; by destruct (Hf x); [left|]|].
    rewrite IH. setoid_rewrite elem_of_cons. split; [|by auto].
    intros Hf y [->|Hy]; [by rewrite E|auto]. }
  induction l as [|x l IH]; simpl.
  { split; [done|]. by intros ([] & ? & ? & [=] & _). }
  destruct (f x) eqn:E; simpl.
  - split.
    + intros [= Hl]. exists [], x, l. split_and!; [done..|]. by apply Hnil.
    + intros ([|z before] & y & after & [= <- ->] & Hy & Hr).
      { f_equal. by apply Hnil. } { by destruct (Hr x); [left|]. }
  - rewrite IH. split.
    + intros (before & y & after & -> & Hy & Hr). exists (x :: before), y, after.
      split_and!; [done..|]. intros z [->|Hz]%elem_of_cons; [by rewrite E|auto].
    + intros ([|z before] & y & after & [= <- ->] & Hy & Hr); [congruence|].
      exists before, y, after. split_and!; [done..|]. intros w Hw. apply Hr. by right.
Qed.

Section reasons.
Context `{CivilDate, Sha2, UnicodeTables}.
Context (preference : CandidatePreference).

(** The subject [key] is concerned by a requirement. *)
Definition concerns (request : ResolutionRequest) (subject : SolverKey) (r : PackageRequirement) :
    Prop :=
  ∃ key, dependency_key request (requirement_name r) (requirement_source r) = Some key ∧
    key ≈ subject.

(** The edges [candidate] would have. *)
Definition candidate_edges (d : DifferenceContext) (c : PreparedCandidate) :
    list ResolvedDependencyEdge :=
  project_dependency_edges (candidate_release c) (difference_expansion d).

(** The constraint of the edge rejects the selected version of R. *)
Definition violates_r (d : DifferenceContext) (e : ResolvedDependencyEdge) : Prop :=
  names_R e = true ∧
  VersionConstraint_satisfies (requirement_constraint (edge_package e)) (difference_r_version d)
    = false.

(** The constraint of the edge rejects [p], the package selected for it. *)
Definition violates_package (d : DifferenceContext) (e : ResolvedDependencyEdge)
    (p : ResolvedPackage) : Prop :=
  names_R e = false ∧ ∃ key,
    dependency_key (difference_request d) (requirement_name (edge_package e))
      (requirement_source (edge_package e)) = Some key ∧
    first_such (λ q, resolved_subject q ≈ key) (difference_selected_packages d) p ∧
    VersionConstraint_satisfies (requirement_constraint (edge_package e)) (resolved_version p)
      = false.

(** A package of another subject holds the candidate's name. *)
Definition holds_name (d : DifferenceContext) (c : PreparedCandidate) (p : ResolvedPackage) : Prop :=
  resolved_subject p ≉ difference_subject d ∧
  resolved_name p = ReleaseIdentity_name (candidate_identity c) ∧
  resolved_identity p ≉ candidate_identity c.

(** The root concerns the subject and rejects the candidate's version. *)
Definition root_violated (d : DifferenceContext) (c : PreparedCandidate) (root : RootRequirement) :
    Prop :=
  concerns (difference_request d) (difference_subject d) (root_package root) ∧
  VersionConstraint_satisfies (requirement_constraint (root_package root)) (candidate_version c)
    = false.

(** The cutoff applies to the candidate. *)
Definition held_to (d : DifferenceContext) (c : PreparedCandidate) (cutoff : PublicationCutoff) :
    Prop :=
  publication_cutoff (difference_request d) = Some cutoff ∧
  PackageRelease_is_r_base_package (candidate_release c) = false ∧
  ∀ locked, decision_locked (difference_decision d) = Some locked →
    candidate_identity c ≉ locked.

(** What each reason says. *)
Definition explains (d : DifferenceContext) (c : PreparedCandidate)
    (reason : AssignmentDifference) : Prop :=
  match reason with
  | RequiredLockMismatch required =>
    difference_decision d = DecisionRequire required ∧ candidate_identity c ≉ required
  | DifferenceCooldown date =>
    ∃ cutoff p, held_to d c cutoff ∧ release_publication (candidate_release c) = Some p ∧
      date = PublicationCutoff_date cutoff ∧
      PublicationDate_cmp (ReleasePublication_date p) date = Gt
  | DifferenceUnknown =>
    ∃ cutoff, held_to d c cutoff ∧ release_publication (candidate_release c) = None
  | DifferenceNameConflict name assigned_to =>
    name = ReleaseIdentity_name (candidate_identity c) ∧
    ∃ p, first_such (holds_name d c) (difference_selected_packages d) p ∧
      assigned_to = resolved_identity p
  | RootRequirementMismatch requirement =>
    ∃ root, first_such (root_violated d c) (roots (difference_request d)) root ∧
      requirement = requirement_constraint (root_package root)
  | ConstraintViolatedByAssignment against requirement assigned =>
    (∃ e, first_such (violates_r d) (candidate_edges d c) e ∧
       requirement = requirement_constraint (edge_package e) ∧
       against = SubjectR ∧ assigned = DecisionR (difference_r_version d)) ∨
    (∃ e p, first_such (λ e, ∃ p, violates_package d e p) (candidate_edges d c) e ∧
       violates_package d e p ∧ requirement = requirement_constraint (edge_package e) ∧
       against = subject_to_decision_subject (resolved_subject p) ∧
       assigned = release_candidate (resolved_release p))
  | LowerPreference assigned =>
    assigned = candidate_for_subject (difference_subject d) (difference_selected d) ∧
    ((∃ locked, context_locked (difference_preference d) = Some locked ∧
        candidate_identity c ≉ locked) ∨
     compare_prepared_candidates preference (difference_subject d) (difference_preference d)
       (difference_selected_candidate d) c = Gt)
  end.

(** The order in which the reasons are looked for. *)
Definition reason_rank (reason : AssignmentDifference) : nat :=
  match reason with
  | RequiredLockMismatch _ => 0
  | DifferenceCooldown _ | DifferenceUnknown => 1
  | DifferenceNameConflict _ _ => 2
  | RootRequirementMismatch _ => 3
  | ConstraintViolatedByAssignment _ _ (DecisionR _) => 4
  | ConstraintViolatedByAssignment _ _ _ => 5
  | LowerPreference _ => 6
  end.

(** ** Each check finds its reason, or there is none *)

Lemma lock_difference_iff d c x :
  lock_difference d c = Some x ↔ explains d c x ∧ reason_rank x = 0.
Proof.
  unfold lock_difference. split.
  - destruct (difference_decision d) as [| |i] eqn:E; [done..|].
    destruct (candidate_identity c =?= i) eqn:Ei; [done|]. intros [= <-]. simpl.
    split_and!; [done|..|done]. unfold req_rel. by rewrite Ei.
  - intros [He Hr]. destruct x as [|against q [| |]|i| | | |]; try done. destruct He as [-> Hi].
    unfold req_rel in Hi. by destruct (candidate_identity c =?= i).
Qed.

Lemma held_to_iff d c cutoff :
  publication_cutoff (difference_request d) = Some cutoff →
  PackageRelease_is_r_base_package (candidate_release c)
    || is_locked_to (decision_locked (difference_decision d)) c = false ↔ held_to d c cutoff.
Proof.
  intros Hc. unfold held_to. rewrite orb_false_iff. unfold is_locked_to.
  destruct (decision_locked (difference_decision d)) as [i|]; unfold req_rel.
  - split.
    + intros [Hb Hi]. split_and!; [done..|]. intros ? [= <-]. by rewrite Hi.
    + intros (_ & Hb & Hi). split; [done|]. specialize (Hi i eq_refl).
      by destruct (candidate_identity c =?= i).
  - split; [intros [Hb _]; split_and!; done|intros (_ & Hb & _); done].
Qed.

Lemma publication_difference_iff d c x :
  publication_difference d c = Some x ↔ explains d c x ∧ reason_rank x = 1.
Proof.
  unfold publication_difference. split.
  - destruct (publication_cutoff _) as [cutoff|] eqn:Ec; [|done].
    destruct (PackageRelease_is_r_base_package _ || _) eqn:Eh; [done|].
    apply (held_to_iff d c cutoff Ec) in Eh.
    destruct (release_publication _) as [p|] eqn:Ep.
    + destruct (PublicationDate_cmp _ _) eqn:Ed; try done. intros [= <-]. split; [|done].
      by exists cutoff, p.
    + intros [= <-]. split; [|done]. by exists cutoff.
  - intros [He Hr]. destruct x as [|against q [| |]| | | | |]; try done; simpl in He.
    + destruct He as (k & p & Hh & Hp & -> & Hd). pose proof Hh as [Ek _].
      by rewrite Ek, (proj2 (held_to_iff d c k Ek) Hh), Hp, Hd.
    + destruct He as (k & Hh & Hp). pose proof Hh as [Ek _].
      by rewrite Ek, (proj2 (held_to_iff d c k Ek) Hh), Hp.
Qed.

Lemma occupies_name_iff d c p : occupies_name d c p = true ↔ holds_name d c p.
Proof.
  unfold occupies_name, holds_name, req_rel. rewrite !andb_true_iff, !negb_true_iff, req_leibniz,
    <-!not_true_iff_false. tauto.
Qed.

Lemma name_difference_iff d c x :
  name_difference d c = Some x ↔ explains d c x ∧ reason_rank x = 2.
Proof.
  unfold name_difference. split.
  - destruct (List.find _ _) as [p|] eqn:Ep; [|done]. intros [= <-]. split; [|done].
    split; [done|]. exists p. split; [|done]. by apply (find_first_such _ _ _ _ (occupies_name_iff d c)).
  - intros [He Hr]. destruct x as [|against q [| |]| | | | |]; try done. destruct He as (-> & p & Hp & ->).
    by apply (find_first_such _ _ _ _ (occupies_name_iff d c)) in Hp as ->.
Qed.

Lemma root_rejects_iff d c root : root_rejects d c root = true ↔ root_violated d c root.
Proof.
  unfold root_rejects, root_concerns, root_violated, concerns. rewrite andb_true_iff, negb_true_iff.
  destruct (dependency_key _ _ _) as [key|].
  - split; [intros [Hk ?]; split; [by exists key|done]|].
    intros [(? & [= <-] & Hk) ?]. done.
  - split; [by intros []|]. by intros [(? & ? & _) _].
Qed.

Lemma root_difference_iff d c x :
  root_difference d c = Some x ↔ explains d c x ∧ reason_rank x = 3.
Proof.
  unfold root_difference. split.
  - destruct (List.find _ _) as [p|] eqn:Ep; [|done]. intros [= <-]. split; [|done].
    exists p. split; [|done]. by apply (find_first_such _ _ _ _ (root_rejects_iff d c)).
  - intros [He Hr]. destruct x as [|against q [| |]| | | | |]; try done. destruct He as (p & Hp & ->).
    by apply (find_first_such _ _ _ _ (root_rejects_iff d c)) in Hp as ->.
Qed.

Lemma r_difference_iff d c x :
  r_difference d (candidate_edges d c) = Some x ↔ explains d c x ∧ reason_rank x = 4.
Proof.
  assert (∀ e, names_R e && negb (VersionConstraint_satisfies
    (requirement_constraint (edge_package e)) (difference_r_version d)) = true ↔ violates_r d e) as Hv.
  { intros e. unfold violates_r. by rewrite andb_true_iff, negb_true_iff. }
  unfold r_difference. split.
  - destruct (List.find _ _) as [e|] eqn:Ee; [|done]. intros [= <-]. split; [|done]. left.
    exists e. split_and!; [|done..]. by apply (find_first_such _ _ _ _ Hv).
  - intros [He Hr]. destruct x as [|against q [| |]| | | | |]; try done. simpl in He.
    destruct He as [(e & Hf & -> & -> & [= ->])|(e & p & _ & _ & _ & _ & He)].
    + by apply (find_first_such _ _ _ _ Hv) in Hf as ->.
    + by unfold release_candidate in He.
Qed.

(** The reason of an edge whose constraint rejects [p]. *)
Definition violation (e : ResolvedDependencyEdge) (p : ResolvedPackage) : AssignmentDifference :=
  ConstraintViolatedByAssignment (subject_to_decision_subject (resolved_subject p))
    (requirement_constraint (edge_package e)) (release_candidate (resolved_release p)).

Lemma violated_edge_iff d e x :
  violated_edge d e = Some x ↔ ∃ p, violates_package d e p ∧ x = violation e p.
Proof.
  assert (∀ key p, List.find (λ p, resolved_subject p =?= key) (difference_selected_packages d)
    = Some p ↔ first_such (λ q, resolved_subject q ≈ key) (difference_selected_packages d) p) as Hf.
  { intros key p. by apply find_first_such. }
  unfold violated_edge, violates_package. split.
  - destruct (names_R e); [done|]. destruct (dependency_key _ _ _) as [key|]; [|done].
    destruct (List.find _ _) as [p|] eqn:Ep; [|done]. apply Hf in Ep.
    destruct (VersionConstraint_satisfies _ _) eqn:Es; [done|]. simpl. intros [= <-].
    exists p. split; [|done]. split; [done|]. by exists key.
  - intros (p & (-> & key & -> & Hp & Hs) & ->). apply Hf in Hp. by rewrite Hp, Hs.
Qed.

Lemma violated_edge_first d c x :
  list_find_map (violated_edge d) (candidate_edges d c) = Some x ↔
  explains d c x ∧ reason_rank x = 5.
Proof.
  rewrite list_find_map_some. split.
  - intros (l1 & e & l2 & Hl & (p & Hp & ->)%violated_edge_iff & Hb). split; [|done]. right.
    exists e, p. split_and!; [|done..]. exists l1, l2. split_and!; [done|by exists p|].
    intros y Hy [q Hq]. specialize (Hb y Hy).
    by rewrite (proj2 (violated_edge_iff d y _) (ex_intro _ q (conj Hq eq_refl))) in Hb.
  - intros [He Hr]. destruct x as [|against q a| | | | |]; try done.
    destruct He as [(e & _ & _ & _ & ->)|(e & p & (l1 & l2 & Hl & _ & Hb) & Hp & -> & -> & ->)];
      [done|].
    exists l1, e, l2. split_and!; [done|apply violated_edge_iff; by exists p|]. intros y Hy.
    destruct (violated_edge d y) as [z|] eqn:Ez; [|done]. destruct (Hb y Hy).
    apply violated_edge_iff in Ez as (q & Hq & _). by exists q.
Qed.

Lemma preference_difference_iff d c x :
  preference_difference preference d c = Some x ↔ explains d c x ∧ reason_rank x = 6.
Proof.
  unfold preference_difference. split.
  - destruct (_ || _) eqn:E; [|done]. intros [= <-].
    split; [|done]. simpl. split; [done|]. apply orb_true_iff in E as [E|E].
    + left. destruct (context_locked _) as [i|]; [|done]. exists i. split; [done|].
      by apply req_false_iff, negb_true_iff.
    + right. by destruct (compare_prepared_candidates _ _ _ _ _).
  - intros [He Hr]. destruct x as [|against q [| |]| | | | |]; try done. destruct He as [-> Hc].
    destruct Hc as [(i & -> & Hi)| ->].
    + apply req_false_iff in Hi. by rewrite Hi.
    + by rewrite orb_true_r.
Qed.

Lemma difference_for_candidate_chain c d :
  difference_for_candidate preference c d =
  or_else (lock_difference d c) (or_else (publication_difference d c)
    (or_else (name_difference d c) (or_else (root_difference d c)
      (or_else (r_difference d (candidate_edges d c))
        (or_else (list_find_map (violated_edge d) (candidate_edges d c))
          (or_else (preference_difference preference d c) None)))))).
Proof.
  unfold difference_for_candidate, candidate_edges.
  destruct (lock_difference d c), (publication_difference d c), (name_difference d c),
    (root_difference d c), (r_difference d _), (list_find_map _ _),
    (preference_difference preference d c); done.
Qed.

Lemma explained_rank d c x : explains d c x → reason_rank x < 7.
Proof. intros _. destruct x as [|against q [| |]| | | | |]; simpl; lia. Qed.

Lemma difference_reported c d :
  match difference_for_candidate preference c d with
  | Some x => explains d c x ∧ 0 ≤ reason_rank x ∧
      ∀ y, explains d c y → 0 ≤ reason_rank y → reason_rank x < reason_rank y ∨ y = x
  | None => ∀ y, explains d c y → reason_rank y < 0
  end.
Proof.
  rewrite difference_for_candidate_chain.
  apply or_else_first; [apply lock_difference_iff|].
  apply or_else_first; [apply publication_difference_iff|].
  apply or_else_first; [apply name_difference_iff|].
  apply or_else_first; [apply root_difference_iff|].
  apply or_else_first; [apply r_difference_iff|].
  apply or_else_first; [apply violated_edge_first|].
  apply or_else_first; [apply preference_difference_iff|].
  apply explained_rank.
Qed.

(** C35: the reason reported for an alternative holds of it, and every other
    that holds comes later in the order of the checks: required lock, cutoff,
    name, roots, R, dependencies, preference. A root, an edge or a package that
    a reason names is the first that gives it, in the order of its list. No
    reason is reported exactly when none holds. *)
Theorem difference_for_candidate_spec c d :
  match difference_for_candidate preference c d with
  | Some x => explains d c x ∧
      ∀ y, explains d c y → reason_rank x < reason_rank y ∨ y = x
  | None => ∀ y, ¬ explains d c y
  end.
Proof.
  pose proof (difference_reported c d) as Hd. destruct (difference_for_candidate _ _ _) as [x|].
  - destruct Hd as (Hx & _ & Hmin). split; [done|]. intros y Hy. apply Hmin; [done|lia].
  - intros y Hy. specialize (Hd y Hy). lia.
Qed.
End reasons.

Section bases.
Context `{CivilDate, Sha2, UnicodeTables}.
Context (selected : ResolvedPackage) (candidates : list PreparedCandidate)
  (decision : LockDecision) (request : ResolutionRequest) (subject : SolverKey)
  (r_version : RPackageVersion) (e : RootExpansionPolicy).

(** The constraints on R of what the candidate depends on hold. *)
Definition r_compatible (c : PreparedCandidate) : Prop :=
  ∀ edge, edge ∈ project_dependency_edges (candidate_release c) e → names_R edge = true →
    VersionConstraint_satisfies (requirement_constraint (edge_package edge)) r_version = true.

(** What each basis says. *)
Definition basis_holds (basis : AssignmentBasis) : Prop :=
  match basis with
  | InstalledNameReservation => ∃ name, subject = KeyInstalledName name
  | LockedPreference i => decision_locked decision = Some i ∧ i ≈ resolved_identity selected
  | RepositoryCurrent => ∃ c o, c ∈ candidates ∧ candidate_identity c ≈ resolved_identity selected ∧
      o ∈ applicable_occurrences c subject ∧ occurrence_currentness o = Current
  | OnlyStaticallyCompatible => ∃ before c after, candidates = before ++ c :: after ∧
      r_compatible c ∧ ∀ c', c' ∈ before ++ after → ¬ r_compatible c'
  | ExactRootRequirement => ∃ root clause, root ∈ roots request ∧
      concerns request subject (root_package root) ∧
      clause ∈ clauses (requirement_constraint (root_package root)) ∧
      clause_op clause = OpEq ∧ clause_version clause ≈ resolved_version selected
  | HighestCompatible => True
  | FixedRTarget => False
  end.

(** The order in which the bases are looked for. *)
Definition basis_rank (basis : AssignmentBasis) : nat :=
  match basis with
  | InstalledNameReservation => 0
  | LockedPreference _ => 1
  | RepositoryCurrent => 2
  | OnlyStaticallyCompatible => 3
  | ExactRootRequirement => 4
  | HighestCompatible => 5
  | FixedRTarget => 6
  end.

Lemma r_compatible_iff c : statically_compatible r_version e c = true ↔ r_compatible c.
Proof.
  unfold statically_compatible, r_compatible. rewrite forallb_forall.
  split; intros Hf edge Hin; specialize (Hf edge).
  - intros HR. rewrite HR in Hf. apply Hf. by apply list_elem_of_In.
  - destruct (names_R edge); [|done]. apply Hf; [by apply list_elem_of_In|done].
Qed.

(** The checks of [assignment_basis], each as what it returns. *)
Definition check (b : bool) (basis : AssignmentBasis) : option AssignmentBasis :=
  if b then Some basis else None.
Definition reservation_check : option AssignmentBasis :=
  match subject with KeyInstalledName _ => Some InstalledNameReservation | _ => None end.
Definition current_check : bool :=
  existsb (λ c, (candidate_identity c =?= resolved_identity selected)
                && has_current_occurrence subject c) candidates.
Definition pinned_check : bool :=
  existsb (λ root, root_concerns request subject root
                   && pins_version (resolved_version selected) root) (roots request).

Lemma assignment_basis_chain :
  Some (assignment_basis selected candidates decision request subject r_version e) =
  or_else reservation_check (or_else (locked_basis decision (resolved_identity selected))
    (or_else (check current_check RepositoryCurrent)
      (or_else (check (bool_decide
           (length (List.filter (statically_compatible r_version e) candidates) = 1))
           OnlyStaticallyCompatible)
        (or_else (check pinned_check ExactRootRequirement) (Some HighestCompatible))))).
Proof.
  unfold assignment_basis, reservation_check, current_check, pinned_check, check.
  destruct subject; simpl; try done; destruct (locked_basis _ _); simpl; try done;
    destruct (existsb _ _); simpl; try done;
    destruct (bool_decide (length _ = 1)); simpl; try done; by destruct (existsb _ _).
Qed.

(** A check holds exactly when its basis does. *)
Lemma check_first b basis rest :
  (b = true ↔ basis_holds basis) →
  (∀ x, basis_rank x = basis_rank basis → x = basis) →
  match rest with
  | Some x => basis_holds x ∧ S (basis_rank basis) ≤ basis_rank x ∧
      ∀ y, basis_holds y → S (basis_rank basis) ≤ basis_rank y → basis_rank x < basis_rank y ∨ y = x
  | None => ∀ y, basis_holds y → basis_rank y < S (basis_rank basis)
  end →
  match or_else (check b basis) rest with
  | Some x => basis_holds x ∧ basis_rank basis ≤ basis_rank x ∧
      ∀ y, basis_holds y → basis_rank basis ≤ basis_rank y → basis_rank x < basis_rank y ∨ y = x
  | None => ∀ y, basis_holds y → basis_rank y < basis_rank basis
  end.
Proof.
  intros Hb Hone Hrest. apply or_else_first; [|done]. unfold check. split.
  - destruct b; [|done]. intros [= <-]. split; [by apply (proj1 Hb)|done].
  - intros [Hh Hx%Hone]. subst. by apply (proj2 Hb) in Hh as ->.
Qed.

Lemma current_check_iff : current_check = true ↔ basis_holds RepositoryCurrent.
Proof.
  unfold current_check, has_current_occurrence. rewrite existsb_exists. simpl. split.
  - intros (c & Hc%list_elem_of_In & [Hi (o & Ho & Hcur)%existsb_exists]%andb_true_iff).
    exists c, o. apply bool_decide_eq_true in Hcur.
    apply list_elem_of_In in Ho. by split_and!.
  - intros (c & o & Hc%list_elem_of_In & Hi & Ho%list_elem_of_In & Hcur). exists c.
    split; [done|]. apply andb_true_iff. split; [done|]. apply existsb_exists. exists o.
    rewrite bool_decide_eq_true. split; done.
Qed.

Lemma only_check_iff :
  bool_decide (length (List.filter (statically_compatible r_version e) candidates) = 1) = true ↔
  basis_holds OnlyStaticallyCompatible.
Proof.
  rewrite bool_decide_eq_true, filter_length_1. simpl.
  split; intros (l1 & c & l2 & -> & Hc & Hn); exists l1, c, l2;
    (split_and!; [done|by apply r_compatible_iff|]); intros y Hy; specialize (Hn y Hy);
    by rewrite r_compatible_iff in *.
Qed.

Lemma pinned_check_iff : pinned_check = true ↔ basis_holds ExactRootRequirement.
Proof.
  unfold pinned_check, pins_version, root_concerns. rewrite existsb_exists. simpl. split.
  - intros (root & Hr%list_elem_of_In & [Hk (cl & Hcl & Hp)%existsb_exists]%andb_true_iff).
    apply andb_true_iff in Hp as [Ho Hv]. exists root, cl. apply req_leibniz in Ho.
    apply list_elem_of_In in Hcl. split_and!; try done.
    destruct (dependency_key _ _ _) as [key|] eqn:Ek; [|done]. by exists key.
  - intros (root & cl & Hr%list_elem_of_In & (key & Hk & Hks) & Hcl%list_elem_of_In & Ho & Hv).
    exists root. split; [done|]. rewrite Hk. apply andb_true_iff. split; [done|].
    apply existsb_exists. exists cl. split; [done|]. rewrite Ho. by apply andb_true_iff.
Qed.

Lemma locked_basis_iff x :
  locked_basis decision (resolved_identity selected) = Some x ↔ basis_holds x ∧ basis_rank x = 1.
Proof.
  unfold locked_basis. split.
  - destruct decision as [|i|i] eqn:Ed; [done|..];
      (destruct (i =?= _) eqn:E; [|done]); intros [= <-];
      (split; [|done]); (split; [by rewrite Ed|done]).
  - intros [Hb Hr]. destruct x; try done. destruct Hb as [Hd Hi].
    destruct decision eqn:Ed; simpl in Hd; try done; injection Hd as ->;
      by rewrite (proj2 (req_true_iff _ _) Hi).
Qed.

(** The basis reported for an assignment holds of it, and no basis looked
    for earlier does. *)
Theorem assignment_basis_spec :
  let basis := assignment_basis selected candidates decision request subject r_version e in
  basis_holds basis ∧
  ∀ other, basis_holds other → basis_rank basis < basis_rank other ∨ other = basis.
Proof.
  intros basis.
  assert (∀ o, o = Some basis → match o with
          | Some x => basis_holds x ∧ 0 ≤ basis_rank x ∧
              ∀ y, basis_holds y → 0 ≤ basis_rank y → basis_rank x < basis_rank y ∨ y = x
          | None => ∀ y, basis_holds y → basis_rank y < 0
          end) as Hfirst.
  2: { destruct (Hfirst _ eq_refl) as (Hb & _ & Hmin). split; [done|].
       intros y Hy. apply Hmin; [done|lia]. }
  intros o Ho. unfold basis in Ho. rewrite assignment_basis_chain in Ho. rewrite Ho. clear Ho.
  apply or_else_first.
  - intros x. unfold reservation_check. split.
    + destruct subject eqn:Es; try done. intros [= <-]. split; [by eexists|done].
    + intros [Hb Hr]. destruct x; try done. destruct Hb as [n Hs]. by rewrite Hs.
  - apply or_else_first; [apply locked_basis_iff|].
    apply (check_first _ RepositoryCurrent); [apply current_check_iff|by intros []|].
    apply (check_first _ OnlyStaticallyCompatible); [apply only_check_iff|by intros []|].
    apply (check_first _ ExactRootRequirement); [apply pinned_check_iff|by intros []|].
    simpl. split_and!; [done|lia|]. intros y Hy Hr. destruct y; simpl in *; try lia; by right.
Qed.
End bases.

(** ** The comparison of a resolution *)

(** A search with at most one match does not see the order. *)
Lemma find_Permutation {A} (f : A → bool) (l k : list A) :
  (∀ x y, x ∈ l → y ∈ l → f x = true → f y = true → x = y) →
  l ≡ₚ k → List.find f l = List.find f k.
Proof.
  intros Hu Hlk. pose proof (find_some_iff f l) as Hl. pose proof (find_some_iff f k) as Hk.
  destruct (List.find f l) as [x|], (List.find f k) as [y|]; [..|done].
  - destruct Hl, Hk. f_equal. apply Hu; [done|by rewrite Hlk|done..].
  - destruct Hl as [Hx Hf]. rewrite Hk in Hf; [done|by rewrite <-Hlk].
  - destruct Hk as [Hx Hf]. rewrite Hl in Hf; [done|by rewrite Hlk].
Qed.

Lemma existsb_Permutation {A} (f : A → bool) (l k : list A) :
  l ≡ₚ k → existsb f l = existsb f k.
Proof.
  induction 1 as [|x l k _ IH|x y l|l k m _ IH1 _ IH2]; simpl; [done|by rewrite IH| |congruence].
  by rewrite !orb_assoc, (orb_comm (f y)).
Qed.

Lemma filter_bool_Permutation {A} (f : A → bool) (l k : list A) :
  l ≡ₚ k → List.filter f l ≡ₚ List.filter f k.
Proof.
  induction 1 as [|x l k _ IH|x y l|l k m _ IH1 _ IH2]; simpl; [done|..|by etrans].
  - destruct (f x); [by apply perm_skip|done].
  - destruct (f x), (f y); try done. apply perm_swap.
Qed.

Section comparisons.
Context `{CivilDate, Sha2, UnicodeTables}.

(** Two views of a subject that differ in the order of candidates with
    distinct identities and distinct sort keys. *)
Definition candidates_distinct (l : list PreparedCandidate) : Prop :=
  ∀ x y, x ∈ l → y ∈ l →
    candidate_identity x ≈ candidate_identity y ∨
    (RPackageVersion_cmp (candidate_version x) (candidate_version y) = Eq ∧
     candidate_sort_key x = candidate_sort_key y) → x = y.

Definition same_view (a b : result (list PreparedCandidate) CandidateLoadError) : Prop :=
  match a, b with
  | Ok l, Ok k => candidates_distinct l ∧ l ≡ₚ k
  | Err e, Err f => e = f
  | _, _ => False
  end.

#[global] Instance alternative_cmp_order : CmpOrder alternative_cmp.
Proof.
  change (CmpOrder (cmp_on (A:=(RPackageVersion * string) * AlternativeComparison) fst
    (cmp_then (cmp_on fst RPackageVersion_cmp) (cmp_on snd str_cmp)))). apply _.
Qed.

Lemma alternatives_Permutation self d l k :
  candidates_distinct l → l ≡ₚ k →
  sort_by alternative_cmp (omap (keyed_alternative self d) l) =
  sort_by alternative_cmp (omap (keyed_alternative self d) k).
Proof.
  intros Hd Hlk. apply sort_by_unique; [apply _| |by rewrite Hlk].
  intros x y (cx & Hcx & Hx)%list_elem_of_omap (cy & Hcy & Hy)%list_elem_of_omap Hxy.
  enough (cx = cy) by congruence. apply Hd; [done..|]. right.
  unfold keyed_alternative in Hx, Hy.
  destruct (negb (candidate_identity cx =?= _)); [|done].
  destruct (negb (candidate_identity cy =?= _)); [|done].
  destruct (difference_for_candidate _ cx _); [|done].
  destruct (difference_for_candidate _ cy _); [|done]. injection Hx as <-. injection Hy as <-.
  unfold alternative_cmp, cmp_then, cmp_on in Hxy. simpl in Hxy.
  destruct (RPackageVersion_cmp _ _); try done. split; [done|].
  by apply (cmp_eq_leibniz str_cmp).
Qed.

Lemma compare_package_same_view self self' request t selected p :
  resolver_preference self = resolver_preference self' →
  resolver_lock_policy self = resolver_lock_policy self' →
  same_view (loader_releases (resolver_loader self) (resolved_subject p))
    (loader_releases (resolver_loader self') (resolved_subject p)) →
  compare_package self request t selected p = compare_package self' request t selected p.
Proof.
  intros Hp Hl Hv. unfold compare_package, load_candidates, same_view in *.
  destruct (loader_releases (resolver_loader self) _) as [l|e],
    (loader_releases (resolver_loader self') _) as [k|f]; simpl in *; try done; [|congruence].
  destruct Hv as [Hd Hlk]. rewrite <-Hl.
  rewrite (find_Permutation _ l k); [|clear -Hd H|done].
  2: { intros x y Hx Hy Hix Hiy. apply Hd; [done..|]. left.
       apply req_true_iff in Hix as ->. by apply req_true_iff in Hiy as ->. }
  destruct (List.find _ k) as [c|]; [|done]. f_equal. f_equal.
  - unfold assignment_basis. rewrite (existsb_Permutation _ l k Hlk).
    by rewrite (Permutation_length (filter_bool_Permutation _ l k Hlk)).
  - rewrite (alternatives_Permutation self _ l k Hd Hlk). do 2 f_equal.
    unfold keyed_alternative. by rewrite Hp.
Qed.

(** The order in which the loader lists candidates does not reach the
    comparison. *)
Theorem reconstruct_comparison_order self self' request resolution :
  resolver_preference self = resolver_preference self' →
  resolver_lock_policy self = resolver_lock_policy self' →
  (∀ subject, same_view (loader_releases (resolver_loader self) subject)
                (loader_releases (resolver_loader self') subject)) →
  reconstruct_comparison self request resolution = reconstruct_comparison self' request resolution.
Proof.
  intros Hp Hl Hv. unfold reconstruct_comparison.
  rewrite (try_map_ext _ (compare_package self' request (resolution_target resolution)
    (sort_by selected_cmp (resolution_packages resolution)))); [done|].
  intros p _. by apply compare_package_same_view.
Qed.
End comparisons.

Section compared.
Context `{CivilDate, Sha2, UnicodeTables}.
Context `{!VersionRanges SolverVersion, !DependencyConstraints PackageId Ranges}.
Context `{!VersionRangesLaws SolverVersion, !DependencyConstraintsLaws PackageId Ranges Ranges_contains}.
Context `{!PubGrub PackageId SolverVersion Ranges Constraints ProviderMessage AdapterError
            Priority ProviderState}.
Context `{!PubGrubLaws (P:=PackageId) (V:=SolverVersion) (VS:=Ranges) (DC:=Constraints)
            (M:=ProviderMessage) (E:=AdapterError) (Priority:=Priority) (S:=ProviderState)
            Ranges_contains Constraints_pairs}.

(** Whatever [load] offers for a subject, [releases] lists for every spelling
    of it. *)
Definition loader_coherent (loader : CandidateLoader) : Prop :=
  ∀ key subject r c, key ≈ subject → loader_load loader key = Ok r → c ∈ load_candidates_of r →
    ∃ l c', loader_releases loader subject = Ok l ∧ c' ∈ l ∧
      candidate_identity c' ≈ candidate_identity c.

Context (self : Resolver) (request : ResolutionRequest).
Context (Hwf : loader_wf (resolver_loader self)) (Hcoherent : loader_coherent (resolver_loader self)).

Definition provider : Provider :=
  mk_Provider (resolver_loader self) (resolver_preference self) (resolver_lock_policy self) request.

(** What a candidate of a package is compared against. *)
Definition comparison_context (t : ResolutionTarget) (packages : list ResolvedPackage)
    (p : ResolvedPackage) (c : PreparedCandidate) : DifferenceContext :=
  let decision := policy_decision (resolver_lock_policy self) (resolved_subject p)
                    (hm_get (resolved_subject p) (locked request)) in
  mk_DifferenceContext (resolved_release p) c (target_r_version t) decision
    (mk_PreferenceContext (decision_locked decision)) (resolved_subject p) packages request
    (root_expansion_for_package request (resolved_name p)).

(** The assignment names the package and, among the loader's other candidates,
    lists exactly those with a reason, by version and identity. *)
Record assignment_describes (t : ResolutionTarget) (packages : list ResolvedPackage)
    (p : ResolvedPackage) (a : SubjectAssignment) : Prop := {
  describes_subject : assignment_subject a = subject_to_decision_subject (resolved_subject p);
  describes_assigned : assigned a = candidate_for_subject (resolved_subject p) (resolved_release p);
  describes_alternatives : ∃ l c keyed,
    loader_releases (resolver_loader self) (resolved_subject p) = Ok l ∧
    c ∈ l ∧ candidate_identity c ≈ resolved_identity p ∧
    alternatives a = keyed.*2 ∧ StronglySorted (cmp_le alternative_cmp) keyed ∧
    ∀ key x, (key, x) ∈ keyed ↔ ∃ c', c' ∈ l ∧ candidate_identity c' ≉ resolved_identity p ∧
      key = (candidate_version c', candidate_sort_key c') ∧
      alternative_candidate x = candidate_for_subject (resolved_subject p) (candidate_release c') ∧
      difference_for_candidate (resolver_preference self) c' (comparison_context t packages p c)
        = Some (differs_by x);
}.

Lemma keyed_alternative_some d c key x :
  keyed_alternative self d c = Some (key, x) ↔
  candidate_identity c ≉ release_identity (difference_selected d) ∧
  key = (candidate_version c, candidate_sort_key c) ∧
  alternative_candidate x = candidate_for_subject (difference_subject d) (candidate_release c) ∧
  difference_for_candidate (resolver_preference self) c d = Some (differs_by x).
Proof.
  unfold keyed_alternative. split.
  - destruct (negb (candidate_identity c =?= _)) eqn:E; [|done].
    apply negb_true_iff, req_false_iff in E.
    destruct (difference_for_candidate _ _ _); [|done]. intros [= <- <-]. by split_and!.
  - intros (E & -> & Hx & ->). apply req_false_iff in E. rewrite E. simpl. rewrite <-Hx.
    by destruct x.
Qed.

Lemma compare_package_ok t packages p l c :
  loader_releases (resolver_loader self) (resolved_subject p) = Ok l →
  c ∈ l → candidate_identity c ≈ resolved_identity p →
  ∃ a, compare_package self request t packages p = Ok a ∧ assignment_describes t packages p a.
Proof.
  intros Hl Hc Hi. unfold compare_package, load_candidates. rewrite Hl. simpl.
  match goal with |- context [List.find ?f l] => pose proof (find_some_iff f l) as Hf;
    destruct (List.find f l) as [c'|] end.
  2: { specialize (Hf c Hc). simpl in Hf. by apply req_false_iff in Hf. }
  destruct Hf as [Hc' Hi'%req_true_iff]. eexists. split; [done|]. constructor; [done..|].
  eexists l, c', _. split_and!; [done..| |].
  - apply sort_by_sorted, _.
  - intros key x. rewrite elem_of_sort_by, list_elem_of_omap.
    setoid_rewrite keyed_alternative_some. done.
Qed.

(** A package of a sound resolution is among its subject's releases. *)
Lemma sound_package_released packages p :
  package_sound provider packages p →
  ∃ l c, loader_releases (resolver_loader self) (resolved_subject p) = Ok l ∧ c ∈ l ∧
    candidate_identity c ≈ resolved_identity p.
Proof.
  intros [(c & (key & r & out & Hk & Hr & Ho & Hc) & _ & _ & Hi & _) _ _ _].
  destruct (eligible_unique_source _ _ _ (Hwf _ _ Hr) Ho c Hc) as (x & Hx & Hxc).
  destruct (Hcoherent _ _ _ _ Hk Hr Hx) as (l & c' & Hl & Hc' & Hi').
  exists l, c'. split_and!; [done..|]. by rewrite Hi', Hxc, Hi.
Qed.

Lemma sound_compared res :
  resolution_sound provider res →
  ∃ rest, reconstruct_comparison self request res =
            Ok (mk_AssignmentComparison (r_assignment (resolution_target res) :: rest)) ∧
    Forall2 (assignment_describes (resolution_target res) (resolution_packages res))
      (resolution_packages res) rest.
Proof.
  intros Hs. unfold reconstruct_comparison. rewrite sort_by_sorted_id.
  2: { pose proof (sound_names _ _ Hs) as Hn. clear -Hn.
       induction Hn as [|p l _ IH Hp]; constructor; [done|]. eapply Forall_impl; [done|].
       intros q Hpq. simpl in Hpq. unfold cmp_le, selected_cmp, cmp_then. by rewrite Hpq. }
  set (f := compare_package _ _ _ _).
  assert (∀ ps, (∀ p, p ∈ ps → p ∈ resolution_packages res) → ∃ rest, try_map f ps = Ok rest ∧
    Forall2 (assignment_describes (resolution_target res) (resolution_packages res)) ps rest)
    as Hall.
  2: { destruct (Hall (resolution_packages res)) as (rest & Hr & Hd); [done|].
       rewrite Hr. by exists rest. }
  induction ps as [|p ps IH]; intros Hps; [by exists []|].
  destruct IH as (rest & Hr & Hd); [by intros q Hq; apply Hps; right|].
  destruct (sound_package_released _ p (sound_packages _ _ Hs p (Hps p (list_elem_of_here _ _))))
    as (l & c & Hl & Hc & Hi).
  destruct (compare_package_ok (resolution_target res) (resolution_packages res) p l c Hl Hc Hi)
    as (a & Ha & Hda).
  exists (a :: rest). simpl. unfold f at 1. rewrite Ha. simpl. rewrite Hr.
  split; [done|]. by constructor.
Qed.

(** C31: whenever [resolve] succeeds so does its comparison, which starts with R
    and then describes the packages in the order of the resolution; the error
    for a selected release that is absent from its subject's view never
    arises, and no other error than that of [resolve] does. *)
Theorem resolve_with_assignment_comparison_spec :
  match Resolver_resolve self request with
  | Ok res => ∃ rest,
      resolve_with_assignment_comparison self request =
        Ok (mk_ComparedResolution res
              (mk_AssignmentComparison (r_assignment (resolution_target res) :: rest))) ∧
      Forall2 (assignment_describes (resolution_target res) (resolution_packages res))
        (resolution_packages res) rest
  | Err e => resolve_with_assignment_comparison self request = Err e
  end.
Proof using All.
  unfold resolve_with_assignment_comparison.
  destruct (Resolver_resolve self request) as [res|e] eqn:E; [|done]. simpl.
  assert (resolution_sound provider res) as Hs.
  { unfold Resolver_resolve in E. pose proof E as E'. unfold solve in E'.
    destruct (pubgrub_resolve _ _ _ _) as [[sel|e] s] eqn:Ep; [|done].
    destruct (solve_solution provider Hwf sel s Ep) as (res' & Hr & Hs). simpl in Hr.
    congruence. }
  destruct (sound_compared res Hs) as (rest & Hr & Hd). rewrite Hr. by exists rest.
Qed.
End compared.
