(* ===== verification/Instances.v ===== *)
(** * Concrete third-party code

    One instance of each interface of [Externals.v], with its laws: the theorems
    that are relative to those laws hold of something, and the examples of
    [Examples.v] evaluate.  None of this models code of the repository. *)

From S2P Require Import Prelude Effects RustStd Collections Text Externals FileSystem.

(** ** Dates as their own ISO spelling *)

Definition iso_byte (i : nat) (b : byte) : bool :=
  if bool_decide (i = 4 ∨ i = 7) then (u8 b =? 45)%N else ((48 <=? u8 b) && (u8 b <=? 57))%N.
Definition iso_date (s : string) : bool :=
  bool_decide (str_len s = 10) &&
  forallb (λ ib, iso_byte ib.1 ib.2) (zip (seq 0 (str_len s)) (bytes s)).

#[export] Instance iso_CivilDate : CivilDate := {
  Date := string;
  Date_eq_dec := _;
  Date_cmp := str_cmp;
  Date_strptime _ input := if iso_date input then Ok input else Err "not a date";
  Date_strftime _ date := date;
}.

#[export] Instance iso_CivilDateLaws : CivilDateLaws.
Proof. constructor; apply _. Qed.

(** ** A digest that keeps the first 32 bytes *)

#[export] Instance prefix_Sha2 : Sha2 := {
  sha256_digest data := take 32 (data ++ replicate 32 x00);
}.

#[export] Instance prefix_Sha2Laws : Sha2Laws.
Proof.
  constructor. intros data. unfold sha256_digest, prefix_Sha2.
  rewrite length_take, length_app, length_replicate. lia.
Qed.

#[export] Instance ascii_UnicodeTables : UnicodeTables := {
  grapheme_extend _ := false;
  unicode_printable _ := true;
}.

(** ** Ranges and constraints as lists *)

Section lists.
Context {V : Type} `{PartialEq V, !RustEq V}.

#[global] Instance list_VersionRanges : VersionRanges V := {
  Ranges := list V;
  Ranges_empty := [];
  Ranges_singleton v := [v];
  Ranges_union r s := r ++ s;
  Ranges_contains r v := existsb (λ w, w =?= v) r;
  Ranges_eq r s := forallb (λ v, existsb (λ w, w =?= v) s) r &&
                   forallb (λ v, existsb (λ w, w =?= v) r) s;
}.

Lemma contains_incl (r s : list V) (v : V) :
  forallb (λ v, existsb (λ w, w =?= v) s) r = true →
  existsb (λ w, w =?= v) r = true → existsb (λ w, w =?= v) s = true.
Proof.
  rewrite forallb_forall. intros Hrs (w & Hw & Hwv)%existsb_exists.
  apply Hrs, existsb_exists in Hw as (x & Hx & Hxw). apply existsb_exists.
  exists x. split; [done|]. change (x ≈ v). change (x ≈ w) in Hxw. change (w ≈ v) in Hwv. by etrans.
Qed.

#[global] Instance list_VersionRangesLaws : VersionRangesLaws V.
Proof.
  constructor; simpl; [done|..].
  - intros v w. by rewrite orb_false_r.
  - intros r s v. apply existsb_app.
  - intros r. rewrite andb_diag. apply forallb_forall. intros v Hv. apply existsb_exists.
    exists v. split; [done|]. by apply req_true_iff.
  - intros r s v [Hrs Hsr]%andb_true_iff. apply eq_bool_prop_intro. rewrite !Is_true_true.
    split; by apply contains_incl.
Qed.

Context {P : Type} `{PartialEq P, !RustEq P} {VS : Type}.

#[global] Instance list_DependencyConstraints : DependencyConstraints P VS := {
  Constraints := list (P * VS);
  Constraints_from_iter l := l;
  Constraints_pairs l := l;
}.

#[global] Instance list_DependencyConstraintsLaws {W : Type} (contains : VS → W → bool) :
  DependencyConstraintsLaws P VS contains.
Proof. constructor; simpl; intros l p r Hin. by exists p, r. Qed.
End lists.

(** ** A solver without backtracking

    It serves the requirements in order, choosing a version for each package it
    has not yet decided, and gives up at the first conflict. *)
Section greedy.
Context {P V VS DC M E Priority S : Type} `{PartialEq P, !RustEq P}.
Context (contains : VS → V → bool) (pairs : DC → list (P * VS)).

Definition no_solution {T} : result T (PubGrubError M E) := Err (NoSolutionTree ExternalOther).

(** Decides [p] on [v] and adds what it depends on to [pending]. *)
Definition greedy_decide (provider : DependencyProvider P V VS DC M E Priority S)
    (p : P) (v : V) (sel : list (P * V)) (pending : list (P * VS)) (s : S) :
    result (list (P * V) * list (P * VS)) (PubGrubError M E) * S :=
  match provider_get_dependencies provider p v s with
  | (Err e, s) => (Err (ErrorRetrievingDependencies e), s)
  | (Ok (Unavailable message), s) => (Err (NoSolutionTree (ExternalCustom message)), s)
  | (Ok (AvailableDependencies dc), s) => (Ok (hm_insert p v sel, pending ++ pairs dc), s)
  end.

Fixpoint greedy_serve (fuel : nat) (provider : DependencyProvider P V VS DC M E Priority S)
    (sel : list (P * V)) (pending : list (P * VS)) (s : S) :
    result (list (P * V)) (PubGrubError M E) * S :=
  match fuel with
  | 0 => (no_solution, s)
  | Datatypes.S fuel =>
    match pending with
    | [] => (Ok sel, s)
    | (p, range) :: pending =>
      match hm_get p sel with
      | Some v => if contains range v then greedy_serve fuel provider sel pending s
                  else (no_solution, s)
      | None =>
        match provider_choose_version provider p range s with
        | (Err e, s) => (Err (ErrorChoosingVersion e), s)
        | (Ok None, s) => (no_solution, s)
        | (Ok (Some v), s) =>
          if contains range v then
            match greedy_decide provider p v sel pending s with
            | (Ok (sel, pending), s) => greedy_serve fuel provider sel pending s
            | (Err e, s) => (Err e, s)
            end
          else (no_solution, s)
        end
      end
    end
  end.

Definition greedy_resolve (fuel : nat) (provider : DependencyProvider P V VS DC M E Priority S)
    (root : P) (v : V) (s : S) : result (list (P * V)) (PubGrubError M E) * S :=
  match greedy_decide provider root v [] [] s with
  | (Ok (sel, pending), s) => greedy_serve fuel provider sel pending s
  | (Err e, s) => (Err e, s)
  end.

Context (provider : DependencyProvider P V VS DC M E Priority S).

Lemma provider_run_snoc s calls s' call s'' :
  provider_run provider s calls s' → provider_call provider s' call s'' →
  provider_run provider s (calls ++ [call]) s''.
Proof.
  intros Hrun Hc. induction Hrun as [s|s c s1 calls s2 H1 _ IH]; simpl.
  - econstructor; [done|constructor].
  - econstructor; [done|]. by apply IH.
Qed.

Definition met (sel : list (P * V)) (q : P) (range : VS) : Prop :=
  ∃ q' x, q' ≈ q ∧ (q', x) ∈ sel ∧ contains range x = true.

Definition decided (root : P * V) (calls : list (ProviderCall P V VS DC M E))
    (sel : list (P * V)) (pending : list (P * VS)) (pw : P * V) : Prop :=
  (pw = root ∨ ∃ range, contains range pw.2 = true ∧
     CallChooseVersion pw.1 range (Ok (Some pw.2)) ∈ calls) ∧
  ∃ dc, CallGetDependencies pw.1 pw.2 (Ok (AvailableDependencies dc)) ∈ calls ∧
    ∀ q range, (q, range) ∈ pairs dc → met sel q range ∨ (q, range) ∈ pending.

Definition greedy_inv (root : P * V) (calls : list (ProviderCall P V VS DC M E))
    (sel : list (P * V)) (pending : list (P * VS)) : Prop :=
  hm_wf sel ∧ root ∈ sel ∧ ∀ pw, pw ∈ sel → decided root calls sel pending pw.

Lemma decided_mono root calls calls' sel sel' pending pending' pw :
  decided root calls sel pending pw →
  (∀ c, c ∈ calls → c ∈ calls') → (∀ x, x ∈ sel → x ∈ sel') →
  (∀ q range, (q, range) ∈ pending → met sel' q range ∨ (q, range) ∈ pending') →
  decided root calls' sel' pending' pw.
Proof.
  intros [Hc (dc & Hd & Hp)] Hcalls Hsel Hpending. split.
  - destruct Hc as [->|(range & Hr & Hc)]; [by left|]. right. exists range. auto.
  - exists dc. split; [auto|]. intros q range Hq.
    destruct (Hp q range Hq) as [(q' & x & Hqq & Hx & Hr)|Hq']; [|auto].
    left. exists q', x. auto.
Qed.

Lemma hm_insert_new p v (m : list (P * V)) : hm_get p m = None → hm_insert p v m = m ++ [(p, v)].
Proof.
  induction m as [|[q w] m IH]; simpl; [done|].
  destruct (q =?= p); [done|]. intros Hn. by rewrite (IH Hn).
Qed.

(** Deciding a package that was not decided keeps the invariant. *)
Lemma greedy_decide_inv root calls0 s0 s p v sel pending r s' :
  provider_run provider s0 calls0 s → hm_wf sel → hm_get p sel = None →
  (root ∈ sel ∨ (p, v) = root) →
  ((p, v) = root ∨ ∃ range, contains range v = true ∧
     CallChooseVersion p range (Ok (Some v)) ∈ calls0) →
  (∀ pw, pw ∈ sel → decided root calls0 (sel ++ [(p, v)]) pending pw) →
  greedy_decide provider p v sel pending s = (r, s') →
  ∃ calls, provider_run provider s0 calls s' ∧
    match r with Ok (sel', pending') => greedy_inv root calls sel' pending' | Err _ => True end.
Proof.
  intros Hrun Hwf Hn Hroot Hchosen Hall. unfold greedy_decide.
  destruct (provider_get_dependencies provider p v s) as [d s1] eqn:Ed.
  assert (provider_run provider s0 (calls0 ++ [CallGetDependencies p v d]) s1) as Hrun'
    by by eapply provider_run_snoc.
  destruct d as [[message|dc]|e]; intros [= <- <-]; eexists; (split; [exact Hrun'|]); [done| |done].
  rewrite hm_insert_new by done. split_and!.
  - rewrite <-hm_insert_new by done. by apply hm_insert_wf.
  - rewrite elem_of_app, list_elem_of_singleton. destruct Hroot; [by left|by right].
  - intros pw. rewrite elem_of_app, list_elem_of_singleton. intros [Hpw| ->].
    + eapply decided_mono; [by apply Hall|..]; [|done|].
      * intros c. rewrite elem_of_app. by left.
      * intros q range Hq. rewrite elem_of_app. auto.
    + split.
      * destruct Hchosen as [Hv|(range & Hr & Hc)]; [by left|]. right. exists range.
        rewrite elem_of_app. auto.
      * exists dc. rewrite elem_of_app, list_elem_of_singleton. split; [by right|].
        intros q range Hq. right. rewrite elem_of_app. by right.
Qed.

Lemma greedy_serve_inv root fuel : ∀ calls0 s0 s sel pending r s',
  provider_run provider s0 calls0 s → greedy_inv root calls0 sel pending →
  greedy_serve fuel provider sel pending s = (r, s') →
  ∃ calls, provider_run provider s0 calls s' ∧
    match r with Ok sel' => greedy_inv root calls sel' [] | Err _ => True end.
Proof.
  induction fuel as [|fuel IH]; intros calls0 s0 s sel pending r s' Hrun Hinv; simpl.
  { intros [= <- <-]. by exists calls0. }
  destruct pending as [|[p range] pending]; [intros [= <- <-]; by exists calls0|].
  destruct Hinv as (Hwf & Hroot & Hall).
  destruct (hm_get p sel) as [w|] eqn:Hg.
  - destruct (contains range w) eqn:Hw; [|intros [= <- <-]; by exists calls0].
    apply (IH calls0); [done|]. split_and!; [done..|]. intros pw Hpw.
    eapply decided_mono; [by apply Hall|done|done|]. intros q range'.
    rewrite elem_of_cons. intros [[= -> ->]|Hq]; [left|by right].
    apply hm_get_in in Hg as (q' & Hq' & Hin). by exists q', w.
  - destruct (provider_choose_version provider p range s) as [c s1] eqn:Ec.
    assert (provider_run provider s0 (calls0 ++ [CallChooseVersion p range c]) s1) as Hrun'
      by by eapply provider_run_snoc.
    destruct c as [[w|]|e]; try (intros [= <- <-]; eexists; split; [exact Hrun'|done]).
    destruct (contains range w) eqn:Hw; [|intros [= <- <-]; eexists; split; [exact Hrun'|done]].
    destruct (greedy_decide provider p w sel pending s1) as [d s2] eqn:Ed.
    eapply (greedy_decide_inv root) in Ed as (calls & Hcalls & Hd);
      [|exact Hrun'|done|done|by left|..].
    + destruct d as [[sel' pending']|e]; [by apply (IH calls)|].
      intros [= <- <-]. by exists calls.
    + right. exists range. rewrite elem_of_app, list_elem_of_singleton. auto.
    + intros pw Hpw. eapply decided_mono; [by apply Hall|..].
      * intros c. rewrite elem_of_app. by left.
      * intros x. rewrite elem_of_app. by left.
      * intros q range'. rewrite elem_of_cons. intros [[= -> ->]|Hq]; [left|by right].
        exists p, w. rewrite elem_of_app, list_elem_of_singleton. by split_and!; [|right|].
Qed.

Lemma greedy_resolve_run fuel root v s r s' :
  greedy_resolve fuel provider root v s = (r, s') →
  ∃ calls, provider_run provider s calls s' ∧
    match r with Ok sel => greedy_inv (root, v) calls sel [] | Err _ => True end.
Proof.
  unfold greedy_resolve. destruct (greedy_decide provider root v [] [] s) as [d s1] eqn:Ed.
  eapply (greedy_decide_inv (root, v) []) in Ed as (calls & Hcalls & Hd);
    [|constructor|constructor|done|by right|by left|by intros ? ?%elem_of_nil].
  destruct d as [[sel pending]|e]; [by apply (greedy_serve_inv _ _ calls)|].
  intros [= <- <-]. by exists calls.
Qed.
End greedy.

Section greedy_instance.
Context {P V M E Priority S : Type} `{PartialEq P, !RustEq P, PartialEq V, !RustEq V}.

#[global] Instance greedy_PubGrub :
  PubGrub P V (Ranges (V:=V)) (Constraints (P:=P) (VS:=Ranges (V:=V))) M E Priority S := {
  pubgrub_resolve :=
    greedy_resolve (Ranges_contains (V:=V)) (Constraints_pairs (P:=P) (VS:=Ranges (V:=V))) 1000;
  DerivationTree_debug _ := "no solution";
}.

#[global] Instance greedy_PubGrubLaws :
  PubGrubLaws (P:=P) (V:=V) (VS:=Ranges (V:=V)) (DC:=Constraints (P:=P) (VS:=Ranges (V:=V)))
    (M:=M) (E:=E) (Priority:=Priority) (S:=S) Ranges_contains Constraints_pairs.
Proof.
  constructor.
  - intros provider root v s r s' Hr.
    apply greedy_resolve_run in Hr as (calls & Hcalls & _). by exists calls.
  - intros provider root v s sel s' Hr.
    apply greedy_resolve_run in Hr as (calls & Hcalls & Hwf & Hroot & Hall).
    exists calls. split_and!; [done..|]. intros p w Hpw.
    destruct (Hall _ Hpw) as [Hc (dc & Hd & Hp)]. split.
    { destruct Hc as [->|Hc]; [by left|by right]. }
    exists dc. split; [done|]. intros q range Hq.
    destruct (Hp q range Hq) as [Hm|Hn%elem_of_nil]; done.
Qed.
End greedy_instance.

(** ** A date and a time as their text: the date is the first ten bytes *)

#[export] Instance iso_CivilDateTime : CivilDateTime := {
  DateTime := string;
  DateTime_strptime _ input :=
    if iso_date (String.substring 0 10 input) then Ok input else Err "not a date and time";
  DateTime_strftime _ date_time := date_time;
  DateTime_date date_time := String.substring 0 10 date_time;
}.

(** ** A second digest, and streams that keep what they are given *)

#[export] Instance prefix_Md5Sum : Md5Sum := {
  md5_digest data := take 16 (data ++ replicate 16 x00);
}.

#[export] Instance keeping_DigestStream digest : DigestStream digest := {
  Hasher := list byte;
  Hasher_new := [];
  Hasher_update := app;
  Hasher_finalize := digest;
}.

#[export] Instance keeping_DigestStreamLaws digest : DigestStreamLaws digest.
Proof.
  constructor. intros chunks. cbn. f_equal.
  assert (∀ acc : list byte, foldl app acc chunks = acc ++ mjoin chunks) as Hfold; [|by rewrite Hfold].
  induction chunks as [|chunk chunks IH]; intros acc; simpl; [by rewrite app_nil_r|].
  by rewrite IH, app_assoc.
Qed.

(** ** A format for every countable type: the bits of its number *)

Fixpoint bits_of (p : positive) : list byte :=
  match p with
  | xH => []
  | xO p => byte_of 48 :: bits_of p
  | xI p => byte_of 49 :: bits_of p
  end.
Fixpoint of_bits (l : list byte) : positive :=
  match l with
  | [] => xH
  | b :: l => if byte_is 48 b then xO (of_bits l) else xI (of_bits l)
  end.

Lemma of_bits_of p : of_bits (bits_of p) = p.
Proof. induction p as [p IH|p IH|]; simpl; by rewrite ?IH. Qed.

Lemma bits_ascii p : Forall (λ b, (u8 b < 128)%N) (bits_of p).
Proof. induction p; constructor; try done; reflexivity. Qed.

Lemma ascii_is_utf8 l : Forall (λ b, (u8 b < 128)%N) l → str_from_utf8 l = Ok (from_utf8 l).
Proof.
  intros Hl. unfold str_from_utf8.
  assert (∀ i, utf8_valid_up_to (length l) i l = None) as H; [|by rewrite H].
  induction Hl as [|b l Hb Hl IH]; intros i; [done|]. cbn [length utf8_valid_up_to utf8_width].
  rewrite (proj2 (N.ltb_lt _ _) Hb). apply IH.
Qed.

#[export] Instance bits_Json T `{Countable T} : Json T := {
  json_to_vec_pretty x := Ok (bits_of (encode x));
  json_from_str s :=
    match decode (of_bits (bytes s)) with Some x => Ok x | None => Err "not a value" end;
}.

#[export] Instance bits_JsonLaws T `{Countable T} : JsonLaws T.
Proof.
  constructor. intros x l [= <-]. exists (from_utf8 (bits_of (encode x))).
  split; [apply ascii_is_utf8, bits_ascii|]. cbn. by rewrite bytes_from_utf8, of_bits_of, decode_encode.
Qed.

(** ** Files that fail from some operation on, or never

    Reads deliver up to [n] bytes at a time; the nonces are the clock. *)
Definition failing_from (first : option nat) (n : nat) : Schedule := {|
  fault_at now := if default false ((λ first, Nat.leb first now) <$> first)
                  then Some (io_failure KindOther) else None;
  count_at _ := n;
  nonce_at now := nat_to_string now;
|}.
