(* ===== verification/Examples.v ===== *)
(** * A small repository

    Concrete inputs at which the conditional theorems apply: two packages in one
    registry, a request for the first with a publication cutoff, and the
    instances of [Instances.v]. *)

From S2P Require Import Prelude Effects RustStd Collections Externals Format Versions Names Publication.
From S2P Require Import Identity Constraints Digest Metadata Request Candidates Resolution.
From S2P Require Import Policy Adapter AdapterLaws Solve SolveLaws Comparison ComparisonLaws.
From S2P Require Import Instances.

(** The value of a computation that succeeds. *)
Definition value {T E} (default : T) (r : result T E) : T :=
  match r with Ok x => x | Err _ => default end.

Module Repo.
(** ** Versions, names, dates *)

Definition v (s : string) : RPackageVersion :=
  value (mk_RPackageVersion "" (Components_from_vec [])) (RPackageVersion_parse s).
Definition day (s : string) : ReleasePublication := mk_ReleasePublication (mk_PublicationDate s).

Definition cran : RepositoryId := mk_Identifier "cran".
Definition cran_registry : RegistryId := mk_Identifier "cran-registry".
Definition namespace : PackageNamespace := mk_Identifier "cran-packages".
Definition dplyr : PackageName := mk_PackageName "dplyr".
Definition rlang : PackageName := mk_PackageName "rlang".
Definition r : PackageName := mk_PackageName "R".

(** ** Releases *)

Definition tarball (registry : RegistryId) (name : PackageName) (version : string) : Distribution :=
  mk_Distribution registry (mk_Identifier "source") None
    [Source (mk_SourceArtifact
       (mk_Identifier ("src/contrib/" +:+ PackageName_as_str name +:+ "_" +:+ version +:+ ".tar.gz"))
       [Md5 "0123456789abcdef0123456789abcdef"] (Some 1024%N))]
    (mk_DistributionMetadata []).

Definition needs (kind : DependencyKind) (name : PackageName) (op : RelationOp) (version : string) :
    DeclaredDependency :=
  mk_DeclaredDependency kind
    (mk_PackageRequirement name SourceAny (VersionConstraint_from_clause op (v version))).

Definition release (registry : RegistryId) (name : PackageName) (version date : string)
    (needs : list DeclaredDependency) : PackageRelease :=
  let identity := mk_ReleaseIdentity name (RegistryRelease namespace (v version)) in
  mk_PackageRelease identity (v version) (mk_ReleaseMetadata []) (Some (day date)) needs
    [tarball registry name version] (canonical_metadata_digest identity (v version) needs).

Definition candidate (repository : RepositoryId) (registry : RegistryId) (name : PackageName)
    (version date : string) (current : CandidateCurrentness) (needs : list DeclaredDependency) :
    PreparedCandidate :=
  mk_PreparedCandidate (release registry name version date needs) ExposureNone
    [mk_RepositoryOccurrence repository registry Available current (mk_RepositoryRank 0)
       [tarball registry name version]].

Definition dplyr_needs : list DeclaredDependency :=
  [needs Depends r OpGe "3.5.0"; needs Imports rlang OpGe "1.1.0"].
Definition dplyr_new := candidate cran cran_registry dplyr "1.2.0" "2025-06-01" Current dplyr_needs.
Definition dplyr_old := candidate cran cran_registry dplyr "1.1.4" "2023-11-17" Historical dplyr_needs.
Definition rlang_new := candidate cran cran_registry rlang "1.1.4" "2024-06-04" Current [].

(** The new release, as another repository lists it. *)
Definition dplyr_mirror :=
  candidate (mk_Identifier "mirror") (mk_Identifier "mirror-registry") dplyr "1.2.0" "2025-06-01"
    Historical dplyr_needs.

Definition all : list PreparedCandidate := [dplyr_new; dplyr_old; rlang_new].

(** ** The loader and the request *)

Definition releases (subject : SolverKey) : result (list PreparedCandidate) CandidateLoadError :=
  Ok (List.filter (λ c, is_eligible_for c subject) all).
Definition loader : CandidateLoader :=
  mk_CandidateLoader releases (CandidateLoader_default_load releases).

Definition root (name : PackageName) : RootRequirement :=
  mk_RootRequirement (mk_PackageRequirement name SourceAny VersionConstraint_unconstrained) HardOnly.
Definition request : ResolutionRequest :=
  with_publication_cutoff
    (ResolutionRequest_without_lock [root dplyr] (mk_ResolutionTarget (v "4.4.1"))
       VersionConstraint_unconstrained)
    (mk_PublicationCutoff (mk_PublicationDate "2025-01-01")).
Definition provider : Provider :=
  mk_Provider loader DefaultCandidatePreference PreferLocked request.

(** The newest release the cutoff allows, with what it depends on. *)
Example solved :
  match solve loader DefaultCandidatePreference PreferLocked request with
  | Ok res => (λ p, (PackageName_as_str (resolved_name p), version_raw (resolved_version p)))
                <$> resolution_packages res
  | Err _ => []
  end = [("dplyr", "1.1.4"); ("rlang", "1.1.4")].
Proof. vm_compute. reflexivity. Qed.

(** ** Everything is well-formed *)

Ltac small := unfold fits, len_u64; vm_compute; discriminate.

Lemma tarball_wf registry name version :
  fits (distribution_key (tarball registry name version)) → distribution_wf (tarball registry name version).
Proof. split; [|done]. repeat constructor. intros n [= <-]. vm_compute. discriminate. Qed.

(** The observation a release is made of. *)
Definition observation (x : PackageRelease) : ReleaseObservation :=
  mk_ReleaseObservation (release_identity x) (ReleaseIdentity_name (release_identity x))
    (release_version x) (release_metadata x) (release_publication x) (release_dependencies x)
    (release_distributions x).

Lemma release_built registry name version date ns :
  let x := release registry name version date ns in
  PackageRelease_try_from (observation x) = Ok x → fits (distribution_key (tarball registry name version)) →
  release_ok x.
Proof.
  intros x Hx Hf. split; [exact (PackageRelease_try_from_wf _ _ Hx)|].
  apply Forall_singleton. by apply tarball_wf.
Qed.

Lemma candidate_built repository registry name version date current ns :
  let c := candidate repository registry name version date current ns in
  PackageRelease_try_from (observation (candidate_release c)) = Ok (candidate_release c) →
  fits (distribution_key (tarball registry name version)) →
  normalize_and_validate c = Ok c → candidate_wf c.
Proof.
  intros c Hr Hf Hn. eapply normalize_and_validate_wf; [| |exact Hn]; [by apply release_built|].
  apply Forall_singleton. split_and!; simpl.
  - by apply Forall_singleton.
  - repeat constructor.
  - apply Forall_singleton. by apply tarball_wf.
Qed.

Ltac built := apply candidate_built; [vm_compute; reflexivity|small|vm_compute; reflexivity].
Lemma dplyr_new_wf : candidate_wf dplyr_new.
Proof. built. Qed.
Lemma dplyr_old_wf : candidate_wf dplyr_old.
Proof. built. Qed.
Lemma rlang_new_wf : candidate_wf rlang_new.
Proof. built. Qed.

Lemma dplyr_mirror_wf : candidate_wf dplyr_mirror.
Proof. built. Qed.

Lemma all_wf : Forall candidate_wf all.
Proof.
  apply Forall_cons_2; [apply dplyr_new_wf|]. apply Forall_cons_2; [apply dplyr_old_wf|].
  apply Forall_singleton, rlang_new_wf.
Qed.

(** Everything the two repositories list. *)
Definition listed : list PreparedCandidate := all ++ [dplyr_mirror].

Lemma listed_wf : Forall candidate_wf listed.
Proof. apply Forall_app. split; [apply all_wf|apply Forall_singleton, dplyr_mirror_wf]. Qed.

Lemma releases_ok l : Forall candidate_wf l → Forall release_ok (candidate_release <$> l).
Proof. intros Hl. apply Forall_fmap. eapply Forall_impl; [exact Hl|]. by intros c []. Qed.

Lemma v_wf s : is_ok (RPackageVersion_parse s) = true → RPackageVersion_wf (v s).
Proof.
  unfold v. destruct (RPackageVersion_parse s) as [x|] eqn:E; [|done]. intros _.
  by apply parse_wf in E.
Qed.

Lemma repo_loader_wf : loader_wf loader.
Proof.
  intros subject out [= <-].
  change (Forall candidate_wf (List.filter (λ c, is_eligible_for c subject) all)).
  apply Forall_forall. intros c.
  rewrite elem_of_filter_bool. intros [Hc _]. pose proof all_wf as Hall. rewrite Forall_forall in Hall.
  by apply Hall.
Qed.

Lemma repo_loader_coherent : loader_coherent loader.
Proof.
  intros key subject out c Hk [= <-].
  change (c ∈ List.filter (λ c, is_eligible_for c key) all → ∃ l c',
    releases subject = Ok l ∧ c' ∈ l ∧ candidate_identity c' ≈ candidate_identity c).
  rewrite elem_of_filter_bool. intros [Hc He].
  exists (List.filter (λ c, is_eligible_for c subject) all), c. split; [done|]. split; [|done].
  rewrite elem_of_filter_bool. by rewrite <-(is_eligible_for_proper c key subject Hk).
Qed.
End Repo.

(** ** The theorems at these inputs *)

Import Repo.

Lemma solve_spec_witness :
  is_ok (solve loader DefaultCandidatePreference PreferLocked request) = true ∧
  ∃ res, solve loader DefaultCandidatePreference PreferLocked request = Ok res ∧
         resolution_sound provider res.
Proof.
  split; [vm_compute; reflexivity|]. pose proof (solve_spec provider repo_loader_wf) as H.
  assert (is_ok (pubgrub_resolve (dependency_provider provider) PackageRoot VersionRoot
                   ProviderState_new).1 = true) as E by (vm_compute; reflexivity).
  destruct (pubgrub_resolve _ _ _ _) as [[sel|e] s]; [exact H|discriminate E].
Defined.

Definition resolver : Resolver := mk_Resolver loader DefaultCandidatePreference PreferLocked.

Lemma resolve_with_assignment_comparison_spec_witness :
  ∃ res rest, resolve_with_assignment_comparison resolver request =
      Ok (mk_ComparedResolution res
            (mk_AssignmentComparison (r_assignment (resolution_target res) :: rest))) ∧
    Forall2 (assignment_describes resolver request (resolution_target res) (resolution_packages res))
      (resolution_packages res) rest.
Proof.
  pose proof (resolve_with_assignment_comparison_spec resolver request repo_loader_wf
    repo_loader_coherent) as H.
  assert (is_ok (Resolver_resolve resolver request) = true) as E by (vm_compute; reflexivity).
  destruct (Resolver_resolve resolver request) as [res|e]; [|discriminate E].
  destruct H as [rest H]. exists res, rest. exact H.
Defined.

(** The rejected release is in the comparison, with its reason. *)
Example compared :
  match resolve_with_assignment_comparison resolver request with
  | Ok c => (λ a, (λ x, differs_by x) <$> alternatives a) <$> assignments (comparison_of c)
  | Err _ => []
  end = [[]; [DifferenceCooldown (mk_PublicationDate "2025-01-01")]; []].
Proof. vm_compute. reflexivity. Qed.

Lemma intern_spec_witness :
  match intern dplyr_new CandidateInterner_default with
  | (Ok id, u) => interner_wf u ∧ interned u id dplyr_new
  | (Err _, _) => False
  end.
Proof.
  pose proof (intern_spec CandidateInterner_default dplyr_new interner_wf_default
    ltac:(vm_compute; discriminate)) as H.
  assert (is_ok (intern dplyr_new CandidateInterner_default).1 = true) as E by (vm_compute; reflexivity).
  destruct (intern dplyr_new CandidateInterner_default) as [[id|e] u]; [|discriminate E].
  split; apply H.
Defined.

Lemma eligible_unique_spec_witness :
  match eligible_unique (KeyInstalledName dplyr) (listed) with
  | Ok out => identities_distinct out
  | Err _ => False
  end.
Proof.
  pose proof (eligible_unique_spec (KeyInstalledName dplyr) (listed)
    listed_wf) as H.
  assert (is_ok (eligible_unique (KeyInstalledName dplyr) (listed)) = true) as E
    by (vm_compute; reflexivity).
  destruct (eligible_unique _ _) as [out|e]; [apply H|discriminate E].
Defined.

Lemma choose_version_spec_witness :
  let subject := KeyInstalledName dplyr in
  let range : Ranges (V:=SolverVersion) :=
    [VersionCandidate (mk_CandidateId 0); VersionCandidate (mk_CandidateId 1)] in
  let after := (choose_version provider (PackageSubject subject) range ProviderState_new).2 in
  ∃ l, loaded provider subject ProviderState_new = (Ok l, after) ∧
    loaded_ok provider (interner after) subject l ∧
    ∃ p, VersionCandidate (mk_CandidateId 0) = VersionCandidate p.1 ∧
      admissible provider subject l range p.
Proof.
  intros subject range after.
  destruct (choose_version_spec provider subject range ProviderState_new
    (Some (VersionCandidate (mk_CandidateId 0))) after (state_wf_new provider)
    ltac:(done) DefaultCandidatePreference_order ltac:(vm_compute; reflexivity))
    as (l & Hl & Hok & p & Hp & Ha & _).
  exists l. split; [exact Hl|]. split; [exact Hok|]. exists p. split; [exact Hp|exact Ha].
Defined.

Lemma publication_policy_diagnostic_spec_witness :
  let leaf := PublicationCooldown (candidate_identity dplyr_new) (mk_PublicationDate "2025-06-01") in
  let tree := Derived (ExternalCustom (MessagePublication [leaf])) ExternalOther in
  match publication_policy_diagnostic tree (publication_cutoff request) with
  | Some d => leaf ∈ policy_rejections d ∨ ∃ x, x ∈ policy_rejections d ∧ x ≈ leaf
  | None => False
  end.
Proof.
  intros leaf tree.
  pose proof (publication_policy_diagnostic_spec tree (publication_cutoff request)) as H.
  destruct (publication_policy_diagnostic tree (publication_cutoff request)) as [d|] eqn:E.
  - right. apply H. apply in_cause1, in_leaf. by left.
  - vm_compute in E. discriminate E.
Defined.

Lemma PreparedCandidate_new_spec_witness :
  match PreparedCandidate_new (candidate_release dplyr_new) ExposureNone
          (candidate_occurrences dplyr_new) with
  | Ok c => candidate_wf c
  | Err _ => False
  end.
Proof.
  pose proof (PreparedCandidate_new_spec (candidate_release dplyr_new) ExposureNone
    (candidate_occurrences dplyr_new) (proj1 dplyr_new_wf)
    (proj1 (proj2 (proj2 (proj1 (proj2 dplyr_new_wf)))))) as H.
  assert (is_ok (PreparedCandidate_new (candidate_release dplyr_new) ExposureNone
    (candidate_occurrences dplyr_new)) = true) as E by (vm_compute; reflexivity).
  destruct (PreparedCandidate_new _ _ _) as [c|e]; [apply H|discriminate E].
Defined.

(** The release the two repositories list has two occurrences. *)
Lemma PreparedCandidate_merge_spec_witness :
  match PreparedCandidate_merge dplyr_new dplyr_mirror with
  | Ok c => candidate_wf c ∧ length (candidate_occurrences c) = 2
  | Err _ => False
  end.
Proof.
  pose proof (PreparedCandidate_merge_spec dplyr_new dplyr_mirror dplyr_new_wf dplyr_mirror_wf) as H.
  destruct (PreparedCandidate_merge dplyr_new dplyr_mirror) as [c|e] eqn:E.
  - split; [apply H|]. vm_compute in E. by injection E as <-.
  - vm_compute in E. discriminate E.
Defined.

Lemma PreparedCandidate_merge_comm_witness :
  let c := value dplyr_new (PreparedCandidate_merge dplyr_new dplyr_mirror) in
  ∃ c', PreparedCandidate_merge dplyr_mirror dplyr_new = Ok c' ∧ same_facts c c' = true.
Proof.
  apply (PreparedCandidate_merge_comm dplyr_new dplyr_mirror _ dplyr_new_wf dplyr_mirror_wf).
  vm_compute. reflexivity.
Defined.

Lemma PreparedCandidateSet_from_candidates_spec_witness :
  match PreparedCandidateSet_from_candidates (listed) with
  | Ok m => hm_wf m ∧ length m = 3
  | Err _ => False
  end.
Proof.
  pose proof (PreparedCandidateSet_from_candidates_spec (listed)
    listed_wf) as H.
  destruct (PreparedCandidateSet_from_candidates (listed)) as [m|e] eqn:E.
  - split; [apply H|]. vm_compute in E. by injection E as <-.
  - vm_compute in E. discriminate E.
Defined.

Lemma merge_consistent_spec_witness :
  match merge_consistent (candidate_release dplyr_new) (candidate_release dplyr_mirror) with
  | Ok c => release_ok c ∧ length (release_distributions c) = 2
  | Err _ => False
  end.
Proof.
  pose proof (merge_consistent_spec (candidate_release dplyr_new) (candidate_release dplyr_mirror)
    (proj1 dplyr_new_wf) (proj1 dplyr_mirror_wf) ltac:(vm_compute; reflexivity)) as H.
  destruct (merge_consistent _ _) as [c|e] eqn:E.
  - split; [apply H|]. vm_compute in E. by injection E as <-.
  - vm_compute in E. discriminate E.
Defined.

Lemma release_aggregation_spec_witness :
  match observe_releases ReleaseAggregation_new (candidate_release <$> listed) with
  | Ok m => hm_wf m ∧ length m = 3
  | Err _ => False
  end.
Proof.
  pose proof (release_aggregation_spec (candidate_release <$> listed)
    (releases_ok _ listed_wf)) as H.
  destruct (observe_releases _ _) as [m|e] eqn:E.
  - split; [apply H|]. vm_compute in E. by injection E as <-.
  - vm_compute in E. discriminate E.
Defined.

(** The same repository, listed the other way round. *)
Definition reversed_releases (subject : SolverKey) :
    result (list PreparedCandidate) CandidateLoadError :=
  Ok (List.filter (λ c, is_eligible_for c subject) (rev all)).
Definition reversed_resolver : Resolver :=
  mk_Resolver (mk_CandidateLoader reversed_releases (CandidateLoader_default_load reversed_releases))
    DefaultCandidatePreference PreferLocked.

Lemma all_distinct : candidates_distinct all.
Proof.
  intros x y Hx Hy Hxy. unfold all in Hx, Hy. rewrite !elem_of_cons in Hx, Hy.
  destruct Hx as [->|[->|[->|Hx%elem_of_nil]]]; [| | |done];
    destruct Hy as [->|[->|[->|Hy%elem_of_nil]]]; try done;
    destruct Hxy as [Hi|[Hi Hk]]; vm_compute in Hi; try discriminate Hi; vm_compute in Hk;
    discriminate Hk.
Qed.

Lemma reconstruct_comparison_order_witness (resolution := Resolution_new (target request) []) :
  reconstruct_comparison resolver request resolution
    = reconstruct_comparison reversed_resolver request resolution.
Proof.
  apply reconstruct_comparison_order; [reflexivity|reflexivity|].
  intros subject. split.
  - intros x y. rewrite !elem_of_filter_bool. intros [Hx _] [Hy _]. by apply all_distinct.
  - apply filter_bool_Permutation, Permutation_rev.
Defined.

Lemma satisfies_spec_witness :
  VersionConstraint_satisfies (VersionConstraint_from_clause OpGe (v "3.5.0")) (v "4.4.1") = true ∧
  ∀ x, x ∈ clauses (VersionConstraint_from_clause OpGe (v "3.5.0")) →
    relation_holds (clause_op x) (numeric_version_cmp (RPackageVersion_components (v "4.4.1"))
      (RPackageVersion_components (clause_version x))).
Proof.
  assert (RPackageVersion_wf (v "4.4.1")) as Hv by by apply v_wf.
  assert (Forall (λ x, RPackageVersion_wf (clause_version x))
    (clauses (VersionConstraint_from_clause OpGe (v "3.5.0")))) as Hc
    by by apply Forall_singleton, v_wf.
  split; [vm_compute; reflexivity|].
  apply (proj1 (satisfies_spec _ VersionConstraint_unconstrained _ Hv Hc)). vm_compute. reflexivity.
Defined.

Lemma version_cmp_numeric_witness :
  RPackageVersion_cmp (v "1.0") (v "1.0.0") = Eq ∧
  RPackageVersion_cmp (v "1.0") (v "1.0.0") =
    numeric_version_cmp (RPackageVersion_components (v "1.0")) (RPackageVersion_components (v "1.0.0")).
Proof.
  split; [vm_compute; reflexivity|]. apply version_cmp_numeric; by apply v_wf.
Defined.

Definition dplyr_at_least (version : string) (e : RootExpansionPolicy) : RootRequirement :=
  mk_RootRequirement
    (mk_PackageRequirement dplyr SourceAny (VersionConstraint_from_clause OpGe (v version))) e.
Definition some_roots : list RootRequirement :=
  [dplyr_at_least "1.0.0" HardOnly; root rlang; dplyr_at_least "1.1.0" DirectSuggests].

Lemma combine_root_requirements_spec_witness :
  match combine_root_requirements some_roots with
  | Ok out => length out = 2 ∧
      ∀ r, r ∈ some_roots → ∃ c, c ∈ out ∧
        requirement_name (root_package c) = requirement_name (root_package r)
  | Err _ => False
  end.
Proof.
  pose proof (combine_root_requirements_spec some_roots ltac:(by repeat constructor)) as H.
  destruct (combine_root_requirements some_roots) as [out|e] eqn:E.
  - split; [|apply H]. vm_compute in E. by injection E as <-.
  - vm_compute in E. discriminate E.
Defined.

Ltac sized := split_and!; [split; [|done]|..];
  repeat first [apply Forall_nil_2|apply Forall_cons_2|split]; small.

Lemma dplyr_sized : encoding_sized (candidate_identity dplyr_new) (v "1.2.0") dplyr_needs.
Proof. sized. Qed.
Lemma dplyr_sized_reversed :
  encoding_sized (candidate_identity dplyr_new) (v "1.2.0") (rev dplyr_needs).
Proof. sized. Qed.

Lemma metadata_encoding_injective_witness :
  metadata_encoding (candidate_identity dplyr_new) (v "1.2.0") dplyr_needs
    = metadata_encoding (candidate_identity dplyr_new) (v "1.2.0") (rev dplyr_needs) ∧
  same_up_to dependency_similar dplyr_needs (rev dplyr_needs).
Proof.
  assert (metadata_encoding (candidate_identity dplyr_new) (v "1.2.0") dplyr_needs
    = metadata_encoding (candidate_identity dplyr_new) (v "1.2.0") (rev dplyr_needs)) as E
    by (vm_compute; reflexivity).
  split; [exact E|].
  apply (metadata_encoding_injective _ _ _ _ _ _ dplyr_sized dplyr_sized_reversed). exact E.
Defined.

Lemma canonicalize_distributions_canonical_witness :
  let l := [tarball cran_registry dplyr "1.2.0"; tarball cran_registry dplyr "1.1.4";
            tarball cran_registry dplyr "1.2.0"] in
  NoDup (canonicalize_distributions l) ∧ ∀ d, d ∈ canonicalize_distributions l ↔ d ∈ l.
Proof.
  intros l.
  assert (Forall distribution_wf l) as Hl
    by (apply Forall_cons_2; [|apply Forall_cons_2; [|apply Forall_singleton]]; apply tarball_wf; small).
  destruct (canonicalize_distributions_canonical l Hl) as (_ & Hn & Hin & _). by split.
Defined.

Lemma distribution_key_injective_witness :
  distribution_key (tarball cran_registry dplyr "1.2.0")
    ≠ distribution_key (tarball cran_registry dplyr "1.1.4").
Proof.
  intros E. apply distribution_key_injective in E; [discriminate E|apply tarball_wf; small..].
Defined.

Lemma PublicationDate_parse_roundtrip_witness :
  PublicationDate_parse "2025-06-01" = Ok (mk_PublicationDate "2025-06-01") ∧
  PublicationDate_as_str (mk_PublicationDate "2025-06-01") = "2025-06-01".
Proof.
  assert (PublicationDate_parse "2025-06-01" = Ok (mk_PublicationDate "2025-06-01")) as E
    by (vm_compute; reflexivity).
  split; [exact E|exact (proj1 (PublicationDate_parse_roundtrip _ _ E))].
Defined.

(** The evidence of a failure is sorted by a key that shows a version's
    spelling, so equal rejections need not end up next to each other: the
    deduplication that follows keeps both. *)
Definition held_back (version : string) : PublicationRejection :=
  PublicationUnknown (mk_ReleaseIdentity dplyr (RegistryRelease namespace (v version))).

Example equal_rejections_survive :
  (held_back "1.0" =?= held_back "1.0.0") = true ∧
  match publication_policy_diagnostic
          (ExternalCustom (MessagePublication [held_back "1.0"; held_back "1.0-5"; held_back "1.0.0"]))
          (publication_cutoff request) with
  | Some d => length (policy_rejections d) = 3
  | None => False
  end.
Proof. vm_compute. split; reflexivity. Qed.
