(* ===== verification/CacheExamples.v ===== *)
(** * The artifact cache at concrete inputs

    An archive is committed, found again, and survives a commit that stops in
    the middle. *)

From S2P Require Import Prelude Effects RustStd Collections Text Externals FileSystem.
From S2P Require Import Format Versions Names Identity Digest Cache Input Archive Objects CacheLaws.
From S2P Require Import Instances Examples.
Import Repo.

#[export] Instance MetadataFile_eq_dec : EqDecision MetadataFile.
Proof. solve_decision. Defined.
#[export] Instance MetadataFile_countable : Countable MetadataFile.
Proof.
  refine (inj_countable' (λ f, (file_version f, file_descriptor_key f, file_object_sha256 f,
      file_size f, file_upstream_md5 f, file_upstream_sha256 f, file_verification_strength f))
    (λ '(a, b, c, d, e, f, g), mk_MetadataFile a b c d e f g) _).
  by intros [].
Defined.

(** An archive of one file, its DESCRIPTION. *)
#[export] Instance single_SourceArchives : SourceArchives := {
  archive_entries data failure :=
    Ok [Ok (mk_ArchiveEntry (Ok (bytes "dplyr/DESCRIPTION")) true data (io_text <$> failure))];
}.

(** A reader of bytes in memory, three at a time at most. *)
Definition read_bytes (capacity : nat) (rest : list byte) : result (list byte) IoError * list byte :=
  let n := Nat.min capacity 3 in (Ok (take n rest), drop n rest).

Lemma read_bytes_delivers data : delivers read_bytes data data.
Proof.
  remember (length data) as n eqn:Hn. revert data Hn.
  induction (lt_wf n) as [n _ IH]. intros data ->. constructor. intros capacity Hcap.
  exists (take (Nat.min capacity 3) data), (drop (Nat.min capacity 3) data),
    (drop (Nat.min capacity 3) data). split_and!; [done|by rewrite take_drop|..].
  - rewrite length_take. lia.
  - destruct data; [done|]. destruct capacity; [lia|]. intros [=].
  - intros Hne. eapply IH; [|done]. rewrite length_drop. destruct data; [done|]. simpl. lia.
Qed.

(** ** The copy *)

Definition archive : list byte :=
  bytes ("Package: dplyr" +:+ from_utf8 [byte_of 10] +:+ "Version: 1.2.0" +:+ from_utf8 [byte_of 10]).

(** Writes to a list. *)
Definition write_bytes (chunk output : list byte) : result unit IoError * list byte :=
  (Ok tt, output ++ chunk).

Lemma copy_loop_terminates_witness :
  ∃ states outcome,
    copy_run read_bytes write_bytes None MAX_COMPRESSED_INPUT_BYTES []
      (mk_CopyState archive [] (Hasher_new sha256_digest) (Hasher_new md5_digest) 0) states outcome ∧
    (copy_size outcome.2 ≤ MAX_COMPRESSED_INPUT_BYTES + 1)%N.
Proof.
  destruct (copy_loop_terminates read_bytes write_bytes None MAX_COMPRESSED_INPUT_BYTES [] archive []
    (Hasher_new sha256_digest) (Hasher_new md5_digest))
    as (states & outcome & Hrun & _ & _ & _ & _ & _ & Hwithin); [by vm_compute|].
  exists states, outcome. split; [exact Hrun|]. apply Hwithin.
  intros capacity data chunk rest [= <- <-]. rewrite length_take. lia.
Defined.

Lemma copy_compressed_input_spec_witness :
  (copy_compressed_input read_bytes write_bytes (Some 20%N) MAX_COMPRESSED_INPUT_BYTES [] archive []
     (Hasher_new sha256_digest) (Hasher_new md5_digest)).1 = Err (SizeMismatch 20 21).
Proof.
  pose proof (copy_compressed_input_spec read_bytes write_bytes id (Some 20%N) MAX_COMPRESSED_INPUT_BYTES
    [] archive [] archive ltac:(by eauto) ltac:(by vm_compute) (read_bytes_delivers archive)) as H.
  cbv zeta in H. cbn in H.
  destruct (copy_compressed_input _ _ _ _ _ _ _ _ _) as [outcome s]. destruct H as [-> _]. reflexivity.
Defined.

(** ** A commit *)

Definition root : list string := ["cache"].
Definition dplyr_archive : SourceArtifact :=
  mk_SourceArtifact (mk_Identifier "src/contrib/dplyr_1.2.0.tar.gz")
    [Md5 (hex_lower (md5_digest archive))] (Some (len_u64 archive)).
Definition dplyr_expected : ArtifactValidationExpectation :=
  ArtifactValidationExpectation_new dplyr (v "1.2.0").

(** No operation fails. *)
Definition always : Schedule := failing_from None 3.
Definition no_files : Fs := mk_Fs ∅ 0.
Definition committed : result CachedArtifact CacheError * Fs :=
  commit_artifact_with_fs_and_expectation (H:=always) root dplyr_archive
    (λ n, read_bytes n) archive (Some dplyr_expected) no_files.

Example committed_ok : is_ok committed.1 = true.
Proof. vm_compute. reflexivity. Qed.

Lemma commit_artifact_spec_witness :
  match committed with
  | (Ok cached, fs) => ∃ checksums, intact root dplyr_archive checksums cached (fs_tree fs)
  | (Err _, _) => False
  end.
Proof.
  assert (is_ok committed.1 = true) as Hok by (vm_compute; reflexivity).
  destruct committed as [[cached|] fs] eqn:E; [|discriminate Hok].
  destruct (commit_artifact_spec (H:=always) root dplyr_archive (λ n, read_bytes n) archive (Some dplyr_expected)
    no_files cached fs) as (checksums & _ & Hi); [|exact E|by exists checksums].
  intros n [= <-]. by vm_compute.
Defined.

(** The next request is a hit. *)
Example found_again :
  match committed with
  | (Ok cached, fs) =>
    match (probe_artifact (H:=always) root dplyr_archive dplyr_expected fs).1 with
    | Ok (Some hit) => object_path hit = object_path cached ∧ cached_verification hit = UpstreamMd5
    | _ => False
    end
  | _ => False
  end.
Proof. vm_compute. by split. Qed.

(** Another archive, whose commit stops at its 20th operation. *)
Definition other_archive : list byte := bytes "Package: dplyr".
Definition other : SourceArtifact :=
  mk_SourceArtifact (mk_Identifier "src/contrib/other.tar.gz") [] None.
Definition stopped : result CachedArtifact CacheError * Fs :=
  commit_artifact_with_fs_and_expectation (H:=failing_from (Some (20 + fs_clock committed.2)) 3) root
    other (λ n, read_bytes n) other_archive None committed.2.

Definition dplyr_digest : string := hex_lower (sha256_digest archive).

Lemma commit_keeps_objects_witness :
  is_ok stopped.1 = false ∧ kept_or_recoverable root dplyr_digest
    (match stopped.1 with Err e => e | Ok _ => MissingDescription end) (fs_tree stopped.2).
Proof.
  assert (is_ok stopped.1 = false) as Hstop by (vm_compute; reflexivity). split; [exact Hstop|].
  pose proof (commit_keeps_objects (H:=failing_from (Some (20 + fs_clock committed.2)) 3) root other
    (λ n, read_bytes n) other_archive None dplyr_digest committed.2) as Hk.
  change (commit_artifact_with_fs_and_expectation root other _ other_archive None committed.2)
    with stopped in Hk.
  destruct stopped as [[|e] fs]; [discriminate Hstop|]. apply Hk.
  - intros n [=].
  - apply digest_text_hex.
  - exists (len_u64 archive), archive. split; [|by split; vm_compute].
    exists true. vm_compute. reflexivity.
Defined.
