(* ===== verification/TransactionExamples.v ===== *)
(** * The materialisation transaction at concrete inputs

    A repository is built, a second run finds it, and a run that stops between
    its two publications is finished by the next. *)

From S2P Require Import Prelude Effects RustStd Collections Text Externals FileSystem Directories.
From S2P Require Import Format Versions Names Publication Identity Constraints Digest Metadata Candidates.
From S2P Require Import Cache Input Materialization Packages Transaction TransactionLaws TransactionSafety.
From S2P Require Import Instances Examples.
Import Repo.

(** ** State files *)

(** The texts of a record and its numbers, one after the other. *)
Definition record_texts (r : MaterializationRecord) : list string :=
  [record_identity r; record_package r; record_version r; record_artifact_sha256 r;
   record_destination r].
Definition record_numbers (r : MaterializationRecord) : list N :=
  [record_size r; match record_method r with MethodClone => 0%N | MethodCopy => 1%N end].

Fixpoint read_records (texts : list string) (numbers : list N) : option (list MaterializationRecord) :=
  match texts, numbers with
  | [], [] => Some []
  | identity :: package :: version :: sha256 :: destination :: texts, size :: method :: numbers =>
    cons (mk_MaterializationRecord identity package version sha256 size destination
            (if N.eqb method 0 then MethodClone else MethodCopy)) <$> read_records texts numbers
  | _, _ => None
  end.

Lemma read_records_written (records : list MaterializationRecord) :
  read_records (records ≫= record_texts) (records ≫= record_numbers) = Some records.
Proof.
  induction records as [|[? ? ? ? ? ? method] records IH]; [done|].
  cbn. rewrite IH. by destruct method.
Qed.

#[export] Instance MaterializationState_countable : Countable MaterializationState.
Proof.
  refine (inj_countable
    (λ s, (state_index_sha256 s :: (state_records s ≫= record_texts),
           state_schema_version s :: (state_records s ≫= record_numbers)))
    (λ '(texts, numbers), match texts, numbers with
      | index :: texts, schema :: numbers =>
        mk_MaterializationState schema index <$> read_records texts numbers
      | _, _ => None
      end) _).
  intros [schema index records]. cbn. by rewrite read_records_written.
Defined.
#[export] Instance MaterializationTransaction_eq_dec : EqDecision MaterializationTransaction.
Proof. solve_decision. Defined.
#[export] Instance MaterializationTransaction_countable : Countable MaterializationTransaction.
Proof.
  refine (inj_countable
    (λ x, (tx_index_sha256 x :: tx_state_temp x :: tx_staging_dir x :: (tx_records x ≫= record_texts),
           tx_schema_version x :: (tx_records x ≫= record_numbers)))
    (λ '(texts, numbers), match texts, numbers with
      | index :: temp :: staging :: texts, schema :: numbers =>
        mk_MaterializationTransaction schema index temp staging <$> read_records texts numbers
      | _, _ => None
      end) _).
  intros [schema index temp staging records]. cbn. by rewrite read_records_written.
Defined.

#[export] Instance bits_Toml T `{Countable T} : Toml T := {
  toml_to_string_pretty x := Ok (from_utf8 (bits_of (encode x)));
  toml_from_str s :=
    match decode (of_bits (bytes s)) with Some x => Ok x | None => Err "not a value" end;
}.

#[export] Instance bits_TomlLaws T `{Countable T} : TomlLaws T.
Proof.
  constructor. intros x s [= <-]. cbn. rewrite bytes_from_utf8, of_bits_of, decode_encode.
  split; [apply ascii_is_utf8, bits_ascii|done].
Qed.

(** ** A selection *)

Definition object : list byte := bytes "an archive".
Definition object_sha256 : Sha256Digest := mk_Sha256Digest (hex_lower (sha256_digest object)).
Definition cached : CachedArtifact :=
  mk_CachedArtifact ["object"] ["metadata"] object_sha256 (len_u64 object) UpstreamMd5.
Definition selected : MaterializationArtifact :=
  MaterializationArtifact_new (candidate_identity dplyr_new) (v "1.2.0") cached.

Definition root : list string := ["project"].
Definition before : Fs := mk_Fs (<[["object"] := NodeFile object true]> (<[root := NodeDir]> ∅)) 0.

Definition always : Schedule := failing_from None 3.
Definition run (schedule : Schedule) (fs : Fs) :
    result (option MaterializationState) MaterializationError * Fs :=
  materialize (H0:=schedule) 2 root [selected] fs.

Definition first : result (option MaterializationState) MaterializationError * Fs := run always before.

Example first_ok : match first.1 with Ok (Some state) => length (state_records state) = 1 | _ => False end.
Proof. vm_compute. reflexivity. Qed.

(** The next run changes nothing but the clock. *)
Example second_ok :
  (run always first.2).1 = first.1 ∧
  map_to_list (fs_tree (run always first.2).2) = map_to_list (fs_tree first.2).
Proof. vm_compute. by split. Qed.

(** A run on the repository of the first, stopped at its 20th operation. *)
Lemma materialize_safe_witness :
  respects (project root) (fs_tree first.2)
    (fs_tree (run (failing_from (Some (20 + fs_clock first.2)) 3) first.2).2).
Proof.
  apply (materialize_safe (H0:=failing_from (Some (20 + fs_clock first.2)) 3) 2 root [selected] first.2).
Defined.

Lemma materialize_spec_witness :
  ∃ state, first.1 = Ok (Some state) ∧ delivers (project root) [selected] state (fs_tree first.2).
Proof.
  assert (∃ state, first.1 = Ok (Some state)) as [state Hst].
  { destruct first.1 as [[state|]|] eqn:E; [by exists state|..]; exfalso; vm_compute in E; discriminate E. }
  exists state. split; [exact Hst|].
  apply (materialize_spec (H0:=always) 2 root [selected] before first.2 state).
  rewrite <-Hst. change (run always before = (first.1, first.2)).
  unfold first. by destruct (run always before).
Defined.

Lemma materialize_ends_witness : (run always before).1 ≠ Ok None.
Proof. apply (materialize_ends (H0:=always) 2 root [selected] before); [by intros n|lia]. Defined.

(** ** A run that stops *)

(** From its 60th operation on nothing has an effect: the repository is
    published, its state is not. *)
Definition stopped : result (option MaterializationState) MaterializationError * Fs :=
  run (failing_from (Some 60) 0) before.

Example stopped_between :
  is_ok stopped.1 = false ∧
  is_dir (fs_tree stopped.2) (repository_at (project root)) = true ∧
  is_dir (fs_tree stopped.2) (project root ++ [".repository.partial.16"]) = false ∧
  fs_tree stopped.2 !! state_at (project root) = None.
Proof. vm_compute. by split_and!. Qed.

(** The next run publishes the state. *)
Example finished_by_next :
  match (run always stopped.2).1, first.1 with
  | Ok (Some state), Ok (Some state') =>
    map record_destination (state_records state) = map record_destination (state_records state')
  | _, _ => False
  end.
Proof. vm_compute. reflexivity. Qed.
