(* ===== verification/Snapshot.v ===== *)
(** * Snapshot records ([rsolve-provider/src/snapshot/wire.rs])

    The header and the package histories of a metadata snapshot as they are
    stored, the limits on their sizes, and the errors of the snapshot code.
    Fields and variants carry the name of their structure. *)

From S2P Require Import Prelude RustStd Collections Names FileSystem.

(** ** Limits *)

Definition HEADER_LIMIT : N := 16 * 1024 * 1024.
Definition HISTORY_LIMIT : N := 64 * 1024 * 1024.
Definition HEADER_SOURCE_LIMIT : N := 65536.
Definition OBSERVATION_LIMIT : N := 1000000.
Definition DECISION_LIMIT : N := 1000000.
Definition ELIGIBLE_RELEASE_LIMIT : N := 100000.
Definition MEMBER_LIMIT : N := 65536.
Definition STRING_LIMIT : N := 16 * 1024 * 1024.

Definition SNAPSHOT_HEADER : string := "snapshot_header".
Definition PACKAGE_HISTORIES : string := "package_histories".
Definition HEADER_KEY : string := "header".
Definition HISTORY_ENCODING : N := 4.
Definition HISTORY_MAGIC : list byte := bytes "RSLVHST4".
Definition HISTORY_PREFIX_LEN : nat := 48.

(** ** Errors

    The errors of [redb], [serde_json] and [postcard] are their text. *)

Inductive SnapshotError :=
| SnapshotIo (error : IoError)
| SnapshotDatabase (error : string)
| SnapshotDatabaseOpen (error : string)
| SnapshotCompaction (error : string)
| SnapshotTable (error : string)
| SnapshotTransaction (error : string)
| SnapshotCommit (error : string)
| SnapshotStorage (error : string)
| SnapshotJson (error : string)
| SnapshotPostcard (error : string)
| Invalid (message : string).

Definition SnapshotError_fmt (e : SnapshotError) : string :=
  match e with
  | SnapshotIo e => "snapshot I/O error: " +:+ io_text e
  | SnapshotDatabase e => "snapshot database error: " +:+ e
  | SnapshotDatabaseOpen e => "snapshot database open error: " +:+ e
  | SnapshotCompaction e => "snapshot compaction error: " +:+ e
  | SnapshotTable e => "snapshot table error: " +:+ e
  | SnapshotTransaction e => "snapshot transaction error: " +:+ e
  | SnapshotCommit e => "snapshot commit error: " +:+ e
  | SnapshotStorage e => "snapshot storage error: " +:+ e
  | SnapshotJson e => "snapshot JSON error: " +:+ e
  | SnapshotPostcard e => "snapshot history encoding error: " +:+ e
  | Invalid e => e
  end.

(** ** The header *)

Record CoverageV1 := mk_CoverageV1 {
  coverage_state : string;
  coverage_scope : string;
  coverage_freshness : string;
  coverage_source_ids : list string;
  coverage_missing_evidence : list string;
}.

Record SourceObservationV1 := mk_SourceObservationV1 {
  source_id : string;
  source_kind : string;
  source_representation : string;
  source_content_sha256 : string;
  source_etag : option string;
  source_last_modified : option string;
  source_observed_at : string;
  source_endpoint : string;
}.

Record SnapshotHeaderV1 := mk_SnapshotHeaderV1 {
  header_format : string;
  header_version : N;
  header_history_encoding : N;
  header_normalization_policy : N;
  header_compatibility_profile : N;
  header_parser_schema : N;
  header_registry_id : string;
  header_generation : string;
  header_created_at : string;
  header_producer : string;
  header_coverage : CoverageV1;
  header_sources : list SourceObservationV1;
  header_package_count : N;
  header_observation_count : N;
  header_eligible_release_count : N;
  header_incomplete_package_count : N;
  header_history_manifest_sha256 : string;
}.

(** ** Histories *)

Record FieldV1 := mk_FieldV1 { field_name : string; field_value : string }.

Record ChecksumV1 := mk_ChecksumV1 { checksum_algorithm : string; checksum_value : string }.

Record OccurrenceArtifactV1 := mk_OccurrenceArtifactV1 {
  occurrence_locator : string;
  occurrence_checksums : list ChecksumV1;
  occurrence_size : option N;
}.

Inductive ParseStateV1 := ParseValid | ParseRecordInvalid.
Inductive NamespaceStateV1 := NamespaceEstablished | NamespaceRejected | NamespaceUnresolved.
Inductive OccurrenceStateV1 :=
| OccurrenceArtifactBound | OccurrenceObservationOnly | OccurrenceUnreachable | OccurrenceConflicting.
Inductive SemanticsStateV1 :=
| SemanticsComplete | SemanticsVerifiedEmpty | SemanticsIncomplete | SemanticsInvalid.
Inductive PublicationStateV1 := PublicationDated | PublicationUnknown | PublicationConflicting.
Inductive FreshnessStateV1 := FreshnessCurrentGeneration | FreshnessBulkGeneration | FreshnessStale.

Record EvidenceAxesV1 := mk_EvidenceAxesV1 {
  axes_parse : ParseStateV1;
  axes_namespace : NamespaceStateV1;
  axes_occurrence : OccurrenceStateV1;
  axes_semantics : SemanticsStateV1;
  axes_publication : PublicationStateV1;
  axes_freshness : FreshnessStateV1;
}.

Record RawObservationV1 := mk_RawObservationV1 {
  observation_id : N;
  observation_source_index : N;
  observation_record_index : N;
  observation_fields : list FieldV1;
  observation_artifact : option OccurrenceArtifactV1;
  observation_axes : EvidenceAxesV1;
}.

Inductive DecisionCodeV1 :=
| EquivalentMerge
| CurrentOnly
| SemanticConflict
| UnresolvedNamespace
| UnreachableOccurrence
| IncompleteSemantics
| RecommendedOverlaySuppressed
| QuarantinedRelease.

Record DecisionV1 := mk_DecisionV1 {
  decision_code : DecisionCodeV1;
  decision_observation_ids : list N;
  decision_detail : string;
}.

Inductive LookupStateV1 := LookupPresent | LookupIncomplete.
Inductive DependencyKindV1 :=
| KindV1Depends | KindV1Imports | KindV1LinkingTo | KindV1Suggests | KindV1Enhances.
Inductive RelationOpV1 := OpV1Lt | OpV1Le | OpV1Eq | OpV1Ne | OpV1Ge | OpV1Gt.

Record ClauseV1 := mk_ClauseV1 { clauseV1_op : RelationOpV1; clauseV1_version : string }.

Record DependencyV1 := mk_DependencyV1 {
  dependency_kind : DependencyKindV1;
  dependency_package : string;
  dependency_clauses : list ClauseV1;
}.

Record ArtifactV1 := mk_ArtifactV1 {
  artifact_locator : string;
  artifact_upstream_checksums : list ChecksumV1;
  artifact_size : option N;
}.

Record DistributionV1 := mk_DistributionV1 {
  distribution_registry : string;
  distribution_channel : string;
  distribution_snapshot : option string;
  distribution_artifacts : list ArtifactV1;
  distribution_metadata : list FieldV1;
}.

Inductive CandidateCurrentnessV1 := CurrentV1 | HistoricalV1.
Inductive EvidenceRoleV1 := RoleArtifact | RoleIdentity | RolePublication | RoleSemantics.

Record EvidenceReferenceV1 := mk_EvidenceReferenceV1 {
  evidence_observation_id : N;
  evidence_roles : list EvidenceRoleV1;
}.

(** Git identity of a release that is not a registry namespace and a version. *)
Record GitProvenanceV1 := mk_GitProvenanceV1 {
  provenance_repository : string;
  provenance_commit : string;
  provenance_subdirectory : option string;
}.

Record EligibleReleaseV1 := mk_EligibleReleaseV1 {
  eligible_package : string;
  eligible_version : string;
  eligible_namespace : string;
  eligible_git_provenance : option GitProvenanceV1;
  eligible_currentness : CandidateCurrentnessV1;
  eligible_metadata : list FieldV1;
  eligible_publication : option string;
  eligible_dependencies : list DependencyV1;
  eligible_distributions : list DistributionV1;
  eligible_metadata_sha256 : list byte;
  eligible_evidence : list EvidenceReferenceV1;
}.

Record PackageHistoryV1 := mk_PackageHistoryV1 {
  history_package : string;
  history_state : LookupStateV1;
  history_observations : list RawObservationV1;
  history_decisions : list DecisionV1;
  history_eligible_releases : list EligibleReleaseV1;
}.

(** The newtype that is written with [postcard]. *)
Record PostcardHistoryV1 := mk_PostcardHistoryV1 { PostcardHistoryV1_0 : PackageHistoryV1 }.

(** ** What a generation is built from *)

Record SourceInput := mk_SourceInput {
  input_kind : string;
  input_representation : string;
  input_content_sha256 : list byte;
  input_etag : option string;
  input_last_modified : option string;
  input_observed_at : string;
  input_endpoint : string;
}.

Record SnapshotBuildInput := mk_SnapshotBuildInput {
  build_registry_id : RegistryId;
  build_compatibility_profile : N;
  build_parser_schema : N;
  build_normalization_policy : N;
  build_created_at : string;
  build_producer : string;
  build_coverage : CoverageV1;
  build_sources : list SourceInput;
  build_histories : list PackageHistoryV1;
}.

Definition is_present (state : LookupStateV1) : bool :=
  match state with LookupPresent => true | LookupIncomplete => false end.
