(* ===== verification/SnapshotValidation.v ===== *)
(** * Snapshot validation ([rsolve-provider/src/snapshot/validation.rs])

    The checks of a history and of a header: limits, canonical order,
    references and digests; and the domain release of a stored one. *)

From S2P Require Import Prelude RustStd Collections Externals Text Format Versions Names GitUrl Publication.
From S2P Require Import Identity Constraints Digest Metadata Snapshot.

(** [Err(SnapshotError::Invalid(message))] when the condition holds. *)
Definition reject_if (condition : bool) (message : string) : result unit SnapshotError :=
  if condition then Err (Invalid message) else Ok tt.

(** [value.len() > limit] of a [Vec] and of a [String]. *)
Definition exceeds {A} (limit : N) (l : list A) : bool := N.ltb limit (len_u64 l).
Definition str_exceeds (limit : N) (s : string) : bool := exceeds limit (bytes s).
Definition option_exceeds (limit : N) (s : option string) : bool :=
  from_option (str_exceeds limit) false s.

(** [keys.windows(2).any(|pair| pair[0] >= pair[1])] *)
Definition unordered {A} (c : A → A → comparison) (keys : list A) : bool :=
  existsb (λ pair, negb (is_lt (c pair.1 pair.2))) (windows2 keys).

(** [Ord] of a pair. *)
Definition pair_cmp {A B} (c : A → A → comparison) (d : B → B → comparison) :
    A * B → A * B → comparison := cmp_then (cmp_on fst c) (cmp_on snd d).

(** ** Strings and digests *)

Definition validate_registry_id (value : RegistryId) : result unit SnapshotError :=
  reject_if (bool_decide (Identifier_as_str value = "")) "registry id is empty".

Definition validate_string (value : string) (required : bool) (label : string) :
    result unit SnapshotError :=
  reject_if ((required && bool_decide (value = "")) || str_exceeds STRING_LIMIT value)
    (label +:+ " is empty or too long").

Definition is_rfc3339_seconds `{Timestamps} (value : string) : bool :=
  bool_decide (str_len value = 20) && ends_with (byte_of 90) value
  && bool_decide (bytes value !! 10 = Some (byte_of 84))
  && bool_decide (bytes value !! 19 = Some (byte_of 90)) && Timestamp_parses value.

(** [u8::from_str_radix(pair, 16)] *)
Definition hex_digit_value (b : byte) : option N :=
  if is_ascii_digit b then Some (u8 b - 48)%N
  else if in_range 97 102 b then Some (u8 b - 87)%N
  else if in_range 65 70 b then Some (u8 b - 55)%N
  else None.

(** The loop over the 32 pairs of digits. *)
Fixpoint parse_hex_pairs (l : list byte) : result (list byte) SnapshotError :=
  match l with
  | high :: low :: l =>
    match hex_digit_value high, hex_digit_value low with
    | Some h, Some d => let? rest := parse_hex_pairs l in Ok (byte_of (16 * h + d) :: rest)
    | _, _ => Err (Invalid "invalid SHA-256 digest")
    end
  | _ => Ok []
  end.

Definition parse_hex_32 (value : string) : result (list byte) SnapshotError :=
  if bool_decide (str_len value ≠ 64) || negb (all_bytes is_ascii_hexdigit value)
  then Err (Invalid "expected lowercase SHA-256 digest")
  else
    let? digest := parse_hex_pairs (bytes value) in
    if bool_decide (value ≠ to_ascii_lowercase value)
    then Err (Invalid "digest must use lowercase hexadecimal")
    else Ok digest.

Definition hex (l : list byte) : string :=
  from_utf8 (mjoin ((λ b, [hex_digit (u8 b / 16); hex_digit (u8 b mod 16)]) <$> l)).
Definition hex_digest (value : string) : string := to_ascii_lowercase value.

Definition append_part (output part : list byte) : list byte :=
  output ++ u64_to_le_bytes (len_u64 part) ++ part.

(** The domains, each ended by a zero byte and [v1]. *)
Definition domain (name : string) : list byte := bytes name ++ [byte_of 0] ++ bytes "v1".
Definition SOURCE_ID_DOMAIN : list byte := domain "rsolve.metadata-source-id".
Definition GENERATION_DOMAIN : list byte := domain "rsolve.metadata-generation".
Definition MANIFEST_DOMAIN : list byte := domain "rsolve.metadata-history-manifest".

Definition hash_parts `{Sha2} (domain : list byte) (parts : list string) : list byte :=
  sha256_digest (foldl (λ output part, append_part output (bytes part)) (append_part [] domain) parts).

(** ** Limits of a history *)

Definition validate_field (label : string) (field : FieldV1) : result unit SnapshotError :=
  let? _ := validate_string (field_name field) false (label +:+ " name") in
  validate_string (field_value field) false (label +:+ " value").

Definition validate_checksum_strings (label : string) (checksum : ChecksumV1) :
    result unit SnapshotError :=
  let? _ := validate_string (checksum_algorithm checksum) true (label +:+ " algorithm") in
  validate_string (checksum_value checksum) true (label +:+ " value").

Definition observation_limits (observation : RawObservationV1) : result unit SnapshotError :=
  let? _ := reject_if (exceeds MEMBER_LIMIT (observation_fields observation))
              "observation has too many fields" in
  let? _ := try_each (validate_field "observation field") (observation_fields observation) in
  match observation_artifact observation with
  | None => Ok tt
  | Some artifact =>
    let? _ := reject_if (str_exceeds STRING_LIMIT (occurrence_locator artifact)
                         || exceeds MEMBER_LIMIT (occurrence_checksums artifact))
                "observation artifact exceeds limits" in
    let? _ := validate_string (occurrence_locator artifact) true "observation artifact locator" in
    try_each (validate_checksum_strings "observation checksum") (occurrence_checksums artifact)
  end.

Definition decision_limits (decision : DecisionV1) : result unit SnapshotError :=
  reject_if (exceeds MEMBER_LIMIT (decision_observation_ids decision)
             || str_exceeds STRING_LIMIT (decision_detail decision))
    "decision exceeds its limits".

Definition clause_limits (clause : ClauseV1) : result unit SnapshotError :=
  let? _ := reject_if (str_exceeds STRING_LIMIT (clauseV1_version clause))
              "dependency clause exceeds its limits" in
  validate_string (clauseV1_version clause) true "dependency clause version".

Definition dependency_limits (dependency : DependencyV1) : result unit SnapshotError :=
  let? _ := reject_if (str_exceeds STRING_LIMIT (dependency_package dependency)
                       || exceeds MEMBER_LIMIT (dependency_clauses dependency))
              "dependency exceeds its limits" in
  let? _ := validate_string (dependency_package dependency) true "dependency package" in
  try_each clause_limits (dependency_clauses dependency).

Definition artifact_limits (artifact : ArtifactV1) : result unit SnapshotError :=
  let? _ := reject_if (str_exceeds STRING_LIMIT (artifact_locator artifact)
                       || exceeds MEMBER_LIMIT (artifact_upstream_checksums artifact))
              "distribution artifact exceeds its limits" in
  let? _ := validate_string (artifact_locator artifact) true "distribution artifact locator" in
  try_each (validate_checksum_strings "distribution checksum") (artifact_upstream_checksums artifact).

Definition distribution_limits (distribution : DistributionV1) : result unit SnapshotError :=
  let? _ := reject_if (str_exceeds STRING_LIMIT (distribution_registry distribution)
                       || str_exceeds STRING_LIMIT (distribution_channel distribution)
                       || option_exceeds STRING_LIMIT (distribution_snapshot distribution)
                       || exceeds MEMBER_LIMIT (distribution_artifacts distribution)
                       || exceeds MEMBER_LIMIT (distribution_metadata distribution))
              "distribution exceeds its limits" in
  let? _ := validate_string (distribution_registry distribution) true "distribution registry" in
  let? _ := validate_string (distribution_channel distribution) true "distribution channel" in
  let? _ := match distribution_snapshot distribution with
            | Some snapshot => validate_string snapshot true "distribution snapshot"
            | None => Ok tt
            end in
  let? _ := try_each (validate_field "distribution metadata") (distribution_metadata distribution) in
  try_each artifact_limits (distribution_artifacts distribution).

Definition provenance_exceeds (provenance : GitProvenanceV1) : bool :=
  str_exceeds STRING_LIMIT (provenance_repository provenance)
  || str_exceeds STRING_LIMIT (provenance_commit provenance)
  || option_exceeds STRING_LIMIT (provenance_subdirectory provenance).

Definition validate_provenance_strings (provenance : GitProvenanceV1) : result unit SnapshotError :=
  let? _ := validate_string (provenance_repository provenance) true "Git repository" in
  let? _ := validate_string (provenance_commit provenance) true "Git commit" in
  match provenance_subdirectory provenance with
  | Some subdirectory => validate_string subdirectory false "Git subdirectory"
  | None => Ok tt
  end.

Definition evidence_limits (evidence : EvidenceReferenceV1) : result unit SnapshotError :=
  reject_if (exceeds MEMBER_LIMIT (evidence_roles evidence)) "release evidence exceeds its limits".

Definition release_limits (release : EligibleReleaseV1) : result unit SnapshotError :=
  let? _ := reject_if (str_exceeds STRING_LIMIT (eligible_package release)
                       || str_exceeds STRING_LIMIT (eligible_version release)
                       || str_exceeds STRING_LIMIT (eligible_namespace release)
                       || from_option provenance_exceeds false (eligible_git_provenance release)
                       || exceeds MEMBER_LIMIT (eligible_metadata release)
                       || exceeds MEMBER_LIMIT (eligible_dependencies release)
                       || exceeds MEMBER_LIMIT (eligible_distributions release)
                       || exceeds MEMBER_LIMIT (eligible_evidence release))
              "eligible release exceeds its limits" in
  let? _ := validate_string (eligible_package release) true "release package" in
  let? _ := validate_string (eligible_version release) true "release version" in
  let? _ := validate_string (eligible_namespace release) true "release namespace" in
  let? _ := match eligible_git_provenance release with
            | Some provenance => validate_provenance_strings provenance
            | None => Ok tt
            end in
  let? _ := try_each (validate_field "release metadata") (eligible_metadata release) in
  let? _ := try_each dependency_limits (eligible_dependencies release) in
  let? _ := try_each distribution_limits (eligible_distributions release) in
  try_each evidence_limits (eligible_evidence release).

Definition validate_history_limits (history : PackageHistoryV1) : result unit SnapshotError :=
  let? _ := reject_if (str_exceeds STRING_LIMIT (history_package history)
                       || exceeds OBSERVATION_LIMIT (history_observations history)
                       || exceeds DECISION_LIMIT (history_decisions history)
                       || exceeds ELIGIBLE_RELEASE_LIMIT (history_eligible_releases history))
              "history exceeds its count or string limit" in
  let? _ := try_each observation_limits (history_observations history) in
  let? _ := try_each decision_limits (history_decisions history) in
  try_each release_limits (history_eligible_releases history).

(** ** Canonical order *)

Definition decision_rank (code : DecisionCodeV1) : N :=
  match code with
  | EquivalentMerge => 0
  | CurrentOnly => 1
  | SemanticConflict => 2
  | UnresolvedNamespace => 3
  | UnreachableOccurrence => 4
  | IncompleteSemantics => 5
  | RecommendedOverlaySuppressed => 6
  | QuarantinedRelease => 7
  end.

Definition dependency_rank (kind : DependencyKindV1) : N :=
  match kind with
  | KindV1Depends => 0 | KindV1Imports => 1 | KindV1LinkingTo => 2 | KindV1Suggests => 3 | KindV1Enhances => 4
  end.

Definition relation_rank (op : RelationOpV1) : N :=
  match op with
  | OpV1Lt => 0 | OpV1Le => 1 | OpV1Eq => 2 | OpV1Ne => 3 | OpV1Ge => 4 | OpV1Gt => 5
  end.

Definition role_rank (role : EvidenceRoleV1) : N :=
  match role with RoleArtifact => 0 | RoleIdentity => 1 | RolePublication => 2 | RoleSemantics => 3 end.

Definition canonical_version_components (version : RPackageVersion) : list N :=
  take (RPackageVersion_canonical_component_count version) (RPackageVersion_components version).

(** [RPackageVersion::parse(text).map_err(|e| SnapshotError::Invalid(e.to_string()))] *)
Definition parse_version (text : string) : result RPackageVersion SnapshotError :=
  map_err (λ e, Invalid (RPackageVersionError_fmt e)) (RPackageVersion_parse text).

Definition ObservationOrderKey : Type := N * (N * list byte).
Definition observation_key_cmp : ObservationOrderKey → ObservationOrderKey → comparison :=
  pair_cmp N.compare (pair_cmp N.compare bytes_cmp).

Definition DecisionOrderKey : Type := N * (list N * string).
Definition decision_key_cmp : DecisionOrderKey → DecisionOrderKey → comparison :=
  pair_cmp N.compare (pair_cmp (lex_cmp N.compare) str_cmp).

Definition VersionOrderKey : Type := list N * string.
Definition version_key_cmp : VersionOrderKey → VersionOrderKey → comparison :=
  pair_cmp (lex_cmp N.compare) str_cmp.

Definition ClauseOrderKey : Type := N * VersionOrderKey.
Definition clause_key_cmp : ClauseOrderKey → ClauseOrderKey → comparison :=
  pair_cmp N.compare version_key_cmp.

Definition DependencyOrderKey : Type := N * (string * list ClauseOrderKey).
Definition dependency_key_cmp : DependencyOrderKey → DependencyOrderKey → comparison :=
  pair_cmp N.compare (pair_cmp str_cmp (lex_cmp clause_key_cmp)).

Definition DistributionOrderKey : Type := string * (string * option string).
Definition distribution_key_cmp : DistributionOrderKey → DistributionOrderKey → comparison :=
  pair_cmp str_cmp (pair_cmp str_cmp (option_cmp str_cmp)).

Definition ArtifactOrderKey : Type := string * (list (string * string) * option N).
Definition artifact_key_cmp : ArtifactOrderKey → ArtifactOrderKey → comparison :=
  pair_cmp str_cmp (pair_cmp (lex_cmp (pair_cmp str_cmp str_cmp)) (option_cmp N.compare)).

Definition EvidenceOrderKey : Type := N * list N.
Definition evidence_key_cmp : EvidenceOrderKey → EvidenceOrderKey → comparison :=
  pair_cmp N.compare (lex_cmp N.compare).

Definition observation_order_key
    `{!JsonBytes (list FieldV1 * option OccurrenceArtifactV1)} (observation : RawObservationV1) :
    result ObservationOrderKey SnapshotError :=
  let? payload := map_err SnapshotJson
    (json_to_vec (observation_fields observation, observation_artifact observation)) in
  Ok (observation_source_index observation, (observation_record_index observation, payload)).

Definition decision_order_key (decision : DecisionV1) : DecisionOrderKey :=
  (decision_rank (decision_code decision),
   (decision_observation_ids decision, decision_detail decision)).

Definition clause_order_key (clause : ClauseV1) : result ClauseOrderKey SnapshotError :=
  let? version := parse_version (clauseV1_version clause) in
  Ok (relation_rank (clauseV1_op clause),
      (canonical_version_components version, clauseV1_version clause)).

Definition dependency_order_key (dependency : DependencyV1) :
    result DependencyOrderKey SnapshotError :=
  let? clauses := try_map clause_order_key (dependency_clauses dependency) in
  Ok (dependency_rank (dependency_kind dependency), (dependency_package dependency, clauses)).

Definition distribution_order_key (distribution : DistributionV1) : DistributionOrderKey :=
  (distribution_registry distribution,
   (distribution_channel distribution, distribution_snapshot distribution)).

Definition checksum_order_key (checksum : ChecksumV1) : string * string :=
  (checksum_algorithm checksum, checksum_value checksum).

Definition validate_checksum (checksum : ChecksumV1) : result unit SnapshotError :=
  let? _ := reject_if (bool_decide (checksum_algorithm checksum
                         ≠ to_ascii_lowercase (checksum_algorithm checksum)))
              "checksum algorithm is not lowercase" in
  if bool_decide (checksum_algorithm checksum = "sha256")
  then let? _ := parse_hex_32 (checksum_value checksum) in Ok tt
  else Ok tt.

Definition validate_checksums (checksums : list ChecksumV1) : result unit SnapshotError :=
  let? _ := reject_if (unordered (pair_cmp str_cmp str_cmp) (checksum_order_key <$> checksums))
              "checksums are not sorted and unique" in
  try_each validate_checksum checksums.

Definition artifact_order_key (artifact : ArtifactV1) : result ArtifactOrderKey SnapshotError :=
  let? _ := validate_checksums (artifact_upstream_checksums artifact) in
  Ok (artifact_locator artifact,
      (checksum_order_key <$> artifact_upstream_checksums artifact, artifact_size artifact)).

Definition validate_fields (fields : list FieldV1) (label : string) : result unit SnapshotError :=
  reject_if (unordered str_cmp (field_name <$> fields)) (label +:+ " is not sorted and unique").

(** ** The order of releases *)

Definition GitIdentity : Type := NormalizedGitUrl * (GitCommitId * option RepositorySubdir).
Definition git_identity_cmp : GitIdentity → GitIdentity → comparison :=
  pair_cmp NormalizedGitUrl_cmp (pair_cmp GitCommitId_cmp (option_cmp RepositorySubdir_cmp)).

(** The Git parts of an identity and of an order key are [None] together. *)
Definition GitParts : Type :=
  option NormalizedGitUrl * (option GitCommitId * option RepositorySubdir).
Definition git_parts_cmp : GitParts → GitParts → comparison :=
  pair_cmp (option_cmp NormalizedGitUrl_cmp)
    (pair_cmp (option_cmp GitCommitId_cmp) (option_cmp RepositorySubdir_cmp)).
Definition git_parts (identity : option GitIdentity) : GitParts :=
  match identity with
  | Some (repository, (commit, subdirectory)) => (Some repository, (Some commit, subdirectory))
  | None => (None, (None, None))
  end.

Definition WireIdentity : Type := list N * (string * GitParts).
Definition wire_identity_cmp : WireIdentity → WireIdentity → comparison :=
  pair_cmp (lex_cmp N.compare) (pair_cmp str_cmp git_parts_cmp).

Definition ReleaseOrderKey : Type := list N * (string * (string * GitParts)).
Definition release_key_cmp : ReleaseOrderKey → ReleaseOrderKey → comparison :=
  pair_cmp (lex_cmp N.compare) (pair_cmp str_cmp (pair_cmp str_cmp git_parts_cmp)).

Definition parse_git_provenance (provenance : GitProvenanceV1) :
    result GitIdentity SnapshotError :=
  let? repository := map_err (λ e, Invalid (NormalizedGitUrlError_fmt e))
    (NormalizedGitUrl_new (provenance_repository provenance)) in
  let? commit := map_err (λ e, Invalid (GitCommitIdError_fmt e))
    (GitCommitId_new (provenance_commit provenance)) in
  let? subdirectory := match provenance_subdirectory provenance with
                       | None => Ok None
                       | Some subdirectory =>
                         result_map Some (map_err (λ e, Invalid (RepositorySubdirError_fmt e))
                           (RepositorySubdir_new subdirectory))
                       end in
  Ok (repository, (commit, subdirectory)).

(** The captured [identities] and [git_versions], and the keys so far. *)
Record ReleaseOrderState := mk_ReleaseOrderState {
  order_identities : list (WireIdentity * unit);
  order_git_versions : list (GitIdentity * list N);
  order_keys : list ReleaseOrderKey;
}.

Definition record_git_version (git_versions : list (GitIdentity * list N)) (identity : GitIdentity)
    (components : list N) : result (list (GitIdentity * list N)) SnapshotError :=
  match bt_get git_identity_cmp identity git_versions with
  | Some previous =>
    if bool_decide (previous ≠ components)
    then Err (Invalid "Git identity appears with multiple release versions")
    else Ok (bt_insert git_identity_cmp identity components git_versions)
  | None => Ok (bt_insert git_identity_cmp identity components git_versions)
  end.

Definition release_order_step (acc : ReleaseOrderState) (release : EligibleReleaseV1) :
    result ReleaseOrderState SnapshotError :=
  let? version := parse_version (eligible_version release) in
  let components := canonical_version_components version in
  let? (git, git_versions) :=
    match eligible_git_provenance release with
    | Some provenance =>
      let? identity := parse_git_provenance provenance in
      let? git_versions := record_git_version (order_git_versions acc) identity components in
      Ok (Some identity, git_versions)
    | None => Ok (None, order_git_versions acc)
    end in
  let identity := (components, (eligible_namespace release, git_parts git)) in
  match bt_get wire_identity_cmp identity (order_identities acc) with
  | Some _ => Err (Invalid "duplicate eligible release identity")
  | None =>
    Ok {| order_identities := bt_insert wire_identity_cmp identity tt (order_identities acc);
          order_git_versions := git_versions;
          order_keys := order_keys acc ++
            [(components, (eligible_version release,
               (eligible_namespace release, git_parts git)))] |}
  end.

Definition validate_release_order (releases : list EligibleReleaseV1) : result unit SnapshotError :=
  let? acc := try_fold release_order_step (mk_ReleaseOrderState [] [] []) releases in
  reject_if (unordered release_key_cmp (order_keys acc))
    "eligible releases are not canonically ordered".

Section canonical.
Context `{!JsonBytes (list FieldV1 * option OccurrenceArtifactV1)}.

Definition canonical_dependency (dependency : DependencyV1) : result unit SnapshotError :=
  let? clause_keys := try_map clause_order_key (dependency_clauses dependency) in
  reject_if (unordered clause_key_cmp clause_keys) "dependency clauses are not sorted and unique".

Definition canonical_distribution (distribution : DistributionV1) : result unit SnapshotError :=
  let? _ := validate_fields (distribution_metadata distribution) "distribution metadata" in
  let? artifact_keys := try_map artifact_order_key (distribution_artifacts distribution) in
  let? _ := reject_if (unordered artifact_key_cmp artifact_keys)
              "artifacts are not canonically ordered" in
  try_each (λ artifact, validate_checksums (artifact_upstream_checksums artifact))
    (distribution_artifacts distribution).

Definition evidence_order_key (evidence : EvidenceReferenceV1) : EvidenceOrderKey :=
  (evidence_observation_id evidence, role_rank <$> evidence_roles evidence).

Definition canonical_evidence (evidence : EvidenceReferenceV1) : result unit SnapshotError :=
  reject_if (unordered N.compare (role_rank <$> evidence_roles evidence))
    "evidence roles are not sorted and unique".

Definition canonical_release (release : EligibleReleaseV1) : result unit SnapshotError :=
  let? _ := validate_fields (eligible_metadata release) "release metadata" in
  let? dependency_keys := try_map dependency_order_key (eligible_dependencies release) in
  let? _ := reject_if (unordered dependency_key_cmp dependency_keys)
              "dependencies are not canonically ordered" in
  let? _ := try_each canonical_dependency (eligible_dependencies release) in
  let? _ := reject_if (unordered distribution_key_cmp
                         (distribution_order_key <$> eligible_distributions release))
              "distributions are not canonically ordered" in
  let? _ := try_each canonical_distribution (eligible_distributions release) in
  let? _ := reject_if (unordered evidence_key_cmp (evidence_order_key <$> eligible_evidence release))
              "evidence is not canonically ordered" in
  try_each canonical_evidence (eligible_evidence release).

Definition canonical_decision (decision : DecisionV1) : result unit SnapshotError :=
  reject_if (unordered N.compare (decision_observation_ids decision))
    "decision observation IDs are not sorted and unique".

Definition canonical_observation (observation : RawObservationV1) : result unit SnapshotError :=
  match observation_artifact observation with
  | Some artifact => validate_checksums (occurrence_checksums artifact)
  | None => Ok tt
  end.

Definition validate_canonical_history (history : PackageHistoryV1) : result unit SnapshotError :=
  let? _ := validate_history_limits history in
  let? observation_keys := try_map observation_order_key (history_observations history) in
  let? _ := reject_if (unordered observation_key_cmp observation_keys)
              "observations are not canonically ordered" in
  let? _ := reject_if (unordered decision_key_cmp (decision_order_key <$> history_decisions history))
              "decisions are not canonically ordered" in
  let? _ := try_each canonical_decision (history_decisions history) in
  let? _ := validate_release_order (history_eligible_releases history) in
  let? _ := try_each canonical_observation (history_observations history) in
  try_each canonical_release (history_eligible_releases history).
End canonical.

(** ** The domain release *)

Definition dependency_kind_to_domain (kind : DependencyKindV1) : DependencyKind :=
  match kind with
  | KindV1Depends => Depends
  | KindV1Imports => Imports
  | KindV1LinkingTo => LinkingTo
  | KindV1Suggests => Suggests
  | KindV1Enhances => Enhances
  end.

Definition relation_to_domain (op : RelationOpV1) : RelationOp :=
  match op with
  | OpV1Lt => OpLt | OpV1Le => OpLe | OpV1Eq => OpEq | OpV1Ne => OpNe | OpV1Ge => OpGe | OpV1Gt => OpGt
  end.

Definition clause_to_domain (clause : ClauseV1) : result VersionClause SnapshotError :=
  let? version := parse_version (clauseV1_version clause) in
  Ok (mk_VersionClause (relation_to_domain (clauseV1_op clause)) version).

(** [Invalid(e.to_string())] for the errors of the names. *)
Definition parse_package (name : string) : result PackageName SnapshotError :=
  map_err (λ e, Invalid (PackageNameError_fmt e)) (PackageName_new name).
Definition parse_identifier (kind : IdentifierKind) (text : string) :
    result (Identifier kind) SnapshotError :=
  map_err (λ e, Invalid (IdentifierError_fmt e)) (Identifier_new kind text).

Definition dependency_to_domain (dependency : DependencyV1) :
    result DeclaredDependency SnapshotError :=
  let? clauses := try_map clause_to_domain (dependency_clauses dependency) in
  let? name := parse_package (dependency_package dependency) in
  map_err (λ e, Invalid (PackageRequirementError_fmt e))
    (DeclaredDependency_from_parts (dependency_kind_to_domain (dependency_kind dependency)) name
       SourceAny (mk_VersionConstraint clauses)).

Definition checksum_to_domain (checksum : ChecksumV1) : result UpstreamChecksum SnapshotError :=
  if bool_decide (checksum_algorithm checksum = "sha256")
  then let? digest := map_err (λ e, Invalid (DigestError_fmt e))
                        (Sha256Digest_new (checksum_value checksum)) in
       Ok (ChecksumSha256 digest)
  else if bool_decide (checksum_algorithm checksum = "md5")
  then Ok (Md5 (checksum_value checksum))
  else Ok (Other (checksum_algorithm checksum) (checksum_value checksum)).

Definition artifact_to_domain (artifact : ArtifactV1) : result Artifact SnapshotError :=
  let? checksums := try_map checksum_to_domain (artifact_upstream_checksums artifact) in
  let? locator := parse_identifier KArtifactLocator (artifact_locator artifact) in
  Ok (Source (mk_SourceArtifact locator checksums (artifact_size artifact))).

Definition field_pair (field : FieldV1) : string * string := (field_name field, field_value field).

Definition distribution_to_domain (distribution : DistributionV1) :
    result Distribution SnapshotError :=
  let? artifacts := try_map artifact_to_domain (distribution_artifacts distribution) in
  let? registry := parse_identifier KRegistryId (distribution_registry distribution) in
  let? channel := parse_identifier KDistributionChannel (distribution_channel distribution) in
  let? snapshot := match distribution_snapshot distribution with
                   | Some snapshot => result_map Some (parse_identifier KSnapshotId snapshot)
                   | None => Ok None
                   end in
  Ok {| registry := registry; channel := channel; snapshot := snapshot; artifacts := artifacts;
        observed_metadata :=
          mk_DistributionMetadata
            (bt_from_iter str_cmp (field_pair <$> distribution_metadata distribution)) |}.

Section domain.
Context `{CivilDate, Sha2, UnicodeTables}.

(** The namespace and the kind of provenance of a release. *)
Definition check_namespace (wire : EligibleReleaseV1) : result unit SnapshotError :=
  let git := bool_decide (is_Some (eligible_git_provenance wire)) in
  if (bool_decide (eligible_namespace wire = "cran") && negb git)
     || (bool_decide (eligible_namespace wire = "r-universe") && git) then Ok tt
  else if git
  then Err (Invalid ("Git provenance cannot use namespace " +:+ debug_str (eligible_namespace wire)))
  else Err (Invalid "registry releases require the cran namespace").

Definition identity_to_domain (wire : EligibleReleaseV1) (package : PackageName)
    (version : RPackageVersion) : result ReleaseIdentity SnapshotError :=
  match eligible_git_provenance wire with
  | Some provenance =>
    let? (repository, (commit, subdirectory)) := parse_git_provenance provenance in
    Ok (mk_ReleaseIdentity package (GitCommit repository commit subdirectory))
  | None =>
    let? namespace := parse_identifier KPackageNamespace "cran" in
    Ok (mk_ReleaseIdentity package (RegistryRelease namespace version))
  end.

Definition publication_to_domain (wire : EligibleReleaseV1) :
    result (option ReleasePublication) SnapshotError :=
  match eligible_publication wire with
  | None => Ok None
  | Some date =>
    result_map (λ d, Some (mk_ReleasePublication d))
      (map_err (λ e, Invalid (PublicationDateError_fmt e)) (PublicationDate_parse date))
  end.

Definition release_to_domain (wire : EligibleReleaseV1) : result PackageRelease SnapshotError :=
  let? _ := check_namespace wire in
  let? package := parse_package (eligible_package wire) in
  let? version := parse_version (eligible_version wire) in
  let? identity := identity_to_domain wire package version in
  let? metadata := map_err (λ e, Invalid (ReleaseMetadataError_fmt e))
    (ReleaseMetadata_from_pairs (field_pair <$> eligible_metadata wire)) in
  let? publication := publication_to_domain wire in
  let? dependencies := try_map dependency_to_domain (eligible_dependencies wire) in
  let? distributions := try_map distribution_to_domain (eligible_distributions wire) in
  let? release := map_err (λ e, Invalid (PackageReleaseError_fmt e))
    (PackageRelease_try_from
       {| observed_identity := identity; observed_package := package; observed_version := version;
          observed_release_metadata := metadata; observed_publication := publication;
          observed_dependencies := dependencies; observed_distributions := distributions |}) in
  if bool_decide (hex_digest (Sha256Digest_as_str (release_metadata_digest release))
                  ≠ hex (eligible_metadata_sha256 wire))
  then Err (Invalid "eligible release metadata digest mismatch")
  else Ok release.
End domain.

(** ** Histories *)

Section history.
Context `{CivilDate, Sha2, UnicodeTables}.
Context `{!JsonBytes (list FieldV1 * option OccurrenceArtifactV1)}.

(** [index as u32] *)
Definition as_u32 (n : nat) : N := N.of_nat n mod 2 ^ 32.

(** One observation, the ids before it, and its index. *)
Definition observation_step (source_count : nat) (ids : list (N * unit))
    (entry : nat * RawObservationV1) : result (list (N * unit)) SnapshotError :=
  let id := observation_id entry.2 in
  let? _ := reject_if (negb (N.eqb id (as_u32 entry.1))) "observation ids are not contiguous" in
  let? _ := reject_if (N.leb (N.of_nat source_count) (observation_source_index entry.2))
              "observation source index is out of range" in
  let? _ := reject_if (bool_decide (is_Some (bt_get N.compare id ids))) "duplicate observation id" in
  Ok (bt_insert N.compare id tt ids).

Definition known (ids : list (N * unit)) (message : string) (id : N) : result unit SnapshotError :=
  reject_if (negb (bool_decide (is_Some (bt_get N.compare id ids)))) message.

Definition check_decision (ids : list (N * unit)) (decision : DecisionV1) :
    result unit SnapshotError :=
  try_each (known ids "decision references unknown observation") (decision_observation_ids decision).

Definition check_release (ids : list (N * unit)) (package : string) (release : EligibleReleaseV1) :
    result unit SnapshotError :=
  let? _ := reject_if (bool_decide (eligible_package release ≠ package))
              "release package does not match history key" in
  let? _ := try_each (λ evidence, known ids "release references unknown observation"
                                    (evidence_observation_id evidence))
              (eligible_evidence release) in
  let? _ := release_to_domain release in
  Ok tt.

(** The indexes of the sources are not used. *)
Definition validate_history (history : PackageHistoryV1) (sources : list (string * N))
    (source_count : nat) : result unit SnapshotError :=
  let? package := parse_package (history_package history) in
  let? _ := reject_if (exceeds OBSERVATION_LIMIT (history_observations history)
                       || exceeds DECISION_LIMIT (history_decisions history)
                       || exceeds ELIGIBLE_RELEASE_LIMIT (history_eligible_releases history))
              ("history " +:+ PackageName_as_str package +:+ " exceeds count limit") in
  let? _ := reject_if (is_present (history_state history)
                       && bool_decide (history_eligible_releases history = []))
              "present history has no eligible release" in
  let? _ := reject_if (negb (is_present (history_state history))
                       && negb (bool_decide (history_eligible_releases history = [])))
              "incomplete history has eligible releases" in
  let? ids := try_fold (observation_step source_count) [] (indexed (history_observations history)) in
  let? _ := try_each (check_decision ids) (history_decisions history) in
  let? _ := try_each (check_release ids (history_package history))
              (history_eligible_releases history) in
  validate_canonical_history history.
End history.

(** ** The header *)

Section header.
Context `{Sha2, Timestamps}.

(** What both functions below hash, for a registry. *)
Definition generation_bytes (registry : string) (header : SnapshotHeaderV1) : list byte :=
  let append output value := append_part output (bytes value) in
  let fixed := foldl append (append_part [] GENERATION_DOMAIN)
    [registry; N_to_string (header_version header); N_to_string (header_history_encoding header);
     N_to_string (header_normalization_policy header);
     N_to_string (header_compatibility_profile header); N_to_string (header_parser_schema header);
     coverage_state (header_coverage header); coverage_scope (header_coverage header);
     coverage_freshness (header_coverage header)] in
  let with_evidence := foldl append fixed (coverage_missing_evidence (header_coverage header)) in
  let with_sources := foldl append with_evidence (source_id <$> header_sources header) in
  append with_sources (header_history_manifest_sha256 header).

Definition generation_id (input : SnapshotBuildInput) (header : SnapshotHeaderV1) : string :=
  hex (sha256_digest (generation_bytes (Identifier_as_str (build_registry_id input)) header)).

Definition generation_id_from_header (header : SnapshotHeaderV1) : string :=
  hex (sha256_digest (generation_bytes (header_registry_id header) header)).

Definition unknown_format (header : SnapshotHeaderV1) : bool :=
  bool_decide (header_format header ≠ "rsolve-metadata-snapshot")
  || negb (N.eqb (header_version header) 1)
  || negb (N.eqb (header_history_encoding header) HISTORY_ENCODING)
  || negb (N.eqb (header_normalization_policy header) 2)
  || negb (N.eqb (header_compatibility_profile header) 1)
  || negb (N.leb 1 (header_parser_schema header) && N.leb (header_parser_schema header) 3).

Definition expected_source_id (kind representation : string) (content : list byte) : string :=
  hex (hash_parts SOURCE_ID_DOMAIN [kind; representation; hex content]).

(** One source of the loop, which collects their ids. *)
Definition validate_source (source : SourceObservationV1) : result string SnapshotError :=
  let? _ := try_each (λ value, validate_string value true "source string")
              [source_id source; source_kind source; source_representation source;
               source_content_sha256 source; source_observed_at source; source_endpoint source] in
  let? _ := reject_if (option_exceeds STRING_LIMIT (source_etag source)
                       || option_exceeds STRING_LIMIT (source_last_modified source))
              "source validator exceeds string limit" in
  let? _ := reject_if (negb (is_rfc3339_seconds (source_observed_at source)))
              "source observed_at is not UTC RFC 3339 seconds" in
  let? content := parse_hex_32 (source_content_sha256 source) in
  let? _ := reject_if (bool_decide (expected_source_id (source_kind source)
                                      (source_representation source) content ≠ source_id source))
              "source id does not match source content" in
  Ok (source_id source).

Definition validate_coverage (coverage : CoverageV1) (source_ids : list string) :
    result unit SnapshotError :=
  let? _ := reject_if (unordered str_cmp (coverage_source_ids coverage)
                       || unordered str_cmp (coverage_missing_evidence coverage))
              "coverage arrays are not sorted and unique" in
  let? _ := reject_if (bool_decide (coverage_source_ids coverage ≠ source_ids))
              "coverage source_ids must enumerate all header sources" in
  let? _ := try_each (λ id, validate_string id true "coverage source id")
              (coverage_source_ids coverage) in
  let? _ := try_each (λ evidence, validate_string evidence true "coverage missing evidence")
              (coverage_missing_evidence coverage) in
  reject_if (existsb (λ id, negb (bool_decide (id ∈ source_ids))) (coverage_source_ids coverage))
    "coverage references unknown source".

Definition validate_header (header : SnapshotHeaderV1) : result unit SnapshotError :=
  let coverage := header_coverage header in
  let? _ := reject_if (unknown_format header) "unknown snapshot header format or version" in
  let? _ := reject_if (negb (bool_decide (coverage_state coverage ∈ ["complete"; "partial"])))
              "invalid coverage state" in
  let? _ := try_each (λ value, validate_string value true "required header string")
              [header_registry_id header; header_generation header; header_created_at header;
               header_producer header; coverage_scope coverage; coverage_freshness coverage] in
  let? _ := parse_identifier KRegistryId (header_registry_id header) in
  let? _ := parse_hex_32 (header_generation header) in
  let? _ := reject_if (bool_decide (header_generation header ≠ generation_id_from_header header))
              "snapshot generation does not match header fields" in
  let? _ := reject_if (negb (is_rfc3339_seconds (header_created_at header)))
              "header created_at is not UTC RFC 3339 seconds" in
  let? _ := reject_if (exceeds HEADER_SOURCE_LIMIT (header_sources header))
              "too many snapshot sources" in
  let? source_ids := try_map validate_source (header_sources header) in
  let? _ := reject_if (unordered str_cmp source_ids) "snapshot sources are not sorted and unique" in
  let? _ := validate_coverage coverage source_ids in
  let? _ := parse_hex_32 (header_history_manifest_sha256 header) in
  Ok tt.
End header.
