(* ===== verification/SnapshotCodec.v ===== *)
(** * Snapshot encoding, preparation and loading ([rsolve-provider/src/snapshot/codec.rs],
      [generation.rs], and the raw candidates of [lib.rs])

    The envelope of a history, the canonical JSON of a header, what a generation
    consists of, its validation, and the loader that serves its candidates. *)

From S2P Require Import Prelude Effects RustStd Collections Externals Text Format Versions Names Publication.
From S2P Require Import Identity Constraints Digest Metadata Request Candidates Resolution FileSystem.
From S2P Require Import Snapshot SnapshotValidation.

(** ** [redb]'s read-only databases

    A database opened for reading, its transactions, and tables from keys to
    bytes; the errors are their [to_string()], and any operation may fail. *)

Class Redb := {
  ReadOnlyDatabase : Type;
  ReadTransaction : Type;
  ReadOnlyTable : Type;
  ReadOnlyDatabase_open : Path → stateful Fs ReadOnlyDatabase string;
  begin_read : ReadOnlyDatabase → result ReadTransaction string;
  open_table : ReadTransaction → string → result ReadOnlyTable string;
  table_get : ReadOnlyTable → string → result (option (list byte)) string;
  table_iter : ReadOnlyTable → result (list (result (string * list byte) string)) string;
  table_len : ReadOnlyTable → result N string;
}.

(** ** The history envelope *)

(** [u64::from_le_bytes] *)
Fixpoint from_le_bytes (l : list byte) : N :=
  match l with
  | [] => 0
  | b :: l => u8 b + 256 * from_le_bytes l
  end.

Section codec.
Context `{Sha2, !Postcard PostcardHistoryV1, !JsonBytes SnapshotHeaderV1, Timestamps}.

Definition encode_history (history : PackageHistoryV1) : result (list byte) SnapshotError :=
  let? payload := map_err SnapshotPostcard (postcard_to_stdvec (mk_PostcardHistoryV1 history)) in
  let? _ := reject_if (N.ltb (HISTORY_LIMIT - N.of_nat HISTORY_PREFIX_LEN) (len_u64 payload))
              "history payload exceeds its byte limit" in
  Ok (HISTORY_MAGIC ++ u64_to_le_bytes (len_u64 payload) ++ sha256_digest payload ++ payload).

(** The conversions of the slices to arrays and of the length to [usize] cannot fail. *)
Definition decode_history (input : list byte) : result PackageHistoryV1 SnapshotError :=
  let? _ := reject_if (bool_decide (length input < HISTORY_PREFIX_LEN)
                       || N.ltb HISTORY_LIMIT (len_u64 input)
                       || bool_decide (take 8 input ≠ HISTORY_MAGIC))
              "invalid history envelope" in
  let expected := from_le_bytes (take 8 (drop 8 input)) in
  let? _ := reject_if (negb (N.eqb expected (len_u64 input - N.of_nat HISTORY_PREFIX_LEN)))
              "history payload length mismatch" in
  let digest := take 32 (drop 16 input) in
  let payload := drop 48 input in
  let? _ := reject_if (bool_decide (sha256_digest payload ≠ digest))
              "history payload digest mismatch" in
  let? (decoded, remainder) := map_err SnapshotPostcard (postcard_take_from_bytes payload) in
  let? canonical :=
    if bool_decide (remainder ≠ []) then Ok false
    else let? again := map_err SnapshotPostcard (postcard_to_stdvec decoded) in
         Ok (bool_decide (again = payload)) in
  let? _ := reject_if (negb canonical) "non-canonical history payload" in
  let? _ := validate_history_limits (PostcardHistoryV1_0 decoded) in
  Ok (PostcardHistoryV1_0 decoded).

(** ** The header *)

Definition canonical_json (header : SnapshotHeaderV1) : result (list byte) SnapshotError :=
  map_err SnapshotJson (json_to_vec header).

Definition encode_header (header : SnapshotHeaderV1) : result (list byte) SnapshotError :=
  let? output := canonical_json header in
  let? _ := reject_if (exceeds HEADER_LIMIT output) "snapshot header exceeds its byte limit" in
  Ok output.

Definition decode_header (input : list byte) : result SnapshotHeaderV1 SnapshotError :=
  let? _ := reject_if (exceeds HEADER_LIMIT input) "snapshot header exceeds its byte limit" in
  let? header := map_err SnapshotJson (json_from_slice input) in
  let? again := canonical_json header in
  let? _ := reject_if (bool_decide (again ≠ input)) "snapshot header is not canonical JSON" in
  let? _ := validate_header header in
  Ok header.

(** The manifest of the histories, a [BTreeMap] by package. *)
Definition history_manifest (histories : list (string * list byte)) : list byte :=
  sha256_digest
    (foldl (λ input entry, append_part (append_part input (bytes entry.1)) (sha256_digest entry.2))
       (append_part (append_part [] MANIFEST_DOMAIN) (bytes (nat_to_string (length histories))))
       histories).
End codec.

(** ** Raw candidates ([lib.rs]) *)

Section generation.
Context `{CivilDate, Sha2, UnicodeTables, Timestamps}.
Context `{!JsonBytes (list FieldV1 * option OccurrenceArtifactV1), !JsonBytes SnapshotHeaderV1}.
Context `{!Postcard PostcardHistoryV1, Redb}.

Record RawCandidateObservation := mk_RawCandidateObservation {
  raw_release : PackageRelease;
  raw_currentness : CandidateCurrentness;
}.

Record RawCandidateLoadResult := mk_RawCandidateLoadResult {
  raw_observations : list RawCandidateObservation;
  raw_quarantined : list QuarantinedCandidate;
}.

Definition currentness_for_release (release : PackageRelease) : CandidateCurrentness :=
  if existsb (λ distribution, bool_decide (snapshot distribution = None))
       (release_distributions release)
  then Current else Historical.

(** ** Preparing a generation *)

Definition source_observation (input : SourceInput) : SourceObservationV1 :=
  let content := hex (input_content_sha256 input) in
  {| source_id := hex (hash_parts SOURCE_ID_DOMAIN
                         [input_kind input; input_representation input; content]);
     source_kind := input_kind input;
     source_representation := input_representation input;
     source_content_sha256 := content;
     source_etag := input_etag input;
     source_last_modified := input_last_modified input;
     source_observed_at := input_observed_at input;
     source_endpoint := input_endpoint input |}.

Definition source_indexes_of (sources : list SourceObservationV1) : list (string * N) :=
  bt_from_iter str_cmp ((λ entry, (source_id entry.2, as_u32 entry.1)) <$> indexed sources).

(** The index each input source has after sorting: [source_index_remap[input_index]]
    is assigned in the order of the sorted sources. *)
Definition source_index_remap (sources : list (nat * SourceObservationV1)) : list N :=
  foldl (λ remap entry, <[ entry.2.1 := as_u32 entry.1 ]> remap)
    (replicate (length sources) 0%N) (indexed sources).

Definition remap_observation (remap : list N) (observation : RawObservationV1) :
    result RawObservationV1 SnapshotError :=
  match remap !! N.to_nat (observation_source_index observation) with
  | None => Err (Invalid "observation source index is out of range")
  | Some index =>
    Ok {| observation_id := observation_id observation;
          observation_source_index := index;
          observation_record_index := observation_record_index observation;
          observation_fields := observation_fields observation;
          observation_artifact := observation_artifact observation;
          observation_axes := observation_axes observation |}
  end.

Definition with_observations (history : PackageHistoryV1) (observations : list RawObservationV1) :
    PackageHistoryV1 :=
  {| history_package := history_package history; history_state := history_state history;
     history_observations := observations; history_decisions := history_decisions history;
     history_eligible_releases := history_eligible_releases history |}.

(** One history of the input. *)
Definition prepare_history (remap : list N) (sources : list SourceObservationV1)
    (histories : list (string * list byte)) (history : PackageHistoryV1) :
    result (list (string * list byte)) SnapshotError :=
  let? observations := try_map (remap_observation remap) (history_observations history) in
  let canonical_history := with_observations history observations in
  let? _ := validate_history canonical_history (source_indexes_of sources) (length sources) in
  let? encoded := encode_history canonical_history in
  match bt_get str_cmp (history_package canonical_history) histories with
  | Some _ => Err (Invalid "duplicate package history")
  | None => Ok (bt_insert str_cmp (history_package canonical_history) encoded histories)
  end.

(** [iter().map(f).sum()], of [usize] lengths as [u64]. *)
Definition sum_by {A} (f : A → N) (l : list A) : N := foldl (λ n x, n + f x)%N 0%N l.

Definition observation_total : list PackageHistoryV1 → N :=
  sum_by (λ history, len_u64 (history_observations history)).
Definition eligible_total : list PackageHistoryV1 → N :=
  sum_by (λ history, len_u64 (history_eligible_releases history)).
Definition incomplete_total (histories : list PackageHistoryV1) : N :=
  len_u64 (List.filter (λ history, negb (is_present (history_state history))) histories).

Definition string_same (s t : string) : bool := bool_decide (s = t).

Definition prepare (input : SnapshotBuildInput) :
    result (SnapshotHeaderV1 * list (string * list byte)) SnapshotError :=
  let? _ := validate_registry_id (build_registry_id input) in
  let? _ := reject_if (exceeds HEADER_SOURCE_LIMIT (build_sources input))
              "too many snapshot sources" in
  let sorted := sort_by (cmp_on (λ entry, source_id entry.2) str_cmp)
                  (indexed (source_observation <$> build_sources input)) in
  let? _ := reject_if (existsb (λ w, bool_decide (source_id w.1.2 = source_id w.2.2))
                         (windows2 sorted))
              "duplicate source id" in
  let remap := source_index_remap sorted in
  let sources := sorted.*2 in
  let? histories := try_fold (prepare_history remap sources) [] (build_histories input) in
  let coverage :=
    {| coverage_state := coverage_state (build_coverage input);
       coverage_scope := coverage_scope (build_coverage input);
       coverage_freshness := coverage_freshness (build_coverage input);
       coverage_source_ids :=
         dedup_by string_same (sort_by str_cmp (coverage_source_ids (build_coverage input)));
       coverage_missing_evidence :=
         dedup_by string_same (sort_by str_cmp (coverage_missing_evidence (build_coverage input))) |} in
  let? _ := reject_if (bool_decide (coverage_source_ids coverage ≠ source_id <$> sources))
              "coverage source_ids must match the configured source observations" in
  Ok ({| header_format := "rsolve-metadata-snapshot";
         header_version := 1;
         header_history_encoding := HISTORY_ENCODING;
         header_normalization_policy := build_normalization_policy input;
         header_compatibility_profile := build_compatibility_profile input;
         header_parser_schema := build_parser_schema input;
         header_registry_id := Identifier_as_str (build_registry_id input);
         header_generation := "";
         header_created_at := build_created_at input;
         header_producer := build_producer input;
         header_coverage := coverage;
         header_sources := sources;
         header_package_count := len_u64 histories;
         header_observation_count := observation_total (build_histories input);
         header_eligible_release_count := eligible_total (build_histories input);
         header_incomplete_package_count := incomplete_total (build_histories input);
         header_history_manifest_sha256 := hex (history_manifest histories) |}, histories).

Definition with_generation (header : SnapshotHeaderV1) (generation : string) : SnapshotHeaderV1 :=
  {| header_format := header_format header; header_version := header_version header;
     header_history_encoding := header_history_encoding header;
     header_normalization_policy := header_normalization_policy header;
     header_compatibility_profile := header_compatibility_profile header;
     header_parser_schema := header_parser_schema header;
     header_registry_id := header_registry_id header;
     header_generation := generation;
     header_created_at := header_created_at header; header_producer := header_producer header;
     header_coverage := header_coverage header; header_sources := header_sources header;
     header_package_count := header_package_count header;
     header_observation_count := header_observation_count header;
     header_eligible_release_count := header_eligible_release_count header;
     header_incomplete_package_count := header_incomplete_package_count header;
     header_history_manifest_sha256 := header_history_manifest_sha256 header |}.

(** The first lines of [SnapshotGenerationBuilder::build] and [prepare_staged]:
    what is written, before any file is. *)
Definition generation_contents (input : SnapshotBuildInput) :
    result (SnapshotHeaderV1 * (list byte * list (string * list byte))) SnapshotError :=
  let? (header, histories) := prepare input in
  let header := with_generation header (generation_id input header) in
  let? header_bytes := encode_header header in
  Ok (header, (header_bytes, histories)).

(** ** Validating a generation *)

(** The header of a database opened for reading, in a transaction. *)
Definition stored_header (read : ReadTransaction) : result (list byte) SnapshotError :=
  let? table := map_err SnapshotTable (open_table read SNAPSHOT_HEADER) in
  let? value := map_err SnapshotStorage (table_get table HEADER_KEY) in
  ok_or (Invalid "snapshot header is missing") value.

Definition read_generation_header (path : Path) : stateful Fs (list byte) SnapshotError :=
  let! database := st_map_err SnapshotDatabaseOpen (ReadOnlyDatabase_open path) in
  st_lift (
    let? read := map_err SnapshotTransaction (begin_read database) in
    let? value := stored_header read in
    let? _ := reject_if (exceeds HEADER_LIMIT value) "snapshot header exceeds its byte limit" in
    Ok value).

(** The counters and the manifest entries of the loop over the rows. *)
Record GenerationCounts := mk_GenerationCounts {
  count_packages : N;
  count_observations : N;
  count_eligible : N;
  count_incomplete : N;
  manifest_entries : list (string * list byte);
}.

Definition count_row (header : SnapshotHeaderV1) (counts : GenerationCounts)
    (row : result (string * list byte) string) : result GenerationCounts SnapshotError :=
  let? (key, value) := map_err SnapshotStorage row in
  let? history := decode_history value in
  let? _ := reject_if (bool_decide (history_package history ≠ key)) "history key/package mismatch" in
  let? _ := validate_history history (source_indexes_of (header_sources header))
              (length (header_sources header)) in
  Ok {| count_packages := count_packages counts + 1;
        count_observations := count_observations counts + len_u64 (history_observations history);
        count_eligible := count_eligible counts + len_u64 (history_eligible_releases history);
        count_incomplete :=
          count_incomplete counts + (if is_present (history_state history) then 0 else 1);
        manifest_entries := bt_insert str_cmp key value (manifest_entries counts) |}.

(** The final comparison with the header. *)
Definition counts_mismatch (header : SnapshotHeaderV1) (counts : GenerationCounts) : bool :=
  negb (N.eqb (header_package_count header) (count_packages counts))
  || negb (N.eqb (header_observation_count header) (count_observations counts))
  || negb (N.eqb (header_eligible_release_count header) (count_eligible counts))
  || negb (N.eqb (header_incomplete_package_count header) (count_incomplete counts))
  || bool_decide (header_history_manifest_sha256 header
                  ≠ hex (history_manifest (manifest_entries counts)))
  || bool_decide (header_generation header ≠ generation_id_from_header header).

(** What [validate_generation] does with an open database. *)
Definition validate_database (database : ReadOnlyDatabase) (configured_registry_id : RegistryId) :
    result SnapshotHeaderV1 SnapshotError :=
  let? read := map_err SnapshotTransaction (begin_read database) in
  let? header_bytes := stored_header read in
  let? header := decode_header header_bytes in
  let? _ := reject_if (bool_decide (header_registry_id header
                                    ≠ Identifier_as_str configured_registry_id))
              "snapshot registry does not match configured registry" in
  let? table := map_err SnapshotTable (open_table read PACKAGE_HISTORIES) in
  let? rows := map_err SnapshotStorage (table_iter table) in
  let? counts := try_fold (count_row header) (mk_GenerationCounts 0 0 0 0 []) rows in
  let? _ := reject_if (counts_mismatch header counts) "history count or manifest mismatch" in
  Ok header.

Definition validate_generation (path : Path) (configured_registry_id : RegistryId) :
    stateful Fs SnapshotHeaderV1 SnapshotError :=
  let! database := st_map_err SnapshotDatabaseOpen (ReadOnlyDatabase_open path) in
  st_lift (validate_database database configured_registry_id).

(** ** The loader *)

Definition snapshot_invalid (error : string) : CandidateLoadError :=
  CandidateLoadError_new SnapshotInvalid error.
Definition package_metadata_invalid (error : string) : CandidateLoadError :=
  CandidateLoadError_new MetadataInvalid error.

Record ReadOnlySnapshotCandidateLoader := mk_ReadOnlySnapshotCandidateLoader {
  loader_database : ReadOnlyDatabase;
  loader_header : SnapshotHeaderV1;
  loader_source_indexes : list (string * N);
}.

(** The [expect] is a panic that [loader_registry_id_total] rules out. *)
Definition loader_registry_id (self : ReadOnlySnapshotCandidateLoader) :
    result RegistryId IdentifierError :=
  Identifier_new KRegistryId (header_registry_id (loader_header self)).

(** What [open] does with an open database. *)
Definition loader_of_database (database : ReadOnlyDatabase) (configured_registry_id : RegistryId) :
    result ReadOnlySnapshotCandidateLoader CandidateLoadError :=
  let? read := map_err snapshot_invalid (begin_read database) in
  let? header_table := map_err snapshot_invalid (open_table read SNAPSHOT_HEADER) in
  let? stored_header := map_err snapshot_invalid (table_get header_table HEADER_KEY) in
  let? header_bytes := ok_or (snapshot_invalid "snapshot header is missing") stored_header in
  let? header := map_err (λ e, snapshot_invalid (SnapshotError_fmt e)) (decode_header header_bytes) in
  if bool_decide (header_registry_id header ≠ Identifier_as_str configured_registry_id)
  then Err (snapshot_invalid ("snapshot registry " +:+ debug_str (header_registry_id header)
         +:+ " does not match configured registry "
         +:+ debug_str (Identifier_as_str configured_registry_id)))
  else
    let? history_table := map_err snapshot_invalid (open_table read PACKAGE_HISTORIES) in
    let? len := map_err snapshot_invalid (table_len history_table) in
    if negb (N.eqb len (header_package_count header))
    then Err (snapshot_invalid "snapshot package count mismatch")
    else Ok {| loader_database := database; loader_header := header;
               loader_source_indexes := source_indexes_of (header_sources header) |}.

Definition loader_open (path : Path) (configured_registry_id : RegistryId) :
    stateful Fs ReadOnlySnapshotCandidateLoader CandidateLoadError :=
  let! database := st_map_err snapshot_invalid (ReadOnlyDatabase_open path) in
  st_lift (loader_of_database database configured_registry_id).

Definition currentness_to_domain (currentness : CandidateCurrentnessV1) : CandidateCurrentness :=
  match currentness with CurrentV1 => Current | HistoricalV1 => Historical end.

Definition raw_candidate (wire : EligibleReleaseV1) : result RawCandidateObservation SnapshotError :=
  let? release := release_to_domain wire in
  Ok (mk_RawCandidateObservation release (currentness_to_domain (eligible_currentness wire))).

Definition quarantined_candidate (history : PackageHistoryV1) (decision : DecisionV1) (id : N) :
    option QuarantinedCandidate :=
  observation ← List.find (λ candidate, N.eqb (observation_id candidate) id)
                  (history_observations history);
  field ← List.find (λ field, eq_ignore_ascii_case (field_name field) "Version")
            (observation_fields observation);
  match RPackageVersion_parse (field_value field) with
  | Ok version => Some (QuarantinedCandidate_new version (decision_detail decision))
  | Err _ => None
  end.

Definition is_quarantine (decision : DecisionV1) : bool :=
  match decision_code decision with QuarantinedRelease => true | _ => false end.

Definition quarantined_candidates (history : PackageHistoryV1) : list QuarantinedCandidate :=
  let result :=
    mjoin ((λ decision, omap (quarantined_candidate history decision)
                          (decision_observation_ids decision))
           <$> List.filter is_quarantine (history_decisions history)) in
  dedup_by (λ left right, quarantined_version left =?= quarantined_version right)
    (sort_by (cmp_on quarantined_version RPackageVersion_cmp) result).

Definition metadata_error (e : SnapshotError) : CandidateLoadError :=
  package_metadata_invalid (SnapshotError_fmt e).

(** What is served from the bytes of one history. *)
Definition releases_of_history (self : ReadOnlySnapshotCandidateLoader) (name : PackageName)
    (value : list byte) : result RawCandidateLoadResult CandidateLoadError :=
  let? history := map_err metadata_error (decode_history value) in
  if bool_decide (history_package history ≠ PackageName_as_str name)
  then Err (package_metadata_invalid "history key/package mismatch")
  else
    let? _ := map_err metadata_error
      (validate_history history (loader_source_indexes self)
         (length (header_sources (loader_header self)))) in
    if negb (is_present (history_state history))
    then Err (package_metadata_invalid "package history is incomplete and cannot provide candidates")
    else
      let? candidates := map_err metadata_error
        (try_map raw_candidate (history_eligible_releases history)) in
      Ok (mk_RawCandidateLoadResult candidates (quarantined_candidates history)).

Definition releases_for_name (self : ReadOnlySnapshotCandidateLoader) (name : PackageName) :
    result RawCandidateLoadResult CandidateLoadError :=
  let? read := map_err snapshot_invalid (begin_read (loader_database self)) in
  let? table := map_err snapshot_invalid (open_table read PACKAGE_HISTORIES) in
  let? value := map_err snapshot_invalid (table_get table (PackageName_as_str name)) in
  match value with
  | None =>
    if bool_decide (coverage_state (header_coverage (loader_header self)) = "complete")
    then Err (CandidateLoadError_new NotFound
           ("metadata snapshot has no candidates for " +:+ PackageName_as_str name))
    else Err (CandidateLoadError_new MetadataInvalid
           ("metadata snapshot is partial for missing package " +:+ PackageName_as_str name))
  | Some value => releases_of_history self name value
  end.

Definition snapshot_load (self : ReadOnlySnapshotCandidateLoader) (package : SolverKey) :
    result RawCandidateLoadResult CandidateLoadError :=
  match package with
  | KeyInstalledName name => releases_for_name self name
  | _ => Err (CandidateLoadError_new NotFound
           ("metadata snapshot does not support solver key " +:+ SolverKey_debug package))
  end.
End generation.
