(* ===== verification/SnapshotLaws.v ===== *)
(** * Snapshots are canonical and validated

    The encodings of histories and headers are read back and are the only ones
    accepted; what the validation of a history establishes, and what its
    releases are in the domain. *)

From S2P Require Import Prelude RustStd Collections Externals Text Format Versions Names GitUrl Publication.
From S2P Require Import Identity Constraints Digest Metadata Snapshot SnapshotValidation SnapshotCodec.

(** ** Checks *)

Lemma reject_if_ok b m u : reject_if b m = Ok u ↔ b = false.
Proof. destruct u, b; simpl; naive_solver. Qed.

(** A check that passes, then the rest. *)
Lemma check_bind {T E} (r : result unit E) (k : result T E) (x : T) :
  (let? _ := r in k) = Ok x ↔ r = Ok tt ∧ k = Ok x.
Proof. destruct r as [[]|]; simpl; naive_solver. Qed.

Lemma reject_bind {T} b m (k : result T SnapshotError) (x : T) :
  (let? _ := reject_if b m in k) = Ok x ↔ b = false ∧ k = Ok x.
Proof. by rewrite check_bind, reject_if_ok. Qed.

Lemma checked_bind {A T E} (r : result A E) (k : result T E) (x : T) :
  (let? _ := r in k) = Ok x ↔ (∃ a, r = Ok a) ∧ k = Ok x.
Proof. destruct r; simpl; naive_solver. Qed.

Lemma try_map_bind {A B T E} (f : A → result B E) (l : list A) (k : list B → result T E) (x : T) :
  (let? ys := try_map f l in k ys) = Ok x ↔ ∃ ys, Forall2 (λ a b, f a = Ok b) l ys ∧ k ys = Ok x.
Proof. rewrite result_bind_ok. by setoid_rewrite try_map_ok. Qed.

Lemma unordered_sorted {A} (c : A → A → comparison) `{!CmpOrder c} (l : list A) :
  unordered c l = false ↔ strictly_sorted c l.
Proof.
  unfold unordered. rewrite existsb_false_Forall, (strictly_sorted_windows c).
  apply Forall_iff. intros w. by destruct (c w.1 w.2).
Qed.

#[export] Instance pair_cmp_order {A B} (c : A → A → comparison) (d : B → B → comparison)
  `{!CmpOrder c, !CmpOrder d} : CmpOrder (pair_cmp c d).
Proof. apply cmp_then_order; apply _. Qed.
#[global] Typeclasses Opaque pair_cmp.

Lemma pair_cmp_eq {A B} (c : A → A → comparison) (d : B → B → comparison) x y :
  pair_cmp c d x y = Eq ↔ c x.1 y.1 = Eq ∧ d x.2 y.2 = Eq.
Proof. unfold pair_cmp, cmp_then, cmp_on. apply then_with_eq. Qed.

(** ** Little-endian lengths *)

Lemma from_le_bytes_le w n : (n < 256 ^ N.of_nat w)%N → from_le_bytes (le_bytes w n) = n.
Proof.
  revert n. induction w as [|w IH]; intros n Hn.
  - simpl. change (256 ^ N.of_nat 0)%N with 1%N in Hn. lia.
  - rewrite Nat2N.inj_succ, N.pow_succ_r' in Hn. cbn [le_bytes from_le_bytes].
    rewrite IH by (apply N.Div0.div_lt_upper_bound; lia).
    rewrite u8_byte_of by (apply N.mod_lt; lia). rewrite (N.div_mod n 256) at 3 by lia. lia.
Qed.

Lemma u8_lt b : (u8 b < 256)%N.
Proof. destruct b; vm_compute; reflexivity. Qed.

Lemma le_bytes_from_le l : le_bytes (length l) (from_le_bytes l) = l.
Proof.
  induction l as [|b l IH]; [done|]. cbn [length le_bytes from_le_bytes]. pose proof (u8_lt b).
  assert ((u8 b + 256 * from_le_bytes l) mod 256 = u8 b)%N as ->.
  { rewrite (N.mul_comm 256), N.Div0.mod_add. by apply N.mod_small. }
  assert ((u8 b + 256 * from_le_bytes l) / 256 = from_le_bytes l)%N as ->.
  { rewrite (N.mul_comm 256), N.div_add by lia. rewrite N.div_small; [lia|done]. }
  by rewrite byte_of_u8, IH.
Qed.

(** ** The codecs *)

Section codec.
Context `{Sha2, !Sha2Laws, !Postcard PostcardHistoryV1, !JsonBytes SnapshotHeaderV1, Timestamps}.

Definition envelope (payload : list byte) : list byte :=
  HISTORY_MAGIC ++ u64_to_le_bytes (len_u64 payload) ++ sha256_digest payload ++ payload.

Lemma envelope_parts payload :
  take 8 (envelope payload) = HISTORY_MAGIC ∧
  take 8 (drop 8 (envelope payload)) = u64_to_le_bytes (len_u64 payload) ∧
  take 32 (drop 16 (envelope payload)) = sha256_digest payload ∧
  drop 48 (envelope payload) = payload ∧ length (envelope payload) = 48 + length payload.
Proof.
  pose proof (sha256_digest_length payload) as Hd.
  pose proof (length_u64_to_le_bytes (len_u64 payload)) as Hl.
  unfold envelope. set (m := HISTORY_MAGIC). assert (length m = 8) as Hm by done. clearbody m.
  set (n := u64_to_le_bytes _) in *. clearbody n. set (d := sha256_digest payload) in *. clearbody d.
  split_and!.
  - by rewrite take_app_length'.
  - by rewrite drop_app_length', take_app_length'.
  - rewrite (app_assoc m), drop_app_length' by (rewrite length_app; lia).
    by rewrite take_app_length'.
  - rewrite (app_assoc m), (app_assoc (m ++ n)), drop_app_length'; [done|]. rewrite !length_app. lia.
  - rewrite !length_app. lia.
Qed.

(** An input with the parts of an envelope is one. *)
Lemma envelope_intro input :
  48 ≤ length input → take 8 input = HISTORY_MAGIC →
  from_le_bytes (take 8 (drop 8 input)) = (len_u64 input - 48)%N →
  sha256_digest (drop 48 input) = take 32 (drop 16 input) → input = envelope (drop 48 input).
Proof.
  intros Hlen Hm Hl Hd. unfold envelope. rewrite Hd, <-Hm.
  assert (u64_to_le_bytes (len_u64 (drop 48 input)) = take 8 (drop 8 input)) as ->.
  { assert (len_u64 (drop 48 input) = from_le_bytes (take 8 (drop 8 input))) as ->.
    { rewrite Hl. unfold len_u64. rewrite length_drop. lia. }
    assert (length (take 8 (drop 8 input)) = 8) as H8 by (rewrite length_take, length_drop; lia).
    pose proof (le_bytes_from_le (take 8 (drop 8 input))) as Hb. rewrite H8 in Hb. exact Hb. }
  rewrite <-(take_drop 8 input) at 1. f_equal.
  rewrite <-(take_drop 8 (drop 8 input)) at 1. f_equal. rewrite drop_drop. simpl.
  rewrite <-(take_drop 32 (drop 16 input)) at 1. f_equal. by rewrite drop_drop.
Qed.

Lemma encode_history_ok h l :
  encode_history h = Ok l ↔ ∃ payload, postcard_to_stdvec (mk_PostcardHistoryV1 h) = Ok payload ∧
    (len_u64 payload ≤ HISTORY_LIMIT - 48)%N ∧ l = envelope payload.
Proof.
  unfold encode_history. rewrite result_bind_ok. setoid_rewrite map_err_ok.
  setoid_rewrite reject_bind. setoid_rewrite N.ltb_ge. fold envelope.
  change (N.of_nat HISTORY_PREFIX_LEN) with 48%N. split.
  - intros (p & Hp & Hn & [= <-]). eauto.
  - intros (p & Hp & Hn & ->). eauto.
Qed.

Lemma decode_history_ok `{!PostcardLaws PostcardHistoryV1} l h :
  decode_history l = Ok h ↔ encode_history h = Ok l ∧ validate_history_limits h = Ok tt.
Proof.
  rewrite encode_history_ok. unfold decode_history. rewrite !reject_bind, result_bind_ok.
  rewrite !orb_false_iff, !bool_decide_eq_false, !negb_false_iff, !N.eqb_eq, N.ltb_ge.
  change (N.of_nat HISTORY_PREFIX_LEN) with 48%N. change HISTORY_PREFIX_LEN with 48.
  split.
  - intros (((Hlen & Hmax) & Hm) & Hl & Hd & [[h'] rest] & Hp & Hk).
    apply result_bind_ok in Hk as (c & Hc & Hk). apply reject_bind in Hk as [->%negb_false_iff Hk].
    apply check_bind in Hk as [Hlim [= <-]]. simpl in *. case_bool_decide as Hr; [done|].
    apply result_bind_ok in Hc as (again & Ha%map_err_ok & [= ->%bool_decide_eq_true]).
    split; [|done]. exists (drop 48 l). apply dec_stable in Hm, Hd. split; [done|].
    assert (48 ≤ length l) as H48 by lia. split; [|by apply envelope_intro].
    unfold len_u64 in *. rewrite length_drop. lia.
  - intros [(p & Hp & Hn & ->) Hlim]. pose proof (envelope_parts p) as (Hm & Hl & Hd & Hdrop & Hlen).
    rewrite Hm, Hl, Hd, Hdrop.
    assert (len_u64 (envelope p) = 48 + len_u64 p)%N as -> by (unfold len_u64; lia).
    change HISTORY_LIMIT with 67108864%N in *. split_and!; [lia|lia|tauto| |tauto|].
    + unfold u64_to_le_bytes. rewrite from_le_bytes_le; [lia|].
      change (256 ^ N.of_nat 8)%N with (u64_max + 1)%N.
      unfold u64_max. lia.
    + exists (mk_PostcardHistoryV1 h, []). rewrite (postcard_round_trip _ _ Hp). split; [done|].
      rewrite bool_decide_eq_false_2 by tauto. rewrite Hp. cbn [map_err result_bind].
      rewrite bool_decide_eq_true_2 by done. simpl. by rewrite Hlim.
Qed.

Lemma decode_header_ok `{!JsonBytesLaws SnapshotHeaderV1} l h :
  decode_header l = Ok h ↔ encode_header h = Ok l ∧ validate_header h = Ok tt.
Proof.
  unfold decode_header, encode_header, canonical_json. rewrite reject_bind, !result_bind_ok. split.
  - intros (Hlim & h' & Hh%map_err_ok & Hk). apply result_bind_ok in Hk as (again & Ha & Hk).
    apply reject_bind in Hk as [Hne Hk]. apply check_bind in Hk as [Hv [= <-]].
    apply bool_decide_eq_false, dec_stable in Hne as ->. split; [|done].
    exists l. split; [done|]. by rewrite Hlim.
  - intros [(again & Ha & Hk) Hv]. apply reject_bind in Hk as [Hlim [= ->]].
    split; [done|]. exists h. apply map_err_ok in Ha. rewrite (json_bytes_round_trip _ _ Ha), Ha.
    split; [done|]. cbn [map_err result_bind]. rewrite bool_decide_eq_false_2 by tauto. simpl.
    by rewrite Hv.
Qed.

(** C17: Decoding inverts encoding: the bytes that are accepted as a history are the
    encodings of the histories within the limits, and as a header the canonical
    JSON of the valid headers, and each decodes to what it encodes; so a history
    and a header have one accepted encoding and one only. *)
Theorem snapshot_codec_roundtrip
    `{!PostcardLaws PostcardHistoryV1, !JsonBytesLaws SnapshotHeaderV1} :
  (∀ l h, decode_history l = Ok h ↔
     encode_history h = Ok l ∧ validate_history_limits h = Ok tt) ∧
  (∀ l h, decode_header l = Ok h ↔ encode_header h = Ok l ∧ validate_header h = Ok tt).
Proof. split; [apply decode_history_ok|apply decode_header_ok]. Qed.
End codec.

(** ** Orders of the keys *)

#[export] Instance pair_cmp_leibniz {A B} (c : A → A → comparison) (d : B → B → comparison)
  `{!CmpLeibniz c, !CmpLeibniz d} : CmpLeibniz (pair_cmp c d).
Proof.
  intros [x y] [x' y'] [Hx Hy]%pair_cmp_eq. simpl in *.
  f_equal; [by apply (cmp_eq_leibniz c)|by apply (cmp_eq_leibniz d)].
Qed.
#[export] Existing Instance option_cmp_leibniz.
#[export] Instance NormalizedGitUrl_cmp_leibniz : CmpLeibniz NormalizedGitUrl_cmp.
Proof. intros ? ?. apply NormalizedGitUrl_cmp_eq. Qed.
#[export] Instance GitCommitId_cmp_leibniz : CmpLeibniz GitCommitId_cmp.
Proof. intros ? ?. apply GitCommitId_cmp_eq. Qed.
#[export] Instance RepositorySubdir_cmp_leibniz : CmpLeibniz RepositorySubdir_cmp.
Proof. intros ? ?. apply RepositorySubdir_cmp_eq. Qed.
#[global] Typeclasses Opaque NormalizedGitUrl_cmp GitCommitId_cmp RepositorySubdir_cmp.

#[export] Instance git_identity_cmp_order : CmpOrder git_identity_cmp.
Proof. unfold git_identity_cmp. apply _. Qed.
#[export] Instance git_identity_cmp_leibniz : CmpLeibniz git_identity_cmp.
Proof. unfold git_identity_cmp. apply _. Qed.
#[export] Instance wire_identity_cmp_order : CmpOrder wire_identity_cmp.
Proof. unfold wire_identity_cmp, git_parts_cmp. apply _. Qed.
#[export] Instance wire_identity_cmp_leibniz : CmpLeibniz wire_identity_cmp.
Proof. unfold wire_identity_cmp, git_parts_cmp. apply _. Qed.
#[export] Instance release_key_cmp_order : CmpOrder release_key_cmp.
Proof. unfold release_key_cmp, git_parts_cmp. apply _. Qed.
#[export] Instance clause_key_cmp_order : CmpOrder clause_key_cmp.
Proof. unfold clause_key_cmp, version_key_cmp. apply _. Qed.
#[export] Instance dependency_key_cmp_order : CmpOrder dependency_key_cmp.
Proof. unfold dependency_key_cmp. apply _. Qed.
#[export] Instance observation_key_cmp_order : CmpOrder observation_key_cmp.
Proof. unfold observation_key_cmp. apply _. Qed.
#[export] Instance decision_key_cmp_order : CmpOrder decision_key_cmp.
Proof. unfold decision_key_cmp. apply _. Qed.
#[export] Instance distribution_key_cmp_order : CmpOrder distribution_key_cmp.
Proof. unfold distribution_key_cmp. apply _. Qed.
#[export] Instance artifact_key_cmp_order : CmpOrder artifact_key_cmp.
Proof. unfold artifact_key_cmp. apply _. Qed.
#[export] Instance evidence_key_cmp_order : CmpOrder evidence_key_cmp.
Proof. unfold evidence_key_cmp. apply _. Qed.

(** ** Releases of a history: one version per identity *)

(** What the order of the releases looks at. *)
Record ReleaseEntry := mk_ReleaseEntry {
  entry_components : list N;
  entry_version : string;
  entry_namespace : string;
  entry_git : option GitIdentity;
}.

Definition parse_entry (release : EligibleReleaseV1) : result ReleaseEntry SnapshotError :=
  let? version := parse_version (eligible_version release) in
  let? git := match eligible_git_provenance release with
              | Some provenance => result_map Some (parse_git_provenance provenance)
              | None => Ok None
              end in
  Ok (mk_ReleaseEntry (canonical_version_components version) (eligible_version release)
        (eligible_namespace release) git).

Definition entry_identity (e : ReleaseEntry) : WireIdentity :=
  (entry_components e, (entry_namespace e, git_parts (entry_git e))).
Definition entry_key (e : ReleaseEntry) : ReleaseOrderKey :=
  (entry_components e, (entry_version e, (entry_namespace e, git_parts (entry_git e)))).

(** A Git identity has one version. *)
Definition git_consistent (l : list ReleaseEntry) : Prop :=
  ∀ e f g, e ∈ l → f ∈ l → entry_git e = Some g → entry_git f = Some g →
    entry_components e = entry_components f.

(** The loop's state after some releases. *)
Record order_state (l : list ReleaseEntry) (acc : ReleaseOrderState) : Prop := {
  state_keys : order_keys acc = entry_key <$> l;
  state_identities id :
    is_Some (bt_get wire_identity_cmp id (order_identities acc)) ↔ id ∈ entry_identity <$> l;
  state_git g c : bt_get git_identity_cmp g (order_git_versions acc) = Some c ↔
    ∃ e, e ∈ l ∧ entry_git e = Some g ∧ entry_components e = c;
}.

Lemma release_order_step_parse acc r acc' :
  release_order_step acc r = Ok acc' ↔ ∃ e, parse_entry r = Ok e ∧
    let identity := entry_identity e in
    bt_get wire_identity_cmp identity (order_identities acc) = None ∧
    ∃ versions,
      match entry_git e with
      | Some g => record_git_version (order_git_versions acc) g (entry_components e)
      | None => Ok (order_git_versions acc)
      end = Ok versions ∧
      acc' = {| order_identities := bt_insert wire_identity_cmp identity tt (order_identities acc);
                order_git_versions := versions;
                order_keys := order_keys acc ++ [entry_key e] |}.
Proof.
  unfold release_order_step, parse_entry. rewrite result_bind_ok. setoid_rewrite result_bind_ok.
  split.
  - intros (v & Hv & [git versions] & Hg & Hk). case_match eqn:Hid; [done|]. injection Hk as <-.
    exists (mk_ReleaseEntry (canonical_version_components v) (eligible_version r)
              (eligible_namespace r) git).
    destruct (eligible_git_provenance r) as [p|] eqn:Hp; [|injection Hg as <- <-]; cbn.
    + apply result_bind_ok in Hg as (g & Hg & (vs & Hvs & [= <- <-])%result_bind_ok).
      split; [|split; [done|eauto]]. exists v. rewrite Hg. simpl. eauto.
    + split; [|split; [done|eauto]]. exists v. simpl. eauto.
  - intros (e & (v & Hv & Hg) & Hid & versions & Hvs & ->). exists v. split; [done|].
    apply result_bind_ok in Hg as (git & Hg & [= <-]). cbn in *. exists (git, versions). split.
    + destruct (eligible_git_provenance r) as [p|]; [|injection Hg as <-; by injection Hvs as <-].
      apply result_map_ok in Hg as (g & Hg & ->). rewrite Hg. simpl. by rewrite Hvs.
    + unfold entry_identity in Hid. cbn in Hid. cbn. by rewrite Hid.
Qed.

Lemma record_git_version_ok versions g c versions' :
  record_git_version versions g c = Ok versions' ↔
    (∀ c', bt_get git_identity_cmp g versions = Some c' → c' = c) ∧
    versions' = bt_insert git_identity_cmp g c versions.
Proof.
  unfold record_git_version. destruct (bt_get _ g versions) as [c'|] eqn:E.
  - case_bool_decide as Hc.
    + split; [done|]. intros [Heq _]. by specialize (Heq c' eq_refl).
    + rewrite Hc. split.
      * intros [= <-]. split; [by intros ? [= <-]|done].
      * by intros [_ ->].
  - split; [intros [= <-]; split; [done|done]|by intros [_ ->]].
Qed.

Lemma bt_get_insert_dec {K V} (c : K → K → comparison) `{!CmpOrder c, !CmpLeibniz c} k k' (v : V) m :
  bt_get c k (bt_insert c k' v m) = if is_eq (c k k') then Some v else bt_get c k m.
Proof.
  destruct (c k k') eqn:E; simpl.
  - by apply bt_get_insert_eq.
  - apply bt_get_insert_ne; [done..|congruence].
  - apply bt_get_insert_ne; [done..|congruence].
Qed.

Lemma is_eq_iff {K} (c : K → K → comparison) `{!CmpOrder c, !CmpLeibniz c} k k' :
  is_eq (c k k') = true ↔ k = k'.
Proof.
  split; [|intros ->; by rewrite (cmp_refl c)]. destruct (c k k') eqn:E; try done.
  intros _. by apply (cmp_eq_leibniz c).
Qed.

(** A new entry: its identity is new, and its Git identity has this version. *)
Definition entry_fits (l : list ReleaseEntry) (e : ReleaseEntry) : Prop :=
  entry_identity e ∉ entry_identity <$> l ∧
  ∀ f g, f ∈ l → entry_git f = Some g → entry_git e = Some g →
    entry_components f = entry_components e.

Definition next_state (acc : ReleaseOrderState) (e : ReleaseEntry) : ReleaseOrderState :=
  {| order_identities := bt_insert wire_identity_cmp (entry_identity e) tt (order_identities acc);
     order_git_versions :=
       match entry_git e with
       | Some g => bt_insert git_identity_cmp g (entry_components e) (order_git_versions acc)
       | None => order_git_versions acc
       end;
     order_keys := order_keys acc ++ [entry_key e] |}.

Lemma release_order_step_ok l acc r acc' :
  order_state l acc →
  release_order_step acc r = Ok acc' ↔
    ∃ e, parse_entry r = Ok e ∧ entry_fits l e ∧ acc' = next_state acc e.
Proof.
  intros Hs. rewrite release_order_step_parse. unfold entry_fits, next_state. split.
  - intros (e & He & Hid & versions & Hv & ->). exists e. split; [done|].
    assert (entry_identity e ∉ entry_identity <$> l) as Hnew.
    { rewrite <-(state_identities _ _ Hs), Hid. by intros []. }
    destruct (entry_git e) as [g|].
    + apply record_git_version_ok in Hv as [Hc ->]. split; [|done]. split; [done|].
      intros f g' Hf Hg [= <-]. apply Hc, (state_git _ _ Hs). eauto.
    + injection Hv as <-. split; [split; [done|by intros ? ? _ _ [=]]|done].
  - intros (e & He & [Hid Hg] & ->). exists e. split; [done|]. split.
    { rewrite <-(state_identities _ _ Hs) in Hid. by apply eq_None_not_Some. }
    eexists. split; [|done]. destruct (entry_git e) as [g|] eqn:E; [|done].
    apply record_git_version_ok. split; [|done].
    intros c' (f & Hf & Hfg & <-)%(state_git _ _ Hs). by apply (Hg f g).
Qed.

Lemma next_state_ok l acc e :
  order_state l acc → entry_fits l e → order_state (l ++ [e]) (next_state acc e).
Proof.
  intros Hs [_ Hg]. constructor; cbn.
  - by rewrite (state_keys _ _ Hs), fmap_app.
  - intros id. rewrite bt_get_insert_dec by apply _. rewrite fmap_app, elem_of_app.
    change (entry_identity <$> [e]) with [entry_identity e]. rewrite list_elem_of_singleton.
    rewrite <-(state_identities _ _ Hs). destruct (is_eq _) eqn:E.
    + apply is_eq_iff in E as ->; [|apply _..]. split; eauto.
    + split; [auto|]. intros [?| ->]; [done|]. by rewrite (cmp_refl wire_identity_cmp) in E.
  - intros g c. setoid_rewrite elem_of_app. setoid_rewrite list_elem_of_singleton.
    destruct (entry_git e) as [g'|] eqn:Ee.
    + rewrite bt_get_insert_dec by apply _. destruct (is_eq _) eqn:E.
      * apply is_eq_iff in E as ->; [|apply _..]. split.
        -- intros [= <-]. exists e. auto.
        -- intros (f & [Hf| ->] & Hfg & <-); [|done]. f_equal. symmetry. by apply (Hg f g').
      * rewrite (state_git _ _ Hs). split; [naive_solver|].
        intros (f & [Hf| ->] & Hfg & <-); [eauto|]. rewrite Ee in Hfg. injection Hfg as <-.
        by rewrite (cmp_refl git_identity_cmp) in E.
    + rewrite (state_git _ _ Hs). split; [naive_solver|].
      intros (f & [Hf| ->] & Hfg & <-); [eauto|]. congruence.
Qed.

(** All the entries fit when no identity occurs twice and no Git identity has two versions. *)
Definition entries_ok (l : list ReleaseEntry) : Prop :=
  NoDup (entry_identity <$> l) ∧ git_consistent l.

Lemma entries_ok_snoc l e : entries_ok (l ++ [e]) ↔ entries_ok l ∧ entry_fits l e.
Proof.
  unfold entries_ok, git_consistent, entry_fits. rewrite fmap_app, NoDup_app. simpl.
  setoid_rewrite elem_of_app. setoid_rewrite list_elem_of_singleton. split.
  - intros [(Hn & Hd & _) Hg]. split_and!; [done|intros; eapply Hg; eauto| |intros; eapply Hg; eauto].
    intros He. by apply (Hd _ He).
  - intros ([Hn Hg] & He & Hf). split_and!; [done|by intros ? ? ->|apply NoDup_singleton|].
    intros x y g [Hx| ->] [Hy| ->] Hxg Hyg; [by eapply Hg|by eapply Hf|symmetry; by eapply Hf|done].
Qed.

Lemma entries_ok_app l k : entries_ok (l ++ k) → entries_ok l.
Proof.
  induction k as [|e k IH] using rev_ind; [by rewrite app_nil_r|].
  rewrite app_assoc. intros [? _]%entries_ok_snoc. auto.
Qed.

Lemma release_order_fold l acc rs :
  order_state l acc → entries_ok l →
  ∀ acc', try_fold release_order_step acc rs = Ok acc' ↔
    ∃ es, Forall2 (λ r e, parse_entry r = Ok e) rs es ∧ entries_ok (l ++ es) ∧
      acc' = foldl next_state acc es.
Proof.
  revert l acc. induction rs as [|r rs IH]; intros l acc Hs Hl acc'; simpl.
  - split.
    + intros [= <-]. exists []. split_and!; [constructor|by rewrite app_nil_r|done].
    + by intros (es & ->%Forall2_nil_inv_l & _ & ->).
  - rewrite result_bind_ok. split.
    + intros (acc1 & (e & He & Hfit & ->)%(release_order_step_ok _ _ _ _ Hs) & Hk).
      apply (IH (l ++ [e])) in Hk as (es & Hes & Hok & ->);
        [|by apply next_state_ok|by apply entries_ok_snoc].
      exists (e :: es). split_and!; [by constructor|by rewrite <-app_assoc in Hok|done].
    + intros (es & (e & es' & He & Hes & ->)%Forall2_cons_inv_l & Hok & ->).
      rewrite cons_middle, app_assoc in Hok.
      pose proof (entries_ok_app _ _ Hok) as [_ Hfit]%entries_ok_snoc.
      exists (next_state acc e). split; [apply (release_order_step_ok l); eauto|].
      apply (IH (l ++ [e])); [by apply next_state_ok|by apply entries_ok_snoc|eauto].
Qed.

Lemma next_states_keys acc es : order_keys (foldl next_state acc es) = order_keys acc ++ (entry_key <$> es).
Proof.
  revert acc. induction es as [|e es IH]; intros acc; simpl; [by rewrite app_nil_r|].
  rewrite IH. unfold next_state at 1. cbn [order_keys]. by rewrite <-app_assoc.
Qed.

(** The releases parse, no identity is repeated, no Git identity has two versions,
    and they are in order. *)
Lemma validate_release_order_ok rs u :
  validate_release_order rs = Ok u ↔ ∃ es, Forall2 (λ r e, parse_entry r = Ok e) rs es ∧
    entries_ok es ∧ strictly_sorted release_key_cmp (entry_key <$> es).
Proof.
  unfold validate_release_order. rewrite result_bind_ok.
  assert (order_state [] (mk_ReleaseOrderState [] [] [])) as Hs.
  { constructor; [done|..].
    - intros id. simpl. split; [by intros []|by intros ?%elem_of_nil].
    - intros g c. simpl. split; [done|]. by intros (e & ?%elem_of_nil & _). }
  assert (entries_ok []) as Hok by (split; [constructor|by intros ? ? ? ?%elem_of_nil]).
  setoid_rewrite (release_order_fold [] _ rs Hs Hok). setoid_rewrite reject_if_ok. split.
  - intros (acc & (es & Hes & Hes' & ->) & Hk). exists es. split_and!; [done..|].
    apply (unordered_sorted release_key_cmp) in Hk. by rewrite next_states_keys in Hk.
  - intros (es & Hes & Hes' & Hk). eexists. split; [eauto|].
    apply (unordered_sorted release_key_cmp). by rewrite next_states_keys.
Qed.
