(* ===== verification/SnapshotHistoryLaws.v ===== *)
(** * What the validation of a history establishes

    The declarative contract of [validate_history], the identities of the
    releases of an accepted history, and its canonical form: lists that differ
    only in their order are equal once accepted. *)

From S2P Require Import Prelude RustStd Collections Externals Text Format Versions Names GitUrl Publication.
From S2P Require Import Identity Constraints Digest Metadata Snapshot SnapshotValidation SnapshotCodec SnapshotLaws.

(** ** Observations have their index as id *)

Section history.
Context `{CivilDate, Sha2, UnicodeTables}.
Context `{!JsonBytes (list FieldV1 * option OccurrenceArtifactV1)}.

Definition observation_ok (source_count : nat) (i : nat) (o : RawObservationV1) : Prop :=
  observation_id o = N.of_nat i ∧ (observation_source_index o < N.of_nat source_count)%N.

(** The ids so far are those below the index. *)
Definition ids_below (i : nat) (ids : list (N * unit)) : Prop :=
  ∀ id, is_Some (bt_get N.compare id ids) ↔ (id < N.of_nat i)%N.

Lemma as_u32_small i : (N.of_nat i < 2 ^ 32)%N → as_u32 i = N.of_nat i.
Proof. apply N.mod_small. Qed.

Lemma observation_step_ok n i o ids ids' :
  ids_below i ids → (N.of_nat i < 2 ^ 32)%N →
  observation_step n ids (i, o) = Ok ids' ↔
    observation_ok n i o ∧ ids' = bt_insert N.compare (N.of_nat i) tt ids.
Proof.
  intros Hids Hi. unfold observation_step, observation_ok. simpl. rewrite !reject_bind.
  rewrite negb_false_iff, N.eqb_eq, N.leb_gt, as_u32_small by done. split.
  - intros (-> & Hs & _ & [= <-]). done.
  - intros [[-> Hs] ->]. split_and!; [done..| |done].
    apply bool_decide_eq_false. intros ?%Hids. lia.
Qed.

Lemma ids_below_step i ids : ids_below i ids → ids_below (S i) (bt_insert N.compare (N.of_nat i) tt ids).
Proof.
  intros Hids id. rewrite bt_get_insert_dec by apply _. destruct (is_eq _) eqn:E.
  - apply is_eq_iff in E as ->; [|apply _..]. split; [lia|eauto].
  - rewrite (Hids id). split; [lia|]. intros Hlt. destruct (decide (id = N.of_nat i)) as [->|]; [|lia].
    by rewrite (cmp_refl N.compare) in E.
Qed.

Lemma observations_fold n i l ids :
  ids_below i ids → (N.of_nat (i + length l) ≤ 2 ^ 32)%N →
  (∀ ids', try_fold (observation_step n) ids (zip (seq i (length l)) l) = Ok ids' →
     ids_below (i + length l) ids') ∧
  (is_ok (try_fold (observation_step n) ids (zip (seq i (length l)) l)) = true ↔
     ∀ j o, l !! j = Some o → observation_ok n (i + j) o).
Proof.
  revert i ids. induction l as [|o l IH]; intros i ids Hids Hlen; simpl.
  { rewrite Nat.add_0_r. split; [by intros ? [= <-]|]. split; [by intros _ ? ? [=]|done]. }
  simpl in Hlen. destruct (observation_step n ids (i, o)) as [ids1|] eqn:E; simpl.
  - apply (observation_step_ok n i o ids ids1 Hids) in E as [Ho ->]; [|lia].
    destruct (IH (S i) _ (ids_below_step _ _ Hids)) as [IH1 IH2]; [lia|].
    rewrite Nat.add_succ_r. split; [exact IH1|]. rewrite IH2. split.
    + intros Hl [|j] o' Hj; simpl in Hj; [injection Hj as <-; by rewrite Nat.add_0_r|].
      rewrite Nat.add_succ_r. by apply Hl.
    + intros Hl j o' Hj. rewrite Nat.add_succ_l, <-Nat.add_succ_r. by apply Hl.
  - split; [done|]. split; [done|]. intros Hl. specialize (Hl 0 o eq_refl).
    rewrite Nat.add_0_r in Hl.
    assert (observation_step n ids (i, o) = Ok (bt_insert N.compare (N.of_nat i) tt ids)) as Hs.
    { apply observation_step_ok; [done|lia|done]. }
    congruence.
Qed.

Lemma known_ok i ids message id u :
  ids_below i ids → known ids message id = Ok u ↔ (id < N.of_nat i)%N.
Proof.
  intros Hids. unfold known. rewrite reject_if_ok, negb_false_iff, bool_decide_eq_true. apply Hids.
Qed.

(** ** The contract *)

Definition release_accepted (h : PackageHistoryV1) (r : EligibleReleaseV1) : Prop :=
  eligible_package r = history_package h ∧
  Forall (λ e, evidence_observation_id e < len_u64 (history_observations h))%N (eligible_evidence r) ∧
  ∃ release, release_to_domain r = Ok release.

Record history_valid (source_count : nat) (h : PackageHistoryV1) : Prop := {
  valid_package : ∃ name, PackageName_new (history_package h) = Ok name;
  valid_state : is_present (history_state h) = true ↔ history_eligible_releases h ≠ [];
  valid_observations i o :
    history_observations h !! i = Some o → observation_ok source_count i o;
  valid_decisions : Forall (λ d,
    Forall (λ id, id < len_u64 (history_observations h))%N (decision_observation_ids d))
    (history_decisions h);
  valid_releases : Forall (release_accepted h) (history_eligible_releases h);
  valid_canonical : validate_canonical_history h = Ok tt;
}.

Lemma validate_history_limits_counts h :
  validate_history_limits h = Ok tt →
  exceeds OBSERVATION_LIMIT (history_observations h) || exceeds DECISION_LIMIT (history_decisions h)
    || exceeds ELIGIBLE_RELEASE_LIMIT (history_eligible_releases h) = false.
Proof. unfold validate_history_limits. rewrite reject_bind, !orb_false_iff. tauto. Qed.

Lemma canonical_limits h : validate_canonical_history h = Ok tt → validate_history_limits h = Ok tt.
Proof. unfold validate_canonical_history. rewrite check_bind. tauto. Qed.

Lemma check_release_ok h ids r u :
  ids_below (length (history_observations h)) ids →
  check_release ids (history_package h) r = Ok u ↔ release_accepted h r.
Proof.
  intros Hids. unfold check_release, release_accepted. destruct u.
  rewrite reject_bind, check_bind, checked_bind, try_each_ok, bool_decide_eq_false.
  setoid_rewrite (known_ok _ _ _ _ _ Hids). unfold len_u64. split.
  - intros (Hp & He & Hr & _). split_and!; [by apply dec_stable|done|done].
  - intros (Hp & He & Hr). split_and!; [tauto|done..].
Qed.

Lemma validate_history_ok h sources n :
  validate_history h sources n = Ok tt ↔ history_valid n h.
Proof.
  unfold validate_history. rewrite result_bind_ok. do 3 setoid_rewrite reject_bind.
  setoid_rewrite result_bind_ok. do 2 setoid_rewrite check_bind. setoid_rewrite map_err_ok.
  assert (ids_below 0 []) as Hnone by (intros id; simpl; split; [by intros []|lia]).
  assert (exceeds OBSERVATION_LIMIT (history_observations h) = false →
    (N.of_nat (0 + length (history_observations h)) ≤ 2 ^ 32)%N) as Hsmall.
  { unfold exceeds, OBSERVATION_LIMIT, len_u64. rewrite N.ltb_ge. simpl. lia. }
  split.
  - intros (p & Hp & Hlim & Hs1 & Hs2 & ids & Hids & Hk).
    apply orb_false_iff in Hlim as [Hlim _]. apply orb_false_iff in Hlim as [Hlim _].
    destruct (observations_fold n 0 _ [] Hnone (Hsmall Hlim)) as [Hbelow Hobs].
    unfold indexed in Hids. pose proof (Hbelow _ Hids) as Hb. rewrite Hids in Hobs.
    destruct Hk as (Hd & Hr & Hc). apply try_each_ok in Hd, Hr. constructor.
    + by exists p.
    + case_bool_decide as E; rewrite ?E; destruct (is_present _); simpl in *; naive_solver.
    + by apply Hobs.
    + eapply Forall_impl; [exact Hd|]. intros d Hd'. apply try_each_ok in Hd'.
      eapply Forall_impl; [exact Hd'|]. intros id. by apply known_ok.
    + eapply Forall_impl; [exact Hr|]. intros r. by apply check_release_ok.
    + done.
  - intros [[p Hp] Hs Hobs Hd Hr Hc]. exists p. split; [done|].
    pose proof (validate_history_limits_counts _ (canonical_limits _ Hc)) as Hlim. split; [done|].
    apply orb_false_iff in Hlim as [Hlim _]. apply orb_false_iff in Hlim as [Hlim _].
    destruct (observations_fold n 0 _ [] Hnone (Hsmall Hlim)) as [Hbelow Hok].
    destruct (try_fold _ [] _) as [ids|] eqn:Hids in Hbelow, Hok; [|by apply Hok in Hobs].
    pose proof (Hbelow _ eq_refl) as Hb. split_and!.
    + case_bool_decide as E; destruct (is_present _); simpl in *; naive_solver.
    + case_bool_decide as E; destruct (is_present _); simpl in *; naive_solver.
    + exists ids. split_and!; [exact Hids|..|done].
      * apply try_each_ok. eapply Forall_impl; [exact Hd|]. intros d Hd'. apply try_each_ok.
        eapply Forall_impl; [exact Hd'|]. intros id. by apply known_ok.
      * apply try_each_ok. eapply Forall_impl; [exact Hr|].
        intros r. by apply check_release_ok.
Qed.
End history.

(** ** Sorted by a key *)

Section keyed.
Context {A K : Type} (f : A → result K SnapshotError) (c : K → K → comparison) `{!CmpOrder c}.

(** The keys of a list exist and increase. *)
Definition sorted_keys (l : list A) : Prop :=
  ∃ ks, Forall2 (λ x k, f x = Ok k) l ks ∧ strictly_sorted c ks.

Definition ok_key (x : A) : option K := match f x with Ok k => Some k | Err _ => None end.

Lemma sorted_keys_strict l : sorted_keys l → strictly_sorted (cmp_on ok_key (option_cmp c)) l.
Proof.
  intros (ks & Hks & Hs). revert l Hks. induction Hs as [|k ks Hs IH Hk]; intros l Hks.
  { apply Forall2_nil_inv_r in Hks as ->. constructor. }
  apply Forall2_cons_inv_r in Hks as (x & l' & Hx & Hl & ->). constructor; [by apply IH|].
  apply Forall_forall. intros y Hy. apply list_elem_of_lookup in Hy as [i Hi].
  destruct (Forall2_lookup_l _ _ _ _ _ Hl Hi) as (k' & Hk' & Hy).
  rewrite Forall_forall in Hk. unfold cmp_on, ok_key. rewrite Hx, Hy. simpl.
  apply Hk. by eapply list_elem_of_lookup_2.
Qed.

(** Elements sorted by their keys have one order. *)
Lemma sorted_keys_unique l k : sorted_keys l → sorted_keys k → l ≡ₚ k → l = k.
Proof.
  intros Hl%sorted_keys_strict Hk%sorted_keys_strict Hp.
  apply (strict_sorted_ext (cmp_on ok_key (option_cmp c))); [done..|]. intros x. by rewrite Hp.
Qed.
End keyed.

Lemma sorted_fmap_unique {A K} (f : A → K) (c : K → K → comparison) `{!CmpOrder c} l k :
  strictly_sorted c (f <$> l) → strictly_sorted c (f <$> k) → l ≡ₚ k → l = k.
Proof.
  assert (∀ l, strictly_sorted c (f <$> l) → sorted_keys (λ x, Ok (f x)) c l) as Hkeys.
  { intros m Hm. exists (f <$> m). split; [|done]. apply Forall2_fmap_r, Forall_Forall2_diag.
    by apply Forall_true. }
  intros Hl Hk. apply (sorted_keys_unique (λ x, Ok (f x)) c); auto.
Qed.

(** ** Equal up to the order of their lists *)

Definition reordered {A} (R : A → A → Prop) (l k : list A) : Prop :=
  ∃ m, l ≡ₚ m ∧ Forall2 R m k.

Lemma reordered_eq {A} (R : A → A → Prop) (P Q : A → Prop) l k :
  Forall P l → Forall Q k → (∀ x y, P x → Q y → R x y → x = y) → reordered R l k → l ≡ₚ k.
Proof.
  intros Hl Hk HR (m & Hp & Hm). rewrite Hp in *. clear l Hp.
  induction Hm as [|x y m k Hxy Hm IH]; [done|]. inversion Hl; inversion Hk; subst.
  rewrite (HR x y) by done. f_equiv. auto.
Qed.

Definition artifact_alike (a b : ArtifactV1) : Prop :=
  artifact_locator a = artifact_locator b ∧ artifact_size a = artifact_size b ∧
  artifact_upstream_checksums a ≡ₚ artifact_upstream_checksums b.

Definition dependency_alike (d e : DependencyV1) : Prop :=
  dependency_kind d = dependency_kind e ∧ dependency_package d = dependency_package e ∧
  dependency_clauses d ≡ₚ dependency_clauses e.

Definition distribution_alike (d e : DistributionV1) : Prop :=
  distribution_registry d = distribution_registry e ∧
  distribution_channel d = distribution_channel e ∧
  distribution_snapshot d = distribution_snapshot e ∧
  reordered artifact_alike (distribution_artifacts d) (distribution_artifacts e) ∧
  distribution_metadata d ≡ₚ distribution_metadata e.

Definition evidence_alike (e f : EvidenceReferenceV1) : Prop :=
  evidence_observation_id e = evidence_observation_id f ∧ evidence_roles e ≡ₚ evidence_roles f.

Definition release_alike (r s : EligibleReleaseV1) : Prop :=
  eligible_package r = eligible_package s ∧ eligible_version r = eligible_version s ∧
  eligible_namespace r = eligible_namespace s ∧
  eligible_git_provenance r = eligible_git_provenance s ∧
  eligible_currentness r = eligible_currentness s ∧
  eligible_publication r = eligible_publication s ∧
  eligible_metadata_sha256 r = eligible_metadata_sha256 s ∧
  eligible_metadata r ≡ₚ eligible_metadata s ∧
  reordered dependency_alike (eligible_dependencies r) (eligible_dependencies s) ∧
  reordered distribution_alike (eligible_distributions r) (eligible_distributions s) ∧
  reordered evidence_alike (eligible_evidence r) (eligible_evidence s).

Definition decision_alike (d e : DecisionV1) : Prop :=
  decision_code d = decision_code e ∧ decision_detail d = decision_detail e ∧
  decision_observation_ids d ≡ₚ decision_observation_ids e.

(** The order of an observation's fields is part of it. *)
Definition observation_alike (o p : RawObservationV1) : Prop :=
  observation_id o = observation_id p ∧
  observation_source_index o = observation_source_index p ∧
  observation_record_index o = observation_record_index p ∧
  observation_fields o = observation_fields p ∧ observation_axes o = observation_axes p ∧
  option_Forall2 (λ a b,
    occurrence_locator a = occurrence_locator b ∧ occurrence_size a = occurrence_size b ∧
    occurrence_checksums a ≡ₚ occurrence_checksums b)
    (observation_artifact o) (observation_artifact p).

Definition history_alike (h k : PackageHistoryV1) : Prop :=
  history_package h = history_package k ∧ history_state h = history_state k ∧
  reordered observation_alike (history_observations h) (history_observations k) ∧
  reordered decision_alike (history_decisions h) (history_decisions k) ∧
  reordered release_alike (history_eligible_releases h) (history_eligible_releases k).

(** ** What canonical parts are *)

Section canonical.
Context `{!JsonBytes (list FieldV1 * option OccurrenceArtifactV1)}.

Lemma validate_checksums_sorted l u :
  validate_checksums l = Ok u → strictly_sorted (pair_cmp str_cmp str_cmp) (checksum_order_key <$> l).
Proof.
  unfold validate_checksums. intros [Hs _]%reject_bind.
  by apply (unordered_sorted (pair_cmp str_cmp str_cmp)) in Hs.
Qed.

Lemma checksums_unique l k u v :
  validate_checksums l = Ok u → validate_checksums k = Ok v → l ≡ₚ k → l = k.
Proof.
  intros Hl%validate_checksums_sorted Hk%validate_checksums_sorted.
  by apply (sorted_fmap_unique checksum_order_key (pair_cmp str_cmp str_cmp)).
Qed.

Lemma canonical_dependency_unique d e :
  canonical_dependency d = Ok tt → canonical_dependency e = Ok tt → dependency_alike d e → d = e.
Proof.
  intros Hd He (Hk & Hp & Hc).
  assert (∀ d, canonical_dependency d = Ok tt →
    sorted_keys clause_order_key clause_key_cmp (dependency_clauses d)) as Hs.
  { unfold canonical_dependency. intros d' (ks & Hks & Hu)%try_map_bind. exists ks. split; [done|].
    apply reject_if_ok in Hu. by apply (unordered_sorted clause_key_cmp) in Hu. }
  apply (sorted_keys_unique clause_order_key clause_key_cmp) in Hc; [|by apply Hs..].
  destruct d, e. simpl in *. congruence.
Qed.

Lemma canonical_distribution_ok d :
  canonical_distribution d = Ok tt →
    strictly_sorted str_cmp (field_name <$> distribution_metadata d) ∧
    sorted_keys artifact_order_key artifact_key_cmp (distribution_artifacts d) ∧
    Forall (λ a, validate_checksums (artifact_upstream_checksums a) = Ok tt) (distribution_artifacts d).
Proof.
  unfold canonical_distribution, validate_fields. intros [Hf Hk]%reject_bind.
  apply (unordered_sorted str_cmp) in Hf. split; [done|].
  apply try_map_bind in Hk as (ks & Hks & [Hu Hc]%reject_bind).
  apply (unordered_sorted artifact_key_cmp) in Hu. apply try_each_ok in Hc. split; [|done].
  by exists ks.
Qed.

Lemma canonical_distribution_unique d e :
  canonical_distribution d = Ok tt → canonical_distribution e = Ok tt → distribution_alike d e → d = e.
Proof.
  intros (Hdf & Hdk & Hdc)%canonical_distribution_ok (Hef & Hek & Hec)%canonical_distribution_ok.
  intros (Hr & Hch & Hs & Ha & Hm).
  apply (sorted_fmap_unique field_name str_cmp) in Hm; [|done..].
  assert (distribution_artifacts d = distribution_artifacts e) as Hart.
  { apply (sorted_keys_unique artifact_order_key artifact_key_cmp); [done..|].
    apply (reordered_eq artifact_alike _ _ _ _ Hdc Hec); [|done].
    intros a b Hca Hcb (Hl & Hz & Hp). apply (checksums_unique _ _ _ _ Hca Hcb) in Hp.
    destruct a, b. simpl in *. congruence. }
  destruct d, e. simpl in *. congruence.
Qed.

Lemma role_rank_inj r s : role_rank r = role_rank s → r = s.
Proof. by destruct r, s. Qed.

Lemma canonical_evidence_unique e f :
  canonical_evidence e = Ok tt → canonical_evidence f = Ok tt → evidence_alike e f → e = f.
Proof.
  unfold canonical_evidence. rewrite !reject_if_ok, !(unordered_sorted N.compare).
  intros He Hf [Hid Hr]. apply (sorted_fmap_unique role_rank N.compare) in Hr; [|done..].
  destruct e, f. simpl in *. congruence.
Qed.

Lemma canonical_release_ok r :
  canonical_release r = Ok tt →
    strictly_sorted str_cmp (field_name <$> eligible_metadata r) ∧
    sorted_keys dependency_order_key dependency_key_cmp (eligible_dependencies r) ∧
    Forall (λ d, canonical_dependency d = Ok tt) (eligible_dependencies r) ∧
    strictly_sorted distribution_key_cmp (distribution_order_key <$> eligible_distributions r) ∧
    Forall (λ d, canonical_distribution d = Ok tt) (eligible_distributions r) ∧
    strictly_sorted evidence_key_cmp (evidence_order_key <$> eligible_evidence r) ∧
    Forall (λ e, canonical_evidence e = Ok tt) (eligible_evidence r).
Proof.
  unfold canonical_release, validate_fields. intros [Hf Hk]%reject_bind.
  apply try_map_bind in Hk as (ks & Hks & Hk). apply reject_bind in Hk as [Hd Hk].
  apply check_bind in Hk as [Hcd Hk]. apply reject_bind in Hk as [Hs Hk].
  apply check_bind in Hk as [Hcs Hk]. apply reject_bind in Hk as [He Hce].
  apply (unordered_sorted str_cmp) in Hf. apply (unordered_sorted dependency_key_cmp) in Hd.
  apply (unordered_sorted distribution_key_cmp) in Hs. apply (unordered_sorted evidence_key_cmp) in He.
  apply try_each_ok in Hcd, Hcs, Hce. split_and!; [done|by exists ks|done..].
Qed.

Lemma canonical_release_unique r s :
  canonical_release r = Ok tt → canonical_release s = Ok tt → release_alike r s → r = s.
Proof.
  intros (Rf & Rd & Rcd & Rs & Rcs & Re & Rce)%canonical_release_ok.
  intros (Sf & Sd & Scd & Ss & Scs & Se & Sce)%canonical_release_ok.
  intros (? & ? & ? & ? & ? & ? & ? & Hm & Hd & Hs & He).
  apply (sorted_fmap_unique field_name str_cmp) in Hm; [|done..].
  assert (eligible_dependencies r = eligible_dependencies s) as Hde.
  { apply (sorted_keys_unique dependency_order_key dependency_key_cmp); [done..|].
    apply (reordered_eq _ _ _ _ _ Rcd Scd canonical_dependency_unique Hd). }
  assert (eligible_distributions r = eligible_distributions s) as Hdi.
  { apply (sorted_fmap_unique distribution_order_key distribution_key_cmp); [done..|].
    apply (reordered_eq _ _ _ _ _ Rcs Scs canonical_distribution_unique Hs). }
  assert (eligible_evidence r = eligible_evidence s) as Hev.
  { apply (sorted_fmap_unique evidence_order_key evidence_key_cmp); [done..|].
    apply (reordered_eq _ _ _ _ _ Rce Sce canonical_evidence_unique He). }
  destruct r, s. simpl in *. congruence.
Qed.

Lemma canonical_decision_unique d e :
  canonical_decision d = Ok tt → canonical_decision e = Ok tt → decision_alike d e → d = e.
Proof.
  unfold canonical_decision. rewrite !reject_if_ok, !(unordered_sorted N.compare).
  intros Hd He (Hc & Ht & Hp). apply (sorted_fmap_unique id N.compare) in Hp; [|by rewrite list_fmap_id..].
  destruct d, e. simpl in *. congruence.
Qed.

Lemma canonical_observation_unique o p :
  canonical_observation o = Ok tt → canonical_observation p = Ok tt → observation_alike o p → o = p.
Proof.
  unfold canonical_observation, observation_alike. destruct o as [? ? ? ? a ?], p as [? ? ? ? b ?].
  simpl. intros Ha Hb (-> & -> & -> & -> & -> & Hab). f_equal.
  destruct Hab as [x y (Hl & Hs & Hc)|]; [|done].
  apply (checksums_unique _ _ _ _ Ha Hb) in Hc. destruct x, y. simpl in *. congruence.
Qed.

Definition release_order_key (r : EligibleReleaseV1) : result ReleaseOrderKey SnapshotError :=
  result_map entry_key (parse_entry r).

Lemma release_order_sorted_keys rs u :
  validate_release_order rs = Ok u → sorted_keys release_order_key release_key_cmp rs.
Proof.
  intros (es & Hes & _ & Hs)%validate_release_order_ok. exists (entry_key <$> es). split; [|done].
  apply Forall2_fmap_r. eapply Forall2_impl; [exact Hes|]. intros r e He.
  unfold release_order_key. by rewrite He.
Qed.

Record history_canonical (h : PackageHistoryV1) : Prop := {
  canonical_history_limits : validate_history_limits h = Ok tt;
  canonical_observation_keys :
    sorted_keys observation_order_key observation_key_cmp (history_observations h);
  canonical_decision_keys :
    strictly_sorted decision_key_cmp (decision_order_key <$> history_decisions h);
  canonical_decisions : Forall (λ d, canonical_decision d = Ok tt) (history_decisions h);
  canonical_order : validate_release_order (history_eligible_releases h) = Ok tt;
  canonical_observations :
    Forall (λ o, canonical_observation o = Ok tt) (history_observations h);
  canonical_releases : Forall (λ r, canonical_release r = Ok tt) (history_eligible_releases h);
}.

Lemma validate_canonical_history_ok h :
  validate_canonical_history h = Ok tt ↔ history_canonical h.
Proof.
  unfold validate_canonical_history. remember (validate_history_limits h) as limits eqn:El.
  rewrite check_bind, try_map_bind.
  do 2 setoid_rewrite reject_bind. do 3 setoid_rewrite check_bind. subst limits. split.
  - intros (Hl & ks & Hks & Ho & Hd & Hcd & Hr & Hco & Hcr).
    apply (unordered_sorted observation_key_cmp) in Ho.
    apply (unordered_sorted decision_key_cmp) in Hd. apply try_each_ok in Hcd, Hco, Hcr.
    constructor; try done. by exists ks.
  - intros [Hl (ks & Hks & Ho) Hd Hcd Hr Hco Hcr]. split; [done|]. exists ks.
    apply (unordered_sorted observation_key_cmp) in Ho.
    apply (unordered_sorted decision_key_cmp) in Hd. by rewrite !try_each_ok.
Qed.

Lemma history_canonical_unique h k :
  history_canonical h → history_canonical k → history_alike h k → h = k.
Proof.
  intros [_ Ho Hd Hcd Hr Hco Hcr] [_ Ko Kd Kcd Kr Kco Kcr] (Hp & Hs & Oo & Od & Or).
  apply (reordered_eq _ _ _ _ _ Hco Kco canonical_observation_unique) in Oo.
  apply (reordered_eq _ _ _ _ _ Hcd Kcd canonical_decision_unique) in Od.
  apply (reordered_eq _ _ _ _ _ Hcr Kcr canonical_release_unique) in Or.
  apply (sorted_keys_unique observation_order_key observation_key_cmp) in Oo; [|done..].
  apply (sorted_fmap_unique decision_order_key decision_key_cmp) in Od; [|done..].
  apply (sorted_keys_unique release_order_key release_key_cmp) in Or;
    [|by eapply release_order_sorted_keys..].
  destruct h, k. simpl in *. congruence.
Qed.
End canonical.

(** ** The contract and the canonical form *)

Section contract.
Context `{CivilDate, Sha2, UnicodeTables}.
Context `{!JsonBytes (list FieldV1 * option OccurrenceArtifactV1)}.

(** C32: A history is accepted exactly when it keeps its contract: a package name,
    releases exactly when it is present, observations numbered from zero with a source
    that exists, references to its own observations only, releases of its own package
    that are releases of the domain, sizes within the limits, all lists in
    canonical order, no release identity twice and no Git commit with two
    versions. *)
Theorem validate_history_spec h sources n :
  validate_history h sources n = Ok tt ↔
    (∃ name, PackageName_new (history_package h) = Ok name) ∧
    (is_present (history_state h) = true ↔ history_eligible_releases h ≠ []) ∧
    (∀ i o, history_observations h !! i = Some o → observation_ok n i o) ∧
    Forall (λ d, Forall (λ id, id < len_u64 (history_observations h))%N (decision_observation_ids d))
      (history_decisions h) ∧
    Forall (release_accepted h) (history_eligible_releases h) ∧
    validate_history_limits h = Ok tt ∧
    sorted_keys observation_order_key observation_key_cmp (history_observations h) ∧
    Forall (λ o, canonical_observation o = Ok tt) (history_observations h) ∧
    strictly_sorted decision_key_cmp (decision_order_key <$> history_decisions h) ∧
    Forall (λ d, strictly_sorted N.compare (decision_observation_ids d)) (history_decisions h) ∧
    (∃ es, Forall2 (λ r e, parse_entry r = Ok e) (history_eligible_releases h) es ∧
       NoDup (entry_identity <$> es) ∧ git_consistent es ∧
       strictly_sorted release_key_cmp (entry_key <$> es)) ∧
    Forall (λ r, canonical_release r = Ok tt) (history_eligible_releases h).
Proof.
  rewrite validate_history_ok.
  assert (Forall (λ d, canonical_decision d = Ok tt) (history_decisions h) ↔
    Forall (λ d, strictly_sorted N.compare (decision_observation_ids d)) (history_decisions h)) as Hd.
  { apply Forall_iff. intros d. unfold canonical_decision.
    by rewrite reject_if_ok, (unordered_sorted N.compare). }
  split.
  - intros [Hp Hs Ho Hdec Hr [Hl Hok Hdk Hcd Hord Hco Hcr]%validate_canonical_history_ok].
    apply validate_release_order_ok in Hord as (es & Hes & [? ?] & Hk). split_and!; try done.
    + by apply Hd.
    + by exists es.
  - intros (Hp & Hs & Ho & Hdec & Hr & Hl & Hok & Hco & Hdk & Hcd & (es & Hes & Hn & Hg & Hk) & Hcr).
    constructor; try done. apply validate_canonical_history_ok. constructor; try done.
    + by apply Hd.
    + apply validate_release_order_ok. by exists es.
Qed.

(** C34: Accepted histories are in canonical form: two that differ only in the order of
    their lists (of observations, decisions, releases, and of the metadata, dependencies, clauses,
    distributions, artifacts, checksums, evidence and roles inside) are equal, so
    they have the same bytes and the same digest in the manifest. *)
Theorem history_canonical_form h k sources sources' n m :
  validate_history h sources n = Ok tt → validate_history k sources' m = Ok tt →
  history_alike h k → h = k.
Proof.
  rewrite !validate_history_ok. intros Hh Hk. apply history_canonical_unique.
  - apply validate_canonical_history_ok, (valid_canonical n), Hh.
  - apply validate_canonical_history_ok, (valid_canonical m), Hk.
Qed.
End contract.
