(* ===== verification/SnapshotReleaseLaws.v ===== *)
(** * Stored releases and the releases they stand for

    The hexadecimal text of digests; when a stored release is accepted and what
    it is in the domain; and that the releases of an accepted history have
    distinct identities. *)

From S2P Require Import Prelude RustStd Collections Externals Text Format Versions Names GitUrl Publication.
From S2P Require Import Identity Constraints Digest Metadata.
From S2P Require Import Snapshot SnapshotValidation SnapshotCodec SnapshotLaws SnapshotHistoryLaws.

(** ** Hexadecimal text *)

Lemma hex_digits_byte b :
  hex_digit_value (hex_digit (u8 b / 16)) = Some (u8 b / 16)%N ∧
  hex_digit_value (hex_digit (u8 b mod 16)) = Some (u8 b mod 16)%N ∧
  byte_of (16 * (u8 b / 16) + u8 b mod 16) = b.
Proof. destruct b; vm_compute; auto. Qed.

Lemma bytes_hex b l :
  bytes (hex (b :: l)) = hex_digit (u8 b / 16) :: hex_digit (u8 b mod 16) :: bytes (hex l).
Proof. unfold hex. by rewrite !bytes_from_utf8. Qed.

Lemma parse_hex_pairs_hex l : parse_hex_pairs (bytes (hex l)) = Ok l.
Proof.
  induction l as [|b l IH]; [done|]. rewrite bytes_hex. cbn [parse_hex_pairs].
  destruct (hex_digits_byte b) as (-> & -> & Hb). rewrite IH. cbn [result_bind]. by rewrite Hb.
Qed.

Lemma hex_encode_hex l : hex l = hex_encode l.
Proof. done. Qed.

Lemma hex_inj l k : hex l = hex k → l = k.
Proof.
  intros E. pose proof (parse_hex_pairs_hex l) as Hl. rewrite E, parse_hex_pairs_hex in Hl.
  by injection Hl.
Qed.

(** The value of a lower-case digit is the digit's. *)
Lemma lower_hex_digit b : is_lower_hex b = true → ∀ n, hex_digit_value b = Some n →
  hex_digit n = b ∧ (n < 16)%N.
Proof.
  intros Hb. assert (∃ n, hex_digit_value b = Some n ∧ hex_digit n = b ∧ (n < 16)%N) as (n & -> & ?).
  - destruct b; (vm_compute in Hb; discriminate Hb) || (eexists; vm_compute; eauto).
  - by intros ? [= <-].
Qed.

Lemma parse_hex_pairs_lower n l r :
  length l = 2 * n → Forall (λ b, is_lower_hex b = true) l → parse_hex_pairs l = Ok r →
  length r = n ∧ bytes (hex r) = l.
Proof.
  revert l r. induction n as [|n IH]; intros l r Hlen Hl Hr.
  { destruct l; [|done]. by injection Hr as <-. }
  destruct l as [|a [|b l]]; simpl in Hlen; [lia..|]. inversion Hl as [|? ? Ha Hl']; subst.
  inversion Hl' as [|? ? Hb Hl'']; subst. cbn [parse_hex_pairs] in Hr.
  destruct (hex_digit_value a) as [x|] eqn:Ex; [|done].
  destruct (hex_digit_value b) as [y|] eqn:Ey; [|done].
  apply result_bind_ok in Hr as (r' & Hr' & [= <-]).
  destruct (IH l r') as [Hn Hx]; [lia|done..|].
  destruct (lower_hex_digit _ Ha _ Ex) as [Hxd Hx16]. destruct (lower_hex_digit _ Hb _ Ey) as [Hyd Hy16].
  assert (u8 (byte_of (16 * x + y)) = 16 * x + y)%N as Hu by (apply u8_byte_of; lia).
  rewrite bytes_hex, Hu, Hx. split; [simpl; by rewrite Hn|].
  assert ((16 * x + y) / 16 = x)%N as -> by (rewrite N.mul_comm, N.div_add_l, N.div_small; lia).
  assert ((16 * x + y) mod 16 = y)%N as ->
    by (rewrite N.add_comm, N.mul_comm, N.Div0.mod_add, N.mod_small; lia).
  by rewrite Hxd, Hyd.
Qed.

Lemma lowercase_hexdigit b :
  is_ascii_hexdigit b = true → byte_to_ascii_lowercase b = b → is_lower_hex b = true.
Proof. destruct b; vm_compute; congruence. Qed.

Lemma str_len_hex l : str_len (hex l) = 2 * length l.
Proof. apply str_len_hex_encode. Qed.

Lemma to_ascii_lowercase_hex l : to_ascii_lowercase (hex l) = hex l.
Proof. apply lower_hex_to_lowercase, hex_encode_lower. Qed.

(** The text of 32 bytes, and nothing else. *)
Lemma parse_hex_32_ok s l : parse_hex_32 s = Ok l ↔ length l = 32 ∧ s = hex l.
Proof.
  unfold parse_hex_32. split.
  - intros Hp. destruct (bool_decide _ || _) eqn:E; [done|].
    apply orb_false_iff in E as [Hlen%bool_decide_eq_false%dec_stable Hall%negb_false_iff].
    apply result_bind_ok in Hp as (r & Hr & Hk). case_bool_decide as Hl; [done|].
    injection Hk as <-.
    assert (Forall (λ b, is_lower_hex b = true) (bytes s)) as Hlow.
    { apply (f_equal bytes) in Hl. rewrite bytes_to_ascii_lowercase in Hl.
      apply forallb_Forall in Hall. clear -Hl Hall. induction Hall as [|b k Hb _ IH]; [done|].
      rewrite fmap_cons in Hl. injection Hl as Hb' Hk. constructor; [|by apply IH].
      by apply lowercase_hexdigit. }
    destruct (parse_hex_pairs_lower 32 (bytes s) r) as [Hn Hx]; [exact Hlen|done..|].
    split; [done|]. apply (inj bytes). done.
  - intros [Hn ->]. rewrite str_len_hex, Hn. simpl.
    assert (all_bytes is_ascii_hexdigit (hex l) = true) as -> by apply hex_encode_hexdigits.
    simpl. rewrite parse_hex_pairs_hex. simpl. rewrite to_ascii_lowercase_hex.
    by rewrite bool_decide_eq_false_2 by tauto.
Qed.

(** ** The release a stored one stands for *)

Section domain.
Context `{CivilDate, Sha2, UnicodeTables, !Sha2Laws}.

(** The Git identity that is written: a repository, a commit, and a directory if one is. *)
Record git_stands (g : GitProvenanceV1) (repository : NormalizedGitUrl) (commit : GitCommitId)
    (subdirectory : option RepositorySubdir) : Prop := {
  git_stands_repository : NormalizedGitUrl_new (provenance_repository g) = Ok repository;
  git_stands_commit : GitCommitId_new (provenance_commit g) = Ok commit;
  git_stands_subdirectory :
    match provenance_subdirectory g, subdirectory with
    | Some text, Some d => RepositorySubdir_new text = Ok d
    | None, None => True
    | _, _ => False
    end;
}.

Lemma parse_git_provenance_ok g u c d :
  parse_git_provenance g = Ok (u, (c, d)) ↔ git_stands g u c d.
Proof.
  unfold parse_git_provenance. split.
  - intros (u' & Hu%map_err_ok & Hk)%result_bind_ok.
    apply result_bind_ok in Hk as (c' & Hc%map_err_ok & Hk).
    apply result_bind_ok in Hk as (d' & Hd & [= -> -> ->]). constructor; [done..|].
    destruct (provenance_subdirectory g) as [t|]; [|by injection Hd as <-].
    apply result_map_ok in Hd as (d' & Hd & ->). by apply map_err_ok in Hd.
  - intros [Hu Hc Hd]. rewrite Hu, Hc. cbn [map_err result_bind].
    destruct (provenance_subdirectory g) as [t|], d as [d|]; try done. by rewrite Hd.
Qed.

(** A registry release of [cran], or a Git commit of [r-universe]. *)
Definition provenance_of (w : EligibleReleaseV1) (version : RPackageVersion) (p : Provenance) : Prop :=
  match eligible_git_provenance w with
  | None => eligible_namespace w = "cran" ∧ p = RegistryRelease (mk_Identifier "cran") version
  | Some g => eligible_namespace w = "r-universe" ∧ ∃ repository commit subdirectory,
      git_stands g repository commit subdirectory ∧
      p = GitCommit repository commit subdirectory
  end.

(** The date is the one that is written, and none when none is. *)
Definition publication_stands (text : option string) (p : option ReleasePublication) : Prop :=
  match text, p with
  | None, None => True
  | Some text, Some p => PublicationDate_parse text = Ok (ReleasePublication_date p) ∧
                         PublicationDate_as_str (ReleasePublication_date p) = text
  | _, _ => False
  end.

Inductive kind_stands : DependencyKindV1 → DependencyKind → Prop :=
| depends_stands : kind_stands KindV1Depends Depends
| imports_stands : kind_stands KindV1Imports Imports
| linking_to_stands : kind_stands KindV1LinkingTo LinkingTo
| suggests_stands : kind_stands KindV1Suggests Suggests
| enhances_stands : kind_stands KindV1Enhances Enhances.

Inductive relation_stands : RelationOpV1 → RelationOp → Prop :=
| lt_stands : relation_stands OpV1Lt OpLt
| le_stands : relation_stands OpV1Le OpLe
| eq_stands : relation_stands OpV1Eq OpEq
| ne_stands : relation_stands OpV1Ne OpNe
| ge_stands : relation_stands OpV1Ge OpGe
| gt_stands : relation_stands OpV1Gt OpGt.

(** A clause has the relation and the version that are written. *)
Definition clause_stands (w : ClauseV1) (k : VersionClause) : Prop :=
  relation_stands (clauseV1_op w) (clause_op k) ∧
  RPackageVersion_parse (clauseV1_version w) = Ok (clause_version k).

(** The requirement is on the package that is written, from any source, with the clauses in
    their order. *)
Record dependency_stands (w : DependencyV1) (d : DeclaredDependency) : Prop := {
  dependency_stands_kind : kind_stands (dependency_kind w) (declared_kind d);
  dependency_stands_package :
    PackageName_new (dependency_package w) = Ok (requirement_name (declared_package d));
  dependency_stands_source : requirement_source (declared_package d) = SourceAny;
  dependency_stands_clauses :
    Forall2 clause_stands (dependency_clauses w) (clauses (requirement_constraint (declared_package d)));
}.

Inductive checksum_stands (w : ChecksumV1) : UpstreamChecksum → Prop :=
| sha256_stands digest : checksum_algorithm w = "sha256" →
    Sha256Digest_new (checksum_value w) = Ok digest → checksum_stands w (ChecksumSha256 digest)
| md5_stands : checksum_algorithm w = "md5" → checksum_stands w (Md5 (checksum_value w))
| other_stands : checksum_algorithm w ∉ ["sha256"; "md5"] →
    checksum_stands w (Other (checksum_algorithm w) (checksum_value w)).

Definition artifact_stands (w : ArtifactV1) (a : Artifact) : Prop :=
  match a with
  | Source a =>
      Identifier_new KArtifactLocator (artifact_locator w) = Ok (locator a) ∧
      Forall2 checksum_stands (artifact_upstream_checksums w) (upstream_checksums a) ∧
      size a = artifact_size w
  end.

(** The fields are those that are written; of two under one name the later is kept. *)
Definition fields_stand (w : list FieldV1) (fields : Fields) : Prop :=
  fields = bt_from_iter str_cmp ((λ f, (field_name f, field_value f)) <$> w).

Record distribution_stands (w : DistributionV1) (d : Distribution) : Prop := {
  distribution_stands_registry :
    Identifier_new KRegistryId (distribution_registry w) = Ok (registry d);
  distribution_stands_channel :
    Identifier_new KDistributionChannel (distribution_channel w) = Ok (channel d);
  distribution_stands_snapshot :
    match distribution_snapshot w, snapshot d with
    | None, None => True
    | Some text, Some id => Identifier_new KSnapshotId text = Ok id
    | _, _ => False
    end;
  distribution_stands_artifacts :
    Forall2 artifact_stands (distribution_artifacts w) (artifacts d);
  distribution_stands_metadata :
    fields_stand (distribution_metadata w) (metadata_fields (observed_metadata d));
}.

Record stands_for (w : EligibleReleaseV1) (r : PackageRelease) : Prop := {
  stands_package : PackageName_new (eligible_package w) = Ok (ReleaseIdentity_name (release_identity r));
  stands_version : RPackageVersion_parse (eligible_version w) = Ok (release_version r);
  stands_provenance :
    provenance_of w (release_version r) (ReleaseIdentity_provenance (release_identity r));
  stands_metadata : fields_stand (eligible_metadata w) (release_fields (release_metadata r));
  stands_unreserved :
    Forall (λ f, is_reserved_field f.1 = false) (release_fields (release_metadata r));
  stands_publication : publication_stands (eligible_publication w) (release_publication r);
  stands_dependencies :
    Forall2 dependency_stands (eligible_dependencies w) (release_dependencies r);
  stands_distributions : ∃ ds,
    Forall2 distribution_stands (eligible_distributions w) ds ∧
    release_distributions r = canonicalize_distributions ds;
  stands_digest :
    Sha256Digest_as_str (release_metadata_digest r) = hex (eligible_metadata_sha256 w);
  stands_sha256 : eligible_metadata_sha256 w
    = sha256_digest (metadata_encoding (release_identity r) (release_version r) (release_dependencies r));
}.

(** ** Each part, as the code reads it *)

Lemma publication_to_domain_ok w p :
  publication_to_domain w = Ok p ↔ publication_stands (eligible_publication w) p.
Proof.
  unfold publication_to_domain, publication_stands.
  destruct (eligible_publication w) as [text|]; [|by destruct p].
  rewrite result_map_ok. setoid_rewrite map_err_ok. split.
  - intros (d & Hd & ->). pose proof Hd as [_ Ht]%PublicationDate_parse_ok. done.
  - destruct p as [[d]|]; [|done]. intros [Hd _]. by exists d.
Qed.

Lemma kind_stands_iff k k' : kind_stands k k' ↔ dependency_kind_to_domain k = k'.
Proof. split; [by intros []|]. intros <-. destruct k; constructor. Qed.

Lemma relation_stands_iff op op' : relation_stands op op' ↔ relation_to_domain op = op'.
Proof. split; [by intros []|]. intros <-. destruct op; constructor. Qed.

Lemma clause_to_domain_ok w k : clause_to_domain w = Ok k ↔ clause_stands w k.
Proof.
  unfold clause_to_domain, clause_stands, parse_version. rewrite result_bind_ok, relation_stands_iff.
  setoid_rewrite map_err_ok. split.
  - by intros (v & Hv & [= <-]).
  - intros [Ho Hv]. exists (clause_version k). split; [done|]. rewrite Ho. by destruct k.
Qed.

Lemma dependency_to_domain_ok w d : dependency_to_domain w = Ok d ↔ dependency_stands w d.
Proof.
  unfold dependency_to_domain, DeclaredDependency_from_parts, PackageRequirement_new, parse_package.
  split.
  - intros (ks & Hks%try_map_ok & Hk)%result_bind_ok.
    apply result_bind_ok in Hk as (name & Hn%map_err_ok & [= <-]).
    constructor; [by apply kind_stands_iff|done..|]. simpl.
    eapply Forall2_impl; [exact Hks|]. intros x y. apply clause_to_domain_ok.
  - intros [Hk Hn Hs Hc].
    assert (try_map clause_to_domain (dependency_clauses w)
      = Ok (clauses (requirement_constraint (declared_package d)))) as ->.
    { apply try_map_ok. eapply Forall2_impl; [exact Hc|]. intros x y. apply clause_to_domain_ok. }
    rewrite Hn. simpl. apply kind_stands_iff in Hk as ->.
    by destruct d as [k [n s [cs]]]; simpl in *; subst.
Qed.

Lemma checksum_to_domain_ok w c : checksum_to_domain w = Ok c ↔ checksum_stands w c.
Proof.
  unfold checksum_to_domain. split.
  - case_bool_decide; [|case_bool_decide; intros [= <-]; constructor; set_solver].
    intros (d & Hd%map_err_ok & [= <-])%result_bind_ok. by constructor.
  - intros [d Ha Hd|Ha|Ha].
    + by rewrite Ha, Hd.
    + by rewrite Ha.
    + rewrite !bool_decide_eq_false_2 by set_solver. done.
Qed.

Lemma artifact_to_domain_ok w a : artifact_to_domain w = Ok a ↔ artifact_stands w a.
Proof.
  unfold artifact_to_domain, artifact_stands, parse_identifier. split.
  - intros (cs & Hcs%try_map_ok & Hk)%result_bind_ok.
    apply result_bind_ok in Hk as (l & Hl%map_err_ok & [= <-]). simpl. split_and!; [done| |done].
    eapply Forall2_impl; [exact Hcs|]. intros x y. apply checksum_to_domain_ok.
  - destruct a as [[l cs n]]. cbn [locator upstream_checksums size]. intros (Hl & Hcs & ->).
    assert (try_map checksum_to_domain (artifact_upstream_checksums w) = Ok cs) as ->.
    { apply try_map_ok. eapply Forall2_impl; [exact Hcs|]. intros x y. apply checksum_to_domain_ok. }
    by rewrite Hl.
Qed.

Lemma distribution_to_domain_ok w d : distribution_to_domain w = Ok d ↔ distribution_stands w d.
Proof.
  unfold distribution_to_domain, parse_identifier. split.
  - intros (a & Ha%try_map_ok & Hk)%result_bind_ok.
    apply result_bind_ok in Hk as (r & Hr%map_err_ok & Hk).
    apply result_bind_ok in Hk as (c & Hc%map_err_ok & Hk).
    apply result_bind_ok in Hk as (n & Hn & [= <-]).
    constructor; cbn [registry channel snapshot artifacts]; try done.
    + destruct (distribution_snapshot w); [|by injection Hn as <-].
      apply result_map_ok in Hn as (id & Hid & ->). by apply map_err_ok in Hid.
    + eapply Forall2_impl; [exact Ha|]. intros x y. apply artifact_to_domain_ok.
  - intros [Hr Hc Hn Ha Hm].
    assert (try_map artifact_to_domain (distribution_artifacts w) = Ok (artifacts d)) as ->.
    { apply try_map_ok. eapply Forall2_impl; [exact Ha|]. intros x y. apply artifact_to_domain_ok. }
    rewrite Hr, Hc. cbn [map_err result_bind].
    assert (match distribution_snapshot w with
            | Some snapshot => result_map Some (map_err (λ e, Invalid (IdentifierError_fmt e))
                                 (Identifier_new KSnapshotId snapshot))
            | None => Ok None end = Ok (snapshot d)) as ->.
    { destruct (distribution_snapshot w), (snapshot d); try done. by rewrite Hn. }
    destruct d as [r c n a [m]]. unfold fields_stand in Hm. simpl in *. by subst.
Qed.

Lemma metadata_to_domain_ok w m :
  ReleaseMetadata_from_pairs (field_pair <$> w) = Ok m ↔
    fields_stand w (release_fields m) ∧ Forall (λ f, is_reserved_field f.1 = false) (release_fields m).
Proof.
  unfold ReleaseMetadata_from_pairs, fields_stand. rewrite ReleaseMetadata_new_ok_iff.
  fold (field_pair <$> w). split; [by intros [-> ?]|]. intros [Hf Hr].
  destruct m as [fields]. simpl in *. by subst.
Qed.

Lemma identity_to_domain_ok w name version i :
  (let? _ := check_namespace w in identity_to_domain w name version) = Ok i ↔
    ReleaseIdentity_name i = name ∧ provenance_of w version (ReleaseIdentity_provenance i).
Proof.
  rewrite check_bind. unfold check_namespace, identity_to_domain, provenance_of.
  destruct (eligible_git_provenance w) as [g|].
  - rewrite (bool_decide_eq_true_2 (is_Some (Some g))) by done. rewrite andb_false_r, andb_true_r. simpl.
    rewrite result_bind_ok. split.
    + intros [Hn ([u [c s]] & Hp%parse_git_provenance_ok & [= <-])]. case_bool_decide as Hns; [|done].
      split; [done|]. split; [done|]. simpl. eauto.
    + intros [<- (-> & u & c & s & Hp%parse_git_provenance_ok & Hi)]. split; [done|]. exists (u, (c, s)). split; [done|].
      destruct i. simpl in *. by subst.
  - rewrite (bool_decide_eq_false_2 (is_Some None)) by (by intros []). rewrite andb_false_r, andb_true_r, orb_false_r. split.
    + intros [Hn [= <-]]. case_bool_decide as Hns; [|done]. done.
    + intros [<- [-> Hi]]. split; [done|]. destruct i. simpl in *. by subst.
Qed.

Lemma dependency_to_domain_wf d e : dependency_to_domain d = Ok e → dependency_wf e.
Proof.
  unfold dependency_to_domain, DeclaredDependency_from_parts, PackageRequirement_new.
  intros (cs & Hcs & (name & Hname%map_err_ok & He%map_err_ok)%result_bind_ok)%result_bind_ok.
  injection He as <-. split; simpl.
  - apply PackageName_new_ok_iff in Hname as [Hv ->]. simpl. intros E.
    rewrite E in Hv. by destruct Hv as [(b & [=] & _) _].
  - done.
Qed.

Lemma canonical_metadata_digest_hex i v ds :
  Sha256Digest_as_str (canonical_metadata_digest i v ds) = hex (sha256_digest (metadata_encoding i v ds)).
Proof.
  unfold canonical_metadata_digest. set (l := sha256_digest _).
  assert (length l = 32) as Hl by apply sha256_digest_length.
  unfold Sha256Digest_new. rewrite str_len_hex_encode, Hl, hex_encode_hexdigits. simpl.
  apply to_ascii_lowercase_hex.
Qed.

Lemma stands_first_invalid ws ds :
  Forall2 dependency_stands ws ds → first_invalid_dependency 0 ds = None.
Proof.
  intros Hds. apply first_invalid_dependency_none, Forall_forall. intros e [j Hj]%list_elem_of_lookup.
  destruct (Forall2_lookup_r _ _ _ _ _ Hds Hj) as (d & _ & Hd).
  by eapply dependency_to_domain_wf, dependency_to_domain_ok.
Qed.

Lemma stands_version_agrees w version p :
  provenance_of w version p →
  match provenance_version p with Some v => negb (v =?= version) | None => false end = false.
Proof.
  unfold provenance_of. destruct (eligible_git_provenance w).
  - intros (_ & ? & ? & ? & _ & ->). done.
  - intros (_ & ->). simpl. by rewrite req_refl.
Qed.

(** A stored release is accepted exactly when every part of it is, and it is
    then the release made of these parts. *)
Lemma release_to_domain_ok w r : release_to_domain w = Ok r ↔ stands_for w r.
Proof.
  unfold release_to_domain. split.
  - intros [Hns Hk]%check_bind. apply result_bind_ok in Hk as (name & Hname%map_err_ok & Hk).
    apply result_bind_ok in Hk as (version & Hversion%map_err_ok & Hk).
    apply result_bind_ok in Hk as (i & Hi & Hk).
    apply result_bind_ok in Hk as (md & Hmd%map_err_ok%metadata_to_domain_ok & Hk).
    apply result_bind_ok in Hk as (p & Hp%publication_to_domain_ok & Hk).
    apply try_map_bind in Hk as (ds & Hds & Hk).
    apply try_map_bind in Hk as (dists & Hdists & Hk).
    apply result_bind_ok in Hk as (r' & Hr%map_err_ok & Hk). case_bool_decide as Hd; [done|].
    injection Hk as ->.
    assert (ReleaseIdentity_name i = name ∧ provenance_of w version (ReleaseIdentity_provenance i))
      as [<- Hprov] by (apply identity_to_domain_ok; by rewrite Hns).
    unfold PackageRelease_try_from in Hr. simpl in Hr.
    destruct (negb _) in Hr; [done|].
    destruct (match provenance_version _ with Some _ => _ | None => _ end) in Hr; [done|].
    destruct (first_invalid_dependency 0 ds); [done|]. injection Hr as <-. simpl in *.
    unfold hex_digest in Hd. rewrite canonical_metadata_digest_hex, to_ascii_lowercase_hex in Hd.
    constructor; cbn -[metadata_encoding]; try done; [apply Hmd..| | | |].
    + eapply Forall2_impl; [exact Hds|]. intros x y. apply dependency_to_domain_ok.
    + exists dists. split; [|done].
      eapply Forall2_impl; [exact Hdists|]. intros x y. apply distribution_to_domain_ok.
    + by rewrite canonical_metadata_digest_hex.
    + by apply hex_inj in Hd.
  - intros [Hp Hv Hi Hmd Hres Hpub Hds (dists & Hdists & Hcan) Hdig Hsha].
    pose proof (conj eq_refl Hi) as [Hns Hid]%identity_to_domain_ok%check_bind.
    pose proof (stands_first_invalid _ _ Hds) as Hfirst.
    pose proof (proj2 (metadata_to_domain_ok _ _) (conj Hmd Hres)) as Hmeta.
    rewrite Hns. cbn [result_bind]. unfold parse_package, parse_version. rewrite Hp, Hv.
    cbn [map_err result_bind]. rewrite Hid, Hmeta. cbn [map_err result_bind].
    rewrite (proj2 (publication_to_domain_ok w _) Hpub). cbn [result_bind].
    rewrite (proj2 (try_map_ok dependency_to_domain _ _)
      (Forall2_impl _ _ _ _ Hds (λ x y, proj2 (dependency_to_domain_ok x y)))).
    rewrite (proj2 (try_map_ok distribution_to_domain _ _)
      (Forall2_impl _ _ _ _ Hdists (λ x y, proj2 (distribution_to_domain_ok x y)))).
    cbn [result_bind]. unfold PackageRelease_try_from. cbn.
    rewrite (req_refl (ReleaseIdentity_name (release_identity r))), Hfirst. cbn [negb].
    rewrite (stands_version_agrees _ _ _ Hi). cbn. unfold hex_digest.
    rewrite canonical_metadata_digest_hex, to_ascii_lowercase_hex, Hsha.
    rewrite bool_decide_eq_false_2 by tauto. f_equal. rewrite <-Hcan.
    rewrite Hsha, <-canonical_metadata_digest_hex in Hdig.
    destruct r as [? ? ? ? ? ? [dig]]. simpl in *. subst. by destruct (canonical_metadata_digest _ _ _).
Qed.

(** ** The identities of an accepted history *)

Lemma canonical_version_components_iter v :
  canonical_version_components v = Components_iter (version_components v).
Proof.
  unfold canonical_version_components, RPackageVersion_canonical_component_count.
  unfold RPackageVersion_components, Components_iter.
  rewrite <-fmap_take, take_seq. do 2 f_equal.
  pose proof (canonical_len_from_le (version_components v) (Components_len (version_components v))).
  unfold Components_canonical_len. lia.
Qed.

(** The entry of a release in the order check, from the release it stands for. *)
Lemma stands_for_entry w r e :
  stands_for w r → parse_entry w = Ok e →
    entry_components e = Components_iter (version_components (release_version r)) ∧
    (ReleaseIdentity_provenance (release_identity r)
       = RegistryRelease (mk_Identifier "cran") (release_version r) ∧
     entry_namespace e = "cran" ∧ entry_git e = None ∨
     ∃ u c s, ReleaseIdentity_provenance (release_identity r) = GitCommit u c s ∧
       entry_namespace e = "r-universe" ∧ entry_git e = Some (u, (c, s))).
Proof.
  intros [_ Hv Hp _ _ _ _ _ _ _]. unfold parse_entry, parse_version. rewrite Hv. cbn [map_err result_bind].
  intros (g & Hg & [= <-])%result_bind_ok. cbn. rewrite canonical_version_components_iter.
  split; [done|]. unfold provenance_of in Hp. destruct (eligible_git_provenance w).
  - right. destruct Hp as (Hn & u & c & s & Hu%parse_git_provenance_ok & ->). rewrite Hu in Hg. injection Hg as <-.
    by exists u, c, s.
  - left. destruct Hp as (Hn & ->). by injection Hg as <-.
Qed.

(** Releases with equivalent identities have equal entries, where a Git identity has one version. *)
Lemma equal_identities_entries l w r e w' r' e' :
  git_consistent l → e ∈ l → e' ∈ l →
  stands_for w r → parse_entry w = Ok e → stands_for w' r' → parse_entry w' = Ok e' →
  release_identity r ≈ release_identity r' → entry_identity e = entry_identity e'.
Proof.
  intros Hl He He' Hw Hp Hw' Hp' Heq.
  destruct (stands_for_entry _ _ _ Hw Hp) as [Hc Hcase].
  destruct (stands_for_entry _ _ _ Hw' Hp') as [Hc' Hcase'].
  assert (ReleaseIdentity_provenance (release_identity r)
    ≈ ReleaseIdentity_provenance (release_identity r')) as Hpr.
  { unfold req_rel, req, req_ReleaseIdentity, ReleaseIdentity_eq in Heq.
    by apply andb_true_iff in Heq as [_ ?]. }
  unfold entry_identity.
  destruct Hcase as [(Hi & -> & Hg)|(u & c & s & Hi & -> & Hg)];
    destruct Hcase' as [(Hi' & -> & Hg')|(u' & c' & s' & Hi' & -> & Hg')];
    rewrite Hi, Hi' in Hpr; try done; rewrite Hg, Hg'.
  - unfold req_rel, req, req_Provenance, Provenance_eq in Hpr.
    apply andb_true_iff in Hpr as [_ Hv]. change (release_version r ≈ release_version r') in Hv.
    apply version_req_iter in Hv. congruence.
  - unfold req_rel, req, req_Provenance, Provenance_eq in Hpr.
    rewrite !andb_true_iff, !req_leibniz in Hpr. destruct Hpr as [[-> ->] ->].
    f_equal. by apply (Hl e e' (u', (c', s'))).
Qed.

Lemma distributions_stand_functional ws ds ds' :
  Forall2 distribution_stands ws ds → Forall2 distribution_stands ws ds' → ds = ds'.
Proof.
  intros Hd. revert ds'. induction Hd as [|w d ws ds Hw _ IH]; intros ds' Hd'.
  - by apply Forall2_nil_inv_l in Hd'.
  - apply Forall2_cons_inv_l in Hd' as (d' & ds'' & Hw' & Hd' & ->).
    apply distribution_to_domain_ok in Hw, Hw'. rewrite Hw in Hw'. injection Hw' as ->.
    f_equal. by apply IH.
Qed.

(** C33: A stored release is accepted exactly when each of its parts is, and is then
    the release made of them: its name and version, the registry [cran] or a Git commit
    of [r-universe], its metadata, the date it was published if it has one, each dependency
    with its kind, package, and the relation and version of each clause, and its distributions
    with their registry, channel, artifacts and checksums, once each and in the order of their
    keys; and the stored digest is that of the release, so that two
    stored releases with one digest agree on what is hashed or SHA-256 has a collision. *)
Theorem release_to_domain_spec :
  (∀ w r, release_to_domain w = Ok r ↔ stands_for w r) ∧
  (∀ w r ds, release_to_domain w = Ok r →
     Forall2 distribution_stands (eligible_distributions w) ds →
     StronglySorted (λ a b, distribution_cmp a b = Lt) (release_distributions r) ∧
     (∀ d, d ∈ release_distributions r → d ∈ ds) ∧
     (Forall distribution_wf ds → ∀ d, d ∈ ds → d ∈ release_distributions r)) ∧
  (∀ w w' r r', release_to_domain w = Ok r → release_to_domain w' = Ok r' →
     eligible_metadata_sha256 w = eligible_metadata_sha256 w' →
     let e := metadata_encoding (release_identity r) (release_version r) (release_dependencies r) in
     let e' := metadata_encoding (release_identity r') (release_version r') (release_dependencies r') in
     e = e' ∨ (e ≠ e' ∧ sha256_digest e = sha256_digest e')).
Proof.
  split_and!; [apply release_to_domain_ok| |].
  - intros w r ds (ds' & Hds' & ->)%release_to_domain_ok%stands_distributions Hds.
    rewrite (distributions_stand_functional _ _ _ Hds' Hds). split_and!.
    + apply canonicalize_sorted.
    + apply elem_of_canonicalize_1.
    + intros Hwf d. by apply elem_of_canonicalize.
  - intros w w' r r' Hw Hw' Hd e e'.
    apply release_to_domain_ok, stands_sha256 in Hw, Hw'. rewrite Hw, Hw' in Hd.
    destruct (decide (e = e')); [by left|by right].
Qed.
End domain.
