(* ===== verification/SnapshotPublish.v ===== *)
(** * Publishing and serving a snapshot

    Whatever a database returns, what the loader serves has been validated.  What
    [prepare] collects, the counts and the manifest it computes, and the
    refinement: a database that holds the prepared tables passes the validation,
    opens, and serves exactly the histories of the input. *)

From S2P Require Import Prelude Effects RustStd Collections Text Externals FileSystem Format Versions.
From S2P Require Import Names GitUrl Publication Identity Constraints Digest Metadata Request Candidates.
From S2P Require Import Resolution Snapshot SnapshotValidation SnapshotCodec SnapshotLaws.
From S2P Require Import SnapshotHistoryLaws SnapshotReleaseLaws.

Section serve.
Context `{CivilDate, Sha2, UnicodeTables, Timestamps, !Sha2Laws}.
Context `{!JsonBytes (list FieldV1 * option OccurrenceArtifactV1), !JsonBytes SnapshotHeaderV1}.
Context `{!Postcard PostcardHistoryV1, !PostcardLaws PostcardHistoryV1, Redb}.

(** ** What is served from a history *)

(** A stored release as the candidate that is served. *)
Definition served (w : EligibleReleaseV1) (o : RawCandidateObservation) : Prop :=
  stands_for w (raw_release o) ∧ raw_currentness o = currentness_to_domain (eligible_currentness w).

Lemma raw_candidate_ok w o : raw_candidate w = Ok o ↔ served w o.
Proof.
  unfold raw_candidate, served. rewrite result_bind_ok. setoid_rewrite release_to_domain_ok. split.
  - by intros (r & Hr & [= <-]).
  - intros [Hr Hc]. exists (raw_release o). split; [done|]. destruct o. simpl in *. by subst.
Qed.

Lemma served_wf w o : served w o → release_wf (raw_release o).
Proof.
  intros [Hs _]. apply release_to_domain_ok in Hs. revert Hs. unfold release_to_domain.
  intros [_ Hk]%check_bind. apply result_bind_ok in Hk as (? & _ & Hk).
  apply result_bind_ok in Hk as (? & _ & Hk). apply result_bind_ok in Hk as (? & _ & Hk).
  apply result_bind_ok in Hk as (? & _ & Hk). apply result_bind_ok in Hk as (? & _ & Hk).
  apply result_bind_ok in Hk as (? & _ & Hk). apply result_bind_ok in Hk as (? & _ & Hk).
  apply result_bind_ok in Hk as (r & Hr%map_err_ok & Hk). case_bool_decide; [done|].
  injection Hk as <-. by eapply PackageRelease_try_from_wf.
Qed.

(** The releases of an accepted history are different releases. *)
Definition distinct_identities (l : list RawCandidateObservation) : Prop :=
  ∀ i j o p, l !! i = Some o → l !! j = Some p →
    release_identity (raw_release o) ≈ release_identity (raw_release p) → i = j.

Lemma served_distinct n h l :
  history_valid n h → Forall2 served (history_eligible_releases h) l → distinct_identities l.
Proof.
  intros Hv Hl i j o p Hi Hj Hop.
  pose proof (proj1 (validate_canonical_history_ok _) (valid_canonical _ _ Hv)) as Hc.
  pose proof (canonical_order _ Hc) as (es & Hes & [Hnd Hgit] & _)%validate_release_order_ok.
  destruct (Forall2_lookup_r _ _ _ _ _ Hl Hi) as (w & Hw & [Hwo _]).
  destruct (Forall2_lookup_r _ _ _ _ _ Hl Hj) as (w' & Hw' & [Hwp _]).
  destruct (Forall2_lookup_l _ _ _ _ _ Hes Hw) as (e & He & Hpe).
  destruct (Forall2_lookup_l _ _ _ _ _ Hes Hw') as (e' & He' & Hpe').
  apply (NoDup_lookup _ i j (entry_identity e) Hnd); rewrite list_lookup_fmap; [by rewrite He|].
  rewrite He'. simpl. f_equal. symmetry.
  apply (equal_identities_entries es w (raw_release o) e w' (raw_release p) e'); try done.
  - by eapply list_elem_of_lookup_2.
  - by eapply list_elem_of_lookup_2.
Qed.

Lemma served_name h n l name :
  history_valid n h → history_package h = PackageName_as_str name →
  Forall2 served (history_eligible_releases h) l →
  Forall (λ o, ReleaseIdentity_name (release_identity (raw_release o)) = name) l.
Proof.
  intros Hv Hn Hl. apply Forall_forall. intros o [i Hi]%list_elem_of_lookup.
  destruct (Forall2_lookup_r _ _ _ _ _ Hl Hi) as (w & Hw & [Hs _]).
  pose proof (Forall_lookup_1 _ _ _ _ (valid_releases _ _ Hv) Hw) as (Hpkg & _).
  pose proof (stands_package _ _ Hs) as Hp. rewrite Hpkg, Hn in Hp.
  apply PackageName_new_ok_iff in Hp as [_ ->]. by destruct name.
Qed.

(** The loader's result for the bytes of a history. *)
Lemma releases_of_history_ok self name value res :
  releases_of_history self name value = Ok res ↔ ∃ h,
    decode_history value = Ok h ∧ history_package h = PackageName_as_str name ∧
    history_valid (length (header_sources (loader_header self))) h ∧
    history_state h = LookupPresent ∧
    Forall2 served (history_eligible_releases h) (raw_observations res) ∧
    raw_quarantined res = quarantined_candidates h.
Proof.
  unfold releases_of_history. rewrite result_bind_ok. split.
  - intros (h & Hh%map_err_ok & Hk). case_bool_decide as Hn; [done|].
    apply check_bind in Hk as [Hv%map_err_ok Hk]. apply validate_history_ok in Hv.
    destruct (history_state h) eqn:Hs; simpl in Hk; [|done].
    apply result_bind_ok in Hk as (l & Hl%map_err_ok%try_map_ok & [= <-]).
    exists h. split_and!; try done. simpl. eapply Forall2_impl; [exact Hl|]. intros w o.
    by apply raw_candidate_ok.
  - intros (h & Hh & Hn & Hv & Hs & Hl & Hq). exists h. rewrite Hh. split; [done|].
    rewrite bool_decide_eq_false_2 by tauto.
    rewrite (proj2 (validate_history_ok _ _ _) Hv). cbn [map_err result_bind]. rewrite Hs. simpl.
    assert (try_map raw_candidate (history_eligible_releases h) = Ok (raw_observations res)) as ->.
    { apply try_map_ok. eapply Forall2_impl; [exact Hl|]. intros w o. by apply raw_candidate_ok. }
    simpl. destruct res. simpl in *. by rewrite Hq.
Qed.

Lemma quarantined_sorted h :
  strictly_sorted (cmp_on quarantined_version RPackageVersion_cmp) (quarantined_candidates h).
Proof.
  unfold quarantined_candidates. apply (dedup_sorted_strict (cmp_on quarantined_version RPackageVersion_cmp)).
  - intros x y. unfold cmp_on. change (quarantined_version x =?= quarantined_version y)
      with (is_eq (RPackageVersion_cmp (quarantined_version x) (quarantined_version y))). done.
  - apply sort_by_sorted, _.
Qed.

(** The bytes are one envelope around what is written of the history, with its length and its
    digest, and no other history is written as them. *)
Record encodes (h : PackageHistoryV1) (value : list byte) : Prop := {
  encodes_payload : ∃ payload, postcard_to_stdvec (mk_PostcardHistoryV1 h) = Ok payload ∧
    value = HISTORY_MAGIC ++ u64_to_le_bytes (len_u64 payload) ++ sha256_digest payload ++ payload;
  encodes_only h' : encode_history h' = Ok value → h' = h;
}.

Lemma decoded_encodes value h : decode_history value = Ok h → encodes h value.
Proof.
  intros [(p & Hp & Hn & ->)%encode_history_ok _]%decode_history_ok. constructor; [by exists p|].
  intros h' (p' & Hp' & _ & He)%encode_history_ok.
  destruct (envelope_parts p) as (_ & _ & _ & Hd & _), (envelope_parts p') as (_ & _ & _ & Hd' & _).
  rewrite <-He, Hd in Hd'. subst p'. apply postcard_round_trip in Hp, Hp'. rewrite Hp in Hp'.
  by injection Hp'.
Qed.

(** C16: Whatever the database holds and however reads fail, candidates that are served are
    those of a history read from it: the bytes that its table of histories holds under the
    requested name are an envelope with the right length and digest around that history, which
    is the only one they encode, is of the requested package and is valid for the sources of the
    header;
    there is one candidate at least; each is well-formed, has the requested name and the stored
    digest, and no two have one identity; quarantined versions are in order and different. *)
Theorem snapshot_load_sound self subject res :
  snapshot_load self subject = Ok res → ∃ name h read table value,
    subject = KeyInstalledName name ∧
    begin_read (loader_database self) = Ok read ∧ open_table read PACKAGE_HISTORIES = Ok table ∧
    table_get table (PackageName_as_str name) = Ok (Some value) ∧ encodes h value ∧
    history_package h = PackageName_as_str name ∧
    history_valid (length (header_sources (loader_header self))) h ∧
    raw_observations res ≠ [] ∧
    Forall2 served (history_eligible_releases h) (raw_observations res) ∧
    Forall (λ o, release_wf (raw_release o) ∧
      ReleaseIdentity_name (release_identity (raw_release o)) = name) (raw_observations res) ∧
    distinct_identities (raw_observations res) ∧
    strictly_sorted (cmp_on quarantined_version RPackageVersion_cmp) (raw_quarantined res).
Proof.
  destruct subject; try done. simpl. unfold releases_for_name.
  intros (read & Hread%map_err_ok & (table & Htable%map_err_ok &
    (value & Hvalue%map_err_ok & Hv)%result_bind_ok)%result_bind_ok)%result_bind_ok.
  destruct value as [value|]; [|by case_bool_decide].
  apply releases_of_history_ok in Hv as (h & Henc%decoded_encodes & Hn & Hv & Hs & Hl & Hq).
  exists name, h, read, table, value. split_and!; try done.
  - pose proof (valid_state _ _ Hv) as [Hne _]. rewrite Hs in Hne. specialize (Hne eq_refl).
    intros E. rewrite E in Hl. apply Forall2_nil_inv_r in Hl. done.
  - pose proof (served_name _ _ _ _ Hv Hn Hl) as Hnames. rewrite Forall_forall in Hnames |- *.
    intros o Ho. split; [|by apply Hnames]. apply list_elem_of_lookup in Ho as [i Hi].
    destruct (Forall2_lookup_r _ _ _ _ _ Hl Hi) as (w & _ & Hw). by eapply served_wf.
  - by eapply served_distinct.
  - rewrite Hq. apply quarantined_sorted.
Qed.
End serve.

(** ** Maps filled in order *)

Lemma bt_insert_fresh {K V} (c : K → K → comparison) `{!CmpOrder c} k (v : V) m :
  bt_get c k m = None → bt_insert c k v m ≡ₚ (k, v) :: m.
Proof.
  induction m as [|[k' v'] m IH]; simpl; [done|]. destruct (c k k') eqn:E; simpl; try done.
  intros Hm. rewrite IH by done. apply Permutation_swap.
Qed.

Lemma bt_insert_last {K V} (c : K → K → comparison) `{!CmpOrder c} k (v : V) m :
  Forall (λ p, c p.1 k = Lt) m → bt_insert c k v m = m ++ [(k, v)].
Proof.
  induction 1 as [|[k' v'] m Hk _ IH]; [done|]. simpl in *.
  apply (cmp_lt_gt c) in Hk. by rewrite Hk, IH.
Qed.

Lemma sum_by_cons {A} (f : A → N) x l : sum_by f (x :: l) = (f x + sum_by f l)%N.
Proof.
  assert (∀ n, foldl (λ n x, n + f x)%N n l = (n + sum_by f l)%N) as Hacc.
  { unfold sum_by. induction l as [|y l IH]; intros n; simpl; [lia|].
    rewrite (IH (n + f y)%N), (IH (0 + f y)%N). lia. }
  unfold sum_by at 1. simpl. by rewrite Hacc.
Qed.

Lemma sum_by_Permutation {A} (f : A → N) l k : l ≡ₚ k → sum_by f l = sum_by f k.
Proof. induction 1; rewrite ?sum_by_cons; congruence || lia. Qed.

Lemma sum_by_Forall2 {A B} (f : A → N) (g : B → N) l k :
  Forall2 (λ x y, f x = g y) l k → sum_by f l = sum_by g k.
Proof. induction 1 as [|x y l k Hxy _ IH]; [done|]. rewrite !sum_by_cons, IH. simpl in Hxy. by rewrite Hxy. Qed.

Definition incomplete_weight (h : PackageHistoryV1) : N := if is_present (history_state h) then 0 else 1.

Lemma incomplete_total_sum l : incomplete_total l = sum_by incomplete_weight l.
Proof.
  unfold incomplete_total, incomplete_weight. induction l as [|h l IH]; [done|].
  rewrite sum_by_cons, <-IH. simpl. destruct (is_present _); simpl; unfold len_u64; simpl; lia.
Qed.

Section publish.
Context `{CivilDate, Sha2, UnicodeTables, Timestamps, !Sha2Laws}.
Context `{!JsonBytes (list FieldV1 * option OccurrenceArtifactV1), !JsonBytes SnapshotHeaderV1}.
Context `{!JsonBytesLaws SnapshotHeaderV1}.
Context `{!Postcard PostcardHistoryV1, !PostcardLaws PostcardHistoryV1, Redb}.

(** ** The histories that are stored *)

(** A history of the input, with what is stored under its package. *)
Definition stored (remap : list N) (source_count : nat) (h : PackageHistoryV1)
    (entry : string * list byte) : Prop :=
  ∃ observations, try_map (remap_observation remap) (history_observations h) = Ok observations ∧
    entry.1 = history_package h ∧
    history_valid source_count (with_observations h observations) ∧
    encode_history (with_observations h observations) = Ok entry.2.

Lemma prepare_history_ok remap sources m h m' :
  prepare_history remap sources m h = Ok m' ↔ ∃ value,
    stored remap (length sources) h (history_package h, value) ∧
    bt_get str_cmp (history_package h) m = None ∧ m' = bt_insert str_cmp (history_package h) value m.
Proof.
  unfold prepare_history, stored. rewrite result_bind_ok. simpl. split.
  - intros (os & Hos & [Hv Hk]%check_bind). apply validate_history_ok in Hv.
    apply result_bind_ok in Hk as (value & Hvalue & Hk). case_match eqn:E; [done|]. injection Hk as <-.
    exists value. split_and!; try done. by exists os.
  - intros (value & (os & Hos & _ & Hv & Henc) & Hm & ->). exists os. split; [done|].
    rewrite (proj2 (validate_history_ok _ _ _) Hv), Henc. cbn [result_bind]. by rewrite Hm.
Qed.

(** The map after some histories holds what they store, each under its package. *)
Lemma prepare_histories_ok remap sources l m m' pre :
  try_fold (prepare_history remap sources) m l = Ok m' → bt_sorted str_cmp m → m ≡ₚ pre →
  ∃ entries, Forall2 (stored remap (length sources)) l entries ∧
    bt_sorted str_cmp m' ∧ m' ≡ₚ pre ++ entries.
Proof.
  revert m pre. induction l as [|h l IH]; intros m pre Hf Hs Hp; simpl in Hf.
  { injection Hf as <-. exists []. rewrite app_nil_r. split_and!; [constructor|done..]. }
  apply result_bind_ok in Hf as (m1 & (value & Hst & Hnone & ->)%prepare_history_ok & Hf).
  destruct (IH _ (pre ++ [(history_package h, value)]) Hf) as (es & Hes & Hsorted & Hperm).
  - by apply bt_insert_sorted; [apply _|].
  - rewrite (bt_insert_fresh str_cmp) by done. rewrite Hp. apply Permutation_cons_append.
  - exists ((history_package h, value) :: es). split_and!; [by constructor|done|].
    by rewrite Hperm, <-app_assoc.
Qed.

(** ** Reading the rows back *)

(** A row with the history it holds. *)
Definition row_of (source_count : nat) (entry : string * list byte) (h : PackageHistoryV1) : Prop :=
  encode_history h = Ok entry.2 ∧ history_package h = entry.1 ∧ history_valid source_count h.

Lemma stored_row remap n h entry :
  stored remap n h entry → ∃ h', row_of n entry h' ∧
    history_state h' = history_state h ∧
    history_eligible_releases h' = history_eligible_releases h ∧
    length (history_observations h') = length (history_observations h).
Proof.
  intros (os & Hos & Hp & Hv & He). exists (with_observations h os). split_and!; try done.
  apply try_map_ok in Hos. symmetry. by eapply Forall2_length.
Qed.

Lemma row_decode n entry h : row_of n entry h → decode_history entry.2 = Ok h.
Proof.
  intros (He & _ & Hv). apply decode_history_ok. split; [done|].
  by apply canonical_limits, (valid_canonical n).
Qed.

Lemma count_rows header rows hs counts :
  Forall2 (row_of (length (header_sources header))) rows hs →
  bt_sorted str_cmp (manifest_entries counts ++ rows) →
  try_fold (count_row header) counts (Ok <$> rows) = Ok
    {| count_packages := count_packages counts + len_u64 rows;
       count_observations := count_observations counts + observation_total hs;
       count_eligible := count_eligible counts + eligible_total hs;
       count_incomplete := count_incomplete counts + sum_by incomplete_weight hs;
       manifest_entries := manifest_entries counts ++ rows |}.
Proof.
  intros Hrows. revert counts. induction Hrows as [|[k v] h rows hs Hr Hrows IH]; intros counts Hs.
  { simpl. rewrite app_nil_r. unfold len_u64, observation_total, eligible_total, sum_by. simpl.
    rewrite !N.add_0_r. by destruct counts. }
  cbn [fmap list_fmap try_fold]. unfold count_row at 1. cbn [map_err result_bind].
  pose proof (row_decode _ _ _ Hr) as Hdec. cbn [snd] in Hdec. rewrite Hdec.
  destruct Hr as (_ & Hp & Hv). cbn [result_bind fst] in *.
  rewrite bool_decide_eq_false_2 by tauto. cbn [reject_if result_bind].
  rewrite (proj2 (validate_history_ok _ _ _) Hv). cbn [result_bind].
  assert (bt_insert str_cmp k v (manifest_entries counts) = manifest_entries counts ++ [(k, v)]) as Hins.
  { apply bt_insert_last; [apply _|]. unfold bt_sorted in Hs. clear -Hs.
    induction (manifest_entries counts) as [|p m IHm]; [constructor|].
    inversion Hs as [|? ? Hs' Hp]; subst. constructor; [|by apply IHm].
    rewrite Forall_app, Forall_cons in Hp. by destruct Hp as (_ & Hp & _). }
  rewrite Hins, IH by (cbn; by rewrite <-app_assoc).
  cbn [manifest_entries count_packages count_observations count_eligible count_incomplete].
  unfold observation_total, eligible_total. rewrite !sum_by_cons, <-app_assoc. f_equal. f_equal.
  - unfold len_u64. simpl. lia.
  - lia.
  - lia.
  - unfold incomplete_weight. destruct (is_present _); lia.
Qed.

(** ** What preparing a generation gives *)

Record prepared (input : SnapshotBuildInput) (header : SnapshotHeaderV1)
    (histories : list (string * list byte)) : Prop := {
  prepared_entries : ∃ remap entries,
    Forall2 (stored remap (length (header_sources header))) (build_histories input) entries ∧
    histories ≡ₚ entries;
  prepared_sorted : bt_sorted str_cmp histories;
  prepared_registry : header_registry_id header = Identifier_as_str (build_registry_id input);
  prepared_packages : header_package_count header = len_u64 histories;
  prepared_observations : header_observation_count header = observation_total (build_histories input);
  prepared_eligible : header_eligible_release_count header = eligible_total (build_histories input);
  prepared_incomplete : header_incomplete_package_count header = incomplete_total (build_histories input);
  prepared_manifest : header_history_manifest_sha256 header = hex (history_manifest histories);
  prepared_state : coverage_state (header_coverage header) = coverage_state (build_coverage input);
}.

Lemma prepare_ok input header histories :
  prepare input = Ok (header, histories) → prepared input header histories.
Proof.
  unfold prepare. intros [_ Hk]%check_bind. apply reject_bind in Hk as [_ Hk]. cbv zeta in Hk.
  apply reject_bind in Hk as [_ Hk]. apply result_bind_ok in Hk as (m & Hm & Hk).
  apply reject_bind in Hk as [_ [= <- <-]].
  destruct (prepare_histories_ok _ _ _ _ _ [] Hm) as (entries & Hes & Hs & Hp); [constructor|done|].
  constructor; try done. cbn. eauto.
Qed.

(** What [build] and [prepare_staged] write. *)
Lemma generation_contents_ok input header hb histories :
  generation_contents input = Ok (header, (hb, histories)) →
  prepared input header histories ∧ header_generation header = generation_id_from_header header ∧
  encode_header header = Ok hb.
Proof.
  unfold generation_contents. intros ([h hs] & Hp%prepare_ok & Hk)%result_bind_ok.
  apply result_bind_ok in Hk as (b & Hb & [= <- <- <-]). split_and!; [|cbn|done].
  - destruct Hp. by constructor.
  - unfold generation_id, generation_id_from_header. cbn. by rewrite <-(prepared_registry _ _ _ Hp).
Qed.

(** The rows of a prepared generation decode to histories with the counts of the input. *)
Lemma prepared_rows input header histories :
  prepared input header histories → ∃ hs,
    Forall2 (row_of (length (header_sources header))) histories hs ∧
    observation_total hs = observation_total (build_histories input) ∧
    eligible_total hs = eligible_total (build_histories input) ∧
    sum_by incomplete_weight hs = incomplete_total (build_histories input).
Proof.
  intros [(remap & entries & Hes & Hp) _ _ _ _ _ _ _ _].
  assert (∃ hs, Forall2 (row_of (length (header_sources header))) entries hs ∧
    Forall2 (λ h' h, history_state h' = history_state h ∧
      history_eligible_releases h' = history_eligible_releases h ∧
      length (history_observations h') = length (history_observations h)) hs (build_histories input))
    as (hs & Hrows & Hsame).
  { clear Hp. induction Hes as [|h entry l entries Hst _ (hs & Hrows & Hsame)]; [by exists []|].
    apply stored_row in Hst as (h' & Hrow & Hh'). exists (h' :: hs). split; by constructor. }
  destruct (Permutation_Forall2 (Permutation_sym Hp) Hrows) as (hs' & Hp' & Hrows').
  exists hs'. split; [done|]. unfold observation_total, eligible_total.
  rewrite incomplete_total_sum. rewrite <-!(sum_by_Permutation _ _ _ Hp').
  split_and!; (eapply sum_by_Forall2, Forall2_impl; [exact Hsame|]).
  - intros h' h (_ & _ & Hl). unfold len_u64. by rewrite Hl.
  - by intros h' h (_ & -> & _).
  - intros h' h (Hst & _ & _). unfold incomplete_weight. by rewrite Hst.
Qed.

(** ** A database that holds a generation *)

Record database_holds (database : ReadOnlyDatabase) (header_bytes : list byte)
    (histories : list (string * list byte)) : Prop := {
  holds_tables : ∃ read headers packages,
    begin_read database = Ok read ∧ open_table read SNAPSHOT_HEADER = Ok headers ∧
    open_table read PACKAGE_HISTORIES = Ok packages ∧
    table_get headers HEADER_KEY = Ok (Some header_bytes) ∧
    (∀ key, table_get packages key = Ok (bt_get str_cmp key histories)) ∧
    table_iter packages = Ok (Ok <$> histories) ∧ table_len packages = Ok (len_u64 histories);
}.

Lemma prepared_validates input header hb histories database :
  generation_contents input = Ok (header, (hb, histories)) → validate_header header = Ok tt →
  database_holds database hb histories →
  validate_database database (build_registry_id input) = Ok header.
Proof.
  intros (Hp & Hgen & Henc)%generation_contents_ok Hv [(read & ht & pt & Hr & Hht & Hpt & Hh & _ & Hi & _)].
  unfold validate_database, stored_header. rewrite Hr. cbn [map_err result_bind].
  rewrite Hht. cbn [map_err result_bind]. rewrite Hh. cbn [map_err result_bind ok_or].
  rewrite (proj2 (decode_header_ok hb header)) by done. cbn [result_bind].
  rewrite (prepared_registry _ _ _ Hp), bool_decide_eq_false_2 by tauto. cbn [reject_if result_bind].
  rewrite Hpt. cbn [map_err result_bind]. rewrite Hi. cbn [map_err result_bind].
  destruct (prepared_rows _ _ _ Hp) as (hs & Hrows & Ho & He & Hin).
  rewrite (count_rows header histories hs _ Hrows) by apply (prepared_sorted _ _ _ Hp).
  cbn [result_bind]. unfold counts_mismatch. cbn.
  rewrite (prepared_packages _ _ _ Hp), (prepared_observations _ _ _ Hp), (prepared_eligible _ _ _ Hp).
  rewrite (prepared_incomplete _ _ _ Hp), (prepared_manifest _ _ _ Hp), Ho, He, Hin, Hgen.
  rewrite !N.eqb_refl, !bool_decide_eq_false_2 by tauto. done.
Qed.

Lemma prepared_opens input header hb histories database :
  generation_contents input = Ok (header, (hb, histories)) → validate_header header = Ok tt →
  database_holds database hb histories →
  loader_of_database database (build_registry_id input)
    = Ok (mk_ReadOnlySnapshotCandidateLoader database header (source_indexes_of (header_sources header))).
Proof.
  intros (Hp & _ & Henc)%generation_contents_ok Hv [(read & ht & pt & Hr & Hht & Hpt & Hh & _ & _ & Hl)].
  unfold loader_of_database. rewrite Hr. cbn [map_err result_bind].
  rewrite Hht. cbn [map_err result_bind]. rewrite Hh. cbn [map_err result_bind ok_or].
  rewrite (proj2 (decode_header_ok hb header)) by done. cbn [map_err result_bind].
  rewrite (prepared_registry _ _ _ Hp), bool_decide_eq_false_2 by tauto.
  rewrite Hpt. cbn [map_err result_bind]. rewrite Hl. cbn [map_err result_bind].
  by rewrite (prepared_packages _ _ _ Hp), N.eqb_refl.
Qed.

(** ** Serving the histories of the input *)

Lemma find_remapped remap observations os id :
  try_map (remap_observation remap) observations = Ok os →
  option_Forall2 (λ o p, observation_fields o = observation_fields p)
    (List.find (λ candidate, N.eqb (observation_id candidate) id) os)
    (List.find (λ candidate, N.eqb (observation_id candidate) id) observations).
Proof.
  intros Hos%try_map_ok. induction Hos as [|o p l k Ho _ IH]; simpl; [constructor|].
  unfold remap_observation in Ho. case_match; [|done]. injection Ho as <-. simpl.
  destruct (N.eqb _ id); [by constructor|done].
Qed.

(** The new indexes of the sources do not change what is quarantined. *)
Lemma quarantined_remapped remap h os :
  try_map (remap_observation remap) (history_observations h) = Ok os →
  quarantined_candidates (with_observations h os) = quarantined_candidates h.
Proof.
  intros Hos. unfold quarantined_candidates. cbn. do 3 f_equal. apply list_fmap_ext. intros _ d _.
  apply list_omap_ext, Forall_Forall2_diag, Forall_true. intros id. unfold quarantined_candidate. cbn.
  destruct (find_remapped _ _ _ id Hos) as [o p Hf|]; [|done]. simpl. by rewrite Hf.
Qed.

Lemma valid_served n h : history_valid n h → ∃ l, Forall2 served (history_eligible_releases h) l.
Proof.
  intros Hv. pose proof (valid_releases _ _ Hv) as Hr.
  induction Hr as [|w ws (_ & _ & r & Hw) _ [l Hl]]; [by exists []|].
  exists (mk_RawCandidateObservation r (currentness_to_domain (eligible_currentness w)) :: l).
  constructor; [|done]. split; [|done]. by apply release_to_domain_ok.
Qed.

(** What the loader answers for a history of the input. *)
Definition answers (h : PackageHistoryV1) (answer : result RawCandidateLoadResult CandidateLoadError) :
    Prop :=
  match history_state h with
  | LookupPresent => ∃ res, answer = Ok res ∧
      Forall2 served (history_eligible_releases h) (raw_observations res) ∧
      raw_quarantined res = quarantined_candidates h
  | LookupIncomplete => answer = Err (package_metadata_invalid
      "package history is incomplete and cannot provide candidates")
  end.

Lemma stored_answers remap self h entry name :
  stored remap (length (header_sources (loader_header self))) h entry →
  history_package h = PackageName_as_str name →
  answers h (releases_of_history self name entry.2).
Proof.
  intros (os & Hos & Hkey & Hv & Henc) Hname. set (h' := with_observations h os) in *.
  assert (decode_history entry.2 = Ok h') as Hdec.
  { apply (row_decode (length (header_sources (loader_header self)))). by split_and!. }
  unfold answers. destruct (history_state h) eqn:Hstate.
  - destruct (valid_served _ _ Hv) as [l Hl].
    exists (mk_RawCandidateLoadResult l (quarantined_candidates h)). split_and!; [|done|done].
    apply releases_of_history_ok. exists h'. split_and!; try done.
    symmetry. by apply (quarantined_remapped remap).
  - unfold releases_of_history. rewrite Hdec. cbn [map_err result_bind].
    change (history_package h') with (history_package h). rewrite bool_decide_eq_false_2 by tauto.
    rewrite (proj2 (validate_history_ok _ _ _) Hv). cbn [map_err result_bind].
    change (history_state h') with (history_state h). by rewrite Hstate.
Qed.

(** The answer for a package without a history. *)
Definition missing_answer (state : string) (name : PackageName) : CandidateLoadError :=
  if bool_decide (state = "complete")
  then CandidateLoadError_new NotFound
         ("metadata snapshot has no candidates for " +:+ PackageName_as_str name)
  else CandidateLoadError_new MetadataInvalid
         ("metadata snapshot is partial for missing package " +:+ PackageName_as_str name).

Lemma prepared_load input header hb histories database :
  prepared input header histories → database_holds database hb histories →
  let loader := mk_ReadOnlySnapshotCandidateLoader database header
                  (source_indexes_of (header_sources header)) in
  ∀ name,
    (∀ h, h ∈ build_histories input → history_package h = PackageName_as_str name →
       answers h (snapshot_load loader (KeyInstalledName name))) ∧
    ((∀ h, h ∈ build_histories input → history_package h ≠ PackageName_as_str name) →
       snapshot_load loader (KeyInstalledName name)
         = Err (missing_answer (coverage_state (build_coverage input)) name)).
Proof.
  intros Hp [(read & ht & pt & Hr & _ & Hpt & _ & Hget & _)] loader name.
  destruct Hp as [(remap & entries & Hes & Hperm) Hs _ _ _ _ _ _ Hcov].
  assert (snapshot_load loader (KeyInstalledName name) =
    match bt_get str_cmp (PackageName_as_str name) histories with
    | None => Err (missing_answer (coverage_state (build_coverage input)) name)
    | Some value => releases_of_history loader name value
    end) as ->.
  { simpl. unfold releases_for_name. cbn [loader_database loader]. rewrite Hr. cbn [map_err result_bind].
    rewrite Hpt. cbn [map_err result_bind]. rewrite Hget. cbn [map_err result_bind].
    destruct (bt_get _ _ _); [done|]. unfold missing_answer. cbn. rewrite Hcov. by case_bool_decide. }
  split.
  - intros h [i Hi]%list_elem_of_lookup Hname.
    destruct (Forall2_lookup_l _ _ _ _ _ Hes Hi) as (entry & He & Hst).
    assert (entry ∈ histories) as Hin by (rewrite Hperm; by eapply list_elem_of_lookup_2).
    destruct entry as [k v]. pose proof Hst as (_ & _ & Hk & _). simpl in Hk.
    rewrite (bt_in_get str_cmp _ v) by (done || by rewrite <-Hname, <-Hk).
    by apply (stored_answers remap loader h (k, v)).
  - intros Hnone. destruct (bt_get _ _ _) as [v|] eqn:E; [|done].
    apply (bt_get_in str_cmp) in E as (k & Hk%(cmp_eq_leibniz str_cmp) & Hin). subst k.
    rewrite Hperm in Hin. apply list_elem_of_lookup in Hin as [i Hi].
    destruct (Forall2_lookup_r _ _ _ _ _ Hes Hi) as (h & Hh & (_ & _ & Hname & _)).
    destruct (Hnone h); [by eapply list_elem_of_lookup_2|by symmetry].
Qed.

(** C15: A generation that was prepared with a valid header, read back from a database
    that holds what was written, passes the full validation, counts and manifest included, and can be
    opened; the loader then serves exactly the input: the releases and the
    quarantined versions of every present history, an error for an incomplete
    one, and for any other package its absence, or that the snapshot is partial. *)
Theorem prepared_generation_served input header hb histories database :
  generation_contents input = Ok (header, (hb, histories)) → validate_header header = Ok tt →
  database_holds database hb histories →
  validate_database database (build_registry_id input) = Ok header ∧
  ∃ loader, loader_of_database database (build_registry_id input) = Ok loader ∧
  ∀ name,
    (∀ h, h ∈ build_histories input → history_package h = PackageName_as_str name →
       answers h (snapshot_load loader (KeyInstalledName name))) ∧
    ((∀ h, h ∈ build_histories input → history_package h ≠ PackageName_as_str name) →
       snapshot_load loader (KeyInstalledName name)
         = Err (missing_answer (coverage_state (build_coverage input)) name)).
Proof.
  intros Hg Hv Hdb. split; [by eapply prepared_validates|]. eexists.
  split; [by eapply prepared_opens|]. pose proof Hg as (Hp & _)%generation_contents_ok.
  by eapply prepared_load.
Qed.
End publish.
