(* ===== verification/Evidence.v ===== *)
(** * Composition of CRAN evidence ([rsolve-provider/src/cran/evidence.rs], [evidence/])

    Observations of packages, each with its source, its state on several axes and
    perhaps a release, become the contents of a snapshot: sources and observations
    are put in order, the releases of each package are decided on and merged, and
    what is eligible is written as it will be stored.  The theorems are in
    [EvidenceLaws] and the files that follow it. *)

From S2P Require Import Prelude RustStd Collections Externals Text Format Versions Names Publication.
From S2P Require Import Identity Constraints Digest Metadata Snapshot SnapshotValidation SnapshotCodec Catalog.

(** ** Data ([evidence/types.rs]) *)

(** The registry of an artifact's distribution. *)
Inductive DistributionRegistryBinding :=
| ConfiguredContext
| Explicit (registry : RegistryId).

Definition DistributionRegistryBinding_resolve (self : DistributionRegistryBinding)
    (configured : RegistryId) : RegistryId :=
  match self with ConfiguredContext => configured | Explicit registry => registry end.

Inductive EvidenceCompositionError :=
| EvidenceInvalid (message : string)
| Conflict (identity field : string).

Definition EvidenceCompositionError_fmt (e : EvidenceCompositionError) : string :=
  match e with
  | EvidenceInvalid message => message
  | Conflict identity field => "conflicting " +:+ field +:+ " for CRAN release " +:+ identity
  end.

Record SnapshotCompositionContext := mk_SnapshotCompositionContext {
  context_registry_id : RegistryId;
  context_compatibility_profile : N;
  context_parser_schema : N;
  context_normalization_policy : N;
  context_created_at : string;
  context_producer : string;
  context_coverage : CoverageV1;
}.

(** Equality of the stored values. *)
#[export] Instance FieldV1_eq_dec : EqDecision FieldV1.
Proof. solve_decision. Defined.
#[export] Instance ChecksumV1_eq_dec : EqDecision ChecksumV1.
Proof. solve_decision. Defined.
#[export] Instance OccurrenceArtifactV1_eq_dec : EqDecision OccurrenceArtifactV1.
Proof. solve_decision. Defined.
#[export] Instance ArtifactV1_eq_dec : EqDecision ArtifactV1.
Proof. solve_decision. Defined.
#[export] Instance EvidenceRoleV1_eq_dec : EqDecision EvidenceRoleV1.
Proof. solve_decision. Defined.
#[export] Instance CandidateCurrentnessV1_eq_dec : EqDecision CandidateCurrentnessV1.
Proof. solve_decision. Defined.
#[export] Instance SourceInput_eq_dec : EqDecision SourceInput.
Proof. solve_decision. Defined.

Section evidence.
Context `{CivilDate, Sha2, UnicodeTables}.
Context `{!JsonBytes (list FieldV1 * option OccurrenceArtifactV1)}.

Record CranEvidenceObservation := mk_CranEvidenceObservation {
  cran_source : SourceInput;
  cran_package : PackageName;
  cran_record_index : N;
  cran_fields : list FieldV1;
  cran_artifact : option OccurrenceArtifactV1;
  cran_axes : EvidenceAxesV1;
  cran_currentness : CandidateCurrentnessV1;
  cran_release : option PackageRelease;
  cran_distribution_registry : DistributionRegistryBinding;
  cran_scope : CranCatalogRecordScope;
}.

Record IndexedObservation := mk_IndexedObservation {
  indexed_source_index : N;
  indexed_package : PackageName;
  indexed_record_index : N;
  indexed_fields : list FieldV1;
  indexed_artifact : option OccurrenceArtifactV1;
  indexed_axes : EvidenceAxesV1;
  indexed_currentness : CandidateCurrentnessV1;
  indexed_release : option PackageRelease;
  indexed_distribution_registry : DistributionRegistryBinding;
  indexed_scope : CranCatalogRecordScope;
}.

Record PendingRelease := mk_PendingRelease {
  pending_release : PackageRelease;
  pending_distributions : list Distribution;
  pending_observations : list (nat * list EvidenceRoleV1);
  pending_currentness : CandidateCurrentnessV1;
}.

Definition IdentityKey : Type := PackageName * RPackageVersion.
Definition identity_key_cmp : IdentityKey → IdentityKey → comparison :=
  pair_cmp PackageName_cmp RPackageVersion_cmp.

Record IndexedInput := mk_IndexedInput {
  input_sources : list (string * SourceInput);
  input_source_ids : list string;
  input_observations : list IndexedObservation;
  input_package_indexes : list (PackageName * list nat);
}.

(** ** Ordering the observations ([evidence/indexing.rs]) *)

Definition same_source (left right : SourceInput) : bool :=
  bool_decide (input_kind left = input_kind right)
  && bool_decide (input_representation left = input_representation right)
  && bool_decide (input_content_sha256 left = input_content_sha256 right)
  && bool_decide (input_etag left = input_etag right)
  && bool_decide (input_last_modified left = input_last_modified right)
  && bool_decide (input_observed_at left = input_observed_at right)
  && bool_decide (input_endpoint left = input_endpoint right).

(** The id of a source; [source_observation] cannot fail. *)
Definition source_id_of (observation : CranEvidenceObservation) : string :=
  source_id (source_observation (cran_source observation)).

Definition collect_source (sources : list (string * SourceInput))
    (observation : CranEvidenceObservation) :
    result (list (string * SourceInput)) EvidenceCompositionError :=
  let id := source_id_of observation in
  match bt_get str_cmp id sources with
  | Some existing =>
    if negb (same_source existing (cran_source observation))
    then Err (EvidenceInvalid ("source id " +:+ id +:+ " has conflicting descriptors"))
    else Ok sources
  | None => Ok (bt_insert str_cmp id (cran_source observation) sources)
  end.

Definition index_observation (source_indexes : list (string * N))
    (observation : CranEvidenceObservation) : result IndexedObservation EvidenceCompositionError :=
  let? source_index := ok_or (EvidenceInvalid "source index was not allocated")
                         (bt_get str_cmp (source_id_of observation) source_indexes) in
  Ok {| indexed_source_index := source_index;
        indexed_package := cran_package observation;
        indexed_record_index := cran_record_index observation;
        indexed_fields := cran_fields observation;
        indexed_artifact := cran_artifact observation;
        indexed_axes := cran_axes observation;
        indexed_currentness := cran_currentness observation;
        indexed_release := cran_release observation;
        indexed_distribution_registry := cran_distribution_registry observation;
        indexed_scope := cran_scope observation |}.

Definition set_artifact (artifact : OccurrenceArtifactV1) (o : IndexedObservation) :
    IndexedObservation :=
  mk_IndexedObservation (indexed_source_index o) (indexed_package o) (indexed_record_index o)
    (indexed_fields o) (Some artifact) (indexed_axes o) (indexed_currentness o)
    (indexed_release o) (indexed_distribution_registry o) (indexed_scope o).

(** [sort_by] on the algorithm and the value, then [dedup]. *)
Definition sort_checksums (checksums : list ChecksumV1) : list ChecksumV1 :=
  dedup_by (λ x y, bool_decide (x = y))
    (sort_by (cmp_on checksum_order_key (pair_cmp str_cmp str_cmp)) checksums).

Definition canonical_artifact (o : IndexedObservation) :
    result IndexedObservation EvidenceCompositionError :=
  match indexed_artifact o with
  | None => Ok o
  | Some artifact =>
    if existsb (λ c, bool_decide (checksum_algorithm c ≠ to_ascii_lowercase (checksum_algorithm c)))
         (occurrence_checksums artifact)
    then Err (EvidenceInvalid "occurrence checksum algorithm must be lowercase")
    else Ok (set_artifact
               (mk_OccurrenceArtifactV1 (occurrence_locator artifact)
                  (sort_checksums (occurrence_checksums artifact)) (occurrence_size artifact)) o)
  end.

Definition payload_key (o : IndexedObservation) :
    result (ObservationOrderKey * IndexedObservation) EvidenceCompositionError :=
  let? payload_key :=
    map_err (λ error, EvidenceInvalid
      ("unable to encode observation payload sort key at source index "
         +:+ N_to_string (indexed_source_index o) +:+ " record index "
         +:+ N_to_string (indexed_record_index o) +:+ ": " +:+ error))
      (json_to_vec (indexed_fields o, indexed_artifact o)) in
  Ok ((indexed_source_index o, (indexed_record_index o, payload_key)), o).

Definition same_payload (x y : IndexedObservation) : bool :=
  N.eqb (indexed_source_index x) (indexed_source_index y)
  && N.eqb (indexed_record_index x) (indexed_record_index y)
  && bool_decide (indexed_fields x = indexed_fields y)
  && bool_decide (indexed_artifact x = indexed_artifact y).

Definition validate_publication_axis (o : IndexedObservation) :
    result unit EvidenceCompositionError :=
  let has_publication := bool_decide (is_Some (release ← indexed_release o; release_publication release)) in
  let consistent := match axes_publication (indexed_axes o) with
                    | PublicationDated => has_publication
                    | PublicationUnknown => negb has_publication
                    | PublicationConflicting => true
                    end in
  if consistent then Ok tt
  else Err (EvidenceInvalid "publication axis does not match validated release publication").

Definition validate_release_identity (release : PackageRelease) (package : PackageName) :
    result unit EvidenceCompositionError :=
  if negb (ReleaseIdentity_name (release_identity release) =?= package)
     || negb (match ReleaseIdentity_provenance (release_identity release) with
              | RegistryRelease namespace _ => bool_decide (Identifier_as_str namespace = "cran")
              | _ => false
              end)
  then Err (EvidenceInvalid "observation release is not a CRAN registry identity for its package")
  else Ok tt.

Definition validate_dependency_sources (release : PackageRelease) :
    result unit EvidenceCompositionError :=
  if existsb (λ dependency, match requirement_source (declared_package dependency) with
                            | SourceAny => false
                            | _ => true
                            end) (release_dependencies release)
  then Err (EvidenceInvalid "CRAN snapshot dependencies must use the any source constraint")
  else Ok tt.

Definition validate_artifact_axis (index : nat) (o : IndexedObservation) :
    result unit EvidenceCompositionError :=
  match axes_occurrence (indexed_axes o), indexed_artifact o with
  | OccurrenceArtifactBound, None | OccurrenceObservationOnly, Some _ =>
    Err (EvidenceInvalid ("observation " +:+ nat_to_string index
                            +:+ " has inconsistent occurrence artifact axis"))
  | _, _ => Ok tt
  end.

(** One observation of the last loop. *)
Definition group_observation (indexes : list (PackageName * list nat))
    (entry : nat * IndexedObservation) :
    result (list (PackageName * list nat)) EvidenceCompositionError :=
  let '(index, o) := entry in
  let? _ := validate_artifact_axis index o in
  let? _ := validate_publication_axis o in
  let? _ := match indexed_release o with
            | Some release =>
              let? _ := validate_release_identity release (indexed_package o) in
              validate_dependency_sources release
            | None => Ok tt
            end in
  Ok (bt_push PackageName_cmp (indexed_package o) index indexes).

Definition index_observations (observations : list CranEvidenceObservation) :
    result IndexedInput EvidenceCompositionError :=
  let? sources := try_fold collect_source [] observations in
  let source_ids := sources.*1 in
  let source_indexes :=
    bt_from_iter str_cmp ((λ entry, (entry.2, as_u32 entry.1)) <$> indexed source_ids) in
  let? observed := try_map (index_observation source_indexes) observations in
  let? observed := try_map canonical_artifact observed in
  let? keyed := try_map payload_key observed in
  let observed := (sort_by (cmp_on fst observation_key_cmp) keyed).*2 in
  if existsb (λ pair, same_payload pair.1 pair.2) (windows2 observed)
  then Err (EvidenceInvalid "duplicate source observation ordinal and payload")
  else
    let? package_indexes := try_fold group_observation [] (indexed observed) in
    Ok (mk_IndexedInput sources source_ids observed package_indexes).

(** ** Distributions of an observation ([evidence/projection.rs]) *)

Definition domain_checksum (checksum : ChecksumV1) :
    result UpstreamChecksum EvidenceCompositionError :=
  if bool_decide (checksum_algorithm checksum = "sha256")
  then let? digest := map_err (λ e, EvidenceInvalid (DigestError_fmt e))
                        (Sha256Digest_new (checksum_value checksum)) in
       Ok (ChecksumSha256 digest)
  else if bool_decide (checksum_algorithm checksum = "md5")
  then Ok (Md5 (checksum_value checksum))
  else Ok (Other (checksum_algorithm checksum) (checksum_value checksum)).

(** A template with the registry set and without artifacts. *)
Definition emptied (template : Distribution) (registry : RegistryId) : Distribution :=
  mk_Distribution registry (channel template) (snapshot template) [] (observed_metadata template).

Definition template_distribution (templates : list Distribution) (registry : RegistryId) :
    result Distribution EvidenceCompositionError :=
  match templates with
  | [] => Ok (mk_Distribution registry (mk_Identifier "source") None [] (mk_DistributionMetadata []))
  | [template] => Ok (emptied template registry)
  | _ =>
    match List.filter (λ template, Identity.registry template =?= registry) templates with
    | [template] => Ok (emptied template registry)
    | _ => Err (EvidenceInvalid "artifact-bound observation has ambiguous distribution templates")
    end
  end.

(** The distribution has no artifacts yet, so the artifact is always pushed. *)
Definition with_artifact (artifact : Artifact) (d : Distribution) : Distribution :=
  mk_Distribution (registry d) (channel d) (snapshot d)
    (if bool_decide (artifact ∈ artifacts d) then artifacts d else artifacts d ++ [artifact])
    (observed_metadata d).

Definition distributions_for_observation (release : PackageRelease) (o : IndexedObservation)
    (configured_registry : RegistryId) : result (list Distribution) EvidenceCompositionError :=
  if negb (is_root (indexed_scope o)) then Ok []
  else match axes_occurrence (indexed_axes o), indexed_artifact o with
  | OccurrenceArtifactBound, Some artifact =>
    let registry := DistributionRegistryBinding_resolve (indexed_distribution_registry o)
                      configured_registry in
    let? distribution := template_distribution (release_distributions release) registry in
    let? locator := map_err (λ e, EvidenceInvalid (IdentifierError_fmt e))
                      (Identifier_new KArtifactLocator (occurrence_locator artifact)) in
    let? upstream_checksums := try_map domain_checksum (occurrence_checksums artifact) in
    Ok [with_artifact
          (Source (mk_SourceArtifact locator upstream_checksums (occurrence_size artifact)))
          distribution]
  | _, _ => Ok []
  end.

(** ** Writing a release ([evidence/projection.rs]) *)

Definition relation_op (op : RelationOp) : RelationOpV1 :=
  match op with
  | OpLt => OpV1Lt | OpLe => OpV1Le | OpEq => OpV1Eq | OpNe => OpV1Ne | OpGe => OpV1Ge | OpGt => OpV1Gt
  end.

Definition dependency_kind_to_wire (kind : DependencyKind) : DependencyKindV1 :=
  match kind with
  | Depends => KindV1Depends
  | Imports => KindV1Imports
  | LinkingTo => KindV1LinkingTo
  | Suggests => KindV1Suggests
  | Enhances => KindV1Enhances
  end.

(** The keys are those of [validation.rs], with errors of their own. *)
Definition evidence_clause_key (clause : ClauseV1) : result ClauseOrderKey EvidenceCompositionError :=
  let? version := map_err (λ e, EvidenceInvalid (RPackageVersionError_fmt e))
                    (RPackageVersion_parse (clauseV1_version clause)) in
  Ok (relation_rank (clauseV1_op clause),
      (canonical_version_components version, clauseV1_version clause)).

Definition evidence_dependency_key (dependency : DependencyV1) :
    result DependencyOrderKey EvidenceCompositionError :=
  let? clauses := try_map evidence_clause_key (dependency_clauses dependency) in
  Ok (dependency_rank (dependency_kind dependency), (dependency_package dependency, clauses)).

(** Keys, sorting by them, and dropping what has the key of its predecessor. *)
Definition sort_keyed {A K} `{EqDecision K} (key : A → result K EvidenceCompositionError) (c : K → K → comparison)
    (l : list A) : result (list A) EvidenceCompositionError :=
  let? keyed := try_map (λ x, let? k := key x in Ok (k, x)) l in
  Ok ((dedup_by (λ left right, bool_decide (left.1 = right.1)) (sort_by (cmp_on fst c) keyed)).*2).

Definition clause_to_wire (clause : VersionClause) : ClauseV1 :=
  mk_ClauseV1 (relation_op (clause_op clause)) (RPackageVersion_fmt (clause_version clause)).

Definition dependency_to_wire (dependency : DeclaredDependency) :
    result DependencyV1 EvidenceCompositionError :=
  let package := declared_package dependency in
  let? clauses := sort_keyed evidence_clause_key clause_key_cmp
                    (clause_to_wire <$> clauses (requirement_constraint package)) in
  Ok (mk_DependencyV1 (dependency_kind_to_wire (declared_kind dependency))
        (PackageName_as_str (requirement_name package)) clauses).

Definition checksum_to_wire (checksum : UpstreamChecksum) : ChecksumV1 :=
  match checksum with
  | Md5 value => mk_ChecksumV1 "md5" value
  | ChecksumSha256 value => mk_ChecksumV1 "sha256" (Sha256Digest_as_str value)
  | Other algorithm value => mk_ChecksumV1 algorithm value
  end.

Definition artifact_wire_key (artifact : ArtifactV1) : ArtifactOrderKey :=
  (artifact_locator artifact,
   (checksum_order_key <$> artifact_upstream_checksums artifact, artifact_size artifact)).

Definition artifact_to_wire (artifact : Artifact) : ArtifactV1 :=
  match artifact with
  | Source source =>
    mk_ArtifactV1 (Identifier_as_str (locator source))
      (sort_checksums (checksum_to_wire <$> upstream_checksums source)) (size source)
  end.

Definition fields_to_wire (fields : Fields) : list FieldV1 :=
  sort_by (cmp_on field_name str_cmp) ((λ f, mk_FieldV1 f.1 f.2) <$> fields).

(** It cannot fail. *)
Definition distribution_to_wire (d : Distribution) : DistributionV1 :=
  {| distribution_registry := Identifier_as_str (registry d);
     distribution_channel := Identifier_as_str (channel d);
     distribution_snapshot := Identifier_as_str <$> snapshot d;
     distribution_artifacts :=
       dedup_by (λ x y, bool_decide (x = y))
         (sort_by (cmp_on artifact_wire_key artifact_key_cmp) (artifact_to_wire <$> artifacts d));
     distribution_metadata := fields_to_wire (metadata_fields (observed_metadata d)) |}.

(** [iter().position(|candidate| candidate == index)] *)
Definition position (index : nat) (l : list nat) : option nat :=
  fst <$> list_find (λ candidate, candidate = index) l.

Definition evidence_to_wire (package_indexes : list nat) (observed : nat * list EvidenceRoleV1) :
    result EvidenceReferenceV1 EvidenceCompositionError :=
  let? observation_id := ok_or (EvidenceInvalid "release evidence escaped its package")
                           (position observed.1 package_indexes) in
  Ok (mk_EvidenceReferenceV1 (as_u32 observation_id) observed.2).

(** [u8::from_str_radix] of the 32 pairs of a digest, which are hexadecimal. *)
Definition parse_digest (value : Sha256Digest) : result (list byte) EvidenceCompositionError :=
  map_err (λ _, EvidenceInvalid "invalid digit found in string")
    (parse_hex_pairs (bytes (Sha256Digest_as_str value))).

Definition to_wire_release (pending : PendingRelease) (package_indexes : list nat) :
    result EligibleReleaseV1 EvidenceCompositionError :=
  let release := pending_release pending in
  let? dependencies := try_map dependency_to_wire (release_dependencies release) in
  let? dependencies := sort_keyed evidence_dependency_key dependency_key_cmp dependencies in
  let distributions := sort_by (cmp_on distribution_order_key distribution_key_cmp)
                         (distribution_to_wire <$> pending_distributions pending) in
  let? evidence := try_map (evidence_to_wire package_indexes) (pending_observations pending) in
  let? metadata_sha256 := parse_digest (release_metadata_digest release) in
  Ok {| eligible_package := PackageName_as_str (ReleaseIdentity_name (release_identity release));
        eligible_version := RPackageVersion_fmt (release_version release);
        eligible_namespace := "cran";
        eligible_git_provenance := None;
        eligible_currentness := pending_currentness pending;
        eligible_metadata := fields_to_wire (release_fields (release_metadata release));
        eligible_publication :=
          (λ p, PublicationDate_as_str (ReleasePublication_date p)) <$> release_publication release;
        eligible_dependencies := dependencies;
        eligible_distributions := distributions;
        eligible_metadata_sha256 := metadata_sha256;
        eligible_evidence := evidence |}.

(** ** Merging a group ([evidence/release.rs]) *)

Definition DependencySemanticKey : Type := N * (string * list (N * list N)).
Definition semantic_clause_cmp : N * list N → N * list N → comparison :=
  pair_cmp N.compare (lex_cmp N.compare).
Definition semantic_key_cmp : DependencySemanticKey → DependencySemanticKey → comparison :=
  pair_cmp N.compare (pair_cmp str_cmp (lex_cmp semantic_clause_cmp)).

(** [sort] then [dedup]. *)
Definition sorted_set {A} `{EqDecision A} (c : A → A → comparison) (l : list A) : list A :=
  dedup_by (λ x y, bool_decide (x = y)) (sort_by c l).

Definition semantic_clause (clause : VersionClause) : result (N * list N) EvidenceCompositionError :=
  let? version := map_err (λ e, EvidenceInvalid (RPackageVersionError_fmt e))
                    (RPackageVersion_parse (RPackageVersion_fmt (clause_version clause))) in
  Ok (relation_rank (relation_op (clause_op clause)), canonical_version_components version).

Definition semantic_key (dependency : DeclaredDependency) :
    result DependencySemanticKey EvidenceCompositionError :=
  let package := declared_package dependency in
  let? clauses := try_map semantic_clause (clauses (requirement_constraint package)) in
  Ok (kind_byte (declared_kind dependency),
      (PackageName_as_str (requirement_name package), sorted_set semantic_clause_cmp clauses)).

Definition canonical_dependency_semantics (dependencies : list DeclaredDependency) :
    result (list DependencySemanticKey) EvidenceCompositionError :=
  let? keys := try_map semantic_key dependencies in
  Ok (sorted_set semantic_key_cmp keys).

(** [metadata] is a map from lower-case names to fields. *)
Definition merge_field (label : string) (metadata : list (string * (string * string)))
    (f : string * string) : result (list (string * (string * string))) EvidenceCompositionError :=
  let normalized := to_ascii_lowercase f.1 in
  match bt_get str_cmp normalized metadata with
  | Some existing =>
    if bool_decide (existing.2 ≠ f.2) then Err (Conflict label "metadata") else Ok metadata
  | None => Ok (bt_insert str_cmp normalized f metadata)
  end.

Definition merge_publication (label : string) (publication : option ReleasePublication)
    (release : PackageRelease) : result (option ReleasePublication) EvidenceCompositionError :=
  match release_publication release, publication with
  | None, _ => Ok publication
  | Some value, Some existing =>
    if bool_decide (existing ≠ value) then Err (Conflict label "publication") else Ok (Some value)
  | Some value, None => Ok (Some value)
  end.

Definition same_place (d incoming : Distribution) : bool :=
  (registry d =?= registry incoming) && (channel d =?= channel incoming)
  && (snapshot d =?= snapshot incoming).

Definition merge_distribution_field (label : string) (fields : Fields) (f : string * string) :
    result Fields EvidenceCompositionError :=
  match bt_get str_cmp f.1 fields with
  | Some existing =>
    if bool_decide (existing ≠ f.2) then Err (Conflict label "distribution metadata") else Ok fields
  | None => Ok (bt_insert str_cmp f.1 f.2 fields)
  end.

Definition push_artifact (l : list Artifact) (artifact : Artifact) : list Artifact :=
  if bool_decide (artifact ∈ l) then l else l ++ [artifact].

(** The first distribution of the same place is extended. *)
Fixpoint merge_distribution (label : string) (incoming : Distribution) (l : list Distribution) :
    result (list Distribution) EvidenceCompositionError :=
  match l with
  | [] => Ok [incoming]
  | existing :: l =>
    if same_place existing incoming then
      let? fields := try_fold (merge_distribution_field label)
                       (metadata_fields (observed_metadata existing))
                       (metadata_fields (observed_metadata incoming)) in
      Ok (mk_Distribution (registry existing) (channel existing) (snapshot existing)
            (foldl push_artifact (artifacts existing) (artifacts incoming))
            (mk_DistributionMetadata fields) :: l)
    else let? l := merge_distribution label incoming l in Ok (existing :: l)
  end.

Definition semantics_authoritative (axes : EvidenceAxesV1) : bool :=
  match axes_semantics axes with
  | SemanticsComplete | SemanticsVerifiedEmpty => true
  | SemanticsIncomplete | SemanticsInvalid => false
  end.

Definition evidence_roles_of (o : IndexedObservation) (observed_distributions : list Distribution) :
    list EvidenceRoleV1 :=
  let artifact := bool_decide (is_Some (indexed_artifact o))
                  && negb (bool_decide (observed_distributions = [])) in
  let dated := match axes_publication (indexed_axes o) with PublicationDated => true | _ => false end in
  dedup_by (λ x y, bool_decide (x = y))
    (sort_by (cmp_on role_rank N.compare)
       ([RoleIdentity] ++ (if artifact then [RoleArtifact] else [])
          ++ (if dated then [RolePublication] else [])
          ++ (if semantics_authoritative (indexed_axes o) then [RoleSemantics] else []))).

Section composition.
Context (observations : list IndexedObservation) (configured_registry : RegistryId).

Definition Entry : Type := nat * PackageRelease.

(** An entry of the loop over distributions and evidence; its index is in bounds. *)
Definition collect_evidence (label : string)
    (acc : list Distribution * list (nat * list EvidenceRoleV1)) (entry : Entry) :
    result (list Distribution * list (nat * list EvidenceRoleV1)) EvidenceCompositionError :=
  match observations !! entry.1 with
  | None => Ok acc
  | Some o =>
    let? observed := distributions_for_observation entry.2 o configured_registry in
    let? distributions := try_fold (λ l d, merge_distribution label d l) acc.1 observed in
    Ok (distributions, acc.2 ++ [(entry.1, evidence_roles_of o observed)])
  end.

Definition is_current (entry : Entry) : bool :=
  match observations !! entry.1 with
  | Some o => bool_decide (indexed_currentness o = CurrentV1)
  | None => false
  end.

(** The first entry, and the first authoritative one; the lists are not empty. *)
Definition merge_release_group (first : PackageRelease) (entries : list Entry)
    (authority : PackageRelease) (authoritative : list Entry) :
    result PendingRelease EvidenceCompositionError :=
  let identity := release_identity first in
  let label := PackageName_as_str (ReleaseIdentity_name identity) +:+ "@"
                 +:+ RPackageVersion_fmt (release_version first) in
  let? metadata := try_fold (merge_field label) []
                     (mjoin ((λ entry, release_fields (release_metadata entry.2)) <$> entries)) in
  let dependencies := release_dependencies authority in
  let? dependency_key := canonical_dependency_semantics dependencies in
  let? _ := try_each (λ entry,
              let? key := canonical_dependency_semantics (release_dependencies entry.2) in
              if bool_decide (key ≠ dependency_key) then Err (Conflict label "dependencies") else Ok tt)
              (drop 1 authoritative) in
  let? publication := try_fold (merge_publication label) None entries.*2 in
  let? (distributions, evidence) := try_fold (collect_evidence label) ([], []) entries in
  let currentness := if existsb is_current entries then CurrentV1 else HistoricalV1 in
  let? metadata := map_err (λ e, EvidenceInvalid ("merged metadata is invalid: "
                                                    +:+ ReleaseMetadataError_fmt e))
                     (ReleaseMetadata_from_pairs (bt_values metadata)) in
  let? merged := map_err (λ e, EvidenceInvalid ("merged CRAN release is invalid: "
                                                  +:+ PackageReleaseError_fmt e))
    (PackageRelease_try_from
       {| observed_identity := identity; observed_package := ReleaseIdentity_name identity;
          observed_version := release_version first; observed_release_metadata := metadata;
          observed_publication := publication; observed_dependencies := dependencies;
          observed_distributions := distributions |}) in
  let? _ := map_err (λ e, EvidenceInvalid (PackageReleaseError_fmt e))
              (observe_release ReleaseAggregation_new merged) in
  Ok (mk_PendingRelease merged distributions evidence currentness).

(** ** Deciding what is eligible ([evidence/eligibility.rs]) *)

Definition completeness_failure (o : IndexedObservation) : option (DecisionCodeV1 * string) :=
  let axes := indexed_axes o in
  match axes_namespace axes with
  | NamespaceRejected => None
  | namespace =>
    match axes_parse axes with
    | ParseRecordInvalid => Some (IncompleteSemantics, "observation record is invalid")
    | ParseValid =>
      match namespace with
      | NamespaceUnresolved => Some (UnresolvedNamespace, "observation namespace is unresolved")
      | _ =>
        match axes_occurrence axes with
        | OccurrenceUnreachable => Some (UnreachableOccurrence, "observation occurrence is unreachable")
        | OccurrenceConflicting => Some (UnreachableOccurrence, "observation occurrence is conflicting")
        | OccurrenceArtifactBound | OccurrenceObservationOnly =>
          match axes_publication axes with
          | PublicationConflicting => Some (IncompleteSemantics, "observation publication is conflicting")
          | _ =>
            match axes_semantics axes with
            | SemanticsInvalid =>
              Some (QuarantinedRelease, "release was quarantined after semantic validation")
            | _ => None
            end
          end
        end
      end
    end
  end.

(** The groups, whether the package is incomplete, and the decisions. *)
Record Triage := mk_Triage {
  triage_groups : list (IdentityKey * list Entry);
  package_incomplete : bool;
  triage_decisions : list DecisionV1;
}.

Definition set_aside_observation (t : Triage) (incomplete : bool) (code : DecisionCodeV1) (index : nat)
    (detail : string) : Triage :=
  mk_Triage (triage_groups t) (package_incomplete t || incomplete)
    (triage_decisions t ++ [mk_DecisionV1 code [as_u32 index] detail]).

Definition is_quarantined (code : DecisionCodeV1) : bool :=
  match code with QuarantinedRelease => true | _ => false end.

Definition triage_observed (t : Triage) (index : nat) (o : IndexedObservation) : Triage :=
  match indexed_scope o with
  | RecommendedOverlay runtime =>
    set_aside_observation t false RecommendedOverlaySuppressed index
      ("Recommended overlay for R " +:+ RPackageVersion_fmt runtime
         +:+ " is retained as raw evidence but excluded from CRAN release eligibility")
  | Root =>
    match completeness_failure o with
    | Some (code, detail) => set_aside_observation t (negb (is_quarantined code)) code index detail
    | None =>
      match axes_namespace (indexed_axes o), indexed_release o with
      | NamespaceRejected, _ => t
      | _, None =>
        set_aside_observation t true IncompleteSemantics index "observation has no validated release semantics"
      | _, Some release =>
        mk_Triage (bt_push identity_key_cmp
                     (ReleaseIdentity_name (release_identity release), release_version release)
                     (index, release) (triage_groups t))
          (package_incomplete t) (triage_decisions t)
      end
    end
  end.

(** The index is in bounds. *)
Definition triage_observation (t : Triage) (index : nat) : Triage :=
  match observations !! index with
  | Some o => triage_observed t index o
  | None => t
  end.

Definition is_authoritative (entry : Entry) : bool :=
  match observations !! entry.1 with
  | Some o => semantics_authoritative (indexed_axes o)
  | None => false
  end.

Record Eligibility := mk_Eligibility {
  eligible_incomplete : bool;
  eligible_decisions : list DecisionV1;
  eligible_pending : list (PendingRelease * RPackageVersion);
}.

(** A group of entries, which is not empty. *)
Definition decide_group (e : Eligibility) (group : IdentityKey * list Entry) :
    result Eligibility EvidenceCompositionError :=
  let '((_, version), entries) := group in
  let authoritative := List.filter is_authoritative entries in
  let observation_ids := (λ entry, as_u32 entry.1) <$> entries in
  match authoritative, entries with
  | (_, authority) :: _, (_, first) :: _ =>
    let? pending := merge_release_group first entries authority authoritative in
    let decisions :=
      if Nat.ltb 1 (length entries) then
        [mk_DecisionV1 EquivalentMerge observation_ids
           "same ReleaseIdentity observations were deterministically enriched"]
      else [] in
    Ok (mk_Eligibility (eligible_incomplete e) (eligible_decisions e ++ decisions)
          (eligible_pending e ++ [(pending, version)]))
  | _, _ =>
    Ok (mk_Eligibility true
          (eligible_decisions e ++
             [mk_DecisionV1 IncompleteSemantics observation_ids
                ("release " +:+ RPackageVersion_fmt version
                   +:+ " has no authoritative dependency semantics")])
          (eligible_pending e))
  end.

Definition raw_observation (entry : nat * nat) : option RawObservationV1 :=
  o ← observations !! entry.2;
  Some (mk_RawObservationV1 (as_u32 entry.1) (indexed_source_index o) (indexed_record_index o)
          (indexed_fields o) (indexed_artifact o) (indexed_axes o)).

(** The ids become positions in the package; sorted, without repetitions. *)
Definition remap_decision (indexes : list nat) (decision : DecisionV1) :
    result DecisionV1 EvidenceCompositionError :=
  let? ids := try_map (λ id, let? i := ok_or (EvidenceInvalid "decision observation escaped its package")
                                         (position (N.to_nat id) indexes) in Ok (as_u32 i))
                (decision_observation_ids decision) in
  Ok (mk_DecisionV1 (decision_code decision) (sorted_set N.compare ids) (decision_detail decision)).

Definition compose_history (package : PackageName) (indexes : list nat) :
    result PackageHistoryV1 EvidenceCompositionError :=
  let t := foldl triage_observation (mk_Triage [] false []) indexes in
  let? e := try_fold decide_group (mk_Eligibility (package_incomplete t) (triage_decisions t) [])
              (triage_groups t) in
  let eligible := if eligible_incomplete e then [] else eligible_pending e in
  let eligible := sort_by (cmp_on snd RPackageVersion_cmp) eligible in
  let? wire_releases := try_map (λ pending, to_wire_release pending.1 indexes) eligible in
  let decisions := sort_by (cmp_on decision_order_key decision_key_cmp) (eligible_decisions e) in
  let? decisions := try_map (remap_decision indexes) decisions in
  Ok {| history_package := PackageName_as_str package;
        history_state := match wire_releases with [] => LookupIncomplete | _ => LookupPresent end;
        history_observations := omap raw_observation (indexed indexes);
        history_decisions := decisions;
        history_eligible_releases := wire_releases |}.
End composition.

(** ** The composition ([evidence.rs]) *)

Definition compose_snapshot (context : SnapshotCompositionContext)
    (observations : list CranEvidenceObservation) :
    result SnapshotBuildInput EvidenceCompositionError :=
  if bool_decide (observations = [])
  then Err (EvidenceInvalid "cannot compose an empty CRAN observation set")
  else
    let? input := index_observations observations in
    let? histories := try_map (λ entry, compose_history (input_observations input)
                                 (context_registry_id context) entry.1 entry.2)
                        (input_package_indexes input) in
    let coverage := context_coverage context in
    if negb (bool_decide (coverage_source_ids coverage = []))
       && negb (bool_decide (coverage_source_ids coverage = input_source_ids input))
    then Err (EvidenceInvalid "coverage source ids do not match composed sources")
    else
      Ok {| build_registry_id := context_registry_id context;
            build_compatibility_profile := context_compatibility_profile context;
            build_parser_schema := context_parser_schema context;
            build_normalization_policy := context_normalization_policy context;
            build_created_at := context_created_at context;
            build_producer := context_producer context;
            build_coverage :=
              mk_CoverageV1 (coverage_state coverage) (coverage_scope coverage)
                (coverage_freshness coverage) (input_source_ids input)
                (coverage_missing_evidence coverage);
            build_sources := (input_sources input).*2;
            build_histories := histories |}.
End evidence.
