(* ===== verification/EvidenceWire.v ===== *)
(** * Composed releases as they are stored

    A release that composition writes is in canonical form, and it is read back
    as the release it was written from. *)

From S2P Require Import Prelude RustStd Collections Externals Text Format Versions Names GitUrl Publication.
From S2P Require Import Identity Constraints Digest Metadata Snapshot SnapshotValidation SnapshotCodec.
From S2P Require Import SnapshotLaws SnapshotHistoryLaws SnapshotReleaseLaws Catalog Evidence.

#[local] Opaque u64_to_le_bytes.

Lemma Forall2_elem_l {A B} (R : A → B → Prop) l k x : Forall2 R l k → x ∈ l → ∃ y, y ∈ k ∧ R x y.
Proof.
  intros Hlk [i Hi]%list_elem_of_lookup. destruct (Forall2_lookup_l _ _ _ _ _ Hlk Hi) as (y & Hy & ?).
  exists y. split; [by eapply list_elem_of_lookup_2|done].
Qed.

Lemma Forall2_elem_r {A B} (R : A → B → Prop) l k y : Forall2 R l k → y ∈ k → ∃ x, x ∈ l ∧ R x y.
Proof.
  intros Hlk [i Hi]%list_elem_of_lookup. destruct (Forall2_lookup_r _ _ _ _ _ Hlk Hi) as (x & Hx & ?).
  exists x. split; [by eapply list_elem_of_lookup_2|done].
Qed.

(** ** Sorting by keys that must exist *)

Lemma map_key_ok {A K E F} (f : A → result K E) (g : A → result K F) :
  (∀ x k, f x = Ok k ↔ g x = Ok k) → ∀ l ks, try_map f l = Ok ks ↔ try_map g l = Ok ks.
Proof.
  intros Hfg l ks. rewrite !try_map_ok. split; intros Hl; (eapply Forall2_impl; [exact Hl|]);
    intros x k; apply Hfg.
Qed.

Section sort_keyed.
Context {A K : Type} `{EqDecision K} (key : A → result K EvidenceCompositionError).
Context (c : K → K → comparison) `{!CmpOrder c, !CmpLeibniz c}.

Lemma bool_decide_is_eq (x y : K) : bool_decide (x = y) = is_eq (c x y).
Proof.
  case_bool_decide as E; [by rewrite E, (cmp_refl c)|].
  destruct (c x y) eqn:Hc; [|done..]. by apply (cmp_eq_leibniz c) in Hc.
Qed.

(** The result has increasing keys, and the elements of the list up to their keys. *)
Lemma sort_keyed_ok l l' :
  sort_keyed key c l = Ok l' →
  (∃ ks, Forall2 (λ x k, key x = Ok k) l' ks ∧ strictly_sorted c ks) ∧
  (∀ x, x ∈ l' → x ∈ l) ∧
  (∀ x, x ∈ l → ∃ y k, y ∈ l' ∧ key x = Ok k ∧ key y = Ok k).
Proof.
  intros (keyed & Hkeyed & [= <-])%try_map_bind.
  set (d := dedup_by _ _).
  assert (∀ p, p ∈ keyed → p.2 ∈ l ∧ key p.2 = Ok p.1) as Hin.
  { intros p Hp. destruct (Forall2_elem_r _ _ _ _ Hkeyed Hp) as (x & Hx & (k & Hk & [= <-])%result_bind_ok).
    done. }
  assert (∀ p, p ∈ d → p ∈ keyed) as Hd by (intros p ?%elem_of_dedup_by%elem_of_sort_by; done).
  split_and!.
  - exists d.*1. split.
    + apply Forall2_fmap_l, Forall2_fmap_r, Forall_Forall2_diag, Forall_forall.
      intros p Hp. by apply Hin, Hd.
    + assert (strictly_sorted (cmp_on fst c) d) as Hs.
      { apply (dedup_sorted_strict (cmp_on fst c)); [intros x y; apply bool_decide_is_eq|].
        apply sort_by_sorted, _. }
      clear -Hs. unfold strictly_sorted in *. induction Hs as [|x d _ IH Hx]; simpl; constructor; [done|].
      apply Forall_fmap. exact Hx.
  - intros x (p & -> & Hp)%list_elem_of_fmap. by apply Hin, Hd.
  - intros x Hx.
    destruct (Forall2_elem_l _ _ _ _ Hkeyed Hx) as (q & Hq & (k & Hk & [= <-])%result_bind_ok).
    assert (Exists (λ p, p.1 = k) d) as (p & Hp & Hpk)%Exists_exists.
    { apply (dedup_by_complete _ _ _ (k, x)); [|by apply elem_of_sort_by|done].
      by intros ? ? ->%bool_decide_eq_true. }
    exists p.2, k. split_and!; [|done|].
    + apply list_elem_of_fmap. by exists p.
    + rewrite <-Hpk. by apply Hin, Hd.
Qed.
End sort_keyed.

(** [sort] then [dedup]. *)
Section sorted_set.
Context {A : Type} `{EqDecision A} (c : A → A → comparison) `{!CmpOrder c, !CmpLeibniz c}.

Lemma sorted_set_strict l : strictly_sorted c (sorted_set c l).
Proof.
  apply (dedup_sorted_strict c); [|apply sort_by_sorted, _]. intros x y. by apply bool_decide_is_eq.
Qed.

Lemma elem_of_sorted_set x l : x ∈ sorted_set c l ↔ x ∈ l.
Proof.
  unfold sorted_set. split; [by intros ?%elem_of_dedup_by%elem_of_sort_by|]. intros Hx.
  assert (Exists (λ y, y = x) (sorted_set c l)) as (y & Hy & ->)%Exists_exists; [|done].
  apply (dedup_by_complete _ _ _ x); [|by apply elem_of_sort_by|done].
  by intros ? ? ->%bool_decide_eq_true.
Qed.

Lemma sorted_set_id l : strictly_sorted c l → sorted_set c l = l.
Proof.
  intros Hl. apply (strict_sorted_ext c); [apply sorted_set_strict|done|].
  intros x. apply elem_of_sorted_set.
Qed.
End sorted_set.

(** Sorting by an injective key, then dropping repetitions. *)
Lemma keyed_set_strict {A K} `{EqDecision A} (f : A → K) `{!Inj (=) (=) f} (c : K → K → comparison)
    `{!CmpOrder c, !CmpLeibniz c} l :
  strictly_sorted c (f <$> dedup_by (λ x y, bool_decide (x = y)) (sort_by (cmp_on f c) l)) ∧
  (∀ x, x ∈ dedup_by (λ x y, bool_decide (x = y)) (sort_by (cmp_on f c) l) ↔ x ∈ l).
Proof.
  split.
  - assert (strictly_sorted (cmp_on f c) (dedup_by (λ x y, bool_decide (x = y)) (sort_by (cmp_on f c) l))) as Hs.
    { apply (dedup_sorted_strict (cmp_on f c)); [|apply sort_by_sorted, _]. intros x y. unfold cmp_on.
      case_bool_decide as E; [by rewrite E, (cmp_refl c)|].
      destruct (c (f x) (f y)) eqn:Hc; [|done..]. by apply (cmp_eq_leibniz c), (inj f) in Hc. }
    clear -Hs. unfold strictly_sorted in *. induction Hs as [|x d _ IH Hx]; simpl; constructor; [done|].
    apply Forall_fmap. exact Hx.
  - intros x. split; [by intros ?%elem_of_dedup_by%elem_of_sort_by|]. intros Hx.
    assert (Exists (λ y, y = x) (dedup_by (λ x y, bool_decide (x = y)) (sort_by (cmp_on f c) l)))
      as (y & Hy & ->)%Exists_exists; [|done].
    apply (dedup_by_complete _ _ _ x); [|by apply elem_of_sort_by|done].
    by intros ? ? ->%bool_decide_eq_true.
Qed.

(** ** Values built by their constructors *)

Definition version_built (v : RPackageVersion) : Prop :=
  ∃ input minimum, RPackageVersion_parse_with_minimum input minimum = Ok v.
Definition package_built (n : PackageName) : Prop := PackageName_new (PackageName_as_str n) = Ok n.
Definition identifier_built {kind} (i : Identifier kind) : Prop :=
  Identifier_new kind (Identifier_as_str i) = Ok i.
(** A [BTreeMap] has its keys in order. *)
Definition fields_built (fields : Fields) : Prop := bt_sorted str_cmp fields.

Lemma version_reparsed v w :
  version_built v → RPackageVersion_parse (RPackageVersion_fmt v) = Ok w → w = v.
Proof.
  unfold RPackageVersion_fmt, RPackageVersion_parse.
  intros (input & minimum & (_ & values & Hv & _ & ->)%parse_ok_iff).
  intros (_ & values' & Hv' & _ & ->)%parse_ok_iff. simpl in *. f_equal. f_equal.
  assert (Ok values = Ok (E:=RPackageVersionError) values') as [= ->]; [|done].
  apply (parse_components_ok 0) in Hv, Hv'. congruence.
Qed.

Lemma fields_to_wire_id fields :
  fields_built fields → fields_to_wire fields = (λ f, mk_FieldV1 f.1 f.2) <$> fields ∧
    strictly_sorted str_cmp (field_name <$> fields_to_wire fields) ∧
    field_pair <$> fields_to_wire fields = fields.
Proof.
  intros Hf. assert (strictly_sorted (cmp_on field_name str_cmp) ((λ f, mk_FieldV1 f.1 f.2) <$> fields)) as Hs.
  { unfold fields_built, bt_sorted in Hf. unfold strictly_sorted.
    induction Hf as [|f l _ IH Hx]; simpl; constructor; [done|]. apply Forall_fmap. exact Hx. }
  unfold fields_to_wire. rewrite sort_by_strict by (apply _ || done). split_and!; [done|..].
  - clear -Hf. unfold fields_built, bt_sorted in Hf. unfold strictly_sorted.
    induction Hf as [|f l _ IH Hx]; simpl; constructor; [done|]. apply Forall_fmap, Forall_fmap. exact Hx.
  - rewrite <-list_fmap_compose. rewrite <-(list_fmap_id fields) at 2. apply list_fmap_ext.
    by intros i [] _.
Qed.

Lemma bt_from_iter_bt_sorted {K V} (c : K → K → comparison) `{!CmpOrder c} (l : list (K * V)) :
  bt_sorted c (bt_from_iter c l).
Proof.
  unfold bt_from_iter. assert (∀ m, bt_sorted c m → bt_sorted c (foldl (λ m p, bt_insert c p.1 p.2 m) m l)) as Hgo.
  { induction l as [|p l IH]; intros m Hm; [done|]. apply IH. by apply (bt_insert_sorted c). }
  apply Hgo. constructor.
Qed.

(** Collecting a sorted map's entries gives the map. *)
Lemma bt_from_iter_sorted_id {K V} (c : K → K → comparison) `{!CmpOrder c, !CmpLeibniz c} (m : list (K * V)) :
  bt_sorted c m → bt_from_iter c m = m.
Proof.
  intros Hm. apply (strict_sorted_ext (cmp_on fst c)); [by apply (bt_from_iter_bt_sorted c)|exact Hm|].
  intros p. apply elem_of_bt_from_iter; [apply _..|]. by apply (bt_sorted_NoDup c).
Qed.

(** ** Dependencies *)

Section dependencies.
Context `{UnicodeTables}.

Definition clause_built (clause : VersionClause) : Prop := version_built (clause_version clause).

(** A declaration of an index record: it names a package and no source. *)
Record dependency_built (d : DeclaredDependency) : Prop := {
  built_name : package_built (requirement_name (declared_package d));
  built_source : requirement_source (declared_package d) = SourceAny;
  built_clauses : Forall clause_built (clauses (requirement_constraint (declared_package d)));
}.

Lemma evidence_clause_key_ok x k : evidence_clause_key x = Ok k ↔ clause_order_key x = Ok k.
Proof.
  unfold evidence_clause_key, clause_order_key, parse_version.
  destruct (RPackageVersion_parse _); simpl; naive_solver.
Qed.

Lemma evidence_dependency_key_ok x k : evidence_dependency_key x = Ok k ↔ dependency_order_key x = Ok k.
Proof.
  unfold evidence_dependency_key, dependency_order_key. rewrite !result_bind_ok.
  split; intros (ks & Hks & [= <-]); exists ks; (split; [|done]);
    by apply (map_key_ok _ _ evidence_clause_key_ok).
Qed.

Lemma relation_op_domain op : relation_to_domain (relation_op op) = op.
Proof. by destruct op. Qed.
Lemma dependency_kind_domain kind : dependency_kind_to_domain (dependency_kind_to_wire kind) = kind.
Proof. by destruct kind. Qed.

(** A clause that was written is read back. *)
Lemma clause_reparsed clause e :
  clause_built clause → clause_to_domain (clause_to_wire clause) = Ok e ↔
    e = clause ∧ is_ok (RPackageVersion_parse (RPackageVersion_fmt (clause_version clause))) = true.
Proof.
  intros Hb. unfold clause_to_domain, clause_to_wire, parse_version. simpl.
  rewrite result_bind_ok. setoid_rewrite map_err_ok. split.
  - intros (v & Hv & [= <-]). rewrite Hv, relation_op_domain.
    apply (version_reparsed _ _ Hb) in Hv as ->. by destruct clause.
  - intros [-> Hok]. destruct (RPackageVersion_parse _) as [v|] eqn:Hv; [|done].
    exists v. split; [done|]. apply (version_reparsed _ _ Hb) in Hv as ->.
    rewrite relation_op_domain. by destruct clause.
Qed.

Lemma clause_key_parses clause k :
  clause_order_key (clause_to_wire clause) = Ok k →
  is_ok (RPackageVersion_parse (RPackageVersion_fmt (clause_version clause))) = true.
Proof.
  unfold clause_order_key, parse_version, clause_to_wire. simpl. intros (v & Hv%map_err_ok & _)%result_bind_ok.
  by rewrite Hv.
Qed.

Lemma clause_key_text x y k : clause_order_key x = Ok k → clause_order_key y = Ok k → x = y.
Proof.
  unfold clause_order_key. intros (v & _ & [= <-])%result_bind_ok (w & _ & [= E _ Ht])%result_bind_ok.
  destruct x as [ox tx], y as [oy ty]. simpl in *. subst. f_equal.
  destruct ox, oy; done.
Qed.

(** The clauses of a dependency that was written. *)
Lemma dependency_to_wire_ok d w :
  dependency_built d → dependency_to_wire d = Ok w →
  dependency_kind w = dependency_kind_to_wire (declared_kind d) ∧
  dependency_package w = PackageName_as_str (requirement_name (declared_package d)) ∧
  sorted_keys clause_order_key clause_key_cmp (dependency_clauses w) ∧
  (∀ x, x ∈ dependency_clauses w ↔
     x ∈ clause_to_wire <$> clauses (requirement_constraint (declared_package d))) ∧
  Forall (λ c, is_ok (RPackageVersion_parse (RPackageVersion_fmt (clause_version c))) = true)
    (clauses (requirement_constraint (declared_package d))).
Proof.
  intros Hb (cs & Hcs & [= <-])%result_bind_ok. simpl.
  apply (sort_keyed_ok evidence_clause_key clause_key_cmp) in Hcs as ((ks & Hks & Hs) & Hin & Hall).
  split_and!; [done..| | |].
  - exists ks. split; [|done]. eapply Forall2_impl; [exact Hks|]. intros x k. apply evidence_clause_key_ok.
  - intros x. split; [apply Hin|]. intros (y & k & Hy & Hk & Hyk)%Hall.
    apply evidence_clause_key_ok in Hk, Hyk. by rewrite (clause_key_text _ _ _ Hk Hyk).
  - apply Forall_forall. intros c Hc. destruct (Hall (clause_to_wire c)) as (_ & k & _ & Hk & _).
    { apply list_elem_of_fmap. by exists c. }
    apply evidence_clause_key_ok in Hk. by eapply clause_key_parses.
Qed.

(** The clauses are read back as they were. *)
Lemma clauses_read_back d w :
  dependency_built d → dependency_to_wire d = Ok w →
  ∃ cs, try_map clause_to_domain (dependency_clauses w) = Ok cs ∧
    ∀ c, c ∈ cs ↔ c ∈ clauses (requirement_constraint (declared_package d)).
Proof.
  intros Hb Hw. destruct (dependency_to_wire_ok d w Hb Hw) as (_ & _ & _ & Hin & Hok).
  pose proof (built_clauses _ Hb) as Hcb. rewrite Forall_forall in Hok, Hcb.
  assert (Forall (λ x, ∃ c, c ∈ clauses (requirement_constraint (declared_package d)) ∧
    clause_to_domain x = Ok c) (dependency_clauses w)) as Hcs.
  { apply Forall_forall. intros x (c & -> & Hc)%Hin%list_elem_of_fmap. exists c.
    split; [done|]. apply clause_reparsed; [by apply Hcb|]. split; [done|]. by apply Hok. }
  apply Forall_exists_Forall2_l in Hcs as (cs & Hcs). exists cs. split.
  - apply try_map_ok. eapply Forall2_impl; [exact Hcs|]. by intros x c [_ ?].
  - intros c. split; [intros Hc; by destruct (Forall2_elem_r _ _ _ _ Hcs Hc) as (x & _ & ? & _)|].
    intros Hc. assert (clause_to_wire c ∈ dependency_clauses w) as Hx.
    { apply Hin, list_elem_of_fmap. by exists c. }
    destruct (Forall2_elem_l _ _ _ _ Hcs Hx) as (e & He & _ & Hr).
    by apply clause_reparsed in Hr as [-> _]; [|by apply Hcb].
Qed.

(** It is read back as a dependency with the same encoding. *)
Lemma dependency_read_back d w :
  dependency_built d → dependency_to_wire d = Ok w →
  ∃ e, dependency_to_domain w = Ok e ∧ encode_dependency e = encode_dependency d.
Proof.
  intros Hb Hw. destruct (dependency_to_wire_ok d w Hb Hw) as (Hk & Hp & _).
  destruct (clauses_read_back d w Hb Hw) as (cs & Hcs & Hset).
  unfold dependency_to_domain, parse_package, DeclaredDependency_from_parts. rewrite Hcs, Hp.
  pose proof (built_name _ Hb) as Hn. unfold package_built in Hn. rewrite Hn. simpl.
  eexists. split; [reflexivity|]. rewrite Hk, dependency_kind_domain, !encode_dependency_e. simpl.
  rewrite (built_source _ Hb). do 3 f_equal. f_equal. apply sort_dedup_ext.
  intros x. rewrite !list_elem_of_fmap. by setoid_rewrite Hset.
Qed.

Lemma dependency_key_parts x y k :
  dependency_order_key x = Ok k → dependency_order_key y = Ok k → x = y.
Proof.
  unfold dependency_order_key. intros (cs & Hcs%try_map_ok & [= <-])%result_bind_ok.
  intros (cs' & Hcs'%try_map_ok & [= E Hp Hc])%result_bind_ok. subst cs'.
  destruct x as [kx px lx], y as [ky py ly]. simpl in *. subst.
  assert (kx = ky) as -> by by destruct kx, ky. f_equal.
  clear -Hcs Hcs'. revert ly Hcs'. induction Hcs as [|x k lx ks Hx _ IH]; intros ly Hl.
  - by apply Forall2_nil_inv_r in Hl as ->.
  - apply Forall2_cons_inv_r in Hl as (y & ly' & Hy & Hl & ->). f_equal; [|by apply IH].
    by eapply clause_key_text.
Qed.

Lemma canonical_dependency_keys w :
  canonical_dependency w = Ok tt ↔ sorted_keys clause_order_key clause_key_cmp (dependency_clauses w).
Proof.
  unfold canonical_dependency. rewrite try_map_bind. setoid_rewrite reject_if_ok.
  by setoid_rewrite (unordered_sorted clause_key_cmp).
Qed.

(** Sorting the written dependencies loses none. *)
Lemma sorted_dependencies ds ws ws' :
  try_map dependency_to_wire ds = Ok ws →
  sort_keyed evidence_dependency_key dependency_key_cmp ws = Ok ws' →
  sorted_keys dependency_order_key dependency_key_cmp ws' ∧
  (∀ w, w ∈ ws' → ∃ d, d ∈ ds ∧ dependency_to_wire d = Ok w) ∧
  (∀ d, d ∈ ds → ∃ w, w ∈ ws' ∧ dependency_to_wire d = Ok w).
Proof.
  intros Hws%try_map_ok Hs.
  apply (sort_keyed_ok evidence_dependency_key dependency_key_cmp) in Hs as ((ks & Hks & Hs) & Hin & Hall).
  split_and!.
  - exists ks. split; [|done]. eapply Forall2_impl; [exact Hks|]. intros x k. apply evidence_dependency_key_ok.
  - intros w Hw%Hin. destruct (Forall2_elem_r _ _ _ _ Hws Hw) as (d & ? & ?). by exists d.
  - intros d Hd. destruct (Forall2_elem_l _ _ _ _ Hws Hd) as (w & Hw & ?). exists w. split; [|done].
    apply Hall in Hw as (y & k & Hy & Hk & Hyk). apply evidence_dependency_key_ok in Hk, Hyk.
    by rewrite (dependency_key_parts _ _ _ Hk Hyk).
Qed.

(** The dependencies of a release that was written: canonical, and read back with
    the same encodings. *)
Lemma dependencies_to_wire ds ws ws' :
  Forall dependency_built ds → try_map dependency_to_wire ds = Ok ws →
  sort_keyed evidence_dependency_key dependency_key_cmp ws = Ok ws' →
  sorted_keys dependency_order_key dependency_key_cmp ws' ∧
  Forall (λ w, canonical_dependency w = Ok tt) ws' ∧
  ∃ es, Forall2 (λ w e, dependency_to_domain w = Ok e) ws' es ∧
    ∀ x, x ∈ encode_dependency <$> es ↔ x ∈ encode_dependency <$> ds.
Proof.
  intros Hb Hws Hs. destruct (sorted_dependencies ds ws ws' Hws Hs) as (Hk & Hfrom & Hto).
  rewrite Forall_forall in Hb. split_and!; [done|..].
  { apply Forall_forall. intros w (d & Hd & Hw)%Hfrom. apply canonical_dependency_keys.
    by destruct (dependency_to_wire_ok d w (Hb d Hd) Hw) as (_ & _ & ? & _). }
  assert (Forall (λ w, ∃ e, dependency_to_domain w = Ok e) ws') as Hes.
  { apply Forall_forall. intros w (d & Hd & Hw)%Hfrom.
    destruct (dependency_read_back d w (Hb d Hd) Hw) as (e & He & _). by exists e. }
  apply Forall_exists_Forall2_l in Hes as (es & Hes). exists es. split; [done|].
  assert (∀ d w e, d ∈ ds → dependency_to_wire d = Ok w → dependency_to_domain w = Ok e →
    encode_dependency e = encode_dependency d) as Henc.
  { intros d w e Hd Hw He. destruct (dependency_read_back d w (Hb d Hd) Hw) as (e' & He' & ?). congruence. }
  intros x. rewrite !list_elem_of_fmap. split.
  - intros (e & -> & (w & (d & Hd & Hw)%Hfrom & He)%(Forall2_elem_r _ _ _ _ Hes)).
    exists d. split; [by eapply Henc|done].
  - intros (d & -> & Hd). destruct (Hto d Hd) as (w & Hin & Hw).
    destruct (Forall2_elem_l _ _ _ _ Hes Hin) as (e & He & Hr). exists e.
    split; [symmetry; by eapply Henc|done].
Qed.
End dependencies.

(** ** Distributions *)

(** Lower-case hexadecimal text of even length is read. *)
Lemma parse_hex_pairs_total n l :
  length l = 2 * n → Forall (λ b, is_lower_hex b = true) l → ∃ r, parse_hex_pairs l = Ok r.
Proof.
  revert l. induction n as [|n IH]; intros l Hlen Hl; [destruct l; [by eexists|done]|].
  destruct l as [|a [|b l]]; simpl in Hlen; [lia..|]. inversion Hl as [|? ? Ha Hl']; subst.
  inversion Hl' as [|? ? Hb Hl'']; subst. cbn [parse_hex_pairs].
  assert (∀ b, is_lower_hex b = true → ∃ n, hex_digit_value b = Some n) as Hv.
  { intros x Hx. destruct x; (vm_compute in Hx; discriminate Hx) || (eexists; vm_compute; reflexivity). }
  destruct (Hv a Ha) as (x & ->), (Hv b Hb) as (y & ->), (IH l) as (r & ->); [lia|done|].
  by eexists.
Qed.

Lemma digest_text_parses s d : Sha256Digest_new s = Ok d → ∃ l, parse_hex_32 (Sha256Digest_as_str d) = Ok l.
Proof.
  intros Hd. pose proof (Sha256Digest_new_as_str _ _ Hd) as Ht. unfold Sha256Digest_new in Hd.
  case_bool_decide as Hlen; [done|]. destruct (negb _) eqn:Hhex; [done|]. apply negb_false_iff in Hhex.
  pose proof (all_lower_hex _ Hhex) as Hlow. rewrite <-Ht in Hlow.
  assert (str_len (Sha256Digest_as_str d) = 64) as Hl by by rewrite Ht, str_len_to_ascii_lowercase.
  unfold all_bytes in Hlow. apply forallb_Forall in Hlow.
  destruct (parse_hex_pairs_total 32 (bytes (Sha256Digest_as_str d)) Hl Hlow) as (r & Hr).
  destruct (parse_hex_pairs_lower 32 _ _ Hl Hlow Hr) as [Hn Hx].
  exists r. apply parse_hex_32_ok. split; [done|]. by apply (inj bytes).
Qed.

(** What an observation with lower-case algorithms declares. *)
Definition checksum_ready (u : UpstreamChecksum) : Prop :=
  ∃ c, checksum_algorithm c = to_ascii_lowercase (checksum_algorithm c) ∧ domain_checksum c = Ok u.
Definition artifact_ready (a : Artifact) : Prop :=
  match a with
  | Source s => identifier_built (locator s) ∧ Forall checksum_ready (upstream_checksums s)
  end.

Record distribution_ready (d : Distribution) : Prop := {
  ready_registry : identifier_built (registry d);
  ready_channel : identifier_built (channel d);
  ready_snapshot s : snapshot d = Some s → identifier_built s;
  ready_metadata : fields_built (metadata_fields (observed_metadata d));
  ready_artifacts : Forall artifact_ready (artifacts d);
}.

Lemma checksum_to_wire_ok u :
  checksum_ready u → validate_checksum (checksum_to_wire u) = Ok tt ∧
    checksum_to_domain (checksum_to_wire u) = Ok u.
Proof.
  intros ([a v] & Ha & Hu). unfold domain_checksum in Hu. simpl in *.
  unfold validate_checksum, checksum_to_domain.
  case_bool_decide as Hsha; [|case_bool_decide as Hmd5].
  - apply result_bind_ok in Hu as (d & Hd%map_err_ok & [= <-]). simpl.
    destruct (digest_text_parses _ _ Hd) as (l & Hl). rewrite Hl.
    destruct names_roundtrip as (_ & _ & _ & Hnew & _). rewrite (Hnew _ _ Hd). done.
  - injection Hu as <-. done.
  - injection Hu as <-. simpl. rewrite (bool_decide_eq_false_2 (a ≠ _)) by (by intros []).
    by rewrite (bool_decide_eq_false_2 (a = "sha256")), (bool_decide_eq_false_2 (a = "md5")).
Qed.

#[export] Instance checksum_order_key_inj : Inj (=) (=) checksum_order_key.
Proof. intros [] []. unfold checksum_order_key. simpl. by intros [= -> ->]. Qed.
#[export] Instance artifact_wire_key_inj : Inj (=) (=) artifact_wire_key.
Proof.
  intros [la ca sa] [lb cb sb]. unfold artifact_wire_key. simpl. intros [= -> Hc ->].
  by apply (inj (fmap checksum_order_key)) in Hc as ->.
Qed.

Lemma sort_checksums_ok l :
  Forall (λ c, validate_checksum c = Ok tt) l →
  validate_checksums (sort_checksums l) = Ok tt ∧ (∀ c, c ∈ sort_checksums l ↔ c ∈ l).
Proof.
  intros Hl. destruct (keyed_set_strict checksum_order_key (pair_cmp str_cmp str_cmp) l) as [Hs Hin].
  split; [|exact Hin]. unfold validate_checksums. apply reject_bind.
  split; [by apply (unordered_sorted (pair_cmp str_cmp str_cmp))|]. apply try_each_ok, Forall_forall.
  rewrite Forall_forall in Hl. intros c Hc%Hin. by apply Hl.
Qed.

Lemma artifact_to_wire_ok a :
  artifact_ready a → validate_checksums (artifact_upstream_checksums (artifact_to_wire a)) = Ok tt ∧
    ∃ e, artifact_to_domain (artifact_to_wire a) = Ok e.
Proof.
  destruct a as [s]. intros [Hl Hc]. rewrite Forall_forall in Hc.
  destruct (sort_checksums_ok (checksum_to_wire <$> upstream_checksums s)) as [Hv Hin].
  { apply Forall_fmap, Forall_forall. intros u Hu. by apply checksum_to_wire_ok, Hc. }
  split; [exact Hv|]. unfold artifact_to_domain, artifact_to_wire, parse_identifier. simpl.
  assert (∃ us, try_map checksum_to_domain (sort_checksums (checksum_to_wire <$> upstream_checksums s)) = Ok us)
    as (us & ->).
  { setoid_rewrite try_map_ok. apply Forall_exists_Forall2_l, Forall_forall.
    intros c (u & -> & Hu)%Hin%list_elem_of_fmap. exists u. by apply checksum_to_wire_ok, Hc. }
  simpl. unfold identifier_built in Hl. rewrite Hl. by eexists.
Qed.

(** A distribution that was written is canonical, and can be read. *)
Lemma distribution_to_wire_ok d :
  distribution_ready d → canonical_distribution (distribution_to_wire d) = Ok tt ∧
    ∃ e, distribution_to_domain (distribution_to_wire d) = Ok e.
Proof.
  intros [Hr Hc Hsn Hm Ha]. rewrite Forall_forall in Ha.
  destruct (keyed_set_strict artifact_wire_key artifact_key_cmp (artifact_to_wire <$> artifacts d)) as [Hs Hin].
  assert (∀ w, w ∈ distribution_artifacts (distribution_to_wire d) →
    validate_checksums (artifact_upstream_checksums w) = Ok tt ∧ ∃ e, artifact_to_domain w = Ok e) as Hart.
  { intros w (a & -> & Hw)%Hin%list_elem_of_fmap. by apply artifact_to_wire_ok, Ha. }
  split.
  - unfold canonical_distribution, validate_fields. apply reject_bind. split.
    { apply (unordered_sorted str_cmp). by apply fields_to_wire_id. }
    apply try_map_bind. exists (artifact_wire_key <$> distribution_artifacts (distribution_to_wire d)). split.
    { apply Forall2_fmap_r, Forall_Forall2_diag, Forall_forall. intros w Hw. unfold artifact_order_key.
      destruct (Hart w Hw) as [Hv _]. by rewrite Hv. }
    apply reject_bind. split; [by apply (unordered_sorted artifact_key_cmp)|].
    apply try_each_ok, Forall_forall. intros w Hw. by apply Hart.
  - unfold distribution_to_domain, parse_identifier.
    assert (∃ es, try_map artifact_to_domain (distribution_artifacts (distribution_to_wire d)) = Ok es) as (es & ->).
    { setoid_rewrite try_map_ok. apply Forall_exists_Forall2_l, Forall_forall. intros w Hw. by apply Hart. }
    unfold identifier_built in *. simpl. rewrite Hr, Hc. simpl.
    destruct (snapshot d) as [sn|]; simpl; [rewrite (Hsn sn eq_refl)|]; by eexists.
Qed.

(** ** Positions *)

Lemma position_some (l : list nat) x i : NoDup l → position x l = Some i ↔ l !! i = Some x.
Proof.
  intros Hl. unfold position. rewrite fmap_Some. split.
  - intros ([j y] & (Hy & -> & _)%list_find_Some & ->). exact Hy.
  - intros Hi. exists (i, x). split; [|done]. apply list_find_Some. split_and!; [done..|].
    intros j y Hy Hj ->. assert (i = j) by (by eapply NoDup_lookup). lia.
Qed.

(** Sorting carries over to related lists. *)
Lemma StronglySorted_Forall2 {A B} (R : A → B → Prop) (S : A → A → Prop) (T : B → B → Prop) l k :
  (∀ x y x' y', R x x' → R y y' → S x y → T x' y') →
  Forall2 R l k → StronglySorted S l → StronglySorted T k.
Proof.
  intros HR Hlk. induction Hlk as [|x x' l k Hx Hlk IH]; intros Hl; [constructor|].
  inversion Hl as [|? ? Hl' Hxl]; subst. constructor; [by apply IH|]. rewrite Forall_forall in Hxl.
  apply Forall_forall. intros y' Hy'. destruct (Forall2_elem_r _ _ _ _ Hlk Hy') as (y & Hy & Hyy').
  eapply HR; [exact Hx|exact Hyy'|]. by apply Hxl.
Qed.

Lemma sorted_fmap {A B} (f : A → B) (S : B → B → Prop) l :
  StronglySorted S (f <$> l) ↔ StronglySorted (λ x y, S (f x) (f y)) l.
Proof.
  induction l as [|x l IH]; simpl; [split; constructor|]. split.
  - inversion 1 as [|? ? Hl Hx]; subst. constructor; [by apply IH|].
    apply Forall_forall. intros y Hy. rewrite List.Forall_forall in Hx.
    apply Hx, list_elem_of_In, list_elem_of_fmap. by exists y.
  - inversion 1 as [|? ? Hl Hx]; subst. constructor; [by apply IH|]. apply Forall_fmap. exact Hx.
Qed.

(** Distinct keys are sorted strictly. *)
Lemma sort_by_distinct {A K} (f : A → K) (c : K → K → comparison) `{!CmpOrder c, !CmpLeibniz c} l :
  NoDup (f <$> l) → strictly_sorted c (f <$> sort_by (cmp_on f c) l).
Proof.
  intros Hl. rewrite <-(sort_by_Permutation (cmp_on f c) l) in Hl.
  pose proof (sort_by_sorted (cmp_on f c) l) as Hs. revert Hl Hs.
  generalize (sort_by (cmp_on f c) l). clear l. intros l Hl Hs.
  apply sorted_fmap. induction Hs as [|x l _ IH Hx]; [constructor|].
  inversion Hl as [|? ? Hfx Hl']; subst. constructor; [by apply IH|].
  rewrite Forall_forall in *. intros y Hy. specialize (Hx y Hy). unfold cmp_le, cmp_on in Hx.
  destruct (c (f x) (f y)) eqn:E; [|done|done]. apply (cmp_eq_leibniz c) in E.
  exfalso. apply Hfx. rewrite E. apply list_elem_of_fmap. by exists y.
Qed.

(** ** Releases *)

Section releases.
Context `{CivilDate, Sha2, !Sha2Laws, UnicodeTables}.

(** What a merged release is made of. *)
Record release_ready (r : PackageRelease) : Prop := {
  ready_name : package_built (ReleaseIdentity_name (release_identity r));
  ready_provenance : ∃ v, v ≈ release_version r ∧
    ReleaseIdentity_provenance (release_identity r) = RegistryRelease (mk_Identifier "cran") v;
  ready_version : RPackageVersion_parse (RPackageVersion_fmt (release_version r)) = Ok (release_version r);
  ready_fields : fields_built (release_fields (release_metadata r));
  ready_unreserved : Forall (λ f, Metadata.is_reserved_field f.1 = false) (release_fields (release_metadata r));
  ready_publication p : release_publication r = Some p →
    PublicationDate_parse (PublicationDate_as_str (ReleasePublication_date p)) = Ok (ReleasePublication_date p);
  ready_dependencies : Forall dependency_built (release_dependencies r);
  ready_digest : release_metadata_digest r = canonical_metadata_digest (release_identity r)
    (release_version r) (release_dependencies r);
}.

(** A pending release. *)
Record pending_ready (p : PendingRelease) : Prop := {
  pending_release_ready : release_ready (pending_release p);
  pending_distributions_ready : Forall distribution_ready (pending_distributions p);
  pending_places : NoDup (distribution_order_key ∘ distribution_to_wire <$> pending_distributions p);
  pending_evidence : StronglySorted lt (pending_observations p).*1;
  pending_roles : Forall (λ e, strictly_sorted N.compare (role_rank <$> e.2)) (pending_observations p);
}.

(** The release that is read back: the same, up to the spelling of the version in the
    identity, and the order and repetition of dependencies and clauses. *)
Record same_release (r s : PackageRelease) : Prop := {
  same_identity : release_identity r ≈ release_identity s;
  same_version : release_version r = release_version s;
  same_metadata : release_metadata r = release_metadata s;
  same_publication : release_publication r = release_publication s;
  same_encoding : metadata_encoding (release_identity r) (release_version r) (release_dependencies r)
    = metadata_encoding (release_identity s) (release_version s) (release_dependencies s);
  same_digest : release_metadata_digest r = release_metadata_digest s;
}.

Lemma parse_metadata_digest i v ds l :
  parse_digest (canonical_metadata_digest i v ds) = Ok l ↔ l = sha256_digest (metadata_encoding i v ds).
Proof.
  unfold parse_digest. rewrite canonical_metadata_digest_hex, parse_hex_pairs_hex. simpl. naive_solver.
Qed.

Lemma evidence_to_wire_ok indexes l evs :
  NoDup indexes → (N.of_nat (length indexes) ≤ 2 ^ 32)%N →
  try_map (evidence_to_wire indexes) l = Ok evs →
  Forall2 (λ o e, ∃ i, indexes !! i = Some o.1 ∧ evidence_observation_id e = N.of_nat i ∧
    evidence_roles e = o.2) l evs.
Proof.
  intros Hn Hlen Hevs%try_map_ok. eapply Forall2_impl; [exact Hevs|].
  intros o e (i & Hi & [= <-])%result_bind_ok. exists i.
  destruct (position o.1 indexes) as [j|] eqn:E; [|done]. injection Hi as ->.
  apply position_some in E; [|done]. split_and!; [done| |done]. apply as_u32_small.
  apply lookup_lt_Some in E. lia.
Qed.

Lemma increasing_positions (l : list nat) i j x y :
  StronglySorted lt l → l !! i = Some x → l !! j = Some y → x < y → i < j.
Proof.
  intros Hl Hi Hj Hxy. destruct (decide (i < j)); [done|]. destruct (decide (i = j)) as [->|Hne].
  - rewrite Hi in Hj. injection Hj as ->. lia.
  - assert (y < x); [|lia]. eapply (StronglySorted_lookup_both lt l j i); try done; lia.
Qed.

Lemma increasing_NoDup (l : list nat) : StronglySorted lt l → NoDup l.
Proof.
  induction 1 as [|x l _ IH Hx]; constructor; [|done]. intros Hin.
  rewrite Forall_forall in Hx. specialize (Hx x Hin). lia.
Qed.

(** The references of a release that was written are canonical, and to its own
    package. *)
Lemma evidence_to_wire_canonical indexes p evs :
  pending_ready p → StronglySorted lt indexes → (N.of_nat (length indexes) ≤ 2 ^ 32)%N →
  try_map (evidence_to_wire indexes) (pending_observations p) = Ok evs →
  strictly_sorted evidence_key_cmp (evidence_order_key <$> evs) ∧
  Forall (λ e, canonical_evidence e = Ok tt) evs ∧
  Forall (λ e, evidence_observation_id e < len_u64 indexes)%N evs.
Proof.
  intros Hp Hs Hlen Hevs%evidence_to_wire_ok; [|by apply increasing_NoDup|done]. split_and!.
  - apply sorted_fmap. pose proof (pending_evidence _ Hp) as He%(sorted_fmap fst lt).
    eapply StronglySorted_Forall2; [|exact Hevs|exact He].
    intros o o' e e' (i & Hi & Hie & _) (j & Hj & Hje & _) Hlt.
    unfold evidence_key_cmp, pair_cmp, cmp_then, cmp_on, evidence_order_key. simpl. rewrite Hie, Hje.
    assert (i < j) as Hij by by eapply increasing_positions.
    by rewrite (proj2 (N.compare_lt_iff (N.of_nat i) (N.of_nat j))) by lia.
  - apply Forall_forall. intros e He. destruct (Forall2_elem_r _ _ _ _ Hevs He) as (o & Ho & i & _ & _ & Hr).
    unfold canonical_evidence. apply reject_if_ok, (unordered_sorted N.compare). rewrite Hr.
    pose proof (pending_roles _ Hp) as Hroles. rewrite Forall_forall in Hroles. by apply Hroles.
  - apply Forall_forall. intros e He. destruct (Forall2_elem_r _ _ _ _ Hevs He) as (o & Ho & i & Hi & -> & _).
    apply lookup_lt_Some in Hi. unfold len_u64. lia.
Qed.

(** What was merged, as it is read back. *)
Definition read_back (r : PackageRelease) (es : list DeclaredDependency) (ds : list Distribution) :
    PackageRelease :=
  {| release_identity := cran_identity (ReleaseIdentity_name (release_identity r)) (release_version r);
     release_version := release_version r; release_metadata := release_metadata r;
     release_publication := release_publication r; release_dependencies := es;
     release_distributions := canonicalize_distributions ds;
     release_metadata_digest := canonical_metadata_digest
       (cran_identity (ReleaseIdentity_name (release_identity r)) (release_version r))
       (release_version r) es |}.

Lemma read_back_same r es ds :
  release_ready r →
  (∀ x, x ∈ encode_dependency <$> es ↔ x ∈ encode_dependency <$> release_dependencies r) →
  same_release (read_back r es ds) r.
Proof.
  intros Hr Hes. destruct (ready_provenance _ Hr) as (v & Hv & Hp).
  assert (cran_identity (ReleaseIdentity_name (release_identity r)) (release_version r)
    ≈ release_identity r) as Hi.
  { apply ReleaseIdentity_req_iff. split; [done|]. simpl. rewrite Hp.
    change ((mk_Identifier (kind:=KPackageNamespace) CRAN_NAMESPACE =?= mk_Identifier "cran")
      && (release_version r =?= v) = true).
    apply andb_true_iff. split; [apply req_refl|symmetry in Hv; exact Hv]. }
  assert (metadata_encoding (cran_identity (ReleaseIdentity_name (release_identity r)) (release_version r))
      (release_version r) es
    = metadata_encoding (release_identity r) (release_version r) (release_dependencies r)) as He.
  { rewrite !metadata_encoding_e, (e_identity_proper _ _ Hi). do 4 f_equal. by apply sort_dedup_ext. }
  constructor; simpl; try done. rewrite (ready_digest _ Hr). by apply canonical_metadata_digest_proper.
Qed.

(** The parts of a written release. *)
Lemma to_wire_release_parts indexes p w :
  to_wire_release p indexes = Ok w ↔ ∃ ws ws' evs digest,
    let r := pending_release p in
    try_map dependency_to_wire (release_dependencies r) = Ok ws ∧
    sort_keyed evidence_dependency_key dependency_key_cmp ws = Ok ws' ∧
    try_map (evidence_to_wire indexes) (pending_observations p) = Ok evs ∧
    parse_digest (release_metadata_digest r) = Ok digest ∧
    w = {| eligible_package := PackageName_as_str (ReleaseIdentity_name (release_identity r));
           eligible_version := RPackageVersion_fmt (release_version r);
           eligible_namespace := "cran"; eligible_git_provenance := None;
           eligible_currentness := pending_currentness p;
           eligible_metadata := fields_to_wire (release_fields (release_metadata r));
           eligible_publication :=
             (λ p, PublicationDate_as_str (ReleasePublication_date p)) <$> release_publication r;
           eligible_dependencies := ws';
           eligible_distributions := sort_by (cmp_on distribution_order_key distribution_key_cmp)
             (distribution_to_wire <$> pending_distributions p);
           eligible_metadata_sha256 := digest; eligible_evidence := evs |}.
Proof.
  unfold to_wire_release. rewrite result_bind_ok. setoid_rewrite result_bind_ok.
  setoid_rewrite result_bind_ok. setoid_rewrite result_bind_ok. split.
  - intros (ws & Hws & ws' & Hws' & evs & Hevs & digest & Hd & [= <-]). by exists ws, ws', evs, digest.
  - intros (ws & ws' & evs & digest & Hws & Hws' & Hevs & Hd & ->).
    exists ws. split; [done|]. exists ws'. split; [done|]. exists evs. split; [done|]. by exists digest.
Qed.

(** A written release stands for the release it was written from. *)
Lemma to_wire_release_stands indexes p w :
  pending_ready p → to_wire_release p indexes = Ok w →
  ∃ r, stands_for w r ∧ same_release r (pending_release p).
Proof.
  intros Hp (ws & ws' & evs & digest & Hws & Hws' & _ & Hd & ->)%to_wire_release_parts.
  pose proof (pending_release_ready _ Hp) as Hr. set (r := pending_release p) in *.
  destruct (dependencies_to_wire _ _ _ (ready_dependencies _ Hr) Hws Hws') as (_ & _ & es & Hes & Hset).
  assert (∃ ds, Forall2 (λ d e, distribution_to_domain d = Ok e)
    (sort_by (cmp_on distribution_order_key distribution_key_cmp)
       (distribution_to_wire <$> pending_distributions p)) ds) as (ds & Hds).
  { pose proof (pending_distributions_ready _ Hp) as Hready. rewrite Forall_forall in Hready.
    apply Forall_exists_Forall2_l, Forall_forall.
    intros d (e & -> & He)%elem_of_sort_by%list_elem_of_fmap. by apply distribution_to_wire_ok, Hready. }
  pose proof (read_back_same r es ds Hr Hset) as Hsame. exists (read_back r es ds). split; [|done].
  pose proof (ready_fields _ Hr) as Hf. destruct (fields_to_wire_id _ Hf) as (_ & _ & Hpairs).
  constructor; cbn -[metadata_encoding].
  - apply (ready_name _ Hr).
  - apply (ready_version _ Hr).
  - done.
  - unfold fields_stand. change (λ f, (field_name f, field_value f)) with field_pair.
    by rewrite Hpairs, (bt_from_iter_sorted_id str_cmp) by exact Hf.
  - apply (ready_unreserved _ Hr).
  - pose proof (ready_publication _ Hr) as Hpub. destruct (release_publication r) as [q|]; [|done].
    simpl. pose proof (Hpub q eq_refl) as [? ?]%PublicationDate_parse_ok. split; [by apply Hpub|done].
  - eapply Forall2_impl; [exact Hes|]. intros x y. apply dependency_to_domain_ok.
  - exists ds. split; [|done].
    eapply Forall2_impl; [exact Hds|]. intros x y. apply distribution_to_domain_ok.
  - rewrite (ready_digest _ Hr) in Hd. apply parse_metadata_digest in Hd as ->.
    transitivity (hex (sha256_digest (metadata_encoding (release_identity (read_back r es ds))
      (release_version r) (release_dependencies (read_back r es ds)))));
      [apply canonical_metadata_digest_hex|].
    exact (f_equal (λ l, hex (sha256_digest l)) (same_encoding _ _ Hsame)).
  - rewrite (ready_digest _ Hr) in Hd. apply parse_metadata_digest in Hd as ->. f_equal. symmetry.
    apply (same_encoding _ _ Hsame).
Qed.

(** A written release is in canonical form. *)
Lemma to_wire_release_canonical indexes p w :
  pending_ready p → StronglySorted lt indexes → (N.of_nat (length indexes) ≤ 2 ^ 32)%N →
  to_wire_release p indexes = Ok w →
  canonical_release w = Ok tt ∧
  Forall (λ e, evidence_observation_id e < len_u64 indexes)%N (eligible_evidence w).
Proof.
  intros Hp Hs Hlen (ws & ws' & evs & digest & Hws & Hws' & Hevs & _ & ->)%to_wire_release_parts.
  pose proof (pending_release_ready _ Hp) as Hr.
  destruct (dependencies_to_wire _ _ _ (ready_dependencies _ Hr) Hws Hws') as ((ks & Hks & Hdk) & Hcd & _).
  destruct (evidence_to_wire_canonical _ _ _ Hp Hs Hlen Hevs) as (Hek & Hce & Hids).
  split; [|exact Hids]. unfold canonical_release, validate_fields. simpl. apply reject_bind. split.
  { apply (unordered_sorted str_cmp). apply fields_to_wire_id, (ready_fields _ Hr). }
  apply try_map_bind. exists ks. split; [exact Hks|]. apply reject_bind.
  split; [by apply (unordered_sorted dependency_key_cmp)|].
  apply check_bind. split; [by apply try_each_ok|]. apply reject_bind. split.
  { apply (unordered_sorted distribution_key_cmp), (sort_by_distinct distribution_order_key); [apply _..|].
    rewrite <-list_fmap_compose. exact (pending_places _ Hp). }
  apply check_bind. split.
  { apply try_each_ok, Forall_forall. intros d (e & -> & He)%elem_of_sort_by%list_elem_of_fmap.
    pose proof (pending_distributions_ready _ Hp) as Hready. rewrite Forall_forall in Hready.
    by apply distribution_to_wire_ok, Hready. }
  apply reject_bind. split; [by apply (unordered_sorted evidence_key_cmp)|]. by apply try_each_ok.
Qed.
End releases.
