(* ===== verification/EvidenceMerge.v ===== *)
(** * The merge of one release

    What the observations of one release are merged to: the union of what they
    say, ready to be written. *)

From S2P Require Import Prelude RustStd Collections Externals Text Format Versions Names Publication.
From S2P Require Import Identity Constraints Digest Metadata Snapshot SnapshotValidation SnapshotCodec.
From S2P Require Import SnapshotLaws SnapshotHistoryLaws SnapshotReleaseLaws Catalog Evidence EvidenceWire.

(** ** Metadata *)

(** A map of the fields [fs] by their lower-case names. *)
Record fields_merged (fs : list (string * string)) (m : list (string * (string * string))) : Prop := {
  merged_sorted : bt_sorted str_cmp m;
  merged_all f : f ∈ fs → ∃ g, bt_get str_cmp (to_ascii_lowercase f.1) m = Some g ∧ g.2 = f.2;
  merged_only k g : (k, g) ∈ m → g ∈ fs ∧ k = to_ascii_lowercase g.1;
}.

Lemma merge_field_step label fs m f m' :
  fields_merged fs m → merge_field label m f = Ok m' → fields_merged (fs ++ [f]) m'.
Proof.
  intros [Hs Hall Honly] Hm. unfold merge_field in Hm.
  destruct (bt_get str_cmp (to_ascii_lowercase f.1) m) as [g|] eqn:E.
  - case_bool_decide as Hne; [done|]. injection Hm as <-. constructor; [done|..].
    + intros x [Hx| ->%list_elem_of_singleton]%elem_of_app; [by apply Hall|]. by exists g.
    + intros k x [? ?]%Honly. split; [|done]. apply elem_of_app. by left.
  - injection Hm as <-. constructor; [by apply (bt_insert_sorted str_cmp)|..].
    + intros x [Hx| ->%list_elem_of_singleton]%elem_of_app.
      * destruct (Hall x Hx) as (g & Hg & Heq). exists g. split; [|done].
        rewrite (bt_get_insert_ne str_cmp); [done|]. intros Hc%(cmp_eq_leibniz str_cmp). congruence.
      * exists f. split; [|done]. apply (bt_get_insert_eq str_cmp), (cmp_refl str_cmp).
    + intros k x [[= -> ->]|[? ?]%Honly]%(bt_insert_subset str_cmp); rewrite elem_of_app, list_elem_of_singleton; auto.
Qed.

Lemma merge_fields_ok label fs m :
  try_fold (merge_field label) [] fs = Ok m → fields_merged fs m.
Proof.
  revert m. induction fs as [|f fs IH] using rev_ind; intros m; simpl.
  - intros [= <-]. constructor; [constructor|by intros ? ?%elem_of_nil|by intros ? ? ?%elem_of_nil].
  - rewrite try_fold_app. intros (m0 & Hm0%IH & Hm)%result_bind_ok. simpl in Hm.
    apply result_bind_ok in Hm as (m1 & Hm & [= ->]). by eapply merge_field_step.
Qed.

(** The fields of the merged release. *)
Lemma merged_fields_ok fs m metadata :
  fields_merged fs m → ReleaseMetadata_from_pairs (bt_values m) = Ok metadata →
  fields_built (release_fields metadata) ∧
  Forall (λ f, Metadata.is_reserved_field f.1 = false) (release_fields metadata) ∧
  (∀ f, f ∈ release_fields metadata → f ∈ fs) ∧
  (∀ f, f ∈ fs → ∃ g, g ∈ release_fields metadata ∧
     to_ascii_lowercase g.1 = to_ascii_lowercase f.1 ∧ g.2 = f.2).
Proof.
  intros [Hs Hall Honly] [-> Hres]%ReleaseMetadata_new_ok_iff. simpl.
  assert (NoDup (bt_values m).*1) as Hn.
  { apply (NoDup_fmap_1 to_ascii_lowercase). unfold bt_values.
    assert (to_ascii_lowercase <$> (m.*2).*1 = m.*1) as ->; [|by apply (bt_sorted_NoDup str_cmp)].
    rewrite <-!list_fmap_compose. apply list_fmap_ext. intros i [k g] Hi%list_elem_of_lookup_2.
    by destruct (Honly k g Hi) as [_ ->]. }
  assert (∀ g, g ∈ bt_from_iter str_cmp (bt_values m) ↔ g ∈ bt_values m) as Hin.
  { intros g. by apply elem_of_bt_from_iter; [apply _..|]. }
  split_and!; [apply (bt_from_iter_bt_sorted str_cmp)|done|..].
  - intros f ([k g] & -> & Hk)%Hin%list_elem_of_fmap. by destruct (Honly k g Hk).
  - intros f Hf. destruct (Hall f Hf) as (g & Hg & Heq). exists g.
    apply (bt_get_in str_cmp) in Hg as (k & Hk%(cmp_eq_leibniz str_cmp) & Hkg).
    destruct (Honly k g Hkg) as [_ Hlow]. split_and!; [|congruence|done].
    apply Hin, list_elem_of_fmap. by exists (k, g).
Qed.

(** ** Publication *)

Section releases.
Context `{CivilDate, Sha2, !Sha2Laws, UnicodeTables}.
Context `{!JsonBytes (list FieldV1 * option OccurrenceArtifactV1)}.

(** The one date the releases have. *)
Definition publication_of (rs : list PackageRelease) (p : option ReleasePublication) : Prop :=
  (∀ r q, r ∈ rs → release_publication r = Some q → p = Some q) ∧
  (∀ q, p = Some q → ∃ r, r ∈ rs ∧ release_publication r = Some q).

Lemma merge_publications_ok label rs p :
  try_fold (merge_publication label) None rs = Ok p → publication_of rs p.
Proof.
  revert p. induction rs as [|r rs IH] using rev_ind; intros p; simpl.
  - intros [= <-]. split; [by intros ? ? ?%elem_of_nil|done].
  - rewrite try_fold_app. intros (p0 & [Hall Honly]%IH & Hp)%result_bind_ok. simpl in Hp.
    apply result_bind_ok in Hp as (p1 & Hp & [= ->]). unfold merge_publication in Hp. unfold publication_of.
    setoid_rewrite elem_of_app. setoid_rewrite list_elem_of_singleton.
    destruct (release_publication r) as [q|] eqn:Hr.
    + assert (p = Some q ∧ (∀ q', p0 = Some q' → q' = q)) as [-> Hold].
      { destruct p0 as [q'|]; [|by injection Hp as <-].
        case_bool_decide as Hne; [done|]. injection Hp as <-. naive_solver. }
      split; [|naive_solver]. intros r' q' [Hr'| ->] Hq'; [|congruence].
      by rewrite (Hold q' (Hall r' q' Hr' Hq')).
    + injection Hp as <-. split; [|naive_solver]. intros r' q' [Hr'| ->] Hq'; [by eapply Hall|congruence].
Qed.

(** ** What observations and their releases are made of *)

(** A distribution of a catalog entry. *)
Record distribution_built (d : Distribution) : Prop := {
  built_channel : identifier_built (channel d);
  built_snapshot s : snapshot d = Some s → identifier_built s;
  built_metadata : fields_built (metadata_fields (observed_metadata d));
}.

(** A release that an observation carries, checked by [index_observations]. *)
Record release_observed (r : PackageRelease) : Prop := {
  observed_name : package_built (ReleaseIdentity_name (release_identity r));
  observed_provenance : ∃ v, v ≈ release_version r ∧
    ReleaseIdentity_provenance (release_identity r) = RegistryRelease (mk_Identifier "cran") v;
  observed_version_built :
    RPackageVersion_parse (RPackageVersion_fmt (release_version r)) = Ok (release_version r);
  observed_date p : release_publication r = Some p →
    PublicationDate_parse (PublicationDate_as_str (ReleasePublication_date p)) = Ok (ReleasePublication_date p);
  observed_dependencies_built : Forall dependency_built (release_dependencies r);
  observed_distributions_built : Forall distribution_built (release_distributions r);
}.

Definition registry_built (binding : DistributionRegistryBinding) : Prop :=
  match binding with ConfiguredContext => True | Explicit registry => identifier_built registry end.

(** The checksums of an artifact are lower-case, sorted and distinct. *)
Definition artifact_canonical (artifact : OccurrenceArtifactV1) : Prop :=
  Forall (λ c, checksum_algorithm c = to_ascii_lowercase (checksum_algorithm c))
    (occurrence_checksums artifact) ∧
  strictly_sorted (pair_cmp str_cmp str_cmp) (checksum_order_key <$> occurrence_checksums artifact).

Record observation_ready (o : IndexedObservation) : Prop := {
  ready_binding : registry_built (indexed_distribution_registry o);
  ready_artifact a : indexed_artifact o = Some a → artifact_canonical a;
  ready_release r : indexed_release o = Some r → release_observed r;
}.

(** ** Distributions *)

Definition place_key (d : Distribution) : DistributionOrderKey :=
  distribution_order_key (distribution_to_wire d).

Lemma same_place_iff d e : same_place d e = true ↔ place_key d = place_key e.
Proof.
  unfold same_place, place_key, distribution_order_key. simpl. rewrite !andb_true_iff, !req_leibniz. split.
  - by intros [[-> ->] ->].
  - intros [= Hr%identifier_eq Hc%identifier_eq Hs]. split_and!; [done..|].
    destruct (snapshot d), (snapshot e); simplify_eq/=; [|done]. f_equal. by apply identifier_eq.
Qed.

Lemma merge_distribution_field_built label fields f fields' :
  fields_built fields → merge_distribution_field label fields f = Ok fields' → fields_built fields'.
Proof.
  intros Hf. unfold merge_distribution_field. destruct (bt_get _ _ _); [case_bool_decide|]; intros [= <-];
    [done|]. by apply (bt_insert_sorted str_cmp).
Qed.

Lemma try_fold_invariant {A B E} (P : B → Prop) (Q : A → Prop) (f : B → A → result B E) acc l acc' :
  (∀ acc x acc', P acc → Q x → f acc x = Ok acc' → P acc') →
  P acc → Forall Q l → try_fold f acc l = Ok acc' → P acc'.
Proof.
  intros Hf. revert acc. induction l as [|x l IH]; intros acc Hacc Hl; simpl; [by intros [= <-]|].
  inversion Hl; subst. intros (acc1 & Hx & Hk)%result_bind_ok. eapply IH; [|done..]. by eapply Hf.
Qed.

Lemma elem_of_push_artifacts l k a : a ∈ foldl push_artifact l k ↔ a ∈ l ∨ a ∈ k.
Proof.
  revert l. induction k as [|b k IH]; intros l; simpl; [rewrite elem_of_nil; naive_solver|].
  rewrite IH, elem_of_cons. unfold push_artifact. case_bool_decide; [naive_solver|].
  rewrite elem_of_app, list_elem_of_singleton. naive_solver.
Qed.

(** Distributions that can be written, of distinct places. *)
Definition distributions_ready (l : list Distribution) : Prop :=
  Forall distribution_ready l ∧ NoDup (place_key <$> l).

Lemma merge_distribution_ready label d l l' :
  distribution_ready d → distributions_ready l → merge_distribution label d l = Ok l' →
  distributions_ready l' ∧ (∀ k, k ∈ place_key <$> l' ↔ k = place_key d ∨ k ∈ place_key <$> l).
Proof.
  intros Hd. revert l'. induction l as [|e l IH]; intros l' [Hl Hn] Hm; simpl in Hm.
  { injection Hm as <-. split; [|intros k; simpl; rewrite list_elem_of_singleton, elem_of_nil; naive_solver].
    split; [constructor; [exact Hd|constructor]|]. apply NoDup_singleton. }
  inversion Hl as [|? ? He Hl']; inversion Hn as [|? ? Hne Hn']; subst.
  destruct (same_place e d) eqn:E.
  - apply same_place_iff in E. apply result_bind_ok in Hm as (fields & Hf & [= <-]). split; [split|].
    + constructor; [|done]. destruct He as [? ? ? Hm Ha], Hd as [_ _ _ _ Hda]. constructor; simpl; try done.
      * eapply (try_fold_invariant fields_built (λ _, True)); [|exact Hm|by apply Forall_true|exact Hf].
        intros ? ? ? ? _. by apply merge_distribution_field_built.
      * apply Forall_forall. rewrite Forall_forall in Ha, Hda.
        intros a [Hin|Hin]%elem_of_push_artifacts; auto.
    + exact Hn.
    + intros k. simpl. change (place_key (mk_Distribution _ _ _ _ _)) with (place_key e).
      rewrite <-E, elem_of_cons. naive_solver.
  - apply result_bind_ok in Hm as (l1 & Hl1 & [= <-]). destruct (IH l1) as [[Hr Hn1] Hk]; [done..|].
    split; [split|].
    + by constructor.
    + simpl. constructor; [|done]. rewrite Hk. intros [Hc|Hc]; [|done].
      apply (proj2 (same_place_iff e d)) in Hc. congruence.
    + intros k. simpl. rewrite !elem_of_cons, Hk. naive_solver.
Qed.

Lemma domain_checksums_ready l us :
  Forall (λ c, checksum_algorithm c = to_ascii_lowercase (checksum_algorithm c)) l →
  try_map domain_checksum l = Ok us → Forall checksum_ready us.
Proof.
  intros Hl Hus%try_map_ok. apply Forall_forall. intros u Hu. rewrite Forall_forall in Hl.
  destruct (Forall2_elem_r _ _ _ _ Hus Hu) as (c & Hc & ?). exists c. split; [by apply Hl|done].
Qed.

(** The distribution of an observation, without its artifact. *)
Lemma template_distribution_ready templates registry d :
  Forall distribution_built templates → identifier_built registry →
  template_distribution templates registry = Ok d →
  distribution_ready d ∧ artifacts d = [] ∧ Identity.registry d = registry.
Proof.
  intros Ht Hr Hd.
  assert (∀ t, t ∈ templates → distribution_ready (emptied t registry)) as Hready.
  { rewrite Forall_forall in Ht. intros t [? ? ?]%Ht. by constructor. }
  assert ((d = mk_Distribution registry (mk_Identifier "source") None [] (mk_DistributionMetadata [])) ∨
    ∃ t, t ∈ templates ∧ d = emptied t registry) as [->|(t & Hin & ->)].
  { unfold template_distribution in Hd. destruct templates as [|t [|u templates]]; [left|right|right].
    - by injection Hd as <-.
    - injection Hd as <-. exists t. split; [left|done].
    - destruct (List.filter _ _) as [|x [|]] eqn:E; [done| |done]. injection Hd as <-. exists x.
      split; [|done]. apply list_elem_of_In, (filter_In (λ t, Identity.registry t =?= registry)).
      rewrite E. by left. }
  - split; [|done]. constructor; try done. constructor.
  - split; [|done]. by apply Hready.
Qed.

Lemma distributions_for_observation_ready r o configured ds :
  release_observed r → observation_ready o → identifier_built configured →
  distributions_for_observation r o configured = Ok ds → Forall distribution_ready ds.
Proof.
  intros Hr Ho Hc. unfold distributions_for_observation.
  destruct (negb _); [intros [= <-]; constructor|].
  destruct (axes_occurrence _), (indexed_artifact o) as [a|] eqn:Ea; intros Hd; try (injection Hd as <-; constructor).
  apply result_bind_ok in Hd as (d & Hd & Hk). apply result_bind_ok in Hk as (l & Hl%map_err_ok & Hk).
  apply result_bind_ok in Hk as (us & Hus & [= <-]).
  apply template_distribution_ready in Hd as ([] & Hempty & _); [|apply (observed_distributions_built _ Hr)|].
  - constructor; [|constructor]. constructor; simpl; try done. rewrite Hempty.
    rewrite bool_decide_eq_false_2 by apply not_elem_of_nil. constructor; [|constructor]. split.
    + simpl. unfold identifier_built. destruct names_roundtrip as (_ & Hid & _). by eapply Hid.
    + simpl. eapply domain_checksums_ready; [|exact Hus]. by destruct (ready_artifact _ Ho a Ea).
  - pose proof (ready_binding _ Ho) as Hb. by destruct (indexed_distribution_registry o).
Qed.

(** ** Roles *)

Lemma evidence_roles_sorted o ds : strictly_sorted N.compare (role_rank <$> evidence_roles_of o ds).
Proof.
  unfold evidence_roles_of.
  assert (Inj (=) (=) role_rank) by (intros r s; apply role_rank_inj).
  apply (keyed_set_strict role_rank N.compare).
Qed.

(** ** The merge *)

Section merge.
Context (observations : list IndexedObservation) (configured : RegistryId).

(** The entries of one release: observations in order, with the releases they carry. *)
Record entries_ready (entries : list Entry) : Prop := {
  entries_increasing : StronglySorted lt entries.*1;
  entries_observed i r : (i, r) ∈ entries →
    ∃ o, observations !! i = Some o ∧ indexed_release o = Some r ∧ observation_ready o;
}.

Lemma collect_evidence_step label ds ev i r ds' ev' :
  identifier_built configured → distributions_ready ds →
  (∃ o, observations !! i = Some o ∧ indexed_release o = Some r ∧ observation_ready o) →
  collect_evidence observations configured label (ds, ev) (i, r) = Ok (ds', ev') →
  distributions_ready ds' ∧ ∃ roles, ev' = ev ++ [(i, roles)] ∧ strictly_sorted N.compare (role_rank <$> roles).
Proof.
  intros Hc Hds (o & Ho & Hr & Hready). unfold collect_evidence. simpl. rewrite Ho.
  intros (observed & Hobs & Hk)%result_bind_ok. apply result_bind_ok in Hk as (l & Hl & [= <- <-]).
  apply distributions_for_observation_ready in Hobs; [|by apply (ready_release _ Hready)|done..]. split.
  - eapply (try_fold_invariant distributions_ready distribution_ready); [|exact Hds|exact Hobs|exact Hl].
    intros acc d acc' Hacc Hd Hm. apply merge_distribution_ready in Hm as [? _]; done.
  - exists (evidence_roles_of o observed). split; [done|]. apply evidence_roles_sorted.
Qed.

Lemma collect_evidence_ok label entries ds ev :
  identifier_built configured →
  (∀ i r, (i, r) ∈ entries → ∃ o, observations !! i = Some o ∧ indexed_release o = Some r ∧ observation_ready o) →
  try_fold (collect_evidence observations configured label) ([], []) entries = Ok (ds, ev) →
  distributions_ready ds ∧ ev.*1 = entries.*1 ∧ Forall (λ e, strictly_sorted N.compare (role_rank <$> e.2)) ev.
Proof.
  intros Hc. revert ds ev. induction entries as [|[i r] entries IH] using rev_ind; intros ds ev He; simpl.
  { intros [= <- <-]. split_and!; [|done|constructor]. split; constructor. }
  rewrite try_fold_app. intros ([ds0 ev0] & Hf & Hk)%result_bind_ok.
  destruct (IH ds0 ev0) as (Hds & Hev & Hroles); [|done|].
  { intros j s Hj. apply He, elem_of_app. by left. }
  simpl in Hk. apply result_bind_ok in Hk as ([ds1 ev1] & Hstep & [= -> ->]).
  apply collect_evidence_step in Hstep as (Hds' & roles & -> & Hr); [|done..|].
  - split_and!; [done| |].
    + by rewrite !fmap_app, Hev.
    + apply Forall_app. split; [done|]. by constructor.
  - apply He, elem_of_app. right. left.
Qed.

(** What the entries are merged to. *)
Record merged_to (first : PackageRelease) (entries : list Entry) (authority : PackageRelease)
    (authoritative : list Entry) (p : PendingRelease) : Prop := {
  merged_ready : pending_ready p;
  merged_identity : release_identity (pending_release p) = release_identity first;
  merged_version : release_version (pending_release p) = release_version first;
  merged_dependencies : release_dependencies (pending_release p) = release_dependencies authority;
  merged_evidence : (pending_observations p).*1 = entries.*1;
  merged_date : publication_of entries.*2 (release_publication (pending_release p));
  merged_fields_only f : f ∈ release_fields (release_metadata (pending_release p)) →
    ∃ e, e ∈ entries ∧ f ∈ release_fields (release_metadata e.2);
  merged_fields_all e f : e ∈ entries → f ∈ release_fields (release_metadata e.2) →
    ∃ g, g ∈ release_fields (release_metadata (pending_release p)) ∧
      to_ascii_lowercase g.1 = to_ascii_lowercase f.1 ∧ g.2 = f.2;
  merged_semantics : ∃ key, canonical_dependency_semantics (release_dependencies authority) = Ok key ∧
    Forall (λ e, canonical_dependency_semantics (release_dependencies e.2) = Ok key) (drop 1 authoritative);
  merged_currentness :
    pending_currentness p = if existsb (is_current observations) entries then CurrentV1 else HistoricalV1;
}.

(** The parts of a merge. *)
Lemma merge_release_group_parts first entries authority authoritative p :
  merge_release_group observations configured first entries authority authoritative = Ok p →
  ∃ label m key publication ds ev metadata,
    try_fold (merge_field label) [] (mjoin ((λ e, release_fields (release_metadata e.2)) <$> entries)) = Ok m ∧
    canonical_dependency_semantics (release_dependencies authority) = Ok key ∧
    Forall (λ e, canonical_dependency_semantics (release_dependencies e.2) = Ok key) (drop 1 authoritative) ∧
    try_fold (merge_publication label) None entries.*2 = Ok publication ∧
    try_fold (collect_evidence observations configured label) ([], []) entries = Ok (ds, ev) ∧
    ReleaseMetadata_from_pairs (bt_values m) = Ok metadata ∧
    PackageRelease_try_from
      {| observed_identity := release_identity first;
         observed_package := ReleaseIdentity_name (release_identity first);
         observed_version := release_version first; observed_release_metadata := metadata;
         observed_publication := publication; observed_dependencies := release_dependencies authority;
         observed_distributions := ds |} = Ok (pending_release p) ∧
    pending_distributions p = ds ∧ pending_observations p = ev ∧
    pending_currentness p = if existsb (is_current observations) entries then CurrentV1 else HistoricalV1.
Proof.
  unfold merge_release_group. intros (m & Hm & Hk)%result_bind_ok.
  apply result_bind_ok in Hk as (key & Hkey & Hk). apply check_bind in Hk as [Hsame Hk].
  apply result_bind_ok in Hk as (publication & Hp & Hk). apply result_bind_ok in Hk as ([ds ev] & Hc & Hk).
  apply result_bind_ok in Hk as (metadata & Hmd%map_err_ok & Hk).
  apply result_bind_ok in Hk as (merged & Hmerged%map_err_ok & Hk).
  apply result_bind_ok in Hk as (agg & _ & [= <-]).
  do 7 eexists. split_and!; try done.
  apply try_each_ok in Hsame. eapply Forall_impl; [exact Hsame|]. simpl.
  intros e (key' & Hkey' & He)%result_bind_ok. rewrite Hkey'. by case_bool_decide as Hne; [|rewrite Hne].
Qed.

Lemma PackageRelease_try_from_ok o r :
  PackageRelease_try_from o = Ok r →
  release_identity r = observed_identity o ∧ release_version r = observed_version o ∧
  release_metadata r = observed_release_metadata o ∧ release_publication r = observed_publication o ∧
  release_dependencies r = observed_dependencies o ∧
  release_metadata_digest r
    = canonical_metadata_digest (observed_identity o) (observed_version o) (observed_dependencies o).
Proof.
  unfold PackageRelease_try_from. destruct (negb _); [done|].
  destruct (match provenance_version _ with Some _ => _ | None => _ end); [done|].
  destruct (first_invalid_dependency _ _); [done|]. by intros [= <-].
Qed.

Lemma merge_release_group_ok first entries authority authoritative p :
  identifier_built configured → entries_ready entries →
  first ∈ entries.*2 → authority ∈ entries.*2 →
  merge_release_group observations configured first entries authority authoritative = Ok p →
  merged_to first entries authority authoritative p.
Proof.
  intros Hc He Hfirst Hauth
    (label & m & key & publication & ds & ev & metadata & Hm & Hkey & Hsame & Hp & Hcol & Hmd & Hr & Hds & Hev & Hcur)
      %merge_release_group_parts.
  assert (∀ r, r ∈ entries.*2 → release_observed r) as Hobs.
  { intros r ([i s] & -> & Hi)%list_elem_of_fmap.
    destruct (entries_observed _ He i s Hi) as (o & _ & Hs & Ho). by apply (ready_release _ Ho). }
  apply merge_fields_ok in Hm. destruct (merged_fields_ok _ _ _ Hm Hmd) as (Hbuilt & Hres & Honly & Hall).
  apply merge_publications_ok in Hp.
  apply collect_evidence_ok in Hcol as ([Hready Hplaces] & Hidx & Hroles); [|done|apply He].
  apply PackageRelease_try_from_ok in Hr as (Hi & Hv & Hmeta & Hpub & Hdeps & Hdig). simpl in *.
  destruct (Hobs _ Hfirst) as [Hn Hprov Hver _ _ _]. destruct (Hobs _ Hauth) as [_ _ _ _ Hdb _].
  assert (release_ready (pending_release p)) as Hrelease.
  { constructor; rewrite ?Hi, ?Hv, ?Hmeta, ?Hpub, ?Hdeps; try done.
    intros q Hq. destruct Hp as [_ Hp]. destruct (Hp q Hq) as (r & Hr & Hrq).
    by apply (observed_date _ (Hobs r Hr)). }
  assert (pending_ready p) as Hpending.
  { constructor; rewrite ?Hds, ?Hev; try done. rewrite Hidx. apply (entries_increasing _ He). }
  constructor; rewrite ?Hi, ?Hv, ?Hdeps, ?Hev, ?Hpub, ?Hmeta; try done.
  - intros f Hf%Honly. apply list_elem_of_join in Hf as (fs & Hf & (e & -> & Hin)%list_elem_of_fmap). by exists e.
  - intros e f Hin Hf. apply Hall, list_elem_of_join. eexists. split; [exact Hf|].
    apply list_elem_of_fmap. by exists e.
  - by exists key.
Qed.

(** ** The union of what the observations say *)

(** Two dependencies that mean the same: the kind, the package, and clauses with the same
    relations to equal versions, whatever their spelling, order and repetitions. *)
Definition clause_alike (k k' : VersionClause) : Prop :=
  clause_op k = clause_op k' ∧ clause_version k ≈ clause_version k'.
Definition dependency_alike (d d' : DeclaredDependency) : Prop :=
  declared_kind d = declared_kind d' ∧
  requirement_name (declared_package d) = requirement_name (declared_package d') ∧
  (∀ k, k ∈ clauses (requirement_constraint (declared_package d)) →
     ∃ k', k' ∈ clauses (requirement_constraint (declared_package d')) ∧ clause_alike k k') ∧
  (∀ k', k' ∈ clauses (requirement_constraint (declared_package d')) →
     ∃ k, k ∈ clauses (requirement_constraint (declared_package d)) ∧ clause_alike k k').
Definition dependencies_alike (l l' : list DeclaredDependency) : Prop :=
  (∀ d, d ∈ l → ∃ d', d' ∈ l' ∧ dependency_alike d d') ∧
  (∀ d', d' ∈ l' → ∃ d, d ∈ l ∧ dependency_alike d d').

Lemma semantic_clause_alike k k' x :
  clause_built k → clause_built k' → semantic_clause k = Ok x → semantic_clause k' = Ok x →
  clause_alike k k'.
Proof.
  intros Hk Hk' (v & Hv%map_err_ok & <-)%result_bind_ok (v' & Hv'%map_err_ok & [= Ho Hc])%result_bind_ok.
  apply version_reparsed in Hv as ->; [|done]. apply version_reparsed in Hv' as ->; [|done]. split.
  - by destruct (clause_op k), (clause_op k').
  - apply version_req_iter. by rewrite <-!canonical_version_components_iter.
Qed.

Lemma semantic_key_alike d d' key :
  dependency_built d → dependency_built d' → semantic_key d = Ok key → semantic_key d' = Ok key →
  dependency_alike d d'.
Proof.
  intros [_ _ Hd] [_ _ Hd'] (ks & Hks%try_map_ok & [= <-])%result_bind_ok.
  intros (ks' & Hks'%try_map_ok & [= Hkind Hname Hset])%result_bind_ok.
  rewrite Forall_forall in Hd, Hd'.
  assert (∀ x, x ∈ ks ↔ x ∈ ks') as Heq.
  { intros x. rewrite <-(elem_of_sorted_set semantic_clause_cmp x ks), <-Hset.
    apply (elem_of_sorted_set semantic_clause_cmp). }
  split_and!.
  - by destruct (declared_kind d), (declared_kind d').
  - destruct (requirement_name (declared_package d)), (requirement_name (declared_package d')).
    simpl in *. congruence.
  - intros k Hk. destruct (Forall2_elem_l _ _ _ _ Hks Hk) as (x & Hx%Heq & Hkx).
    destruct (Forall2_elem_r _ _ _ _ Hks' Hx) as (k' & Hk' & Hkx'). exists k'. split; [done|].
    eapply semantic_clause_alike; eauto.
  - intros k' Hk'. destruct (Forall2_elem_l _ _ _ _ Hks' Hk') as (x & Hx%Heq & Hkx').
    destruct (Forall2_elem_r _ _ _ _ Hks Hx) as (k & Hk & Hkx). exists k. split; [done|].
    eapply semantic_clause_alike; eauto.
Qed.

Lemma canonical_semantics_alike l l' key :
  Forall dependency_built l → Forall dependency_built l' →
  canonical_dependency_semantics l = Ok key → canonical_dependency_semantics l' = Ok key →
  dependencies_alike l l'.
Proof.
  intros Hl Hl' (ks & Hks%try_map_ok & [= <-])%result_bind_ok.
  intros (ks' & Hks'%try_map_ok & [= Hset])%result_bind_ok. rewrite Forall_forall in Hl, Hl'.
  assert (∀ x, x ∈ ks ↔ x ∈ ks') as Heq.
  { intros x. rewrite <-(elem_of_sorted_set semantic_key_cmp x ks), <-Hset.
    apply (elem_of_sorted_set semantic_key_cmp). }
  split.
  - intros d Hd. destruct (Forall2_elem_l _ _ _ _ Hks Hd) as (x & Hx%Heq & Hdx).
    destruct (Forall2_elem_r _ _ _ _ Hks' Hx) as (d' & Hd' & Hdx'). exists d'. split; [done|].
    eapply semantic_key_alike; eauto.
  - intros d' Hd'. destruct (Forall2_elem_l _ _ _ _ Hks' Hd') as (x & Hx%Heq & Hdx').
    destruct (Forall2_elem_r _ _ _ _ Hks Hx) as (d & Hd & Hdx). exists d. split; [done|].
    eapply semantic_key_alike; eauto.
Qed.

(** The place a distribution is published at. *)
Definition place (d : Distribution) : RegistryId * DistributionChannel * option SnapshotId :=
  (registry d, channel d, snapshot d).
Definition distribution_fields (d : Distribution) : Fields := metadata_fields (observed_metadata d).

Lemma same_place_place d e : same_place d e = true ↔ place d = place e.
Proof.
  unfold same_place, place. rewrite !andb_true_iff, !req_leibniz. split; [by intros [[-> ->] ->]|].
  by intros [= -> -> ->].
Qed.

(** An observation of a downloadable artifact of the root archive. *)
Definition artifact_bound (o : IndexedObservation) : Prop :=
  indexed_scope o = Root ∧ axes_occurrence (indexed_axes o) = OccurrenceArtifactBound ∧
  is_Some (indexed_artifact o).

(** The registry the observation names, or the configured one. *)
Definition bound_registry (o : IndexedObservation) (r : RegistryId) : Prop :=
  match indexed_distribution_registry o with ConfiguredContext => r = configured | Explicit e => r = e end.

(** Where the release says it is published: its one distribution, or the one of the registry
    when it has several, or the source channel when it has none. *)
Definition described_by (templates : list Distribution) (d : Distribution) : Prop :=
  (templates = [] ∧ channel d = mk_Identifier "source" ∧ snapshot d = None ∧ distribution_fields d = []) ∨
  (∃ before t after, templates = before ++ t :: after ∧
     (before ++ after ≠ [] → registry t = registry d) ∧
     Forall (λ u, registry u ≠ registry d) (before ++ after) ∧
     channel d = channel t ∧ snapshot d = snapshot t ∧ distribution_fields d = distribution_fields t).

(** What one observation of a release says of its distribution: one artifact, with the
    location, the checksums and the size that were observed. *)
Record says (r : PackageRelease) (o : IndexedObservation) (d : Distribution) : Prop := {
  says_bound : artifact_bound o;
  says_registry : bound_registry o (registry d);
  says_described : described_by (release_distributions r) d;
  says_artifact w : indexed_artifact o = Some w → ∃ a, artifacts d = [a] ∧
    artifact_stands (mk_ArtifactV1 (occurrence_locator w) (occurrence_checksums w) (occurrence_size w)) a;
}.

Lemma domain_checksum_ok w c : domain_checksum w = Ok c ↔ checksum_stands w c.
Proof.
  rewrite <-checksum_to_domain_ok. unfold domain_checksum, checksum_to_domain.
  case_bool_decide; [|case_bool_decide; naive_solver].
  destruct (Sha256Digest_new _); simpl; naive_solver.
Qed.

Lemma emptied_described templates before t after reg :
  templates = before ++ t :: after → (before ++ after ≠ [] → registry t = reg) →
  Forall (λ u, registry u ≠ reg) (before ++ after) →
  described_by templates (emptied t reg).
Proof. intros Ht Hr Hn. right. by exists before, t, after. Qed.

Lemma filter_singleton_split {A} (f : A → bool) l x :
  List.filter f l = [x] → ∃ before after, l = before ++ x :: after ∧ f x = true ∧
    Forall (λ y, f y = false) (before ++ after).
Proof.
  induction l as [|y l IH]; simpl; [done|]. destruct (f y) eqn:Hy.
  - intros [= -> Hl]. exists [], l. split_and!; [done..|]. simpl. apply Forall_forall. intros z Hz.
    apply not_true_iff_false. intros Hf.
    assert (z ∈ List.filter f l) as Hin by by apply elem_of_filter_bool. rewrite Hl in Hin.
    by apply elem_of_nil in Hin.
  - intros (before & after & -> & Hx & Hn)%IH. exists (y :: before), after.
    split_and!; [done..|]. simpl. by constructor.
Qed.

Lemma template_distribution_described templates reg d :
  template_distribution templates reg = Ok d →
  registry d = reg ∧ artifacts d = [] ∧ described_by templates d.
Proof.
  unfold template_distribution. destruct templates as [|t [|u templates]].
  - intros [= <-]. split_and!; [done..|]. left. done.
  - intros [= <-]. split_and!; [done..|]. by apply (emptied_described _ [] t []).
  - destruct (List.filter _ _) as [|x [|]] eqn:E; [done| |done]. intros [= <-].
    apply filter_singleton_split in E as (before & after & Ht & Hx%req_leibniz & Hn).
    split_and!; [done..|]. apply (emptied_described _ before x after); [done..|].
    eapply Forall_impl; [exact Hn|]. simpl. intros y Hy Hr. by rewrite Hr, req_refl in Hy.
Qed.

(** An observation says one distribution, or none when no artifact is bound. *)
Lemma distributions_for_observation_says r o ds :
  distributions_for_observation r o configured = Ok ds →
  (∃ d, ds = [d] ∧ says r o d) ∨ (ds = [] ∧ ¬ artifact_bound o).
Proof.
  unfold distributions_for_observation, artifact_bound.
  destruct (indexed_scope o) eqn:Es; simpl; [|intros [= <-]; right; split; [done|]; by intros ([=] & _)].
  destruct (axes_occurrence (indexed_axes o)) eqn:Eo;
    try (intros [= <-]; right; split; [done|]; by intros (_ & [=] & _)).
  destruct (indexed_artifact o) as [w|] eqn:Ea;
    [|intros [= <-]; right; split; [done|]; by intros (_ & _ & [? [=]])].
  intros (d & (Hreg & Hempty & Hd)%template_distribution_described & Hk)%result_bind_ok.
  apply result_bind_ok in Hk as (l & Hl%map_err_ok & Hk).
  apply result_bind_ok in Hk as (us & Hus%try_map_ok & [= <-]). left. eexists. split; [done|].
  constructor.
  - split_and!; [done..|]. by exists w.
  - unfold bound_registry. simpl. rewrite Hreg. by destruct (indexed_distribution_registry o).
  - exact Hd.
  - intros w' Hw'. rewrite Ea in Hw'. injection Hw' as <-. simpl. rewrite Hempty. rewrite bool_decide_eq_false_2 by apply not_elem_of_nil.
    eexists. split; [done|]. simpl. split_and!; [done| |done].
    eapply Forall2_impl; [exact Hus|]. intros x y. apply domain_checksum_ok.
Qed.

(** *** Uniting distributions *)

Lemma merge_distribution_fields_ok label fields incoming fields' :
  fields_built fields → try_fold (merge_distribution_field label) fields incoming = Ok fields' →
  fields_built fields' ∧ ∀ f, f ∈ fields' ↔ f ∈ fields ∨ f ∈ incoming.
Proof.
  intros Hb. revert fields'. induction incoming as [|f incoming IH] using rev_ind; intros fields'; simpl.
  { intros [= <-]. split; [done|]. intros f. rewrite elem_of_nil. tauto. }
  rewrite try_fold_app. intros (m & [Hm Hin]%IH & Hk)%result_bind_ok. simpl in Hk.
  apply result_bind_ok in Hk as (m' & Hk & [= ->]). pose proof (merge_distribution_field_built _ _ _ _ Hm Hk) as Hb'.
  split; [done|]. intros g. rewrite elem_of_app, list_elem_of_singleton.
  unfold merge_distribution_field in Hk. destruct (bt_get str_cmp f.1 m) as [v|] eqn:E.
  - case_bool_decide as Hv; [done|]. injection Hk as <-. subst v.
    apply (bt_get_in str_cmp) in E as (k & Hk%(cmp_eq_leibniz str_cmp) & Hkf). subst k.
    rewrite Hin. split; [tauto|]. intros [?|[?| ->]]; [tauto..|]. apply Hin. by destruct f.
  - injection Hk as <-. rewrite (elem_of_bt_insert_fresh str_cmp), Hin; [destruct f; naive_solver|].
    intros ([k v] & Hk & Hkv)%list_elem_of_fmap. simpl in Hk. subst k.
    apply (bt_in_get str_cmp) in Hkv; [|done]. congruence.
Qed.

(** The incoming distribution extends the first of its place, or comes last. *)
Lemma merge_distribution_cases label d l l' :
  merge_distribution label d l = Ok l' →
  (l' = l ++ [d] ∧ Forall (λ e, place e ≠ place d) l) ∨
  (∃ before e after fields, l = before ++ e :: after ∧ place e = place d ∧
     try_fold (merge_distribution_field label) (distribution_fields e) (distribution_fields d) = Ok fields ∧
     l' = before ++ mk_Distribution (registry e) (channel e) (snapshot e)
            (foldl push_artifact (artifacts e) (artifacts d)) (mk_DistributionMetadata fields) :: after).
Proof.
  revert l'. induction l as [|e l IH]; intros l'; simpl; [intros [= <-]; by left|].
  destruct (same_place e d) eqn:E.
  - intros (fields & Hf & [= <-])%result_bind_ok. right. exists [], e, l, fields.
    split_and!; [done|by apply same_place_place|done..].
  - intros (l1 & Hl1 & [= <-])%result_bind_ok.
    assert (place e ≠ place d) as Hne by (rewrite <-same_place_place, E; done).
    destruct (IH _ Hl1) as [[-> Hn]|(before & x & after & fields & -> & Hp & Hf & ->)].
    + left. split; [done|]. by constructor.
    + right. by exists (e :: before), x, after, fields.
Qed.

(** [l] is the union of the distributions [cs]: one for each place, with all their artifacts
    and fields and no others. *)
Definition covered_by (cs : list Distribution) (d : Distribution) : Prop :=
  (∃ c, c ∈ cs ∧ place c = place d) ∧
  (∀ a, a ∈ artifacts d → ∃ c, c ∈ cs ∧ place c = place d ∧ a ∈ artifacts c) ∧
  (∀ f, f ∈ distribution_fields d → ∃ c, c ∈ cs ∧ place c = place d ∧ f ∈ distribution_fields c).

Record united (cs l : list Distribution) : Prop := {
  united_all c : c ∈ cs → ∃ d, d ∈ l ∧ place d = place c ∧
    (∀ a, a ∈ artifacts c → a ∈ artifacts d) ∧
    (∀ f, f ∈ distribution_fields c → f ∈ distribution_fields d);
  united_only d : d ∈ l → covered_by cs d;
  united_places : NoDup (place <$> l);
  united_built : Forall (λ d, fields_built (distribution_fields d)) l;
}.

Lemma covered_mono cs cs' d : (∀ c, c ∈ cs → c ∈ cs') → covered_by cs d → covered_by cs' d.
Proof.
  intros Hcs ((c & Hc & Hp) & Ha & Hf). split_and!; [eauto|..].
  - intros a (c' & ? & ? & ?)%Ha. eauto.
  - intros f (c' & ? & ? & ?)%Hf. eauto.
Qed.

Lemma united_step label cs l d l' :
  united cs l → fields_built (distribution_fields d) → merge_distribution label d l = Ok l' →
  united (cs ++ [d]) l'.
Proof.
  intros [Hall Honly Hn Hb] Hd [[-> Hne]|(before & e & after & fields & -> & Hp & Hf & ->)]
    %merge_distribution_cases.
  - constructor.
    + intros c [Hc| ->%list_elem_of_singleton]%elem_of_app.
      * destruct (Hall c Hc) as (x & Hx & ?). exists x. split; [|done]. apply elem_of_app. by left.
      * exists d. split; [apply elem_of_app; right; left|done].
    + intros x [Hx| ->%list_elem_of_singleton]%elem_of_app.
      * apply (covered_mono cs); [intros c ?; apply elem_of_app; by left|by apply Honly].
      * assert (d ∈ cs ++ [d]) by (apply elem_of_app; right; left). split_and!; eauto.
    + rewrite fmap_app. apply NoDup_app. split_and!; [done| |apply NoDup_singleton].
      intros k (x & -> & Hx)%list_elem_of_fmap Hk%list_elem_of_singleton.
      rewrite Forall_forall in Hne. by apply (Hne x Hx).
    + apply Forall_app. split; [done|]. by constructor.
  - apply Forall_app in Hb as [Hb1 Hb2]. inversion Hb2 as [|? ? He Hb3]; subst.
    apply merge_distribution_fields_ok in Hf as [Hfb Hf]; [|done].
    set (x := mk_Distribution _ _ _ _ _). assert (place x = place e) as Hx by done.
    assert (distribution_fields x = fields) as Hxf by done.
    assert (∀ a, a ∈ artifacts x ↔ a ∈ artifacts e ∨ a ∈ artifacts d) as Ha
      by (intros a; apply elem_of_push_artifacts).
    assert (∀ y, y ∈ before ++ x :: after → y = x ∨ y ∈ before ++ e :: after) as Hsplit
      by (intros y; rewrite !elem_of_app, !elem_of_cons; tauto).
    assert (∀ y, y ∈ before ++ e :: after → y = e ∨ y ∈ before ++ x :: after) as Hback
      by (intros y; rewrite !elem_of_app, !elem_of_cons; tauto).
    assert (x ∈ before ++ x :: after ∧ e ∈ before ++ e :: after) as [Hxin Hein]
      by (rewrite !elem_of_app, !elem_of_cons; tauto).
    clearbody x. subst fields.
    constructor.
    + intros c [Hc| ->%list_elem_of_singleton]%elem_of_app.
      * destruct (Hall c Hc) as (y & Hy & Hyp & Hya & Hyf).
        apply Hback in Hy as [->|Hy]; [exists x|by exists y].
        split_and!; [done|by rewrite Hx|intros a ?%Hya; apply Ha; by left|intros f ?%Hyf; apply Hf; by left].
      * exists x. split_and!; [done|by rewrite Hx|intros a ?; apply Ha; by right|
          intros f ?; apply Hf; by right].
    + assert (∀ c, c ∈ cs → c ∈ cs ++ [d]) as Hmono by (intros c ?; apply elem_of_app; by left).
      assert (d ∈ cs ++ [d]) as Hdin by (apply elem_of_app; right; left).
      intros y [->|Hy]%Hsplit; [|by apply (covered_mono cs), Honly].
      destruct (Honly e Hein) as ((c & Hc & Hcp) & Hea & Hef). split_and!.
      * exists c. split; [by apply Hmono|by rewrite Hx].
      * intros a [Hin|Hin]%Ha; [|by exists d; rewrite Hx]. rewrite Hx.
        destruct (Hea a Hin) as (c' & ? & ? & ?). eauto.
      * intros f [Hin|Hin]%Hf; [|by exists d; rewrite Hx]. rewrite Hx.
        destruct (Hef f Hin) as (c' & ? & ? & ?). eauto.
    + by rewrite fmap_app, fmap_cons, Hx, <-fmap_cons, <-fmap_app.
    + apply Forall_app. split; [done|]. by constructor.
Qed.

Lemma united_steps label cs l ds l' :
  united cs l → Forall (λ d, fields_built (distribution_fields d)) ds →
  try_fold (λ l d, merge_distribution label d l) l ds = Ok l' → united (cs ++ ds) l'.
Proof.
  revert cs l. induction ds as [|d ds IH]; intros cs l Hl Hds; simpl.
  { intros [= <-]. by rewrite app_nil_r. }
  inversion Hds; subst. intros (l1 & Hl1 & Hk)%result_bind_ok.
  rewrite cons_middle, app_assoc. eapply IH; [|done|exact Hk]. by eapply united_step.
Qed.

(** *** Roles *)

(** What an observation is evidence of: always that the release exists, and of its artifact, its
    date and its dependencies when it has them. *)
Record roles_of (o : IndexedObservation) (roles : list EvidenceRoleV1) : Prop := {
  roles_identity : RoleIdentity ∈ roles;
  roles_artifact : RoleArtifact ∈ roles ↔ artifact_bound o;
  roles_publication : RolePublication ∈ roles ↔ axes_publication (indexed_axes o) = PublicationDated;
  roles_semantics : RoleSemantics ∈ roles ↔
    axes_semantics (indexed_axes o) = SemanticsComplete ∨
    axes_semantics (indexed_axes o) = SemanticsVerifiedEmpty;
  roles_once : NoDup roles;
}.

Lemma evidence_roles_ok r o ds :
  distributions_for_observation r o configured = Ok ds → roles_of o (evidence_roles_of o ds).
Proof.
  intros Hds. pose proof (evidence_roles_sorted o ds) as Hs.
  assert (Inj (=) (=) role_rank) by (intros x y; apply role_rank_inj).
  assert (∀ x, x ∈ evidence_roles_of o ds ↔ x ∈ [RoleIdentity]
    ++ (if bool_decide (is_Some (indexed_artifact o)) && negb (bool_decide (ds = [])) then [RoleArtifact] else [])
    ++ (if match axes_publication (indexed_axes o) with PublicationDated => true | _ => false end
        then [RolePublication] else [])
    ++ (if semantics_authoritative (indexed_axes o) then [RoleSemantics] else [])) as Hin
    by (intros x; unfold evidence_roles_of; apply (keyed_set_strict role_rank N.compare)).
  assert (bool_decide (is_Some (indexed_artifact o)) && negb (bool_decide (ds = [])) = true
    ↔ artifact_bound o) as Ha.
  { rewrite andb_true_iff, negb_true_iff, bool_decide_eq_true, bool_decide_eq_false.
    apply distributions_for_observation_says in Hds as [(d & -> & Hd)|[-> Hn]].
    - split; [intros _; apply Hd|]. intros (_ & _ & ?). by split.
    - split; [by intros [_ []]|done]. }
  constructor.
  - apply Hin. left.
  - rewrite Hin, <-Ha. destruct (_ && _), (axes_publication _), (semantics_authoritative _); set_solver.
  - rewrite Hin. destruct (_ && _), (axes_publication _), (semantics_authoritative _); set_solver.
  - rewrite Hin. unfold semantics_authoritative.
    destruct (_ && _), (axes_publication _), (axes_semantics _); set_solver.
  - apply (NoDup_fmap_1 role_rank). eapply strict_sorted_NoDup; [apply _|]. exact Hs.
Qed.

(** *** The observations of the entries *)

(** The distributions the entries say, and the evidence recorded of them. *)
Definition said_by (entries : list Entry) (c : Distribution) : Prop :=
  ∃ i r o, (i, r) ∈ entries ∧ observations !! i = Some o ∧ says r o c.
Definition evidence_of (x : nat * list EvidenceRoleV1) (e : Entry) : Prop :=
  x.1 = e.1 ∧ ∃ o, observations !! e.1 = Some o ∧ roles_of o x.2.

Lemma collected label entries ds ev :
  identifier_built configured →
  (∀ i r, (i, r) ∈ entries → ∃ o, observations !! i = Some o ∧ indexed_release o = Some r ∧ observation_ready o) →
  try_fold (collect_evidence observations configured label) ([], []) entries = Ok (ds, ev) →
  Forall2 evidence_of ev entries ∧ ∃ cs, united cs ds ∧ (∀ c, c ∈ cs → said_by entries c) ∧
    ∀ i r o, (i, r) ∈ entries → observations !! i = Some o → artifact_bound o →
      ∃ c, c ∈ cs ∧ says r o c.
Proof.
  intros Hc. revert ds ev. induction entries as [|[i r] entries IH] using rev_ind; intros ds ev He; simpl.
  { intros [= <- <-]. split; [constructor|]. exists []. split_and!.
    - constructor; [by intros ? ?%elem_of_nil|by intros ? ?%elem_of_nil|constructor..].
    - by intros ? ?%elem_of_nil.
    - by intros ? ? ? ?%elem_of_nil. }
  rewrite try_fold_app. intros ([ds0 ev0] & Hf & Hk)%result_bind_ok.
  destruct (IH ds0 ev0) as (Hev & cs & Hu & Hcs & Hbound); [|done|].
  { intros j s Hj. apply He, elem_of_app. by left. }
  destruct (He i r) as (o & Ho & Hr & Hready); [apply elem_of_app; right; left|].
  simpl in Hk. apply result_bind_ok in Hk as ([ds1 ev1] & Hstep & [= -> ->]).
  unfold collect_evidence in Hstep. simpl in Hstep. rewrite Ho in Hstep.
  apply result_bind_ok in Hstep as (observed & Hobs & Hk). apply result_bind_ok in Hk as (l & Hl & [= <- <-]).
  pose proof (evidence_roles_ok _ _ _ Hobs) as Hroles.
  pose proof (distributions_for_observation_ready _ _ _ _ (ready_release _ Hready _ Hr) Hready Hc Hobs) as Hbuilt.
  split.
  { apply Forall2_app; [done|]. constructor; [|constructor]. split; [done|]. by exists o. }
  exists (cs ++ observed). split_and!.
  - eapply united_steps; [exact Hu| |exact Hl]. eapply Forall_impl; [exact Hbuilt|]. by intros d [].
  - intros c [(j & s & q & ? & ?)%Hcs|Hin]%elem_of_app.
    { exists j, s, q. split; [apply elem_of_app; by left|done]. }
    exists i, r, o. split; [apply elem_of_app; right; left|]. split; [done|].
    apply distributions_for_observation_says in Hobs as [(d & -> & Hd)|[-> _]];
      [by apply list_elem_of_singleton in Hin as ->|by apply elem_of_nil in Hin].
  - intros j s q [Hj|[= -> ->]%list_elem_of_singleton]%elem_of_app Hq Hb.
    + destruct (Hbound j s q Hj Hq Hb) as (c & ? & ?). exists c. split; [apply elem_of_app; by left|done].
    + rewrite Ho in Hq. injection Hq as <-.
      apply distributions_for_observation_says in Hobs as [(d & -> & Hd)|[_ Hn]]; [|done].
      exists d. split; [apply elem_of_app; right; left|done].
Qed.

Lemma is_current_iff entries :
  existsb (is_current observations) entries = true ↔
    ∃ i r o, (i, r) ∈ entries ∧ observations !! i = Some o ∧ indexed_currentness o = CurrentV1.
Proof.
  rewrite existsb_exists. setoid_rewrite <-list_elem_of_In. unfold is_current. split.
  - intros ([i r] & Hin & Hc). simpl in Hc. destruct (observations !! i) as [o|] eqn:Ho; [|done].
    apply bool_decide_eq_true in Hc. by exists i, r, o.
  - intros (i & r & o & Hin & Ho & Hc). exists (i, r). split; [done|]. simpl. rewrite Ho.
    by apply bool_decide_eq_true.
Qed.

Lemma authoritative_alike entries authority more key :
  entries_ready entries → (∀ e, e ∈ more → e ∈ entries) → authority ∈ entries.*2 →
  canonical_dependency_semantics (release_dependencies authority) = Ok key →
  Forall (λ e, canonical_dependency_semantics (release_dependencies e.2) = Ok key) more →
  ∀ e, e ∈ more → dependencies_alike (release_dependencies e.2) (release_dependencies authority).
Proof.
  intros He Hmore Hauth Hkey Hall e Hin. rewrite Forall_forall in Hall.
  assert (∀ r, r ∈ entries.*2 → Forall dependency_built (release_dependencies r)) as Hb.
  { intros r ([i s] & -> & Hi)%list_elem_of_fmap.
    destruct (entries_observed _ He i s Hi) as (o & _ & Hs & Ho).
    apply (observed_dependencies_built _ (ready_release _ Ho _ Hs)). }
  eapply canonical_semantics_alike; [apply Hb, list_elem_of_fmap; exists e; split; [done|by apply Hmore]|
    by apply Hb|by apply Hall|done].
Qed.

(** C26: Observations of one release are merged to the union of what they say: every metadata
    field of each observation, and no other, under one spelling of its name; the one date any of
    them has; the dependencies of the authority, and every other authoritative observation
    declares the same ones, in kind, package, and the relations and versions of the clauses;
    the artifact of every observation that is bound to one, in the one distribution of its
    registry, channel and snapshot, with the fields of that distribution, and no other artifact,
    field or distribution; for every observation, in order, that it is evidence of the identity,
    and of the artifact, the date and the dependencies exactly when it has them; current when
    one of them is.  The digest is that of the merged release, and the
    merged release can be written. *)
Theorem merge_release_group_spec first entries j authority more p :
  identifier_built configured → entries_ready entries →
  first ∈ entries.*2 → (∀ e, e ∈ (j, authority) :: more → e ∈ entries) →
  merge_release_group observations configured first entries authority ((j, authority) :: more) = Ok p →
  let merged := pending_release p in
  release_identity merged = release_identity first ∧ release_version merged = release_version first ∧
  release_dependencies merged = release_dependencies authority ∧
  release_metadata_digest merged = canonical_metadata_digest (release_identity first)
    (release_version first) (release_dependencies authority) ∧
  (∀ e, e ∈ more → dependencies_alike (release_dependencies e.2) (release_dependencies authority)) ∧
  (∀ e f, e ∈ entries → f ∈ release_fields (release_metadata e.2) →
     ∃ g, g ∈ release_fields (release_metadata merged) ∧
       to_ascii_lowercase g.1 = to_ascii_lowercase f.1 ∧ g.2 = f.2) ∧
  (∀ f, f ∈ release_fields (release_metadata merged) →
     ∃ e, e ∈ entries ∧ f ∈ release_fields (release_metadata e.2)) ∧
  (∀ r q, r ∈ entries.*2 → release_publication r = Some q → release_publication merged = Some q) ∧
  (∀ q, release_publication merged = Some q → ∃ r, r ∈ entries.*2 ∧ release_publication r = Some q) ∧
  (∃ cs, united cs (pending_distributions p) ∧ (∀ c, c ∈ cs → said_by entries c) ∧
     ∀ i r o, (i, r) ∈ entries → observations !! i = Some o → artifact_bound o →
       ∃ c, c ∈ cs ∧ says r o c) ∧
  Forall2 evidence_of (pending_observations p) entries ∧
  (pending_currentness p = CurrentV1 ↔
     ∃ i r o, (i, r) ∈ entries ∧ observations !! i = Some o ∧ indexed_currentness o = CurrentV1) ∧
  pending_ready p.
Proof.
  intros Hc He Hfirst Hauth Hm.
  assert (authority ∈ entries.*2) as Ha
    by (apply list_elem_of_fmap; exists (j, authority); split; [done|apply Hauth; left]).
  pose proof (merge_release_group_ok _ _ _ _ _ Hc He Hfirst Ha Hm) as
    [Hready Hi Hv Hd Hev [Hall Honly] Hfo Hfa (key & Hkey & Hsame) Hcur]. cbv zeta.
  pose proof (ready_digest _ (pending_release_ready _ Hready)) as Hdigest. rewrite Hi, Hv, Hd in Hdigest.
  apply merge_release_group_parts in Hm
    as (label & _ & _ & _ & ds & ev & _ & _ & _ & _ & _ & Hcol & _ & _ & <- & <- & _).
  apply collected in Hcol as [Hevidence Hunion]; [|done|apply He].
  split_and!; try done.
  - eapply authoritative_alike; try done. intros e Hin. apply Hauth. by right.
  - rewrite Hcur, <-is_current_iff. by destruct (existsb _ _).
Qed.
End merge.
End releases.
