(* ===== verification/EvidenceLaws.v ===== *)
(** * The history of one package

    What happens to each observation of a package, which releases become eligible,
    and that the history is one the validation of snapshots accepts. *)

From S2P Require Import Prelude RustStd Collections Text Externals Format Versions Names Publication.
From S2P Require Import Identity Constraints Digest Metadata Catalog Snapshot SnapshotValidation.
From S2P Require Import SnapshotCodec SnapshotLaws SnapshotHistoryLaws SnapshotReleaseLaws Evidence.
From S2P Require Import EvidenceWire EvidenceMerge.

#[export] Instance identity_key_cmp_order : CmpOrder identity_key_cmp.
Proof. unfold identity_key_cmp. apply _. Qed.

Lemma StronglySorted_sublist {A} (R : A → A → Prop) l k :
  l `sublist_of` k → StronglySorted R k → StronglySorted R l.
Proof.
  induction 1 as [|x l k Hlk IH|x l k Hlk IH]; intros Hk; [constructor| |].
  - inversion Hk as [|? ? Hk' Hx]; subst. constructor; [by apply IH|].
    rewrite Forall_forall in *. intros y Hy. apply Hx. by eapply elem_of_sublist.
  - inversion Hk; subst. by apply IH.
Qed.

Section history.
Context `{CivilDate, Sha2, !Sha2Laws, UnicodeTables}.
Context `{!JsonBytes (list FieldV1 * option OccurrenceArtifactV1)}.

(** ** Triage *)

(** The release of an observation that takes part. *)
Definition accepted (o : IndexedObservation) : option PackageRelease :=
  if negb (is_root (indexed_scope o)) then None
  else match completeness_failure o, axes_namespace (indexed_axes o) with
       | Some _, _ | _, NamespaceRejected => None
       | _, _ => indexed_release o
       end.

(** The decision on an observation that is set aside, and whether it makes the
    package incomplete. *)
Definition aside (o : IndexedObservation) : option (bool * (DecisionCodeV1 * string)) :=
  match indexed_scope o with
  | RecommendedOverlay runtime =>
    Some (false, (RecommendedOverlaySuppressed,
      "Recommended overlay for R " +:+ RPackageVersion_fmt runtime
        +:+ " is retained as raw evidence but excluded from CRAN release eligibility"))
  | Root =>
    match completeness_failure o with
    | Some (code, detail) => Some (negb (is_quarantined code), (code, detail))
    | None =>
      match axes_namespace (indexed_axes o), indexed_release o with
      | NamespaceRejected, _ | _, Some _ => None
      | _, None => Some (true, (IncompleteSemantics, "observation has no validated release semantics"))
      end
    end
  end.

Definition release_key (r : PackageRelease) : IdentityKey :=
  (ReleaseIdentity_name (release_identity r), release_version r).

Lemma triage_observed_cases t i o :
  triage_observed t i o =
    match accepted o, aside o with
    | Some r, _ => mk_Triage (bt_push identity_key_cmp (release_key r) (i, r) (triage_groups t))
                     (package_incomplete t) (triage_decisions t)
    | None, Some (incomplete, (code, detail)) => set_aside_observation t incomplete code i detail
    | None, None => t
    end.
Proof.
  unfold triage_observed, accepted, aside. destruct (indexed_scope o); [simpl|done].
  destruct (completeness_failure o) as [[]|]; [done|].
  by destruct (axes_namespace _), (indexed_release o).
Qed.

Lemma accepted_not_aside o r : accepted o = Some r → aside o = None.
Proof.
  unfold accepted, aside. destruct (indexed_scope o); [simpl|done].
  destruct (completeness_failure o) as [[]|]; [done|].
  by destruct (axes_namespace _), (indexed_release o).
Qed.

Context (observations : list IndexedObservation) (configured : RegistryId).

Definition accepted_at (i : nat) : option (IdentityKey * Entry) :=
  o ← observations !! i; r ← accepted o; Some (release_key r, (i, r)).
Definition aside_at (i : nat) : option DecisionV1 :=
  o ← observations !! i; '(_, (code, detail)) ← aside o; Some (mk_DecisionV1 code [as_u32 i] detail).
Definition incomplete_at (i : nat) : bool :=
  default false (o ← observations !! i; '(incomplete, _) ← aside o; Some incomplete).

Lemma omap_snoc {A B} (f : A → option B) l x :
  omap f (l ++ [x]) = omap f l ++ (match f x with Some y => [y] | None => [] end).
Proof. rewrite omap_app. simpl. by destruct (f x). Qed.

Lemma triage_step t i :
  triage_observation observations t i =
    mk_Triage (match accepted_at i with
               | Some p => bt_push identity_key_cmp p.1 p.2 (triage_groups t)
               | None => triage_groups t
               end)
      (package_incomplete t || incomplete_at i)
      (triage_decisions t ++ match aside_at i with Some d => [d] | None => [] end).
Proof.
  unfold triage_observation, accepted_at, aside_at, incomplete_at.
  destruct (observations !! i) as [o|]; simpl; [|rewrite orb_false_r, app_nil_r; by destruct t].
  rewrite triage_observed_cases. destruct (accepted o) as [r|] eqn:Ha; simpl.
  - rewrite (accepted_not_aside o r Ha). simpl. by rewrite app_nil_r, orb_false_r.
  - destruct (aside o) as [[incomplete [code detail]]|]; simpl; [done|].
    rewrite orb_false_r, app_nil_r. by destruct t.
Qed.

Lemma triage_fold indexes :
  foldl (triage_observation observations) (mk_Triage [] false []) indexes
    = mk_Triage (bt_group identity_key_cmp (omap accepted_at indexes)) (existsb incomplete_at indexes)
        (omap aside_at indexes).
Proof.
  induction indexes as [|i l IH] using rev_ind; [done|].
  rewrite foldl_app, IH, !omap_snoc, existsb_app. simpl. rewrite triage_step. simpl. rewrite orb_false_r.
  f_equal. destruct (accepted_at i) as [p|]; [|by rewrite app_nil_r]. by rewrite bt_group_snoc.
Qed.

(** ** The groups *)

(** What is decided on a group: its merge, if one of its entries is authoritative,
    and the decision to record. *)
Definition group_outcome (group : IdentityKey * list Entry) :
    result (option PendingRelease * list DecisionV1) EvidenceCompositionError :=
  let '((_, version), entries) := group in
  let authoritative := List.filter (is_authoritative observations) entries in
  let observation_ids := (λ entry, as_u32 entry.1) <$> entries in
  match authoritative, entries with
  | (_, authority) :: _, (_, first) :: _ =>
    let? pending := merge_release_group observations configured first entries authority authoritative in
    Ok (Some pending,
        if Nat.ltb 1 (length entries) then
          [mk_DecisionV1 EquivalentMerge observation_ids
             "same ReleaseIdentity observations were deterministically enriched"]
        else [])
  | _, _ =>
    Ok (None, [mk_DecisionV1 IncompleteSemantics observation_ids
                 ("release " +:+ RPackageVersion_fmt version
                    +:+ " has no authoritative dependency semantics")])
  end.

Definition pending_of (g : IdentityKey * list Entry) (outcome : option PendingRelease * list DecisionV1) :
    list (PendingRelease * RPackageVersion) :=
  match outcome.1 with Some p => [(p, g.1.2)] | None => [] end.
Definition missing (outcome : option PendingRelease * list DecisionV1) : bool :=
  match outcome.1 with Some _ => false | None => true end.

Lemma decide_group_outcome e g :
  decide_group observations configured e g =
    let? outcome := group_outcome g in
    Ok (mk_Eligibility (eligible_incomplete e || missing outcome) (eligible_decisions e ++ outcome.2)
          (eligible_pending e ++ pending_of g outcome)).
Proof.
  destruct g as [[name version] entries]. unfold decide_group, group_outcome, pending_of, missing.
  destruct (List.filter _ _) as [|[i authority] authoritative];
    [|destruct entries as [|[j first] entries]]; cbn [result_bind fst snd];
    rewrite ?orb_true_r, ?app_nil_r; try done.
  destruct (merge_release_group _ _ _ _ _ _) as [p|]; cbn [result_bind fst snd]; [|done].
  by rewrite orb_false_r.
Qed.

Lemma decide_groups_ok e groups e' :
  try_fold (decide_group observations configured) e groups = Ok e' ↔
    ∃ outcomes, Forall2 (λ g outcome, group_outcome g = Ok outcome) groups outcomes ∧
      e' = mk_Eligibility (eligible_incomplete e || existsb missing outcomes)
             (eligible_decisions e ++ mjoin outcomes.*2)
             (eligible_pending e ++ mjoin (zip_with pending_of groups outcomes)).
Proof.
  revert e. induction groups as [|g groups IH]; intros e; simpl.
  - split.
    + intros [= <-]. exists []. split; [constructor|]. simpl. rewrite orb_false_r, !app_nil_r. by destruct e.
    + intros (outcomes & ->%Forall2_nil_inv_l & ->). simpl. rewrite orb_false_r, !app_nil_r. by destruct e.
  - rewrite decide_group_outcome. rewrite result_bind_ok. split.
    + intros (e1 & (outcome & Ho & [= <-])%result_bind_ok & (outcomes & Hos & ->)%IH).
      exists (outcome :: outcomes). split; [by constructor|]. simpl. by rewrite <-!app_assoc, <-orb_assoc.
    + intros (outcomes' & Hos & ->). apply Forall2_cons_inv_l in Hos as (outcome & outcomes & Ho & Hos & ->).
      rewrite Ho. simpl. eexists. split; [reflexivity|]. apply IH. exists outcomes. split; [done|].
      simpl. by rewrite <-!app_assoc, <-orb_assoc.
Qed.

(** ** The decisions *)

Lemma accepted_ids l : (omap accepted_at l).*2.*1 = filter (λ i, is_Some (accepted_at i)) l.
Proof.
  induction l as [|i l IH]; [done|]. simpl. destruct (accepted_at i) as [[k [j r]]|] eqn:E; simpl.
  - rewrite filter_cons_True by eauto. f_equal; [|exact IH]. unfold accepted_at in E.
    destruct (observations !! i); simpl in E; [|done]. destruct (accepted _); simpl in E; [|done].
    by injection E as _ <- _.
  - rewrite filter_cons_False by (rewrite E; by intros []). exact IH.
Qed.

Lemma aside_ids l :
  mjoin (decision_observation_ids <$> omap aside_at l) = as_u32 <$> filter (λ i, is_Some (aside_at i)) l.
Proof.
  induction l as [|i l IH]; [done|]. simpl. destruct (aside_at i) as [d|] eqn:E; simpl.
  - rewrite filter_cons_True by eauto. rewrite fmap_cons, <-IH. unfold aside_at in E.
    destruct (observations !! i); simpl in E; [|done].
    destruct (aside _) as [[? [? ?]]|]; simpl in E; [|done]. by injection E as <-.
  - rewrite filter_cons_False by (rewrite E; by intros []). exact IH.
Qed.

Lemma group_outcome_ids g outcome :
  group_outcome g = Ok outcome →
  outcome.2 = [] ∨ ∃ code detail, outcome.2 = [mk_DecisionV1 code ((λ entry, as_u32 entry.1) <$> g.2) detail].
Proof.
  destruct g as [[name version] entries]. unfold group_outcome.
  destruct (List.filter _ _) as [|[i authority] authoritative]; [|destruct entries as [|[j first] entries]].
  - intros [= <-]. right. eauto.
  - intros [= <-]. right. eauto.
  - intros (p & _ & [= <-])%result_bind_ok. cbn [snd]. destruct (Nat.ltb _ _); eauto.
Qed.

Lemma decided_ids groups outcomes :
  Forall2 (λ g outcome, group_outcome g = Ok outcome) groups outcomes →
  mjoin (decision_observation_ids <$> mjoin outcomes.*2) ⊆+ as_u32 <$> (mjoin groups.*2).*1.
Proof.
  induction 1 as [|g outcome groups outcomes Hg _ IH]; [done|]. simpl.
  rewrite !fmap_app, join_app. apply submseteq_app; [|exact IH].
  destruct (group_outcome_ids g outcome Hg) as [->|(code & detail & ->)]; [apply submseteq_nil_l|].
  simpl. by rewrite app_nil_r, <-list_fmap_compose.
Qed.

(** What was decided, before the releases are written. *)
Definition decided (indexes : list nat) (outcomes : list (option PendingRelease * list DecisionV1)) :
    list DecisionV1 :=
  omap aside_at indexes ++ mjoin outcomes.*2.

Lemma aside_not_accepted i : is_Some (aside_at i) → is_Some (accepted_at i) → False.
Proof.
  unfold aside_at, accepted_at. destruct (observations !! i) as [o|]; simpl; [|by intros []].
  destruct (accepted o) eqn:Ha; simpl; [|by intros _ []].
  rewrite (accepted_not_aside _ _ Ha). by intros [].
Qed.

(** An observation is in at most one decision. *)
Lemma decided_NoDup indexes outcomes :
  NoDup indexes → Forall (λ i, N.of_nat i < 2 ^ 32)%N indexes →
  Forall2 (λ g outcome, group_outcome g = Ok outcome)
    (bt_group identity_key_cmp (omap accepted_at indexes)) outcomes →
  mjoin (decision_observation_ids <$> decided indexes outcomes) ⊆+ as_u32 <$> indexes ∧
  NoDup (mjoin (decision_observation_ids <$> decided indexes outcomes)).
Proof.
  intros Hn Hsmall Ho%decided_ids. rewrite bt_group_values in Ho by apply _. rewrite accepted_ids in Ho.
  assert (mjoin (decision_observation_ids <$> decided indexes outcomes) ⊆+ as_u32 <$> indexes) as Hsub.
  { unfold decided. rewrite fmap_app, join_app, aside_ids.
    etransitivity; [apply submseteq_app; [reflexivity|exact Ho]|]. rewrite <-fmap_app.
    apply fmap_submseteq, NoDup_submseteq.
    - apply NoDup_app. split_and!; [by apply NoDup_filter| |by apply NoDup_filter].
      intros i [Ha _]%list_elem_of_filter [Hb _]%list_elem_of_filter. by eapply aside_not_accepted.
    - intros i [[_ Hi]%list_elem_of_filter|[_ Hi]%list_elem_of_filter]%elem_of_app; done. }
  split; [exact Hsub|]. apply submseteq_Permutation in Hsub as [rest Hrest].
  assert (NoDup (as_u32 <$> indexes)) as Hids.
  { apply NoDup_fmap_2_strong; [|done]. rewrite Forall_forall in Hsmall.
    intros i j Hi Hj. rewrite !as_u32_small by auto. lia. }
  rewrite Hrest in Hids. by apply NoDup_app in Hids as [? _].
Qed.

(** ** The entries of a group *)

(** The observations of one package. *)
Record indexes_ready (package : PackageName) (source_count : nat) (indexes : list nat) : Prop := {
  indexes_increasing : StronglySorted lt indexes;
  indexes_observed i : i ∈ indexes → ∃ o, observations !! i = Some o ∧ observation_ready o ∧
    (indexed_source_index o < N.of_nat source_count)%N ∧
    ∀ r, indexed_release o = Some r → ReleaseIdentity_name (release_identity r) = package;
}.

Lemma accepted_release o r : accepted o = Some r → indexed_release o = Some r.
Proof.
  unfold accepted. destruct (negb _), (completeness_failure o), (axes_namespace (indexed_axes o)); done.
Qed.

Lemma accepted_at_some i k e :
  accepted_at i = Some (k, e) ↔ ∃ o r, observations !! i = Some o ∧ accepted o = Some r ∧
    k = release_key r ∧ e = (i, r).
Proof.
  unfold accepted_at. split.
  - intros (o & Ho & (r & Hr & [= <- <-])%bind_Some)%bind_Some. eauto 10.
  - intros (o & r & Ho & Hr & -> & ->). rewrite Ho. simpl. by rewrite Hr.
Qed.

Lemma group_entries indexes k entries :
  StronglySorted lt indexes → (k, entries) ∈ bt_group identity_key_cmp (omap accepted_at indexes) →
  entries ≠ [] ∧ StronglySorted lt entries.*1 ∧
  ∀ i r, (i, r) ∈ entries → i ∈ indexes ∧ identity_key_cmp k (release_key r) = Eq ∧
    ∃ o, observations !! i = Some o ∧ accepted o = Some r.
Proof.
  intros Hs [-> Hne]%(elem_of_bt_group identity_key_cmp). split_and!; [done|..].
  - eapply StronglySorted_sublist; [|exact Hs]. unfold group_of.
    etransitivity; [apply fmap_sublist, fmap_sublist, sublist_filter|]. rewrite accepted_ids.
    apply sublist_filter.
  - intros i r ([k' [j s]] & [= -> ->] & [Hk Hin]%list_elem_of_filter)%list_elem_of_fmap.
    apply list_elem_of_omap in Hin as (x & Hx & (o & t & Ho & Ht & -> & [= -> ->])%accepted_at_some).
    split_and!; [done..|]. by exists o.
Qed.

Lemma group_entries_ready package n indexes k entries :
  indexes_ready package n indexes → (k, entries) ∈ bt_group identity_key_cmp (omap accepted_at indexes) →
  entries_ready observations entries.
Proof.
  intros Hi (_ & Hs & Hin)%group_entries; [|apply Hi]. constructor; [done|].
  intros i r (Hx & _ & o & Ho & Hr%accepted_release)%Hin.
  destruct (indexes_observed _ _ _ Hi i Hx) as (o' & Ho' & Hready & _).
  rewrite Ho in Ho'. injection Ho' as <-. by exists o.
Qed.

Lemma group_outcome_some g p ds :
  group_outcome g = Ok (Some p, ds) → ∃ i first rest j authority more,
    g.2 = (i, first) :: rest ∧ List.filter (is_authoritative observations) g.2 = (j, authority) :: more ∧
    merge_release_group observations configured first g.2 authority ((j, authority) :: more) = Ok p.
Proof.
  destruct g as [[name version] entries]. unfold group_outcome. simpl.
  destruct (List.filter _ _) as [|[j authority] more]; [done|].
  destruct entries as [|[i first] entries]; [done|].
  intros (p' & Hp & [= -> _])%result_bind_ok. by exists i, first, entries, j, authority, more.
Qed.

(** A pending release comes from its group. *)
Lemma group_merged package n indexes g p ds :
  identifier_built configured → indexes_ready package n indexes →
  g ∈ bt_group identity_key_cmp (omap accepted_at indexes) → group_outcome g = Ok (Some p, ds) →
  ReleaseIdentity_name (release_identity (pending_release p)) = package ∧
  RPackageVersion_cmp g.1.2 (release_version (pending_release p)) = Eq ∧
  ∃ i first rest j authority more,
    g.2 = (i, first) :: rest ∧ List.filter (is_authoritative observations) g.2 = (j, authority) :: more ∧
    merged_to observations first g.2 authority ((j, authority) :: more) p.
Proof.
  intros Hc Hi Hg (i & first & rest & j & authority & more & Hentries & Hauth & Hm)%group_outcome_some.
  destruct g as [[name version] entries]. simpl in *.
  pose proof (group_entries_ready _ _ _ _ _ Hi Hg) as Hready.
  apply group_entries in Hg as (_ & _ & Hin); [|apply Hi].
  assert ((i, first) ∈ entries) as Hfirst by (rewrite Hentries; left).
  assert ((j, authority) ∈ entries) as Hauthority.
  { apply (elem_of_filter_bool (is_authoritative observations)). rewrite Hauth. left. }
  apply merge_release_group_ok in Hm; [|done|done|apply list_elem_of_fmap; by exists (i, first)
    |apply list_elem_of_fmap; by exists (j, authority)].
  destruct (Hin i first Hfirst) as (Hx & Hk & o & Ho & Hr%accepted_release).
  destruct (indexes_observed _ _ _ Hi i Hx) as (o' & Ho' & _ & _ & Hn). rewrite Ho in Ho'. injection Ho' as <-.
  rewrite (merged_identity _ _ _ _ _ _ Hm), (merged_version _ _ _ _ _ _ Hm). split_and!; [by apply Hn| |].
  - unfold identity_key_cmp, pair_cmp, cmp_then, cmp_on in Hk. simpl in Hk. by destruct (PackageName_cmp _ _).
  - by exists i, first, rest, j, authority, more.
Qed.
End history.

Lemma Forall2_impl_l {A B} (P : A → Prop) (R S : A → B → Prop) l k :
  (∀ x y, P x → R x y → S x y) → Forall2 R l k → Forall P l → Forall2 S l k.
Proof. intros HS. induction 1; inversion 1; constructor; auto. Qed.

Lemma StronglySorted_impl {A} (R S : A → A → Prop) l :
  (∀ x y, R x y → S x y) → StronglySorted R l → StronglySorted S l.
Proof.
  intros HS. induction 1 as [|x l _ IH Hx]; constructor; [done|]. eapply Forall_impl; [exact Hx|]. auto.
Qed.

Lemma NoDup_join_nonempty {A} (ls : list (list A)) :
  NoDup (mjoin ls) → Forall (λ l, l ≠ []) ls → NoDup ls.
Proof.
  induction ls as [|l ls IH]; intros Hn Hne; [constructor|]. simpl in Hn.
  apply NoDup_app in Hn as (_ & Hdisj & Hn). apply Forall_cons in Hne as [Hl Hne].
  constructor; [|by apply IH]. intros Hin. destruct l as [|x l]; [done|].
  apply (Hdisj x); [left|]. apply list_elem_of_join. exists (x :: l). split; [left|done].
Qed.

Lemma lex_cmp_related {A B} (c : A → A → comparison) (d : B → B → comparison) (R : A → B → Prop) l l' k k' :
  (∀ x x' y y', R x x' → R y y' → c x y = d x' y') →
  Forall2 R l l' → Forall2 R k k' → lex_cmp c l k = lex_cmp d l' k'.
Proof.
  intros HR Hl. revert k k'. induction Hl as [|x x' l l' Hx Hl IH]; intros k k' Hk; destruct Hk as [|y y' k k' Hy Hk];
    [done..|]. simpl. rewrite (HR x x' y y') by done. destruct (d x' y'); [|done..]. by apply IH.
Qed.

Lemma length_indexed {A} (l : list A) : length (indexed l) = length l.
Proof. unfold indexed. rewrite length_zip_with, length_seq. lia. Qed.

Lemma omap_Forall2 {A B} (f : A → option B) l :
  Forall (λ x, is_Some (f x)) l → Forall2 (λ x y, f x = Some y) l (omap f l).
Proof. induction 1 as [|x l [y Hy] _ IH]; simpl; [constructor|]. rewrite Hy. by constructor. Qed.

Section history.
Context `{CivilDate, Sha2, !Sha2Laws, UnicodeTables}.
Context `{!JsonBytes (list FieldV1 * option OccurrenceArtifactV1)}.
Context (observations : list IndexedObservation) (configured : RegistryId).
Context (configured_built : identifier_built configured).
Context (package : PackageName) (package_ok : package_built package) (source_count : nat).
Context (indexes : list nat) (ready : indexes_ready observations package source_count indexes).
Context (few : (N.of_nat (length observations) ≤ 2 ^ 32)%N).

Local Notation groups := (bt_group identity_key_cmp (omap (accepted_at observations) indexes)).
Local Notation outcome_of := (group_outcome observations configured).

Lemma indexes_bound i : i ∈ indexes → i < length observations.
Proof. intros (o & Ho & _)%(indexes_observed _ _ _ _ ready). by eapply lookup_lt_Some. Qed.

Lemma indexes_small : Forall (λ i, N.of_nat i < 2 ^ 32)%N indexes.
Proof. apply Forall_forall. intros i Hi%indexes_bound. lia. Qed.

Lemma indexes_NoDup : NoDup indexes.
Proof. apply increasing_NoDup, (indexes_increasing _ _ _ _ ready). Qed.

Lemma indexes_few : (N.of_nat (length indexes) ≤ 2 ^ 32)%N.
Proof.
  assert (indexes ⊆+ seq 0 (length observations)) as Hsub%submseteq_length.
  { apply NoDup_submseteq; [apply indexes_NoDup|]. intros i Hi%indexes_bound. apply elem_of_seq. lia. }
  rewrite length_seq in Hsub. lia.
Qed.

(** ** The releases *)

Lemma pending_groups gs outcomes p v :
  Forall2 (λ g outcome, outcome_of g = Ok outcome) gs outcomes →
  (p, v) ∈ mjoin (zip_with pending_of gs outcomes) →
  ∃ g ds, g ∈ gs ∧ outcome_of g = Ok (Some p, ds) ∧ v = g.1.2.
Proof.
  induction 1 as [|g [[q|] ds] gs outcomes Hg _ IH]; simpl; [by intros ?%elem_of_nil| |].
  - intros [[= -> ->]|Hin]%elem_of_cons; [exists g, ds; split_and!; [left|done..]|].
    destruct (IH Hin) as (g' & ds' & ? & ? & ?). exists g', ds'. split_and!; [by right|done..].
  - intros Hin. destruct (IH Hin) as (g' & ds' & ? & ? & ?). exists g', ds'. split_and!; [by right|done..].
Qed.

Lemma pending_keys gs outcomes :
  Forall2 (λ g outcome, outcome_of g = Ok outcome) gs outcomes →
  (mjoin (zip_with pending_of gs outcomes)).*2 `sublist_of` gs.*1.*2.
Proof.
  induction 1 as [|g [[q|] ds] gs outcomes Hg _ IH]; simpl; [constructor|by constructor..].
Qed.

Lemma group_name k entries : (k, entries) ∈ groups → k.1 = package.
Proof.
  intros (Hne & _ & Hin)%group_entries; [|apply (indexes_increasing _ _ _ _ ready)].
  destruct entries as [|[i r] entries]; [done|].
  destruct (Hin i r) as (Hi & Hk & o & Ho & Hr%accepted_release); [left|].
  destruct (indexes_observed _ _ _ _ ready i Hi) as (o' & Ho' & _ & _ & Hn). rewrite Ho in Ho'. injection Ho' as <-.
  rewrite <-(Hn r Hr). unfold identity_key_cmp, pair_cmp, cmp_then, cmp_on, release_key in Hk. simpl in Hk.
  destruct (PackageName_cmp _ _) eqn:E; [|done..]. by apply (cmp_eq_leibniz PackageName_cmp) in E.
Qed.

(** The versions are in order, so that sorting by them changes nothing. *)
Lemma groups_by_version : StronglySorted (λ v w, RPackageVersion_cmp v w = Lt) groups.*1.*2.
Proof.
  pose proof (bt_group_sorted identity_key_cmp (omap (accepted_at observations) indexes)) as Hs.
  assert (Forall (λ g, g.1.1 = package) groups) as Hn.
  { apply Forall_forall. intros [k entries] Hg. by eapply group_name. }
  revert Hs Hn. generalize groups. intros gs Hs Hn. induction Hs as [|g gs _ IH Hg]; simpl; [constructor|].
  apply Forall_cons in Hn as [Hgn Hgsn]. constructor; [by apply IH|].
  rewrite !Forall_fmap, Forall_forall in *. intros g' Hg'. specialize (Hg g' Hg'). specialize (Hgsn g' Hg').
  destruct g as [[name v] es], g' as [[name' w] es']. simpl in *. subst name name'.
  unfold identity_key_cmp, pair_cmp, cmp_then, cmp_on in Hg. simpl in Hg.
  by rewrite (cmp_refl PackageName_cmp) in Hg.
Qed.

Lemma pending_sorted outcomes :
  Forall2 (λ g outcome, outcome_of g = Ok outcome) groups outcomes →
  strictly_sorted (cmp_on snd RPackageVersion_cmp) (mjoin (zip_with pending_of groups outcomes)).
Proof.
  intros Ho%pending_keys. pose proof (StronglySorted_sublist _ _ _ Ho groups_by_version) as Hs.
  by apply (sorted_fmap snd) in Hs.
Qed.

(** The entry of a written release. *)
Definition pending_entry (p : PendingRelease) : ReleaseEntry :=
  mk_ReleaseEntry (canonical_version_components (release_version (pending_release p)))
    (RPackageVersion_fmt (release_version (pending_release p))) "cran" None.

Lemma written_entry p w :
  pending_ready p → to_wire_release p indexes = Ok w → parse_entry w = Ok (pending_entry p).
Proof.
  intros Hp (ws & ws' & evs & digest & _ & _ & _ & _ & ->)%to_wire_release_parts.
  unfold parse_entry, parse_version. simpl.
  by rewrite (ready_version _ (pending_release_ready _ Hp)).
Qed.

(** What is eligible: pending releases of this package, in order of their versions. *)
Definition eligible_ready (l : list (PendingRelease * RPackageVersion)) : Prop :=
  Forall (λ x, pending_ready x.1 ∧ ReleaseIdentity_name (release_identity (pending_release x.1)) = package ∧
    RPackageVersion_cmp x.2 (release_version (pending_release x.1)) = Eq) l ∧
  strictly_sorted (cmp_on snd RPackageVersion_cmp) l.

Lemma pending_eligible outcomes :
  Forall2 (λ g outcome, outcome_of g = Ok outcome) groups outcomes →
  eligible_ready (mjoin (zip_with pending_of groups outcomes)).
Proof.
  intros Ho. split; [|by apply pending_sorted]. apply Forall_forall. intros [p v] Hin.
  destruct (pending_groups _ _ _ _ Ho Hin) as (g & ds & Hg & Hp & ->).
  apply (group_merged observations configured package source_count indexes) in Hp
    as (Hn & Hv & i & first & rest & j & authority & more & _ & _ & Hm); [|done..].
  split_and!; [by eapply merged_ready|done..].
Qed.

(** Written releases are in the order the validation asks for. *)
Lemma written_order l ws :
  eligible_ready l → Forall2 (λ x w, to_wire_release x.1 indexes = Ok w) l ws →
  validate_release_order ws = Ok tt.
Proof.
  intros [Hl Hs] Hws. apply validate_release_order_ok.
  assert (strictly_sorted (lex_cmp N.compare) (entry_components <$> (pending_entry ∘ fst <$> l))) as Hc.
  { rewrite <-list_fmap_compose. apply sorted_fmap. rewrite Forall_forall in Hl.
    assert (Forall (λ x, RPackageVersion_cmp x.2 (release_version (pending_release x.1)) = Eq) l) as Hv.
    { apply Forall_forall. intros x Hx. by apply Hl. }
    clear -Hs Hv. induction Hs as [|x l _ IH Hx]; [constructor|].
    apply Forall_cons in Hv as [Hxv Hv]. constructor; [by apply IH|].
    rewrite Forall_forall in *. intros y Hy. specialize (Hx y Hy). specialize (Hv y Hy).
    unfold cmp_on in Hx. rewrite (cmp_eq_l RPackageVersion_cmp _ _ _ Hxv), (cmp_eq_r RPackageVersion_cmp _ _ _ Hv) in Hx.
    simpl. rewrite !canonical_version_components_iter. exact Hx. }
  exists (pending_entry ∘ fst <$> l). split_and!.
  - apply Forall2_fmap_r, Forall2_flip. eapply Forall2_impl_l; [|exact Hws|exact Hl].
    intros x w [Hp _] Hw. by eapply written_entry.
  - split; [|by intros e f g (x & -> & _)%list_elem_of_fmap _ [=]].
    apply (NoDup_fmap_1 fst), (strict_sorted_NoDup (lex_cmp N.compare)).
    by rewrite <-list_fmap_compose.
  - apply (sorted_fmap entry_key). apply (sorted_fmap entry_components) in Hc.
    eapply StronglySorted_impl; [|exact Hc]. intros e f Hef.
    unfold release_key_cmp, pair_cmp, cmp_then, cmp_on, entry_key. simpl. by rewrite Hef.
Qed.

Lemma written_accepted l ws h :
  eligible_ready l → Forall2 (λ x w, to_wire_release x.1 indexes = Ok w) l ws →
  history_package h = PackageName_as_str package →
  length (history_observations h) = length indexes →
  Forall (release_accepted h) ws ∧ Forall (λ w, canonical_release w = Ok tt) ws.
Proof.
  intros [Hl _] Hws Hpackage Hlen. apply Forall_and, Forall_forall. intros w Hin.
  destruct (Forall2_elem_r _ _ _ _ Hws Hin) as (x & Hx & Hw). rewrite Forall_forall in Hl.
  destruct (Hl x Hx) as (Hp & Hn & _).
  destruct (to_wire_release_canonical _ _ _ Hp (indexes_increasing _ _ _ _ ready) indexes_few Hw) as [Hc He].
  split; [|exact Hc]. destruct (to_wire_release_stands _ _ _ Hp Hw) as (r & Hr & _).
  split_and!.
  - apply to_wire_release_parts in Hw as (ws' & ws'' & evs & digest & _ & _ & _ & _ & ->). simpl.
    by rewrite Hpackage, Hn.
  - unfold len_u64. by rewrite Hlen.
  - exists r. by apply release_to_domain_ok.
Qed.

(** ** The decisions *)

Record decision_ready (d : DecisionV1) : Prop := {
  decision_nonempty : decision_observation_ids d ≠ [];
  decision_sorted : strictly_sorted N.compare (decision_observation_ids d);
  decision_known id : id ∈ decision_observation_ids d → ∃ i, i ∈ indexes ∧ id = N.of_nat i;
}.

Lemma as_u32_index i : i ∈ indexes → as_u32 i = N.of_nat i.
Proof. intros Hi. apply as_u32_small. pose proof indexes_small as Hs. rewrite Forall_forall in Hs. auto. Qed.

Lemma group_ids g : g ∈ groups → (λ entry : Entry, as_u32 entry.1) <$> g.2 = N.of_nat <$> g.2.*1.
Proof.
  destruct g as [k entries]. intros (_ & _ & Hin)%group_entries; [|apply (indexes_increasing _ _ _ _ ready)].
  rewrite <-list_fmap_compose. apply list_fmap_ext. intros x [i r] Hx%list_elem_of_lookup_2. simpl.
  apply as_u32_index. by destruct (Hin i r Hx).
Qed.

Lemma increasing_ids l : StronglySorted lt l → strictly_sorted N.compare (N.of_nat <$> l).
Proof.
  intros Hl. apply (sorted_fmap N.of_nat). eapply StronglySorted_impl; [|exact Hl].
  intros i j Hij. apply N.compare_lt_iff. lia.
Qed.

Lemma decided_ready outcomes :
  Forall2 (λ g outcome, outcome_of g = Ok outcome) groups outcomes →
  Forall decision_ready (decided observations indexes outcomes).
Proof.
  intros Ho. apply Forall_forall. intros d [Hd|Hd]%elem_of_app.
  - apply list_elem_of_omap in Hd as (i & Hi & Hd). unfold aside_at in Hd.
    apply bind_Some in Hd as (o & _ & Hd). apply bind_Some in Hd as ([incomplete [code detail]] & _ & [= <-]).
    constructor; simpl; [done|constructor; constructor|].
    intros id ->%list_elem_of_singleton. exists i. split; [done|]. by apply as_u32_index.
  - apply list_elem_of_join in Hd as (ds & Hd & (outcome & -> & Hin)%list_elem_of_fmap).
    destruct (Forall2_elem_r _ _ _ _ Ho Hin) as (g & Hg & Hout).
    destruct (group_outcome_ids _ _ _ _ Hout) as [E|(code & detail & E)]; rewrite E in Hd;
      [by apply elem_of_nil in Hd|]. apply list_elem_of_singleton in Hd as ->.
    pose proof (group_ids g Hg) as Hids. destruct g as [k entries].
    apply group_entries in Hg as (Hne & Hs & Hentries); [|apply (indexes_increasing _ _ _ _ ready)].
    simpl in Hids. constructor; simpl.
    + by intros E'%fmap_nil_inv.
    + change (strictly_sorted N.compare ((λ entry : Entry, as_u32 entry.1) <$> entries)).
      rewrite Hids. by apply increasing_ids.
    + intros id. change (nat * PackageRelease)%type with Entry. rewrite Hids.
      intros (i & -> & ([j r] & -> & Hjr)%list_elem_of_fmap)%list_elem_of_fmap. exists j.
      split; [|done]. by destruct (Hentries j r Hjr).
Qed.

(** An id and its position. *)
Definition at_position (id j : N) : Prop := indexes !! N.to_nat j = Some (N.to_nat id).

Lemma at_position_compare a i b j : at_position a i → at_position b j → N.compare a b = N.compare i j.
Proof.
  unfold at_position. intros Hi Hj. pose proof (indexes_increasing _ _ _ _ ready) as Hs.
  destruct (N.compare_spec i j) as [->|Hlt|Hlt].
  - rewrite Hi in Hj. injection Hj as Hj. apply N.compare_eq_iff. lia.
  - apply N.compare_lt_iff. assert (N.to_nat a < N.to_nat b); [|lia].
    eapply (StronglySorted_lookup_both lt); [done..|]. lia.
  - apply N.compare_gt_iff. assert (N.to_nat b < N.to_nat a); [|lia].
    eapply (StronglySorted_lookup_both lt); [done..|]. lia.
Qed.

Record remapped (d e : DecisionV1) : Prop := {
  remapped_code : decision_code e = decision_code d;
  remapped_detail : decision_detail e = decision_detail d;
  remapped_ids : Forall2 at_position (decision_observation_ids d) (decision_observation_ids e);
}.

Lemma remap_decision_ok d e : decision_ready d → remap_decision indexes d = Ok e → remapped d e.
Proof.
  intros Hd (js & Hjs%try_map_ok & [= <-])%result_bind_ok.
  assert (Forall2 at_position (decision_observation_ids d) js) as Hpos.
  { eapply Forall2_impl; [exact Hjs|]. intros id j (i & Hi & [= <-])%result_bind_ok.
    destruct (position _ _) as [k|] eqn:E; [|done]. injection Hi as ->.
    apply position_some in E; [|apply indexes_NoDup]. unfold at_position.
    rewrite as_u32_small; [by rewrite Nat2N.id|]. apply lookup_lt_Some in E. pose proof indexes_few. lia. }
  constructor; simpl; [done..|]. rewrite (sorted_set_id N.compare); [done|].
  eapply StronglySorted_Forall2; [|exact Hpos|apply (decision_sorted _ Hd)].
  intros a b i j Hi Hj. simpl. by rewrite (at_position_compare a i b j).
Qed.

Lemma remapped_key d e d' e' :
  remapped d e → remapped d' e' →
  decision_key_cmp (decision_order_key d) (decision_order_key d')
    = decision_key_cmp (decision_order_key e) (decision_order_key e').
Proof.
  intros [Hc Ht Hi] [Hc' Ht' Hi']. unfold decision_key_cmp, decision_order_key, pair_cmp, cmp_then, cmp_on. simpl.
  rewrite Hc, Hc', Ht, Ht'. rewrite (lex_cmp_related _ _ _ _ _ _ _ at_position_compare Hi Hi'). done.
Qed.

(** Decisions in canonical form. *)
Definition decisions_canonical (ds : list DecisionV1) : Prop :=
  strictly_sorted decision_key_cmp (decision_order_key <$> ds) ∧
  Forall (λ d, canonical_decision d = Ok tt ∧
    Forall (λ id, id < N.of_nat (length indexes))%N (decision_observation_ids d)) ds.

Lemma remapped_canonical d e :
  decision_ready d → remapped d e →
  canonical_decision e = Ok tt ∧ Forall (λ id, id < N.of_nat (length indexes))%N (decision_observation_ids e).
Proof.
  intros Hd [_ _ He]. split.
  - unfold canonical_decision. apply reject_if_ok, (unordered_sorted N.compare).
    eapply StronglySorted_Forall2; [|exact He|apply (decision_sorted _ Hd)].
    intros a b i j Hi Hj. simpl. by rewrite (at_position_compare a i b j).
  - apply Forall_forall. intros j Hj. destruct (Forall2_elem_r _ _ _ _ He Hj) as (id & _ & Hid).
    apply lookup_lt_Some in Hid. lia.
Qed.

Lemma decisions_written outcomes ds :
  Forall2 (λ g outcome, outcome_of g = Ok outcome) groups outcomes →
  try_map (remap_decision indexes)
    (sort_by (cmp_on decision_order_key decision_key_cmp) (decided observations indexes outcomes)) = Ok ds →
  decisions_canonical ds ∧ Forall2 remapped
    (sort_by (cmp_on decision_order_key decision_key_cmp) (decided observations indexes outcomes)) ds.
Proof.
  intros Ho Hds%try_map_ok. pose proof (decided_ready _ Ho) as Hready.
  assert (strictly_sorted decision_key_cmp (decision_order_key <$>
    sort_by (cmp_on decision_order_key decision_key_cmp) (decided observations indexes outcomes))) as Hs.
  { apply (sort_by_distinct decision_order_key); [apply _..|].
    apply (NoDup_fmap_1 (λ k : DecisionOrderKey, k.2.1)). rewrite <-list_fmap_compose.
    apply NoDup_join_nonempty.
    - eapply decided_NoDup; [apply indexes_NoDup|apply indexes_small|exact Ho].
    - apply Forall_fmap. eapply Forall_impl; [exact Hready|]. intros d Hd. apply (decision_nonempty _ Hd). }
  rewrite <-(sort_by_Permutation (cmp_on decision_order_key decision_key_cmp)) in Hready.
  revert Hds Hs Hready. generalize (sort_by (cmp_on decision_order_key decision_key_cmp) (decided observations indexes outcomes)).
  intros l Hds Hs Hready.
  assert (Forall2 remapped l ds) as Hre.
  { eapply Forall2_impl_l; [|exact Hds|exact Hready]. intros d e. apply remap_decision_ok. }
  split; [split|exact Hre].
  - apply (sorted_fmap decision_order_key) in Hs. apply (sorted_fmap decision_order_key).
    eapply StronglySorted_Forall2; [|exact Hre|exact Hs].
    intros d d' e e' Hd He. simpl. by rewrite (remapped_key d e d' e').
  - apply Forall_forall. intros e He. destruct (Forall2_elem_r _ _ _ _ Hre He) as (d & Hd & Hde).
    rewrite Forall_forall in Hready. by eapply remapped_canonical; [apply Hready|].
Qed.

(** ** The observations *)

Definition raw (id : N) (o : IndexedObservation) : RawObservationV1 :=
  mk_RawObservationV1 id (indexed_source_index o) (indexed_record_index o) (indexed_fields o)
    (indexed_artifact o) (indexed_axes o).

(** The observations are in the order of their keys. *)
Context (ordered : sorted_keys (observation_order_key ∘ raw 0) observation_key_cmp observations).

Local Notation raws := (omap (raw_observation observations) (indexed indexes)).

Lemma raws_observed :
  Forall2 (λ e r, ∃ o, observations !! e.2 = Some o ∧ r = raw (as_u32 e.1) o) (indexed indexes) raws.
Proof.
  eapply Forall2_impl; [apply omap_Forall2, Forall_forall|].
  - intros [i j] Hj%elem_of_indexed%list_elem_of_lookup_2. unfold raw_observation. simpl.
    destruct (indexes_observed _ _ _ _ ready j Hj) as (o & -> & _). by eexists.
  - intros [i j] r (o & Ho & [= <-])%bind_Some. by exists o.
Qed.

Lemma raws_lookup i r :
  raws !! i = Some r → ∃ j o, indexes !! i = Some j ∧ observations !! j = Some o ∧ r = raw (N.of_nat i) o.
Proof.
  intros Hr. destruct (Forall2_lookup_r _ _ _ _ _ raws_observed Hr) as ([k j] & Hk & o & Ho & ->).
  unfold indexed in Hk. apply lookup_zip_Some in Hk as [[-> Hlt]%lookup_seq Hj]. exists j, o.
  split_and!; [done..|]. simpl. rewrite as_u32_small; [done|]. pose proof indexes_few. lia.
Qed.

Lemma raws_length : length raws = length indexes.
Proof. by rewrite <-(Forall2_length _ _ _ raws_observed), length_indexed. Qed.

Lemma raws_valid i r : raws !! i = Some r → observation_ok source_count i r.
Proof.
  intros (j & o & Hj%list_elem_of_lookup_2 & Ho & ->)%raws_lookup. split; [done|]. simpl.
  destruct (indexes_observed _ _ _ _ ready j Hj) as (o' & Ho' & _ & Hs & _). rewrite Ho in Ho'. by injection Ho' as <-.
Qed.

Lemma raws_ordered : sorted_keys observation_order_key observation_key_cmp raws.
Proof.
  destruct ordered as (keys & Hkeys & Hs).
  assert (Forall (λ r, ∃ k, observation_order_key r = Ok k) raws) as Hall.
  { apply Forall_lookup. intros i r (j & o & _ & Ho & ->)%raws_lookup.
    destruct (Forall2_lookup_l _ _ _ _ _ Hkeys Ho) as (k & _ & Hk). by exists k. }
  apply Forall_exists_Forall2_l in Hall as (ks & Hks). exists ks. split; [exact Hks|].
  assert (Forall2 (λ j k, keys !! j = Some k) indexes ks) as Hat.
  { apply Forall2_lookup. intros i. pose proof (Forall2_length _ _ _ Hks) as Hlen. rewrite raws_length in Hlen.
    destruct (ks !! i) as [k|] eqn:Hk.
    - destruct (Forall2_lookup_r _ _ _ _ _ Hks Hk) as (r & Hr & Hrk).
      apply raws_lookup in Hr as (j & o & -> & Ho & ->). constructor.
      destruct (Forall2_lookup_l _ _ _ _ _ Hkeys Ho) as (k' & Hk' & Hok).
      change (observation_order_key (raw 0 o) = Ok k') in Hok.
      change (observation_order_key (raw 0 o) = Ok k) in Hrk. congruence.
    - apply lookup_ge_None in Hk. rewrite (proj2 (lookup_ge_None indexes i)) by lia. constructor. }
  eapply StronglySorted_Forall2; [|exact Hat|apply (indexes_increasing _ _ _ _ ready)].
  intros i j x y Hx Hy Hlt. by apply (StronglySorted_lookup_both (λ k k', observation_key_cmp k k' = Lt) keys i j x y).
Qed.

(** ** The history *)

(** What is eligible, unless the package is incomplete. *)
Definition eligible_of (outcomes : list (option PendingRelease * list DecisionV1)) :
    list (PendingRelease * RPackageVersion) :=
  if existsb (incomplete_at observations) indexes || existsb missing outcomes then []
  else mjoin (zip_with pending_of groups outcomes).

Lemma eligible_of_ready outcomes :
  Forall2 (λ g outcome, outcome_of g = Ok outcome) groups outcomes → eligible_ready (eligible_of outcomes).
Proof.
  intros Ho. unfold eligible_of. destruct (_ || _); [split; constructor|]. by apply pending_eligible.
Qed.

Lemma compose_history_parts h :
  compose_history observations configured package indexes = Ok h → ∃ outcomes ws ds,
    Forall2 (λ g outcome, outcome_of g = Ok outcome) groups outcomes ∧
    Forall2 (λ x w, to_wire_release x.1 indexes = Ok w) (eligible_of outcomes) ws ∧
    decisions_canonical ds ∧
    Forall2 remapped
      (sort_by (cmp_on decision_order_key decision_key_cmp) (decided observations indexes outcomes)) ds ∧
    h = {| history_package := PackageName_as_str package;
           history_state := match ws with [] => LookupIncomplete | _ => LookupPresent end;
           history_observations := raws; history_decisions := ds; history_eligible_releases := ws |}.
Proof.
  unfold compose_history. rewrite triage_fold. simpl.
  intros (e & (outcomes & Ho & ->)%decide_groups_ok & Hk)%result_bind_ok. simpl in Hk.
  apply result_bind_ok in Hk as (ws & Hws%try_map_ok & Hk). apply result_bind_ok in Hk as (ds & Hds & [= <-]).
  destruct (decisions_written _ _ Ho Hds) as [Hd Hre]. exists outcomes, ws, ds. split_and!; try done.
  change (if _ || _ then [] else _) with (eligible_of outcomes) in Hws.
  by rewrite (sort_by_strict (cmp_on snd RPackageVersion_cmp)) in Hws by apply eligible_of_ready, Ho.
Qed.

Lemma composed_history_valid h sources :
  compose_history observations configured package indexes = Ok h →
  validate_history_limits h = Ok tt →
  Forall (λ o, canonical_observation o = Ok tt) (history_observations h) →
  validate_history h sources source_count = Ok tt.
Proof.
  intros (outcomes & ws & ds & Ho & Hws & [Hds Hdc] & _ & ->)%compose_history_parts Hlimits Hobs.
  pose proof (eligible_of_ready _ Ho) as He. apply Forall_and in Hdc as [Hdc Hids]. simpl in Hobs.
  match goal with |- validate_history ?h _ _ = _ => destruct (written_accepted _ _ h He Hws) as [Ha Hc] end;
    [done|apply raws_length|].
  apply validate_history_ok. constructor; simpl; try done.
  - by exists package.
  - by destruct ws.
  - intros i o. apply raws_valid.
  - eapply Forall_impl; [exact Hids|]. intros d Hd. unfold len_u64. by rewrite raws_length.
  - apply validate_canonical_history_ok. constructor; simpl; try done.
    + apply raws_ordered.
    + by eapply written_order.
Qed.
End history.
