(* ===== verification/EvidenceIndex.v ===== *)
(** * The order of composed evidence

    Which sources and observations a composition works on, in which order, and that
    neither depends on the order of its input. *)

From S2P Require Import Prelude RustStd Collections Externals Text Format Versions Names Publication.
From S2P Require Import Identity Constraints Digest Metadata Snapshot SnapshotValidation SnapshotCodec.
From S2P Require Import SnapshotLaws SnapshotHistoryLaws SnapshotReleaseLaws Catalog.
From S2P Require Import Evidence EvidenceWire EvidenceMerge EvidenceLaws.

Lemma same_source_iff s t : same_source s t = true ↔ s = t.
Proof.
  unfold same_source. rewrite !andb_true_iff, !bool_decide_eq_true. split.
  - destruct s, t. simpl. naive_solver.
  - by intros ->.
Qed.

(** Two sorted maps of the same pairs. *)
Lemma bt_sorted_ext {K V} (c : K → K → comparison) `{!CmpOrder c} (m n : list (K * V)) :
  bt_sorted c m → bt_sorted c n → (∀ p, p ∈ m ↔ p ∈ n) → m = n.
Proof. intros Hm Hn Hmn. apply (strict_sorted_ext (cmp_on fst c)); done. Qed.

Lemma zip_fmap_both {A B} (f : A → B) l k : zip (f <$> l) (f <$> k) = prod_map f f <$> zip l k.
Proof. revert k. induction l as [|x l IH]; intros [|y k]; simpl; [done..|]. by rewrite <-IH. Qed.

Lemma windows2_fmap {A B} (f : A → B) l : windows2 (f <$> l) = prod_map f f <$> windows2 l.
Proof. unfold windows2. by rewrite <-fmap_drop, zip_fmap_both. Qed.

Lemma elem_of_windows2 {A} (l : list A) w : w ∈ windows2 l → w.1 ∈ l ∧ w.2 ∈ l.
Proof.
  destruct w as [x y]. intros Hw. split; [by eapply elem_of_zip_l|].
  apply elem_of_zip_r in Hw. eapply elem_of_sublist; [exact Hw|]. apply sublist_drop.
Qed.

Lemma indexed_fst {A} (l : list A) : (indexed l).*1 = seq 0 (length l).
Proof. unfold indexed. apply fst_zip. by rewrite length_seq. Qed.

Lemma seq_increasing i n : StronglySorted lt (seq i n).
Proof.
  revert i. induction n as [|n IH]; intros i; simpl; constructor; [done|].
  apply Forall_forall. intros j [? _]%elem_of_seq. lia.
Qed.

Section index.
Context `{CivilDate, Sha2, !Sha2Laws, UnicodeTables}.
Context `{!JsonBytes (list FieldV1 * option OccurrenceArtifactV1)}.

(** ** Sources *)

(** The sources of some observations, by their ids. *)
Record sources_of (observations : list CranEvidenceObservation) (sources : list (string * SourceInput)) : Prop := {
  collected_sorted : bt_sorted str_cmp sources;
  collected_in id s : (id, s) ∈ sources ↔ ∃ o, o ∈ observations ∧ id = source_id_of o ∧ s = cran_source o;
}.

Lemma collect_source_step observations sources o sources' :
  sources_of observations sources →
  collect_source sources o = Ok sources' ↔ sources_of (observations ++ [o]) sources'.
Proof.
  intros [Hs Hin]. unfold collect_source.
  assert (∀ s, sources_of (observations ++ [o]) s ↔ bt_sorted str_cmp s ∧
    ∀ p, p ∈ s ↔ p ∈ sources ∨ p = (source_id_of o, cran_source o)) as Hiff.
  { intros s. split.
    - intros [Hs' Hin']. split; [done|]. intros [id t]. rewrite Hin', Hin. setoid_rewrite elem_of_app.
      setoid_rewrite list_elem_of_singleton. split; [|naive_solver].
      intros (x & [Hx| ->] & -> & ->); [left; by exists x|by right].
    - intros [Hs' Hin']. split; [done|]. intros id t. rewrite Hin', Hin. setoid_rewrite elem_of_app.
      setoid_rewrite list_elem_of_singleton. split; [naive_solver|].
      intros (x & [Hx| ->] & -> & ->); [left; by exists x|by right]. }
  rewrite Hiff. destruct (bt_get str_cmp (source_id_of o) sources) as [t|] eqn:E.
  - apply (bt_get_in str_cmp) in E as (id & Hid%(cmp_eq_leibniz str_cmp) & Ht). subst id.
    destruct (same_source t (cran_source o)) eqn:Hsame; simpl.
    + apply same_source_iff in Hsame as ->. split; [intros [= <-]; split; [done|naive_solver]|].
      intros [Hs' Hin']. f_equal. apply (bt_sorted_ext str_cmp); [done..|]. naive_solver.
    + split; [done|]. intros [Hs' Hin']. assert (t = cran_source o) as ->.
      { assert (Some t = Some (cran_source o)) as [= ->]; [|done].
        rewrite <-!(bt_in_get str_cmp (source_id_of o) _ sources'); [done|done| |done|]; apply Hin'; auto. }
      by rewrite (proj2 (same_source_iff _ _) eq_refl) in Hsame.
  - assert (∀ p, p ∈ bt_insert str_cmp (source_id_of o) (cran_source o) sources ↔
      p ∈ sources ∨ p = (source_id_of o, cran_source o)) as Hins.
    { intros p. rewrite (elem_of_bt_insert_fresh str_cmp); [naive_solver|].
      intros ([id t] & Hid & Hp)%list_elem_of_fmap. simpl in Hid. subst id.
      apply (bt_in_get str_cmp) in Hp; [congruence|done]. }
    split.
    + intros [= <-]. split; [by apply (bt_insert_sorted str_cmp)|exact Hins].
    + intros [Hs' Hin']. f_equal. apply (bt_sorted_ext str_cmp); [by apply (bt_insert_sorted str_cmp)|done|].
      intros p. by rewrite Hins, Hin'.
Qed.

Lemma sources_of_unique observations sources id s t :
  sources_of observations sources → (id, s) ∈ sources → (id, t) ∈ sources → s = t.
Proof.
  intros [Hs _] Hp Hq. apply (bt_in_get str_cmp) in Hp, Hq; [|done..]. congruence.
Qed.

(** Fewer observations have fewer sources. *)
Lemma sources_of_prefix observations k sources :
  sources_of (observations ++ k) sources → ∃ sources', sources_of observations sources'.
Proof.
  intros Hso. exists (filter (λ p, p.1 ∈ source_id_of <$> observations) sources). split.
  - eapply StronglySorted_sublist; [apply sublist_filter|]. apply (collected_sorted _ _ Hso).
  - intros id s. rewrite list_elem_of_filter, list_elem_of_fmap. simpl.
    assert (∀ o, o ∈ observations → (source_id_of o, cran_source o) ∈ sources) as Hin.
    { intros o Ho. apply (collected_in _ _ Hso). exists o. split; [|done]. apply elem_of_app. by left. }
    split.
    + intros [(o & -> & Ho) Hs]. exists o. split_and!; [done..|].
      eapply sources_of_unique; [exact Hso|exact Hs|by apply Hin].
    + intros (o & Ho & -> & ->). split; [by exists o|by apply Hin].
Qed.

Lemma collect_sources_ok observations sources :
  try_fold collect_source [] observations = Ok sources ↔ sources_of observations sources.
Proof.
  revert sources. induction observations as [|o observations IH] using rev_ind; intros sources; simpl.
  - split.
    + intros [= <-]. split; [constructor|]. intros id s. split; [by intros ?%elem_of_nil|].
      by intros (o & ?%elem_of_nil & _).
    + intros [_ Hin]. destruct sources as [|[id s] sources]; [done|].
      destruct (proj1 (Hin id s)) as (o & ?%elem_of_nil & _); [left|done].
  - rewrite try_fold_app, result_bind_ok. simpl. setoid_rewrite result_bind_ok. split.
    + intros (s0 & Hs0%IH & s1 & Hs1 & [= <-]). by apply (collect_source_step observations s0).
    + intros Hso. destruct (sources_of_prefix _ _ _ Hso) as (s0 & Hs0). exists s0.
      split; [by apply IH|]. exists sources. split; [|done]. by apply (collect_source_step observations s0).
Qed.

(** The order of the observations does not matter. *)
Lemma sources_of_proper observations observations' sources :
  observations ≡ₚ observations' → sources_of observations sources → sources_of observations' sources.
Proof. intros Hp [Hs Hin]. split; [done|]. intros id s. rewrite Hin. by setoid_rewrite Hp. Qed.

Definition source_indexes_by (ids : list string) : list (string * N) :=
  bt_from_iter str_cmp ((λ entry, (entry.2, as_u32 entry.1)) <$> indexed ids).

Lemma source_index_ok ids id n :
  NoDup ids → bt_get str_cmp id (source_indexes_by ids) = Some n →
  ∃ i, ids !! i = Some id ∧ n = as_u32 i.
Proof.
  intros Hn (id' & Hid%(cmp_eq_leibniz str_cmp) & Hin)%(bt_get_in str_cmp). subst id'.
  apply (bt_from_iter_subset str_cmp) in Hin as ([i x] & [= -> ->] & Hx%elem_of_indexed)%list_elem_of_fmap.
  by exists i.
Qed.

Lemma as_u32_le i : (as_u32 i ≤ N.of_nat i)%N.
Proof. apply N.Div0.mod_le. Qed.

(** ** Observations *)

(** What an observation becomes, with its key. *)
Definition keyed_observation (source_indexes : list (string * N)) (o : CranEvidenceObservation) :
    result (ObservationOrderKey * IndexedObservation) EvidenceCompositionError :=
  let? x := index_observation source_indexes o in
  let? y := canonical_artifact x in
  payload_key y.

Lemma Forall2_compose {A B C} (R : A → B → Prop) (S : B → C → Prop) l k m :
  Forall2 R l k → Forall2 S k m → Forall2 (λ x z, ∃ y, R x y ∧ S y z) l m.
Proof.
  intros Hl. revert m. induction Hl as [|x y l k Hx _ IH]; intros m Hm.
  - apply Forall2_nil_inv_l in Hm as ->. constructor.
  - apply Forall2_cons_inv_l in Hm as (z & m' & Hz & Hm & ->). constructor; [by exists y|by apply IH].
Qed.

Lemma try_map_keyed source_indexes observations keyed :
  (let? observed := try_map (index_observation source_indexes) observations in
   let? observed := try_map canonical_artifact observed in
   try_map payload_key observed) = Ok keyed ↔
  Forall2 (λ o k, keyed_observation source_indexes o = Ok k) observations keyed.
Proof.
  split.
  - intros (xs & Hxs%try_map_ok & Hk)%result_bind_ok.
    apply result_bind_ok in Hk as (ys & Hys%try_map_ok & Hks%try_map_ok).
    eapply Forall2_impl; [exact (Forall2_compose _ _ _ _ _ Hxs (Forall2_compose _ _ _ _ _ Hys Hks))|].
    intros o k (x & Hx & y & Hy & Hk). unfold keyed_observation. rewrite Hx. simpl. by rewrite Hy.
  - intros Hk. assert (∃ xs ys, Forall2 (λ o x, index_observation source_indexes o = Ok x) observations xs ∧
      Forall2 (λ x y, canonical_artifact x = Ok y) xs ys ∧ Forall2 (λ y k, payload_key y = Ok k) ys keyed)
      as (xs & ys & Hxs%try_map_ok & Hys%try_map_ok & Hks%try_map_ok);
      [|by rewrite Hxs; cbn; rewrite Hys; cbn].
    induction Hk as [|o k l ks Hk _ (xs & ys & Hxs & Hys & Hks)]; [by exists [], []|].
    unfold keyed_observation in Hk. apply result_bind_ok in Hk as (x & Hx & Hk).
    apply result_bind_ok in Hk as (y & Hy & Hk).
    exists (x :: xs), (y :: ys). split_and!; by constructor.
Qed.

Lemma try_map_keyed_bind {T} source_indexes observations (f : _ → result T _) t :
  (let? observed := try_map (index_observation source_indexes) observations in
   let? observed := try_map canonical_artifact observed in
   let? keyed := try_map payload_key observed in f keyed) = Ok t ↔
  ∃ keyed, Forall2 (λ o k, keyed_observation source_indexes o = Ok k) observations keyed ∧ f keyed = Ok t.
Proof.
  setoid_rewrite <-try_map_keyed. rewrite <-result_bind_ok.
  destruct (try_map (index_observation _) _) as [xs|]; simpl; [|done].
  by destruct (try_map canonical_artifact xs).
Qed.

(** What an observation is written from: itself, with its checksums in order. *)
Record indexed_from (ids : list string) (o : CranEvidenceObservation) (x : IndexedObservation) : Prop := {
  from_source : ∃ i, ids !! i = Some (source_id_of o) ∧ indexed_source_index x = as_u32 i;
  from_package : indexed_package x = cran_package o;
  from_record : indexed_record_index x = cran_record_index o;
  from_fields : indexed_fields x = cran_fields o;
  from_axes : indexed_axes x = cran_axes o;
  from_currentness : indexed_currentness x = cran_currentness o;
  from_release : indexed_release x = cran_release o;
  from_registry : indexed_distribution_registry x = cran_distribution_registry o;
  from_scope : indexed_scope x = cran_scope o;
  from_artifact : option_Forall2 (λ a b,
    Forall (λ c, checksum_algorithm c = to_ascii_lowercase (checksum_algorithm c)) (occurrence_checksums a) ∧
    b = mk_OccurrenceArtifactV1 (occurrence_locator a) (sort_checksums (occurrence_checksums a)) (occurrence_size a))
    (cran_artifact o) (indexed_artifact x);
}.

Lemma keyed_observation_ok ids o k :
  NoDup ids → keyed_observation (source_indexes_by ids) o = Ok k →
  indexed_from ids o k.2 ∧ observation_order_key (raw 0 k.2) = Ok k.1.
Proof.
  intros Hn (x & Hx & Hk)%result_bind_ok. apply result_bind_ok in Hk as (y & Hy & Hk).
  unfold index_observation in Hx. apply result_bind_ok in Hx as (n & Hid & [= <-]).
  destruct (bt_get _ _ _) as [m|] eqn:E; [|done]. injection Hid as ->.
  apply source_index_ok in E; [|done].
  apply result_bind_ok in Hk as (payload & Hp%map_err_ok & [= <-]). simpl. split.
  - unfold canonical_artifact in Hy. simpl in Hy. destruct (cran_artifact o) as [a|] eqn:Ea.
    + destruct (existsb _ _) eqn:Hlow; [done|]. injection Hy as <-. constructor; try done. rewrite Ea.
      constructor. split; [|done]. apply Forall_forall. intros c Hc. apply dec_stable. intros Hne.
      apply not_true_iff_false in Hlow. apply Hlow, existsb_exists. exists c.
      split; [by apply list_elem_of_In|by apply bool_decide_eq_true].
    + injection Hy as <-. constructor; try done. rewrite Ea. constructor.
  - unfold observation_order_key, raw. simpl. by rewrite Hp.
Qed.

Context `{!JsonBytesLaws (list FieldV1 * option OccurrenceArtifactV1)}.

Lemma order_key_parts o p k :
  observation_order_key (raw 0 o) = Ok k → observation_order_key (raw 0 p) = Ok k → same_payload o p = true.
Proof.
  unfold observation_order_key, raw. simpl.
  intros (l & Hl%map_err_ok & [= <-])%result_bind_ok (m & Hm%map_err_ok & [= Hs Hr ->])%result_bind_ok.
  apply json_bytes_round_trip in Hl, Hm. rewrite Hl in Hm. injection Hm as Hf Ha.
  unfold same_payload. by rewrite Hs, Hr, Hf, Ha, !N.eqb_refl, !bool_decide_eq_true_2.
Qed.

(** The keys decide the order: observations with one key are duplicates. *)
Lemma keyed_strict ids observations keyed :
  NoDup ids → Forall2 (λ o k, keyed_observation (source_indexes_by ids) o = Ok k) observations keyed →
  let sorted := sort_by (cmp_on fst observation_key_cmp) keyed in
  existsb (λ pair, same_payload pair.1 pair.2) (windows2 sorted.*2) = false ↔
  strictly_sorted (cmp_on fst observation_key_cmp) sorted.
Proof.
  intros Hn Hk sorted.
  assert (∀ x, x ∈ sorted → observation_order_key (raw 0 x.2) = Ok x.1) as Hkey.
  { intros x Hx%elem_of_sort_by. destruct (Forall2_elem_r _ _ _ _ Hk Hx) as (o & _ & Ho).
    by apply (keyed_observation_ok ids o x Hn) in Ho as [_ ?]. }
  rewrite (sorted_windows_strict (cmp_on fst observation_key_cmp)) by apply sort_by_sorted, _.
  rewrite windows2_fmap. rewrite <-not_true_iff_false, existsb_exists, Forall_forall. split.
  - intros Hno w Hw Heq. apply Hno. exists (prod_map snd snd w). split.
    + apply list_elem_of_In, list_elem_of_fmap. by exists w.
    + destruct (elem_of_windows2 _ _ Hw) as [Hx%Hkey Hy%Hkey]. apply (cmp_eq_leibniz observation_key_cmp) in Heq.
      rewrite Heq in Hx. by eapply order_key_parts.
  - intros Hne (v & (w & -> & Hw)%list_elem_of_In%list_elem_of_fmap & Hv). apply (Hne w Hw).
    destruct (elem_of_windows2 _ _ Hw) as [Hx%Hkey Hy%Hkey].
    unfold same_payload in Hv. rewrite !andb_true_iff, !N.eqb_eq, !bool_decide_eq_true in Hv. simpl in Hv.
    unfold observation_order_key, raw in Hx, Hy. simpl in Hx, Hy.
    destruct Hv as [[[E1 E2] E3] E4]. rewrite E1, E2, E3, E4, Hy in Hx. injection Hx as Hx.
    unfold cmp_on. rewrite Hx. apply (cmp_refl observation_key_cmp).
Qed.

(** ** Packages *)

(** What the last loop asks of an observation. *)
Record observation_checked (i : nat) (o : IndexedObservation) : Prop := {
  checked_artifact : validate_artifact_axis i o = Ok tt;
  checked_publication : validate_publication_axis o = Ok tt;
  checked_identity r : indexed_release o = Some r → validate_release_identity r (indexed_package o) = Ok tt;
  checked_dependencies r : indexed_release o = Some r → validate_dependency_sources r = Ok tt;
}.

Lemma group_observation_ok m i o m' :
  group_observation m (i, o) = Ok m' ↔
    observation_checked i o ∧ m' = bt_push PackageName_cmp (indexed_package o) i m.
Proof.
  unfold group_observation. rewrite !check_bind.
  assert ((match indexed_release o with
           | Some release => let? _ := validate_release_identity release (indexed_package o) in
                             validate_dependency_sources release
           | None => Ok tt
           end = Ok tt) ↔ ∀ r, indexed_release o = Some r →
             validate_release_identity r (indexed_package o) = Ok tt ∧ validate_dependency_sources r = Ok tt) as Hr.
  { destruct (indexed_release o) as [r|]; [|split; [by intros _ ? [=]|done]]. rewrite check_bind. split.
    - by intros Hc ? [= <-].
    - intros Hc. by apply Hc. }
  rewrite Hr. split.
  - intros (Ha & Hp & Hc & [= <-]). split; [|done]. constructor; [done|done|..]; intros r Hor; by apply Hc.
  - intros [[Ha Hp Hi Hd] ->]. split_and!; [done|done| |done]. intros r Hor. split; auto.
Qed.

Lemma group_observations_ok m l m' :
  try_fold group_observation m l = Ok m' ↔
    Forall (λ e, observation_checked e.1 e.2) l ∧
    m' = foldl (λ m e, bt_push PackageName_cmp (indexed_package e.2) e.1 m) m l.
Proof.
  revert m. induction l as [|[i o] l IH]; intros m; simpl.
  - split; [intros [= <-]; split; [constructor|done]|by intros [_ ->]].
  - rewrite result_bind_ok, Forall_cons. split.
    + intros (m1 & [Hc ->]%group_observation_ok & [Hl ->]%IH). by split_and!.
    + intros [[Hc Hl] ->]. eexists. split; [by apply group_observation_ok|]. by apply IH.
Qed.

Definition package_pairs (observations : list IndexedObservation) : list (PackageName * nat) :=
  (λ e, (indexed_package e.2, e.1)) <$> indexed observations.

Lemma package_indexes_group observations :
  foldl (λ m e, bt_push PackageName_cmp (indexed_package e.2) e.1 m) [] (indexed observations)
    = bt_group PackageName_cmp (package_pairs observations).
Proof.
  unfold bt_group, package_pairs. generalize (@nil (PackageName * list nat)).
  generalize (indexed observations). intros l. induction l as [|[i o] l IH]; intros m; [done|]. simpl. apply IH.
Qed.

(** What an accepted input becomes. *)
Record input_of (observations : list CranEvidenceObservation) (input : IndexedInput)
    (keyed : list (ObservationOrderKey * IndexedObservation)) : Prop := {
  input_of_sources : sources_of observations (input_sources input);
  input_of_ids : input_source_ids input = (input_sources input).*1;
  input_of_keyed : Forall2 (λ o k, keyed_observation (source_indexes_by (input_source_ids input)) o = Ok k)
    observations keyed;
  input_of_strict : strictly_sorted (cmp_on fst observation_key_cmp)
    (sort_by (cmp_on fst observation_key_cmp) keyed);
  input_of_observations : input_observations input = (sort_by (cmp_on fst observation_key_cmp) keyed).*2;
  input_of_checked : Forall (λ e, observation_checked e.1 e.2) (indexed (input_observations input));
  input_of_indexes : input_package_indexes input
    = bt_group PackageName_cmp (package_pairs (input_observations input));
}.

Lemma index_observations_ok observations input :
  index_observations observations = Ok input ↔ ∃ keyed, input_of observations input keyed.
Proof.
  unfold index_observations. split.
  - intros (sources & Hs%collect_sources_ok & Hk)%result_bind_ok. cbv zeta in Hk.
    assert (NoDup sources.*1) as Hn by (apply (bt_sorted_NoDup str_cmp), (collected_sorted _ _ Hs)).
    apply (try_map_keyed_bind (source_indexes_by sources.*1)) in Hk as (keyed & Hkeyed & Hk).
    destruct (existsb _ _) eqn:Hdup; [done|]. apply result_bind_ok in Hk as (m & Hm & [= <-]).
    apply (keyed_strict _ _ _ Hn Hkeyed) in Hdup. apply group_observations_ok in Hm as [Hc ->].
    exists keyed. constructor; simpl; try done. apply package_indexes_group.
  - intros (keyed & [Hs Hids Hkeyed Hstrict Hobs Hc Hp]). destruct input as [sources ids os indexes]. simpl in *.
    subst ids os indexes.
    assert (NoDup sources.*1) as Hn by (apply (bt_sorted_NoDup str_cmp), (collected_sorted _ _ Hs)).
    apply result_bind_ok. exists sources. split; [by apply collect_sources_ok|]. cbv zeta.
    apply (try_map_keyed_bind (source_indexes_by sources.*1)). exists keyed. split; [done|].
    rewrite (proj2 (keyed_strict _ _ _ Hn Hkeyed) Hstrict).
    rewrite (proj2 (group_observations_ok _ _ _) (conj Hc eq_refl)). simpl. by rewrite package_indexes_group.
Qed.

(** The composition works on a set of observations: their order does not matter. *)
Lemma index_observations_order observations observations' input :
  observations ≡ₚ observations' → index_observations observations = Ok input →
  index_observations observations' = Ok input.
Proof.
  intros Hp (keyed & [Hs Hids Hkeyed Hstrict Hobs Hc Hi])%index_observations_ok. apply index_observations_ok.
  destruct (Permutation_Forall2 Hp Hkeyed) as (keyed' & Hp' & Hkeyed'). exists keyed'.
  assert (sort_by (cmp_on fst observation_key_cmp) keyed = sort_by (cmp_on fst observation_key_cmp) keyed') as E.
  { apply sort_by_unique; [apply _| |done]. intros x y Hx Hy Hxy.
    by apply (strictly_sorted_Eq (cmp_on fst observation_key_cmp) _ x y Hstrict); [apply elem_of_sort_by..|]. }
  constructor; rewrite <-?E; try done. by eapply sources_of_proper.
Qed.

(** ** What is composed is ready *)

(** A release built by its constructors, from parsed parts. *)
Record release_built (r : PackageRelease) : Prop := {
  built_provenance namespace v :
    ReleaseIdentity_provenance (release_identity r) = RegistryRelease namespace v → v ≈ release_version r;
  built_version :
    RPackageVersion_parse (RPackageVersion_fmt (release_version r)) = Ok (release_version r);
  built_date p : release_publication r = Some p →
    PublicationDate_parse (PublicationDate_as_str (ReleasePublication_date p)) = Ok (ReleasePublication_date p);
  built_dependencies : Forall (λ d, package_built (requirement_name (declared_package d)) ∧
    Forall clause_built (clauses (requirement_constraint (declared_package d)))) (release_dependencies r);
  built_distributions : Forall distribution_built (release_distributions r);
}.

(** The sha256 checksums are digests: the composition does not check them. *)
Definition checksums_built (artifact : OccurrenceArtifactV1) : Prop :=
  Forall (λ c, checksum_algorithm c = "sha256" → ∃ l, parse_hex_32 (checksum_value c) = Ok l)
    (occurrence_checksums artifact).

Record evidence_built (o : CranEvidenceObservation) : Prop := {
  built_package : package_built (cran_package o);
  built_registry : registry_built (cran_distribution_registry o);
  built_artifact a : cran_artifact o = Some a → checksums_built a;
  built_release r : cran_release o = Some r → release_built r;
}.

Lemma observed_release r package :
  release_built r → package_built package →
  validate_release_identity r package = Ok tt → validate_dependency_sources r = Ok tt →
  release_observed r ∧ ReleaseIdentity_name (release_identity r) = package.
Proof.
  intros [Hp Hv Hd Hdeps Hds] Hpackage Hi Hs. unfold validate_release_identity in Hi.
  destruct (_ || _) eqn:E; [done|]. apply orb_false_iff in E as [Hn Hc].
  apply negb_false_iff, req_leibniz in Hn. split; [|done].
  unfold validate_dependency_sources in Hs. destruct (existsb _ _) eqn:Hany; [done|].
  constructor; try done; [by rewrite Hn| |].
  - destruct (ReleaseIdentity_provenance _) eqn:Ep; try done.
    apply negb_false_iff, bool_decide_eq_true in Hc. eexists. split; [by eapply Hp|].
    f_equal. by apply identifier_eq.
  - apply Forall_forall. intros d Hin. rewrite Forall_forall in Hdeps. destruct (Hdeps d Hin) as [Hname Hclauses].
    constructor; [done| |done]. destruct (requirement_source (declared_package d)) eqn:Esrc; [done|..];
      (exfalso; apply not_true_iff_false in Hany; apply Hany, existsb_exists; exists d;
       split; [by apply list_elem_of_In|by rewrite Esrc]).
Qed.

Section input.
Context (observations : list CranEvidenceObservation) (input : IndexedInput).
Context (keyed : list (ObservationOrderKey * IndexedObservation)) (indexed_input : input_of observations input keyed).
Context (built : Forall evidence_built observations).

Lemma ids_distinct : NoDup (input_source_ids input).
Proof.
  rewrite (input_of_ids _ _ _ indexed_input).
  apply (bt_sorted_NoDup str_cmp), (collected_sorted _ _ (input_of_sources _ _ _ indexed_input)).
Qed.

(** Where an observation comes from. *)
Lemma observation_from i x :
  input_observations input !! i = Some x →
  (∃ o, o ∈ observations ∧ indexed_from (input_source_ids input) o x) ∧ observation_checked i x.
Proof.
  intros Hx. split.
  - apply list_elem_of_lookup_2 in Hx. rewrite (input_of_observations _ _ _ indexed_input) in Hx.
    apply list_elem_of_fmap in Hx as (k & -> & Hk%elem_of_sort_by).
    destruct (Forall2_elem_r _ _ _ _ (input_of_keyed _ _ _ indexed_input) Hk) as (o & Ho & Hok).
    exists o. split; [done|]. by apply (keyed_observation_ok _ _ _ ids_distinct) in Hok as [? _].
  - pose proof (input_of_checked _ _ _ indexed_input) as Hc. rewrite Forall_forall in Hc.
    apply (Hc (i, x)). by apply elem_of_indexed.
Qed.

Lemma observation_made_ready i x :
  input_observations input !! i = Some x →
  observation_ready x ∧ package_built (indexed_package x) ∧
  (indexed_source_index x < N.of_nat (length (input_source_ids input)))%N ∧
  (∀ r, indexed_release x = Some r → ReleaseIdentity_name (release_identity r) = indexed_package x) ∧
  (∀ a, indexed_artifact x = Some a → validate_checksums (occurrence_checksums a) = Ok tt).
Proof.
  intros ((o & Ho & Hf) & Hc)%observation_from. pose proof built as Hb. rewrite Forall_forall in Hb.
  specialize (Hb o Ho).
  assert (package_built (indexed_package x)) as Hp by (rewrite (from_package _ _ _ Hf); apply Hb).
  assert (∀ r, indexed_release x = Some r →
    release_observed r ∧ ReleaseIdentity_name (release_identity r) = indexed_package x) as Hr.
  { intros r Hxr. pose proof (checked_identity _ _ Hc r Hxr) as Hi.
    pose proof (checked_dependencies _ _ Hc r Hxr) as Hd. rewrite (from_release _ _ _ Hf) in Hxr.
    by apply observed_release; [apply (built_release _ Hb)|..]. }
  assert (∀ a, indexed_artifact x = Some a →
    artifact_canonical a ∧ validate_checksums (occurrence_checksums a) = Ok tt) as Ha.
  { intros b Hxb. pose proof (from_artifact _ _ _ Hf) as Hart. rewrite Hxb in Hart.
    inversion Hart as [a ? [Hlow ->] Hoa|]; subst. symmetry in Hoa.
    pose proof (built_artifact _ Hb a Hoa) as Hsums. unfold checksums_built in Hsums.
    rewrite Forall_forall in Hlow, Hsums.
    destruct (keyed_set_strict checksum_order_key (pair_cmp str_cmp str_cmp) (occurrence_checksums a)) as [Hs Hin].
    split; [split; [|exact Hs]|].
    - apply Forall_forall. intros c Hc'%Hin. by apply Hlow.
    - apply sort_checksums_ok, Forall_forall. intros c Hc'. unfold validate_checksum.
      rewrite (bool_decide_eq_false_2 (_ ≠ _)) by (intros Hne; by apply Hne, Hlow).
      simpl. case_bool_decide as Hsha; [|done]. destruct (Hsums c Hc' Hsha) as (l & ->). done. }
  split_and!; [|done| |intros r Hxr; by apply Hr|intros a Hxa; by apply Ha].
  - constructor; [rewrite (from_registry _ _ _ Hf); apply Hb|intros a Hxa; by apply Ha|intros r Hxr; by apply Hr].
  - destruct (from_source _ _ _ Hf) as (j & Hj%lookup_lt_Some & ->). pose proof (as_u32_le j). lia.
Qed.

Lemma package_pairs_lookup package i :
  (package, i) ∈ package_pairs (input_observations input) ↔
    ∃ x, input_observations input !! i = Some x ∧ package = indexed_package x.
Proof.
  unfold package_pairs. rewrite list_elem_of_fmap. split.
  - intros ([j x] & [= -> ->] & Hx%elem_of_indexed). by exists x.
  - intros (x & Hx & ->). exists (i, x). split; [done|]. by apply elem_of_indexed.
Qed.

Lemma package_ready package indexes :
  (package, indexes) ∈ input_package_indexes input →
  package_built package ∧
  indexes_ready (input_observations input) package (length (input_source_ids input)) indexes.
Proof.
  rewrite (input_of_indexes _ _ _ indexed_input). intros [-> Hne]%(elem_of_bt_group PackageName_cmp).
  assert (∀ i, i ∈ group_of PackageName_cmp package (package_pairs (input_observations input)) →
    ∃ x, input_observations input !! i = Some x ∧ package = indexed_package x) as Hin.
  { intros i ([p j] & -> & [Hp Hj]%list_elem_of_filter)%list_elem_of_fmap. simpl in *.
    apply (cmp_eq_leibniz PackageName_cmp) in Hp as <-. by apply package_pairs_lookup. }
  split.
  - destruct (group_of _ _ _) as [|i l] eqn:E; [done|]. destruct (Hin i) as (x & Hx & ->); [left|].
    by apply observation_made_ready in Hx as (_ & ? & _).
  - constructor.
    + unfold group_of. eapply StronglySorted_sublist; [apply fmap_sublist, sublist_filter|].
      unfold package_pairs. rewrite <-list_fmap_compose.
      change (snd ∘ _) with (fst : nat * IndexedObservation → nat). rewrite indexed_fst. apply seq_increasing.
    + intros i (x & Hx & ->)%Hin. exists x.
      destruct (observation_made_ready i x Hx) as (? & _ & ? & ? & _). done.
Qed.

Lemma observations_ordered :
  sorted_keys (observation_order_key ∘ raw 0) observation_key_cmp (input_observations input).
Proof.
  exists (sort_by (cmp_on fst observation_key_cmp) keyed).*1. split.
  - rewrite (input_of_observations _ _ _ indexed_input). apply Forall2_fmap_l, Forall2_fmap_r, Forall_Forall2_diag.
    apply Forall_forall. intros k Hk%elem_of_sort_by.
    destruct (Forall2_elem_r _ _ _ _ (input_of_keyed _ _ _ indexed_input) Hk) as (o & _ & Hok).
    by apply (keyed_observation_ok _ _ _ ids_distinct) in Hok as [_ ?].
  - apply (sorted_fmap fst). apply (input_of_strict _ _ _ indexed_input).
Qed.

Lemma observations_length : length (input_observations input) = length observations.
Proof.
  rewrite (input_of_observations _ _ _ indexed_input), length_fmap, sort_by_Permutation.
  symmetry. eapply Forall2_length, (input_of_keyed _ _ _ indexed_input).
Qed.

(** The histories of a composition are valid. *)
Lemma composed_histories_valid configured histories sources :
  identifier_built configured → (N.of_nat (length observations) ≤ 2 ^ 32)%N →
  try_map (λ entry, compose_history (input_observations input) configured entry.1 entry.2)
    (input_package_indexes input) = Ok histories →
  Forall (λ h, validate_history_limits h = Ok tt) histories →
  Forall (λ h, validate_history h sources (length (input_source_ids input)) = Ok tt) histories.
Proof.
  intros Hc Hlen Hh%try_map_ok Hlimits. rewrite Forall_forall in *. intros h Hin.
  destruct (Forall2_elem_r _ _ _ _ Hh Hin) as ([package indexes] & Hp & Hcomp). simpl in Hcomp.
  destruct (package_ready package indexes Hp) as [Hpackage Hready].
  eapply composed_history_valid; [exact Hc|exact Hpackage|exact Hready|by rewrite observations_length
    |exact observations_ordered|exact Hcomp|by apply Hlimits|].
  eapply compose_history_parts in Hcomp as (outcomes & ws & ds & _ & _ & _ & _ & ->);
    [|exact Hc|exact Hready|by rewrite observations_length].
  simpl. apply Forall_lookup. intros i r Hr.
  eapply raws_lookup in Hr as (j & o & _ & Ho & ->); [|exact Hready|by rewrite observations_length].
  apply observation_made_ready in Ho as (_ & _ & _ & _ & Ha). unfold canonical_observation, raw. simpl.
  destruct (indexed_artifact o) as [a|]; [by apply Ha|done].
Qed.
End input.
End index.
