(* ===== verification/EvidenceSnapshot.v ===== *)
(** * What the composition of evidence promises

    A composed input is one that a snapshot is prepared from, it does not depend on
    the order of the observations, and a release is eligible exactly when the
    evidence of its package is complete. *)

From S2P Require Import Prelude RustStd Collections Externals Text Format Versions Names Publication.
From S2P Require Import Identity Constraints Digest Metadata Snapshot SnapshotValidation SnapshotCodec.
From S2P Require Import SnapshotLaws SnapshotHistoryLaws SnapshotReleaseLaws SnapshotPublish Catalog.
From S2P Require Import Evidence EvidenceWire EvidenceMerge EvidenceLaws EvidenceIndex.

(** ** Preparing what is in order *)

Lemma remap_entries {A} (m : list N) (l : list (nat * (nat * A))) j :
  Forall (λ e, e.1 = e.2.1) l →
  foldl (λ remap entry, <[ entry.2.1 := as_u32 entry.1 ]> remap) m l !! j =
    if decide (j ∈ l.*1) then (if decide (j < length m) then Some (as_u32 j) else None) else m !! j.
Proof.
  intros Hl. assert (∀ l m, length (foldl (λ remap (entry : nat * (nat * A)), <[ entry.2.1 := as_u32 entry.1 ]> remap) m l)
    = length m) as Hlen.
  { clear. intros l. induction l as [|e l IH]; intros m; simpl; [done|]. by rewrite IH, length_insert. }
  induction l as [|[i [i' x]] l IH] using rev_ind; [done|].
  apply Forall_app in Hl as [Hl Hi]. apply Forall_cons in Hi as [Hi _]. simpl in Hi. subst i'.
  rewrite foldl_app. simpl. destruct (decide (j = i)) as [->|Hne].
  - rewrite (decide_True (P := i ∈ _)) by (rewrite fmap_app; apply elem_of_app; right; left).
    destruct (decide (i < length m)).
    + apply list_lookup_insert_eq. by rewrite Hlen.
    + rewrite list_insert_ge by (rewrite Hlen; lia). apply lookup_ge_None. rewrite Hlen. lia.
  - rewrite list_lookup_insert_ne, (IH Hl) by done.
    apply decide_ext. rewrite fmap_app, elem_of_app. change ([(i, (i, x))].*1) with [i].
    rewrite list_elem_of_singleton. tauto.
Qed.

Lemma indexed_lookup {A} (l : list A) i : indexed l !! i = (λ x, (i, x)) <$> l !! i.
Proof.
  unfold indexed. destruct (l !! i) as [x|] eqn:E; simpl.
  - apply lookup_zip_Some. split; [|done]. apply lookup_seq. split; [done|]. by eapply lookup_lt_Some.
  - apply lookup_ge_None in E. apply lookup_ge_None. rewrite length_zip, length_seq. lia.
Qed.

(** Sources in order keep their indexes. *)
Lemma source_index_remap_indexed (sources : list SourceObservationV1) i :
  i < length sources → source_index_remap (indexed sources) !! i = Some (as_u32 i).
Proof.
  intros Hi. assert (length (indexed sources) = length sources) as Hlen by apply length_indexed.
  unfold source_index_remap. rewrite remap_entries.
  - rewrite decide_True; [|rewrite indexed_fst; apply elem_of_seq; lia].
    by rewrite length_replicate, decide_True by lia.
  - apply Forall_forall. intros [j [k x]] Hj%elem_of_indexed.
    rewrite indexed_lookup in Hj. destruct (sources !! j); [|done]. simpl in *. by injection Hj as ->.
Qed.

Lemma indexed_snd {A} (l : list A) : (indexed l).*2 = l.
Proof. unfold indexed. apply snd_zip. by rewrite length_seq. Qed.

Lemma indexed_sorted {A K} (f : A → K) (c : K → K → comparison) l :
  strictly_sorted c (f <$> l) → strictly_sorted (cmp_on (λ e : nat * A, f e.2) c) (indexed l).
Proof.
  intros Hl. apply (sorted_fmap (λ e : nat * A, f e.2) (λ x y, c x y = Lt)).
  assert ((λ e : nat * A, f e.2) <$> indexed l = f <$> l) as ->; [|done].
  change (f ∘ snd <$> indexed l = f <$> l). by rewrite list_fmap_compose, indexed_snd.
Qed.

Lemma strict_no_repeats {A K} (f : A → K) (c : K → K → comparison) `{!CmpOrder c} `{!∀ x y : K, Decision (x = y)} l :
  strictly_sorted (cmp_on f c) l →
  existsb (λ w, bool_decide (f w.1 = f w.2)) (windows2 l) = false.
Proof.
  intros Hl%(strictly_sorted_windows (cmp_on f c)). apply not_true_iff_false.
  intros (w & Hw%list_elem_of_In & Heq%bool_decide_eq_true)%existsb_exists.
  rewrite Forall_forall in Hl. specialize (Hl w Hw). unfold cmp_on in Hl. rewrite Heq, (cmp_refl c) in Hl. done.
Qed.

Section snapshot.
Context `{CivilDate, Sha2, !Sha2Laws, UnicodeTables}.
Context `{!JsonBytes (list FieldV1 * option OccurrenceArtifactV1)}.
Context `{!JsonBytesLaws (list FieldV1 * option OccurrenceArtifactV1)}.
Context `{!Postcard PostcardHistoryV1}.

Lemma remap_identity (sources : list SourceObservationV1) o :
  (N.of_nat (length sources) ≤ 2 ^ 32)%N → (observation_source_index o < N.of_nat (length sources))%N →
  remap_observation (source_index_remap (indexed sources)) o = Ok o.
Proof.
  intros Hlen Ho. unfold remap_observation. rewrite source_index_remap_indexed by lia.
  rewrite as_u32_small by lia. rewrite N2Nat.id. by destruct o.
Qed.

(** A history that needs no change is stored as it is. *)
Lemma prepare_valid_history (sources : list SourceObservationV1) m h :
  (N.of_nat (length sources) ≤ 2 ^ 32)%N →
  validate_history h (source_indexes_of sources) (length sources) = Ok tt →
  is_ok (encode_history h) = true → history_package h ∉ m.*1 → bt_sorted str_cmp m →
  ∃ value, prepare_history (source_index_remap (indexed sources)) sources m h
    = Ok (bt_insert str_cmp (history_package h) value m).
Proof.
  intros Hlen Hv He Hm Hs.
  assert (try_map (remap_observation (source_index_remap (indexed sources))) (history_observations h)
    = Ok (history_observations h)) as Hre.
  { apply try_map_ok, Forall_Forall2_diag, Forall_lookup. intros i o Ho. apply remap_identity; [done|].
    apply validate_history_ok in Hv. by apply (valid_observations _ _ Hv) in Ho as [_ ?]. }
  assert (with_observations h (history_observations h) = h) as Hsame by by destruct h.
  unfold prepare_history. rewrite Hre. cbn [result_bind]. rewrite Hsame, Hv. cbn [result_bind].
  destruct (encode_history h) as [value|]; [|done]. cbn [result_bind].
  destruct (bt_get _ _ _) as [w|] eqn:E; [|by eexists].
  apply (bt_get_in str_cmp) in E as (k & Hk%(cmp_eq_leibniz str_cmp) & Hin). subst k. exfalso.
  apply Hm, list_elem_of_fmap. by exists (history_package h, w).
Qed.

Lemma prepare_valid_histories (sources : list SourceObservationV1) m hs :
  (N.of_nat (length sources) ≤ 2 ^ 32)%N → bt_sorted str_cmp m →
  Forall (λ h, validate_history h (source_indexes_of sources) (length sources) = Ok tt ∧
    is_ok (encode_history h) = true) hs →
  NoDup (m.*1 ++ (history_package <$> hs)) →
  ∃ m', try_fold (prepare_history (source_index_remap (indexed sources)) sources) m hs = Ok m'.
Proof.
  intros Hlen. revert m. induction hs as [|h hs IH]; intros m Hs Hv Hn; simpl; [by exists m|].
  apply Forall_cons in Hv as [[Hv He] Hvs]. simpl in Hn.
  assert (history_package h ∉ m.*1) as Hm.
  { apply NoDup_app in Hn as (_ & Hd & _). intros Hin. apply (Hd _ Hin). left. }
  destruct (prepare_valid_history sources m h) as (value & ->); [done..|]. cbn [result_bind].
  apply IH; [by apply (bt_insert_sorted str_cmp)|done|]. rewrite (bt_insert_fresh str_cmp).
  - simpl. by rewrite Permutation_middle.
  - destruct (bt_get _ _ _) as [w|] eqn:E; [|done].
    apply (bt_get_in str_cmp) in E as (k & Hk%(cmp_eq_leibniz str_cmp) & Hin). subst k. exfalso.
    apply Hm, list_elem_of_fmap. by exists (history_package h, w).
Qed.

(** ** A composed input *)

Record composed (context : SnapshotCompositionContext) (observations : list CranEvidenceObservation)
    (input : SnapshotBuildInput) (indexed : IndexedInput) : Prop := {
  composed_indexed : index_observations observations = Ok indexed;
  composed_histories : Forall2 (λ entry h,
    compose_history (input_observations indexed) (context_registry_id context) entry.1 entry.2 = Ok h)
    (input_package_indexes indexed) (build_histories input);
  composed_registry : build_registry_id input = context_registry_id context;
  composed_sources : build_sources input = (input_sources indexed).*2;
  composed_coverage : coverage_source_ids (build_coverage input) = input_source_ids indexed;
}.

Lemma compose_snapshot_parts context observations input :
  compose_snapshot context observations = Ok input → ∃ indexed, composed context observations input indexed.
Proof.
  unfold compose_snapshot. case_bool_decide; [done|].
  intros (indexed & Hi & Hk)%result_bind_ok. apply result_bind_ok in Hk as (hs & Hhs%try_map_ok & Hk).
  cbv zeta in Hk. destruct (_ && _); [done|]. injection Hk as <-. exists indexed. by constructor.
Qed.

Lemma sources_of_ids observations sources :
  sources_of observations sources → source_id <$> (source_observation <$> sources.*2) = sources.*1.
Proof.
  intros Hs. rewrite <-!list_fmap_compose. apply list_fmap_ext. intros i [id s] Hi%list_elem_of_lookup_2.
  by apply (collected_in _ _ Hs) in Hi as (o & _ & -> & ->).
Qed.

Lemma compose_history_package observations configured package indexes h :
  compose_history observations configured package indexes = Ok h → history_package h = PackageName_as_str package.
Proof.
  unfold compose_history. intros (e & _ & Hk)%result_bind_ok. cbv zeta in Hk.
  apply result_bind_ok in Hk as (ws & _ & Hk). by apply result_bind_ok in Hk as (ds & _ & [= <-]).
Qed.

Lemma composed_packages_distinct context observations input indexed :
  Forall evidence_built observations → composed context observations input indexed →
  NoDup (history_package <$> build_histories input).
Proof.
  intros Hb [(keyed & Hin)%index_observations_ok Hh _ _ _].
  assert (history_package <$> build_histories input
    = PackageName_as_str <$> (input_package_indexes indexed).*1) as ->.
  { symmetry. rewrite <-list_fmap_compose. apply list_eq_Forall2, Forall2_fmap.
    eapply Forall2_impl; [exact Hh|]. intros e h Hc%compose_history_package. done. }
  apply NoDup_fmap_2_strong.
  - intros p q ([p' i] & -> & Hp)%list_elem_of_fmap ([q' j] & -> & Hq)%list_elem_of_fmap Heq. simpl in *.
    apply (package_ready _ _ _ Hin Hb) in Hp as [Hp _], Hq as [Hq _]. unfold package_built in Hp, Hq.
    rewrite Heq in Hp. congruence.
  - apply (bt_sorted_NoDup PackageName_cmp). rewrite (input_of_indexes _ _ _ Hin). apply bt_group_sorted, _.
Qed.

(** C23: Evidence that was composed into the input of a snapshot is evidence a generation
    is prepared from.  Provided the values are built by their constructors and the
    declared sha256 checksums are digests (which the composition does not check), no
    history is refused, whatever the observations say: sources, observations,
    decisions, releases and everything in them are in canonical order without
    repetitions, references stay within the package, every written release is a
    release of the domain with the digest of its metadata, and the coverage names the
    sources.  Only the limits of sizes and the encoder can still refuse. *)
Theorem compose_snapshot_prepared context observations input :
  identifier_built (context_registry_id context) → Forall evidence_built observations →
  (N.of_nat (length observations) ≤ 2 ^ 32)%N →
  compose_snapshot context observations = Ok input →
  validate_registry_id (context_registry_id context) = Ok tt →
  exceeds HEADER_SOURCE_LIMIT (build_sources input) = false →
  Forall (λ h, validate_history_limits h = Ok tt ∧ is_ok (encode_history h) = true) (build_histories input) →
  ∃ header rows, prepare input = Ok (header, rows).
Proof.
  intros Hc Hb Hlen (indexed' & Hcomp)%compose_snapshot_parts Hreg Hsrc Hlim.
  pose proof (composed_packages_distinct _ _ _ _ Hb Hcomp) as Hpackages.
  destruct Hcomp as [(keyed & Hin)%index_observations_ok Hh Hr Hs Hcov].
  pose proof (input_of_sources _ _ _ Hin) as Hso. pose proof (sources_of_ids _ _ Hso) as Hids.
  set (sources := source_observation <$> build_sources input).
  rewrite <-Hs in Hids. fold sources in Hids.
  assert (strictly_sorted str_cmp (source_id <$> sources)) as Hsorted.
  { rewrite Hids. apply (sorted_fmap fst), (collected_sorted _ _ Hso). }
  pose proof (indexed_sorted source_id str_cmp sources Hsorted) as Hentries.
  assert (length sources = length (input_source_ids indexed')) as Hn.
  { rewrite (input_of_ids _ _ _ Hin), <-Hids. by rewrite length_fmap. }
  unfold prepare. rewrite Hr, Hreg, Hsrc. cbn [reject_if result_bind]. fold sources. cbv zeta.
  rewrite (sort_by_strict (cmp_on (λ e : nat * SourceObservationV1, source_id e.2) str_cmp)) by done.
  rewrite (strict_no_repeats (λ e : nat * SourceObservationV1, source_id e.2) str_cmp) by done.
  cbn [reject_if result_bind]. rewrite indexed_snd.
  destruct (prepare_valid_histories sources [] (build_histories input)) as (rows & ->).
  - apply N.lt_le_incl. eapply N.le_lt_trans.
    + unfold exceeds, len_u64 in Hsrc. apply N.ltb_ge in Hsrc. unfold sources. rewrite length_fmap. exact Hsrc.
    + done.
  - constructor.
  - rewrite Hn. apply Forall_and. apply Forall_and in Hlim as [Hl He]. split; [|exact He].
    eapply (composed_histories_valid observations indexed' keyed Hin Hb); [exact Hc|exact Hlen| |exact Hl].
    by apply try_map_ok.
  - exact Hpackages.
  - cbn [result_bind]. rewrite (sort_by_strict str_cmp) by (rewrite Hcov, (input_of_ids _ _ _ Hin), <-Hids; exact Hsorted).
    rewrite (dedup_strict_id str_cmp);
      [|intros s t; apply (bool_decide_is_eq str_cmp)|rewrite Hcov, (input_of_ids _ _ _ Hin), <-Hids; exact Hsorted].
    simpl. rewrite Hcov, (input_of_ids _ _ _ Hin), Hids, bool_decide_eq_false_2 by tauto. by eexists _, _.
Qed.

(** C25: The order in which observations are given does not matter: a composition that
    succeeds gives the same input of a snapshot for every permutation of them, with
    the same indexes of sources, numbers of observations, merged releases and
    decisions. *)
Theorem compose_snapshot_order context observations observations' input :
  observations ≡ₚ observations' → compose_snapshot context observations = Ok input →
  compose_snapshot context observations' = Ok input.
Proof.
  intros Hp. unfold compose_snapshot.
  destruct (decide (observations = [])) as [->|Hne]; [by rewrite bool_decide_eq_true_2|].
  rewrite (bool_decide_eq_false_2 (observations = [])) by done.
  rewrite (bool_decide_eq_false_2 (observations' = [])) by (intros ->; by apply Hne, Permutation_nil_r).
  intros (indexed & Hi & Hk)%result_bind_ok. apply result_bind_ok. exists indexed.
  split; [|exact Hk]. by eapply index_observations_order.
Qed.

(** ** Eligibility *)

Section eligibility.
Context (observations : list IndexedObservation) (configured : RegistryId).
Context (configured_built : identifier_built configured).
Context (package : PackageName) (source_count : nat).
Context (indexes : list nat) (ready : indexes_ready observations package source_count indexes).
Context (few : (N.of_nat (length observations) ≤ 2 ^ 32)%N).

(** What an observation must be for its release to count: a record of the root archive that
    was read, of a package whose namespace is established, that can be reached, with no
    conflict about its date and no invalid semantics. *)
Record counts (o : IndexedObservation) (r : PackageRelease) : Prop := {
  counts_scope : indexed_scope o = Root;
  counts_parse : axes_parse (indexed_axes o) = ParseValid;
  counts_namespace : axes_namespace (indexed_axes o) = NamespaceEstablished;
  counts_occurrence : axes_occurrence (indexed_axes o) = OccurrenceArtifactBound ∨
    axes_occurrence (indexed_axes o) = OccurrenceObservationOnly;
  counts_publication : axes_publication (indexed_axes o) ≠ PublicationConflicting;
  counts_semantics : axes_semantics (indexed_axes o) ≠ SemanticsInvalid;
  counts_release : indexed_release o = Some r;
}.

(** What makes a package incomplete: a record of the root archive, not of a rejected
    namespace, that was not read, or is of an unresolved namespace, or cannot be reached, or
    whose place or date is in conflict; or one that has no release, though its semantics are
    not invalid. *)
Definition spoils (o : IndexedObservation) : Prop :=
  indexed_scope o = Root ∧ axes_namespace (indexed_axes o) ≠ NamespaceRejected ∧
  (axes_parse (indexed_axes o) = ParseRecordInvalid ∨
   axes_namespace (indexed_axes o) = NamespaceUnresolved ∨
   axes_occurrence (indexed_axes o) = OccurrenceUnreachable ∨
   axes_occurrence (indexed_axes o) = OccurrenceConflicting ∨
   axes_publication (indexed_axes o) = PublicationConflicting ∨
   (axes_semantics (indexed_axes o) ≠ SemanticsInvalid ∧ indexed_release o = None)).

(** The dependencies of the observation are authoritative: all of them are known. *)
Definition authoritative (o : IndexedObservation) : Prop :=
  axes_semantics (indexed_axes o) = SemanticsComplete ∨
  axes_semantics (indexed_axes o) = SemanticsVerifiedEmpty.

Lemma accepted_counts o r : accepted o = Some r ↔ counts o r.
Proof.
  destruct o as [? ? ? ? ? [parse namespace occurrence semantics publication ?] ? release ? scope].
  unfold accepted, completeness_failure. simpl. split.
  - intros Hr. constructor; simpl;
      destruct scope, namespace, parse, occurrence, publication, semantics; naive_solver.
  - intros [Hs Hp Hn Ho Hd Hm Hr]. simpl in *. subst.
    destruct Ho as [-> | ->], publication; try done; by destruct semantics.
Qed.

Lemma aside_spoils o : (∃ reason, aside o = Some (true, reason)) ↔ spoils o.
Proof.
  destruct o as [? ? ? ? ? [parse namespace occurrence semantics publication ?] ? release ? scope].
  unfold aside, spoils, completeness_failure. simpl.
  destruct scope, namespace, parse, occurrence, publication, semantics, release; naive_solver.
Qed.

Lemma semantics_authoritative_iff o : semantics_authoritative (indexed_axes o) = true ↔ authoritative o.
Proof. unfold semantics_authoritative, authoritative. destruct (axes_semantics _); naive_solver. Qed.

(** An observation of the package that takes part, with its release. *)
Definition takes_part (i : nat) (o : IndexedObservation) (r : PackageRelease) : Prop :=
  i ∈ indexes ∧ observations !! i = Some o ∧ counts o r.

(** The evidence of the package is complete: no observation makes it incomplete, and
    every version has an observation whose dependencies are authoritative. *)
Definition evidence_complete : Prop :=
  (∀ i o, i ∈ indexes → observations !! i = Some o → ¬ spoils o) ∧
  ∀ i o r, takes_part i o r → ∃ j p s, takes_part j p s ∧
    release_version s ≈ release_version r ∧ authoritative p.

Local Notation groups := (bt_group identity_key_cmp (omap (accepted_at observations) indexes)).

Lemma takes_part_group i o r :
  takes_part i o r ↔ observations !! i = Some o ∧ ∃ k entries, (k, entries) ∈ groups ∧ (i, r) ∈ entries.
Proof.
  split.
  - intros (Hi & Ho & Hr%accepted_counts). split; [done|].
    assert ((release_key r, (i, r)) ∈ omap (accepted_at observations) indexes) as Hin.
    { apply list_elem_of_omap. exists i. split; [done|]. apply accepted_at_some. by exists o, r. }
    destruct (bt_group_covers identity_key_cmp _ _ _ Hin) as (k & entries & Hg & _ & He).
    by exists k, entries.
  - intros (Ho & k & entries & Hg & He).
    apply group_entries in Hg as (_ & _ & Hin); [|apply (indexes_increasing _ _ _ _ ready)].
    destruct (Hin i r He) as (Hi & _ & o' & Ho' & Hr%accepted_counts). rewrite Ho in Ho'. by injection Ho' as <-.
Qed.

(** The entries of a group are those of its version. *)
Lemma group_version k entries i r :
  (k, entries) ∈ groups → (i, r) ∈ entries ↔ ∃ o, takes_part i o r ∧ release_version r ≈ k.2.
Proof.
  intros Hg. pose proof (group_name observations package source_count indexes ready k entries Hg) as Hname.
  split.
  - intros He. pose proof Hg as (_ & _ & Hin)%group_entries; [|apply (indexes_increasing _ _ _ _ ready)].
    destruct (Hin i r He) as (Hi & Hk & o & Ho & Hr%accepted_counts). exists o. split; [done|].
    unfold identity_key_cmp, pair_cmp, cmp_then, cmp_on, release_key in Hk. simpl in Hk.
    destruct (PackageName_cmp _ _); [|done..]. symmetry. by apply version_cmp_eq.
  - intros (o & (Hi & Ho & Hr%accepted_counts) & Hv). apply (elem_of_bt_group identity_key_cmp) in Hg as [-> _].
    apply list_elem_of_fmap. exists (release_key r, (i, r)). split; [done|].
    apply list_elem_of_filter. split; [|apply list_elem_of_omap; exists i; split; [done|]; apply accepted_at_some; by exists o, r].
    destruct (indexes_observed _ _ _ _ ready i Hi) as (o' & Ho' & _ & _ & Hn). rewrite Ho in Ho'. injection Ho' as <-.
    unfold identity_key_cmp, pair_cmp, cmp_then, cmp_on, release_key. simpl.
    rewrite (Hn r), Hname, (cmp_refl PackageName_cmp) by by apply accepted_release.
    apply version_cmp_eq. by symmetry.
Qed.

(** What keeps a group from being eligible. *)
Lemma missing_iff g outcome :
  g.2 ≠ [] → group_outcome observations configured g = Ok outcome →
  missing outcome = true ↔ Forall (λ e, is_authoritative observations e = false) g.2.
Proof.
  destruct g as [[name version] entries]. unfold group_outcome. simpl. intros Hne Ho.
  assert (List.filter (is_authoritative observations) entries = [] ↔
    Forall (λ e, is_authoritative observations e = false) entries) as Hf.
  { rewrite Forall_forall. split.
    - intros Hnil e He. apply not_true_iff_false. intros Ha.
      assert (e ∈ List.filter (is_authoritative observations) entries) as Hin by by apply elem_of_filter_bool.
      rewrite Hnil in Hin. by apply elem_of_nil in Hin.
    - intros Hall. destruct (List.filter _ _) as [|e l] eqn:E; [done|].
      assert (e ∈ List.filter (is_authoritative observations) entries) as [He Ha]%elem_of_filter_bool by (rewrite E; left).
      by rewrite Hall in Ha. }
  rewrite <-Hf. destruct (List.filter _ _) as [|[i authority] l], entries as [|[j first] entries]; try done.
  - by injection Ho as <-.
  - apply result_bind_ok in Ho as (p & _ & [= <-]). done.
Qed.

Lemma incomplete_iff :
  existsb (incomplete_at observations) indexes = true ↔
    ∃ i o, i ∈ indexes ∧ observations !! i = Some o ∧ spoils o.
Proof.
  rewrite existsb_exists. setoid_rewrite <-list_elem_of_In. unfold incomplete_at. split.
  - intros (i & Hi & Hin). destruct (observations !! i) as [o|] eqn:Ho; [|done]. simpl in Hin.
    destruct (aside o) as [[b reason]|] eqn:Ha; [|done]. simpl in Hin. subst b.
    exists i, o. split_and!; [done..|]. apply aside_spoils. by exists reason.
  - intros (i & o & Hi & Ho & [reason Ha]%aside_spoils). exists i. split; [done|]. rewrite Ho. simpl. by rewrite Ha.
Qed.

Lemma pending_nonempty gs outcomes :
  Forall2 (λ g outcome, group_outcome observations configured g = Ok outcome) gs outcomes →
  existsb missing outcomes = false →
  Forall (λ g, ∃ p ds, group_outcome observations configured g = Ok (Some p, ds) ∧
    (p, g.1.2) ∈ mjoin (zip_with pending_of gs outcomes)) gs.
Proof.
  induction 1 as [|g [[p|] ds] gs outcomes Hg _ IH]; simpl; [constructor| |done]. intros Hm.
  constructor.
  - exists p, ds. split; [done|]. left.
  - eapply Forall_impl; [by apply IH|]. intros g' (p' & ds' & ? & ?). exists p', ds'. split; [done|]. by right.
Qed.

Lemma complete_iff outcomes :
  Forall2 (λ g outcome, group_outcome observations configured g = Ok outcome) groups outcomes →
  existsb (incomplete_at observations) indexes || existsb missing outcomes = false ↔ evidence_complete.
Proof.
  intros Ho. rewrite orb_false_iff, <-!not_true_iff_false, incomplete_iff. unfold evidence_complete.
  assert (∀ k entries outcome, (k, entries) ∈ groups → group_outcome observations configured (k, entries) = Ok outcome →
    missing outcome ≠ true ↔ ∃ j p s, (j, s) ∈ entries ∧ takes_part j p s ∧ authoritative p)
    as Hmissing.
  { intros k entries outcome Hg Hout. pose proof Hg as (Hne & _ & _)%group_entries; [|apply (indexes_increasing _ _ _ _ ready)].
    rewrite (missing_iff (k, entries) outcome Hne Hout). simpl. split.
    - intros (e & He & Ha)%not_Forall_Exists%Exists_exists; [|apply _]. apply not_false_iff_true in Ha.
      destruct e as [j s]. apply (group_version k entries j s Hg) in He as Hp. destruct Hp as (p & Hp & _).
      exists j, p, s. split_and!; [done..|]. apply semantics_authoritative_iff.
      unfold is_authoritative in Ha. simpl in Ha.
      destruct Hp as (_ & Hp & _). by rewrite Hp in Ha.
    - intros (j & p & s & He & (_ & Hp & _) & Ha%semantics_authoritative_iff) Hall. rewrite Forall_forall in Hall. specialize (Hall _ He).
      unfold is_authoritative in Hall. simpl in Hall. rewrite Hp in Hall. congruence. }
  f_equiv; [naive_solver|]. split.
  - intros Hm i o r Hi. pose proof Hi as (_ & k & entries & Hg & He)%takes_part_group.
    destruct (Forall2_elem_l _ _ _ _ Ho Hg) as (outcome & Hin & Hout).
    destruct (proj1 (Hmissing k entries outcome Hg Hout)) as (j & p & s & Hs & Hp & Ha).
    { intros Hmo. apply Hm, existsb_exists. exists outcome. split; [by apply list_elem_of_In|done]. }
    exists j, p, s. split_and!; [done| |done].
    apply (group_version k entries j s Hg) in Hs as (? & _ & ->).
    by apply (group_version k entries i r Hg) in He as (? & _ & ->).
  - intros Hall (outcome & Hin%list_elem_of_In & Hm)%existsb_exists.
    destruct (Forall2_elem_r _ _ _ _ Ho Hin) as ([k entries] & Hg & Hout).
    apply (Hmissing k entries outcome Hg Hout); [|exact Hm].
    pose proof Hg as (Hne & _ & _)%group_entries; [|apply (indexes_increasing _ _ _ _ ready)].
    destruct entries as [|[i r] entries]; [done|].
    destruct (proj1 (group_version k _ i r Hg)) as (o & Hi & Hv); [left|].
    destruct (Hall i o r Hi) as (j & p & s & Hp & Hs & Ha). exists j, p, s. split_and!; [|done..].
    apply (group_version k _ j s Hg). exists p. split; [done|]. by rewrite Hs.
Qed.

(** A written release and what it refers to. *)
Lemma written_evidence k entries p ds w :
  (k, entries) ∈ groups → group_outcome observations configured (k, entries) = Ok (Some p, ds) →
  to_wire_release p indexes = Ok w →
  ∃ v, RPackageVersion_parse (eligible_version w) = Ok v ∧ v ≈ k.2 ∧
    ∀ j, (∃ e, e ∈ eligible_evidence w ∧ evidence_observation_id e = N.of_nat j) ↔
      ∃ i o r, indexes !! j = Some i ∧ takes_part i o r ∧ release_version r ≈ v.
Proof.
  intros Hg Hp Hw. pose proof (group_merged observations configured package source_count indexes (k, entries) p ds
    configured_built ready Hg Hp) as (_ & Hv & i & first & rest & j & authority & more & _ & _ & Hm).
  cbn [fst snd] in Hv, Hm. pose proof (merged_ready _ _ _ _ _ _ Hm) as Hready.
  apply to_wire_release_parts in Hw as (ws & ws' & evs & digest & _ & _ & Hevs & _ & ->). simpl.
  exists (release_version (pending_release p)).
  apply version_cmp_eq in Hv. split_and!; [apply (ready_version _ (pending_release_ready _ Hready))|by symmetry|].
  apply evidence_to_wire_ok in Hevs;
    [|by eapply indexes_NoDup|by eapply indexes_few]. intros n. split.
  - intros (e & He & Hn). destruct (Forall2_elem_r _ _ _ _ Hevs He) as (x & Hx & m & Hi & Hid & _).
    assert (m = n) as -> by lia. assert (x.1 ∈ entries.*1) as ([y r] & Hy & Hin)%list_elem_of_fmap.
    { rewrite <-(merged_evidence _ _ _ _ _ _ Hm). apply list_elem_of_fmap. by exists x. }
    apply (group_version k entries y r Hg) in Hin as (o & Ho & Hr). exists y, o, r.
    split_and!; [by rewrite Hi, Hy|done|by rewrite Hr].
  - intros (y & o & r & Hi & Ho & Hr).
    assert ((y, r) ∈ entries) as Hin.
    { apply (group_version k entries y r Hg). exists o. split; [done|]. by rewrite Hr. }
    assert (y ∈ (pending_observations p).*1) as (x & -> & Hx)%list_elem_of_fmap.
    { rewrite (merged_evidence _ _ _ _ _ _ Hm). apply list_elem_of_fmap. by exists (y, r). }
    destruct (Forall2_elem_l _ _ _ _ Hevs Hx) as (e & He & m & Hm' & Hid & _). exists e. split; [done|].
    rewrite Hid. f_equal. eapply NoDup_lookup; [by eapply indexes_NoDup|exact Hm'|exact Hi].
Qed.

Lemma eligible_of_nonempty outcomes :
  Forall2 (λ g outcome, group_outcome observations configured g = Ok outcome) groups outcomes →
  eligible_of observations indexes outcomes ≠ [] ↔ evidence_complete ∧ ∃ i o r, takes_part i o r.
Proof.
  intros Ho. unfold eligible_of. destruct (_ || _) eqn:E.
  - split; [done|]. intros [Hc _]. apply (complete_iff _ Ho) in Hc. congruence.
  - apply (complete_iff _ Ho) in E as Hc. apply orb_false_iff in E as [_ Hm].
    pose proof (pending_nonempty _ _ Ho Hm) as Hp. rewrite Forall_forall in Hp. split.
    + intros Hne. split; [done|]. destruct (mjoin _) as [|[p v] l] eqn:Ep; [done|].
      destruct (pending_groups observations configured groups outcomes p v Ho) as (g & ds & Hg & _ & _);
        [rewrite Ep; left|]. destruct g as [k entries].
      pose proof Hg as (Hn & _ & _)%group_entries; [|apply (indexes_increasing _ _ _ _ ready)].
      destruct entries as [|[i r] entries]; [done|].
      destruct (proj1 (group_version k _ i r Hg)) as (o & Hi & _); [left|]. by exists i, o, r.
    + intros [_ (i & o & r & (_ & k & entries & Hg & _)%takes_part_group)].
      destruct (Hp _ Hg) as (p & ds & _ & Hin). intros E. rewrite E in Hin. by apply elem_of_nil in Hin.
Qed.

(** The written releases are in the order of their versions. *)
Lemma eligible_versions l ws :
  eligible_ready package l → Forall2 (λ x w, to_wire_release x.1 indexes = Ok w) l ws →
  ∃ vs, Forall2 (λ w v, RPackageVersion_parse (eligible_version w) = Ok v) ws vs ∧
    StronglySorted (λ v v', RPackageVersion_cmp v v' = Lt) vs.
Proof.
  intros [Hl Hs] Hws. exists ((λ x, release_version (pending_release x.1)) <$> l). split.
  - apply Forall2_fmap_r, Forall2_flip. eapply Forall2_impl_l; [|exact Hws|exact Hl].
    intros x w [Hp _] (ws' & ws'' & evs & digest & _ & _ & _ & _ & ->)%to_wire_release_parts.
    apply (ready_version _ (pending_release_ready _ Hp)).
  - clear Hws. unfold strictly_sorted in Hs. induction Hs as [|x l _ IH Hx]; [constructor|].
    apply Forall_cons in Hl as [(_ & _ & Hxv) Hl]. constructor; [by apply IH|].
    apply Forall_fmap. rewrite Forall_forall in *. intros y Hy. specialize (Hx y Hy).
    destruct (Hl y Hy) as (_ & _ & Hyv). unfold cmp_on in Hx. simpl.
    by rewrite (cmp_eq_l RPackageVersion_cmp _ _ _ Hxv), (cmp_eq_r RPackageVersion_cmp _ _ _ Hyv) in Hx.
Qed.

(** C24: A package is present in a composed snapshot exactly when its evidence is
    complete: none of its observations in the root archive, but those of a rejected namespace,
    is unread, unresolved, unreachable, in conflict or without release, each of its versions has
    an observation with authoritative dependencies, and there is at least one.  Then the eligible
    releases are exactly the versions of the observations that take part, once each and in
    order, and the evidence of each refers to exactly the observations of that version, of
    which there is one at least.  An observation takes part when it is of the root archive and
    was read, its namespace is established, it can be reached, there is no conflict about its
    date, and its semantics are not invalid. *)
Theorem compose_history_eligibility h :
  compose_history observations configured package indexes = Ok h →
  (is_present (history_state h) = true ↔ evidence_complete ∧ ∃ i o r, takes_part i o r) ∧
  (is_present (history_state h) = true → ∀ i o r, takes_part i o r →
     ∃ w v, w ∈ history_eligible_releases h ∧ RPackageVersion_parse (eligible_version w) = Ok v ∧
       v ≈ release_version r) ∧
  (∃ vs, Forall2 (λ w v, RPackageVersion_parse (eligible_version w) = Ok v)
           (history_eligible_releases h) vs ∧
     StronglySorted (λ v v', RPackageVersion_cmp v v' = Lt) vs) ∧
  (∀ w, w ∈ history_eligible_releases h →
     ∃ v, RPackageVersion_parse (eligible_version w) = Ok v ∧
       (∃ i o r, takes_part i o r ∧ release_version r ≈ v) ∧
       ∀ j, (∃ e, e ∈ eligible_evidence w ∧ evidence_observation_id e = N.of_nat j) ↔
         ∃ i o r, indexes !! j = Some i ∧ takes_part i o r ∧ release_version r ≈ v).
Proof.
  intros Hh. eapply compose_history_parts in Hh as (outcomes & ws & ds & Ho & Hws & _ & _ & ->);
    [|exact configured_built|exact ready|exact few]. simpl.
  assert (is_present (match ws with [] => LookupIncomplete | _ => LookupPresent end) = true ↔
    eligible_of observations indexes outcomes ≠ []) as Hpresent.
  { destruct Hws; simpl; done. }
  rewrite Hpresent, (eligible_of_nonempty _ Ho). split_and!; [done|..].
  - intros [Hc _] i o r Hi. apply (complete_iff _ Ho) in Hc as E. unfold eligible_of in Hws. rewrite E in Hws.
    apply orb_false_iff in E as [_ Hm]. pose proof (pending_nonempty _ _ Ho Hm) as Hp. rewrite Forall_forall in Hp.
    apply takes_part_group in Hi as (_ & k & entries & Hg & He). destruct (Hp _ Hg) as (p & ds' & Hout & Hin).
    destruct (Forall2_elem_l _ _ _ _ Hws Hin) as (w & Hw & Hpw). simpl in Hpw.
    destruct (written_evidence k entries p ds' w Hg Hout Hpw) as (v & Hv & Hk & _). exists w, v.
    split_and!; [done..|]. rewrite Hk. apply (group_version k entries i r Hg) in He as (? & _ & ?). by symmetry.
  - eapply eligible_versions; [|exact Hws]. by eapply eligible_of_ready.
  - intros w Hw. destruct (Forall2_elem_r _ _ _ _ Hws Hw) as ([p v] & Hin & Hpw). simpl in Hpw.
    unfold eligible_of in Hin. destruct (_ || _); [by apply elem_of_nil in Hin|].
    destruct (pending_groups observations configured groups outcomes p v Ho Hin) as ([k entries] & ds' & Hg & Hout & _).
    destruct (written_evidence k entries p ds' w Hg Hout Hpw) as (v' & Hv & Hk & He). exists v'.
    split_and!; [done| |done].
    pose proof Hg as (Hne & _ & _)%group_entries; [|apply (indexes_increasing _ _ _ _ ready)].
    destruct entries as [|[i r] entries]; [done|].
    destruct (proj1 (group_version k _ i r Hg)) as (o & Hi & Hr); [left|].
    exists i, o, r. split; [done|]. by rewrite Hk.
Qed.
End eligibility.
End snapshot.
