(* ===== verification/RepositoryExamples.v ===== *)
(** * Sources and the repository, at concrete inputs

    Git URLs, the union of two sources, the index of a selection, and the demands
    on two repositories, the second with an allowlist, by a loader that keeps a log. *)

From S2P Require Import Prelude Effects RustStd Collections Text Externals FileSystem Format Versions.
From S2P Require Import Names GitUrl Publication Identity Constraints Digest Metadata Request Candidates.
From S2P Require Import Resolution Union Description Cache Materialization Manifest Locators.
From S2P Require Import ManifestWire Packages PackagesLaws Policy Compose Demand DemandLaws Instances.
From S2P Require Import Examples.
Import Repo.

Lemma NormalizedGitUrl_new_spec_witness :
  NormalizedGitUrl_new "https://github.com/R-lib/cli%3A.git"
    = Ok (mk_NormalizedGitUrl "https://github.com/R-lib/cli%3A.git").
Proof.
  assert (NormalizedGitUrl_new "HTTPS://GitHub.COM:443/R%2dlib/cli%3a.git"
    = Ok (mk_NormalizedGitUrl "https://github.com/R-lib/cli%3A.git")) as E
    by (vm_compute; reflexivity).
  exact (proj1 (NormalizedGitUrl_new_spec _ _) E).
Defined.

(** ** Two sources and one that knows nothing *)

Definition serving (l : list PreparedCandidate) : CandidateLoader :=
  let releases subject := Ok (List.filter (λ c, is_eligible_for c subject) l) in
  mk_CandidateLoader releases (CandidateLoader_default_load releases).
Definition unknown : CandidateLoader :=
  let e := CandidateLoadError_new NotFound "no such package" in
  mk_CandidateLoader (λ _, Err e) (λ _, Err e).

Definition sources : list CandidateLoader := [serving [dplyr_new]; unknown; serving [dplyr_mirror]].
Definition dplyr_subject : SolverKey := KeyInstalledName dplyr.

Lemma sources_sound : Forall (sound_loader dplyr_subject) sources.
Proof.
  assert (∀ c, candidate_wf c → sound_loader dplyr_subject (serving [c])) as Hs.
  { intros c Hc r [= <-].
    change (Forall candidate_wf (List.filter (λ c, is_eligible_for c dplyr_subject) [c])).
    apply Forall_forall. intros x Hx. apply elem_of_filter_bool in Hx as [Hx _].
    apply list_elem_of_singleton in Hx as ->. exact Hc. }
  apply Forall_cons_2; [apply Hs, dplyr_new_wf|]. apply Forall_cons_2; [by intros r [=]|].
  apply Forall_singleton. apply Hs, dplyr_mirror_wf.
Qed.

(** The two occurrences of the one release end up in one candidate. *)
Definition repositories_of (r : result CandidateLoadResult CandidateLoadError) : list (list string) :=
  match r with
  | Ok r => (λ c, (Identifier_as_str ∘ occurrence_repository) <$> candidate_occurrences c)
              <$> load_candidates_of r
  | Err _ => []
  end.
Example sources_merge :
  repositories_of (composite_load sources dplyr_subject) = [["cran"; "mirror"]].
Proof. vm_compute. reflexivity. Qed.

Lemma composite_load_spec_witness :
  match composite_load sources dplyr_subject with
  | Ok r => one_per_identity (contributed_candidates dplyr_subject sources) (load_candidates_of r)
  | Err _ => False
  end.
Proof.
  pose proof (composite_load_spec sources dplyr_subject sources_sound) as Hspec. revert Hspec.
  assert (is_ok (composite_load sources dplyr_subject) = true) as Hok by (vm_compute; reflexivity).
  destruct (composite_load sources dplyr_subject); [|discriminate Hok]. by intros (_ & Hm & _).
Defined.

Lemma composite_load_order_witness :
  is_ok (composite_load (rev sources) dplyr_subject) = true.
Proof.
  assert (is_ok (composite_load sources dplyr_subject) = true) as Hok by (vm_compute; reflexivity).
  destruct (composite_load sources dplyr_subject) as [r|] eqn:E; [|discriminate Hok].
  destruct (composite_load_order sources (rev sources) dplyr_subject r sources_sound) as (r' & -> & _);
    [|exact E|reflexivity].
  apply Permutation_rev.
Defined.

(** ** A selected artifact and its index entry *)

Definition digest : Sha256Digest :=
  mk_Sha256Digest "0123456789abcdef0123456789abcdef0123456789abcdef0123456789abcdef".
Definition cached : CachedArtifact := mk_CachedArtifact ["object"] ["metadata"] digest 1024 UpstreamMd5.
Definition selected : MaterializationArtifact :=
  with_publication
    (with_metadata (MaterializationArtifact_new (candidate_identity dplyr_new) (v "1.2.0") cached)
       (mk_ReleaseMetadata [("NeedsCompilation", "yes"); ("license", "MIT + file LICENSE");
                            ("note", String.append "two" (from_utf8 (byte_of 10 :: bytes "lines")))])
       dplyr_needs)
    (day "2025-06-01").

Example selected_index :
  match write_packages [selected] with
  | Ok out => str_split (byte_is 10) (from_utf8 out)
  | Err _ => []
  end
  = ["Package: dplyr"; "Version: 1.2.0"; "Depends: R (>= 3.5.0)"; "Imports: rlang (>= 1.1.0)";
     "License: MIT + file LICENSE"; "NeedsCompilation: yes"; "Published: 2025-06-01"; "note: two";
     " lines"; ""].
Proof. vm_compute. reflexivity. Qed.

Lemma selected_readable : readable_artifact selected.
Proof.
  constructor; [vm_compute; reflexivity..| | |vm_compute; reflexivity].
  { intros p [= <-]. vm_compute. split_and!; reflexivity. }
  apply Forall_cons_2; [|apply Forall_singleton]; (split; [vm_compute; reflexivity|]);
    apply Forall_singleton; vm_compute; reflexivity.
Qed.

Lemma record_fields_read_back_witness :
  match record_fields selected with
  | Ok fields => ∃ d, parse_description_fields fields = Ok d ∧
      description_package d = MaterializationArtifact_package selected
  | Err _ => False
  end.
Proof.
  assert (is_ok (record_fields selected) = true) as Hok by (vm_compute; reflexivity).
  destruct (record_fields selected) as [fields|] eqn:E; [|discriminate Hok].
  destruct (record_fields_read_back selected fields selected_readable E) as (d & Hd & Hp & _).
  exact (ex_intro _ d (conj Hd Hp)).
Defined.

Lemma write_packages_lines_witness :
  match write_packages [selected] with
  | Ok out => validate_lines out = Ok tt
  | Err _ => False
  end.
Proof.
  assert (is_ok (write_packages [selected]) = true) as Hok by (vm_compute; reflexivity).
  destruct (write_packages [selected]) as [out|] eqn:E; [|discriminate Hok].
  exact (proj1 (write_packages_lines [selected] out E)).
Defined.

(** ** A small demand plan *)

Module Planned.
Import Repo.

Definition endpoint : Endpoint := mk_Endpoint "https://cran.r-project.org/".
Definition pak : PackageName := mk_PackageName "pak".
Definition any (kind : DependencyKind) (name : PackageName) : DeclaredDependency :=
  mk_DeclaredDependency kind (mk_PackageRequirement name SourceAny VersionConstraint_unconstrained).

(** The second repository provides [pak] only, and nothing of that name exists. *)
Definition repositories : list RepositorySpec :=
  [mk_RepositorySpec cran Cran endpoint (Some [dplyr; rlang]);
   mk_RepositorySpec (mk_Identifier "mirror") RUniverse endpoint (Some [pak])].
Definition roots : list ComposedRootIntent :=
  [mk_ComposedRootIntent dplyr VersionConstraint_unconstrained (ManifestRegistry None) DirectSuggests].

Definition stock : list PackageRelease :=
  [release cran_registry dplyr "1.2.0" "2025-06-01"
     [any Depends r; any Imports rlang; any Suggests pak; any Enhances (mk_PackageName "dbplyr")];
   release cran_registry rlang "1.1.4" "2024-06-04"
     [any Imports dplyr; any Suggests (mk_PackageName "withr"); any Imports (mk_PackageName "cli")]].

Definition answers (entry : nat) (package : PackageName) :
    result (list PackageRelease) CandidateLoadError :=
  match List.filter (λ r, bool_decide (ReleaseIdentity_name (release_identity r) = package)) stock with
  | [] => Err (CandidateLoadError_new NotFound "no such package")
  | releases => Ok releases
  end.

(** The log of the loads. *)
#[local] Instance logged : RepositoryDemandSource := {
  DemandSource := list (nat * PackageName);
  demand_load := λ entry package log, (answers entry package, log ++ [(entry, package)])
}.

(** [cli] has no entry; [withr] is not followed, and the loads are these three. *)
Example planned :
  resolve_repository_demands 10 repositories roots [] =
    (Ok (Some (mk_RepositoryDemandPlan [(0, [dplyr; rlang]); (1, [pak])] [mk_PackageName "cli"]
                 [mk_PackageName "cli"; dplyr; pak; rlang])),
     [(0, dplyr); (1, pak); (0, rlang)]).
Proof. vm_compute. reflexivity. Qed.

(** Two visits are not enough. *)
Example out_of_fuel : (resolve_repository_demands 2 repositories roots []).1 = Ok None.
Proof. vm_compute. reflexivity. Qed.

Definition logs_demanded (log : list (nat * PackageName)) : Prop :=
  Forall (λ l, demanded repositories [] roots answers l.1 l.2) log.

Lemma answers_stock entry package candidates :
  answers entry package = Ok candidates → candidates ⊆ stock.
Proof.
  unfold answers. intros H x Hx.
  assert (∀ f, x ∈ List.filter f stock → x ∈ stock) as Hf by (intros f [? _]%elem_of_filter_bool; done).
  destruct (List.filter _ stock) as [|y l] eqn:E; [done|]. injection H as <-.
  eapply Hf. by rewrite E.
Qed.

Lemma resolve_repository_demands_spec_witness :
  ∃ bound, ∀ fuel, bound ≤ fuel →
  triple logs_demanded (resolve_repository_demands_with_direct repositories [] fuel roots)
    (λ r log, (∃ plan, r = Some plan ∧ plan_for repositories [] roots answers plan ∧
               ∀ entry package, demanded repositories [] roots answers entry package →
                 loads answers entry package) ∧ logs_demanded log)
    (λ error log, fails_with repositories [] roots answers error ∧ logs_demanded log).
Proof.
  refine (proj2 (resolve_repository_demands_spec repositories [] roots answers logs_demanded _ stock
    answers_stock)).
  intros entry package Hd log Hlog. simpl.
  assert (logs_demanded (log ++ [(entry, package)])) as Hlog'
    by (apply Forall_app; split; [done|]; by apply Forall_singleton).
  by destruct (answers entry package).
Defined.
End Planned.
