(* ===== verification/LockExamples.v ===== *)
(** * A small lock

    The lock of the resolution of [Examples.v], a lock with a Git package, and an
    environment composed from a manifest: where the theorems on locks apply. *)

From S2P Require Import Prelude RustStd Collections Externals Text Format Versions Names GitUrl Publication.
From S2P Require Import Identity Constraints Digest Metadata Request Candidates Resolution Policy Adapter Solve.
From S2P Require Import Manifest Locators ManifestWire Compose Lock LockConsume LockWire.
From S2P Require Import LockLaws LockGraph LockIdentities LockWireLaws ComposeLaws LockSolve.
From S2P Require Import Instances Examples.

Module Locked.
Import Repo.

Definition sha (c : string) : Sha256Digest :=
  value (mk_Sha256Digest "") (Sha256Digest_new (str_join "" (replicate 64 c))).
Definition environment : EnvironmentId := value (mk_EnvironmentId "") (EnvironmentId_new "default").
Definition r_constraint (s : string) : VersionConstraint :=
  value VersionConstraint_unconstrained (parse_r_constraint s "r.version").
Definition constraint (s : string) : VersionConstraint :=
  value VersionConstraint_unconstrained (parse_package_constraint s "version").
Definition cutoff : PublicationDate := mk_PublicationDate "2025-01-01".

(** ** The lock of a resolution *)

Definition resolution : Resolution :=
  match solve loader DefaultCandidatePreference PreferLocked request with
  | Ok res => res
  | Err _ => mk_Resolution (mk_ResolutionTarget (v "4.4.1")) []
  end.

Definition resolved_names : list string :=
  (λ p, PackageName_as_str (resolved_name p)) <$> resolution_packages resolution.
Example resolution_names : resolved_names = ["dplyr"; "rlang"].
Proof. vm_compute. reflexivity. Qed.

(** ** A lock with a Git package *)

Definition git_url_text : NormalizedGitUrl :=
  value (mk_NormalizedGitUrl "") (NormalizedGitUrl_new "https://github.com/r-lib/pak").
Definition git_commit : GitCommitId :=
  value (mk_GitCommitId Sha1 "") (GitCommitId_new (str_join "" (replicate 40 "a"))).
Definition git_subdir : RepositorySubdir := value (mk_RepositorySubdir "") (RepositorySubdir_new "tools/pak").
Definition pak : PackageName := mk_PackageName "pak".

Definition edge (kind : EffectiveDependencyKind) (name : PackageName) : LockedDependencyEdge :=
  mk_LockedDependencyEdge kind name.
Definition registry_package (name : PackageName) (version : string) (edges : list LockedDependencyEdge) :
    LockedPackage :=
  mk_LockedPackage (mk_ReleaseIdentity name (RegistryRelease namespace (v version))) (v version) None
    edges [cran] (sha "0") None.
Definition git_package : LockedPackage :=
  mk_LockedPackage (mk_ReleaseIdentity pak (GitCommit git_url_text git_commit (Some git_subdir)))
    (v "0.8-0") (Some "0.8-0") [edge EffectiveImports dplyr; edge EffectiveImports rlang] [] (sha "1")
    (Some (mk_LockedGitSource git_url_text (LockedTag "v0.8") (Some git_subdir) (constraint ">= 0.7"))).

Definition packages : list LockedPackage :=
  [registry_package dplyr "1.1.4" [edge EffectiveImports rlang]; git_package;
   registry_package rlang "1.1.4" []].
Definition lock : Lockfile :=
  mk_Lockfile (sha "f") (r_constraint ">= 4.0, < 5.0")
    (mk_LockedResolution (mk_ResolutionTarget (v "4.4.1")) environment (Some cutoff) packages).

Lemma lock_is_canonical : lock_canonical lock.
Proof. apply lock_checks_spec. vm_compute. reflexivity. Qed.

Lemma lock_is_made : lock_made lock.
Proof.
  assert (∀ x, x ∈ packages → package_made x) as Hp.
  { unfold packages. intros x. rewrite !elem_of_cons, elem_of_nil.
    intros [->|[->|[->|[]]]]; (split; [vm_compute; reflexivity|try by split|vm_compute; reflexivity|
      vm_compute; reflexivity|repeat constructor|repeat constructor|]).
    1,4: by intros s [=].
    + cbn. split_and!; [vm_compute; reflexivity|vm_compute; reflexivity|].
      intros d [= <-]. vm_compute. reflexivity.
    + intros s [= <-]. split; [vm_compute; reflexivity|by intros context| |].
      * intros d [= <-]. vm_compute. reflexivity.
      * split; [vm_compute; reflexivity|]. repeat constructor. }
  split; [vm_compute; reflexivity|split; [vm_compute; reflexivity|repeat constructor]|vm_compute; reflexivity|
    vm_compute; reflexivity|by intros d [= <-]|by apply Forall_forall].
Qed.

(** ** Roots and repositories *)

Definition endpoint : Endpoint := mk_Endpoint "https://cran.r-project.org/".
Definition configured : list RepositorySpec := [mk_RepositorySpec cran Cran endpoint None].
Definition roots : list RootCheck :=
  [mk_RootCheck pak (constraint ">= 0.7") None false true;
   mk_RootCheck (mk_PackageName "stats") VersionConstraint_unconstrained None true false].

(** ** A manifest *)

Definition dependency (version : string) (source : ManifestSource) (suggests : bool) :
    ManifestDependencySpec := mk_ManifestDependencySpec version source suggests.
Definition document : ManifestDocument :=
  mk_ManifestDocument 1 None ">= 4.0" (Some cutoff) configured
    [(dplyr, dependency ">= 1.0" (ManifestRegistry None) false)]
    [("dev", [(dplyr, dependency "< 2.0" (ManifestRegistry (Some cran)) true);
              (pak, dependency "*" (ManifestGit git_url_text (SelectTag "v0.8") (Some "tools//pak")) false)])]
    [("default", ["dev"])].
Definition target : ResolutionTarget := mk_ResolutionTarget (v "4.4.1").
Definition composed : result ComposedEnvironment ManifestError :=
  compose_environment_with_locked document "default" target [].
End Locked.

Import Repo Locked.

Lemma lock_wire_roundtrip_witness :
  ∃ wire lock', to_wire lock = Ok wire ∧ from_wire wire = Ok lock' ∧ lock_req lock' lock.
Proof. apply (lock_wire_roundtrip lock lock_is_canonical lock_is_made). Defined.

Lemma locked_identities_spec_witness :
  ∃ identities, locked_identities lock = Ok identities ∧
    ∀ key i, hm_get key identities = Some i ↔
      ∃ p key', p ∈ locked_packages (lock_resolution lock) ∧ key' ≈ key ∧
        key' ∈ identity_solver_keys (locked_identity p) (locked_visible p) ∧ i = locked_identity p.
Proof. apply (locked_identities_spec lock lock_is_canonical). Defined.

Lemma consume_roots_spec_witness :
  ∃ g, consume_roots lock (mk_ResolutionTarget (v "4.4.1")) environment (r_constraint ">= 4.0") roots
         (Some configured) = Ok g ∧
    ∀ p, p ∈ packages → needed packages roots p.
Proof.
  set (r := consume_roots lock (mk_ResolutionTarget (v "4.4.1")) environment (r_constraint ">= 4.0") roots
         (Some configured)).
  assert (is_ok r = true) as Hr by (vm_compute; reflexivity). destruct r as [g|e] eqn:E; [|done].
  exists g. split; [done|].
  apply (consume_roots_spec lock (mk_ResolutionTarget (v "4.4.1")) environment (r_constraint ">= 4.0") roots
         (Some configured) g); [|exact E].
  intros c [= <-]. repeat constructor. by intros ?%elem_of_nil.
Defined.


Definition reads_back (v : RPackageVersion) : bool :=
  match RPackageVersion_parse (RPackageVersion_as_str v) with Ok w => w =?= v | Err _ => false end.
Lemma reads_back_ok v : reads_back v = true → version_reads_back v.
Proof.
  unfold reads_back, version_reads_back. destruct (RPackageVersion_parse _) as [w|]; [|done].
  intros Hw. by exists w.
Qed.

Definition spelled_back (p : ResolvedPackage) : bool :=
  reads_back (resolved_version p) &&
  from_option reads_back true (provenance_version (ReleaseIdentity_provenance (resolved_identity p))).
Lemma spelled_back_ok p : spelled_back p = true → spelled p.
Proof.
  unfold spelled_back. intros [Hv Hp]%andb_true_iff. split; [by apply reads_back_ok|].
  intros v E. apply reads_back_ok. by rewrite E in Hp.
Qed.

Lemma solve_locks_witness :
  ∃ lock, from_resolution_with_applicability resolution environment (Some cutoff) (sha "f") (r_constraint ">= 4.0")
    = Ok lock ∧ locks resolution lock.
Proof.
  apply (solve_locks provider repo_loader_wf resolution environment (Some cutoff) (sha "f") (r_constraint ">= 4.0")).
  - vm_compute. reflexivity.
  - assert (forallb spelled_back (resolution_packages resolution) = true) as Hp by (vm_compute; reflexivity).
    apply Forall_forall. intros p Hin%list_elem_of_In. rewrite forallb_forall in Hp. by apply spelled_back_ok, Hp.
  - vm_compute. reflexivity.
Defined.

Lemma compose_environment_spec_witness :
  ∃ e, composed = Ok e ∧ composed_target e = target ∧ composed_repositories e = configured ∧
    ∃ root, root ∈ composed_roots e ∧ intent_name root = pak.
Proof.
  assert (is_ok composed = true) as Hok by (vm_compute; reflexivity).
  destruct composed as [e|] eqn:E; [|done]. exists e. split; [done|].
  destruct (compose_environment_spec document "default" target [] e E)
    as (_ & Ht & _ & Hr & _ & _ & _ & _ & _ & Hroots & _).
  split_and!; [done..|]. apply Hroots. vm_compute. discriminate.
Defined.

Lemma normalize_requested_path_spec_witness :
  ∃ n names, names ≠ [] ∧ Forall plain_component names ∧ Forall no_separator names ∧
    "../lib/pkg" = str_join "/" (replicate n DOT_DOT ++ names) ∧
    normalize_requested_path "../lib/pkg" = Ok "../lib/pkg".
Proof.
  destruct (normalize_requested_path_spec "../lib/./x/..//pkg" "../lib/pkg") as (n & names & ? & ? & ? & ? & ?);
    [vm_compute; reflexivity|]. exists n, names. split_and!; [done..|]. vm_compute. reflexivity.
Defined.
