(* ===== verification/ProviderExamples.v ===== *)
(** * The provider at concrete inputs

    A generation of two histories prepared, validated, opened and served; records of
    a package index that are kept, set aside and repeated, and an archive index of
    them; and evidence of two packages composed into the input of a snapshot. *)

From S2P Require Import Prelude Effects RustStd Collections Text Externals FileSystem Format Versions.
From S2P Require Import Names GitUrl Publication Identity Constraints Digest Metadata Request Candidates.
From S2P Require Import Resolution Description Catalog CatalogImport CatalogLaws CatalogIndexLaws.
From S2P Require Import Instances Examples Snapshot SnapshotValidation SnapshotCodec SnapshotLaws.
From S2P Require Import SnapshotHistoryLaws SnapshotReleaseLaws SnapshotPublish Evidence EvidenceWire.
From S2P Require Import EvidenceMerge EvidenceLaws EvidenceIndex EvidenceSnapshot.

(** ** A codec of finitely many values: the code of a value is its place in the list *)

Section table.
Context {A : Type} `{EqDecision A} (values : list A).

Fixpoint code_of (x : A) (l : list A) : option nat :=
  match l with
  | [] => None
  | y :: l => if decide (x = y) then Some 0 else S <$> code_of x l
  end.

Definition table_encode (x : A) : result (list byte) string :=
  match code_of x values with
  | Some i => if bool_decide (i < 256) then Ok [byte_of (N.of_nat i)] else Err "too many values"
  | None => Err "unknown value"
  end.

Definition table_decode (l : list byte) : result (A * list byte) string :=
  match l with
  | [] => Err "no bytes"
  | b :: rest => match values !! N.to_nat (u8 b) with
                 | Some x => Ok (x, rest)
                 | None => Err "unknown code"
                 end
  end.

Lemma code_of_lookup x l i : code_of x l = Some i → l !! i = Some x.
Proof.
  revert i. induction l as [|y l IH]; intros i; simpl; [done|]. case_decide as E; [by intros [= <-]; subst|].
  intros (j & Hj & ->)%fmap_Some. simpl. auto.
Qed.

Lemma table_round_trip x l : table_encode x = Ok l → table_decode l = Ok (x, []).
Proof.
  unfold table_encode. destruct (code_of x values) as [i|] eqn:E; [|done].
  case_bool_decide as Hi; [|done]. intros [= <-]. unfold table_decode.
  rewrite u8_byte_of by lia. by rewrite Nat2N.id, (code_of_lookup _ _ _ E).
Qed.
End table.

(** Decidable equality of the records. *)
#[export] Instance CoverageV1_eq_dec : EqDecision CoverageV1.
Proof. solve_decision. Defined.
#[export] Instance SourceObservationV1_eq_dec : EqDecision SourceObservationV1.
Proof. solve_decision. Defined.
#[export] Instance SnapshotHeaderV1_eq_dec : EqDecision SnapshotHeaderV1.
Proof. solve_decision. Defined.
#[export] Instance ParseStateV1_eq_dec : EqDecision ParseStateV1.
Proof. solve_decision. Defined.
#[export] Instance NamespaceStateV1_eq_dec : EqDecision NamespaceStateV1.
Proof. solve_decision. Defined.
#[export] Instance OccurrenceStateV1_eq_dec : EqDecision OccurrenceStateV1.
Proof. solve_decision. Defined.
#[export] Instance SemanticsStateV1_eq_dec : EqDecision SemanticsStateV1.
Proof. solve_decision. Defined.
#[export] Instance PublicationStateV1_eq_dec : EqDecision PublicationStateV1.
Proof. solve_decision. Defined.
#[export] Instance FreshnessStateV1_eq_dec : EqDecision FreshnessStateV1.
Proof. solve_decision. Defined.
#[export] Instance EvidenceAxesV1_eq_dec : EqDecision EvidenceAxesV1.
Proof. solve_decision. Defined.
#[export] Instance RawObservationV1_eq_dec : EqDecision RawObservationV1.
Proof. solve_decision. Defined.
#[export] Instance DecisionCodeV1_eq_dec : EqDecision DecisionCodeV1.
Proof. solve_decision. Defined.
#[export] Instance DecisionV1_eq_dec : EqDecision DecisionV1.
Proof. solve_decision. Defined.
#[export] Instance LookupStateV1_eq_dec : EqDecision LookupStateV1.
Proof. solve_decision. Defined.
#[export] Instance RelationOpV1_eq_dec : EqDecision RelationOpV1.
Proof. solve_decision. Defined.
#[export] Instance ClauseV1_eq_dec : EqDecision ClauseV1.
Proof. solve_decision. Defined.
#[export] Instance DependencyKindV1_eq_dec : EqDecision DependencyKindV1.
Proof. solve_decision. Defined.
#[export] Instance DependencyV1_eq_dec : EqDecision DependencyV1.
Proof. solve_decision. Defined.
#[export] Instance DistributionV1_eq_dec : EqDecision DistributionV1.
Proof. solve_decision. Defined.
#[export] Instance EvidenceReferenceV1_eq_dec : EqDecision EvidenceReferenceV1.
Proof. solve_decision. Defined.
#[export] Instance GitProvenanceV1_eq_dec : EqDecision GitProvenanceV1.
Proof. solve_decision. Defined.
#[export] Instance EligibleReleaseV1_eq_dec : EqDecision EligibleReleaseV1.
Proof. solve_decision. Defined.
#[export] Instance PackageHistoryV1_eq_dec : EqDecision PackageHistoryV1.
Proof. solve_decision. Defined.
#[export] Instance PostcardHistoryV1_eq_dec : EqDecision PostcardHistoryV1.
Proof. solve_decision. Defined.

(** ** Concrete formats *)

Module Stored.
Import Repo.

#[export] Instance ending_Timestamps : Timestamps := {
  Timestamp_parses s := ends_with (byte_of 90) s;
}.

#[export] Instance joined_JsonBytes : JsonBytes (list FieldV1 * option OccurrenceArtifactV1) := {
  json_to_vec p := Ok (mjoin ((λ f, bytes (field_name f) ++ bytes (field_value f)) <$> p.1));
  json_from_slice _ := Err "not read";
}.

(** ** The input *)

Definition source : SourceInput := {|
  input_kind := "cran"; input_representation := "packages"; input_content_sha256 := replicate 32 (byte_of 171);
  input_etag := None; input_last_modified := None; input_observed_at := "2025-01-01T00:00:00Z";
  input_endpoint := "https://cran.r-project.org" |}.

Definition axes : EvidenceAxesV1 := {|
  axes_parse := ParseValid; axes_namespace := NamespaceEstablished; axes_occurrence := OccurrenceArtifactBound;
  axes_semantics := SemanticsComplete; axes_publication := PublicationDated; axes_freshness := FreshnessCurrentGeneration |}.

Definition observation (id : N) (version : string) : RawObservationV1 := {|
  observation_id := id; observation_source_index := 0; observation_record_index := id;
  observation_fields := [mk_FieldV1 "Version" version]; observation_artifact := None;
  observation_axes := axes |}.

(** A release of [R6] that imports [rlang]; its digest is that of the domain release. *)
Definition r6_dependency : DependencyV1 :=
  mk_DependencyV1 KindV1Imports "rlang" [mk_ClauseV1 OpV1Ge "1.1.0"].
Definition r6_identity (version : string) : ReleaseIdentity :=
  mk_ReleaseIdentity (mk_PackageName "R6") (RegistryRelease (mk_Identifier "cran") (v version)).
Definition domain_dependencies : list DeclaredDependency :=
  match dependency_to_domain r6_dependency with Ok d => [d] | Err _ => [] end.

Definition distribution : DistributionV1 := {|
  distribution_registry := "cran"; distribution_channel := "source"; distribution_snapshot := None;
  distribution_artifacts := [mk_ArtifactV1 "src/contrib/R6.tar.gz" [mk_ChecksumV1 "md5" "0"] (Some 10%N)];
  distribution_metadata := [] |}.

Definition r6_release (version : string) (currentness : CandidateCurrentnessV1) (id : N) : EligibleReleaseV1 := {|
  eligible_package := "R6"; eligible_version := version; eligible_namespace := "cran";
  eligible_git_provenance := None; eligible_currentness := currentness;
  eligible_metadata := [mk_FieldV1 "License" "MIT"]; eligible_publication := Some "2024-12-01";
  eligible_dependencies := [r6_dependency]; eligible_distributions := [distribution];
  eligible_metadata_sha256 := sha256_digest (metadata_encoding (r6_identity version) (v version) domain_dependencies);
  eligible_evidence := [mk_EvidenceReferenceV1 id [RoleArtifact; RoleSemantics]] |}.

Definition r6 : PackageHistoryV1 := {|
  history_package := "R6"; history_state := LookupPresent;
  history_observations := [observation 0 "2.5.0"; observation 1 "2.5.1"; observation 2 "2.4.0"];
  history_decisions := [mk_DecisionV1 QuarantinedRelease [2%N] "conflicting artifacts"];
  history_eligible_releases := [r6_release "2.5.0" HistoricalV1 0; r6_release "2.5.1" CurrentV1 1] |}.

Definition broken : PackageHistoryV1 := {|
  history_package := "broken"; history_state := LookupIncomplete; history_observations := [];
  history_decisions := []; history_eligible_releases := [] |}.

#[export] Instance table_Postcard : Postcard PostcardHistoryV1 := {
  postcard_to_stdvec := table_encode [mk_PostcardHistoryV1 r6; mk_PostcardHistoryV1 broken];
  postcard_take_from_bytes := table_decode [mk_PostcardHistoryV1 r6; mk_PostcardHistoryV1 broken];
}.
#[export] Instance table_PostcardLaws : PostcardLaws PostcardHistoryV1.
Proof. constructor. apply table_round_trip. Qed.

Definition input : SnapshotBuildInput := {|
  build_registry_id := mk_Identifier "cran"; build_compatibility_profile := 1; build_parser_schema := 1;
  build_normalization_policy := 2; build_created_at := "2025-01-01T00:00:00Z"; build_producer := "rsolve";
  build_coverage := mk_CoverageV1 "complete" "all" "current" [source_id (source_observation source)] [];
  build_sources := [source]; build_histories := [broken; r6] |}.

Definition prepared_input : SnapshotHeaderV1 * list (string * list byte) :=
  match prepare input with
  | Ok p => p
  | Err _ => (mk_SnapshotHeaderV1 "" 0 0 0 0 0 "" "" "" "" (mk_CoverageV1 "" "" "" [] []) [] 0 0 0 0 "", [])
  end.

Definition header : SnapshotHeaderV1 :=
  with_generation prepared_input.1 (generation_id input prepared_input.1).

#[export] Instance table_JsonBytes : JsonBytes SnapshotHeaderV1 := {
  json_to_vec := table_encode [header];
  json_from_slice l := result_map fst (table_decode [header] l);
}.
#[export] Instance table_JsonBytesLaws : JsonBytesLaws SnapshotHeaderV1.
Proof. constructor. intros x l Hx. cbn. by rewrite (table_round_trip _ _ _ Hx). Qed.

(** ** A database is its tables *)

Definition Table : Type := list (string * list byte).

#[export] Instance tables_Redb : Redb := {
  ReadOnlyDatabase := Table * Table;
  ReadTransaction := Table * Table;
  ReadOnlyTable := Table;
  ReadOnlyDatabase_open _ := st_err "no such file";
  begin_read database := Ok database;
  open_table read name :=
    if bool_decide (name = SNAPSHOT_HEADER) then Ok read.1
    else if bool_decide (name = PACKAGE_HISTORIES) then Ok read.2
    else Err "no such table";
  table_get table key := Ok (bt_get str_cmp key table);
  table_iter table := Ok (Ok <$> table);
  table_len table := Ok (len_u64 table);
}.

Definition database : ReadOnlyDatabase := ([(HEADER_KEY, [byte_of 0])], prepared_input.2).

Example contents :
  generation_contents input = Ok (header, ([byte_of 0], prepared_input.2)).
Proof. vm_compute. reflexivity. Qed.
Example header_valid : validate_header header = Ok tt.
Proof. vm_compute. reflexivity. Qed.

(** ** The witnesses *)

Lemma database_holds_contents : database_holds database [byte_of 0] prepared_input.2.
Proof.
  constructor. exists database, database.1, database.2. split_and!; try reflexivity.
  all: vm_compute; reflexivity.
Qed.

Definition loader : ReadOnlySnapshotCandidateLoader :=
  mk_ReadOnlySnapshotCandidateLoader database header (source_indexes_of (header_sources header)).
Definition r6_name : PackageName := mk_PackageName "R6".
Definition loaded : RawCandidateLoadResult :=
  match snapshot_load loader (KeyInstalledName r6_name) with
  | Ok res => res
  | Err _ => mk_RawCandidateLoadResult [] []
  end.

(** Two releases are served, one version is quarantined. *)
Example loaded_versions :
  ((λ o, RPackageVersion_as_str (release_version (raw_release o))) <$> raw_observations loaded,
   (λ q, RPackageVersion_as_str (quarantined_version q)) <$> raw_quarantined loaded)
  = (["2.5.0"; "2.5.1"], ["2.4.0"]).
Proof. vm_compute. reflexivity. Qed.

(** The same history with its releases in the other order is refused. *)
Example reversed_history_refused :
  validate_history {| history_package := "R6"; history_state := LookupPresent;
    history_observations := history_observations r6; history_decisions := [];
    history_eligible_releases := rev (history_eligible_releases r6) |} [] 1
  = Err (Invalid "eligible releases are not canonically ordered").
Proof. vm_compute. reflexivity. Qed.

Lemma snapshot_codec_roundtrip_witness :
  encode_history r6 = Ok (envelope [byte_of 0]) ∧ decode_history (envelope [byte_of 0]) = Ok r6 ∧
  decode_header [byte_of 0] = Ok header.
Proof.
  assert (encode_history r6 = Ok (envelope [byte_of 0])) as He by (vm_compute; reflexivity).
  split; [exact He|]. destruct snapshot_codec_roundtrip as [Hh Hd]. split.
  - apply Hh. split; [exact He|vm_compute; reflexivity].
  - apply Hd. split; vm_compute; reflexivity.
Defined.

Lemma history_canonical_form_witness :
  validate_history r6 [] 1 = Ok tt ∧ r6 = with_observations r6 (history_observations r6).
Proof.
  assert (validate_history r6 [] 1 = Ok tt) as Hv by (vm_compute; reflexivity).
  split; [exact Hv|].
  apply (history_canonical_form r6 (with_observations r6 (history_observations r6)) [] [] 1 1);
    [exact Hv|vm_compute; reflexivity|].
  split_and!; try reflexivity; (eexists; split; [reflexivity|]).
  - repeat constructor.
  - repeat constructor.
  - assert (∀ r, release_alike r r) as Hr.
    { intros r. split_and!; try reflexivity; (eexists; split; [reflexivity|]);
        apply Forall_Forall2_diag, Forall_true; intros x; split_and!; try reflexivity.
      eexists. split; [reflexivity|]. apply Forall_Forall2_diag, Forall_true.
      intros a. by split_and!. }
    apply Forall_Forall2_diag, Forall_true, Hr.
Defined.

Lemma release_to_domain_spec_witness :
  ∃ r, release_to_domain (r6_release "2.5.1" CurrentV1 1) = Ok r ∧
    stands_for (r6_release "2.5.1" CurrentV1 1) r.
Proof.
  destruct (release_to_domain (r6_release "2.5.1" CurrentV1 1)) as [r|] eqn:E.
  - exists r. split; [reflexivity|]. apply (proj1 release_to_domain_spec). exact E.
  - vm_compute in E. discriminate E.
Defined.

Lemma snapshot_load_sound_witness :
  snapshot_load loader (KeyInstalledName r6_name) = Ok loaded ∧ raw_observations loaded ≠ [].
Proof.
  assert (snapshot_load loader (KeyInstalledName r6_name) = Ok loaded) as Hl by (vm_compute; reflexivity).
  split; [exact Hl|].
  destruct (snapshot_load_sound loader (KeyInstalledName r6_name) loaded Hl)
    as (name & h & read & table & value & _ & _ & _ & _ & _ & _ & _ & Hne & _). exact Hne.
Defined.

Lemma prepared_generation_served_witness :
  validate_database database (mk_Identifier "cran") = Ok header ∧
  ∃ loader, loader_of_database database (mk_Identifier "cran") = Ok loader ∧
    answers r6 (snapshot_load loader (KeyInstalledName r6_name)).
Proof.
  destruct (prepared_generation_served input header [byte_of 0] prepared_input.2 database
    contents header_valid database_holds_contents) as [Hv (l & Hl & Hserve)].
  split; [exact Hv|]. exists l. split; [exact Hl|].
  apply (proj1 (Hserve r6_name)); [by right; left|vm_compute; reflexivity].
Defined.
End Stored.

(** ** A small package index *)

Module Indexed.

Definition entry (i : nat) (package version depends : string) (path : list (string * string)) :
    CatalogRecord :=
  (i, Some package,
   [("Package", package); ("Version", version); ("Depends", depends); ("License", "MIT")] ++ path).

Definition matrix_pkg : PackageName := mk_PackageName "Matrix".

(** A release, one that cannot be read, an overlay, and a second spelling of the first. *)
Definition records : list CatalogRecord :=
  [entry 0 "Matrix" "1.7-0" "R (>= 4.4)" [];
   entry 1 "Matrix" "1.6-5" "R (>= 3.x)" [];
   entry 2 "Matrix" "1.7-1" "R (>= 4.4)" [("Path", "4.5.0/Recommended")];
   entry 3 "Matrix" "1.7-0" "R (>= 4.4)" []].

Definition projection : CranProviderObservationProjection :=
  provider_observations_from_fields records PackagesIndex (Some matrix_pkg).

Example projected :
  (catalog_record_index <$> projection_observations projection,
   rejection_record_index <$> projection_rejections projection,
   (λ r, version_raw (release_version r))
     <$> candidates (from_provider_observations (projection_observations projection)) matrix_pkg)
  = ([0; 2; 3], [1], ["1.7-0"]).
Proof. vm_compute. reflexivity. Qed.

(** After a record that cannot be read the next one of its identity is a duplicate,
    but the one after it is kept. *)
Definition repeated : list CatalogRecord :=
  [entry 0 "Matrix" "1.6-5" "R (>= 3.x)" []; entry 1 "Matrix" "1.6-5" "R (>= 3.5)" [];
   entry 2 "Matrix" "1.6-5" "R (>= 3.5)" []].

Example third_duplicate_kept :
  let p := provider_observations_from_fields repeated PackagesIndex None in
  (catalog_record_index <$> projection_observations p,
   rejection_record_index <$> projection_rejections p) = ([2], [0; 1]).
Proof. vm_compute. reflexivity. Qed.

Lemma indexes_distinct : NoDup (records.*1.*1).
Proof. apply (bool_decide_unpack _). vm_compute. exact I. Qed.

Lemma provider_observations_spec_witness :
  NoDup (records.*1.*1) ∧
  (catalog_record_index <$> projection_observations projection) ++
    (rejection_record_index <$> projection_rejections projection) ≡ₚ records.*1.*1 ∧
  (∀ r, r ∈ projection_rejections projection →
     rejection_of PackagesIndex (Some matrix_pkg) records
       (root_releases (projection_observations projection)) r).
Proof.
  pose proof (provider_observations_spec records PackagesIndex (Some matrix_pkg) indexes_distinct)
    as (_ & _ & Hperm & _ & _ & Hrej).
  split; [exact indexes_distinct|]. split; [exact Hperm|exact Hrej].
Defined.

Lemma from_provider_observations_spec_witness :
  NoDup (records.*1.*1) ∧
  catalog_for (root_releases (projection_observations projection))
    (from_provider_observations (projection_observations projection)).
Proof.
  exact (conj indexes_distinct
    (from_provider_observations_spec records PackagesIndex (Some matrix_pkg) indexes_distinct)).
Defined.

(** An index whose rows are the records, for any bytes. *)
#[local] Instance records_rds : PackagesRds := {
  ReadOptions := bool;
  ReadOptions_default := false;
  assume_utf8 := λ _, true;
  RObject := list byte;
  from_bytes_with_options := λ input _, if bool_decide (input = []) then Err "no bytes" else Ok input;
  PackagesMatrix := unit;
  PackagesMatrix_from_object := λ _, Ok tt;
  column_names := λ _, ["Package"; "Version"; "Depends"; "License"; "Path"];
  has_column := λ _ column, bool_decide (column ∈ ["Package"; "Version"; "Depends"; "License"; "Path"]);
  MatrixRow := nat;
  matrix_rows := λ _, seq 0 4;
  row_index := id;
  row_get := λ i column, (λ record, field record.2 column) <$> records !! i
}.

Example archive_accepted :
  match provider_archive_index_rds [byte_of 88] matrix_pkg with
  | Ok p => candidate_count (archive_catalog p) = 1 ∧ length (archive_rejections p) = 1
  | Err _ => False
  end.
Proof. vm_compute. done. Qed.

(** The same rows, asked for another package. *)
Example archive_of_another_package :
  match provider_archive_index_rds [byte_of 88] (mk_PackageName "nlme") with
  | Err (IdentityInvalid diagnostics) => length diagnostics = 4
  | _ => False
  end.
Proof. vm_compute. done. Qed.

Lemma numbered : ∀ matrix, NoDup (row_index <$> matrix_rows matrix).
Proof. intros []. apply (bool_decide_unpack _). vm_compute. exact I. Qed.

Lemma provider_archive_index_spec_witness :
  (∀ matrix : PackagesMatrix, NoDup (row_index <$> matrix_rows matrix)) ∧
  ∃ p matrix, provider_archive_index_rds [byte_of 88] matrix_pkg = Ok p ∧
    read_matrix [byte_of 88] provider_rds_read_options = Ok matrix ∧
    Forall (names_package matrix_pkg) (archive_records matrix).
Proof.
  split; [exact numbered|].
  pose proof (provider_archive_index_spec numbered [byte_of 88] matrix_pkg) as Hspec.
  destruct (provider_archive_index_rds [byte_of 88] matrix_pkg) as [p|e] eqn:E.
  - destruct Hspec as (matrix & Hm & Hall & _). exists p, matrix. split; [done|]. split; [exact Hm|exact Hall].
  - exfalso. revert E. vm_compute. discriminate.
Defined.
End Indexed.

(** ** Evidence of two packages *)

Module Composed.

(** The last bytes of its input, so that two sources have two ids. *)
#[local] Instance suffix_Sha2 : Sha2 := {
  sha256_digest data := take 32 (rev data ++ replicate 32 x00);
}.
#[local] Instance suffix_Sha2Laws : Sha2Laws.
Proof.
  constructor. intros data. unfold sha256_digest, suffix_Sha2.
  rewrite length_take, length_app, length_replicate. lia.
Qed.

Definition version (s : string) : RPackageVersion := Repo.v s.
Definition r6_name : PackageName := mk_PackageName "R6".
Definition any_rlang : DeclaredDependency :=
  mk_DeclaredDependency Imports (mk_PackageRequirement (mk_PackageName "rlang") SourceAny
    (mk_VersionConstraint [mk_VersionClause OpGe (version "1.1.0")])).

(** A release of [R6] with one field. *)
Definition observed (text : string) (f : string * string) (date : option string) :
    option PackageRelease :=
  match PackageRelease_try_from
    {| observed_identity := cran_identity r6_name (version text); observed_package := r6_name;
       observed_version := version text; observed_release_metadata := mk_ReleaseMetadata [f];
       observed_publication := (λ d, mk_ReleasePublication (mk_PublicationDate d)) <$> date;
       observed_dependencies := [any_rlang]; observed_distributions := [] |} with
  | Ok r => Some r
  | Err _ => None
  end.

Definition source (content : N) : SourceInput := {|
  input_kind := "cran"; input_representation := "packages";
  input_content_sha256 := replicate 32 (byte_of content); input_etag := None;
  input_last_modified := None; input_observed_at := "2025-01-01T00:00:00Z";
  input_endpoint := "https://cran.r-project.org" |}.

Definition axes (occurrence : OccurrenceStateV1) (semantics : SemanticsStateV1) (publication : PublicationStateV1) :
    EvidenceAxesV1 := {|
  axes_parse := ParseValid; axes_namespace := NamespaceEstablished; axes_occurrence := occurrence;
  axes_semantics := semantics; axes_publication := publication; axes_freshness := FreshnessCurrentGeneration |}.

Definition artifact : OccurrenceArtifactV1 :=
  mk_OccurrenceArtifactV1 "src/contrib/R6_2.5.0.tar.gz" [mk_ChecksumV1 "md5" "1"; mk_ChecksumV1 "md5" "0"] (Some 10%N).

(** An artifact of 2.5.0, its date, a later version, and a package without semantics. *)
Definition archived : CranEvidenceObservation :=
  mk_CranEvidenceObservation (source 1) r6_name 0 [mk_FieldV1 "Version" "2.5.0"] (Some artifact)
    (axes OccurrenceArtifactBound SemanticsComplete PublicationUnknown) HistoricalV1
    (observed "2.5.0" ("License", "MIT") None) ConfiguredContext Root.
Definition dated : CranEvidenceObservation :=
  mk_CranEvidenceObservation (source 2) r6_name 0 [mk_FieldV1 "Version" "2.5.0"] None
    (axes OccurrenceObservationOnly SemanticsIncomplete PublicationDated) CurrentV1
    (observed "2.5.0" ("URL", "https://r6.r-lib.org") (Some "2024-12-01")) ConfiguredContext Root.
Definition later : CranEvidenceObservation :=
  mk_CranEvidenceObservation (source 2) r6_name 1 [mk_FieldV1 "Version" "2.6.0"] None
    (axes OccurrenceObservationOnly SemanticsComplete PublicationUnknown) CurrentV1
    (observed "2.6.0" ("License", "MIT") None) ConfiguredContext Root.
Definition unreadable : CranEvidenceObservation :=
  mk_CranEvidenceObservation (source 1) (mk_PackageName "broken") 1 [] None
    (axes OccurrenceObservationOnly SemanticsIncomplete PublicationUnknown) HistoricalV1 None ConfiguredContext Root.

Definition given : list CranEvidenceObservation := [later; archived; unreadable; dated].

Definition canonical : OccurrenceArtifactV1 :=
  mk_OccurrenceArtifactV1 "src/contrib/R6_2.5.0.tar.gz" [mk_ChecksumV1 "md5" "0"; mk_ChecksumV1 "md5" "1"] (Some 10%N).
Definition payloads : list (list FieldV1 * option OccurrenceArtifactV1) :=
  [([], None); ([mk_FieldV1 "Version" "2.5.0"], None); ([mk_FieldV1 "Version" "2.5.0"], Some canonical);
   ([mk_FieldV1 "Version" "2.6.0"], None)].
#[local] Instance payload_JsonBytes : JsonBytes (list FieldV1 * option OccurrenceArtifactV1) := {
  json_to_vec := table_encode payloads;
  json_from_slice l := result_map fst (table_decode payloads l);
}.
#[local] Instance payload_JsonBytesLaws : JsonBytesLaws (list FieldV1 * option OccurrenceArtifactV1).
Proof. constructor. intros x l Hx. cbn. by rewrite (table_round_trip _ _ _ Hx). Qed.

Definition context : SnapshotCompositionContext :=
  mk_SnapshotCompositionContext (mk_Identifier "cran") 1 1 2 "2025-01-01T00:00:00Z" "rsolve"
    (mk_CoverageV1 "complete" "all" "current" [] []).

Definition composition : SnapshotBuildInput :=
  match compose_snapshot context given with
  | Ok input => input
  | Err _ => mk_SnapshotBuildInput (mk_Identifier "") 0 0 0 "" "" (mk_CoverageV1 "" "" "" [] []) [] []
  end.

Example composed_ok : compose_snapshot context given = Ok composition.
Proof. vm_compute. reflexivity. Qed.

Example composed_packages :
  (λ h, (history_package h, is_present (history_state h), eligible_version <$> history_eligible_releases h,
         (λ d, (decision_code d, decision_observation_ids d)) <$> history_decisions h))
    <$> build_histories composition
  = [("R6", true, ["2.5.0"; "2.6.0"], [(EquivalentMerge, [0; 1]%N)]);
     ("broken", false, [], [(IncompleteSemantics, [0%N])])].
Proof. vm_compute. reflexivity. Qed.

Lemma observed_built text f date r :
  RPackageVersion_parse (RPackageVersion_fmt (version text)) = Ok (version text) →
  (∀ d, date = Some d → PublicationDate_parse d = Ok (mk_PublicationDate d)) →
  observed text f date = Some r → release_built r.
Proof.
  intros Hv Hd. unfold observed, PackageRelease_try_from. cbn [observed_identity observed_version observed_dependencies].
  destruct (negb _); [done|]. destruct (match provenance_version _ with Some _ => _ | None => _ end); [done|].
  destruct (first_invalid_dependency _ _); [done|]. intros [= <-]. constructor; simpl.
  - by intros ? ? [= <- <-].
  - exact Hv.
  - destruct date as [d|]; [|done]. intros p [= <-]. simpl. by apply Hd.
  - constructor; [|constructor]. split; [vm_compute; reflexivity|]. constructor; [|constructor].
    exists "1.1.0", 2. vm_compute. reflexivity.
  - constructor.
Qed.

Lemma given_built : Forall evidence_built given.
Proof.
  repeat (apply Forall_cons; split); [..|constructor]; constructor; try (vm_compute; reflexivity || exact I);
    try (intros a [= <-]; repeat constructor; discriminate); try (by intros ? [=]); intros r;
    apply observed_built; try (vm_compute; reflexivity); try (by intros ? [=]).
  intros d [= <-]. vm_compute. reflexivity.
Qed.

Lemma compose_snapshot_order_witness :
  compose_snapshot context given = Ok composition ∧
  compose_snapshot context [archived; unreadable; dated; later] = Ok composition.
Proof.
  split; [exact composed_ok|]. refine (compose_snapshot_order context given _ composition _ composed_ok).
  apply (Permutation_cons_append [archived; unreadable; dated] later).
Defined.

(** ** The packages of the composition *)

Definition positions : IndexedInput :=
  match index_observations given with
  | Ok input => input
  | Err _ => mk_IndexedInput [] [] [] []
  end.
Example positions_ok : index_observations given = Ok positions.
Proof. vm_compute. reflexivity. Qed.

Lemma registry_built : identifier_built (mk_Identifier (kind:=KRegistryId) "cran").
Proof. vm_compute. reflexivity. Qed.

Lemma r6_ready : indexes_ready (input_observations positions) r6_name (length (input_source_ids positions)) [0; 2; 3].
Proof.
  destruct (proj1 (index_observations_ok given positions) positions_ok) as (keyed & Hin).
  apply (package_ready given positions keyed Hin given_built r6_name [0; 2; 3]).
  assert (input_package_indexes positions = [(r6_name, [0; 2; 3]); (mk_PackageName "broken", [1])]) as -> by (vm_compute; reflexivity).
  left.
Qed.

Lemma compose_history_eligibility_witness :
  ∃ h, compose_history (input_observations positions) (mk_Identifier "cran") r6_name [0; 2; 3] = Ok h ∧
    is_present (history_state h) = true ∧
    evidence_complete (input_observations positions) [0; 2; 3].
Proof.
  destruct (compose_history (input_observations positions) (mk_Identifier "cran") r6_name [0; 2; 3]) as [h|] eqn:E;
    [|exfalso; vm_compute in E; discriminate E].
  exists h. split; [reflexivity|].
  assert (is_present (history_state h) = true) as Hp by (vm_compute in E; injection E as <-; reflexivity).
  split; [exact Hp|].
  refine (proj1 (proj1 (proj1 (compose_history_eligibility (input_observations positions) (mk_Identifier "cran")
    registry_built r6_name _ [0; 2; 3] r6_ready _ h E)) Hp)).
  vm_compute. discriminate.
Defined.

(** The two observations of 2.5.0. *)
Definition groups : list (IdentityKey * list Entry) :=
  bt_group identity_key_cmp (omap (accepted_at (input_observations positions)) [0; 2; 3]).
Definition entries : list Entry := match groups with g :: _ => g.2 | [] => [] end.
Definition first : PackageRelease :=
  match entries with
  | e :: _ => e.2
  | [] => Repo.release Repo.cran_registry r6_name "2.5.0" "2024-12-01" []
  end.
Definition authorities : list Entry := List.filter (is_authoritative (input_observations positions)) entries.

Lemma entries_of_r6 : entries_ready (input_observations positions) entries.
Proof.
  apply (group_entries_ready (input_observations positions) r6_name (length (input_source_ids positions)) [0; 2; 3]
    (r6_name, version "2.5.0") entries r6_ready).
  assert (bt_group identity_key_cmp (omap (accepted_at (input_observations positions)) [0; 2; 3])
    = (r6_name, version "2.5.0", entries) :: tail groups) as -> by (vm_compute; reflexivity).
  left.
Qed.

Lemma merge_release_group_spec_witness :
  ∃ p, merge_release_group (input_observations positions) (mk_Identifier "cran") first entries first
         ((0, first) :: tail authorities) = Ok p ∧
    release_fields (release_metadata (pending_release p)) = [("License", "MIT"); ("URL", "https://r6.r-lib.org")] ∧
    Forall2 (evidence_of (input_observations positions)) (pending_observations p) entries ∧ pending_ready p.
Proof.
  destruct (merge_release_group (input_observations positions) (mk_Identifier "cran") first entries first
    ((0, first) :: tail authorities)) as [p|] eqn:E; [|exfalso; vm_compute in E; discriminate E].
  exists p. split; [reflexivity|]. split; [vm_compute in E; injection E as <-; reflexivity|].
  assert (entries = (0, first) :: tail entries) as Hfirst by (vm_compute; reflexivity).
  assert (first ∈ entries.*2) as Hin by (rewrite Hfirst; left).
  assert (∀ e, e ∈ (0, first) :: tail authorities → e ∈ entries) as Hauth.
  { assert ((0, first) :: tail authorities = authorities) as -> by (vm_compute; reflexivity).
    intros e He. unfold authorities in He. apply elem_of_filter_bool in He as [He _]. exact He. }
  destruct (merge_release_group_spec (input_observations positions) (mk_Identifier "cran") first entries 0
    first (tail authorities) p registry_built entries_of_r6 Hin Hauth E)
    as (_ & _ & _ & _ & _ & _ & _ & _ & _ & _ & Hev & _ & Hr).
  split; [exact Hev|exact Hr].
Defined.

#[local] Instance composed_Postcard : Postcard PostcardHistoryV1 := {
  postcard_to_stdvec := table_encode (mk_PostcardHistoryV1 <$> build_histories composition);
  postcard_take_from_bytes := table_decode (mk_PostcardHistoryV1 <$> build_histories composition);
}.

Lemma compose_snapshot_prepared_witness :
  compose_snapshot context given = Ok composition ∧ ∃ header rows, prepare composition = Ok (header, rows).
Proof.
  split; [exact composed_ok|].
  apply (compose_snapshot_prepared context given composition registry_built given_built); try exact composed_ok.
  - vm_compute. discriminate.
  - vm_compute. reflexivity.
  - vm_compute. reflexivity.
  - assert (forallb (λ h, is_ok (validate_history_limits h) && is_ok (encode_history h)) (build_histories composition) = true)
      as Hall by (vm_compute; reflexivity).
    apply forallb_Forall in Hall. eapply Forall_impl; [exact Hall|]. intros h [Hl He]%andb_true_iff.
    split; [|exact He]. destruct (validate_history_limits h) as [[]|]; [reflexivity|discriminate Hl].
Defined.
End Composed.
